(* ===== verification/_CoqProject ===== *)
-Q . S2P
Prelude.v
PyStr.v
HeapQ.v
Radix.v
RadixTree.v
RadixUpdate.v
RadixMatch.v
RadixInv.v
RadixSpec.v
RadixLock.v
RadixEvict.v
RadixThms.v
RadixLive.v
Alloc.v
PagedAlloc.v
Sampling.v
Req.v
RadixStore.v
Caches.v
PySort.v
SchedulePolicy.v
PrefillAdder.v
Penalty.v
BatchMem.v
ReqTable.v
SamplingBatch.v
ScheduleBatch.v
BatchSteps.v
Retract.v
Scheduler.v
SchedMem.v
SchedMemBatch.v
SchedBatch.v
SchedAdmit.v
SchedResults.v
SchedTurn.v
SchedLoop.v
SchedLive.v
SchedArrive.v
SchedExamples.v
Grid.v
MoeAlign.v
Tiles.v
LoraKernels.v
LoraLaunch.v
LoraSgemm.v
LoraApply.v
LoraPool.v
LoraLoad.v
LoraInv.v
LoraManager.v
LoraBatch.v
LoraThms.v
LoraExamples.v
Overlap.v
RWLock.v
Reasoning.v
EPLB.v
EPLBMaps.v
ExpertUpdate.v
ExpertComm.v
ExpertPlan.v
ExpertWorld.v
ExpertLocation.v
ExpertLocThms.v
ExpertRebalance.v
ExpertEplb.v
ExpertManager.v
ExpertNet.v
ExpertThms.v
Detokenizer.v
DetokText.v
DetokBatch.v
DetokStream.v
DetokThms.v
Utf8.v
DetokExamples.v
