(* ===== verification/Prelude.v ===== *)
(** * SGLang runtime: a verification library

    SGLang serves language models. A request comes in with a prompt, waits in a queue, is
    admitted to a prefill batch when its tokens fit, then generates one token per decode step
    until it finishes. The keys and values of its tokens live in slots of device memory; a
    prefix cache shares them between requests. This library models the Python code of
    [src/python/sglang/srt] that keeps track of these things, and proves it correct.

    ** The parts and how they interact

    The scheduler owns a queue of requests ([Req]) and a running batch ([ScheduleBatch]).
    [SchedulePolicy] matches the waiting requests against the prefix cache and orders them,
    [PrefillAdder] admits them within a budget and locks their prefixes. The batch takes rows
    of the request table and slots from the allocator, evicting from the prefix cache when
    they run out; a decode step takes one slot for each request, and when there are not enough
    the batch retracts requests. A finished request hands its slots to the prefix cache.

    ** Files and what they model (paths below [src/python/sglang/srt])

    - [Prelude]: exceptions, the state-and-exception monad, Python dictionaries, sums, pages.
      [PyStr]: strings. [PySort]: [list.sort]. [HeapQ]: the standard library's [heapq].
    - [Radix]: the data and operations of [mem_cache/radix_cache.py]. [RadixTree],
      [RadixUpdate], [RadixMatch]: well-formed trees and their updates. [RadixInv]: the
      invariant [cache_ok] of the cache. [RadixSpec], [RadixLock], [RadixEvict]: the loops of
      match and insert, of the locks, of the traversals and eviction. [RadixThms]: the
      theorems. [RadixLive]: what the holders of a cache lock and where its slots are.
    - [Alloc]: the request table and the token allocator of [mem_cache/memory_pool.py], and
      the interface [KVAllocator] with its laws. [PagedAlloc]: [mem_cache/paged_allocator.py]
      with its Triton kernels. [RadixStore]: the radix cache, the table and an allocator
      together ([cache_finished_req], [cache_unfinished_req]).
    - [Caches]: [mem_cache/chunk_cache.py], [mem_cache/multimodal_cache.py] and the slot
      states of the host cache in [mem_cache/memory_pool.py].
    - [Sampling]: [sampling/sampling_params.py]. [Penalty]: [sampling/penaltylib].
      [SamplingBatch]: [sampling/sampling_batch_info.py].
    - [Req], [ScheduleBatch]: the classes [Req] and [ScheduleBatch] of
      [managers/schedule_batch.py]; [BatchMem]: their use of the pools; [ReqTable]: the
      kernels on the request table; [BatchSteps]: building prefill and decode batches;
      [Retract]: retraction.
    - [SchedulePolicy], [PrefillAdder]: [managers/schedule_policy.py].
    - [Scheduler]: the state of [managers/scheduler.py], a turn of [event_loop_normal], the
      processing of results ([managers/scheduler_output_processor_mixin.py]) and the requests,
      aborts and flushes between the turns. [SchedMem], [SchedMemBatch]: who holds which row,
      slot and lock. [SchedBatch], [SchedAdmit], [SchedResults]: the requests of the batches,
      admission, results. [SchedTurn], [SchedLoop]: the invariant and a turn. [SchedLive]: many
      turns. [SchedArrive]: the states that are reached, and starvation. [SchedExamples]: a
      server of 14 slots, run by evaluation.
    - [Detokenizer]: the chunks of tokens that the scheduler sends and
      [managers/detokenizer_manager.py]. [DetokText]: what is known of a tokenizer, and the
      state of one request. [DetokBatch]: batches. [DetokStream]: the sender and the rows of
      one request. [DetokThms]: the theorem. [Utf8], [DetokExamples]: tokenizers of bytes.
    - [Overlap]: [managers/tp_worker_overlap_thread.py], the thread that runs the batches, and
      the placeholders for tokens that are not known yet.
    - [RWLock]: [aio_rwlock.py]. [Reasoning]: [reasoning_parser.py] and
      [constrained/reasoner_grammar_backend.py].
    - [EPLB], [EPLBMaps]: [managers/eplb_algorithms/deepseek.py]. [ExpertLocation],
      [ExpertLocThms]: the placement of the experts and the dispatch to them
      ([managers/expert_location.py], [managers/expert_location_dispatch.py]). [ExpertUpdate]:
      [model_executor/expert_location_updater.py]; [ExpertComm], [ExpertPlan], [ExpertWorld]:
      who sends what to whom, the plan of one rank, all ranks together. [ExpertRebalance]:
      [managers/eplb_manager.py] with [init_by_eplb]; [ExpertEplb], [ExpertManager]: its maps
      and its passes; [ExpertNet]: a network; [ExpertThms]: the theorems.
    - [Grid]: Triton kernels as programs that load and store, and what a launch of many of
      them leaves in memory. [MoeAlign]: [moe_align_block_size] of
      [layers/moe/fused_moe_triton/fused_moe.py]. [Tiles]: blocks of pointers, masks and sums.
    - [LoraKernels]: the kernels of [lora/triton_ops]; [LoraLaunch], [LoraSgemm], [LoraApply]:
      the tiles of a launch, what one program computes, the launches from tensors to tensors.
      [LoraPool]: [lora/mem_pool.py] with the slicing of [lora/layers.py]; [LoraLoad],
      [LoraInv]: what is loaded, and the invariant of the pool. [LoraManager]:
      [prepare_lora_batch] of [lora/lora_manager.py] and the layers; [LoraBatch]: its tensors.
      [LoraThms]: the theorem. [LoraExamples]: a pool of two slots, run by evaluation.

    A class is a Record of its fields, a method a Definition with the method's name. A method
    that mutates its object takes and returns the record; methods that also raise or touch
    several objects run in the monad [M] over the pools. Objects that are shared by reference
    (tree nodes) live in a map from identities. Loops are fixpoints on the list they walk or
    on a fuel.

    ** What the theorems show

    - Prefix cache: match returns the slots of the longest cached prefix, insert adds exactly
      the new tokens, eviction removes only unlocked nodes, least recently used first, until
      enough is freed; locks and the two size counters always agree with the tree.
    - Memory: slots are conserved by the allocators, by handing a request to the cache, by
      building a batch and by retraction; the kernels fill pages without overlap and the
      decode kernel is the extend kernel for one token.
    - Scheduling: each policy sorts the queue by its own measure (the longest cached prefix,
      with the requests that repeat a prefix of an earlier one last; the tree of prefixes, its
      heaviest branches first; the longest output; arrival). Adding a request to a prefill
      batch has one outcome for each state of the budgets, which are charged exactly. The rows
      of a filtered, merged, prefill or decode batch. Retraction takes the requests with the
      least output first and no more of them than the memory of a decode step requires.
    - The loop: from the empty scheduler on, whatever arrives, a turn never raises (there is
      always memory, retraction always ends well, the leak check passes), every slot, row and
      lock is accounted for exactly once, a request of the batch gets exactly one token and no
      request is lost; every request is finished after a bounded number of turns, if it fits
      even when it is charged in full after a retraction. Without that the loop can starve.
    - Requests: a request ends as soon as one of the reasons to end is there, for the first of
      them in a fixed order, and every request ends.
    - Sampling: which arguments pass the checks, and what is made of the stop conditions of
      those that do. Batched penalties act on every request as if it were alone, by the tokens
      it was fed since its prefill: a request that was retracted starts afresh, which is not
      what the documentation says.
    - Experts: the maps of the load balancer are a placement of all replicas, inverse to each
      other, and the maximum load is minimal. Moving a layer from any placement to another
      neither fails nor hangs and leaves every weight in its place; so while the manager
      rebalances between the forward passes, a token always goes to a row that holds the
      weights of its expert. The static dispatch is local where it can be and fair elsewhere.
    - Streaming: the pieces of text that a client gets are together the text of all tokens of
      its request, however the tokens are cut into chunks and batches; a stop token and all
      from the first stop string on are cut off, unless earlier pieces had it.
    - Overlap: in every interleaving of the scheduler and the forward thread, batches that are
      submitted with placeholders give the tokens of the run without overlap, while no
      placeholder waits for longer than the ring of results takes to go round.
    - Adapters: batch after batch, with adapters coming and going in the slots, a layer adds to
      every token what the adapter of its request alone would add, whatever order the programs
      of the kernels run in.
    - Alignment: in every interleaving of the kernels, the blocks of sorted tokens hold every
      token once, with the expert it chose.
    - The lock excludes writers from everybody and somebody can always go on. Streaming the
      reasoning of a model separates what parsing all of it separates, up to white space, and
      where the two differ is said.

    ** Fuel and bounds

    The walks of the radix tree take the length of the key plus one (each turn consumes a
    page), the walks to the root and the traversals the number of nodes, eviction the number
    of leaves and nodes; the theorems say that the calls return, so the fuel is enough.
    Positions and lengths are [nat], tokens and slots [Z], the kernels' memory 64-bit words
    that wrap around where the code packs two numbers in one (32-bit words in [MoeAlign]; the
    offsets of the LoRA kernels are unbounded). [torch.distributed], the random numbers and the
    sorting of tensors are parameters with the laws of their documentation. Floats are an
    abstract type with the laws a theorem names (in [Tiles], those of exact arithmetic that
    cutting a sum into blocks needs, without the casts between float types), or rationals in
    the admission budget and the estimate of new tokens. The messages of exceptions are cut to
    what tells them apart. Lanes that a mask of a Triton load switches off hold arbitrary
    values, the same in two loads of one program. [EPLBManager] has a positive number of
    passes between two rebalances; with none it need not return from one.

    ** Not modelled

    The theorems on the loop are for one pipeline stage without chunked prefill, mixed batches
    and overlap (the definitions of [Scheduler] have chunks and mixed batches), and for
    requests that pass the checks on arrival. Not modelled: the delayed results of the overlap
    loop (its forward thread is, for batches that are given), the pipeline loop, sessions,
    grammar queues, log-probabilities and streaming of the scheduler, the message handling of
    the tokenizer process, the hierarchical cache and its threads, speculative decoding,
    disaggregation and the tool-call parsers; the models, the attention backends and the layers
    but those of LoRA, which are tensor programs; how adapters are read from disk and the
    FlashInfer backend; the recorder of the expert counts and [deepseek_vec]; entry points and
    HTTP APIs, which are input and output. *)

From stdpp Require Export base tactics list gmap strings sorting.
From Stdlib Require Export ZArith Lia.


(** ** Exceptions and the state-and-exception monad *)

(** The Python exceptions the modelled code raises, and the exhaustion of the
    fuel of a modelled loop (a value no theorem lets a call return). *)
Inductive exn :=
  | RuntimeError (msg : string)
  | ValueError (msg : string)
  | AssertionError
  | KeyError
  | IndexError
  | AttributeError
  | TypeError
  | ZeroDivisionError
  | OutOfFuel.

#[export] Instance exn_eq_dec : EqDecision exn.
Proof. solve_decision. Defined.

Inductive result (A : Type) :=
  | Ok (a : A)
  | Raise (e : exn).
Arguments Ok {A} _.
Arguments Raise {A} _.

#[export] Instance result_eq_dec {A} `{EqDecision A} : EqDecision (result A).
Proof. solve_decision. Defined.

#[export] Instance result_ret : MRet result := @Ok.
#[export] Instance result_bind : MBind result := λ A B f r,
  match r with Ok a => f a | Raise e => Raise e end.

#[export] Instance result_fmap : FMap result := λ A B f r,
  match r with Ok a => Ok (f a) | Raise e => Raise e end.

(** A Python call threads the mutable state whether it returns or raises. *)
Definition M (S A : Type) : Type := S → result A * S.

#[export] Instance M_ret {S} : MRet (M S) := λ A a s, (Ok a, s).
#[export] Instance M_bind {S} : MBind (M S) := λ A B f m s,
  match m s with
  | (Ok a, s') => f a s'
  | (Raise e, s') => (Raise e, s')
  end.

Definition raise {S A} (e : exn) : M S A := λ s, (Raise e, s).
Definition get {S} : M S S := λ s, (Ok s, s).
Definition gets {S A} (f : S → A) : M S A := λ s, (Ok (f s), s).
Definition modify {S} (f : S → S) : M S unit := λ s, (Ok tt, f s).
Definition of_option {S A} (e : exn) (o : option A) : M S A :=
  λ s, match o with Some a => (Ok a, s) | None => (Raise e, s) end.

(** Running a sequence step by step. *)
Lemma run_bind {S A B} (x : M S A) (f : A → M S B) s a s' : x s = (Ok a, s') → (x ≫= f) s = f a s'.
Proof. intros E. unfold mbind, M_bind. by rewrite E. Qed.

Lemma run_raise {S A B} (x : M S A) (f : A → M S B) s e s' : x s = (Raise e, s') → (x ≫= f) s = (Raise e, s').
Proof. intros E. unfold mbind, M_bind. by rewrite E. Qed.

(** [mapM] when every call returns. *)
Lemma mapM_Ok {A B} (f : A → result B) xs ys : Forall2 (λ x y, f x = Ok y) xs ys → mapM f xs = Ok ys.
Proof. induction 1 as [|x y xs ys E _ IH]; [done|]. cbn. rewrite E. cbn. by rewrite IH. Qed.

(** ** Python sequences *)

(** [xs[i:j]] for non-negative bounds. *)
Definition slice {A} (i j : nat) (xs : list A) : list A := take (j - i) (drop i xs).

(** [xs[-n:]] for a positive [n] (the whole list when it is shorter). *)
Definition last_n {A} (n : nat) (xs : list A) : list A := drop (length xs - n) xs.

(** [sum(f(x) for x in xs)] over Python integers. *)
Fixpoint zsum {A} (f : A → Z) (xs : list A) : Z :=
  match xs with
  | [] => 0
  | x :: xs => f x + zsum f xs
  end%Z.

Create HintDb py.

Lemma zsum_app {A} (f : A → Z) xs ys : zsum f (xs ++ ys) = (zsum f xs + zsum f ys)%Z.
Proof. induction xs as [|x xs IH]; simpl; lia. Qed.

Lemma zsum_perm {A} (f : A → Z) xs ys : xs ≡ₚ ys → zsum f xs = zsum f ys.
Proof. induction 1; simpl; lia. Qed.

Lemma zsum_ext {A} (f g : A → Z) xs :
  (∀ x, x ∈ xs → f x = g x) → zsum f xs = zsum g xs.
Proof.
  induction xs as [|x xs IH]; intros H; simpl; [done|].
  rewrite (H x), IH; [done| |left]. intros y Hy. apply H. by right.
Qed.

Lemma zsum_nonneg {A} (f : A → Z) xs : (∀ x, x ∈ xs → (0 ≤ f x)%Z) → (0 ≤ zsum f xs)%Z.
Proof.
  induction xs as [|x xs IH]; intros H; simpl; [done|].
  assert (0 ≤ f x)%Z by (apply H; left).
  assert (0 ≤ zsum f xs)%Z by (apply IH; intros y Hy; apply H; by right). lia.
Qed.

Lemma zsum_elem_le {A} (f : A → Z) xs x :
  (∀ y, y ∈ xs → (0 ≤ f y)%Z) → x ∈ xs → (f x ≤ zsum f xs)%Z.
Proof.
  intros H [l1 [l2 ->]]%list_elem_of_split. rewrite zsum_app. simpl.
  assert (0 ≤ zsum f l1)%Z by (apply zsum_nonneg; intros; apply H; set_solver).
  assert (0 ≤ zsum f l2)%Z by (apply zsum_nonneg; intros; apply H; set_solver). lia.
Qed.

Lemma zsum_zero {A} (f : A → Z) xs : (∀ x, x ∈ xs → f x = 0%Z) → zsum f xs = 0%Z.
Proof. intros H. rewrite (zsum_ext f (λ _, 0%Z) xs H). clear H. induction xs; simpl; lia. Qed.

Lemma zsum_pos_elem {A} (f : A → Z) xs : (0 < zsum f xs)%Z → ∃ x, x ∈ xs ∧ (0 < f x)%Z.
Proof.
  induction xs as [|x xs IH]; simpl; [lia|]. intros Hs.
  destruct (decide (0 < f x)%Z) as [|Hx]; [exists x; by split; [left|]|].
  destruct IH as (y & ? & ?); [lia|]. exists y. by split; [right|].
Qed.

(** ** Sums over a finite set of object identifiers *)

Definition set_zsum (f : nat → Z) (L : gset nat) : Z := zsum f (elements L).

Lemma set_zsum_empty f : set_zsum f ∅ = 0%Z.
Proof. unfold set_zsum. by rewrite elements_empty. Qed.

Lemma set_zsum_insert f L n :
  n ∉ L → set_zsum f ({[n]} ∪ L) = (f n + set_zsum f L)%Z.
Proof.
  intros H. unfold set_zsum.
  rewrite (zsum_perm f _ (n :: elements L)); [done|].
  by apply elements_union_singleton.
Qed.

Lemma set_zsum_remove f L n :
  n ∈ L → set_zsum f L = (f n + set_zsum f (L ∖ {[n]}))%Z.
Proof.
  intros H. rewrite <- set_zsum_insert by set_solver.
  f_equal. apply set_eq. intros x.
  destruct (decide (x = n)); set_solver.
Qed.

Lemma set_zsum_ext f g L : (∀ n, n ∈ L → f n = g n) → set_zsum f L = set_zsum g L.
Proof. intros H. apply zsum_ext. intros x Hx. apply H. by apply elem_of_elements. Qed.

(** The sum changes at one point only. *)
Lemma set_zsum_update f g L n :
  n ∈ L → (∀ m, m ∈ L → m ≠ n → g m = f m) →
  set_zsum g L = (set_zsum f L - f n + g n)%Z.
Proof.
  intros Hn H. rewrite (set_zsum_remove g L n), (set_zsum_remove f L n) by done.
  rewrite (set_zsum_ext g f (L ∖ {[n]})); [lia|]. set_solver.
Qed.

Lemma set_zsum_nonneg f L : (∀ n, n ∈ L → (0 ≤ f n)%Z) → (0 ≤ set_zsum f L)%Z.
Proof. intros H. apply zsum_nonneg. intros x Hx. apply H. by apply elem_of_elements. Qed.

Lemma set_zsum_elem_le f L n :
  (∀ m, m ∈ L → (0 ≤ f m)%Z) → n ∈ L → (f n ≤ set_zsum f L)%Z.
Proof.
  intros H Hn. apply zsum_elem_le; [|by apply elem_of_elements].
  intros y Hy. apply H. by apply elem_of_elements.
Qed.

Lemma set_zsum_add f g L :
  set_zsum (λ n, f n + g n)%Z L = (set_zsum f L + set_zsum g L)%Z.
Proof.
  unfold set_zsum. induction (elements L) as [|x xs IH]; simpl; [done|]. lia.
Qed.

Create Rewrite HintDb py.
#[export] Hint Rewrite @zsum_app set_zsum_empty : py.

(** ** Lists *)

Lemma take_prefix_of {A} n (l : list A) : take n l `prefix_of` l.
Proof. exists (drop n l). by rewrite take_drop. Qed.

Lemma prefix_take {A} (k l : list A) : k `prefix_of` l → k = take (length k) l.
Proof. intros [k' ->]. by rewrite take_app_length. Qed.

Lemma prefix_same_length_eq {A} (k1 k2 l : list A) :
  k1 `prefix_of` l → k2 `prefix_of` l → length k1 = length k2 → k1 = k2.
Proof. intros H1 H2 Hl. rewrite (prefix_take k1 l), (prefix_take k2 l); congruence. Qed.

Lemma take_app_take_drop {A} (l : list A) n m :
  take n l ++ take m (drop n l) = take (n + m) l.
Proof. by rewrite take_take_drop. Qed.

Lemma elem_of_concat_fmap {A B} (f : A → list B) xs y : y ∈ concat (f <$> xs) ↔ ∃ x, x ∈ xs ∧ y ∈ f x.
Proof.
  rewrite list_elem_of_In, in_concat. setoid_rewrite <- list_elem_of_In. setoid_rewrite list_elem_of_fmap. naive_solver.
Qed.

Lemma prefix_app_drop {A} (k l : list A) : k `prefix_of` l → l = k ++ drop (length k) l.
Proof. intros [x ->]. by rewrite drop_app_length. Qed.

Lemma Forall2_impl_in {A B} (P Q : A → B → Prop) xs ys : Forall2 P xs ys → (∀ x y, x ∈ xs → P x y → Q x y) → Forall2 Q xs ys.
Proof.
  induction 1 as [|x y xs ys Hp _ IH]; intros Hi; constructor; [apply Hi; [left|done]|]. apply IH. intros. apply Hi; [by right|done].
Qed.

(** Multiples of [ps] are [ps] apart. *)
Lemma page_step ps i x : (ps | i) → (ps | x) → i < x → i + ps ≤ x.
Proof.
  intros Hi Hx Hlt. pose proof (Nat.divide_sub_r _ _ _ Hx Hi) as Hd.
  apply Nat.divide_pos_le in Hd; lia.
Qed.

Lemma page_le ps (k : list Z) : (ps | length k) → k ≠ [] → ps ≤ length k.
Proof. intros Hd Hk. apply Nat.divide_pos_le; [|done]. destruct k; [done|simpl; lia]. Qed.

#[export] Hint Resolve take_prefix_of prefix_app_r : py.

(** [destruct_match] splits on the scrutinee of the first match of the goal. *)
Ltac destruct_match :=
  match goal with
  | |- context [match ?x with _ => _ end] => destruct x eqn:?
  end.

(** Closes a decidable closed goal by evaluation. *)
Ltac decide_now := refine (bool_decide_unpack _ _); vm_compute; exact I.

(** Invert a computation in the option monad step by step. *)
Ltac inv_opt :=
  repeat match goal with
  | H : (_ ≫= _) = Some _ |- _ => apply bind_Some in H as (? & ? & ?)
  | H : mret _ = Some _ |- _ => injection H as H
  | H : Some _ = Some _ |- _ => injection H as H
  | H : guard _ ;; _ = Some _ |- _ => apply bind_Some in H as (? & ? & ?)
  end; simplify_eq.

(** ** Python dictionaries whose iteration order matters

    A [dict] is the list of its items in insertion order; assigning to a present
    key keeps its position. *)

Section dict.
Context {K V : Type} `{EqDecision K}.
Implicit Types (d : list (K * V)).

Fixpoint dict_get (k : K) d : option V :=
  match d with
  | [] => None
  | (k', v) :: d => if decide (k = k') then Some v else dict_get k d
  end.

Fixpoint dict_set (k : K) (v : V) d : list (K * V) :=
  match d with
  | [] => [(k, v)]
  | (k', v') :: d => if decide (k = k') then (k, v) :: d else (k', v') :: dict_set k v d
  end.

Fixpoint dict_del (k : K) d : list (K * V) :=
  match d with
  | [] => []
  | (k', v') :: d => if decide (k = k') then d else (k', v') :: dict_del k d
  end.

Lemma dict_get_elem d k v : dict_get k d = Some v → (k, v) ∈ d.
Proof.
  induction d as [|[k' v'] d IH]; simpl; [done|]. case_decide; intros Hg.
  - simplify_eq. left.
  - right. by apply IH.
Qed.

Lemma dict_get_None d k : dict_get k d = None ↔ k ∉ d.*1.
Proof.
  induction d as [|[k' v'] d IH]; simpl; [set_solver|]. case_decide; set_solver.
Qed.

Lemma dict_elem_get d k v : NoDup d.*1 → (k, v) ∈ d → dict_get k d = Some v.
Proof.
  induction d as [|[k' v'] d IH]; simpl; [set_solver|].
  intros [Hn Hd]%NoDup_cons [?|Hin]%elem_of_cons; simplify_eq; [by rewrite decide_True|].
  rewrite decide_False; [by apply IH|]. intros ->. apply Hn.
  apply list_elem_of_fmap. by exists (k', v).
Qed.

Lemma dict_set_fresh d k v : dict_get k d = None → dict_set k v d = d ++ [(k, v)].
Proof. induction d as [|[k' v'] d IH]; simpl; [done|]. case_decide; [done|]. intros; f_equal; auto. Qed.

Lemma dict_set_keys d k v : is_Some (dict_get k d) → (dict_set k v d).*1 = d.*1.
Proof.
  induction d as [|[k' v'] d IH]; simpl; [by intros []|]. case_decide; intros; simpl; [by subst|].
  f_equal; auto.
Qed.

(** Replacing the value of a present key. *)
Lemma dict_set_split d k v :
  dict_get k d = Some v →
  ∃ d1 d2, d = d1 ++ (k, v) :: d2 ∧ k ∉ d1.*1 ∧
    (∀ v', dict_set k v' d = d1 ++ (k, v') :: d2) ∧ dict_del k d = d1 ++ d2.
Proof.
  induction d as [|[k' v'] d IH]; simpl; [done|]. case_decide as Hk; intros Hg.
  - simplify_eq. exists [], d. split_and!; [done|set_solver|done|done].
  - destruct (IH Hg) as (d1 & d2 & -> & Hn & Hs & Hd). exists ((k', v') :: d1), d2.
    split_and!; [done|set_solver| |by rewrite Hd]. intros v''. by rewrite Hs.
Qed.

Lemma dict_get_set_eq k v d : dict_get k (dict_set k v d) = Some v.
Proof. induction d as [|[k' v'] d IH]; cbn; [by rewrite decide_True|]. case_decide; cbn; [by rewrite decide_True|by rewrite decide_False]. Qed.

Lemma dict_get_set_ne k k' v d : k ≠ k' → dict_get k (dict_set k' v d) = dict_get k d.
Proof.
  intros Hne. induction d as [|[k2 v2] d IH]; cbn; [by rewrite decide_False|]. case_decide; cbn.
  - subst k2. by rewrite !decide_False.
  - by rewrite IH.
Qed.

Lemma dict_get_set k k' v d : dict_get k' (dict_set k v d) = if decide (k' = k) then Some v else dict_get k' d.
Proof. case_decide; [subst; apply dict_get_set_eq|by apply dict_get_set_ne]. Qed.

Lemma dict_keys_set k v d k' : k' ∈ (dict_set k v d).*1 ↔ k' = k ∨ k' ∈ d.*1.
Proof.
  induction d as [|[k2 v2] d IH]; cbn [dict_set]; [cbn; set_solver|]. case_decide; cbn; [set_solver|]. set_solver.
Qed.

Lemma dict_set_NoDup k v d : NoDup d.*1 → NoDup (dict_set k v d).*1.
Proof.
  intros ND. destruct (dict_get k d) as [v'|] eqn:E.
  - rewrite dict_set_keys; [done|by eexists].
  - rewrite dict_set_fresh by done. rewrite fmap_app. apply NoDup_app. split_and!; [done| |repeat constructor; set_solver].
    apply dict_get_None in E. cbn. set_solver.
Qed.

Lemma dict_get_del k k' d : NoDup d.*1 → dict_get k' (dict_del k d) = if decide (k' = k) then None else dict_get k' d.
Proof.
  induction d as [|[k2 v2] d IH]; cbn [dict_del dict_get fmap list_fmap]; intros ND; [by case_decide|].
  apply NoDup_cons in ND as [Hn ND]. cbn in Hn. destruct (decide (k = k2)) as [<-|Hk]; cbn [dict_get].
  - destruct (decide (k' = k)) as [->|]; [by apply dict_get_None|done].
  - rewrite IH by done. destruct (decide (k' = k2)) as [->|]; [by rewrite decide_False|done].
Qed.

Lemma dict_del_keys k d : (dict_del k d).*1 `sublist_of` d.*1.
Proof.
  induction d as [|[k2 v2] d IH]; cbn [dict_del fmap list_fmap]; [done|]. case_decide; [by constructor|]. cbn. by constructor.
Qed.
End dict.
