(* ===== verification/PyStr.v ===== *)
(** * Python strings

    A [str] is the list of its code points; the methods the modelled code calls. *)

From S2P Require Import Prelude.
From Stdlib Require Import Ascii.

Definition pystr := list Z.

(** A literal. *)
Definition s2z (s : string) : pystr :=
  (λ a, Z.of_nat (nat_of_ascii a)) <$> String.list_ascii_of_string s.

(** [s.startswith(p)] and [s.endswith(p)]. *)
Definition startswith (s p : pystr) : bool := bool_decide (p `prefix_of` s).
Definition endswith (s p : pystr) : bool := bool_decide (p `suffix_of` s).

(** [s.find(sub)], [None] for -1. *)
Fixpoint find (s sub : pystr) : option nat :=
  if startswith s sub then Some 0
  else match s with
       | [] => None
       | _ :: s => S <$> find s sub
       end.

(** [s.find(sub, i)] for [i <= len(s)]. *)
Definition find_from (s sub : pystr) (i : nat) : option nat := Nat.add i <$> find (drop i s) sub.

(** [sub in s]. *)
Definition str_in (sub s : pystr) : bool := bool_decide (is_Some (find s sub)).

(** [s.rfind(sub)]: the last occurrence. *)
Fixpoint rfind (s sub : pystr) : option nat :=
  match s with
  | [] => if startswith [] sub then Some 0 else None
  | x :: s' =>
      match rfind s' sub with
      | Some i => Some (S i)
      | None => if startswith s sub then Some 0 else None
      end
  end.

(** [s.split(sep, maxsplit=1)], for a non-empty separator. *)
Definition split1 (s sep : pystr) : list pystr :=
  match find s sep with
  | Some i => [take i s; drop (i + length sep) s]
  | None => [s]
  end.

(** [s.replace(old, new)] for a non-empty [old]: the matches from left to right. *)
Fixpoint replace_fuel (fuel : nat) (s old new : pystr) : pystr :=
  match fuel with
  | 0 => s
  | S fuel =>
      match find s old with
      | Some i => take i s ++ new ++ replace_fuel fuel (drop (i + length old) s) old new
      | None => s
      end
  end.
Definition replace (s old new : pystr) : pystr := replace_fuel (length s) s old new.

(** The white space [str.strip] removes. *)
Definition is_space (c : Z) : bool :=
  bool_decide ((9 ≤ c ∧ c ≤ 13) ∨ (28 ≤ c ∧ c ≤ 32) ∨ c = 0x85 ∨ c = 0xA0 ∨ c = 0x1680 ∨
    (0x2000 ≤ c ∧ c ≤ 0x200A) ∨ c = 0x2028 ∨ c = 0x2029 ∨ c = 0x202F ∨ c = 0x205F ∨ c = 0x3000)%Z.

Fixpoint lstrip (s : pystr) : pystr :=
  match s with
  | [] => []
  | c :: s' => if is_space c then lstrip s' else s
  end.
Definition rstrip (s : pystr) : pystr := reverse (lstrip (reverse s)).
Definition strip (s : pystr) : pystr := rstrip (lstrip s).

(** ** Facts *)

Lemma startswith_true s p : startswith s p = true ↔ p `prefix_of` s.
Proof. apply bool_decide_eq_true. Qed.

(** The first occurrence. *)
Lemma find_Some s sub i : find s sub = Some i →
  sub `prefix_of` drop i s ∧ i + length sub ≤ length s ∧
  ∀ j, j < i → ¬ sub `prefix_of` drop j s.
Proof.
  revert i. induction s as [|x s IH]; intros i; cbn [find].
  - destruct (startswith [] sub) eqn:E; [|done]. intros [= <-]. apply startswith_true in E.
    split_and!; [done|by apply prefix_length in E|lia].
  - destruct (startswith (x :: s) sub) eqn:E.
    + intros [= <-]. apply startswith_true in E. split_and!; [done|by apply prefix_length in E|lia].
    + intros (j & Hj & ->)%fmap_Some. destruct (IH j Hj) as (H1 & H2 & H3).
      split_and!; [done|simpl; lia|]. intros [|k] Hk; [|apply H3; lia].
      rewrite drop_0, <- startswith_true. by rewrite E.
Qed.

Lemma find_None s sub : find s sub = None ↔ ∀ j, ¬ sub `prefix_of` drop j s.
Proof.
  induction s as [|x s IH]; cbn [find].
  - destruct (startswith [] sub) eqn:E.
    + split; [done|]. intros H. exfalso. apply (H 0). by apply startswith_true.
    + split; [|done]. intros _ j. rewrite drop_nil, <- startswith_true. by rewrite E.
  - destruct (startswith (x :: s) sub) eqn:E.
    + split; [done|]. intros H. exfalso. apply (H 0). by apply startswith_true.
    + rewrite fmap_None, IH. split.
      * intros H [|j]; [|apply H]. rewrite drop_0, <- startswith_true. by rewrite E.
      * intros H j. apply (H (S j)).
Qed.

Lemma find_split s sub i : find s sub = Some i → s = take i s ++ sub ++ drop (i + length sub) s.
Proof.
  intros [Hp _]%find_Some. rewrite <- drop_drop, <- (take_drop i s) at 1. f_equal.
  destruct Hp as [k ->]. by rewrite drop_app_length.
Qed.

Lemma str_in_true sub s : str_in sub s = true ↔ ∃ a b, s = a ++ sub ++ b.
Proof.
  unfold str_in. rewrite bool_decide_eq_true. split.
  - intros [i Hi]. eexists _, _. by apply find_split.
  - intros (a & b & ->). destruct (find (a ++ sub ++ b) sub) eqn:E; [by eexists|].
    exfalso. apply (proj1 (find_None _ _) E (length a)). rewrite drop_app_length. by exists b.
Qed.

Lemma str_in_false sub s : str_in sub s = false ↔ find s sub = None.
Proof.
  unfold str_in. rewrite bool_decide_eq_false. destruct (find s sub); [|by intuition].
  split; [|done]. intros []. by eexists.
Qed.
