(* ===== verification/HeapQ.v ===== *)
(** * Python's [heapq] on lists

    The binary heap of the standard library's [heapq] module ([heapify],
    [heappush], [heappop] and the two sift loops they share), with the
    comparison [x < y] of the elements given by a key in [Z], as the radix
    cache uses it ([TreeNode.__lt__] compares [last_access_time]).  Each
    operation is a permutation, keeps the heap order, and [heappop] returns an
    element of least key. *)

From S2P Require Import Prelude.

Section heapq.
Context {A : Type} (k : A → Z).
Implicit Types (h : list A) (x new : A).

Definition heap_lt (x y : A) : bool := bool_decide (k x < k y)%Z.

Definition parent_pos (i : nat) : nat := (i - 1) / 2.

(** [_siftdown(heap, startpos, pos)] once [newitem] was read from [pos]. *)
Fixpoint siftdown (fuel : nat) (h : list A) (startpos pos : nat) (new : A) : list A :=
  match fuel with
  | 0 => <[pos := new]> h
  | S fuel =>
      if bool_decide (startpos < pos) then
        match h !! parent_pos pos with
        | Some parent =>
            if heap_lt new parent
            then siftdown fuel (<[pos := parent]> h) startpos (parent_pos pos) new
            else <[pos := new]> h
        | None => <[pos := new]> h
        end
      else <[pos := new]> h
  end.

(** The child [_siftup] moves up: the right one unless the left one is smaller. *)
Definition smaller_child (h : list A) (pos : nat) : nat :=
  let childpos := 2 * pos + 1 in
  let rightpos := childpos + 1 in
  match h !! childpos, h !! rightpos with
  | Some l, Some r => if heap_lt l r then childpos else rightpos
  | _, _ => childpos
  end.

(** The first loop of [_siftup]: the hole moves down to a leaf. *)
Fixpoint siftup_hole (fuel : nat) (h : list A) (pos : nat) : list A * nat :=
  match fuel with
  | 0 => (h, pos)
  | S fuel =>
      match h !! smaller_child h pos with
      | Some c =>
          if bool_decide (2 * pos + 1 < length h)
          then siftup_hole fuel (<[pos := c]> h) (smaller_child h pos)
          else (h, pos)
      | None => (h, pos)
      end
  end.

Definition siftup (h : list A) (pos : nat) : list A :=
  match h !! pos with
  | Some new =>
      let '(h', p) := siftup_hole (length h) h pos in
      siftdown (length h) h' pos p new
  | None => h
  end.

Definition heappush (h : list A) (x : A) : list A :=
  siftdown (length h) (h ++ [x]) 0 (length h) x.

(** [heappop] on the empty list raises [IndexError]. *)
Definition heappop (h : list A) : option (A * list A) :=
  match last h with
  | None => None
  | Some lastelt =>
      let h' := take (length h - 1) h in
      match h' with
      | [] => Some (lastelt, [])
      | x :: _ => Some (x, siftup (<[0 := lastelt]> h') 0)
      end
  end.

Definition heapify (h : list A) : list A :=
  fold_left siftup (reverse (seq 0 (length h / 2))) h.

(** ** Permutations *)

Lemma hole_swap h p q x y :
  h !! p = Some x → p ≠ q → q < length h →
  <[p := y]> (<[q := x]> h) ≡ₚ <[q := y]> h.
Proof.
  intros Hp Hne Hq. destruct (lookup_lt_is_Some_2 h q Hq) as [z Hz].
  apply Permutation_inj. split; [by rewrite !length_insert|].
  exists (λ i, if decide (i = p) then q else if decide (i = q) then p else i).
  assert (p < length h) by by eapply lookup_lt_Some.
  split.
  - intros i j. repeat case_decide; congruence.
  - intros i. case_decide; [subst|case_decide; [subst|]].
    + rewrite list_lookup_insert_eq by (rewrite length_insert; done).
      by rewrite list_lookup_insert_eq.
    + rewrite list_lookup_insert_ne, list_lookup_insert_eq by done.
      by rewrite list_lookup_insert_ne.
    + by rewrite !list_lookup_insert_ne by congruence.
Qed.

Lemma siftdown_perm fuel h s p new :
  p < length h → siftdown fuel h s p new ≡ₚ <[p := new]> h.
Proof.
  revert h p. induction fuel as [|fuel IH]; intros h p Hp; [done|]. simpl.
  case_bool_decide as Hsp; [|done].
  destruct (h !! parent_pos p) as [x|] eqn:Hx; [|done].
  destruct (heap_lt new x); [|done].
  assert (parent_pos p < p).
  { unfold parent_pos. apply Nat.Div0.div_lt_upper_bound. lia. }
  rewrite IH by (rewrite length_insert; lia).
  apply hole_swap; [done|lia|done].
Qed.

Lemma smaller_child_spec h p :
  2 * p + 1 < length h →
  p < smaller_child h p < length h ∧ parent_pos (smaller_child h p) = p.
Proof.
  intros Hp. unfold smaller_child, parent_pos.
  destruct (lookup_lt_is_Some_2 h (2 * p + 1) Hp) as [l ->].
  assert ((2 * p + 1 - 1) / 2 = p).
  { replace (2 * p + 1 - 1) with (p * 2) by lia. by apply Nat.div_mul. }
  assert ((2 * p + 1 + 1 - 1) / 2 = p).
  { replace (2 * p + 1 + 1 - 1) with (1 + p * 2) by lia.
    rewrite Nat.div_add by lia. done. }
  destruct (h !! (2 * p + 1 + 1)) as [r|] eqn:Hr; [|lia].
  apply lookup_lt_Some in Hr. destruct (heap_lt l r); lia.
Qed.

Lemma siftup_hole_perm fuel h p new :
  p < length h →
  let '(h', q) := siftup_hole fuel h p in
  length h' = length h ∧ q < length h ∧ <[q := new]> h' ≡ₚ <[p := new]> h.
Proof.
  revert h p. induction fuel as [|fuel IH]; intros h p Hp; [done|]. simpl.
  destruct (h !! smaller_child h p) as [c|] eqn:Hc; [|done].
  case_bool_decide as Hlt; [|done].
  destruct (smaller_child_spec h p Hlt) as [[? ?] _].
  specialize (IH (<[p := c]> h) (smaller_child h p)).
  rewrite length_insert in IH. specialize (IH ltac:(lia)).
  destruct (siftup_hole fuel _ _) as [h' q]. destruct IH as (? & ? & Hperm).
  split; [done|]. split; [done|]. rewrite Hperm. apply hole_swap; [done|lia|done].
Qed.

Lemma siftup_perm h p : siftup h p ≡ₚ h.
Proof.
  unfold siftup. destruct (h !! p) as [x|] eqn:Hx; [|done].
  pose proof (siftup_hole_perm (length h) h p x (lookup_lt_Some _ _ _ Hx)) as H.
  destruct (siftup_hole _ _ _) as [h' q]. destruct H as (Hl & Hq & Hp).
  rewrite siftdown_perm by lia. rewrite Hp. by rewrite list_insert_id.
Qed.

Lemma heappush_perm h x : heappush h x ≡ₚ x :: h.
Proof.
  unfold heappush. rewrite siftdown_perm by (rewrite length_app; simpl; lia).
  rewrite insert_app_r_alt, Nat.sub_diag by done. simpl.
  by rewrite Permutation_app_comm.
Qed.

Lemma heapify_perm h : heapify h ≡ₚ h.
Proof.
  unfold heapify. generalize (reverse (seq 0 (length h / 2))) as js. intros js.
  revert h. induction js as [|i js IH]; intros h; [done|]. simpl.
  by rewrite IH, siftup_perm.
Qed.

Lemma heappop_None h : heappop h = None ↔ h = [].
Proof.
  unfold heappop. destruct h as [|a h _] using rev_ind; [done|].
  rewrite last_snoc. split; [|by destruct h].
  by destruct (take (length (h ++ [a]) - 1) (h ++ [a])).
Qed.

Lemma heappop_perm h x h' : heappop h = Some (x, h') → h ≡ₚ x :: h'.
Proof.
  unfold heappop. destruct h as [|a h _] using rev_ind; [done|].
  rewrite last_snoc, length_app, Nat.add_sub. rewrite take_app_length.
  destruct h as [|b h]; intros [= <- <-]; [done|].
  rewrite siftup_perm. simpl. constructor. by rewrite Permutation_app_comm.
Qed.

(** ** Heap order *)

(** [ok_from s h]: every element whose parent is at [s] or later is not
    smaller than that parent. *)
Definition ok_from (s : nat) (h : list A) : Prop :=
  ∀ i x y, 0 < i → s ≤ parent_pos i →
    h !! parent_pos i = Some x → h !! i = Some y → (k x ≤ k y)%Z.

Definition heap_ok (h : list A) : Prop := ok_from 0 h.

Inductive desc (s : nat) : nat → Prop :=
  | desc_refl : desc s s
  | desc_child p : 0 < p → desc s (parent_pos p) → desc s p.

Lemma parent_pos_lt p : 0 < p → parent_pos p < p.
Proof. intros. unfold parent_pos. apply Nat.Div0.div_lt_upper_bound. lia. Qed.

Lemma desc_le s p : desc s p → s ≤ p.
Proof. induction 1 as [|p Hp _ IH]; [done|]. pose proof (parent_pos_lt p Hp). lia. Qed.

Lemma desc_parent s p : desc s p → s < p → desc s (parent_pos p).
Proof. inversion 1; subst; [lia|done]. Qed.

Lemma desc_0 p : desc 0 p.
Proof.
  induction (lt_wf p) as [p _ IH]. destruct p as [|p]; [constructor|].
  apply desc_child; [lia|]. apply IH, parent_pos_lt. lia.
Qed.

(** [new] may be stored at [p]: its children are not smaller. *)
Definition below (h : list A) (p : nat) (new : A) : Prop :=
  ∀ i y, 0 < i → parent_pos i = p → h !! i = Some y → (k new ≤ k y)%Z.

Lemma siftdown_ok fuel h s p new :
  p ≤ fuel → p < length h → desc s p →
  ok_from s h → below h p new → ok_from s (siftdown fuel h s p new).
Proof.
  revert h p. induction fuel as [|fuel IH]; intros h p Hf Hp Hd Hok Hb; simpl.
  - assert (p = 0) as -> by lia. apply desc_le in Hd.
    intros i x y Hi Hs. pose proof (parent_pos_lt i Hi).
    rewrite (list_lookup_insert_ne _ _ i) by lia.
    destruct (decide (parent_pos i = 0)) as [E|E].
    + rewrite E, list_lookup_insert_eq by done. intros [= <-] Hy. by eapply Hb.
    + rewrite list_lookup_insert_ne by done. by apply Hok.
  - assert (Hstop : (s < p → ∀ x, h !! parent_pos p = Some x → (k x ≤ k new)%Z) →
                    ok_from s (<[p := new]> h)).
    { intros Hpar i x y Hi Hs. pose proof (parent_pos_lt i Hi).
      destruct (decide (i = p)) as [->|Hip].
      - rewrite list_lookup_insert_ne, list_lookup_insert_eq by lia.
        intros Hx [= <-]. apply Hpar; [lia|done].
      - rewrite (list_lookup_insert_ne _ _ i) by done.
        destruct (decide (parent_pos i = p)) as [E|E].
        + rewrite E, list_lookup_insert_eq by done. intros [= <-] Hy. by eapply Hb.
        + rewrite list_lookup_insert_ne by done. by apply Hok. }
    case_bool_decide as Hsp; [|apply Hstop; lia].
    assert (Hq : parent_pos p < p) by (apply parent_pos_lt; lia).
    destruct (h !! parent_pos p) as [x|] eqn:Hx; [|apply Hstop; congruence].
    unfold heap_lt. case_bool_decide as Hlt; [|apply Hstop; intros _ ? [= <-]; lia].
    assert (Hsq : s ≤ parent_pos p) by (eapply desc_le, desc_parent; done).
    apply IH; [lia|rewrite length_insert; lia|by apply desc_parent| |].
    + intros i a b Hi Hs. pose proof (parent_pos_lt i Hi).
      destruct (decide (i = p)) as [->|Hip].
      * rewrite list_lookup_insert_ne, list_lookup_insert_eq by lia. congruence || (intros; simplify_eq; lia).
      * rewrite (list_lookup_insert_ne _ _ i) by done.
        destruct (decide (parent_pos i = p)) as [E|E].
        -- rewrite E, list_lookup_insert_eq by done. intros [= <-] Hy.
           destruct (lookup_lt_is_Some_2 h p Hp) as [z Hz].
           pose proof (Hok p _ _ ltac:(lia) Hsq Hx Hz).
           rewrite <- E in Hz. pose proof (Hok i _ _ Hi Hs Hz Hy). lia.
        -- rewrite list_lookup_insert_ne by done. by apply Hok.
    + intros i y Hi Hpi. destruct (decide (i = p)) as [->|Hip].
      * rewrite list_lookup_insert_eq by done. intros [= <-]. lia.
      * rewrite list_lookup_insert_ne by done. intros Hy. rewrite <- Hpi in Hx.
        pose proof (Hok i _ _ Hi ltac:(lia) Hx Hy). lia.
Qed.

Lemma smaller_child_le h p i x y :
  h !! smaller_child h p = Some x → 0 < i → parent_pos i = p → h !! i = Some y →
  (k x ≤ k y)%Z.
Proof.
  intros Hx Hi Hp Hy. unfold smaller_child in Hx.
  assert (Hcase : i = 2 * p + 1 ∨ i = 2 * p + 1 + 1).
  { unfold parent_pos in Hp. pose proof (Nat.div_mod_eq (i - 1) 2).
    pose proof (Nat.mod_upper_bound (i - 1) 2). lia. }
  destruct (h !! (2 * p + 1)) as [l|] eqn:Hl; last first.
  { rewrite Hl in Hx. done. }
  destruct (h !! (2 * p + 1 + 1)) as [r|] eqn:Hr; last first.
  { destruct Hcase as [->| ->]; simplify_eq. lia. }
  unfold heap_lt in Hx. case_bool_decide; destruct Hcase as [->| ->]; simplify_eq; lia.
Qed.

(** Once the hole moved, the array with the stale copy in the hole is ordered. *)
Lemma siftup_hole_ok fuel h s p :
  length h - p ≤ fuel → desc s p → p < length h →
  (ok_from s h ∨ (p = s ∧ ok_from (S s) h)) →
  let '(h', q) := siftup_hole fuel h p in
  desc s q ∧ ok_from s h' ∧ length h' = length h ∧ q < length h ∧ length h ≤ 2 * q + 1.
Proof.
  revert h p. induction fuel as [|fuel IH]; intros h p Hf Hd Hp Hok; [lia|]. simpl.
  assert (Hleaf : length h ≤ 2 * p + 1 → ok_from s h).
  { intros Hl. destruct Hok as [|[-> Hok]]; [done|].
    intros i x y Hi Hs Hx Hy. apply lookup_lt_Some in Hy as Hlt.
    destruct (decide (parent_pos i = s)) as [E|E]; [|by eapply (Hok i); [..|lia| |]].
    unfold parent_pos in E. pose proof (Nat.div_mod_eq (i - 1) 2). lia. }
  destruct (decide (2 * p + 1 < length h)) as [Hlt|Hge]; last first.
  { rewrite bool_decide_eq_false_2 by done.
    destruct (h !! smaller_child h p); split_and!; try done; try lia; apply Hleaf; lia. }
  destruct (smaller_child_spec h p Hlt) as [[Hc1 Hc2] Hc3].
  destruct (lookup_lt_is_Some_2 h _ Hc2) as [c Hc]. rewrite Hc.
  rewrite bool_decide_eq_true_2 by done.
  specialize (IH (<[p := c]> h) (smaller_child h p)). rewrite length_insert in IH.
  apply IH; [lia| |done|left].
  { apply desc_child; [lia|]. by rewrite Hc3. }
  intros i x y Hi Hs. pose proof (parent_pos_lt i Hi). apply desc_le in Hd.
  assert (Hok' : ∀ i x y, 0 < i → s ≤ parent_pos i → parent_pos i ≠ p →
    h !! parent_pos i = Some x → h !! i = Some y → (k x ≤ k y)%Z).
  { intros j a b Hj Hsj Hjp Ha Hb. destruct Hok as [Hok|[-> Hok]]; [by eapply (Hok j)|].
    eapply (Hok j); [done|lia|done|done]. }
  destruct (decide (i = p)) as [->|Hip].
  - rewrite list_lookup_insert_ne, list_lookup_insert_eq by lia. intros Hx [= <-].
    destruct Hok as [Hok|[-> _]]; [|lia].
    destruct (lookup_lt_is_Some_2 h p Hp) as [z Hz].
    pose proof (Hok p _ _ Hi Hs Hx Hz). rewrite <- Hc3 in Hz.
    pose proof (Hok (smaller_child h p) _ _ ltac:(lia) ltac:(lia) Hz Hc). lia.
  - rewrite (list_lookup_insert_ne _ _ i) by done.
    destruct (decide (parent_pos i = p)) as [E|E].
    + rewrite E, list_lookup_insert_eq by done. intros [= <-] Hy.
      by eapply smaller_child_le.
    + rewrite list_lookup_insert_ne by done. by apply Hok'.
Qed.

Lemma siftup_ok h s : s < length h → ok_from (S s) h → ok_from s (siftup h s).
Proof.
  intros Hs Hok. unfold siftup. destruct (h !! s) as [new|] eqn:Hnew; last first.
  { apply lookup_ge_None in Hnew. lia. }
  pose proof (siftup_hole_ok (length h) h s s ltac:(lia) (desc_refl s) Hs
                (or_intror (conj eq_refl Hok))) as H.
  destruct (siftup_hole _ _ _) as [h' q]. destruct H as (Hd & Hok' & Hl & Hq & Hleaf).
  apply siftdown_ok; [lia|lia|done|done|].
  intros i y Hi Hp Hy. apply lookup_lt_Some in Hy. unfold parent_pos in Hp.
  pose proof (Nat.div_mod_eq (i - 1) 2). lia.
Qed.

Lemma heapify_ok h : heap_ok (heapify h).
Proof.
  unfold heapify, heap_ok.
  assert (H : ∀ n g, n ≤ length g → ok_from n g →
            ok_from 0 (fold_left siftup (reverse (seq 0 n)) g)).
  { induction n as [|n IH]; intros g Hn Hg; [done|].
    rewrite seq_S, reverse_snoc. simpl.
    apply IH; [rewrite (Permutation_length (siftup_perm g n)); lia|].
    apply siftup_ok; [lia|done]. }
  apply H; [apply Nat.Div0.div_le_upper_bound; lia|].
  intros i x y Hi Hs _ Hy. apply lookup_lt_Some in Hy. exfalso.
  unfold parent_pos in Hs. pose proof (Nat.div_mod_eq (i - 1) 2).
  pose proof (Nat.div_mod_eq (length h) 2).
  pose proof (Nat.mod_upper_bound (length h) 2). lia.
Qed.

Lemma ok_from_prefix s h g : g `prefix_of` h → ok_from s h → ok_from s g.
Proof.
  intros Hp Hok i x y Hi Hs Hx Hy.
  eapply (Hok i); [done|done|by eapply prefix_lookup_Some..].
Qed.

Lemma heappush_ok h x : heap_ok h → heap_ok (heappush h x).
Proof.
  intros Hok. unfold heappush, heap_ok.
  destruct (decide (h = [])) as [->|Hne].
  { intros i a b Hi _ _ Hb. apply lookup_lt_Some in Hb. simpl in Hb. lia. }
  (* the new cell first holds a copy of its parent, as the sift loop sees it *)
  assert (Hlen : 0 < length h) by (destruct h; [done|simpl; lia]).
  pose proof (parent_pos_lt (length h) Hlen) as Hpar.
  destruct (lookup_lt_is_Some_2 h (parent_pos (length h)) Hpar) as [z Hz].
  assert (Hsame : ∀ fuel g s p new y, p < length g →
    siftdown fuel (<[p := y]> g) s p new = siftdown fuel g s p new).
  { intros fuel g s p new y Hp. destruct fuel as [|fuel]; simpl; [by rewrite list_insert_insert_eq|].
    case_bool_decide as Hs; [|by rewrite list_insert_insert_eq].
    rewrite list_lookup_insert_ne by (pose proof (parent_pos_lt p); lia).
    destruct (g !! parent_pos p); [|by rewrite list_insert_insert_eq].
    destruct (heap_lt _ _); by rewrite list_insert_insert_eq. }
  rewrite <- (Hsame _ (h ++ [x]) 0 (length h) x z) by (rewrite length_app; simpl; lia).
  rewrite insert_app_r_alt, Nat.sub_diag by done. simpl.
  apply siftdown_ok; [lia|rewrite length_app; simpl; lia|apply desc_0| |].
  - intros i a b Hi Hs. pose proof (parent_pos_lt i Hi).
    destruct (decide (i = length h)) as [->|Hi'].
    + rewrite lookup_app_l, lookup_app_r, Nat.sub_diag by lia. simpl. intros; simplify_eq; lia.
    + intros Ha Hb. apply lookup_lt_Some in Hb as Hb'. rewrite length_app in Hb'. simpl in Hb'.
      rewrite lookup_app_l in Ha, Hb by lia. by eapply (Hok i).
  - intros i y Hi Hp Hy. apply lookup_lt_Some in Hy. rewrite length_app in Hy. simpl in Hy.
    pose proof (parent_pos_lt i Hi). lia.
Qed.

Lemma heap_ok_min h x y : heap_ok h → h !! 0 = Some x → y ∈ h → (k x ≤ k y)%Z.
Proof.
  intros Hok Hx [i Hi]%list_elem_of_lookup. revert y Hi.
  induction (lt_wf i) as [i _ IH]. intros y Hi.
  destruct (decide (i = 0)) as [->|Hne]; [simplify_eq; lia|].
  pose proof (parent_pos_lt i ltac:(lia)) as Hlt.
  assert (parent_pos i < length h) as [z Hz]%lookup_lt_is_Some_2.
  { apply lookup_lt_Some in Hi. lia. }
  pose proof (IH _ Hlt z Hz). pose proof (Hok i _ _ ltac:(lia) ltac:(lia) Hz Hi). lia.
Qed.

(** [heappop] returns an element of least key and keeps the heap order. *)
Lemma heappop_ok h x h' :
  heap_ok h → heappop h = Some (x, h') →
  heap_ok h' ∧ ∀ y, y ∈ h → (k x ≤ k y)%Z.
Proof.
  intros Hok. unfold heappop. destruct h as [|a h _] using rev_ind; [done|].
  rewrite last_snoc, length_app, Nat.add_sub. rewrite take_app_length.
  destruct h as [|b h]; intros [= <- <-].
  { split; [by intros ? ? ? ? ? ?|]. intros y Hy. simpl in Hy. apply list_elem_of_singleton in Hy as ->. lia. }
  split.
  - apply siftup_ok; [simpl; lia|].
    intros i p q Hi Hs. pose proof (parent_pos_lt i Hi). intros Hp Hq.
    change (a :: h) with (<[0 := a]> (b :: h)) in *.
    rewrite list_lookup_insert_ne in Hp by lia.
    rewrite list_lookup_insert_ne in Hq by lia.
    eapply (Hok i); [done|lia|by apply lookup_app_l_Some..].
  - intros y Hy. by eapply heap_ok_min.
Qed.
End heapq.

#[export] Hint Resolve heapify_ok heappush_ok : py.
