(* ===== verification/Radix.v ===== *)
(** * The radix tree of cached prefixes

    [src/python/sglang/srt/mem_cache/radix_cache.py]: the tree nodes, the match,
    split, insert, lock and evict operations of [RadixCache], and the key/value
    cache events it records.

    Nodes are Python objects shared by reference (parents, children, the
    [last_node] of requests), so the state holds an object store [nodes] from
    object identifiers to nodes; a node removed from the tree stays in the store
    and only stops being a child.  Dereferencing [None] or a missing key is
    [None] of the option monad, and so is a loop running out of fuel: the
    theorems of [RadixInv] and [RadixSpec] show that neither happens on a
    well-formed tree. *)

From S2P Require Import Prelude HeapQ.

(** [class TreeNode]; the identifier is the node's address in the store. *)
Record TreeNode := MkNode {
  children : list (list Z * nat);
  parent : option nat;
  key : list Z;
  value : option (list Z);
  lock_ref : Z;
  last_access_time : Z;
  hit_count : Z;
  loading : bool;
  host_value : option (list Z)
}.

(** [TreeNode.__init__]; [key] is [None] there and assigned before any use. *)
Definition new_TreeNode (now : Z) : TreeNode :=
  {| children := []; parent := None; key := []; value := None; lock_ref := 0;
     last_access_time := now; hit_count := 0; loading := false; host_value := None |}.

Definition evicted (nd : TreeNode) : bool := bool_decide (value nd = None).
Definition backuped (nd : TreeNode) : bool := bool_decide (host_value nd ≠ None).

Definition set_children x nd := MkNode x (parent nd) (key nd) (value nd) (lock_ref nd)
  (last_access_time nd) (hit_count nd) (loading nd) (host_value nd).
Definition set_parent x nd := MkNode (children nd) x (key nd) (value nd) (lock_ref nd)
  (last_access_time nd) (hit_count nd) (loading nd) (host_value nd).
Definition set_key_value k v nd := MkNode (children nd) (parent nd) k v (lock_ref nd)
  (last_access_time nd) (hit_count nd) (loading nd) (host_value nd).
Definition set_lock x nd := MkNode (children nd) (parent nd) (key nd) (value nd) x
  (last_access_time nd) (hit_count nd) (loading nd) (host_value nd).
Definition set_time x nd := MkNode (children nd) (parent nd) (key nd) (value nd)
  (lock_ref nd) x (hit_count nd) (loading nd) (host_value nd).

(** The events of [disaggregation/kv_events.py] the cache records. *)
Inductive KVCacheEvent :=
  | BlockStored (block_hashes : list Z) (parent_block_hash : Z) (token_ids : list Z)
      (block_size : nat)
  | BlockRemoved (block_hashes : list Z)
  | AllBlocksCleared.

(** The state of [class RadixCache] ([counter] is [TreeNode.counter], [ticks] counts
    the readings of the clock so far). *)
Record RadixCache := MkCache {
  nodes : gmap nat TreeNode;
  root_node : nat;
  counter : nat;
  ticks : nat;
  evictable_size_ : Z;
  protected_size_ : Z;
  page_size : nat;
  disable : bool;
  enable_kv_cache_events : bool;
  kv_event_queue : list KVCacheEvent
}.

Definition set_nodes x c := MkCache x (root_node c) (counter c) (ticks c)
  (evictable_size_ c) (protected_size_ c) (page_size c) (disable c)
  (enable_kv_cache_events c) (kv_event_queue c).
Definition set_counter x c := MkCache (nodes c) (root_node c) x (ticks c)
  (evictable_size_ c) (protected_size_ c) (page_size c) (disable c)
  (enable_kv_cache_events c) (kv_event_queue c).
Definition set_ticks x c := MkCache (nodes c) (root_node c) (counter c) x
  (evictable_size_ c) (protected_size_ c) (page_size c) (disable c)
  (enable_kv_cache_events c) (kv_event_queue c).
Definition set_sizes e p c := MkCache (nodes c) (root_node c) (counter c) (ticks c)
  e p (page_size c) (disable c) (enable_kv_cache_events c) (kv_event_queue c).
Definition set_events x c := MkCache (nodes c) (root_node c) (counter c) (ticks c)
  (evictable_size_ c) (protected_size_ c) (page_size c) (disable c)
  (enable_kv_cache_events c) x.

Definition upd_node (n : nat) (f : TreeNode → TreeNode) (c : RadixCache) : RadixCache :=
  set_nodes (alter f n (nodes c)) c.

(** ** Matching keys *)

(** [_key_match_page_size1]: the length of the common prefix. *)
Fixpoint _key_match_page_size1 (key0 key1 : list Z) : nat :=
  match key0, key1 with
  | k0 :: key0, k1 :: key1 =>
      if decide (k0 = k1) then S (_key_match_page_size1 key0 key1) else 0
  | _, _ => 0
  end.

(** [_key_match_paged]: the loop over [i] in steps of [page_size]. *)
Fixpoint key_match_paged_loop (fuel : nat) (key0 key1 : list Z) (ps i : nat) : nat :=
  match fuel with
  | 0 => i
  | S fuel =>
      if bool_decide (i < min (length key0) (length key1)) then
        if decide (slice i (i + ps) key0 = slice i (i + ps) key1)
        then key_match_paged_loop fuel key0 key1 ps (i + ps)
        else i
      else i
  end.

Definition _key_match_paged (key0 key1 : list Z) (ps : nat) : nat :=
  key_match_paged_loop (min (length key0) (length key1)) key0 key1 ps 0.

(** [self.key_match_fn], chosen by the constructor. *)
Definition key_match_fn (ps : nat) (key0 key1 : list Z) : nat :=
  if decide (ps = 1) then _key_match_page_size1 key0 key1
  else _key_match_paged key0 key1 ps.

(** [self.get_child_key_fn]: [key[0]] (an [IndexError] on the empty key) or
    [tuple(key[:page_size])]; a single token is the one-element list. *)
Definition get_child_key_fn (ps : nat) (key : list Z) : option (list Z) :=
  if decide (ps = 1) then (λ k, [k]) <$> head key else Some (take ps key).

Section radix.
(** The successive readings of [time.monotonic()] and Python's [hash] of a tuple
    of tokens. *)
Context (clock : nat → Z) (tuple_hash : list Z → Z).

(** [node.last_access_time = time.monotonic()]. *)
Definition touch (n : nat) (c : RadixCache) : RadixCache :=
  set_ticks (S (ticks c)) (upd_node n (set_time (clock (ticks c))) c).

(** [TreeNode()]: a fresh object. *)
Definition alloc_node (c : RadixCache) : nat * RadixCache :=
  (counter c,
   set_ticks (S (ticks c)) (set_counter (S (counter c))
     (set_nodes (<[counter c := new_TreeNode (clock (ticks c))]> (nodes c)) c))).

(** ** Events *)

Definition _record_store_event (n : nat) (c : RadixCache) : option RadixCache :=
  if enable_kv_cache_events c then
    nd ← nodes c !! n;
    p ← parent nd;
    pd ← nodes c !! p;
    Some (set_events (kv_event_queue c ++
      [BlockStored [tuple_hash (key nd)] (tuple_hash (key pd)) (key nd)
         (length (key nd))]) c)
  else Some c.

Definition _record_remove_event (n : nat) (c : RadixCache) : option RadixCache :=
  if enable_kv_cache_events c then
    nd ← nodes c !! n;
    Some (set_events (kv_event_queue c ++ [BlockRemoved [tuple_hash (key nd)]]) c)
  else Some c.

Definition _record_all_cleared_event (c : RadixCache) : RadixCache :=
  if enable_kv_cache_events c
  then set_events (kv_event_queue c ++ [AllBlocksCleared]) c else c.

Definition take_events (c : RadixCache) : list KVCacheEvent * RadixCache :=
  if enable_kv_cache_events c then (kv_event_queue c, set_events [] c) else ([], c).

(** ** Construction *)

(** [reset()]: a new root object, locked once, and zero sizes. *)
Definition reset (c : RadixCache) : RadixCache :=
  let '(r, c1) := alloc_node c in
  let c2 := upd_node r (λ nd, set_lock 1 (set_key_value [] (Some []) nd)) c1 in
  let c3 := MkCache (nodes c2) r (counter c2) (ticks c2) 0 0 (page_size c2) (disable c2)
              (enable_kv_cache_events c2) (kv_event_queue c2) in
  _record_all_cleared_event c3.

(** [RadixCache.__init__] (the pools it shares are part of [Store]). *)
Definition new_RadixCache (ps : nat) (dis events : bool) : RadixCache :=
  reset (MkCache ∅ 0 0 0 0 0 ps dis events []).

(** ** Splitting, matching and inserting *)

(** [_split_node(key, child, split_len)]: [new_node -> child]. *)
Definition _split_node (key_ : list Z) (child split_len : nat) (c : RadixCache)
    : option (nat * RadixCache) :=
  c1 ← _record_remove_event child c;
  cd ← nodes c1 !! child;
  ck_low ← get_child_key_fn (page_size c) (drop split_len key_);
  p ← parent cd;
  v ← value cd;
  ck ← get_child_key_fn (page_size c) key_;
  let '(n, c2) := alloc_node c1 in
  let c3 := upd_node n (λ nd, set_key_value (take split_len (key cd))
              (Some (take split_len v)) (set_lock (lock_ref cd)
              (set_parent (Some p) (set_children [(ck_low, child)] nd)))) c2 in
  let c4 := upd_node child (λ nd, set_key_value (drop split_len (key cd))
              (Some (drop split_len v)) (set_parent (Some n) nd)) c3 in
  let c5 := upd_node p (λ nd, set_children (dict_set ck n (children nd)) nd) c4 in
  c6 ← _record_store_event n c5;
  c7 ← _record_store_event child c6;
  Some (n, c7).

(** The loop of [_match_prefix_helper]; [acc] is the list [value]. *)
Fixpoint match_loop (fuel node : nat) (key_ : list Z) (child_key : list Z)
    (acc : list (list Z)) (c : RadixCache)
    : option (list (list Z) * nat * RadixCache) :=
  match fuel with
  | 0 => None
  | S fuel =>
      nd ← nodes c !! node;
      match key_, dict_get child_key (children nd) with
      | _ :: _, Some child =>
          let c1 := touch child c in
          cd ← nodes c1 !! child;
          let prefix_len := key_match_fn (page_size c) (key cd) key_ in
          if bool_decide (prefix_len < length (key cd)) then
            '(n, c2) ← _split_node (key cd) child prefix_len c1;
            d ← nodes c2 !! n;
            v ← value d;
            Some (acc ++ [v], n, c2)
          else
            v ← value cd;
            let key' := drop prefix_len key_ in
            child_key' ← match key' with
                         | [] => Some child_key
                         | _ => get_child_key_fn (page_size c) key'
                         end;
            match_loop fuel child key' child_key' (acc ++ [v]) c1
      | _, _ => Some (acc, node, c)
      end
  end.

Definition _match_prefix_helper (node : nat) (key_ : list Z) (c : RadixCache)
    : option (list (list Z) * nat * RadixCache) :=
  let c1 := touch node c in
  child_key ← get_child_key_fn (page_size c) key_;
  match_loop (S (length key_)) node key_ child_key [] c1.

(** [match_prefix(key)]: the matched slots, the last node, and the new tree. *)
Definition match_prefix (key_ : list Z) (c : RadixCache)
    : option (list Z * nat * RadixCache) :=
  if disable c || bool_decide (length key_ = 0) then Some ([], root_node c, c)
  else
    let key' := if decide (page_size c = 1) then key_
                else take (length key_ / page_size c * page_size c) key_ in
    '(vs, n, c') ← _match_prefix_helper (root_node c) key' c;
    Some (concat vs, n, c').

(** The loop of [_insert_helper], then the insertion of the remaining suffix. *)
Fixpoint insert_loop (fuel node : nat) (key_ value_ : list Z) (child_key : list Z)
    (total : nat) (c : RadixCache) : option (nat * RadixCache) :=
  match fuel with
  | 0 => None
  | S fuel =>
      nd ← nodes c !! node;
      match key_, dict_get child_key (children nd) with
      | _ :: _, Some child =>
          let c1 := touch child c in
          cd ← nodes c1 !! child;
          let prefix_len := key_match_fn (page_size c) (key cd) key_ in
          let key' := drop prefix_len key_ in
          let value' := drop prefix_len value_ in
          '(node', c2) ← (if bool_decide (prefix_len < length (key cd))
                          then _split_node (key cd) child prefix_len c1
                          else Some (child, c1));
          child_key' ← match key' with
                       | [] => Some child_key
                       | _ => get_child_key_fn (page_size c) key'
                       end;
          insert_loop fuel node' key' value' child_key' (total + prefix_len) c2
      | [], _ => Some (total, c)
      | _ :: _, None =>
          let '(n, c1) := alloc_node c in
          let c2 := upd_node n (λ d, set_key_value key_ (Some value_)
                      (set_parent (Some node) d)) c1 in
          let c3 := upd_node node (λ d, set_children (dict_set child_key n (children d)) d) c2 in
          let c4 := set_sizes (evictable_size_ c3 + Z.of_nat (length value_))%Z (protected_size_ c3) c3 in
          c5 ← _record_store_event n c4;
          Some (total, c5)
      end
  end.

Definition _insert_helper (node : nat) (key_ value_ : list Z) (c : RadixCache)
    : option (nat * RadixCache) :=
  let c1 := touch node c in
  match key_ with
  | [] => Some (0, c1)
  | _ =>
      child_key ← get_child_key_fn (page_size c) key_;
      insert_loop (S (length key_)) node key_ value_ child_key 0 c1
  end.

(** [insert(key, value)]; without a value the key itself is stored. *)
Definition insert (key_ : list Z) (value_ : option (list Z)) (c : RadixCache)
    : option (nat * RadixCache) :=
  if disable c then Some (0, c)
  else _insert_helper (root_node c) key_ (default key_ value_) c.

(** ** Locks *)

(** The loop shared by [inc_lock_ref] ([up = true]) and [dec_lock_ref]: it walks to
    the root, moving the size of a node between the two counters when its count
    leaves or reaches zero. *)
Fixpoint lock_loop (up : bool) (fuel node : nat) (delta : Z) (c : RadixCache)
    : option (Z * RadixCache) :=
  match fuel with
  | 0 => None
  | S fuel =>
      if decide (node = root_node c) then Some (delta, c)
      else
        nd ← nodes c !! node;
        v ← value nd;
        let len := Z.of_nat (length v) in
        let '(delta', c1) :=
          if up then
            if decide (lock_ref nd = 0)%Z
            then ((delta - len)%Z,
                  set_sizes (evictable_size_ c - len)%Z (protected_size_ c + len)%Z c)
            else (delta, c)
          else
            if decide (lock_ref nd = 1)%Z
            then ((delta + len)%Z,
                  set_sizes (evictable_size_ c + len)%Z (protected_size_ c - len)%Z c)
            else (delta, c) in
        let c2 := upd_node node
                    (set_lock (if up then lock_ref nd + 1 else lock_ref nd - 1)%Z) c1 in
        p ← parent nd;
        lock_loop up fuel p delta' c2
  end.

Definition inc_lock_ref (node : nat) (c : RadixCache) : option (Z * RadixCache) :=
  if disable c then Some (0%Z, c) else lock_loop true (S (size (nodes c))) node 0 c.

Definition dec_lock_ref (node : nat) (c : RadixCache) : option (Z * RadixCache) :=
  if disable c then Some (0%Z, c) else lock_loop false (S (size (nodes c))) node 0 c.

Definition evictable_size (c : RadixCache) : Z := evictable_size_ c.
Definition protected_size (c : RadixCache) : Z := protected_size_ c.

(** ** Walking the tree *)

(** A Python stack is popped at its end: the list below has the top first, so
    [stack.extend(children)] puts the children on it in reverse order. *)
Fixpoint collect_loop (fuel : nat) (stack : list nat) (ret_list : list nat) (c : RadixCache)
    : option (list nat) :=
  match stack with
  | [] => Some ret_list
  | n :: stack =>
      match fuel with
      | 0 => None
      | S fuel =>
          nd ← nodes c !! n;
          match children nd with
          | [] => collect_loop fuel stack (ret_list ++ [n]) c
          | _ => collect_loop fuel (reverse ((children nd).*2) ++ stack) ret_list c
          end
      end
  end.

Definition _collect_leaves (c : RadixCache) : option (list nat) :=
  collect_loop (size (nodes c)) [root_node c] [] c.

Fixpoint total_loop (fuel : nat) (stack : list nat) (total : Z) (c : RadixCache)
    : option Z :=
  match stack with
  | [] => Some total
  | n :: stack =>
      match fuel with
      | 0 => None
      | S fuel =>
          nd ← nodes c !! n;
          v ← value nd;
          let kept := List.filter (λ m, match nodes c !! m with
                                        | Some d => negb (evicted d)
                                        | None => true
                                        end) (children nd).*2 in
          total_loop fuel (reverse kept ++ stack) (total + Z.of_nat (length v))%Z c
      end
  end.

Definition _total_size_helper (c : RadixCache) : option Z :=
  total_loop (size (nodes c)) [root_node c] 0 c.

Definition total_size (c : RadixCache) : option Z := _total_size_helper c.

(** [all_values_flatten]: the depth-first concatenation of the values below a node. *)
Fixpoint dfs_values (fuel node : nat) (c : RadixCache) : option (list Z) :=
  match fuel with
  | 0 => None
  | S fuel =>
      nd ← nodes c !! node;
      vs ← mapM (λ m, d ← nodes c !! m; v ← value d; w ← dfs_values fuel m c; Some (v ++ w))
             (children nd).*2;
      Some (concat vs)
  end.

Definition all_values_flatten (c : RadixCache) : option (list Z) :=
  dfs_values (S (size (nodes c))) (root_node c) c.

(** ** Eviction *)

(** [_delete_leaf]: the loop over the parent's items stops at the node; [del] then
    removes the last key it looked at. *)
Fixpoint find_child_key (n : nat) (items : list (list Z * nat)) : option (list Z) :=
  match items with
  | [] => None
  | [(k, _)] => Some k
  | (k, v) :: items => if decide (v = n) then Some k else find_child_key n items
  end.

Definition _delete_leaf (n : nat) (c : RadixCache) : option RadixCache :=
  nd ← nodes c !! n;
  p ← parent nd;
  pd ← nodes c !! p;
  k ← find_child_key n (children pd);
  let c1 := upd_node p (set_children (dict_del k (children pd))) c in
  Some (set_sizes (evictable_size_ c1 - Z.of_nat (length (key nd)))%Z (protected_size_ c1) c1).

(** [TreeNode.__lt__] orders the heap of leaves by [last_access_time]. *)
Definition access_time (c : RadixCache) (n : nat) : Z :=
  match nodes c !! n with Some nd => last_access_time nd | None => 0 end.

Context {A : Type} (free : list Z → A → A).

(** The loop of [evict]: [c] and the allocator [a] it frees the values to. *)
Fixpoint evict_loop (fuel : nat) (num_tokens num_evicted : Z) (leaves : list nat)
    (c : RadixCache) (a : A) : option (RadixCache * A) :=
  if bool_decide (num_evicted < num_tokens)%Z then
    match heappop (access_time c) leaves with
    | None => Some (c, a)
    | Some (x, leaves) =>
        match fuel with
        | 0 => None
        | S fuel =>
            if decide (x = root_node c) then Some (c, a)
            else
              nd ← nodes c !! x;
              if bool_decide (0 < lock_ref nd)%Z
              then evict_loop fuel num_tokens num_evicted leaves c a
              else
                v ← value nd;
                let a1 := free v a in
                c1 ← _delete_leaf x c;
                p ← parent nd;
                pd ← nodes c1 !! p;
                let leaves1 := match children pd with
                               | [] => heappush (access_time c1) leaves p
                               | _ => leaves
                               end in
                c2 ← _record_remove_event x c1;
                evict_loop fuel num_tokens (num_evicted + Z.of_nat (length v))%Z leaves1 c2 a1
        end
    end
  else Some (c, a).

Definition evict (num_tokens : Z) (c : RadixCache) (a : A) : option (RadixCache * A) :=
  if disable c then Some (c, a)
  else
    leaves ← _collect_leaves c;
    evict_loop (length leaves + size (nodes c)) num_tokens 0
      (heapify (access_time c) leaves) c a.
End radix.
