(* ===== verification/RadixTree.v ===== *)
(** * The tree below the object store

    The part of the node store the correctness of [RadixCache] rests on (children,
    parent, key, value, lock count), its well-formedness, what it stores
    ([has T n k v]: below node [n] the tokens [k] are cached in the slots [v]), and
    the four updates the operations perform on it: splitting an edge, adding a
    leaf, changing a lock count, and removing a leaf. *)

From S2P Require Import Prelude Radix.

Record shape := Shape {
  s_children : list (list Z * nat);
  s_parent : option nat;
  s_key : list Z;
  s_value : option (list Z);
  s_lock : Z
}.

Definition shape_of (nd : TreeNode) : shape :=
  Shape (children nd) (parent nd) (key nd) (value nd) (lock_ref nd).

(** The store without access times, hit counts and host copies. *)
Definition skel (c : RadixCache) : gmap nat shape := shape_of <$> nodes c.

Implicit Types (T : gmap nat shape) (L : gset nat) (off : nat → nat).

(** [L] is the set of nodes in the tree and [off n] the number of tokens on the
    path from the root to the end of node [n]'s key. *)
Record tree_ok (ps r : nat) T L off : Prop := {
  ok_ps : 0 < ps;
  ok_root : ∃ s, T !! r = Some s ∧ s_parent s = None ∧ s_key s = [] ∧ s_value s = Some [];
  ok_root_in : r ∈ L;
  ok_off_root : off r = 0;
  ok_children n s : n ∈ L → T !! n = Some s →
    NoDup (s_children s).*1 ∧
    ∀ ck m, (ck, m) ∈ s_children s →
      m ∈ L ∧ ∃ t, T !! m = Some t ∧ s_parent t = Some n ∧ ck = take ps (s_key t);
  ok_node n : n ∈ L → n ≠ r →
    ∃ s p sp v, T !! n = Some s ∧ s_parent s = Some p ∧ p ∈ L ∧ T !! p = Some sp ∧
      (take ps (s_key s), n) ∈ s_children sp ∧ s_key s ≠ [] ∧ (ps | length (s_key s)) ∧
      s_value s = Some v ∧ length v = length (s_key s) ∧ off n = off p + length (s_key s)
}.

Lemma get_child_key_ok ps k : k ≠ [] → get_child_key_fn ps k = Some (take ps k).
Proof. unfold get_child_key_fn. case_decide; subst; destruct k; done. Qed.

Section ok.
Context {ps r : nat} {T : gmap nat shape} {L : gset nat} {off : nat → nat}.
Context (OK : tree_ok ps r T L off).

Lemma ok_lookup n : n ∈ L → ∃ s, T !! n = Some s.
Proof.
  intros Hn. destruct (decide (n = r)) as [->|Hne].
  - destruct (ok_root _ _ _ _ _ OK) as (s & ? & _). eauto.
  - destruct (ok_node _ _ _ _ _ OK n Hn Hne) as (s & _ & _ & _ & ? & _). eauto.
Qed.

Lemma ok_child n s ck m : n ∈ L → T !! n = Some s → (ck, m) ∈ s_children s →
  m ∈ L ∧ m ≠ r ∧ ∃ t w, T !! m = Some t ∧ s_parent t = Some n ∧ ck = take ps (s_key t) ∧
    s_key t ≠ [] ∧ (ps | length (s_key t)) ∧ s_value t = Some w ∧
    length w = length (s_key t) ∧ off m = off n + length (s_key t).
Proof.
  intros Hn Hs Hm. destruct (ok_children _ _ _ _ _ OK n s Hn Hs) as [_ Hc].
  destruct (Hc ck m Hm) as (HmL & t & Ht & Hp & ->).
  assert (m ≠ r) as Hmr.
  { intros ->. destruct (ok_root _ _ _ _ _ OK) as (? & ? & ? & _). congruence. }
  destruct (ok_node _ _ _ _ _ OK m HmL Hmr)
    as (t' & p & sp & v & ? & ? & ? & ? & ? & ? & ? & ? & ? & ?); simplify_eq.
  split_and!; [done..|]. exists t, v. split_and!; congruence || done.
Qed.

Lemma ok_child_off n s ck m : n ∈ L → T !! n = Some s → (ck, m) ∈ s_children s →
  off n < off m.
Proof.
  intros Hn Hs Hm.
  destruct (ok_child n s ck m Hn Hs Hm) as (_ & _ & t & w & _ & _ & _ & Hk & _ & _ & _ & ->).
  destruct (s_key t); [done|simpl; lia].
Qed.

Lemma ok_NoDup_children n s : n ∈ L → T !! n = Some s → NoDup (s_children s).*2.
Proof.
  intros Hn Hs. destruct (ok_children _ _ _ _ _ OK n s Hn Hs) as [Hnd Hc].
  revert Hnd Hc. induction (s_children s) as [|[ck m] cs IH]; simpl; [constructor|].
  intros [Hck Hnd]%NoDup_cons Hc. constructor.
  - intros ([ck' m'] & ? & Hin)%list_elem_of_fmap; simplify_eq/=.
    destruct (Hc ck m' ltac:(left)) as (_ & t & Ht & _ & ->).
    destruct (Hc ck' m' ltac:(by right)) as (_ & t' & Ht' & _ & ->). simplify_eq.
    apply Hck, list_elem_of_fmap. by exists (take ps (s_key t), m').
  - apply IH; [done|]. intros ? ? Hin. apply Hc. by right.
Qed.

(** A child is reached through one parent only. *)
Lemma ok_child_inj n s ck n' s' ck' m : n ∈ L → n' ∈ L → T !! n = Some s →
  T !! n' = Some s' → (ck, m) ∈ s_children s → (ck', m) ∈ s_children s' →
  n = n' ∧ ck = ck'.
Proof.
  intros Hn Hn' Hs Hs' Hm Hm'.
  destruct (ok_child n s ck m Hn Hs Hm) as (_ & _ & t & w & ? & ? & -> & _).
  destruct (ok_child n' s' ck' m Hn' Hs' Hm') as (_ & _ & t' & w' & ? & ? & -> & _).
  simplify_eq. done.
Qed.

Lemma ok_parent n s p : n ∈ L → n ≠ r → T !! n = Some s → s_parent s = Some p →
  p ∈ L ∧ p ≠ n ∧ off p < off n ∧ ∃ sp, T !! p = Some sp ∧
    (take ps (s_key s), n) ∈ s_children sp.
Proof.
  intros Hn Hr Hs Hp.
  destruct (ok_node _ _ _ _ _ OK n Hn Hr)
    as (s' & p' & sp & v & ? & ? & ? & ? & ? & Hk & ? & ? & ? & Ho); simplify_eq.
  assert (off p < off n) by (rewrite Ho; destruct (s_key s); [done|simpl; lia]).
  split_and!; [done| |done|eauto]. intros ->. lia.
Qed.
End ok.

(** ** What the tree stores *)

(** [edge T n m k v]: [m] is a child of [n] with the key [k] and the value [v]. *)
Definition edge T (n m : nat) (k v : list Z) : Prop :=
  ∃ s ck t, T !! n = Some s ∧ (ck, m) ∈ s_children s ∧ T !! m = Some t ∧
    s_key t = k ∧ s_value t = Some v.

Inductive has T : nat → list Z → list Z → Prop :=
  | has_nil n : has T n [] []
  | has_part n m kk ww k : edge T n m kk ww → k `prefix_of` kk → has T n k (take (length k) ww)
  | has_full n m kk ww k v : edge T n m kk ww → has T m k v → has T n (kk ++ k) (ww ++ v).

(** [path T n m k v]: the nodes from [n] (excluded) down to [m] spell [k] and [v]. *)
Inductive path T : nat → nat → list Z → list Z → Prop :=
  | path_nil n : path T n n [] []
  | path_cons n m l kk ww k v : edge T n m kk ww → path T m l k v → path T n l (kk ++ k) (ww ++ v).

#[export] Hint Constructors has path : py.

Lemma path_has T n m k v : path T n m k v → has T n k v.
Proof. induction 1; eauto with py. Qed.

Lemma path_has_app T n m k v k' v' :
  path T n m k v → has T m k' v' → has T n (k ++ k') (v ++ v').
Proof. induction 1; intros; rewrite <- ?app_assoc; eauto with py. Qed.

Lemma path_app T n m l k v k' v' :
  path T n m k v → path T m l k' v' → path T n l (k ++ k') (v ++ v').
Proof. induction 1; intros; rewrite <- ?app_assoc; eauto with py. Qed.

Lemma path_single T n m kk ww : edge T n m kk ww → path T n m kk ww.
Proof.
  intros. rewrite <- (app_nil_r kk), <- (app_nil_r ww). eauto with py.
Qed.

Section edges.
Context {ps r : nat} {T : gmap nat shape} {L : gset nat} {off : nat → nat}.
Context (OK : tree_ok ps r T L off).

Lemma edge_ok n m kk ww : n ∈ L → edge T n m kk ww →
  m ∈ L ∧ m ≠ r ∧ kk ≠ [] ∧ (ps | length kk) ∧ length ww = length kk ∧
  off m = off n + length kk.
Proof.
  intros Hn (s & ck & t & Hs & Hc & Ht & <- & Hw).
  destruct (ok_child OK n s ck m Hn Hs Hc) as (? & ? & t' & w' & ? & ? & ? & ? & ? & ? & ? & ?).
  simplify_eq. done.
Qed.

(** The edge to follow is determined by the first page. *)
Lemma edge_inj n m kk ww m' kk' ww' : n ∈ L → edge T n m kk ww → edge T n m' kk' ww' →
  take ps kk = take ps kk' → m = m' ∧ kk = kk' ∧ ww = ww'.
Proof.
  intros Hn (s & ck & t & Hs & Hc & Ht & <- & Hw) (s' & ck' & t' & Hs' & Hc' & Ht' & <- & Hw').
  simplify_eq. intros E.
  destruct (ok_children _ _ _ _ _ OK n s Hn Hs) as [Hnd Hch].
  destruct (Hch _ _ Hc) as (_ & ? & ? & _ & ->).
  destruct (Hch _ _ Hc') as (_ & ? & ? & _ & ->). simplify_eq.
  rewrite E in Hc.
  pose proof (dict_elem_get _ _ _ Hnd Hc). pose proof (dict_elem_get _ _ _ Hnd Hc').
  by simplify_eq.
Qed.

Lemma edge_lookup n s k m : n ∈ L → T !! n = Some s →
  dict_get (take ps k) (s_children s) = Some m →
  ∃ t ww, T !! m = Some t ∧ s_value t = Some ww ∧ edge T n m (s_key t) ww ∧
    take ps (s_key t) = take ps k.
Proof.
  intros Hn Hs Hc%dict_get_elem.
  destruct (ok_child OK n s _ m Hn Hs Hc) as (? & ? & t & w & ? & ? & ? & ? & ? & ? & ? & ?).
  exists t, w. split_and!; [done..| |done]. by exists s, (take ps k), t.
Qed.

Lemma path_ok n m k v : n ∈ L → path T n m k v →
  m ∈ L ∧ (ps | length k) ∧ length v = length k ∧ off m = off n + length k.
Proof.
  intros Hn. induction 1 as [n|n m l kk ww k v He Hp IH].
  { split_and!; [done|by apply Nat.divide_0_r|done|simpl; lia]. }
  destruct (edge_ok n m kk ww Hn He) as (? & ? & ? & ? & ? & ?).
  destruct IH as (? & ? & ? & ?); [done|]. rewrite !length_app.
  split_and!; [done|by apply Nat.divide_add_r|lia|lia].
Qed.

Lemma has_length n k v : n ∈ L → has T n k v → length v = length k.
Proof.
  intros Hn. induction 1 as [n|n m kk ww k He Hk|n m kk ww k v He Hh IH].
  - done.
  - destruct (edge_ok n m kk ww Hn He) as (? & ? & ? & ? & ? & ?).
    apply prefix_length in Hk. rewrite length_take. lia.
  - destruct (edge_ok n m kk ww Hn He) as (? & ? & ? & ? & ? & ?).
    rewrite !length_app, IH by done. lia.
Qed.
End edges.

(** ** Splitting an edge *)

(** [_split_node]: the node taking the first [sl] tokens of [child]'s key [t], the
    child with the rest, and the parent [sp] with the new child. *)
Definition split_new (ps child sl p : nat) (t : shape) (w : list Z) : shape :=
  Shape [(take ps (drop sl (s_key t)), child)] (Some p) (take sl (s_key t))
    (Some (take sl w)) (s_lock t).
Definition split_child (new sl : nat) (t : shape) (w : list Z) : shape :=
  Shape (s_children t) (Some new) (drop sl (s_key t)) (Some (drop sl w)) (s_lock t).
Definition set_child (ck : list Z) (m : nat) (sp : shape) : shape :=
  Shape (dict_set ck m (s_children sp)) (s_parent sp) (s_key sp) (s_value sp) (s_lock sp).

Definition split_T (ps : nat) T (child new sl p : nat) (t sp : shape) (w : list Z)
    : gmap nat shape :=
  <[p := set_child (take ps (s_key t)) new sp]>
  (<[child := split_child new sl t w]>
  (<[new := split_new ps child sl p t w]> T)).

Definition split_off (p new sl : nat) off : nat → nat :=
  λ n, if decide (n = new) then off p + sl else off n.

(** What a split needs: the tree is well formed, [child] is a node of it below the
    root with key and value in [t] and [w], and the cut is at a page boundary. *)
Record is_split (ps r : nat) T L off (child new sl p : nat) (t sp : shape) (w : list Z)
    : Prop := {
  sp_ok : tree_ok ps r T L off;
  sp_child : child ∈ L;
  sp_root : child ≠ r;
  sp_t : T !! child = Some t;
  sp_parent : s_parent t = Some p;
  sp_sp : T !! p = Some sp;
  sp_w : s_value t = Some w;
  sp_len : 0 < sl < length (s_key t);
  sp_div : (ps | sl);
  sp_new : T !! new = None
}.

Section split.
Context {ps r : nat} {T : gmap nat shape} {L : gset nat} {off : nat → nat}.
Context {child new sl p : nat} {t sp : shape} {w : list Z}.
Context (SP : is_split ps r T L off child new sl p t sp w).

Let OK := sp_ok _ _ _ _ _ _ _ _ _ _ _ _ SP.
Let Hchild := sp_child _ _ _ _ _ _ _ _ _ _ _ _ SP.
Let Hroot := sp_root _ _ _ _ _ _ _ _ _ _ _ _ SP.
Let Ht := sp_t _ _ _ _ _ _ _ _ _ _ _ _ SP.
Let Hp := sp_parent _ _ _ _ _ _ _ _ _ _ _ _ SP.
Let Hsp := sp_sp _ _ _ _ _ _ _ _ _ _ _ _ SP.
Let Hw := sp_w _ _ _ _ _ _ _ _ _ _ _ _ SP.
Let Hsl := sp_len _ _ _ _ _ _ _ _ _ _ _ _ SP.
Let Hdiv := sp_div _ _ _ _ _ _ _ _ _ _ _ _ SP.
Let Hnew := sp_new _ _ _ _ _ _ _ _ _ _ _ _ SP.

Local Abbreviation T' := (split_T ps T child new sl p t sp w).
Local Abbreviation off' := (split_off p new sl off).

Lemma split_facts :
  p ∈ L ∧ p ≠ child ∧ p ≠ new ∧ child ≠ new ∧ new ∉ L ∧
  (take ps (s_key t), child) ∈ s_children sp ∧ length w = length (s_key t) ∧
  (ps | length (s_key t)) ∧ off child = off p + length (s_key t).
Proof.
  destruct (ok_parent OK child t p Hchild Hroot Ht Hp) as (? & ? & ? & sp' & ? & ?).
  destruct (ok_node _ _ _ _ _ OK child Hchild Hroot)
    as (t' & p' & sp'' & v & ? & ? & ? & ? & ? & ? & ? & ? & ? & ?); simplify_eq.
  split_and!; try done; try congruence.
  intros Hin. destruct (ok_lookup OK new Hin). congruence.
Qed.

Lemma split_lookup_p : T' !! p = Some (set_child (take ps (s_key t)) new sp).
Proof using Type. apply lookup_insert_eq. Qed.

Lemma split_lookup_child : T' !! child = Some (split_child new sl t w).
Proof.
  destruct split_facts as (_ & ? & _). unfold split_T. by simplify_map_eq.
Qed.

Lemma split_lookup_new : T' !! new = Some (split_new ps child sl p t w).
Proof.
  destruct split_facts as (_ & ? & ? & ? & _). unfold split_T. by simplify_map_eq.
Qed.

Lemma split_lookup_ne n : n ≠ p → n ≠ child → n ≠ new → T' !! n = T !! n.
Proof using Type. intros. unfold split_T. by rewrite !lookup_insert_ne. Qed.

(** Old nodes keep their lock; all but [child] keep parent, key and value; all but
    [p] keep their children. *)
Lemma split_lookup_old n s : n ∈ L → T !! n = Some s → ∃ s', T' !! n = Some s' ∧
  s_lock s' = s_lock s ∧ (n ≠ p → s_children s' = s_children s) ∧
  (n ≠ child → s_parent s' = s_parent s ∧ s_key s' = s_key s ∧ s_value s' = s_value s).
Proof.
  destruct split_facts as (? & ? & ? & ? & ? & _). intros Hn Hs.
  destruct (decide (n = p)) as [->|]; [|destruct (decide (n = child)) as [->|]]; simplify_eq.
  - eexists. rewrite split_lookup_p. by simpl.
  - eexists. rewrite split_lookup_child. by simpl.
  - eexists. rewrite split_lookup_ne by (done || set_solver). done.
Qed.

(** Below [p], [new] stands for [child]. *)
Lemma split_children_elem ck m :
  (ck, m) ∈ dict_set (take ps (s_key t)) new (s_children sp) ↔
  (ck = take ps (s_key t) ∧ m = new) ∨ ((ck, m) ∈ s_children sp ∧ m ≠ child).
Proof.
  destruct split_facts as (HpL & _ & _ & _ & HnL & Hin & _).
  destruct (ok_children _ _ _ _ _ OK p sp HpL Hsp) as [Hnd Hc].
  pose proof (ok_NoDup_children OK p sp HpL Hsp) as Hnd2.
  pose proof (dict_elem_get _ _ _ Hnd Hin) as Hget.
  destruct (dict_set_split _ _ _ Hget) as (d1 & d2 & Heq & Hn1 & -> & _).
  rewrite Heq in *. rewrite fmap_app, fmap_cons in Hnd2. simpl in Hnd2.
  apply NoDup_app in Hnd2 as (_ & Hx & [Hy _]%NoDup_cons).
  rewrite !elem_of_app, !elem_of_cons. split.
  - intros [Hm|[?|Hm]]; simplify_eq; [right|by left|right]; (split; [by eauto|]); intros ->.
    + apply (Hx child); [|left]. apply list_elem_of_fmap. by exists (ck, child).
    + apply Hy. apply list_elem_of_fmap. by exists (ck, child).
  - intros [[-> ->]|[[?|[?|?]] ?]]; simplify_eq; eauto.
Qed.

Lemma split_first_page : take ps (take sl (s_key t)) = take ps (s_key t).
Proof.
  pose proof (ok_ps _ _ _ _ _ OK). rewrite take_take. f_equal.
  assert (ps ≤ sl) by (apply Nat.divide_pos_le; [lia|done]). lia.
Qed.

Lemma split_ok_children n s : n ∈ {[new]} ∪ L → T' !! n = Some s →
  NoDup (s_children s).*1 ∧
  ∀ ck m, (ck, m) ∈ s_children s →
    m ∈ {[new]} ∪ L ∧ ∃ t, T' !! m = Some t ∧ s_parent t = Some n ∧ ck = take ps (s_key t).
Proof.
  destruct split_facts as (HpL & Hpc & Hpn & Hcn & HnL & Hin & Hlw & Hdk & Hoff).
  assert (Hold : ∀ n s ck m, n ∈ L → T !! n = Some s → (ck, m) ∈ s_children s → m ≠ child →
    m ∈ {[new]} ∪ L ∧ ∃ t, T' !! m = Some t ∧ s_parent t = Some n ∧ ck = take ps (s_key t)).
  { intros n' s' ck m Hn' Hs' Hm Hmc.
    destruct (ok_children _ _ _ _ _ OK n' s' Hn' Hs') as [_ Hc].
    destruct (Hc ck m Hm) as (HmL & tm & Htm & Hpm & ->).
    destruct (split_lookup_old m tm HmL Htm) as (tm' & ? & _ & _ & Hk).
    destruct (Hk Hmc) as (? & ? & _). split; [set_solver|]. exists tm'.
    split_and!; congruence. }
  intros Hn. destruct (decide (n = p)) as [->|]; [|destruct (decide (n = child)) as [->|];
    [|destruct (decide (n = new)) as [->|]]].
  - rewrite split_lookup_p. intros [= <-]. simpl.
    destruct (ok_children _ _ _ _ _ OK p sp HpL Hsp) as [Hnd Hc]. split.
    { rewrite dict_set_keys; [done|]. rewrite (dict_elem_get _ _ _ Hnd Hin). eauto. }
    intros ck m [[-> ->]|[Hm Hmc]]%split_children_elem; [|by eapply Hold].
    split; [set_solver|]. rewrite split_lookup_new. eexists. split_and!; [done..|].
    simpl. by rewrite split_first_page.
  - rewrite split_lookup_child. intros [= <-]. simpl.
    destruct (ok_children _ _ _ _ _ OK child t Hchild Ht) as [Hnd Hc].
    split; [done|]. intros ck m Hm. eapply Hold; [done..|]. intros ->.
    pose proof (ok_child_off OK child t _ child Hchild Ht Hm). lia.
  - rewrite split_lookup_new. intros [= <-]. simpl. split; [apply NoDup_singleton|].
    intros ck m [= -> ->]%list_elem_of_singleton. split; [set_solver|].
    rewrite split_lookup_child. by eexists.
  - rewrite split_lookup_ne by done. intros Hs. assert (n ∈ L) by set_solver.
    destruct (ok_children _ _ _ _ _ OK n s) as [Hnd Hc]; [done..|].
    split; [done|]. intros ck m Hm. eapply Hold; [done..|]. intros ->.
    destruct (Hc ck child Hm) as (_ & ? & ? & ? & _). congruence.
Qed.

Lemma split_ok_node n : n ∈ {[new]} ∪ L → n ≠ r →
  ∃ s p sp v, T' !! n = Some s ∧ s_parent s = Some p ∧ p ∈ {[new]} ∪ L ∧
    T' !! p = Some sp ∧ (take ps (s_key s), n) ∈ s_children sp ∧ s_key s ≠ [] ∧
    (ps | length (s_key s)) ∧ s_value s = Some v ∧ length v = length (s_key s) ∧
    off' n = off' p + length (s_key s).
Proof.
  destruct split_facts as (HpL & Hpc & Hpn & Hcn & HnL & Hin & Hlw & Hdk & Hoff).
  intros Hn Hnr. unfold split_off.
  destruct (decide (n = new)) as [->|Hnn]; [|destruct (decide (n = child)) as [->|Hnc]].
  - rewrite split_lookup_new. exists (split_new ps child sl p t w), p.
    exists (set_child (take ps (s_key t)) new sp), (take sl w). simpl.
    rewrite !length_take, Nat.min_l, split_first_page by lia.
    rewrite split_lookup_p, decide_False by done. simpl.
    split_and!; try done; [set_solver|rewrite split_children_elem; by left| |lia].
    intros E%(f_equal length). rewrite length_take in E. simpl in E. lia.
  - rewrite split_lookup_child. exists (split_child new sl t w), new.
    exists (split_new ps child sl p t w), (drop sl w). simpl.
    rewrite split_lookup_new, !length_drop, decide_True by done.
    split_and!; try done; [set_solver|set_solver| |by apply Nat.divide_sub_r|lia|lia].
    intros E%(f_equal length). rewrite length_drop in E. simpl in E. lia.
  - assert (n ∈ L) as HnL' by set_solver.
    destruct (ok_node _ _ _ _ _ OK n HnL' Hnr)
      as (s & q & sq & v & Hs & Hq & HqL & Hsq & Hinq & Hks & Hds & Hv & Hlv & Ho).
    assert (q ≠ new) by (intros ->; done).
    destruct (split_lookup_old n s HnL' Hs) as (s' & Hs' & _ & _ & E).
    destruct (E Hnc) as (E1 & E2 & E3).
    destruct (split_lookup_old q sq HqL Hsq) as (sq' & Hsq' & _ & Eq & _).
    exists s', q, sq', v. rewrite E1, E2, E3, decide_False by done.
    split_and!; try done; [set_solver|]. destruct (decide (q = p)) as [->|Hqp]; [|by rewrite Eq].
    rewrite split_lookup_p in Hsq'. simplify_eq. simpl.
    rewrite split_children_elem. by right.
Qed.

Lemma split_ok : tree_ok ps r T' ({[new]} ∪ L) off'.
Proof.
  destruct split_facts as (HpL & Hpc & Hpn & Hcn & HnL & Hin & Hlw & Hdk & Hoff).
  pose proof (ok_root_in _ _ _ _ _ OK) as Hrin.
  split.
  - apply OK.
  - destruct (ok_root _ _ _ _ _ OK) as (s & Hs & Hps' & Hks & Hvs).
    destruct (split_lookup_old r s Hrin Hs) as (s' & ? & _ & _ & E).
    destruct (E ltac:(done)) as (E1 & E2 & E3). exists s'. by rewrite E1, E2, E3.
  - set_solver.
  - unfold split_off. rewrite decide_False by set_solver. apply OK.
  - apply split_ok_children.
  - apply split_ok_node.
Qed.
End split.
