(* ===== verification/RadixUpdate.v ===== *)
(** * The updates of the radix tree

    Splitting an edge, adding a leaf, changing a lock count and removing a leaf:
    what each does to the well-formedness, to what is stored ([has]), to the sums
    over the nodes (sizes, slots) and to the lock counts. *)

From S2P Require Import Prelude Radix RadixTree.

Implicit Types (T : gmap nat shape) (L : gset nat) (off : nat → nat).

(** ** Sums over the nodes and the lock equation *)

(** A weight of a node depends on its key, value and lock count. *)
Definition weight := list Z → option (list Z) → Z → Z.

Definition wt (f : weight) T (n : nat) : Z :=
  match T !! n with Some s => f (s_key s) (s_value s) (s_lock s) | None => 0 end.

Definition tree_sum (f : weight) T L : Z := set_zsum (wt f T) L.

(** The tokens of unlocked nodes, of locked nodes, and of all nodes. *)
Definition w_evictable : weight := λ k _ l, (if decide (l = 0) then Z.of_nat (length k) else 0)%Z.
Definition w_protected : weight := λ k _ l, (if decide (l = 0) then 0 else Z.of_nat (length k))%Z.
Definition w_total : weight := λ k _ _, Z.of_nat (length k).
(** The multiplicity of a slot in the values. *)
Definition w_slot (x : Z) : weight := λ _ v _,
  match v with Some v => Z.of_nat (count_occ Z.eq_dec v x) | None => 0%Z end.

(** A weight that a key may be cut under. *)
Definition additive (f : weight) : Prop :=
  ∀ k v l i, (f (take i k) (Some (take i v)) l + f (drop i k) (Some (drop i v)) l = f k (Some v) l)%Z.

Lemma count_occ_take_drop x i (v : list Z) :
  count_occ Z.eq_dec (take i v) x + count_occ Z.eq_dec (drop i v) x = count_occ Z.eq_dec v x.
Proof. rewrite <- count_occ_app. by rewrite take_drop. Qed.

Lemma length_take_drop {A} i (k : list A) : length (take i k) + length (drop i k) = length k.
Proof. rewrite <- length_app. by rewrite take_drop. Qed.

Lemma additive_evictable : additive w_evictable.
Proof.
  intros k v l i. unfold w_evictable. pose proof (length_take_drop i k).
  case_decide; lia.
Qed.
Lemma additive_protected : additive w_protected.
Proof.
  intros k v l i. unfold w_protected. pose proof (length_take_drop i k).
  case_decide; lia.
Qed.
Lemma additive_total : additive w_total.
Proof. intros k v l i. unfold w_total. pose proof (length_take_drop i k). lia. Qed.
Lemma additive_slot x : additive (w_slot x).
Proof. intros k v l i. unfold w_slot. pose proof (count_occ_take_drop x i v). lia. Qed.

#[export] Hint Resolve additive_evictable additive_protected additive_total additive_slot : py.

Definition lock_of T (n : nat) : Z := match T !! n with Some s => s_lock s | None => 0 end.

(** Every node is locked by its own holders and through its children. *)
Definition locks_eq (r : nat) T L (own : nat → Z) : Prop :=
  ∀ n s, n ∈ L → n ≠ r → T !! n = Some s →
    s_lock s = (own n + zsum (lock_of T) (s_children s).*2)%Z.

Lemma zsum_lock_ext T T' ms : (∀ m, m ∈ ms → lock_of T' m = lock_of T m) →
  zsum (lock_of T') ms = zsum (lock_of T) ms.
Proof. apply zsum_ext. Qed.

(** ** Splitting *)

Section split.
Context {ps r : nat} {T : gmap nat shape} {L : gset nat} {off : nat → nat}.
Context {child new sl p : nat} {t sp : shape} {w : list Z}.
Context (SP : is_split ps r T L off child new sl p t sp w).

Let OK := sp_ok _ _ _ _ _ _ _ _ _ _ _ _ SP.
Let Hchild := sp_child _ _ _ _ _ _ _ _ _ _ _ _ SP.
Let Hroot := sp_root _ _ _ _ _ _ _ _ _ _ _ _ SP.
Let Ht := sp_t _ _ _ _ _ _ _ _ _ _ _ _ SP.
Let Hp := sp_parent _ _ _ _ _ _ _ _ _ _ _ _ SP.
Let Hsp := sp_sp _ _ _ _ _ _ _ _ _ _ _ _ SP.
Let Hw := sp_w _ _ _ _ _ _ _ _ _ _ _ _ SP.
Let Hsl := sp_len _ _ _ _ _ _ _ _ _ _ _ _ SP.
Let Hdiv := sp_div _ _ _ _ _ _ _ _ _ _ _ _ SP.
Let Hnew := sp_new _ _ _ _ _ _ _ _ _ _ _ _ SP.

Local Abbreviation T' := (split_T ps T child new sl p t sp w).
Local Abbreviation FACTS := (split_facts SP).

Lemma split_edge_p : edge T p child (s_key t) w.
Proof. destruct FACTS as (? & ? & ? & ? & ? & ? & _). do 3 eexists. split_and!; done. Qed.

Lemma split_edge_new : edge T' p new (take sl (s_key t)) (take sl w).
Proof.
  do 3 eexists. rewrite split_lookup_p. rewrite (split_lookup_new SP); [|done..].
  split_and!; try done. simpl. rewrite (split_children_elem SP); [|done..]. by left.
Qed.

Lemma split_edge_low : edge T' new child (drop sl (s_key t)) (drop sl w).
Proof.
  do 3 eexists. rewrite (split_lookup_new SP), (split_lookup_child SP); [|done..].
  split_and!; try done. by left.
Qed.

Lemma split_edge_old n m kk ww : n ∈ L → m ≠ child → edge T n m kk ww → edge T' n m kk ww.
Proof.
  destruct FACTS as (? & ? & ? & ? & ? & ? & _).
  intros Hn Hm (s & ck & tm & Hs & Hc & Htm & <- & Hv).
  destruct (ok_child OK n s ck m Hn Hs Hc) as (HmL & _).
  destruct (split_lookup_old SP n s Hn Hs) as (s' & Hs' & _ & Ec & _).
  destruct (split_lookup_old SP m tm HmL Htm) as (tm' & Htm' & _ & _ & Em).
  destruct (Em Hm) as (_ & Ek & Ev). exists s', ck, tm'. split_and!; try done; [|congruence].
  destruct (decide (n = p)) as [->|Hnp]; [|by rewrite Ec].
  rewrite split_lookup_p in Hs'. simplify_eq. simpl.
  rewrite (split_children_elem SP); [|done..]. by right.
Qed.

Lemma split_edge_inv n m kk ww : n ∈ {[new]} ∪ L → edge T' n m kk ww →
  (n ∈ L ∧ m ∈ L ∧ m ≠ child ∧ edge T n m kk ww) ∨
  (n = p ∧ m = new ∧ kk = take sl (s_key t) ∧ ww = take sl w) ∨
  (n = new ∧ m = child ∧ kk = drop sl (s_key t) ∧ ww = drop sl w).
Proof.
  destruct FACTS as (HpL & Hpc & Hpn & Hcn & HnL & Hin & _).
  intros Hn (s & ck & tm & Hs & Hc & Htm & <- & Hv).
  destruct (decide (n = new)) as [->|Hnn].
  { right; right. rewrite (split_lookup_new SP) in Hs; [|done..]. simplify_eq. simpl in Hc.
    apply list_elem_of_singleton in Hc. simplify_eq.
    rewrite (split_lookup_child SP) in Htm; [|done..]. by simplify_eq/=. }
  assert (n ∈ L) as HnL' by set_solver.
  assert (Hold : ∀ s0, T !! n = Some s0 → (ck, m) ∈ s_children s0 → m ≠ child →
            n ∈ L ∧ m ∈ L ∧ m ≠ child ∧ edge T n m (s_key tm) ww).
  { intros s0 Hs0 Hin0 Hmc. destruct (ok_child OK n s0 ck m HnL' Hs0 Hin0) as (HmL & _ & t0 & _ & Ht0 & _).
    destruct (split_lookup_old SP m t0 HmL Ht0) as (tm' & Htm' & _ & _ & Em). destruct (Em Hmc) as (_ & ? & ?).
    split_and!; [done..|]. exists s0, ck, t0. split_and!; congruence || done. }
  destruct (decide (n = p)) as [->|Hnp].
  - rewrite split_lookup_p in Hs. simplify_eq. simpl in Hc.
    apply (split_children_elem SP) in Hc as [[-> ->]|[Hc Hmc]]; [|left; by eapply Hold|done..].
    right; left. rewrite (split_lookup_new SP) in Htm; [|done..]. by simplify_eq/=.
  - left. destruct (ok_lookup OK n HnL') as [s0 Hs0].
    destruct (split_lookup_old SP n s0 HnL' Hs0) as (s' & Hs' & _ & Ec & _). simplify_eq.
    rewrite Ec in Hc by done. eapply Hold; [done..|]. intros ->.
    destruct (ok_child OK n s0 ck child HnL' Hs0 Hc) as (_ & _ & t1 & _ & ? & ? & _). congruence.
Qed.

Lemma split_value_length : length w = length (s_key t).
Proof. by destruct FACTS as (_ & _ & _ & _ & _ & _ & ? & _). Qed.

Lemma split_edge_child n kk ww : n ∈ L → edge T n child kk ww →
  n = p ∧ kk = s_key t ∧ ww = w.
Proof.
  intros Hn (s & ck & tm & Hs & Hc & Htm & <- & Hv).
  destruct FACTS as (HpL & _ & _ & _ & _ & Hin & _).
  destruct (ok_child_inj OK _ _ _ _ _ _ _ Hn HpL Hs Hsp Hc Hin) as [-> _].
  pose proof Ht. pose proof Hw. split_and!; congruence.
Qed.

Lemma split_has_2 n k v : n ∈ L → has T n k v → has T' n k v.
Proof.
  intros Hn Hh. induction Hh as [n|n m kk ww k He Hk|n m kk ww k v He Hh IH]; [constructor| |].
  - destruct (decide (m = child)) as [->|Hm].
    2: { eapply has_part; [by apply split_edge_old|done]. }
    destruct (split_edge_child n kk ww Hn He) as (-> & -> & ->).
    destruct (decide (length k ≤ sl)) as [Hl|Hl].
    + replace (take (length k) w) with (take (length k) (take sl w))
        by (rewrite take_take; f_equal; lia).
      eapply has_part; [apply split_edge_new|].
      rewrite (prefix_take k (s_key t)) by done. exists (take (sl - length k) (drop (length k) (s_key t))).
      rewrite take_app_take_drop. f_equal. lia.
    + assert (k = take sl (s_key t) ++ drop sl k) as Ek.
      { rewrite (prefix_take k (s_key t)) at 2 by done. rewrite <- (take_drop sl k) at 1.
        f_equal; [|by rewrite <- prefix_take].
        rewrite (prefix_take k (s_key t)) at 1 by done. rewrite take_take. f_equal. lia. }
      assert (take (length k) w = take sl w ++ take (length (drop sl k)) (drop sl w)) as Ev.
      { rewrite take_app_take_drop, length_drop. f_equal. lia. }
      rewrite Ev, Ek at 1.
      eapply has_full; [apply split_edge_new|]. eapply has_part; [apply split_edge_low|].
      rewrite Ek in Hk.
      apply (prefix_app_inv (take sl (s_key t))). by rewrite take_drop.
  - destruct (edge_ok OK n m kk ww Hn He) as (HmL & _).
    destruct (decide (m = child)) as [->|Hm].
    2: { eapply has_full; [by apply split_edge_old|by apply IH]. }
    destruct (split_edge_child n kk ww Hn He) as (-> & -> & ->).
    replace (s_key t ++ k) with (take sl (s_key t) ++ drop sl (s_key t) ++ k)
      by (by rewrite app_assoc, take_drop).
    replace (w ++ v) with (take sl w ++ drop sl w ++ v) by (by rewrite app_assoc, take_drop).
    eapply has_full; [apply split_edge_new|]. eapply has_full; [apply split_edge_low|].
    by apply IH.
Qed.

(** Below the new node the tree stores the rest of the split key. *)
Lemma split_has_1 n k v : n ∈ {[new]} ∪ L → has T' n k v →
  (n ∈ L → has T n k v) ∧
  (n = new → has T p (take sl (s_key t) ++ k) (take sl w ++ v)).
Proof.
  destruct FACTS as (HpL & Hpc & Hpn & Hcn & HnL & Hin & Hlw & _).
  intros Hn Hh. induction Hh as [n|n m kk ww k He Hk|n m kk ww k v He Hh IH].
  - split; [constructor|]. intros ->. rewrite !app_nil_r.
    replace (take sl w) with (take (length (take sl (s_key t))) w)
      by (rewrite length_take; f_equal; lia).
    eapply has_part; [apply split_edge_p|apply take_prefix_of].
  - destruct (split_edge_inv n m kk ww Hn He)
      as [(? & ? & ? & ?)|[(-> & -> & -> & ->)|(-> & -> & -> & ->)]].
    + split; [intros _|by intros ->]. by eapply has_part.
    + split; [intros _|done]. apply prefix_length in Hk as Hl. rewrite length_take in Hl.
      rewrite take_take, Nat.min_l by lia.
      eapply has_part; [apply split_edge_p|]. by etrans; [|apply take_prefix_of].
    + split; [done|intros _]. rewrite take_app_take_drop.
      replace (sl + length k) with (length (take sl (s_key t) ++ k))
        by (rewrite length_app, length_take; lia).
      eapply has_part; [apply split_edge_p|].
      rewrite <- (take_drop sl (s_key t)) at 2. by apply prefix_app.
  - destruct (split_edge_inv n m kk ww Hn He)
      as [(? & HmL & ? & ?)|[(-> & -> & -> & ->)|(-> & -> & -> & ->)]].
    + split; [intros _|by intros ->]. eapply has_full; [done|].
      by apply IH; [apply elem_of_union_r|].
    + split; [intros _|done]. by apply IH; [apply elem_of_union_l, elem_of_singleton|].
    + split; [done|intros _]. rewrite !app_assoc, !take_drop.
      eapply has_full; [apply split_edge_p|]. by apply IH; [apply elem_of_union_r|].
Qed.

Lemma split_has n k v : n ∈ L → has T' n k v ↔ has T n k v.
Proof.
  intros Hn. split; [|by apply split_has_2].
  intros Hh. eapply split_has_1; [set_solver|done..].
Qed.

Lemma split_sum f : additive f → tree_sum f T' ({[new]} ∪ L) = tree_sum f T L.
Proof.
  intros Hf. destruct FACTS as (HpL & Hpc & Hpn & Hcn & HnL & Hin & Hlw & _).
  unfold tree_sum. rewrite set_zsum_insert by done.
  assert (Hsame : ∀ m, m ∈ L → m ≠ child → wt f T' m = wt f T m).
  { intros m Hm Hmc. unfold wt. destruct (ok_lookup OK m Hm) as [s Hs].
    destruct (split_lookup_old SP m s Hm Hs) as (s' & Hs' & El & _ & E).
    destruct (E Hmc) as (_ & Ek & Ev). by rewrite Hs, Hs', El, Ek, Ev. }
  rewrite (set_zsum_update (wt f T) (wt f T') L child Hchild Hsame).
  unfold wt. rewrite (split_lookup_new SP), (split_lookup_child SP), Ht by done. simpl.
  rewrite Hw. specialize (Hf (s_key t) w (s_lock t) sl). lia.
Qed.

Lemma split_lock_of n : n ∈ L → lock_of T' n = lock_of T n.
Proof.
  intros Hn. unfold lock_of. destruct (ok_lookup OK n Hn) as [s Hs].
  destruct (split_lookup_old SP n s Hn Hs) as (s' & -> & El & _). by rewrite Hs.
Qed.

Lemma split_lock_new : lock_of T' new = s_lock t.
Proof. unfold lock_of. by rewrite (split_lookup_new SP). Qed.

Lemma split_locks own : locks_eq r T L own →
  locks_eq r T' ({[new]} ∪ L) (λ n, if decide (n = new) then 0 else own n)%Z.
Proof.
  destruct FACTS as (HpL & Hpc & Hpn & Hcn & HnL & Hin & Hlw & _).
  intros Hl n s Hn Hnr Hs. destruct (decide (n = new)) as [->|Hnn].
  { rewrite (split_lookup_new SP) in Hs by done. simplify_eq. simpl.
    rewrite split_lock_of by done. unfold lock_of. rewrite Ht. lia. }
  assert (n ∈ L) as HnL' by set_solver. destruct (ok_lookup OK n HnL') as [s0 Hs0].
  destruct (split_lookup_old SP n s0 HnL' Hs0) as (s' & Hs' & El & Ec & _). simplify_eq.
  rewrite El, (Hl n s0 HnL' Hnr Hs0). f_equal.
  assert (Hsame : ∀ cs : list (list Z * nat), (∀ m, m ∈ cs.*2 → m ∈ L) →
            zsum (lock_of T) cs.*2 = zsum (lock_of T') cs.*2).
  { intros cs Hcs. apply zsum_ext. intros m Hm. symmetry. by apply split_lock_of, Hcs. }
  assert (Hch : ∀ ck m, (ck, m) ∈ s_children s0 → m ∈ L).
  { intros ck m Hm. by destruct (ok_child OK n s0 ck m HnL' Hs0 Hm). }
  destruct (decide (n = p)) as [->|Hnp].
  - rewrite split_lookup_p in Hs. simplify_eq. simpl.
    destruct (ok_children _ _ _ _ _ OK p sp HpL Hsp) as [Hnd _].
    destruct (dict_set_split _ _ _ (dict_elem_get _ _ _ Hnd Hin))
      as (d1 & d2 & Heq & _ & -> & _). rewrite Heq in *.
    rewrite !fmap_app, !fmap_cons, !zsum_app. simpl.
    rewrite (Hsame d1), (Hsame d2), split_lock_new; [unfold lock_of; rewrite Ht; lia|..];
      intros m ([ck ?] & -> & Hm)%list_elem_of_fmap; apply (Hch ck); set_solver.
  - rewrite Ec by done. apply Hsame.
    intros m ([ck ?] & -> & Hm)%list_elem_of_fmap. by eapply Hch.
Qed.
End split.

(** ** Adding a leaf *)

Definition leaf (n : nat) (k v : list Z) : shape := Shape [] (Some n) k (Some v) 0.

(** The insertion of the suffix [k] with the value [v] below [n]. *)
Definition add_T (ps : nat) T (n new : nat) (sn : shape) (k v : list Z) : gmap nat shape :=
  <[n := set_child (take ps k) new sn]> (<[new := leaf n k v]> T).

Record is_add (ps r : nat) T L off (n new : nat) (sn : shape) (k v : list Z) : Prop := {
  ad_ok : tree_ok ps r T L off;
  ad_n : n ∈ L;
  ad_sn : T !! n = Some sn;
  ad_fresh : dict_get (take ps k) (s_children sn) = None;
  ad_k : k ≠ [];
  ad_div : (ps | length k);
  ad_v : length v = length k;
  ad_new : T !! new = None
}.

Section add.
Context {ps r : nat} {T : gmap nat shape} {L : gset nat} {off : nat → nat}.
Context {n new : nat} {sn : shape} {k v : list Z}.
Context (AD : is_add ps r T L off n new sn k v).

Let OK := ad_ok _ _ _ _ _ _ _ _ _ _ AD.
Let HnL := ad_n _ _ _ _ _ _ _ _ _ _ AD.
Let Hsn := ad_sn _ _ _ _ _ _ _ _ _ _ AD.
Let Hfresh := ad_fresh _ _ _ _ _ _ _ _ _ _ AD.

Local Abbreviation T' := (add_T ps T n new sn k v).

Lemma add_facts : new ≠ n ∧ new ∉ L ∧ new ≠ r.
Proof.
  pose proof (ad_new _ _ _ _ _ _ _ _ _ _ AD) as Hnew. pose proof Hsn.
  assert (Hn : new ∉ L) by (intros Hin; destruct (ok_lookup OK new Hin); congruence).
  split_and!; [congruence|done|]. intros E. apply Hn. rewrite E.
  apply (ok_root_in _ _ _ _ _ OK).
Qed.

Lemma add_lookup_n : T' !! n = Some (set_child (take ps k) new sn).
Proof. apply lookup_insert_eq. Qed.

Lemma add_lookup_new : T' !! new = Some (leaf n k v).
Proof.
  destruct add_facts as (? & _). unfold add_T.
  by rewrite lookup_insert_ne, lookup_insert_eq by done.
Qed.

Lemma add_lookup_old m s : m ∈ L → T !! m = Some s → ∃ s', T' !! m = Some s' ∧
  s_lock s' = s_lock s ∧ (m ≠ n → s_children s' = s_children s) ∧
  s_parent s' = s_parent s ∧ s_key s' = s_key s ∧ s_value s' = s_value s.
Proof.
  destruct add_facts as (? & ? & _). intros Hm Hs.
  destruct (decide (m = n)) as [->|Hmn].
  - rewrite add_lookup_n. pose proof Hsn. simplify_eq. by eexists.
  - exists s. unfold add_T. rewrite lookup_insert_ne, lookup_insert_ne by congruence. done.
Qed.

Lemma add_children : s_children (set_child (take ps k) new sn) =
  s_children sn ++ [(take ps k, new)].
Proof. simpl. by apply dict_set_fresh. Qed.

Lemma add_edge_new : edge T' n new k v.
Proof.
  exists (set_child (take ps k) new sn), (take ps k), (leaf n k v).
  rewrite add_lookup_n, add_lookup_new, add_children.
  split_and!; try done. apply elem_of_app. right. by apply list_elem_of_singleton.
Qed.

Lemma add_edge_old m l kk ww : m ∈ L → edge T m l kk ww → edge T' m l kk ww.
Proof.
  intros Hm (s & ck & t & Hs & Hc & Ht & <- & Hv).
  destruct (ok_child OK m s ck l Hm Hs Hc) as (HlL & _).
  destruct (add_lookup_old m s Hm Hs) as (s' & Hs' & _ & Ec & _).
  destruct (add_lookup_old l t HlL Ht) as (t' & Ht' & _ & _ & _ & Ek & Ev).
  exists s', ck, t'. split_and!; try done; [|congruence].
  destruct (decide (m = n)) as [->|Hmn]; [|by rewrite Ec].
  rewrite add_lookup_n in Hs'. injection Hs' as <-. rewrite add_children.
  pose proof Hsn. simplify_eq. set_solver.
Qed.

Lemma add_edge_inv m l kk ww : m ∈ {[new]} ∪ L → edge T' m l kk ww →
  (m ∈ L ∧ l ∈ L ∧ edge T m l kk ww) ∨ (m = n ∧ l = new ∧ kk = k ∧ ww = v).
Proof.
  destruct add_facts as (? & HneL & _). intros Hm (s & ck & t & Hs & Hc & Ht & <- & Hv).
  destruct (decide (m = new)) as [->|Hmn].
  { rewrite add_lookup_new in Hs. injection Hs as <-. simpl in Hc. by apply elem_of_nil in Hc. }
  assert (m ∈ L) as HmL by set_solver. destruct (ok_lookup OK m HmL) as [s0 Hs0].
  assert (Hold : (ck, l) ∈ s_children s0 → m ∈ L ∧ l ∈ L ∧ edge T m l (s_key t) ww).
  { intros Hin. destruct (ok_child OK m s0 ck l HmL Hs0 Hin) as (HlL & _ & t0 & _ & Ht0 & _).
    destruct (add_lookup_old l t0 HlL Ht0) as (t' & Ht' & _ & _ & _ & Ek & Ev).
    split_and!; [done..|]. exists s0, ck, t0. split_and!; congruence || done. }
  destruct (decide (m = n)) as [->|Hmn'].
  - rewrite add_lookup_n in Hs. injection Hs as <-. rewrite add_children in Hc.
    assert (s0 = sn) as -> by (pose proof Hsn; congruence). apply elem_of_app in Hc as [Hc|Hc]; [left; by apply Hold|].
    right. apply list_elem_of_singleton in Hc. simplify_eq.
    rewrite add_lookup_new in Ht. by simplify_eq/=.
  - left. destruct (add_lookup_old m s0 HmL Hs0) as (s' & Hs' & _ & Ec & _).
    simplify_eq. apply Hold. by rewrite <- Ec.
Qed.

Lemma add_ok : tree_ok ps r T' ({[new]} ∪ L)
                 (λ m, if decide (m = new) then off n + length k else off m).
Proof.
  destruct add_facts as (Hnn & HneL & Hnr). pose proof (ok_root_in _ _ _ _ _ OK) as Hr.
  split.
  - apply OK.
  - destruct (ok_root _ _ _ _ _ OK) as (s & Hs & ? & ? & ?).
    destruct (add_lookup_old r s Hr Hs) as (s' & ? & _ & _ & E1 & E2 & E3).
    exists s'. by rewrite E1, E2, E3.
  - set_solver.
  - rewrite decide_False by done. apply OK.
  - intros m s Hm Hs. destruct (decide (m = new)) as [->|Hmn].
    { rewrite add_lookup_new in Hs. injection Hs as <-. split; [constructor|]. set_solver. }
    assert (m ∈ L) as HmL by set_solver. destruct (ok_lookup OK m HmL) as [s0 Hs0].
    destruct (ok_children _ _ _ _ _ OK m s0 HmL Hs0) as [Hnd Hc].
    assert (Hold : ∀ ck l, (ck, l) ∈ s_children s0 → l ∈ {[new]} ∪ L ∧
      ∃ t, T' !! l = Some t ∧ s_parent t = Some m ∧ ck = take ps (s_key t)).
    { intros ck l Hl. destruct (Hc ck l Hl) as (HlL & t & Ht & Hpt & ->).
      destruct (add_lookup_old l t HlL Ht) as (t' & Ht' & _ & _ & Ep & Ek & _).
      split; [set_solver|]. exists t'. by rewrite Ep, Ek. }
    destruct (decide (m = n)) as [->|Hmn'].
    + rewrite add_lookup_n in Hs. injection Hs as <-. rewrite add_children.
      assert (s0 = sn) as -> by (pose proof Hsn; congruence). split.
      * rewrite fmap_app. apply NoDup_app. split_and!; [done| |apply NoDup_singleton].
        apply dict_get_None in Hfresh. set_solver.
      * intros ck l [Hl|Hl]%elem_of_app; [by apply Hold|].
        apply list_elem_of_singleton in Hl. simplify_eq. split; [set_solver|].
        exists (leaf n k v). by rewrite add_lookup_new.
    + destruct (add_lookup_old m s0 HmL Hs0) as (s' & Hs' & _ & Ec & _). simplify_eq.
      by rewrite Ec.
  - intros m Hm Hmr. destruct (decide (m = new)) as [->|Hmn].
    + exists (leaf n k v), n, (set_child (take ps k) new sn), v. simpl.
      rewrite add_lookup_new, add_lookup_n, decide_False by done. destruct AD.
      split_and!; try done; [set_solver|]. rewrite dict_set_fresh by done. set_solver.
    + assert (m ∈ L) as HmL by set_solver.
      destruct (ok_node _ _ _ _ _ OK m HmL Hmr)
        as (s & q & sq & u & Hs & Hq & HqL & Hsq & Hinq & Hks & Hds & Hv & Hlv & Ho).
      destruct (add_lookup_old m s HmL Hs) as (s' & Hs' & _ & _ & E1 & E2 & E3).
      destruct (add_lookup_old q sq HqL Hsq) as (sq' & Hsq' & _ & Ec & _).
      assert (q ≠ new) by (intros ->; done).
      exists s', q, sq', u. rewrite E1, E2, E3, decide_False by done.
      split_and!; try done; [set_solver|]. destruct (decide (q = n)) as [->|]; [|by rewrite Ec].
      rewrite add_lookup_n in Hsq'. injection Hsq' as <-. rewrite add_children.
      pose proof Hsn. simplify_eq. set_solver.
Qed.

Lemma add_path_old m l k0 v0 : m ∈ L → path T m l k0 v0 → path T' m l k0 v0.
Proof.
  intros Hm Hp. induction Hp as [m|m l l' kk ww k0 v0 He Hp IH]; [constructor|].
  destruct (edge_ok OK _ _ _ _ Hm He) as (? & _).
  eapply path_cons; [by apply add_edge_old|by apply IH].
Qed.

(** The tree stores what it stored, and the prefixes of [k] below [n]. *)
Lemma add_has m k0 v0 : m ∈ L →
  has T' m k0 v0 ↔
  has T m k0 v0 ∨ ∃ k1 v1 k2, path T m n k1 v1 ∧ k2 `prefix_of` k ∧
                    k0 = k1 ++ k2 ∧ v0 = v1 ++ take (length k2) v.
Proof.
  destruct add_facts as (? & HneL & _). intros Hm. split.
  - intros Hh. induction Hh as [m|m l kk ww k0 He Hk|m l kk ww k0 v0 He Hh IH].
    + left. constructor.
    + destruct (add_edge_inv m l kk ww ltac:(set_solver) He) as [(_ & _ & ?)|(-> & -> & -> & ->)].
      * left. by eapply has_part.
      * right. exists [], [], k0. split_and!; [constructor|done..].
    + destruct (add_edge_inv m l kk ww ltac:(set_solver) He) as [(_ & HlL & He')|(-> & -> & -> & ->)].
      * destruct (IH HlL) as [Hh'|(k1 & v1 & k2 & Hp & Hk & -> & ->)]; [left; by eapply has_full|].
        right. exists (kk ++ k1), (ww ++ v1), k2. rewrite !app_assoc.
        split_and!; [by eapply path_cons|done..].
      * clear IH. assert (k0 = [] ∧ v0 = []) as [-> ->].
        { inversion Hh as [|? l kk ww ? He'|? l kk ww ? ? He']; subst; [done|..];
            destruct (add_edge_inv new l kk ww ltac:(set_solver) He') as [(? & _)|(? & _)]; done. }
        right. exists [], [], k. rewrite !app_nil_r. split_and!; [constructor|done|done|].
        destruct AD. rewrite take_ge by lia. done.
  - intros [Hh|(k1 & v1 & k2 & Hp & Hk & -> & ->)].
    + induction Hh as [m|m l kk ww k0 He Hk|m l kk ww k0 v0 He Hh IH]; [constructor|..].
      * eapply has_part; [by apply add_edge_old|done].
      * destruct (edge_ok OK _ _ _ _ Hm He) as (? & _).
        eapply has_full; [by apply add_edge_old|by apply IH].
    + eapply path_has_app; [by apply add_path_old|].
      eapply has_part; [apply add_edge_new|done].
Qed.

Lemma add_sum f : tree_sum f T' ({[new]} ∪ L) = (tree_sum f T L + f k (Some v) 0)%Z.
Proof.
  destruct add_facts as (? & HneL & _). unfold tree_sum. rewrite set_zsum_insert by done.
  rewrite (set_zsum_ext (wt f T') (wt f T)).
  - unfold wt at 1. rewrite add_lookup_new. simpl. lia.
  - intros m Hm. unfold wt. destruct (ok_lookup OK m Hm) as [s Hs].
    destruct (add_lookup_old m s Hm Hs) as (s' & -> & El & _ & _ & Ek & Ev).
    by rewrite Hs, El, Ek, Ev.
Qed.

Lemma add_lock_of m : m ∈ L → lock_of T' m = lock_of T m.
Proof.
  intros Hm. unfold lock_of. destruct (ok_lookup OK m Hm) as [s Hs].
  destruct (add_lookup_old m s Hm Hs) as (s' & -> & El & _). by rewrite Hs.
Qed.

Lemma add_locks own : locks_eq r T L own →
  locks_eq r T' ({[new]} ∪ L) (λ m, if decide (m = new) then 0 else own m)%Z.
Proof.
  destruct add_facts as (? & HneL & _). intros Hl m s Hm Hmr Hs.
  destruct (decide (m = new)) as [->|Hmn].
  { rewrite add_lookup_new in Hs. by injection Hs as <-. }
  assert (m ∈ L) as HmL by set_solver. destruct (ok_lookup OK m HmL) as [s0 Hs0].
  destruct (add_lookup_old m s0 HmL Hs0) as (s' & Hs' & El & Ec & _). simplify_eq.
  rewrite El, (Hl m s0 HmL Hmr Hs0). f_equal.
  assert (Hsame : zsum (lock_of T') (s_children s0).*2 = zsum (lock_of T) (s_children s0).*2).
  { apply zsum_ext. intros l ([ck l'] & -> & Hin)%list_elem_of_fmap. apply add_lock_of.
    by destruct (ok_child OK m s0 ck l' HmL Hs0 Hin). }
  destruct (decide (m = n)) as [->|Hmn']; [|by rewrite Ec, Hsame].
  rewrite add_lookup_n in Hs. injection Hs as <-. rewrite add_children.
  assert (s0 = sn) as -> by (pose proof Hsn; congruence). rewrite fmap_app, zsum_app. simpl.
  unfold lock_of at 3. rewrite add_lookup_new. simpl. lia.
Qed.
End add.

(** ** Changing a lock count *)

Definition set_s_lock (x : Z) (s : shape) : shape :=
  Shape (s_children s) (s_parent s) (s_key s) (s_value s) x.

Section lock.
Context {ps r : nat} {T : gmap nat shape} {L : gset nat} {off : nat → nat}.
Context (OK : tree_ok ps r T L off).
Context (n : nat) (s : shape) (x : Z) (HnL : n ∈ L) (Hs : T !! n = Some s).

Local Abbreviation T' := (<[n := set_s_lock x s]> T).

Lemma lock_lookup m t : T !! m = Some t → ∃ t', T' !! m = Some t' ∧
  s_children t' = s_children t ∧ s_parent t' = s_parent t ∧ s_key t' = s_key t ∧
  s_value t' = s_value t ∧ (m ≠ n → s_lock t' = s_lock t).
Proof.
  intros Ht. destruct (decide (m = n)) as [->|Hm].
  - simplify_eq. eexists. rewrite lookup_insert_eq. by split_and!.
  - exists t. by rewrite lookup_insert_ne.
Qed.

Lemma lock_lookup_inv m t' : T' !! m = Some t' → ∃ t, T !! m = Some t ∧
  s_children t' = s_children t ∧ s_parent t' = s_parent t ∧ s_key t' = s_key t ∧
  s_value t' = s_value t ∧ (m ≠ n → s_lock t' = s_lock t).
Proof.
  destruct (decide (m = n)) as [->|Hm].
  - rewrite lookup_insert_eq. intros [= <-]. by exists s.
  - rewrite lookup_insert_ne by done. by exists t'.
Qed.

Lemma lock_ok : tree_ok ps r T' L off.
Proof.
  split; try apply OK.
  - destruct (ok_root _ _ _ _ _ OK) as (t & Ht & ? & ? & ?).
    destruct (lock_lookup r t Ht) as (t' & ? & _ & E1 & E2 & E3 & _).
    exists t'. by rewrite E1, E2, E3.
  - intros m t' Hm Ht'. destruct (lock_lookup_inv m t' Ht') as (t & Ht & Ec & _).
    destruct (ok_children _ _ _ _ _ OK m t Hm Ht) as [Hnd Hc]. rewrite Ec.
    split; [done|]. intros ck l Hl. destruct (Hc ck l Hl) as (? & u & Hu & Hpu & ->).
    destruct (lock_lookup l u Hu) as (u' & ? & _ & E1 & E2 & _).
    split; [done|]. exists u'. by rewrite E1, E2.
  - intros m Hm Hmr. destruct (ok_node _ _ _ _ _ OK m Hm Hmr)
      as (t & q & sq & u & Ht & Hq & HqL & Hsq & H').
    destruct (lock_lookup m t Ht) as (t' & ? & _ & E1 & E2 & E3 & _).
    destruct (lock_lookup q sq Hsq) as (sq' & ? & E4 & _).
    exists t', q, sq', u. by rewrite E1, E2, E3, E4.
Qed.

Lemma lock_edge m l kk ww : edge T' m l kk ww ↔ edge T m l kk ww.
Proof.
  split; intros (t & ck & u & Ht & Hc & Hu & <- & Hv).
  - destruct (lock_lookup_inv m t Ht) as (t0 & ? & E & _).
    destruct (lock_lookup_inv l u Hu) as (u0 & ? & _ & _ & Ek & Ev & _).
    exists t0, ck, u0. split_and!; first [congruence | by rewrite <- E].
  - destruct (lock_lookup m t Ht) as (t0 & ? & E & _).
    destruct (lock_lookup l u Hu) as (u0 & ? & _ & _ & Ek & Ev & _).
    exists t0, ck, u0. split_and!; first [congruence | by rewrite E].
Qed.

Lemma lock_has m k v : has T' m k v ↔ has T m k v.
Proof.
  split; (induction 1 as [|? ? ? ? ? ?%lock_edge|? ? ? ? ? ? ?%lock_edge]; eauto with py).
Qed.

Lemma lock_sum f : tree_sum f T' L =
  (tree_sum f T L - f (s_key s) (s_value s) (s_lock s) + f (s_key s) (s_value s) x)%Z.
Proof.
  unfold tree_sum. rewrite (set_zsum_update (wt f T) (wt f T') L n HnL).
  - unfold wt at 2 3. rewrite Hs, lookup_insert_eq. done.
  - intros m _ Hm. unfold wt. by rewrite lookup_insert_ne.
Qed.

(** Adding [d] to the lock count of [n] is [d] more holders of [n], and [d] fewer
    of its parent until the parent's count follows. *)
Lemma lock_locks own p d : x = (s_lock s + d)%Z → s_parent s = Some p → n ≠ r →
  locks_eq r T L own →
  locks_eq r T' L (λ m, own m + (if decide (m = n) then d else 0)
                            - (if decide (m = p) then d else 0))%Z.
Proof.
  intros Hx Hp Hnr Hl m t' Hm Hmr Ht'.
  destruct (ok_parent OK n s p HnL Hnr Hs Hp) as (HpL & Hpn & _ & sp & Hsp & Hin).
  destruct (lock_lookup_inv m t' Ht') as (t & Ht & -> & _ & _ & _ & El).
  pose proof (Hl m t Hm Hmr Ht) as E.
  assert (Hsum : zsum (lock_of T') (s_children t).*2 =
                 (zsum (lock_of T) (s_children t).*2 + (if decide (m = p) then d else 0))%Z).
  { destruct (decide (m = p)) as [->|Hmp].
    - assert (t = sp) as -> by congruence.
      destruct (ok_children _ _ _ _ _ OK p sp HpL Hsp) as [Hnd _].
      pose proof (ok_NoDup_children OK p sp HpL Hsp) as Hnd2.
      destruct (dict_set_split _ _ _ (dict_elem_get _ _ _ Hnd Hin)) as (d1 & d2 & Heq & _).
      rewrite Heq in *. rewrite fmap_app, fmap_cons in *. simpl in *.
      apply NoDup_app in Hnd2 as (_ & Hd1 & [Hd2 _]%NoDup_cons).
      assert (lock_of T' n = x) as E1 by (unfold lock_of; by rewrite lookup_insert_eq).
      assert (lock_of T n = s_lock s) as E2 by (unfold lock_of; by rewrite Hs).
      rewrite !zsum_app. simpl. rewrite !(zsum_lock_ext T T'); [lia|..];
        intros l Hl'; unfold lock_of; (rewrite lookup_insert_ne; [done|]); intros <-; [done|].
      apply (Hd1 _ Hl'). left.
    - rewrite Z.add_0_r. apply zsum_lock_ext.
      intros l ([ck ?] & -> & Hl')%list_elem_of_fmap. unfold lock_of.
      rewrite lookup_insert_ne; [done|]. intros ->. simpl in *.
      destruct (ok_child_inj OK _ _ _ _ _ _ _ HpL Hm Hsp Ht Hin Hl'). congruence. }
  rewrite Hsum. destruct (decide (m = n)) as [->|Hmn].
  - rewrite lookup_insert_eq in Ht'. simplify_eq. simpl. rewrite decide_False by done. lia.
  - rewrite El by done. case_decide; lia.
Qed.
End lock.

(** ** Removing a leaf *)

Definition del_child (ck : list Z) (sp : shape) : shape :=
  Shape (dict_del ck (s_children sp)) (s_parent sp) (s_key sp) (s_value sp) (s_lock sp).

Record is_del (ps r : nat) T L off (x p : nat) (t sp : shape) : Prop := {
  dl_ok : tree_ok ps r T L off;
  dl_x : x ∈ L;
  dl_root : x ≠ r;
  dl_t : T !! x = Some t;
  dl_leaf : s_children t = [];
  dl_parent : s_parent t = Some p;
  dl_sp : T !! p = Some sp
}.

Section del.
Context {ps r : nat} {T : gmap nat shape} {L : gset nat} {off : nat → nat}.
Context {x p : nat} {t sp : shape}.
Context (DL : is_del ps r T L off x p t sp).

Let OK := dl_ok _ _ _ _ _ _ _ _ _ DL.
Let HxL := dl_x _ _ _ _ _ _ _ _ _ DL.
Let Hxr := dl_root _ _ _ _ _ _ _ _ _ DL.
Let Ht := dl_t _ _ _ _ _ _ _ _ _ DL.
Let Hp := dl_parent _ _ _ _ _ _ _ _ _ DL.
Let Hsp := dl_sp _ _ _ _ _ _ _ _ _ DL.

Local Abbreviation T' := (<[p := del_child (take ps (s_key t)) sp]> T).

Lemma del_facts : p ∈ L ∧ p ≠ x ∧ (take ps (s_key t), x) ∈ s_children sp ∧ NoDup (s_children sp).*1.
Proof.
  destruct (ok_parent OK x t p HxL Hxr Ht Hp) as (HpL & ? & _ & sp' & E & Hin).
  assert (sp' = sp) as -> by (pose proof Hsp; congruence).
  split_and!; try done. by destruct (ok_children _ _ _ _ _ OK p sp HpL Hsp).
Qed.

(** The children of the parent, but [x]. *)
Lemma del_children_split : ∃ d1 d2,
  s_children sp = d1 ++ (take ps (s_key t), x) :: d2 ∧
  dict_del (take ps (s_key t)) (s_children sp) = d1 ++ d2 ∧ x ∉ d1.*2 ∧ x ∉ d2.*2.
Proof.
  destruct del_facts as (HpL & _ & Hin & Hnd).
  destruct (dict_set_split _ _ _ (dict_elem_get _ _ _ Hnd Hin)) as (d1 & d2 & Heq & _ & _ & Hd).
  exists d1, d2. split_and!; [done..| |];
    pose proof (ok_NoDup_children OK p sp HpL Hsp) as Hnd2; rewrite Heq in Hnd2;
    rewrite fmap_app, fmap_cons in Hnd2; apply NoDup_app in Hnd2 as (_ & Hx & [Hy _]%NoDup_cons);
    [|done]. intros Hin'. apply (Hx _ Hin'). left.
Qed.

Lemma del_children_elem ck m :
  (ck, m) ∈ dict_del (take ps (s_key t)) (s_children sp) ↔ (ck, m) ∈ s_children sp ∧ m ≠ x.
Proof.
  destruct del_children_split as (d1 & d2 & -> & -> & H1 & H2).
  rewrite !elem_of_app, elem_of_cons. split.
  - intros [Hin|Hin]; (split; [by eauto|]); intros ->; [apply H1|apply H2];
      apply list_elem_of_fmap; by exists (ck, x).
  - intros [[?|[?|?]] ?]; simplify_eq; eauto.
Qed.

Lemma del_lookup m s : T !! m = Some s → ∃ s', T' !! m = Some s' ∧
  s_lock s' = s_lock s ∧ (m ≠ p → s_children s' = s_children s) ∧
  s_parent s' = s_parent s ∧ s_key s' = s_key s ∧ s_value s' = s_value s.
Proof.
  intros Hs. destruct (decide (m = p)) as [->|Hm].
  - pose proof Hsp. simplify_eq. eexists. rewrite lookup_insert_eq. by simpl.
  - exists s. by rewrite lookup_insert_ne.
Qed.

(** [x] is a leaf, so no other node of the tree hangs below it. *)
Lemma del_not_parent m s q : m ∈ L → m ≠ r → T !! m = Some s → s_parent s = Some q → q ≠ x.
Proof.
  intros Hm Hmr Hs Hq ->. destruct (ok_parent OK m s x Hm Hmr Hs Hq) as (_ & _ & _ & t' & E & Hin).
  pose proof Ht. pose proof (dl_leaf _ _ _ _ _ _ _ _ _ DL) as Hl. simplify_eq.
  rewrite Hl in Hin. by apply elem_of_nil in Hin.
Qed.

Lemma del_ok : tree_ok ps r T' (L ∖ {[x]}) off.
Proof.
  destruct del_facts as (HpL & Hpx & Hin & Hnd).
  pose proof (ok_root_in _ _ _ _ _ OK) as Hr. pose proof Hxr.
  split.
  - apply OK.
  - destruct (ok_root _ _ _ _ _ OK) as (s & Hs & ? & ? & ?).
    destruct (del_lookup r s Hs) as (s' & ? & _ & _ & E1 & E2 & E3).
    exists s'. by rewrite E1, E2, E3.
  - set_solver.
  - apply OK.
  - intros m s [HmL Hmx%not_elem_of_singleton]%elem_of_difference Hs.
    destruct (ok_lookup OK m HmL) as [s0 Hs0].
    destruct (ok_children _ _ _ _ _ OK m s0 HmL Hs0) as [Hnd0 Hc].
    assert (Hold : ∀ ck l, (ck, l) ∈ s_children s0 → l ≠ x → l ∈ L ∖ {[x]} ∧
      ∃ u, T' !! l = Some u ∧ s_parent u = Some m ∧ ck = take ps (s_key u)).
    { intros ck l Hl Hlx. destruct (Hc ck l Hl) as (HlL & u & Hu & Hpu & ->).
      destruct (del_lookup l u Hu) as (u' & Hu' & _ & _ & Ep & Ek & _).
      split; [by apply elem_of_difference; rewrite not_elem_of_singleton|].
      exists u'. by rewrite Ep, Ek. }
    destruct (decide (m = p)) as [->|Hmp].
    + rewrite lookup_insert_eq in Hs. injection Hs as <-. simpl.
      assert (s0 = sp) as -> by (pose proof Hsp; congruence). split.
      * destruct del_children_split as (d1 & d2 & E & -> & _). rewrite E in Hnd.
        rewrite fmap_app, fmap_cons in Hnd. rewrite fmap_app.
        apply NoDup_app in Hnd as (? & Hd & [_ ?]%NoDup_cons). apply NoDup_app.
        split_and!; [done| |done]. intros y Hy Hy'. apply (Hd y Hy). by right.
      * intros ck l [Hl Hlx]%del_children_elem. by apply Hold.
    + rewrite lookup_insert_ne in Hs by done.
      assert (s = s0) as -> by congruence. split; [done|].
      intros ck l Hl. apply Hold; [done|]. intros ->.
      destruct (ok_child_inj OK _ _ _ _ _ _ _ HpL HmL Hsp Hs0 Hin Hl). congruence.
  - intros m [HmL Hmx%not_elem_of_singleton]%elem_of_difference Hmr.
    destruct (ok_node _ _ _ _ _ OK m HmL Hmr)
      as (s & q & sq & u & Hs & Hq & HqL & Hsq & Hinq & Hks & Hds & Hv & Hlv & Ho).
    pose proof (del_not_parent m s q HmL Hmr Hs Hq) as Hqx.
    destruct (del_lookup m s Hs) as (s' & Hs' & _ & _ & E1 & E2 & E3).
    destruct (del_lookup q sq Hsq) as (sq' & Hsq' & _ & Ec & _).
    exists s', q, sq', u. rewrite E1, E2, E3. split_and!; try done.
    { by apply elem_of_difference; rewrite not_elem_of_singleton. }
    destruct (decide (q = p)) as [->|Hqp]; [|by rewrite Ec].
    rewrite lookup_insert_eq in Hsq'. injection Hsq' as <-. simpl.
    assert (sq = sp) as -> by (pose proof Hsp; congruence). by apply del_children_elem.
Qed.

Lemma del_edge m l kk ww : m ∈ L → edge T' m l kk ww ↔ edge T m l kk ww ∧ l ≠ x.
Proof.
  destruct del_facts as (HpL & Hpx & Hin & Hnd). intros Hm.
  destruct (ok_lookup OK m Hm) as [s0 Hs0].
  destruct (del_lookup m s0 Hs0) as (s' & Hs' & _ & Ec & _).
  assert (Hch : ∀ ck l, (ck, l) ∈ s_children s' ↔ (ck, l) ∈ s_children s0 ∧ l ≠ x).
  { intros ck l'. destruct (decide (m = p)) as [->|Hmp].
    - rewrite lookup_insert_eq in Hs'. injection Hs' as <-.
      assert (s0 = sp) as -> by (pose proof Hsp; congruence). apply del_children_elem.
    - rewrite Ec by done. split; [|by intros [? _]]. intros Hl. split; [done|]. intros ->.
      destruct (ok_child_inj OK _ _ _ _ _ _ _ HpL Hm Hsp Hs0 Hin Hl). congruence. }
  split.
  - intros (s & ck & u & Hs & Hc & Hu & <- & Hv). simplify_eq.
    apply Hch in Hc as [Hc Hlx]. split; [|done].
    destruct (ok_child OK m s0 ck l Hm Hs0 Hc) as (HlL & _ & u0 & _ & Hu0 & _).
    destruct (del_lookup l u0 Hu0) as (u' & Hu' & _ & _ & _ & Ek & Ev). simplify_eq.
    exists s0, ck, u0. split_and!; congruence || done.
  - intros [(s & ck & u & Hs & Hc & Hu & <- & Hv) Hlx]. simplify_eq.
    destruct (del_lookup l u Hu) as (u' & Hu' & _ & _ & _ & Ek & Ev).
    exists s', ck, u'. rewrite Hch. split_and!; congruence || done.
Qed.

Lemma del_has m k v : m ∈ L → has T' m k v → has T m k v.
Proof.
  intros Hm Hh. induction Hh as [m|m l kk ww k He Hk|m l kk ww k v He Hh IH]; [constructor|..];
    apply del_edge in He as [He _]; try done; destruct (edge_ok OK _ _ _ _ Hm He) as (HlL & _).
  - by eapply has_part.
  - eapply has_full; [done|by apply IH].
Qed.

Lemma del_sum f : tree_sum f T' (L ∖ {[x]}) =
  (tree_sum f T L - f (s_key t) (s_value t) (s_lock t))%Z.
Proof.
  destruct del_facts as (HpL & Hpx & _). unfold tree_sum.
  rewrite (set_zsum_remove (wt f T) L x HxL).
  rewrite (set_zsum_ext (wt f T') (wt f T)).
  - unfold wt at 2. rewrite Ht. lia.
  - intros m [HmL _]%elem_of_difference. unfold wt. destruct (ok_lookup OK m HmL) as [s Hs].
    destruct (del_lookup m s Hs) as (s' & -> & El & _ & _ & Ek & Ev).
    by rewrite Hs, El, Ek, Ev.
Qed.

Lemma del_lock_of m : lock_of T' m = lock_of T m.
Proof.
  unfold lock_of. destruct (decide (m = p)) as [->|Hm].
  - rewrite lookup_insert_eq. pose proof Hsp as E. by rewrite E.
  - by rewrite lookup_insert_ne.
Qed.

Lemma del_locks own : s_lock t = 0%Z → locks_eq r T L own → locks_eq r T' (L ∖ {[x]}) own.
Proof.
  intros H0 Hl m s [HmL Hmx%not_elem_of_singleton]%elem_of_difference Hmr Hs.
  destruct (ok_lookup OK m HmL) as [s0 Hs0].
  destruct (del_lookup m s0 Hs0) as (s' & Hs' & El & Ec & _). simplify_eq.
  rewrite El, (Hl m s0 HmL Hmr Hs0). f_equal.
  assert (Hsame : ∀ ls, zsum (lock_of T') ls = zsum (lock_of T) ls).
  { intros ls. apply zsum_ext. intros. apply del_lock_of. }
  destruct (decide (m = p)) as [->|Hmp]; [|by rewrite Ec, Hsame].
  rewrite lookup_insert_eq in Hs. injection Hs as <-. simpl. rewrite Hsame.
  assert (s0 = sp) as -> by (pose proof Hsp; congruence).
  destruct del_children_split as (d1 & d2 & -> & -> & _).
  rewrite !fmap_app, fmap_cons, !zsum_app. simpl.
  unfold lock_of at 2. rewrite Ht, H0. lia.
Qed.
End del.
