(* ===== verification/RadixMatch.v ===== *)
(** * Matching a key against the tree

    The key comparison functions of [radix_cache.py] compute the longest common
    prefix made of whole pages, and the tree stores a prefix of a key below a node
    in at most one way: the facts the walks of [match_prefix] and [insert] use. *)

From S2P Require Import Prelude Radix RadixTree RadixUpdate.

Implicit Types (T : gmap nat shape) (L : gset nat) (off : nat → nat).

(** ** Longest common prefix in pages *)

(** [j] is the length of the longest common prefix of [a] and [b] of whole pages. *)
Record lcp_pages (ps : nat) (a b : list Z) (j : nat) : Prop := {
  lcp_div : (ps | j);
  lcp_le_a : j ≤ length a;
  lcp_le_b : j ≤ length b;
  lcp_eq : take j a = take j b;
  lcp_max i : (ps | i) → i ≤ length a → i ≤ length b → take i a = take i b → i ≤ j
}.

Lemma key_match_1_prefix a b : _key_match_page_size1 a b ≤ length a ∧
  _key_match_page_size1 a b ≤ length b ∧
  take (_key_match_page_size1 a b) a = take (_key_match_page_size1 a b) b.
Proof.
  revert b. induction a as [|x a IH]; intros [|y b]; simpl; try (split_and!; lia || done).
  case_decide; subst; simpl; [|split_and!; lia || done].
  destruct (IH b) as (? & ? & ?). split_and!; [lia..|by f_equal].
Qed.

Lemma key_match_1_max a b i : i ≤ length a → i ≤ length b → take i a = take i b →
  i ≤ _key_match_page_size1 a b.
Proof.
  revert a b. induction i as [|i IH]; intros [|x a] [|y b]; simpl; try lia.
  intros ? ? [= -> E]. rewrite decide_True by done.
  assert (i ≤ _key_match_page_size1 a b) by (apply IH; lia || done). lia.
Qed.

(** Equal slices extend a common prefix by a page. *)
Lemma take_slice_eq (a b : list Z) i ps : take i a = take i b →
  slice i (i + ps) a = slice i (i + ps) b ↔ take (i + ps) a = take (i + ps) b.
Proof.
  intros E. unfold slice. replace (i + ps - i) with ps by lia.
  rewrite <- !take_app_take_drop, E. split; [congruence|]. by intros ?%app_inv_head.
Qed.

Lemma key_match_loop_spec ps fuel a b i : 0 < ps → (ps | length a) → (ps | length b) →
  (ps | i) → i ≤ length a → i ≤ length b → take i a = take i b →
  min (length a) (length b) ≤ i + fuel →
  lcp_pages ps a b (key_match_paged_loop fuel a b ps i).
Proof.
  intros Hps Ha Hb. revert i. induction fuel as [|fuel IH]; intros i Hi Hia Hib E Hf.
  { simpl. split; try done. intros; lia. }
  simpl. case_bool_decide as Hlt; [|split; first [done | intros; lia]].
  assert (Hstep : ∀ x, (ps | x) → i < x → i + ps ≤ x).
  { intros x Hx Hlx. by apply page_step. }
  case_decide as Hs.
  - apply take_slice_eq in Hs; [|done].
    apply IH; [by apply Nat.divide_add_r, Nat.divide_refl|apply Hstep; [done|lia]..|done|lia].
  - split; try done. intros j Hj Hja Hjb Ej. destruct (decide (j ≤ i)) as [|Hji]; [done|].
    destruct Hs. apply take_slice_eq; [done|].
    assert (i + ps ≤ j) by (apply Hstep; [done|lia]).
    assert (Hcut : ∀ l : list Z, take (i + ps) l = take (i + ps) (take j l)).
    { intros l. rewrite take_take. f_equal. lia. }
    by rewrite (Hcut a), (Hcut b), Ej.
Qed.

Lemma key_match_fn_spec ps a b : 0 < ps → (ps | length a) → (ps | length b) →
  lcp_pages ps a b (key_match_fn ps a b).
Proof.
  intros Hps Ha Hb. unfold key_match_fn. case_decide as E.
  - subst. destruct (key_match_1_prefix a b) as (? & ? & ?). split; try done.
    + apply Nat.divide_1_l.
    + intros. by apply key_match_1_max.
  - apply key_match_loop_spec; try done; try lia; apply Nat.divide_0_r.
Qed.

(** ** Walking down *)

Section walk.
Context {ps r : nat} {T : gmap nat shape} {L : gset nat} {off : nat → nat}.
Context (OK : tree_ok ps r T L off).

Lemma has_prefix n k v k0 : n ∈ L → has T n k v → k0 `prefix_of` k → has T n k0 (take (length k0) v).
Proof.
  intros Hn Hh. revert k0. induction Hh as [n|n m kk ww k He Hk|n m kk ww k v He Hh IH]; intros k0 Hp.
  - apply prefix_nil_inv in Hp as ->. constructor.
  - apply prefix_length in Hp as Hl. rewrite take_take, Nat.min_l by done.
    eapply has_part; [done|by etrans].
  - destruct (edge_ok OK n m kk ww Hn He) as (HmL & _ & _ & _ & Hlen & _).
    destruct (prefix_weak_total k0 kk (kk ++ k)) as [Hp'|[k1 ->]]; [done|by apply prefix_app_r| |].
    + apply prefix_length in Hp' as Hl. rewrite take_app_le by lia. by eapply has_part.
    + apply prefix_app_inv in Hp. rewrite length_app, take_app, take_ge by lia.
      replace (length kk + length k1 - length ww) with (length k1) by lia.
      eapply has_full; [done|by apply IH].
Qed.

Lemma path_snoc_inv m n k v : path T m n k v →
  (m = n ∧ k = [] ∧ v = []) ∨
  ∃ p kk ww k' v', path T m p k' v' ∧ edge T p n kk ww ∧ k = k' ++ kk ∧ v = v' ++ ww.
Proof.
  induction 1 as [n|n m l kk ww k v He Hp IH]; [by left|]. right.
  destruct IH as [(-> & -> & ->)|(p & kk' & ww' & k' & v' & Hp' & He' & -> & ->)].
  - exists n, kk, ww, [], []. rewrite !app_nil_r. split_and!; [constructor|done..].
  - exists p, kk', ww', (kk ++ k'), (ww ++ v'). rewrite !app_assoc.
    split_and!; [by eapply path_cons|done..].
Qed.

Lemma edge_parent n n' m kk ww kk' ww' : n ∈ L → n' ∈ L →
  edge T n m kk ww → edge T n' m kk' ww' → n = n' ∧ kk = kk' ∧ ww = ww'.
Proof.
  intros Hn Hn' (s & ck & t & Hs & Hc & Ht & <- & Hw) (s' & ck' & t' & Hs' & Hc' & Ht' & <- & Hw').
  simplify_eq. destruct (ok_child_inj OK _ _ _ _ _ _ _ Hn Hn' Hs Hs' Hc Hc'). done.
Qed.

Lemma path_unique m n k v k' v' : m ∈ L →
  path T m n k v → path T m n k' v' → k = k' ∧ v = v'.
Proof.
  intros Hm. remember (off n) as d eqn:Hd. revert n k v k' v' Hd.
  induction (lt_wf d) as [d _ IH]. intros n k v k' v' -> Hp Hp'.
  destruct (path_ok OK _ _ _ _ Hm Hp) as (_ & _ & _ & Ho).
  destruct (path_ok OK _ _ _ _ Hm Hp') as (_ & _ & _ & Ho').
  assert (Hnil : ∀ k v, path T n n k v → m = n → k = [] ∧ v = []).
  { intros a b Hab ->. destruct (path_ok OK _ _ _ _ Hm Hab) as (_ & _ & E & Hab').
    destruct a, b; simpl in *; try done; lia. }
  destruct (path_snoc_inv _ _ _ _ Hp) as [(E & -> & ->)|(p & kk & ww & k1 & v1 & Hp1 & He & -> & ->)].
  { destruct (Hnil k' v'); [by rewrite E in Hp'|done|by subst]. }
  destruct (path_snoc_inv _ _ _ _ Hp') as [(E & -> & ->)|(q & kk' & ww' & k2 & v2 & Hp2 & He' & -> & ->)].
  { destruct (Hnil (k1 ++ kk) (v1 ++ ww)); [by rewrite E in Hp|done|by subst]. }
  destruct (path_ok OK _ _ _ _ Hm Hp1) as (HpL & _). destruct (path_ok OK _ _ _ _ Hm Hp2) as (HqL & _).
  destruct (edge_parent _ _ _ _ _ _ _ HpL HqL He He') as (-> & -> & ->).
  destruct (edge_ok OK _ _ _ _ HpL He) as (_ & _ & Hne & _ & _ & Hop).
  destruct (IH (off q) ltac:(rewrite Hop; destruct kk'; [done|simpl; lia]) q _ _ _ _ eq_refl Hp1 Hp2).
  by subst.
Qed.

(** A stored prefix of [k0] goes through the child of [k0]'s first page. *)
Lemma has_step n m kk ww k v k0 : n ∈ L → edge T n m kk ww → take ps kk = take ps k0 →
  has T n k v → k `prefix_of` k0 → (ps | length k) → k ≠ [] →
  k `prefix_of` kk ∨ ∃ k' v', k = kk ++ k' ∧ has T m k' v'.
Proof.
  intros Hn He Hfirst Hh Hpre Hdiv Hne.
  assert (Hps : ps ≤ length k).
  { apply Nat.divide_pos_le; [|done]. destruct k; [done|simpl; lia]. }
  assert (Htk : take ps k = take ps k0).
  { destruct Hpre as [k1 ->]. by rewrite take_app_le. }
  inversion Hh as [|? m' kk' ww' ? He' Hk'|? m' kk' ww' k' v' He' Hh']; subst; [done|..].
  - assert (take ps kk' = take ps k) as Ekk.
    { destruct Hk' as [k1 ->]. by rewrite take_app_le. }
    destruct (edge_inj OK _ _ _ _ _ _ _ Hn He He') as (-> & -> & ->); [congruence|]. by left.
  - destruct (edge_ok OK _ _ _ _ Hn He') as (_ & _ & Hne' & Hdk & _).
    assert (ps ≤ length kk').
    { apply Nat.divide_pos_le; [|done]. destruct kk'; [done|simpl; lia]. }
    rewrite take_app_le in Htk by done.
    destruct (edge_inj OK _ _ _ _ _ _ _ Hn He He') as (-> & -> & ->); [congruence|].
    right. by exists k', v'.
Qed.

Lemma has_no_child n s k v k0 : n ∈ L → T !! n = Some s →
  dict_get (take ps k0) (s_children s) = None →
  has T n k v → k `prefix_of` k0 → (ps | length k) → k = [].
Proof.
  intros Hn Hs Hnone Hh Hpre Hdiv. destruct (decide (k = [])) as [|Hne]; [done|]. exfalso.
  assert (Hps : ps ≤ length k).
  { apply Nat.divide_pos_le; [|done]. destruct k; [done|simpl; lia]. }
  assert (∃ m kk ww, edge T n m kk ww ∧ take ps kk = take ps k) as (m & kk & ww & He & E).
  { inversion Hh as [|? m kk ww ? He Hk|? m kk ww k' v' He Hh']; subst; [done|..]; exists m, kk, ww.
    - split; [done|]. destruct Hk as [k1 ->]. by rewrite take_app_le.
    - split; [done|]. destruct (edge_ok OK _ _ _ _ Hn He) as (_ & _ & Hne' & Hdk & _).
      rewrite take_app_le; [done|]. apply Nat.divide_pos_le; [|done].
      destruct kk; [done|simpl; lia]. }
  destruct He as (s' & ck & t & Hs' & Hc & Ht & <- & Hw). simplify_eq.
  destruct (ok_children _ _ _ _ _ OK n s Hn Hs) as [_ Hch].
  destruct (Hch ck m Hc) as (_ & t' & ? & _ & ->). simplify_eq.
  apply dict_get_None in Hnone. apply Hnone. apply list_elem_of_fmap.
  exists (take ps (s_key t), m). split; [|done]. simpl. rewrite E.
  destruct Hpre as [k1 ->]. by rewrite take_app_le.
Qed.
End walk.

(** Splits keep the paths between old nodes. *)
Lemma split_path ps r T L off child new sl p t sp w m l k v :
  is_split ps r T L off child new sl p t sp w → m ∈ L →
  path T m l k v → path (split_T ps T child new sl p t sp w) m l k v.
Proof.
  intros SP Hm Hp. pose proof (sp_ok _ _ _ _ _ _ _ _ _ _ _ _ SP) as OK.
  induction Hp as [m|m l l' kk ww k v He Hp IH]; [constructor|].
  destruct (edge_ok OK _ _ _ _ Hm He) as (HlL & _).
  destruct (decide (l = child)) as [->|Hlc].
  - destruct (split_edge_child SP m kk ww Hm He) as (-> & -> & ->).
    replace (s_key t ++ k) with (take sl (s_key t) ++ drop sl (s_key t) ++ k)
      by (by rewrite app_assoc, take_drop).
    replace (w ++ v) with (take sl w ++ drop sl w ++ v) by (by rewrite app_assoc, take_drop).
    eapply path_cons; [apply (split_edge_new SP)|].
    eapply path_cons; [apply (split_edge_low SP)|by apply IH].
  - eapply path_cons; [by apply (split_edge_old SP)|by apply IH].
Qed.
