(* ===== verification/RadixInv.v ===== *)
(** * The invariant of [RadixCache] and the operations that keep it

    [cache_ok c L own]: the nodes [L] form a tree with consistent parents, keys and
    values, the two size counters are the token counts of the unlocked and the
    locked nodes, and every lock count is the number of holders [own] of the node
    and of its descendants.  Every loop of [Radix] terminates on such a state. *)

From S2P Require Import Prelude HeapQ Radix RadixTree RadixUpdate RadixMatch.

Implicit Types (c : RadixCache) (L : gset nat) (own : nat → Z).

(** ** The skeleton of the store under the primitive updates *)

Lemma skel_lookup c n s : skel c !! n = Some s ↔ ∃ nd, nodes c !! n = Some nd ∧ shape_of nd = s.
Proof. unfold skel. rewrite lookup_fmap, fmap_Some. naive_solver. Qed.

Lemma skel_Some c n nd : nodes c !! n = Some nd → skel c !! n = Some (shape_of nd).
Proof. intros. apply skel_lookup. eauto. Qed.

Lemma skel_None c n : skel c !! n = None ↔ nodes c !! n = None.
Proof. unfold skel. by rewrite lookup_fmap, fmap_None. Qed.

Lemma skel_upd n f g c :
  (∀ nd, nodes c !! n = Some nd → shape_of (f nd) = g (shape_of nd)) →
  skel (upd_node n f c) = alter g n (skel c).
Proof.
  intros H. apply map_eq. intros m. unfold skel, upd_node, set_nodes. simpl.
  rewrite lookup_fmap, !lookup_alter, !lookup_fmap.
  case_decide as E; [|done]. subst. destruct (nodes c !! m) eqn:Hm; simpl; [|done].
  by rewrite H.
Qed.

Lemma skel_upd_same n f c :
  (∀ nd, shape_of (f nd) = shape_of nd) → skel (upd_node n f c) = skel c.
Proof.
  intros H. rewrite (skel_upd n f id) by (intros; by rewrite H).
  apply map_eq. intros m. rewrite lookup_alter.
  case_decide; [|done]. subst. by destruct (skel c !! m).
Qed.

(** The fields no operation below the root changes. *)
Definition conf c := (root_node c, page_size c, disable c, enable_kv_cache_events c).

Record cache_ok c L own : Prop := {
  c_tree : ∃ off, tree_ok (page_size c) (root_node c) (skel c) L off;
  c_fresh n : is_Some (nodes c !! n) → n < counter c;
  c_locks : locks_eq (root_node c) (skel c) L own;
  c_own n : (0 ≤ own n)%Z;
  c_own_out n : n ∉ L → own n = 0%Z;
  c_evictable : evictable_size_ c = tree_sum w_evictable (skel c) L;
  c_protected : protected_size_ c = tree_sum w_protected (skel c) L
}.

(** Two states that differ in access times, events and the clock only. *)
Definition same_tree c c' : Prop :=
  skel c' = skel c ∧ conf c' = conf c ∧ counter c' = counter c ∧
  evictable_size_ c' = evictable_size_ c ∧ protected_size_ c' = protected_size_ c.

#[export] Instance same_tree_equivalence : Equivalence same_tree.
Proof.
  split.
  - by intros c.
  - intros c c' (? & ? & ? & ? & ?). by split_and!.
  - intros c c' c'' (E1 & E2 & E3 & E4 & E5) (F1 & F2 & F3 & F4 & F5).
    split_and!; congruence.
Qed.

#[export] Instance cache_ok_proper : Proper (same_tree ==> (=) ==> pointwise_relation _ (=) ==> iff) cache_ok.
Proof.
  assert (Hone : ∀ c c' L own own', same_tree c c' → (∀ n, own n = own' n) → cache_ok c L own → cache_ok c' L own').
  { intros c c' L own own' (Es & Ec & En & Ee & Ep) Ho [H1 H2 H3 H4 H5 H6 H7].
    unfold conf in Ec. injection Ec as E1 E2 E3 E4.
    split; rewrite ?Es, ?E1, ?E2, ?En, ?Ee, ?Ep; try done.
    - intros n Hn. apply H2. destruct (nodes c !! n) eqn:Hc; [by eexists|].
      apply skel_None in Hc. rewrite <- Es in Hc. apply skel_None in Hc. by rewrite Hc in Hn.
    - intros n s Hn Hr Hs. rewrite <- Ho. by apply H3.
    - intros n. rewrite <- Ho. apply H4.
    - intros n Hn. rewrite <- Ho. by apply H5. }
  intros c c' Hc L L' <- own own' Ho. split.
  - by apply Hone.
  - apply Hone; [by symmetry|]. intros n. by rewrite Ho.
Qed.

(** Every node has some lock count, never negative; and a node of the tree is in the store. *)
Section cache_ok.
Context {c L own} (OK : cache_ok c L own).

Lemma ok_node_lookup n : n ∈ L → ∃ nd, nodes c !! n = Some nd.
Proof.
  destruct (c_tree _ _ _ OK) as [off TR]. intros Hn.
  destruct (ok_lookup TR n Hn) as [s (nd & ? & _)%skel_lookup]. eauto.
Qed.

(** Induction from the leaves up: fewer nodes lie deeper than a child than than its parent. *)
Lemma leaves_up (P : nat → Prop) :
  (∀ n s, n ∈ L → n ≠ root_node c → skel c !! n = Some s →
     (∀ ck m, (ck, m) ∈ s_children s → m ∈ L → m ≠ root_node c → P m) → P n) →
  ∀ n, n ∈ L → n ≠ root_node c → P n.
Proof.
  intros HP n. destruct (c_tree _ _ _ OK) as [off TR].
  remember (size (filter (λ m, off n < off m) L)) as d eqn:Hd. revert n Hd.
  induction (lt_wf d) as [d _ IH]. intros n -> Hn Hr.
  destruct (ok_lookup TR n Hn) as [s Hs]. apply (HP n s Hn Hr Hs). intros ck m Hm HmL Hmr.
  pose proof (ok_child_off TR n s ck m Hn Hs Hm) as Hlt.
  eapply IH; [|done..]. apply subset_size. split.
  - intros x. rewrite !elem_of_filter. intros [? ?]. split; [lia|done].
  - intros Hsub. specialize (Hsub m). rewrite !elem_of_filter in Hsub.
    destruct Hsub as [? _]; [done|]. lia.
Qed.

(** The lock count of a node, and its children in the tree. *)
Lemma ok_lock_of n s : n ∈ L → n ≠ root_node c → skel c !! n = Some s →
  lock_of (skel c) n = (own n + zsum (lock_of (skel c)) (s_children s).*2)%Z ∧
  ∀ m, m ∈ (s_children s).*2 → ∃ ck, (ck, m) ∈ s_children s ∧ m ∈ L ∧ m ≠ root_node c.
Proof.
  intros Hn Hr Hs. split; [unfold lock_of at 1; rewrite Hs; by apply (c_locks _ _ _ OK)|].
  intros m ([ck m'] & -> & Hm)%list_elem_of_fmap. exists ck. split; [done|].
  destruct (c_tree _ _ _ OK) as [off TR]. by destruct (ok_child TR n s ck m' Hn Hs Hm) as (? & ? & _).
Qed.

Lemma ok_locks_nonneg n : n ∈ L → n ≠ root_node c → (0 ≤ lock_of (skel c) n)%Z.
Proof.
  revert n. apply leaves_up. intros n s Hn Hr Hs IH. destruct (ok_lock_of n s Hn Hr Hs) as [-> Hc].
  pose proof (c_own _ _ _ OK n). enough (0 ≤ zsum (lock_of (skel c)) (s_children s).*2)%Z by lia.
  apply zsum_nonneg. intros m (ck & Hm & ? & ?)%Hc. by apply (IH ck).
Qed.

Lemma ok_counter_fresh : skel c !! counter c = None ∧ nodes c !! counter c = None ∧ counter c ∉ L.
Proof.
  assert (nodes c !! counter c = None) as E.
  { destruct (nodes c !! counter c) eqn:E; [|done].
    pose proof (c_fresh _ _ _ OK (counter c) ltac:(eauto)). lia. }
  split_and!; [by apply skel_None|done|]. intros [nd Hnd]%ok_node_lookup. congruence.
Qed.
End cache_ok.

Section radix.
Context (clock : nat → Z) (tuple_hash : list Z → Z).

Local Abbreviation touch := (touch clock).
Local Abbreviation alloc_node := (alloc_node clock).
Local Abbreviation _record_store_event := (_record_store_event tuple_hash).
Local Abbreviation _record_remove_event := (_record_remove_event tuple_hash).
Local Abbreviation _split_node := (_split_node clock tuple_hash).

Lemma touch_same n c : same_tree c (touch n c).
Proof. split_and!; try done. by apply skel_upd_same. Qed.

Lemma set_events_same ev c : same_tree c (set_events ev c).
Proof. by split_and!. Qed.

Lemma store_event_spec n nd p c : nodes c !! n = Some nd → parent nd = Some p →
  is_Some (nodes c !! p) → ∃ ev, _record_store_event n c = Some (set_events ev c).
Proof.
  intros Hn Hp [pd Hpd]. unfold Radix._record_store_event.
  destruct (enable_kv_cache_events c) eqn:E.
  - rewrite Hn. simpl. rewrite Hp. simpl. rewrite Hpd. simpl. eauto.
  - exists (kv_event_queue c). by destruct c.
Qed.

Lemma remove_event_spec n nd c : nodes c !! n = Some nd →
  ∃ ev, _record_remove_event n c = Some (set_events ev c).
Proof.
  intros Hn. unfold Radix._record_remove_event.
  destruct (enable_kv_cache_events c) eqn:E.
  - rewrite Hn. simpl. eauto.
  - exists (kv_event_queue c). by destruct c.
Qed.

(** ** [_split_node] refines the split of the tree *)

Lemma split_node_spec c L off child sl p t sp w :
  is_split (page_size c) (root_node c) (skel c) L off child (counter c) sl p t sp w →
  ∃ c', _split_node (s_key t) child sl c = Some (counter c, c') ∧
    skel c' = split_T (page_size c) (skel c) child (counter c) sl p t sp w ∧
    conf c' = conf c ∧ counter c' = S (counter c) ∧
    evictable_size_ c' = evictable_size_ c ∧ protected_size_ c' = protected_size_ c ∧
    (∀ n, is_Some (nodes c' !! n) → n = counter c ∨ is_Some (nodes c !! n)).
Proof.
  intros SP. pose proof (split_facts SP) as (_ & Hpc & Hpn & Hcn & _).
  pose proof (split_lookup_new SP) as Lnew. pose proof (split_lookup_child SP) as Lchild.
  destruct SP as [OK HcL Hcr Ht Hp Hsp Hw Hsl Hdiv Hnew].
  apply skel_lookup in Ht as (cd & Hcd & Et). apply skel_lookup in Hsp as (pd & Hpd & Esp).
  apply skel_None in Hnew. subst t sp. simpl in *.
  assert (Hk : key cd ≠ []) by (intros E; rewrite E in Hsl; simpl in Hsl; lia).
  assert (Hkl : drop sl (key cd) ≠ []).
  { intros E%(f_equal length). rewrite length_drop in E. simpl in E. lia. }
  unfold Radix._split_node.
  destruct (remove_event_spec child cd c Hcd) as [ev1 ->]. simpl. rewrite Hcd. simpl.
  rewrite !get_child_key_ok by done. simpl. rewrite Hp, Hw. simpl.
  match goal with |- context [Radix._record_store_event _ _ ?x] => set (c5 := x) end.
  assert (Hskel : skel c5 = split_T (page_size c) (skel c) child (counter c) sl p
                              (shape_of cd) (shape_of pd) w).
  { apply map_eq. intros m. unfold skel, split_T. rewrite lookup_fmap. simpl.
    destruct (decide (m = p)) as [->|Hmp]; [|destruct (decide (m = child)) as [->|Hmc];
      [|destruct (decide (m = counter c)) as [->|Hmn]]]; simplify_map_eq; done. }
  rewrite <- Hskel in Lnew, Lchild.
  apply skel_lookup in Lnew as (nn & Hnn & Enn). apply skel_lookup in Lchild as (nc & Hnc & Enc).
  assert (Hp5 : is_Some (nodes c5 !! p)) by (unfold c5; simpl; simplify_map_eq; eauto).
  destruct (store_event_spec (counter c) nn p c5 Hnn ltac:(by injection Enn) Hp5) as [ev2 ->]. simpl.
  destruct (store_event_spec child nc (counter c) (set_events ev2 c5) Hnc ltac:(by injection Enc)
              ltac:(eauto)) as [ev3 ->]. simpl.
  eexists. split_and!; try done.
  intros m. change (is_Some (nodes c5 !! m) → m = counter c ∨ is_Some (nodes c !! m)).
  unfold c5. simpl. rewrite !lookup_alter_is_Some, lookup_insert_is_Some. naive_solver.
Qed.
(** ** Growing the tree *)

(** [c'] has all the nodes and paths of [c]. *)
Record extends c L c' L' : Prop := {
  ex_sub : L ⊆ L';
  ex_conf : conf c' = conf c;
  ex_path m l k v : m ∈ L → path (skel c) m l k v → path (skel c') m l k v
}.

(** [c'] stores the same keys in the same slots, and its counters did not move. *)
Record same_content c L c' L' : Prop := {
  sc_ext : extends c L c' L';
  sc_has n k v : n ∈ L → has (skel c') n k v ↔ has (skel c) n k v;
  sc_slots x : tree_sum (w_slot x) (skel c') L' = tree_sum (w_slot x) (skel c) L;
  sc_evictable : evictable_size_ c' = evictable_size_ c;
  sc_protected : protected_size_ c' = protected_size_ c
}.

Lemma extends_trans c L c' L' c'' L'' :
  extends c L c' L' → extends c' L' c'' L'' → extends c L c'' L''.
Proof.
  intros [H1 H2 H3] [H4 H5 H6]. split; [by etrans|congruence|]. intros m l k v Hm Hp.
  apply H6; [by apply H1|by apply H3].
Qed.

Lemma same_content_trans c L c' L' c'' L'' :
  same_content c L c' L' → same_content c' L' c'' L'' → same_content c L c'' L''.
Proof.
  intros [H1 H2 H3 H4 H5] [G1 G2 G3 G4 G5]. split; try congruence.
  - by eapply extends_trans.
  - intros n k v Hn. rewrite G2, H2; [done..|]. by apply (ex_sub _ _ _ _ H1).
Qed.

Lemma same_tree_content c c' L : same_tree c c' → same_content c L c' L.
Proof.
  intros (Es & Ec & _ & Ee & Ep). split; rewrite ?Es; try done. by split; rewrite ?Es.
Qed.

Lemma touch_content n c L : same_content c L (touch n c) L.
Proof. apply same_tree_content, touch_same. Qed.

Lemma touch_ok n c L own : cache_ok c L own → cache_ok (touch n c) L own.
Proof. by rewrite <- (touch_same n c). Qed.

(** What following a child edge finds. *)
Lemma child_facts c L own node s key_ child :
  cache_ok c L own → node ∈ L → skel c !! node = Some s → key_ ≠ [] →
  (page_size c | length key_) →
  dict_get (take (page_size c) key_) (s_children s) = Some child →
  ∃ cd v, nodes (touch child c) !! child = Some cd ∧ value cd = Some v ∧
    length v = length (key cd) ∧ child ∈ L ∧ child ≠ root_node c ∧
    edge (skel c) node child (key cd) v ∧
    take (page_size c) (key cd) = take (page_size c) key_ ∧
    lcp_pages (page_size c) (key cd) key_ (key_match_fn (page_size c) (key cd) key_) ∧
    0 < key_match_fn (page_size c) (key cd) key_ ∧ parent cd = Some node.
Proof.
  intros OK Hn Hs Hne Hdiv Hget. destruct (c_tree _ _ _ OK) as [off TR].
  pose proof (ok_ps _ _ _ _ _ TR) as Hps.
  destruct (edge_lookup TR node s key_ child Hn Hs Hget) as (t & v & Ht & Hv & He & Hpage).
  apply dict_get_elem in Hget.
  destruct (ok_child TR node s _ child Hn Hs Hget) as (HcL & Hcr & t' & ? & Ht' & Hpar & _ & Hk & Hd & ? & Hlen & _).
  assert (t' = t) as -> by congruence.
  apply skel_lookup in Ht as (cd & Hcd & Et). subst t. simpl in *.
  exists (set_time (clock (ticks c)) cd), v. simpl.
  pose proof (key_match_fn_spec (page_size c) (key cd) key_ Hps Hd Hdiv) as Hlcp.
  split_and!; try done; [by simplify_map_eq|congruence|].
  enough (page_size c ≤ key_match_fn (page_size c) (key cd) key_) by lia.
  apply (lcp_max _ _ _ _ Hlcp); [done|by apply page_le..|done].
Qed.

Lemma split_step c L own node s key_ child cd v :
  cache_ok c L own → node ∈ L → skel c !! node = Some s → key_ ≠ [] →
  (page_size c | length key_) →
  dict_get (take (page_size c) key_) (s_children s) = Some child →
  nodes (touch child c) !! child = Some cd → value cd = Some v →
  key_match_fn (page_size c) (key cd) key_ < length (key cd) →
  let j := key_match_fn (page_size c) (key cd) key_ in
  ∃ c2 nd, _split_node (key cd) child j (touch child c) = Some (counter c, c2) ∧
    cache_ok c2 ({[counter c]} ∪ L) own ∧
    same_content c L c2 ({[counter c]} ∪ L) ∧
    nodes c2 !! counter c = Some nd ∧ value nd = Some (take j v) ∧
    children nd = [(take (page_size c) (drop j (key cd)), child)] ∧
    edge (skel c2) node (counter c) (take j key_) (take j v).
Proof.
  intros OK Hn Hs Hne Hdiv Hget Hcd Hv Hlt j. set (c1 := touch child c) in *.
  destruct (child_facts c L own node s key_ child OK Hn Hs Hne Hdiv Hget)
    as (cd' & v' & Hcd' & Hv' & Hlv & HcL & Hcr & He & Hpage & Hlcp & Hj0 & Hpar).
  fold c1 in Hcd'. simplify_eq. fold j in Hlcp, Hj0, Hlt.
  pose proof (touch_ok child c L own OK) as OK1. fold c1 in OK1.
  destruct (c_tree _ _ _ OK1) as [off TR].
  destruct (ok_counter_fresh OK1) as (Hf & _ & HfL). change (counter c1) with (counter c) in *.
  destruct (ok_lookup TR node Hn) as [sp Hsp].
  assert (SP : is_split (page_size c1) (root_node c1) (skel c1) L off child (counter c) j node
                 (shape_of cd) sp v).
  { split; try done; [by apply skel_Some|exact (lcp_div _ _ _ _ Hlcp)]. }
  destruct (split_node_spec c1 L off child j node (shape_of cd) sp v SP)
    as (c2 & Hrun & Hskel & Hconf & Hcnt & Hev & Hpr & Hdom).
  change (counter c1) with (counter c) in *.
  pose proof Hconf as Hconf'. unfold conf in Hconf'. injection Hconf' as C1 C2 C3 C4.
  pose proof (split_lookup_new SP) as Lnew. rewrite <- Hskel in Lnew.
  apply skel_lookup in Lnew as (nn & Hnn & Enn). injection Enn as En1 En2 En3 En4 En5.
  exists c2, nn. split; [done|]. split; [|split; [|split_and!; try done]].
  - split.
    + rewrite C1, C2, Hskel. exists (split_off node (counter c) j off). by apply split_ok.
    + intros n Hn'. rewrite Hcnt. destruct (Hdom n Hn') as [->|H]; [lia|].
      apply (c_fresh _ _ _ OK1) in H. change (counter c1) with (counter c) in H. lia.
    + rewrite C1, Hskel. pose proof (split_locks SP own (c_locks _ _ _ OK1)) as Hl.
      intros n sn Hn' Hr Hsn. rewrite (Hl n sn Hn' Hr Hsn). case_decide as E; [|done].
      subst n. by rewrite (c_own_out _ _ _ OK1).
    + apply OK1.
    + intros n Hn'. apply (c_own_out _ _ _ OK1). set_solver.
    + rewrite Hev, Hskel, (split_sum SP) by auto with py. apply OK1.
    + rewrite Hpr, Hskel, (split_sum SP) by auto with py. apply OK1.
  - pose proof (touch_same child c) as (Es & _). fold c1 in Es. split; try done.
    + split; [set_solver|done|]. intros m l k w Hm Hp. rewrite Hskel.
      eapply split_path; [done..|]. by rewrite Es.
    + intros n k w Hn'. by rewrite Hskel, (split_has SP), Es.
    + intros x. rewrite Hskel, (split_sum SP) by auto with py. by rewrite Es.
  - rewrite Hskel, <- (lcp_eq _ _ _ _ Hlcp). apply (split_edge_new SP).
Qed.
End radix.
