(* ===== verification/RadixSpec.v ===== *)
(** * What [match_prefix] and [insert] compute

    The walks of [RadixCache] against the stored keys: [match_prefix] returns the
    slots of the longest stored prefix of whole pages and a node that ends exactly
    there, [insert] adds the key and reports how much of it was there. *)

From S2P Require Import Prelude HeapQ Radix RadixTree RadixUpdate RadixMatch RadixInv.

Implicit Types (c : RadixCache) (L : gset nat) (own : nat → Z).

#[local] Arguments Radix.touch : simpl never.
#[local] Arguments Radix._split_node : simpl never.

Section radix.
Context (clock : nat → Z) (tuple_hash : list Z → Z).

Local Abbreviation touch := (touch clock).
Local Abbreviation _split_node := (_split_node clock tuple_hash).
Local Abbreviation match_loop := (match_loop clock tuple_hash).
Local Abbreviation insert_loop := (insert_loop clock tuple_hash).

(** One turn of either loop: it ends at a node reached by a page-aligned prefix. *)
Lemma descend c L own node s key_ child :
  cache_ok c L own → node ∈ L → skel c !! node = Some s → key_ ≠ [] →
  (page_size c | length key_) →
  dict_get (take (page_size c) key_) (s_children s) = Some child →
  ∃ cd, nodes (touch child c) !! child = Some cd ∧
    let j := key_match_fn (page_size c) (key cd) key_ in
    0 < j ≤ length key_ ∧ (page_size c | j) ∧
    ∃ node' c2 L2 w nd,
      (if bool_decide (j < length (key cd)) then _split_node (key cd) child j (touch child c)
       else Some (child, touch child c)) = Some (node', c2) ∧
      cache_ok c2 L2 own ∧ same_content c L c2 L2 ∧ node' ∈ L2 ∧
      nodes c2 !! node' = Some nd ∧ value nd = Some w ∧ length w = j ∧
      edge (skel c2) node node' (take j key_) w ∧
      (∀ k v, has (skel c) node k v → k `prefix_of` key_ → (page_size c | length k) →
         j < length (key cd) → length k ≤ j).
Proof.
  intros OK Hn Hs Hne Hdiv Hget.
  destruct (child_facts clock c L own node s key_ child OK Hn Hs Hne Hdiv Hget)
    as (cd & v & Hcd & Hv & Hlv & HcL & Hcr & He & Hpage & Hlcp & Hj0 & _).
  destruct (c_tree _ _ _ OK) as [off TR].
  exists cd. split; [done|]. cbv zeta. set (j := key_match_fn (page_size c) (key cd) key_) in *.
  pose proof (lcp_le_a _ _ _ _ Hlcp). pose proof (lcp_le_b _ _ _ _ Hlcp).
  split; [lia|]. split; [exact (lcp_div _ _ _ _ Hlcp)|]. case_bool_decide as Hlt.
  - destruct (split_step clock tuple_hash c L own node s key_ child cd v
                OK Hn Hs Hne Hdiv Hget Hcd Hv Hlt)
      as (c2 & nd & Hrun & OK2 & SC & Hnd & Hvd & _ & He2).
    exists (counter c), c2, ({[counter c]} ∪ L), (take j v), nd. split_and!; try done.
    { set_solver. } { rewrite length_take. lia. }
    intros k w Hh Hpre Hd _. destruct (decide (k = [])) as [->|Hk]; [simpl; lia|].
    pose proof (prefix_take k key_ Hpre) as Ek.
    destruct (has_step TR _ _ _ _ _ _ key_ Hn He Hpage Hh Hpre Hd Hk) as [Hp|(k' & w' & -> & _)].
    + apply (lcp_max _ _ _ _ Hlcp); [done|by apply prefix_length..|].
      by rewrite <- Ek, <- (prefix_take k (key cd)).
    + exfalso. destruct (edge_ok TR _ _ _ _ Hn He) as (_ & _ & _ & Hdk & _).
      apply (prefix_app_l (key cd)) in Hpre as Hpre'; [|done..].
      assert (length (key cd) ≤ j); [|lia].
      apply (lcp_max _ _ _ _ Hlcp); [done..|by apply prefix_length|].
      by rewrite take_ge, <- prefix_take.
  - exists child, (touch child c), L, v, cd. split_and!; try done.
    + by apply touch_ok.
    + apply touch_content.
    + lia.
    + pose proof (touch_same clock child c) as (-> & _).
      rewrite <- (lcp_eq _ _ _ _ Hlcp), take_ge by lia. done.
Qed.

(** The first page of the rest of the key, as both loops compute it. *)
Lemma next_child_key ps key_ child_key : ∃ ck,
  match key_ with [] => Some child_key | _ :: _ => get_child_key_fn ps key_ end = Some ck ∧
  (key_ ≠ [] → ck = take ps key_).
Proof.
  destruct key_ as [|x key_]; [by eexists|]. exists (take ps (x :: key_)).
  split; [by apply get_child_key_ok|done].
Qed.

(** [longest c node key j]: no more than [j] tokens of [key] are stored below [node]. *)
Definition longest c (node : nat) (key_ : list Z) (j : nat) : Prop :=
  ∀ k v, has (skel c) node k v → k `prefix_of` key_ → (page_size c | length k) → length k ≤ j.

Lemma longest_step c L own node node' key_ i j w :
  cache_ok c L own → node ∈ L → edge (skel c) node node' (take i key_) w → 0 < i ≤ length key_ →
  (page_size c | i) → longest c node' (drop i key_) j → longest c node key_ (i + j).
Proof.
  intros OK Hn He Hi Hdi Hl k v Hh Hpre Hd. destruct (c_tree _ _ _ OK) as [off TR].
  destruct (decide (k = [])) as [->|Hk]; [simpl; lia|].
  assert (Hpage : take (page_size c) (take i key_) = take (page_size c) key_).
  { rewrite take_take, Nat.min_l; [done|]. apply Nat.divide_pos_le; [lia|done]. }
  assert (Hli : length (take i key_) = i) by (rewrite length_take; lia).
  destruct (has_step TR _ _ _ _ _ _ key_ Hn He Hpage Hh Hpre Hd Hk) as [Hp|(k' & w' & -> & Hh')].
  - apply prefix_length in Hp. lia.
  - rewrite length_app, Hli. enough (length k' ≤ j) by lia. eapply Hl; [done| |].
    + apply (prefix_app_inv (take i key_)). by rewrite take_drop.
    + rewrite length_app, Hli in Hd.
      replace (length k') with (i + length k' - i) by lia. by apply Nat.divide_sub_r.
Qed.

Lemma longest_same c L c' L' node key_ j : same_content c L c' L' → node ∈ L →
  longest c' node key_ j → longest c node key_ j.
Proof.
  intros SC Hn Hl k v Hh Hpre Hd. eapply Hl; [by apply (sc_has _ _ _ _ SC)|done|].
  pose proof (ex_conf _ _ _ _ (sc_ext _ _ _ _ SC)) as E. unfold conf in E. congruence.
Qed.

Lemma same_content_ps c L c' L' : same_content c L c' L' →
  page_size c' = page_size c ∧ root_node c' = root_node c ∧ disable c' = disable c.
Proof.
  intros SC. pose proof (ex_conf _ _ _ _ (sc_ext _ _ _ _ SC)) as E. unfold conf in E.
  by simplify_eq.
Qed.

Lemma match_loop_spec own fuel : ∀ node key_ child_key acc c L,
  cache_ok c L own → node ∈ L → (page_size c | length key_) → length key_ < fuel →
  (key_ ≠ [] → child_key = take (page_size c) key_) →
  ∃ vs n c' L', match_loop fuel node key_ child_key acc c = Some (acc ++ vs, n, c') ∧
    cache_ok c' L' own ∧ same_content c L c' L' ∧ n ∈ L' ∧
    length (concat vs) ≤ length key_ ∧
    path (skel c') node n (take (length (concat vs)) key_) (concat vs) ∧
    longest c node key_ (length (concat vs)).
Proof.
  induction fuel as [|fuel IH]; intros node key_ child_key acc c L OK Hn Hdiv Hf Hck; [lia|].
  destruct (c_tree _ _ _ OK) as [off TR]. destruct (ok_node_lookup OK node Hn) as [nd Hnd].
  simpl. rewrite Hnd. simpl.
  assert (Hstop : longest c node key_ 0 → ∃ vs n c' L', Some (acc, node, c) = Some (acc ++ vs, n, c') ∧
    cache_ok c' L' own ∧ same_content c L c' L' ∧ n ∈ L' ∧
    length (concat vs) ≤ length key_ ∧
    path (skel c') node n (take (length (concat vs)) key_) (concat vs) ∧
    longest c node key_ (length (concat vs))).
  { intros Hl. exists [], node, c, L. rewrite app_nil_r. split_and!; [done..|by apply same_tree_content|done|simpl; lia|constructor|done]. }
  destruct key_ as [|x key_].
  { apply Hstop. intros k v _ ->%prefix_nil_inv _. done. }
  rewrite Hck by done. clear Hck.
  destruct (dict_get (take (page_size c) (x :: key_)) (children nd)) as [child|] eqn:Hget; last first.
  { apply Hstop. intros k v Hh Hpre Hd.
    by rewrite (has_no_child TR node (shape_of nd) k v (x :: key_) Hn (skel_Some _ _ _ Hnd) Hget Hh Hpre Hd). }
  destruct (descend c L own node (shape_of nd) (x :: key_) child OK Hn (skel_Some _ _ _ Hnd)
              ltac:(done) Hdiv Hget)
    as (cd & Hcd & Hj & Hdj & node' & c2 & L2 & w & nd' & Hrun & OK2 & SC & HnL2 & Hnd' & Hw & Hlw & He & Hmax).
  simpl in Hcd. rewrite Hcd. simpl. set (j := key_match_fn (page_size c) (key cd) (x :: key_)) in *.
  case_bool_decide as Hlt.
  - rewrite Hrun. simpl. rewrite Hnd'. simpl. rewrite Hw. simpl.
    exists [w], node', c2, L2. simpl. rewrite app_nil_r, Hlw.
    cbn [length] in Hj.
    split_and!; try done; [lia|by apply path_single|]. intros k v Hh Hpre Hd. by eapply Hmax.
  - injection Hrun as <- <-. simpl in Hnd'. assert (nd' = cd) as -> by congruence.
    rewrite Hw. simpl.
    destruct (next_child_key (page_size c) (drop j (x :: key_)) (take (page_size c) (x :: key_)))
      as (ck & -> & Hck). simpl.
    destruct (same_content_ps _ _ _ _ SC) as (Eps & _).
    destruct (IH child (drop j (x :: key_)) ck (acc ++ [w]) (touch child c) L2)
      as (vs & n & c' & L' & -> & OK' & SC' & HnL' & Hle & Hp & Hl).
    { done. } { done. } { rewrite Eps, length_drop. by apply Nat.divide_sub_r. }
    { rewrite length_drop. simpl in *. lia. } { by rewrite Eps. }
    exists (w :: vs), n, c', L'. rewrite <- app_assoc. simpl. rewrite length_app, Hlw.
    rewrite length_drop in Hle. pose proof (sc_ext _ _ _ _ SC) as EX.
    pose proof (ex_sub _ _ _ _ EX node Hn) as Hn2.
    split_and!; try done; [by eapply same_content_trans|simpl in *; lia| |].
    + rewrite <- take_app_take_drop. eapply path_app; [|done].
      apply (ex_path _ _ _ _ (sc_ext _ _ _ _ SC')); [done|]. by apply path_single.
    + eapply longest_same; [done..|]. by eapply longest_step; [| |done|..]; rewrite ?Eps.
Qed.

(** ** Hanging a new leaf *)

(** [c'] is [c] with the leaf [k], [v] below [n] (nothing happens for the empty [k]). *)
Inductive added c L (n : nat) (k v : list Z) : RadixCache → Prop :=
  | added_nil : k = [] → added c L n k v c
  | added_leaf off sn c' :
      is_add (page_size c) (root_node c) (skel c) L off n (counter c) sn k v →
      skel c' = add_T (page_size c) (skel c) n (counter c) sn k v →
      conf c' = conf c → counter c' = S (counter c) →
      evictable_size_ c' = (evictable_size_ c + Z.of_nat (length v))%Z →
      protected_size_ c' = protected_size_ c →
      (∀ m, is_Some (nodes c' !! m) → m = counter c ∨ is_Some (nodes c !! m)) →
      added c L n k v c'.

(** The last lines of [_insert_helper]. *)
Lemma attach_spec c L own n nd k v :
  cache_ok c L own → n ∈ L → nodes c !! n = Some nd → k ≠ [] → (page_size c | length k) →
  length v = length k → dict_get (take (page_size c) k) (children nd) = None →
  ∃ c', (let '(m, c1) := alloc_node clock c in
         let c2 := upd_node m (λ d, set_key_value k (Some v) (set_parent (Some n) d)) c1 in
         let c3 := upd_node n (λ d, set_children (dict_set (take (page_size c) k) m (children d)) d) c2 in
         let c4 := set_sizes (evictable_size_ c3 + Z.of_nat (length v))%Z (protected_size_ c3) c3 in
         _record_store_event tuple_hash m c4) = Some c' ∧ added c L n k v c'.
Proof.
  intros OK Hn Hnd Hk Hd Hlv Hget. destruct (c_tree _ _ _ OK) as [off TR].
  destruct (ok_counter_fresh OK) as (Hf & Hf' & HfL). simpl.
  match goal with |- context [Radix._record_store_event _ _ ?x] => set (c4 := x) end.
  assert (Hne : counter c ≠ n) by congruence.
  assert (Hskel : skel c4 = add_T (page_size c) (skel c) n (counter c) (shape_of nd) k v).
  { apply map_eq. intros m. unfold skel, add_T. rewrite lookup_fmap. simpl.
    destruct (decide (m = n)) as [->|]; [|destruct (decide (m = counter c)) as [->|]];
      simplify_map_eq; done. }
  assert (Hnew : ∃ nn, nodes c4 !! counter c = Some nn ∧ parent nn = Some n).
  { unfold c4. simpl. simplify_map_eq. eauto. }
  destruct Hnew as (nn & Hnn & Hp).
  destruct (store_event_spec tuple_hash (counter c) nn n c4 Hnn Hp) as [ev ->].
  { unfold c4. simpl. simplify_map_eq. eauto. }
  eexists. split; [done|]. apply (added_leaf c L n k v off (shape_of nd)); try done.
  - split; try done. by apply skel_Some.
  - intros m. change (is_Some (nodes c4 !! m) → m = counter c ∨ is_Some (nodes c !! m)).
    unfold c4. simpl. rewrite !lookup_alter_is_Some, lookup_insert_is_Some. naive_solver.
Qed.

Lemma added_ok c L own n k v c' : cache_ok c L own → added c L n k v c' →
  ∃ L', cache_ok c' L' own ∧ extends c L c' L' ∧
    (∀ m k0 v0, m ∈ L → has (skel c') m k0 v0 ↔ has (skel c) m k0 v0 ∨
       k ≠ [] ∧ ∃ k1 v1 k2, path (skel c) m n k1 v1 ∧ k2 `prefix_of` k ∧
         k0 = k1 ++ k2 ∧ v0 = v1 ++ take (length k2) v) ∧
    (length v = length k → ∀ x, tree_sum (w_slot x) (skel c') L' =
       (tree_sum (w_slot x) (skel c) L + Z.of_nat (count_occ Z.eq_dec v x))%Z) ∧
    evictable_size_ c' = (evictable_size_ c + Z.of_nat (length k))%Z ∧
    protected_size_ c' = protected_size_ c.
Proof.
  intros OK [->|off sn c1 AD Es Ec En Ee Ep Hdom].
  - exists L. split_and!; try done; [| |simpl; lia].
    + intros m k0 v0 Hm. split; [by left|]. by intros [?|[? _]].
    + intros ->%nil_length_inv x. simpl. lia.
  - exists ({[counter c]} ∪ L). pose proof (ad_v _ _ _ _ _ _ _ _ _ _ AD) as Hv.
    pose proof Ec as Ec'. unfold conf in Ec'. injection Ec' as C1 C2 C3 C4.
    split; [|split_and!; try done; [| | |by rewrite <- Hv]].
    + split.
      * rewrite C1, C2, Es. eexists. exact (add_ok AD).
      * intros m Hm. rewrite En. destruct (Hdom m Hm) as [->|H]; [lia|].
        apply (c_fresh _ _ _ OK) in H. lia.
      * rewrite C1, Es. pose proof (add_locks AD own (c_locks _ _ _ OK)) as Hl.
        intros m sm Hm Hr Hsm. rewrite (Hl m sm Hm Hr Hsm). case_decide as E; [|done].
        subst m. by rewrite (c_own_out _ _ _ OK) by apply (ok_counter_fresh OK).
      * apply OK.
      * intros m Hm. apply (c_own_out _ _ _ OK). set_solver.
      * rewrite Ee, Es, (add_sum AD), (c_evictable _ _ _ OK). 
        change (w_evictable k (Some v) 0%Z) with (Z.of_nat (length k)). lia.
      * rewrite Ep, Es, (add_sum AD), (c_protected _ _ _ OK). 
        change (w_protected k (Some v) 0%Z) with 0%Z. lia.
    + split; [set_solver|done|]. intros m l k0 v0 Hm. rewrite Es. by apply (add_path_old AD).
    + intros m k0 v0 Hm. rewrite Es, (add_has AD) by done.
      pose proof (ad_k _ _ _ _ _ _ _ _ _ _ AD). naive_solver.
    + intros _ x. rewrite Es, (add_sum AD). done.
Qed.

(** What the insertion walk leaves: the walk only splits ([c1]), ends at the node of
    the longest stored prefix, and hangs the rest of the key there. *)
Definition inserted c L own (node : nat) (key_ value_ : list Z) (j : nat) c' : Prop :=
  ∃ c1 L1 n cv, cache_ok c1 L1 own ∧ same_content c L c1 L1 ∧ n ∈ L1 ∧
    j ≤ length key_ ∧ (page_size c | j) ∧ path (skel c1) node n (take j key_) cv ∧
    longest c node key_ j ∧ added c1 L1 n (drop j key_) (drop j value_) c'.

Lemma inserted_step c L own node node' key_ value_ i j w c1 L1 c' :
  cache_ok c L own → node ∈ L → same_content c L c1 L1 → node' ∈ L1 → cache_ok c1 L1 own →
  edge (skel c1) node node' (take i key_) w → 0 < i ≤ length key_ → (page_size c | i) →
  inserted c1 L1 own node' (drop i key_) (drop i value_) j c' →
  inserted c L own node key_ value_ (i + j) c'.
Proof.
  intros OK Hn SC Hn' OK1 He Hi Hdi (c2 & L2 & n & cv & OK2 & SC2 & HnL2 & Hj & Hdj & Hp & Hl & Ha).
  destruct (same_content_ps _ _ _ _ SC) as (Eps & _).
  pose proof (ex_sub _ _ _ _ (sc_ext _ _ _ _ SC) node Hn) as Hn1.
  rewrite length_drop in Hj. rewrite !drop_drop in Ha. rewrite Eps in Hdj.
  exists c2, L2, n, (w ++ cv). rewrite <- take_app_take_drop. split_and!; try done.
  - by eapply same_content_trans.
  - lia.
  - by apply Nat.divide_add_r.
  - eapply path_app; [|done]. apply (ex_path _ _ _ _ (sc_ext _ _ _ _ SC2)); [done|].
    by apply path_single.
  - eapply longest_same; [done..|]. eapply longest_step; [done|done|done|done| |done]. by rewrite Eps.
Qed.

Lemma insert_loop_spec own fuel : ∀ node key_ value_ child_key total c L,
  cache_ok c L own → node ∈ L → (page_size c | length key_) → length value_ = length key_ →
  length key_ < fuel → (key_ ≠ [] → child_key = take (page_size c) key_) →
  ∃ j c', insert_loop fuel node key_ value_ child_key total c = Some (total + j, c') ∧
    inserted c L own node key_ value_ j c'.
Proof.
  induction fuel as [|fuel IH]; intros node key_ value_ child_key total c L OK Hn Hdiv Hlv Hf Hck; [lia|].
  destruct (c_tree _ _ _ OK) as [off TR]. destruct (ok_node_lookup OK node Hn) as [nd Hnd].
  simpl. rewrite Hnd. simpl.
  assert (Hstop : ∀ c', longest c node key_ 0 → added c L node key_ value_ c' →
            inserted c L own node key_ value_ 0 c').
  { intros c' Hl Ha. exists c, L, node, []. simpl. rewrite !drop_0. split_and!; try done;
      [lia|by apply Nat.divide_0_r|constructor]. }
  destruct key_ as [|x key_].
  { exists 0, c. rewrite Nat.add_0_r. split; [done|]. apply Hstop; [|by constructor].
    intros k v _ ->%prefix_nil_inv _. done. }
  rewrite Hck by done. clear Hck.
  destruct (dict_get (take (page_size c) (x :: key_)) (children nd)) as [child|] eqn:Hget; last first.
  { destruct (attach_spec c L own node nd (x :: key_) value_ OK Hn Hnd ltac:(done) Hdiv Hlv Hget)
      as (c' & Hrun & Ha). simpl in Hrun. rewrite Hrun. simpl. exists 0, c'. rewrite Nat.add_0_r.
    split; [done|]. apply Hstop; [|done]. intros k v Hh Hpre Hd.
    by rewrite (has_no_child TR node (shape_of nd) k v (x :: key_) Hn (skel_Some _ _ _ Hnd) Hget Hh Hpre Hd). }
  destruct (descend c L own node (shape_of nd) (x :: key_) child OK Hn (skel_Some _ _ _ Hnd)
              ltac:(done) Hdiv Hget)
    as (cd & Hcd & Hj & Hdj & node' & c2 & L2 & w & nd' & Hrun & OK2 & SC & HnL2 & Hnd' & Hw & Hlw & He & Hmax).
  simpl in Hcd. rewrite Hcd. simpl. set (j := key_match_fn (page_size c) (key cd) (x :: key_)) in *.
  rewrite Hrun. simpl. destruct (same_content_ps _ _ _ _ SC) as (Eps & _).
  destruct (next_child_key (page_size c) (drop j (x :: key_)) (take (page_size c) (x :: key_)))
    as (ck & -> & Hck). simpl.
  destruct (IH node' (drop j (x :: key_)) (drop j value_) ck (total + j) c2 L2)
    as (j2 & c' & -> & HI); rewrite ?Eps, ?length_drop; try done.
  { by apply Nat.divide_sub_r. } { congruence. } { cbn [length] in *. lia. }
  exists (j + j2), c'. rewrite Nat.add_assoc. split; [done|]. by eapply inserted_step.
Qed.
End radix.
