(* ===== verification/RadixLock.v ===== *)
(** * Reference counts of the radix tree

    [inc_lock_ref] and [dec_lock_ref] walk from a node to the root.  Between two
    turns the counts are those of a different distribution of holders: the part of
    the path that was walked carries the change, the rest does not. *)

From S2P Require Import Prelude HeapQ Radix RadixTree RadixUpdate RadixMatch RadixInv.

Implicit Types (c : RadixCache) (L : gset nat) (own : nat → Z).

(** What holds at every turn of the walk: [cache_ok], except that the holders may be
    counted negatively while the locks are not. *)
Record walk_ok c L (off : nat → nat) own : Prop := {
  w_tree : tree_ok (page_size c) (root_node c) (skel c) L off;
  w_fresh n : is_Some (nodes c !! n) → n < counter c;
  w_locks : locks_eq (root_node c) (skel c) L own;
  w_nonneg n : n ∈ L → n ≠ root_node c → (0 ≤ lock_of (skel c) n)%Z;
  w_evictable_eq : evictable_size_ c = tree_sum w_evictable (skel c) L;
  w_protected_eq : protected_size_ c = tree_sum w_protected (skel c) L
}.

Lemma cache_walk_ok c L own : cache_ok c L own → ∃ off, walk_ok c L off own.
Proof.
  intros OK. pose proof (ok_locks_nonneg OK). destruct OK as [[off TR] ? ? ? ? ? ?]. by exists off.
Qed.

Lemma walk_cache_ok c L off own own' : walk_ok c L off own →
  (∀ n, (0 ≤ own' n)%Z) → (∀ n, n ∉ L → own' n = 0%Z) →
  (∀ n, n ≠ root_node c → own' n = own n) → cache_ok c L own'.
Proof.
  intros [H1 H2 H3 H4 H5 H6] Hp Ho He. split; eauto.
  intros n s Hn Hr Hs. rewrite He by done. by apply H3.
Qed.

(** [c'] differs from [c] in lock counts and in the two size counters. *)
Record same_keys c L c' : Prop := {
  sk_conf : conf c' = conf c;
  sk_edge m l k v : edge (skel c') m l k v ↔ edge (skel c) m l k v;
  sk_slots x : tree_sum (w_slot x) (skel c') L = tree_sum (w_slot x) (skel c) L;
  sk_sizes : (evictable_size_ c' + protected_size_ c' = evictable_size_ c + protected_size_ c)%Z
}.

Lemma same_keys_refl c L : same_keys c L c.
Proof. done. Qed.

Lemma same_keys_trans c L c' c'' : same_keys c L c' → same_keys c' L c'' → same_keys c L c''.
Proof.
  intros [H1 H2 H3 H4] [G1 G2 G3 G4]. split; try congruence.
  intros m l k v. by rewrite G2, H2.
Qed.

Lemma same_keys_has c L c' n k v : same_keys c L c' → has (skel c') n k v ↔ has (skel c) n k v.
Proof.
  intros [_ He _ _].
  split; (induction 1 as [|? ? ? ? ? ?%He|? ? ? ? ? ? ?%He]; eauto with py).
Qed.

Lemma same_keys_path c L c' n m k v : same_keys c L c' →
  path (skel c') n m k v ↔ path (skel c) n m k v.
Proof.
  intros [_ He _ _]. split; (induction 1 as [|? ? ? ? ? ? ? ?%He]; eauto with py).
Qed.

(** The holders of [n] change by [d], and the walk has come to [p]. *)
Definition moved own (n p : nat) (d : Z) : nat → Z :=
  λ m, (own m + (if decide (m = n) then d else 0) - (if decide (m = p) then d else 0))%Z.

(** The tokens that become evictable when the count goes from [l] to [l + d]. *)
Definition released (l d len : Z) : Z :=
  ((if decide (l + d = 0) then len else 0) - (if decide (l = 0) then len else 0))%Z.

Lemma lock_step c L off own n nd p v d :
  walk_ok c L off own → n ∈ L → n ≠ root_node c → nodes c !! n = Some nd →
  parent nd = Some p → value nd = Some v → (0 ≤ lock_ref nd + d)%Z →
  let e := released (lock_ref nd) d (Z.of_nat (length v)) in
  let c' := upd_node n (set_lock (lock_ref nd + d)%Z)
              (set_sizes (evictable_size_ c + e)%Z (protected_size_ c - e)%Z c) in
  walk_ok c' L off (moved own n p d) ∧ same_keys c L c'.
Proof.
  intros [TR Hf Hl Hnn He Hp] Hn Hr Hnd Hpar Hv Hd e c'.
  pose proof (skel_Some _ _ _ Hnd) as Hs.
  destruct (ok_node _ _ _ _ _ TR n Hn Hr) as (s & q & sq & u & Hs' & _ & _ & _ & _ & _ & _ & Hu & Hlu & _).
  assert (s = shape_of nd) as -> by congruence. simpl in Hu, Hlu. assert (u = v) as -> by congruence.
  assert (Es : skel c' = <[n := set_s_lock (lock_ref nd + d) (shape_of nd)]> (skel c)).
  { apply map_eq. intros m. unfold skel. rewrite lookup_fmap. simpl.
    destruct (decide (m = n)) as [->|]; simplify_map_eq; done. }
  pose proof (lock_sum n (shape_of nd) (lock_ref nd + d) Hn Hs) as Hsum.
  pose proof (lock_edge n (shape_of nd) (lock_ref nd + d) Hs) as Hedge.
  rewrite <- Es in Hsum. rewrite <- Es in Hedge. split; split; try done.
  - simpl. rewrite Es. by apply lock_ok.
  - intros m Hm. apply Hf. destruct (decide (m = n)) as [->|Hmn]; [eauto|].
    simpl in Hm. by rewrite lookup_alter_ne in Hm.
  - simpl. rewrite Es. eapply lock_locks; done.
  - intros m Hm Hmr. unfold lock_of. rewrite Es. destruct (decide (m = n)) as [->|Hmn].
    + by rewrite lookup_insert_eq.
    + rewrite lookup_insert_ne by done. by apply Hnn.
  - simpl. rewrite He, Hsum. unfold w_evictable at 3 4. simpl. rewrite <- Hlu.
    unfold e, released. repeat case_decide; lia.
  - simpl. rewrite Hp, Hsum. unfold w_protected at 3 4. simpl. rewrite <- Hlu.
    unfold e, released. repeat case_decide; lia.
  - intros x. rewrite Hsum. unfold w_slot at 2 3. simpl. lia.
  - simpl. lia.
Qed.

(** The number of nodes of the tree nearer to the root. *)
Definition depth L (off : nat → nat) (n : nat) : nat :=
  size (filter (λ m, off m < off n) L).

Lemma depth_lt L off n p : p ∈ L → off p < off n → depth L off p < depth L off n.
Proof.
  intros Hp Ho. apply subset_size. split.
  - intros x. rewrite !elem_of_filter. intros [? ?]. split; [lia|done].
  - intros Hsub. specialize (Hsub p). rewrite !elem_of_filter in Hsub.
    destruct Hsub as [? _]; [done|]. lia.
Qed.

Lemma depth_fuel c L off own n : walk_ok c L off own → depth L off n < S (size (nodes c)).
Proof.
  intros W. apply Nat.lt_succ_r. rewrite <- size_dom.
  apply subseteq_size. intros m [_ Hm]%elem_of_filter.
  destruct (ok_lookup (w_tree _ _ _ _ W) m Hm) as [s (nd & ? & _)%skel_lookup].
  by apply elem_of_dom.
Qed.

(** A node whose own holders are counted at least [l] is locked at least [l] times. *)
Lemma walk_lock_ge c L off own n nd l : walk_ok c L off own → n ∈ L → n ≠ root_node c →
  nodes c !! n = Some nd → (l ≤ own n)%Z → (l ≤ lock_ref nd)%Z.
Proof.
  intros W Hn Hr Hnd Hl. pose proof (w_locks _ _ _ _ W n _ Hn Hr (skel_Some _ _ _ Hnd)) as E.
  simpl in E. rewrite E. enough (0 ≤ zsum (lock_of (skel c)) (children nd).*2)%Z by lia.
  apply zsum_nonneg. intros m ([ck m'] & -> & Hm)%list_elem_of_fmap. simpl.
  destruct (ok_child (w_tree _ _ _ _ W) n _ ck m' Hn (skel_Some _ _ _ Hnd) Hm) as (? & ? & _).
  by apply W.
Qed.

(** A node is locked at least as often as its child. *)
Lemma walk_lock_parent c L off own n p : walk_ok c L off own → n ∈ L → n ≠ root_node c →
  s_parent <$> skel c !! n = Some (Some p) → p ≠ root_node c → (0 ≤ own p)%Z →
  (lock_of (skel c) n ≤ lock_of (skel c) p)%Z.
Proof.
  intros W Hn Hr (s & Hs & Hp)%fmap_Some Hpr Hown.
  destruct (ok_parent (w_tree _ _ _ _ W) n s p Hn Hr Hs (eq_sym Hp)) as (HpL & _ & _ & sp & Hsp & Hin).
  unfold lock_of at 2. rewrite Hsp, (w_locks _ _ _ _ W p sp HpL Hpr Hsp).
  enough (lock_of (skel c) n ≤ zsum (lock_of (skel c)) (s_children sp).*2)%Z by lia.
  apply zsum_elem_le.
  - intros m ([ck m'] & -> & Hm)%list_elem_of_fmap.
    destruct (ok_child (w_tree _ _ _ _ W) p sp ck m' HpL Hsp Hm) as (? & ? & _). by apply W.
  - apply list_elem_of_fmap. by exists (take (page_size c) (s_key s), n).
Qed.

Lemma released_locked l d len : (1 ≤ l)%Z → (1 ≤ l + d)%Z → released l d len = 0%Z.
Proof. intros. unfold released. repeat case_decide; lia. Qed.

Lemma released_up l len : (0 ≤ l)%Z →
  released l 1 len = (if decide (l = 0) then - len else 0)%Z.
Proof. intros. unfold released. repeat case_decide; lia. Qed.

Lemma released_down l len : (1 ≤ l)%Z →
  released l (-1) len = (if decide (l = 1) then len else 0)%Z.
Proof. intros. unfold released. repeat case_decide; lia. Qed.

Lemma set_sizes_id c : set_sizes (evictable_size_ c) (protected_size_ c) c = c.
Proof. by destruct c. Qed.

Section lock.
Context (up : bool).

Definition step : Z := if up then 1 else -1.

(** One turn of the loop changes the count by [step] and the sizes by what is released. *)
Lemma lock_loop_S fuel n delta c nd p v :
  n ≠ root_node c → nodes c !! n = Some nd → value nd = Some v → parent nd = Some p →
  (0 ≤ lock_ref nd)%Z → (0 ≤ lock_ref nd + step)%Z →
  let e := released (lock_ref nd) step (Z.of_nat (length v)) in
  lock_loop up (S fuel) n delta c =
  lock_loop up fuel p (delta + e)
    (upd_node n (set_lock (lock_ref nd + step)%Z)
      (set_sizes (evictable_size_ c + e)%Z (protected_size_ c - e)%Z c)).
Proof.
  intros Hr Hnd Hv Hp H0 H1 e. simpl. rewrite decide_False by done. rewrite Hnd. simpl.
  rewrite Hv. simpl. unfold e, step in *. clear e. destruct up.
  - rewrite released_up by done. case_decide; rewrite Hp; simpl.
    + by rewrite !Z.add_opp_r, Z.sub_opp_r.
    + by rewrite !Z.add_0_r, Z.sub_0_r, set_sizes_id.
  - rewrite released_down by lia. case_decide; rewrite Hp; simpl; [done|].
    by rewrite !Z.add_0_r, Z.sub_0_r, set_sizes_id.
Qed.

Lemma lock_loop_spec own L off n0 fuel : ∀ n delta c,
  (∀ m, (0 ≤ own m)%Z) → (up = false → (1 ≤ own n0)%Z) →
  walk_ok c L off (moved own n0 n step) → n ∈ L → depth L off n < fuel →
  ∃ d c', lock_loop up fuel n delta c = Some ((delta + d)%Z, c') ∧
    walk_ok c' L off (moved own n0 (root_node c') step) ∧ same_keys c L c' ∧
    evictable_size_ c' = (evictable_size_ c + d)%Z ∧
    (n = root_node c ∨ (1 ≤ lock_of (skel c) n ∧ 1 ≤ lock_of (skel c) n + step)%Z → d = 0%Z).
Proof.
  induction fuel as [|fuel IH]; intros n delta c Hown Hdec W Hn Hf; [lia|].
  destruct (decide (n = root_node c)) as [->|Hr].
  { exists 0%Z, c. simpl. rewrite decide_True, Z.add_0_r by done.
    split_and!; [done..|lia|done]. }
  destruct (ok_node _ _ _ _ _ (w_tree _ _ _ _ W) n Hn Hr)
    as (s & p & sp & v & (nd & Hnd & <-)%skel_lookup & Hp & HpL & Hsp & Hin & Hk & _ & Hv & Hlv & Ho).
  simpl in Hp, Hk, Hv, Hlv, Ho.
  pose proof (w_nonneg _ _ _ _ W n Hn Hr) as Hnn. unfold lock_of in Hnn.
  rewrite (skel_Some _ _ _ Hnd) in Hnn. simpl in Hnn.
  assert (Hge : (0 ≤ lock_ref nd + step)%Z).
  { unfold step in *. destruct up; [lia|]. enough (1 ≤ lock_ref nd)%Z by lia.
    eapply (walk_lock_ge _ _ _ _ _ _ 1 W Hn Hr Hnd). unfold moved.
    pose proof (Hown n). specialize (Hdec eq_refl).
    destruct (decide (n = n0)) as [->|]; rewrite decide_True by done; lia. }
  destruct (lock_step c L off _ n nd p v step W Hn Hr Hnd Hp Hv Hge) as [W' SK].
  rewrite (lock_loop_S fuel n delta c nd p v) by done.
  set (e := released (lock_ref nd) step (Z.of_nat (length v))) in *.
  set (c1 := upd_node n _ _) in *.
  destruct (IH p (delta + e)%Z c1) as (d & c' & -> & W2 & SK2 & Ev & Hz); try done.
  - destruct W' as [H1 H2 H3 H4 H5 H6]. split; try done.
    intros m sm Hm Hmr Hsm. rewrite (H3 m sm Hm Hmr Hsm). f_equal. unfold moved. lia.
  - enough (depth L off p < depth L off n) by lia. apply depth_lt; [done|].
    rewrite Ho. destruct (key nd); [done|simpl; lia].
  - exists (e + d)%Z, c'. rewrite Z.add_assoc. split_and!; [done|done|by eapply same_keys_trans| |].
    { rewrite Ev. simpl. lia. }
    intros [?|Hlk]; [done|]. unfold lock_of in Hlk. rewrite (skel_Some _ _ _ Hnd) in Hlk. simpl in Hlk.
    assert (e = 0%Z) as -> by (apply released_locked; lia). rewrite Hz; [done|].
    destruct (decide (p = root_node c)) as [->|Hpr]; [by left|right].
    assert (Hpn : lock_of (skel c1) p = lock_of (skel c) p).
    { unfold lock_of, c1, skel. simpl. rewrite !lookup_fmap, lookup_alter_ne; [done|].
      intros ->. destruct (key nd); [done|simpl in Ho; lia]. }
    rewrite Hpn. assert (Hge2 : (lock_of (skel c) n ≤ lock_of (skel c) p)%Z).
    { eapply walk_lock_parent; [exact W|done|done| |done|].
      - rewrite (skel_Some _ _ _ Hnd). simpl. by rewrite Hp.
      - unfold moved, step. pose proof (Hown p). destruct (decide (p = n)) as [->|].
        { destruct (key nd); [done|simpl in Ho; lia]. }
        destruct (decide (p = n0)) as [->|]; [|lia].
        destruct up; [lia|]. specialize (Hdec eq_refl). lia. }
    unfold lock_of in Hge2 at 1. rewrite (skel_Some _ _ _ Hnd) in Hge2. simpl in Hge2. lia.
Qed.
End lock.
