(* ===== verification/RadixEvict.v ===== *)
(** * Walking and evicting

    The traversals behind [_collect_leaves] and [total_size] visit every node of the
    tree once; [evict] removes unlocked leaves, least recently used first. *)

From S2P Require Import Prelude HeapQ Radix RadixTree RadixUpdate RadixMatch RadixInv.

Implicit Types (c : RadixCache) (L V : gset nat) (own : nat → Z).

(** ** Traversal of the tree with a stack *)

(** The nodes [V] are done: exactly their children are done or on the stack. *)
Record visiting c L (stack : list nat) V : Prop := {
  vi_sub : V ⊆ L;
  vi_stack n : n ∈ stack → n ∈ L ∧ n ∉ V;
  vi_nodup : NoDup stack;
  vi_root : root_node c ∈ V ∨ root_node c ∈ stack;
  vi_parent n s p : n ∈ L → n ≠ root_node c → skel c !! n = Some s → s_parent s = Some p →
    (n ∈ V ∨ n ∈ stack) ↔ p ∈ V
}.

Section visiting.
Context {c L off} (TR : tree_ok (page_size c) (root_node c) (skel c) L off).

Lemma visiting_init : visiting c L [root_node c] ∅.
Proof.
  split; try (set_solver || apply NoDup_singleton).
  - intros n ->%list_elem_of_singleton. split; [apply TR|set_solver].
Qed.

Lemma visiting_step n stack V nd : visiting c L (n :: stack) V → nodes c !! n = Some nd →
  visiting c L (reverse (children nd).*2 ++ stack) ({[n]} ∪ V).
Proof.
  intros [H1 H2 H3 H4 H5] Hnd. apply NoDup_cons in H3 as [Hns Hnodup].
  destruct (H2 n ltac:(left)) as [HnL HnV]. pose proof (skel_Some _ _ _ Hnd) as Hs.
  assert (Hch : ∀ m, m ∈ (children nd).*2 ↔ m ∈ L ∧ m ≠ root_node c ∧
              ∃ t, skel c !! m = Some t ∧ s_parent t = Some n).
  { intros m. split.
    - intros ([ck m'] & -> & Hm)%list_elem_of_fmap. simpl.
      destruct (ok_child TR n _ ck m' HnL Hs Hm) as (? & ? & t & _ & ? & ? & _). eauto.
    - intros (HmL & Hmr & t & Ht & Hp).
      destruct (ok_parent TR m t n HmL Hmr Ht Hp) as (_ & _ & _ & sp & Hsp & Hin).
      simplify_eq. apply list_elem_of_fmap. eexists (_, m). done. }
  assert (Hcn : ∀ m, m ∈ (children nd).*2 → m ∉ V ∧ m ∉ n :: stack).
  { intros m (HmL & Hmr & t & Ht & Hp)%Hch. pose proof (H5 m t n HmL Hmr Ht Hp). tauto. }
  split.
  - set_solver.
  - intros m. rewrite elem_of_app, elem_of_reverse. intros [Hm|Hm].
    + destruct (Hcn m Hm) as [? ?]. apply Hch in Hm as (? & _). split; [done|].
      rewrite elem_of_union, elem_of_singleton. intros [->|?]; [|done]. set_solver.
    + destruct (H2 m ltac:(by right)) as [? ?]. split; [done|].
      rewrite elem_of_union, elem_of_singleton. intros [->|?]; done.
  - apply NoDup_app. split_and!; [|intros m Hm Hms; rewrite elem_of_reverse in Hm|done].
    + rewrite reverse_Permutation. exact (ok_NoDup_children TR n _ HnL Hs).
    + destruct (Hcn m Hm) as [_ Hn]. apply Hn. by right.
  - destruct H4 as [?|[<-|?]%elem_of_cons]; [left; set_solver|left; set_solver|right].
    apply elem_of_app. by right.
  - intros m s p Hm Hr Hsm Hp. pose proof (H5 m s p Hm Hr Hsm Hp) as E.
    rewrite elem_of_app, elem_of_reverse, !elem_of_union, !elem_of_singleton. split.
    + intros [[->|HmV]|[Hc|Hst]]; [right; apply E; right; left|right; apply E; by left| |right; apply E; right; by right].
      left. apply Hch in Hc as (_ & _ & t & ? & ?). congruence.
    + intros [->|HpV]; [right; left; apply Hch; eauto|]. apply E in HpV as [?|[->|?]%elem_of_cons]; eauto.
Qed.

Lemma visiting_done V : visiting c L [] V → V = L.
Proof.
  intros [H1 _ _ H4 H5]. apply set_eq. intros n. split; [apply H1|].
  remember (off n) as d eqn:Hd. revert n Hd. induction (lt_wf d) as [d _ IH]. intros n -> Hn.
  destruct (decide (n = root_node c)) as [->|Hr]; [destruct H4 as [?|[]%elem_of_nil]; done|].
  destruct (ok_node _ _ _ _ _ TR n Hn Hr) as (s & p & sp & v & Hs & Hp & HpL & _).
  destruct (ok_parent TR n s p Hn Hr Hs Hp) as (_ & _ & Ho & _).
  destruct (H5 n s p Hn Hr Hs Hp) as [_ H]. destruct H as [?|[]%elem_of_nil]; [|done].
  eapply IH; [done..|]. done.
Qed.

Lemma visiting_fuel n stack V : visiting c L (n :: stack) V → size V < size L.
Proof using Type.
  intros [H1 H2 _ _ _]. destruct (H2 n ltac:(left)) as [Hn HnV].
  apply subset_size. split; [done|]. intros Hs. by apply HnV, Hs.
Qed.

Lemma visiting_size n V : n ∉ V → size ({[n]} ∪ V) = S (size V).
Proof using Type. intros. rewrite size_union, size_singleton; [done|]. by apply disjoint_singleton_l. Qed.
End visiting.

(** The childless nodes. *)
Definition is_leaf c (n : nat) : Prop := ∃ nd, nodes c !! n = Some nd ∧ children nd = [].

#[export] Instance is_leaf_dec c n : Decision (is_leaf c n).
Proof.
  destruct (nodes c !! n) as [nd|] eqn:E.
  - destruct (children nd) eqn:E'; [left; by exists nd|right; intros (? & ? & ?); congruence].
  - right. intros (? & ? & _). congruence.
Defined.

Lemma ok_size_nodes c L own : cache_ok c L own → size L ≤ size (nodes c).
Proof.
  intros OK. rewrite <- size_dom. apply subseteq_size. intros m Hm.
  destruct (ok_node_lookup OK m Hm) as [nd Hnd]. by apply elem_of_dom.
Qed.

Lemma collect_loop_spec c L own fuel : ∀ stack V ret,
  cache_ok c L own → visiting c L stack V → size L ≤ fuel + size V →
  NoDup ret → (∀ n, n ∈ ret ↔ n ∈ V ∧ is_leaf c n) →
  ∃ ls, collect_loop fuel stack ret c = Some ls ∧ NoDup ls ∧ ∀ n, n ∈ ls ↔ n ∈ L ∧ is_leaf c n.
Proof.
  induction fuel as [|fuel IH]; intros [|n stack] V ret OK VI Hf Hnd Hret;
    destruct (c_tree _ _ _ OK) as [off TR]; try (pose proof (visiting_fuel n stack V VI)).
  - rewrite (visiting_done TR V VI) in Hret. by exists ret.
  - simpl in Hf. lia.
  - rewrite (visiting_done TR V VI) in Hret. by exists ret.
  - destruct (vi_stack _ _ _ _ VI n ltac:(left)) as [HnL HnV].
    destruct (ok_node_lookup OK n HnL) as [nd Hn].
    pose proof (visiting_step TR n stack V nd VI Hn) as VI'.
    simpl. rewrite Hn. simpl. destruct (children nd) as [|x xs] eqn:Hc.
    + apply (IH stack ({[n]} ∪ V)); [done|done|rewrite visiting_size by done; lia| |].
      * apply NoDup_app. split_and!; [done| |apply NoDup_singleton].
        intros m Hm E%list_elem_of_singleton. subst m. by apply Hret in Hm as [? _].
      * intros m. rewrite elem_of_app, list_elem_of_singleton, elem_of_union, elem_of_singleton, Hret.
        split; [intros [[? ?]| -> ]|intros [[->|?] ?]]; eauto. split; [eauto|]. by exists nd.
    + apply (IH _ ({[n]} ∪ V)); [done|done|rewrite visiting_size by done; lia|done|].
      intros m. rewrite Hret, elem_of_union, elem_of_singleton. split; [naive_solver|].
      intros [[->|?] Hl]; [|done]. destruct Hl as (nd' & ? & ?). congruence.
Qed.

Lemma filter_all {A} (f : A → bool) l : (∀ x, x ∈ l → f x = true) → List.filter f l = l.
Proof.
  induction l as [|x l IH]; intros H; simpl; [done|]. rewrite H by left.
  rewrite IH; [done|]. intros y Hy. apply H. by right.
Qed.

Lemma total_loop_spec c L own fuel : ∀ stack V total,
  cache_ok c L own → visiting c L stack V → size L ≤ fuel + size V →
  total = tree_sum w_total (skel c) V →
  total_loop fuel stack total c = Some (tree_sum w_total (skel c) L).
Proof.
  induction fuel as [|fuel IH]; intros [|n stack] V total OK VI Hf Ht;
    destruct (c_tree _ _ _ OK) as [off TR]; try (pose proof (visiting_fuel n stack V VI)).
  - rewrite (visiting_done TR V VI) in Ht. by subst.
  - simpl in Hf. lia.
  - rewrite (visiting_done TR V VI) in Ht. by subst.
  - destruct (vi_stack _ _ _ _ VI n ltac:(left)) as [HnL HnV].
    destruct (ok_node_lookup OK n HnL) as [nd Hn].
    pose proof (visiting_step TR n stack V nd VI Hn) as VI'. pose proof (skel_Some _ _ _ Hn) as Hs.
    assert (∃ v, value nd = Some v ∧ length v = length (key nd)) as (v & Hv & Hlv).
    { destruct (decide (n = root_node c)) as [->|Hr].
      - destruct (ok_root _ _ _ _ _ TR) as (s & Hs' & _ & Ek & Ev). simplify_eq. simpl in *.
        exists []. by rewrite Ek.
      - destruct (ok_node _ _ _ _ _ TR n HnL Hr) as (s & p & sp & v & Hs' & _ & _ & _ & _ & _ & _ & Hv & Hl & _).
        simplify_eq. by exists v. }
    simpl. rewrite Hn. simpl. rewrite Hv. simpl. rewrite filter_all.
    + apply (IH _ ({[n]} ∪ V)); [done|done|rewrite visiting_size by done; lia|].
      rewrite Ht. unfold tree_sum. rewrite set_zsum_insert by done. unfold wt at 2. rewrite Hs.
      unfold w_total at 2. simpl. lia.
    + intros m ([ck m'] & -> & Hm)%list_elem_of_fmap. simpl.
      destruct (ok_child TR n _ ck m' HnL Hs Hm)
        as (_ & _ & t & w & (d & -> & <-)%skel_lookup & _ & _ & _ & _ & Hw & _).
      simpl in Hw. unfold evicted. rewrite Hw. done.
Qed.

(** ** Eviction *)

(** What [evict] may remove: the unlocked leaves below the root. *)
Definition candidate c L (x : nat) : Prop :=
  x ∈ L ∧ x ≠ root_node c ∧ is_leaf c x ∧ lock_of (skel c) x = 0%Z.

Section evictable.
Context {c L own} (OK : cache_ok c L own).

Lemma all_locked n : (∀ x, ¬ candidate c L x) → n ∈ L → n ≠ root_node c →
  (0 < lock_of (skel c) n)%Z.
Proof.
  intros Hno. revert n. apply (leaves_up OK). intros n s Hn Hr Hs IH.
  destruct (ok_node_lookup OK n Hn) as [nd Hnd]. pose proof (skel_Some _ _ _ Hnd) as Hs'. simplify_eq.
  pose proof (ok_locks_nonneg OK n Hn Hr) as Hnn.
  destruct (children nd) as [|[ck m] cs] eqn:Hc.
  { destruct (decide (lock_of (skel c) n = 0)%Z) as [E|]; [|lia].
    exfalso. apply (Hno n). split_and!; try done. by exists nd. }
  destruct (ok_lock_of OK n _ Hn Hr Hs) as [-> Hch]. simpl in Hch, IH |- *. rewrite Hc in *.
  pose proof (c_own _ _ _ OK n). destruct (Hch m) as (_ & _ & HmL & Hmr); [left|].
  assert (0 < lock_of (skel c) m)%Z as Hm by (apply (IH ck); [left|done..]).
  enough (lock_of (skel c) m ≤ zsum (lock_of (skel c)) ((ck, m) :: cs).*2)%Z by lia.
  apply zsum_elem_le; [|left]. intros m' (_ & _ & ? & ?)%Hch. by apply (ok_locks_nonneg OK).
Qed.

Lemma no_candidate_evictable : (∀ x, ¬ candidate c L x) → evictable_size_ c = 0%Z.
Proof.
  intros Hno. rewrite (c_evictable _ _ _ OK). unfold tree_sum.
  rewrite (set_zsum_ext _ (λ _, 0%Z)).
  { unfold set_zsum. induction (elements L); simpl; lia. }
  intros n Hn. unfold wt. destruct (skel c !! n) as [s|] eqn:Hs; [|done]. unfold w_evictable.
  destruct (decide (n = root_node c)) as [->|Hr].
  - destruct (c_tree _ _ _ OK) as [off TR]. destruct (ok_root _ _ _ _ _ TR) as (s' & ? & _ & Ek & _).
    simplify_eq. rewrite Ek. by case_decide.
  - pose proof (all_locked n Hno Hn Hr) as Hl. unfold lock_of in Hl. rewrite Hs in Hl.
    by rewrite decide_False by lia.
Qed.

(** A childless root is the whole tree. *)
Lemma root_leaf_alone n : is_leaf c (root_node c) → n ∈ L → n = root_node c.
Proof.
  destruct (c_tree _ _ _ OK) as [off TR]. intros (rd & Hrd & Hc) Hn.
  destruct (decide (n = root_node c)) as [|Hr]; [done|]. exfalso.
  remember (off n) as d eqn:Hd. revert n Hd Hn Hr. induction (lt_wf d) as [d _ IH].
  intros n -> Hn Hr. destruct (ok_node _ _ _ _ _ TR n Hn Hr) as (s & p & sp & v & Hs & Hp & HpL & _).
  destruct (ok_parent TR n s p Hn Hr Hs Hp) as (_ & _ & Ho & sp' & Hsp' & Hin).
  destruct (decide (p = root_node c)) as [->|Hpr]; [|by eapply IH].
  rewrite (skel_Some _ _ _ Hrd) in Hsp'. injection Hsp' as <-. simpl in Hin.
  rewrite Hc in Hin. by apply elem_of_nil in Hin.
Qed.
End evictable.

Lemma find_child_key_spec (items : list (list Z * nat)) k n :
  NoDup items.*2 → (k, n) ∈ items → find_child_key n items = Some k.
Proof.
  induction items as [|[k' n'] items IH]; [by intros _ ?%elem_of_nil|].
  intros [Hn Hnd]%NoDup_cons [?|Hin]%elem_of_cons; simplify_eq/=.
  - destruct items; [done|]. by rewrite decide_True.
  - destruct items as [|i items]; [by apply elem_of_nil in Hin|].
    rewrite decide_False; [by apply IH|]. intros ->. apply Hn.
    change (n ∈ (i :: items).*2). apply list_elem_of_fmap. by exists (k, n).
Qed.

Section evict.
Context (tuple_hash : list Z → Z).
Local Abbreviation _record_remove_event := (_record_remove_event tuple_hash).

(** One removal: [x] leaves the tree, its parent keeps the other children. *)
Lemma delete_step c L own x nd : cache_ok c L own → candidate c L x → nodes c !! x = Some nd →
  ∃ v p pd c1 ev, value nd = Some v ∧ length v = length (key nd) ∧ parent nd = Some p ∧ p ∈ L ∧ p ≠ x ∧
    _delete_leaf x c = Some c1 ∧ _record_remove_event x c1 = Some (set_events ev c1) ∧
    cache_ok c1 (L ∖ {[x]}) own ∧ conf c1 = conf c ∧
    nodes c1 !! p = Some pd ∧ (∀ m, access_time c1 m = access_time c m) ∧
    (∀ m k w, m ∈ L → edge (skel c1) m x k w → False) ∧
    (∀ m l k w, m ∈ L → l ≠ x → edge (skel c1) m l k w ↔ edge (skel c) m l k w) ∧
    (∀ m, m ∈ L → lock_of (skel c1) m = lock_of (skel c) m) ∧
    (∀ m, m ≠ p → is_leaf c1 m ↔ is_leaf c m) ∧
    (∀ y, tree_sum (w_slot y) (skel c1) (L ∖ {[x]}) =
       (tree_sum (w_slot y) (skel c) L - Z.of_nat (count_occ Z.eq_dec v y))%Z) ∧
    evictable_size_ c1 = (evictable_size_ c - Z.of_nat (length v))%Z ∧
    protected_size_ c1 = protected_size_ c.
Proof.
  intros OK (HxL & Hxr & (nd' & Hnd' & Hleaf) & Hlock) Hnd.
  assert (nd' = nd) as -> by congruence. clear Hnd'.
  destruct (c_tree _ _ _ OK) as [off TR]. pose proof (skel_Some _ _ _ Hnd) as Hs.
  destruct (ok_node _ _ _ _ _ TR x HxL Hxr)
    as (t & p & sp & v & Ht & Hp & HpL & (pd & Hpd & <-)%skel_lookup & Hin & _ & _ & Hv & Hlv & _).
  assert (t = shape_of nd) as -> by congruence. simpl in Hp, Hin, Hv, Hlv.
  assert (DL : is_del (page_size c) (root_node c) (skel c) L off x p (shape_of nd) (shape_of pd)).
  { split; try done. by apply skel_Some. }
  destruct (del_facts DL) as (_ & Hpx & _).
  unfold lock_of in Hlock. rewrite Hs in Hlock. simpl in Hlock.
  set (c1 := set_sizes (evictable_size_ c - Z.of_nat (length (key nd)))%Z (protected_size_ c)
               (upd_node p (set_children (dict_del (take (page_size c) (key nd)) (children pd))) c)).
  assert (Es : skel c1 = <[p := del_child (take (page_size c) (s_key (shape_of nd))) (shape_of pd)]> (skel c)).
  { apply map_eq. intros m. unfold skel. rewrite lookup_fmap. simpl.
    destruct (decide (m = p)) as [->|]; simplify_map_eq; done. }
  assert (Hrun : _delete_leaf x c = Some c1).
  { unfold _delete_leaf. rewrite Hnd. simpl. rewrite Hp. simpl. rewrite Hpd. simpl.
    rewrite (find_child_key_spec _ (take (page_size c) (key nd))); [done| |done].
    exact (ok_NoDup_children TR p _ HpL (skel_Some _ _ _ Hpd)). }
  assert (Hx1 : nodes c1 !! x = Some nd) by (simpl; by rewrite lookup_alter_ne).
  destruct (remove_event_spec tuple_hash x nd c1 Hx1) as [ev Hev].
  assert (Hown : own x = 0%Z).
  { pose proof (c_locks _ _ _ OK x _ HxL Hxr Hs) as E. simpl in E. rewrite Hlock, Hleaf in E.
    simpl in E. lia. }
  pose proof (del_edge DL) as He. rewrite <- Es in He.
  exists v, p, (set_children (dict_del (take (page_size c) (key nd)) (children pd)) pd), c1, ev.
  split_and!; try done.
  - split; try done.
    + exists off. simpl. rewrite Es. exact (del_ok DL).
    + intros m Hm. apply (c_fresh _ _ _ OK). simpl in Hm. by apply lookup_alter_is_Some in Hm.
    + simpl. rewrite Es. apply (del_locks DL); [done|apply OK].
    + apply OK.
    + intros m Hm. destruct (decide (m = x)) as [->|]; [done|]. apply (c_own_out _ _ _ OK). set_solver.
    + simpl. rewrite Es, (del_sum DL), (c_evictable _ _ _ OK). simpl.
      unfold w_evictable at 3. rewrite Hlock. done.
    + simpl. rewrite Es, (del_sum DL), (c_protected _ _ _ OK). simpl.
      unfold w_protected at 3. rewrite Hlock. simpl. lia.
  - simpl. by rewrite lookup_alter_eq, Hpd.
  - intros m. unfold access_time. simpl. destruct (decide (m = p)) as [->|].
    + by rewrite lookup_alter_eq, Hpd.
    + by rewrite lookup_alter_ne.
  - intros m k w Hm [_ ?]%He; done.
  - intros m l k w Hm Hl. rewrite He by done. naive_solver.
  - intros m Hm. rewrite Es. by rewrite (del_lock_of DL).
  - intros m Hm. unfold is_leaf. simpl. by rewrite lookup_alter_ne.
  - intros y. rewrite Es, (del_sum DL). simpl. by rewrite Hv.
  - simpl. by rewrite Hlv.
Qed.

Lemma set_events_ok ev c L own : cache_ok c L own → cache_ok (set_events ev c) L own.
Proof. by rewrite <- (set_events_same ev c). Qed.

(** The specification of eviction: again and again the unlocked leaf accessed
    longest ago goes; [vs] are the values of the removed nodes. *)
Inductive lru : RadixCache → gset nat → list (list Z) → RadixCache → gset nat → Prop :=
  | lru_nil c L : lru c L [] c L
  | lru_cons c L x nd v c1 c2 vs c' L' :
      candidate c L x →
      (∀ y, candidate c L y → (access_time c x ≤ access_time c y)%Z) →
      nodes c !! x = Some nd → value nd = Some v →
      _delete_leaf x c = Some c1 → _record_remove_event x c1 = Some c2 →
      lru c2 (L ∖ {[x]}) vs c' L' → lru c L (v :: vs) c' L'.

(** What a run of evictions keeps. *)
Record evicted_to c L own (vs : list (list Z)) c' L' : Prop := {
  et_ok : cache_ok c' L' own;
  et_sub : L' ⊆ L;
  et_conf : conf c' = conf c;
  et_locked n : n ∈ L → (0 < lock_of (skel c) n)%Z → n ∈ L';
  et_edge m l k w : m ∈ L' → edge (skel c') m l k w ↔ edge (skel c) m l k w ∧ l ∈ L';
  et_slots y : tree_sum (w_slot y) (skel c) L =
    (tree_sum (w_slot y) (skel c') L' + Z.of_nat (count_occ Z.eq_dec (concat vs) y))%Z;
  et_evictable : evictable_size_ c' = (evictable_size_ c - Z.of_nat (length (concat vs)))%Z;
  et_protected : protected_size_ c' = protected_size_ c
}.

Lemma edge_in_tree c L own m l k w : cache_ok c L own → m ∈ L → edge (skel c) m l k w → l ∈ L.
Proof.
  intros OK Hm He. destruct (c_tree _ _ _ OK) as [off TR]. by destruct (edge_ok TR _ _ _ _ Hm He).
Qed.

Lemma lru_ok c L vs c' L' own : lru c L vs c' L' → cache_ok c L own → evicted_to c L own vs c' L'.
Proof.
  induction 1 as [c L|c L x nd v c1 c2 vs c' L' Hcand Hmin Hnd Hv Hdel Hev Hlru IH]; intros OK.
  { split; try done; [|intros y; simpl; lia|simpl; lia].
    intros m l k w Hm. split; [|by intros [? _]]. intros He. split; [done|]. by eapply edge_in_tree. }
  destruct (delete_step c L own x nd OK Hcand Hnd)
    as (v' & p & pd & c1' & ev & Hv' & Hlv & _ & _ & _ & Hdel' & Hev' & OK1 & Hconf & _ & _ & Hx & He & Hl & _ & Hsl & Hevi & Hpr).
  simplify_eq. destruct (IH (set_events_ok ev _ _ _ OK1)) as [G1 G2 G3 G4 G5 G6 G7 G8].
  destruct Hcand as (HxL & _ & _ & Hlx). split; try done.
  - set_solver.
  - rewrite G3. unfold conf. simpl. congruence.
  - intros n Hn Hpos. apply G4; [|by rewrite Hl].
    apply elem_of_difference. split; [done|]. intros ->%elem_of_singleton. lia.
  - intros m l k w Hm. rewrite G5 by done. change (skel (set_events ev c1)) with (skel c1).
    assert (m ∈ L) by set_solver. destruct (decide (l = x)) as [->|Hne]; [|by rewrite He].
    split; intros [? Hl']; set_solver.
  - intros y. specialize (G6 y). change (skel (set_events ev c1)) with (skel c1) in G6.
    rewrite Hsl in G6. simpl. rewrite count_occ_app. lia.
  - rewrite G7. simpl. rewrite length_app. lia.
  - by rewrite G8.
Qed.

(** The heap of leaves: all the candidates are in it, ordered by access time. *)
Record heap_inv c L (leaves : list nat) : Prop := {
  hi_heap : heap_ok (access_time c) leaves;
  hi_nodup : NoDup leaves;
  hi_leaf n : n ∈ leaves → n ∈ L ∧ is_leaf c n;
  hi_all n : candidate c L n → n ∈ leaves
}.

Lemma heap_ok_ext (f g : nat → Z) h : (∀ n, f n = g n) → heap_ok f h → heap_ok g h.
Proof. intros E H i x y Hi Hs Hx Hy. rewrite <- !E. by eapply H. Qed.

Lemma heap_pop_min c L x leaves leaves' : heap_inv c L leaves →
  heappop (access_time c) leaves = Some (x, leaves') →
  heap_ok (access_time c) leaves' ∧ NoDup leaves' ∧ x ∉ leaves' ∧ x ∈ L ∧ is_leaf c x ∧
  (∀ n, n ∈ leaves ↔ n = x ∨ n ∈ leaves') ∧ length leaves = S (length leaves') ∧
  (∀ y, candidate c L y → (access_time c x ≤ access_time c y)%Z).
Proof.
  intros [H1 H2 H3 H4] Hpop. destruct (heappop_ok _ _ _ _ H1 Hpop) as [H5 H6].
  pose proof (heappop_perm _ _ _ _ Hpop) as Hperm.
  rewrite Hperm in H2. apply NoDup_cons in H2 as [Hx Hnd].
  assert (Hel : ∀ n, n ∈ leaves ↔ n = x ∨ n ∈ leaves') by (intros n; rewrite Hperm; apply elem_of_cons).
  destruct (H3 x) as [? ?]; [apply Hel; by left|].
  split_and!; try done; [by rewrite Hperm|]. intros y Hy. apply H6. by apply H4.
Qed.

Lemma heap_inv_discard c L x leaves leaves' : heap_inv c L leaves →
  heappop (access_time c) leaves = Some (x, leaves') → ¬ candidate c L x → heap_inv c L leaves'.
Proof.
  intros HI Hpop Hx. destruct (heap_pop_min _ _ _ _ _ HI Hpop) as (? & ? & _ & _ & _ & Hel & _).
  destruct HI as [_ _ H3 H4]. split; try done.
  - intros n Hn. apply H3, Hel. by right.
  - intros n Hn. destruct (proj1 (Hel n) (H4 n Hn)) as [->|]; done.
Qed.

(** After removing the top, its parent joins the heap when it has become a leaf. *)
Lemma heap_inv_delete c L own x nd leaves leaves' c1 p pd :
  cache_ok c L own → heap_inv c L leaves → heappop (access_time c) leaves = Some (x, leaves') →
  candidate c L x → nodes c !! x = Some nd → _delete_leaf x c = Some c1 →
  parent nd = Some p → nodes c1 !! p = Some pd →
  heap_inv c1 (L ∖ {[x]})
    match children pd with [] => heappush (access_time c1) leaves' p | _ => leaves' end.
Proof.
  intros OK HI Hpop Hcand Hnd Hdel Hp Hpd.
  destruct (delete_step c L own x nd OK Hcand Hnd)
    as (v & p' & pd' & c1' & ev & _ & _ & Hp' & HpL & Hpx & Hdel' & _ & OK1 & Hconf & Hpd' & Hacc & _ & _ & Hl & Hlf & _).
  simplify_eq.
  destruct (heap_pop_min _ _ _ _ _ HI Hpop) as (Hh & Hnodup & Hxl & _ & _ & Hel & _).
  destruct HI as [_ _ H3 H4].
  assert (Hh1 : heap_ok (access_time c1) leaves') by (eapply heap_ok_ext; [|done]; done).
  assert (Hpl : p ∉ leaves').
  { intros Hin. destruct (H3 p) as [_ (q & Hq & Hc)]; [apply Hel; by right|].
    destruct (c_tree _ _ _ OK) as [off TR]. destruct Hcand as (HxL & Hxr & _).
    destruct (ok_parent TR x _ p HxL Hxr (skel_Some _ _ _ Hnd) Hp) as (_ & _ & _ & sp & Hsp & Hin').
    rewrite (skel_Some _ _ _ Hq) in Hsp. simplify_eq. simpl in Hin'. rewrite Hc in Hin'.
    by apply elem_of_nil in Hin'. }
  assert (Hold : ∀ n, n ∈ leaves' → n ∈ L ∖ {[x]} ∧ is_leaf c1 n).
  { intros n Hn. destruct (H3 n) as [? ?]; [apply Hel; by right|].
    assert (n ≠ x) by congruence. assert (n ≠ p) by congruence.
    split; [set_solver|]. by apply Hlf. }
  assert (Hall : ∀ n, candidate c1 (L ∖ {[x]}) n → n ≠ p → n ∈ leaves').
  { intros n (HnL & Hr & Hleaf & Hlock) Hne. apply elem_of_difference in HnL as [HnL Hnx%not_elem_of_singleton].
    rewrite Hl in Hlock by done.
    destruct (proj1 (Hel n)) as [?|?]; [|done..]. apply H4. split_and!; try done; [congruence|by apply Hlf]. }
  destruct (children pd) as [|y ys] eqn:Hc.
  - pose proof (heappush_perm (access_time c1) leaves' p) as Hpush. split.
    + by apply heappush_ok.
    + rewrite Hpush. by apply NoDup_cons.
    + intros n. rewrite Hpush. intros [->|?]%elem_of_cons; [|by apply Hold].
      split; [set_solver|by exists pd].
    + intros n Hn. rewrite Hpush, elem_of_cons. destruct (decide (n = p)); [by left|right; by apply Hall].
  - split; try done. intros n Hn. apply Hall; [done|]. intros ->.
    destruct Hn as (_ & _ & (q & ? & ?) & _). congruence.
Qed.

Context {A : Type} (free : list Z → A → A).

(** The amount freed: the loop stops as soon as it suffices. *)
Definition stops (num_tokens num_evicted : Z) (vs : list (list Z)) c' : Prop :=
  (num_tokens ≤ num_evicted + Z.of_nat (length (concat vs)) ∨ evictable_size_ c' = 0)%Z ∧
  ∀ vs0 v vs1, vs = vs0 ++ v :: vs1 → (num_evicted + Z.of_nat (length (concat vs0)) < num_tokens)%Z.

Lemma stops_cons num num_evicted v vs c' : (num_evicted < num)%Z →
  stops num (num_evicted + Z.of_nat (length v)) vs c' → stops num num_evicted (v :: vs) c'.
Proof.
  intros Hlt [H1 H2]. split; simpl; rewrite ?length_app.
  - destruct H1; [left; lia|by right].
  - intros [|v0 vs0] w vs1 E; simplify_eq/=; [lia|].
    specialize (H2 vs0 w vs1 eq_refl). rewrite length_app. lia.
Qed.

Lemma evict_loop_spec own num fuel : ∀ num_evicted leaves c a L,
  cache_ok c L own → heap_inv c L leaves → length leaves + size L ≤ fuel →
  ∃ vs c' L', evict_loop tuple_hash free fuel num num_evicted leaves c a =
      Some (c', fold_left (λ a v, free v a) vs a) ∧
    lru c L vs c' L' ∧ stops num num_evicted vs c'.
Proof.
  induction fuel as [|fuel IH]; intros num_evicted leaves c a L OK HI Hf.
  - destruct leaves; [|simpl in Hf; lia]. exists [], c, L. simpl. split_and!; [|constructor|].
    + by case_bool_decide.
    + split; [right|by intros []]. apply (no_candidate_evictable OK). intros x Hx.
      by apply (hi_all _ _ _ HI), elem_of_nil in Hx.
  - assert (Hstop : (num ≤ num_evicted ∨ ∀ x, ¬ candidate c L x)%Z →
      ∃ vs c' L', Some (c, a) = Some (c', fold_left (λ a v, free v a) vs a) ∧
        lru c L vs c' L' ∧ stops num num_evicted vs c').
    { intros Hd. exists [], c, L. split_and!; [done|constructor|]. split; [|by intros []].
      simpl. destruct Hd as [?|?]; [left; lia|right; by apply (no_candidate_evictable OK)]. }
    simpl. case_bool_decide as Hlt; [|apply Hstop; left; lia].
    destruct (heappop (access_time c) leaves) as [[x leaves']|] eqn:Hpop; last first.
    { apply heappop_None in Hpop as ->. apply Hstop. right. intros x Hx.
      by apply (hi_all _ _ _ HI), elem_of_nil in Hx. }
    destruct (heap_pop_min _ _ _ _ _ HI Hpop) as (_ & _ & _ & HxL & Hleaf & _ & Hlen & Hmin).
    case_decide as Hxr.
    { subst x. apply Hstop. right. intros y (HyL & Hyr & _).
      apply Hyr. by eapply (root_leaf_alone OK). }
    destruct Hleaf as (nd & Hnd & Hch). rewrite Hnd. simpl.
    assert (El : lock_of (skel c) x = lock_ref nd) by (unfold lock_of; by rewrite (skel_Some _ _ _ Hnd)).
    pose proof (ok_locks_nonneg OK x HxL Hxr) as Hnn. rewrite El in Hnn.
    case_bool_decide as Hlk.
    { apply IH; [done| |lia]. eapply heap_inv_discard; [done..|].
      intros (_ & _ & _ & ?). lia. }
    assert (Hcand : candidate c L x) by (split_and!; [done..|by exists nd|lia]).
    destruct (delete_step c L own x nd OK Hcand Hnd)
      as (v & p & pd & c1 & ev & Hv & _ & Hp & _ & _ & Hdel & Hev & OK1 & _ & Hpd & _).
    rewrite Hv. simpl. rewrite Hdel. simpl. rewrite Hp. simpl. rewrite Hpd. simpl. rewrite Hev. simpl.
    pose proof (heap_inv_delete c L own x nd leaves leaves' c1 p pd OK HI Hpop Hcand Hnd Hdel Hp Hpd) as HI1.
    set (leaves1 := match children pd with [] => _ | _ => _ end) in *.
    assert (Hlen1 : length leaves1 ≤ S (length leaves')).
    { unfold leaves1. destruct (children pd); [|lia]. by rewrite heappush_perm. }
    assert (HsL : size L = S (size (L ∖ {[x]}))).
    { rewrite <- (visiting_size x) by set_solver. f_equal. by rewrite union_comm_L, difference_union_L, <- union_comm_L, subseteq_union_1_L by set_solver. }
    destruct (IH (num_evicted + Z.of_nat (length v))%Z leaves1 (set_events ev c1) (free v a) (L ∖ {[x]}))
      as (vs & c' & L' & -> & Hlru & Hst); [by apply set_events_ok| |lia|].
    { destruct HI1 as [G1 G2 G3 G4]. split; done. }
    exists (v :: vs), c', L'. split_and!; [done|by eapply lru_cons|by apply stops_cons].
Qed.
End evict.
