(* ===== verification/RadixThms.v ===== *)
(** * The correctness of [RadixCache]

    The operations against the set of cached key/slot pairs ([cached]), the holders
    of nodes and the size counters; every statement also says that the call returns. *)

From S2P Require Import Prelude HeapQ Radix RadixTree RadixUpdate RadixMatch RadixInv RadixSpec RadixLock RadixEvict.

Implicit Types (c : RadixCache) (L : gset nat) (own : nat → Z).

(** [cached c k v]: the tokens [k], from the first on, are stored in the slots [v]. *)
Definition cached c (k v : list Z) : Prop := has (skel c) (root_node c) k v.

(** The number of nodes of the tree that hold the slot [x]. *)
Definition slot_count c L (x : Z) : Z := tree_sum (w_slot x) (skel c) L.

Lemma ok_root_L c L own : cache_ok c L own → root_node c ∈ L.
Proof. intros [[off TR] _ _ _ _ _ _]. apply TR. Qed.

Lemma floor_page ps l : 0 < ps → (ps | l / ps * ps) ∧ l / ps * ps ≤ l.
Proof.
  intros. split; [by apply Nat.divide_factor_r|]. rewrite Nat.mul_comm. apply Nat.Div0.mul_div_le.
Qed.

(** Aligned prefixes of [key] fit in the aligned part of [key]. *)
Lemma floor_page_max ps l i : 0 < ps → (ps | i) → i ≤ l → i ≤ l / ps * ps.
Proof.
  intros Hps [q ->] Hi. apply Nat.mul_le_mono_r. apply Nat.div_le_lower_bound; lia.
Qed.


Lemma fresh_ok clock c : 0 < page_size c → (∀ n, is_Some (nodes c !! n) → n < counter c) →
  cache_ok (reset clock c) {[root_node (reset clock c)]} (λ _, 0%Z) ∧
  (∀ k v, cached (reset clock c) k v → k = []) ∧ page_size (reset clock c) = page_size c ∧
  disable (reset clock c) = disable c.
Proof.
  intros Hps Hfresh.
  set (rd := MkNode [] None [] (Some []) 1 (clock (ticks c)) 0 false None).
  assert (E : nodes (reset clock c) = <[counter c := rd]> (nodes c) ∧
              root_node (reset clock c) = counter c ∧ counter (reset clock c) = S (counter c) ∧
              page_size (reset clock c) = page_size c ∧ disable (reset clock c) = disable c ∧
              evictable_size_ (reset clock c) = 0%Z ∧ protected_size_ (reset clock c) = 0%Z).
  { unfold reset. simpl. unfold _record_all_cleared_event. simpl.
    destruct (enable_kv_cache_events c); simpl; split_and!; try done; by rewrite alter_insert_eq. }
  destruct E as (En & Er & Ec & Ep & Ed & Ee & Epr).
  set (c' := reset clock c) in *. clearbody c'.
  assert (Hs : skel c' !! counter c = Some (shape_of rd)).
  { apply skel_Some. by rewrite En, lookup_insert_eq. }
  split_and!; [|intros k v Hc|done..].
  - split; rewrite ?Er, ?Ec, ?Ep, ?Ee, ?Epr; try done.
    + exists (λ _, 0). split; try done.
      * by eexists.
      * by apply elem_of_singleton.
      * intros n s ->%elem_of_singleton Hn. simplify_eq. split; [constructor|].
        by intros ck m ?%elem_of_nil.
      * by intros n ->%elem_of_singleton.
    + intros n. rewrite En, lookup_insert_is_Some. intros [->|[_ Hn]]; [lia|].
      apply Hfresh in Hn. lia.
    + by intros n s ->%elem_of_singleton.
    + unfold tree_sum, set_zsum. rewrite elements_singleton. simpl. unfold wt. by rewrite Hs.
    + unfold tree_sum, set_zsum. rewrite elements_singleton. simpl. unfold wt. by rewrite Hs.
  - unfold cached in Hc. rewrite Er in Hc.
    assert (Hno : ∀ m kk ww, edge (skel c') (counter c) m kk ww → False).
    { intros m kk ww (s & ck & t & Hs' & Hin & _). simplify_eq. simpl in Hin. by apply elem_of_nil in Hin. }
    inversion Hc; subst; [done|..]; exfalso; eauto.
Qed.

(** A page-aligned key is cached in one place only. *)
Lemma has_unique ps r T L off n k v v' : tree_ok ps r T L off → n ∈ L → (ps | length k) →
  has T n k v → has T n k v' → v = v'.
Proof.
  intros TR Hn Hd Hh. revert v' Hn Hd.
  induction Hh as [n|n m kk ww k He Hk|n m kk ww k v He Hh IH]; intros v' Hn Hd Hh'.
  - by apply (has_length TR) in Hh'; [apply nil_length_inv in Hh' as ->|].
  - destruct (decide (k = [])) as [->|Hne].
    { by apply (has_length TR) in Hh'; [apply nil_length_inv in Hh' as ->|]. }
    assert (Hpage : take ps kk = take ps k).
    { destruct Hk as [k1 ->]. by rewrite take_app_le by (by apply page_le). }
    destruct (edge_ok TR _ _ _ _ Hn He) as (HmL & _ & Hkk & Hdk & Hlw & _).
    inversion Hh' as [|? m' kk' ww' ? He' Hk'|? m' kk' ww' k' v'' He' Hh'']; subst; [done|..].
    + destruct (edge_inj TR _ _ _ _ _ _ _ Hn He He') as (<- & <- & <-); [|done].
      rewrite Hpage. destruct Hk' as [k1 ->]. by rewrite take_app_le by (by apply page_le).
    + destruct (edge_ok TR _ _ _ _ Hn He') as (_ & _ & Hkk' & Hdk' & _).
      rewrite take_app_le in Hpage by (by apply page_le).
      destruct (edge_inj TR _ _ _ _ _ _ _ Hn He He' Hpage) as (<- & <- & <-).
      assert (k' = []) as ->.
      { apply prefix_length in Hk. rewrite length_app in Hk. destruct k'; [done|simpl in Hk; lia]. }
      apply (has_length TR) in Hh''; [|done]. apply nil_length_inv in Hh'' as ->.
      by rewrite !app_nil_r, take_ge by lia.
  - destruct (edge_ok TR _ _ _ _ Hn He) as (HmL & _ & Hkk & Hdk & Hlw & _).
    assert (Hdk2 : (ps | length k)).
    { rewrite length_app in Hd. replace (length k) with (length kk + length k - length kk) by lia.
      by apply Nat.divide_sub_r. }
    remember (kk ++ k) as k0 eqn:Hk0.
    inversion Hh' as [|? m' kk' ww' ? He' Hk'|? m' kk' ww' k' v'' He' Hh'']; subst.
    + by destruct kk.
    + assert (Hpage : take ps kk = take ps kk').
      { destruct Hk' as [k1 ->]. by rewrite <- app_assoc, take_app_le by (by apply page_le). }
      destruct (edge_inj TR _ _ _ _ _ _ _ Hn He He' Hpage) as (<- & <- & <-).
      assert (k = []) as ->.
      { apply prefix_length in Hk'. rewrite length_app in Hk'. destruct k; [done|simpl in Hk'; lia]. }
      apply (has_length TR) in Hh; [|done]. apply nil_length_inv in Hh as ->.
      by rewrite !app_nil_r, take_ge by lia.
    + destruct (edge_ok TR _ _ _ _ Hn He') as (_ & _ & Hkk' & Hdk' & _).
      assert (Hpage : take ps kk = take ps kk').
      { rewrite <- (take_app_le kk' k') by (by apply page_le). rewrite H0.
        by rewrite take_app_le by (by apply page_le). }
      destruct (edge_inj TR _ _ _ _ _ _ _ Hn He He' Hpage) as (<- & <- & <-).
      apply app_inv_head in H0 as ->. f_equal. by apply IH.
Qed.

Section radix.
Context (clock : nat → Z) (tuple_hash : list Z → Z).

Local Abbreviation match_prefix := (match_prefix clock tuple_hash).
Local Abbreviation insert := (insert clock tuple_hash).
Local Abbreviation evict := (evict tuple_hash).

(** [n] is the node of the tree that ends after the tokens [k], stored in [v]. *)
Definition ends_at c (n : nat) (k v : list Z) : Prop := path (skel c) (root_node c) n k v.

(** No more than [j] tokens of [key] are cached in whole pages. *)
Definition longest_cached c (key_ : list Z) (j : nat) : Prop :=
  ∀ k v, cached c k v → k `prefix_of` key_ → (page_size c | length k) → length k ≤ j.

Definition same_cached c c' : Prop := ∀ k v, cached c' k v ↔ cached c k v.

Lemma match_helper_ok c L own key_ :
  cache_ok c L own → key_ ≠ [] → disable c = false →
  ∃ v n c' L', match_prefix key_ c = Some (v, n, c') ∧
    cache_ok c' L' own ∧ same_content c L c' L' ∧ n ∈ L' ∧ length v ≤ length key_ ∧
    ends_at c' n (take (length v) key_) v ∧ longest_cached c key_ (length v).
Proof.
  intros OK Hne Hdis. destruct (c_tree _ _ _ OK) as [off TR].
  pose proof (ok_ps _ _ _ _ _ TR) as Hps. unfold Radix.match_prefix. rewrite Hdis.
  rewrite bool_decide_eq_false_2 by (destruct key_; done). simpl.
  set (key' := if decide (page_size c = 1) then key_ else _).
  assert (Hk : key' `prefix_of` key_ ∧ (page_size c | length key') ∧
    (page_size c = 1 → key' = key_) ∧
    ∀ k : list Z, k `prefix_of` key_ → (page_size c | length k) → k `prefix_of` key').
  { unfold key'. destruct (floor_page (page_size c) (length key_) Hps) as [Hd Hle].
    case_decide as E; [rewrite E; split_and!; [done|apply Nat.divide_1_l|done..]|].
    split_and!; [apply take_prefix_of|by rewrite length_take, Nat.min_l by done|done|].
    intros k Hk Hdk. apply prefix_length in Hk as Hl.
    pose proof (floor_page_max (page_size c) _ _ Hps Hdk Hl).
    rewrite (prefix_take k key_ Hk).
    exists (take (length key_ / page_size c * page_size c - length k) (drop (length k) key_)).
    rewrite take_app_take_drop. f_equal. lia. }
  clearbody key'. destruct Hk as (Hpre & Hdiv & H1 & Hmax).
  assert (∃ ck, get_child_key_fn (page_size c) key' = Some ck ∧ (key' ≠ [] → ck = take (page_size c) key'))
    as (ck & Hck & Hck').
  { destruct key' as [|x key']; [|exists (take (page_size c) (x :: key')); by rewrite get_child_key_ok].
    exists []. split; [|done]. unfold get_child_key_fn. case_decide; [by rewrite <- H1 in Hne|].
    by rewrite take_nil. }
  unfold _match_prefix_helper. rewrite Hck. cbn [mbind option_bind].
  destruct (match_loop_spec clock tuple_hash own (S (length key')) (root_node c) key' ck []
              (touch clock (root_node c) c) L)
    as (vs & n & c' & L' & -> & OK' & SC & Hn & Hle & Hp & Hl); try done; try lia.
  { by apply touch_ok. } { by eapply ok_root_L. }
  simpl. exists (concat vs), n, c', L'. pose proof (prefix_length _ _ Hpre).
  assert (SC0 : same_content c L c' L').
  { eapply same_content_trans; [apply (touch_content clock (root_node c))|done]. }
  destruct (same_content_ps _ _ _ _ SC0) as (_ & Er & _).
  split_and!; try done; [lia| |].
  - unfold ends_at. rewrite Er. destruct Hpre as [k1 ->]. by rewrite take_app_le.
  - intros k v Hc Hk Hd. eapply Hl; [|by apply Hmax|done].
    apply (sc_has _ _ _ _ (touch_content clock (root_node c) c L)); [by eapply ok_root_L|done].
Qed.

(** The same for any key. *)
Lemma match_ok c L own key_ : cache_ok c L own → disable c = false →
  ∃ v n c' L', match_prefix key_ c = Some (v, n, c') ∧
    cache_ok c' L' own ∧ same_content c L c' L' ∧ n ∈ L' ∧ length v ≤ length key_ ∧
    ends_at c' n (take (length v) key_) v ∧ longest_cached c key_ (length v).
Proof.
  intros OK Hdis. destruct (decide (key_ = [])) as [->|Hne]; [|by apply match_helper_ok].
  exists [], (root_node c), c, L. unfold Radix.match_prefix.
  rewrite (bool_decide_eq_true_2 (length [] = 0)), orb_true_r by done. simpl.
  split_and!; try done; first [by eapply ok_root_L | constructor | idtac].
  intros k v _ ->%prefix_nil_inv _. done.
Qed.

Lemma insert_ok c L own key_ value_ :
  cache_ok c L own → disable c = false → (page_size c | length key_) →
  length value_ = length key_ →
  ∃ j cv c' L', insert key_ (Some value_) c = Some (j, c') ∧
    cache_ok c' L' own ∧ extends c L c' L' ∧ j ≤ length key_ ∧ (page_size c | j) ∧
    length cv = j ∧ cached c (take j key_) cv ∧ longest_cached c key_ j ∧
    (∀ k v, cached c' k v ↔ cached c k v ∨
       k `prefix_of` key_ ∧ v = take (length k) (cv ++ drop j value_)) ∧
    (∀ x, slot_count c' L' x = (slot_count c L x + Z.of_nat (count_occ Z.eq_dec (drop j value_) x))%Z) ∧
    evictable_size_ c' = (evictable_size_ c + Z.of_nat (length key_ - j))%Z ∧
    protected_size_ c' = protected_size_ c.
Proof.
  intros OK Hdis Hdiv Hlv. unfold Radix.insert. rewrite Hdis. simpl.
  set (c0 := touch clock (root_node c) c).
  pose proof (touch_ok clock (root_node c) c L own OK) as OK0.
  pose proof (ok_root_L _ _ _ OK) as HrL.
  assert (Hrun : ∃ j c', _insert_helper clock tuple_hash (root_node c) key_ value_ c = Some (j, c') ∧
            inserted c0 L own (root_node c) key_ value_ j c').
  { unfold _insert_helper. fold c0. destruct key_ as [|x key_].
    { exists 0, c0. split; [done|]. exists c0, L, (root_node c), [].
      split_and!; try done; [constructor| |by constructor].
      by intros k v _ ->%prefix_nil_inv _. }
    rewrite get_child_key_ok by done. simpl.
    edestruct (insert_loop_spec clock tuple_hash own (S (S (length key_))) (root_node c)
                (x :: key_) value_ (take (page_size c) (x :: key_)) 0 c0 L) as (j & c' & Hr & HI);
      try done; [by simpl; lia|]. by exists j, c'. }
  destruct Hrun as (j & c' & -> & c1 & L1 & n & cv & OK1 & SC & HnL & Hj & Hdj & Hp & Hl & Ha).
  assert (SC0 : same_content c L c1 L1).
  { eapply same_content_trans; [apply (touch_content clock (root_node c))|done]. }
  destruct (added_ok clock tuple_hash _ _ _ _ _ _ _ OK1 Ha) as (L' & OK' & EX & Hhas & Hsl & Hev & Hpr).
  destruct (c_tree _ _ _ OK1) as [off TR].
  pose proof (ex_sub _ _ _ _ (sc_ext _ _ _ _ SC0) _ HrL) as HrL1.
  destruct (path_ok TR _ _ _ _ HrL1 Hp) as (_ & _ & Hlcv & _).
  rewrite length_take, Nat.min_l in Hlcv by done.
  destruct (same_content_ps _ _ _ _ SC0) as (_ & Er & _).
  assert (Er' : root_node c' = root_node c).
  { pose proof (ex_conf _ _ _ _ EX) as E. unfold conf in E. congruence. }
  assert (Hc1 : ∀ k v, has (skel c1) (root_node c) k v ↔ cached c k v).
  { intros k v. by apply (sc_has _ _ _ _ SC0). }
  exists j, cv, c', L'. split_and!; try done.
  - eapply extends_trans; [apply SC0|done].
  - apply Hc1. by eapply path_has.
  - intros k v Hc Hk Hd. eapply Hl; [|done..].
    by apply (sc_has _ _ _ _ (touch_content clock (root_node c) c L)).
  - intros k v. unfold cached at 1. rewrite Er', Hhas, Hc1 by done. split.
    + intros [?|(Hne & k1 & v1 & k2 & Hp1 & Hk2 & -> & ->)]; [by left|right].
      destruct (path_unique TR _ _ _ _ _ _ HrL1 Hp1 Hp) as [-> ->]. split.
      * rewrite <- (take_drop j key_) at 2. by apply prefix_app.
      * rewrite length_app, length_take, Nat.min_l by done. subst j.
        by rewrite take_app_add.
    + intros [?|[Hk ->]]; [by left|]. pose proof (prefix_length _ _ Hk).
      destruct (decide (length k ≤ j)) as [Hle|Hgt].
      * left. rewrite take_app_le by lia. apply Hc1. eapply (has_prefix TR); [done|by eapply path_has|].
        rewrite (prefix_take k key_ Hk). exists (take (j - length k) (drop (length k) key_)).
        rewrite take_app_take_drop. f_equal. lia.
      * right. assert (Ek : k = take j key_ ++ drop j k).
        { rewrite <- (take_drop j k) at 1. f_equal.
          rewrite (prefix_take k key_ Hk), take_take. f_equal. lia. }
        split; [intros E%(f_equal length); rewrite length_drop in E; simpl in E; lia|].
        exists (take j key_), cv, (drop j k). split_and!; [done| |done|].
        -- apply (prefix_app_inv (take j key_)). by rewrite take_drop, <- Ek.
        -- rewrite length_drop. subst j.
           replace (length k) with (length cv + (length k - length cv)) at 1 by lia.
           by rewrite take_app_add.
  - intros x. unfold slot_count. rewrite Hsl, (sc_slots _ _ _ _ SC0); [done|]. rewrite !length_drop. lia.
  - rewrite Hev, (sc_evictable _ _ _ _ SC0), length_drop. done.
  - by rewrite Hpr, (sc_protected _ _ _ _ SC0).
Qed.

(** ** Matching and inserting *)

(** C13: [match_prefix] always returns; its slots are those of the longest cached prefix
    of the key made of whole pages, its node ends exactly there, and neither the
    cached pairs, the slots in the tree nor the two size counters change, although
    the call may split a node. *)
Theorem match_prefix_correct c L own key_ :
  cache_ok c L own → disable c = false →
  ∃ v n c' L', match_prefix key_ c = Some (v, n, c') ∧ cache_ok c' L' own ∧
    n ∈ L' ∧ length v ≤ length key_ ∧ (page_size c | length v) ∧
    ends_at c' n (take (length v) key_) v ∧ longest_cached c key_ (length v) ∧
    same_cached c c' ∧ (∀ x, slot_count c' L' x = slot_count c L x) ∧
    evictable_size c' = evictable_size c ∧ protected_size c' = protected_size c.
Proof.
  intros OK Hdis.
  destruct (match_ok c L own key_ OK Hdis) as (v & n & c' & L' & Hr & OK' & SC & Hn & Hl & He & Hm).
  destruct (same_content_ps _ _ _ _ SC) as (Ep & Er & _).
  assert (Hsame : same_cached c c').
  { intros k w. unfold cached. rewrite Er. apply (sc_has _ _ _ _ SC). by eapply ok_root_L. }
  assert (Hdv : (page_size c | length v)).
  { destruct (c_tree _ _ _ OK') as [off TR].
    destruct (path_ok TR _ _ _ _ (ok_root_L _ _ _ OK') He) as (_ & Hd & Hlv & _).
    congruence. }
  exists v, n, c', L'. split_and!; try done; apply SC.
Qed.

(** C14: [insert] of a page-aligned key always returns; the number it returns is the
    length of the longest cached prefix; afterwards exactly the prefixes of the key
    are cached in addition, the old part in its old slots and the rest in the new
    ones; the slots entering the tree are those after that prefix, each once more,
    and the evictable size grows by their number. *)
Theorem insert_correct c L own key_ value_ :
  cache_ok c L own → disable c = false → (page_size c | length key_) →
  length value_ = length key_ →
  ∃ j cv c' L', insert key_ (Some value_) c = Some (j, c') ∧ cache_ok c' L' own ∧ L ⊆ L' ∧
    j ≤ length key_ ∧ longest_cached c key_ j ∧ cached c (take j key_) cv ∧ length cv = j ∧
    (∀ k v, cached c' k v ↔ cached c k v ∨
       k `prefix_of` key_ ∧ v = take (length k) (cv ++ drop j value_)) ∧
    (∀ x, slot_count c' L' x =
       (slot_count c L x + Z.of_nat (count_occ Z.eq_dec (drop j value_) x))%Z) ∧
    evictable_size c' = (evictable_size c + Z.of_nat (length key_ - j))%Z ∧
    protected_size c' = protected_size c.
Proof.
  intros OK Hdis Hdiv Hlv. destruct (insert_ok c L own key_ value_ OK Hdis Hdiv Hlv)
    as (j & cv & c' & L' & ? & ? & EX & ? & ? & ? & ? & ? & ? & ? & ? & ?).
  exists j, cv, c', L'. split_and!; try done. apply EX.
Qed.

(** C16: after [insert] the same key is matched in full: [match_prefix] returns the slots
    that were cached for it before, followed by the inserted slots for the rest, and
    ends at the key's own node. *)
Theorem insert_match_roundtrip c L own key_ value_ :
  cache_ok c L own → disable c = false → (page_size c | length key_) →
  length value_ = length key_ → key_ ≠ [] →
  ∃ j cv c1 n c2, insert key_ (Some value_) c = Some (j, c1) ∧
    cached c (take j key_) cv ∧ length cv = j ∧
    match_prefix key_ c1 = Some (cv ++ drop j value_, n, c2) ∧
    ends_at c2 n key_ (cv ++ drop j value_).
Proof.
  intros OK Hdis Hdiv Hlv Hne. destruct (insert_ok c L own key_ value_ OK Hdis Hdiv Hlv)
    as (j & cv & c1 & L1 & Hr & OK1 & EX & Hj & Hdj & Hcv & Hc & Hl & Hiff & _).
  pose proof (ex_conf _ _ _ _ EX) as Econf. unfold conf in Econf. injection Econf as _ Ep Ed _.
  rewrite <- Ed in Hdis.
  destruct (match_helper_ok c1 L1 own key_ OK1 Hne Hdis) as (v & n & c2 & L2 & Hm & OK2 & SC & _ & Hlen & He & Hmax).
  assert (Hfull : cached c1 key_ (cv ++ drop j value_)).
  { apply Hiff. right. split; [done|]. rewrite take_ge; [done|]. rewrite length_app, length_drop. lia. }
  assert (Hlv' : length v = length key_).
  { pose proof (Hmax key_ _ Hfull ltac:(done) ltac:(by rewrite Ep)). lia. }
  destruct (c_tree _ _ _ OK1) as [off1 TR1]. pose proof (ok_root_L _ _ _ OK1) as Hr1.
  rewrite Hlv', take_ge in He by lia.
  assert (v = cv ++ drop j value_) as ->.
  { destruct (same_content_ps _ _ _ _ SC) as (_ & Er & _).
    eapply (has_unique _ _ _ _ _ _ key_); [done|done|by rewrite Ep| |done].
    apply (sc_has _ _ _ _ SC); [done|]. unfold ends_at in He. rewrite Er in He. by eapply path_has. }
  by exists j, cv, c1, n, c2.
Qed.

(** ** Locks *)

(** [d] more holders of [n]. *)
Definition hold own (n : nat) (d : Z) : nat → Z :=
  λ m, if decide (m = n) then (own m + d)%Z else own m.

Lemma lock_ref_ok up c L own n : cache_ok c L own → n ∈ L → (up = false → (1 ≤ own n)%Z) →
  ∃ d c', lock_loop up (S (size (nodes c))) n 0 c = Some (d, c') ∧
    cache_ok c' L (hold own n (step up)) ∧ same_keys c L c' ∧
    evictable_size_ c' = (evictable_size_ c + d)%Z ∧
    ((if up then 1 else 2) ≤ own n → d = 0)%Z.
Proof.
  intros OK Hn Hdec. destruct (cache_walk_ok _ _ _ OK) as [off W].
  pose proof (depth_fuel _ _ _ _ n W) as Hf.
  assert (W0 : walk_ok c L off (moved own n n (step up))).
  { destruct W as [H1 H2 H3 H4 H5 H6]. split; try done. intros m s Hm Hr Hs.
    rewrite (H3 m s Hm Hr Hs). unfold moved. lia. }
  destruct (lock_loop_spec up own L off n _ n 0 c (c_own _ _ _ OK) Hdec W0 Hn Hf)
    as (d & c' & Hrun & W' & SK & Hev & Hz).
  exists d, c'. unfold hold, step in *. split_and!; try done.
  2: { intros Hown. apply Hz. destruct (decide (n = root_node c)) as [->|Hr]; [by left|right].
       destruct (ok_node_lookup OK n Hn) as [nd Hnd]. unfold lock_of. rewrite (skel_Some _ _ _ Hnd). simpl.
       pose proof (walk_lock_ge _ _ _ _ _ _ _ W Hn Hr Hnd Hown). destruct up; lia. }
  apply (walk_cache_ok _ _ _ _ _ W').
  - intros m. pose proof (c_own _ _ _ OK m). case_decide as E; [|done]. subst m. destruct up; [lia|].
    specialize (Hdec eq_refl). lia.
  - intros m Hm. rewrite decide_False by congruence. by apply OK.
  - intros m Hm. unfold moved. rewrite (decide_False (P := m = root_node c')) by done.
    case_decide; lia.
Qed.

(** C17: [inc_lock_ref] on any node of the tree returns, adds one holder of the node
    (so every node above it is locked once more, and its tokens are protected), moves
    the tokens it locks from the evictable to the protected size, and returns that
    change; the cached pairs stay. *)
Theorem inc_lock_ref_correct c L own n :
  cache_ok c L own → disable c = false → n ∈ L →
  ∃ d c', inc_lock_ref n c = Some (d, c') ∧ cache_ok c' L (hold own n 1) ∧ same_cached c c' ∧
    evictable_size c' = (evictable_size c + d)%Z ∧
    protected_size c' = (protected_size c - d)%Z ∧
    (n ≠ root_node c → (0 < lock_of (skel c') n)%Z).
Proof.
  intros OK Hdis Hn. unfold inc_lock_ref. rewrite Hdis.
  destruct (lock_ref_ok true c L own n OK Hn ltac:(done)) as (d & c' & -> & OK' & SK & Hev & _).
  pose proof (sk_sizes _ _ _ SK). pose proof (sk_conf _ _ _ SK) as E. unfold conf in E. injection E as Er _.
  exists d, c'. unfold evictable_size, protected_size. split_and!; try done; [| lia|].
  - intros k v. unfold cached. rewrite Er. by eapply same_keys_has.
  - intros Hr. rewrite <- Er in Hr. destruct (ok_node_lookup OK' n Hn) as [nd Hnd].
    destruct (cache_walk_ok _ _ _ OK') as [off W'].
    pose proof (c_own _ _ _ OK n). unfold lock_of. rewrite (skel_Some _ _ _ Hnd). simpl.
    enough (1 ≤ lock_ref nd)%Z by lia. eapply walk_lock_ge; [done..|].
    unfold hold, step. rewrite decide_True by done. lia.
Qed.

(** [dec_lock_ref] on a node with a holder returns, removes one holder, gives the
    tokens that nobody holds any more back to the evictable size and returns their
    number; the cached pairs stay. *)
Theorem dec_lock_ref_correct c L own n :
  cache_ok c L own → disable c = false → n ∈ L → (1 ≤ own n)%Z →
  ∃ d c', dec_lock_ref n c = Some (d, c') ∧ cache_ok c' L (hold own n (-1)) ∧ same_cached c c' ∧
    evictable_size c' = (evictable_size c + d)%Z ∧
    protected_size c' = (protected_size c - d)%Z.
Proof.
  intros OK Hdis Hn Hown. unfold dec_lock_ref. rewrite Hdis.
  destruct (lock_ref_ok false c L own n OK Hn ltac:(done)) as (d & c' & -> & OK' & SK & Hev & _).
  pose proof (sk_sizes _ _ _ SK). pose proof (sk_conf _ _ _ SK) as E. unfold conf in E. injection E as Er _.
  exists d, c'. unfold evictable_size, protected_size. split_and!; try done; [|lia].
  intros k v. unfold cached. rewrite Er. by eapply same_keys_has.
Qed.

(** ** Sizes and eviction *)

(** C18: the two size counters add up to the tokens stored in the tree, as
    [total_size] counts them by a traversal, and [_collect_leaves] lists the childless
    nodes, each once. *)
Theorem sizes_and_leaves_correct c L own : cache_ok c L own →
  total_size c = Some (evictable_size c + protected_size c)%Z ∧
  ∃ ls, _collect_leaves c = Some ls ∧ NoDup ls ∧ ∀ n, n ∈ ls ↔ n ∈ L ∧ is_leaf c n.
Proof.
  intros OK. destruct (c_tree _ _ _ OK) as [off TR]. pose proof (ok_size_nodes _ _ _ OK).
  pose proof (visiting_init TR) as VI. split.
  - unfold total_size, _total_size_helper, evictable_size, protected_size.
    rewrite (total_loop_spec c L own _ _ ∅), (c_evictable _ _ _ OK), (c_protected _ _ _ OK); try done; try lia.
    f_equal. unfold tree_sum. rewrite <- set_zsum_add. apply set_zsum_ext. intros n _.
    unfold wt, w_total, w_evictable, w_protected. destruct (skel c !! n); [|done]. case_decide; lia.
  - apply (collect_loop_spec c L own _ _ ∅); try done; try lia; [constructor|].
    intros n. split; [by intros ?%elem_of_nil|]. by intros [?%elem_of_empty _].
Qed.

Context {A : Type} (free : list Z → A → A).

Lemma evict_ok c L own num_tokens (a : A) :
  cache_ok c L own → disable c = false →
  ∃ vs c' L', evict free num_tokens c a = Some (c', fold_left (λ a v, free v a) vs a) ∧
    lru tuple_hash c L vs c' L' ∧ evicted_to c L own vs c' L' ∧ stops num_tokens 0 vs c'.
Proof.
  intros OK Hdis. destruct (c_tree _ _ _ OK) as [off TR]. pose proof (ok_size_nodes _ _ _ OK).
  unfold Radix.evict, _collect_leaves. rewrite Hdis.
  destruct (collect_loop_spec c L own (size (nodes c)) [root_node c] ∅ [] OK (visiting_init TR))
    as (ls & -> & Hnd & Hls); [lia|constructor| |].
  { intros n. split; [by intros ?%elem_of_nil|]. by intros [?%elem_of_empty _]. }
  simpl. destruct (evict_loop_spec tuple_hash free own num_tokens (length ls + size (nodes c)) 0
                     (heapify (access_time c) ls) c a L OK) as (vs & c' & L' & Hrun & Hlru & Hst).
  - split; [apply heapify_ok|by rewrite heapify_perm| |]; intros n; rewrite heapify_perm, Hls; [done|].
    intros (? & _ & ? & _). done.
  - rewrite heapify_perm. lia.
  - exists vs, c', L'. split_and!; try done. by eapply lru_ok.
Qed.

(** C15: [evict] returns; it removes unlocked leaves, at each step the one accessed
    longest ago, and hands their slots to the allocator; it stops as soon as
    [num_tokens] tokens are freed, and frees fewer only if no unlocked token is left.
    Locked nodes stay, the other cached paths stay, the freed slots are exactly those
    that left the tree, and the evictable size drops by their number. *)
Theorem evict_correct c L own num_tokens (a : A) :
  cache_ok c L own → disable c = false →
  ∃ vs c' L', evict free num_tokens c a = Some (c', fold_left (λ a v, free v a) vs a) ∧
    lru tuple_hash c L vs c' L' ∧ evicted_to c L own vs c' L' ∧ stops num_tokens 0 vs c'.
Proof. exact (evict_ok c L own num_tokens a). Qed.
End radix.

(** ** Instances

    A cache of two-token pages with the key [1; 2; 3; 4] in the slots [11] to [14]. *)

Definition ex_clock : nat → Z := Z.of_nat.
Definition ex_hash : list Z → Z := λ _, 0%Z.
Definition ex_empty : RadixCache := new_RadixCache ex_clock 2 false true.
Definition ex_cache : RadixCache :=
  match insert ex_clock ex_hash [1; 2; 3; 4]%Z (Some [11; 12; 13; 14]%Z) ex_empty with
  | Some (_, c) => c
  | None => ex_empty
  end.

Lemma ex_empty_ok : cache_ok ex_empty {[root_node ex_empty]} (λ _, 0%Z).
Proof. apply fresh_ok; [simpl; lia|]. intros n [? Hn]. done. Qed.

Lemma ex_cache_ok : ∃ L, cache_ok ex_cache L (λ _, 0%Z) ∧ 1 ∈ L.
Proof.
  destruct (insert_ok ex_clock ex_hash ex_empty _ (λ _, 0%Z) [1; 2; 3; 4]%Z [11; 12; 13; 14]%Z
              ex_empty_ok eq_refl) as (j & cv & c' & L' & Hr & OK & EX & _).
  { by exists 2. } { done. }
  vm_compute in Hr. injection Hr as <- <-. exists L'.
  split; [exact OK|]. destruct (c_tree _ _ _ OK) as [off TR].
  eapply (ok_child TR 0); [apply TR|vm_compute; reflexivity|]. simpl. left.
Qed.

Lemma match_prefix_correct_witness : ∃ L v n c' L',
  match_prefix ex_clock ex_hash [1; 2; 3; 9]%Z ex_cache = Some (v, n, c') ∧
  cache_ok ex_cache L (λ _, 0%Z) ∧ cache_ok c' L' (λ _, 0%Z) ∧
  longest_cached ex_cache [1; 2; 3; 9]%Z (length v) ∧ v = [11; 12]%Z.
Proof.
  destruct ex_cache_ok as (L & OK & _). exists L.
  destruct (match_prefix_correct ex_clock ex_hash ex_cache L (λ _, 0%Z) [1; 2; 3; 9]%Z OK eq_refl)
    as (v & n & c' & L' & Hr & OK' & _ & _ & _ & _ & Hl & _).
  exists v, n, c', L'. split_and!; try done. vm_compute in Hr. by injection Hr as <- _ _.
Defined.

Lemma insert_correct_witness : ∃ L j c' L',
  insert ex_clock ex_hash [1; 2; 5; 6]%Z (Some [0; 0; 15; 16]%Z) ex_cache = Some (j, c') ∧
  cache_ok ex_cache L (λ _, 0%Z) ∧ cache_ok c' L' (λ _, 0%Z) ∧ j = 2 ∧ evictable_size c' = 6%Z.
Proof.
  destruct ex_cache_ok as (L & OK & _). exists L.
  destruct (insert_correct ex_clock ex_hash ex_cache L (λ _, 0%Z) [1; 2; 5; 6]%Z [0; 0; 15; 16]%Z OK eq_refl)
    as (j & cv & c' & L' & Hr & OK' & _); [by exists 2|done|].
  exists j, c', L'. split_and!; try done; vm_compute in Hr; by injection Hr as <- <-.
Defined.

Lemma insert_match_roundtrip_witness : ∃ j cv c1 n c2,
  insert ex_clock ex_hash [1; 2; 5; 6]%Z (Some [0; 0; 15; 16]%Z) ex_cache = Some (j, c1) ∧
  match_prefix ex_clock ex_hash [1; 2; 5; 6]%Z c1 = Some (cv ++ drop j [0; 0; 15; 16]%Z, n, c2).
Proof.
  destruct ex_cache_ok as (L & OK & _).
  destruct (insert_match_roundtrip ex_clock ex_hash ex_cache L (λ _, 0%Z) [1; 2; 5; 6]%Z
              [0; 0; 15; 16]%Z OK eq_refl) as (j & cv & c1 & n & c2 & H1 & _ & _ & H2 & _);
    [by exists 2|done..|]. by exists j, cv, c1, n, c2.
Defined.

Lemma inc_lock_ref_correct_witness : ∃ L d c',
  inc_lock_ref 1 ex_cache = Some (d, c') ∧ cache_ok c' L (hold (λ _, 0%Z) 1 1) ∧ d = (-4)%Z.
Proof.
  destruct ex_cache_ok as (L & OK & H1). exists L.
  destruct (inc_lock_ref_correct ex_cache L (λ _, 0%Z) 1 OK eq_refl H1) as (d & c' & Hr & OK' & _).
  exists d, c'. split_and!; [done..|]. vm_compute in Hr. by injection Hr as <- _.
Defined.

Lemma dec_lock_ref_correct_witness : ∃ L c1 d c',
  cache_ok c1 L (hold (λ _, 0%Z) 1 1) ∧ dec_lock_ref 1 c1 = Some (d, c') ∧
  cache_ok c' L (hold (hold (λ _, 0%Z) 1 1) 1 (-1)) ∧ evictable_size c' = (evictable_size c1 + d)%Z.
Proof.
  destruct ex_cache_ok as (L & OK & H1). exists L.
  destruct (lock_ref_ok true ex_cache L (λ _, 0%Z) 1 OK H1) as (d & c1 & Hr & OK1 & SK & _); [done|].
  exists c1. pose proof (sk_conf _ _ _ SK) as E. unfold conf in E. injection E as _ _ Ed _.
  destruct (dec_lock_ref_correct c1 L _ 1 OK1 Ed H1) as (d' & c' & Hr' & OK' & _ & He & _); [done|].
  by exists d', c'.
Defined.

Lemma sizes_and_leaves_correct_witness :
  total_size ex_cache = Some (evictable_size ex_cache + protected_size ex_cache)%Z ∧
  evictable_size ex_cache = 4%Z.
Proof.
  destruct ex_cache_ok as (L & OK & _).
  destruct (sizes_and_leaves_correct ex_cache L (λ _, 0%Z) OK) as [H _]. split; [exact H|done].
Defined.

Lemma evict_correct_witness : ∃ L vs c' L',
  evict ex_hash (λ v a, a ++ v) 1 ex_cache [] = Some (c', fold_left (λ a v, a ++ v) vs []) ∧
  evicted_to ex_cache L (λ _, 0%Z) vs c' L' ∧ stops 1 0 vs c'.
Proof.
  destruct ex_cache_ok as (L & OK & _). exists L.
  destruct (evict_correct ex_hash (λ v a, a ++ v) ex_cache L (λ _, 0%Z) 1 [] OK eq_refl)
    as (vs & c' & L' & H1 & _ & H2 & H3). by exists vs, c', L'.
Defined.
