(* ===== verification/RadixLive.v ===== *)
(** * What stays of the tree while it changes

    The nodes somebody holds keep the keys that end at them through matches, insertions,
    lock changes and evictions; the locks, and with them the evictable size, are determined
    by the holders, who protect at most the tokens of their own prefixes. *)

From S2P Require Import Prelude Radix RadixTree RadixUpdate RadixMatch RadixInv RadixSpec RadixLock RadixThms.

Implicit Types (c : RadixCache) (L : gset nat) (own : nat → Z) (P : nat → Prop).

(** ** Nodes in place *)

(** The nodes of [P] stay in the tree, with the keys that end at them. *)
Record keeps P c L c' L' : Prop := {
  kp_conf : conf c' = conf c;
  kp_ends n k v : n ∈ L → P n → ends_at c n k v → n ∈ L' ∧ ends_at c' n k v
}.

Lemma keeps_refl P c L : keeps P c L c L.
Proof. done. Qed.

Lemma keeps_trans P c L c' L' c'' L'' : keeps P c L c' L' → keeps P c' L' c'' L'' → keeps P c L c'' L''.
Proof.
  intros [H1 H2] [G1 G2]. split; [congruence|]. intros n k v Hn HP He.
  destruct (H2 n k v Hn HP He) as [Hn' He']. by apply G2.
Qed.

Lemma keeps_mono P P' c L c' L' : (∀ n, P' n → P n) → keeps P c L c' L' → keeps P' c L c' L'.
Proof. intros HP [H1 H2]. split; [done|]. intros n k v Hn Hp. apply H2; [done|by apply HP]. Qed.

Lemma conf_root c c' : conf c' = conf c → root_node c' = root_node c.
Proof. unfold conf. congruence. Qed.

Lemma keeps_extends P c L c' L' : extends c L c' L' → root_node c ∈ L → keeps P c L c' L'.
Proof.
  intros [Hs Hc Hp] Hr. split; [done|]. intros n k v Hn _ He. split; [by apply Hs|].
  unfold ends_at. rewrite (conf_root _ _ Hc). by apply Hp.
Qed.

Lemma keeps_same_keys P c L c' : same_keys c L c' → keeps P c L c' L.
Proof.
  intros SK. pose proof (sk_conf _ _ _ SK) as Hc. split; [done|]. intros n k v Hn _ He. split; [done|].
  unfold ends_at. rewrite (conf_root _ _ Hc). by apply (same_keys_path _ _ _ _ _ _ _ SK).
Qed.

(** A node is locked at least as often as it is held, and so is every node above it. *)
Lemma path_lock c L own m n k v : cache_ok c L own → m ∈ L → m ≠ root_node c →
  path (skel c) m n k v → (own n ≤ lock_of (skel c) m)%Z.
Proof.
  intros OK Hm Hr Hp. destruct (c_tree _ _ _ OK) as [off TR].
  assert (Hnn : ∀ x s, x ∈ L → x ≠ root_node c → skel c !! x = Some s →
    (0 ≤ zsum (lock_of (skel c)) (s_children s).*2)%Z).
  { intros x s Hx Hxr Hs. apply zsum_nonneg. intros y Hy.
    destruct (proj2 (ok_lock_of OK x s Hx Hxr Hs) y Hy) as (_ & _ & ? & ?). by apply (ok_locks_nonneg OK). }
  induction Hp as [n|m l n kk ww k v He Hp IH].
  - destruct (ok_lookup TR n Hm) as [s Hs]. destruct (ok_lock_of OK n s Hm Hr Hs) as [-> _].
    specialize (Hnn n s Hm Hr Hs). lia.
  - destruct (edge_ok TR m l kk ww Hm He) as (Hl & Hlr & _). specialize (IH Hl Hlr).
    destruct He as (s & ck & t & Hs & Hc & _). destruct (ok_lock_of OK m s Hm Hr Hs) as [-> Hch].
    pose proof (c_own _ _ _ OK m). enough (lock_of (skel c) l ≤ zsum (lock_of (skel c)) (s_children s).*2)%Z by lia.
    apply zsum_elem_le; [|apply list_elem_of_fmap; by exists (ck, l)].
    intros y (_ & _ & ? & ?)%Hch. by apply (ok_locks_nonneg OK).
Qed.

(** Eviction takes only unlocked nodes, so whoever is held stays. *)
Lemma keeps_evicted P c L own c' L' own' : cache_ok c L own → cache_ok c' L' own' → conf c' = conf c →
  (∀ m, m ∈ L → (0 < lock_of (skel c) m)%Z → m ∈ L') →
  (∀ m l k w, m ∈ L' → edge (skel c') m l k w ↔ edge (skel c) m l k w ∧ l ∈ L') →
  (∀ n, P n → (1 ≤ own n)%Z) → keeps P c L c' L'.
Proof.
  intros OK OK' Hc Hlock Hedge HP. split; [done|]. intros n k v Hn Hp%HP He. unfold ends_at in *.
  rewrite (conf_root _ _ Hc). pose proof (ok_root_L _ _ _ OK) as HrL. pose proof (ok_root_L _ _ _ OK') as HrL'.
  rewrite (conf_root _ _ Hc) in HrL'. destruct (c_tree _ _ _ OK) as [off TR].
  revert HrL HrL' He. generalize (root_node c). intros m Hm Hm' He.
  induction He as [n|m l n kk ww k v He Hpath IH]; [split; [done|constructor]|].
  destruct (edge_ok TR m l kk ww Hm He) as (Hl & Hlr & _).
  assert (Hl' : l ∈ L') by (apply Hlock; [done|]; pose proof (path_lock c L own l n k v OK Hl Hlr Hpath); lia).
  destruct (IH Hn Hp Hl Hl') as [? ?]. split; [done|]. econstructor; [|done]. by apply Hedge.
Qed.

(** ** Locks are determined by the holders *)

Lemma edge_children c L own n s m : cache_ok c L own → n ∈ L → skel c !! n = Some s →
  m ∈ (s_children s).*2 ↔ ∃ k w, edge (skel c) n m k w.
Proof.
  intros OK Hn Hs. destruct (c_tree _ _ _ OK) as [off TR]. split.
  - intros ([ck m'] & -> & Hm)%list_elem_of_fmap.
    destruct (ok_child TR n s ck m' Hn Hs Hm) as (_ & _ & t & w & Ht & _ & _ & _ & _ & Hw & _).
    exists (s_key t), w. by exists s, ck, t.
  - intros (k & w & s' & ck & t & Hs' & Hc & _). simplify_eq. apply list_elem_of_fmap. by exists (ck, m).
Qed.

Lemma lock_determined c L own c' own' : cache_ok c L own → cache_ok c' L own' → same_keys c L c' →
  (∀ n, own' n = own n) → ∀ n, n ∈ L → n ≠ root_node c → lock_of (skel c') n = lock_of (skel c) n.
Proof.
  intros OK OK' SK Hown. apply (leaves_up OK). intros n s Hn Hr Hs IH.
  destruct (ok_lock_of OK n s Hn Hr Hs) as [-> Hch].
  destruct (c_tree _ _ _ OK) as [off TR]. destruct (c_tree _ _ _ OK') as [off' TR'].
  pose proof (conf_root _ _ (sk_conf _ _ _ SK)) as Er.
  destruct (ok_lookup TR' n Hn) as [s' Hs']. destruct (ok_lock_of OK' n s' Hn ltac:(congruence) Hs') as [-> _].
  rewrite Hown. f_equal. rewrite (zsum_perm _ (s_children s').*2 (s_children s).*2).
  - apply zsum_ext. intros m (ck & Hm & ? & ?)%Hch. by apply (IH ck).
  - apply NoDup_Permutation; [by apply (ok_NoDup_children TR' n)|by apply (ok_NoDup_children TR n)|].
    intros m. rewrite (edge_children c' L own' n s' m OK' Hn Hs'), (edge_children c L own n s m OK Hn Hs).
    split; intros (k & w & He); exists k, w; by apply (sk_edge _ _ _ SK).
Qed.

(** The key of a node below the root is that of the edge to it. *)
Lemma node_edge c L own n : cache_ok c L own → n ∈ L → n ≠ root_node c →
  ∃ p s v, skel c !! n = Some s ∧ s_value s = Some v ∧ length v = length (s_key s) ∧ p ∈ L ∧ edge (skel c) p n (s_key s) v.
Proof.
  intros OK Hn Hr. destruct (c_tree _ _ _ OK) as [off TR].
  destruct (ok_node _ _ _ _ _ TR n Hn Hr) as (s & p & sp & v & Hs & _ & Hp & Hsp & Hin & _ & _ & Hv & Hl & _).
  exists p, s, v. split_and!; [done..|]. by exists sp, (take (page_size c) (s_key s)), s.
Qed.

Lemma root_weight c L own : cache_ok c L own →
  ∃ s, skel c !! root_node c = Some s ∧ s_key s = [] ∧ s_value s = Some [].
Proof. intros OK. destruct (c_tree _ _ _ OK) as [off TR]. destruct (ok_root _ _ _ _ _ TR) as (s & ? & _ & ? & ?). by exists s. Qed.

Lemma evictable_determined c L own c' own' : cache_ok c L own → cache_ok c' L own' → same_keys c L c' →
  (∀ n, own' n = own n) → evictable_size_ c' = evictable_size_ c.
Proof.
  intros OK OK' SK Hown. rewrite (c_evictable _ _ _ OK), (c_evictable _ _ _ OK').
  apply set_zsum_ext. intros n Hn. pose proof (conf_root _ _ (sk_conf _ _ _ SK)) as Er.
  unfold wt, w_evictable. destruct (decide (n = root_node c)) as [->|Hr].
  - destruct (root_weight _ _ _ OK) as (s & -> & -> & _).
    destruct (root_weight _ _ _ OK') as (s' & E & E' & _). rewrite Er in E. rewrite E, E'. by do 2 case_decide.
  - pose proof (lock_determined c L own c' own' OK OK' SK Hown n Hn Hr) as El.
    destruct (node_edge c L own n OK Hn Hr) as (p & s & v & Hs & _ & _ & Hp & He).
    destruct (node_edge c' L own' n OK' Hn ltac:(congruence)) as (p' & s' & v' & Hs' & _ & _ & Hp' & He').
    rewrite Hs, Hs'. unfold lock_of in El. rewrite Hs, Hs' in El. rewrite El.
    apply (sk_edge _ _ _ SK) in He'. destruct (c_tree _ _ _ OK) as [off TR].
    destruct (edge_parent TR _ _ _ _ _ _ _ Hp Hp' He He') as (_ & -> & _). done.
Qed.

(** ** The slots of the tree *)

(** A list whose elements are among those of [xs], each there once. *)
Lemma count_all (xs v : list Z) : NoDup xs → (∀ x, x ∈ v → x ∈ xs) →
  zsum (λ x, Z.of_nat (count_occ Z.eq_dec v x)) xs = Z.of_nat (length v).
Proof.
  intros Hnd. induction v as [|y v IH]; intros Hin.
  { clear. induction xs; simpl in *; lia. }
  rewrite (zsum_ext _ (λ x, (if decide (x = y) then 1 else 0) + Z.of_nat (count_occ Z.eq_dec v x))%Z).
  2:{ intros x _. simpl. destruct (Z.eq_dec y x), (decide (x = y)); try lia; congruence. }
  assert (Hsum : ∀ f g : Z → Z, zsum (λ x, f x + g x)%Z xs = (zsum f xs + zsum g xs)%Z).
  { clear. intros f g. induction xs; simpl; lia. }
  rewrite Hsum, IH by (intros; apply Hin; by right). simpl.
  enough (zsum (λ x, if decide (x = y) then 1%Z else 0%Z) xs = 1%Z) by lia.
  assert (Hy : y ∈ xs) by (apply Hin; left). clear -Hnd Hy.
  induction Hnd as [|x xs Hx Hnd IH]; [by apply elem_of_nil in Hy|]. simpl.
  apply elem_of_cons in Hy as [->|Hy].
  - rewrite decide_True by done. rewrite (zsum_ext _ (λ _, 0%Z)).
    + clear. induction xs; simpl in *; lia.
    + intros z Hz. rewrite decide_False; [done|congruence].
  - rewrite decide_False by congruence. rewrite IH; [done|done].
Qed.

Lemma zsum_swap {A B} (f : A → B → Z) (xs : list A) (ys : list B) :
  zsum (λ x, zsum (f x) ys) xs = zsum (λ y, zsum (λ x, f x y) xs) ys.
Proof.
  induction xs as [|x xs IH]; simpl.
  - induction ys; simpl in *; lia.
  - rewrite IH. clear IH. induction ys as [|y ys IH]; simpl in *; [done|]. lia.
Qed.

(** The counters are the number of slots in the tree: those of the list [xs], if no others
    are there. *)
Lemma slots_total c L own xs : cache_ok c L own → NoDup xs → (∀ x, x ∉ xs → slot_count c L x = 0%Z) →
  zsum (slot_count c L) xs = (evictable_size c + protected_size c)%Z.
Proof.
  intros OK Hnd Hout. unfold evictable_size, protected_size. rewrite (c_evictable _ _ _ OK), (c_protected _ _ _ OK).
  unfold tree_sum, slot_count. rewrite <- set_zsum_add. unfold tree_sum, set_zsum. rewrite zsum_swap.
  apply zsum_ext. intros n HnL%elem_of_elements. unfold wt, w_evictable, w_protected, w_slot.
  destruct (decide (n = root_node c)) as [->|Hr].
  { destruct (root_weight _ _ _ OK) as (s & -> & -> & ->). rewrite zsum_zero by done. by case_decide. }
  destruct (node_edge c L own n OK HnL Hr) as (p & s & v & Hs & Hv & Hlen & _). rewrite Hs, Hv.
  transitivity (Z.of_nat (length (s_key s))); [|destruct (decide (s_lock s = 0%Z)); lia].
  rewrite <- Hlen. apply count_all; [done|].
  intros x Hx. destruct (decide (x ∈ xs)) as [|Hx']; [done|]. exfalso. specialize (Hout x Hx').
  unfold slot_count, tree_sum in Hout.
  assert (Hle : (wt (w_slot x) (skel c) n ≤ set_zsum (wt (w_slot x) (skel c)) L)%Z).
  { apply set_zsum_elem_le; [|done]. intros m _. unfold wt, w_slot. destruct (skel c !! m) as [sm|]; [|done].
    destruct (s_value sm); lia. }
  rewrite Hout in Hle. unfold wt, w_slot in Hle. rewrite Hs, Hv in Hle.
  apply list_elem_of_In, (count_occ_In Z.eq_dec) in Hx. lia.
Qed.

(** ** What the holders protect *)

Definition key_len c n : Z := match skel c !! n with Some s => Z.of_nat (length (s_key s)) | None => 0 end.

(** The nodes of a path below its first one. *)
Lemma path_nodes c L own m n k v : cache_ok c L own → m ∈ L → path (skel c) m n k v →
  ∃ l, zsum (key_len c) l = Z.of_nat (length k) ∧ n ∈ m :: l ∧
    ∀ x, x ∈ l → ∃ p e w, p ∈ m :: l ∧ p ∈ L ∧ edge (skel c) p x e w.
Proof.
  intros OK Hm Hp. destruct (c_tree _ _ _ OK) as [off TR].
  induction Hp as [n|m x n kk ww k v He Hp IH].
  { exists []. split_and!; [done|left|]. by intros x ?%elem_of_nil. }
  destruct (edge_ok TR m x kk ww Hm He) as (Hx & _). destruct (IH Hx) as (l & Hl & Hn & Hin).
  exists (x :: l). split_and!.
  - simpl. rewrite Hl, length_app. destruct He as (s & ck & t & _ & _ & Ht & <- & _). unfold key_len. rewrite Ht. lia.
  - by right.
  - intros y [->|Hy]%elem_of_cons; [exists m, kk, ww; by split_and!; [left|..]|].
    destruct (Hin y Hy) as (p & e & w & Hpl & HpL & Hpe). exists p, e, w. by split_and!; [right|..].
Qed.

(** Whoever lies above the end of a path from the root is on it. *)
Lemma above_on_path c L own x n k v l : cache_ok c L own → x ∈ L → path (skel c) x n k v →
  n ∈ root_node c :: l → (∀ y, y ∈ l → ∃ p e w, p ∈ root_node c :: l ∧ p ∈ L ∧ edge (skel c) p y e w) →
  x ∈ root_node c :: l.
Proof.
  intros OK Hx Hp Hn Hl. destruct (c_tree _ _ _ OK) as [off TR].
  induction Hp as [n|x y n kk ww k v He Hp IH]; [done|].
  destruct (edge_ok TR x y kk ww Hx He) as (Hy & Hyr & _). specialize (IH Hy Hn).
  apply elem_of_cons in IH as [?|IH]; [done|]. destruct (Hl y IH) as (p & e & w & Hpl & HpL & Hpe).
  by destruct (edge_parent TR _ _ _ _ _ _ _ Hx HpL He Hpe) as (-> & _).
Qed.

(** A locked node lies above one that somebody holds. *)
Lemma locked_above c L own : cache_ok c L own → ∀ n, n ∈ L → n ≠ root_node c →
  (0 < lock_of (skel c) n)%Z → ∃ h k v, (0 < own h)%Z ∧ path (skel c) n h k v.
Proof.
  intros OK. apply (leaves_up OK (λ n, (0 < lock_of (skel c) n)%Z → ∃ h k v, (0 < own h)%Z ∧ path (skel c) n h k v)).
  intros n s Hn Hr Hs IH Hlock. destruct (ok_lock_of OK n s Hn Hr Hs) as [El Hch].
  destruct (decide (0 < own n)%Z) as [Ho|Ho]; [exists n, [], []; by split; [|constructor]|].
  destruct (zsum_pos_elem (lock_of (skel c)) (s_children s).*2) as (m & Hm & Hml); [lia|].
  destruct (Hch m Hm) as (ck & Hck & HmL & Hmr).
  destruct (IH ck m Hck HmL Hmr Hml) as (h & k & v & Hh & Hp).
  apply (edge_children c L own n s m OK Hn Hs) in Hm as (kk & ww & He). exists h, (kk ++ k), (ww ++ v).
  split; [done|by econstructor].
Qed.

Lemma set_zsum_le_list (f g : nat → Z) L l : (∀ n, (0 ≤ g n)%Z) → (∀ n, n ∈ L → f n ≠ 0%Z → n ∈ l ∧ (f n ≤ g n)%Z) →
  (set_zsum f L ≤ zsum g l)%Z.
Proof.
  intros Hg. revert L. induction l as [|x l IH]; intros L Hf.
  - unfold set_zsum. rewrite zsum_zero; [done|]. intros n Hn%elem_of_elements.
    destruct (decide (f n = 0%Z)) as [|Hne]; [done|]. by destruct (Hf n Hn Hne) as [?%elem_of_nil _].
  - simpl. assert (Hrest : (set_zsum f (L ∖ {[x]}) ≤ zsum g l)%Z).
    { apply IH. intros n [HnL Hnx]%elem_of_difference Hne. destruct (Hf n HnL Hne) as [[->|?]%elem_of_cons ?]; [set_solver|done]. }
    destruct (decide (x ∈ L)) as [Hx|Hx].
    + rewrite (set_zsum_remove f L x Hx). destruct (decide (f x = 0%Z)) as [->|Hne]; [pose proof (Hg x); lia|].
      destruct (Hf x Hx Hne) as [_ ?]. lia.
    + replace (L ∖ {[x]}) with L in Hrest by set_solver. specialize (Hg x). lia.
Qed.

(** The locked tokens are at most those of the prefixes that are held. *)
Lemma protected_le c L own (held : list (nat * list Z)) : cache_ok c L own →
  (∀ n k, (n, k) ∈ held → ∃ v, ends_at c n k v) → (∀ n, (0 < own n)%Z → ∃ k, (n, k) ∈ held) →
  (protected_size c ≤ zsum (λ h, Z.of_nat (length h.2)) held)%Z.
Proof.
  intros OK Hends Hown. pose proof (ok_root_L _ _ _ OK) as Hr.
  assert (∃ l, zsum (key_len c) l = zsum (λ h, Z.of_nat (length h.2)) held ∧
    ∀ x n k k' v, (n, k) ∈ held → x ∈ L → path (skel c) x n k' v → x = root_node c ∨ x ∈ l) as (l & <- & Hl).
  { clear Hown. induction held as [|[n k] held IH].
    { exists []. split; [done|]. by intros x n k k' v ?%elem_of_nil. }
    destruct IH as (l & El & Hl); [intros; apply Hends; by right|].
    destruct (Hends n k ltac:(left)) as (v & He).
    destruct (path_nodes c L own _ n k v OK Hr He) as (l1 & E1 & Hn & Hin).
    exists (l1 ++ l). rewrite zsum_app. simpl. rewrite El, E1. split; [done|].
    intros x n' k1 k2 v2 [[= -> ->]|Hh]%elem_of_cons Hx Hp.
    - pose proof (above_on_path c L own x n k2 v2 l1 OK Hx Hp Hn Hin) as [->|?]%elem_of_cons; [by left|].
      right. apply elem_of_app. by left.
    - destruct (Hl x n' k1 k2 v2 Hh Hx Hp) as [->|?]; [by left|]. right. apply elem_of_app. by right. }
  unfold protected_size. rewrite (c_protected _ _ _ OK). apply set_zsum_le_list.
  { intros n. unfold key_len. destruct (skel c !! n); lia. }
  intros n Hn Hne. unfold wt, w_protected in Hne |- *. unfold key_len.
  destruct (skel c !! n) as [s|] eqn:Hs; [|done]. destruct (decide (n = root_node c)) as [->|Hnr].
  { exfalso. apply Hne. destruct (root_weight _ _ _ OK) as (s' & Hs' & Hk & _). simplify_eq. rewrite Hk. by case_decide. }
  destruct (decide (s_lock s = 0%Z)) as [Hl0|Hl0]; [done|]. split; [|lia].
  assert (Hlock : (0 < lock_of (skel c) n)%Z).
  { pose proof (ok_locks_nonneg OK n Hn Hnr). unfold lock_of in *. rewrite Hs in *. lia. }
  destruct (locked_above c L own OK n Hn Hnr Hlock) as (h & k & v & Hh & Hp).
  destruct (Hown h Hh) as (kh & Hkh). by destruct (Hl n h kh k v Hkh Hn Hp).
Qed.
