(* ===== verification/Alloc.v ===== *)
(** * The slot allocators of the KV cache

    [src/python/sglang/srt/mem_cache/memory_pool.py]: [ReqToTokenPool], which hands
    out rows of the request table, and [TokenToKVPoolAllocator], which hands out token
    slots.  The class [KVAllocator] is the interface the prefix caches use; its laws
    say that slots are neither lost nor handed out twice. *)

From S2P Require Import Prelude.

(** ** The interface *)

(** [free_of a]: the slots that can still be handed out, those in the open free group
    included. *)
Class KVAllocator (A : Type) := {
  kv_alloc : nat → A → option (list Z) * A;
  kv_free : list Z → A → A;
  kv_free_of : A → list Z
}.

Class KVAllocatorLaws (A : Type) `{KVAllocator A} := {
  kv_alloc_some n a out a' : kv_alloc n a = (Some out, a') →
    length out = n ∧ kv_free_of a ≡ₚ out ++ kv_free_of a';
  kv_alloc_none n a a' : kv_alloc n a = (None, a') → a' = a;
  kv_free_slots v a : kv_free_of (kv_free v a) ≡ₚ v ++ kv_free_of a
}.

(** ** [class ReqToTokenPool] *)

Record ReqToTokenPool := MkReqPool {
  rp_size : nat;
  max_context_len : nat;
  req_to_token : gmap nat (list Z);
  rp_free_slots : list nat
}.

Definition new_ReqToTokenPool (size max_len : nat) : ReqToTokenPool :=
  MkReqPool size max_len
    (list_to_map ((λ i, (i, replicate max_len 0%Z)) <$> seq 0 size)) (seq 0 size).

(** [write((row, slice(i, j)), values)]: torch requires the shapes to agree. *)
Definition rp_write (row i : nat) (values : list Z) (p : ReqToTokenPool) : option ReqToTokenPool :=
  r ← req_to_token p !! row;
  if bool_decide (i + length values ≤ length r)
  then Some (MkReqPool (rp_size p) (max_context_len p)
               (<[row := take i r ++ values ++ drop (i + length values) r]> (req_to_token p))
               (rp_free_slots p))
  else None.

(** [req_to_token[row, :n]]. *)
Definition rp_read (row n : nat) (p : ReqToTokenPool) : option (list Z) :=
  r ← req_to_token p !! row; Some (take n r).

Definition rp_available_size (p : ReqToTokenPool) : nat := length (rp_free_slots p).

Definition rp_set_free x p := MkReqPool (rp_size p) (max_context_len p) (req_to_token p) x.

Definition rp_alloc (need_size : nat) (p : ReqToTokenPool) : option (list nat) * ReqToTokenPool :=
  if bool_decide (length (rp_free_slots p) < need_size) then (None, p)
  else (Some (take need_size (rp_free_slots p)),
        rp_set_free (drop need_size (rp_free_slots p)) p).

(** [free] of one index or of a list. *)
Definition rp_free (free_index : list nat) (p : ReqToTokenPool) : ReqToTokenPool :=
  rp_set_free (rp_free_slots p ++ free_index) p.

Definition rp_clear (p : ReqToTokenPool) : ReqToTokenPool := rp_set_free (seq 0 (rp_size p)) p.

(** ** [class TokenToKVPoolAllocator] *)

Record TokenToKVPoolAllocator := MkTokAlloc {
  ta_size : nat;
  ta_free_slots : list Z;
  ta_is_not_in_free_group : bool;
  ta_free_group : list (list Z)
}.

(** [torch.arange(1, size + 1)]: slot 0 takes the writes of padded tokens. *)
Definition arange1 (size : nat) : list Z := Z.of_nat <$> seq 1 size.

Definition ta_clear (a : TokenToKVPoolAllocator) : TokenToKVPoolAllocator :=
  MkTokAlloc (ta_size a) (arange1 (ta_size a)) true [].

Definition new_TokenToKVPoolAllocator (size : nat) : TokenToKVPoolAllocator :=
  ta_clear (MkTokAlloc size [] true []).

Definition ta_available_size (a : TokenToKVPoolAllocator) : nat := length (ta_free_slots a).

Definition ta_alloc (need_size : nat) (a : TokenToKVPoolAllocator)
    : option (list Z) * TokenToKVPoolAllocator :=
  if bool_decide (length (ta_free_slots a) < need_size) then (None, a)
  else (Some (take need_size (ta_free_slots a)),
        MkTokAlloc (ta_size a) (drop need_size (ta_free_slots a))
          (ta_is_not_in_free_group a) (ta_free_group a)).

Definition ta_free (free_index : list Z) (a : TokenToKVPoolAllocator) : TokenToKVPoolAllocator :=
  match free_index with
  | [] => a
  | _ =>
      if ta_is_not_in_free_group a
      then MkTokAlloc (ta_size a) (ta_free_slots a ++ free_index) true (ta_free_group a)
      else MkTokAlloc (ta_size a) (ta_free_slots a) false (ta_free_group a ++ [free_index])
  end.

Definition ta_free_group_begin (a : TokenToKVPoolAllocator) : TokenToKVPoolAllocator :=
  MkTokAlloc (ta_size a) (ta_free_slots a) false [].

(** The group itself is only emptied by the next [free_group_begin]. *)
Definition ta_free_group_end (a : TokenToKVPoolAllocator) : TokenToKVPoolAllocator :=
  let a1 := MkTokAlloc (ta_size a) (ta_free_slots a) true (ta_free_group a) in
  match ta_free_group a with
  | [] => a1
  | g => ta_free (concat g) a1
  end.

Definition ta_backup_state (a : TokenToKVPoolAllocator) : list Z := ta_free_slots a.
Definition ta_restore_state (free_slots : list Z) (a : TokenToKVPoolAllocator) :=
  MkTokAlloc (ta_size a) free_slots (ta_is_not_in_free_group a) (ta_free_group a).

Definition ta_free_of (a : TokenToKVPoolAllocator) : list Z :=
  ta_free_slots a ++ (if ta_is_not_in_free_group a then [] else concat (ta_free_group a)).

#[export] Instance tok_KVAllocator : KVAllocator TokenToKVPoolAllocator := {|
  kv_alloc := ta_alloc; kv_free := ta_free; kv_free_of := ta_free_of
|}.

Lemma ta_free_perm v a : ta_free_of (ta_free v a) ≡ₚ v ++ ta_free_of a.
Proof.
  destruct v as [|x v]; [done|]. unfold ta_free, ta_free_of.
  destruct (ta_is_not_in_free_group a); simpl.
  - rewrite !app_nil_r. by rewrite Permutation_app_comm.
  - rewrite concat_app. cbn [concat]. rewrite app_nil_r, app_assoc.
    by rewrite (Permutation_app_comm _ (x :: v)).
Qed.

Lemma ta_alloc_some n a out a' : ta_alloc n a = (Some out, a') →
  length out = n ∧ ta_free_of a ≡ₚ out ++ ta_free_of a' ∧ ta_size a' = ta_size a.
Proof.
  unfold ta_alloc. case_bool_decide; [done|]. intros [= <- <-]. unfold ta_free_of. simpl.
  rewrite length_take, Nat.min_l by lia. by rewrite app_assoc, take_drop.
Qed.

Lemma ta_alloc_none n a a' : ta_alloc n a = (None, a') → a' = a.
Proof. unfold ta_alloc. case_bool_decide; intros; by simplify_eq. Qed.

#[export] Instance tok_KVAllocatorLaws : KVAllocatorLaws TokenToKVPoolAllocator.
Proof.
  split; [|exact ta_alloc_none|exact ta_free_perm].
  intros n a out a' H. by destruct (ta_alloc_some n a out a' H) as (? & ? & _).
Qed.

(** ** Use of the allocator by a client

    The client holds slots, frees only slots it holds, and opens and closes free groups
    alternately; [held] is what it holds. *)
Inductive ta_step : TokenToKVPoolAllocator → list Z → TokenToKVPoolAllocator → list Z → Prop :=
  | ta_step_alloc n a held out a' : ta_alloc n a = (Some out, a') → ta_step a held a' (held ++ out)
  | ta_step_refuse n a held a' : ta_alloc n a = (None, a') → ta_step a held a' held
  | ta_step_free v rest a held : held ≡ₚ v ++ rest → ta_step a held (ta_free v a) rest
  | ta_step_begin a held : ta_is_not_in_free_group a = true → ta_step a held (ta_free_group_begin a) held
  | ta_step_end a held : ta_is_not_in_free_group a = false → ta_step a held (ta_free_group_end a) held
  | ta_step_clear a held : ta_step a held (ta_clear a) [].

Inductive ta_reach (size : nat) : TokenToKVPoolAllocator → list Z → Prop :=
  | ta_reach_init : ta_reach size (new_TokenToKVPoolAllocator size) []
  | ta_reach_step a held a' held' : ta_reach size a held → ta_step a held a' held' → ta_reach size a' held'.

Lemma ta_free_group_end_perm a : ta_is_not_in_free_group a = false →
  ta_free_of (ta_free_group_end a) ≡ₚ ta_free_of a.
Proof.
  intros Hg. unfold ta_free_group_end, ta_free_of at 2. rewrite Hg.
  destruct (ta_free_group a) as [|g gs] eqn:E; [done|].
  rewrite ta_free_perm. unfold ta_free_of. simpl. rewrite app_nil_r. by rewrite Permutation_app_comm.
Qed.

Lemma ta_step_conserve a held a' held' size : ta_step a held a' held' → ta_size a = size →
  held ++ ta_free_of a ≡ₚ arange1 size → ta_size a' = size ∧ held' ++ ta_free_of a' ≡ₚ arange1 size.
Proof.
  intros Hs Hz Hp. destruct Hs as [n a held out a' Ha|n a held a' Ha|v rest a held Hv|a held Hg|a held Hg|a held].
  - destruct (ta_alloc_some n a out a' Ha) as (_ & E & ->). by rewrite <- app_assoc, <- E.
  - apply ta_alloc_none in Ha. by subst.
  - split; [by destruct v; simpl; [|destruct (ta_is_not_in_free_group a)]|].
    rewrite ta_free_perm, app_assoc, (Permutation_app_comm rest), <- Hv. done.
  - split; [done|]. rewrite <- Hp. unfold ta_free_of. rewrite Hg. done.
  - split; [|by rewrite ta_free_group_end_perm].
    unfold ta_free_group_end. destruct (ta_free_group a) as [|g gs]; [done|].
    destruct (concat (g :: gs)); done.
  - simpl. subst. split; [done|]. unfold ta_free_of. simpl. by rewrite app_nil_r.
Qed.

Lemma arange1_NoDup size : NoDup (arange1 size).
Proof. apply NoDup_fmap_2; [intros ???; lia|apply NoDup_seq]. Qed.

Lemma arange1_elem size x : x ∈ arange1 size ↔ (1 ≤ x ≤ Z.of_nat size)%Z.
Proof.
  unfold arange1. rewrite list_elem_of_fmap. split.
  - intros (n & -> & Hn%elem_of_seq). lia.
  - intros. exists (Z.to_nat x). rewrite elem_of_seq. lia.
Qed.

(** C21: however a client interleaves allocations, frees, free groups and clears, the slots
    it holds and the free ones (the open group included) are together exactly 1..size,
    each once: no slot is handed out twice, none is lost, and slot 0 is never used. *)
Theorem token_allocator_conserves size a held : ta_reach size a held →
  held ++ ta_free_of a ≡ₚ arange1 size ∧ NoDup (held ++ ta_free_of a) ∧ 0%Z ∉ held ∧
  ∀ n out a', ta_alloc n a = (Some out, a') → length out = n ∧ NoDup (held ++ out).
Proof.
  intros Hr.
  assert (H : ta_size a = size ∧ held ++ ta_free_of a ≡ₚ arange1 size).
  { induction Hr as [|a held a' held' _ [Hz Hp] Hs]; [|by eapply ta_step_conserve].
    split; [done|]. unfold ta_free_of. simpl. by rewrite app_nil_r. }
  destruct H as [_ Hp]. split_and!; [done|rewrite Hp; apply arange1_NoDup| |].
  - intros Hin. assert (0%Z ∈ arange1 size) as E by (rewrite <- Hp; set_solver).
    apply arange1_elem in E. lia.
  - intros n out a' Ha. destruct (ta_alloc_some n a out a' Ha) as (Hl & E & _). split; [done|].
    rewrite E, app_assoc in Hp. pose proof (arange1_NoDup size) as Hnd.
    rewrite <- Hp in Hnd. by apply NoDup_app in Hnd as [? _].
Qed.

Lemma token_allocator_conserves_witness : ∃ a held,
  ta_reach 4 a held ∧ held = [1; 2]%Z ∧ ta_free_of a = [4; 3]%Z ∧
  held ++ ta_free_of a ≡ₚ arange1 4 ∧ NoDup (held ++ ta_free_of a).
Proof.
  assert (H : ta_reach 4 (ta_free [3]%Z (ta_free_group_begin (ta_alloc 3 (new_TokenToKVPoolAllocator 4)).2)) [1; 2]%Z).
  { eapply ta_reach_step; [eapply ta_reach_step; [eapply ta_reach_step; [constructor|]|]|].
    - by apply (ta_step_alloc 3).
    - by apply ta_step_begin.
    - apply ta_step_free. simpl. by apply (Permutation_app_comm [1; 2]%Z [3]%Z). }
  destruct (token_allocator_conserves 4 _ _ H) as (H1 & H2 & _).
  eexists _, _. split_and!; [exact H|done|done|exact H1|exact H2].
Defined.

(** Rows of the request table: allocation takes from the front, so a freed row waits. *)
Lemma rp_alloc_some n p out p' : rp_alloc n p = (Some out, p') →
  length out = n ∧ rp_free_slots p = out ++ rp_free_slots p' ∧ req_to_token p' = req_to_token p.
Proof.
  unfold rp_alloc. case_bool_decide; [done|]. intros [= <- <-]. simpl.
  rewrite length_take, take_drop. split_and!; [lia|done..].
Qed.

(** A written range reads back, the rest of the row is unchanged. *)
Lemma rp_write_read row i vs p p' r : rp_write row i vs p = Some p' → req_to_token p !! row = Some r →
  ∃ r', req_to_token p' !! row = Some r' ∧ length r' = length r ∧ take i r' = take i r ∧
    slice i (i + length vs) r' = vs ∧ drop (i + length vs) r' = drop (i + length vs) r ∧
    rp_free_slots p' = rp_free_slots p ∧ ∀ row', row' ≠ row → req_to_token p' !! row' = req_to_token p !! row'.
Proof.
  unfold rp_write. intros H Hr. rewrite Hr in H. simpl in H. case_bool_decide as Hl; [|done].
  simplify_eq. exists (take i r ++ vs ++ drop (i + length vs) r). simpl. unfold slice.
  rewrite lookup_insert_eq, !length_app, length_take, length_drop, Nat.min_l by lia.
  replace (i + length vs - i) with (length vs) by lia. split_and!; try done.
  - lia.
  - by rewrite take_app_le, take_take, Nat.min_id by (rewrite length_take; lia).
  - rewrite drop_app_length' by (rewrite length_take; lia). by rewrite take_app_length.
  - rewrite <- drop_drop, drop_app_length' by (rewrite length_take; lia).
    by rewrite drop_app_length.
  - intros row' Hne. by rewrite lookup_insert_ne.
Qed.
