(* ===== verification/PagedAlloc.v ===== *)
(** * The page-aligned slot allocator

    [src/python/sglang/srt/mem_cache/paged_allocator.py]: the two Triton kernels, one
    program per request, and [PagedTokenToKVPoolAllocator].  A kernel program is the
    list of its stores; the programs of a launch run in any order. *)

From S2P Require Import Prelude.

Open Scope Z_scope.

(** [next_power_of_2] of [srt/utils.py]. *)
Definition bit_length (n : Z) : Z := if decide (n = 0) then 0 else Z.log2 n + 1.
Definition next_power_of_2 (n : Z) : Z :=
  if bool_decide (0 < n) then Z.shiftl 1 (bit_length (n - 1)) else 1.

(** [tl.arange(0, n)]. *)
Definition arange (n : Z) : list Z := Z.of_nat <$> seq 0 (Z.to_nat n).

(** Two's complement 64-bit values. *)
Definition wrap64 (x : Z) : Z := (x + 2 ^ 63) `mod` 2 ^ 64 - 2 ^ 63.

Definition nthZ (l : list Z) (i : Z) : option Z := if bool_decide (0 ≤ i) then l !! Z.to_nat i else None.

Section kernels.
(** What a load beyond a tensor reads, what a masked-off lane of a load holds (the
    loads of one program with one mask agree), and the contents of [torch.empty]. *)
Context (oob : Z → Z) (undef : Z → Z) (uninit : Z → Z).

Definition load (l : list Z) (i : Z) : Z := default (oob i) (nthZ l i).
Definition load_mask (l : list Z) (mask : Z → bool) (lanes : list Z) : list Z :=
  (λ i, if mask i then load l i else undef i) <$> lanes.

(** The stores of a masked vector store. *)
Definition store_mask (addr val : Z → Z) (mask : Z → bool) (lanes : list Z) : list (Z * Z) :=
  (λ o, (addr o, val o)) <$> filter (λ o, mask o = true) lanes.

Definition cdiv (x ps : Z) : Z := (x + ps - 1) `div` ps.

(** [alloc_extend_kernel]: the stores of program [pid] and, for the last program, the
    packed return value. *)
Definition alloc_extend_kernel (num_programs pid : Z) (pre_lens_ptr seq_lens_ptr last_loc_ptr
    free_page_ptr : list Z) (bs_upper page_size max_num_extend_tokens : Z)
    : list (Z * Z) * option Z :=
  let load_offset := arange bs_upper in
  let seq_lens := load_mask seq_lens_ptr (λ o, bool_decide (o ≤ pid)) load_offset in
  let pre_lens := load_mask pre_lens_ptr (λ o, bool_decide (o ≤ pid)) load_offset in
  let extend_lens := zip_with (λ s p, s - p) seq_lens pre_lens in
  let seq_len := load seq_lens_ptr pid in
  let pre_len := load pre_lens_ptr pid in
  let extend_len := seq_len - pre_len in
  let sum_extend_lens := zsum id extend_lens in
  let output_start_loc := sum_extend_lens - extend_len in
  let num_new_pages := zip_with (λ s p, cdiv s page_size - cdiv p page_size) seq_lens pre_lens in
  let num_page_start_loc_self := cdiv seq_len page_size - cdiv pre_len page_size in
  let sum_num_new_pages := zsum id num_new_pages in
  let new_page_start_loc := sum_num_new_pages - num_page_start_loc_self in
  let ret := if decide (pid = num_programs - 1)
             then Some (Z.lor (wrap64 (Z.shiftl sum_num_new_pages 32)) sum_extend_lens) else None in
  (* Part 1: fill the old partial page *)
  let last_loc := load last_loc_ptr pid in
  let num_part1 := Z.min seq_len (cdiv pre_len page_size * page_size) - pre_len in
  let offset_one_page := arange page_size in
  let st1 := store_mask (λ o, output_start_loc + o) (λ o, last_loc + 1 + o)
               (λ o, bool_decide (o < num_part1)) offset_one_page in
  if decide (pre_len + num_part1 = seq_len) then (st1, ret)
  else
    (* Part 2: fill the new full pages *)
    let num_part2 := seq_len `div` page_size * page_size - cdiv pre_len page_size * page_size in
    let offset_many_page := arange max_num_extend_tokens in
    let st2 := store_mask (λ o, output_start_loc + num_part1 + o)
                 (λ o, load free_page_ptr (new_page_start_loc + o `div` page_size) * page_size
                       + o `mod` page_size)
                 (λ o, bool_decide (o < num_part2)) offset_many_page in
    if decide (pre_len + num_part1 + num_part2 = seq_len) then (st1 ++ st2, ret)
    else
      (* Part 3: fill the new partial page *)
      let num_part3 := seq_len - seq_len `div` page_size * page_size in
      let start_loc := load free_page_ptr (new_page_start_loc + num_page_start_loc_self - 1) in
      let st3 := store_mask (λ o, output_start_loc + num_part1 + num_part2 + o)
                   (λ o, start_loc * page_size + o)
                   (λ o, bool_decide (o < num_part3)) offset_one_page in
      (st1 ++ st2 ++ st3, ret).

(** [alloc_decode_kernel]. *)
Definition alloc_decode_kernel (num_programs pid : Z) (seq_lens_ptr last_loc_ptr free_page_ptr : list Z)
    (bs_upper page_size : Z) : list (Z * Z) * option Z :=
  let load_offset := arange bs_upper in
  let seq_lens := load_mask seq_lens_ptr (λ o, bool_decide (o ≤ pid)) load_offset in
  let pre_lens := zip_with (λ o s, if bool_decide (o ≤ pid) then s - 1 else s) load_offset seq_lens in
  let seq_len := load seq_lens_ptr pid in
  let pre_len := seq_len - 1 in
  let num_new_pages := zip_with (λ s p, cdiv s page_size - cdiv p page_size) seq_lens pre_lens in
  let num_page_start_loc_self := cdiv seq_len page_size - cdiv pre_len page_size in
  let sum_num_new_pages := zsum id num_new_pages in
  let new_page_start_loc := sum_num_new_pages - num_page_start_loc_self in
  let ret := if decide (pid = num_programs - 1) then Some sum_num_new_pages else None in
  if decide (num_page_start_loc_self = 0) then
    ([(pid, load last_loc_ptr pid + 1)], ret)
  else
    ([(pid, load free_page_ptr new_page_start_loc * page_size)], ret).

(** The memory after the stores of all programs, in the order the programs ran. *)
Definition run_stores (stores : list (Z * Z)) : gmap Z Z :=
  foldl (λ m s, <[s.1 := s.2]> m) ∅ stores.

Definition launch (kernel : Z → list (Z * Z) * option Z) (order : list Z) : gmap Z Z * option Z :=
  (run_stores (concat ((λ pid, (kernel pid).1) <$> order)),
   foldl (λ r pid, match (kernel pid).2 with Some v => Some v | None => r end) None order).

Definition read_out (m : gmap Z Z) (n : Z) : list Z := (λ i, default (uninit i) (m !! i)) <$> arange n.

(** ** [class PagedTokenToKVPoolAllocator] *)

Record PagedAlloc := MkPaged {
  pa_size : Z;
  pa_page_size : Z;
  pa_num_pages : Z;
  free_pages : list Z;
  pa_not_in_group : bool;
  pa_free_group : list (list Z);
  debug_mode : bool
}.

Definition set_pages x a := MkPaged (pa_size a) (pa_page_size a) (pa_num_pages a) x
  (pa_not_in_group a) (pa_free_group a) (debug_mode a).
Definition set_group b g a := MkPaged (pa_size a) (pa_page_size a) (pa_num_pages a) (free_pages a)
  b g (debug_mode a).

Definition pa_clear (a : PagedAlloc) : PagedAlloc :=
  MkPaged (pa_size a) (pa_page_size a) (pa_num_pages a)
    (Z.of_nat <$> seq 1 (Z.to_nat (pa_num_pages a))) true [] (debug_mode a).

Definition new_PagedAlloc (size page_size : Z) (debug : bool) : PagedAlloc :=
  pa_clear (MkPaged size page_size (size `div` page_size) [] true [] debug).

Definition pa_available_size (a : PagedAlloc) : Z := Z.of_nat (length (free_pages a)) * pa_page_size a.

Definition py_assert (b : bool) : M PagedAlloc unit := if b then mret tt else raise AssertionError.

Definition page_slots (ps p : Z) : list Z := (λ o, p * ps + o) <$> arange ps.

Definition pa_alloc (need_size : Z) : M PagedAlloc (option (list Z)) :=
  a ← get;
  _ ← py_assert (negb (debug_mode a) || bool_decide (need_size `mod` pa_page_size a = 0));
  let num_pages := need_size `div` pa_page_size a in
  if bool_decide (Z.of_nat (length (free_pages a)) < num_pages) then mret None
  else
    let out_pages := take (Z.to_nat num_pages) (free_pages a) in
    _ ← modify (set_pages (drop (Z.to_nat num_pages) (free_pages a)));
    mret (Some (concat (page_slots (pa_page_size a) <$> out_pages))).

Definition pa_alloc_extend (order : list Z) (prefix_lens seq_lens last_loc : list Z)
    (extend_num_tokens : Z) : M PagedAlloc (option (list Z)) :=
  a ← get;
  let ps := pa_page_size a in
  _ ← py_assert (negb (debug_mode a) ||
        forallb id (zip_with (λ l p, bool_decide ((l + 1) `mod` ps = p `mod` ps)) last_loc prefix_lens));
  let bs := Z.of_nat (length prefix_lens) in
  let '(mem, ret) := launch (λ pid, alloc_extend_kernel bs pid prefix_lens seq_lens last_loc
        (free_pages a) (next_power_of_2 bs) ps (next_power_of_2 extend_num_tokens)) order in
  let out_indices := read_out mem extend_num_tokens in
  _ ← py_assert (negb (debug_mode a) || bool_decide (NoDup out_indices));
  merged_value ← of_option AttributeError ret;
  let num_new_pages := Z.shiftr merged_value 32 in
  if bool_decide (Z.of_nat (length (free_pages a)) < num_new_pages) then mret None
  else
    _ ← modify (set_pages (drop (Z.to_nat num_new_pages) (free_pages a)));
    mret (Some out_indices).

Definition pa_alloc_decode (order : list Z) (seq_lens last_loc : list Z) : M PagedAlloc (option (list Z)) :=
  a ← get;
  let ps := pa_page_size a in
  _ ← py_assert (negb (debug_mode a) ||
        forallb id (zip_with (λ l s, bool_decide ((l + 2) `mod` ps = s `mod` ps)) last_loc seq_lens));
  let bs := Z.of_nat (length seq_lens) in
  let '(mem, ret) := launch (λ pid, alloc_decode_kernel bs pid seq_lens last_loc
        (free_pages a) (next_power_of_2 bs) ps) order in
  let out_indices := read_out mem bs in
  _ ← py_assert (negb (debug_mode a) || bool_decide (NoDup out_indices));
  num_new_pages ← of_option AttributeError ret;
  if bool_decide (Z.of_nat (length (free_pages a)) < num_new_pages) then mret None
  else
    _ ← modify (set_pages (drop (Z.to_nat num_new_pages) (free_pages a)));
    mret (Some out_indices).

(** [torch.unique]: sorted, without repetitions. *)
Definition unique (l : list Z) : list Z := merge_sort Z.le (remove_dups l).

Definition pa_free (free_index : list Z) : M PagedAlloc unit :=
  match free_index with
  | [] => mret tt
  | _ =>
      a ← get;
      _ ← (if pa_not_in_group a
           then modify (set_pages (unique ((λ i, i `div` pa_page_size a) <$> free_index) ++ free_pages a))
           else modify (set_group false (pa_free_group a ++ [free_index])));
      b ← get;
      py_assert (negb (debug_mode b) || bool_decide (NoDup (free_pages b)))
  end.

Definition pa_free_group_begin : M PagedAlloc unit := modify (set_group false []).

Definition pa_free_group_end : M PagedAlloc unit :=
  a ← get;
  _ ← modify (set_group true (pa_free_group a));
  match pa_free_group a with
  | [] => mret tt
  | g => pa_free (concat g)
  end.

Definition pa_backup_state (a : PagedAlloc) : list Z := free_pages a.
Definition pa_restore_state (pages : list Z) : M PagedAlloc unit := modify (set_pages pages).

(** ** Sums over the lanes *)

Lemma arange_elem n i : i ∈ arange n ↔ 0 ≤ i < n.
Proof.
  unfold arange. rewrite list_elem_of_fmap. split.
  - intros (k & -> & Hk%elem_of_seq). lia.
  - intros. exists (Z.to_nat i). rewrite elem_of_seq. lia.
Qed.

Lemma zip_with_fmap {A} (f : Z → Z → A) (g h : Z → Z) l :
  zip_with f (g <$> l) (h <$> l) = (λ i, f (g i) (h i)) <$> l.
Proof. induction l; simpl; f_equal; auto. Qed.

Lemma zsum_fmap (f : Z → Z) l : zsum id (f <$> l) = zsum f l.
Proof. induction l as [|x l IH]; [done|]. rewrite fmap_cons. cbn [zsum]. by rewrite IH. Qed.

Lemma arange_split m n : 0 ≤ m ≤ n → ∃ l, arange n = arange m ++ l ∧ ∀ i, i ∈ l → m ≤ i.
Proof.
  intros H. exists (Z.of_nat <$> seq (Z.to_nat m) (Z.to_nat n - Z.to_nat m)). split.
  - unfold arange. rewrite <- fmap_app, <- seq_app. do 2 f_equal. lia.
  - intros i (k & -> & Hk%elem_of_seq)%list_elem_of_fmap. lia.
Qed.

(** Summing the lanes up to [pid] of values that vanish on the others. *)
Lemma zsum_lanes (f g : Z → Z) pid n : 0 ≤ pid < n →
  (∀ i, 0 ≤ i ≤ pid → f i = g i) → (∀ i, pid < i → f i = 0) →
  zsum f (arange n) = zsum g (arange pid) + g pid.
Proof.
  intros Hp Hg H0. destruct (arange_split (pid + 1) n) as (l & -> & Hl); [lia|].
  rewrite zsum_app. rewrite (zsum_ext f (λ _, 0) l) by (intros i Hi; apply H0; specialize (Hl i Hi); lia).
  rewrite (zsum_ext f g) by (intros i Hi%arange_elem; apply Hg; lia).
  replace (zsum (λ _, 0) l) with 0 by (clear; induction l; simpl; lia).
  unfold arange at 1. replace (Z.to_nat (pid + 1)) with (S (Z.to_nat pid)) by lia.
  rewrite seq_S, fmap_app, zsum_app. simpl. rewrite Z2Nat.id by lia. unfold arange. lia.
Qed.

Lemma load_masked l pid n i : i ∈ arange n → 0 ≤ pid →
  (λ o, if bool_decide (o ≤ pid) then load l o else undef o) i =
  if decide (i ≤ pid) then load l i else undef i.
Proof. intros _ _. simpl. case_bool_decide; case_decide; done. Qed.

Lemma store_mask_elem addr val mask n x v : (x, v) ∈ store_mask addr val mask (arange n) ↔
  ∃ o, 0 ≤ o < n ∧ mask o = true ∧ x = addr o ∧ v = val o.
Proof.
  unfold store_mask. rewrite list_elem_of_fmap. split.
  - intros (o & [= -> ->] & [Hm Ho%arange_elem]%list_elem_of_filter). eauto.
  - intros (o & Ho & Hm & -> & ->). exists o. split; [done|].
    apply list_elem_of_filter. by rewrite arange_elem.
Qed.

(** ** The arithmetic of pages *)

Lemma cdiv_bounds x ps : 0 < ps → (cdiv x ps - 1) * ps < x ≤ cdiv x ps * ps.
Proof. intros Hps. unfold cdiv. pose proof (Z.div_mod (x + ps - 1) ps). pose proof (Z.mod_pos_bound (x + ps - 1) ps). lia. Qed.

Lemma div_bounds x ps : 0 < ps → x `div` ps * ps ≤ x < (x `div` ps + 1) * ps.
Proof. intros Hps. pose proof (Z.div_mod x ps). pose proof (Z.mod_pos_bound x ps). lia. Qed.

Lemma cdiv_mono x y ps : 0 < ps → x ≤ y → cdiv x ps ≤ cdiv y ps.
Proof. intros. unfold cdiv. apply Z.div_le_mono; lia. Qed.

Lemma cdiv_div x ps : 0 < ps → cdiv x ps = x `div` ps + (if decide (x `mod` ps = 0) then 0 else 1).
Proof.
  intros Hps. pose proof (Z.div_mod x ps). pose proof (Z.mod_pos_bound x ps).
  symmetry. unfold cdiv. case_decide.
  - apply Z.div_unique_pos with (r := ps - 1); lia.
  - apply Z.div_unique_pos with (r := x `mod` ps - 1); lia.
Qed.

Lemma next_power_of_2_ge n : n ≤ next_power_of_2 n.
Proof.
  unfold next_power_of_2, bit_length. case_bool_decide; [|lia]. rewrite Z.shiftl_1_l.
  case_decide; [simpl; lia|]. destruct (Z.log2_spec (n - 1)); [lia|].
  rewrite Z.add_1_r in *. lia.
Qed.

Lemma arange_S i : 0 ≤ i → arange (i + 1) = arange i ++ [i].
Proof.
  intros. unfold arange. replace (Z.to_nat (i + 1)) with (S (Z.to_nat i)) by lia.
  rewrite seq_S, fmap_app. simpl. by rewrite Z2Nat.id.
Qed.

(** Prefix sums of non-negative lengths. *)
Lemma sums_mono bs (f : Z → Z) i j : (∀ k, 0 ≤ k < bs → 0 ≤ f k) → 0 ≤ i ≤ j → j ≤ bs →
  zsum f (arange i) ≤ zsum f (arange j).
Proof.
  clear oob undef uninit.
  intros Hf Hij Hj. destruct (arange_split i j Hij) as (l & E & Hl). rewrite E, zsum_app.
  enough (0 ≤ zsum f l) by lia. apply zsum_nonneg. intros k Hk. apply Hf.
  split; [specialize (Hl k Hk); lia|].
  assert (k ∈ arange j) as ?%arange_elem by (rewrite E; set_solver). lia.
Qed.

(** ** What [alloc_extend_kernel] stores *)

Section extend.
Context (pre seqs lasts pages : list Z) (ps : Z).

Definition pre_of i := load pre i.
Definition seq_of i := load seqs i.
Definition ext i := seq_of i - pre_of i.
Definition new_pages i := cdiv (seq_of i) ps - cdiv (pre_of i) ps.
(** Where request [i] begins in the output and in the free pages. *)
Definition start i := zsum ext (arange i).
Definition pstart i := zsum new_pages (arange i).

(** The slot of token position [t] of request [i]: the rest of its last page, then
    the new pages in order. *)
Definition slot_of i t : Z :=
  if decide (t < cdiv (pre_of i) ps * ps) then load lasts i + 1 + (t - pre_of i)
  else load pages (pstart i + (t `div` ps - cdiv (pre_of i) ps)) * ps + t `mod` ps.

Record valid_lens (bs : Z) : Prop := {
  va_ps : 0 < ps;
  va_lens i : 0 ≤ i < bs → 0 ≤ pre_of i ≤ seq_of i
}.

Lemma ext_lanes pid n : 0 ≤ pid < n →
  zsum id (zip_with (λ s p, s - p)
    (load_mask seqs (λ o, bool_decide (o ≤ pid)) (arange n))
    (load_mask pre (λ o, bool_decide (o ≤ pid)) (arange n))) = start pid + ext pid.
Proof.
  intros H. unfold load_mask. rewrite zip_with_fmap, zsum_fmap.
  apply (zsum_lanes _ ext); [done|..]; intros i Hi.
  - by rewrite bool_decide_eq_true_2 by lia.
  - rewrite bool_decide_eq_false_2 by lia. lia.
Qed.

Lemma pages_lanes pid n : 0 ≤ pid < n →
  zsum id (zip_with (λ s p, cdiv s ps - cdiv p ps)
    (load_mask seqs (λ o, bool_decide (o ≤ pid)) (arange n))
    (load_mask pre (λ o, bool_decide (o ≤ pid)) (arange n))) = pstart pid + new_pages pid.
Proof.
  intros H. unfold load_mask. rewrite zip_with_fmap, zsum_fmap.
  apply (zsum_lanes _ new_pages); [done|..]; intros i Hi.
  - by rewrite bool_decide_eq_true_2 by lia.
  - rewrite bool_decide_eq_false_2 by lia. lia.
Qed.

Lemma start_S i : 0 ≤ i → start (i + 1) = start i + ext i.
Proof. intros. unfold start. rewrite arange_S, zsum_app by done. simpl. lia. Qed.

Lemma pstart_S i : 0 ≤ i → pstart (i + 1) = pstart i + new_pages i.
Proof. intros. unfold pstart. rewrite arange_S, zsum_app by done. simpl. lia. Qed.

Context (bs : Z) (VA : valid_lens bs).

Lemma ext_nonneg i : 0 ≤ i < bs → 0 ≤ ext i.
Proof. intros Hi. pose proof (va_lens _ VA i Hi). unfold ext. lia. Qed.

Lemma new_pages_nonneg i : 0 ≤ i < bs → 0 ≤ new_pages i.
Proof.
  intros Hi. pose proof (va_lens _ VA i Hi). pose proof (va_ps _ VA). unfold new_pages.
  enough (cdiv (pre_of i) ps ≤ cdiv (seq_of i) ps) by lia. apply cdiv_mono; lia.
Qed.

Lemma start_lt i j : 0 ≤ i < j → j ≤ bs → start i + ext i ≤ start j.
Proof.
  intros Hij Hj. rewrite <- start_S by lia. apply (sums_mono bs); [|lia..]. apply ext_nonneg.
Qed.

Lemma pstart_lt i j : 0 ≤ i < j → j ≤ bs → pstart i + new_pages i ≤ pstart j.
Proof.
  intros Hij Hj. rewrite <- pstart_S by lia. apply (sums_mono bs); [|lia..]. apply new_pages_nonneg.
Qed.

(** Two positions of the output are written by one program only. *)
Lemma position_inj i j t u : 0 ≤ i < bs → 0 ≤ j < bs →
  pre_of i ≤ t < seq_of i → pre_of j ≤ u < seq_of j →
  start i + (t - pre_of i) = start j + (u - pre_of j) → i = j ∧ t = u.
Proof.
  intros Hi Hj Ht Hu E. destruct (Z.lt_trichotomy i j) as [Hlt|[->|Hlt]].
  - pose proof (start_lt i j ltac:(lia) ltac:(lia)). unfold ext in *. lia.
  - lia.
  - pose proof (start_lt j i ltac:(lia) ltac:(lia)). unfold ext in *. lia.
Qed.
Context (bs_upper max_ext : Z) (Hup : bs ≤ bs_upper).

(** The three parts cover the positions of the request, each once. *)
Lemma alloc_extend_stores pid x v : 0 ≤ pid < bs → ext pid ≤ max_ext →
  (x, v) ∈ (alloc_extend_kernel bs pid pre seqs lasts pages bs_upper ps max_ext).1 ↔
  ∃ t, pre_of pid ≤ t < seq_of pid ∧ x = start pid + (t - pre_of pid) ∧ v = slot_of pid t.
Proof.
  intros Hpid Hmax. destruct VA as [Hps Hlens]. specialize (Hlens pid Hpid).
  unfold alloc_extend_kernel. rewrite ext_lanes, pages_lanes by lia.
  fold (pre_of pid). fold (seq_of pid). fold (new_pages pid). fold (ext pid).
  rewrite !Z.add_simpl_r. unfold ext in Hmax.
  set (p := pre_of pid) in *. set (s := seq_of pid) in *. set (P := cdiv p ps).
  pose proof (cdiv_bounds p ps Hps) as HP. fold P in HP.
  pose proof (div_bounds s ps Hps) as HS. set (S := s `div` ps) in *.
  assert (Hslot1 : ∀ t, t < P * ps → slot_of pid t = load lasts pid + 1 + (t - p)).
  { intros t Ht. unfold slot_of. by rewrite decide_True. }
  assert (Hslot2 : ∀ q o, P ≤ q → 0 ≤ o < ps →
    slot_of pid (q * ps + o) = load pages (pstart pid + (q - P)) * ps + o).
  { intros q o Hq Ho. unfold slot_of. rewrite decide_False by (fold p P; nia).
    rewrite Z.div_add_l, Z.div_small, (Z.add_comm (q * ps)), Z_mod_plus_full, Z.mod_small by lia.
    by rewrite Z.add_0_r. }
  assert (Hpart1 : ∀ x v, (x, v) ∈ store_mask (λ o, start pid + o) (λ o, load lasts pid + 1 + o)
      (λ o, bool_decide (o < Z.min s (P * ps) - p)) (arange ps) ↔
    ∃ t, p ≤ t < Z.min s (P * ps) ∧ x = start pid + (t - p) ∧ v = slot_of pid t).
  { intros x' v'. rewrite store_mask_elem. split.
    - intros (o & Ho & Hm%bool_decide_eq_true & -> & ->). exists (p + o).
      rewrite Hslot1 by lia. split_and!; lia.
    - intros (t & Ht & -> & ->). exists (t - p). rewrite Hslot1, bool_decide_eq_true by lia.
      split_and!; lia. }
  case_decide as E1.
  { simpl. rewrite Hpart1. split; intros (t & ? & ? & ?); exists t; split_and!; lia || done. }
  assert (Hsp : P * ps < s) by lia. rewrite Z.min_r in * by lia.
  assert (HPS : P ≤ S) by nia. assert (HPSm : P * ps ≤ S * ps) by nia.
  assert (Hpart2 : ∀ x v, (x, v) ∈ store_mask (λ o, start pid + (P * ps - p) + o)
      (λ o, load pages (pstart pid + o `div` ps) * ps + o `mod` ps)
      (λ o, bool_decide (o < S * ps - P * ps)) (arange max_ext) ↔
    ∃ t, P * ps ≤ t < S * ps ∧ x = start pid + (t - p) ∧ v = slot_of pid t).
  { intros x' v'. rewrite store_mask_elem.
    assert (Hval : ∀ o, 0 ≤ o → slot_of pid (P * ps + o) =
              load pages (pstart pid + o `div` ps) * ps + o `mod` ps).
    { intros o Ho. pose proof (Z.div_mod o ps ltac:(lia)) as E.
      pose proof (Z.mod_pos_bound o ps Hps). pose proof (Z.div_pos o ps Ho Hps).
      replace (P * ps + o) with ((P + o `div` ps) * ps + o `mod` ps) by lia.
      rewrite Hslot2 by lia. do 3 f_equal. lia. }
    split.
    - intros (o & Ho & Hm%bool_decide_eq_true & -> & ->). exists (P * ps + o).
      rewrite Hval by lia. split_and!; lia.
    - intros (t & Ht & -> & ->). exists (t - P * ps). rewrite bool_decide_eq_true.
      rewrite <- Hval by lia. split_and!; try lia. f_equal. lia. }
  case_decide as E2.
  { simpl. rewrite elem_of_app, Hpart1, Hpart2. split.
    - intros [(t & ? & ? & ?)|(t & ? & ? & ?)]; exists t; split_and!; lia || done.
    - intros (t & ? & ? & ?). destruct (decide (t < P * ps)); [left|right]; exists t; split_and!; lia || done. }
  assert (Hlast : new_pages pid - 1 = S - P).
  { unfold new_pages. fold s p P. rewrite (cdiv_div s ps Hps). fold S.
    pose proof (Z.div_mod s ps ltac:(lia)). case_decide; [|lia]. exfalso. apply E2. unfold S. lia. }
  simpl. rewrite !elem_of_app, Hpart1, Hpart2, store_mask_elem.
  rewrite <- Z.add_sub_assoc, Hlast. split.
  - intros [(t & ? & ? & ?)|[(t & ? & ? & ?)|(o & Ho & Hm%bool_decide_eq_true & -> & ->)]].
    + exists t; split_and!; lia || done.
    + exists t; split_and!; lia || done.
    + exists (S * ps + o). rewrite Hslot2 by lia. split_and!; lia.
  - intros (t & ? & ? & ?). destruct (decide (t < P * ps)); [left; exists t; split_and!; lia || done|].
    destruct (decide (t < S * ps)); [right; left; exists t; split_and!; lia || done|right; right].
    exists (t - S * ps). rewrite bool_decide_eq_true, <- Hslot2 by lia.
    replace (S * ps + (t - S * ps)) with t by lia. split_and!; lia || done.
Qed.

Lemma alloc_extend_ret pid : 0 ≤ pid < bs →
  (alloc_extend_kernel bs pid pre seqs lasts pages bs_upper ps max_ext).2 =
  if decide (pid = bs - 1)
  then Some (Z.lor (wrap64 (Z.shiftl (pstart pid + new_pages pid) 32)) (start pid + ext pid)) else None.
Proof.
  intros Hpid. unfold alloc_extend_kernel. rewrite ext_lanes, pages_lanes by lia.
  by repeat case_decide.
Qed.
End extend.

(** ** A launch *)

Lemma run_stores_lookup stores x v : (∀ w, (x, w) ∈ stores → w = v) → (x, v) ∈ stores →
  run_stores stores !! x = Some v.
Proof.
  clear oob undef uninit.
  unfold run_stores. induction stores as [|[y w] l IH] using rev_ind; intros Hall Hin.
  { by apply elem_of_nil in Hin. }
  rewrite foldl_app. simpl. destruct (decide (y = x)) as [->|Hne].
  - rewrite lookup_insert_eq. f_equal. apply Hall. set_solver.
  - rewrite lookup_insert_ne by done. apply IH.
    + intros w' Hw'. apply Hall. set_solver.
    + apply elem_of_app in Hin as [?|?%list_elem_of_singleton]; [done|]. congruence.
Qed.

Lemma launch_elem (kernel : Z → list (Z * Z) * option Z) order s :
  s ∈ concat ((λ pid, (kernel pid).1) <$> order) ↔ ∃ pid, pid ∈ order ∧ s ∈ (kernel pid).1.
Proof.
  clear oob undef uninit.
  induction order as [|pid order IH]; simpl.
  - split; [by intros ?%elem_of_nil|by intros (? & ?%elem_of_nil & _)].
  - rewrite elem_of_app, IH. split.
    + intros [?|(q & ? & ?)]; [exists pid|exists q]; (split; [set_solver|done]).
    + intros (q & [->|?]%elem_of_cons & ?); [by left|right; eauto].
Qed.

Lemma launch_ret (kernel : Z → list (Z * Z) * option Z) order q v : q ∈ order →
  (kernel q).2 = Some v → (∀ pid w, pid ∈ order → (kernel pid).2 = Some w → w = v) →
  (launch kernel order).2 = Some v.
Proof.
  intros Hq Hv Hall. simpl. assert (H : ∀ r l, (∀ pid, pid ∈ l → pid ∈ order) →
    (∀ w, r = Some w → w = v) → r = Some v ∨ q ∈ l →
    foldl (λ r pid, match (kernel pid).2 with Some v => Some v | None => r end) r l = Some v).
  { intros r l. revert r. induction l as [|pid l IH]; intros r Hl Hr Hd; simpl.
    - by destruct Hd as [?|?%elem_of_nil].
    - assert (Hpid : pid ∈ order) by (apply Hl; left). apply IH.
      + intros p Hp. apply Hl. by right.
      + intros w. destruct (kernel pid).2 as [w'|] eqn:E; [|by apply Hr].
        intros [= ->]. by eapply Hall.
      + destruct Hd as [->|[->|?]%elem_of_cons]; [left|left; by rewrite Hv|by right].
        destruct (kernel pid).2 as [w'|] eqn:E; [|done]. f_equal. by eapply Hall. }
  apply H; [done..|by right].
Qed.

(** The two halves of the packed result do not mix. *)
Lemma packed_pages p e : 0 ≤ p < 2 ^ 31 → 0 ≤ e < 2 ^ 32 →
  Z.shiftr (Z.lor (wrap64 (Z.shiftl p 32)) e) 32 = p.
Proof.
  intros Hp He. assert (E : wrap64 (Z.shiftl p 32) = Z.shiftl p 32).
  { rewrite Z.shiftl_mul_pow2 by lia. unfold wrap64. rewrite Z.mod_small; lia. }
  rewrite E, Z.shiftr_lor, Z.shiftr_shiftl_l by lia. rewrite Z.sub_diag, Z.shiftl_0_r.
  rewrite (Z.shiftr_div_pow2 e), Z.div_small by lia. apply Z.lor_0_r.
Qed.

Lemma read_out_lookup m n i v : 0 ≤ i < n → m !! i = Some v → read_out m n !! Z.to_nat i = Some v.
Proof.
  intros Hi Hm. unfold read_out, arange. rewrite !list_lookup_fmap, lookup_seq_lt by lia. simpl.
  rewrite Z2Nat.id by lia. by rewrite Hm.
Qed.

Lemma length_read_out m n : 0 ≤ n → Z.of_nat (length (read_out m n)) = n.
Proof. intros. unfold read_out, arange. rewrite !length_fmap, length_seq. lia. Qed.

(** The requests of one launch of [alloc_extend] that the free pages can serve. *)
Record extend_ok (a : PagedAlloc) (order pre seqs lasts : list Z) (bs : Z) : Prop := {
  xo_bs : bs = Z.of_nat (length pre) ∧ 0 < bs;
  xo_lens : valid_lens pre seqs (pa_page_size a) bs;
  xo_order : order ≡ₚ arange bs;
  xo_small : start pre seqs bs < 2 ^ 32 ∧ pstart pre seqs (pa_page_size a) bs < 2 ^ 31;
  xo_debug : debug_mode a = false
}.

Section launch.
Context (a : PagedAlloc) (order pre seqs lasts : list Z) (bs : Z).
Context (XO : extend_ok a order pre seqs lasts bs).
Local Abbreviation ps := (pa_page_size a).
Local Abbreviation total := (start pre seqs bs).
Local Abbreviation total_pages := (pstart pre seqs ps bs).

Let kernel := λ pid, alloc_extend_kernel bs pid pre seqs lasts (free_pages a)
                       (next_power_of_2 bs) ps (next_power_of_2 total).

Lemma extend_memory i t : 0 ≤ i < bs → pre_of pre i ≤ t < seq_of seqs i →
  (launch kernel order).1 !! (start pre seqs i + (t - pre_of pre i)) =
  Some (slot_of pre seqs lasts (free_pages a) ps i t).
Proof.
  destruct XO as [[_ Hbs] VA Hord _ _]. intros Hi Ht. simpl.
  assert (Hstores : ∀ j x v, 0 ≤ j < bs → (x, v) ∈ (kernel j).1 ↔
    ∃ u, pre_of pre j ≤ u < seq_of seqs j ∧ x = start pre seqs j + (u - pre_of pre j) ∧
         v = slot_of pre seqs lasts (free_pages a) ps j u).
  { intros j x v Hj. apply alloc_extend_stores; [done|apply next_power_of_2_ge|done|].
    etrans; [|apply next_power_of_2_ge].
    pose proof (sums_mono bs (ext pre seqs) 0 j (ext_nonneg pre seqs ps bs VA) ltac:(lia) ltac:(lia)) as H0.
    pose proof (sums_mono bs (ext pre seqs) (j + 1) bs (ext_nonneg pre seqs ps bs VA) ltac:(lia) ltac:(lia)) as H1.
    pose proof (start_S pre seqs j ltac:(lia)) as H2. unfold start in *. simpl in H0. lia. }
  apply run_stores_lookup.
  - intros w (j & Hj & Hw)%launch_elem. rewrite Hord in Hj. apply arange_elem in Hj.
    apply Hstores in Hw as (u & Hu & E & ->); [|done].
    by destruct (position_inj pre seqs ps bs VA i j t u Hi Hj Ht Hu E) as [-> ->].
  - apply launch_elem. exists i. rewrite Hord, arange_elem. split; [done|].
    apply Hstores; [done|]. eauto.
Qed.

Lemma extend_ret : ∃ v, (launch kernel order).2 = Some v ∧ Z.shiftr v 32 = total_pages.
Proof.
  destruct XO as [[_ Hbs] VA Hord [Hs Hp] _].
  assert (E : start pre seqs (bs - 1) + ext pre seqs (bs - 1) = total ∧
              pstart pre seqs ps (bs - 1) + new_pages pre seqs ps (bs - 1) = total_pages).
  { rewrite <- start_S, <- pstart_S by lia. by rewrite Z.sub_simpl_r. }
  destruct E as [E1 E2].
  pose proof (sums_mono bs _ 0 bs (ext_nonneg pre seqs ps bs VA) ltac:(lia) ltac:(lia)) as H0.
  pose proof (sums_mono bs _ 0 bs (new_pages_nonneg pre seqs ps bs VA) ltac:(lia) ltac:(lia)) as H1.
  simpl in H0, H1. fold (start pre seqs bs) in H0. fold (pstart pre seqs ps bs) in H1.
  exists (Z.lor (wrap64 (Z.shiftl total_pages 32)) total). split; [|apply packed_pages; lia].
  assert (Hret : ∀ pid, 0 ≤ pid < bs → (kernel pid).2 =
    if decide (pid = bs - 1) then Some (Z.lor (wrap64 (Z.shiftl total_pages 32)) total) else None).
  { intros pid Hpid. unfold kernel. rewrite (alloc_extend_ret pre seqs lasts (free_pages a) ps bs);
      [|apply next_power_of_2_ge|done]. case_decide as E; [|done]. by rewrite E, E1, E2. }
  apply (launch_ret _ _ (bs - 1)).
  - rewrite Hord. apply arange_elem. lia.
  - rewrite Hret by lia. by rewrite decide_True.
  - intros pid w Hpid. rewrite Hord in Hpid. apply arange_elem in Hpid.
    rewrite Hret by done. case_decide; congruence.
Qed.

Lemma total_pages_nonneg : 0 ≤ total ∧ 0 ≤ total_pages.
Proof.
  destruct XO as [[_ Hbs] VA _ _ _]. split.
  - apply (sums_mono bs _ 0 bs (ext_nonneg pre seqs ps bs VA)); lia.
  - apply (sums_mono bs _ 0 bs (new_pages_nonneg pre seqs ps bs VA)); lia.
Qed.

(** The call, up to the memory of the launch. *)
Lemma extend_call : pa_alloc_extend order pre seqs lasts total a =
  if bool_decide (Z.of_nat (length (free_pages a)) < total_pages) then (Ok None, a)
  else (Ok (Some (read_out (launch kernel order).1 total)),
        set_pages (drop (Z.to_nat total_pages) (free_pages a)) a).
Proof.
  destruct extend_ret as (v & Hv & Hsh). destruct XO as [[Hbs _] _ _ _ Hdbg].
  unfold pa_alloc_extend, mbind, M_bind, get, py_assert, of_option, modify.
  rewrite Hdbg, <- Hbs. cbn [negb orb mret M_ret]. fold kernel.
  destruct (launch kernel order) as [mem ret] eqn:E. cbn [fst snd] in *. subst ret.
  rewrite Hsh. by case_bool_decide.
Qed.
End launch.

(** ** The requests do not share slots *)

(** Where the last tokens lie: each request's last slot continues its own page, which
    is nobody else's and not free. *)
Record tails_ok (a : PagedAlloc) (pre lasts : list Z) (bs : Z) : Prop := {
  to_nodup : NoDup (free_pages a);
  to_align i : 0 ≤ i < bs → (load lasts i + 1) `mod` pa_page_size a = pre_of pre i `mod` pa_page_size a;
  to_fresh i : 0 ≤ i < bs → pre_of pre i `mod` pa_page_size a ≠ 0 →
    load lasts i `div` pa_page_size a ∉ free_pages a;
  to_inj i j : 0 ≤ i < bs → 0 ≤ j < bs →
    pre_of pre i `mod` pa_page_size a ≠ 0 → pre_of pre j `mod` pa_page_size a ≠ 0 →
    load lasts i `div` pa_page_size a = load lasts j `div` pa_page_size a → i = j
}.

Section slots.
Context (a : PagedAlloc) (pre seqs lasts : list Z) (bs : Z).
Local Abbreviation ps := (pa_page_size a).
Local Abbreviation slot := (slot_of pre seqs lasts (free_pages a) ps).
Context (VA : valid_lens pre seqs ps bs) (TO : tails_ok a pre lasts bs).
Context (Hfit : pstart pre seqs ps bs ≤ Z.of_nat (length (free_pages a))).

(** Positions in the old page and in the new ones. *)
Lemma slot_old i t : 0 ≤ i < bs → pre_of pre i ≤ t < cdiv (pre_of pre i) ps * ps →
  slot i t `mod` ps = t `mod` ps ∧ slot i t `div` ps = load lasts i `div` ps ∧ pre_of pre i `mod` ps ≠ 0.
Proof.
  intros Hi Ht. pose proof (va_ps _ _ _ _ VA) as Hps. pose proof (to_align _ _ _ _ TO i Hi) as Hal.
  unfold slot_of. rewrite decide_True by lia. set (p := pre_of pre i) in *. set (l := load lasts i) in *.
  assert (Hp0 : p `mod` ps ≠ 0).
  { intros E. rewrite cdiv_div, decide_True, Z.add_0_r in Ht by done.
    pose proof (Z.div_mod p ps ltac:(lia)). lia. }
  pose proof (Z.div_mod p ps ltac:(lia)) as Ep. pose proof (Z.mod_pos_bound p ps Hps) as Bp.
  pose proof (Z.div_mod (l + 1) ps ltac:(lia)) as El. rewrite Hal in El.
  rewrite cdiv_div, decide_False in Ht by done.
  set (q := (l + 1) `div` ps) in *. set (r := p `mod` ps) in *. set (pq := p `div` ps) in *.
  assert (Hl : l `div` ps = q) by (symmetry; apply Z.div_unique_pos with (r := r - 1); lia).
  assert (Hd : (l + 1 + (t - p)) `div` ps = q).
  { symmetry. apply Z.div_unique_pos with (r := r + (t - p)); lia. }
  assert (Hm : (l + 1 + (t - p)) `mod` ps = r + (t - p)).
  { symmetry. apply Z.mod_unique_pos with (q := q); lia. }
  assert (Htm : t `mod` ps = r + (t - p)).
  { symmetry. apply Z.mod_unique_pos with (q := pq); lia. }
  split_and!; [lia|lia|done].
Qed.

Lemma slot_new i t : 0 ≤ i < bs → cdiv (pre_of pre i) ps * ps ≤ t < seq_of seqs i →
  slot i t `mod` ps = t `mod` ps ∧
  let k := pstart pre seqs ps i + (t `div` ps - cdiv (pre_of pre i) ps) in
  pstart pre seqs ps i ≤ k < pstart pre seqs ps i + new_pages pre seqs ps i ∧
  free_pages a !! Z.to_nat k = Some (slot i t `div` ps).
Proof.
  intros Hi Ht. pose proof (va_ps _ _ _ _ VA) as Hps. cbv zeta.
  set (c := cdiv (pre_of pre i) ps) in *. set (k := pstart pre seqs ps i + (t `div` ps - c)).
  pose proof (div_bounds t ps Hps) as Bt. pose proof (cdiv_bounds (seq_of seqs i) ps Hps) as Bs.
  pose proof (Z.mod_pos_bound t ps Hps) as Bm.
  assert (Hk : pstart pre seqs ps i ≤ k < pstart pre seqs ps i + new_pages pre seqs ps i).
  { unfold k, new_pages. fold c. nia. }
  pose proof (sums_mono bs _ 0 i (new_pages_nonneg pre seqs ps bs VA) ltac:(lia) ltac:(lia)) as H0.
  simpl in H0. fold (pstart pre seqs ps i) in H0.
  assert (Hle : k < pstart pre seqs ps bs).
  { pose proof (sums_mono bs _ (i + 1) bs (new_pages_nonneg pre seqs ps bs VA) ltac:(lia) ltac:(lia)) as H1.
    fold (pstart pre seqs ps bs) in H1. fold (pstart pre seqs ps (i + 1)) in H1.
    rewrite pstart_S in H1 by lia. lia. }
  destruct (lookup_lt_is_Some_2 (free_pages a) (Z.to_nat k)) as [pg Hpg]; [lia|].
  assert (Hs : slot i t = pg * ps + t `mod` ps).
  { unfold slot_of. rewrite decide_False by (fold c; lia). fold c k. unfold load, nthZ.
    rewrite bool_decide_eq_true_2 by lia. by rewrite Hpg. }
  rewrite Hs. split_and!; [|lia|lia|].
  - by rewrite Z.add_comm, Z_mod_plus_full, Zmod_mod.
  - rewrite Z.div_add_l, Z.div_small by lia. by rewrite Z.add_0_r, Hpg.
Qed.

Lemma slot_aligned i t : 0 ≤ i < bs → pre_of pre i ≤ t < seq_of seqs i → slot i t `mod` ps = t `mod` ps.
Proof.
  intros Hi Ht. destruct (decide (t < cdiv (pre_of pre i) ps * ps)).
  - by destruct (slot_old i t) as [? _]; [done|lia|].
  - by destruct (slot_new i t) as [? _]; [done|lia|].
Qed.

Lemma slot_inj i j t u : 0 ≤ i < bs → 0 ≤ j < bs →
  pre_of pre i ≤ t < seq_of seqs i → pre_of pre j ≤ u < seq_of seqs j →
  slot i t = slot j u → i = j ∧ t = u.
Proof.
  intros Hi Hj Ht Hu E. pose proof (va_ps _ _ _ _ VA) as Hps. pose proof (to_nodup _ _ _ _ TO) as Hnd.
  assert (Hmod : t `mod` ps = u `mod` ps) by (rewrite <- (slot_aligned i t), <- (slot_aligned j u), E by done; done).
  assert (Hold : ∀ i t, 0 ≤ i < bs → pre_of pre i ≤ t < cdiv (pre_of pre i) ps * ps →
            slot i t `div` ps ∉ free_pages a).
  { intros i0 t0 Hi0 Ht0. destruct (slot_old i0 t0 Hi0 Ht0) as (_ & -> & ?). by apply (to_fresh _ _ _ _ TO). }
  destruct (decide (t < cdiv (pre_of pre i) ps * ps)) as [H1|H1],
           (decide (u < cdiv (pre_of pre j) ps * ps)) as [H2|H2].
  - destruct (slot_old i t) as (_ & E1 & N1); [lia..|]. destruct (slot_old j u) as (_ & E2 & N2); [lia..|].
    assert (i = j) as <- by (apply (to_inj _ _ _ _ TO); congruence). split; [done|].
    revert E. unfold slot_of. rewrite !decide_True by lia. lia.
  - exfalso. apply (Hold i t); [lia..|]. rewrite E.
    destruct (slot_new j u) as (_ & _ & Hl); [lia..|]. by eapply list_elem_of_lookup_2.
  - exfalso. apply (Hold j u); [lia..|]. rewrite <- E.
    destruct (slot_new i t) as (_ & _ & Hl); [lia..|]. by eapply list_elem_of_lookup_2.
  - destruct (slot_new i t) as (_ & K1 & L1); [lia..|]. destruct (slot_new j u) as (_ & K2 & L2); [lia..|].
    rewrite E in L1. pose proof (NoDup_lookup _ _ _ _ Hnd L1 L2) as Ek.
    assert (H0 : ∀ i, 0 ≤ i < bs → 0 ≤ pstart pre seqs ps i).
    { intros i0 Hi0. apply (sums_mono bs _ 0 i0 (new_pages_nonneg pre seqs ps bs VA)); lia. }
    pose proof (H0 i Hi). pose proof (H0 j Hj).
    assert (i = j) as <-.
    { destruct (Z.lt_trichotomy i j) as [Hlt|[?|Hlt]]; [|done|].
      - pose proof (pstart_lt pre seqs ps bs VA i j ltac:(lia) ltac:(lia)). lia.
      - pose proof (pstart_lt pre seqs ps bs VA j i ltac:(lia) ltac:(lia)). lia. }
    split; [done|]. rewrite (Z.div_mod t ps), (Z.div_mod u ps) by lia. rewrite Hmod. do 2 f_equal. lia.
Qed.
End slots.

(** ** The allocator *)

(** C22: [alloc_extend], whatever the order the programs of the launch run in: with too
    few free pages it returns [None] and keeps the pages; otherwise it takes exactly
    the new pages of all requests from the front of the free list and returns, in
    request order, for each token first the rest of the request's last page and then
    its new pages in order.  The packed return value loses nothing below 2^32 tokens. *)
Theorem alloc_extend_correct a order pre seqs lasts bs : extend_ok a order pre seqs lasts bs →
  let ps := pa_page_size a in
  let total := start pre seqs bs in
  let total_pages := pstart pre seqs ps bs in
  let r := pa_alloc_extend order pre seqs lasts total a in
  (Z.of_nat (length (free_pages a)) < total_pages → r = (Ok None, a)) ∧
  (total_pages ≤ Z.of_nat (length (free_pages a)) → ∃ out,
    r = (Ok (Some out), set_pages (drop (Z.to_nat total_pages) (free_pages a)) a) ∧
    Z.of_nat (length out) = total ∧
    ∀ i t, 0 ≤ i < bs → pre_of pre i ≤ t < seq_of seqs i →
      out !! Z.to_nat (start pre seqs i + (t - pre_of pre i)) =
      Some (slot_of pre seqs lasts (free_pages a) ps i t)).
Proof.
  intros XO. cbv zeta. rewrite (extend_call _ _ _ _ _ _ XO). split.
  - intros H. by rewrite bool_decide_eq_true_2.
  - intros H. rewrite bool_decide_eq_false_2 by lia. eexists. split; [done|]. split.
    + apply length_read_out. by apply (total_pages_nonneg _ _ _ _ _ _ XO).
    + intros i t Hi Ht. apply read_out_lookup; [|by apply extend_memory].
      destruct XO as [[_ Hbs] VA _ _ _].
      pose proof (sums_mono bs _ 0 i (ext_nonneg pre seqs _ bs VA) ltac:(lia) ltac:(lia)) as H0.
      pose proof (sums_mono bs _ (i + 1) bs (ext_nonneg pre seqs _ bs VA) ltac:(lia) ltac:(lia)) as H1.
      fold (start pre seqs bs) in H1. fold (start pre seqs (i + 1)) in H1. simpl in H0.
      fold (start pre seqs i) in H0. rewrite start_S in H1 by lia. unfold ext in H1. lia.
Qed.

(** C23: the slots of one [alloc_extend] are pairwise distinct, over all requests and
    positions, and every token lies at its own offset within a page. *)
Theorem alloc_extend_distinct a order pre seqs lasts bs out a' :
  extend_ok a order pre seqs lasts bs → tails_ok a pre lasts bs →
  pa_alloc_extend order pre seqs lasts (start pre seqs bs) a = (Ok (Some out), a') →
  (∀ i t v, 0 ≤ i < bs → pre_of pre i ≤ t < seq_of seqs i →
    out !! Z.to_nat (start pre seqs i + (t - pre_of pre i)) = Some v →
    v `mod` pa_page_size a = t `mod` pa_page_size a) ∧
  (∀ i j t u, 0 ≤ i < bs → 0 ≤ j < bs → pre_of pre i ≤ t < seq_of seqs i →
    pre_of pre j ≤ u < seq_of seqs j →
    out !! Z.to_nat (start pre seqs i + (t - pre_of pre i)) =
    out !! Z.to_nat (start pre seqs j + (u - pre_of pre j)) → i = j ∧ t = u).
Proof.
  intros XO TO. rewrite (extend_call _ _ _ _ _ _ XO). case_bool_decide as Hfit; [done|].
  intros [= <- <-]. pose proof (xo_lens _ _ _ _ _ _ XO) as VA.
  assert (Hout : ∀ i t, 0 ≤ i < bs → pre_of pre i ≤ t < seq_of seqs i →
    read_out (launch (λ pid, alloc_extend_kernel bs pid pre seqs lasts (free_pages a)
      (next_power_of_2 bs) (pa_page_size a) (next_power_of_2 (start pre seqs bs))) order).1
      (start pre seqs bs) !! Z.to_nat (start pre seqs i + (t - pre_of pre i)) =
    Some (slot_of pre seqs lasts (free_pages a) (pa_page_size a) i t)).
  { intros i t Hi Ht. apply read_out_lookup; [|by apply extend_memory].
    pose proof (sums_mono bs _ 0 i (ext_nonneg pre seqs _ bs VA) ltac:(lia) ltac:(lia)) as H0.
    pose proof (sums_mono bs _ (i + 1) bs (ext_nonneg pre seqs _ bs VA) ltac:(lia) ltac:(lia)) as H1.
    fold (start pre seqs bs) in H1. fold (start pre seqs (i + 1)) in H1. simpl in H0.
    fold (start pre seqs i) in H0. rewrite start_S in H1 by lia. unfold ext in H1. lia. }
  split.
  - intros i t v Hi Ht. rewrite Hout by done. intros [= <-].
    apply (slot_aligned a pre seqs lasts bs VA TO); [lia|done..].
  - intros i j t u Hi Hj Ht Hu. rewrite !Hout by done. intros [= E].
    by apply (slot_inj a pre seqs lasts bs VA TO) in E; [|lia|..].
Qed.

(** ** Decoding is extending by one token *)

Lemma load_fmap f l i n : Z.of_nat (length l) = n → 0 ≤ i < n → load (f <$> l) i = f (load l i).
Proof.
  intros Hl Hi. unfold load, nthZ. rewrite bool_decide_eq_true_2, list_lookup_fmap by lia.
  destruct (lookup_lt_is_Some_2 l (Z.to_nat i)) as [x Hx]; [lia|]. by rewrite Hx.
Qed.

Lemma zip_with_id_fmap {A} (f : Z → Z → A) (g : Z → Z) l : zip_with f l (g <$> l) = (λ i, f i (g i)) <$> l.
Proof. induction l; simpl; f_equal; auto. Qed.

Section decode.
Context (a : PagedAlloc) (order seqs lasts : list Z) (bs : Z).
Local Abbreviation ps := (pa_page_size a).
Local Abbreviation pre := (Z.pred <$> seqs).
Context (XO : extend_ok a order pre seqs lasts bs).

Let decode := λ pid, alloc_decode_kernel bs pid seqs lasts (free_pages a) (next_power_of_2 bs) ps.

Lemma decode_pre i : 0 ≤ i < bs → pre_of pre i = seq_of seqs i - 1.
Proof.
  destruct XO as [[Hbs _] _ _ _ _]. rewrite length_fmap in Hbs. intros Hi.
  unfold pre_of. rewrite (load_fmap _ _ _ bs) by done. unfold seq_of. lia.
Qed.

Lemma decode_start i : 0 ≤ i ≤ bs → start pre seqs i = i.
Proof.
  intros Hi. unfold start. rewrite (zsum_ext _ (λ _, 1)).
  - assert (E : ∀ l : list Z, zsum (λ _, 1) l = Z.of_nat (length l)) by (intros l; induction l; simpl; lia).
    rewrite E. unfold arange. rewrite length_fmap, length_seq. lia.
  - intros j Hj%arange_elem. unfold ext. rewrite decode_pre by lia. lia.
Qed.

Lemma decode_lanes pid n : 0 ≤ pid < bs → bs ≤ n →
  zsum id (zip_with (λ s p, cdiv s ps - cdiv p ps)
    (load_mask seqs (λ o, bool_decide (o ≤ pid)) (arange n))
    (zip_with (λ o s, if bool_decide (o ≤ pid) then s - 1 else s) (arange n)
       (load_mask seqs (λ o, bool_decide (o ≤ pid)) (arange n)))) =
  pstart pre seqs ps pid + new_pages pre seqs ps pid.
Proof.
  intros Hpid Hn. unfold load_mask. rewrite zip_with_id_fmap, zip_with_fmap, zsum_fmap.
  apply (zsum_lanes _ (new_pages pre seqs ps)); [lia|..]; intros i Hi; simpl.
  - rewrite bool_decide_eq_true_2 by lia. unfold new_pages. rewrite decode_pre by lia. done.
  - rewrite bool_decide_eq_false_2 by lia. lia.
Qed.

(** One store per request, where [alloc_extend] puts the request's only token. *)
Lemma decode_kernel pid : 0 ≤ pid < bs → decode pid =
  ([(pid, slot_of pre seqs lasts (free_pages a) ps pid (seq_of seqs pid - 1))],
   if decide (pid = bs - 1) then Some (pstart pre seqs ps bs) else None).
Proof.
  intros Hpid. unfold decode, alloc_decode_kernel.
  rewrite decode_lanes by (done || apply next_power_of_2_ge).
  assert (Enp : cdiv (load seqs pid) ps - cdiv (load seqs pid - 1) ps = new_pages pre seqs ps pid).
  { unfold new_pages. by rewrite decode_pre. }
  rewrite Enp, Z.add_simpl_r. fold (seq_of seqs pid).
  assert (Hret : (if decide (pid = bs - 1)
            then Some (pstart pre seqs ps pid + new_pages pre seqs ps pid) else None) =
          (if decide (pid = bs - 1) then Some (pstart pre seqs ps bs) else None)).
  { case_decide as E; [|done]. rewrite <- pstart_S by lia. do 2 f_equal. lia. }
  rewrite Hret. clear Hret Enp. destruct XO as [_ [Hps Hl] _ _ _]. specialize (Hl pid Hpid).
  unfold slot_of. rewrite decode_pre in * by done. set (s := seq_of seqs pid) in *.
  unfold new_pages. rewrite decode_pre by done. fold s.
  pose proof (cdiv_bounds s ps Hps) as Bs. pose proof (cdiv_bounds (s - 1) ps Hps) as Bp.
  pose proof (cdiv_mono (s - 1) s ps Hps ltac:(lia)) as Hm.
  destruct (decide (s - 1 < cdiv (s - 1) ps * ps)) as [Hlt|Hge].
  - assert (cdiv s ps = cdiv (s - 1) ps) as -> by nia.
    rewrite decide_True by lia. do 3 f_equal. lia.
  - assert (E : s - 1 = cdiv (s - 1) ps * ps) by lia.
    rewrite decide_False by (intros ?; nia). set (q := cdiv (s - 1) ps) in *.
    rewrite E, Z.div_mul, Z.mod_mul, Z.sub_diag, !Z.add_0_r by lia. done.
Qed.

Lemma decode_memory i : 0 ≤ i < bs → (launch decode order).1 !! i =
  Some (slot_of pre seqs lasts (free_pages a) ps i (seq_of seqs i - 1)).
Proof.
  intros Hi. destruct XO as [_ _ Hord _ _]. simpl. apply run_stores_lookup.
  - intros w (j & Hj & Hw)%launch_elem. rewrite Hord in Hj. apply arange_elem in Hj.
    rewrite decode_kernel in Hw by done. apply list_elem_of_singleton in Hw. by simplify_eq.
  - apply launch_elem. exists i. rewrite Hord, arange_elem. split; [done|].
    rewrite decode_kernel by done. by left.
Qed.

Lemma decode_ret : (launch decode order).2 = Some (pstart pre seqs ps bs).
Proof.
  destruct XO as [[_ Hbs] _ Hord _ _]. apply (launch_ret _ _ (bs - 1)).
  - rewrite Hord. apply arange_elem. lia.
  - rewrite decode_kernel by lia. simpl. by rewrite decide_True.
  - intros pid w Hpid. rewrite Hord in Hpid. apply arange_elem in Hpid.
    rewrite decode_kernel by done. simpl. case_decide; congruence.
Qed.
End decode.

(** C24: [alloc_decode] is [alloc_extend] of every request by one token: the same slots,
    the same remaining pages, and [None] in the same cases. *)
Theorem alloc_decode_extend a order seqs lasts bs :
  extend_ok a order (Z.pred <$> seqs) seqs lasts bs →
  pa_alloc_decode order seqs lasts a = pa_alloc_extend order (Z.pred <$> seqs) seqs lasts bs a.
Proof.
  intros XO. pose proof (decode_start _ _ _ _ _ XO bs) as Es. pose proof XO as XO'.
  destruct XO' as [[Hbs Hb0] VA Hord _ Hdbg]. rewrite length_fmap in Hbs.
  rewrite <- Es at 1 by lia. rewrite (extend_call _ _ _ _ _ _ XO). rewrite Es by lia.
  pose proof (decode_ret _ _ _ _ _ XO) as Hret. pose proof (decode_memory _ _ _ _ _ XO) as Hmem.
  unfold pa_alloc_decode, mbind, M_bind, get, py_assert, of_option, modify.
  rewrite Hdbg, <- Hbs. cbn [negb orb mret M_ret].
  destruct (launch (λ pid, alloc_decode_kernel _ _ _ _ _ _ _) order) as [mem ret]. simpl in *. subst ret.
  case_bool_decide; [done|]. unfold mret, M_ret. do 3 f_equal. unfold read_out. apply list_fmap_ext.
  intros k i Hk. assert (Hi : 0 ≤ i < bs).
  { apply arange_elem. by eapply list_elem_of_lookup_2. }
  rewrite Hmem by done. symmetry.
  pose proof (extend_memory a order _ seqs lasts bs XO i (seq_of seqs i - 1) Hi) as E.
  rewrite (decode_pre _ _ _ _ _ XO), (decode_start _ _ _ _ _ XO) in E by lia.
  rewrite Z.sub_diag, Z.add_0_r in E. rewrite Es in E by lia. simpl in E. by rewrite E by lia.
Qed.

(** ** Freeing *)

Lemma unique_elem l x : x ∈ unique l ↔ x ∈ l.
Proof. unfold unique. rewrite merge_sort_Permutation. apply elem_of_remove_dups. Qed.

Lemma unique_NoDup l : NoDup (unique l).
Proof. unfold unique. rewrite merge_sort_Permutation. apply NoDup_remove_dups. Qed.

(** outside a free group [free] gives back the page of every freed slot exactly
    once, however many of its slots are named; if those pages were in use, no page is
    free twice afterwards, so the debug check passes.  A slot's page is then free. *)
Theorem paged_free_correct a v : 0 < pa_page_size a → pa_not_in_group a = true →
  NoDup (free_pages a) → (∀ x, x ∈ v → x `div` pa_page_size a ∉ free_pages a) →
  ∃ a', pa_free v a = (Ok tt, a') ∧ NoDup (free_pages a') ∧
    (∀ p, p ∈ free_pages a' ↔ p ∈ free_pages a ∨ ∃ x, x ∈ v ∧ p = x `div` pa_page_size a) ∧
    pa_available_size a' = pa_available_size a +
      pa_page_size a * Z.of_nat (length (unique ((λ i, i `div` pa_page_size a) <$> v))).
Proof.
  clear oob undef uninit. intros Hps Hg Hnd Hv. destruct v as [|x v].
  { exists a. split_and!; try done; [|unfold unique; simpl; lia].
    intros p. split; [by left|]. intros [?|(? & ?%elem_of_nil & _)]; done. }
  set (w := x :: v) in *. set (pages := unique ((λ i, i `div` pa_page_size a) <$> w)).
  assert (Hpages : ∀ p, p ∈ pages ↔ ∃ x, x ∈ w ∧ p = x `div` pa_page_size a).
  { intros p. unfold pages. rewrite unique_elem, list_elem_of_fmap. naive_solver. }
  assert (Hnd' : NoDup (pages ++ free_pages a)).
  { apply NoDup_app. split_and!; [apply unique_NoDup| |done].
    intros p (y & Hy & ->)%Hpages. by apply Hv. }
  exists (set_pages (pages ++ free_pages a) a). split_and!.
  - unfold pa_free, w, mbind, M_bind, get, modify, py_assert. rewrite Hg. fold w pages.
    rewrite bool_decide_eq_true_2, orb_true_r by done. done.
  - done.
  - intros p. simpl. rewrite elem_of_app, Hpages. naive_solver.
  - unfold pa_available_size. simpl. rewrite length_app. lia.
Qed.
End kernels.

(** ** Instances: two requests on pages of four slots *)

Definition ex_paged : PagedAlloc := new_PagedAlloc 32 4 false.
Definition no_undef : Z → Z := λ _, 0.

Lemma ex_extend_ok : extend_ok no_undef (set_pages [3; 4; 5; 6] ex_paged) [1; 0] [6; 0] [13; 3] [9; -1] 2.
Proof.
  split; [done| |by apply (perm_swap 0 1 [])|split; by vm_compute|done].
  split; [done|]. intros i Hi. assert (i = 0 ∨ i = 1) as [-> | ->] by lia; by vm_compute.
Qed.

Lemma ex_tails_ok : tails_ok no_undef (set_pages [3; 4; 5; 6] ex_paged) [6; 0] [9; -1] 2.
Proof.
  assert (H : ∀ i, 0 ≤ i < 2 → i = 0 ∨ i = 1) by lia.
  split.
  - decide_now.
  - intros i [-> | ->]%H; done.
  - intros i [-> | ->]%H; [|done]. intros _. decide_now.
  - intros i j [-> | ->]%H [-> | ->]%H; done.
Qed.

Lemma alloc_extend_correct_witness :
  extend_ok no_undef (set_pages [3; 4; 5; 6] ex_paged) [1; 0] [6; 0] [13; 3] [9; -1] 2 ∧
  ∃ out a', pa_alloc_extend no_undef no_undef no_undef [1; 0] [6; 0] [13; 3] [9; -1] 10
    (set_pages [3; 4; 5; 6] ex_paged) = (Ok (Some out), a') ∧ free_pages a' = [6] ∧
    out = [10; 11; 12; 13; 14; 15; 16; 20; 21; 22].
Proof.
  split; [exact ex_extend_ok|].
  destruct (alloc_extend_correct no_undef no_undef no_undef _ _ _ _ _ _ ex_extend_ok) as [_ H].
  destruct H as (out & E & _); [by vm_compute|].
  exists out. eexists. split; [exact E|]. split; [done|].
  vm_compute in E. by injection E as <-.
Defined.

Lemma alloc_extend_distinct_witness : ∃ out a',
  pa_alloc_extend no_undef no_undef no_undef [1; 0] [6; 0] [13; 3] [9; -1] 10
    (set_pages [3; 4; 5; 6] ex_paged) = (Ok (Some out), a') ∧
  ∀ v, out !! 8%nat = Some v → v `mod` 4 = 1 `mod` 4.
Proof.
  destruct (pa_alloc_extend no_undef no_undef no_undef [1; 0] [6; 0] [13; 3] [9; -1] 10
    (set_pages [3; 4; 5; 6] ex_paged)) as [[[out|]|] a'] eqn:E; try (vm_compute in E; discriminate).
  destruct (alloc_extend_distinct no_undef no_undef no_undef _ _ _ _ _ _ out a' ex_extend_ok ex_tails_ok E) as [H _].
  exists out, a'. split; [done|]. intros v Hv. apply (H 1 1 v); [lia| |exact Hv]. by vm_compute.
Defined.

Lemma alloc_decode_extend_witness : ∃ r,
  pa_alloc_decode no_undef no_undef no_undef [0; 1] [7; 5] [9; 15] (set_pages [4; 5] ex_paged) = r ∧
  pa_alloc_extend no_undef no_undef no_undef [0; 1] [6; 4] [7; 5] [9; 15] 2 (set_pages [4; 5] ex_paged) = r ∧
  r.1 = Ok (Some [10; 16]).
Proof.
  eexists. split_and!; [|reflexivity|by vm_compute].
  apply (alloc_decode_extend no_undef no_undef no_undef (set_pages [4; 5] ex_paged) [0; 1] [7; 5] [9; 15] 2).
  split; [done| |done|split; by vm_compute|done].
  split; [done|]. intros i Hi. assert (i = 0 ∨ i = 1) as [-> | ->] by lia; by vm_compute.
Defined.

Lemma paged_free_correct_witness : ∃ a',
  pa_free [9; 8; 12] (set_pages [4; 5] ex_paged) = (Ok tt, a') ∧ NoDup (free_pages a') ∧
  free_pages a' = [2; 3; 4; 5].
Proof.
  destruct (paged_free_correct (set_pages [4; 5] ex_paged) [9; 8; 12]) as (a' & H1 & H2 & _);
    [done|done|decide_now| |].
  { intros x. revert x. apply Forall_forall. decide_now. }
  exists a'. split_and!; [done..|]. vm_compute in H1. by injection H1 as <-.
Defined.
