(* ===== verification/Sampling.v ===== *)
(** * Sampling parameters

    [src/python/sglang/srt/sampling/sampling_params.py]: construction, validation and
    normalisation of [SamplingParams]. *)

From S2P Require Import Prelude PyStr.
From Stdlib Require Import QArith Lqa.
Close Scope Q_scope.

(** A Python [float]: the finite ones are rationals. *)
Inductive pyfloat := Fin (q : Q) | PosInf | NegInf | NaN.

Definition flt (x y : pyfloat) : bool :=
  match x, y with
  | Fin p, Fin q => negb (Qle_bool q p)
  | NaN, _ | _, NaN => false
  | NegInf, NegInf | PosInf, PosInf => false
  | NegInf, _ | _, PosInf => true
  | PosInf, _ | _, NegInf => false
  end.

Definition fle (x y : pyfloat) : bool :=
  match x, y with
  | Fin p, Fin q => Qle_bool p q
  | NaN, _ | _, NaN => false
  | NegInf, _ | _, PosInf => true
  | PosInf, _ | _, NegInf => false
  end.

Definition f0 : pyfloat := Fin 0.
Definition f1 : pyfloat := Fin 1.
Definition f2 : pyfloat := Fin (inject_Z 2).

(** [_SAMPLING_EPS = 1e-6]. *)
Definition _SAMPLING_EPS : pyfloat := Fin (Qmake 1 1000000).

(** The [stop] argument: absent, one string or several. *)
Inductive stop_arg := StopNone | StopStr (s : pystr) | StopList (l : list pystr).

Record SamplingParams := MkParams {
  max_new_tokens : option Z;
  stop_strs : stop_arg;
  stop_str_max_len : nat;
  stop_token_ids : option (list Z);
  temperature : pyfloat;
  top_p : pyfloat;
  top_k : Z;
  min_p : pyfloat;
  frequency_penalty : pyfloat;
  presence_penalty : pyfloat;
  repetition_penalty : pyfloat;
  min_new_tokens : Z;
  regex : option pystr;
  n_samples : Z;
  json_schema : option pystr;
  ebnf : option pystr;
  ignore_eos : bool;
  no_stop_trim : bool
}.

Definition set_temp_top_k t k p := MkParams (max_new_tokens p) (stop_strs p) (stop_str_max_len p)
  (stop_token_ids p) t (top_p p) k (min_p p) (frequency_penalty p) (presence_penalty p)
  (repetition_penalty p) (min_new_tokens p) (regex p) (n_samples p) (json_schema p) (ebnf p)
  (ignore_eos p) (no_stop_trim p).

Definition set_stop s m p := MkParams (max_new_tokens p) s m
  (stop_token_ids p) (temperature p) (top_p p) (top_k p) (min_p p) (frequency_penalty p)
  (presence_penalty p) (repetition_penalty p) (min_new_tokens p) (regex p) (n_samples p)
  (json_schema p) (ebnf p) (ignore_eos p) (no_stop_trim p).

Definition set_max_new_tokens m p := MkParams m (stop_strs p) (stop_str_max_len p)
  (stop_token_ids p) (temperature p) (top_p p) (top_k p) (min_p p) (frequency_penalty p)
  (presence_penalty p) (repetition_penalty p) (min_new_tokens p) (regex p) (n_samples p)
  (json_schema p) (ebnf p) (ignore_eos p) (no_stop_trim p).

(** The special cases at the end of [__init__]; [args] holds the arguments as given, an
    empty [stop_token_ids] being the same as none. *)
Definition init_params (args : SamplingParams) : SamplingParams :=
  let ids := match stop_token_ids args with Some (x :: l) => Some (remove_dups (x :: l)) | _ => None end in
  let p := MkParams (max_new_tokens args) (stop_strs args) 0 ids (temperature args) (top_p args)
    (top_k args) (min_p args) (frequency_penalty args) (presence_penalty args)
    (repetition_penalty args) (min_new_tokens args) (regex args) (n_samples args)
    (json_schema args) (ebnf args) (ignore_eos args) (no_stop_trim args) in
  let p := if fle f0 (temperature p) && flt (temperature p) _SAMPLING_EPS
           then set_temp_top_k f1 1 p else p in
  if decide (top_k p = -1)%Z then set_temp_top_k (temperature p) (Z.shiftl 1 30) p else p.

Definition Qm2 : pyfloat := Fin (inject_Z (-2)).

(** [verify]: the checks in their order; each raises a [ValueError]. *)
Definition verify (p : SamplingParams) : result unit :=
  if flt (temperature p) f0 then Raise (ValueError "temperature") else
  if negb (flt f0 (top_p p) && fle (top_p p) f1) then Raise (ValueError "top_p") else
  if negb (fle f0 (min_p p) && fle (min_p p) f1) then Raise (ValueError "min_p") else
  if bool_decide (top_k p < 1 ∨ top_k p = -1)%Z then Raise (ValueError "top_k") else
  if negb (fle Qm2 (frequency_penalty p) && fle (frequency_penalty p) f2)
    then Raise (ValueError "frequency_penalty") else
  if negb (fle Qm2 (presence_penalty p) && fle (presence_penalty p) f2)
    then Raise (ValueError "presence_penalty") else
  if negb (fle f0 (repetition_penalty p) && fle (repetition_penalty p) f2)
    then Raise (ValueError "repetition_penalty") else
  if negb (bool_decide (0 ≤ min_new_tokens p)%Z) then Raise (ValueError "min_new_tokens") else
  _ ← match max_new_tokens p with
      | None => Ok tt
      | Some m =>
          if bool_decide (m < 0)%Z then Raise (ValueError "max_new_tokens") else
          if negb (bool_decide (min_new_tokens p ≤ m)%Z) then Raise (ValueError "min_new_tokens")
          else Ok tt
      end;
  let grammars := [json_schema p; regex p; ebnf p] in
  if bool_decide (1 < length (filter is_Some grammars)) then Raise (ValueError "grammar") else Ok tt.

(** [normalize(tokenizer)]; [encode] is [tokenizer.encode(s, add_special_tokens=False)]. *)
Definition normalize (encode : option (pystr → list Z)) (p : SamplingParams) : SamplingParams :=
  match stop_strs p with
  | StopNone => set_stop (StopList []) 0 p
  | s =>
      let l := match s with StopStr x => [x] | StopList l => l | StopNone => [] end in
      let len x := match encode with Some f => length (f x) | None => length x end in
      set_stop (StopList l) (foldl (λ m x, max m (len x)) 0 l) p
  end.

(** ** Properties *)

(** What the documentation and the error messages ask of the arguments, as inequalities of
    numbers; of an infinite number only the temperature may be one. *)
Definition within (lo hi : Q) (x : pyfloat) : Prop := ∃ q, x = Fin q ∧ (lo <= q <= hi)%Q.

(** A temperature of (nearly) zero asks for greedy sampling. *)
Definition greedy (args : SamplingParams) : Prop := ∃ q, temperature args = Fin q ∧ (0 <= q < 1 # 1000000)%Q.

(** Each with the field that the error names, in the order of the checks. *)
Definition requirements (args : SamplingParams) : list (string * Prop) :=
  [("temperature", temperature args = NaN ∨ temperature args = PosInf ∨ ∃ q, temperature args = Fin q ∧ (0 <= q)%Q);
   ("top_p", ∃ q, top_p args = Fin q ∧ (0 < q <= 1)%Q);
   ("min_p", within 0 1 (min_p args));
   ("top_k", greedy args ∨ top_k args = (-1)%Z ∨ (1 ≤ top_k args)%Z);
   ("frequency_penalty", within (-2) 2 (frequency_penalty args));
   ("presence_penalty", within (-2) 2 (presence_penalty args));
   ("repetition_penalty", within 0 2 (repetition_penalty args));
   ("min_new_tokens", (0 ≤ min_new_tokens args)%Z);
   ("max_new_tokens", ∀ m, max_new_tokens args = Some m → (0 ≤ m)%Z);
   ("min_new_tokens", ∀ m, max_new_tokens args = Some m → (min_new_tokens args ≤ m)%Z);
   ("grammar", (json_schema args = None ∧ regex args = None) ∨ (json_schema args = None ∧ ebnf args = None) ∨
      (regex args = None ∧ ebnf args = None))]%string.

Lemma Qle_bool_false x y : Qle_bool x y = false ↔ (y < x)%Q.
Proof.
  split.
  - intros H. apply Qnot_le_lt. intros Hle%Qle_bool_iff. congruence.
  - intros H. destruct (Qle_bool x y) eqn:E; [|done]. apply Qle_bool_iff, Qle_not_lt in E. done.
Qed.

Lemma within_true lo hi x : fle (Fin lo) x && fle x (Fin hi) = true ↔ within lo hi x.
Proof.
  unfold within. rewrite andb_true_iff. destruct x as [q| | |]; cbn [fle]; try (split; [naive_solver|by intros (? & ? & _)]).
  rewrite !Qle_bool_iff. naive_solver.
Qed.

Lemma top_p_true x : flt f0 x && fle x f1 = true ↔ ∃ q, x = Fin q ∧ (0 < q <= 1)%Q.
Proof.
  rewrite andb_true_iff. destruct x as [q| | |]; cbn [flt fle f0 f1]; try (split; [naive_solver|by intros (? & ? & _)]).
  rewrite negb_true_iff, Qle_bool_false, Qle_bool_iff. naive_solver.
Qed.

Lemma temperature_false x : flt x f0 = false ↔ x = NaN ∨ x = PosInf ∨ ∃ q, x = Fin q ∧ (0 <= q)%Q.
Proof.
  destruct x as [q| | |]; cbn [flt f0]; [|naive_solver..]. rewrite negb_false_iff, Qle_bool_iff. naive_solver.
Qed.

Lemma greedy_true args : fle f0 (temperature args) && flt (temperature args) _SAMPLING_EPS = true ↔ greedy args.
Proof.
  unfold greedy. rewrite andb_true_iff. destruct (temperature args) as [q| | |]; cbn [flt fle f0 _SAMPLING_EPS];
    try (split; [naive_solver|by intros (? & ? & _)]).
  rewrite negb_true_iff, Qle_bool_false, Qle_bool_iff. naive_solver.
Qed.

(** Whichever special case applies, the other fields are the arguments. *)
Lemma init_params_ok args : let p := init_params args in
  (greedy args ∧ temperature p = f1 ∧ top_k p = 1%Z ∨
   ¬ greedy args ∧ temperature p = temperature args ∧
     top_k p = if decide (top_k args = -1)%Z then (2 ^ 30)%Z else top_k args) ∧
  top_p p = top_p args ∧ min_p p = min_p args ∧ frequency_penalty p = frequency_penalty args ∧
  presence_penalty p = presence_penalty args ∧ repetition_penalty p = repetition_penalty args ∧
  min_new_tokens p = min_new_tokens args ∧ max_new_tokens p = max_new_tokens args ∧
  json_schema p = json_schema args ∧ regex p = regex args ∧ ebnf p = ebnf args ∧ stop_strs p = stop_strs args.
Proof.
  cbv zeta. pose proof (greedy_true args) as Hg. unfold init_params. cbn [temperature].
  destruct (fle f0 (temperature args) && flt (temperature args) _SAMPLING_EPS).
  - split; [|done]. left. split; [by apply Hg|done].
  - split; [|by destruct (decide _)]. right. split; [by intros ?%Hg|]. cbn [top_k]. by destruct (decide _).
Qed.

(** The checks, one after the other: the first that fails names the error. *)
Inductive checked : list (string * Prop) → result unit → Prop :=
  | checked_all : checked [] (Ok tt)
  | checked_next x (P : Prop) reqs r : P → checked reqs r → checked ((x, P) :: reqs) r
  | checked_fails x (P : Prop) reqs : ¬ P → checked ((x, P) :: reqs) (Raise (ValueError x)).

Lemma checked_if x (P : Prop) (b : bool) reqs r : (b = false ↔ P) → checked reqs r →
  checked ((x, P) :: reqs) (if b then Raise (ValueError x) else r).
Proof.
  intros Hb Hr. destruct b; [apply checked_fails; by intros ?%Hb|apply checked_next; [by apply Hb|done]].
Qed.

Lemma checked_Ok reqs r : checked reqs r → r = Ok tt ↔ Forall snd reqs.
Proof.
  induction 1 as [|x P reqs r HP _ IH|x P reqs HP]; [by split|rewrite Forall_cons, IH; naive_solver|].
  split; [done|]. by intros [? _]%Forall_cons.
Qed.

Lemma verify_checked args : checked (requirements args) (verify (init_params args)).
Proof.
  destruct (init_params_ok args) as (Ht & E1 & E2 & E3 & E4 & E5 & E6 & E7 & E8 & E9 & E10 & _).
  set (p := init_params args) in *. clearbody p. unfold verify, requirements, mbind, result_bind.
  rewrite E1, E2, E3, E4, E5, E6, E7, E8, E9, E10.
  apply checked_if.
  { rewrite temperature_false. destruct Ht as [((q & E & Hq) & -> & _)|(_ & -> & _)]; [|done].
    rewrite E. split; [|intros _; right; right; exists 1%Q; split; [done|lra]]. intros _. right; right. exists q. split; [done|lra]. }
  apply checked_if; [rewrite negb_false_iff; apply top_p_true|].
  apply checked_if; [rewrite negb_false_iff; apply within_true|].
  apply checked_if.
  { rewrite bool_decide_eq_false. destruct Ht as [(Hg & _ & ->)|(Hg & _ & ->)]; [split; [by left|lia]|].
    case_decide; [split; [by right; left|lia]|]. split; [right; right; lia|intros [?|[?|?]]; [done|done|lia]]. }
  do 3 (apply checked_if; [rewrite negb_false_iff; apply within_true|]).
  apply checked_if; [rewrite negb_false_iff; apply bool_decide_eq_true|].
  assert (Hgr : checked [("grammar"%string, (json_schema args = None ∧ regex args = None) ∨ (json_schema args = None ∧ ebnf args = None) ∨
      (regex args = None ∧ ebnf args = None))]
    (if bool_decide (1 < length (filter is_Some [json_schema args; regex args; ebnf args])) then Raise (ValueError "grammar") else Ok tt)).
  { apply checked_if; [|constructor]. rewrite bool_decide_eq_false.
    destruct (json_schema args), (regex args), (ebnf args); vm_compute; (split; [intros Hc|intros Hc Hlt]); first [lia|naive_solver lia]. }
  destruct (max_new_tokens args) as [m|]; [|apply checked_next; [done|apply checked_next; [done|exact Hgr]]].
  destruct (bool_decide (m < 0)%Z) eqn:Em; [apply checked_fails; intros Hm; apply bool_decide_eq_true in Em; specialize (Hm m eq_refl); lia|].
  apply bool_decide_eq_false in Em. apply checked_next; [intros ? [= <-]; lia|].
  destruct (bool_decide (min_new_tokens args ≤ m)%Z) eqn:En; cbn [negb].
  - apply bool_decide_eq_true in En. apply checked_next; [by intros ? [= <-]|exact Hgr].
  - apply bool_decide_eq_false in En. apply checked_fails. intros Hm. by apply En, Hm.
Qed.

Lemma foldl_max_spec {A} (f : A → nat) l : ∀ m,
  m ≤ foldl (λ m x, max m (f x)) m l ∧ (∀ x, x ∈ l → f x ≤ foldl (λ m x, max m (f x)) m l) ∧
  (foldl (λ m x, max m (f x)) m l = m ∨ ∃ x, x ∈ l ∧ foldl (λ m x, max m (f x)) m l = f x).
Proof.
  induction l as [|y l IH]; intros m; simpl; [split_and!; [done|by intros ? ?%elem_of_nil|by left]|].
  destruct (IH (max m (f y))) as (H1 & H2 & H3). split_and!; [lia| |].
  - intros x [->|Hx]%elem_of_cons; [lia|by apply H2].
  - destruct H3 as [->|(x & Hx & ->)]; [|right; exists x; split; [by right|done]].
    destruct (decide (f y ≤ m)); [left; lia|right; exists y; split; [by left|lia]].
Qed.

(** The stop strings of a request, in a list, and the length of the longest: in tokens with a
    tokenizer, else in characters. *)
Definition stops_normal (encode : option (pystr → list Z)) (given : stop_arg) (q : SamplingParams) : Prop :=
  let l := match given with StopStr s => [s] | StopList l => l | StopNone => [] end in
  let len s := match encode with Some f => length (f s) | None => length s end in
  stop_strs q = StopList l ∧ (∀ s, s ∈ l → len s ≤ stop_str_max_len q) ∧
  (stop_str_max_len q = 0 ∨ ∃ s, s ∈ l ∧ stop_str_max_len q = len s).

(** C34: What becomes of the sampling arguments of a request: they are constructed, verified
    and normalized. [verify] accepts them exactly if every argument is in its documented range,
    with two exceptions that [__init__] and the comparisons make: any [top_k] will do with a
    temperature in [0, 1e-6), which asks for greedy sampling, and a temperature that is not
    a number passes; otherwise it raises a [ValueError] for the first argument that is not.
    What was accepted has a temperature of at least 1e-6 (or not a number), so that dividing by
    it is safe, and a [top_k] of at least 1: both 1 for greedy sampling, the [top_k] of the
    whole vocabulary for -1, and else as given. The stop strings become a list with the length
    of the longest, and normalizing again changes nothing. *)
Theorem sampling_params_correct args encode :
  let p := init_params args in
  let q := normalize encode p in
  checked (requirements args) (verify p) ∧
  (verify p = Ok tt → (1 ≤ top_k q)%Z ∧
     (temperature q = NaN ∨ temperature q = PosInf ∨ ∃ t, temperature q = Fin t ∧ ((1 # 1000000) <= t)%Q)) ∧
  (greedy args → temperature q = Fin 1 ∧ top_k q = 1%Z) ∧
  (¬ greedy args → temperature q = temperature args ∧
     top_k q = if decide (top_k args = -1)%Z then (2 ^ 30)%Z else top_k args) ∧
  stops_normal encode (stop_strs args) q ∧ normalize encode q = q.
Proof.
  cbv zeta. pose proof (verify_checked args) as Hv.
  destruct (init_params_ok args) as (Ht & _ & _ & _ & _ & _ & _ & _ & _ & _ & _ & Es).
  set (p := init_params args) in *. clearbody p.
  assert (Hn : temperature (normalize encode p) = temperature p ∧ top_k (normalize encode p) = top_k p).
  { unfold normalize. by destruct (stop_strs p). }
  destruct Hn as [-> ->]. split; [done|]. split_and!.
  - intros Hok. apply (checked_Ok _ _ Hv) in Hok. unfold requirements in Hok. rewrite !Forall_cons in Hok. cbn [snd] in Hok.
    destruct Hok as (Htemp & _ & _ & Hk & _). destruct Ht as [(_ & -> & ->)|(Hg & -> & ->)].
    + split; [done|]. right; right. exists 1%Q. split; [done|]. by apply Qle_bool_iff.
    + split; [case_decide; [done|]; destruct Hk as [?|[?|?]]; [done|done|lia]|].
      destruct Htemp as [?|[?|(t & E & H0)]]; [by left|by right; left|right; right]. exists t. split; [done|].
      apply Qnot_lt_le. intros Hlt. apply Hg. by exists t.
  - intros Hg. destruct Ht as [(_ & -> & ->)|(Hg' & _)]; [done|by destruct Hg'].
  - intros Hg. destruct Ht as [(Hg' & _)|(_ & -> & ->)]; [by destruct Hg|done].
  - unfold stops_normal, normalize. rewrite Es. set (len := λ x, match encode with Some f => length (f x) | None => length x end).
    destruct (stop_strs args) as [|x|l]; simpl; (split; [done|]).
    + split; [by intros s ?%elem_of_nil|by left].
    + split; [intros s ->%list_elem_of_singleton; unfold len; lia|right; exists x; split; [by left|done]].
    + destruct (foldl_max_spec len l 0) as (_ & H1 & H2). done.
  - unfold normalize. destruct (stop_strs p); done.
Qed.

(** A temperature of zero asks for greedy sampling, whatever [top_k]; a negative one is refused. *)
Example sampling_params_examples :
  let args t k := MkParams (Some 128%Z) StopNone 0 None t f1 k f0 f0 f0 f1 0 None 1 None None false false in
  verify (init_params (args f0 (-7)%Z)) = Ok tt ∧ top_k (init_params (args f0 (-7)%Z)) = 1%Z ∧
  verify (init_params (args f1 (-7)%Z)) = Raise (ValueError "top_k") ∧
  verify (init_params (args (Fin (-1)) (-7)%Z)) = Raise (ValueError "temperature").
Proof. vm_compute. done. Qed.

(** A temperature that is not a number passes the check of its range. *)
Example verify_nan_temperature :
  verify (init_params (MkParams (Some 128%Z) StopNone 0 None NaN f1 (-1) f0 f0 f0 f1 0 None 1 None None
    false false)) = Ok tt.
Proof. reflexivity. Qed.
