(* ===== verification/Req.v ===== *)
(** * Requests

    [src/python/sglang/srt/managers/schedule_batch.py]: the finish reasons and the state
    and methods of [class Req] that the scheduler, the caches and the detokenizer use. *)

From S2P Require Import Prelude PyStr Sampling HeapQ Radix RadixTree RadixMatch RadixInv RadixThms.

(** [BaseFinishReason] and its subclasses. *)
Inductive FinishReason :=
  | FINISH_MATCHED_TOKEN (matched : Z)
  | FINISH_MATCHED_STR (matched : pystr)
  | FINISH_LENGTH (len : Z)
  | FINISH_ABORT (message : pystr) (status_code : option Z) (err_type : option pystr).

(** [message or "Aborted"]. *)
Definition new_FINISH_ABORT (message : option pystr) (status_code : option Z) (err_type : option pystr) :=
  FINISH_ABORT match message with Some ((_ :: _) as m) => m | _ => s2z "Aborted" end status_code err_type.

Definition is_error (r : FinishReason) : bool :=
  match r with FINISH_ABORT _ _ _ => true | _ => false end.

(** [to_json]: the values of the dictionary. *)
Inductive json :=
  | JInt (n : Z)
  | JStr (s : pystr)
  | JNone
  | JObj (items : list (pystr * json)).

Definition to_json (r : FinishReason) : json :=
  match r with
  | FINISH_MATCHED_TOKEN m => JObj [(s2z "type", JStr (s2z "stop")); (s2z "matched", JInt m)]
  | FINISH_MATCHED_STR m => JObj [(s2z "type", JStr (s2z "stop")); (s2z "matched", JStr m)]
  | FINISH_LENGTH n => JObj [(s2z "type", JStr (s2z "length")); (s2z "length", JInt n)]
  | FINISH_ABORT m c e =>
      JObj [(s2z "type", JStr (s2z "abort")); (s2z "message", JStr m);
            (s2z "status_code", from_option JInt JNone c); (s2z "err_type", from_option JStr JNone e)]
  end.

(** What the code uses of a tokenizer and of a grammar object. *)
Record Tokenizer := MkTokenizer {
  tok_decode : list Z → pystr;
  tok_eos_token_id : Z;
  additional_stop_token_ids : option (list Z)
}.

Record Grammar := MkGrammar { is_terminated : bool }.

(** The state of a request. *)
Record Req := MkReq {
  rid : pystr;
  origin_input_ids_unpadded : list Z;
  origin_input_ids : list Z;
  output_ids : list Z;
  fill_ids : list Z;
  sampling_params : SamplingParams;
  return_logprob : bool;
  logprob_start_len : Z;
  eos_token_ids : option (list Z);
  tokenizer : option Tokenizer;
  lora_path : option pystr;
  finished_reason : option FinishReason;
  to_abort : bool;
  to_abort_message : option pystr;
  surr_offset : option nat;
  read_offset : option nat;
  decoded_text : pystr;
  multimodal_inputs : option (list (list Z));
  prefix_indices : list Z;
  extend_input_len : Z;
  extend_logprob_start_len : Z;
  last_node : option nat;
  is_chunked : Z;
  is_retracted : bool;
  grammar : option Grammar;
  req_pool_idx : option nat;
  cached_tokens : Z;
  already_computed : Z;
  spec_verify_ct : Z;
  req_stream : bool;
  top_logprobs_num : Z;
  token_ids_logprob : option (list Z);
  req_return_hidden_states : bool
}.

Definition set_origin_input_ids x r := MkReq (rid r) (origin_input_ids_unpadded r) x (output_ids r)
  (fill_ids r) (sampling_params r) (return_logprob r) (logprob_start_len r) (eos_token_ids r)
  (tokenizer r) (lora_path r) (finished_reason r) (to_abort r) (to_abort_message r) (surr_offset r)
  (read_offset r) (decoded_text r) (multimodal_inputs r) (prefix_indices r) (extend_input_len r)
  (extend_logprob_start_len r) (last_node r) (is_chunked r) (is_retracted r) (grammar r)
  (req_pool_idx r) (cached_tokens r) (already_computed r) (spec_verify_ct r) (req_stream r)
  (top_logprobs_num r) (token_ids_logprob r) (req_return_hidden_states r).
Definition set_output_ids x r := MkReq (rid r) (origin_input_ids_unpadded r) (origin_input_ids r) x
  (fill_ids r) (sampling_params r) (return_logprob r) (logprob_start_len r) (eos_token_ids r)
  (tokenizer r) (lora_path r) (finished_reason r) (to_abort r) (to_abort_message r) (surr_offset r)
  (read_offset r) (decoded_text r) (multimodal_inputs r) (prefix_indices r) (extend_input_len r)
  (extend_logprob_start_len r) (last_node r) (is_chunked r) (is_retracted r) (grammar r)
  (req_pool_idx r) (cached_tokens r) (already_computed r) (spec_verify_ct r) (req_stream r)
  (top_logprobs_num r) (token_ids_logprob r) (req_return_hidden_states r).
Definition set_fill_ids x r := MkReq (rid r) (origin_input_ids_unpadded r) (origin_input_ids r)
  (output_ids r) x (sampling_params r) (return_logprob r) (logprob_start_len r) (eos_token_ids r)
  (tokenizer r) (lora_path r) (finished_reason r) (to_abort r) (to_abort_message r) (surr_offset r)
  (read_offset r) (decoded_text r) (multimodal_inputs r) (prefix_indices r) (extend_input_len r)
  (extend_logprob_start_len r) (last_node r) (is_chunked r) (is_retracted r) (grammar r)
  (req_pool_idx r) (cached_tokens r) (already_computed r) (spec_verify_ct r) (req_stream r)
  (top_logprobs_num r) (token_ids_logprob r) (req_return_hidden_states r).
Definition set_finished_reason x r := MkReq (rid r) (origin_input_ids_unpadded r)
  (origin_input_ids r) (output_ids r) (fill_ids r) (sampling_params r) (return_logprob r)
  (logprob_start_len r) (eos_token_ids r) (tokenizer r) (lora_path r) x (to_abort r)
  (to_abort_message r) (surr_offset r) (read_offset r) (decoded_text r) (multimodal_inputs r)
  (prefix_indices r) (extend_input_len r) (extend_logprob_start_len r) (last_node r) (is_chunked r)
  (is_retracted r) (grammar r) (req_pool_idx r) (cached_tokens r) (already_computed r)
  (spec_verify_ct r) (req_stream r) (top_logprobs_num r) (token_ids_logprob r)
  (req_return_hidden_states r).
Definition set_surr_offset x r := MkReq (rid r) (origin_input_ids_unpadded r) (origin_input_ids r)
  (output_ids r) (fill_ids r) (sampling_params r) (return_logprob r) (logprob_start_len r)
  (eos_token_ids r) (tokenizer r) (lora_path r) (finished_reason r) (to_abort r)
  (to_abort_message r) x (read_offset r) (decoded_text r) (multimodal_inputs r) (prefix_indices r)
  (extend_input_len r) (extend_logprob_start_len r) (last_node r) (is_chunked r) (is_retracted r)
  (grammar r) (req_pool_idx r) (cached_tokens r) (already_computed r) (spec_verify_ct r)
  (req_stream r) (top_logprobs_num r) (token_ids_logprob r) (req_return_hidden_states r).
Definition set_read_offset x r := MkReq (rid r) (origin_input_ids_unpadded r) (origin_input_ids r)
  (output_ids r) (fill_ids r) (sampling_params r) (return_logprob r) (logprob_start_len r)
  (eos_token_ids r) (tokenizer r) (lora_path r) (finished_reason r) (to_abort r)
  (to_abort_message r) (surr_offset r) x (decoded_text r) (multimodal_inputs r) (prefix_indices r)
  (extend_input_len r) (extend_logprob_start_len r) (last_node r) (is_chunked r) (is_retracted r)
  (grammar r) (req_pool_idx r) (cached_tokens r) (already_computed r) (spec_verify_ct r)
  (req_stream r) (top_logprobs_num r) (token_ids_logprob r) (req_return_hidden_states r).
Definition set_multimodal_inputs x r := MkReq (rid r) (origin_input_ids_unpadded r)
  (origin_input_ids r) (output_ids r) (fill_ids r) (sampling_params r) (return_logprob r)
  (logprob_start_len r) (eos_token_ids r) (tokenizer r) (lora_path r) (finished_reason r)
  (to_abort r) (to_abort_message r) (surr_offset r) (read_offset r) (decoded_text r) x
  (prefix_indices r) (extend_input_len r) (extend_logprob_start_len r) (last_node r) (is_chunked r)
  (is_retracted r) (grammar r) (req_pool_idx r) (cached_tokens r) (already_computed r)
  (spec_verify_ct r) (req_stream r) (top_logprobs_num r) (token_ids_logprob r)
  (req_return_hidden_states r).
Definition set_prefix_indices x r := MkReq (rid r) (origin_input_ids_unpadded r)
  (origin_input_ids r) (output_ids r) (fill_ids r) (sampling_params r) (return_logprob r)
  (logprob_start_len r) (eos_token_ids r) (tokenizer r) (lora_path r) (finished_reason r)
  (to_abort r) (to_abort_message r) (surr_offset r) (read_offset r) (decoded_text r)
  (multimodal_inputs r) x (extend_input_len r) (extend_logprob_start_len r) (last_node r)
  (is_chunked r) (is_retracted r) (grammar r) (req_pool_idx r) (cached_tokens r)
  (already_computed r) (spec_verify_ct r) (req_stream r) (top_logprobs_num r) (token_ids_logprob r)
  (req_return_hidden_states r).
Definition set_extend_input_len x r := MkReq (rid r) (origin_input_ids_unpadded r)
  (origin_input_ids r) (output_ids r) (fill_ids r) (sampling_params r) (return_logprob r)
  (logprob_start_len r) (eos_token_ids r) (tokenizer r) (lora_path r) (finished_reason r)
  (to_abort r) (to_abort_message r) (surr_offset r) (read_offset r) (decoded_text r)
  (multimodal_inputs r) (prefix_indices r) x (extend_logprob_start_len r) (last_node r)
  (is_chunked r) (is_retracted r) (grammar r) (req_pool_idx r) (cached_tokens r)
  (already_computed r) (spec_verify_ct r) (req_stream r) (top_logprobs_num r) (token_ids_logprob r)
  (req_return_hidden_states r).
Definition set_extend_logprob_start_len x r := MkReq (rid r) (origin_input_ids_unpadded r)
  (origin_input_ids r) (output_ids r) (fill_ids r) (sampling_params r) (return_logprob r)
  (logprob_start_len r) (eos_token_ids r) (tokenizer r) (lora_path r) (finished_reason r)
  (to_abort r) (to_abort_message r) (surr_offset r) (read_offset r) (decoded_text r)
  (multimodal_inputs r) (prefix_indices r) (extend_input_len r) x (last_node r) (is_chunked r)
  (is_retracted r) (grammar r) (req_pool_idx r) (cached_tokens r) (already_computed r)
  (spec_verify_ct r) (req_stream r) (top_logprobs_num r) (token_ids_logprob r)
  (req_return_hidden_states r).
Definition set_last_node x r := MkReq (rid r) (origin_input_ids_unpadded r) (origin_input_ids r)
  (output_ids r) (fill_ids r) (sampling_params r) (return_logprob r) (logprob_start_len r)
  (eos_token_ids r) (tokenizer r) (lora_path r) (finished_reason r) (to_abort r)
  (to_abort_message r) (surr_offset r) (read_offset r) (decoded_text r) (multimodal_inputs r)
  (prefix_indices r) (extend_input_len r) (extend_logprob_start_len r) x (is_chunked r)
  (is_retracted r) (grammar r) (req_pool_idx r) (cached_tokens r) (already_computed r)
  (spec_verify_ct r) (req_stream r) (top_logprobs_num r) (token_ids_logprob r)
  (req_return_hidden_states r).
Definition set_is_chunked x r := MkReq (rid r) (origin_input_ids_unpadded r) (origin_input_ids r)
  (output_ids r) (fill_ids r) (sampling_params r) (return_logprob r) (logprob_start_len r)
  (eos_token_ids r) (tokenizer r) (lora_path r) (finished_reason r) (to_abort r)
  (to_abort_message r) (surr_offset r) (read_offset r) (decoded_text r) (multimodal_inputs r)
  (prefix_indices r) (extend_input_len r) (extend_logprob_start_len r) (last_node r) x
  (is_retracted r) (grammar r) (req_pool_idx r) (cached_tokens r) (already_computed r)
  (spec_verify_ct r) (req_stream r) (top_logprobs_num r) (token_ids_logprob r)
  (req_return_hidden_states r).
Definition set_is_retracted x r := MkReq (rid r) (origin_input_ids_unpadded r) (origin_input_ids r)
  (output_ids r) (fill_ids r) (sampling_params r) (return_logprob r) (logprob_start_len r)
  (eos_token_ids r) (tokenizer r) (lora_path r) (finished_reason r) (to_abort r)
  (to_abort_message r) (surr_offset r) (read_offset r) (decoded_text r) (multimodal_inputs r)
  (prefix_indices r) (extend_input_len r) (extend_logprob_start_len r) (last_node r) (is_chunked r)
  x (grammar r) (req_pool_idx r) (cached_tokens r) (already_computed r) (spec_verify_ct r)
  (req_stream r) (top_logprobs_num r) (token_ids_logprob r) (req_return_hidden_states r).
Definition set_grammar x r := MkReq (rid r) (origin_input_ids_unpadded r) (origin_input_ids r)
  (output_ids r) (fill_ids r) (sampling_params r) (return_logprob r) (logprob_start_len r)
  (eos_token_ids r) (tokenizer r) (lora_path r) (finished_reason r) (to_abort r)
  (to_abort_message r) (surr_offset r) (read_offset r) (decoded_text r) (multimodal_inputs r)
  (prefix_indices r) (extend_input_len r) (extend_logprob_start_len r) (last_node r) (is_chunked r)
  (is_retracted r) x (req_pool_idx r) (cached_tokens r) (already_computed r) (spec_verify_ct r)
  (req_stream r) (top_logprobs_num r) (token_ids_logprob r) (req_return_hidden_states r).
Definition set_req_pool_idx x r := MkReq (rid r) (origin_input_ids_unpadded r) (origin_input_ids r)
  (output_ids r) (fill_ids r) (sampling_params r) (return_logprob r) (logprob_start_len r)
  (eos_token_ids r) (tokenizer r) (lora_path r) (finished_reason r) (to_abort r)
  (to_abort_message r) (surr_offset r) (read_offset r) (decoded_text r) (multimodal_inputs r)
  (prefix_indices r) (extend_input_len r) (extend_logprob_start_len r) (last_node r) (is_chunked r)
  (is_retracted r) (grammar r) x (cached_tokens r) (already_computed r) (spec_verify_ct r)
  (req_stream r) (top_logprobs_num r) (token_ids_logprob r) (req_return_hidden_states r).
Definition set_cached_tokens x r := MkReq (rid r) (origin_input_ids_unpadded r) (origin_input_ids r)
  (output_ids r) (fill_ids r) (sampling_params r) (return_logprob r) (logprob_start_len r)
  (eos_token_ids r) (tokenizer r) (lora_path r) (finished_reason r) (to_abort r)
  (to_abort_message r) (surr_offset r) (read_offset r) (decoded_text r) (multimodal_inputs r)
  (prefix_indices r) (extend_input_len r) (extend_logprob_start_len r) (last_node r) (is_chunked r)
  (is_retracted r) (grammar r) (req_pool_idx r) x (already_computed r) (spec_verify_ct r)
  (req_stream r) (top_logprobs_num r) (token_ids_logprob r) (req_return_hidden_states r).
Definition set_already_computed x r := MkReq (rid r) (origin_input_ids_unpadded r)
  (origin_input_ids r) (output_ids r) (fill_ids r) (sampling_params r) (return_logprob r)
  (logprob_start_len r) (eos_token_ids r) (tokenizer r) (lora_path r) (finished_reason r)
  (to_abort r) (to_abort_message r) (surr_offset r) (read_offset r) (decoded_text r)
  (multimodal_inputs r) (prefix_indices r) (extend_input_len r) (extend_logprob_start_len r)
  (last_node r) (is_chunked r) (is_retracted r) (grammar r) (req_pool_idx r) (cached_tokens r) x
  (spec_verify_ct r) (req_stream r) (top_logprobs_num r) (token_ids_logprob r)
  (req_return_hidden_states r).
Definition set_spec_verify_ct x r := MkReq (rid r) (origin_input_ids_unpadded r)
  (origin_input_ids r) (output_ids r) (fill_ids r) (sampling_params r) (return_logprob r)
  (logprob_start_len r) (eos_token_ids r) (tokenizer r) (lora_path r) (finished_reason r)
  (to_abort r) (to_abort_message r) (surr_offset r) (read_offset r) (decoded_text r)
  (multimodal_inputs r) (prefix_indices r) (extend_input_len r) (extend_logprob_start_len r)
  (last_node r) (is_chunked r) (is_retracted r) (grammar r) (req_pool_idx r) (cached_tokens r)
  (already_computed r) x (req_stream r) (top_logprobs_num r) (token_ids_logprob r)
  (req_return_hidden_states r).

Definition set_sampling_params x r := MkReq (rid r) (origin_input_ids_unpadded r)
  (origin_input_ids r) (output_ids r) (fill_ids r) x (return_logprob r) (logprob_start_len r)
  (eos_token_ids r) (tokenizer r) (lora_path r) (finished_reason r) (to_abort r)
  (to_abort_message r) (surr_offset r) (read_offset r) (decoded_text r) (multimodal_inputs r)
  (prefix_indices r) (extend_input_len r) (extend_logprob_start_len r) (last_node r)
  (is_chunked r) (is_retracted r) (grammar r) (req_pool_idx r) (cached_tokens r)
  (already_computed r) (spec_verify_ct r) (req_stream r) (top_logprobs_num r)
  (token_ids_logprob r) (req_return_hidden_states r).
Definition set_logprob_start_len x r := MkReq (rid r) (origin_input_ids_unpadded r)
  (origin_input_ids r) (output_ids r) (fill_ids r) (sampling_params r) (return_logprob r) x
  (eos_token_ids r) (tokenizer r) (lora_path r) (finished_reason r) (to_abort r)
  (to_abort_message r) (surr_offset r) (read_offset r) (decoded_text r) (multimodal_inputs r)
  (prefix_indices r) (extend_input_len r) (extend_logprob_start_len r) (last_node r)
  (is_chunked r) (is_retracted r) (grammar r) (req_pool_idx r) (cached_tokens r)
  (already_computed r) (spec_verify_ct r) (req_stream r) (top_logprobs_num r)
  (token_ids_logprob r) (req_return_hidden_states r).

(** [Req.__init__]: the arguments, and the initial values of the rest. *)
Definition new_Req (rid : pystr) (ids : list Z) (sp : SamplingParams) (return_logprob : bool)
    (unpadded : option (list Z)) (lora : option pystr) (eos : option (list Z)) (stream : bool)
    (top_logprobs_num : Z) (token_ids_logprob : option (list Z)) (return_hidden_states : bool) : Req :=
  MkReq rid match unpadded with Some ((_ :: _) as u) => u | _ => ids end ids [] [] sp return_logprob 0
    eos None lora None false None None None [] None [] 0 0 None 0 false None None 0 0 0
    stream top_logprobs_num token_ids_logprob return_hidden_states.

Definition seqlen (r : Req) : nat := length (origin_input_ids r) + length (output_ids r).

Definition finished (r : Req) : bool := bool_decide (is_Some (finished_reason r)).

(** [adjust_max_prefix_ids]: the part of the input the cache may supply, and the request
    with its [fill_ids]; [None] as [max_new_tokens] is a [TypeError]. *)
Definition adjust_max_prefix_ids (r : Req) : result (list Z * Req) :=
  let r := set_fill_ids (origin_input_ids r ++ output_ids r) r in
  let input_len := Z.of_nat (length (fill_ids r)) in
  let max_prefix_len := (input_len - 1)%Z in
  match max_new_tokens (sampling_params r) with
  | None => Raise TypeError
  | Some m =>
      let max_prefix_len := if bool_decide (0 < m)%Z then Z.min max_prefix_len (input_len - 1) else max_prefix_len in
      let max_prefix_len := if return_logprob r then Z.min max_prefix_len (logprob_start_len r) else max_prefix_len in
      let max_prefix_len := Z.max max_prefix_len 0 in
      Ok (take (Z.to_nat max_prefix_len) (fill_ids r), r)
  end.

(** [xs[:-n]]: nothing is left of [xs] for [n = 0]. *)
Definition drop_last (n : nat) (xs : list Z) : list Z :=
  match n with 0 => [] | _ => take (length xs - n) xs end.

(** The hierarchical branch without a tree cache: back to a node that is not evicted. *)
Fixpoint rewind_evicted (fuel : nat) (c : RadixCache) (prefix : list Z) (node : nat)
    : result (list Z * nat) :=
  match fuel with
  | 0 => Raise OutOfFuel
  | S fuel =>
      match nodes c !! node with
      | None => Raise AttributeError
      | Some nd =>
          if evicted nd then
            match host_value nd, Radix.parent nd with
            | Some h, Some p => rewind_evicted fuel c (drop_last (length h) prefix) p
            | None, _ => Raise TypeError
            | _, None => Raise AttributeError
            end
          else Ok (prefix, node)
      end
  end.

Section req.
Context (clock : nat → Z) (tuple_hash : list Z → Z).

(** [init_next_round_input(tree_cache)] with a plain radix cache. *)
Definition init_next_round_input (r : Req) (c : RadixCache) : result (Req * RadixCache) :=
  '(key_, r) ← adjust_max_prefix_ids r;
  match match_prefix clock tuple_hash key_ c with
  | None => Raise AttributeError
  | Some (v, n, c') =>
      let r := set_last_node (Some n) (set_prefix_indices v r) in
      Ok (set_extend_input_len
            (Z.of_nat (length (fill_ids r)) - Z.of_nat (length (prefix_indices r)))%Z r, c')
  end.

(** The same call without a tree cache, on the nodes [c] of a hierarchical one or not. *)
Definition init_next_round_input_nocache (hierarchical : bool) (r : Req) (c : RadixCache) : result Req :=
  let r := set_fill_ids (origin_input_ids r ++ output_ids r) r in
  r ← (if hierarchical then
         match last_node r with
         | None => Raise AttributeError
         | Some n =>
             '(p, n') ← rewind_evicted (S (size (nodes c))) c (prefix_indices r) n;
             Ok (set_last_node (Some n') (set_prefix_indices p r))
         end
       else Ok r);
  Ok (set_extend_input_len
        (Z.of_nat (length (fill_ids r)) - Z.of_nat (length (prefix_indices r)))%Z r).
End req.

Definition INIT_INCREMENTAL_DETOKENIZATION_OFFSET : nat := 5.

(** [init_incremental_detokenize]: the ids to decode and the offset of the new ones. *)
Definition init_incremental_detokenize (r : Req) : list Z * Z * Req :=
  let r := match surr_offset r, read_offset r with
           | Some _, Some _ => r
           | _, _ =>
               let ro := length (origin_input_ids_unpadded r) in
               set_surr_offset (Some (ro - INIT_INCREMENTAL_DETOKENIZATION_OFFSET))
                 (set_read_offset (Some ro) r)
           end in
  let all_ids := origin_input_ids_unpadded r ++ output_ids r in
  let so := default 0 (surr_offset r) in
  let ro := default 0 (read_offset r) in
  (drop so all_ids, (Z.of_nat ro - Z.of_nat so)%Z, r).

(** ** Finishing *)

Definition is_member (x : Z) (l : option (list Z)) : bool :=
  match l with Some l => bool_decide (x ∈ l) | None => false end.

(** The stop tokens of a request: its own, the model's, the tokenizer's. *)
Definition matched_eos (r : Req) (t : Z) : bool :=
  is_member t (stop_token_ids (sampling_params r)) || is_member t (eos_token_ids r) ||
  match tokenizer r with
  | Some k => bool_decide (t = tok_eos_token_id k) || is_member t (additional_stop_token_ids k)
  | None => false
  end.

Definition stop_list (p : SamplingParams) : list pystr :=
  match stop_strs p with StopList l => l | StopStr s => (λ c, [c]) <$> s | StopNone => [] end.

(** The last check: the first stop string in the decoded tail or the text so far. *)
Definition check_stop_strs (r : Req) : result Req :=
  match stop_list (sampling_params r) with
  | [] => Ok r
  | l =>
      match tokenizer r with
      | None => Raise AttributeError
      | Some k =>
          let tail_str := tok_decode k (last_n (stop_str_max_len (sampling_params r) + 1) (output_ids r)) in
          match List.find (λ s, str_in s tail_str || str_in s (decoded_text r)) l with
          | Some s => Ok (set_finished_reason (Some (FINISH_MATCHED_STR s)) r)
          | None => Ok r
          end
      end
  end.

(** [check_finished]. *)
Definition check_finished (r : Req) : result Req :=
  if finished r then Ok r else
  if to_abort r then Ok (set_finished_reason (Some (new_FINISH_ABORT (to_abort_message r) None None)) r) else
  match max_new_tokens (sampling_params r) with
  | None => Raise TypeError
  | Some m =>
      if bool_decide (m ≤ Z.of_nat (length (output_ids r)))%Z
      then Ok (set_finished_reason (Some (FINISH_LENGTH m)) r) else
      match last (output_ids r) with
      | None => Raise IndexError
      | Some t =>
          if match grammar r with Some g => is_terminated g | None => false end
          then Ok (set_finished_reason (Some (FINISH_MATCHED_TOKEN t)) r) else
          if negb (ignore_eos (sampling_params r)) && matched_eos r t
          then Ok (set_finished_reason (Some (FINISH_MATCHED_TOKEN t)) r)
          else check_stop_strs r
      end
  end.

Definition reset_for_retract (r : Req) : Req :=
  set_prefix_indices [] (set_last_node None (set_extend_input_len 0 (set_is_retracted true
    (set_extend_logprob_start_len 0 (set_is_chunked 0 (set_req_pool_idx None (set_already_computed 0 r))))))).

(** [HTTPStatus.BAD_REQUEST] is 400. *)
Definition set_finish_with_abort (error_msg : pystr) (r : Req) : Req :=
  set_finished_reason (Some (new_FINISH_ABORT (Some error_msg) (Some 400%Z) (Some (s2z "BadRequestError"))))
    (set_origin_input_ids [0%Z] (set_grammar None (set_multimodal_inputs None r))).

(** A decode step as the output processor performs it: the new token, then the check. *)
Definition decode_step (t : Z) (r : Req) : result Req :=
  if finished r then Ok r else check_finished (set_output_ids (output_ids r ++ [t]) r).

Fixpoint decode_run (ts : list Z) (r : Req) : result Req :=
  match ts with
  | [] => Ok r
  | t :: ts => r' ← decode_step t r; decode_run ts r'
  end.

(** ** Properties *)

(** What [check_finished] needs not to raise: a token limit, and a tokenizer if there are
    stop strings. *)
Definition checkable (r : Req) : Prop :=
  (∃ m, max_new_tokens (sampling_params r) = Some m) ∧
  (stop_list (sampling_params r) ≠ [] → is_Some (tokenizer r)).

(** Only the finish reason changes. *)
Lemma check_stop_strs_ok r : checkable r → ∃ r', check_stop_strs r = Ok r' ∧
  (r' = r ∨ ∃ s, r' = set_finished_reason (Some (FINISH_MATCHED_STR s)) r ∧ s ∈ stop_list (sampling_params r)).
Proof.
  intros [_ Ht]. unfold check_stop_strs. destruct (stop_list (sampling_params r)) as [|s l] eqn:El; [by eauto|].
  destruct Ht as [k ->]; [done|]. destruct (List.find _ _) as [s'|] eqn:E; [|by eauto].
  apply List.find_some in E as [Hin _]. eexists. split; [done|]. right. exists s'.
  split; [done|]. by apply list_elem_of_In.
Qed.

Lemma check_finished_ok r : checkable r → output_ids r ≠ [] ∨ finished r = true →
  ∃ r', check_finished r = Ok r' ∧ (r' = r ∨ ∃ fr, r' = set_finished_reason (Some fr) r).
Proof.
  intros Hc Hne. unfold check_finished. destruct (finished r); [by eauto|].
  destruct (to_abort r); [eauto 10|]. destruct Hc as [[m Hm] Ht]. rewrite Hm.
  case_bool_decide; [eauto 10|]. destruct (last (output_ids r)) as [t|] eqn:E.
  2: { apply last_None in E. destruct Hne; done. }
  destruct (match grammar r with Some g => is_terminated g | None => false end); [eauto 10|].
  destruct (negb (ignore_eos (sampling_params r)) && matched_eos r t); [eauto 10|].
  destruct (check_stop_strs_ok r) as (r' & -> & Hr'); [by split; eauto|].
  exists r'. split; [done|]. destruct Hr' as [?|(s & ? & _)]; eauto.
Qed.

(** ** When a request is finished

    The specification of [check_finished], apart from its code: what must hold for each
    finish reason to be due.  A string is contained in a text as a segment of it, the tail
    is what the last tokens decode to, and a stop string has a place in the list. *)

Definition occurs (s t : pystr) : Prop := ∃ pre post, t = pre ++ s ++ post.

(** [t] is one of the request's own stop tokens, of the model's, or of the tokenizer's. *)
Definition stop_token (r : Req) (t : Z) : Prop :=
  (∃ l, stop_token_ids (sampling_params r) = Some l ∧ t ∈ l) ∨
  (∃ l, eos_token_ids r = Some l ∧ t ∈ l) ∨
  ∃ k, tokenizer r = Some k ∧
    (t = tok_eos_token_id k ∨ ∃ l, additional_stop_token_ids k = Some l ∧ t ∈ l).

(** The [i]-th stop string; a single string is iterated by its characters. *)
Definition stop_string (r : Req) (i : nat) (s : pystr) : Prop :=
  match stop_strs (sampling_params r) with
  | StopList l => l !! i = Some s
  | StopStr s0 => ∃ c, s0 !! i = Some c ∧ s = [c]
  | StopNone => False
  end.

(** [s] occurs in the text decoded so far, or in what the last tokens decode to: as many as
    the longest stop string has tokens, and one. *)
Definition produced (r : Req) (s : pystr) : Prop :=
  occurs s (decoded_text r) ∨
  ∃ k old tail, tokenizer r = Some k ∧ output_ids r = old ++ tail ∧
    length tail = min (stop_str_max_len (sampling_params r) + 1) (length (output_ids r)) ∧
    occurs s (tok_decode k tail).

Definition grammar_done (r : Req) : Prop := ∃ g, grammar r = Some g ∧ is_terminated g = true.

Definition below_limit (r : Req) : Prop :=
  ∃ m, max_new_tokens (sampling_params r) = Some m ∧ (Z.of_nat (length (output_ids r)) < m)%Z.

(** The last token [t] ends the request. *)
Definition ends_with (r : Req) (t : Z) : Prop :=
  last (output_ids r) = Some t ∧
  (grammar_done r ∨ (ignore_eos (sampling_params r) = false ∧ stop_token r t)).

(** The reason due to a request, an abort before the limit, the limit before the last
    token, the last token before the stop strings, and of these the first in their list. *)
Definition due (r : Req) (fr : FinishReason) : Prop :=
  match fr with
  | FINISH_ABORT msg code err => to_abort r = true ∧ code = None ∧ err = None ∧
      ((msg ≠ [] ∧ to_abort_message r = Some msg) ∨
       (msg = s2z "Aborted" ∧ ∀ m, to_abort_message r = Some m → m = []))
  | FINISH_LENGTH m => to_abort r = false ∧
      max_new_tokens (sampling_params r) = Some m ∧ (m ≤ Z.of_nat (length (output_ids r)))%Z
  | FINISH_MATCHED_TOKEN t => to_abort r = false ∧ below_limit r ∧ ends_with r t
  | FINISH_MATCHED_STR s => to_abort r = false ∧ below_limit r ∧ (∀ t, ¬ ends_with r t) ∧
      ∃ i, stop_string r i s ∧ produced r s ∧ ∀ j s', j < i → stop_string r j s' → ¬ produced r s'
  end.

Lemma is_member_true x l : is_member x l = true ↔ ∃ l', l = Some l' ∧ x ∈ l'.
Proof.
  destruct l as [l|]; simpl; [|naive_solver]. rewrite bool_decide_eq_true. naive_solver.
Qed.

Lemma matched_eos_true r t : matched_eos r t = true ↔ stop_token r t.
Proof.
  unfold matched_eos, stop_token. rewrite !orb_true_iff, !is_member_true.
  destruct (tokenizer r) as [k|].
  - rewrite orb_true_iff, is_member_true, bool_decide_eq_true. naive_solver.
  - naive_solver.
Qed.

Lemma stop_list_lookup r i s : stop_list (sampling_params r) !! i = Some s ↔ stop_string r i s.
Proof.
  unfold stop_list, stop_string. destruct (stop_strs (sampling_params r)) as [| |l]; [done| |done].
  rewrite list_lookup_fmap, fmap_Some. naive_solver.
Qed.

(** The code's containment tests, against [produced]. *)
Lemma produced_true r k s : tokenizer r = Some k →
  let tail_str := tok_decode k (last_n (stop_str_max_len (sampling_params r) + 1) (output_ids r)) in
  str_in s tail_str || str_in s (decoded_text r) = true ↔ produced r s.
Proof.
  intros Hk tail_str. rewrite orb_true_iff, !str_in_true. unfold produced, tail_str, last_n.
  set (n := stop_str_max_len (sampling_params r) + 1). set (l := length (output_ids r)). split.
  - intros [H|H]; [right|by left]. exists k, (take (l - n) (output_ids r)), (drop (l - n) (output_ids r)).
    split_and!; [done|by rewrite take_drop|rewrite length_drop; lia|done].
  - intros [H|(k' & old & tail & Hk' & E & Hl & H)]; [by right|left]. simplify_eq.
    assert (Ho : l - n = length old) by (subst l; rewrite E, length_app in *; lia).
    by rewrite Ho, E, drop_app_length.
Qed.

Lemma due_unique r fr fr' : due r fr → due r fr' → fr = fr'.
Proof.
  assert (Hlt : below_limit r → ∀ m, max_new_tokens (sampling_params r) = Some m →
    (m ≤ Z.of_nat (length (output_ids r)))%Z → False) by (intros (m & ? & ?) m' ? ?; simplify_eq; lia).
  destruct fr as [t|s|m|a b c], fr' as [t'|s'|m'|a' b' c']; simpl; intros Hd Hd';
    try (destruct Hd as [? _], Hd' as [? _]; congruence); try naive_solver.
  - destruct Hd as (_ & _ & E & _), Hd' as (_ & _ & E' & _). congruence.
  - destruct Hd as (_ & _ & _ & i & Hi & Hs & Hmin), Hd' as (_ & _ & _ & j & Hj & Hs' & Hmin').
    destruct (lt_eq_lt_dec i j) as [[Hlti| ->]|Hlti];
      [by destruct (Hmin' i s Hlti Hi Hs)| |by destruct (Hmin j s' Hlti Hj Hs')].
    f_equal. apply stop_list_lookup in Hi, Hj. congruence.
Qed.

(** The search for a stop string finds the first that was produced. *)
Lemma find_first {A} (f : A → bool) l :
  match List.find f l with
  | Some s => ∃ i, l !! i = Some s ∧ f s = true ∧ ∀ j s', j < i → l !! j = Some s' → f s' = false
  | None => ∀ j s', l !! j = Some s' → f s' = false
  end.
Proof.
  induction l as [|x l IH]; [done|]. cbn [List.find]. destruct (f x) eqn:Ef.
  - exists 0. split_and!; [done|done|lia].
  - destruct (List.find f l) as [s|].
    + destruct IH as (i & ? & ? & Hmin). exists (S i). split_and!; [done|done|].
      intros [|j] s' Hj E; [by simplify_eq/=|]. by apply (Hmin j); [lia|].
    + intros [|j] s' E; [by simplify_eq/=|]. by apply (IH j).
Qed.

Lemma check_stop_strs_due r : checkable r → to_abort r = false → below_limit r → (∀ t, ¬ ends_with r t) →
  ∃ r', check_stop_strs r = Ok r' ∧
    ((r' = r ∧ ∀ s, ¬ due r (FINISH_MATCHED_STR s)) ∨
     ∃ s, r' = set_finished_reason (Some (FINISH_MATCHED_STR s)) r ∧ due r (FINISH_MATCHED_STR s)).
Proof.
  intros [_ Ht] Ha Hb He. unfold check_stop_strs. destruct (stop_list (sampling_params r)) as [|s0 l0] eqn:Es.
  { exists r. split; [done|left; split; [done|]]. intros s (_ & _ & _ & i & Hi & _).
    apply stop_list_lookup in Hi. by rewrite Es in Hi. }
  destruct Ht as [k Hk]; [done|]. rewrite Hk. rewrite <- Es. clear s0 l0 Es.
  match goal with |- context [List.find ?f ?l] => pose proof (find_first f l) as Hf; destruct (List.find f l) as [s|] end.
  - destruct Hf as (i & Hi & Hs & Hmin). eexists; split; [done|right]. exists s. split; [done|].
    simpl. split_and!; [done|done|done|]. exists i. split_and!; [by apply stop_list_lookup|by apply (produced_true r k)|].
    intros j s' Hj Hs' Hp. apply stop_list_lookup in Hs'. apply (produced_true r k) in Hp; [|done].
    pose proof (Hmin j s' Hj Hs'). simpl in *. congruence.
  - exists r. split; [done|left; split; [done|]]. intros s (_ & _ & _ & i & Hi & Hp & _).
    apply stop_list_lookup in Hi. apply (produced_true r k) in Hp; [|done].
    pose proof (Hf i s Hi). simpl in *. congruence.
Qed.

(** C26: [check_finished] on an unfinished request that has produced a token returns and
    changes nothing but the finish reason.  It sets the one reason due and none where none
    is: an abort, with its message; else the token limit; else the last token, when the
    grammar has ended or the token is a stop token of the request, the model or the
    tokenizer that is not to be ignored; else the first stop string of the list that occurs
    in the text so far or in what the last tokens decode to.  Checking again changes
    nothing. *)
Theorem check_finished_correct r : checkable r → output_ids r ≠ [] → finished r = false →
  ∃ r', check_finished r = Ok r' ∧ check_finished r' = Ok r' ∧
    ((r' = r ∧ ∀ fr, ¬ due r fr) ∨
     ∃ fr, r' = set_finished_reason (Some fr) r ∧ ∀ fr', due r fr' ↔ fr' = fr).
Proof.
  intros Hc Hne Hf.
  assert (Hset : ∀ fr, due r fr → ∃ r', Ok (set_finished_reason (Some fr) r) = Ok r' ∧ check_finished r' = Ok r' ∧
    ((r' = r ∧ ∀ fr, ¬ due r fr) ∨ ∃ fr, r' = set_finished_reason (Some fr) r ∧ ∀ fr', due r fr' ↔ fr' = fr)).
  { intros fr Hfr. eexists. split_and!; [done|done|]. right. exists fr. split; [done|].
    intros fr'. split; [intros; by eapply due_unique|by intros ->]. }
  unfold check_finished at 1. rewrite Hf. destruct (to_abort r) eqn:Hab.
  { apply Hset. unfold new_FINISH_ABORT. simpl. split_and!; [done..|].
    destruct (to_abort_message r) as [[|x m]|]; [right|by left|right]; (split; [done|]).
    - by intros m [= <-].
    - by intros m. }
  destruct Hc as [[m Hm] Ht]. rewrite Hm.
  case_bool_decide as Hlen; [by apply Hset|].
  destruct (last (output_ids r)) as [t|] eqn:El; [|by apply last_None in El].
  assert (Hb : below_limit r) by (exists m; split; [done|lia]).
  destruct (match grammar r with Some g => is_terminated g | None => false end) eqn:Eg.
  { apply Hset. simpl. split_and!; [done|done|]. split; [done|left].
    destruct (grammar r) as [g|] eqn:Egr; [by exists g|done]. }
  destruct (negb (ignore_eos (sampling_params r)) && matched_eos r t) eqn:Ee.
  { apply Hset. apply andb_true_iff in Ee as [?%negb_true_iff ?%matched_eos_true]. simpl.
    split_and!; [done|done|]. split; [done|by right]. }
  assert (He : ∀ t', ¬ ends_with r t').
  { intros t' [El' [(g & Hg & Hg')|[H1 H2%matched_eos_true]]].
    - rewrite Hg in Eg. congruence.
    - assert (t' = t) as -> by congruence. by rewrite H1, H2 in Ee. }
  destruct (check_stop_strs_due r (conj (ex_intro _ m Hm) Ht) Hab Hb He) as (r' & -> & Hr').
  destruct Hr' as [[-> Hno]|(s & -> & Hs)]; [|by apply Hset].
  exists r. split_and!; [done| |left; split; [done|]].
  - unfold check_finished. rewrite Hf, Hab, Hm, bool_decide_eq_false_2 by done. rewrite El, Eg, Ee.
    destruct (check_stop_strs_due r (conj (ex_intro _ m Hm) Ht) Hab Hb He) as (r' & -> & [[-> _]|(s & _ & Hs)]); [done|].
    by destruct (Hno s).
  - intros [t'|s|m'|? ? ?] Hd; [by destruct (He t'), Hd as (_ & _ & ?)|by apply (Hno s)| |by destruct Hd; congruence].
    destruct Hd as (_ & ? & ?). simplify_eq.
Qed.

(** A request with a token limit of [m >= 1] finishes at the latest with its [m]-th
    output token: decoding any tokens never exceeds the limit, never raises, and after
    [m] tokens the request is finished. *)
Theorem decode_run_terminates ts r m :
  checkable r → max_new_tokens (sampling_params r) = Some m → (1 ≤ m)%Z → output_ids r = [] →
  ∃ r', decode_run ts r = Ok r' ∧ (Z.of_nat (length (output_ids r')) ≤ m)%Z ∧
    output_ids r' `prefix_of` ts ∧ ((m ≤ Z.of_nat (length ts))%Z → finished r' = true) ∧
    (finished r' = false → output_ids r' = ts).
Proof.
  intros Hc Hm Hm1 Ho.
  assert (Hfrozen : ∀ ts r, finished r = true → decode_run ts r = Ok r).
  { clear. intros ts. induction ts as [|t ts IH]; intros r Hf; [done|]. simpl.
    unfold decode_step, mbind, result_bind. rewrite Hf. by apply IH. }
  enough (H : ∀ ts r, checkable r → max_new_tokens (sampling_params r) = Some m →
    (Z.of_nat (length (output_ids r)) ≤ m)%Z → (finished r = false → (Z.of_nat (length (output_ids r)) < m)%Z) →
    ∃ r', decode_run ts r = Ok r' ∧ (Z.of_nat (length (output_ids r')) ≤ m)%Z ∧
      (∃ k, output_ids r' = output_ids r ++ k ∧ k `prefix_of` ts ∧ (finished r' = false → k = ts)) ∧
      ((m ≤ Z.of_nat (length (output_ids r) + length ts))%Z → finished r' = true)).
  { destruct (H ts r Hc Hm) as (r' & Hr & Hl & (k & Hk & Hp & Hk') & Hf); rewrite ?Ho; simpl; try lia.
    rewrite Ho in Hk, Hf. simpl in *. exists r'. split_and!; try done; [by rewrite Hk|].
    intros Hf'. by rewrite Hk, Hk'. }
  clear ts r Hc Hm Ho. induction ts as [|t ts IH]; intros r Hc Hm Hle Hlt.
  { exists r. simpl. split_and!; [done|done|exists []; by rewrite app_nil_r|].
    intros Hge. destruct (finished r); [done|]. specialize (Hlt eq_refl). lia. }
  destruct (finished r) eqn:Hf.
  { exists r. rewrite Hfrozen by done. split_and!; [done|done| |done].
    exists []. rewrite app_nil_r. split_and!; [done|by apply prefix_nil|congruence]. }
  specialize (Hlt eq_refl). cbn [decode_run]. unfold decode_step. rewrite Hf.
  set (r1 := set_output_ids (output_ids r ++ [t]) r).
  assert (Hc1 : checkable r1) by done. assert (Hne : output_ids r1 ≠ []) by (simpl; by destruct (output_ids r)).
  destruct (check_finished_ok r1 Hc1 (or_introl Hne)) as (r2 & Hr2 & Hr2').
  assert (Hsame : checkable r2 ∧ sampling_params r2 = sampling_params r ∧ output_ids r2 = output_ids r ++ [t]).
  { destruct Hr2' as [->|[fr ->]]; done. }
  destruct Hsame as (Hc2 & Hsp & Hout). rewrite Hr2. cbn [mbind result_bind].
  destruct (IH r2 Hc2) as (r' & Hr & Hl & (k & Hk & Hp & Hk') & Hfin); rewrite ?Hsp, ?Hout, ?length_app; simpl; [done|lia| |].
  { intros Hf2. destruct (decide (Z.of_nat (length (output_ids r) + 1) < m)%Z) as [|Hge]; [done|]. exfalso.
    revert Hr2. unfold check_finished. change (finished r1) with (finished r). rewrite Hf.
    change (to_abort r1) with (to_abort r). change (sampling_params r1) with (sampling_params r). rewrite Hm.
    destruct (to_abort r); [intros [= <-]; done|].
    rewrite bool_decide_eq_true_2; [by intros [= <-]|]. simpl. rewrite length_app. simpl. lia. }
  exists r'. rewrite Hout in Hk. split_and!; [done|done| |].
  - exists (t :: k). rewrite Hk, <- app_assoc. split_and!; [done|by apply prefix_cons|]. intros. f_equal; auto.
  - intros Hge. apply Hfin. rewrite Hout, length_app. simpl. lia.
Qed.

(** [init_next_round_input] on a request with at least one token: it returns, takes
    the longest cached prefix that leaves a token to compute (and does not pass
    [logprob_start_len] when logprobs are wanted), points to that prefix's node, and
    [extend_input_len] is what is left, at least one token. *)
Theorem init_next_round_input_correct clock tuple_hash c L own r m :
  cache_ok c L own → disable c = false → max_new_tokens (sampling_params r) = Some m →
  origin_input_ids r ++ output_ids r ≠ [] →
  let ids := origin_input_ids r ++ output_ids r in
  ∃ r' c' L' n, init_next_round_input clock tuple_hash r c = Ok (r', c') ∧ cache_ok c' L' own ∧
    fill_ids r' = ids ∧ last_node r' = Some n ∧
    ends_at c' n (take (length (prefix_indices r')) ids) (prefix_indices r') ∧
    (Z.of_nat (length (prefix_indices r')) + extend_input_len r' = Z.of_nat (length ids))%Z ∧
    (1 ≤ extend_input_len r')%Z ∧
    (return_logprob r = true → (0 ≤ logprob_start_len r)%Z →
       (Z.of_nat (length (prefix_indices r')) ≤ logprob_start_len r)%Z) ∧
    (∀ k v, cached c k v → k `prefix_of` ids → (page_size c | length k) →
       (Z.of_nat (length k) ≤ Z.of_nat (length ids) - 1)%Z →
       (return_logprob r = true → (Z.of_nat (length k) ≤ logprob_start_len r)%Z) →
       length k ≤ length (prefix_indices r')).
Proof.
  intros OK Hdis Hm Hne ids. set (n0 := length ids).
  assert (Hn0 : 1 ≤ n0) by (unfold n0, ids; destruct (origin_input_ids r ++ output_ids r); [done|simpl; lia]).
  set (r1 := set_fill_ids ids r). set (lim0 := (Z.of_nat n0 - 1)%Z).
  set (lim := Z.max (if return_logprob r then Z.min lim0 (logprob_start_len r) else lim0) 0).
  assert (Hadj : adjust_max_prefix_ids r = Ok (take (Z.to_nat lim) ids, r1)).
  { unfold adjust_max_prefix_ids. simpl. rewrite Hm. fold ids n0. fold lim0.
    assert (E : (if bool_decide (0 < m)%Z then Z.min lim0 lim0 else lim0) = lim0) by (case_bool_decide; lia).
    rewrite E. done. }
  assert (Hlim : (0 ≤ lim ≤ lim0)%Z) by (unfold lim, lim0; destruct (return_logprob r); lia).
  set (key' := take (Z.to_nat lim) ids) in *.
  assert (Hlk : length key' = Z.to_nat lim) by (unfold key'; rewrite length_take; unfold lim0 in *; fold n0; lia).
  assert (Hmatch : ∃ v n c' L', match_prefix clock tuple_hash key' c = Some (v, n, c') ∧ cache_ok c' L' own ∧
    length v ≤ length key' ∧ ends_at c' n (take (length v) key') v ∧ longest_cached c key' (length v)).
  { destruct (match_ok clock tuple_hash c L own key' OK Hdis)
      as (v & n & c' & L' & ? & ? & _ & _ & ? & ? & ?). by exists v, n, c', L'. }
  destruct Hmatch as (v & n & c' & L' & Hrun & OK' & Hlv & He & Hmax).
  unfold init_next_round_input, mbind, result_bind. rewrite Hadj, Hrun.
  eexists _, c', L', n. split; [done|]. simpl. fold ids n0.
  assert (Htake : take (length v) key' = take (length v) ids).
  { unfold key'. rewrite take_take. f_equal. lia. }
  split_and!; try done; try lia; [by rewrite <- Htake| |].
  - intros Hrl Hst. unfold lim in Hlk, Hlim. rewrite Hrl in *. lia.
  - intros k w Hc Hp Hd H1 H2. apply (Hmax k w Hc); [|done].
    assert (Hlen : length k ≤ Z.to_nat lim).
    { unfold lim. destruct (return_logprob r); [specialize (H2 eq_refl)|]; lia. }
    unfold key'. rewrite (prefix_take k ids Hp). exists (take (Z.to_nat lim - length k) (drop (length k) ids)).
    rewrite take_app_take_drop. f_equal. lia.
Qed.

(** ** Instances *)

Definition ex_params (m : Z) : SamplingParams :=
  normalize None (init_params (MkParams (Some m) (StopStr (s2z "END")) 0 (Some [7%Z]) f1 f1 (-1) f0 f0 f0 f1 0
    None 1 None None false false)).
(** A tokenizer of code points. *)
Definition ex_tokenizer : Tokenizer := MkTokenizer id 0 None.
Definition ex_req (m : Z) (ids : list Z) : Req :=
  let r := new_Req (s2z "r") ids (ex_params m) false None None (Some [2%Z]) false 0 None false in
  MkReq (rid r) (origin_input_ids_unpadded r) (origin_input_ids r) (output_ids r) (fill_ids r)
    (sampling_params r) false 0 (eos_token_ids r) (Some ex_tokenizer) None None false None None None [] None
    [] 0 0 None 0 false None None 0 0 0 false 0 None false.

Lemma ex_checkable m ids : checkable (ex_req m ids).
Proof. split; [by exists m|]. intros _. by eexists. Qed.

Lemma check_finished_correct_witness : ∃ r',
  check_finished (set_output_ids (s2z "xEND") (ex_req 9 [5%Z])) = Ok r' ∧
  finished_reason r' = Some (FINISH_MATCHED_STR (s2z "END")).
Proof.
  destruct (check_finished_correct (set_output_ids (s2z "xEND") (ex_req 9 [5%Z])))
    as (r' & H & _); [apply (ex_checkable 9 [5%Z])|done|done|].
  exists r'. split; [exact H|]. vm_compute in H. by injection H as <-.
Defined.

Lemma decode_run_terminates_witness : ∃ r',
  decode_run [4; 4; 4; 4]%Z (ex_req 3 [5%Z]) = Ok r' ∧ finished r' = true ∧ output_ids r' = [4; 4; 4]%Z.
Proof.
  destruct (decode_run_terminates [4; 4; 4; 4]%Z (ex_req 3 [5%Z]) 3) as (r' & H & _ & _ & Hf & _);
    [apply ex_checkable|done|lia|done|].
  exists r'. split_and!; [exact H|apply Hf; simpl; lia|]. vm_compute in H. by injection H as <-.
Defined.

Lemma init_next_round_input_correct_witness : ∃ r' c',
  init_next_round_input ex_clock ex_hash (ex_req 9 [1; 2; 3; 4]%Z) ex_cache = Ok (r', c') ∧
  prefix_indices r' = [11; 12]%Z ∧ extend_input_len r' = 2%Z.
Proof.
  destruct ex_cache_ok as (L & OK & _).
  destruct (init_next_round_input_correct ex_clock ex_hash ex_cache L (λ _, 0%Z) (ex_req 9 [1; 2; 3; 4]%Z) 9
              OK eq_refl eq_refl) as (r' & c' & L' & n & H & _); [done|].
  exists r', c'. split; [exact H|]. vm_compute in H. by injection H as <- _.
Defined.
