(* ===== verification/RadixStore.v ===== *)
(** * The radix cache, the request table and the slot allocator together

    [RadixCache.cache_finished_req] and [cache_unfinished_req]
    ([src/python/sglang/srt/mem_cache/radix_cache.py]): how the slots a request has
    filled move into the tree or back to the allocator.  The allocator is any instance
    of [KVAllocator]; its laws are all the theorems use. *)

From S2P Require Import Prelude PyStr Sampling HeapQ Radix RadixTree RadixUpdate RadixMatch RadixInv RadixSpec RadixLock RadixThms RadixLive Alloc Req.

Section store.
Context {A : Type} `{KVAllocator A}.
Context (clock : nat → Z) (tuple_hash : list Z → Z).

Record store := MkStore { st_cache : RadixCache; st_pool : ReqToTokenPool; st_alloc : A }.

(** The page-aligned length of [n] slots. *)
Definition page_aligned_len (ps n : nat) : nat := if decide (ps = 1) then n else n / ps * ps.

Definition cache_finished_req (r : Req) (s : store) : option store :=
  let c := st_cache s in
  row ← req_pool_idx r;
  if disable c then
    kv_indices ← rp_read row (length (origin_input_ids r) + length (output_ids r) - 1) (st_pool s);
    Some (MkStore c (rp_free [row] (st_pool s)) (kv_free kv_indices (st_alloc s)))
  else
    let token_ids := drop_last 1 (origin_input_ids r ++ output_ids r) in
    kv_indices ← rp_read row (length token_ids) (st_pool s);
    let n := page_aligned_len (page_size c) (length kv_indices) in
    let a1 := if decide (page_size c = 1) then st_alloc s
              else kv_free (drop n kv_indices) (st_alloc s) in
    '(new_prefix_len, c1) ← insert clock tuple_hash (take n token_ids) (Some (take n kv_indices)) c;
    let a2 := kv_free (slice (length (prefix_indices r)) new_prefix_len kv_indices) a1 in
    let p2 := rp_free [row] (st_pool s) in
    node ← last_node r;
    '(_, c2) ← dec_lock_ref node c1;
    Some (MkStore c2 p2 a2).

Definition cache_unfinished_req (r : Req) (s : store) : option (Req * store) :=
  let c := st_cache s in
  if disable c then Some (r, s)
  else
    row ← req_pool_idx r;
    let token_ids := fill_ids r in
    kv_indices ← rp_read row (length token_ids) (st_pool s);
    let n := page_aligned_len (page_size c) (length kv_indices) in
    let ids := take n token_ids in
    '(new_prefix_len, c1) ← insert clock tuple_hash ids (Some (take n kv_indices)) c;
    let a1 := kv_free (slice (length (prefix_indices r)) new_prefix_len kv_indices) (st_alloc s) in
    '(new_indices, new_last_node, c2) ← match_prefix clock tuple_hash ids c1;
    p1 ← rp_write row (length (prefix_indices r)) (drop (length (prefix_indices r)) new_indices) (st_pool s);
    node ← last_node r;
    '(_, c3) ← dec_lock_ref node c2;
    '(_, c4) ← inc_lock_ref new_last_node c3;
    let prefix := if decide (page_size c = 1) then new_indices
                  else new_indices ++ drop (length new_indices) kv_indices in
    Some (set_last_node (Some new_last_node) (set_prefix_indices prefix r), MkStore c4 p1 a1).

(** ** Invariants *)

(** A running request: its row holds the slots [kv] of the tokens [ids]; the first of
    them, [prefix_indices], are the tree's, which the request keeps locked through
    [last_node]; the others are its own. *)
Record req_ok (r : Req) (s : store) (L : gset nat) (own : nat → Z) (ids kv : list Z) (row node : nat) : Prop := {
  rq_row : req_pool_idx r = Some row;
  rq_read : rp_read row (length ids) (st_pool s) = Some kv;
  rq_len : length kv = length ids;
  rq_node : last_node r = Some node;
  rq_live : node ∈ L;
  rq_own : (1 ≤ own node)%Z;
  rq_page : (page_size (st_cache s) | length (prefix_indices r));
  rq_fits : length (prefix_indices r) ≤ length ids;
  rq_prefix : prefix_indices r = take (length (prefix_indices r)) kv;
  rq_cached : cached (st_cache s) (take (length (prefix_indices r)) ids) (prefix_indices r)
}.

(** How often the slot [x] is in the tree or free. *)
Definition slots_of (s : store) (L : gset nat) (x : Z) : Z :=
  (slot_count (st_cache s) L x + Z.of_nat (count_occ Z.eq_dec (kv_free_of (st_alloc s)) x))%Z.

Context `{!KVAllocatorLaws A}.

Lemma count_free v a x : count_occ Z.eq_dec (kv_free_of (kv_free v a)) x =
  count_occ Z.eq_dec v x + count_occ Z.eq_dec (kv_free_of a) x.
Proof. rewrite <- count_occ_app. apply Permutation_count_occ, kv_free_slots. Qed.

Lemma aligned_spec ps n : 0 < ps → (ps | page_aligned_len ps n) ∧ page_aligned_len ps n ≤ n ∧
  ∀ i, (ps | i) → i ≤ n → i ≤ page_aligned_len ps n.
Proof.
  intros Hps. unfold page_aligned_len. case_decide as E.
  - rewrite E. split_and!; [apply Nat.divide_1_l|done|done].
  - destruct (floor_page ps n Hps). split_and!; [done..|]. intros. by apply floor_page_max.
Qed.

(** The slots past the old prefix: those before the new prefix length are freed, the
    others are in the tree or freed as an incomplete page. *)
Lemma count_pieces (kv : list Z) p j n x : p ≤ j → j ≤ n → n ≤ length kv →
  count_occ Z.eq_dec (drop p kv) x = count_occ Z.eq_dec (slice p j kv) x +
    count_occ Z.eq_dec (drop j (take n kv)) x + count_occ Z.eq_dec (drop n kv) x.
Proof.
  intros Hp Hj Hn. rewrite <- !count_occ_app. f_equal. rewrite <- app_assoc. unfold slice.
  rewrite <- (take_drop (j - p) (drop p kv)) at 1. f_equal. rewrite drop_drop.
  replace (p + (j - p)) with j by lia. rewrite <- (take_drop n kv) at 1.
  by rewrite drop_app_le by (rewrite length_take; lia).
Qed.

(** The insertion both methods perform: the cached part is at least the prefix. *)
Lemma insert_request r s L own ids kv row node n :
  cache_ok (st_cache s) L own → disable (st_cache s) = false → req_ok r s L own ids kv row node →
  n = page_aligned_len (page_size (st_cache s)) (length kv) →
  ∃ j cv c1 L1, insert clock tuple_hash (take n ids) (Some (take n kv)) (st_cache s) = Some (j, c1) ∧
    cache_ok c1 L1 own ∧ L ⊆ L1 ∧ conf c1 = conf (st_cache s) ∧ length (prefix_indices r) ≤ j ∧ j ≤ n ∧
    length cv = j ∧ cached c1 (take n ids) (cv ++ drop j (take n kv)) ∧ (page_size c1 | n) ∧ n ≤ length ids ∧
    (∀ k v, cached (st_cache s) k v → cached c1 k v) ∧ keeps (λ _, True) (st_cache s) L c1 L1 ∧
    (∀ x, slot_count c1 L1 x =
      (slot_count (st_cache s) L x + Z.of_nat (count_occ Z.eq_dec (drop j (take n kv)) x))%Z).
Proof.
  intros OK Hdis [Hrow Hread Hlen Hnode Hlive Hown Hpage Hfits Hpre Hcach] Hn.
  destruct (c_tree _ _ _ OK) as [off TR]. pose proof (ok_ps _ _ _ _ _ TR) as Hps.
  destruct (aligned_spec (page_size (st_cache s)) (length kv) Hps) as (Hd & Hle & Hmax).
  rewrite <- Hn in *.
  destruct (insert_ok clock tuple_hash (st_cache s) L own (take n ids) (take n kv) OK Hdis)
    as (j & cv & c1 & L1 & Hins & OK1 & EX & Hj & Hdj & Hcv & Hc & Hl & Hiff & Hslots & _).
  { by rewrite length_take, Nat.min_l by lia. } { rewrite !length_take. lia. }
  rewrite length_take, Nat.min_l in Hj by lia.
  exists j, cv, c1, L1. split_and!; try done.
  - apply EX.
  - apply EX.
  - enough (length (take (length (prefix_indices r)) ids) ≤ j) as Hle'
      by (rewrite length_take, Nat.min_l in Hle' by done; done).
    apply (Hl _ _ Hcach).
    + rewrite (prefix_take (take (length (prefix_indices r)) ids) ids) by apply take_prefix_of.
      rewrite length_take, Nat.min_l by done.
      exists (take (n - length (prefix_indices r)) (drop (length (prefix_indices r)) ids)).
      rewrite take_app_take_drop. f_equal. specialize (Hmax _ Hpage). lia.
    + by rewrite length_take, Nat.min_l.
  - apply Hiff. right. split; [done|]. symmetry. apply take_ge.
    rewrite length_app, length_drop, !length_take. lia.
  - pose proof (ex_conf _ _ _ _ EX) as E. unfold conf in E. injection E as _ -> _ _. done.
  - lia.
  - intros k v Hk. apply Hiff. by left.
  - apply keeps_extends; [done|by eapply ok_root_L].
Qed.

Lemma same_keys_store c L c' : same_keys c L c' →
  (∀ k v, cached c' k v ↔ cached c k v) ∧ (∀ n k v, ends_at c' n k v ↔ ends_at c n k v) ∧
  page_size c' = page_size c ∧ disable c' = disable c ∧ root_node c' = root_node c ∧
  ∀ x, slot_count c' L x = slot_count c L x.
Proof.
  intros SK. pose proof (sk_conf _ _ _ SK) as E. unfold conf in E. injection E as Er Ep Ed _.
  split_and!; try done.
  - intros k v. unfold cached. rewrite Er. by eapply same_keys_has.
  - intros n k v. unfold ends_at. rewrite Er. by eapply same_keys_path.
  - apply SK.
Qed.

(** The allocator after some calls of [free]. *)
Definition frees (a a' : A) : Prop := ∃ vs, a' = foldr kv_free a vs.

Lemma cache_finished_ok r s L own ids kv row node :
  cache_ok (st_cache s) L own → disable (st_cache s) = false →
  ids = drop_last 1 (origin_input_ids r ++ output_ids r) → req_ok r s L own ids kv row node →
  ∃ s' L' w, cache_finished_req r s = Some s' ∧
    cache_ok (st_cache s') L' (hold own node (-1)) ∧
    (∀ x, slots_of s' L' x = (slots_of s L x +
       Z.of_nat (count_occ Z.eq_dec (drop (length (prefix_indices r)) kv) x))%Z) ∧
    cached (st_cache s') (take (page_aligned_len (page_size (st_cache s)) (length ids)) ids) w ∧
    (∀ k v, cached (st_cache s) k v → cached (st_cache s') k v) ∧
    st_pool s' = rp_free [row] (st_pool s) ∧ keeps (λ _, True) (st_cache s) L (st_cache s') L' ∧
    frees (st_alloc s) (st_alloc s').
Proof.
  intros OK Hdis Hids RQ. set (n := page_aligned_len (page_size (st_cache s)) (length kv)).
  destruct (insert_request r s L own ids kv row node n OK Hdis RQ eq_refl)
    as (j & cv & c1 & L1 & Hins & OK1 & Hsub & Hconf & Hpj & Hjn & Hcv & Hcach & Hdn & Hnl & Hkeep & HK & Hsl).
  destruct RQ as [Hrow Hread Hlen Hnode Hlive Hown Hpage Hfits Hpre _].
  pose proof Hconf as E. unfold conf in E. injection E as Er Ep Ed _.
  destruct (lock_ref_ok false c1 L1 own node OK1) as (d & c2 & Hdec & OK2 & SK & _); [by apply Hsub|done|].
  destruct (same_keys_store _ _ _ SK) as (Hck & _ & _ & _ & _ & Hsc).
  unfold cache_finished_req. rewrite Hrow. cbn [mbind option_bind]. rewrite Hdis, <- Hids, Hread.
  cbn [mbind option_bind]. fold n. rewrite Hins. cbn [mbind option_bind]. rewrite Hnode. cbn [mbind option_bind].
  unfold dec_lock_ref. rewrite Ed, Hdis, Hdec. cbn [mbind option_bind].
  eexists _, L1, _. split; [done|]. cbn [st_cache st_pool st_alloc]. split_and!; try done.
  - intros x. unfold slots_of. cbn [st_cache st_alloc]. rewrite Hsc, Hsl, count_free.
    rewrite (count_pieces kv (length (prefix_indices r)) j n x) by lia.
    case_decide as E1; [|rewrite count_free; lia].
    assert (n = length kv) as -> by (unfold n, page_aligned_len; by rewrite decide_True).
    rewrite (drop_all kv). simpl. lia.
  - rewrite <- Hlen. fold n. apply Hck. done.
  - intros k v Hk. apply Hck. by apply Hkeep.
  - eapply keeps_trans; [exact HK|]. by apply keeps_same_keys.
  - case_decide; [eexists [_]|eexists [_; _]]; done.
Qed.

(** C19: [cache_finished_req] with the cache enabled returns and conserves slots: every
    slot the request owned is afterwards in the tree or free, once more than before,
    and no other slot moves.  The page-aligned part of the request is cached, all that
    was cached stays cached, the request's lock is released and its row is free. *)
Theorem cache_finished_req_correct r s L own ids kv row node :
  cache_ok (st_cache s) L own → disable (st_cache s) = false →
  ids = drop_last 1 (origin_input_ids r ++ output_ids r) → req_ok r s L own ids kv row node →
  ∃ s' L' w, cache_finished_req r s = Some s' ∧
    cache_ok (st_cache s') L' (hold own node (-1)) ∧
    (∀ x, slots_of s' L' x = (slots_of s L x +
       Z.of_nat (count_occ Z.eq_dec (drop (length (prefix_indices r)) kv) x))%Z) ∧
    cached (st_cache s') (take (page_aligned_len (page_size (st_cache s)) (length ids)) ids) w ∧
    (∀ k v, cached (st_cache s) k v → cached (st_cache s') k v) ∧
    rp_free_slots (st_pool s') = rp_free_slots (st_pool s) ++ [row].
Proof.
  intros OK Hdis Hids RQ.
  destruct (cache_finished_ok r s L own ids kv row node OK Hdis Hids RQ) as (s' & L' & w & H1 & H2 & H3 & H4 & H5 & H6 & _).
  exists s', L', w. by rewrite H6.
Qed.

(** A write changes one row and no length. *)
Lemma rp_write_others row i vs p p' : rp_write row i vs p = Some p' →
  rp_free_slots p' = rp_free_slots p ∧ rp_size p' = rp_size p ∧
  (∀ j, j ≠ row → req_to_token p' !! j = req_to_token p !! j) ∧
  (∀ j, length <$> req_to_token p' !! j = length <$> req_to_token p !! j).
Proof.
  unfold rp_write. destruct (req_to_token p !! row) as [r|] eqn:Hr; [|done]. cbn [mbind option_bind].
  case_bool_decide as Hl; [|done]. intros [= <-]. split_and!; [done..| |]; simpl.
  - intros j Hj. by rewrite lookup_insert_ne.
  - intros j. destruct (decide (j = row)) as [->|Hj]; [|by rewrite lookup_insert_ne].
    rewrite lookup_insert_eq, Hr. simpl. f_equal. rewrite !length_app, length_take, length_drop. lia.
Qed.

(** Writing the slots after the first [p] of [new] over the row that held [kv]. *)
Lemma rp_write_read_tail row len pool kv new p n : rp_read row len pool = Some kv → length kv = len →
  p ≤ n → n ≤ len → length new = n →
  ∃ p1, rp_write row p (drop p new) pool = Some p1 ∧ rp_read row len p1 = Some (take p kv ++ drop p new ++ drop n kv).
Proof.
  intros Hread Hlen Hpn Hn Hnew. unfold rp_write, rp_read in *.
  destruct (req_to_token pool !! row) as [rowv|] eqn:Hrv; [|done].
  cbn [mbind option_bind] in *. injection Hread as Hkv.
  assert (Hrl : len ≤ length rowv) by (rewrite <- Hkv, length_take in Hlen; lia).
  rewrite bool_decide_eq_true_2 by (rewrite length_drop; lia). eexists. split; [done|]. simpl.
  rewrite lookup_insert_eq. simpl. f_equal. rewrite length_drop.
  replace (p + (length new - p)) with n by lia. rewrite <- Hkv.
  rewrite app_assoc, take_app_ge by (rewrite length_app, length_take, length_drop; lia).
  rewrite <- app_assoc, take_take, Nat.min_l by lia. do 2 f_equal.
  rewrite length_app, length_take, length_drop.
  rewrite <- (take_drop n (take len rowv)) at 1.
  rewrite drop_app_length' by (rewrite !length_take; lia).
  rewrite skipn_firstn_comm. f_equal. lia.
Qed.

(** What a match returns for a longer key begins with what is cached for a shorter one. *)
Lemma matched_prefix c L own ids new k v node p : cache_ok c L own → ends_at c node ids new →
  has (skel c) (root_node c) k v → length k = p → k = take p ids → (page_size c | p) → v = take p new.
Proof.
  intros OK He Hh Hlp Hk Hd. destruct (c_tree _ _ _ OK) as [off TR].
  assert (Hh2 : has (skel c) (root_node c) k (take p new)).
  { rewrite <- Hlp. eapply (has_prefix TR); [by eapply ok_root_L|by eapply path_has|].
    rewrite Hk. apply take_prefix_of. }
  eapply (has_unique _ _ _ _ _ (root_node c) k _ _ TR); [by eapply ok_root_L| |done|done]. by rewrite Hlp.
Qed.

Lemma cache_unfinished_ok r s L own kv row node :
  cache_ok (st_cache s) L own → disable (st_cache s) = false →
  req_ok r s L own (fill_ids r) kv row node →
  let n := page_aligned_len (page_size (st_cache s)) (length (fill_ids r)) in
  ∃ r' s' L' new node', cache_unfinished_req r s = Some (r', s') ∧
    cache_ok (st_cache s') L' (hold (hold own node (-1)) node' 1) ∧ length new = n ∧
    last_node r' = Some node' ∧ ends_at (st_cache s') node' (take n (fill_ids r)) new ∧
    prefix_indices r' = new ++ drop n kv ∧
    rp_read row (length (fill_ids r)) (st_pool s') = Some (new ++ drop n kv) ∧
    (∀ x, (slots_of s' L' x + Z.of_nat (count_occ Z.eq_dec (drop n kv) x) = slots_of s L x +
       Z.of_nat (count_occ Z.eq_dec (drop (length (prefix_indices r)) kv) x))%Z) ∧
    (page_size (st_cache s) = 1 →
       req_ok r' s' L' (hold (hold own node (-1)) node' 1) (fill_ids r) new row node') ∧
    r' = set_last_node (Some node') (set_prefix_indices (new ++ drop n kv) r) ∧ node' ∈ L' ∧
    keeps (λ _, True) (st_cache s) L (st_cache s') L' ∧ frees (st_alloc s) (st_alloc s') ∧
    rp_free_slots (st_pool s') = rp_free_slots (st_pool s) ∧ rp_size (st_pool s') = rp_size (st_pool s) ∧
    (∀ i, i ≠ row → req_to_token (st_pool s') !! i = req_to_token (st_pool s) !! i) ∧
    (∀ i, length <$> req_to_token (st_pool s') !! i = length <$> req_to_token (st_pool s) !! i).
Proof.
  intros OK Hdis RQ n. pose proof (rq_len _ _ _ _ _ _ _ _ RQ) as Hlen.
  destruct (insert_request r s L own (fill_ids r) kv row node n OK Hdis RQ)
    as (j & cv & c1 & L1 & Hins & OK1 & Hsub & Hconf & Hpj & Hjn & Hcv & Hcach & Hdn & Hnl & Hkeep & HK & Hsl).
  { by rewrite Hlen. }
  pose proof Hconf as E. unfold conf in E. injection E as Er Ep Ed _.
  destruct RQ as [Hrow Hread _ Hnode Hlive Hown Hpage Hfits Hpre Hold].
  destruct (match_ok clock tuple_hash c1 L1 own (take n (fill_ids r)) OK1)
    as (new & node' & c2 & L2 & Hmat & OK2 & SC & Hn' & Hln & He & Hmax); [congruence|].
  rewrite length_take, Nat.min_l in Hln by done.
  assert (Hnew : length new = n).
  { enough (length (take n (fill_ids r)) ≤ length new) as H' by (rewrite length_take in H'; lia).
    apply (Hmax _ _ Hcach); [done|]. by rewrite length_take, Nat.min_l. }
  rewrite Hnew, take_ge in He by (rewrite length_take; lia).
  destruct (same_content_ps _ _ _ _ SC) as (Ep2 & Er2 & Ed2).
  destruct (lock_ref_ok false c2 L2 own node OK2) as (d3 & c3 & Hdec & OK3 & SK3 & _);
    [by apply (ex_sub _ _ _ _ (sc_ext _ _ _ _ SC)), Hsub|done|].
  destruct (same_keys_store _ _ _ SK3) as (_ & He3 & Ep3 & Ed3 & _ & Hs3).
  destruct (lock_ref_ok true c3 L2 _ node' OK3 Hn' ltac:(done)) as (d4 & c4 & Hinc & OK4 & SK4 & _).
  destruct (same_keys_store _ _ _ SK4) as (_ & He4 & Ep4 & Ed4 & Er4 & Hs4).
  set (p := length (prefix_indices r)) in *.
  destruct (rp_write_read_tail row (length (fill_ids r)) (st_pool s) kv new p n Hread Hlen) as (p1 & Hwr & Hrd1);
    [lia..|done|].
  destruct (rp_write_others _ _ _ _ _ Hwr) as (Hw1 & Hw2 & Hw3 & Hw4).
  assert (Hprefix : take p new = take p kv).
  { rewrite <- Hpre. symmetry. apply (matched_prefix c2 L2 own (take n (fill_ids r)) new (take p (fill_ids r)) _ node' p OK2 He).
    - apply (sc_has _ _ _ _ SC); [rewrite Er2; by eapply ok_root_L|]. rewrite Er2. by apply Hkeep.
    - rewrite length_take. lia.
    - rewrite take_take. f_equal. lia.
    - by rewrite Ep2, Ep. }
  unfold cache_unfinished_req. rewrite Hdis, Hrow. cbn [mbind option_bind]. rewrite Hread.
  cbn [mbind option_bind]. rewrite Hlen. fold n. rewrite Hins. cbn [mbind option_bind].
  rewrite Hmat. cbn [mbind option_bind]. fold p. rewrite Hwr. cbn [mbind option_bind]. rewrite Hnode.
  cbn [mbind option_bind]. unfold dec_lock_ref, inc_lock_ref. rewrite Ed2, Ed, Hdis, Hdec.
  cbn [mbind option_bind]. rewrite Ed3, Ed2, Ed, Hdis, Hinc. cbn [mbind option_bind].
  assert (Hpfx : (if decide (page_size (st_cache s) = 1) then new else new ++ drop (length new) kv) = new ++ drop n kv).
  { case_decide as E1; [|by rewrite Hnew].
    assert (n = length kv) as -> by (unfold n, page_aligned_len; by rewrite decide_True).
    by rewrite drop_all, app_nil_r. }
  rewrite Hpfx. exists (set_last_node (Some node') (set_prefix_indices (new ++ drop n kv) r)).
  eexists _, L2, new, node'. split; [done|]. cbn [st_cache st_pool st_alloc].
  assert (He' : ends_at c4 node' (take n (fill_ids r)) new) by by apply He4, He3.
  assert (Hrd : rp_read row (length (fill_ids r)) p1 = Some (new ++ drop n kv)).
  { rewrite Hrd1. rewrite <- Hprefix, app_assoc, take_drop. done. }
  split_and!; try done.
  - intros x. unfold slots_of. cbn [st_cache st_alloc]. rewrite Hs4, Hs3.
    unfold slot_count at 1. rewrite (sc_slots _ _ _ _ SC). fold (slot_count c1 L1 x).
    rewrite Hsl, count_free, (count_pieces kv p j n x) by lia. lia.
  - intros E1. assert (En : n = length (fill_ids r)) by (unfold n, page_aligned_len; by rewrite decide_True).
    assert (Edrop : drop n kv = []) by (rewrite En, <- Hlen; apply drop_all).
    rewrite Edrop, app_nil_r in *. split; simpl; try done.
    + congruence.
    + pose proof (c_own _ _ _ OK node'). unfold hold. rewrite (decide_True (P := node' = node')) by done.
      destruct (decide (node' = node)) as [E2|]; [|lia]. rewrite E2 in *. lia.
    + rewrite Ep4, Ep3, Ep2, Ep, E1. apply Nat.divide_1_l.
    + lia.
    + by rewrite take_ge.
    + rewrite Hnew. unfold cached. eapply path_has. exact He'.
  - eapply keeps_trans; [exact HK|]. eapply keeps_trans; [eapply keeps_extends; [apply SC|by eapply ok_root_L]|].
    eapply keeps_trans; by apply keeps_same_keys.
  - by eexists [_].
Qed.
(** C20: [cache_unfinished_req] with the cache enabled returns and keeps a running request
    consistent: its aligned tokens are now the tree's, its row names the tree's slots
    for them, its lock has moved to their node, and the slots it gave up are in the
    tree or free.  With pages of one token the request's invariant holds again. *)
Theorem cache_unfinished_req_correct r s L own kv row node :
  cache_ok (st_cache s) L own → disable (st_cache s) = false →
  req_ok r s L own (fill_ids r) kv row node →
  let n := page_aligned_len (page_size (st_cache s)) (length (fill_ids r)) in
  ∃ r' s' L' new node', cache_unfinished_req r s = Some (r', s') ∧
    cache_ok (st_cache s') L' (hold (hold own node (-1)) node' 1) ∧ length new = n ∧
    last_node r' = Some node' ∧ ends_at (st_cache s') node' (take n (fill_ids r)) new ∧
    prefix_indices r' = new ++ drop n kv ∧
    rp_read row (length (fill_ids r)) (st_pool s') = Some (new ++ drop n kv) ∧
    (∀ x, (slots_of s' L' x + Z.of_nat (count_occ Z.eq_dec (drop n kv) x) = slots_of s L x +
       Z.of_nat (count_occ Z.eq_dec (drop (length (prefix_indices r)) kv) x))%Z) ∧
    (page_size (st_cache s) = 1 →
       req_ok r' s' L' (hold (hold own node (-1)) node' 1) (fill_ids r) new row node').
Proof.
  intros OK Hdis RQ n.
  destruct (cache_unfinished_ok r s L own kv row node OK Hdis RQ)
    as (r' & s' & L' & new & node' & H1 & H2 & H3 & H4 & H5 & H6 & H7 & H8 & H9 & _).
  by exists r', s', L', new, node'.
Qed.
End store.

(** ** Instances *)

Lemma cache_ok_root c L own d : (0 ≤ d)%Z → cache_ok c L own → cache_ok c L (hold own (root_node c) d).
Proof.
  intros Hd OK. pose proof (ok_root_L _ _ _ OK). destruct OK as [H1 H2 H3 H4 H5 H6 H7]. split; try done.
  - intros n s Hn Hr Hs. unfold hold. rewrite decide_False by done. by apply H3.
  - intros n. unfold hold. specialize (H4 n). case_decide; lia.
  - intros n Hn. unfold hold. rewrite decide_False by congruence. by apply H5.
Qed.

Definition ex_run_req : Req :=
  set_fill_ids [1; 2; 3; 9; 5]%Z (set_last_node (Some 0) (set_req_pool_idx (Some 0)
    (set_output_ids [6%Z] (ex_req 9 [1; 2; 3; 9; 5]%Z)))).
Definition ex_pool : ReqToTokenPool :=
  default (new_ReqToTokenPool 2 8) (rp_write 0 0 [21; 22; 23; 24; 25]%Z (new_ReqToTokenPool 2 8)).
Definition ex_store : store := MkStore ex_cache ex_pool (ta_alloc 30 (new_TokenToKVPoolAllocator 32)).2.

Lemma ex_req_ok : ∃ L, cache_ok ex_cache L (hold (λ _, 0%Z) 0 1) ∧
  req_ok ex_run_req ex_store L (hold (λ _, 0%Z) 0 1) [1; 2; 3; 9; 5]%Z [21; 22; 23; 24; 25]%Z 0 0.
Proof.
  destruct ex_cache_ok as (L & OK & _). exists L.
  pose proof (cache_ok_root _ _ _ 1 ltac:(lia) OK) as OK'. change (root_node ex_cache) with 0 in OK'.
  split; [exact OK'|]. split; try done; first [by apply (ok_root_L _ _ _ OK) | apply Nat.divide_0_r | simpl; lia | constructor].
Qed.

Lemma cache_finished_req_correct_witness : ∃ s' L' own',
  cache_finished_req ex_clock ex_hash ex_run_req ex_store = Some s' ∧ cache_ok (st_cache s') L' own' ∧
  kv_free_of (st_alloc s') = [31; 32; 25; 21; 22]%Z.
Proof.
  destruct ex_req_ok as (L & OK & RQ).
  destruct (cache_finished_req_correct ex_clock ex_hash ex_run_req ex_store L _ _ _ _ _ OK eq_refl eq_refl RQ)
    as (s' & L' & w & Hr & OK' & _).
  eexists s', L', _. split_and!; [exact Hr|exact OK'|]. vm_compute in Hr. by injection Hr as <-.
Defined.

Lemma cache_unfinished_req_correct_witness : ∃ r' s' L' own',
  cache_unfinished_req ex_clock ex_hash ex_run_req ex_store = Some (r', s') ∧ cache_ok (st_cache s') L' own' ∧
  prefix_indices r' = [11; 12; 23; 24; 25]%Z ∧ kv_free_of (st_alloc s') = [31; 32; 21; 22]%Z.
Proof.
  destruct ex_req_ok as (L & OK & RQ).
  destruct (cache_unfinished_req_correct ex_clock ex_hash ex_run_req ex_store L _ _ _ _ OK eq_refl RQ)
    as (r' & s' & L' & new & node' & Hr & OK' & _).
  eexists r', s', L', _. split_and!; [exact Hr|exact OK'|..]; vm_compute in Hr; by injection Hr as <- <-.
Defined.
