(* ===== verification/Caches.v ===== *)
(** * The other caches

    [mem_cache/chunk_cache.py] (the cache used when the radix cache is off),
    [mem_cache/multimodal_cache.py] (encoder results) and the slot states of
    [HostKVCache] in [mem_cache/memory_pool.py]. *)

From S2P Require Import Prelude PyStr Sampling Alloc Req.

(** ** [class ChunkCache] *)

Module ChunkCache.
Section chunk.
Context {A : Type} `{KVAllocator A}.

Record state := MkState { pool : ReqToTokenPool; alloc : A }.

Definition reset (s : state) : state := s.
Definition match_prefix (key : list Z) : list Z * option nat := ([], None).

Definition cache_finished_req (r : Req) (s : state) : option state :=
row ← req_pool_idx r;
kv_indices ← rp_read row (length (origin_input_ids r) + (length (output_ids r) - 1)) (pool s);
Some (MkState (rp_free [row] (pool s)) (kv_free kv_indices (alloc s))).

Definition cache_unfinished_req (r : Req) (s : state) : option (Req * state) :=
row ← req_pool_idx r;
kv_indices ← rp_read row (length (fill_ids r)) (pool s);
Some (set_prefix_indices kv_indices r, s).

Definition insert (s : state) : result unit := Raise (RuntimeError "NotImplementedError").
Definition evict (num_tokens : nat) (s : state) : state := s.
Definition inc_lock_ref (node : option nat) (s : state) : Z * state := (0%Z, s).
Definition dec_lock_ref (node : option nat) (s : state) : Z * state := (0%Z, s).

Context `{!KVAllocatorLaws A}.

(** Without a radix cache a finished request gives back its row and exactly the slots
  of its computed tokens (all but the last output), and an unfinished one keeps them
  as the prefix of its next chunk. *)
Theorem chunk_cache_correct r s row rowv :
req_pool_idx r = Some row → req_to_token (pool s) !! row = Some rowv →
(∃ s', cache_finished_req r s = Some s' ∧
   rp_free_slots (pool s') = rp_free_slots (pool s) ++ [row] ∧
   kv_free_of (alloc s') ≡ₚ
     take (length (origin_input_ids r) + (length (output_ids r) - 1)) rowv ++ kv_free_of (alloc s)) ∧
(∃ r', cache_unfinished_req r s = Some (r', s) ∧ prefix_indices r' = take (length (fill_ids r)) rowv).
Proof.
intros Hrow Hr. unfold cache_finished_req, cache_unfinished_req, rp_read. rewrite Hrow. simpl.
rewrite Hr. simpl. split; [|by eexists]. eexists. split; [done|]. simpl. split; [done|].
apply kv_free_slots.
Qed.
End chunk.

Lemma chunk_cache_correct_witness :
let r := set_fill_ids [1; 2]%Z (set_output_ids [9%Z] (set_req_pool_idx (Some 0) (ex_req 5 [1; 2]%Z))) in
let p := rp_set_free [1] (default (new_ReqToTokenPool 2 3) (rp_write 0 0 [4; 5]%Z (new_ReqToTokenPool 2 3))) in
∃ s', cache_finished_req r (MkState p (new_TokenToKVPoolAllocator 2)) = Some s' ∧
  rp_free_slots (pool s') = [1; 0].
Proof.
intros r p. destruct (chunk_cache_correct r (MkState p (new_TokenToKVPoolAllocator 2)) 0 [4; 5; 0]%Z eq_refl)
  as [(s' & H & Hf & _) _]; [by vm_compute|]. by exists s'.
Defined.
End ChunkCache.

(** ** [class MultiModalCache] *)

Module MultiModalCache.
Section mm.
(** [_get_tensor_size]: element size times number of elements. *)
Context {E : Type} (_get_tensor_size : E → Z).

Record state := MkState { max_size : Z; mm_cache : gmap Z E; current_size : Z }.

Definition new_state (max : Z) : state := MkState max ∅ 0.

Definition put (mm_hash : Z) (embedding : E) (s : state) : bool * state :=
if bool_decide (is_Some (mm_cache s !! mm_hash)) then (true, s)
else
  let data_size := _get_tensor_size embedding in
  if bool_decide (max_size s < current_size s + data_size)%Z then (false, s)
  else (true, MkState (max_size s) (<[mm_hash := embedding]> (mm_cache s)) (current_size s + data_size)).

Definition get (mm_hash : Z) (s : state) : option E := mm_cache s !! mm_hash.

Definition free (mm_hash : Z) (s : state) : bool * state :=
match mm_cache s !! mm_hash with
| None => (false, s)
| Some old =>
    (true, MkState (max_size s) (delete mm_hash (mm_cache s)) (current_size s - _get_tensor_size old))
end.

Definition clear (s : state) : state := MkState (max_size s) ∅ 0.
Definition len (s : state) : nat := size (mm_cache s).

Inductive op := Put (h : Z) (e : E) | Free (h : Z) | Clear.

Definition run_op (o : op) (s : state) : state :=
match o with
| Put h e => (put h e s).2
| Free h => (free h s).2
| Clear => clear s
end.

Definition total (m : gmap Z E) : Z := map_fold (λ _ e acc, (_get_tensor_size e + acc)%Z) 0%Z m.

Lemma total_insert m h e : m !! h = None → total (<[h := e]> m) = (_get_tensor_size e + total m)%Z.
Proof. intros. unfold total. rewrite map_fold_insert_L; [done|intros; lia|done]. Qed.

Lemma total_delete m h e : m !! h = Some e → total m = (_get_tensor_size e + total (delete h m))%Z.
Proof. intros. unfold total. rewrite (map_fold_delete_L _ _ h e m); [done|intros; lia|done]. Qed.

Context (size_nonneg : ∀ e, (0 ≤ _get_tensor_size e)%Z).

Definition ok (max : Z) (s : state) : Prop :=
max_size s = max ∧ current_size s = total (mm_cache s) ∧ (current_size s ≤ max)%Z.

Lemma run_op_ok max o s : (0 ≤ max)%Z → ok max s → ok max (run_op o s).
Proof.
intros H0 (Hm & Hc & Hl). destruct o as [h e|h|]; simpl.
- unfold put. case_bool_decide as Hs; [done|]. case_bool_decide; [done|]. split_and!; simpl; [done| |lia].
  rewrite total_insert; [lia|]. by apply eq_None_not_Some.
- unfold free. destruct (mm_cache s !! h) as [e|] eqn:E1; [|done]. pose proof (size_nonneg e).
  pose proof (total_delete _ _ _ E1). split_and!; simpl; [done|lia|lia].
- split_and!; done.
Qed.

(** After any sequence of [put], [free] and [clear] the recorded size is the total
  size of the stored embeddings and never exceeds the limit; [put] stores an
  embedding (or finds one under its hash) unless it does not fit, [free] removes it,
  and neither touches the other entries. *)
Theorem multimodal_cache_correct max ops :
(0 ≤ max)%Z →
let s := foldl (λ s o, run_op o s) (new_state max) ops in
current_size s = total (mm_cache s) ∧ (current_size s ≤ max)%Z ∧
(∀ h e, match put h e s with
   | (true, s') => is_Some (get h s') ∧ (get h s = None → get h s' = Some e) ∧
       ∀ h', h' ≠ h → get h' s' = get h' s
   | (false, s') => s' = s ∧ get h s = None ∧ (max < current_size s + _get_tensor_size e)%Z
   end) ∧
(∀ h, match free h s with
   | (true, s') => is_Some (get h s) ∧ get h s' = None ∧ ∀ h', h' ≠ h → get h' s' = get h' s
   | (false, s') => s' = s ∧ get h s = None
   end).
Proof.
intros H0 s. assert (Hok : ok max s).
{ unfold s. assert (H : ok max (new_state max)) by (by split_and!).
  revert H. generalize (new_state max). induction ops as [|o ops IH]; intros s0 Hs0; [done|].
  simpl. by apply IH, run_op_ok. }
clearbody s. destruct Hok as (Hm & Hc & Hl). split_and!; [done|done| |].
- intros h e. unfold put, get. case_bool_decide as Hs.
  { split_and!; [done| |done]. intros E1. rewrite E1 in Hs. by destruct Hs. }
  apply eq_None_not_Some in Hs. case_bool_decide; [split_and!; [done|done|lia]|]. simpl.
  rewrite lookup_insert_eq. split_and!; [by eexists|done|]. intros. by rewrite lookup_insert_ne.
- intros h. unfold free, get. destruct (mm_cache s !! h) eqn:E1; [|done]. simpl.
  rewrite lookup_delete_eq. split_and!; [by eexists|done|]. intros. by rewrite lookup_delete_ne.
Qed.
End mm.

Lemma multimodal_cache_correct_witness :
let s := foldl (λ s o, run_op id o s) (new_state 10) [Put 1 4; Put 2 5; Put 3 2; Free 1]%Z in
current_size s = 5%Z ∧ (current_size s ≤ 10)%Z.
Proof.
intros s. destruct (multimodal_cache_correct (λ z : Z, Z.abs z) ltac:(lia) 10
  [Put 1 4; Put 2 5; Put 3 2; Free 1]%Z ltac:(lia)) as (_ & H & _). split; [reflexivity|exact H].
Defined.
End MultiModalCache.

(** ** The slots of the host memory pool *)

Module HostKVCache.

(** [MemoryStateInt]. *)
Inductive MemoryStateInt := IDLE | RESERVED | PROTECTED | SYNCED | BACKUP.

#[export] Instance MemoryStateInt_eq_dec : EqDecision MemoryStateInt.
Proof. solve_decision. Defined.

(** The state [clear] sets up; [mem_state] is kept up to date in debug mode only. *)
Record state := MkState {
size : nat;
mem_state : gmap nat MemoryStateInt;
free_slots : list nat;
debug : bool
}.

(** [self.size - (self.size % self.page_size)]. *)
Definition aligned_size (raw_size page_size : nat) : nat := raw_size - raw_size `mod` page_size.

Definition clear (s : state) : state :=
MkState (size s) (gset_to_gmap IDLE (list_to_set (seq 0 (size s)))) (seq 0 (size s)) (debug s).

(** The part of [__init__] after the size is known: the host pool must be the larger. *)
Definition new_HostKVCache (raw_size page_size device_size : nat) (dbg : bool) : result state :=
let n := aligned_size raw_size page_size in
if bool_decide (device_size < n) then Ok (clear (MkState n ∅ [] dbg)) else Raise AssertionError.

Definition available_size (s : state) : nat := length (free_slots s).

(** [self.mem_state[indices] = x]: every index within the tensor. *)
Definition set_states (indices : list nat) (x : MemoryStateInt) (s : state) : option state :=
if forallb (λ i, bool_decide (i < size s)) indices
then Some (MkState (size s) (foldl (λ m i, <[i := x]> m) (mem_state s) indices) (free_slots s) (debug s))
else None.

Definition with_free f (s : state) := MkState (size s) (mem_state s) f (debug s).

Definition alloc (need_size : nat) (s : state) : result (option (list nat) * state) :=
if bool_decide (available_size s < need_size) then Ok (None, s)
else
  let select_index := take need_size (free_slots s) in
  let s1 := with_free (drop need_size (free_slots s)) s in
  if debug s1 then
    match set_states select_index RESERVED s1 with
    | Some s2 => Ok (Some select_index, s2)
    | None => Raise IndexError
    end
  else Ok (Some select_index, s1).

Definition free (indices : list nat) (s : state) : result (nat * state) :=
let s1 := with_free (free_slots s ++ indices) s in
if debug s1 then
  match set_states indices IDLE s1 with
  | Some s2 => Ok (length indices, s2)
  | None => Raise IndexError
  end
else Ok (length indices, s1).

(** [get_state]: the common state of the slots. *)
Definition get_state (indices : list nat) (s : state) : result MemoryStateInt :=
match indices with
| [] => Raise AssertionError
| i :: _ =>
    match mem_state s !! i with
    | None => Raise IndexError
    | Some x =>
        if forallb (λ j, bool_decide (mem_state s !! j = Some x)) indices then Ok x
        else if forallb (λ j, bool_decide (is_Some (mem_state s !! j))) indices
             then Raise AssertionError else Raise IndexError
    end
end.

Definition is_state (x : MemoryStateInt) (indices : list nat) (s : state) : result bool :=
y ← get_state indices s; Ok (bool_decide (y = x)).

(** [@synchronized(debug_only=True)]: outside debug mode the body is not run and the
  answer is [True]. *)
Definition debug_only {B} (body : state → result (B * state)) (default : B) (s : state) : result (B * state) :=
if debug s then body s else Ok (default, s).

Definition is_reserved indices := debug_only (λ s, b ← is_state RESERVED indices s; Ok (b, s)) true.
Definition is_protected indices := debug_only (λ s, b ← is_state PROTECTED indices s; Ok (b, s)) true.
Definition is_synced indices := debug_only (λ s, b ← is_state SYNCED indices s; Ok (b, s)) true.
Definition is_backup indices := debug_only (λ s, b ← is_state BACKUP indices s; Ok (b, s)) true.

(** A guarded transition: a [ValueError] unless the slots are in the state [src]. *)
Definition transition (src dst : MemoryStateInt) (indices : list nat) : state → result (bool * state) :=
debug_only (λ s,
  b ← is_state src indices s;
  if b : bool then
    match set_states indices dst s with
    | Some s' => Ok (true, s')
    | None => Raise IndexError
    end
  else Raise (ValueError "The host memory slots are in the wrong state")) true.

Definition update_backup := transition SYNCED BACKUP.
Definition protect_write := transition RESERVED PROTECTED.
Definition protect_load := transition BACKUP PROTECTED.
Definition complete_io := transition PROTECTED SYNCED.
Definition update_synced (indices : list nat) : state → result (bool * state) :=
debug_only (λ s, match set_states indices SYNCED s with
                 | Some s' => Ok (true, s')
                 | None => Raise IndexError
                 end) true.

(** *** The life of a host slot *)

Inductive op :=
| Alloc (n : nat)
| Free (l : list nat)
| UpdateBackup (l : list nat)
| ProtectWrite (l : list nat)
| ProtectLoad (l : list nat)
| CompleteIo (l : list nat).

Definition run_op (o : op) (s : state) : result state :=
match o with
| Alloc n => snd <$> alloc n s
| Free l => snd <$> free l s
| UpdateBackup l => snd <$> update_backup l s
| ProtectWrite l => snd <$> protect_write l s
| ProtectLoad l => snd <$> protect_load l s
| CompleteIo l => snd <$> complete_io l s
end.

(** The moves of a slot: the write-through cycle, reloading, and release. *)
Inductive life : MemoryStateInt → MemoryStateInt → Prop :=
| life_stay x : life x x
| life_alloc : life IDLE RESERVED
| life_write : life RESERVED PROTECTED
| life_done : life PROTECTED SYNCED
| life_backup : life SYNCED BACKUP
| life_load : life BACKUP PROTECTED
| life_free x : life x IDLE.

(** In debug mode: a slot is free exactly when it is idle. *)
Record inv (s : state) : Prop := {
in_debug : debug s = true;
in_nodup : NoDup (free_slots s);
in_dom i : is_Some (mem_state s !! i) ↔ i < size s;
in_idle i : i ∈ free_slots s ↔ mem_state s !! i = Some IDLE
}.

Lemma set_states_lookup l x m i :
foldl (λ m i, <[i := x]> m) m l !! i = if decide (i ∈ l) then Some x else (m : gmap nat MemoryStateInt) !! i.
Proof.
revert m. induction l as [|j l IH]; intros m; simpl; [done|]. rewrite IH.
destruct (decide (i ∈ l)); [by rewrite decide_True by by right|].
destruct (decide (i = j)) as [->|].
- rewrite lookup_insert_eq, decide_True; [done|left].
- rewrite lookup_insert_ne, decide_False; [done| |done]. by intros [?|?]%elem_of_cons.
Qed.

Lemma set_states_Some l x s : (∀ i, i ∈ l → i < size s) →
∃ s', set_states l x s = Some s' ∧ size s' = size s ∧ free_slots s' = free_slots s ∧ debug s' = debug s ∧
  ∀ i, mem_state s' !! i = if decide (i ∈ l) then Some x else mem_state s !! i.
Proof.
intros Hl. unfold set_states. assert (E : forallb (λ i, bool_decide (i < size s)) l = true).
{ apply List.forallb_forall. intros i Hi. apply bool_decide_eq_true_2. by apply Hl, list_elem_of_In. }
rewrite E. eexists. split_and!; try done. intros i. apply set_states_lookup.
Qed.

Lemma get_state_Ok l s x : get_state l s = Ok x → l ≠ [] ∧ ∀ i, i ∈ l → mem_state s !! i = Some x.
Proof.
unfold get_state. destruct l as [|j l]; [done|]. destruct (mem_state s !! j) as [y|]; [|done].
destruct (forallb (λ j, bool_decide (mem_state s !! j = Some y)) (j :: l)) eqn:E.
- intros [= ->]. split; [done|]. intros i Hi%list_elem_of_In.
  rewrite List.forallb_forall in E. by apply E, bool_decide_eq_true_1 in Hi.
- by destruct_match.
Qed.

(** A transition moves exactly the named slots from its source to its target state. *)
Lemma transition_Ok src dst l s b s' : inv s → transition src dst l s = Ok (b, s') → src ≠ IDLE → dst ≠ IDLE →
inv s' ∧ (∀ i, i ∈ l → mem_state s !! i = Some src ∧ mem_state s' !! i = Some dst) ∧
(∀ i, i ∉ l → mem_state s' !! i = mem_state s !! i) ∧ size s' = size s.
Proof.
intros [Hd Hn Hdom Hid] Ht Hsrc Hdst. unfold transition, debug_only, is_state in Ht. rewrite Hd in Ht.
destruct (get_state l s) as [x|] eqn:Hg; [|done]. apply get_state_Ok in Hg as [Hne Hall].
cbn [mbind result_bind] in Ht. case_bool_decide as E; [|done]. subst x.
destruct (set_states_Some l dst s) as (s1 & Hs & Hz & Hf & Hd1 & Hm).
{ intros i Hi. apply Hdom. rewrite Hall by done. eauto. }
rewrite Hs in Ht. injection Ht as _ <-. split_and!; [|intros i Hi; split; [by apply Hall|]| |done].
- split; [congruence|by rewrite Hf|intros i..].
  + rewrite Hz, <- Hdom, Hm. case_decide as Hi; [|done]. rewrite (Hall i Hi). by split; eauto.
  + rewrite Hf, Hid, Hm. case_decide as Hi; [|done]. rewrite (Hall i Hi). split; congruence.
- rewrite Hm. by case_decide.
- intros i Hi. rewrite Hm. by case_decide.
Qed.

Lemma clear_inv s : debug s = true → inv (clear s).
Proof.
assert (E : ∀ i, mem_state (clear s) !! i = if decide (i < size s) then Some IDLE else None).
{ intros i. simpl. case_decide as Hi.
  - apply lookup_gset_to_gmap_Some. split; [|done]. rewrite elem_of_list_to_set, elem_of_seq. lia.
  - apply lookup_gset_to_gmap_None. rewrite elem_of_list_to_set, elem_of_seq. lia. }
intros Hd. split; [done|apply NoDup_seq|intros i..]; rewrite E; simpl.
- case_decide; naive_solver.
- rewrite elem_of_seq. case_decide; split; try done; lia.
Qed.

Lemma alloc_inv n s o s' : inv s → alloc n s = Ok (o, s') →
inv s' ∧ size s' = size s ∧ ∀ i, mem_state s' !! i = mem_state s !! i ∨
  (mem_state s !! i = Some IDLE ∧ mem_state s' !! i = Some RESERVED).
Proof.
intros [Hd Hn Hdom Hid]. unfold alloc. case_bool_decide as Hlt.
{ intros [= <- <-]. split_and!; [done|done|by left]. }
unfold available_size in Hlt. set (l := take n (free_slots s)). simpl. rewrite Hd.
rewrite <- (take_drop n (free_slots s)) in Hn. apply NoDup_app in Hn as (_ & Hdisj & Hn2).
assert (Hl : ∀ i, i ∈ l → mem_state s !! i = Some IDLE).
{ intros i Hi. apply Hid. rewrite <- (take_drop n (free_slots s)). apply elem_of_app. by left. }
destruct (set_states_Some l RESERVED (with_free (drop n (free_slots s)) s)) as (s1 & -> & Hz & Hf & Hd1 & Hm).
{ intros i Hi. apply Hdom. rewrite Hl by done. eauto. }
intros [= <- <-]. simpl in Hz, Hf, Hd1, Hm. split_and!; [|done|].
- split; [congruence|by rewrite Hf|intros i..].
  + rewrite Hz, <- Hdom, Hm. case_decide as Hi; [|done]. rewrite (Hl i Hi). by split; eauto.
  + rewrite Hf, Hm. case_decide as Hi.
    * split; [|done]. intros Hi'. by destruct (Hdisj i Hi).
    * rewrite <- Hid. rewrite <- (take_drop n (free_slots s)) at 2. rewrite elem_of_app.
      fold l. tauto.
- intros i. rewrite Hm. case_decide as Hi; [right|by left]. split; [by apply Hl|done].
Qed.

Lemma free_inv l s k s' : inv s → NoDup l → (∀ i, i ∈ l → ∃ x, mem_state s !! i = Some x ∧ x ≠ IDLE) →
free l s = Ok (k, s') → inv s' ∧ size s' = size s ∧ ∀ i, mem_state s' !! i = mem_state s !! i ∨
  (is_Some (mem_state s !! i) ∧ mem_state s' !! i = Some IDLE).
Proof.
intros [Hd Hn Hdom Hid] Hnl Hl. unfold free. simpl. rewrite Hd.
destruct (set_states_Some l IDLE (with_free (free_slots s ++ l) s)) as (s1 & -> & Hz & Hf & Hd1 & Hm).
{ intros i Hi. apply Hdom. destruct (Hl i Hi) as (x & -> & _). eauto. }
intros [= <- <-]. simpl in Hz, Hf, Hd1, Hm. split_and!; [|done|].
- split; [congruence|rewrite Hf|intros i..].
  + apply NoDup_app. split_and!; [done| |done]. intros i Hi%Hid Hi'.
    destruct (Hl i Hi') as (x & ? & ?). congruence.
  + rewrite Hz, <- Hdom, Hm. case_decide as Hi; [|done]. destruct (Hl i Hi) as (x & -> & _). by split; eauto.
  + rewrite Hf, elem_of_app, Hm, Hid. case_decide as Hi; [|tauto]. split; [done|by right].
- intros i. rewrite Hm. case_decide as Hi; [right|by left].
  destruct (Hl i Hi) as (x & -> & _). eauto.
Qed.

(** The client's side of the protocol: it frees slots it holds, each once. *)
Definition allowed (o : op) (s : state) : Prop :=
match o with
| Free l => NoDup l ∧ ∀ i, i ∈ l → ∃ x, mem_state s !! i = Some x ∧ x ≠ IDLE
| _ => True
end.

Inductive reach (s0 : state) : state → Prop :=
| reach_init : reach s0 (clear s0)
| reach_step s o s' : reach s0 s → allowed o s → run_op o s = Ok s' → reach s0 s'.

Lemma run_op_inv o s s' : inv s → allowed o s → run_op o s = Ok s' →
inv s' ∧ size s' = size s ∧ ∀ i x y, mem_state s !! i = Some x → mem_state s' !! i = Some y → life x y.
Proof.
intros Hi Ha Hr.
assert (Htrans : ∀ src dst l, src ≠ IDLE → dst ≠ IDLE → life src dst →
  snd <$> transition src dst l s = Ok s' →
  inv s' ∧ size s' = size s ∧ ∀ i x y, mem_state s !! i = Some x → mem_state s' !! i = Some y → life x y).
{ intros src dst l H1 H2 H3 Ht. destruct (transition src dst l s) as [[b s1]|] eqn:E; [|done].
  injection Ht as <-. destruct (transition_Ok _ _ _ _ _ _ Hi E H1 H2) as (? & Hin & Hout & ?).
  split_and!; [done..|]. intros i x y Hx Hy. destruct (decide (i ∈ l)) as [Hl|Hl].
  - destruct (Hin i Hl). by simplify_eq.
  - rewrite Hout in Hy by done. simplify_eq. constructor. }
destruct o as [n|l|l|l|l|l]; [| |by eapply Htrans, Hr; [..|constructor]..]; simpl in Hr.
- destruct (alloc n s) as [[o s1]|] eqn:E; [|done]. injection Hr as <-.
  destruct (alloc_inv _ _ _ _ Hi E) as (? & ? & H). split_and!; [done..|]. intros i x y Hx Hy.
  destruct (H i) as [Hs|[? ?]]; [|simplify_eq; constructor]. rewrite Hs in Hy. simplify_eq. constructor.
- destruct (free l s) as [[o s1]|] eqn:E; [|done]. injection Hr as <-. destruct Ha as [Hn Hl].
  destruct (free_inv _ _ _ _ Hi Hn Hl E) as (? & ? & H). split_and!; [done..|]. intros i x y Hx Hy.
  destruct (H i) as [Hs|[? ?]]; [|simplify_eq; constructor]. rewrite Hs in Hy. simplify_eq. constructor.
Qed.

(** with state tracking on, in every state a client that frees only what it holds can
  reach, a host slot is in the free list exactly when it is idle, and at most once;
  every operation that returns moves slots only along idle - reserved - protected -
  synced - backup, backup - protected, and back to idle by [free]. *)
Theorem host_slots_correct s0 s : debug s0 = true → reach s0 s →
NoDup (free_slots s) ∧ (∀ i, i ∈ free_slots s ↔ mem_state s !! i = Some IDLE) ∧
∀ o s', allowed o s → run_op o s = Ok s' →
  ∀ i x y, mem_state s !! i = Some x → mem_state s' !! i = Some y → life x y.
Proof.
intros Hd Hr. assert (Hi : inv s).
{ induction Hr as [|s o s' _ IH Ha Hr]; [by apply clear_inv|]. by destruct (run_op_inv o s s' IH Ha Hr). }
split_and!; [apply Hi|apply Hi|]. intros o s' Ha Ho. by destruct (run_op_inv o s s' Hi Ha Ho) as (_ & _ & H).
Qed.

Lemma host_slots_correct_witness : ∃ s,
reach (MkState 4 ∅ [] true) s ∧ mem_state s !! 1 = Some PROTECTED ∧ NoDup (free_slots s).
Proof.
assert (H : ∃ s, reach (MkState 4 ∅ [] true) s ∧ mem_state s !! 1 = Some PROTECTED).
{ eexists. split; [eapply (reach_step _ _ (ProtectWrite [0; 1])); [eapply (reach_step _ _ (Alloc 2)); [constructor|done|vm_compute; reflexivity]|done|vm_compute; reflexivity]|done]. }
destruct H as (s & Hr & H1). exists s. split_and!; [done..|].
by destruct (host_slots_correct (MkState 4 ∅ [] true) s eq_refl Hr) as [Hn _].
Defined.
End HostKVCache.
