(* ===== verification/PySort.v ===== *)
(** * [list.sort(key=...)]

    Python's sort is stable; the model is a stable insertion sort. *)

From S2P Require Import Prelude.

Section sort.
Context {A K : Type} (leb : K → K → bool) (key : A → K).

(** Insert before the first element with a greater key. *)
Fixpoint insert_sorted (x : A) (l : list A) : list A :=
  match l with
  | [] => [x]
  | y :: l' => if leb (key x) (key y) then x :: l else y :: insert_sorted x l'
  end.

Fixpoint sort_by (l : list A) : list A :=
  match l with
  | [] => []
  | x :: l => insert_sorted x (sort_by l)
  end.

Lemma insert_sorted_perm x l : insert_sorted x l ≡ₚ x :: l.
Proof.
  induction l as [|y l IH]; simpl; [done|]. destruct (leb (key x) (key y)); [done|].
  rewrite IH. constructor.
Qed.

Lemma sort_by_perm l : sort_by l ≡ₚ l.
Proof. induction l as [|x l IH]; simpl; [done|]. by rewrite insert_sorted_perm, IH. Qed.

Definition key_le (x y : A) : Prop := leb (key x) (key y) = true.

Context (leb_total : ∀ a b, leb a b = true ∨ leb b a = true).
Context (leb_trans : ∀ a b c, leb a b = true → leb b c = true → leb a c = true).

Lemma insert_sorted_sorted x l : StronglySorted key_le l → StronglySorted key_le (insert_sorted x l).
Proof.
  induction 1 as [|y l Hl IH Hy]; simpl; [repeat constructor|].
  destruct (leb (key x) (key y)) eqn:E.
  - constructor; [by constructor|]. constructor; [done|].
    eapply Forall_impl; [exact Hy|]. intros z Hz. by eapply leb_trans.
  - constructor; [done|]. rewrite Forall_forall. intros z. rewrite insert_sorted_perm.
    intros [->|Hz]%elem_of_cons.
    + unfold key_le. destruct (leb_total (key x) (key y)); congruence.
    + rewrite Forall_forall in Hy. by apply Hy.
Qed.

Lemma sort_by_sorted l : StronglySorted key_le (sort_by l).
Proof. induction l; simpl; [constructor|]. by apply insert_sorted_sorted. Qed.

(** Stability: the elements with one key keep their order. *)
Lemma insert_sorted_filter (P : A → Prop) `{!∀ x, Decision (P x)} x l :
  (∀ y z, P y → P z → leb (key y) (key z) = true) →
  StronglySorted key_le l →
  filter P (insert_sorted x l) = filter P (x :: l).
Proof.
  intros HP Hs. induction Hs as [|y l Hl IH Hy]; [done|]. cbn [insert_sorted].
  destruct (leb (key x) (key y)) eqn:E; [done|].
  rewrite !(filter_cons _ y), !filter_cons, IH. rewrite !filter_cons.
  repeat case_decide; try done. rewrite HP in E; done.
Qed.

Lemma sort_by_stable (P : A → Prop) `{!∀ x, Decision (P x)} l :
  (∀ y z, P y → P z → leb (key y) (key z) = true) → filter P (sort_by l) = filter P l.
Proof.
  intros HP. induction l as [|x l IH]; [done|]. cbn [sort_by].
  rewrite insert_sorted_filter by (done || apply sort_by_sorted).
  rewrite !filter_cons. by rewrite IH.
Qed.
End sort.

Definition Zleb (a b : Z) : bool := bool_decide (a ≤ b)%Z.
Lemma Zleb_total a b : Zleb a b = true ∨ Zleb b a = true.
Proof. unfold Zleb. rewrite !bool_decide_eq_true. lia. Qed.
Lemma Zleb_trans a b c : Zleb a b = true → Zleb b c = true → Zleb a c = true.
Proof. unfold Zleb. rewrite !bool_decide_eq_true. lia. Qed.

(** A number or [float("inf")], which is [None]. *)
Definition infleb (a b : option Z) : bool :=
  match a, b with
  | _, None => true
  | None, Some _ => false
  | Some a, Some b => Zleb a b
  end.
Lemma infleb_total a b : infleb a b = true ∨ infleb b a = true.
Proof. destruct a, b; simpl; auto. apply Zleb_total. Qed.
Lemma infleb_trans a b c : infleb a b = true → infleb b c = true → infleb a c = true.
Proof. destruct a, b, c; simpl; try done. apply Zleb_trans. Qed.

(** ** Largest first

    [l'] is [l] with the elements of larger key first, those of equal key in their old order. *)

Definition sorted_desc {A} (key : A → Z) (l l' : list A) : Prop :=
  l' ≡ₚ l ∧ StronglySorted (λ a b, (key b ≤ key a)%Z) l' ∧
  ∀ k, filter (λ a, key a = k) l' = filter (λ a, key a = k) l.

Lemma sort_by_desc {A} (key : A → Z) l : sorted_desc key l (sort_by Zleb (λ a, - key a)%Z l).
Proof.
  split_and!.
  - apply sort_by_perm.
  - assert (Hs : StronglySorted (key_le Zleb (λ a, - key a)%Z) (sort_by Zleb (λ a, - key a)%Z l))
      by (apply sort_by_sorted; [apply Zleb_total|apply Zleb_trans]).
    induction Hs as [|x xs Hs IH Hx]; constructor; [done|]. eapply Forall_impl; [exact Hx|].
    intros y. unfold key_le, Zleb. rewrite bool_decide_eq_true. lia.
  - intros k. apply sort_by_stable; [apply Zleb_total|apply Zleb_trans|]. intros y z Hy Hz. unfold Zleb. rewrite bool_decide_eq_true. lia.
Qed.

(** It depends on the keys only. *)
Lemma sorted_desc_ext {A} (key key' : A → Z) l l' : (∀ x, x ∈ l → key x = key' x) →
  sorted_desc key l l' → sorted_desc key' l l'.
Proof.
  intros He (Hp & Hs & Hf). assert (He' : ∀ x, x ∈ l' → key x = key' x) by (intros x; rewrite Hp; apply He).
  split; [done|]. split.
  - clear Hf Hp He. induction Hs as [|x xs Hs IH Hx]; constructor.
    + apply IH. intros y Hy. apply He'. by right.
    + rewrite Forall_forall in Hx |- *. intros y Hy.
      rewrite <- (He' x ltac:(left)), <- (He' y ltac:(by right)). by apply Hx.
  - intros k. assert (Hfe : ∀ xs : list A, (∀ x, x ∈ xs → key x = key' x) → filter (λ a, key' a = k) xs = filter (λ a, key a = k) xs).
    { clear. induction xs as [|x xs IH]; intros Hx; [done|]. rewrite !filter_cons, <- (Hx x ltac:(left)), IH; [done|].
      intros y Hy. apply Hx. by right. }
    by rewrite !Hfe.
Qed.

(** Of keys that may be infinite, the finite ones come first. *)
Lemma sort_by_infinite {A} (last : A → Prop) `{!∀ x, Decision (last x)} (key : A → Z) l :
  sort_by infleb (λ x, if bool_decide (last x) then None else Some (key x)) l =
  sort_by Zleb key (filter (λ x, ¬ last x) l) ++ filter last l.
Proof.
  set (f := λ x, if bool_decide (last x) then None else Some (key x)).
  assert (Hl : ∀ x, last x → f x = None) by (intros; unfold f; by rewrite bool_decide_eq_true_2).
  assert (Hk : ∀ x, ¬ last x → f x = Some (key x)) by (intros; unfold f; by rewrite bool_decide_eq_false_2).
  induction l as [|x l IH]; [done|]. cbn [sort_by]. rewrite IH, !filter_cons.
  assert (Hxs : Forall (λ y, ¬ last y) (sort_by Zleb key (filter (λ x, ¬ last x) l))).
  { rewrite sort_by_perm. apply Forall_forall. by intros y [Hy _]%list_elem_of_filter. }
  assert (Hys : Forall last (filter last l)) by (apply Forall_forall; by intros y [Hy _]%list_elem_of_filter).
  generalize dependent (filter last l). intros ys _ Hys. revert Hxs. destruct (decide (last x)) as [Hx|Hx].
  - rewrite (decide_False (P := ¬ last x)) by tauto. generalize (sort_by Zleb key (filter (λ x, ¬ last x) l)). intros xs Hxs.
    induction Hxs as [|y xs Hy _ IHxs]; cbn [insert_sorted app].
    + destruct Hys as [|y ys Hy Hys]; cbn [insert_sorted]; [done|]. by rewrite (Hl x Hx), (Hl y Hy).
    + rewrite (Hl x Hx), (Hk y Hy). cbn [infleb]. by rewrite IHxs.
  - rewrite (decide_True (P := ¬ last x)) by done. cbn [sort_by]. generalize (sort_by Zleb key (filter (λ x, ¬ last x) l)). intros xs Hxs.
    induction Hxs as [|y xs Hy _ IHxs]; cbn [insert_sorted app].
    + destruct Hys as [|y ys Hy Hys]; cbn [insert_sorted]; [done|]. by rewrite (Hk x Hx), (Hl y Hy).
    + rewrite (Hk x Hx), (Hk y Hy). cbn [infleb]. destruct (Zleb (key x) (key y)); [done|]. by rewrite IHxs.
Qed.
