(* ===== verification/SchedulePolicy.v ===== *)
(** * The order of the waiting queue and the admission of requests

    [src/python/sglang/srt/managers/schedule_policy.py]: [SchedulePolicy] sorts the
    waiting queue, [PrefillAdder] decides which requests the next prefill batch takes. *)

From S2P Require Import Prelude PyStr PySort Sampling HeapQ Radix RadixTree RadixUpdate RadixMatch RadixInv RadixSpec RadixLock RadixThms Req.
From Stdlib Require Import QArith Lqa.
Close Scope Q_scope.

(** The environment variables' defaults. *)
Definition CLIP_MAX_NEW_TOKENS_ESTIMATION : Z := 4096.
Definition IN_BATCH_PREFIX_CACHING_CHECK_THRESHOLD : Z := 32.
Definition IN_BATCH_PREFIX_CACHING_DEPRIORITIZE_THRESHOLD : Z := 32.

Inductive Policy := LPM | DFS_WEIGHT | FCFS | LOF | RANDOM.

#[export] Instance Policy_eq_dec : EqDecision Policy.
Proof. solve_decision. Defined.

(** [CacheAwarePolicy] and [CacheAgnosticPolicy]: the class of a policy and its name. *)
Definition is_cache_aware (p : Policy) : bool :=
  match p with LPM | DFS_WEIGHT => true | _ => false end.

Definition policy_of_name (s : pystr) : option Policy :=
  if decide (s = s2z "lpm") then Some LPM else
  if decide (s = s2z "dfs-weight") then Some DFS_WEIGHT else
  if decide (s = s2z "fcfs") then Some FCFS else
  if decide (s = s2z "lof") then Some LOF else
  if decide (s = s2z "random") then Some RANDOM else None.

Definition _validate_and_adjust_policy (policy : pystr) (tree_disable : bool) : result Policy :=
  match policy_of_name policy with
  | Some p => if is_cache_aware p && tree_disable then Ok FCFS else Ok p
  | None => Raise (ValueError "Unknown schedule_policy")
  end.

Definition _determine_active_policy (p : Policy) (waiting_queue : list Req) : Policy :=
  if decide (p = LPM) then if bool_decide (128 < length waiting_queue) then FCFS else p else p.

Section policy.
Context (clock : nat → Z) (tuple_hash : list Z → Z).

(** ** Prefix matches *)

(** One request of [_compute_prefix_matches]: its own match in the tree [c], then the
    match in the tree [w] of the requests before it in the queue. *)
Definition compute_prefix_match (r : Req) (deprioritized : list pystr) (c w : RadixCache)
    : result (Req * list pystr * RadixCache * RadixCache) :=
  '(prefix_ids, r) ← adjust_max_prefix_ids r;
  match match_prefix clock tuple_hash prefix_ids c with
  | None => Raise AttributeError
  | Some (v, n, c) =>
      let r := set_last_node (Some n) (set_prefix_indices v r) in
      if bool_decide (Z.of_nat (length (prefix_indices r)) ≤ IN_BATCH_PREFIX_CACHING_CHECK_THRESHOLD)%Z then
        match match_prefix clock tuple_hash prefix_ids w with
        | None => Raise AttributeError
        | Some (m, _, w) =>
            if bool_decide (IN_BATCH_PREFIX_CACHING_DEPRIORITIZE_THRESHOLD ≤ Z.of_nat (length m))%Z
            then Ok (r, rid r :: deprioritized, c, w)
            else
              match insert clock tuple_hash prefix_ids (Some (replicate (length prefix_ids) 0%Z)) w with
              | None => Raise AttributeError
              | Some (_, w) => Ok (r, deprioritized, c, w)
              end
        end
      else Ok (r, deprioritized, c, w)
  end.

Fixpoint compute_loop (q done_ : list Req) (deprioritized : list pystr) (c w : RadixCache)
    : result (list Req * list pystr * RadixCache * RadixCache) :=
  match q with
  | [] => Ok (done_, deprioritized, c, w)
  | r :: q =>
      '(r, deprioritized, c, w) ← compute_prefix_match r deprioritized c w;
      compute_loop q (done_ ++ [r]) deprioritized c w
  end.

Definition _compute_prefix_matches (q : list Req) (c w : RadixCache)
    : result (list Req * list pystr * RadixCache * RadixCache) :=
  compute_loop q [] [] c (reset clock w).

(** ** The sorts *)

Definition lpm_key (deprioritized : list pystr) (r : Req) : option Z :=
  if bool_decide (rid r ∈ deprioritized) then None
  else Some (- Z.of_nat (length (prefix_indices r)))%Z.

Definition _sort_by_longest_prefix (q : list Req) (deprioritized : list pystr) : list Req :=
  sort_by infleb (lpm_key deprioritized) q.

Definition max_new (r : Req) : Z := default 0%Z (max_new_tokens (sampling_params r)).

(** The key of a request without [max_new_tokens] is a [TypeError]. *)
Definition _sort_by_longest_output (q : list Req) : result (list Req) :=
  if decide (Forall (λ r, max_new_tokens (sampling_params r) ≠ None) q)
  then Ok (sort_by Zleb (λ r, - max_new r)%Z q)
  else Raise TypeError.

(** [last_node_to_reqs[node]] and the initial [node_to_weight]. *)
Definition reqs_at (q : list Req) (n : nat) : list Req := filter (λ r, last_node r = Some n) q.

Definition init_weight (q : list Req) : gmap nat Z :=
  foldl (λ m r, match last_node r with
                | Some n => <[n := Z.of_nat (length (reqs_at q n))]> m
                | None => m
                end) ∅ q.

Definition weight_of (w : gmap nat Z) (n : nat) : Z := default 0%Z (w !! n).

(** [_calc_weight]: the weights of the children, added from the leaves up. *)
Fixpoint _calc_weight (fuel n : nat) (c : RadixCache) (w : gmap nat Z) : option (gmap nat Z) :=
  match fuel with
  | 0 => None
  | S fuel =>
      nd ← nodes c !! n;
      foldl (λ ow m, w ← ow; w ← _calc_weight fuel m c w;
                     Some (<[n := (weight_of w n + weight_of w m)%Z]> w)) (Some w) (children nd).*2
  end.

(** [_get_dfs_priority]: the heavier children first, the node's own requests last. *)
Fixpoint dfs_order (fuel n : nat) (c : RadixCache) (w : gmap nat Z) : option (list nat) :=
  match fuel with
  | 0 => None
  | S fuel =>
      nd ← nodes c !! n;
      let childs := sort_by Zleb (λ m, - weight_of w m)%Z (children nd).*2 in
      ls ← mapM (λ m, dfs_order fuel m c w) childs;
      Some (concat ls ++ [n])
  end.

Definition _get_dfs_priority (c : RadixCache) (w : gmap nat Z) (q : list Req) : option (list Req) :=
  ns ← dfs_order (S (size (nodes c))) (root_node c) c w;
  Some (concat (reqs_at q <$> ns)).

Definition _sort_by_dfs_weight (q : list Req) (c : RadixCache) : option (list Req) :=
  w ← _calc_weight (S (size (nodes c))) (root_node c) c (init_weight q);
  _get_dfs_priority c w q.

(** [random.shuffle] is a parameter. *)
Context (shuffle : list Req → list Req).

(** [calc_priority]: the new queue, whether prefixes were computed, and the trees. *)
Definition calc_priority (p : Policy) (q : list Req) (c w : RadixCache)
    : result (list Req * bool * RadixCache * RadixCache) :=
  if decide (p = FCFS) then Ok (q, false, c, w)
  else
    match _determine_active_policy p q with
    | LPM =>
        '(q, d, c, w) ← _compute_prefix_matches q c w;
        Ok (_sort_by_longest_prefix q d, true, c, w)
    | DFS_WEIGHT =>
        '(q, d, c, w) ← _compute_prefix_matches q c w;
        match _sort_by_dfs_weight q c with
        | Some q => Ok (q, true, c, w)
        | None => Raise AttributeError
        end
    | FCFS => Ok (q, false, c, w)
    | LOF => q ← _sort_by_longest_output q; Ok (q, false, c, w)
    | RANDOM => Ok (shuffle q, false, c, w)
    end.
End policy.

(** ** Depth-first order *)

(** Fewer nodes of the tree lie below a child. *)
Definition below (L : gset nat) (off : nat → nat) (n : nat) : nat :=
  size (filter (λ m, off n < off m) L).

Lemma below_lt L off n m : m ∈ L → off n < off m → below L off m < below L off n.
Proof.
  intros Hm Ho. apply subset_size. split.
  - intros x. rewrite !elem_of_filter. intros [? ?]. split; [lia|done].
  - intros Hsub. specialize (Hsub m). rewrite !elem_of_filter in Hsub.
    destruct Hsub as [? _]; [done|]. lia.
Qed.

Lemma below_le L off n m : off n ≤ off m → below L off m ≤ below L off n.
Proof. intros Ho. apply subseteq_size. intros x. rewrite !elem_of_filter. intros [? ?]. split; [lia|done]. Qed.

Section dfs.
Context {c : RadixCache} {L : gset nat} {off : nat → nat}.
Context (TR : tree_ok (page_size c) (root_node c) (skel c) L off).

Definition reaches (n m : nat) : Prop := ∃ k v, path (skel c) n m k v.

Lemma reaches_off n m : n ∈ L → reaches n m → m ∈ L ∧ off n ≤ off m.
Proof. intros Hn (k & v & Hp). destruct (path_ok TR _ _ _ _ Hn Hp) as (? & _ & _ & ->). split; [done|lia]. Qed.

(** The subtrees of two children are disjoint. *)
Lemma children_disjoint n m1 m2 kk1 ww1 kk2 ww2 x : n ∈ L →
  edge (skel c) n m1 kk1 ww1 → edge (skel c) n m2 kk2 ww2 → reaches m1 x → reaches m2 x → m1 = m2.
Proof.
  intros Hn He1 He2 (k1 & v1 & Hp1) (k2 & v2 & Hp2).
  destruct (edge_ok TR _ _ _ _ Hn He1) as (_ & _ & Hk1 & Hd1 & _).
  destruct (edge_ok TR _ _ _ _ Hn He2) as (_ & _ & Hk2 & Hd2 & _).
  destruct (path_unique TR n x _ _ _ _ Hn (path_cons _ _ _ _ _ _ _ _ He1 Hp1) (path_cons _ _ _ _ _ _ _ _ He2 Hp2))
    as [E _].
  assert (Ht : take (page_size c) kk1 = take (page_size c) kk2).
  { rewrite <- (take_app_le kk1 k1), <- (take_app_le kk2 k2), E by (by apply page_le). done. }
  by destruct (edge_inj TR _ _ _ _ _ _ _ Hn He1 He2 Ht).
Qed.

Lemma root_reaches n : n ∈ L → reaches (root_node c) n.
Proof.
  intros Hn. remember (off n) as d eqn:Hd. revert n Hd Hn. induction (lt_wf d) as [d _ IH].
  intros n -> Hn. destruct (decide (n = root_node c)) as [->|Hr]; [eexists [], []; constructor|].
  destruct (ok_node _ _ _ _ _ TR n Hn Hr) as (s & p & sp & v & Hs & Hp & HpL & Hsp & Hin & _ & _ & Hv & _).
  destruct (ok_parent TR n s p Hn Hr Hs Hp) as (_ & _ & Ho & _).
  destruct (IH (off p) Ho p eq_refl HpL) as (k & w & Hpath).
  eexists _, _. eapply path_app; [exact Hpath|]. apply path_single. by exists sp, (take (page_size c) (s_key s)), s.
Qed.

Lemma child_edge n nd m : n ∈ L → nodes c !! n = Some nd → m ∈ (children nd).*2 →
  m ∈ L ∧ off n < off m ∧ ∃ kk ww, edge (skel c) n m kk ww.
Proof.
  intros Hn Hnd ([ck m'] & -> & Hm)%list_elem_of_fmap. pose proof (skel_Some _ _ _ Hnd) as Hs.
  pose proof (ok_child_off TR n _ ck m' Hn Hs Hm).
  destruct (ok_child TR n _ ck m' Hn Hs Hm) as (? & ? & t & w & Ht & _ & _ & _ & _ & Hw & _).
  split_and!; [done..|]. by exists (s_key t), w, (shape_of nd), ck, t.
Qed.

Lemma reaches_inv n nd m : n ∈ L → nodes c !! n = Some nd →
  reaches n m ↔ m = n ∨ ∃ l, l ∈ (children nd).*2 ∧ reaches l m.
Proof.
  intros Hn Hnd. split.
  - intros (k & v & Hp). inversion Hp as [|? l ? kk ww k' v' He Hp']; subst; [by left|right].
    exists l. split; [|by eexists _, _]. destruct He as (s & ck & t & Hs & Hc & _).
    rewrite (skel_Some _ _ _ Hnd) in Hs. simplify_eq. apply list_elem_of_fmap. by exists (ck, l).
  - intros [->|(l & Hl & k & v & Hp)]; [by eexists [], []; constructor|].
    destruct (child_edge n nd l Hn Hnd Hl) as (_ & _ & kk & ww & He). eexists _, _. by eapply path_cons.
Qed.

Lemma dfs_order_spec w fuel : ∀ n, n ∈ L → below L off n < fuel →
  ∃ l, dfs_order fuel n c w = Some l ∧ NoDup l ∧ ∀ m, m ∈ l ↔ reaches n m.
Proof.
  induction fuel as [|fuel IH]; intros n Hn Hf; [lia|].
  destruct (ok_lookup TR n Hn) as [s (nd & Hnd & _)%skel_lookup]. simpl. rewrite Hnd. simpl.
  set (childs := sort_by _ _ (children nd).*2).
  assert (Hperm : childs ≡ₚ (children nd).*2) by apply sort_by_perm.
  assert (Hnd2 : NoDup childs).
  { rewrite Hperm. exact (ok_NoDup_children TR n _ Hn (skel_Some _ _ _ Hnd)). }
  assert (Hch : ∀ m, m ∈ childs → m ∈ L ∧ off n < off m ∧ ∃ kk ww, edge (skel c) n m kk ww).
  { intros m Hm. rewrite Hperm in Hm. by eapply child_edge. }
  assert (Hls : ∃ ls, mapM (λ m, dfs_order fuel m c w) childs = Some ls ∧
    NoDup (concat ls) ∧ ∀ m, m ∈ concat ls ↔ ∃ l, l ∈ childs ∧ reaches l m).
  { clear Hperm. clearbody childs. induction childs as [|x xs IHx].
    { exists []. split_and!; [done|constructor|]. intros m. split; [by intros ?%elem_of_nil|].
      by intros (? & ?%elem_of_nil & _). }
    apply NoDup_cons in Hnd2 as [Hx Hxs].
    destruct (Hch x ltac:(left)) as (HxL & Hox & kk & ww & He).
    destruct (IH x HxL) as (l & Hl & Hndl & Hel); [pose proof (below_lt L off n x HxL Hox); lia|].
    destruct IHx as (ls & Hls & Hndls & Hels); [done|intros; apply Hch; by right|].
    exists (l :: ls). simpl. rewrite Hl. simpl. rewrite Hls. split_and!; [done| |].
    - apply NoDup_app. split_and!; [done| |done]. intros m Hm%Hel (y & Hy & Hr)%Hels.
      destruct (Hch y ltac:(by right)) as (_ & _ & kk' & ww' & He').
      by rewrite (children_disjoint n x y _ _ _ _ m Hn He He' Hm Hr) in Hx.
    - intros m. rewrite elem_of_app, Hel, Hels. split.
      + intros [?|(y & ? & ?)]; [exists x|exists y]; (split; [set_solver|done]).
      + intros (y & [->|?]%elem_of_cons & ?); [by left|right; eauto]. }
  destruct Hls as (ls & -> & Hndl & Hel). simpl. eexists. split; [done|]. split.
  - apply NoDup_app. split_and!; [done| |apply NoDup_singleton].
    intros m (l & Hl & Hr)%Hel E%list_elem_of_singleton. subst m.
    destruct (Hch l Hl) as (HlL & Ho & _). destruct (reaches_off l n HlL Hr). lia.
  - intros m. rewrite elem_of_app, Hel, list_elem_of_singleton, (reaches_inv n nd m Hn Hnd).
    setoid_rewrite Hperm. tauto.
Qed.

(** The sum of [f] over the nodes below [n]. *)
Fixpoint subtotal (f : nat → Z) (fuel n : nat) : Z :=
  match fuel with
  | 0 => 0%Z
  | S fuel => match nodes c !! n with Some nd => (f n + zsum (subtotal f fuel) (children nd).*2)%Z | None => 0%Z end
  end.

Lemma subtotal_ext f g fuel fuel' : ∀ n, n ∈ L → below L off n < fuel → below L off n < fuel' →
  (∀ m, reaches n m → f m = g m) → subtotal f fuel n = subtotal g fuel' n.
Proof.
  revert fuel'. induction fuel as [|fuel IH]; intros [|fuel'] n Hn H1 H2 Hfg; try lia.
  destruct (ok_lookup TR n Hn) as [s (nd & Hnd & _)%skel_lookup]. cbn [subtotal]. rewrite Hnd.
  rewrite (Hfg n) by (apply (reaches_inv n nd n Hn Hnd); by left). f_equal. apply zsum_ext. intros m Hm.
  destruct (child_edge n nd m Hn Hnd Hm) as (HmL & Ho & _). pose proof (below_lt L off n m HmL Ho).
  apply IH; [done|lia|lia|]. intros x Hx. apply Hfg, (reaches_inv n nd x Hn Hnd). right. by exists m.
Qed.

(** [_calc_weight] on the children [ms] of [n], from the weights [w0]. *)
Lemma calc_children_ok fuel n nd ms w0 : n ∈ L → nodes c !! n = Some nd → NoDup ms →
  (∀ m, m ∈ ms → m ∈ (children nd).*2 ∧ below L off m < fuel) →
  (∀ m w, m ∈ ms → ∃ w', _calc_weight fuel m c w = Some w' ∧
     (∀ x, ¬ reaches m x → weight_of w' x = weight_of w x) ∧
     (∀ x, reaches m x → weight_of w' x = subtotal (weight_of w) fuel x)) →
  ∃ w1, foldl (λ ow m, w ← ow; w ← _calc_weight fuel m c w;
      Some (<[n := (weight_of w n + weight_of w m)%Z]> w)) (Some w0) ms = Some w1 ∧
    (∀ x, x ≠ n → (∀ m, m ∈ ms → ¬ reaches m x) → weight_of w1 x = weight_of w0 x) ∧
    (∀ m x, m ∈ ms → reaches m x → weight_of w1 x = subtotal (weight_of w0) fuel x) ∧
    weight_of w1 n = (weight_of w0 n + zsum (subtotal (weight_of w0) fuel) ms)%Z.
Proof.
  intros Hn Hnd. revert w0. induction ms as [|m ms IH]; intros w0 ND Hms Hcalc.
  { exists w0. split_and!; [done|done|set_solver|simpl; lia]. }
  apply NoDup_cons in ND as [Hmn ND]. destruct (Hms m ltac:(left)) as [Hmc Hmf].
  destruct (child_edge n nd m Hn Hnd Hmc) as (HmL & Ho & kk & ww & He).
  assert (Hup : ∀ l, l ∈ (children nd).*2 → ¬ reaches l n).
  { intros l Hl Hr. destruct (child_edge n nd l Hn Hnd Hl) as (HlL & Hol & _). destruct (reaches_off l n HlL Hr). lia. }
  destruct (Hcalc m w0 ltac:(left)) as (w' & Ew & Hout & Hin).
  set (w2 := <[n := (weight_of w' n + weight_of w' m)%Z]> w').
  assert (H2n : weight_of w2 n = (weight_of w' n + weight_of w' m)%Z) by (unfold weight_of at 1, w2; by rewrite lookup_insert_eq).
  assert (H2o : ∀ x, x ≠ n → weight_of w2 x = weight_of w' x) by (intros x Hx; unfold weight_of, w2; by rewrite lookup_insert_ne).
  destruct (IH w2 ND) as (w1 & E1 & Hout1 & Hin1 & Hw1); [set_solver|set_solver|].
  assert (Hdisj : ∀ l x, l ∈ ms → reaches l x → ¬ reaches m x).
  { intros l x Hl Hr Hr'. destruct (Hms l ltac:(by right)) as [Hlc _].
    destruct (child_edge n nd l Hn Hnd Hlc) as (_ & _ & kk' & ww' & He').
    assert (l = m) as -> by (by eapply (children_disjoint n l m _ _ _ _ x Hn He' He)). done. }
  assert (Hsub : ∀ l x, l ∈ ms → reaches l x → subtotal (weight_of w2) fuel x = subtotal (weight_of w0) fuel x).
  { intros l x Hl Hr. destruct (Hms l ltac:(by right)) as [Hlc Hlf].
    destruct (child_edge n nd l Hn Hnd Hlc) as (HlL & _). destruct (reaches_off l x HlL Hr) as [HxL Hox].
    assert (below L off x ≤ below L off l) by by apply below_le.
    apply subtotal_ext; [done|lia|lia|]. intros y Hy. assert (Hly : reaches l y).
    { destruct Hr as (k & v & Hp), Hy as (k' & v' & Hp'). eexists _, _. by eapply path_app. }
    rewrite H2o by (intros ->; exact (Hup l Hlc Hly)). apply Hout. by eapply Hdisj. }
  exists w1. cbn [foldl]. cbn [mbind option_bind]. rewrite Ew. cbn [mbind option_bind]. fold w2. rewrite E1. split_and!; [done| | |].
  - intros x Hx Hr. rewrite Hout1, H2o, Hout; [done|apply Hr; by left|done|done|]. intros; apply Hr; by right.
  - intros l x [->|Hl]%elem_of_cons Hr; [|rewrite (Hin1 l x Hl Hr); by eapply Hsub].
    rewrite Hout1, H2o, Hin; [done|done| | |]; try (intros ->; exact (Hup m Hmc Hr)).
    intros l Hl Hr'. by apply (Hdisj l x Hl Hr').
  - rewrite Hw1, H2n, (Hout n) by by apply Hup. rewrite (Hin m) by (eexists [], []; constructor). cbn [zsum].
    rewrite (zsum_ext (subtotal (weight_of w2) fuel) (subtotal (weight_of w0) fuel)); [lia|].
    intros l Hl. apply (Hsub l); [done|]. eexists [], []; constructor.
Qed.

(** The weights of the nodes below [n] become the sums over what is below them. *)
Lemma calc_weight_ok fuel : ∀ n w, n ∈ L → below L off n < fuel → ∃ w', _calc_weight fuel n c w = Some w' ∧
  (∀ x, ¬ reaches n x → weight_of w' x = weight_of w x) ∧
  (∀ x, reaches n x → weight_of w' x = subtotal (weight_of w) fuel x).
Proof.
  induction fuel as [|fuel IH]; intros n w Hn Hf; [lia|].
  destruct (ok_lookup TR n Hn) as [s (nd & Hnd & _)%skel_lookup].
  assert (Hch : ∀ m, m ∈ (children nd).*2 → m ∈ L ∧ below L off m < fuel).
  { intros m Hm. destruct (child_edge n nd m Hn Hnd Hm) as (HmL & Ho & _). pose proof (below_lt L off n m HmL Ho). split; [done|lia]. }
  destruct (calc_children_ok fuel n nd (children nd).*2 w Hn Hnd) as (w1 & E & Hout & Hin & Hw).
  - exact (ok_NoDup_children TR n _ Hn (skel_Some _ _ _ Hnd)).
  - intros m Hm. split; [done|by apply Hch].
  - intros m w2 Hm. destruct (Hch m Hm). by apply IH.
  - exists w1. cbn [_calc_weight]. rewrite Hnd. cbn [mbind option_bind]. split; [done|]. split.
    + intros x Hx. rewrite (reaches_inv n nd x Hn Hnd) in Hx. apply Hout; [naive_solver|naive_solver].
    + intros x [->|(m & Hm & Hr)]%(reaches_inv n nd x Hn Hnd); [cbn [subtotal]; by rewrite Hnd|].
      rewrite (Hin m x Hm Hr). destruct (Hch m Hm) as [HmL ?]. destruct (reaches_off m x HmL Hr) as [HxL ?].
      assert (below L off x ≤ below L off m) by by apply below_le.
      apply subtotal_ext; [done|lia|lia|done].
Qed.

(** *** The requests in depth-first order

    Of a node first the requests below its children, the child with the most requests first,
    then its own. *)
Inductive dfs_sorted (q : list Req) : nat → list Req → Prop :=
  | dfs_node n nd (sub : nat → list Req) ms : nodes c !! n = Some nd →
      (∀ m, m ∈ (children nd).*2 → dfs_sorted q m (sub m)) →
      sorted_desc (λ m, Z.of_nat (length (sub m))) (children nd).*2 ms →
      dfs_sorted q n (concat (sub <$> ms) ++ filter (λ r, last_node r = Some n) q).

Lemma length_concat_zsum {A B} (f : A → list B) xs :
  Z.of_nat (length (concat (f <$> xs))) = zsum (λ x, Z.of_nat (length (f x))) xs.
Proof. induction xs as [|x xs IH]; [done|]. cbn [fmap list_fmap concat zsum]. rewrite length_app. lia. Qed.

Lemma dfs_order_sorted q w fuel0 : (∀ n, n ∈ L → below L off n < fuel0) →
  (∀ n, n ∈ L → weight_of w n = subtotal (λ m, Z.of_nat (length (reqs_at q m))) fuel0 n) →
  ∀ fuel n, n ∈ L → below L off n < fuel → ∃ ns, dfs_order fuel n c w = Some ns ∧
    dfs_sorted q n (concat (reqs_at q <$> ns)) ∧
    Z.of_nat (length (concat (reqs_at q <$> ns))) = subtotal (λ m, Z.of_nat (length (reqs_at q m))) fuel n.
Proof.
  intros Hf0 Hw. set (cnt := λ m, Z.of_nat (length (reqs_at q m))) in *.
  induction fuel as [|fuel IH]; intros n Hn Hf; [lia|].
  destruct (ok_lookup TR n Hn) as [s (nd & Hnd & _)%skel_lookup].
  assert (Hch : ∀ m, m ∈ (children nd).*2 → m ∈ L ∧ below L off m < fuel).
  { intros m Hm. destruct (child_edge n nd m Hn Hnd Hm) as (HmL & Ho & _). pose proof (below_lt L off n m HmL Ho). split; [done|lia]. }
  set (sub := λ m, concat (reqs_at q <$> default [] (dfs_order fuel m c w))).
  set (childs := sort_by Zleb (λ m, - weight_of w m)%Z (children nd).*2).
  assert (Hperm : childs ≡ₚ (children nd).*2) by apply sort_by_perm.
  assert (Hsub : ∀ m, m ∈ (children nd).*2 → dfs_sorted q m (sub m) ∧
    Z.of_nat (length (sub m)) = subtotal cnt fuel m ∧ is_Some (dfs_order fuel m c w)).
  { intros m Hm. destruct (Hch m Hm) as [HmL Hmf]. destruct (IH m HmL Hmf) as (ns & E & Hd & Hl).
    unfold sub. rewrite E. cbn [default from_option]. unfold id. split_and!; [done|done|by eexists]. }
  assert (Hls : ∃ ls, mapM (λ m, dfs_order fuel m c w) childs = Some ls ∧ concat (reqs_at q <$> concat ls) = concat (sub <$> childs)).
  { assert (Hall : ∀ m, m ∈ childs → is_Some (dfs_order fuel m c w)) by (intros m; rewrite Hperm; intros; by apply Hsub).
    clear -Hall. clearbody childs. induction childs as [|m ms IHm]; [by exists []|].
    destruct (Hall m ltac:(left)) as [l El]. destruct IHm as (ls & Els & E); [intros; apply Hall; by right|].
    exists (l :: ls). cbn [mapM]. rewrite El. cbn [mbind option_bind]. rewrite Els. split; [done|].
    cbn [concat fmap list_fmap]. rewrite fmap_app, concat_app, E. f_equal. unfold sub. by rewrite El. }
  destruct Hls as (ls & Els & Hcat). exists (concat ls ++ [n]). cbn [dfs_order]. rewrite Hnd. cbn [mbind option_bind].
  fold childs. rewrite Els. cbn [mbind option_bind]. split; [done|].
  rewrite fmap_app, concat_app, Hcat. cbn [fmap list_fmap concat]. rewrite app_nil_r. split.
  - unfold reqs_at at 1. apply (dfs_node q n nd sub childs Hnd); [intros; by apply Hsub|].
    eapply sorted_desc_ext; [|apply sort_by_desc]. intros m Hm. cbv beta. destruct (Hsub m Hm) as (_ & -> & _).
    destruct (Hch m Hm) as [HmL ?]. rewrite Hw by done. apply subtotal_ext; [done|by apply Hf0|done|done].
  - rewrite length_app, Nat2Z.inj_add, length_concat_zsum. cbn [subtotal]. rewrite Hnd.
    rewrite (zsum_perm _ _ _ Hperm). rewrite (zsum_ext _ (subtotal cnt fuel)) by (intros m Hm; by apply Hsub). unfold cnt at 2. lia.
Qed.

Lemma below_fuel n : (∀ m, m ∈ L → is_Some (nodes c !! m)) → below L off n < S (size (nodes c)).
Proof.
  intros H. apply Nat.lt_succ_r. rewrite <- size_dom. apply subseteq_size.
  intros m [_ Hm]%elem_of_filter. by apply elem_of_dom, H.
Qed.
End dfs.

(** Grouping the requests by node, over all nodes, loses none. *)
Lemma reqs_at_perm q ns : NoDup ns → (∀ r, r ∈ q → ∃ n, last_node r = Some n ∧ n ∈ ns) →
  concat (reqs_at q <$> ns) ≡ₚ q.
Proof.
  intros Hnd. induction q as [|r q IH]; intros Hq.
  { replace (concat (reqs_at [] <$> ns)) with (@nil Req); [done|]. clear. induction ns; simpl; auto. }
  destruct (Hq r ltac:(left)) as (n & Hr & Hn).
  rewrite <- IH at 2 by (intros; apply Hq; by right).
  apply list_elem_of_split in Hn as (l1 & l2 & ->). apply NoDup_app in Hnd as (_ & H1 & [H2 _]%NoDup_cons).
  assert (Hsame : ∀ l : list nat, n ∉ l → reqs_at (r :: q) <$> l = reqs_at q <$> l).
  { intros l Hl. apply list_fmap_ext. intros i m Hm. unfold reqs_at. rewrite filter_cons, decide_False; [done|].
    rewrite Hr. intros [= ->]. by apply Hl, (list_elem_of_lookup_2 _ i). }
  rewrite !fmap_app, !fmap_cons, !concat_app. cbn [concat].
  rewrite (Hsame l1) by (intros Hin; apply (H1 n Hin); left). rewrite (Hsame l2) by done.
  unfold reqs_at at 2. rewrite filter_cons, decide_True by done. fold (reqs_at q n).
  by rewrite <- app_comm_cons, <- Permutation_middle.
Qed.

(** The weights before the walk: the requests of each node. *)
Lemma init_weight_ok q n : weight_of (init_weight q) n = Z.of_nat (length (reqs_at q n)).
Proof.
  unfold init_weight.
  assert (H : ∀ l m, weight_of (foldl (λ m r, match last_node r with
      Some n => <[n := Z.of_nat (length (reqs_at q n))]> m | None => m end) m l) n =
    if decide (Exists (λ r, last_node r = Some n) l) then Z.of_nat (length (reqs_at q n)) else weight_of m n).
  { induction l as [|r l IH]; intros m; [done|]. cbn [foldl]. rewrite IH. destruct (decide (Exists _ l)) as [H|H].
    - by rewrite decide_True by by right.
    - destruct (decide (last_node r = Some n)) as [E|E].
      + rewrite decide_True by by left. rewrite E. unfold weight_of. by rewrite lookup_insert_eq.
      + rewrite decide_False by (intros [?|?]%Exists_cons; done). destruct (last_node r) as [n'|]; [|done].
        unfold weight_of. rewrite lookup_insert_ne by congruence. done. }
  rewrite H. case_decide as Hd; [done|]. unfold weight_of. rewrite lookup_empty. cbn [default from_option].
  unfold reqs_at. destruct (filter _ q) as [|r l] eqn:E; [done|]. exfalso. apply Hd.
  assert (r ∈ filter (λ r, last_node r = Some n) q) as [Hr Hin]%list_elem_of_filter by (rewrite E; left).
  apply Exists_exists. by exists r.
Qed.

Lemma sort_by_dfs_weight_ok q c L own : cache_ok c L own →
  (∀ r, r ∈ q → ∃ n, last_node r = Some n ∧ n ∈ L) →
  ∃ q', _sort_by_dfs_weight q c = Some q' ∧ q' ≡ₚ q ∧ dfs_sorted (c := c) q (root_node c) q'.
Proof.
  intros OK Hq. destruct (c_tree _ _ _ OK) as [off TR]. pose proof (ok_root_L _ _ _ OK) as Hr.
  assert (Hf : ∀ n, below L off n < S (size (nodes c))).
  { intros n. apply (below_fuel (c := c)). intros m Hm. destruct (ok_node_lookup OK m Hm) as [nd ->]. by eexists. }
  unfold _sort_by_dfs_weight, _get_dfs_priority.
  destruct (calc_weight_ok TR _ (root_node c) (init_weight q) Hr (Hf _)) as (w & -> & _ & Hw). simpl.
  destruct (dfs_order_spec TR w _ (root_node c) Hr (Hf _)) as (l & Hl & Hnd & Hel).
  destruct (dfs_order_sorted TR q w (S (size (nodes c))) (λ n _, Hf n)) with (fuel := S (size (nodes c))) (n := root_node c)
    as (l' & Hl' & Hd & _); [|done|done|].
  { intros n Hn. rewrite Hw by by apply (root_reaches TR). apply (subtotal_ext TR); [done..|]. intros m _. apply init_weight_ok. }
  rewrite Hl in Hl'. injection Hl' as <-. simpl in Hl. rewrite Hl. simpl. eexists. split; [done|]. split; [|done].
  apply reqs_at_perm; [done|].
  intros r Hin. destruct (Hq r Hin) as (n & ? & ?). exists n. split; [done|]. apply Hel. by apply (root_reaches TR).
Qed.

(** ** Prefix matches of a queue *)

Definition ids (r : Req) : list Z := origin_input_ids r ++ output_ids r.

(** A match only sets these fields of a request. *)
Definition same_request (r r' : Req) : Prop :=
  r' = set_fill_ids (fill_ids r') (set_prefix_indices (prefix_indices r') (set_last_node (last_node r')
         (set_extend_input_len (extend_input_len r') r))).

(** The prefix of [r] is cached, and [last_node] is where it ends. *)
Definition matched (c : RadixCache) (L : gset nat) (r : Req) : Prop :=
  ∃ n, last_node r = Some n ∧ n ∈ L ∧ length (prefix_indices r) ≤ length (ids r) ∧
    ends_at c n (take (length (prefix_indices r)) (ids r)) (prefix_indices r).

(** What of a request's tokens the cache may supply: not the last, and none whose log
    probability is wanted. *)
Definition usable (r : Req) : list Z :=
  take (Z.to_nat (let n := (Z.of_nat (length (ids r)) - 1)%Z in
                  if return_logprob r then Z.min n (logprob_start_len r) else n)) (ids r).

Lemma usable_prefix r : usable r `prefix_of` ids r.
Proof. apply take_prefix_of. Qed.

(** The prefix of [r] is the longest that [c] has. *)
Definition best_match (c : RadixCache) (r : Req) : Prop :=
  length (prefix_indices r) ≤ length (usable r) ∧ longest_cached c (usable r) (length (prefix_indices r)).

Definition few_cached (r : Req) : Prop := length (prefix_indices r) ≤ 32.

(** [x] names a request of the queue of which little is cached and whose first 32 usable tokens
    are those of an earlier request of which little is cached. *)
Definition repeats (q : list Req) (x : pystr) : Prop :=
  ∃ l1 r l2 r0, q = l1 ++ r :: l2 ∧ rid r = x ∧ few_cached r ∧ r0 ∈ l1 ∧ few_cached r0 ∧
    32 ≤ length (usable r) ∧ take 32 (usable r) `prefix_of` usable r0.

Lemma repeats_snoc q r x : repeats (q ++ [r]) x ↔ repeats q x ∨ (rid r = x ∧ few_cached r ∧
  ∃ r0, r0 ∈ q ∧ few_cached r0 ∧ 32 ≤ length (usable r) ∧ take 32 (usable r) `prefix_of` usable r0).
Proof.
  split.
  - intros (l1 & r1 & l2 & r0 & E & Hx & Hf & Hin & Hf0 & Hl & Hp). destruct l2 as [|y l2 _] using rev_ind.
    + apply app_inj_tail in E as [-> ->]. right. split_and!; [done..|]. by exists r0.
    + rewrite app_comm_cons, app_assoc in E. apply app_inj_tail in E as [-> _]. left. by exists l1, r1, l2, r0.
  - intros [(l1 & r1 & l2 & r0 & -> & H)|(Hx & Hf & r0 & H1 & H2 & H3 & H4)].
    + exists l1, r1, (l2 ++ [r]), r0. rewrite <- app_assoc. by destruct H.
    + by exists q, r, [], r0.
Qed.

Lemma matched_content c L c' L' r : same_content c L c' L' → root_node c ∈ L →
  matched c L r → matched c' L' r.
Proof.
  intros SC Hr (n & ? & ? & ? & Hp). destruct (same_content_ps _ _ _ _ SC) as (_ & Er & _).
  exists n. split_and!; [done|by apply (sc_ext _ _ _ _ SC)|done|].
  unfold ends_at. rewrite Er. by apply (sc_ext _ _ _ _ SC).
Qed.

Lemma best_match_content c L c' L' r : same_content c L c' L' → root_node c ∈ L →
  best_match c' r → best_match c r.
Proof.
  intros SC Hr [Hl Hb]. destruct (same_content_ps _ _ _ _ SC) as (Ep & Er & _). split; [done|].
  intros k v Hc Hk Hd. apply (Hb k v); [|done|by rewrite Ep]. unfold cached in *. rewrite Er. by apply (sc_has _ _ _ _ SC).
Qed.

Lemma adjust_ids r m : max_new_tokens (sampling_params r) = Some m →
  adjust_max_prefix_ids r = Ok (usable r, set_fill_ids (ids r) r).
Proof.
  intros Hm. unfold adjust_max_prefix_ids. simpl. rewrite Hm. do 2 f_equal. unfold usable, ids.
  destruct (return_logprob r); case_bool_decide; f_equal; lia.
Qed.

Section compute.
Context (clock : nat → Z) (tuple_hash : list Z → Z).

(** The tree of the waiting queue holds the usable tokens of the requests in [q] of which
    little is cached, and no more than 32 of those that repeat. *)
Definition queue_tree (w : RadixCache) (q : list Req) : Prop :=
  (∃ L, cache_ok w L (λ _, 0%Z)) ∧ disable w = false ∧ page_size w = 1 ∧
  (∀ k v, cached w k v → k ≠ [] → ∃ r, r ∈ q ∧ few_cached r ∧ k `prefix_of` usable r) ∧
  ∀ r, r ∈ q → few_cached r → 32 ≤ length (usable r) → ∃ v, cached w (take 32 (usable r)) v.

Lemma queue_tree_match w q key_ : queue_tree w q →
  ∃ v n w', match_prefix clock tuple_hash key_ w = Some (v, n, w') ∧ queue_tree w' q ∧
    length v ≤ length key_ ∧ (32 ≤ length v ↔
      32 ≤ length key_ ∧ ∃ r, r ∈ q ∧ few_cached r ∧ take 32 key_ `prefix_of` usable r).
Proof.
  intros ([L OK] & Hd & Hp & Hq & Hq').
  destruct (match_ok clock tuple_hash w L _ key_ OK Hd) as (v & n & w' & L' & Hr & OK' & SC & _ & Hl & He & Hmax).
  destruct (same_content_ps _ _ _ _ SC) as (Ep & Er & Ed).
  pose proof (ok_root_L _ _ _ OK) as HrL.
  assert (Hc : ∀ k u, cached w' k u ↔ cached w k u).
  { intros k u. unfold cached. rewrite Er. by apply (sc_has _ _ _ _ SC). }
  exists v, n, w'. split_and!; [done| |done|].
  - split_and!; [by exists L'|congruence..| |].
    + intros k u Hk Hne. apply Hc in Hk. by apply (Hq k u).
    + intros r H1 H2 H3. destruct (Hq' r H1 H2 H3) as [u Hu]. exists u. by apply Hc.
  - split.
    + intros Hv. split; [lia|]. destruct (c_tree _ _ _ OK') as [off TR].
      destruct (Hq (take (length v) key_) v) as (r & Hin & Hf & Hpre).
      * apply Hc. unfold ends_at in He. by eapply path_has.
      * intros E%(f_equal length). rewrite length_take in E. cbn in E. lia.
      * exists r. split_and!; [done..|]. etrans; [|exact Hpre].
        exists (take (length v - 32) (drop 32 key_)). rewrite take_take_drop. f_equal. lia.
    + intros (Hk & r & Hin & Hf & Hpre). assert (E : take 32 key_ = take 32 (usable r)).
      { rewrite (prefix_take _ _ Hpre), length_take. f_equal. lia. }
      destruct (Hq' r Hin Hf) as [u Hu].
      { apply prefix_length in Hpre. rewrite length_take in Hpre. lia. }
      rewrite <- E in Hu. pose proof (Hmax _ _ Hu (take_prefix_of _ _)) as H32. rewrite length_take, Hp in H32.
      specialize (H32 (Nat.divide_1_l _)). lia.
Qed.

Lemma queue_tree_insert w q r : queue_tree w q → few_cached r →
  ∃ j w', insert clock tuple_hash (usable r) (Some (replicate (length (usable r)) 0%Z)) w = Some (j, w') ∧
    queue_tree w' (q ++ [r]).
Proof.
  intros ([L OK] & Hd & Hp & Hq & Hq') Hf.
  destruct (insert_ok clock tuple_hash w L _ (usable r) (replicate (length (usable r)) 0%Z) OK Hd)
    as (j & cv & w' & L' & Hr & OK' & EX & _ & _ & _ & _ & _ & Hc & _).
  { rewrite Hp. apply Nat.divide_1_l. } { apply length_replicate. }
  pose proof (ex_conf _ _ _ _ EX) as E. unfold conf in E. injection E as _ E1 E2 _.
  exists j, w'. split; [done|]. split_and!; [by exists L'|congruence..| |].
  - intros k v0 Hc0 Hne. apply Hc in Hc0 as [Hw|[Hpre _]].
    + destruct (Hq k _ Hw Hne) as (r' & ? & ?). exists r'. split; [apply elem_of_app; by left|done].
    + exists r. split; [apply elem_of_app; right; by left|done].
  - intros r' [Hin| ->%list_elem_of_singleton]%elem_of_app Hf' Hl.
    + destruct (Hq' r' Hin Hf' Hl) as [v Hv]. exists v. apply Hc. by left.
    + eexists. apply Hc. right. split; [apply take_prefix_of|done].
Qed.

(** A request that is not inserted: enough of it is cached, or its first 32 tokens are there. *)
Lemma queue_tree_more w q r : queue_tree w q →
  (few_cached r → ∃ r0, r0 ∈ q ∧ few_cached r0 ∧ 32 ≤ length (usable r) ∧ take 32 (usable r) `prefix_of` usable r0) →
  queue_tree w (q ++ [r]).
Proof.
  intros (? & ? & ? & Hq & Hq') Hr. split_and!; [done..| |].
  - intros k v Hk Hne.
    destruct (Hq k v Hk Hne) as (r' & ? & ?). exists r'. split; [apply elem_of_app; by left|done].
  - intros r' [Hin| ->%list_elem_of_singleton]%elem_of_app Hf Hl; [by apply Hq'|].
    destruct (Hr Hf) as (r0 & Hin & Hf0 & _ & Hpre). assert (E : take 32 (usable r) = take 32 (usable r0)).
    { rewrite (prefix_take _ _ Hpre), length_take. f_equal. lia. }
    rewrite E. apply Hq'; [done..|]. apply prefix_length in Hpre. rewrite length_take in Hpre. lia.
Qed.

Lemma compute_prefix_match_spec r done_ d c L own w m :
  cache_ok c L own → disable c = false → queue_tree w done_ →
  (∀ x, x ∈ d ↔ repeats done_ x) → max_new_tokens (sampling_params r) = Some m →
  ∃ r' d' c' L' w', compute_prefix_match clock tuple_hash r d c w = Ok (r', d', c', w') ∧
    same_request r r' ∧ cache_ok c' L' own ∧ same_content c L c' L' ∧ matched c' L' r' ∧ best_match c r' ∧
    queue_tree w' (done_ ++ [r']) ∧ (∀ x, x ∈ d' ↔ repeats (done_ ++ [r']) x).
Proof.
  intros OK Hd QT Hb Hm. unfold compute_prefix_match. rewrite (adjust_ids r m Hm). cbn [mbind result_bind].
  destruct (match_ok clock tuple_hash c L own (usable r) OK Hd)
    as (v & n & c' & L' & -> & OK' & SC & Hn & Hl & He & Hmax).
  set (r1 := set_last_node (Some n) (set_prefix_indices v (set_fill_ids (ids r) r))).
  assert (Hsame : same_request r r1) by done. assert (Hids : ids r1 = ids r) by done.
  assert (Hus : usable r1 = usable r) by done. assert (Hbest : best_match c r1) by done.
  assert (Hmt : matched c' L' r1).
  { exists n. pose proof (usable_prefix r) as Hpre. pose proof (prefix_length _ _ Hpre). split_and!; [done..|rewrite Hids; simpl; lia|].
    rewrite Hids. simpl. destruct Hpre as [k1 E]. rewrite E, take_app_le by done. done. }
  destruct (bool_decide (Z.of_nat (length (prefix_indices r1)) ≤ _)%Z) eqn:Hshort.
  2: { apply bool_decide_eq_false in Hshort. unfold IN_BATCH_PREFIX_CACHING_CHECK_THRESHOLD in Hshort.
    assert (Hnf : ¬ few_cached r1) by (unfold few_cached; lia).
    exists r1, d, c', L', w. split_and!; try done; [by apply queue_tree_more|].
    intros x. rewrite Hb, repeats_snoc. naive_solver. }
  apply bool_decide_eq_true in Hshort. unfold IN_BATCH_PREFIX_CACHING_CHECK_THRESHOLD in Hshort.
  assert (Hf : few_cached r1) by (unfold few_cached; lia).
  destruct (queue_tree_match w done_ (usable r) QT) as (u & n' & w' & -> & QT' & Hu & Hin).
  destruct (bool_decide (_ ≤ Z.of_nat (length u))%Z) eqn:Hlong; unfold IN_BATCH_PREFIX_CACHING_DEPRIORITIZE_THRESHOLD in Hlong.
  - apply bool_decide_eq_true in Hlong. destruct (proj1 Hin ltac:(lia)) as (Hlen & r0 & Hr0).
    exists r1, (rid r1 :: d), c', L', w'. split_and!; try done.
    + apply queue_tree_more; [done|]. intros _. exists r0. rewrite Hus. naive_solver.
    + intros x. rewrite elem_of_cons, Hb, repeats_snoc, Hus. split; [|naive_solver].
      intros [->|?]; [right|by left]. split_and!; [done..|]. exists r0. naive_solver.
  - apply bool_decide_eq_false in Hlong. destruct (queue_tree_insert w' done_ r1 QT' Hf) as (j & w'' & E & QT'').
    rewrite Hus in E. rewrite E. exists r1, d, c', L', w''. split_and!; try done.
    intros x. rewrite Hb, repeats_snoc, Hus. split; [by left|]. intros [?|(_ & _ & r0 & H1 & H2 & H3 & H4)]; [done|].
    exfalso. assert (32 ≤ length u) by (apply Hin; split; [done|by exists r0]). lia.
Qed.

Lemma compute_loop_spec q : ∀ done_ d c L own w,
  cache_ok c L own → disable c = false → queue_tree w done_ →
  (∀ x, x ∈ d ↔ repeats done_ x) → (∀ r, r ∈ done_ → matched c L r) →
  (∀ r, r ∈ q → is_Some (max_new_tokens (sampling_params r))) →
  ∃ q' d' c' L' w', compute_loop clock tuple_hash q done_ d c w = Ok (done_ ++ q', d', c', w') ∧
    Forall2 same_request q q' ∧ cache_ok c' L' own ∧ same_content c L c' L' ∧
    (∀ r, r ∈ done_ ++ q' → matched c' L' r) ∧ (∀ r, r ∈ q' → best_match c r) ∧
    (∀ x, x ∈ d' ↔ repeats (done_ ++ q') x) ∧ queue_tree w' (done_ ++ q').
Proof.
  induction q as [|r q IH]; intros done_ d c L own w OK Hd QT Hb Hdone Hm.
  { exists [], d, c, L, w. rewrite app_nil_r. split_and!; try done. by intros r ?%elem_of_nil. }
  destruct (Hm r ltac:(left)) as [m Hmr].
  destruct (compute_prefix_match_spec r done_ d c L own w m OK Hd QT Hb Hmr)
    as (r' & d' & c' & L' & w' & E & Hsame & OK' & SC & Hmt & Hbest & QT' & Hb').
  cbn [compute_loop]. rewrite E. cbn [mbind result_bind].
  destruct (same_content_ps _ _ _ _ SC) as (_ & _ & Ed).
  destruct (IH (done_ ++ [r']) d' c' L' own w') as (q' & d2 & c2 & L2 & w2 & E2 & Hs2 & OK2 & SC2 & Hm2 & Hbest2 & Hb2 & QT2);
    try done; [congruence| |by intros; apply Hm; right|].
  - intros x [Hx| ->%list_elem_of_singleton]%elem_of_app; [|done].
    eapply matched_content; [done|by eapply ok_root_L|by apply Hdone].
  - rewrite <- app_assoc in *. exists (r' :: q'), d2, c2, L2, w2. split_and!; try done; [by constructor|by eapply same_content_trans|].
    intros x [->|Hx]%elem_of_cons; [done|]. eapply best_match_content; [done|by eapply ok_root_L|by apply Hbest2].
Qed.
End compute.

(** ** The order of the queue *)

(** [q'] is [q] up to the order, its requests up to the fields a match sets. *)
Definition rearranged (q q' : list Req) : Prop := ∃ qm, Forall2 same_request q qm ∧ q' ≡ₚ qm.

(** The longest prefix first; last, in their old order, the requests that repeat. *)
Definition lpm_sorted (q q' : list Req) : Prop :=
  ∃ (late : list pystr) first, (∀ x, x ∈ late ↔ repeats q x) ∧
    q' = first ++ filter (λ r, rid r ∈ late) q ∧
    sorted_desc (λ r, Z.of_nat (length (prefix_indices r))) (filter (λ r, rid r ∉ late) q) first.

(** What a policy makes of the queue [q], whose requests have their matches. *)
Definition policy_order (p : Policy) (shuffle : list Req → list Req) (c : RadixCache) (q q' : list Req) : Prop :=
  match p with
  | FCFS => q' = q
  | LPM => lpm_sorted q q'
  | DFS_WEIGHT => dfs_sorted (c := c) q (root_node c) q'
  | LOF => sorted_desc (λ r, default 0%Z (max_new_tokens (sampling_params r))) q q'
  | RANDOM => q' = shuffle q
  end.

Lemma same_request_self r : same_request r r.
Proof. by destruct r. Qed.

Lemma same_request_refl q : Forall2 same_request q q.
Proof. induction q; constructor; [apply same_request_self|done]. Qed.

(** The tree of the waiting queue between two calls. *)
Definition tree_ready (w : RadixCache) : Prop :=
  page_size w = 1 ∧ disable w = false ∧ ∀ n, is_Some (nodes w !! n) → n < counter w.

Lemma queue_tree_ready w q : queue_tree w q → tree_ready w.
Proof. intros ([L OK] & ? & ? & _). split_and!; [done..|]. apply (c_fresh _ _ _ OK). Qed.

Lemma lpm_sorted_ok q d : (∀ x, x ∈ d ↔ repeats q x) → lpm_sorted q (_sort_by_longest_prefix q d).
Proof.
  intros Hd. exists d, (sort_by Zleb (λ r, - Z.of_nat (length (prefix_indices r)))%Z (filter (λ r, rid r ∉ d) q)).
  split; [done|]. split; [|apply sort_by_desc]. unfold _sort_by_longest_prefix, lpm_key.
  apply (sort_by_infinite (λ r, rid r ∈ d)).
Qed.

Section calc.
Context (clock : nat → Z) (tuple_hash : list Z → Z) (shuffle : list Req → list Req).
Hypothesis shuffle_perm : ∀ q, shuffle q ≡ₚ q.

Lemma compute_prefix_matches_spec q c L own w :
  cache_ok c L own → disable c = false → page_size w = 1 → disable w = false →
  (∀ n, is_Some (nodes w !! n) → n < counter w) →
  (∀ r, r ∈ q → is_Some (max_new_tokens (sampling_params r))) →
  ∃ q' d c' L' w', _compute_prefix_matches clock tuple_hash q c w = Ok (q', d, c', w') ∧
    Forall2 same_request q q' ∧ cache_ok c' L' own ∧ same_content c L c' L' ∧
    (∀ r, r ∈ q' → matched c' L' r ∧ best_match c r) ∧ (∀ x, x ∈ d ↔ repeats q' x) ∧ tree_ready w'.
Proof.
  intros OK Hd Hp Hw Hf Hm. unfold _compute_prefix_matches.
  destruct (fresh_ok clock w) as (OKw & Hc & Ep & Ed); [lia|done|].
  destruct (compute_loop_spec clock tuple_hash q [] [] c L own (reset clock w) OK Hd)
    as (q' & d & c' & L' & w' & E & ? & ? & ? & Hma & Hbe & ? & QT); try done.
  - split_and!; [by eexists|congruence..| |]; [intros k v Hk Hne; by apply Hc in Hk|by intros r ?%elem_of_nil].
  - intros x. split; [by intros ?%elem_of_nil|]. by intros ([|] & ? & ? & ? & ? & _).
  - by intros x ?%elem_of_nil.
  - exists q', d, c', L', w'. split_and!; try done; [|by eapply queue_tree_ready]. intros r Hr. split; [by apply Hma|by apply Hbe].
Qed.

(** The policy of a call: a long queue is not matched. *)
Definition policy_of (p : Policy) (q : list Req) : Policy :=
  if decide (p = LPM ∧ 128 < length q) then FCFS else p.

Lemma calc_priority_ok p q c L own w :
  cache_ok c L own → disable c = false → page_size w = 1 → disable w = false →
  (∀ n, is_Some (nodes w !! n) → n < counter w) →
  (∀ r, r ∈ q → is_Some (max_new_tokens (sampling_params r))) →
  ∃ qm q' b c' w' L', calc_priority clock tuple_hash shuffle p q c w = Ok (q', b, c', w') ∧
    cache_ok c' L' own ∧ same_content c L c' L' ∧ Forall2 same_request q qm ∧ q' ≡ₚ qm ∧
    b = bool_decide (policy_of p q = LPM ∨ policy_of p q = DFS_WEIGHT) ∧
    (if b then ∀ r, r ∈ qm → matched c' L' r ∧ best_match c r else qm = q ∧ c' = c) ∧
    policy_order (policy_of p q) shuffle c' qm q' ∧ tree_ready w'.
Proof.
  intros OK Hd Hp Hw Hf Hm. unfold calc_priority.
  assert (_determine_active_policy p q = policy_of p q) as ->.
  { unfold _determine_active_policy, policy_of. repeat case_decide; try case_bool_decide; tauto. }
  destruct (compute_prefix_matches_spec q c L own w OK Hd Hp Hw Hf Hm)
    as (qm & d & c' & L' & w' & E & Hs & OK' & SC & Hmt & Hb & Hready).
  assert (Hready0 : tree_ready w) by done.
  pose proof (same_request_refl q) as Hrefl. pose proof (same_tree_content c c L ltac:(done)) as SC0.
  case_decide as HF.
  { assert (policy_of p q = FCFS) as -> by (unfold policy_of; by case_decide).
    exists q, q, false, c, w, L. by split_and!. }
  destruct (policy_of p q); rewrite ?E; cbn [mbind result_bind].
  - exists qm, (_sort_by_longest_prefix qm d), true, c', w', L'.
    split_and!; try done; [apply sort_by_perm|by apply lpm_sorted_ok].
  - destruct (sort_by_dfs_weight_ok qm c' L' own OK') as (q' & -> & Hq' & Hdfs).
    { intros r [(n & ? & ? & _) _]%Hmt. by exists n. }
    exists qm, q', true, c', w', L'. by split_and!.
  - exists q, q, false, c, w, L. by split_and!.
  - unfold _sort_by_longest_output. rewrite decide_True.
    2: { apply Forall_forall. intros r Hr. destruct (Hm r Hr) as [m ->]. done. }
    exists q, (sort_by Zleb (λ r, - max_new r)%Z q), false, c, w, L.
    split_and!; try done; [apply sort_by_perm|apply sort_by_desc].
  - exists q, (shuffle q), false, c, w, L. by split_and!.
Qed.

(** C27: [calc_priority] returns for every policy, and the order it leaves is the policy's.
    The requests [qm] it orders are those of the queue, none lost, duplicated or altered
    except for its match.  Under LPM and DFS-weight every request has its longest cached
    prefix (of all its tokens but the last, and of those whose log probability is wanted) and
    the node where it ends, although later matches split nodes, and the cache keeps its
    content.  LPM puts the longest matches first, equal ones in their old order, and last
    those requests of which at most 32 tokens are cached and whose first 32 tokens are those
    of an earlier such request; on more than 128 requests it keeps the order, as FCFS does.
    DFS-weight walks the tree: of each node first what is below its children, the child with
    the most requests below it first, then the requests that end at it.  LOF puts the largest
    [max_new_tokens] first, equal ones in their old order; the random policy shuffles.  The
    tree of the waiting queue is ready for the next call. *)
Theorem calc_priority_correct p q c L own w :
  cache_ok c L own → disable c = false → page_size w = 1 → disable w = false →
  (∀ n, is_Some (nodes w !! n) → n < counter w) →
  (∀ r, r ∈ q → is_Some (max_new_tokens (sampling_params r))) →
  ∃ qm q' b c' w' L', calc_priority clock tuple_hash shuffle p q c w = Ok (q', b, c', w') ∧
    cache_ok c' L' own ∧ same_content c L c' L' ∧ Forall2 same_request q qm ∧ q' ≡ₚ qm ∧
    b = bool_decide (policy_of p q = LPM ∨ policy_of p q = DFS_WEIGHT) ∧
    (if b then ∀ r, r ∈ qm → matched c' L' r ∧ best_match c r else qm = q ∧ c' = c) ∧
    policy_order (policy_of p q) shuffle c' qm q' ∧ tree_ready w'.
Proof. exact (calc_priority_ok p q c L own w). Qed.
End calc.

Definition ex_queue_tree : RadixCache := new_RadixCache ex_clock 1 false false.

Lemma calc_priority_correct_witness : ∃ q' c' w',
  calc_priority ex_clock ex_hash id LPM [ex_req 9 [7; 7; 7; 7]%Z; ex_req 5 [1; 2; 3; 4]%Z] ex_cache ex_queue_tree
    = Ok (q', true, c', w') ∧ (max_new <$> q') = [5; 9]%Z.
Proof.
  destruct ex_cache_ok as (L & OK & _).
  destruct (calc_priority_correct ex_clock ex_hash id ltac:(done) LPM
    [ex_req 9 [7; 7; 7; 7]%Z; ex_req 5 [1; 2; 3; 4]%Z] ex_cache L (λ _, 0%Z) ex_queue_tree OK eq_refl eq_refl eq_refl)
    as (qm & q' & b & c' & w' & L' & H & _ & _ & _ & _ & Hb & _).
  - intros n Hn%elem_of_dom. assert (E : dom (nodes ex_queue_tree) = {[0]}) by decide_now.
    rewrite E in Hn. apply elem_of_singleton in Hn as ->. simpl. lia.
  - intros r [ ->|[ ->|?%elem_of_nil]%elem_of_cons]%elem_of_cons; [by eexists..|done].
  - rewrite bool_decide_eq_true_2 in Hb by by left. rewrite Hb in H. exists q', c', w'. split; [exact H|]. vm_compute in H. by injection H as <- _ _.
Defined.
