(* ===== verification/PrefillAdder.v ===== *)
(** * The admission of requests to a prefill batch

    [src/python/sglang/srt/managers/schedule_policy.py], class [PrefillAdder]: the
    token budget of the next prefill batch and the two ways a request is charged to it. The
    number [new_token_ratio] is a [float] in the code and an exact rational here. *)

From S2P Require Import Prelude PyStr PySort Sampling HeapQ Radix RadixTree RadixUpdate RadixMatch RadixInv RadixSpec RadixLock RadixThms RadixLive Alloc Req SchedulePolicy.
From Stdlib Require Import QArith Lqa.
Close Scope Q_scope.

Inductive AddReqResult := CONTINUE | NO_TOKEN | OTHER.

#[export] Instance AddReqResult_eq_dec : EqDecision AddReqResult.
Proof. solve_decision. Defined.

(** [running_reqs]: the requests of [running_batch], if there is one. [new_chunked_req]
    is the same object as the last request of [can_run_list]. *)
Record PrefillAdder := MkAdder {
  tree_cache : RadixCache;
  token_to_kv_pool_allocator : TokenToKVPoolAllocator;
  running_reqs : option (list Req);
  new_token_ratio : Q;
  rem_input_tokens : Z;
  rem_chunk_tokens : option Z;
  rem_total_token_offset : Q;
  cur_rem_token_offset : Z;
  req_states : option (list (Q * Z));
  can_run_list : list Req;
  new_chunked_req : option Req;
  log_hit_tokens : Z;
  log_input_tokens : Z
}.

Definition set_tree_cache x p := MkAdder x (token_to_kv_pool_allocator p) (running_reqs p)
  (new_token_ratio p) (rem_input_tokens p) (rem_chunk_tokens p) (rem_total_token_offset p)
  (cur_rem_token_offset p) (req_states p) (can_run_list p) (new_chunked_req p) (log_hit_tokens p)
  (log_input_tokens p).
Definition set_rem_input_tokens x p := MkAdder (tree_cache p) (token_to_kv_pool_allocator p)
  (running_reqs p) (new_token_ratio p) x (rem_chunk_tokens p) (rem_total_token_offset p)
  (cur_rem_token_offset p) (req_states p) (can_run_list p) (new_chunked_req p) (log_hit_tokens p)
  (log_input_tokens p).
Definition set_rem_chunk_tokens x p := MkAdder (tree_cache p) (token_to_kv_pool_allocator p)
  (running_reqs p) (new_token_ratio p) (rem_input_tokens p) x (rem_total_token_offset p)
  (cur_rem_token_offset p) (req_states p) (can_run_list p) (new_chunked_req p) (log_hit_tokens p)
  (log_input_tokens p).
Definition set_rem_total_token_offset x p := MkAdder (tree_cache p) (token_to_kv_pool_allocator p)
  (running_reqs p) (new_token_ratio p) (rem_input_tokens p) (rem_chunk_tokens p) x
  (cur_rem_token_offset p) (req_states p) (can_run_list p) (new_chunked_req p) (log_hit_tokens p)
  (log_input_tokens p).
Definition set_cur_rem_token_offset x p := MkAdder (tree_cache p) (token_to_kv_pool_allocator p)
  (running_reqs p) (new_token_ratio p) (rem_input_tokens p) (rem_chunk_tokens p)
  (rem_total_token_offset p) x (req_states p) (can_run_list p) (new_chunked_req p)
  (log_hit_tokens p) (log_input_tokens p).
Definition set_req_states x p := MkAdder (tree_cache p) (token_to_kv_pool_allocator p)
  (running_reqs p) (new_token_ratio p) (rem_input_tokens p) (rem_chunk_tokens p)
  (rem_total_token_offset p) (cur_rem_token_offset p) x (can_run_list p) (new_chunked_req p)
  (log_hit_tokens p) (log_input_tokens p).
Definition set_can_run_list x p := MkAdder (tree_cache p) (token_to_kv_pool_allocator p)
  (running_reqs p) (new_token_ratio p) (rem_input_tokens p) (rem_chunk_tokens p)
  (rem_total_token_offset p) (cur_rem_token_offset p) (req_states p) x (new_chunked_req p)
  (log_hit_tokens p) (log_input_tokens p).
Definition set_new_chunked_req x p := MkAdder (tree_cache p) (token_to_kv_pool_allocator p)
  (running_reqs p) (new_token_ratio p) (rem_input_tokens p) (rem_chunk_tokens p)
  (rem_total_token_offset p) (cur_rem_token_offset p) (req_states p) (can_run_list p) x
  (log_hit_tokens p) (log_input_tokens p).
Definition set_log_hit_tokens x p := MkAdder (tree_cache p) (token_to_kv_pool_allocator p)
  (running_reqs p) (new_token_ratio p) (rem_input_tokens p) (rem_chunk_tokens p)
  (rem_total_token_offset p) (cur_rem_token_offset p) (req_states p) (can_run_list p)
  (new_chunked_req p) x (log_input_tokens p).
Definition set_log_input_tokens x p := MkAdder (tree_cache p) (token_to_kv_pool_allocator p)
  (running_reqs p) (new_token_ratio p) (rem_input_tokens p) (rem_chunk_tokens p)
  (rem_total_token_offset p) (cur_rem_token_offset p) (req_states p) (can_run_list p)
  (new_chunked_req p) (log_hit_tokens p) x.


(** ** Budgets *)

Definition max_new_of (r : Req) : result Z :=
  match max_new_tokens (sampling_params r) with Some m => Ok m | None => Raise TypeError end.

(** [min(max_new_tokens, CLIP_MAX_NEW_TOKENS_ESTIMATION)]. *)
Definition clipped_max_new (r : Req) : result Z :=
  m ← max_new_of r; Ok (Z.min m CLIP_MAX_NEW_TOKENS_ESTIMATION).

(** The sum over [running_batch.reqs] in [__init__]. *)
Fixpoint reserved (ratio : Q) (rs : list Req) : result Q :=
  match rs with
  | [] => Ok 0%Q
  | r :: rs =>
      m ← max_new_of r;
      q ← reserved ratio rs;
      Ok (inject_Z (Z.min (m - Z.of_nat (length (output_ids r))) CLIP_MAX_NEW_TOKENS_ESTIMATION) * ratio + q)%Q
  end.

Definition new_PrefillAdder (c : RadixCache) (a : TokenToKVPoolAllocator) (running : option (list Req))
    (ratio : Q) (rem_input : Z) (rem_chunk : option Z) (mixed : Z) : result PrefillAdder :=
  q ← reserved ratio (default [] running);
  Ok (MkAdder c a running ratio (rem_input - mixed)%Z ((λ x, x - mixed)%Z <$> rem_chunk)
        (inject_Z mixed + q)%Q mixed None [] None 0 0).

Definition rem_total_tokens (p : PrefillAdder) : Q :=
  (inject_Z (Z.of_nat (ta_available_size (token_to_kv_pool_allocator p)) + evictable_size (tree_cache p))
   - rem_total_token_offset p)%Q.

Definition cur_rem_tokens (p : PrefillAdder) : Z :=
  (Z.of_nat (ta_available_size (token_to_kv_pool_allocator p)) + evictable_size (tree_cache p)
   - cur_rem_token_offset p)%Z.

Definition budget_state (p : PrefillAdder) : AddReqResult :=
  if Qle_bool (rem_total_tokens p) 0 || bool_decide (cur_rem_tokens p ≤ 0)%Z then NO_TOKEN
  else if bool_decide (rem_input_tokens p ≤ 0)%Z
          || match rem_chunk_tokens p with Some x => bool_decide (x ≤ 0)%Z | None => false end
  then OTHER else CONTINUE.

Definition _prefill_one_req (prefix_len extend_input_len max_new_tokens : Z) (p : PrefillAdder)
    : PrefillAdder :=
  MkAdder (tree_cache p) (token_to_kv_pool_allocator p) (running_reqs p) (new_token_ratio p)
    (rem_input_tokens p - extend_input_len)%Z
    ((λ x, x - extend_input_len)%Z <$> rem_chunk_tokens p)
    (rem_total_token_offset p + inject_Z (extend_input_len + max_new_tokens))%Q
    (cur_rem_token_offset p + extend_input_len)%Z
    (req_states p) (can_run_list p) (new_chunked_req p)
    (log_hit_tokens p + prefix_len)%Z (log_input_tokens p + extend_input_len)%Z.

Definition append_can_run (r : Req) (p : PrefillAdder) : PrefillAdder :=
  set_can_run_list (can_run_list p ++ [r]) p.

(** [xs[: n]] for any integer [n]. *)
Definition py_prefix (n : Z) (xs : list Z) : list Z :=
  if bool_decide (0 ≤ n)%Z then take (Z.to_nat n) xs
  else take (Z.to_nat (Z.of_nat (length xs) + n)) xs.

(** ** Adding a request *)

(** [add_chunked_req]: comparing with a [rem_chunk_tokens] of [None] is a [TypeError]. The
    request is returned when its prefill is not finished. *)
Definition add_chunked_req (r : Req) : M PrefillAdder (option Req) := λ p,
  match rem_chunk_tokens p with
  | None => (Raise TypeError, p)
  | Some chunk =>
      let truncated := bool_decide (chunk < extend_input_len r)%Z in
      let r := set_extend_input_len (Z.min (extend_input_len r) chunk) r in
      let r := set_fill_ids
                 (py_prefix (Z.of_nat (length (prefix_indices r)) + extend_input_len r) (fill_ids r)) r in
      let p := append_can_run r p in
      match (if truncated then Ok 0%Z else clipped_max_new r) with
      | Raise e => (Raise e, p)
      | Ok m =>
          (Ok (if truncated then Some r else None), _prefill_one_req 0 (extend_input_len r) m p)
      end
  end.

Definition Qltb (x y : Q) : bool := negb (Qle_bool y x).

(** The index at which [add_req_state] inserts: the loop variable when the loop ends. *)
Fixpoint break_index (t : Q) (l : list (Q * Z)) : option nat :=
  match l with
  | [] => None
  | (x, _) :: l => if Qle_bool t x then Some 0 else S <$> break_index t l
  end.

Definition insert_state (t : Q) (occ : Z) (l : list (Q * Z)) : list (Q * Z) :=
  let i := default (pred (length l)) (break_index t l) in
  take i l ++ (t, occ) :: drop i l.

(** [add_req_state(r, insert_sort)] on the list [l]. *)
Definition add_req_state (ratio : Q) (insert_sort : bool) (r : Req) (l : list (Q * Z))
    : result (list (Q * Z)) :=
  let new_token_ratio := if ignore_eos (sampling_params r) then 1%Q else ratio in
  m ← max_new_of r;
  let tokens_left := (inject_Z m * new_token_ratio - inject_Z (Z.of_nat (length (output_ids r))))%Q in
  let tokens_occupied := Z.of_nat (length (origin_input_ids r) + length (output_ids r)) in
  if Qltb 0 tokens_left then
    Ok (if insert_sort then insert_state tokens_left tokens_occupied l
        else l ++ [(tokens_left, tokens_occupied)])
  else Ok l.

Fixpoint add_req_states (ratio : Q) (rs : list Req) (l : list (Q * Z)) : result (list (Q * Z)) :=
  match rs with
  | [] => Ok l
  | r :: rs => l ← add_req_state ratio false r l; add_req_states ratio rs l
  end.

(** The states [add_one_req_ignore_eos] works on. *)
Definition next_req_states (r : Req) (p : PrefillAdder) : result (list (Q * Z)) :=
  match req_states p with
  | None =>
      l ← add_req_states (new_token_ratio p) (r :: default [] (running_reqs p) ++ can_run_list p) [];
      Ok (sort_by Qle_bool fst l)
  | Some l => add_req_state (new_token_ratio p) true r l
  end.

(** The loop over the states: [false] when the memory runs out at some step. *)
Fixpoint enough_memory (cur_rem freed : Z) (l : list (Q * Z)) : bool :=
  match l with
  | [] => true
  | (tokens_left, tokens_occupied) :: l' =>
      let decode_steps := match l' with (x, _) :: _ => x | [] => tokens_left end in
      let bs := inject_Z (Z.of_nat (length l)) in
      if Qle_bool (inject_Z (cur_rem + freed) - decode_steps * bs)%Q 0 then false
      else enough_memory cur_rem (freed + tokens_occupied) l'
  end.

Definition add_one_req_ignore_eos (r : Req) : M PrefillAdder AddReqResult := λ p,
  match next_req_states r p with
  | Raise e => (Raise e, p)
  | Ok l =>
      let p := set_req_states (Some l) p in
      if enough_memory (cur_rem_tokens p - Z.of_nat (length (origin_input_ids r))) 0 l then
        match rem_chunk_tokens p with
        | Some chunk =>
            if bool_decide (extend_input_len r ≤ chunk)%Z then
              match clipped_max_new r with
              | Raise e => (Raise e, append_can_run r p)
              | Ok m =>
                  let p := _prefill_one_req 0 (extend_input_len r) m (append_can_run r p) in
                  (Ok (budget_state p), p)
              end
            else if bool_decide (chunk = 0)%Z then (Ok OTHER, p)
            else
              let r := set_fill_ids (py_prefix chunk (fill_ids r)) (set_extend_input_len chunk r) in
              let p := _prefill_one_req 0 chunk 0 (set_new_chunked_req (Some r) (append_can_run r p)) in
              (Ok (budget_state p), p)
        | None =>
            match clipped_max_new r with
            | Raise e => (Raise e, append_can_run r p)
            | Ok m =>
                let p := _prefill_one_req 0 (extend_input_len r) m (append_can_run r p) in
                (Ok (budget_state p), p)
            end
        end
      else (Ok NO_TOKEN, p)
  end.

(** [inc_lock_ref] and [dec_lock_ref] on the adder's cache. *)
Definition lock_node (up : bool) (n : nat) (p : PrefillAdder) : result PrefillAdder :=
  match (if up then inc_lock_ref else dec_lock_ref) n (tree_cache p) with
  | Some (_, c) => Ok (set_tree_cache c p)
  | None => Raise AttributeError
  end.

(** [-(-n // page_size) * page_size]. *)
Definition ceil_page (page_size n : Z) : Z := (- ((- n) / page_size) * page_size)%Z.

(** The body of the [with] statement of [add_one_req], without the hierarchical branch. *)
Definition add_locked (r : Req) (n : nat) (total_tokens input_tokens : Z) (p : PrefillAdder)
    : result (option AddReqResult * PrefillAdder) :=
  let prefix_len := Z.of_nat (length (prefix_indices r)) in
  if Qltb (rem_total_tokens p) (inject_Z total_tokens) then Ok (Some NO_TOKEN, p)
  else
    let whole := match rem_chunk_tokens p with
                 | None => true
                 | Some chunk => bool_decide (input_tokens ≤ chunk)%Z
                 end in
    if whole then
      p ← lock_node true n (append_can_run r p);
      m ← clipped_max_new r;
      Ok (None, _prefill_one_req prefix_len input_tokens m p)
    else
      let trunc_len := (default 0 (rem_chunk_tokens p) - Z.of_nat (page_size (tree_cache p)) + 1)%Z in
      if bool_decide (trunc_len ≤ 0)%Z then Ok (Some OTHER, p)
      else
        let r := set_fill_ids (py_prefix (Z.of_nat (length (prefix_indices r)) + trunc_len) (fill_ids r))
                   (set_extend_input_len trunc_len r) in
        p ← lock_node true n (set_new_chunked_req (Some r) (append_can_run r p));
        Ok (None, _prefill_one_req prefix_len trunc_len 0 p).

Definition add_one_req (r : Req) (p : PrefillAdder) : result (AddReqResult * PrefillAdder) :=
  if ignore_eos (sampling_params r) && disable (tree_cache p) then
    match add_one_req_ignore_eos r p with (Ok a, p) => Ok (a, p) | (Raise e, _) => Raise e end
  else
    m ← clipped_max_new r;
    let total_tokens := (extend_input_len r + m)%Z in
    let input_tokens := ceil_page (Z.of_nat (page_size (tree_cache p))) (extend_input_len r) in
    if Qle_bool (rem_total_tokens p) (inject_Z total_tokens) then Ok (NO_TOKEN, p)
    else if bool_decide (rem_input_tokens p < input_tokens)%Z && bool_decide (can_run_list p ≠ [])
    then Ok (OTHER, p)
    else
      match last_node r with
      | None => Raise AttributeError
      | Some n =>
          p ← lock_node true n p;
          '(early, p) ← add_locked r n total_tokens input_tokens p;
          p ← lock_node false n p;
          Ok (default (budget_state p) early, p)
      end.

(** ** The locks of the adder *)

(** What [lock_node] keeps of the cache. *)
Definition same_cache (c c' : RadixCache) : Prop :=
  same_cached c c' ∧ page_size c' = page_size c ∧ disable c' = disable c.

Lemma same_keys_cache c L c' : same_keys c L c' → same_cache c c'.
Proof.
  intros SK. pose proof (sk_conf _ _ _ SK) as E. unfold conf in E. injection E as Er Ep Ed _.
  split_and!; [|done..]. intros k v. unfold cached. rewrite Er. by eapply same_keys_has.
Qed.

Lemma same_cache_trans c c' c'' : same_cache c c' → same_cache c' c'' → same_cache c c''.
Proof.
  intros (H1 & H2 & H3) (G1 & G2 & G3). split_and!; [|congruence..]. intros k v. by rewrite (G1 k v), (H1 k v).
Qed.

(** Locking returns; a node that stays held does not change the evictable size. *)
Lemma lock_node_ok up n p L own : cache_ok (tree_cache p) L own → disable (tree_cache p) = false →
  n ∈ L → (up = false → (1 ≤ own n)%Z) →
  ∃ d c', (if up then inc_lock_ref else dec_lock_ref) n (tree_cache p) = Some (d, c') ∧
    lock_node up n p = Ok (set_tree_cache c' p) ∧ cache_ok c' L (hold own n (step up)) ∧
    same_keys (tree_cache p) L c' ∧
    ((if up then 1 else 2) ≤ own n → evictable_size c' = evictable_size (tree_cache p))%Z.
Proof.
  intros OK Hd Hn Hup. destruct (lock_ref_ok up _ L own n OK Hn Hup) as (d & c' & E & OK' & SK & Ev & Hz).
  assert (Er : (if up then inc_lock_ref else dec_lock_ref) n (tree_cache p) = Some (d, c')).
  { unfold inc_lock_ref, dec_lock_ref. destruct up; by rewrite Hd, E. }
  exists d, c'. split_and!; [done| |done|done|]; [unfold lock_node; by rewrite Er|].
  intros Hown. specialize (Hz Hown). unfold evictable_size. lia.
Qed.

Lemma hold_undo own n d m : hold (hold own n d) n (- d) m = own m.
Proof. unfold hold. case_decide; lia. Qed.

Lemma hold_own c L own own' : (∀ m, own m = own' m) → cache_ok c L own → cache_ok c L own'.
Proof. intros H OK. apply (cache_ok_proper c c ltac:(done) L L eq_refl own own' H). done. Qed.

Lemma ceil_page_bounds ps n : (0 < ps)%Z → (n ≤ ceil_page ps n < n + ps)%Z.
Proof.
  intros Hps. unfold ceil_page. pose proof (Z.div_mod (- n) ps ltac:(lia)).
  pose proof (Z.mod_pos_bound (- n) ps Hps). nia.
Qed.

Lemma Qltb_true x y : Qltb x y = true ↔ (x < y)%Q.
Proof.
  unfold Qltb. rewrite negb_true_iff. split.
  - intros H. apply Qnot_le_lt. intros Hle%Qle_bool_iff. congruence.
  - intros H. destruct (Qle_bool y x) eqn:E; [|done]. apply Qle_bool_iff, Qle_not_lt in E. done.
Qed.

Lemma Qltb_false x y : Qltb x y = false ↔ (y <= x)%Q.
Proof. unfold Qltb. rewrite negb_false_iff. apply Qle_bool_iff. Qed.

(** ** Adding one request

    The specification, apart from the code. *)

(** The tree up to its locks, and the allocator. *)
Definition same_pools (p p' : PrefillAdder) L : Prop :=
  same_keys (tree_cache p) L (tree_cache p') ∧ token_to_kv_pool_allocator p' = token_to_kv_pool_allocator p.

(** The slots free or evictable, less what the running and the added requests are expected to
    need; with the cache [c], in which more or less may be evictable. *)
Definition memory_left (c : RadixCache) (p : PrefillAdder) : Q :=
  (inject_Z (Z.of_nat (ta_available_size (token_to_kv_pool_allocator p)) + evictable_size c) - rem_total_token_offset p)%Q.

(** [input] is [n] rounded up to pages. *)
Definition rounded_up (ps n input : Z) : Prop := (ps | input)%Z ∧ (n ≤ input < n + ps)%Z.

(** [r'] is [r] cut to its next chunk. *)
Definition cut (r r' : Req) : Prop :=
  same_request r r' ∧ last_node r' = last_node r ∧ prefix_indices r' = prefix_indices r ∧
  (0 < extend_input_len r' < extend_input_len r)%Z ∧
  fill_ids r' = take (length (prefix_indices r) + Z.to_nat (extend_input_len r')) (fill_ids r).

(** A request is refused, or added and charged with [t] tokens of input and [new] of output. *)
Inductive outcome :=
  | Refuse (res : AddReqResult)
  | Add (r' : Req) (t new : Z).

Section decides.
Context (r : Req) (input : Z) (locked : Q) (p : PrefillAdder).
Notation ps := (Z.of_nat (page_size (tree_cache p))).

(** The output that is reckoned with: the limit, but no more than 4096 tokens. *)
Definition expected_new : Z := match max_new_tokens (sampling_params r) with Some m => Z.min m 4096 | None => 0%Z end.
Notation total := (inject_Z (extend_input_len r + expected_new)).

(** The memory is enough, and the input budget, of which the first request may take more. *)
Definition fits_budgets : Prop :=
  (total < memory_left (tree_cache p) p)%Q ∧ ((input ≤ rem_input_tokens p)%Z ∨ can_run_list p = []).

(** What is to become of [r]; [locked] is the memory left when its prefix cannot be evicted. *)
Inductive decides : outcome → Prop :=
  | no_memory : (memory_left (tree_cache p) p <= total)%Q → decides (Refuse NO_TOKEN)
  | no_input : (total < memory_left (tree_cache p) p)%Q → (rem_input_tokens p < input)%Z → can_run_list p ≠ [] →
      decides (Refuse OTHER)
  | no_memory_locked : fits_budgets → (locked < total)%Q → decides (Refuse NO_TOKEN)
  | no_chunk k : fits_budgets → (total <= locked)%Q → rem_chunk_tokens p = Some k → (k < input)%Z → (k < ps)%Z →
      decides (Refuse OTHER)
  | add_whole : fits_budgets → (total <= locked)%Q → (∀ k, rem_chunk_tokens p = Some k → (input ≤ k)%Z) →
      decides (Add r input expected_new)
  | add_cut k r' : fits_budgets → (total <= locked)%Q → rem_chunk_tokens p = Some k → (ps ≤ k < input)%Z →
      cut r r' → extend_input_len r' = (k - ps + 1)%Z → decides (Add r' (k - ps + 1) 0).
End decides.

(** Nothing was added, and budgets and locks are as before. *)
Definition rejected (p p' : PrefillAdder) L own : Prop :=
  ∃ c', p' = set_tree_cache c' p ∧ cache_ok c' L own ∧ same_keys (tree_cache p) L c' ∧
    evictable_size c' = evictable_size (tree_cache p).

(** [r'] was added, [r] or its next chunk: its prefix is locked once more, and the budgets are
    charged. *)
Record accepted (r r' : Req) (n : nat) (t new : Z) (p p' : PrefillAdder) L own : Prop := {
  ac_cache : cache_ok (tree_cache p') L (hold own n 1);
  ac_pools : same_pools p p' L;
  ac_run : can_run_list p' = can_run_list p ++ [r'];
  ac_chunked : (r' = r ∧ new_chunked_req p' = new_chunked_req p) ∨
    (cut r r' ∧ new_chunked_req p' = Some r' ∧ is_Some (rem_chunk_tokens p));
  ac_total : rem_total_token_offset p' = (rem_total_token_offset p + inject_Z (t + new))%Q;
  ac_cur : cur_rem_token_offset p' = (cur_rem_token_offset p + t)%Z;
  ac_input : rem_input_tokens p' = (rem_input_tokens p - t)%Z;
  ac_chunk : rem_chunk_tokens p' = (λ x, x - t)%Z <$> rem_chunk_tokens p;
  ac_logs : log_hit_tokens p' = (log_hit_tokens p + Z.of_nat (length (prefix_indices r)))%Z ∧
    log_input_tokens p' = (log_input_tokens p + t)%Z;
  ac_rest : running_reqs p' = running_reqs p ∧ new_token_ratio p' = new_token_ratio p ∧ req_states p' = req_states p
}.

(** The answer to a request that was added: whether there is anything left to give. *)
Definition budget_answer (p : PrefillAdder) (res : AddReqResult) : Prop :=
  let memory := (0 < memory_left (tree_cache p) p)%Q ∧
    (cur_rem_token_offset p < Z.of_nat (ta_available_size (token_to_kv_pool_allocator p)) + evictable_size (tree_cache p))%Z in
  let input := (0 < rem_input_tokens p)%Z ∧ ∀ k, rem_chunk_tokens p = Some k → (0 < k)%Z in
  match res with
  | NO_TOKEN => ¬ memory
  | OTHER => memory ∧ ¬ input
  | CONTINUE => memory ∧ input
  end.

Lemma budget_state_answer p : budget_answer p (budget_state p).
Proof.
  unfold budget_state, budget_answer. cbv zeta. fold (rem_total_tokens p). change (memory_left (tree_cache p) p) with (rem_total_tokens p).
  unfold cur_rem_tokens. destruct (Qle_bool (rem_total_tokens p) 0) eqn:E1; cbn [orb].
  { apply Qle_bool_iff in E1. intros [H _]. lra. }
  apply Qle_bool_false in E1. case_bool_decide as E2; [intros [_ H]; lia|].
  assert (Hmem : (0 < rem_total_tokens p)%Q ∧ (cur_rem_token_offset p <
    Z.of_nat (ta_available_size (token_to_kv_pool_allocator p)) + evictable_size (tree_cache p))%Z) by (split; [done|lia]).
  destruct (bool_decide (rem_input_tokens p ≤ 0)%Z) eqn:E3; cbn [orb].
  { apply bool_decide_eq_true in E3. split; [done|]. intros [H _]. lia. }
  apply bool_decide_eq_false in E3. destruct (rem_chunk_tokens p) as [k|].
  - case_bool_decide as E4; (split; [done|]).
    + intros [_ H]. specialize (H k eq_refl). lia.
    + split; [lia|]. intros ? [= <-]. lia.
  - split; [done|]. split; [lia|done].
Qed.

Lemma charge_le (q : Q) (t m : Z) : (0 ≤ m)%Z → (q + inject_Z t <= q + inject_Z (t + m))%Q.
Proof. intros Hm. apply Qplus_le_r. rewrite <- Zle_Qle. lia. Qed.

Lemma ceil_page_rounded ps n input : (0 < ps)%Z → rounded_up ps n input ↔ input = ceil_page ps n.
Proof.
  intros Hps. pose proof (ceil_page_bounds ps n Hps) as Hb. split.
  - intros [[a ->] Ha]. unfold ceil_page in *. set (q := (- ((- n) / ps))%Z) in *.
    assert ((a - q) * ps < 1 * ps)%Z as H1%Z.mul_lt_mono_pos_r by lia; [|done].
    assert ((-1) * ps < (a - q) * ps)%Z as H2%Z.mul_lt_mono_pos_r by lia; [|done].
    assert (a = q) as -> by lia. done.
  - intros ->. split; [|done]. unfold ceil_page. by eexists.
Qed.

(** Under the temporary lock of the prefix. *)
Lemma add_locked_ok r n m p L own input :
  cache_ok (tree_cache p) L (hold own n 1) → disable (tree_cache p) = false → n ∈ L →
  (0 ≤ own n)%Z → max_new_tokens (sampling_params r) = Some m →
  rounded_up (Z.of_nat (page_size (tree_cache p))) (extend_input_len r) input →
  let total := (extend_input_len r + expected_new r)%Z in
  ∃ early p', add_locked r n total input p = Ok (early, p') ∧
    ((memory_left (tree_cache p) p < inject_Z total)%Q ∧ early = Some NO_TOKEN ∧ p' = p ∨
     (inject_Z total <= memory_left (tree_cache p) p)%Q ∧
      ((∃ k, rem_chunk_tokens p = Some k ∧ (k < input)%Z ∧ (k < Z.of_nat (page_size (tree_cache p)))%Z ∧ early = Some OTHER ∧ p' = p) ∨
       ((∀ k, rem_chunk_tokens p = Some k → (input ≤ k)%Z) ∧ early = None ∧ accepted r r n input (expected_new r) p p' L (hold own n 1)) ∨
       (∃ k r', rem_chunk_tokens p = Some k ∧ (Z.of_nat (page_size (tree_cache p)) ≤ k < input)%Z ∧ cut r r' ∧
          let t := (k - Z.of_nat (page_size (tree_cache p)) + 1)%Z in
          extend_input_len r' = t ∧ early = None ∧ accepted r r' n t 0 p p' L (hold own n 1)))).
Proof.
  intros OK Hd Hn Hown Hm [_ Hin] total. unfold add_locked.
  assert (Hclip : clipped_max_new r = Ok (expected_new r)).
  { unfold clipped_max_new, max_new_of, expected_new. by rewrite Hm. }
  destruct (c_tree _ _ _ OK) as [off TR]. pose proof (ok_ps _ _ _ _ _ TR) as Hps.
  change (memory_left (tree_cache p) p) with (rem_total_tokens p).
  destruct (Qltb (rem_total_tokens p) (inject_Z total)) eqn:Htot.
  { exists (Some NO_TOKEN), p. split; [done|]. left. by apply Qltb_true in Htot. }
  apply Qltb_false in Htot.
  destruct (match rem_chunk_tokens p with None => true | Some chunk => bool_decide (input ≤ chunk)%Z end) eqn:Hw.
  - destruct (lock_node_ok true n (append_can_run r p) L (hold own n 1) OK Hd Hn ltac:(done))
      as (d & c' & _ & -> & OK' & SC & _). cbn [mbind result_bind]. rewrite Hclip. cbn [mbind result_bind].
    eexists None, _. split; [done|]. right. split; [done|]. right; left. split; [|split; [done|]].
    + intros k Hk. rewrite Hk in Hw. by apply bool_decide_eq_true in Hw.
    + split; try done. by left.
  - destruct (rem_chunk_tokens p) as [chunk|] eqn:Hc; [|done]. apply bool_decide_eq_false in Hw. simpl.
    case_bool_decide as Ht.
    { exists (Some OTHER), p. split; [done|]. right. split; [done|]. left. exists chunk. split_and!; [done|lia|lia|done|done]. }
    set (trunc := (chunk - Z.of_nat (page_size (tree_cache p)) + 1)%Z) in *.
    set (r' := set_fill_ids _ (set_extend_input_len trunc r)).
    destruct (lock_node_ok true n (set_new_chunked_req (Some r') (append_can_run r' p)) L (hold own n 1) OK Hd Hn ltac:(done))
      as (d & c' & _ & -> & OK' & SC & _). cbn [mbind result_bind].
    assert (Hcut : cut r r').
    { unfold cut. split_and!; try done; simpl; [lia|unfold trunc in *; lia|].
      unfold py_prefix. rewrite bool_decide_eq_true_2 by lia. f_equal. lia. }
    eexists None, _. split; [done|]. right. split; [done|]. right; right. exists chunk, r'.
    split_and!; [done|unfold trunc in *; lia|lia|done|done|done|].
    split; try done. right. by rewrite Hc.
Qed.

Lemma add_one_req_exact r n m p L own input :
  cache_ok (tree_cache p) L own → disable (tree_cache p) = false →
  last_node r = Some n → n ∈ L → max_new_tokens (sampling_params r) = Some m →
  rounded_up (Z.of_nat (page_size (tree_cache p))) (extend_input_len r) input →
  ∃ res p' d c1 o, add_one_req r p = Ok (res, p') ∧
    inc_lock_ref n (tree_cache p) = Some (d, c1) ∧ cache_ok c1 L (hold own n 1) ∧ same_keys (tree_cache p) L c1 ∧
    decides r input (memory_left c1 p) p o ∧
    match o with
    | Refuse res' => res = res' ∧ rejected p p' L own
    | Add r' t new => budget_answer p' res ∧ accepted r r' n t new p p' L own ∧
        evictable_size (tree_cache p') = evictable_size c1
    end.
Proof.
  intros OK Hd Hlast Hn Hm Hin. unfold add_one_req. rewrite Hd, andb_false_r.
  destruct (c_tree _ _ _ OK) as [off TR]. pose proof (ok_ps _ _ _ _ _ TR) as Hps. clear off TR.
  rewrite <- (proj1 (ceil_page_rounded (Z.of_nat (page_size (tree_cache p))) (extend_input_len r) input ltac:(lia)) Hin).
  assert (Hclip : clipped_max_new r = Ok (expected_new r)).
  { unfold clipped_max_new, max_new_of, expected_new. by rewrite Hm. }
  rewrite Hclip. cbn [mbind result_bind]. change (rem_total_tokens p) with (memory_left (tree_cache p) p).
  set (total := (extend_input_len r + expected_new r)%Z).
  pose proof (c_own _ _ _ OK n) as Hown.
  destruct (lock_node_ok true n p L own OK Hd Hn ltac:(done)) as (d & c1 & Einc & Elock & OK1 & SC1 & _).
  assert (Hrej : rejected p p L own).
  { exists (tree_cache p). split; [by destruct p|]. split_and!; [done|apply same_keys_refl|done]. }
  destruct (Qle_bool _ (inject_Z total)) eqn:Hroom.
  { apply Qle_bool_iff in Hroom. exists NO_TOKEN, p, d, c1, (Refuse NO_TOKEN). split_and!; [done..|by apply no_memory|done|done]. }
  apply Qle_bool_false in Hroom.
  destruct (bool_decide (rem_input_tokens p < input)%Z && _) eqn:Hinput.
  { apply andb_true_iff in Hinput as [Hlt%bool_decide_eq_true Hcan%bool_decide_eq_true].
    exists OTHER, p, d, c1, (Refuse OTHER). split_and!; [done..|by apply no_input|done|done]. }
  assert (Hfit : fits_budgets r input p).
  { split; [done|]. apply andb_false_iff in Hinput as [H%bool_decide_eq_false|H%bool_decide_eq_false]; [left; lia|right].
    by destruct (decide (can_run_list p = [])). }
  rewrite Hlast, Elock. cbn [mbind result_bind].
  set (p1 := set_tree_cache c1 p) in *.
  destruct (same_keys_cache _ _ _ SC1) as (_ & Hp1 & Hd1). rewrite <- Hp1 in Hin.
  destruct (add_locked_ok r n m p1 L own input OK1 (eq_trans Hd1 Hd) Hn Hown Hm Hin) as (early & p2 & Eloc & Hadd).
  fold total in Eloc, Hadd. rewrite Eloc. cbn [mbind result_bind].
  change (memory_left (tree_cache p1) p1) with (memory_left c1 p) in Hadd.
  change (rem_chunk_tokens p1) with (rem_chunk_tokens p) in Hadd. change (tree_cache p1) with c1 in Hadd. rewrite Hp1 in Hadd.
  assert (Hout : ∃ c3, lock_node false n p1 = Ok (set_tree_cache c3 p) ∧ rejected p (set_tree_cache c3 p) L own).
  { destruct (lock_node_ok false n p1 L (hold own n 1) OK1) as (d3 & c3 & _ & E3 & OK3 & SC3 & _); try done;
      [exact (eq_trans Hd1 Hd)|intros _; unfold hold; rewrite decide_True by done; lia|].
    exists c3. split; [done|]. exists c3. split; [done|].
    assert (OK3' : cache_ok c3 L own) by (eapply hold_own; [|exact OK3]; intros k; apply (hold_undo own n 1)).
    assert (SK : same_keys (tree_cache p) L c3) by (by eapply same_keys_trans).
    split_and!; try done. unfold evictable_size. by eapply evictable_determined. }
  assert (Hadded : ∀ r' t new, accepted r r' n t new p1 p2 L (hold own n 1) → ∃ p3, lock_node false n p2 = Ok p3 ∧
    accepted r r' n t new p p3 L own ∧ evictable_size (tree_cache p3) = evictable_size c1).
  { intros r' t new [A1 [A2 A2'] A3 A4 A5 A6 A7 A8 A9 A10].
    destruct (lock_node_ok false n p2 L (hold (hold own n 1) n 1) A1) as (d3 & c3 & _ & E3 & OK3 & SC3 & Hev);
      try done; [destruct (same_keys_cache _ _ _ A2) as (_ & _ & Hd2); simpl in *; congruence|intros _; unfold hold; rewrite !decide_True by done; lia|].
    assert (OK3' : cache_ok c3 L (hold own n 1)) by (eapply hold_own; [|exact OK3]; intros k; apply (hold_undo (hold own n 1) n 1)).
    exists (set_tree_cache c3 p2). split; [done|]. split.
    - split; try done. split; [|done]. eapply same_keys_trans; [exact SC1|]. by eapply same_keys_trans.
    - simpl. unfold evictable_size. eapply evictable_determined; [exact OK1|exact OK3'| |done]. by eapply same_keys_trans. }
  destruct Hadd as [(Hl & -> & ->)|(Hl & [(k & Hk & Hk1 & Hk2 & -> & ->)|[(Hk & -> & Hacc)|(k & r' & Hk & Hk1 & Hcut & Hr' & -> & Hacc)]])].
  - destruct Hout as (c3 & -> & Hr). cbn [mbind result_bind]. eexists _, _, d, c1, (Refuse NO_TOKEN).
    split_and!; [done..|by apply no_memory_locked|done|done].
  - destruct Hout as (c3 & -> & Hr). cbn [mbind result_bind]. eexists _, _, d, c1, (Refuse OTHER).
    split_and!; [done..|by eapply no_chunk|done|done].
  - destruct (Hadded _ _ _ Hacc) as (p3 & -> & Hac & Hev). cbn [mbind result_bind]. eexists _, _, d, c1, (Add r input (expected_new r)).
    split_and!; [done..|by apply add_whole|apply budget_state_answer|done|done].
  - destruct (Hadded _ _ _ Hacc) as (p3 & -> & Hac & Hev). cbn [mbind result_bind]. eexists _, _, d, c1, (Add r' _ 0%Z).
    split_and!; [done..|by eapply add_cut|apply budget_state_answer|done|done].
Qed.

(** What the charges leave: memory for all that is expected, up to a page, and a chunk budget
    that is not exceeded. *)
Lemma added_within r n p p' L own input locked r' t new :
  (0 < page_size (tree_cache p)) → (0 ≤ expected_new r)%Z →
  rounded_up (Z.of_nat (page_size (tree_cache p))) (extend_input_len r) input →
  decides r input locked p (Add r' t new) → accepted r r' n t new p p' L own →
  (memory_left (tree_cache p') p' == locked - inject_Z (t + new))%Q →
  (inject_Z (- Z.of_nat (page_size (tree_cache p))) < memory_left (tree_cache p') p')%Q ∧
  (∀ x, rem_chunk_tokens p' = Some x → (0 ≤ x)%Z) ∧ (0 ≤ new)%Z ∧
  (extend_input_len r' ≤ t < extend_input_len r' + Z.of_nat (page_size (tree_cache p)))%Z.
Proof.
  intros Hps Hm0 [_ Hin] Hd Hac Hleft. rewrite (ac_chunk _ _ _ _ _ _ _ _ _ Hac).
  assert (Hlt : ∀ a b : Z, (a < b)%Z → (inject_Z a < inject_Z b)%Q) by (intros a b ?; by rewrite <- Zlt_Qlt).
  inversion Hd as [| | | |[_ _] Hl Hk|k ? [_ _] Hl Hk Hk1 Hcut Hx]; subst.
  - split_and!; [|intros x (y & Hy & ->)%fmap_Some; specialize (Hk y Hy); lia|done|lia|lia].
    pose proof (Hlt (- Z.of_nat (page_size (tree_cache p)) + (t + expected_new r')) (extend_input_len r' + expected_new r'))%Z as H1.
    rewrite inject_Z_plus in H1. specialize (H1 ltac:(lia)). lra.
  - rewrite Hk. split_and!; [|intros x [= <-]; lia|done|lia|lia].
    pose proof (Hlt (- Z.of_nat (page_size (tree_cache p)) + (k - Z.of_nat (page_size (tree_cache p)) + 1 + 0)) (extend_input_len r + expected_new r))%Z as H1.
    rewrite inject_Z_plus in H1. specialize (H1 ltac:(lia)). lra.
Qed.

Lemma memory_left_added r r' n t new p p' L own c1 : accepted r r' n t new p p' L own →
  evictable_size (tree_cache p') = evictable_size c1 →
  (memory_left (tree_cache p') p' == memory_left c1 p - inject_Z (t + new))%Q.
Proof.
  intros [_ [_ Ea] _ _ Et _ _ _ _ _] Hev. unfold memory_left. rewrite Ea, Hev, Et. lra.
Qed.

Lemma rounded_up_ex c L own n : cache_ok c L own → ∃ input, rounded_up (Z.of_nat (page_size c)) n input.
Proof.
  intros OK. destruct (c_tree _ _ _ OK) as [off TR]. pose proof (ok_ps _ _ _ _ _ TR).
  eexists. apply ceil_page_rounded; [lia|done].
Qed.

(** What the scheduler's loop needs of it. *)
Lemma add_one_req_ok r n m p L own :
  cache_ok (tree_cache p) L own → disable (tree_cache p) = false →
  last_node r = Some n → n ∈ L → max_new_tokens (sampling_params r) = Some m → (0 ≤ m)%Z →
  ∃ res p', add_one_req r p = Ok (res, p') ∧
    (rejected p p' L own ∨
     ∃ r' t new, accepted r r' n t new p p' L own ∧
       (inject_Z (- Z.of_nat (page_size (tree_cache p))) < rem_total_tokens p')%Q ∧
       (∀ x, rem_chunk_tokens p' = Some x → (0 ≤ x)%Z) ∧ (0 ≤ new)%Z ∧
       (extend_input_len r' ≤ t < extend_input_len r' + Z.of_nat (page_size (tree_cache p)))%Z).
Proof.
  intros OK Hd Hlast Hn Hm Hm0. destruct (rounded_up_ex _ _ _ (extend_input_len r) OK) as (input & Hin).
  destruct (c_tree _ _ _ OK) as [off TR]. pose proof (ok_ps _ _ _ _ _ TR) as Hps.
  destruct (add_one_req_exact r n m p L own input OK Hd Hlast Hn Hm Hin)
    as (res & p' & d & c1 & [res'|r' t new] & E & _ & _ & _ & Hdec & Ho).
  - exists res, p'. split; [done|]. left. apply Ho.
  - destruct Ho as (_ & Hac & Hev). exists res, p'. split; [done|]. right. exists r', t, new. split; [done|].
    eapply added_within; [done|unfold expected_new; rewrite Hm; lia|done|done|done|by eapply memory_left_added].
Qed.

(** A request with the batch and the memory for itself is added. *)
Lemma add_one_req_alone r n m p L own :
  cache_ok (tree_cache p) L own → disable (tree_cache p) = false →
  last_node r = Some n → n ∈ L → max_new_tokens (sampling_params r) = Some m →
  rem_chunk_tokens p = None → can_run_list p = [] →
  let total := inject_Z (extend_input_len r + Z.min m CLIP_MAX_NEW_TOKENS_ESTIMATION)%Z in
  (total < rem_total_tokens p)%Q →
  (∀ c, cache_ok c L (hold own n 1) → same_keys (tree_cache p) L c → total <= rem_total_tokens (set_tree_cache c p))%Q →
  ∃ res p', add_one_req r p = Ok (res, p') ∧ can_run_list p' = [r].
Proof.
  intros OK Hd Hlast Hn Hm Hck Hcan total Hroom Hlocked.
  destruct (rounded_up_ex _ _ _ (extend_input_len r) OK) as (input & Hin).
  assert (Etotal : total = inject_Z (extend_input_len r + expected_new r)) by (unfold expected_new; by rewrite Hm).
  destruct (add_one_req_exact r n m p L own input OK Hd Hlast Hn Hm Hin)
    as (res & p' & d & c1 & o & E & _ & OK1 & SK1 & Hdec & Ho).
  exists res, p'. split; [done|]. specialize (Hlocked c1 OK1 SK1).
  change (rem_total_tokens (set_tree_cache c1 p)) with (memory_left c1 p) in Hlocked.
  change (rem_total_tokens p) with (memory_left (tree_cache p) p) in Hroom. rewrite Etotal in *.
  inversion Hdec as [Hl|_ _ Hne|_ Hl|k _ _ Hk|_ _ _|k r' _ _ Hk]; subst; try congruence; try (exfalso; lra).
  destruct Ho as (_ & Hac & _). rewrite (ac_run _ _ _ _ _ _ _ _ _ Hac). by rewrite Hcan.
Qed.


Definition ex_adder (c : RadixCache) (chunk : Z) : PrefillAdder :=
  MkAdder c (new_TokenToKVPoolAllocator 100) None (1 # 2) 50 (Some chunk) 0 0 None [] None 0 0.


(** ** Requests that ignore the end of sequence *)

(** The state of a request: the decode steps it has left and the slots it then frees. *)
Definition state_of (ratio : Q) (r : Req) : option (Q * Z) :=
  m ← max_new_tokens (sampling_params r);
  let t := (inject_Z m * (if ignore_eos (sampling_params r) then 1%Q else ratio)
            - inject_Z (Z.of_nat (length (output_ids r))))%Q in
  if Qltb 0 t then Some (t, Z.of_nat (length (origin_input_ids r) + length (output_ids r))) else None.

(** Before the request at [i] finishes, all the later ones decode until the next one is done;
    the slots of the finished ones are free again. *)
Definition fits (cur_rem : Z) (l : list (Q * Z)) : Prop :=
  ∀ i t occ, l !! i = Some (t, occ) →
    let steps := default t (fst <$> l !! S i) in
    (steps * inject_Z (Z.of_nat (length l - i)) < inject_Z (cur_rem + zsum snd (take i l)))%Q.

Lemma enough_memory_spec cur_rem l : ∀ freed,
  enough_memory cur_rem freed l = true ↔ fits (cur_rem + freed) l.
Proof.
  induction l as [|[t occ] l IH]; intros freed; [done|].
  set (steps := match l with (x, _) :: _ => x | [] => t end).
  assert (Hs : default t (fst <$> l !! 0) = steps) by (unfold steps; by destruct l as [|[]]).
  cbn [enough_memory]. fold steps.
  transitivity ((steps * inject_Z (Z.of_nat (S (length l))) < inject_Z (cur_rem + freed))%Q ∧
                enough_memory cur_rem (freed + occ) l = true).
  { simpl length. destruct (Qle_bool _ 0) eqn:E.
    - split; [done|]. intros [Hlt _]. apply Qle_bool_iff in E. lra.
    - apply Qle_bool_false in E. split; [intros H; split; [lra|done]|tauto]. }
  rewrite IH. split.
  - intros [H0 Hl] i t' occ' Hi. destruct i as [|i]; simpl in Hi; simplify_eq.
    + simpl. rewrite Hs, Z.add_0_r. done.
    + specialize (Hl i t' occ' Hi). simpl in *.
      replace (cur_rem + freed + (occ + zsum snd (take i l)))%Z
        with (cur_rem + (freed + occ) + zsum snd (take i l))%Z by lia. done.
  - intros H. split.
    + specialize (H 0 t occ eq_refl). simpl in H. by rewrite Hs, Z.add_0_r in H.
    + intros i t' occ' Hi. specialize (H (S i) t' occ' Hi). simpl in *.
      replace (cur_rem + (freed + occ) + zsum snd (take i l))%Z
        with (cur_rem + freed + (occ + zsum snd (take i l)))%Z by lia. done.
Qed.

Lemma add_req_state_spec ratio b r l m : max_new_tokens (sampling_params r) = Some m →
  ∃ l', add_req_state ratio b r l = Ok l' ∧ l' ≡ₚ option_list (state_of ratio r) ++ l.
Proof.
  intros Hm. unfold add_req_state, max_new_of, state_of. rewrite Hm. cbn [mbind result_bind option_bind].
  case_match; eexists; (split; [done|]); [|done]. destruct b; simpl.
  - unfold insert_state. rewrite <- Permutation_middle, take_drop. done.
  - by rewrite (comm app).
Qed.

Lemma add_req_states_spec ratio rs : ∀ l, (∀ r, r ∈ rs → is_Some (max_new_tokens (sampling_params r))) →
  ∃ l', add_req_states ratio rs l = Ok l' ∧ l' ≡ₚ omap (state_of ratio) rs ++ l.
Proof.
  induction rs as [|r rs IH]; intros l Hm; [by exists l|].
  destruct (Hm r ltac:(left)) as [m Hr]. destruct (add_req_state_spec ratio false r l m Hr) as (l1 & E1 & P1).
  destruct (IH l1) as (l2 & E2 & P2); [by intros; apply Hm; right|]. exists l2.
  cbn [add_req_states]. rewrite E1. cbn [mbind result_bind]. split; [done|].
  rewrite P2, P1. simpl. destruct (state_of ratio r); simpl; [|done].
  by rewrite <- Permutation_middle.
Qed.

Lemma Qle_bool_total a b : Qle_bool a b = true ∨ Qle_bool b a = true.
Proof. rewrite !Qle_bool_iff. destruct (Qlt_le_dec a b); [left|right]; lra. Qed.

Lemma Qle_bool_trans a b c : Qle_bool a b = true → Qle_bool b c = true → Qle_bool a c = true.
Proof. rewrite !Qle_bool_iff. lra. Qed.

(** The states: one for each request that still decodes, sorted on the first call. *)
Lemma next_req_states_spec r p m : max_new_tokens (sampling_params r) = Some m →
  (∀ x, x ∈ default [] (running_reqs p) ++ can_run_list p → is_Some (max_new_tokens (sampling_params x))) →
  ∃ l, next_req_states r p = Ok l ∧
    match req_states p with
    | None => l ≡ₚ omap (state_of (new_token_ratio p)) (r :: default [] (running_reqs p) ++ can_run_list p) ∧
              StronglySorted (key_le Qle_bool fst) l
    | Some l0 => l ≡ₚ option_list (state_of (new_token_ratio p) r) ++ l0
    end.
Proof.
  intros Hm Hall. unfold next_req_states. destruct (req_states p) as [l0|].
  { by apply (add_req_state_spec _ true r l0 m). }
  destruct (add_req_states_spec (new_token_ratio p) (r :: default [] (running_reqs p) ++ can_run_list p) [])
    as (l & -> & Hl).
  { intros x [->|Hx]%elem_of_cons; [by eexists|by apply Hall]. }
  cbn [mbind result_bind]. eexists. split; [done|]. rewrite app_nil_r in Hl. split.
  - by rewrite sort_by_perm.
  - apply sort_by_sorted; [apply Qle_bool_total|apply Qle_bool_trans].
Qed.

(** [add_one_req_ignore_eos] returns; it records one state for each request that still
    decodes (on the first call of the batch also for the running ones, sorted by steps left),
    answers [NO_TOKEN] exactly when some request of the batch would run out of slots before it
    finishes, and otherwise adds the request: whole when it fits the chunk, cut to the rest of
    the chunk when not, and not at all when the chunk is used up. *)
Theorem add_one_req_ignore_eos_correct r p m :
  max_new_tokens (sampling_params r) = Some m →
  (∀ x, x ∈ default [] (running_reqs p) ++ can_run_list p → is_Some (max_new_tokens (sampling_params x))) →
  (∀ x, rem_chunk_tokens p = Some x → (0 ≤ x)%Z) →
  ∃ res p' l, add_one_req_ignore_eos r p = (Ok res, p') ∧ req_states p' = Some l ∧
    match req_states p with
    | None => l ≡ₚ omap (state_of (new_token_ratio p)) (r :: default [] (running_reqs p) ++ can_run_list p) ∧
              StronglySorted (key_le Qle_bool fst) l
    | Some l0 => l ≡ₚ option_list (state_of (new_token_ratio p) r) ++ l0
    end ∧
    let room := fits (cur_rem_tokens p - Z.of_nat (length (origin_input_ids r))) l in
    (¬ room ∧ res = NO_TOKEN ∧ can_run_list p' = can_run_list p ∨
     room ∧ rem_chunk_tokens p = Some 0%Z ∧ (0 < extend_input_len r)%Z ∧ res = OTHER ∧
       can_run_list p' = can_run_list p ∨
     room ∧ res = budget_state p' ∧ ∃ r' t, can_run_list p' = can_run_list p ++ [r'] ∧
       same_request r r' ∧ extend_input_len r' = t ∧ (t ≤ extend_input_len r)%Z ∧
       cur_rem_tokens p' = (cur_rem_tokens p - t)%Z ∧
       (∀ x, rem_chunk_tokens p = Some x → rem_chunk_tokens p' = Some (x - t) ∧ 0 ≤ x - t)%Z ∧
       (r' = r ∧ new_chunked_req p' = new_chunked_req p ∨
        (0 < t < extend_input_len r)%Z ∧ fill_ids r' = take (Z.to_nat t) (fill_ids r) ∧
        new_chunked_req p' = Some r')).
Proof.
  intros Hm Hall Hchunk. destruct (next_req_states_spec r p m Hm Hall) as (l & El & Hl).
  assert (Hclip : clipped_max_new r = Ok (Z.min m CLIP_MAX_NEW_TOKENS_ESTIMATION)).
  { unfold clipped_max_new, max_new_of. by rewrite Hm. }
  unfold add_one_req_ignore_eos. rewrite El.
  pose proof (enough_memory_spec (cur_rem_tokens p - Z.of_nat (length (origin_input_ids r))) l 0) as Hfit.
  rewrite Z.add_0_r in Hfit. change (cur_rem_tokens (set_req_states (Some l) p)) with (cur_rem_tokens p).
  destruct (enough_memory _ 0 l).
  2: { eexists NO_TOKEN, _, l. split_and!; [done..|]. left. split_and!; [|done..]. by intros ?%Hfit. }
  assert (Hroom : fits (cur_rem_tokens p - Z.of_nat (length (origin_input_ids r))) l) by by apply Hfit.
  clear Hfit. simpl. destruct (rem_chunk_tokens p) as [chunk|] eqn:Hc; simpl.
  - specialize (Hchunk chunk eq_refl). case_bool_decide as Hle; rewrite ?Hclip.
    + eexists _, _, l. split_and!; [done..|]. right; right. split_and!; [done..|].
      exists r, (extend_input_len r). split_and!; try done; [apply same_request_self|unfold cur_rem_tokens; simpl; lia| |by left].
      intros x [= <-]. simpl. rewrite Hc. simpl. split; [done|lia].
    + case_bool_decide as H0.
      { eexists OTHER, _, l. split_and!; [done..|]. right; left. subst chunk. split_and!; try done. lia. }
      eexists _, _, l. split_and!; [done..|]. right; right. split_and!; [done..|].
      eexists _, chunk. split_and!; [done|by destruct r|done|lia|unfold cur_rem_tokens; simpl; lia| |right].
      * intros x [= <-]. simpl. rewrite Hc. simpl. split; [done|lia].
      * split_and!; [lia..| |done]. simpl. unfold py_prefix. by rewrite bool_decide_eq_true_2 by lia.
  - rewrite Hclip. eexists _, _, l. split_and!; [done..|]. right; right. split_and!; [done..|].
    exists r, (extend_input_len r). split_and!; try done; [apply same_request_self|unfold cur_rem_tokens; simpl; lia|by left].
Qed.

(** A request of four tokens and two decode steps uses up the chunk of four. *)
Lemma add_one_req_ignore_eos_correct_witness : ∃ res p',
  add_one_req_ignore_eos (set_extend_input_len 4 (ex_req 2 [1; 2; 3; 4]%Z)) (ex_adder ex_cache 4) = (Ok res, p') ∧
  res = OTHER ∧ req_states p' = Some [((2 # 1) * (1 # 2) - 0, 4%Z)]%Q.
Proof.
  destruct (add_one_req_ignore_eos_correct (set_extend_input_len 4 (ex_req 2 [1; 2; 3; 4]%Z)) (ex_adder ex_cache 4) 2)
    as (res & p' & l & H & _); [done|by intros x ?%elem_of_nil| |].
  { by intros x [= <-]. }
  exists res, p'. split; [exact H|]. vm_compute in H. by injection H as <- <-.
Defined.

(** The insertion of later states does not keep the list sorted: when no break ends the
    loop, the loop variable is the last index and the state goes before the last one. *)
Lemma insert_state_unsorted : ∃ l : list (Q * Z),
  StronglySorted (key_le Qle_bool fst) l ∧ ¬ StronglySorted (key_le Qle_bool fst) (insert_state 5 0 l).
Proof.
  exists [(1%Q, 0%Z); (2%Q, 0%Z)]. split; [repeat constructor|].
  change (insert_state 5 0 [(1%Q, 0%Z); (2%Q, 0%Z)]) with [(1%Q, 0%Z); (5%Q, 0%Z); (2%Q, 0%Z)].
  intros [[_ [H _]%Forall_cons]%StronglySorted_inv _]%StronglySorted_inv. done.
Qed.
