(* ===== verification/Penalty.v ===== *)
(** * Penalties

    [src/python/sglang/srt/sampling/penaltylib]: the batched frequency, presence and
    min-new-tokens penalizers and the orchestrator that keeps them in step with the batch.

    A tensor of floats is a list (of rows) over an abstract type [F] of 32-bit floats with the
    operations torch applies to its elements. *)

From S2P Require Import Prelude PyStr Sampling HeapQ Radix RadixTree RadixMatch RadixInv RadixThms Req.
From Stdlib Require Import QArith.
Close Scope Q_scope.

(** [p != 0.0]. *)
Definition neq0 (p : pyfloat) : bool := match p with Fin q => negb (Qeq_bool q 0) | _ => true end.

(** A request of the batch and the output tokens its penalizers have seen. *)
Notation row := (Req * list Z)%type.

(** ** Tensors *)

(** Every row shape torch checks: [xs[keep]] along the first dimension. *)
Definition index_rows {A} (keep : list nat) (xs : list A) : result (list A) :=
  match mapM (λ i, xs !! i) keep with Some ys => Ok ys | None => Raise IndexError end.

(** [dst.scatter(dim=1, index, src)] with index rows [idx] and the same source for a row:
    [f] combines the old element with the source; more index rows than rows of [dst] or of
    [src], and an index out of range, are errors. *)
Fixpoint scatter_row {F} (f : F → F → F) (row : list F) (idx : list Z) (x : F) : result (list F) :=
  match idx with
  | [] => Ok row
  | i :: idx =>
      if bool_decide (0 ≤ i < Z.of_nat (length row))%Z
      then scatter_row f (alter (λ y, f y x) (Z.to_nat i) row) idx x
      else Raise (RuntimeError "index out of bounds")
  end.

Fixpoint scatter {F} (f : F → F → F) (dst : list (list F)) (index : list (list Z)) (src : list F)
    : result (list (list F)) :=
  match index, dst, src with
  | [], _, _ => Ok dst
  | i :: index, d :: dst, x :: src =>
      d ← scatter_row f d i x;
      dst ← scatter f dst index src;
      Ok (d :: dst)
  | _, _, _ => Raise (RuntimeError "size mismatch")
  end.

(** An elementwise operation on two tensors of one shape. *)
Fixpoint rowwise {A B C} (f : A → B → result C) (xs : list A) (ys : list B) : result (list C) :=
  match xs, ys with
  | [], [] => Ok []
  | x :: xs, y :: ys => z ← f x y; zs ← rowwise f xs ys; Ok (z :: zs)
  | _, _ => Raise (RuntimeError "size mismatch")
  end.

Definition same_shape {F} (f : F → F → F) (x y : list F) : result (list F) :=
  if bool_decide (length x = length y) then Ok (zip_with f x y)
  else Raise (RuntimeError "size mismatch").

(** ** The interface [_BatchedPenalizer]

    The tensors of a prepared penalizer. [pz_row] is the effect on one row of the logits
    that a penalizer promises, for a request alone. *)
Class Penalizer (F S : Type) := {
  _is_required : list Req → bool;
  _prepare : nat → list Req → result S;
  _cumulate_output_tokens : list Z → S → result S;
  _apply : list (list F) → S → result (list (list F));
  _filter : list nat → S → result S;
  _merge : S → S → S;
  pz_row : row → list F → list F;
  pz_ok : nat → S → list row → Prop
}.

Definition new_row (r : Req) : row := (r, []).

Lemma fst_new_row (reqs : list Req) : fst <$> (new_row <$> reqs) = reqs.
Proof. rewrite <- list_fmap_compose. apply list_fmap_id. Qed.

(** The requests a penalizer can be prepared for. *)
Definition token_in (vocab : nat) (t : Z) : Prop := (0 ≤ t < Z.of_nat vocab)%Z.

Definition stop_ids (tk : Tokenizer) (r : Req) : list Z :=
  remove_dups (default [] (stop_token_ids (sampling_params r)) ++
               default [] (additional_stop_token_ids tk) ++ [tok_eos_token_id tk]).

Definition row_fits (vocab : nat) (x : row) : Prop :=
  (∃ tk, tokenizer x.1 = Some tk ∧ ∀ t, t ∈ stop_ids tk x.1 → token_in vocab t) ∧
  ∀ t, t ∈ x.2 → token_in vocab t.

(** Requests a penalizer cannot tell apart. *)
Definition same_params (r r' : Req) : Prop :=
  sampling_params r' = sampling_params r ∧ tokenizer r' = tokenizer r.
Definition same_row (x x' : row) : Prop := same_params x.1 x'.1 ∧ x'.2 = x.2.

Lemma row_fits_same vocab x x' : same_row x x' → row_fits vocab x → row_fits vocab x'.
Proof. intros [[E1 E2] E3]. unfold row_fits, stop_ids. by rewrite E1, E2, E3. Qed.

(** A function of what [same_row] compares. *)
Lemma same_row_fmap {A} (f : row → A) rows rows' : (∀ x x', same_row x x' → f x' = f x) →
  Forall2 same_row rows rows' → f <$> rows' = f <$> rows.
Proof. intros Hf. induction 1 as [|x x' rows rows' Hx _ IH]; [done|]. rewrite !fmap_cons. by rewrite (Hf x x' Hx), IH. Qed.

Class PenalizerLaws (F S : Type) `{Penalizer F S} := {
  pz_prepare vocab rows : Forall (row_fits vocab) rows →
    (∀ x, x ∈ rows → x.2 = [] ∨ _is_required [x.1] = false) →
    ∃ s, _prepare vocab (fst <$> rows) = Ok s ∧ pz_ok vocab s rows;
  pz_cumulate vocab s rows toks : Forall (row_fits vocab) rows → pz_ok vocab s rows →
    length toks = length rows → Forall (token_in vocab) toks →
    ∃ s', _cumulate_output_tokens toks s = Ok s' ∧
      pz_ok vocab s' (zip_with (λ x t, (x.1, x.2 ++ [t])) rows toks);
  pz_apply vocab s rows logits : Forall (row_fits vocab) rows → pz_ok vocab s rows →
    length logits = length rows → Forall (λ l, length l = vocab) logits →
    _apply logits s = Ok (zip_with pz_row rows logits);
  pz_filter vocab s rows keep rows' : pz_ok vocab s rows → mapM (λ i, rows !! i) keep = Some rows' →
    ∃ s', _filter keep s = Ok s' ∧ pz_ok vocab s' rows';
  pz_merge vocab s1 s2 rows1 rows2 : pz_ok vocab s1 rows1 → pz_ok vocab s2 rows2 →
    pz_ok vocab (_merge s1 s2) (rows1 ++ rows2);
  pz_required reqs : _is_required reqs = existsb (λ r, _is_required [r]) reqs;
  pz_idle x l : _is_required [x.1] = false → pz_row x l = l;
  pz_length x l : length (pz_row x l) = length l;
  pz_same vocab s rows rows' : Forall2 same_row rows rows' → pz_ok vocab s rows → pz_ok vocab s rows';
  pz_required_same r r' : same_params r r' → _is_required [r'] = _is_required [r]
}.

(** ** The template methods of [_BatchedPenalizer]

    A penalizer is [None] while it is not prepared: [prepare] rewrites every tensor, so
    those a torn-down penalizer still holds are never read. *)

Section template.
Context {F S : Type} `{PZ : Penalizer F S}.

Definition prepare (vocab : nat) (reqs : list Req) (o : option S) : result (option S) :=
  match o with Some s => Ok (Some s) | None => s ← _prepare vocab reqs; Ok (Some s) end.

Definition prepare_if_required (vocab : nat) (reqs : list Req) (o : option S) : result (bool * option S) :=
  if _is_required reqs then o ← prepare vocab reqs o; Ok (true, o) else Ok (false, o).

Definition teardown (o : option S) : option S := None.

Definition cumulate_output_tokens (toks : list Z) (o : option S) : result (option S) :=
  match o with None => Ok None | Some s => s ← _cumulate_output_tokens toks s; Ok (Some s) end.

Definition pen_apply (o : option S) (logits : list (list F)) : result (list (list F)) :=
  match o with None => Ok logits | Some s => _apply logits s end.

Definition pen_filter (keep : list nat) (o : option S) : result (option S) :=
  match o with None => Ok None | Some s => s ← _filter keep s; Ok (Some s) end.

(** One turn of the loop of the orchestrator's [filter]: the flag and the penalizer. *)
Definition filter_turn (keep : list nat) (reqs : list Req) (o : option S) : result (bool * option S) :=
  if _is_required reqs then o ← pen_filter keep o; Ok (true, o) else Ok (false, teardown o).

Definition pen_merge (vocab vocab' : nat) (reqs reqs' : list Req) (o o' : option S)
    : result (option S * option S) :=
  match o, o' with
  | None, None => Ok (None, None)
  | _, _ =>
      o ← prepare vocab reqs o;
      o' ← prepare vocab' reqs' o';
      match o, o' with Some s, Some s' => Ok (Some (_merge s s'), Some s') | _, _ => Raise AttributeError end
  end.

(** A penalizer describes the rows; without tensors no row needs it. *)
Definition pen_ok (vocab : nat) (o : option S) (rows : list row) : Prop :=
  match o with Some s => pz_ok vocab s rows | None => _is_required (fst <$> rows) = false end.

Context `{!PenalizerLaws F S}.

Lemma existsb_fmap_false (rows : list row) :
  existsb (λ r, _is_required [r]) (fst <$> rows) = false ↔ ∀ x, x ∈ rows → _is_required [x.1] = false.
Proof.
  induction rows as [|y rows IH]; simpl.
  - split; [by intros _ x ?%elem_of_nil|done].
  - rewrite orb_false_iff, IH. setoid_rewrite elem_of_cons. naive_solver.
Qed.

Lemma not_required (rows : list row) : _is_required (fst <$> rows) = false ↔ ∀ x, x ∈ rows → _is_required [x.1] = false.
Proof. rewrite pz_required. apply existsb_fmap_false. Qed.

Lemma prepare_ok vocab rows o : Forall (row_fits vocab) rows → pen_ok vocab o rows →
  ∃ s, prepare vocab (fst <$> rows) o = Ok (Some s) ∧ pz_ok vocab s rows.
Proof.
  intros Hf Ho. destruct o as [s|]; simpl in *; [by exists s|].
  destruct (pz_prepare vocab rows Hf) as (s & -> & Hs).
  { intros x Hx. right. by apply (not_required rows). } by exists s.
Qed.

Lemma prepare_new vocab reqs : Forall (row_fits vocab) (new_row <$> reqs) →
  ∃ b o, prepare_if_required vocab reqs None = Ok (b, o) ∧ pen_ok vocab o (new_row <$> reqs) ∧
    (b = false → o = None).
Proof.
  intros Hf. unfold prepare_if_required.
  pose proof (fst_new_row reqs) as E.
  destruct (_is_required reqs) eqn:Hr.
  - destruct (pz_prepare vocab _ Hf) as (s & Hs & Hok).
    { intros x (r & -> & _)%list_elem_of_fmap. by left. }
    rewrite E in Hs. simpl. rewrite Hs. by exists true, (Some s).
  - exists false, None. simpl. by rewrite E.
Qed.

Lemma cumulate_ok vocab rows toks o : Forall (row_fits vocab) rows → pen_ok vocab o rows →
  length toks = length rows → Forall (token_in vocab) toks →
  ∃ o', cumulate_output_tokens toks o = Ok o' ∧
    pen_ok vocab o' (zip_with (λ x t, (x.1, x.2 ++ [t])) rows toks) ∧ (o = None → o' = None).
Proof.
  intros Hf Ho Hl Ht. destruct o as [s|]; simpl in *.
  - destruct (pz_cumulate vocab s rows toks) as (s' & -> & Hs); [done..|]. by exists (Some s').
  - exists None. split_and!; try done. simpl. rewrite <- Ho. f_equal.
    clear -Hl. revert toks Hl. induction rows as [|x rows IH]; intros [|t toks] Hl; simplify_eq/=; [done|].
    f_equal. by apply IH.
Qed.

Lemma apply_ok vocab rows o logits : Forall (row_fits vocab) rows → pen_ok vocab o rows →
  length logits = length rows → Forall (λ l, length l = vocab) logits →
  pen_apply o logits = Ok (zip_with pz_row rows logits).
Proof.
  intros Hf Ho Hl Hv. destruct o as [s|]; simpl in *; [by eapply pz_apply|].
  f_equal. rewrite not_required in Ho. clear Hf Hv. revert logits Hl.
  induction rows as [|x rows IH]; intros [|l logits] Hl; simplify_eq/=; [done|].
  rewrite pz_idle by (apply Ho; left). f_equal. apply IH; [|done]. intros; apply Ho; by right.
Qed.

Lemma pen_ok_same vocab o rows rows' : Forall2 same_row rows rows' → pen_ok vocab o rows → pen_ok vocab o rows'.
Proof.
  intros HF Ho. destruct o as [s|]; simpl in *; [by eapply pz_same|]. rewrite not_required in *.
  intros x' Hx'. apply list_elem_of_lookup in Hx' as [i Hi]. destruct (Forall2_lookup_r _ _ _ _ _ HF Hi) as (x & Hx & Hs).
  rewrite (pz_required_same x.1 x'.1) by apply Hs. apply Ho. by eapply list_elem_of_lookup_2.
Qed.

Lemma filter_idle vocab rows rows' keep : pen_ok vocab None rows →
  mapM (λ i, rows !! i) keep = Some rows' → pen_ok vocab None rows'.
Proof.
  intros Ho Hk. simpl in *. rewrite not_required in *. intros x Hx. apply Ho. apply mapM_Some in Hk.
  apply list_elem_of_lookup in Hx as [i Hi]. destruct (Forall2_lookup_r _ _ _ _ _ Hk Hi) as (j & _ & Hj).
  by eapply list_elem_of_lookup_2.
Qed.

Lemma filter_ok vocab rows rows' keep o : pen_ok vocab o rows → mapM (λ i, rows !! i) keep = Some rows' →
  ∃ b o', filter_turn keep (fst <$> rows') o = Ok (b, o') ∧ pen_ok vocab o' rows' ∧ (b = false → o' = None).
Proof.
  intros Ho Hk. unfold filter_turn. destruct (_is_required (fst <$> rows')) eqn:Hr.
  - destruct o as [s|]; simpl in *.
    + destruct (pz_filter vocab s rows keep rows' Ho Hk) as (s' & -> & Hs). by exists true, (Some s').
    + pose proof (filter_idle vocab rows rows' keep Ho Hk) as Hi. simpl in Hi. congruence.
  - by exists false, None.
Qed.

Lemma merge_ok vocab rows rows' o o' : Forall (row_fits vocab) rows → Forall (row_fits vocab) rows' →
  pen_ok vocab o rows → pen_ok vocab o' rows' →
  ∃ o2 o3, pen_merge vocab vocab (fst <$> rows) (fst <$> rows') o o' = Ok (o2, o3) ∧
    pen_ok vocab o2 (rows ++ rows').
Proof.
  intros Hf Hf' Ho Ho'. destruct (prepare_ok vocab rows o Hf Ho) as (s & Es & Hs).
  destruct (prepare_ok vocab rows' o' Hf' Ho') as (s' & Es' & Hs').
  unfold pen_merge. rewrite Es. destruct o as [t|], o' as [t'|]; rewrite ?Es'; simpl in *.
  1-3: eexists _, _; (split; [rewrite ?Es'; reflexivity|]); simpl; by apply pz_merge.
  exists None, None. split; [done|]. simpl. rewrite not_required in *.
  intros x [Hx|Hx]%elem_of_app; [by apply Ho|by apply Ho'].
Qed.
End template.

(** ** Rows of tensors *)

Section rows.
Context {F : Type}.
Implicit Types (g : nat → F).

(** The row with the element [g v] for token [v]. *)
Definition tab (vocab : nat) (g : nat → F) : list F := g <$> seq 0 vocab.

Lemma tab_lookup n g v : tab n g !! v = if decide (v < n) then Some (g v) else None.
Proof.
  unfold tab. rewrite list_lookup_fmap. case_decide.
  - by rewrite lookup_seq_lt.
  - by rewrite lookup_seq_ge by lia.
Qed.

Lemma tab_length n g : length (tab n g) = n.
Proof. unfold tab. by rewrite length_fmap, length_seq. Qed.

Lemma tab_replicate n (x : F) : replicate n x = tab n (λ _, x).
Proof.
  apply list_eq. intros v. rewrite tab_lookup. case_decide.
  - by apply lookup_replicate_2.
  - apply lookup_replicate_None. lia.
Qed.

Lemma tab_alter n g (h : F → F) v : alter h v (tab n g) = tab n (λ w, if decide (w = v) then h (g w) else g w).
Proof.
  apply list_eq. intros w. destruct (decide (w = v)) as [->|Hw].
  - rewrite list_lookup_alter_eq, !tab_lookup. case_decide; simpl; [by rewrite decide_True|done].
  - rewrite list_lookup_alter_ne, !tab_lookup by done. by rewrite (decide_False (P := w = v)).
Qed.

Lemma scatter_row_tab (f : F → F → F) n idx x : ∀ g, Forall (token_in n) idx →
  scatter_row f (tab n g) idx x = Ok (tab n (λ v, Nat.iter (count_occ Z.eq_dec idx (Z.of_nat v)) (λ y, f y x) (g v))).
Proof.
  induction idx as [|i idx IH]; intros g Hi; [done|]. inversion Hi as [|? ? [Hi0 Hin] Hidx]; subst.
  cbn [scatter_row]. rewrite tab_length, bool_decide_eq_true_2 by done. rewrite tab_alter, IH by done.
  f_equal. apply list_fmap_ext. intros _ v _. cbn [count_occ].
  destruct (decide (v = Z.to_nat i)) as [->|Hv].
  - rewrite Z2Nat.id by done. destruct (Z.eq_dec i i); [|done]. by rewrite Nat.iter_succ_r.
  - destruct (Z.eq_dec i (Z.of_nat v)); [lia|done].
Qed.

(** One index per row. *)
Lemma scatter_tab (f : F → F → F) {A} n (G : A → nat → F) (p : A → F) rows toks :
  length toks = length rows → Forall (token_in n) toks →
  scatter f ((λ x, tab n (G x)) <$> rows) ((λ t, [t]) <$> toks) (p <$> rows) =
  Ok (zip_with (λ x t, tab n (λ v, if decide (t = Z.of_nat v) then f (G x v) (p x) else G x v)) rows toks).
Proof.
  revert toks. induction rows as [|x rows IH]; intros [|t toks] Hl Ht; try done. injection Hl as Hl.
  cbn [fmap list_fmap scatter zip_with]. inversion Ht; subst. rewrite (scatter_row_tab f n [t] (p x) (G x)) by (by constructor).
  cbn [mbind result_bind]. rewrite IH by done. cbn [mbind result_bind]. do 2 f_equal.
  apply list_fmap_ext. intros _ v _. cbn [count_occ].
  destruct (Z.eq_dec t (Z.of_nat v)); [by rewrite decide_True|by rewrite decide_False].
Qed.

Lemma zip_with_tab (f : F → F → F) n g l : length l = n →
  zip_with f l (tab n g) = imap (λ v y, f y (g v)) l.
Proof.
  intros Hl. apply list_eq. intros v. rewrite lookup_zip_with, list_lookup_imap, tab_lookup.
  destruct (l !! v) as [y|] eqn:E; [|done]. apply lookup_lt_Some in E. simpl.
  by rewrite decide_True by lia.
Qed.

(** An operation on each row of the logits. *)
Lemma rowwise_tab {A B} (f : list F → B → result (list F)) (h : A → list F → list F) (b : A → B) rows logits :
  length logits = length rows →
  (∀ x l, x ∈ rows → l ∈ logits → f l (b x) = Ok (h x l)) →
  rowwise f logits (b <$> rows) = Ok (zip_with h rows logits).
Proof.
  revert logits. induction rows as [|x rows IH]; intros [|l logits] Hl Hf; simplify_eq/=; [done|].
  rewrite (Hf x l) by (apply elem_of_cons; by left). cbn [mbind result_bind]. rewrite IH; [done|done|].
  intros y l' Hy Hl'. apply Hf; by apply elem_of_cons; right.
Qed.

Lemma index_rows_fmap {A B} (f : A → B) rows keep rows' : mapM (λ i, rows !! i) keep = Some rows' →
  index_rows keep (f <$> rows) = Ok (f <$> rows').
Proof.
  intros Hk. unfold index_rows. enough (mapM (λ i, (f <$> rows) !! i) keep = Some (f <$> rows')) as -> by done.
  apply mapM_Some. apply mapM_Some in Hk. apply Forall2_fmap_r. eapply Forall2_impl; [exact Hk|].
  intros i x Hx. simpl. by rewrite list_lookup_fmap, Hx.
Qed.
End rows.

Lemma fmap_zip_with {A B C D} (f : C → D) (g : A → B → C) (h : A → B → D) xs ys :
  (∀ x y, f (g x y) = h x y) → f <$> zip_with g xs ys = zip_with h xs ys.
Proof. intros H. revert ys. induction xs as [|x xs IH]; intros [|y ys]; simpl; [done..|]. by rewrite H, IH. Qed.

Lemma zip_with_fst {A B D} (f : A → D) xs (ys : list B) : length ys = length xs →
  zip_with (λ x _, f x) xs ys = f <$> xs.
Proof. revert ys. induction xs as [|x xs IH]; intros [|y ys] Hl; simplify_eq/=; [done|]. by rewrite IH. Qed.

Lemma Forall_zip_right {A B C} (P : B → Prop) (Q : C → Prop) (f : A → B → C) xs ys :
  (∀ x y, P y → Q (f x y)) → Forall P ys → Forall Q (zip_with f xs ys).
Proof.
  intros H HP. revert xs. induction HP as [|y ys Hy HP IH]; intros [|x xs]; simpl; constructor; auto.
Qed.

(** ** The penalizers *)

Section penalizers.
(** 32-bit floats: zero, minus infinity, addition, subtraction, the conversion from Python's
    floats. *)
Context {F : Type} (fzero ninf : F) (fadd fsub : F → F → F) (f32 : pyfloat → F).

(** *** [BatchedFrequencyPenalizer] and [BatchedPresencePenalizer] *)

Record Frequency := MkFrequency { frequency_penalties : list F; cumulated_frequency_penalties : list (list F) }.
Record Presence := MkPresence { presence_penalties : list F; cumulated_presence_penalties : list (list F) }.

Definition zeros (n vocab : nat) : list (list F) := replicate n (replicate vocab fzero).

Definition freq_of (r : Req) : F := f32 (frequency_penalty (sampling_params r)).
Definition pres_of (r : Req) : F := f32 (presence_penalty (sampling_params r)).

(** What is subtracted from the logit of [v] after the tokens [h]. *)
Definition freq_cum (p : F) (h : list Z) (v : nat) : F :=
  Nat.iter (count_occ Z.eq_dec h (Z.of_nat v)) (λ y, fadd y p) fzero.
Definition pres_cum (p : F) (h : list Z) (v : nat) : F :=
  if bool_decide (Z.of_nat v ∈ h) then p else fzero.

#[local] Instance frequency_penalizer : Penalizer F Frequency := {|
  _is_required reqs := existsb (λ r, neq0 (frequency_penalty (sampling_params r))) reqs;
  _prepare vocab reqs := Ok (MkFrequency (freq_of <$> reqs) (zeros (length reqs) vocab));
  _cumulate_output_tokens output_ids s :=
    c ← scatter fadd (cumulated_frequency_penalties s) ((λ t, [t]) <$> output_ids) (frequency_penalties s);
    Ok (MkFrequency (frequency_penalties s) c);
  _apply logits s := rowwise (same_shape fsub) logits (cumulated_frequency_penalties s);
  _filter keep s :=
    p ← index_rows keep (frequency_penalties s);
    c ← index_rows keep (cumulated_frequency_penalties s);
    Ok (MkFrequency p c);
  _merge s t := MkFrequency (frequency_penalties s ++ frequency_penalties t)
                  (cumulated_frequency_penalties s ++ cumulated_frequency_penalties t);
  pz_row x l := if neq0 (frequency_penalty (sampling_params x.1))
                then imap (λ v y, fsub y (freq_cum (freq_of x.1) x.2 v)) l else l;
  pz_ok vocab s rows := s = MkFrequency ((λ x : row, freq_of x.1) <$> rows)
                              ((λ x : row, tab vocab (freq_cum (freq_of x.1) x.2)) <$> rows)
|}.

#[local] Instance presence_penalizer : Penalizer F Presence := {|
  _is_required reqs := existsb (λ r, neq0 (presence_penalty (sampling_params r))) reqs;
  _prepare vocab reqs := Ok (MkPresence (pres_of <$> reqs) (zeros (length reqs) vocab));
  _cumulate_output_tokens output_ids s :=
    c ← scatter (λ _ p, p) (cumulated_presence_penalties s) ((λ t, [t]) <$> output_ids) (presence_penalties s);
    Ok (MkPresence (presence_penalties s) c);
  _apply logits s := rowwise (same_shape fsub) logits (cumulated_presence_penalties s);
  _filter keep s :=
    p ← index_rows keep (presence_penalties s);
    c ← index_rows keep (cumulated_presence_penalties s);
    Ok (MkPresence p c);
  _merge s t := MkPresence (presence_penalties s ++ presence_penalties t)
                  (cumulated_presence_penalties s ++ cumulated_presence_penalties t);
  pz_row x l := if neq0 (presence_penalty (sampling_params x.1))
                then imap (λ v y, fsub y (pres_cum (pres_of x.1) x.2 v)) l else l;
  pz_ok vocab s rows := s = MkPresence ((λ x : row, pres_of x.1) <$> rows)
                              ((λ x : row, tab vocab (pres_cum (pres_of x.1) x.2)) <$> rows)
|}.

(** *** [BatchedMinNewTokensPenalizer] *)

Record MinNew := MkMinNew {
  mn_min_new_tokens : list Z;
  stop_token_penalties : list (list F);
  len_output_tokens : list Z
}.

(** The stop tokens of one request; a request without tokenizer is an [AttributeError]. *)
Definition req_stop_ids (r : Req) : result (list Z) :=
  match tokenizer r with Some tk => Ok (stop_ids tk r) | None => Raise AttributeError end.

Fixpoint stop_ids_of (reqs : list Req) : result (list (list Z)) :=
  match reqs with
  | [] => Ok []
  | r :: reqs => i ← req_stop_ids r; is_ ← stop_ids_of reqs; Ok (i :: is_)
  end.

(** [pad_sequence(..., padding_value=vocab_size)]. *)
Definition max_len (ids : list (list Z)) : nat := foldr (λ i n, length i `max` n) 0 ids.
Definition pad_sequence (vocab : nat) (ids : list (list Z)) : list (list Z) :=
  (λ i, i ++ replicate (max_len ids - length i) (Z.of_nat vocab)) <$> ids.

Definition add_masked (lens_min : Z * Z) (stops l : list F) : result (list F) :=
  if bool_decide (lens_min.1 < lens_min.2)%Z then same_shape fadd l stops else Ok l.

(** A stop token is at minus infinity until enough tokens are out. *)
Definition min_new_row (x : row) (l : list F) : list F :=
  if bool_decide (Z.of_nat (length x.2) < min_new_tokens (sampling_params x.1))%Z then
    match tokenizer x.1 with
    | Some tk => imap (λ v y, fadd y (if bool_decide (Z.of_nat v ∈ stop_ids tk x.1) then fadd fzero ninf else fzero)) l
    | None => l
    end
  else l.

Definition stop_row (vocab : nat) (r : Req) : list F :=
  match tokenizer r with
  | Some tk => tab vocab (λ v, if bool_decide (Z.of_nat v ∈ stop_ids tk r) then fadd fzero ninf else fzero)
  | None => []
  end.

#[local] Instance min_new_penalizer : Penalizer F MinNew := {|
  _is_required reqs := existsb (λ r, bool_decide (0 < min_new_tokens (sampling_params r))%Z) reqs;
  _prepare vocab reqs :=
    ids ← stop_ids_of reqs;
    let padded := pad_sequence vocab ids in
    s ← scatter fadd (zeros (length reqs) (S vocab)) padded (replicate (length reqs) ninf);
    Ok (MkMinNew ((λ r, min_new_tokens (sampling_params r)) <$> reqs) (take vocab <$> s)
          (replicate (length reqs) 0%Z));
  _cumulate_output_tokens output_ids s :=
    Ok (MkMinNew (mn_min_new_tokens s) (stop_token_penalties s) (Z.succ <$> len_output_tokens s));
  _apply logits s :=
    rowwise (λ l m, add_masked m.1 m.2 l) logits
      (zip (zip (len_output_tokens s) (mn_min_new_tokens s)) (stop_token_penalties s));
  _filter keep s :=
    m ← index_rows keep (mn_min_new_tokens s);
    p ← index_rows keep (stop_token_penalties s);
    n ← index_rows keep (len_output_tokens s);
    Ok (MkMinNew m p n);
  _merge s t := MkMinNew (mn_min_new_tokens s ++ mn_min_new_tokens t)
                  (stop_token_penalties s ++ stop_token_penalties t)
                  (len_output_tokens s ++ len_output_tokens t);
  pz_row := min_new_row;
  pz_ok vocab s rows := ∃ lens, s = MkMinNew ((λ x : row, min_new_tokens (sampling_params x.1)) <$> rows)
                                      ((λ x : row, stop_row vocab x.1) <$> rows) lens ∧
    Forall2 (λ (x : row) n, (0 ≤ n)%Z ∧
      ((0 < min_new_tokens (sampling_params x.1))%Z → n = Z.of_nat (length x.2))) rows lens
|}.

(** *** Laws

    Of float arithmetic only that zero is neutral where a request without penalty shares a
    tensor with others. *)

Hypothesis f32_zero : ∀ p, neq0 p = false → f32 p = fzero.
Hypothesis fadd_zero : fadd fzero fzero = fzero.
Hypothesis fsub_zero : ∀ y, fsub y fzero = y.

Lemma freq_cum_zero h v : freq_cum fzero h v = fzero.
Proof.
  unfold freq_cum. generalize (count_occ Z.eq_dec h (Z.of_nat v)). clear f32_zero.
  induction n as [|n IH]; simpl; [done|]. by rewrite IH.
Qed.

Lemma pres_cum_zero h v : pres_cum fzero h v = fzero.
Proof. unfold pres_cum. by case_bool_decide. Qed.

Lemma freq_cum_snoc p h t v : freq_cum p (h ++ [t]) v =
  if decide (t = Z.of_nat v) then fadd (freq_cum p h v) p else freq_cum p h v.
Proof.
  unfold freq_cum. rewrite count_occ_app, Nat.add_comm. cbn [count_occ].
  case_decide; destruct (Z.eq_dec t (Z.of_nat v)); done.
Qed.

Lemma pres_cum_snoc p h t v : pres_cum p (h ++ [t]) v = if decide (t = Z.of_nat v) then p else pres_cum p h v.
Proof.
  unfold pres_cum. case_decide as E.
  - rewrite bool_decide_eq_true_2; [done|]. apply elem_of_app. right. rewrite E. by apply list_elem_of_singleton.
  - assert (Z.of_nat v ∈ h ++ [t] ↔ Z.of_nat v ∈ h) as H.
    { rewrite elem_of_app, list_elem_of_singleton. naive_solver. }
    by rewrite (bool_decide_ext _ _ H).
Qed.

(** Rows of zeros, for fresh requests and for those without penalty. *)
Lemma zeros_rows (G : row → nat → F) vocab rows :
  (∀ x v, x ∈ rows → G x v = fzero) → zeros (length rows) vocab = (λ x, tab vocab (G x)) <$> rows.
Proof.
  unfold zeros. rewrite (tab_replicate vocab). induction rows as [|x rows IH]; intros HG; simpl; [done|]. f_equal.
  - apply list_fmap_ext. intros _ v _. symmetry. apply HG. left.
  - apply IH. intros; apply HG; by right.
Qed.

Lemma imap_id_row (l : list F) g : (∀ v, g v = fzero) → imap (λ v y, fsub y (g v)) l = l.
Proof.
  intros Hg. apply list_eq. intros v. rewrite list_lookup_imap.
  destruct (l !! v); simpl; [|done]. by rewrite Hg, fsub_zero.
Qed.

(** Subtracting a tensor row by row. *)
Lemma sub_rows (G : row → nat → F) (h : row → list F → list F) vocab rows logits :
  length logits = length rows → Forall (λ l, length l = vocab) logits →
  (∀ x l, x ∈ rows → h x l = imap (λ v y, fsub y (G x v)) l) →
  rowwise (same_shape fsub) logits ((λ x, tab vocab (G x)) <$> rows) = Ok (zip_with h rows logits).
Proof.
  intros Hl Hv Hh. apply rowwise_tab; [done|]. intros x l Hx Hin. rewrite Forall_forall in Hv.
  unfold same_shape. rewrite tab_length, bool_decide_eq_true_2 by (by apply Hv).
  rewrite Hh by done. by rewrite zip_with_tab by (by apply Hv).
Qed.

#[local] Instance frequency_laws : PenalizerLaws F Frequency.
Proof.
  split; simpl.
  - intros vocab rows _ Hr. eexists. split; [done|]. f_equal.
    + by rewrite <- list_fmap_compose.
    + rewrite length_fmap. apply zeros_rows. intros x v Hx.
      destruct (Hr x Hx) as [->|Hq]; [done|]. rewrite orb_false_r in Hq.
      unfold freq_of. rewrite f32_zero by done. apply freq_cum_zero.
  - intros vocab s rows toks _ -> Hl Ht. simpl.
    rewrite (scatter_tab fadd vocab _ (λ x : row, freq_of x.1)) by done. cbn [mbind result_bind].
    eexists. split; [done|]. f_equal.
    + rewrite (fmap_zip_with _ _ (λ x _, freq_of x.1)) by done. by rewrite (zip_with_fst (λ x : row, freq_of x.1)).
    + rewrite (fmap_zip_with _ _ (λ (x : row) t, tab vocab (freq_cum (freq_of x.1) (x.2 ++ [t])))) by done.
      apply zip_with_ext; [|done|done]. intros x t. apply list_fmap_ext. intros _ v _. symmetry. apply freq_cum_snoc.
  - intros vocab s rows logits _ -> Hl Hv. simpl. apply (sub_rows (λ x, freq_cum (freq_of x.1) x.2)); [done..|].
    intros x l _. destruct (neq0 _) eqn:E; [done|]. symmetry. apply imap_id_row. intros v.
    unfold freq_of. rewrite f32_zero by done. apply freq_cum_zero.
  - intros vocab s rows keep rows' -> Hk. simpl. rewrite !(index_rows_fmap _ _ _ _ Hk).
    cbn [mbind result_bind]. by eexists.
  - intros vocab s1 s2 rows1 rows2 -> ->. simpl. by rewrite !fmap_app.
  - intros reqs. induction reqs as [|r reqs IH]; simpl; [done|]. by rewrite IH, orb_false_r.
  - intros x l. rewrite orb_false_r. by intros ->.
  - intros x l. case_match; [by rewrite length_imap|done].
  - intros vocab s rows rows' HF ->. f_equal; symmetry; (eapply same_row_fmap; [|exact HF]); intros x x' [[E1 E2] E3];
      unfold freq_of; by rewrite E1, ?E3.
  - intros r r' [E _]. by rewrite E.
Qed.

#[local] Instance presence_laws : PenalizerLaws F Presence.
Proof.
  split; simpl.
  - intros vocab rows _ Hr. eexists. split; [done|]. f_equal.
    + by rewrite <- list_fmap_compose.
    + rewrite length_fmap. apply zeros_rows. intros x v Hx.
      destruct (Hr x Hx) as [->|Hq]; [done|]. rewrite orb_false_r in Hq.
      unfold pres_of. rewrite f32_zero by done. apply pres_cum_zero.
  - intros vocab s rows toks _ -> Hl Ht. simpl.
    rewrite (scatter_tab (λ _ p, p) vocab _ (λ x : row, pres_of x.1)) by done. cbn [mbind result_bind].
    eexists. split; [done|]. f_equal.
    + rewrite (fmap_zip_with _ _ (λ x _, pres_of x.1)) by done. by rewrite (zip_with_fst (λ x : row, pres_of x.1)).
    + rewrite (fmap_zip_with _ _ (λ (x : row) t, tab vocab (pres_cum (pres_of x.1) (x.2 ++ [t])))) by done.
      apply zip_with_ext; [|done|done]. intros x t. apply list_fmap_ext. intros _ v _. symmetry. apply pres_cum_snoc.
  - intros vocab s rows logits _ -> Hl Hv. simpl. apply (sub_rows (λ x, pres_cum (pres_of x.1) x.2)); [done..|].
    intros x l _. destruct (neq0 _) eqn:E; [done|]. symmetry. apply imap_id_row. intros v.
    unfold pres_of. rewrite f32_zero by done. apply pres_cum_zero.
  - intros vocab s rows keep rows' -> Hk. simpl. rewrite !(index_rows_fmap _ _ _ _ Hk).
    cbn [mbind result_bind]. by eexists.
  - intros vocab s1 s2 rows1 rows2 -> ->. simpl. by rewrite !fmap_app.
  - intros reqs. induction reqs as [|r reqs IH]; simpl; [done|]. by rewrite IH, orb_false_r.
  - intros x l. rewrite orb_false_r. by intros ->.
  - intros x l. case_match; [by rewrite length_imap|done].
  - intros vocab s rows rows' HF ->. f_equal; symmetry; (eapply same_row_fmap; [|exact HF]); intros x x' [[E1 E2] E3];
      unfold pres_of; by rewrite E1, ?E3.
  - intros r r' [E _]. by rewrite E.
Qed.

(** The stop row of one request. *)
Lemma padded_row vocab ids k : NoDup ids → (∀ t, t ∈ ids → token_in vocab t) →
  ∃ s, scatter_row fadd (replicate (S vocab) fzero) (ids ++ replicate k (Z.of_nat vocab)) ninf = Ok s ∧
    take vocab s = tab vocab (λ v, if bool_decide (Z.of_nat v ∈ ids) then fadd fzero ninf else fzero).
Proof.
  intros Hnd Hin. rewrite tab_replicate, scatter_row_tab.
  2: { apply Forall_app. split; rewrite Forall_forall; unfold token_in in *.
       - intros t Ht%Hin. lia.
       - intros t (-> & _)%elem_of_replicate. lia. }
  eexists. split; [done|]. apply list_eq. intros v.
  destruct (decide (v < vocab)) as [Hv|Hv].
  2: { rewrite lookup_take_ge, tab_lookup, decide_False by lia. done. }
  rewrite lookup_take_lt, !tab_lookup, !decide_True by lia. f_equal. rewrite count_occ_app.
  replace (count_occ Z.eq_dec (replicate k (Z.of_nat vocab)) (Z.of_nat v)) with 0.
  2: { symmetry. apply count_occ_not_In. rewrite <- list_elem_of_In. intros (E & _)%elem_of_replicate. lia. }
  rewrite Nat.add_0_r. case_bool_decide as E.
  - replace (count_occ Z.eq_dec ids (Z.of_nat v)) with 1; [done|].
    apply list_elem_of_In in E. apply (count_occ_In Z.eq_dec) in E.
    apply NoDup_ListNoDup in Hnd. rewrite (NoDup_count_occ Z.eq_dec) in Hnd. specialize (Hnd (Z.of_nat v)). lia.
  - replace (count_occ Z.eq_dec ids (Z.of_nat v)) with 0; [done|].
    symmetry. apply count_occ_not_In. by rewrite <- list_elem_of_In.
Qed.

Lemma prepare_stop_rows vocab rows : Forall (row_fits vocab) rows →
  ∃ ids, stop_ids_of (fst <$> rows) = Ok ids ∧ ∀ m,
    ∃ s, scatter fadd (zeros (length rows) (S vocab))
           ((λ i, i ++ replicate (m - length i) (Z.of_nat vocab)) <$> ids) (replicate (length rows) ninf) = Ok s ∧
      take vocab <$> s = (λ x : row, stop_row vocab x.1) <$> rows.
Proof.
  induction 1 as [|x rows [(tk & Htk & Hin) _] Hf IH].
  { exists []. split; [done|]. intros m. by exists []. }
  destruct IH as (ids & E & Hs). exists (stop_ids tk x.1 :: ids). split.
  { rewrite fmap_cons. cbn [stop_ids_of]. unfold req_stop_ids. rewrite Htk. cbn [mbind result_bind]. by rewrite E. }
  intros m. destruct (Hs m) as (s & Es & Et).
  destruct (padded_row vocab (stop_ids tk x.1) (m - length (stop_ids tk x.1))) as (s0 & E0 & Et0);
    [apply NoDup_remove_dups|done|].
  exists (s0 :: s). rewrite fmap_cons. unfold zeros in *. cbn [length]. rewrite !(replicate_S (length rows)).
  cbn [scatter]. rewrite E0. cbn [mbind result_bind].
  rewrite Es. cbn [mbind result_bind]. split; [done|]. rewrite !fmap_cons. f_equal; [|exact Et].
  rewrite Et0. unfold stop_row. by rewrite Htk.
Qed.

Lemma add_masked_row vocab (x : row) n l : row_fits vocab x → length l = vocab → (0 ≤ n)%Z →
  ((0 < min_new_tokens (sampling_params x.1))%Z → n = Z.of_nat (length x.2)) →
  add_masked (n, min_new_tokens (sampling_params x.1)) (stop_row vocab x.1) l = Ok (min_new_row x l).
Proof.
  intros [(tk & Htk & _) _] Hl H0 Hn. unfold add_masked, min_new_row, stop_row. simpl. rewrite Htk.
  case_bool_decide as E.
  - rewrite Hn in E by lia. rewrite bool_decide_eq_true_2 by done.
    unfold same_shape. rewrite tab_length, bool_decide_eq_true_2 by done. by rewrite zip_with_tab.
  - rewrite bool_decide_eq_false_2; [done|]. intros Hlt.
    rewrite Hn in E; [done|]. pose proof (Nat2Z.is_nonneg (length x.2)). lia.
Qed.

#[local] Instance min_new_laws : PenalizerLaws F MinNew.
Proof.
  split; simpl.
  - intros vocab rows Hf Hr. destruct (prepare_stop_rows vocab rows Hf) as (ids & -> & Hs).
    cbn [mbind result_bind]. rewrite length_fmap. unfold pad_sequence.
    destruct (Hs (max_len ids)) as (s & Es & Et). rewrite Es. cbn [mbind result_bind].
    eexists. split; [done|]. exists (replicate (length rows) 0%Z). split.
    + f_equal; [|exact Et]. change ((λ r, min_new_tokens (sampling_params r)) <$> (fst <$> rows) =
        (λ x : row, min_new_tokens (sampling_params x.1)) <$> rows). by rewrite <- list_fmap_compose.
    + clear -Hr. induction rows as [|x rows IH]; simpl; constructor.
      * split; [done|]. intros Hm. destruct (Hr x ltac:(left)) as [->|Hq]; [done|].
        rewrite orb_false_r in Hq. apply bool_decide_eq_false in Hq. done.
      * apply IH. intros; apply Hr; by right.
  - intros vocab s rows toks _ (lens & -> & Hl) Hlen Ht. eexists. split; [done|]. simpl.
    exists (Z.succ <$> lens). split.
    + f_equal.
      * rewrite (fmap_zip_with _ _ (λ x _, min_new_tokens (sampling_params x.1))) by done.
        by rewrite (zip_with_fst (λ x : row, min_new_tokens (sampling_params x.1))).
      * rewrite (fmap_zip_with _ _ (λ x _, stop_row vocab x.1)) by done.
        by rewrite (zip_with_fst (λ x : row, stop_row vocab x.1)).
    + clear Ht. revert toks Hlen. induction Hl as [|x n rows lens [H0 Hx] Hl IH]; intros [|t toks] Hlen; try done. simpl. constructor; [|apply IH; by injection Hlen].
      simpl. split; [lia|]. intros Hm. rewrite length_app, (Hx Hm). simpl. lia.
  - intros vocab s rows logits Hf (lens & -> & Hl) Hlen Hv. simpl. clear f32_zero fadd_zero fsub_zero.
    revert logits Hlen Hv. induction Hl as [|x n rows lens [H0 Hx] Hl IH]; intros [|l logits] Hlen Hv; try done.
    inversion Hf; inversion Hv; subst. simpl.
    change ((0 ≤ n)%Z) in H0. rewrite (add_masked_row (length l) x n l) by done. cbn [mbind result_bind].
    rewrite IH; [done|done|by injection Hlen|done].
  - intros vocab s rows keep rows' (lens & -> & Hl) Hk. simpl. rewrite !(index_rows_fmap _ _ _ _ Hk).
    cbn [mbind result_bind]. apply mapM_Some in Hk.
    assert (∃ lens', mapM (λ i, lens !! i) keep = Some lens' ∧ Forall2 (λ (x : row) n, (0 ≤ n)%Z ∧
      ((0 < min_new_tokens (sampling_params x.1))%Z → n = Z.of_nat (length x.2))) rows' lens') as (lens' & E & Hl').
    { induction Hk as [|i x keep rows' Hi Hk IH]; [by exists []; split; [|constructor]|].
      destruct IH as (lens' & E & Hl'). destruct (Forall2_lookup_l _ _ _ _ _ Hl Hi) as (n & Hn & Hxn).
      exists (n :: lens'). simpl. rewrite Hn. simpl. rewrite E. split; [done|by constructor]. }
    unfold index_rows at 1. rewrite E. eexists. split; [done|]. by exists lens'.
  - intros vocab s1 s2 rows1 rows2 (l1 & -> & H1) (l2 & -> & H2). exists (l1 ++ l2). simpl. rewrite !fmap_app.
    split; [done|]. by apply Forall2_app.
  - intros reqs. induction reqs as [|r reqs IH]; simpl; [done|]. by rewrite IH, orb_false_r.
  - intros x l. rewrite orb_false_r. intros Hq%bool_decide_eq_false. unfold min_new_row.
    rewrite bool_decide_eq_false_2; [done|]. pose proof (Nat2Z.is_nonneg (length x.2)). lia.
  - intros x l. unfold min_new_row. case_bool_decide; [|done]. case_match; [by rewrite length_imap|done].
  - intros vocab s rows rows' HF (lens & -> & Hl). exists lens. split.
    + f_equal; symmetry; (eapply same_row_fmap; [|exact HF]); intros x x' [[E1 E2] E3];
        unfold stop_row, stop_ids; by rewrite E1, ?E2.
    + revert rows' HF. induction Hl as [|x n rows lens Hx Hl IH]; intros rows' HF; inversion HF as [|? x' ? ? [[E _] E3]]; subst;
        constructor; [by rewrite E, E3|by apply IH].
  - intros r r' [E _]. by rewrite E.
Qed.

(** ** [BatchedPenalizerOrchestrator] *)

Inductive Kind := FREQUENCY | MIN_NEW_TOKENS | PRESENCE.

(** [order]: the order of the [penalizers] dict, which is built from a set of classes. The
    batch's requests are an argument of the methods that call [reqs()]. *)
Record Orchestrator := MkOrch {
  vocab_size : nat;
  order : list Kind;
  frequency : option Frequency;
  min_new : option MinNew;
  presence : option Presence;
  orch_is_required : bool
}.

Definition new_Orchestrator (vocab : nat) (order : list Kind) (reqs : list Req) : result Orchestrator :=
  '(b1, f) ← prepare_if_required vocab reqs None;
  '(b2, m) ← prepare_if_required vocab reqs None;
  '(b3, p) ← prepare_if_required vocab reqs None;
  Ok (MkOrch vocab order f m p (b1 || b2 || b3)).

Definition orch_cumulate_output_tokens (toks : list Z) (o : Orchestrator) : result Orchestrator :=
  f ← cumulate_output_tokens toks (frequency o);
  m ← cumulate_output_tokens toks (min_new o);
  p ← cumulate_output_tokens toks (presence o);
  Ok (MkOrch (vocab_size o) (order o) f m p (orch_is_required o)).

Definition apply_kind (o : Orchestrator) (k : Kind) (logits : list (list F)) : result (list (list F)) :=
  match k with
  | FREQUENCY => pen_apply (frequency o) logits
  | MIN_NEW_TOKENS => pen_apply (min_new o) logits
  | PRESENCE => pen_apply (presence o) logits
  end.

Fixpoint apply_kinds (o : Orchestrator) (ks : list Kind) (logits : list (list F)) : result (list (list F)) :=
  match ks with
  | [] => Ok logits
  | k :: ks => logits ← apply_kind o k logits; apply_kinds o ks logits
  end.

Definition orch_apply (o : Orchestrator) : list (list F) → result (list (list F)) := apply_kinds o (order o).

(** [reqs]: the batch's requests, which [filter_batch] has filtered already. *)
Definition orch_filter (keep : list nat) (reqs : list Req) (o : Orchestrator) : result Orchestrator :=
  if negb (orch_is_required o) then Ok o
  else if bool_decide (keep = []) then
    Ok (MkOrch (vocab_size o) (order o) (teardown (frequency o)) (teardown (min_new o))
          (teardown (presence o)) false)
  else
    '(b1, f) ← filter_turn keep reqs (frequency o);
    '(b2, m) ← filter_turn keep reqs (min_new o);
    '(b3, p) ← filter_turn keep reqs (presence o);
    Ok (MkOrch (vocab_size o) (order o) f m p (b1 || b2 || b3)).

(** Merging prepares the penalizers of the other orchestrator too: both are results. *)
Definition orch_merge (reqs reqs' : list Req) (o o' : Orchestrator) : result (Orchestrator * Orchestrator) :=
  if negb (orch_is_required o) && negb (orch_is_required o') then Ok (o, o')
  else
    '(f, f') ← pen_merge (vocab_size o) (vocab_size o') reqs reqs' (frequency o) (frequency o');
    '(m, m') ← pen_merge (vocab_size o) (vocab_size o') reqs reqs' (min_new o) (min_new o');
    '(p, p') ← pen_merge (vocab_size o) (vocab_size o') reqs reqs' (presence o) (presence o');
    Ok (MkOrch (vocab_size o) (order o) f m p true,
        MkOrch (vocab_size o') (order o') f' m' p' (orch_is_required o')).

(** *** What every row gets *)

Definition row_penalty (ks : list Kind) (x : row) (l : list F) : list F :=
  foldl (λ l k, match k with
                | FREQUENCY => pz_row (S := Frequency) x l
                | MIN_NEW_TOKENS => pz_row (S := MinNew) x l
                | PRESENCE => pz_row (S := Presence) x l
                end) l ks.

(** The penalizers describe the rows of the batch. *)
Record orch_ok (vocab : nat) (ks : list Kind) (o : Orchestrator) (rows : list row) : Prop := {
  oo_vocab : vocab_size o = vocab;
  oo_order : order o = ks;
  oo_fits : Forall (row_fits vocab) rows;
  oo_freq : pen_ok vocab (frequency o) rows;
  oo_min : pen_ok vocab (min_new o) rows;
  oo_pres : pen_ok vocab (presence o) rows;
  oo_idle : orch_is_required o = false → frequency o = None ∧ min_new o = None ∧ presence o = None
}.

Lemma orch_ok_same vocab ks o rows rows' : Forall2 same_row rows rows' → orch_ok vocab ks o rows → orch_ok vocab ks o rows'.
Proof.
  intros HF [H1 H2 H3 H4 H5 H6 H7]. split; try done; try (by eapply pen_ok_same).
  clear -HF H3. induction HF as [|x x' rows rows' Hx _ IH]; [done|]. apply Forall_cons in H3 as [Hf H3].
  constructor; [by eapply row_fits_same|by apply IH].
Qed.

Lemma orch_new_ok vocab ks reqs : Forall (row_fits vocab) (new_row <$> reqs) →
  ∃ o, new_Orchestrator vocab ks reqs = Ok o ∧ orch_ok vocab ks o (new_row <$> reqs).
Proof.
  intros Hf. unfold new_Orchestrator.
  destruct (prepare_new (S := Frequency) vocab reqs Hf) as (b1 & f & -> & Ho1 & H1).
  destruct (prepare_new (S := MinNew) vocab reqs Hf) as (b2 & m & -> & Ho2 & H2).
  destruct (prepare_new (S := Presence) vocab reqs Hf) as (b3 & p & -> & Ho3 & H3).
  cbn [mbind result_bind]. eexists. split; [done|]. split; try done.
  simpl. intros [[? ?]%orb_false_iff ?]%orb_false_iff. auto.
Qed.

Lemma orch_cumulate_ok vocab ks o rows toks : orch_ok vocab ks o rows →
  length toks = length rows → Forall (token_in vocab) toks →
  ∃ o', orch_cumulate_output_tokens toks o = Ok o' ∧
    orch_ok vocab ks o' (zip_with (λ x t, (x.1, x.2 ++ [t])) rows toks).
Proof.
  intros [Hv Hk Hf Ho1 Ho2 Ho3 Hi] Hl Ht. unfold orch_cumulate_output_tokens.
  destruct (cumulate_ok vocab rows toks (frequency o) Hf Ho1 Hl Ht) as (f & -> & Hf1 & H1).
  destruct (cumulate_ok vocab rows toks (min_new o) Hf Ho2 Hl Ht) as (m & -> & Hm1 & H2).
  destruct (cumulate_ok vocab rows toks (presence o) Hf Ho3 Hl Ht) as (p & -> & Hp1 & H3).
  cbn [mbind result_bind]. eexists. split; [done|]. split; try done.
  - clear Ho1 Ho2 Ho3 Hf1 Hm1 Hp1. revert rows Hl Hf. induction Ht as [|t toks Ht0 Ht IH]; intros [|x rows] Hl Hf; try done. inversion Hf as [|? ? [Hx Hh]]; subst. simpl. constructor; [|apply IH; [by injection Hl|done]].
    split; [done|]. simpl. intros t' [?| ->%list_elem_of_singleton]%elem_of_app; [by apply Hh|done].
  - simpl. intros (? & ? & ?)%Hi. auto.
Qed.

Lemma orch_filter_ok vocab ks o rows rows' keep : orch_ok vocab ks o rows →
  mapM (λ i, rows !! i) keep = Some rows' →
  ∃ o', orch_filter keep (fst <$> rows') o = Ok o' ∧ orch_ok vocab ks o' rows'.
Proof.
  intros [Hv Hk Hf Ho1 Ho2 Ho3 Hi] Hkeep. unfold orch_filter.
  assert (Hf' : Forall (row_fits vocab) rows').
  { apply mapM_Some in Hkeep. rewrite Forall_forall in *. intros x [i Hx]%list_elem_of_lookup.
    destruct (Forall2_lookup_r _ _ _ _ _ Hkeep Hx) as (j & _ & Hj). apply Hf. by eapply list_elem_of_lookup_2. }
  destruct (filter_ok vocab rows rows' keep (frequency o) Ho1 Hkeep) as (b1 & f & E1 & Hf1 & H1).
  destruct (filter_ok vocab rows rows' keep (min_new o) Ho2 Hkeep) as (b2 & m & E2 & Hm1 & H2).
  destruct (filter_ok vocab rows rows' keep (presence o) Ho3 Hkeep) as (b3 & p & E3 & Hp1 & H3).
  destruct (orch_is_required o) eqn:Hr; simpl.
  - case_bool_decide as Hnil.
    { subst keep. simpl in Hkeep. injection Hkeep as <-. eexists. split; [done|]. by split. }
    rewrite E1, E2, E3. cbn [mbind result_bind]. eexists. split; [done|]. split; try done.
    simpl. intros [[? ?]%orb_false_iff ?]%orb_false_iff. auto.
  - destruct (Hi eq_refl) as (F0 & M0 & P0). rewrite F0, M0, P0 in *. exists o. split; [done|].
    split; rewrite ?F0, ?M0, ?P0; try done; by apply (filter_idle vocab rows rows' keep).
Qed.

Lemma orch_merge_ok vocab ks ks' o o' rows rows' : orch_ok vocab ks o rows → orch_ok vocab ks' o' rows' →
  ∃ o2 o3, orch_merge (fst <$> rows) (fst <$> rows') o o' = Ok (o2, o3) ∧ orch_ok vocab ks o2 (rows ++ rows').
Proof.
  intros [Hv Hk Hf Ho1 Ho2 Ho3 Hi] [Hv' Hk' Hf' Ho1' Ho2' Ho3' Hi']. unfold orch_merge. rewrite Hv, Hv'.
  destruct (merge_ok vocab rows rows' _ _ Hf Hf' Ho1 Ho1') as (f & f' & E1 & H1).
  destruct (merge_ok vocab rows rows' _ _ Hf Hf' Ho2 Ho2') as (m & m' & E2 & H2).
  destruct (merge_ok vocab rows rows' _ _ Hf Hf' Ho3 Ho3') as (p & p' & E3 & H3).
  rewrite E1, E2, E3. cbn [mbind result_bind].
  destruct (negb (orch_is_required o) && negb (orch_is_required o')) eqn:Hr.
  - apply andb_true_iff in Hr as [?%negb_true_iff ?%negb_true_iff].
    destruct Hi as (F0 & M0 & P0); [done|]. destruct Hi' as (F0' & M0' & P0'); [done|].
    rewrite F0, F0', M0, M0', P0, P0' in *. simpl in E1, E2, E3. simplify_eq.
    exists o, o'. split; [done|]. split; rewrite ?F0, ?M0, ?P0; try done. by apply Forall_app.
  - eexists _, _. split; [done|]. split; try done. by apply Forall_app.
Qed.

Lemma zip_with_compose {A B} (f g : A → B → B) xs ys :
  zip_with g xs (zip_with f xs ys) = zip_with (λ x y, g x (f x y)) xs ys.
Proof. revert ys. induction xs as [|x xs IH]; intros [|y ys]; simpl; [done..|]. by rewrite IH. Qed.

Lemma apply_kinds_ok vocab ks o rows l : orch_ok vocab l o rows → ∀ logits,
  length logits = length rows → Forall (λ r, length r = vocab) logits →
  apply_kinds o ks logits = Ok (zip_with (row_penalty ks) rows logits).
Proof.
  intros [Hv Hk Hf Ho1 Ho2 Ho3 Hi]. induction ks as [|k ks IH]; intros logits Hl Hlen.
  { simpl. f_equal. clear -Hl. revert rows Hl. induction logits as [|y ys IH]; intros [|x xs] Hl; try done.
    simpl. by rewrite <- IH by (by injection Hl). }
  assert (∃ h, apply_kind o k logits = Ok (zip_with h rows logits) ∧ (∀ x y, length (h x y) = length y) ∧
            ∀ x y, row_penalty (k :: ks) x y = row_penalty ks x (h x y)) as (h & Ha & Hh & Hr).
  { destruct k; simpl apply_kind.
    - exists (pz_row (S := Frequency)). split; [by apply (apply_ok vocab)|]. split; [apply pz_length|done].
    - exists (pz_row (S := MinNew)). split; [by apply (apply_ok vocab)|]. split; [apply pz_length|done].
    - exists (pz_row (S := Presence)). split; [by apply (apply_ok vocab)|]. split; [apply pz_length|done]. }
  cbn [apply_kinds]. rewrite Ha. cbn [mbind result_bind]. rewrite IH.
  - rewrite zip_with_compose. f_equal. apply zip_with_ext; [|done|done]. intros x y. by rewrite Hr.
  - rewrite length_zip_with. lia.
  - eapply Forall_zip_right; [|exact Hlen]. intros x y Hy. simpl. by rewrite Hh.
Qed.

(** The orchestrators a scheduler can reach, and the rows of their batch with the tokens
    fed so far. *)
Inductive orch_reach (vocab : nat) (ks : list Kind) : Orchestrator → list row → Prop :=
  | reach_new reqs o :
      Forall (row_fits vocab) (new_row <$> reqs) → new_Orchestrator vocab ks reqs = Ok o →
      orch_reach vocab ks o (new_row <$> reqs)
  | reach_cumulate o rows toks o' :
      orch_reach vocab ks o rows → length toks = length rows → Forall (token_in vocab) toks →
      orch_cumulate_output_tokens toks o = Ok o' →
      orch_reach vocab ks o' (zip_with (λ x t, (x.1, x.2 ++ [t])) rows toks)
  | reach_filter o rows keep rows' o' :
      orch_reach vocab ks o rows → mapM (λ i, rows !! i) keep = Some rows' →
      orch_filter keep (fst <$> rows') o = Ok o' → orch_reach vocab ks o' rows'
  | reach_merge o rows o' rows' o2 o3 :
      orch_reach vocab ks o rows → orch_reach vocab ks o' rows' →
      orch_merge (fst <$> rows) (fst <$> rows') o o' = Ok (o2, o3) →
      orch_reach vocab ks o2 (rows ++ rows').

Lemma reach_ok vocab ks o rows : orch_reach vocab ks o rows → orch_ok vocab ks o rows.
Proof.
  induction 1 as [reqs o Hf E|o rows toks o' _ IH Hl Ht E|o rows keep rows' o' _ IH Hk E
                 |o rows o' rows' o2 o3 _ IH1 _ IH2 E].
  - destruct (orch_new_ok vocab ks reqs Hf) as (o' & E' & Ho). congruence.
  - destruct (orch_cumulate_ok vocab ks o rows toks IH Hl Ht) as (o2 & E' & Ho). congruence.
  - destruct (orch_filter_ok vocab ks o rows rows' keep IH Hk) as (o2 & E' & Ho). congruence.
  - destruct (orch_merge_ok vocab ks ks o o' rows rows' IH1 IH2) as (o4 & o5 & E' & Ho). congruence.
Qed.


(** A request that was retracted after the output [output_ids r] and is prefilled again: its
    penalties are those of a request without output, although the documentation says that
    tokens are penalized by their frequency in the generation so far. *)
Theorem retracted_penalties_forgotten vocab ks r l : row_fits vocab (new_row r) → length l = vocab →
  ∃ o, new_Orchestrator vocab ks [reset_for_retract r] = Ok o ∧
    orch_apply o [l] = Ok [row_penalty ks (reset_for_retract r, []) l] ∧
    output_ids (reset_for_retract r) = output_ids r.
Proof.
  intros Hf Hl. destruct (orch_new_ok vocab ks [reset_for_retract r]) as (o & E & Ho).
  { constructor; [|constructor]. eapply row_fits_same; [|exact Hf]. done. }
  exists o. split; [done|]. split; [|done]. unfold orch_apply. rewrite (oo_order _ _ _ _ Ho).
  by rewrite (apply_kinds_ok vocab ks o _ ks Ho) by by repeat constructor.
Qed.

(** None of the operations fails on a reachable orchestrator: each returns a
    reachable one again. *)
Theorem penalty_operations_total vocab ks o rows : orch_reach vocab ks o rows →
  (∀ toks, length toks = length rows → Forall (token_in vocab) toks →
     ∃ o', orch_cumulate_output_tokens toks o = Ok o' ∧
       orch_reach vocab ks o' (zip_with (λ x t, (x.1, x.2 ++ [t])) rows toks)) ∧
  (∀ keep rows', mapM (λ i, rows !! i) keep = Some rows' →
     ∃ o', orch_filter keep (fst <$> rows') o = Ok o' ∧ orch_reach vocab ks o' rows') ∧
  (∀ o' rows', orch_reach vocab ks o' rows' →
     ∃ o2 o3, orch_merge (fst <$> rows) (fst <$> rows') o o' = Ok (o2, o3) ∧
       orch_reach vocab ks o2 (rows ++ rows')).
Proof.
  intros Hr. pose proof (reach_ok _ _ _ _ Hr) as Ho. split_and!.
  - intros toks Hl Ht. destruct (orch_cumulate_ok vocab ks o rows toks Ho Hl Ht) as (o' & E & _).
    exists o'. split; [done|]. by eapply reach_cumulate.
  - intros keep rows' Hk. destruct (orch_filter_ok vocab ks o rows rows' keep Ho Hk) as (o' & E & _).
    exists o'. split; [done|]. by eapply reach_filter.
  - intros o' rows' Hr'. destruct (orch_merge_ok vocab ks ks o o' rows rows' Ho (reach_ok _ _ _ _ Hr'))
      as (o2 & o3 & E & _). exists o2, o3. split; [done|]. by eapply reach_merge.
Qed.
End penalizers.

(** ** An instance

    Floats as integers, with a number that stands for minus infinity. *)

Definition ex_f32 (p : pyfloat) : Z := match p with Fin q => (Qnum q / Zpos (Qden q))%Z | _ => 0%Z end.

Lemma ex_f32_zero p : neq0 p = false → ex_f32 p = 0%Z.
Proof.
  destruct p as [[n d]| | |]; simpl; try done. rewrite negb_false_iff. intros H%Qeq_bool_iff.
  unfold Qeq in H. simpl in H. rewrite Z.mul_1_r in H. by rewrite H.
Qed.

Definition set_penalties f p m r := MkParams (max_new_tokens r) (stop_strs r) (stop_str_max_len r)
  (stop_token_ids r) (temperature r) (top_p r) (top_k r) (min_p r) f p
  (repetition_penalty r) m (regex r) (n_samples r) (json_schema r) (ebnf r)
  (ignore_eos r) (no_stop_trim r).

Definition ex_pen_req (f p : Z) (m : Z) : Req :=
  let r := ex_req 9 [1%Z] in
  MkReq (rid r) (origin_input_ids_unpadded r) (origin_input_ids r) (output_ids r) (fill_ids r)
    (set_penalties (Fin (inject_Z f)) (Fin (inject_Z p)) m (ex_params 9)) false 0 (eos_token_ids r) (Some ex_tokenizer)
    None None false None None None [] None [] 0 0 None 0 false None None 0 0 0 false 0 None false.

Lemma ex_pen_fits f p m : row_fits 8 (new_row (ex_pen_req f p m)).
Proof.
  split; [|by intros t ?%elem_of_nil]. exists ex_tokenizer. split; [done|]. intros t.
  change (stop_ids ex_tokenizer (new_row (ex_pen_req f p m)).1) with [7%Z; 0%Z].
  unfold token_in. intros [ ->|[ ->|?%elem_of_nil]%elem_of_cons]%elem_of_cons; [lia..|done].
Qed.

(** Two requests, of which only the first has penalties; the token [3] twice. *)
Definition ex_orch : result (Orchestrator (F := Z)) :=
  o ← new_Orchestrator 0%Z (-1000)%Z Z.add Z.sub ex_f32 8 [FREQUENCY; MIN_NEW_TOKENS; PRESENCE]
        [ex_pen_req 2 1 3; ex_pen_req 0 0 0];
  o ← orch_cumulate_output_tokens 0%Z (-1000)%Z Z.add Z.sub ex_f32 [3; 4]%Z o;
  orch_cumulate_output_tokens 0%Z (-1000)%Z Z.add Z.sub ex_f32 [3; 5]%Z o.

Lemma ex_orch_reach : ∃ o, ex_orch = Ok o ∧
  orch_reach 0%Z (-1000)%Z Z.add Z.sub ex_f32 8 [FREQUENCY; MIN_NEW_TOKENS; PRESENCE] o
    [(ex_pen_req 2 1 3, [3; 3]%Z); (ex_pen_req 0 0 0, [4; 5]%Z)].
Proof.
  set (ks := [FREQUENCY; MIN_NEW_TOKENS; PRESENCE]).
  set (reqs := [ex_pen_req 2 1 3; ex_pen_req 0 0 0]).
  assert (Hf : Forall (row_fits 8) (new_row <$> reqs)).
  { unfold reqs. rewrite !fmap_cons, !Forall_cons. split_and!; [apply ex_pen_fits..|constructor]. }
  assert (Htok : ∀ t : Z, (0 ≤ t < 8)%Z → token_in 8 t) by done.
  destruct (orch_new_ok 0%Z (-1000)%Z Z.add Z.sub ex_f32 ex_f32_zero eq_refl Z.sub_0_r 8 ks reqs Hf) as (o & E & _).
  pose proof (reach_new 0%Z (-1000)%Z Z.add Z.sub ex_f32 8 ks reqs o Hf E) as R0.
  destruct (orch_cumulate_ok 0%Z (-1000)%Z Z.add Z.sub ex_f32 ex_f32_zero eq_refl Z.sub_0_r 8 ks o _ [3; 4]%Z
    (reach_ok 0%Z (-1000)%Z Z.add Z.sub ex_f32 ex_f32_zero eq_refl Z.sub_0_r _ _ _ _ R0)) as (o1 & E1 & _); [done| |].
  { rewrite !Forall_cons, Forall_nil. split_and!; try done; apply Htok; lia. }
  epose proof (reach_cumulate 0%Z (-1000)%Z Z.add Z.sub ex_f32 8 ks o _ [3; 4]%Z o1 R0 eq_refl _ E1) as R1.
  destruct (orch_cumulate_ok 0%Z (-1000)%Z Z.add Z.sub ex_f32 ex_f32_zero eq_refl Z.sub_0_r 8 ks o1 _ [3; 5]%Z
    (reach_ok 0%Z (-1000)%Z Z.add Z.sub ex_f32 ex_f32_zero eq_refl Z.sub_0_r _ _ _ _ R1)) as (o2 & E2 & _); [done| |].
  { rewrite !Forall_cons, Forall_nil. split_and!; try done; apply Htok; lia. }
  epose proof (reach_cumulate 0%Z (-1000)%Z Z.add Z.sub ex_f32 8 ks o1 _ [3; 5]%Z o2 R1 eq_refl _ E2) as R2.
  exists o2. split; [|exact R2]. unfold ex_orch. fold ks reqs. rewrite E. cbn [mbind result_bind].
  rewrite E1. exact E2.
  Unshelve. all: rewrite !Forall_cons, Forall_nil; split_and!; try done; apply Htok; lia.
Qed.


(** The token [3] came out twice before the retraction: nothing is subtracted from it, and the
    stop tokens are masked for another three tokens, of which two were out already. *)
Example retracted_penalties_forgotten_witness :
  let r := set_output_ids [3; 3]%Z (ex_pen_req 2 1 3) in
  let ks := [FREQUENCY; MIN_NEW_TOKENS; PRESENCE] in
  (∃ o, new_Orchestrator 0%Z (-1000)%Z Z.add Z.sub ex_f32 8 ks [reset_for_retract r] = Ok o ∧
     orch_apply 0%Z (-1000)%Z Z.add Z.sub ex_f32 o [replicate 8 100]%Z =
       Ok [[-900; 100; 100; 100; 100; 100; 100; -900]]%Z) ∧
  row_penalty 0%Z (-1000)%Z Z.add Z.sub ex_f32 ks (r, output_ids r) (replicate 8 100%Z) =
    [-900; 100; 100; 95; 100; 100; 100; -900]%Z.
Proof.
  split; [|vm_compute; reflexivity].
  destruct (retracted_penalties_forgotten 0%Z (-1000)%Z Z.add Z.sub ex_f32 ex_f32_zero eq_refl Z.sub_0_r 8
    [FREQUENCY; MIN_NEW_TOKENS; PRESENCE] (set_output_ids [3; 3]%Z (ex_pen_req 2 1 3)) (replicate 8 100%Z))
    as (o & E & Ha & _); [apply (ex_pen_fits 2 1 3)|done|].
  exists o. split; [exact E|]. rewrite Ha. vm_compute. reflexivity.
Defined.

Lemma penalty_operations_total_witness : ∃ o o', ex_orch = Ok o ∧
  orch_filter 0%Z (-1000)%Z Z.add Z.sub ex_f32 [1] [ex_pen_req 0 0 0] o = Ok o' ∧
  orch_is_required o' = false.
Proof.
  destruct ex_orch_reach as (o & E & Hr). exists o.
  destruct (penalty_operations_total 0%Z (-1000)%Z Z.add Z.sub ex_f32 ex_f32_zero eq_refl Z.sub_0_r 8 _ o _ Hr)
    as (_ & H & _).
  destruct (H [1] [(ex_pen_req 0 0 0, [4; 5]%Z)] eq_refl) as (o' & E' & _).
  exists o'. split_and!; [exact E|exact E'|]. vm_compute in E. injection E as <-.
  vm_compute in E'. injection E' as <-. done.
Defined.
