(* ===== verification/BatchMem.v ===== *)
(** * The memory of a batch

    [src/python/sglang/srt/managers/schedule_batch.py]: how [ScheduleBatch] takes rows and
    token slots from the pools, evicting from the prefix cache when they run out, the check
    before a decode step, and the two kernels on the request table
    ([write_req_to_token_pool_triton], [get_last_loc]) with their reference versions. *)

From S2P Require Import Prelude PyStr Sampling HeapQ Radix RadixTree RadixUpdate RadixMatch RadixInv RadixSpec RadixLock RadixEvict RadixThms RadixLive Alloc PagedAlloc Req.

Open Scope nat_scope.

(** ** The pools *)

(** [token_to_kv_pool_allocator]: an allocator of single tokens or of pages. *)
Inductive Allocator := TokA (a : TokenToKVPoolAllocator) | PagedA (a : PagedAlloc).

(** [tree_cache]: a radix cache, or a [ChunkCache], which never evicts. *)
Inductive TreeCache := RadixC (c : RadixCache) | ChunkC.

Record Mem := MkMem { m_cache : TreeCache; m_rows : ReqToTokenPool; m_alloc : Allocator }.

Definition set_m_cache x m := MkMem x (m_rows m) (m_alloc m).
Definition set_m_rows x m := MkMem (m_cache m) x (m_alloc m).
Definition set_m_alloc x m := MkMem (m_cache m) (m_rows m) x.

Definition al_page_size (a : Allocator) : Z := match a with TokA _ => 1%Z | PagedA a => pa_page_size a end.
Definition al_available_size (a : Allocator) : Z :=
  match a with TokA a => Z.of_nat (ta_available_size a) | PagedA a => pa_available_size a end.
Definition al_backup_state (a : Allocator) : list Z :=
  match a with TokA a => ta_backup_state a | PagedA a => pa_backup_state a end.

Definition lift_paged {X} (r : result X * PagedAlloc) : result X * Allocator := (r.1, PagedA r.2).

Definition al_alloc (n : nat) (a : Allocator) : result (option (list Z)) * Allocator :=
  match a with
  | TokA a => let '(o, a) := ta_alloc n a in (Ok o, TokA a)
  | PagedA a => lift_paged (pa_alloc (Z.of_nat n) a)
  end.

Definition al_free (v : list Z) (a : Allocator) : result Allocator :=
  match a with
  | TokA a => Ok (TokA (ta_free v a))
  | PagedA a => match pa_free v a with (Ok _, a) => Ok (PagedA a) | (Raise e, _) => Raise e end
  end.

Section mem.
(** The hash of a tuple of tokens, the memory a kernel reads beyond its arguments or leaves
    unwritten, and the order the programs of a launch of [n] run in. *)
Context (tuple_hash : list Z → Z) (oob undef uninit : Z → Z) (order : nat → list Z).

(** Only the paged allocator has the methods for pages. *)
Definition al_alloc_extend (prefix_lens seq_lens last_loc : list Z) (n : Z) (a : Allocator)
    : result (option (list Z)) * Allocator :=
  match a with
  | TokA _ => (Raise AttributeError, a)
  | PagedA a =>
      lift_paged (pa_alloc_extend oob undef uninit (order (length prefix_lens)) prefix_lens seq_lens last_loc n a)
  end.

Definition al_alloc_decode (seq_lens last_loc : list Z) (a : Allocator)
    : result (option (list Z)) * Allocator :=
  match a with
  | TokA _ => (Raise AttributeError, a)
  | PagedA a => lift_paged (pa_alloc_decode oob undef uninit (order (length seq_lens)) seq_lens last_loc a)
  end.

(** [tree_cache.evict(n)]: the freed slots go to the allocator, whose errors end the call. *)
Definition cache_evict (n : Z) : M Mem unit := λ m,
  match m_cache m with
  | ChunkC => (Ok tt, m)
  | RadixC c =>
      match evict tuple_hash (λ v ra, a ← ra; al_free v a) n c (Ok (m_alloc m)) with
      | Some (c, Ok a) => (Ok tt, MkMem (RadixC c) (m_rows m) a)
      | Some (c, Raise e) => (Raise e, set_m_cache (RadixC c) m)
      | None => (Raise AttributeError, m)
      end
  end.

Definition available : M Mem Z := gets (λ m, al_available_size (m_alloc m)).

(** [allocator.alloc...] on the shared allocator; [None] is the [RuntimeError] of the callers. *)
Definition with_alloc (f : Allocator → result (option (list Z)) * Allocator) (msg : string) : M Mem (list Z) :=
  λ m, match f (m_alloc m) with
       | (Ok (Some out), a) => (Ok out, set_m_alloc a m)
       | (Ok None, a) => (Raise (RuntimeError msg), set_m_alloc a m)
       | (Raise e, a) => (Raise e, set_m_alloc a m)
       end.

Definition alloc_req_slots (num_reqs : nat) : M Mem (list nat) := λ m,
  match rp_alloc num_reqs (m_rows m) with
  | (Some rows, p) => (Ok rows, set_m_rows p m)
  | (None, p) => (Raise (RuntimeError "alloc_req_slots runs out of memory."), set_m_rows p m)
  end.

(** The results pair the slots with the state before the allocation, wanted or not. *)
Definition alloc_token_slots (num_tokens : nat) (backup_state : bool) : M Mem (list Z * option (list Z)) :=
  avail ← available;
  _ ← (if bool_decide (avail < Z.of_nat num_tokens)%Z then cache_evict (Z.of_nat num_tokens) else mret tt);
  state ← gets (λ m, if backup_state then Some (al_backup_state (m_alloc m)) else None);
  out_cache_loc ← with_alloc (al_alloc num_tokens) "out of memory. Try to lower your batch size.";
  mret (out_cache_loc, state).

Definition alloc_paged_token_slots_extend (prefix_lens seq_lens last_loc : list Z) (extend_num_tokens : Z)
    (backup_state : bool) : M Mem (list Z * option (list Z)) :=
  avail ← available;
  page_size ← gets (λ m, al_page_size (m_alloc m));
  let need := (extend_num_tokens + Z.of_nat (length seq_lens) * page_size)%Z in
  _ ← (if bool_decide (avail < need)%Z then cache_evict need else mret tt);
  state ← gets (λ m, if backup_state then Some (al_backup_state (m_alloc m)) else None);
  out_cache_loc ← with_alloc (al_alloc_extend prefix_lens seq_lens last_loc extend_num_tokens)
                    "Prefill out of memory. Try to lower your batch size.";
  mret (out_cache_loc, state).

Definition alloc_paged_token_slots_decode (seq_lens last_loc : list Z) (backup_state : bool)
    : M Mem (list Z * option (list Z)) :=
  avail ← available;
  page_size ← gets (λ m, al_page_size (m_alloc m));
  let need := (Z.of_nat (length seq_lens) * page_size)%Z in
  _ ← (if bool_decide (avail < need)%Z then cache_evict need else mret tt);
  state ← gets (λ m, if backup_state then Some (al_backup_state (m_alloc m)) else None);
  out_cache_loc ← with_alloc (al_alloc_decode seq_lens last_loc)
                    "Decode out of memory. Try to lower your batch size.";
  mret (out_cache_loc, state).

(** ** The check before a decode step *)

Definition new_page_count_next_decode (page_size : Z) (reqs : list Req) : Z :=
  if bool_decide (page_size = 1)%Z then Z.of_nat (length reqs)
  else Z.of_nat (length (filter (λ r, ((Z.of_nat (seqlen r) - 1) `mod` page_size = 0)%Z) reqs)).

Definition check_decode_mem (reqs : list Req) (buf_multiplier : Z) : M Mem bool :=
  page_size ← gets (λ m, al_page_size (m_alloc m));
  let tokens_required := (new_page_count_next_decode page_size reqs * buf_multiplier * page_size)%Z in
  avail ← available;
  if bool_decide (tokens_required ≤ avail)%Z then mret true
  else
    _ ← cache_evict tokens_required;
    avail ← available;
    mret (bool_decide (tokens_required ≤ avail)%Z).

(** ** Allocation of tokens *)

(** How often the slot [x] is in the tree or free. *)
Definition token_slots (c : RadixCache) (L : gset nat) (a : TokenToKVPoolAllocator) (x : Z) : Z :=
  (slot_count c L x + Z.of_nat (count_occ Z.eq_dec (ta_free_of a) x))%Z.

Lemma free_all vs a : fold_left (λ ra v, ra ← ra; al_free v ra) vs (Ok (TokA a)) =
  Ok (TokA (fold_left (λ a v, ta_free v a) vs a)).
Proof. revert a. induction vs as [|v vs IH]; intros a; simpl; [done|]. apply IH. Qed.

Lemma free_all_spec vs a : ta_is_not_in_free_group a = true →
  let a' := fold_left (λ a v, ta_free v a) vs a in
  ta_is_not_in_free_group a' = true ∧ ta_free_of a' ≡ₚ concat vs ++ ta_free_of a ∧ ta_size a' = ta_size a.
Proof.
  revert a. induction vs as [|v vs IH]; intros a Hg; simpl; [done|].
  assert (Hg' : ta_is_not_in_free_group (ta_free v a) = true ∧ ta_size (ta_free v a) = ta_size a).
  { unfold ta_free. destruct v; [done|]. by rewrite Hg. }
  destruct Hg' as [Hg' Hs]. destruct (IH (ta_free v a) Hg') as (H1 & H2 & H3). split_and!; [done| |congruence].
  rewrite H2, ta_free_perm, <- app_assoc. by rewrite Permutation_app_swap_app.
Qed.

Lemma available_free a : ta_is_not_in_free_group a = true → ta_available_size a = length (ta_free_of a).
Proof. intros Hg. unfold ta_available_size, ta_free_of. by rewrite Hg, app_nil_r. Qed.

(** What evicting keeps: the tree below locked nodes, and every slot. *)
Record evicted_mem (c : RadixCache) (L : gset nat) (own : nat → Z) (a : TokenToKVPoolAllocator)
    (c' : RadixCache) (L' : gset nat) (a' : TokenToKVPoolAllocator) : Prop := {
  em_ok : cache_ok c' L' own;
  em_conf : conf c' = conf c;
  em_sub : L' ⊆ L;
  em_locked n : n ∈ L → (0 < lock_of (skel c) n)%Z → n ∈ L';
  em_edge m l k w : m ∈ L' → edge (skel c') m l k w ↔ edge (skel c) m l k w ∧ l ∈ L';
  em_slots x : token_slots c' L' a' x = token_slots c L a x;
  em_group : ta_is_not_in_free_group a' = true;
  em_protected : protected_size c' = protected_size c;
  em_total : (Z.of_nat (ta_available_size a') + evictable_size c' =
              Z.of_nat (ta_available_size a) + evictable_size c)%Z
}.

Lemma evicted_mem_refl c L own a : cache_ok c L own → ta_is_not_in_free_group a = true →
  evicted_mem c L own a c L a.
Proof.
  intros OK Hg. split; try done. intros m l k w Hm. split; [|by intros [? _]].
  intros He. split; [done|]. by eapply edge_in_tree.
Qed.

Lemma evicted_keeps c L own a c' L' a' : cache_ok c L own → evicted_mem c L own a c' L' a' →
  keeps (λ m, (1 ≤ own m)%Z) c L c' L'.
Proof. intros OK [H1 H2 _ H3 H4 _ _ _ _]. by apply (keeps_evicted _ c L own c' L' own). Qed.

Lemma cache_evict_ok n c L own a rows : cache_ok c L own → disable c = false →
  ta_is_not_in_free_group a = true →
  ∃ c' L' a', cache_evict n (MkMem (RadixC c) rows (TokA a)) = (Ok tt, MkMem (RadixC c') rows (TokA a')) ∧
    evicted_mem c L own a c' L' a' ∧
    (Z.of_nat (ta_available_size a) + n ≤ Z.of_nat (ta_available_size a') ∨ evictable_size c' = 0)%Z.
Proof.
  intros OK Hd Hg.
  destruct (evict_ok tuple_hash (λ v ra, ra ← ra; al_free v ra) c L own n (Ok (TokA a)) OK Hd)
    as (vs & c' & L' & E & _ & [F1 F2 F3 F4 F5 F6 F7 F8] & [Hst _]).
  rewrite free_all in E. unfold cache_evict. cbn [m_cache m_alloc m_rows]. rewrite E.
  destruct (free_all_spec vs a Hg) as (G1 & G2 & _). set (a' := fold_left _ vs a) in *.
  exists c', L', a'. split; [done|].
  assert (Hav : (Z.of_nat (ta_available_size a') = Z.of_nat (length (concat vs)) + Z.of_nat (ta_available_size a))%Z).
  { rewrite !available_free by done. rewrite (Permutation_length G2), length_app. lia. }
  split; [split; try done|].
  - intros x. unfold token_slots, slot_count. rewrite F6.
    rewrite (proj1 (Permutation_count_occ Z.eq_dec _ _) G2 x), count_occ_app. lia.
  - unfold evictable_size. lia.
  - unfold evictable_size. destruct Hst; [left; lia|by right].
Qed.

Lemma evictable_nonneg c L own : cache_ok c L own → (0 ≤ evictable_size c)%Z.
Proof.
  intros OK. unfold evictable_size. rewrite (c_evictable _ _ _ OK). apply set_zsum_nonneg.
  intros m _. unfold wt, w_evictable. destruct (skel c !! m); [|done]. case_decide; lia.
Qed.

Lemma protected_nonneg c L own : cache_ok c L own → (0 ≤ protected_size c)%Z.
Proof.
  intros OK. unfold protected_size. rewrite (c_protected _ _ _ OK). apply set_zsum_nonneg.
  intros m _. unfold wt, w_protected. destruct (skel c !! m); [|done]. case_decide; lia.
Qed.

(** The outcomes of [alloc_token_slots]. *)
Lemma alloc_token_slots_ok n c L own a rows : cache_ok c L own → disable c = false →
  ta_is_not_in_free_group a = true →
  let enough := (Z.of_nat n ≤ Z.of_nat (ta_available_size a) + evictable_size c)%Z in
  ∃ r c' L' a', alloc_token_slots n false (MkMem (RadixC c) rows (TokA a)) =
      (r, MkMem (RadixC c') rows (TokA a')) ∧
    (¬ enough → ∃ msg, r = Raise (RuntimeError msg)) ∧
    (enough → ∃ out, r = Ok (out, None) ∧ length out = n ∧
       cache_ok c' L' own ∧ L' ⊆ L ∧ disable c' = false ∧ ta_is_not_in_free_group a' = true ∧
       (∀ m, m ∈ L → (0 < lock_of (skel c) m)%Z → m ∈ L') ∧
       (∀ x, token_slots c' L' a' x + Z.of_nat (count_occ Z.eq_dec out x) = token_slots c L a x)%Z ∧
       (n ≤ ta_available_size a → c' = c) ∧ keeps (λ m, (1 ≤ own m)%Z) c L c' L').
Proof.
  intros OK Hd Hg enough. unfold alloc_token_slots, available, gets, mbind, M_bind. cbn [m_alloc al_available_size].
  assert (∃ c1 L1 a1, (if bool_decide (Z.of_nat (ta_available_size a) < Z.of_nat n)%Z
      then cache_evict (Z.of_nat n) else mret tt) (MkMem (RadixC c) rows (TokA a)) =
      (Ok tt, MkMem (RadixC c1) rows (TokA a1)) ∧ evicted_mem c L own a c1 L1 a1 ∧
      (enough → n ≤ ta_available_size a1) ∧ (n ≤ ta_available_size a → c1 = c)) as (c1 & L1 & a1 & -> & EM & Hen & Hno).
  { case_bool_decide as Hlt.
    - destruct (cache_evict_ok (Z.of_nat n) c L own a rows OK Hd Hg) as (c1 & L1 & a1 & E & EM & Hst).
      exists c1, L1, a1. split_and!; [done..| |lia].
      unfold enough. pose proof (em_total _ _ _ _ _ _ _ EM). destruct Hst; lia.
    - exists c, L, a. split_and!; [done|by apply evicted_mem_refl| |done]. lia. }
  unfold with_alloc. cbn [m_alloc al_alloc]. unfold ta_alloc.
  pose proof (em_total _ _ _ _ _ _ _ EM) as Htot. pose proof (em_conf _ _ _ _ _ _ _ EM) as Econf.
  unfold conf in Econf. injection Econf as _ _ Ed _.
  case_bool_decide as Hfew.
  - eexists _, c1, L1, a1. split; [done|]. split; [by eexists|]. intros He%Hen.
    unfold ta_available_size in *. lia.
  - eexists _, c1, L1, _. split; [done|]. split.
    { intros Hne. exfalso. apply Hne. unfold enough, ta_available_size in *.
      pose proof (evictable_nonneg _ _ _ (em_ok _ _ _ _ _ _ _ EM)). lia. }
    intros _. eexists. split; [done|]. split; [rewrite length_take; unfold ta_available_size in *; lia|].
    split; [apply EM|]. split; [apply EM|]. split; [congruence|]. split; [apply EM|]. split; [apply EM|]. split; [|split; [done|by eapply evicted_keeps]].
    intros x. rewrite <- (em_slots _ _ _ _ _ _ _ EM x). unfold token_slots, ta_free_of. simpl.
    rewrite !count_occ_app. rewrite <- (take_drop n (ta_free_slots a1)) at 3. rewrite count_occ_app. lia.
Qed.

(** C25: [alloc_token_slots] succeeds exactly when the free slots and the evictable ones
    together suffice, and raises [RuntimeError] otherwise. It returns as many slots as
    asked for; each of them was free or in an evicted leaf, no slot is lost or handed out
    twice, the paths of locked nodes stay, and nothing is evicted when enough was free. *)
Theorem alloc_token_slots_correct n c L own a rows : cache_ok c L own → disable c = false →
  ta_is_not_in_free_group a = true →
  let enough := (Z.of_nat n ≤ Z.of_nat (ta_available_size a) + evictable_size c)%Z in
  ∃ r c' L' a', alloc_token_slots n false (MkMem (RadixC c) rows (TokA a)) =
      (r, MkMem (RadixC c') rows (TokA a')) ∧
    (¬ enough → ∃ msg, r = Raise (RuntimeError msg)) ∧
    (enough → ∃ out, r = Ok (out, None) ∧ length out = n ∧
       cache_ok c' L' own ∧ L' ⊆ L ∧ disable c' = false ∧ ta_is_not_in_free_group a' = true ∧
       (∀ m, m ∈ L → (0 < lock_of (skel c) m)%Z → m ∈ L') ∧
       (∀ x, token_slots c' L' a' x + Z.of_nat (count_occ Z.eq_dec out x) = token_slots c L a x)%Z ∧
       (n ≤ ta_available_size a → c' = c) ∧ keeps (λ m, (1 ≤ own m)%Z) c L c' L').
Proof. exact (alloc_token_slots_ok n c L own a rows). Qed.

Lemma check_decode_mem_ok reqs c L own a rows : cache_ok c L own → disable c = false →
  ta_is_not_in_free_group a = true →
  ∃ c' L' a', check_decode_mem reqs 1 (MkMem (RadixC c) rows (TokA a)) =
      (Ok (bool_decide (length reqs ≤ ta_available_size a')), MkMem (RadixC c') rows (TokA a')) ∧
    evicted_mem c L own a c' L' a' ∧
    ((Z.of_nat (length reqs) ≤ Z.of_nat (ta_available_size a) + evictable_size c)%Z →
       length reqs ≤ ta_available_size a').
Proof.
  intros OK Hd Hg. set (n := length reqs).
  unfold check_decode_mem, available, gets, mbind, M_bind. cbn [m_alloc al_available_size al_page_size].
  unfold new_page_count_next_decode. rewrite (bool_decide_eq_true_2 (1 = 1)%Z), !Z.mul_1_r by done. fold n.
  case_bool_decide as Hle.
  - exists c, L, a. rewrite bool_decide_eq_true_2 by lia. split_and!; [done|by apply evicted_mem_refl|lia].
  - destruct (cache_evict_ok (Z.of_nat n) c L own a rows OK Hd Hg) as (c' & L' & a' & -> & EM & Hst).
    exists c', L', a'. cbn [m_alloc al_available_size]. split_and!; [|done|].
    + unfold mret, M_ret. do 3 f_equal. apply bool_decide_ext. lia.
    + pose proof (em_total _ _ _ _ _ _ _ EM). destruct Hst; lia.
Qed.

(** [check_decode_mem] on an allocator of single tokens: it returns true exactly when
    one slot per request is free or evictable; then the following [alloc_token_slots] for
    the decode step does not raise, and it evicts nothing more. *)
Theorem check_decode_mem_correct reqs c L own a rows : cache_ok c L own → disable c = false →
  ta_is_not_in_free_group a = true →
  ∃ b c' L' a', check_decode_mem reqs 1 (MkMem (RadixC c) rows (TokA a)) =
      (Ok b, MkMem (RadixC c') rows (TokA a')) ∧ cache_ok c' L' own ∧
    (∀ x, token_slots c' L' a' x = token_slots c L a x) ∧
    (b = true ↔ (Z.of_nat (length reqs) ≤ Z.of_nat (ta_available_size a) + evictable_size c)%Z) ∧
    (b = true → ∃ out m', alloc_token_slots (length reqs) false (MkMem (RadixC c') rows (TokA a')) =
       (Ok (out, None), m') ∧ m_cache m' = RadixC c' ∧ length out = length reqs).
Proof.
  intros OK Hd Hg. set (n := length reqs).
  destruct (check_decode_mem_ok reqs c L own a rows OK Hd Hg) as (c' & L' & a' & E & EM & Hen). fold n in E, Hen.
  eexists _, c', L', a'. split; [done|]. split; [apply EM|]. split; [apply EM|].
  pose proof (em_total _ _ _ _ _ _ _ EM) as Htot. pose proof (em_conf _ _ _ _ _ _ _ EM) as Econf.
  unfold conf in Econf. injection Econf as _ _ Ed _.
  pose proof (evictable_nonneg _ _ _ (em_ok _ _ _ _ _ _ _ EM)) as H0.
  split.
  { rewrite bool_decide_eq_true. split; [|done]. lia. }
  intros Hb%bool_decide_eq_true. unfold alloc_token_slots, available, gets, mbind, M_bind, with_alloc.
  cbn [m_alloc al_available_size]. rewrite bool_decide_eq_false_2 by lia. cbn [mret M_ret].
  cbn [m_alloc al_alloc]. unfold ta_alloc, ta_available_size in *. rewrite bool_decide_eq_false_2 by lia.
  eexists _, _. split; [done|]. split; [done|]. rewrite length_take. lia.
Qed.
End mem.

(** ** Instances

    Four tokens in the tree, no free slot: a request for two slots evicts the leaf. *)

Definition ex_mem : Mem :=
  MkMem (RadixC ex_cache) (new_ReqToTokenPool 2 8) (TokA (new_TokenToKVPoolAllocator 0)).

Lemma alloc_token_slots_correct_witness : ∃ (L : gset nat) out c' a', 1 ∈ L ∧
  alloc_token_slots ex_hash 2 false ex_mem =
    (Ok (out, None), MkMem (RadixC c') (new_ReqToTokenPool 2 8) (TokA a')) ∧
  length out = 2 ∧ evictable_size c' = 0%Z ∧ ta_available_size a' = 2.
Proof.
  destruct ex_cache_ok as (L & OK & H1). exists L.
  destruct (alloc_token_slots_correct ex_hash 2 ex_cache L (λ _, 0%Z) (new_TokenToKVPoolAllocator 0)
    (new_ReqToTokenPool 2 8) OK eq_refl eq_refl) as (r & c' & L' & a' & E & _ & H).
  destruct H as (out & -> & Hl & _); [by vm_compute|].
  exists out, c', a'. split_and!; [done..| |]; vm_compute in E; by injection E as _ <- <-.
Defined.

Lemma check_decode_mem_correct_witness : ∃ c' a' out m',
  check_decode_mem ex_hash [ex_req 3 [5%Z]; ex_req 3 [6%Z]] 1 ex_mem =
    (Ok true, MkMem (RadixC c') (new_ReqToTokenPool 2 8) (TokA a')) ∧
  alloc_token_slots ex_hash 2 false (MkMem (RadixC c') (new_ReqToTokenPool 2 8) (TokA a')) = (Ok (out, None), m') ∧
  length out = 2.
Proof.
  destruct ex_cache_ok as (L & OK & H1).
  destruct (check_decode_mem_correct ex_hash [ex_req 3 [5%Z]; ex_req 3 [6%Z]] ex_cache L (λ _, 0%Z)
    (new_TokenToKVPoolAllocator 0) (new_ReqToTokenPool 2 8) OK eq_refl eq_refl)
    as (b & c' & L' & a' & E & _ & _ & Hb & Hr).
  assert (b = true) as -> by (apply Hb; by vm_compute).
  destruct (Hr eq_refl) as (out & m' & E' & _ & Hl). by exists c', a', out, m'.
Defined.
