(* ===== verification/ReqTable.v ===== *)
(** * The request table on the device

    [src/python/sglang/srt/managers/schedule_batch.py]: the kernels
    [write_req_to_token_pool_triton] and [get_last_loc_kernel] on the flat memory of
    [req_to_token], the Python loop and the torch expression that do the same without
    Triton, and their equivalence. *)

From S2P Require Import Prelude Alloc PagedAlloc.

Open Scope Z_scope.

Section table.
Context (oob undef uninit : Z → Z).

(** The table in memory: element [j] of row [r] is at [r * stride + j]. *)
Definition flat (p : ReqToTokenPool) (stride addr : Z) : option Z :=
  r ← req_to_token p !! Z.to_nat (addr `div` stride); r !! Z.to_nat (addr `mod` stride).

Definition load_flat (p : ReqToTokenPool) (stride addr : Z) : Z :=
  default (oob addr) (if bool_decide (0 ≤ addr) then flat p stride addr else None).

(** ** [write_req_to_token_pool_triton] *)

Definition WRITE_BLOCK_SIZE : Z := 512.

(** The stores of program [pid]. *)
Definition write_req_to_token_pool_triton (req_pool_indices pre_lens seq_lens extend_lens out_cache_loc : list Z)
    (stride pid : Z) : list (Z * Z) :=
  let req_pool_index := load oob req_pool_indices pid in
  let pre_len := load oob pre_lens pid in
  let seq_len := load oob seq_lens pid in
  let cumsum_start := zsum (load oob extend_lens) (arange pid) in
  let num_loop := cdiv (seq_len - pre_len) WRITE_BLOCK_SIZE in
  concat ((λ i,
    store_mask (λ o, req_pool_index * stride + (o + i * WRITE_BLOCK_SIZE) + pre_len)
      (λ o, load oob out_cache_loc (cumsum_start + (o + i * WRITE_BLOCK_SIZE)))
      (λ o, bool_decide (o + i * WRITE_BLOCK_SIZE < seq_len - pre_len))
      (arange WRITE_BLOCK_SIZE)) <$> arange num_loop).

(** A request: its row and its two lengths. *)
Record item := MkItem { it_row : nat; it_pre : nat; it_seq : nat }.
Definition it_ext (i : item) : nat := it_seq i - it_pre i.

(** The loop without Triton; [pt] is where the slots of the next request begin. *)
Fixpoint write_loop (items : list item) (pt : nat) (out_cache_loc : list Z) (p : ReqToTokenPool)
    : option ReqToTokenPool :=
  match items with
  | [] => Some p
  | i :: items =>
      let vs := slice pt (pt + it_ext i) out_cache_loc in
      if bool_decide (length vs = it_ext i) then
        p ← rp_write (it_row i) (it_pre i) vs p;
        write_loop items (pt + it_ext i) out_cache_loc p
      else None
  end.

(** ** [get_last_loc] *)

Definition GET_BLOCK_SIZE : Z := 256.

(** A masked load with the value of the lanes that are off. *)
Definition load_other (f : Z → Z) (mask : Z → bool) (other : Z) (o : Z) : Z := if mask o then f o else other.

Definition get_last_loc_kernel (p : ReqToTokenPool) (stride : Z) (req_pool_indices prefix_lens : list Z)
    (num_tokens pid : Z) : list (Z * Z) :=
  let offset o := o + pid * GET_BLOCK_SIZE in
  let mask o := bool_decide (offset o < num_tokens) in
  let prefix o := load_other (λ o, load oob prefix_lens (offset o)) mask 0 o in
  let index o := load_other (λ o, load oob req_pool_indices (offset o)) mask 0 o in
  let token_mask o := bool_decide (0 < prefix o) in
  let token_index o := index o * stride + (prefix o - 1) in
  let tokens o := load_other (λ o, load_flat p stride (token_index o)) token_mask (-1) o in
  store_mask offset tokens mask (arange GET_BLOCK_SIZE).

Definition get_last_loc_triton (p : ReqToTokenPool) (stride : Z) (req_pool_indices prefix_lens : list Z)
    (order : list Z) : list Z :=
  let num_tokens := Z.of_nat (length prefix_lens) in
  read_out uninit
    (launch (λ pid, (get_last_loc_kernel p stride req_pool_indices prefix_lens num_tokens pid, None)) order).1
    num_tokens.

(** [torch.where]: the index [-1] of an empty prefix is looked up and not used. *)
Definition get_last_loc_torch (p : ReqToTokenPool) (req_pool_indices : list nat) (prefix_lens : list nat)
    : option (list Z) :=
  mapM (λ '(row, n), r ← req_to_token p !! row;
                     x ← (match n with 0%nat => last r | S n => r !! n end);
                     Some (if decide (n = 0%nat) then -1 else x)) (zip req_pool_indices prefix_lens).

(** ** Equivalence *)

(** Every row has the length of the table. *)
Definition table_ok (p : ReqToTokenPool) (stride : Z) : Prop :=
  0 < stride ∧ ∀ row r, req_to_token p !! row = Some r → Z.of_nat (length r) = stride.

Definition item_ok (p : ReqToTokenPool) (stride : Z) (i : item) : Prop :=
  is_Some (req_to_token p !! it_row i) ∧ (it_pre i ≤ it_seq i)%nat ∧ Z.of_nat (it_seq i) ≤ stride.

Lemma flat_row p stride row r j : 0 < stride → req_to_token p !! row = Some r → 0 ≤ j < stride →
  flat p stride (Z.of_nat row * stride + j) = r !! Z.to_nat j.
Proof.
  intros Hs Hr Hj. unfold flat. rewrite Z.div_add_l, Z.div_small, Z.add_0_r, Nat2Z.id, Hr by lia. simpl.
  do 2 f_equal. rewrite Z.add_comm, Z_mod_plus_full. by apply Z.mod_small.
Qed.

Lemma address_inj a b x y s : 0 ≤ x < s → 0 ≤ y < s → a * s + x = b * s + y → a = b ∧ x = y.
Proof.
  intros Hx Hy E. assert (a = b) as ->; [|lia].
  pose proof (Z.div_add_l a s x ltac:(lia)) as H1. pose proof (Z.div_add_l b s y ltac:(lia)) as H2.
  rewrite (Z.div_small x) in H1 by done. rewrite (Z.div_small y) in H2 by done. rewrite E in H1. lia.
Qed.

(** What the kernel stores: one slot per new token, at its position of the row. *)
Lemma write_stores rows pre seqs ext out stride pid x v : 0 ≤ load oob seqs pid - load oob pre pid →
  (x, v) ∈ write_req_to_token_pool_triton rows pre seqs ext out stride pid ↔
  ∃ t, 0 ≤ t < load oob seqs pid - load oob pre pid ∧
    x = load oob rows pid * stride + load oob pre pid + t ∧
    v = load oob out (zsum (load oob ext) (arange pid) + t).
Proof.
  intros H0. unfold write_req_to_token_pool_triton. set (n := load oob seqs pid - load oob pre pid) in *.
  rewrite list_elem_of_In, in_concat. unfold WRITE_BLOCK_SIZE. split.
  - intros (l & Hl & Hin). apply list_elem_of_In in Hl, Hin.
    apply list_elem_of_fmap in Hl as (i & -> & Hi%arange_elem).
    apply store_mask_elem in Hin as (o & Ho & Hm%bool_decide_eq_true & -> & ->).
    exists (o + i * 512). split_and!; [lia|done|lia|done].
  - intros (t & Ht & -> & ->). exists (store_mask
      (λ o, load oob rows pid * stride + (o + t `div` 512 * 512) + load oob pre pid)
      (λ o, load oob out (zsum (load oob ext) (arange pid) + (o + t `div` 512 * 512)))
      (λ o, bool_decide (o + t `div` 512 * 512 < n)) (arange 512)).
    pose proof (Z.div_mod t 512 ltac:(lia)). pose proof (Z.mod_pos_bound t 512 ltac:(lia)).
    split; apply list_elem_of_In.
    + apply list_elem_of_fmap. exists (t `div` 512). split; [done|]. apply arange_elem.
      pose proof (cdiv_bounds n 512 ltac:(lia)). split; [apply Z.div_pos; lia|]. nia.
    + apply store_mask_elem. exists (t `mod` 512). rewrite bool_decide_eq_true.
      split_and!; [lia..|]. do 2 f_equal. lia.
Qed.

(** Where the slots of the [k]-th request begin. *)
Definition start_of (items : list item) (k : nat) : nat := sum_list_with it_ext (take k items).

Lemma start_of_cons i items k : start_of (i :: items) (S k) = (it_ext i + start_of items k)%nat.
Proof. done. Qed.

Lemma write_row i vs p p' stride : table_ok p stride → item_ok p stride i → length vs = it_ext i →
  rp_write (it_row i) (it_pre i) vs p = Some p' →
  table_ok p' stride ∧ rp_free_slots p' = rp_free_slots p ∧
  (∀ row, row ≠ it_row i → req_to_token p' !! row = req_to_token p !! row) ∧
  ∃ r r', req_to_token p !! it_row i = Some r ∧ req_to_token p' !! it_row i = Some r' ∧
    ∀ j, r' !! j = if decide (it_pre i ≤ j < it_seq i)%nat then vs !! (j - it_pre i)%nat else r !! j.
Proof.
  intros [Hs Ht] ([r Hr] & Hle & Hseq) Hvs Hw. pose proof (Ht _ _ Hr) as Hlr. unfold it_ext in Hvs.
  destruct (rp_write_read _ _ _ _ _ r Hw Hr) as (r' & Hr' & Hlr' & Ht1 & Hs1 & Hd1 & Hf & Ho).
  split_and!; [split; [done|]|done|done|exists r, r'; split_and!; [done..|]].
  - intros row r0 Hr0. destruct (decide (row = it_row i)) as [->|Hne].
    + rewrite Hr' in Hr0. injection Hr0 as <-. by rewrite Hlr'.
    + rewrite Ho in Hr0 by done. by eapply Ht.
  - intros j. case_decide as Hj.
    + rewrite <- Hs1. unfold slice. rewrite lookup_take_lt by lia. rewrite lookup_drop. f_equal. lia.
    + destruct (decide (j < it_pre i)%nat).
      * rewrite <- (lookup_take_lt r' (it_pre i)), <- (lookup_take_lt r (it_pre i)) by done. by rewrite Ht1.
      * replace j with (it_pre i + length vs + (j - it_seq i))%nat by lia.
        rewrite <- !lookup_drop. by rewrite Hd1.
Qed.

Lemma write_loop_spec stride out items : ∀ pt p,
  NoDup (it_row <$> items) → Forall (item_ok p stride) items → table_ok p stride →
  (pt + start_of items (length items) ≤ length out)%nat →
  ∃ p', write_loop items pt out p = Some p' ∧ table_ok p' stride ∧ rp_free_slots p' = rp_free_slots p ∧
    (∀ row, row ∉ it_row <$> items → req_to_token p' !! row = req_to_token p !! row) ∧
    (∀ k i, items !! k = Some i → ∃ r r', req_to_token p !! it_row i = Some r ∧
       req_to_token p' !! it_row i = Some r' ∧ ∀ j, r' !! j =
         if decide (it_pre i ≤ j < it_seq i)%nat then out !! (pt + start_of items k + (j - it_pre i))%nat
         else r !! j).
Proof.
  induction items as [|i items IH]; intros pt p Hnd Hok Ht Hlen; cbn [write_loop].
  { exists p. by split_and!. }
  rewrite fmap_cons, NoDup_cons in Hnd. destruct Hnd as [Hni Hnd].
  apply Forall_cons in Hok as [Hi Hok]. cbn [length] in Hlen. rewrite start_of_cons in Hlen.
  set (vs := slice pt (pt + it_ext i) out).
  assert (Hvs : length vs = it_ext i) by (unfold vs, slice; rewrite length_take, length_drop; lia).
  rewrite bool_decide_eq_true_2 by done.
  assert (∃ p1, rp_write (it_row i) (it_pre i) vs p = Some p1) as [p1 Hw].
  { destruct Hi as ([r Hr] & Hle & Hseq). destruct Ht as [_ Ht]. pose proof (Ht _ _ Hr).
    unfold rp_write. rewrite Hr. simpl. rewrite bool_decide_eq_true_2; [by eexists|]. unfold it_ext in Hvs. lia. }
  rewrite Hw. cbn [mbind option_bind].
  destruct (write_row i vs p p1 stride Ht Hi Hvs Hw) as (Ht1 & Hf1 & Ho1 & r & r1 & Hr & Hr1 & Hj1).
  assert (Hok1 : Forall (item_ok p1 stride) items).
  { rewrite Forall_forall in *. intros x Hx. destruct (Hok x Hx) as (Hsx & ? & ?). split_and!; [|done..].
    rewrite Ho1; [done|]. intros E. apply Hni. rewrite <- E. by apply list_elem_of_fmap_2. }
  destruct (IH (pt + it_ext i)%nat p1 Hnd Hok1 Ht1) as (p' & Hp' & Ht' & Hf' & Ho' & Hk'); [lia|].
  exists p'. split_and!; [done|done|congruence| |].
  - intros row. rewrite fmap_cons, not_elem_of_cons. intros [Hne Hni']. by rewrite Ho', Ho1.
  - intros [|k] x Hx; simpl in Hx.
    + injection Hx as <-. exists r, r1. split_and!; [done|by rewrite Ho'|]. intros j. rewrite Hj1.
      case_decide; [|done]. unfold vs, slice. rewrite lookup_take_lt by (unfold it_ext; lia).
      rewrite lookup_drop. unfold start_of. simpl. f_equal. lia.
    + destruct (Hk' k x Hx) as (r2 & r3 & Hr2 & Hr3 & Hj3). exists r2, r3. split_and!; [|done|].
      * rewrite Ho1 in Hr2; [done|]. intros E. apply Hni. rewrite <- E.
        apply list_elem_of_fmap_2. by eapply list_elem_of_lookup_2.
      * intros j. rewrite Hj3, start_of_cons. case_decide; [|done]. f_equal. lia.
Qed.

Lemma load_items {X} (f : X → Z) (items : list X) pid i : 0 ≤ pid → items !! Z.to_nat pid = Some i →
  load oob (f <$> items) pid = f i.
Proof.
  intros H0 Hi. unfold load, nthZ. by rewrite bool_decide_eq_true_2, list_lookup_fmap, Hi.
Qed.

Lemma cumsum_items items k : (k ≤ length items)%nat →
  zsum (load oob ((λ i, Z.of_nat (it_ext i)) <$> items)) (arange (Z.of_nat k)) = Z.of_nat (start_of items k).
Proof.
  induction k as [|k IH]; intros Hk; [done|]. rewrite Nat2Z.inj_succ, <- Z.add_1_r, arange_S by lia.
  destruct (lookup_lt_is_Some_2 items k) as [i Hi]; [lia|].
  rewrite zsum_app, IH by lia. simpl. rewrite (load_items _ items _ i) by (lia || by rewrite Nat2Z.id).
  unfold start_of. rewrite (take_S_r _ _ i) by done. rewrite sum_list_with_app. simpl. lia.
Qed.

(** The kernel on the tensors made from [items]. *)
Definition kernel_of (items : list item) (out : list Z) (stride pid : Z) : list (Z * Z) * option Z :=
  (write_req_to_token_pool_triton ((λ i, Z.of_nat (it_row i)) <$> items) ((λ i, Z.of_nat (it_pre i)) <$> items)
     ((λ i, Z.of_nat (it_seq i)) <$> items) ((λ i, Z.of_nat (it_ext i)) <$> items) out stride pid, None).

Lemma kernel_of_stores items out stride k i x v : items !! k = Some i → (it_pre i ≤ it_seq i)%nat →
  (start_of items (length items) ≤ length out)%nat →
  (x, v) ∈ (kernel_of items out stride (Z.of_nat k)).1 ↔
  ∃ t, (t < it_ext i)%nat ∧ x = Z.of_nat (it_row i) * stride + Z.of_nat (it_pre i + t) ∧
       v = load oob out (Z.of_nat (start_of items k + t)).
Proof.
  intros Hi Hle Hlen. pose proof (lookup_lt_Some _ _ _ Hi) as Hk. simpl.
  assert (Hld : ∀ f : item → Z, load oob (f <$> items) (Z.of_nat k) = f i).
  { intros f. apply load_items; [lia|]. by rewrite Nat2Z.id. }
  rewrite write_stores; rewrite !Hld; [|lia]. rewrite cumsum_items by lia. unfold it_ext. split.
  - intros (t & Ht & -> & ->). exists (Z.to_nat t). split_and!; [lia|lia|]. f_equal. lia.
  - intros (t & Ht & -> & ->). exists (Z.of_nat t). split_and!; [lia|lia|lia|]. f_equal. lia.
Qed.

Lemma run_stores_None stores x : (∀ w, (x, w) ∉ stores) → run_stores stores !! x = None.
Proof.
  unfold run_stores. induction stores as [|[y w] l IH] using rev_ind; intros Hno; [done|].
  rewrite foldl_app. simpl. rewrite lookup_insert_ne.
  - apply IH. intros w' Hw. apply (Hno w'). apply elem_of_app. by left.
  - intros ->. apply (Hno w). apply elem_of_app. right. by apply list_elem_of_singleton.
Qed.

Lemma launch_stores items out stride order row j v : 0 < stride → NoDup (it_row <$> items) →
  (∀ i, i ∈ items → (it_pre i ≤ it_seq i)%nat ∧ Z.of_nat (it_seq i) ≤ stride) →
  (start_of items (length items) ≤ length out)%nat →
  order ≡ₚ arange (Z.of_nat (length items)) → 0 ≤ Z.of_nat j < stride →
  (Z.of_nat row * stride + Z.of_nat j, v) ∈ concat ((λ pid, (kernel_of items out stride pid).1) <$> order) ↔
  ∃ k i, items !! k = Some i ∧ it_row i = row ∧ (it_pre i ≤ j < it_seq i)%nat ∧
    v = load oob out (Z.of_nat (start_of items k + (j - it_pre i))).
Proof.
  intros Hs Hnd Hok Hlen Hord Hj. rewrite launch_elem. setoid_rewrite Hord. split.
  - intros (pid & Hpid%arange_elem & Hin).
    destruct (lookup_lt_is_Some_2 items (Z.to_nat pid)) as [i Hi]; [lia|].
    destruct (Hok i) as [Hle Hseq]; [by eapply list_elem_of_lookup_2|].
    replace pid with (Z.of_nat (Z.to_nat pid)) in Hin by lia.
    apply (kernel_of_stores items out stride (Z.to_nat pid) i _ v Hi Hle Hlen) in Hin.
    destruct Hin as (t & Ht & E & ->).
    unfold it_ext in Ht. assert (Z.of_nat row = Z.of_nat (it_row i) ∧ j = (it_pre i + t)%nat) as [Er ->].
    { destruct (address_inj _ _ _ (Z.of_nat (it_pre i + t)) _ Hj ltac:(lia) E). lia. }
    exists (Z.to_nat pid), i. split_and!; [done|lia|lia|lia|]. do 3 f_equal. lia.
  - intros (k & i & Hi & <- & Hb & ->). exists (Z.of_nat k). split.
    + apply arange_elem. apply lookup_lt_Some in Hi. lia.
    + apply (kernel_of_stores items out stride k i); [done|lia|done|].
      exists (j - it_pre i)%nat. unfold it_ext. split_and!; [lia|lia|done].
Qed.

(** The kernel [write_req_to_token_pool_triton] is equivalent to the Python loop: from
    one table they lead to the same contents of every row, whatever the order the programs
    run in and although a program writes blocks of 512 slots. *)
Theorem write_req_to_token_pool_equiv stride order items out p :
  table_ok p stride → Forall (item_ok p stride) items → NoDup (it_row <$> items) →
  (start_of items (length items) ≤ length out)%nat → order ≡ₚ arange (Z.of_nat (length items)) →
  ∃ p', write_loop items 0 out p = Some p' ∧ table_ok p' stride ∧ rp_free_slots p' = rp_free_slots p ∧
    ∀ row j, Z.of_nat j < stride →
      flat p' stride (Z.of_nat row * stride + Z.of_nat j) =
      match (launch (kernel_of items out stride) order).1 !! (Z.of_nat row * stride + Z.of_nat j) with
      | Some v => Some v
      | None => flat p stride (Z.of_nat row * stride + Z.of_nat j)
      end.
Proof.
  intros Ht Hok Hnd Hlen Hord.
  destruct (write_loop_spec stride out items 0 p Hnd Hok Ht Hlen) as (p' & Hp' & Ht' & Hf & Ho & Hk).
  exists p'. split_and!; [done..|]. intros row j Hj. pose proof (proj1 Ht) as Hs.
  assert (Hok2 : ∀ i, i ∈ items → (it_pre i ≤ it_seq i)%nat ∧ Z.of_nat (it_seq i) ≤ stride).
  { intros i Hi. rewrite Forall_forall in Hok. destruct (Hok i Hi) as (_ & ? & ?). done. }
  pose proof (launch_stores items out stride order row j) as LS.
  assert (Hflat : ∀ q r, req_to_token q !! row = r →
    flat q stride (Z.of_nat row * stride + Z.of_nat j) = r ≫= λ r, r !! j).
  { intros q [r|] Hr; simpl.
    - rewrite (flat_row q stride row r) by (done || lia). by rewrite Nat2Z.id.
    - unfold flat. rewrite Z.div_add_l, Z.div_small, Z.add_0_r, Nat2Z.id, Hr by lia. done. }
  destruct (decide (row ∈ it_row <$> items)) as [(i & -> & Hi)%list_elem_of_fmap|Hni].
  - apply list_elem_of_lookup in Hi as [k Hi]. destruct (Hk k i Hi) as (r & r' & Hr & Hr' & Hj').
    rewrite (Hflat p' _ Hr'), (Hflat p _ Hr). simpl. rewrite Hj'. case_decide as Hb.
    + destruct (lookup_lt_is_Some_2 out (start_of items k + (j - it_pre i))) as [v Hv].
      { assert (start_of items (S k) ≤ start_of items (length items))%nat; cycle 1.
        { unfold start_of in * at 1. rewrite (take_S_r _ _ i), sum_list_with_app in H by done.
          simpl in H. unfold start_of, it_ext in *. lia. }
        unfold start_of. rewrite (take_ge items (length items)) by done.
        rewrite <- (take_drop (S k) items) at 2. rewrite sum_list_with_app. lia. }
      assert (Hload : load oob out (Z.of_nat (start_of items k + (j - it_pre i))) = v).
      { unfold load, nthZ. rewrite bool_decide_eq_true_2, Nat2Z.id by lia. by rewrite Hv. }
      rewrite Nat.add_0_l. unfold launch. simpl. rewrite (run_stores_lookup _ _ v); [done| |].
      * intros w (k' & i' & Hi' & Er & Hb' & ->)%LS; try done; [|lia].
        assert (k' = k) as ->.
        { eapply (NoDup_lookup (it_row <$> items)); [done| |]; rewrite list_lookup_fmap.
          - by rewrite Hi'. - rewrite Hi. simpl. by rewrite Er. }
        simplify_eq. done.
      * apply LS; try done; [lia|]. exists k, i. split_and!; try done; lia.
    + simpl. rewrite run_stores_None; [done|]. intros w (k' & i' & Hi' & Er & Hb' & _)%LS; try done; [|lia].
      assert (k' = k) as ->.
      { eapply (NoDup_lookup (it_row <$> items)); [done| |]; rewrite list_lookup_fmap.
        - by rewrite Hi'. - rewrite Hi. simpl. by rewrite Er. }
      simplify_eq. done.
  - rewrite (Hflat p' _ eq_refl), (Hflat p _ eq_refl), Ho by done.
    simpl. rewrite run_stores_None; [done|]. intros w (k' & i' & Hi' & <- & _)%LS; try done; [|lia].
    apply Hni. apply list_elem_of_fmap_2. by eapply list_elem_of_lookup_2.
Qed.

(** The last slot of one request. *)
Definition last_loc_of (p : ReqToTokenPool) (row n : nat) : option Z :=
  r ← req_to_token p !! row;
  x ← (match n with 0%nat => last r | S n => r !! n end);
  Some (if decide (n = 0%nat) then -1 else x).

(** A store of [get_last_loc_kernel] at [k] holds the last slot of request [k]. *)
Lemma get_last_loc_stores p stride rows pre pid k row n v w : table_ok p stride →
  rows !! k = Some row → pre !! k = Some n → Z.of_nat n ≤ stride →
  last_loc_of p row n = Some v →
  (Z.of_nat k, w) ∈ get_last_loc_kernel p stride (Z.of_nat <$> rows) (Z.of_nat <$> pre)
                      (Z.of_nat (length (Z.of_nat <$> pre))) pid ↔
  0 ≤ Z.of_nat k - pid * 256 < 256 ∧ w = v.
Proof.
  intros [Hs Ht] Hrow Hn Hle Hv. pose proof (lookup_lt_Some _ _ _ Hn) as Hk.
  assert (Hval : ∀ o, o + pid * 256 = Z.of_nat k → load oob (Z.of_nat <$> pre) (o + pid * 256) = Z.of_nat n ∧
                      load oob (Z.of_nat <$> rows) (o + pid * 256) = Z.of_nat row).
  { intros o ->. split; eapply load_items; rewrite ?Nat2Z.id; done || lia. }
  assert (Htok : load_other (λ _, load_flat p stride (Z.of_nat row * stride + (Z.of_nat n - 1)))
                   (λ _, bool_decide (0 < Z.of_nat n)) (-1) 0 = v).
  { unfold last_loc_of in Hv. destruct (req_to_token p !! row) as [r|] eqn:Hr; [|done]. simpl in Hv.
    pose proof (Ht _ _ Hr) as Hlr. unfold load_other. case_bool_decide as Hpos.
    - destruct n as [|n]; [lia|]. unfold load_flat. rewrite bool_decide_eq_true_2 by lia.
      rewrite (flat_row p stride row r) by (done || lia). replace (Z.to_nat (Z.of_nat (S n) - 1)) with n by lia.
      destruct (r !! n); [|done]. simpl in Hv. by injection Hv as <-.
    - assert (n = 0%nat) as -> by lia. destruct (last r); simpl in Hv; [by injection Hv as <-|done]. }
  unfold get_last_loc_kernel, GET_BLOCK_SIZE. rewrite store_mask_elem, length_fmap. split.
  - intros (o & Ho & Hm%bool_decide_eq_true & Ek & ->). split; [lia|].
    destruct (Hval o (eq_sym Ek)) as [E1 E2]. rewrite <- Htok. unfold load_other.
    rewrite !(bool_decide_eq_true_2 (o + pid * 256 < _)) by lia. by rewrite E1, E2.
  - intros [Hb ->]. exists (Z.of_nat k - pid * 256).
    destruct (Hval (Z.of_nat k - pid * 256)) as [E1 E2]; [lia|].
    split_and!; [lia|lia|apply bool_decide_eq_true; lia|lia|]. rewrite <- Htok. unfold load_other.
    rewrite !(bool_decide_eq_true_2 (Z.of_nat k - pid * 256 + pid * 256 < _)) by lia. by rewrite E1, E2.
Qed.

(** The Triton version of [get_last_loc], in blocks of 256 requests run in any order,
    returns the same tensor as the torch version: the last slot of every cached prefix and
    -1 for an empty one. *)
Theorem get_last_loc_equiv p stride rows pre order : table_ok p stride → length rows = length pre →
  (∀ k row n, rows !! k = Some row → pre !! k = Some n →
     is_Some (req_to_token p !! row) ∧ Z.of_nat n ≤ stride) →
  order ≡ₚ arange (cdiv (Z.of_nat (length pre)) GET_BLOCK_SIZE) →
  get_last_loc_torch p rows pre =
  Some (get_last_loc_triton p stride (Z.of_nat <$> rows) (Z.of_nat <$> pre) order).
Proof.
  intros Ht Hlen Hok Hord. set (N := Z.of_nat (length pre)).
  assert (Hval : ∀ k, (k < length pre)%nat → ∃ row n v, rows !! k = Some row ∧ pre !! k = Some n ∧
    last_loc_of p row n = Some v ∧
    get_last_loc_triton p stride (Z.of_nat <$> rows) (Z.of_nat <$> pre) order !! k = Some v).
  { intros k Hk. destruct (lookup_lt_is_Some_2 pre k Hk) as [n Hn].
    destruct (lookup_lt_is_Some_2 rows k) as [row Hrow]; [lia|]. destruct (Hok k row n Hrow Hn) as [[r Hr] Hle].
    assert (∃ v, last_loc_of p row n = Some v) as [v Hv].
    { unfold last_loc_of. rewrite Hr. simpl. pose proof (proj2 Ht _ _ Hr). pose proof (proj1 Ht). destruct n as [|n].
      - destruct r using rev_ind; [simpl in *; lia|]. rewrite last_snoc. simpl. by eexists.
      - destruct (lookup_lt_is_Some_2 r n) as [x ->]; [lia|]. simpl. by eexists. }
    exists row, n, v. split_and!; [done..|]. unfold get_last_loc_triton.
    rewrite <- (Nat2Z.id k). rewrite length_fmap. fold N. apply read_out_lookup; [lia|].
    set (K := λ pid, _). unfold launch. cbn [fst]. apply run_stores_lookup.
    - intros w (pid & _ & Hw)%launch_elem. unfold K, N in Hw. cbn [fst] in Hw. rewrite <- (length_fmap Z.of_nat pre) in Hw.
      by apply (get_last_loc_stores p stride rows pre pid k row n v w Ht Hrow Hn Hle Hv) in Hw as [_ ->].
    - apply launch_elem. exists (Z.of_nat k `div` 256). rewrite Hord, arange_elem.
      pose proof (Z.div_mod (Z.of_nat k) 256 ltac:(lia)). pose proof (Z.mod_pos_bound (Z.of_nat k) 256 ltac:(lia)).
      pose proof (cdiv_bounds N 256 ltac:(lia)). unfold GET_BLOCK_SIZE. fold N. split.
      + split; [apply Z.div_pos; lia|]. nia.
      + unfold K, N. rewrite <- (length_fmap Z.of_nat pre). cbn [fst].
        apply (get_last_loc_stores p stride rows pre _ k row n v v Ht Hrow Hn Hle Hv). split; [lia|done]. }
  unfold get_last_loc_torch. apply mapM_Some. apply Forall2_same_length_lookup. split.
  - rewrite length_zip_with, Hlen, Nat.min_id. unfold get_last_loc_triton. rewrite length_fmap.
    apply Nat2Z.inj. rewrite length_read_out by lia. done.
  - intros k [row n] v (row' & n' & [= <- <-] & Hrow & Hn)%lookup_zip_with_Some Hv.
    destruct (Hval k (lookup_lt_Some _ _ _ Hn)) as (row2 & n2 & v2 & Hrow2 & Hn2 & Hv2 & Hout).
    simplify_eq. exact Hv2.
Qed.
End table.

(** A table of three rows of six; two requests. *)
Definition ex_table : ReqToTokenPool :=
  MkReqPool 3 6 {[0%nat := replicate 6 0; 1%nat := [11; 12; 0; 0; 0; 0]; 2%nat := replicate 6 0]} [].
Definition ex_items : list item := [MkItem 1 2 4; MkItem 0 0 3].

Lemma ex_table_ok : table_ok ex_table 6.
Proof.
  split; [lia|]. intros row r Hr. unfold ex_table in Hr. simpl in Hr.
  apply lookup_insert_Some in Hr as [[_ <-]|[_ Hr]]; [done|].
  apply lookup_insert_Some in Hr as [[_ <-]|[_ Hr]]; [done|].
  apply lookup_singleton_Some in Hr as [_ <-]. done.
Qed.

Lemma write_req_to_token_pool_equiv_witness : ∃ p',
  write_loop ex_items 0 [21; 22; 23; 24; 25] ex_table = Some p' ∧
  flat p' 6 9 = Some 22 ∧
  (launch (kernel_of id ex_items [21; 22; 23; 24; 25] 6) [1; 0]).1 !! 9 = Some 22.
Proof.
  destruct (write_req_to_token_pool_equiv id 6 [1; 0] ex_items [21; 22; 23; 24; 25] ex_table ex_table_ok)
    as (p' & H & _ & _ & _).
  - repeat constructor; vm_compute; by eexists || done.
  - decide_now.
  - vm_compute. lia.
  - apply Permutation_swap.
  - exists p'. split_and!; [exact H| |by vm_compute]. vm_compute in H. by injection H as <-.
Defined.

Lemma get_last_loc_equiv_witness :
  get_last_loc_torch ex_table [1; 0]%nat [2; 0]%nat =
    Some (get_last_loc_triton id id ex_table 6 [1; 0] [2; 0] [0]) ∧
  get_last_loc_torch ex_table [1; 0]%nat [2; 0]%nat = Some [12; -1].
Proof.
  split; [|by vm_compute].
  refine (get_last_loc_equiv id id ex_table 6 [1; 0]%nat [2; 0]%nat [0] ex_table_ok eq_refl _ _); [|done].
  intros [|[|k]] row n Hr Hn; simplify_eq/=; (split; [vm_compute; by eexists|lia]).
Defined.
