(* ===== verification/SamplingBatch.v ===== *)
(** * Sampling parameters of a batch

    [src/python/sglang/srt/sampling/sampling_batch_info.py]: the tensors with one row per
    request that [ScheduleBatch] filters and merges. [BatchInfo] is the interface the batch
    uses, [SamplingBatchInfo] its implementation. Custom logit processors and grammar masks
    are not modelled. *)

From S2P Require Import Prelude PyStr Sampling HeapQ Radix RadixTree RadixMatch RadixInv RadixThms Req Penalty.
From Stdlib Require Import QArith.
Close Scope Q_scope.

(** ** What a batch needs of its sampling information *)

Class BatchInfo (SI : Type) := {
  bi_new : list Req → result SI;
  bi_filter : list nat → list Req → SI → result SI;
  bi_merge : list Req → list Req → SI → SI → result SI;
  bi_required : SI → bool;
  bi_cumulate : list Z → SI → result SI;
  (** Requests and tokens the information can hold; the requests it describes. *)
  bi_fits : Req → Prop;
  bi_token : Z → Prop;
  bi_describes : SI → list Req → Prop
}.

Class BatchInfoLaws (SI : Type) `{BatchInfo SI} := {
  bi_new_ok reqs : Forall bi_fits reqs → ∃ s, bi_new reqs = Ok s ∧ bi_describes s reqs;
  bi_filter_ok s reqs keep reqs' : bi_describes s reqs → mapM (λ i, reqs !! i) keep = Some reqs' →
    ∃ s', bi_filter keep reqs' s = Ok s' ∧ bi_describes s' reqs';
  bi_merge_ok s s' reqs reqs' : bi_describes s reqs → bi_describes s' reqs' →
    ∃ s2, bi_merge reqs reqs' s s' = Ok s2 ∧ bi_describes s2 (reqs ++ reqs');
  bi_cumulate_ok s reqs toks : bi_describes s reqs → length toks = length reqs → Forall bi_token toks →
    ∃ s', bi_cumulate toks s = Ok s' ∧ bi_describes s' reqs;
  (** Only sampling parameters and tokenizer of a request matter. *)
  bi_fits_same r r' : same_params r r' → bi_fits r → bi_fits r';
  bi_describes_same s reqs reqs' : Forall2 same_params reqs reqs' → bi_describes s reqs → bi_describes s reqs'
}.

(** ** Selecting rows *)

Lemma lookup_rows {A B} (f : A → B) (l : list A) (keep : list nat) (ys : list B) :
  mapM (λ i, (f <$> l) !! i) keep = Some ys →
  ∃ xs : list A, mapM (λ i, l !! i) keep = Some xs ∧ ys = f <$> xs.
Proof.
  revert ys. induction keep as [|i keep IH]; intros ys Hm; simpl in *.
  { injection Hm as <-. by exists []. }
  rewrite list_lookup_fmap in Hm. destruct (l !! i) as [x|]; simpl in *; [|done].
  destruct (mapM (λ i, (f <$> l) !! i) keep) as [zs|] eqn:E; simpl in Hm; [|done]. injection Hm as <-.
  destruct (IH zs eq_refl) as (xs & -> & ->). simpl. by exists (x :: xs).
Qed.

Lemma kept_elem {A} (l : list A) (keep : list nat) (ys : list A) y : mapM (λ i, l !! i) keep = Some ys → y ∈ ys → y ∈ l.
Proof.
  intros Hm%mapM_Some [i Hi]%list_elem_of_lookup. destruct (Forall2_lookup_r _ _ _ _ _ Hm Hi) as (j & _ & Hj).
  by eapply list_elem_of_lookup_2.
Qed.

(** ** [class SamplingBatchInfo] *)

Section info.
Context {F : Type} (fzero ninf : F) (fadd fsub : F → F → F) (f32 : pyfloat → F).
(** The vocabulary and the order of the penalizers. *)
Context (vocab : nat) (kinds : list Kind).

Record SamplingBatchInfo := MkInfo {
  temperatures : list F;
  top_ps : list F;
  top_ks : list Z;
  min_ps : list F;
  is_all_greedy : bool;
  need_min_p_sampling : bool;
  penalizer_orchestrator : Orchestrator (F := F);
  linear_penalty : option (list (list F))
}.

Definition is_greedy (r : Req) : bool := bool_decide (top_k (sampling_params r) ≤ 1)%Z.
Definition needs_min_p (r : Req) : bool := flt f0 (min_p (sampling_params r)).

Definition from_schedule_batch (reqs : list Req) : result SamplingBatchInfo :=
  o ← new_Orchestrator fzero ninf fadd fsub f32 vocab kinds reqs;
  Ok (MkInfo ((λ r, f32 (temperature (sampling_params r))) <$> reqs)
        ((λ r, f32 (top_p (sampling_params r))) <$> reqs)
        ((λ r, top_k (sampling_params r)) <$> reqs)
        ((λ r, f32 (min_p (sampling_params r))) <$> reqs)
        (forallb is_greedy reqs) (existsb needs_min_p reqs) o None).

(** [__len__]. *)
Definition info_len (s : SamplingBatchInfo) : nat := length (temperatures s).

Definition update_penalties (s : SamplingBatchInfo) : result SamplingBatchInfo :=
  p ← (if orch_is_required (penalizer_orchestrator s) then
         l ← orch_apply fzero ninf fadd fsub f32 (penalizer_orchestrator s) (zeros fzero (info_len s) vocab);
         Ok (Some l)
       else Ok None);
  Ok (MkInfo (temperatures s) (top_ps s) (top_ks s) (min_ps s) (is_all_greedy s) (need_min_p_sampling s)
        (penalizer_orchestrator s) p).

(** Without a vocabulary mask. *)
Definition apply_logits_bias (logits : list (list F)) (s : SamplingBatchInfo) : result (list (list F)) :=
  logits ← match linear_penalty s with
           | Some p => rowwise (same_shape fadd) logits p
           | None => Ok logits
           end;
  if orch_is_required (penalizer_orchestrator s)
  then orch_apply fzero ninf fadd fsub f32 (penalizer_orchestrator s) logits
  else Ok logits.

Definition filter_batch (keep : list nat) (reqs : list Req) (s : SamplingBatchInfo) : result SamplingBatchInfo :=
  o ← orch_filter fzero ninf fadd fsub f32 keep reqs (penalizer_orchestrator s);
  t ← index_rows keep (temperatures s);
  p ← index_rows keep (top_ps s);
  k ← index_rows keep (top_ks s);
  m ← index_rows keep (min_ps s);
  Ok (MkInfo t p k m (is_all_greedy s) (need_min_p_sampling s) o (linear_penalty s)).

Definition merge_batch (reqs reqs' : list Req) (s s' : SamplingBatchInfo) : result SamplingBatchInfo :=
  '(o, _) ← orch_merge fzero ninf fadd fsub f32 reqs reqs' (penalizer_orchestrator s) (penalizer_orchestrator s');
  Ok (MkInfo (temperatures s ++ temperatures s') (top_ps s ++ top_ps s') (top_ks s ++ top_ks s')
        (min_ps s ++ min_ps s') (is_all_greedy s && is_all_greedy s')
        (need_min_p_sampling s || need_min_p_sampling s') o (linear_penalty s)).

Definition cumulate (toks : list Z) (s : SamplingBatchInfo) : result SamplingBatchInfo :=
  o ← orch_cumulate_output_tokens fzero ninf fadd fsub f32 toks (penalizer_orchestrator s);
  Ok (MkInfo (temperatures s) (top_ps s) (top_ks s) (min_ps s) (is_all_greedy s) (need_min_p_sampling s)
        o (linear_penalty s)).

(** Every tensor has the row of every request, the flags are safe: greedy only if all
    are, min-p sampling if any needs it; the penalizers fit. *)
Record info_ok (s : SamplingBatchInfo) (reqs : list Req) : Prop := {
  io_temp : temperatures s = (λ r, f32 (temperature (sampling_params r))) <$> reqs;
  io_top_p : top_ps s = (λ r, f32 (top_p (sampling_params r))) <$> reqs;
  io_top_k : top_ks s = (λ r, top_k (sampling_params r)) <$> reqs;
  io_min_p : min_ps s = (λ r, f32 (min_p (sampling_params r))) <$> reqs;
  io_greedy : is_all_greedy s = true → ∀ r, r ∈ reqs → (top_k (sampling_params r) ≤ 1)%Z;
  io_need : (∃ r, r ∈ reqs ∧ needs_min_p r = true) → need_min_p_sampling s = true;
  io_orch : ∃ rows, fst <$> rows = reqs ∧
    orch_ok fzero ninf fadd fsub f32 vocab kinds (penalizer_orchestrator s) rows
}.

Hypothesis f32_zero : ∀ p, neq0 p = false → f32 p = fzero.
Hypothesis fadd_zero : fadd fzero fzero = fzero.
Hypothesis fsub_zero : ∀ y, fsub y fzero = y.

Lemma info_new_ok reqs : Forall (row_fits vocab) (new_row <$> reqs) →
  ∃ s, from_schedule_batch reqs = Ok s ∧ info_ok s reqs.
Proof.
  intros Hf. unfold from_schedule_batch.
  destruct (orch_new_ok fzero ninf fadd fsub f32 f32_zero fadd_zero fsub_zero vocab kinds reqs Hf) as (o & -> & Ho).
  cbn [mbind result_bind]. eexists. split; [done|]. split; try done; simpl.
  - intros Hg r Hr. rewrite forallb_forall in Hg. apply list_elem_of_In, Hg in Hr. by apply bool_decide_eq_true in Hr.
  - intros (r & Hr & Hn). apply existsb_exists. exists r. by rewrite <- list_elem_of_In.
  - exists (new_row <$> reqs). by rewrite fst_new_row.
Qed.

Lemma info_filter_ok s reqs keep reqs' : info_ok s reqs → mapM (λ i, reqs !! i) keep = Some reqs' →
  ∃ s', filter_batch keep reqs' s = Ok s' ∧ info_ok s' reqs'.
Proof.
  intros [H1 H2 H3 H4 H5 H6 (rows & Hrows & Ho)] Hk. unfold filter_batch. rewrite H1, H2, H3, H4.
  rewrite <- Hrows in Hk. destruct (lookup_rows _ _ _ _ Hk) as (rows' & Hk' & ->). rewrite Hrows in Hk.
  destruct (orch_filter_ok fzero ninf fadd fsub f32 f32_zero fadd_zero fsub_zero vocab kinds _ rows rows' keep Ho Hk')
    as (o' & -> & Ho'). cbn [mbind result_bind].
  rewrite !(index_rows_fmap _ _ _ _ Hk). cbn [mbind result_bind].
  eexists. split; [done|]. split; try done; simpl.
  - intros Hg r Hr. apply H5; [done|]. by eapply kept_elem.
  - intros (r & Hr & Hn). apply H6. exists r. split; [|done]. by eapply kept_elem.
  - by exists rows'.
Qed.

Lemma info_merge_ok s s' reqs reqs' : info_ok s reqs → info_ok s' reqs' →
  ∃ s2, merge_batch reqs reqs' s s' = Ok s2 ∧ info_ok s2 (reqs ++ reqs').
Proof.
  intros [H1 H2 H3 H4 H5 H6 (rows & <- & Ho)] [G1 G2 G3 G4 G5 G6 (rows' & <- & Ho')]. unfold merge_batch.
  destruct (orch_merge_ok fzero ninf fadd fsub f32 f32_zero fadd_zero fsub_zero vocab kinds kinds _ _ rows rows' Ho Ho')
    as (o2 & o3 & -> & Ho2). cbn [mbind result_bind]. rewrite H1, H2, H3, H4, G1, G2, G3, G4.
  eexists. split; [done|]. split; simpl; try by rewrite fmap_app.
  - intros [Hg Hg']%andb_true_iff r [Hr|Hr]%elem_of_app; [by apply H5|by apply G5].
  - intros (r & [Hr|Hr]%elem_of_app & Hn); apply orb_true_iff; [left; apply H6|right; apply G6]; by exists r.
  - exists (rows ++ rows'). by rewrite fmap_app.
Qed.

Lemma info_cumulate_ok s reqs toks : info_ok s reqs → length toks = length reqs → Forall (token_in vocab) toks →
  ∃ s', cumulate toks s = Ok s' ∧ info_ok s' reqs.
Proof.
  intros [H1 H2 H3 H4 H5 H6 (rows & <- & Ho)] Hl Ht. unfold cumulate. rewrite length_fmap in Hl.
  destruct (orch_cumulate_ok fzero ninf fadd fsub f32 f32_zero fadd_zero fsub_zero vocab kinds _ rows toks Ho Hl Ht)
    as (o' & -> & Ho'). cbn [mbind result_bind]. eexists. split; [done|]. split; try done. simpl.
  eexists. split; [|exact Ho']. rewrite (fmap_zip_with _ _ (λ x _, x.1)) by done.
  by rewrite (zip_with_fst (λ x : Req * list Z, x.1)).
Qed.

Lemma info_ok_same s reqs reqs' : Forall2 same_params reqs reqs' → info_ok s reqs → info_ok s reqs'.
Proof.
  intros HF [H1 H2 H3 H4 H5 H6 (rows & <- & Ho)].
  assert (Hin : ∀ r', r' ∈ reqs' → ∃ r, r ∈ rows.*1 ∧ same_params r r').
  { intros r' [i Hi]%list_elem_of_lookup. destruct (Forall2_lookup_r _ _ _ _ _ HF Hi) as (r & Hr & Hs).
    exists r. split; [by eapply list_elem_of_lookup_2|done]. }
  assert (Hmap : ∀ {B} (f : SamplingParams → B), (λ r, f (sampling_params r)) <$> reqs' = (λ r, f (sampling_params r)) <$> rows.*1).
  { intros B f. clear -HF. induction HF as [|r r' l l' [E _] _ IH]; [done|]. rewrite !fmap_cons. by rewrite E, IH. }
  split.
  - rewrite H1. symmetry. exact (Hmap _ (λ p, f32 (temperature p))).
  - rewrite H2. symmetry. exact (Hmap _ (λ p, f32 (top_p p))).
  - rewrite H3. symmetry. exact (Hmap _ top_k).
  - rewrite H4. symmetry. exact (Hmap _ (λ p, f32 (min_p p))).
  - intros Hg r' (r & Hr & E & _)%Hin. rewrite E. by apply H5.
  - intros (r' & (r & Hr & E & _)%Hin & Hn). apply H6. exists r. split; [done|]. unfold needs_min_p in *. by rewrite <- E.
  - exists (zip_with (λ r' x, (r', x.2)) reqs' rows). pose proof (Forall2_length _ _ _ HF) as Hl. rewrite length_fmap in Hl.
    split.
    + rewrite (fmap_zip_with _ _ (λ r' _, r')) by done. rewrite (zip_with_fst (λ r : Req, r)) by done. apply list_fmap_id.
    + eapply (orch_ok_same fzero ninf fadd fsub f32 f32_zero fadd_zero fsub_zero); [|exact Ho]. clear -HF. rewrite Forall2_fmap_l in HF.
      induction HF as [|x r' l l' Hx _ IH]; simpl; constructor; [by split|exact IH].
Qed.

#[local] Instance sampling_batch_info : BatchInfo SamplingBatchInfo := {|
  bi_new := from_schedule_batch;
  bi_filter := filter_batch;
  bi_merge := merge_batch;
  bi_required s := orch_is_required (penalizer_orchestrator s);
  bi_cumulate := cumulate;
  bi_fits r := row_fits vocab (new_row r);
  bi_token := token_in vocab;
  bi_describes := info_ok
|}.

#[local] Instance sampling_batch_laws : BatchInfoLaws SamplingBatchInfo.
Proof.
  split; simpl.
  - intros reqs Hf. apply info_new_ok. by apply Forall_fmap.
  - apply info_filter_ok.
  - apply info_merge_ok.
  - apply info_cumulate_ok.
  - intros r r' Hs. by apply row_fits_same.
  - apply info_ok_same.
Qed.

(** C32: a batch's sampling information filtered to any selection of its requests or merged
    with another has in every tensor the row of each request at that request's position, its
    flags are safe (greedy sampling only if every request wants it, min-p sampling if any
    does), its penalizers fit its requests, and neither operation fails. *)
Theorem sampling_info_correct s reqs : info_ok s reqs →
  (∀ keep reqs', mapM (λ i, reqs !! i) keep = Some reqs' →
     ∃ s', filter_batch keep reqs' s = Ok s' ∧ info_ok s' reqs' ∧ info_len s' = length reqs') ∧
  (∀ s' reqs', info_ok s' reqs' →
     ∃ s2, merge_batch reqs reqs' s s' = Ok s2 ∧ info_ok s2 (reqs ++ reqs') ∧
       info_len s2 = length reqs + length reqs').
Proof.
  intros Hs. split.
  - intros keep reqs' Hk. destruct (info_filter_ok s reqs keep reqs' Hs Hk) as (s' & E & Hs').
    exists s'. split_and!; [done..|]. unfold info_len. by rewrite (io_temp _ _ Hs'), length_fmap.
  - intros s' reqs' Hs'. destruct (info_merge_ok s s' reqs reqs' Hs Hs') as (s2 & E & H2).
    exists s2. split_and!; [done..|]. unfold info_len. by rewrite (io_temp _ _ H2), length_fmap, length_app.
Qed.
End info.

(** ** An instance, with integers for floats *)

#[export] Instance ex_batch_info : BatchInfo (SamplingBatchInfo (F := Z)) :=
  sampling_batch_info 0%Z (-1000)%Z Z.add Z.sub ex_f32 8 [FREQUENCY; MIN_NEW_TOKENS; PRESENCE].
#[export] Instance ex_batch_laws : BatchInfoLaws (SamplingBatchInfo (F := Z)) :=
  sampling_batch_laws 0%Z (-1000)%Z Z.add Z.sub ex_f32 8 _ ex_f32_zero eq_refl Z.sub_0_r.

Lemma sampling_info_correct_witness : ∃ s s',
  bi_new (SI := SamplingBatchInfo (F := Z)) [ex_pen_req 2 1 3; ex_pen_req 0 0 0] = Ok s ∧
  bi_filter [1] [ex_pen_req 0 0 0] s = Ok s' ∧ info_len s' = 1.
Proof.
  destruct (bi_new_ok (SI := SamplingBatchInfo (F := Z)) [ex_pen_req 2 1 3; ex_pen_req 0 0 0]) as (s & E & Hs).
  { rewrite !Forall_cons. split_and!; [apply ex_pen_fits..|constructor]. }
  destruct (sampling_info_correct 0%Z (-1000)%Z Z.add Z.sub ex_f32 8 [FREQUENCY; MIN_NEW_TOKENS; PRESENCE]
    ex_f32_zero eq_refl Z.sub_0_r s _ Hs) as [H _].
  destruct (H [1] [ex_pen_req 0 0 0] eq_refl) as (s' & E' & _ & Hl). by exists s, s'.
Defined.
