(* ===== verification/ScheduleBatch.v ===== *)
(** * Batches

    [src/python/sglang/srt/managers/schedule_batch.py], class [ScheduleBatch]: building a
    prefill or decode batch, filtering, merging, mixing and retracting. Models that are
    encoder-decoders, input embeddings and speculative decoding are not modelled. *)

From S2P Require Import Prelude PyStr PySort Sampling HeapQ Radix RadixTree RadixUpdate RadixMatch RadixInv RadixSpec RadixLock RadixEvict RadixThms Alloc PagedAlloc Req Penalty SamplingBatch BatchMem ReqTable.
From Stdlib Require Import QArith.
Close Scope Q_scope.
Open Scope nat_scope.

Inductive ForwardMode :=
  | EXTEND | DECODE | MIXED | IDLE | TARGET_VERIFY | DRAFT_EXTEND | DUMMY_FIRST.

Section batch.
Context {SI : Type} `{BatchInfo SI}.
Context (tuple_hash : list Z → Z) (oob undef uninit : Z → Z) (order : nat → list Z).

Record Batch := MkBatch {
  reqs : list Req;
  forward_mode : option ForwardMode;
  enable_overlap : bool;
  sampling_info : option SI;
  b_input_ids : option (list Z);
  req_pool_indices : list nat;
  seq_lens : list nat;
  out_cache_loc : option (list Z);
  b_output_ids : option (list Z);
  b_multimodal_inputs : option (list (option (list (list Z))));
  seq_lens_sum : nat;
  b_return_logprob : bool;
  top_logprobs_nums : option (list Z);
  token_ids_logprobs : option (list (option (list Z)));
  prefix_lens : list Z;
  extend_lens : list Z;
  extend_num_tokens : Z;
  extend_logprob_start_lens : list Z;
  extend_input_logprob_token_ids : option (list Z);
  has_stream : bool;
  has_grammar : bool;
  b_return_hidden_states : bool
}.

Definition grammar_set (r : Req) : bool := bool_decide (is_Some (grammar r)).

Definition init_new (rs : list Req) (overlap : bool) : Batch :=
  MkBatch rs None overlap None None [] [] None None None 0 (existsb return_logprob rs) None None
    [] [] 0 [] None (existsb req_stream rs) (existsb grammar_set rs) (existsb req_return_hidden_states rs).

Definition batch_size (b : Batch) : nat := length (reqs b).
Definition is_empty (b : Batch) : bool := bool_decide (length (reqs b) = 0).

Definition of_opt {A} (e : exn) (o : option A) : result A :=
  match o with Some a => Ok a | None => Raise e end.

(** ** [filter_batch] *)

(** The requests to keep when the caller does not say: those that are not finished and not
    the chunked ones (told apart by their [rid]). *)
Definition keep_unfinished (exclude : list pystr) (rs : list Req) : list nat :=
  filter (λ i, from_option (λ r, negb (finished r) && negb (bool_decide (rid r ∈ exclude))) false (rs !! i) = true)
    (seq 0 (length rs)).

Definition clear_reqs (b : Batch) : Batch :=
  MkBatch [] (forward_mode b) (enable_overlap b) (sampling_info b) (b_input_ids b) (req_pool_indices b)
    (seq_lens b) (out_cache_loc b) (b_output_ids b) (b_multimodal_inputs b) (seq_lens_sum b)
    (b_return_logprob b) (top_logprobs_nums b) (token_ids_logprobs b) (prefix_lens b) (extend_lens b)
    (extend_num_tokens b) (extend_logprob_start_lens b) (extend_input_logprob_token_ids b) (has_stream b)
    (has_grammar b) (b_return_hidden_states b).

Definition filter_keep (keep : list nat) (b : Batch) : result Batch :=
  match keep with
  | [] => Ok (clear_reqs b)
  | _ =>
      if bool_decide (length keep = length (reqs b)) then Ok b
      else
        rs ← index_rows keep (reqs b);
        mm ← (match b_multimodal_inputs b with
              | Some m => Some <$> index_rows keep m | None => Ok None end);
        pool ← index_rows keep (req_pool_indices b);
        lens ← index_rows keep (seq_lens b);
        outs ← (o ← of_opt TypeError (b_output_ids b); index_rows keep o);
        let logprob := existsb return_logprob rs in
        top ← (if logprob then t ← of_opt TypeError (top_logprobs_nums b); Some <$> index_rows keep t
               else Ok None);
        ids ← (if logprob then t ← of_opt TypeError (token_ids_logprobs b); Some <$> index_rows keep t
               else Ok None);
        info ← (s ← of_opt AttributeError (sampling_info b); bi_filter keep rs s);
        Ok (MkBatch rs (forward_mode b) (enable_overlap b) (Some info) (b_input_ids b) pool lens None (Some outs)
              mm (sum_list lens) logprob top ids (prefix_lens b) (extend_lens b) (extend_num_tokens b)
              (extend_logprob_start_lens b) (extend_input_logprob_token_ids b) (existsb req_stream rs)
              (existsb grammar_set rs) (b_return_hidden_states b))
  end.

Definition filter_batch (exclude : list pystr) (keep_indices : option (list nat)) (b : Batch) : result Batch :=
  filter_keep (default (keep_unfinished exclude (reqs b)) keep_indices) b.

(** ** [merge_batch] *)

(** The log-probability arguments of both batches, with defaults for a batch without them. *)
Definition merge_logprobs {A} (d : A) (n n' : nat) (l l' : bool) (x x' : option (list A)) : result (option (list A)) :=
  if l && l' then a ← of_opt AttributeError x; a' ← of_opt TypeError x'; Ok (Some (a ++ a'))
  else if l then a ← of_opt AttributeError x; Ok (Some (a ++ replicate n' d))
  else if l' then a' ← of_opt TypeError x'; Ok (Some (replicate n d ++ a'))
  else Ok x.

Definition merge_batch (b other : Batch) : result Batch :=
  s ← of_opt AttributeError (sampling_info b);
  s' ← of_opt AttributeError (sampling_info other);
  info ← bi_merge (reqs b) (reqs other) s s';
  outs ← (match b_output_ids b with
          | Some o => o' ← of_opt TypeError (b_output_ids other); Ok (Some (o ++ o'))
          | None => Ok None end);
  top ← merge_logprobs 0%Z (length (reqs b)) (length (reqs other)) (b_return_logprob b)
          (b_return_logprob other) (top_logprobs_nums b) (top_logprobs_nums other);
  ids ← merge_logprobs None (length (reqs b)) (length (reqs other)) (b_return_logprob b)
          (b_return_logprob other) (token_ids_logprobs b) (token_ids_logprobs other);
  mm ← (match b_multimodal_inputs b with
        | Some m => m' ← of_opt TypeError (b_multimodal_inputs other); Ok (Some (m ++ m'))
        | None => Ok None end);
  Ok (MkBatch (reqs b ++ reqs other) (forward_mode b) (enable_overlap b) (Some info) (b_input_ids b)
        (req_pool_indices b ++ req_pool_indices other) (seq_lens b ++ seq_lens other) None outs mm
        (seq_lens_sum b + seq_lens_sum other) (b_return_logprob b || b_return_logprob other) top ids
        (prefix_lens b) (extend_lens b) (extend_num_tokens b) (extend_logprob_start_lens b)
        (extend_input_logprob_token_ids b) (has_stream b || has_stream other)
        (has_grammar b || has_grammar other) (b_return_hidden_states b || b_return_hidden_states other)).

(** ** Building a batch *)

Definition lift_result {A} (r : result A) : M Mem A := λ m, (r, m).
Definition assert_ (b : bool) : M Mem unit := if b then mret tt else raise AssertionError.

(** A write into the request table; torch checks row and range. *)
Definition write_rows (f : ReqToTokenPool → option ReqToTokenPool) : M Mem unit := λ m,
  match f (m_rows m) with Some p => (Ok tt, set_m_rows p m) | None => (Raise IndexError, m) end.

(** [req_to_token[rows, lens - 1]], where an index of -1 is the last column. *)
Definition read_last (p : ReqToTokenPool) (rows : list nat) (lens : list nat) : result (list Z) :=
  of_opt IndexError
    (mapM (λ '(row, n), r ← req_to_token p !! row; match n with 0 => last r | S n => r !! n end) (zip rows lens)).

(** [write((rows, locs), values)]. *)
Fixpoint write_at (rows locs : list nat) (values : list Z) (p : ReqToTokenPool) : option ReqToTokenPool :=
  match rows, locs, values with
  | [], [], [] => Some p
  | row :: rows, loc :: locs, v :: values => p ← rp_write row loc [v] p; write_at rows locs values p
  | _, _, _ => None
  end.

(** The token a delayed penalizer sees: the last output, or the last input. *)
Definition delayed_token (r : Req) : result Z := of_opt IndexError (last (origin_input_ids r ++ output_ids r)).

Fixpoint delayed_tokens (rs : list Req) : result (list Z) :=
  match rs with
  | [] => Ok []
  | r :: rs => t ← delayed_token r; ts ← delayed_tokens rs; Ok (t :: ts)
  end.

(** The tokens the penalizers see: those of the last step, or, when the batch runs ahead of
    the results, the last known ones. *)
Definition decode_tokens (b : Batch) : result (list Z) :=
  if enable_overlap b then delayed_tokens (reqs b) else of_opt AttributeError (b_output_ids b).

Definition prepare_for_decode (b : Batch) : M Mem Batch :=
  let bs := length (reqs b) in
  s ← lift_result (of_opt AttributeError (sampling_info b));
  s ← lift_result (if bi_required s then toks ← decode_tokens b; bi_cumulate toks s else Ok s);
  let locs := seq_lens b in
  let lens := S <$> seq_lens b in
  page_size ← gets (λ m, al_page_size (m_alloc m));
  p ← gets m_rows;
  out ← (if bool_decide (page_size = 1)%Z then alloc_token_slots tuple_hash bs false
         else
           last_loc ← lift_result (read_last p (req_pool_indices b) (pred <$> lens));
           alloc_paged_token_slots_decode tuple_hash oob undef uninit order (Z.of_nat <$> lens) last_loc false);
  _ ← write_rows (write_at (req_pool_indices b) locs out.1);
  mret (MkBatch (reqs b) (Some DECODE) (enable_overlap b) (Some s) (b_output_ids b) (req_pool_indices b) lens
          (Some out.1) None (b_multimodal_inputs b) (seq_lens_sum b + bs) (b_return_logprob b)
          (top_logprobs_nums b) (token_ids_logprobs b) (prefix_lens b) (extend_lens b) (extend_num_tokens b)
          (extend_logprob_start_lens b) (extend_input_logprob_token_ids b) (has_stream b) (has_grammar b)
          (b_return_hidden_states b)).

(** The input tokens whose log-probabilities an extend batch returns, padded with 0. *)
Definition logprob_token_ids (r : Req) : list Z :=
  let pre := Z.of_nat (length (prefix_indices r)) in
  let global_start_idx := if bool_decide (pre < logprob_start_len r)%Z then logprob_start_len r else pre in
  let ids := slice (Z.to_nat (global_start_idx + 1)) (length (fill_ids r) + 1) (origin_input_ids r) in
  ids ++ replicate (Z.to_nat (extend_input_len r - extend_logprob_start_len r - Z.of_nat (length ids))) 0%Z.

(** One turn of the loop of [prepare_for_extend]: what becomes of the request, and the whole
    turn with its check and the copy of the cached prefix into the request's row. *)
Definition extended (row : nat) (r : Req) : Req :=
  let pre_len := length (prefix_indices r) in
  let r := set_req_pool_idx (Some row) r in
  let r := set_cached_tokens (cached_tokens r + (Z.of_nat pre_len - already_computed r))%Z r in
  let r := set_is_retracted false (set_already_computed (Z.of_nat (length (fill_ids r))) r) in
  set_extend_logprob_start_len
    (if bool_decide (Z.of_nat pre_len ≤ logprob_start_len r)%Z
     then Z.min (Z.min (logprob_start_len r - Z.of_nat pre_len) (extend_input_len r)) (Z.of_nat (seqlen r) - 1)
     else 0)%Z r.

Definition extend_req (row : nat) (r : Req) : M Mem Req :=
  let pre_len := length (prefix_indices r) in
  let seq_len := length (fill_ids r) in
  _ ← assert_ (bool_decide (Z.of_nat seq_len - Z.of_nat pre_len = extend_input_len r)%Z);
  _ ← (if bool_decide (0 < pre_len) then write_rows (rp_write row 0 (prefix_indices r)) else mret tt);
  mret (extended row r).

Fixpoint extend_reqs (rows : list nat) (rs : list Req) : M Mem (list Req) :=
  match rows, rs with
  | row :: rows, r :: rs => r ← extend_req row r; rs ← extend_reqs rows rs; mret (r :: rs)
  | _, _ => mret []
  end.

Definition to_item (row : nat) (r : Req) : item := MkItem row (length (prefix_indices r)) (length (fill_ids r)).

Definition prepare_for_extend (b : Batch) : M Mem Batch :=
  let bs := length (reqs b) in
  rows ← alloc_req_slots bs;
  let input_ids := (λ r, drop (length (prefix_indices r)) (fill_ids r)) <$> reqs b in
  let n := sum_list (length <$> input_ids) in
  let lens := (λ r, length (fill_ids r)) <$> reqs b in
  let pre := (λ r, length (prefix_indices r)) <$> reqs b in
  rs ← extend_reqs rows (reqs b);
  let logprob_ids := if b_return_logprob b then Some (concat (logprob_token_ids <$> rs)) else None in
  page_size ← gets (λ m, al_page_size (m_alloc m));
  p ← gets m_rows;
  out ← (if bool_decide (page_size = 1)%Z then alloc_token_slots tuple_hash n false
         else
           last_loc ← lift_result (of_opt IndexError (get_last_loc_torch p rows pre));
           alloc_paged_token_slots_extend tuple_hash oob undef uninit order (Z.of_nat <$> pre) (Z.of_nat <$> lens)
             last_loc (Z.of_nat n) false);
  _ ← write_rows (write_loop (zip_with to_item rows rs) 0 out.1);
  s ← lift_result (bi_new rs);
  mret (MkBatch rs (Some EXTEND) (enable_overlap b) (Some s) (Some (concat input_ids)) rows lens (Some out.1)
          (b_output_ids b) (Some (multimodal_inputs <$> rs)) (sum_list lens) (b_return_logprob b)
          (if b_return_logprob b then Some (top_logprobs_num <$> rs) else top_logprobs_nums b)
          (if b_return_logprob b then Some (token_ids_logprob <$> rs) else token_ids_logprobs b)
          (Z.of_nat <$> pre) (extend_input_len <$> rs) (Z.of_nat n) (extend_logprob_start_len <$> rs)
          logprob_ids (has_stream b) (has_grammar b) (b_return_hidden_states b)).

(** [mix_with_running]: decode steps of the running requests join a prefill batch. *)
Definition mix_req (r : Req) : Req := set_extend_input_len 1 (set_fill_ids (origin_input_ids r ++ output_ids r) r).

Definition set_reqs (rs : list Req) (b : Batch) : Batch :=
  MkBatch rs (forward_mode b) (enable_overlap b) (sampling_info b) (b_input_ids b) (req_pool_indices b)
    (seq_lens b) (out_cache_loc b) (b_output_ids b) (b_multimodal_inputs b) (seq_lens_sum b)
    (b_return_logprob b) (top_logprobs_nums b) (token_ids_logprobs b) (prefix_lens b) (extend_lens b)
    (extend_num_tokens b) (extend_logprob_start_lens b) (extend_input_logprob_token_ids b) (has_stream b)
    (has_grammar b) (b_return_hidden_states b).

Definition mix_with_running (b running : Batch) : result Batch :=
  let running := set_reqs (mix_req <$> reqs running) running in
  let running_bs := batch_size running in
  ids ← of_opt TypeError (b_input_ids b);
  ids' ← of_opt TypeError (b_input_ids running);
  locs ← of_opt TypeError (out_cache_loc b);
  locs' ← of_opt TypeError (out_cache_loc running);
  b ← merge_batch b running;
  let delta := (if enable_overlap b then 0 else -1)%Z in
  Ok (MkBatch (reqs b) (Some MIXED) (enable_overlap b) (sampling_info b) (Some (ids ++ ids')) (req_pool_indices b)
        (seq_lens b) (Some (locs ++ locs')) (b_output_ids b) (b_multimodal_inputs b) (seq_lens_sum b)
        (b_return_logprob b) (top_logprobs_nums b) (token_ids_logprobs b)
        (prefix_lens b ++ ((λ r, Z.of_nat (seqlen r) + delta)%Z <$> reqs running))
        (extend_lens b ++ replicate running_bs 1%Z) (extend_num_tokens b + Z.of_nat running_bs)%Z
        (extend_logprob_start_lens b ++ replicate running_bs 0%Z) (extend_input_logprob_token_ids b)
        (has_stream b) (has_grammar b) (b_return_hidden_states b)).

(** ** [retract_decode] *)

Definition retract_decode_steps : Z := 20.

(** The key of the sort, largest first: outputs, then the negated number of inputs. *)
Definition retract_key (rs : list Req) (i : nat) : Z * Z :=
  match rs !! i with
  | Some r => (Z.of_nat (length (output_ids r)), - Z.of_nat (length (origin_input_ids r)))%Z
  | None => (0, 0)%Z
  end.

Definition key_geb (x y : Z * Z) : bool :=
  bool_decide (y.1 < x.1)%Z || bool_decide (x.1 = y.1)%Z && bool_decide (y.2 ≤ x.2)%Z.

Definition sorted_indices (rs : list Req) : list nat := sort_by key_geb (retract_key rs) (seq 0 (length rs)).

(** [req_to_token[row, i:j]]. *)
Definition read_slice (row i j : nat) (p : ReqToTokenPool) : option (list Z) :=
  r ← req_to_token p !! row; Some (slice i j r).

Definition free_slots (v : list Z) : M Mem unit := λ m,
  match al_free v (m_alloc m) with Ok a => (Ok tt, set_m_alloc a m) | Raise e => (Raise e, m) end.

Definition dec_lock (n : nat) : M Mem unit := λ m,
  match m_cache m with
  | ChunkC => (Ok tt, m)
  | RadixC c =>
      match dec_lock_ref n c with
      | Some (_, c) => (Ok tt, set_m_cache (RadixC c) m)
      | None => (Raise AttributeError, m)
      end
  end.

(** Retracting one request with [seq_len] tokens; [left] requests stay. *)
Definition retract_one (page_size : nat) (r : Req) (seq_len left : nat) : M Mem Req :=
  row ← of_option TypeError (req_pool_idx r);
  c ← gets m_cache;
  p ← gets m_rows;
  _ ← (match c with
       | ChunkC =>
           v ← of_option IndexError (read_slice row 0 seq_len p);
           _ ← free_slots v;
           modify (λ m, set_m_rows (rp_free [row] (m_rows m)) m)
       | RadixC _ =>
           let last_uncached_pos := length (prefix_indices r) / page_size * page_size in
           v ← of_option IndexError (read_slice row last_uncached_pos seq_len p);
           _ ← free_slots v;
           _ ← modify (λ m, set_m_rows (rp_free [row] (m_rows m)) m);
           n ← of_option AttributeError (last_node r);
           _ ← dec_lock n;
           avail ← available;
           cache_evict tuple_hash (Z.max 0 (Z.of_nat left * retract_decode_steps - avail))
       end);
  mret (reset_for_retract r).

(** The loop, on the reversed [sorted_indices]: the requests retracted and the indices left. *)
Fixpoint retract_loop (page_size : nat) (rs : list Req) (lens : list nat) (first_iter : bool)
    (rev_indices : list nat) (retracted : list Req) : M Mem (list Req * list nat) :=
  avail ← available;
  if bool_decide (avail < Z.of_nat (length rev_indices) * retract_decode_steps)%Z || first_iter then
    match rev_indices with
    | [] => raise IndexError
    | [i] => avail ← available; _ ← assert_ (bool_decide (0 < avail)%Z); mret (retracted, [i])
    | i :: rest =>
        r ← of_option IndexError (rs !! i);
        n ← of_option IndexError (lens !! i);
        r ← retract_one page_size r n (length rest);
        retract_loop page_size rs lens false rest (retracted ++ [r])
    end
  else mret (retracted, rev_indices).

Fixpoint sum_max_new (rs : list Req) : result Z :=
  match rs with
  | [] => Ok 0%Z
  | r :: rs => m ← of_opt TypeError (max_new_tokens (sampling_params r)); n ← sum_max_new rs; Ok (m + n)%Z
  end.

Definition retract_decode (page_size : nat) (b : Batch) : M Mem (Batch * list Req * Q) :=
  '(retracted, rest) ← retract_loop page_size (reqs b) (seq_lens b) true (reverse (sorted_indices (reqs b))) [];
  b ← lift_result (filter_batch [] (Some (reverse rest)) b);
  let total_decoded := Z.of_nat (sum_list (length ∘ output_ids <$> reqs b)) in
  total ← lift_result (sum_max_new (reqs b));
  if bool_decide (total = 0)%Z then raise ZeroDivisionError
  else
    let ratio := (inject_Z (total_decoded + retract_decode_steps * Z.of_nat (length (reqs b))) / inject_Z total)%Q in
    mret (b, retracted, if Qle_bool 1 ratio then 1%Q else ratio).

(** ** The rows of a batch *)

(** The logprob arguments at the positions of the requests that want log-probabilities. *)
Definition logprob_rows {A} (f : Req → A) (rs : list Req) (o : option (list A)) : Prop :=
  existsb return_logprob rs = true → ∃ l, o = Some l ∧ length l = length rs ∧
    ∀ i r, rs !! i = Some r → return_logprob r = true → l !! i = Some (f r).

(** Every array has one row per request, at the request's position. *)
Record batch_ok (b : Batch) : Prop := {
  bo_info : ∃ s, sampling_info b = Some s ∧ bi_describes s (reqs b);
  bo_rows : Some <$> req_pool_indices b = req_pool_idx <$> reqs b;
  bo_lens : length (seq_lens b) = length (reqs b);
  bo_sum : seq_lens_sum b = sum_list (seq_lens b);
  bo_outs : ∀ o, b_output_ids b = Some o → length o = length (reqs b);
  bo_mm : ∀ m, b_multimodal_inputs b = Some m → m = multimodal_inputs <$> reqs b;
  bo_logprob : b_return_logprob b = existsb return_logprob (reqs b);
  bo_top : logprob_rows top_logprobs_num (reqs b) (top_logprobs_nums b);
  bo_ids : logprob_rows token_ids_logprob (reqs b) (token_ids_logprobs b);
  bo_stream : has_stream b = existsb req_stream (reqs b);
  bo_grammar : has_grammar b = existsb grammar_set (reqs b)
}.

(** Selecting the same positions of two lists. *)
Lemma select {A} (l : list A) (keep : list nat) n : length l = n → (∀ i, i ∈ keep → i < n) →
  ∃ xs, index_rows keep l = Ok xs ∧ mapM (λ i, l !! i) keep = Some xs ∧ length xs = length keep ∧
    ∀ j i, keep !! j = Some i → xs !! j = l !! i.
Proof.
  intros <- Hk. unfold index_rows. destruct (mapM (λ i, l !! i) keep) as [xs|] eqn:E.
  - exists xs. split_and!; [done|done|by apply length_mapM in E|]. intros j i Hj.
    apply mapM_Some in E. destruct (Forall2_lookup_l _ _ _ _ _ E Hj) as (x & Hx & Hi). by rewrite Hx.
  - exfalso. apply mapM_None in E. apply Exists_exists in E as (i & Hi & Hn).
    apply lookup_ge_None in Hn. specialize (Hk i Hi). lia.
Qed.

Lemma select_fmap {A B} (f : A → B) (l : list A) (keep : list nat) (xs : list A) :
  mapM (λ i, l !! i) keep = Some xs → mapM (λ i, (f <$> l) !! i) keep = Some (f <$> xs).
Proof.
  intros Hk%mapM_Some. apply mapM_Some, Forall2_fmap_r. eapply Forall2_impl; [exact Hk|].
  intros i x Hx. simpl. by rewrite list_lookup_fmap, Hx.
Qed.

Context `{!BatchInfoLaws SI}.

Lemma select_logprob {A} (f : Req → A) (rs rs' : list Req) (keep : list nat) o :
  logprob_rows f rs o → mapM (λ i, rs !! i) keep = Some rs' → existsb return_logprob rs' = true →
  ∃ t t', o = Some t ∧ index_rows keep t = Ok t' ∧ logprob_rows f rs' (Some t').
Proof.
  intros Hl Hk Hr. assert (Hin : ∀ i, i ∈ keep → i < length rs).
  { intros i [j Hi]%list_elem_of_lookup. apply mapM_Some in Hk.
    destruct (Forall2_lookup_l _ _ _ _ _ Hk Hi) as (x & _ & Hx). by eapply lookup_lt_Some. }
  destruct Hl as (l & -> & Hlen & Hrow).
  { apply existsb_exists in Hr as (r & Hr & Hlp). apply existsb_exists. exists r. split; [|done].
    apply list_elem_of_In. eapply kept_elem; [done|]. by apply list_elem_of_In. }
  destruct (select l keep (length rs) Hlen Hin) as (t' & E & _ & Hlen' & Hsel).
  exists l, t'. split_and!; [done..|]. intros _. exists t'. split_and!; [done| |].
  - apply length_mapM in Hk. congruence.
  - intros j r Hj Hlp. apply mapM_Some in Hk. destruct (Forall2_lookup_r _ _ _ _ _ Hk Hj) as (i & Hi & Hr').
    rewrite (Hsel j i Hi). by apply Hrow.
Qed.

Lemma filter_keep_ok b keep rs : batch_ok b → is_Some (b_output_ids b) → keep ≠ [] →
  length keep ≠ length (reqs b) → mapM (λ i, reqs b !! i) keep = Some rs →
  ∃ b', filter_keep keep b = Ok b' ∧ reqs b' = rs ∧ batch_ok b' ∧ is_Some (b_output_ids b') ∧
    (∀ j i, keep !! j = Some i → req_pool_indices b' !! j = req_pool_indices b !! i ∧
       seq_lens b' !! j = seq_lens b !! i ∧
       (b_output_ids b' ≫= λ o, o !! j) = (b_output_ids b ≫= λ o, o !! i)).
Proof.
  intros [(s & Hs & Hd) Hrows Hlens Hsum Houts Hmm Hlp Htop Hids Hst Hgr] [o Ho] Hne Hlen Hk.
  assert (Hin : ∀ i, i ∈ keep → i < length (reqs b)).
  { intros i [j Hi]%list_elem_of_lookup. pose proof Hk as Hk'. apply mapM_Some in Hk'.
    destruct (Forall2_lookup_l _ _ _ _ _ Hk' Hi) as (x & _ & Hx). by eapply lookup_lt_Some. }
  assert (Hpl : length (req_pool_indices b) = length (reqs b)).
  { by rewrite <- (length_fmap Some), Hrows, length_fmap. }
  destruct (select (reqs b) keep _ eq_refl Hin) as (rs2 & E1 & Hk2 & Hl1 & _). rewrite Hk in Hk2. injection Hk2 as <-.
  destruct (select (req_pool_indices b) keep _ Hpl Hin) as (pool & E2 & Hpk & Hl2 & Hpool).
  destruct (select (seq_lens b) keep _ Hlens Hin) as (lens & E3 & _ & Hl3 & Hls).
  destruct (select o keep _ (Houts _ Ho) Hin) as (outs & E4 & _ & Hl4 & Hout).
  destruct (bi_filter_ok s (reqs b) keep rs Hd Hk) as (s' & E5 & Hd').
  set (mm := (λ _, multimodal_inputs <$> rs) <$> b_multimodal_inputs b).
  assert (E6 : (match b_multimodal_inputs b with
                | Some m => Some <$> index_rows keep m | None => Ok None end) = Ok mm).
  { unfold mm. destruct (b_multimodal_inputs b) as [m|]; [|done]. rewrite (Hmm _ eq_refl).
    by rewrite (index_rows_fmap _ _ _ _ Hk). }
  assert (∃ top, (if existsb return_logprob rs then t ← of_opt TypeError (top_logprobs_nums b);
                    Some <$> index_rows keep t else Ok None) = Ok top ∧ logprob_rows top_logprobs_num rs top)
    as (top & E7 & Htop').
  { destruct (existsb return_logprob rs) eqn:Er; [|exists None; split; [done|]; unfold logprob_rows; congruence].
    destruct (select_logprob _ _ _ _ _ Htop Hk Er) as (t & t' & -> & Et & Ht'). exists (Some t').
    simpl. by rewrite Et. }
  assert (∃ ids, (if existsb return_logprob rs then t ← of_opt TypeError (token_ids_logprobs b);
                    Some <$> index_rows keep t else Ok None) = Ok ids ∧ logprob_rows token_ids_logprob rs ids)
    as (ids & E8 & Hids').
  { destruct (existsb return_logprob rs) eqn:Er; [|exists None; split; [done|]; unfold logprob_rows; congruence].
    destruct (select_logprob _ _ _ _ _ Hids Hk Er) as (t & t' & -> & Et & Ht'). exists (Some t').
    simpl. by rewrite Et. }
  unfold filter_keep. destruct keep as [|i0 keep']; [done|]. rewrite bool_decide_eq_false_2 by done.
  set (keep := i0 :: keep') in *. rewrite E1. cbn [mbind result_bind]. rewrite E6. cbn [mbind result_bind].
  rewrite E2. cbn [mbind result_bind]. rewrite E3, Ho. cbn [mbind result_bind of_opt]. rewrite E4.
  cbn [mbind result_bind]. cbn zeta. rewrite E7. cbn [mbind result_bind]. rewrite E8.
  cbn [mbind result_bind]. rewrite Hs. cbn [mbind result_bind of_opt]. rewrite E5. cbn [mbind result_bind].
  eexists. split; [done|]. split; [done|]. split; [|split; [by eexists|]].
  - split; simpl; try done; try congruence; [by exists s'| |].
    + apply (select_fmap Some) in Hpk. apply (select_fmap req_pool_idx) in Hk.
      rewrite Hrows, Hk in Hpk. by injection Hpk.
    + intros m Hm'. unfold mm in Hm'. destruct (b_multimodal_inputs b); simpl in Hm'; [by injection Hm' as <-|done].
  - intros j i Hj. simpl. split_and!; [by apply Hpool|by apply Hls|by apply Hout].
Qed.

(** What else a filtered batch takes over. *)
Lemma filter_batch_fields exclude keep b b' : filter_batch exclude keep b = Ok b' → reqs b' ≠ [] →
  enable_overlap b' = enable_overlap b ∧ (is_Some (b_multimodal_inputs b) → is_Some (b_multimodal_inputs b')) ∧
  ∀ o, b_output_ids b = Some o → ∃ o', b_output_ids b' = Some o' ∧ ∀ t, t ∈ o' → t ∈ o.
Proof.
  unfold filter_batch, filter_keep. generalize (default (keep_unfinished exclude (reqs b)) keep). intros ks E Hne.
  destruct ks as [|k ks]; [by injection E as <-|].
  case_bool_decide; [injection E as <-; split_and!; [done..|]; intros o Ho; by exists o|].
  destruct (index_rows (k :: ks) (reqs b)) as [rs|]; [|done]. cbn [mbind result_bind] in E.
  destruct (b_multimodal_inputs b) as [mm|].
  1: destruct (index_rows (k :: ks) mm) as [mm'|]; [|done].
  all: cbn [fmap result_fmap mbind result_bind] in E;
    destruct (index_rows (k :: ks) (req_pool_indices b)) as [pool|]; [|done]; cbn [mbind result_bind] in E;
    destruct (index_rows (k :: ks) (seq_lens b)) as [lens|]; [|done]; cbn [mbind result_bind] in E;
    destruct (b_output_ids b) as [o|]; [|done]; cbn [of_opt mbind result_bind] in E;
    destruct (index_rows (k :: ks) o) as [o'|] eqn:Eo; [|done]; cbn [mbind result_bind] in E;
    repeat match type of E with
      | mbind _ ?x = Ok _ => destruct x; [|done]; cbn [mbind result_bind] in E
      end;
    injection E as <-; split_and!; try done; intros o1 [= <-]; exists o'; (split; [done|]); intros t Ht;
    unfold index_rows in Eo; destruct (mapM _ (k :: ks)) as [xs|] eqn:Em; [|done]; injection Eo as <-; by eapply kept_elem.
Qed.

(** The positions that pass a test select the elements that pass it. *)
Lemma select_filter {A} (Q : A → bool) (l pre : list A) :
  mapM (λ i, (pre ++ l) !! i)
    (filter (λ i, from_option Q false ((pre ++ l) !! i) = true) (seq (length pre) (length l))) =
  Some (filter (λ x, Q x = true) l).
Proof.
  revert pre. induction l as [|x l IH]; intros pre; [done|]. cbn [length seq].
  assert (Hx : (pre ++ x :: l) !! length pre = Some x) by by apply list_lookup_middle.
  specialize (IH (pre ++ [x])). rewrite <- app_assoc, length_app, Nat.add_1_r in IH. cbn [app] in IH.
  rewrite !filter_cons, Hx. cbn [from_option].
  destruct (decide (Q x = true)) as [E|E]; [|done].
  cbn [mapM]. rewrite Hx. cbn [mbind option_bind]. by rewrite IH.
Qed.

Lemma filter_full {A} (P : A → Prop) `{!∀ x, Decision (P x)} (l : list A) :
  length (filter P l) = length l → filter P l = l.
Proof.
  induction l as [|x l IH]; [done|]. rewrite filter_cons. pose proof (length_filter P l).
  case_decide; simpl; intros Hl; [f_equal; apply IH; lia|lia].
Qed.

Lemma filter_batch_ok b exclude : batch_ok b → is_Some (b_output_ids b) →
  let keep := keep_unfinished exclude (reqs b) in
  ∃ b', filter_batch exclude None b = Ok b' ∧
    reqs b' = filter (λ r, negb (finished r) && negb (bool_decide (rid r ∈ exclude)) = true) (reqs b) ∧
    mapM (λ i, reqs b !! i) keep = Some (reqs b') ∧
    (reqs b' ≠ [] → batch_ok b' ∧ is_Some (b_output_ids b') ∧
      ∀ j i, keep !! j = Some i → req_pool_indices b' !! j = req_pool_indices b !! i ∧
        seq_lens b' !! j = seq_lens b !! i ∧
        (b_output_ids b' ≫= λ o, o !! j) = (b_output_ids b ≫= λ o, o !! i)).
Proof.
  intros OK Ho keep. set (Q := λ r, negb (finished r) && negb (bool_decide (rid r ∈ exclude))).
  pose proof (select_filter Q (reqs b) []) as Hk. cbn [app length] in Hk.
  change (mapM (λ i, reqs b !! i) keep = Some (filter (λ r, Q r = true) (reqs b))) in Hk.
  unfold filter_batch. cbn [default]. fold keep.
  destruct (decide (keep = [])) as [E|Hne].
  { rewrite E in *. simpl in Hk. injection Hk as Hk. eexists. split; [done|]. split; [exact Hk|]. split; done. }
  destruct (decide (length keep = length (reqs b))) as [El|El].
  - exists b. unfold filter_keep. destruct keep as [|i0 keep'] eqn:Ek; [done|].
    rewrite bool_decide_eq_true_2 by done. split; [done|].
    rewrite <- Ek in *. clear Ek.
    assert (Hkeep : keep = seq 0 (length (reqs b))).
    { apply filter_full. fold keep. by rewrite length_seq. }
    assert (Hall : filter (λ r, Q r = true) (reqs b) = reqs b).
    { apply filter_full. apply length_mapM in Hk. congruence. }
    split; [symmetry; exact Hall|]. split; [by rewrite Hall in Hk|]. intros _. split_and!; [done..|]. intros j i Hj. rewrite Hkeep in Hj.
    apply lookup_seq in Hj as [-> _]. done.
  - destruct (filter_keep_ok b keep _ OK Ho Hne El Hk) as (b' & E & Hr & OK' & Ho' & Hrow).
    exists b'. rewrite Hr. split_and!; done.
Qed.

(** [filter_batch()] keeps exactly the unfinished requests outside the excluded ones, in
    their order; every per-request array keeps the rows of these requests at their new
    positions, the derived fields (sum of lengths, log-probability lists and flags) are those
    of the remaining requests, and the sampling information follows. With nothing to keep
    the batch becomes empty. *)
Theorem filter_batch_correct b exclude : batch_ok b → is_Some (b_output_ids b) →
  let keep := keep_unfinished exclude (reqs b) in
  ∃ b', filter_batch exclude None b = Ok b' ∧
    reqs b' = filter (λ r, negb (finished r) && negb (bool_decide (rid r ∈ exclude)) = true) (reqs b) ∧
    (reqs b' ≠ [] → batch_ok b' ∧ is_Some (b_output_ids b') ∧
      ∀ j i, keep !! j = Some i → req_pool_indices b' !! j = req_pool_indices b !! i ∧
        seq_lens b' !! j = seq_lens b !! i ∧
        (b_output_ids b' ≫= λ o, o !! j) = (b_output_ids b ≫= λ o, o !! i)).
Proof.
  intros OK Ho. destruct (filter_batch_ok b exclude OK Ho) as (b' & E & Hr & _ & H'). by exists b'.
Qed.

(** ** Requests that change in place *)

(** The fields of a request that a batch has copied into its arrays. *)
Record same_columns (r r' : Req) : Prop := {
  sm_params : same_params r r';
  sm_row : req_pool_idx r' = req_pool_idx r;
  sm_mm : multimodal_inputs r' = multimodal_inputs r;
  sm_logprob : return_logprob r' = return_logprob r;
  sm_top : top_logprobs_num r' = top_logprobs_num r;
  sm_ids : token_ids_logprob r' = token_ids_logprob r;
  sm_stream : req_stream r' = req_stream r;
  sm_grammar : grammar_set r' = grammar_set r
}.

Lemma same_columns_trans r r' r'' : same_columns r r' → same_columns r' r'' → same_columns r r''.
Proof. intros [[? ?] ? ? ? ? ? ? ?] [[? ?] ? ? ? ? ? ? ?]. split; [split|..]; congruence. Qed.

(** A field that the batch has copied. *)
Lemma columns_fmap {A} (f : Req → A) rs rs' : (∀ r r', same_columns r r' → f r' = f r) →
  Forall2 same_columns rs rs' → f <$> rs' = f <$> rs.
Proof. intros Hf. induction 1 as [|r r' l l' Hr _ IH]; [done|]. rewrite !fmap_cons. by rewrite (Hf r r' Hr), IH. Qed.

Lemma columns_existsb (f : Req → bool) rs rs' : (∀ r r', same_columns r r' → f r' = f r) →
  Forall2 same_columns rs rs' → existsb f rs' = existsb f rs.
Proof. intros Hf. induction 1 as [|r r' l l' Hr _ IH]; simpl; [done|]. by rewrite (Hf r r' Hr), IH. Qed.

Lemma columns_logprob {A} (f : Req → A) rs rs' o : (∀ r r', same_columns r r' → f r' = f r) →
  Forall2 same_columns rs rs' → logprob_rows f rs o → logprob_rows f rs' o.
Proof.
  intros Hf HF Hl Hr. rewrite (columns_existsb return_logprob rs rs' sm_logprob HF) in Hr.
  destruct (Hl Hr) as (l & -> & Hn & Hi). exists l. split; [done|]. split; [by rewrite Hn; eapply Forall2_length|].
  intros i r' Hr' Hlp. destruct (Forall2_lookup_r _ _ _ _ _ HF Hr') as (r & Hri & Hs).
  rewrite (Hf r r' Hs). apply Hi; [done|]. by rewrite <- (sm_logprob _ _ Hs).
Qed.

Lemma set_reqs_ok b rs : batch_ok b → Forall2 same_columns (reqs b) rs → batch_ok (set_reqs rs b).
Proof.
  intros [(s & Hs & Hd) Hrows Hlens Hsum Houts Hmm Hlp Htop Hids Hst Hgr] HF. pose proof (Forall2_length _ _ _ HF) as Hl.
  split; simpl; try congruence.
  - exists s. split; [done|]. eapply bi_describes_same; [|done]. eapply Forall2_impl; [exact HF|]. apply sm_params.
  - rewrite Hrows. symmetry. by apply columns_fmap; [apply sm_row|].
  - intros o Ho. rewrite <- Hl. by apply Houts.
  - intros m Hm. rewrite (Hmm m Hm). symmetry. by apply columns_fmap; [apply sm_mm|].
  - rewrite Hlp. symmetry. by apply columns_existsb; [apply sm_logprob|].
  - by eapply columns_logprob; [apply sm_top| |].
  - by eapply columns_logprob; [apply sm_ids| |].
  - rewrite Hst. symmetry. by apply columns_existsb; [apply sm_stream|].
  - rewrite Hgr. symmetry. by apply columns_existsb; [apply sm_grammar|].
Qed.

(** ** Merging *)

Lemma existsb_lookup {A} (f : A → bool) (l : list A) i x : l !! i = Some x → f x = true → existsb f l = true.
Proof.
  intros Hi Hf. apply existsb_exists. exists x. split; [|done].
  apply list_elem_of_In. by eapply list_elem_of_lookup_2.
Qed.

Lemma merge_logprobs_ok {A} (f : Req → A) (d : A) (rs rs' : list Req) (x x' : option (list A)) :
  logprob_rows f rs x → logprob_rows f rs' x' →
  ∃ y, merge_logprobs d (length rs) (length rs') (existsb return_logprob rs) (existsb return_logprob rs') x x' = Ok y ∧
    logprob_rows f (rs ++ rs') y.
Proof.
  intros Hx Hx'. unfold logprob_rows in *. rewrite existsb_app. unfold merge_logprobs.
  destruct (existsb return_logprob rs) eqn:E, (existsb return_logprob rs') eqn:E'; simpl.
  - destruct (Hx eq_refl) as (l & -> & Hl & Hi), (Hx' eq_refl) as (l' & -> & Hl' & Hi'). simpl.
    eexists. split; [done|]. intros _. eexists. split; [done|]. split; [rewrite !length_app; lia|].
    intros i r [Hr|[Hge Hr]]%lookup_app_Some Hlp.
    + apply lookup_app_l_Some. by apply Hi.
    + rewrite lookup_app_r by lia. rewrite Hl. by apply Hi'.
  - destruct (Hx eq_refl) as (l & -> & Hl & Hi). simpl.
    eexists. split; [done|]. intros _. eexists. split; [done|]. split; [rewrite !length_app, length_replicate; lia|].
    intros i r [Hr|[Hge Hr]]%lookup_app_Some Hlp.
    + apply lookup_app_l_Some. by apply Hi.
    + rewrite (existsb_lookup return_logprob _ _ _ Hr Hlp) in E'. done.
  - destruct (Hx' eq_refl) as (l & -> & Hl & Hi). simpl.
    eexists. split; [done|]. intros _. eexists. split; [done|]. split; [rewrite !length_app, length_replicate; lia|].
    intros i r [Hr|[Hge Hr]]%lookup_app_Some Hlp.
    + rewrite (existsb_lookup return_logprob _ _ _ Hr Hlp) in E. done.
    + rewrite lookup_app_r; rewrite length_replicate; [|lia]. by apply Hi.
  - by eexists.
Qed.

Lemma merge_batch_ok b other : batch_ok b → batch_ok other →
  (is_Some (b_output_ids b) → is_Some (b_output_ids other)) →
  (is_Some (b_multimodal_inputs b) → is_Some (b_multimodal_inputs other)) →
  ∃ b', merge_batch b other = Ok b' ∧ batch_ok b' ∧ reqs b' = reqs b ++ reqs other ∧
    seq_lens b' = seq_lens b ++ seq_lens other ∧
    b_output_ids b' = (o ← b_output_ids b; o' ← b_output_ids other; Some (o ++ o')) ∧
    out_cache_loc b' = None ∧ (is_Some (b_multimodal_inputs b) → is_Some (b_multimodal_inputs b')) ∧
    (forward_mode b', enable_overlap b', b_input_ids b', prefix_lens b', extend_lens b', extend_num_tokens b',
       extend_logprob_start_lens b') =
    (forward_mode b, enable_overlap b, b_input_ids b, prefix_lens b, extend_lens b, extend_num_tokens b,
       extend_logprob_start_lens b).
Proof.
  intros [(s & Hs & Hd) Hrows Hlens Hsum Houts Hmm Hlp Htop Hids Hst Hgr]
    [(s' & Hs' & Hd') Hrows' Hlens' Hsum' Houts' Hmm' Hlp' Htop' Hids' Hst' Hgr'] Ho Hm.
  destruct (bi_merge_ok s s' _ _ Hd Hd') as (s2 & Es & Hd2).
  destruct (merge_logprobs_ok top_logprobs_num 0%Z _ _ _ _ Htop Htop') as (top & Et & Ht).
  destruct (merge_logprobs_ok token_ids_logprob None _ _ _ _ Hids Hids') as (ids & Ei & Hi).
  unfold merge_batch. rewrite Hs, Hs'. cbn [of_opt mbind result_bind]. rewrite Es. cbn [mbind result_bind].
  rewrite Hlp, Hlp', Et, Ei.
  destruct (b_output_ids b) as [o|] eqn:Eo, (b_multimodal_inputs b) as [m|] eqn:Em;
    repeat match goal with
      | H : is_Some (Some _) → is_Some _ |- _ =>
          let x := fresh "x" in let E := fresh "E" in
          destruct (H (ex_intro _ _ eq_refl)) as [x E]; rewrite E in *; clear H
      end; cbn [of_opt mbind result_bind option_bind];
    (eexists; split; [reflexivity|]; split_and!; [|reflexivity|reflexivity|reflexivity|reflexivity|by eauto|reflexivity]);
    (split; cbn [reqs sampling_info req_pool_indices seq_lens seq_lens_sum b_output_ids b_multimodal_inputs
       b_return_logprob top_logprobs_nums token_ids_logprobs has_stream has_grammar];
     [by exists s2| |rewrite !length_app; congruence| | | | |done|done| |]);
    rewrite ?fmap_app, ?existsb_app, ?Hrows, ?Hrows', ?Hsum, ?Hsum', ?Hst, ?Hst', ?Hgr, ?Hgr'; try done;
    try (by rewrite sum_list_with_app);
    try (intros x' [= <-]; rewrite !length_app; f_equal; [by apply Houts|by apply Houts']);
    try (intros x' [= <-]; f_equal; [by apply Hmm|by apply Hmm']).
Qed.

(** [merge_batch()] of two well-formed batches does not raise: every per-request array of
    the result has the rows of the first batch followed by those of the second, the
    log-probability arguments of a batch that has none are filled with defaults, the flags
    are the disjunctions, the sampling information follows and no slots stay assigned. The
    hypotheses say that the second batch has the optional arrays that the first one has. *)
Theorem merge_batch_correct b other : batch_ok b → batch_ok other →
  (is_Some (b_output_ids b) → is_Some (b_output_ids other)) →
  (is_Some (b_multimodal_inputs b) → is_Some (b_multimodal_inputs other)) →
  ∃ b', merge_batch b other = Ok b' ∧ batch_ok b' ∧ reqs b' = reqs b ++ reqs other ∧
    seq_lens b' = seq_lens b ++ seq_lens other ∧
    b_output_ids b' = (o ← b_output_ids b; o' ← b_output_ids other; Some (o ++ o')) ∧
    out_cache_loc b' = None.
Proof.
  intros OK OK' Ho Hm. destruct (merge_batch_ok b other OK OK' Ho Hm) as (b' & E & H' & H1 & H2 & H3 & H4 & _ & _).
  by exists b'.
Qed.
End batch.

(** ** Instances *)

Definition ex_batch (r : Req) (row : nat) (s : SamplingBatchInfo (F := Z)) : Batch :=
  MkBatch [set_req_pool_idx (Some row) r] (Some DECODE) false (Some s) None [row] [3] None (Some [4%Z]) None 3
    false None None [] [] 0 [] None false false false.

Lemma ex_info r row : row_fits 8 (new_row r) → ∃ s : SamplingBatchInfo (F := Z),
  bi_new [set_req_pool_idx (Some row) r] = Ok s ∧ bi_describes s [set_req_pool_idx (Some row) r].
Proof. intros Hr. apply bi_new_ok. constructor; [done|constructor]. Qed.

Lemma ex_batch_ok r row s : bi_describes s [set_req_pool_idx (Some row) r] → return_logprob r = false →
  req_stream r = false → grammar r = None → batch_ok (ex_batch r row s).
Proof.
  intros Hs Hl Ht Hg. split; simpl; try done.
  - by exists s.
  - intros o [= <-]. done.
  - by rewrite Hl.
  - intros E. simpl in E. by rewrite Hl in E.
  - intros E. simpl in E. by rewrite Hl in E.
  - by rewrite Ht.
  - unfold grammar_set. simpl. by rewrite Hg.
Qed.

Lemma filter_batch_correct_witness : ∃ s b',
  filter_batch [] None (ex_batch (ex_pen_req 2 1 3) 0 s) = Ok b' ∧ length (reqs b') = 1 ∧ batch_ok b'.
Proof.
  destruct (ex_info (ex_pen_req 2 1 3) 0 (ex_pen_fits 2 1 3)) as (s & _ & Hd).
  pose proof (ex_batch_ok _ _ _ Hd eq_refl eq_refl eq_refl) as OK.
  destruct (filter_batch_correct (ex_batch (ex_pen_req 2 1 3) 0 s) [] OK) as (b' & E & Hr & Hk); [by eexists|].
  exists s, b'. split; [exact E|]. split; [by rewrite Hr|]. destruct Hk as (H & _); [by rewrite Hr|]. exact H.
Defined.

Lemma merge_batch_correct_witness : ∃ s s' b',
  merge_batch (ex_batch (ex_pen_req 2 1 3) 0 s) (ex_batch (ex_pen_req 0 0 0) 1 s') = Ok b' ∧
  batch_ok b' ∧ seq_lens b' = [3; 3] ∧ b_output_ids b' = Some [4; 4]%Z.
Proof.
  destruct (ex_info (ex_pen_req 2 1 3) 0 (ex_pen_fits 2 1 3)) as (s & _ & Hd).
  destruct (ex_info (ex_pen_req 0 0 0) 1 (ex_pen_fits 0 0 0)) as (s' & _ & Hd').
  destruct (merge_batch_correct (ex_batch (ex_pen_req 2 1 3) 0 s) (ex_batch (ex_pen_req 0 0 0) 1 s')
    (ex_batch_ok _ _ _ Hd eq_refl eq_refl eq_refl) (ex_batch_ok _ _ _ Hd' eq_refl eq_refl eq_refl))
    as (b' & E & OK & _ & Hl & Ho & _).
  { by eexists. } { intros [? H]; done. }
  by exists s, s', b'.
Defined.
