(* ===== verification/BatchSteps.v ===== *)
(** * Building decode and prefill batches

    What [prepare_for_decode] and [prepare_for_extend] of
    [src/python/sglang/srt/managers/schedule_batch.py] do with an allocator of single tokens
    and a radix cache: the slots they take, the cells of the request table they write, and
    the rows of the new batch. *)

From S2P Require Import Prelude PyStr PySort Sampling HeapQ Radix RadixTree RadixUpdate RadixMatch RadixInv RadixSpec RadixLock RadixEvict RadixThms RadixLive Alloc PagedAlloc Req RadixStore Penalty SamplingBatch BatchMem ReqTable ScheduleBatch.

Open Scope nat_scope.

(** ** Cells of the request table *)

Definition cell (p : ReqToTokenPool) (row col : nat) : option Z := r ← req_to_token p !! row; r !! col.

(** [p'] is [p] with the cells of [w] changed: rows, their lengths and free rows stay. *)
Record wrote (p : ReqToTokenPool) (w : nat → nat → option Z) (p' : ReqToTokenPool) : Prop := {
  wr_cell row col : cell p' row col = match w row col with Some v => Some v | None => cell p row col end;
  wr_len row : length <$> req_to_token p' !! row = length <$> req_to_token p !! row;
  wr_free : rp_free_slots p' = rp_free_slots p;
  wr_size : rp_size p' = rp_size p
}.

Lemma rp_write_size row i vs p p' : rp_write row i vs p = Some p' → rp_size p' = rp_size p.
Proof. intros E. by apply rp_write_others in E as (_ & ? & _). Qed.

Lemma write_loop_size items pt out p p' : write_loop items pt out p = Some p' → rp_size p' = rp_size p.
Proof.
  revert pt p. induction items as [|i items IH]; intros pt p; cbn [write_loop]; [by intros [= <-]|].
  case_bool_decide; [|done]. destruct (rp_write _ _ _ p) as [p1|] eqn:E; [|done]. cbn [mbind option_bind]. intros E1%IH. rewrite E1. by eapply rp_write_size.
Qed.

Lemma rp_write_wrote row i vs p r : req_to_token p !! row = Some r → i + length vs ≤ length r →
  ∃ p', rp_write row i vs p = Some p' ∧
    wrote p (λ row' col, if decide (row' = row ∧ i ≤ col) then vs !! (col - i) else None) p'.
Proof.
  intros Hr Hl. destruct (rp_write row i vs p) as [p'|] eqn:E.
  2:{ unfold rp_write in E. rewrite Hr in E. simpl in E. rewrite bool_decide_eq_true_2 in E by done. done. }
  exists p'. split; [done|].
  unfold rp_write in E. rewrite Hr in E. simpl in E. rewrite bool_decide_eq_true_2 in E by done.
  injection E as <-. split; [intros row' col; unfold cell|intros row'|done..]; simpl;
    (destruct (decide (row' = row)) as [->|Hne]; [rewrite lookup_insert_eq, Hr|rewrite lookup_insert_ne by done]); simpl.
  - destruct (decide (row = row ∧ i ≤ col)) as [[_ Hi]|Hi].
    + rewrite lookup_app_r; rewrite length_take, Nat.min_l by lia; [|done].
      destruct (vs !! (col - i)) as [v|] eqn:Ev.
      * by apply lookup_app_l_Some.
      * apply lookup_ge_None in Ev. rewrite lookup_app_r by done. rewrite lookup_drop. f_equal. lia.
    + rewrite lookup_app_l; rewrite ?length_take; [|lia]. apply lookup_take_lt. lia.
  - rewrite decide_False; [done|]. by intros [? _].
  - f_equal. rewrite !length_app, length_take, length_drop. lia.
  - done.
Qed.

Lemma write_at_wrote rows locs vs p : NoDup rows → length locs = length rows → length vs = length rows →
  Forall2 (λ row loc, ∃ r, req_to_token p !! row = Some r ∧ loc < length r) rows locs →
  ∃ p', write_at rows locs vs p = Some p' ∧
    wrote p (λ row col, i ← list_find (λ x, x = (row, col)) (zip rows locs); vs !! i.1) p'.
Proof.
  revert locs vs p. induction rows as [|row rows IH]; intros [|loc locs] [|v vs] p Hnd Hl Hv HF; try done.
  { exists p. split; [done|]. split; done. }
  apply NoDup_cons in Hnd as [Hrow Hnd]. apply Forall2_cons in HF as [(r & Hr & Hloc) HF]. cbn [write_at].
  destruct (rp_write_wrote row loc [v] p r Hr) as (p1 & E1 & [W1 W2 W3 W4]); [simpl; lia|].
  rewrite E1. cbn [mbind option_bind].
  destruct (IH locs vs p1) as (p' & E & [V1 V2 V3 V4]); [done|by simplify_eq/=..| |].
  { eapply Forall2_impl; [exact HF|]. intros row' loc' (r' & Hr' & Hl').
    specialize (W2 row'). rewrite Hr' in W2. destruct (req_to_token p1 !! row') as [r1|]; [|done].
    simplify_eq/=. exists r1. split; [done|congruence]. }
  exists p'. split; [done|]. split; [|intros; by rewrite V2|by rewrite V3|by rewrite V4].
  intros row' col. rewrite V1, W1. cbn [zip_with list_find]. destruct (decide ((row, loc) = (row', col))) as [[= <- <-]|Hne].
  - cbn [mbind option_bind fst lookup list_lookup].
    replace (list_find (λ x, x = (row, loc)) (zip rows locs)) with (@None (nat * (nat * nat))).
    + simpl. rewrite decide_True by done. by rewrite Nat.sub_diag.
    + symmetry. apply list_find_None, Forall_forall. intros [a b] Hin [= -> ->].
      apply Hrow. by eapply elem_of_zip_l.
  - destruct (list_find (λ x, x = (row', col)) (zip rows locs)) as [[i x]|] eqn:Ef; cbn [fmap option_fmap option_map prod_map mbind option_bind fst].
    + cbn [lookup list_lookup id]. destruct (vs !! i) as [y|] eqn:Ey; [done|]. apply lookup_ge_None in Ey.
      apply list_find_Some in Ef as (Hi & _). apply lookup_lt_Some in Hi. rewrite length_zip_with in Hi. simplify_eq/=. lia.
    + destruct (decide (row' = row ∧ loc ≤ col)) as [[-> Hc]|Hc]; [|done].
      destruct (col - loc) as [|n] eqn:Ec; [|done]. exfalso. apply Hne. f_equal. lia.
Qed.

Lemma sum_list_S l : sum_list (S <$> l) = sum_list l + length l.
Proof. induction l as [|n l IH]; [done|]. simpl. unfold fmap in IH. rewrite IH.
  generalize (length l), (sum_list l). lia.
Qed.

Section steps.
Context {SI : Type} `{BatchInfoLaws SI}.
Context (tuple_hash : list Z → Z) (oob undef uninit : Z → Z) (order : nat → list Z).

(** The pools: a radix cache and an allocator of single tokens outside a free group. *)
Record pools_ok (c : RadixCache) (L : gset nat) (own : nat → Z) (a : TokenToKVPoolAllocator) : Prop := {
  po_cache : cache_ok c L own;
  po_enabled : disable c = false;
  po_group : ta_is_not_in_free_group a = true
}.

(** The pools after an allocation of [out]: no slot is lost or handed out twice. *)
Record allocated (c : RadixCache) (L : gset nat) (own : nat → Z) (a : TokenToKVPoolAllocator) (out : list Z)
    (c' : RadixCache) (L' : gset nat) (a' : TokenToKVPoolAllocator) : Prop := {
  ad_ok : pools_ok c' L' own a';
  ad_sub : L' ⊆ L;
  ad_locked m : m ∈ L → (0 < lock_of (skel c) m)%Z → m ∈ L';
  ad_keeps : keeps (λ m, (1 ≤ own m)%Z) c L c' L';
  ad_slots x : (token_slots c' L' a' x + Z.of_nat (count_occ Z.eq_dec out x) = token_slots c L a x)%Z
}.

Definition enough (n : nat) (c : RadixCache) (a : TokenToKVPoolAllocator) : Prop :=
  (Z.of_nat n ≤ Z.of_nat (ta_available_size a) + evictable_size c)%Z.

#[local] Instance enough_dec n c a : Decision (enough n c a).
Proof. unfold enough. apply _. Defined.

Lemma alloc_step n c L own a rows : pools_ok c L own a →
  ∃ r c' L' a', alloc_token_slots tuple_hash n false (MkMem (RadixC c) rows (TokA a)) =
      (r, MkMem (RadixC c') rows (TokA a')) ∧
    (¬ enough n c a → ∃ msg, r = Raise (RuntimeError msg)) ∧
    (enough n c a → ∃ out, r = Ok (out, None) ∧ length out = n ∧ allocated c L own a out c' L' a').
Proof.
  intros [OK Hd Hg].
  destruct (alloc_token_slots_ok tuple_hash n c L own a rows OK Hd Hg) as (r & c' & L' & a' & E & H1 & H2).
  exists r, c', L', a'. split; [done|]. split; [done|]. intros He.
  destruct (H2 He) as (out & -> & Hl & OK' & Hsub & Hd' & Hg' & Hlock & Hs & _ & Hk). exists out.
  split; [done|]. split; [done|]. split; [by split|done..].
Qed.

Lemma delayed_tokens_length rs toks : delayed_tokens rs = Ok toks → length toks = length rs.
Proof.
  revert toks. induction rs as [|r rs IH]; intros toks E; simpl in E; [by injection E as <-|].
  destruct (delayed_token r); simpl in E; [|done].
  destruct (delayed_tokens rs); simpl in E; [|done]. injection E as <-. simpl. f_equal. by apply IH.
Qed.

(** The table has a column for the next token of each request. *)
Definition rows_fit (b : Batch (SI := SI)) (p : ReqToTokenPool) : Prop :=
  NoDup (req_pool_indices b) ∧
  Forall2 (λ row n, ∃ r, req_to_token p !! row = Some r ∧ n < length r) (req_pool_indices b) (seq_lens b).

(** The cells of the next tokens hold [out], in the order of the requests. *)
Definition next_cells (b : Batch (SI := SI)) (out : list Z) (row col : nat) : option Z :=
  i ← list_find (λ x, x = (row, col)) (zip (req_pool_indices b) (seq_lens b)); out !! i.1.

Lemma prepare_for_decode_ok (b : Batch (SI := SI)) toks c L own a p : batch_ok b → is_Some (b_output_ids b) →
  decode_tokens b = Ok toks → Forall bi_token toks → pools_ok c L own a → rows_fit b p →
  ∃ r c' L' a' p', prepare_for_decode tuple_hash oob undef uninit order b (MkMem (RadixC c) p (TokA a)) =
      (r, MkMem (RadixC c') p' (TokA a')) ∧
    (¬ enough (batch_size b) c a → (∃ msg, r = Raise (RuntimeError msg)) ∧ p' = p) ∧
    (enough (batch_size b) c a → ∃ b' out, r = Ok b' ∧
       reqs b' = reqs b ∧ forward_mode b' = Some DECODE ∧ b_input_ids b' = b_output_ids b ∧
       b_output_ids b' = None ∧ seq_lens b' = S <$> seq_lens b ∧ out_cache_loc b' = Some out ∧
       batch_ok b' ∧ length out = batch_size b ∧ allocated c L own a out c' L' a' ∧
       wrote p (next_cells b out) p' ∧ enable_overlap b' = enable_overlap b ∧
       b_multimodal_inputs b' = b_multimodal_inputs b).
Proof.
  intros OK Ho Htoks Htok Hpools [Hnd Hfit].
  destruct OK as [(s & Hs & Hd) Hrows Hlens Hsum Houts Hmm Hlp Htop Hids Hst Hgr].
  assert (Hlt : length toks = length (reqs b)).
  { unfold decode_tokens in Htoks. destruct (enable_overlap b); [by apply delayed_tokens_length|].
    destruct Ho as [o Ho]. rewrite Ho in Htoks. injection Htoks as <-. by apply Houts. }
  assert (∃ s', (if bi_required s then toks ← decode_tokens b; bi_cumulate toks s else Ok s) = Ok s' ∧
      bi_describes s' (reqs b)) as (s' & Es & Hd').
  { rewrite Htoks. cbn [mbind result_bind]. destruct (bi_required s); [|by exists s].
    by apply (bi_cumulate_ok s (reqs b) toks). }
  destruct (alloc_step (length (reqs b)) c L own a p Hpools) as (r & c' & L' & a' & E & Hfew & Hen).
  assert (Hpl : length (req_pool_indices b) = length (reqs b)).
  { by rewrite <- (length_fmap Some), Hrows, length_fmap. }
  unfold prepare_for_decode. rewrite Hs.
  erewrite run_bind; [|done]. erewrite run_bind; [|unfold lift_result; by rewrite Es].
  erewrite run_bind; [|done]. erewrite run_bind; [|done]. cbn [m_alloc m_rows al_page_size].
  rewrite (bool_decide_eq_true_2 (1 = 1)%Z) by done. unfold batch_size in *.
  destruct (decide (enough (length (reqs b)) c a)) as [He|He].
  2:{ destruct (Hfew He) as (msg & ->). erewrite run_raise; [|exact E]. exists (Raise (RuntimeError msg)), c', L', a', p.
      split; [done|]. split; [intros _; split; [by exists msg|done]|done]. }
  destruct (Hen He) as (out & -> & Hlo & AL). erewrite run_bind; [|exact E]. cbn [fst].
  destruct (write_at_wrote (req_pool_indices b) (seq_lens b) out p) as (p' & Ew & W); [done|congruence..|done|].
  erewrite run_bind; [|unfold write_rows; cbn [m_rows]; by rewrite Ew]. eexists _, c', L', a', p'. split; [reflexivity|].
  split; [done|]. intros _. eexists _, out. split; [reflexivity|]. split_and!; try done.
  split; simpl; rewrite ?Hrows; try done.
  - by exists s'.
  - by rewrite length_fmap.
  - by rewrite Hsum, <- Hlens, sum_list_S.
Qed.

(** ** Prefill *)

(** What [init_next_round_input] leaves for the prefill. *)
Definition extend_ready (stride : Z) (r : Req) : Prop :=
  length (prefix_indices r) ≤ length (fill_ids r) ∧ (Z.of_nat (length (fill_ids r)) ≤ stride)%Z ∧
  extend_input_len r = (Z.of_nat (length (fill_ids r)) - Z.of_nat (length (prefix_indices r)))%Z.

(** The prefix of every request is in its row. *)
Definition has_prefixes (rows : list nat) (rs : list Req) (p : ReqToTokenPool) : Prop :=
  ∀ k row r, rows !! k = Some row → rs !! k = Some r →
    ∃ t, req_to_token p !! row = Some t ∧ take (length (prefix_indices r)) t = prefix_indices r.

Lemma extend_req_ok row r m t stride : extend_ready stride r → table_ok (m_rows m) stride →
  req_to_token (m_rows m) !! row = Some t →
  ∃ p', extend_req row r m = (Ok (extended row r), set_m_rows p' m) ∧ table_ok p' stride ∧
    rp_free_slots p' = rp_free_slots (m_rows m) ∧ rp_size p' = rp_size (m_rows m) ∧
    (∀ row', row' ≠ row → req_to_token p' !! row' = req_to_token (m_rows m) !! row') ∧
    ∃ t', req_to_token p' !! row = Some t' ∧ take (length (prefix_indices r)) t' = prefix_indices r.
Proof.
  intros (Hle & Hst & Hext) [Hs Ht] Hr. unfold extend_req. rewrite (bool_decide_eq_true_2 (_ = extend_input_len r)%Z) by done.
  erewrite run_bind; [|done]. pose proof (Ht _ _ Hr) as Hlt.
  case_bool_decide as Hpre.
  - destruct (rp_write row 0 (prefix_indices r) (m_rows m)) as [p'|] eqn:Ew.
    2:{ unfold rp_write in Ew. rewrite Hr in Ew. cbn [mbind option_bind] in Ew.
        rewrite bool_decide_eq_true_2 in Ew by lia. done. }
    destruct (rp_write_read _ _ _ _ _ t Ew Hr) as (t' & Hr' & Hl' & _ & Hs' & _ & Hf & Ho).
    exists p'. split; [erewrite run_bind; [|unfold write_rows; by rewrite Ew]; done|].
    split_and!; [split; [done|]|done|by eapply rp_write_size|done|].
    + intros row' t0 Hlk. destruct (decide (row' = row)) as [->|Hne].
      * rewrite Hr' in Hlk. injection Hlk as <-. by rewrite Hl'.
      * rewrite Ho in Hlk by done. by eapply Ht.
    + exists t'. split; [done|]. unfold slice in Hs'. by rewrite Nat.sub_0_r in Hs'.
  - assert (prefix_indices r = []) as E by (apply length_zero_iff_nil; lia).
    exists (m_rows m). split; [by destruct m|]. split_and!; [done..|]. exists t. by rewrite E.
Qed.

Lemma extend_reqs_ok stride rows : ∀ rs m, NoDup rows → length rows = length rs →
  (∀ row, row ∈ rows → is_Some (req_to_token (m_rows m) !! row)) → table_ok (m_rows m) stride →
  Forall (extend_ready stride) rs →
  ∃ p', extend_reqs rows rs m = (Ok (zip_with extended rows rs), set_m_rows p' m) ∧ table_ok p' stride ∧
    rp_free_slots p' = rp_free_slots (m_rows m) ∧ rp_size p' = rp_size (m_rows m) ∧
    (∀ row, row ∉ rows → req_to_token p' !! row = req_to_token (m_rows m) !! row) ∧ has_prefixes rows rs p'.
Proof.
  induction rows as [|row rows IH]; intros [|r rs] m Hnd Hl Hin Ht HF; try done; cbn [extend_reqs zip_with].
  { exists (m_rows m). split; [by destruct m|]. split_and!; [done..|]. intros k ? ? Hk. by rewrite lookup_nil in Hk. }
  apply NoDup_cons in Hnd as [Hrow Hnd]. apply Forall_cons in HF as [Hr HF].
  destruct (Hin row) as [t Hrow']; [by left|].
  destruct (extend_req_ok row r m t stride Hr Ht Hrow') as (p1 & E1 & Ht1 & Hf1 & Hz1 & Ho1 & t1 & Hr1 & Hp1).
  erewrite run_bind; [|exact E1].
  destruct (IH rs (set_m_rows p1 m)) as (p' & E' & Ht' & Hf' & Hz' & Ho' & Hp'); [done|by simplify_eq/=| |done|done|].
  { intros row' Hrow2. simpl. destruct (decide (row' = row)) as [->|Hne]; [done|]. rewrite Ho1 by done.
    apply Hin. by right. }
  erewrite run_bind; [|exact E']. exists p'. split; [done|]. simpl in Hf', Hz', Ho'.
  split_and!; [done|congruence|congruence| |].
  - intros row' [Hne Hni]%not_elem_of_cons. by rewrite Ho', Ho1.
  - intros [|k] row' r' Hk Hk'; simplify_eq/=; [|by eapply Hp'].
    exists t1. split; [|done]. by rewrite Ho'.
Qed.

(** The tokens of a request that are not cached. *)
Definition uncached (r : Req) : list Z := drop (length (prefix_indices r)) (fill_ids r).

Lemma zip_extended_lookup rows rs k r' : zip_with extended rows rs !! k = Some r' →
  ∃ row r, rows !! k = Some row ∧ rs !! k = Some r ∧ r' = extended row r.
Proof. intros (row & r & -> & Hr & Hs)%lookup_zip_with_Some. by exists row, r. Qed.

(** A field the loop leaves alone. *)
Lemma extended_fmap {A} (f : Req → A) rows rs : length rows = length rs → (∀ row r, f (extended row r) = f r) →
  f <$> zip_with extended rows rs = f <$> rs.
Proof.
  intros Hl Hf. revert rs Hl. induction rows as [|row rows IH]; intros [|r rs] Hl; simplify_eq/=; [done|].
  by rewrite Hf, IH.
Qed.

Lemma extended_rows rows rs : length rows = length rs →
  req_pool_idx <$> zip_with extended rows rs = Some <$> rows.
Proof.
  revert rs. induction rows as [|row rows IH]; intros [|r rs] Hl; simplify_eq/=; [done|]. by rewrite IH.
Qed.

Lemma extended_items rows rs : length rows = length rs →
  zip_with to_item rows (zip_with extended rows rs) = zip_with to_item rows rs ∧
  it_row <$> zip_with to_item rows rs = rows ∧
  it_ext <$> zip_with to_item rows rs = (λ r, length (uncached r)) <$> rs.
Proof.
  revert rs. induction rows as [|row rows IH]; intros [|r rs] Hl; try done. cbn [zip_with].
  destruct (IH rs) as (-> & E2 & E3); [by simplify_eq/=|]. rewrite !fmap_cons, E2, E3. split_and!; [done..|].
  f_equal. unfold it_ext, uncached. simpl. by rewrite length_drop.
Qed.

Lemma existsb_fmap {A B} (g : B → bool) (f : A → B) (l : list A) : existsb g (f <$> l) = existsb (λ x, g (f x)) l.
Proof. induction l as [|x l IH]; [done|]. simpl. by rewrite <- IH. Qed.

(** The same flag read off the requests before and after the loop. *)
Lemma extended_existsb f rows rs : length rows = length rs → (∀ row r, f (extended row r) = f r) →
  existsb f (zip_with extended rows rs) = existsb f rs.
Proof.
  intros Hl Hf. pose proof (extended_fmap f rows rs Hl Hf) as E. apply (f_equal (existsb id)) in E.
  by rewrite !existsb_fmap in E.
Qed.

Lemma logprob_rows_all {A} (f : Req → A) rs o : o = f <$> rs → logprob_rows f rs (Some o).
Proof.
  intros -> _. eexists. split; [done|]. split; [by rewrite length_fmap|]. intros i r Hi _.
  by rewrite list_lookup_fmap, Hi.
Qed.

(** The row of a request after the loop that writes its slots. *)
Lemma prefix_and_slots pre fill k (out : list Z) start (t t' : list Z) :
  length pre ≤ fill → fill ≤ length t' → k = fill - length pre → start + k ≤ length out →
  take (length pre) t = pre →
  (∀ j, t' !! j = if decide (length pre ≤ j < fill) then out !! (0 + start + (j - length pre)) else t !! j) →
  take fill t' = pre ++ slice start (start + k) out.
Proof.
  intros Hle Ht' -> Hout Htake Hj. apply list_eq. intros j. unfold slice.
  destruct (decide (j < fill)) as [Hlt|Hge].
  - rewrite lookup_take_lt by done. rewrite Hj. case_decide as Hb.
    + rewrite lookup_app_r by lia. rewrite lookup_take_lt by lia. rewrite lookup_drop. f_equal; lia.
    + rewrite <- (lookup_take_lt t (length pre)) by lia. rewrite Htake. by rewrite lookup_app_l by lia.
  - rewrite !lookup_ge_None_2; [done| |]; rewrite ?length_app, ?length_take, ?length_drop; lia.
Qed.

(** Enough rows and slots for a prefill of [rs], and rows that can take them. *)
Definition tokens_of (rs : list Req) : nat := sum_list ((λ r, length (uncached r)) <$> rs).

Definition free_rows_ok (p : ReqToTokenPool) : Prop :=
  NoDup (rp_free_slots p) ∧ ∀ row, row ∈ rp_free_slots p → is_Some (req_to_token p !! row).

(** The rows of the table after the prefill of [rs]: each holds the cached prefix of its
    request and then the request's part of [out]. *)
Definition filled (rows : list nat) (rs : list Req) (out : list Z) (p : ReqToTokenPool) : Prop :=
  ∀ k row r, rows !! k = Some row → rs !! k = Some r → ∃ t,
    req_to_token p !! row = Some t ∧
    let start := tokens_of (take k rs) in
    take (length (fill_ids r)) t = prefix_indices r ++ slice start (start + length (uncached r)) out.

(** What the loop that writes the slots does to rows that hold their prefixes. *)
Lemma write_loop_filled stride rows rs out p : NoDup rows → length rows = length rs →
  table_ok p stride → Forall (extend_ready stride) rs → has_prefixes rows rs p → length out = tokens_of rs →
  ∃ p', write_loop (zip_with to_item rows rs) 0 out p = Some p' ∧ table_ok p' stride ∧
    rp_free_slots p' = rp_free_slots p ∧ filled rows rs out p' ∧
    ∀ row, row ∉ rows → req_to_token p' !! row = req_to_token p !! row.
Proof.
  intros Hnd Hl Ht HF Hpre Hout. destruct (extended_items rows rs Hl) as (_ & Erow & Eext).
  assert (Hstart : ∀ k, start_of (zip_with to_item rows rs) k = tokens_of (take k rs)).
  { intros k. unfold start_of, tokens_of. rewrite fmap_take, <- Eext, <- fmap_take.
    generalize (take k (zip_with to_item rows rs)). intros l. induction l as [|x l IH]; [done|].
    rewrite fmap_cons. simpl. by f_equal. }
  assert (Hlen : length (zip_with to_item rows rs) = length rs) by (rewrite length_zip_with; lia).
  destruct (write_loop_spec stride out (zip_with to_item rows rs) 0 p) as (p' & E & Ht' & Hf & Ho & Hk).
  - by rewrite Erow.
  - apply Forall_forall. intros i (k & row & r & Hi & Hrow & Hr)%elem_of_lookup_zip_with.
    rewrite Forall_forall in HF. destruct (HF r) as (Hle & Hst & _); [by eapply list_elem_of_lookup_2|].
    destruct (Hpre k row r Hrow Hr) as (t & Ht0 & _). rewrite Hi. split_and!; [by eexists|done|done].
  - done.
  - rewrite Hstart, Hlen, firstn_all, Hout. lia.
  - exists p'. split_and!; [done..| |by rewrite Erow in Ho]. intros k row r Hrow Hr.
    destruct (Hk k (to_item row r)) as (t & t' & Ht0 & Ht1 & Hj).
    { apply lookup_zip_with_Some. by exists row, r. }
    exists t'. split; [done|]. destruct (Hpre k row r Hrow Hr) as (t2 & Ht2 & Htake). simpl in Ht0, Hj.
    rewrite Ht0 in Ht2. injection Ht2 as <-. rewrite Forall_forall in HF.
    destruct (HF r) as (Hle & Hst & _); [by eapply list_elem_of_lookup_2|].
    pose proof (proj2 Ht' _ _ Ht1) as Hlt. rewrite Hstart in Hj. cbv zeta.
    eapply (prefix_and_slots _ _ _ out _ t t'); [done|lia| | |done|exact Hj].
    + unfold uncached. by rewrite length_drop.
    + rewrite Hout. unfold tokens_of. rewrite <- (take_drop_middle rs k r Hr) at 2.
      rewrite fmap_app, fmap_cons, sum_list_with_app. simpl. unfold id. lia.
Qed.

(** The batch a successful prefill leaves. *)
Record prefilled (rs : list Req) (overlap : bool) (p : ReqToTokenPool) (out : list Z) (b' : Batch (SI := SI)) (p' : ReqToTokenPool) : Prop := {
  pf_ok : batch_ok b';
  pf_reqs : reqs b' = zip_with extended (req_pool_indices b') rs;
  pf_rows : rp_free_slots p = req_pool_indices b' ++ rp_free_slots p';
  pf_mode : forward_mode b' = Some EXTEND;
  pf_input : b_input_ids b' = Some (concat (uncached <$> rs));
  pf_lens : seq_lens b' = (λ r, length (fill_ids r)) <$> rs;
  pf_out : out_cache_loc b' = Some out;
  pf_out_len : length out = tokens_of rs;
  pf_filled : filled (req_pool_indices b') rs out p';
  pf_others row : row ∉ req_pool_indices b' → req_to_token p' !! row = req_to_token p !! row;
  pf_size : rp_size p' = rp_size p;
  pf_mm : is_Some (b_multimodal_inputs b');
  pf_overlap : enable_overlap b' = overlap
}.

Lemma prepare_for_extend_ok rs overlap c L own a p stride : pools_ok c L own a → table_ok p stride →
  free_rows_ok p → Forall (extend_ready stride) rs →
  (∀ row r, r ∈ rs → bi_fits (extended row r)) →
  let fits := length rs ≤ rp_available_size p ∧ enough (tokens_of rs) c a in
  ∃ res c' L' a' p', prepare_for_extend tuple_hash oob undef uninit order (init_new rs overlap)
      (MkMem (RadixC c) p (TokA a)) = (res, MkMem (RadixC c') p' (TokA a')) ∧
    (¬ fits → ∃ msg, res = Raise (RuntimeError msg)) ∧
    (fits → ∃ b' out, res = Ok b' ∧ prefilled rs overlap p out b' p' ∧ allocated c L own a out c' L' a' ∧
       table_ok p' stride).
Proof.
  intros Hpools Ht [Hnd Hrows] HF Hfits fits. unfold prepare_for_extend. cbn [reqs init_new].
  unfold rp_available_size in *.
  destruct (decide (length rs ≤ length (rp_free_slots p))) as [Hav|Hav].
  2:{ exists (Raise (RuntimeError "alloc_req_slots runs out of memory.")), c, L, a, p. split; [|split].
      - erewrite run_raise; [done|]. unfold alloc_req_slots, rp_alloc. cbn [m_rows].
        rewrite bool_decide_eq_true_2 by lia. done.
      - intros _. by eexists.
      - intros [? _]. lia. }
  set (rows := take (length rs) (rp_free_slots p)). set (p0 := rp_set_free (drop (length rs) (rp_free_slots p)) p).
  erewrite (run_bind _ _ _ rows (MkMem (RadixC c) p0 (TokA a)));
    [|unfold alloc_req_slots, rp_alloc; cbn [m_rows]; by rewrite bool_decide_eq_false_2 by lia].
  assert (Hl : length rows = length rs) by (unfold rows; rewrite length_take; lia).
  assert (Hnr : NoDup rows).
  { rewrite <- (take_drop (length rs)) in Hnd. by apply NoDup_app in Hnd as (? & _ & _). }
  destruct (extend_reqs_ok stride rows rs (MkMem (RadixC c) p0 (TokA a)) Hnr Hl) as (p1 & E1 & Ht1 & Hf1 & Hz1 & Ho1 & Hp1).
  { intros row Hrow. apply (Hrows row). by eapply elem_of_subseteq, Hrow; apply subseteq_take. }
  { done. } { done. }
  erewrite run_bind; [|exact E1]. cbn [set_m_rows m_cache m_alloc m_rows] in *.
  erewrite run_bind; [|done]. erewrite run_bind; [|done]. cbn [m_alloc m_rows al_page_size].
  rewrite (bool_decide_eq_true_2 (1 = 1)%Z) by done.
  assert (Etok : sum_list (length <$> ((λ r, drop (length (prefix_indices r)) (fill_ids r)) <$> rs)) = tokens_of rs).
  { by rewrite <- list_fmap_compose. }
  rewrite Etok.
  destruct (alloc_step (tokens_of rs) c L own a p1 Hpools) as (r & c' & L' & a' & E & Hfew & Hen).
  destruct (decide (enough (tokens_of rs) c a)) as [He|He].
  2:{ destruct (Hfew He) as (msg & ->). exists (Raise (RuntimeError msg)), c', L', a', p1.
      split; [by erewrite run_raise; [|exact E]|]. split; [intros _; by eexists|by intros [_ ?]]. }
  destruct (Hen He) as (out & -> & Hlo & AL). erewrite run_bind; [|exact E]. cbn [fst].
  destruct (extended_items rows rs Hl) as (-> & _).
  destruct (write_loop_filled stride rows rs out p1 Hnr Hl Ht1 HF Hp1 Hlo) as (p' & Ew & Ht' & Hf' & Hfill & Ho').
  erewrite run_bind; [|unfold write_rows; cbn [m_rows]; by rewrite Ew].
  destruct (bi_new_ok (zip_with extended rows rs)) as (s & Es & Hd).
  { apply Forall_forall. intros r (k & row & r0 & -> & _ & Hr)%elem_of_lookup_zip_with.
    apply Hfits. by eapply list_elem_of_lookup_2. }
  erewrite run_bind; [|unfold lift_result; by rewrite Es].
  eexists _, c', L', a', p'. split; [reflexivity|]. split; [intros Hn; by destruct Hn|]. intros _.
  eexists _, out. split; [reflexivity|]. split; [|done].
  split; try done.
  - split; simpl; try done.
    + by exists s.
    + by rewrite extended_rows.
    + rewrite length_fmap, length_zip_with. lia.
    + by intros m [= <-].
    + by rewrite extended_existsb.
    + destruct (existsb return_logprob rs) eqn:Elp; [by apply logprob_rows_all|].
      intros Hlp. by rewrite extended_existsb, Elp in Hlp.
    + destruct (existsb return_logprob rs) eqn:Elp; [by apply logprob_rows_all|].
      intros Hlp. by rewrite extended_existsb, Elp in Hlp.
    + by rewrite extended_existsb.
    + by rewrite extended_existsb.
  - simpl. rewrite Hf', Hf1. unfold p0, rows. simpl. by rewrite take_drop.
  - simpl. intros row Hrow. rewrite Ho', Ho1; done.
  - rewrite (write_loop_size _ _ _ _ _ Ew). exact Hz1.
Qed.

(** ** The properties *)

(** C30: [prepare_for_decode()] needs one slot per request. If the free and the evictable slots
    do not suffice it raises [RuntimeError] and leaves the request table alone. Otherwise it
    takes one slot per request without losing a slot or handing one out twice, writes it in
    the request's row at the position of the next token and nowhere else, and leaves a
    well-formed decode batch whose inputs are the last outputs and whose lengths have grown
    by one. *)
Theorem prepare_for_decode_correct (b : Batch (SI := SI)) toks c L own a p : batch_ok b → is_Some (b_output_ids b) →
  decode_tokens b = Ok toks → Forall bi_token toks → pools_ok c L own a → rows_fit b p →
  ∃ r c' L' a' p', prepare_for_decode tuple_hash oob undef uninit order b (MkMem (RadixC c) p (TokA a)) =
      (r, MkMem (RadixC c') p' (TokA a')) ∧
    (¬ enough (batch_size b) c a → (∃ msg, r = Raise (RuntimeError msg)) ∧ p' = p) ∧
    (enough (batch_size b) c a → ∃ b' out, r = Ok b' ∧
       reqs b' = reqs b ∧ forward_mode b' = Some DECODE ∧ b_input_ids b' = b_output_ids b ∧
       b_output_ids b' = None ∧ seq_lens b' = S <$> seq_lens b ∧ out_cache_loc b' = Some out ∧
       batch_ok b' ∧ length out = batch_size b ∧ allocated c L own a out c' L' a' ∧
       wrote p (next_cells b out) p' ∧ enable_overlap b' = enable_overlap b ∧
       b_multimodal_inputs b' = b_multimodal_inputs b).
Proof. exact (prepare_for_decode_ok b toks c L own a p). Qed.

(** C29: [prepare_for_extend()] of a new batch needs one row per request and one slot per token
    that is not cached. If rows, or the free and evictable slots, do not suffice it raises
    [RuntimeError]. Otherwise it takes the rows from the front of the free list and the slots
    without losing one or handing one out twice, each request's row then holds its cached
    prefix followed by the request's own part of the new slots, the input tokens are the
    uncached ones, and the batch is well formed. *)
Theorem prepare_for_extend_correct rs overlap c L own a p stride : pools_ok c L own a → table_ok p stride →
  free_rows_ok p → Forall (extend_ready stride) rs →
  (∀ row r, r ∈ rs → bi_fits (extended row r)) →
  let fits := length rs ≤ rp_available_size p ∧ enough (tokens_of rs) c a in
  ∃ res c' L' a' p', prepare_for_extend tuple_hash oob undef uninit order (init_new rs overlap)
      (MkMem (RadixC c) p (TokA a)) = (res, MkMem (RadixC c') p' (TokA a')) ∧
    (¬ fits → ∃ msg, res = Raise (RuntimeError msg)) ∧
    (fits → ∃ b' out, res = Ok b' ∧ prefilled rs overlap p out b' p' ∧ allocated c L own a out c' L' a' ∧
       table_ok p' stride).
Proof. exact (prepare_for_extend_ok rs overlap c L own a p stride). Qed.
End steps.

(** ** Instances *)

Lemma new_pool_row size n row t : req_to_token (new_ReqToTokenPool size n) !! row = Some t → t = replicate n 0%Z.
Proof. intros Ht%elem_of_list_to_map_2. apply list_elem_of_fmap in Ht as (i & [= _ ->] & _). done. Qed.

Lemma ex_pools_ok n : ∃ L, pools_ok ex_cache L (λ _, 0%Z) (new_TokenToKVPoolAllocator n) ∧ 1 ∈ L.
Proof. destruct ex_cache_ok as (L & OK & H1). exists L. by split. Qed.

Lemma prepare_for_decode_correct_witness : ∃ s b' m',
  prepare_for_decode ex_hash id id id (λ _, []) (ex_batch (ex_pen_req 2 1 3) 0 s)
    (MkMem (RadixC ex_cache) (new_ReqToTokenPool 2 8) (TokA (new_TokenToKVPoolAllocator 4))) = (Ok b', m') ∧
  batch_ok b' ∧ seq_lens b' = [4] ∧ option_map length (out_cache_loc b') = Some 1.
Proof.
  destruct (ex_info (ex_pen_req 2 1 3) 0 (ex_pen_fits 2 1 3)) as (s & _ & Hd).
  pose proof (ex_batch_ok _ _ _ Hd eq_refl eq_refl eq_refl) as OK. destruct (ex_pools_ok 4) as (L & Hp & _).
  assert (Htok : Forall bi_token [4%Z]) by (apply Forall_singleton; split; done).
  destruct (prepare_for_decode_correct ex_hash id id id (λ _, []) (ex_batch (ex_pen_req 2 1 3) 0 s) [4%Z]
    ex_cache L (λ _, 0%Z) (new_TokenToKVPoolAllocator 4) (new_ReqToTokenPool 2 8) OK (ex_intro _ _ eq_refl) eq_refl Htok Hp)
    as (r & c' & L' & a' & p' & E & _ & H).
  { split; [apply NoDup_singleton|]. constructor; [|constructor]. eexists. split; [vm_compute; reflexivity|]. simpl. lia. }
  destruct H as (b' & out & -> & _ & _ & _ & _ & Hl & Ho & OK' & Hlen & _ & W & _); [by vm_compute|].
  exists s, b', (MkMem (RadixC c') p' (TokA a')). split_and!; [exact E|exact OK'|exact Hl|].
  rewrite Ho. simpl. by rewrite Hlen.
Defined.

Lemma prepare_for_extend_correct_witness : ∃ b' m',
  prepare_for_extend (SI := SamplingBatchInfo (F := Z)) ex_hash id id id (λ _, [])
    (init_new [set_extend_input_len 2 (set_fill_ids [5; 6; 7]%Z (set_prefix_indices [11%Z] (ex_pen_req 2 1 3)))] false)
    (MkMem (RadixC ex_cache) (new_ReqToTokenPool 2 8) (TokA (new_TokenToKVPoolAllocator 4))) = (Ok b', m') ∧
  batch_ok b' ∧ req_pool_indices b' = [0] ∧ b_input_ids b' = Some [6; 7]%Z.
Proof.
  destruct (ex_pools_ok 4) as (L & Hp & _).
  set (r := set_extend_input_len 2 (set_fill_ids [5; 6; 7]%Z (set_prefix_indices [11%Z] (ex_pen_req 2 1 3)))).
  destruct (prepare_for_extend_correct (SI := SamplingBatchInfo (F := Z)) ex_hash id id id (λ _, []) [r] false ex_cache L (λ _, 0%Z)
    (new_TokenToKVPoolAllocator 4) (new_ReqToTokenPool 2 8) 8 Hp) as (res & c' & L' & a' & p' & E & _ & H).
  - split; [done|]. intros row t Ht. by rewrite (new_pool_row _ _ _ _ Ht).
  - split; [repeat constructor; set_solver|]. intros row Hrow.
    change (row ∈ [0; 1]) in Hrow. apply list_elem_of_In in Hrow as [<-|[<-|[]]]; by eexists.
  - apply Forall_singleton. split; [simpl; lia|by split].
  - intros row r' ->%list_elem_of_singleton. exact (ex_pen_fits 2 1 3).
  - destruct H as (b' & out & -> & PF & _); [split; [cbv; lia|by vm_compute]|].
    exists b', (MkMem (RadixC c') p' (TokA a')). split_and!; [exact E|apply PF| |by rewrite (pf_input _ _ _ _ _ _ PF)].
    pose proof (bo_rows _ (pf_ok _ _ _ _ _ _ PF)) as Hl. pose proof (bo_lens _ (pf_ok _ _ _ _ _ _ PF)) as Hn.
    pose proof (pf_rows _ _ _ _ _ _ PF) as Hr. apply (f_equal length) in Hl.
    rewrite (pf_lens _ _ _ _ _ _ PF) in Hn. rewrite !length_fmap, <- Hn in Hl.
    destruct (req_pool_indices b') as [|x [|y l]]; try done. by injection Hr as <-.
Defined.
