(* ===== verification/Retract.v ===== *)
(** * Retracting requests

    [retract_decode] of [src/python/sglang/srt/managers/schedule_batch.py] with a radix cache
    and an allocator of single tokens: which requests leave the batch, what happens to their
    rows, slots and locks, and when the call ends. *)

From S2P Require Import Prelude PyStr PySort Sampling HeapQ Radix RadixTree RadixUpdate RadixMatch RadixInv RadixSpec RadixLock RadixEvict RadixThms RadixLive Alloc PagedAlloc Req Penalty SamplingBatch BatchMem ReqTable ScheduleBatch BatchSteps.
From Stdlib Require Import QArith.
Close Scope Q_scope.
Open Scope nat_scope.

Section retract.
Context (tuple_hash : list Z → Z).

(** The slots [retract_one] returns: those of the request beyond its cached prefix. *)
Definition freed_of (p : ReqToTokenPool) (page_size : nat) (r : Req) (len : nat) : list Z :=
  default [] (row ← req_pool_idx r; read_slice row (length (prefix_indices r) / page_size * page_size) len p).

(** How many of the requests at [idxs] hold the node [n]. *)
Definition holds (rs : list Req) (n i : nat) : Z :=
  if bool_decide ((rs !! i ≫= last_node) = Some n) then 1%Z else 0%Z.
Definition holders (rs : list Req) (idxs : list nat) (n : nat) : Z := zsum (holds rs n) idxs.

Lemma holders_nonneg rs ks n : (0 ≤ holders rs ks n)%Z.
Proof. apply zsum_nonneg. intros x _. unfold holds. destruct (bool_decide _); lia. Qed.

(** A request of a running batch: it has a row of the table and holds a node. *)
Definition running (p : ReqToTokenPool) (r : Req) : Prop :=
  (∃ row t, req_pool_idx r = Some row ∧ req_to_token p !! row = Some t) ∧ is_Some (last_node r).

Lemma al_free_ok v c L own a rows : pools_ok c L own a →
  ∃ a', free_slots v (MkMem (RadixC c) rows (TokA a)) = (Ok tt, MkMem (RadixC c) rows (TokA a')) ∧
    pools_ok c L own a' ∧
    ∀ x, token_slots c L a' x = (token_slots c L a x + Z.of_nat (count_occ Z.eq_dec v x))%Z.
Proof.
  intros [OK Hd Hg]. exists (ta_free v a). split; [done|]. split.
  - split; [done..|]. unfold ta_free. destruct v; [done|]. by rewrite Hg.
  - intros x. unfold token_slots. rewrite (proj1 (Permutation_count_occ Z.eq_dec _ _) (ta_free_perm v a) x), count_occ_app.
    lia.
Qed.

Lemma dec_lock_ok c L own a rows n : pools_ok c L own a → (1 ≤ own n)%Z →
  ∃ c', dec_lock n (MkMem (RadixC c) rows (TokA a)) = (Ok tt, MkMem (RadixC c') rows (TokA a)) ∧
    pools_ok c' L (hold own n (-1)) a ∧ (∀ x, token_slots c' L a x = token_slots c L a x) ∧
    ∀ P, keeps P c L c' L.
Proof.
  intros [OK Hd Hg] Hown.
  assert (Hn : n ∈ L). { destruct (decide (n ∈ L)); [done|]. rewrite (c_own_out _ _ _ OK) in Hown by done. lia. }
  destruct (lock_ref_ok false c L own n OK Hn ltac:(done)) as (d & c' & E & OK' & SK & _ & _).
  pose proof (sk_conf _ _ _ SK) as Ec. unfold conf in Ec. injection Ec as _ _ Ed _.
  set (c2 := set_sizes (evictable_size_ c') (protected_size_ c') c').
  exists c'. unfold dec_lock, dec_lock_ref. cbn [m_cache]. rewrite Hd, E. split; [done|].
  split; [split; [done|congruence|done]|].
  split; [|intros P; by apply keeps_same_keys]. intros x. unfold token_slots, slot_count. by rewrite (sk_slots _ _ _ SK).
Qed.

Lemma evict_step n c L own a rows : pools_ok c L own a →
  ∃ c' L' a', cache_evict tuple_hash n (MkMem (RadixC c) rows (TokA a)) = (Ok tt, MkMem (RadixC c') rows (TokA a')) ∧
    pools_ok c' L' own a' ∧ (∀ x, token_slots c' L' a' x = token_slots c L a x) ∧
    keeps (λ m, (1 ≤ own m)%Z) c L c' L' ∧
    (Z.of_nat (ta_available_size a) + n ≤ Z.of_nat (ta_available_size a') ∨ evictable_size c' = 0)%Z.
Proof.
  intros [OK Hd Hg]. destruct (cache_evict_ok tuple_hash n c L own a rows OK Hd Hg) as (c' & L' & a' & E & EM & Hst).
  exists c', L', a'. split; [done|]. pose proof (em_conf _ _ _ _ _ _ _ EM) as Ec. unfold conf in Ec.
  injection Ec as _ _ Ed _. split; [split; [apply EM|congruence|apply EM]|]. split; [apply EM|]. split; [by eapply evicted_keeps|done].
Qed.

Lemma retract_one_ok page_size r len left c L own a p n : pools_ok c L own a → running p r →
  last_node r = Some n → (1 ≤ own n)%Z →
  ∃ c' L' a' row, req_pool_idx r = Some row ∧
    retract_one tuple_hash page_size r len left (MkMem (RadixC c) p (TokA a)) =
      (Ok (reset_for_retract r), MkMem (RadixC c') (rp_free [row] p) (TokA a')) ∧
    pools_ok c' L' (hold own n (-1)) a' ∧
    (∀ x, token_slots c' L' a' x =
      (token_slots c L a x + Z.of_nat (count_occ Z.eq_dec (freed_of p page_size r len) x))%Z) ∧
    keeps (λ m, (1 ≤ hold own n (-1) m)%Z) c L c' L' ∧
    ((Z.of_nat left * 20 ≤ Z.of_nat (ta_available_size a')) ∨ evictable_size c' = 0)%Z.
Proof.
  intros Hp [(row & t & Hrow & Ht) _] Hn Hown. set (v := freed_of p page_size r len).
  assert (Hv : read_slice row (length (prefix_indices r) / page_size * page_size) len p = Some v).
  { unfold v, freed_of. rewrite Hrow. cbn [mbind option_bind]. unfold read_slice. by rewrite Ht. }
  destruct (al_free_ok v c L own a p Hp) as (a1 & E1 & Hp1 & S1).
  destruct (dec_lock_ok c L own a1 (rp_free [row] p) n Hp1 Hown) as (c2 & E2 & Hp2 & S2 & K2).
  destruct (evict_step (Z.max 0 (Z.of_nat left * retract_decode_steps - al_available_size (TokA a1))) c2 L _ a1
    (rp_free [row] p) Hp2) as (c3 & L3 & a3 & E3 & Hp3 & S3 & K3 & Hst).
  exists c3, L3, a3, row. split; [done|]. split; [|split; [done|split; [intros x; by rewrite S3, S2, S1|split; [by eapply keeps_trans|]]]].
  2:{ simpl in Hst. unfold retract_decode_steps in Hst. destruct Hst; [left; lia|by right]. }
  unfold retract_one. rewrite Hrow, Hn. erewrite run_bind; [|done].
  erewrite run_bind; [|done]. erewrite run_bind; [|done]. cbn [m_cache m_rows].
  erewrite run_bind; [done|]. erewrite run_bind; [|unfold of_option; by rewrite Hv].
  erewrite run_bind; [|exact E1]. erewrite run_bind; [|done].
  erewrite run_bind; [|done]. erewrite run_bind; [|exact E2]. erewrite run_bind; [|done]. exact E3.
Qed.

(** The requests at [gone] retracted from the pools [c], [a], [p]: their rows are free, their
    slots are free, in the tree or were evicted to the free list, and their locks are gone. *)
Record retracted_from (page_size : nat) (rs : list Req) (lens : list nat) (c : RadixCache) (L : gset nat)
    (own : nat → Z) (a : TokenToKVPoolAllocator) (p : ReqToTokenPool) (gone : list nat)
    (c' : RadixCache) (L' : gset nat) (own' : nat → Z) (a' : TokenToKVPoolAllocator) (p' : ReqToTokenPool) : Prop := {
  rf_pools : pools_ok c' L' own' a';
  rf_own n : own' n = (own n - holders rs gone n)%Z;
  rf_keeps : keeps (λ n, (1 ≤ own' n)%Z) c L c' L';
  rf_table : req_to_token p' = req_to_token p;
  rf_size : rp_size p' = rp_size p;
  rf_rows : ∃ rows, mapM (λ i, rs !! i ≫= req_pool_idx) gone = Some rows ∧
    rp_free_slots p' = rp_free_slots p ++ rows;
  rf_slots x : token_slots c' L' a' x = (token_slots c L a x +
    zsum (λ i, Z.of_nat (count_occ Z.eq_dec (default [] (r ← rs !! i; n ← lens !! i; Some (freed_of p page_size r n))) x)) gone)%Z
}.

(** The loop stops: enough slots are free for the requests left, or one request is left. *)
Definition left_enough (a : TokenToKVPoolAllocator) (kept : list nat) : Prop :=
  (Z.of_nat (length kept) * 20 ≤ Z.of_nat (ta_available_size a))%Z ∨
  length kept = 1 ∧ 0 < ta_available_size a.

(** It goes on: after the retractions of [gone] there are too few slots for the [left] requests,
    although nothing is left to evict. *)
Definition too_few (page_size : nat) (rs : list Req) (lens : list nat) (c : RadixCache) (L : gset nat)
    (own : nat → Z) (a : TokenToKVPoolAllocator) (p : ReqToTokenPool) (gone : list nat) (left : nat) : Prop :=
  ∃ c' L' own' a' p', retracted_from page_size rs lens c L own a p gone c' L' own' a' p' ∧
    evictable_size c' = 0%Z ∧ (Z.of_nat (ta_available_size a') < Z.of_nat left * 20)%Z.

(** One retraction, and then more. *)
Lemma retracted_cons page_size rs lens c L own a p i r len row n c1 L1 a1 gone c' L' own' a' p' :
  rs !! i = Some r → lens !! i = Some len → req_pool_idx r = Some row → last_node r = Some n →
  (∀ x, token_slots c1 L1 a1 x =
    (token_slots c L a x + Z.of_nat (count_occ Z.eq_dec (freed_of p page_size r len) x))%Z) →
  keeps (λ m, (1 ≤ hold own n (-1) m)%Z) c L c1 L1 →
  retracted_from page_size rs lens c1 L1 (hold own n (-1)) a1 (rp_free [row] p) gone c' L' own' a' p' →
  retracted_from page_size rs lens c L own a p (i :: gone) c' L' own' a' p'.
Proof.
  intros Hr Hlen Hrw Hn S1 K1 [F1 F2 FK F3 FS (rows & Hrows & F4) F5]. split; [done| | |done|done| |].
  - intros m. rewrite F2. unfold hold, holders. cbn [zsum]. unfold holds at 2. rewrite Hr. cbn [mbind option_bind].
    rewrite Hn. destruct (decide (m = n)) as [->|Hm]; [rewrite bool_decide_eq_true_2 by done; lia|].
    rewrite bool_decide_eq_false_2; [lia|congruence].
  - eapply keeps_trans; [|exact FK]. eapply keeps_mono; [|exact K1]. intros m. rewrite F2.
    pose proof (holders_nonneg rs gone m). lia.
  - exists (row :: rows). cbn [mapM]. rewrite Hr. cbn [mbind option_bind]. rewrite Hrw, Hrows. split; [done|].
    rewrite F4. simpl. by rewrite <- app_assoc.
  - intros x. rewrite F5, S1. cbn [zsum]. rewrite Hr, Hlen. cbn [mbind option_bind default]. unfold id.
    rewrite Z.add_assoc. f_equal.
Qed.

Lemma retract_loop_ok page_size rs lens idxs : ∀ first retr c L own a p,
  pools_ok c L own a → idxs ≠ [] →
  Forall (λ i, ∃ r n, rs !! i = Some r ∧ lens !! i = Some n ∧ running p r) idxs →
  (∀ n, (holders rs idxs n ≤ own n)%Z) →
  (first = false → (Z.of_nat (length idxs) * 20 ≤ Z.of_nat (ta_available_size a)) ∨ evictable_size c = 0)%Z →
  ∃ res gone kept gr c' L' own' a' p',
    retract_loop tuple_hash page_size rs lens first idxs retr (MkMem (RadixC c) p (TokA a)) =
      (res, MkMem (RadixC c') p' (TokA a')) ∧
    idxs = gone ++ kept ∧ kept ≠ [] ∧ mapM (λ i, rs !! i) gone = Some gr ∧
    retracted_from page_size rs lens c L own a p gone c' L' own' a' p' ∧
    (first = true → gone ≠ [] ∨ length kept = 1) ∧
    (∀ k, k < length gone → first = false ∨ 0 < k →
       too_few page_size rs lens c L own a p (take k gone) (length idxs - k)) ∧
    (res = Ok (retr ++ (reset_for_retract <$> gr), kept) ∧ left_enough a' kept ∨
     res = Raise AssertionError ∧ length kept = 1 ∧ ta_available_size a' = 0 ∧
       (gone = [] ∧ c' = c ∧ a' = a ∨ evictable_size c' = 0%Z)).
Proof.
  induction idxs as [|i idxs IH]; intros first retr c L own a p Hp Hne HF Hown Hst; [done|].
  apply Forall_cons in HF as [(r & len & Hr & Hlen & Hrun) HF].
  assert (Hstop : retracted_from page_size rs lens c L own a p [] c L own a p).
  { split; [done| |apply keeps_refl|done|done| |]; intros; [unfold holders; simpl; lia| |simpl; lia]. exists []. by rewrite app_nil_r. }
  unfold retract_loop; fold retract_loop. erewrite run_bind; [|done]. cbn [m_alloc al_available_size].
  destruct (_ || first) eqn:Ego.
  2:{ apply orb_false_iff in Ego as [Hav%bool_decide_eq_false Hf].
      eexists _, [], (i :: idxs), [], c, L, own, a, p. split; [reflexivity|]. cbn [fmap list_fmap mapM].
      split_and!; [done..|by rewrite Hf|simpl; lia|]. left. rewrite app_nil_r. split; [done|]. left.
      unfold available, retract_decode_steps in *. lia. }
  destruct idxs as [|j idxs].
  - destruct (decide (ta_available_size a = 0)) as [E0|E0].
    + eexists _, [], [i], [], c, L, own, a, p. split.
      { erewrite run_bind; [|done]. erewrite run_raise; [done|]. unfold assert_. cbn [m_alloc al_available_size].
        by rewrite bool_decide_eq_false_2 by lia. }
      split_and!; [done..|by right|simpl; lia|]. right. by split_and!; [..|left].
    + eexists _, [], [i], [], c, L, own, a, p. split.
      { erewrite run_bind; [|done]. erewrite run_bind; [done|]. unfold assert_. cbn [m_alloc al_available_size].
        by rewrite bool_decide_eq_true_2 by lia. }
      split_and!; [done..|by right|simpl; lia|]. left. cbn [fmap list_fmap]. rewrite app_nil_r. split; [done|]. right. split; [done|lia].
  - destruct Hrun as [Hrow [n Hn]].
    assert (Hone : holders rs (i :: j :: idxs) n = (1 + holders rs (j :: idxs) n)%Z).
    { unfold holders, holds. cbn [zsum]. rewrite Hr. cbn [mbind option_bind]. by rewrite bool_decide_eq_true_2. }
    destruct (retract_one_ok page_size r len (length (j :: idxs)) c L own a p n Hp) as (c1 & L1 & a1 & row & Hrw & E1 & Hp1 & S1 & K1 & Hst1);
      [split; [done|by eexists]|done| |].
    { specialize (Hown n). pose proof (holders_nonneg rs (j :: idxs) n). lia. }
    destruct (IH false (retr ++ [reset_for_retract r]) c1 L1 (hold own n (-1)) a1 (rp_free [row] p) Hp1)
      as (res & gone & kept & gr & c' & L' & own' & a' & p' & E & Eg & Hk & Hgr & RF & _ & Hfew & Hres); [done|done| |done|].
    { intros m. specialize (Hown m). unfold hold. destruct (decide (m = n)) as [->|Hm]; [lia|].
      unfold holders in *. cbn [zsum] in *. unfold holds in Hown at 1. destruct (bool_decide _); lia. }
    exists res, (i :: gone), kept, (r :: gr), c', L', own', a', p'.
    split.
    { erewrite run_bind; [|unfold of_option; by rewrite Hr]. erewrite run_bind; [|unfold of_option; by rewrite Hlen].
      erewrite run_bind; [|exact E1]. exact E. }
    split_and!; [by rewrite Eg|done|cbn [mapM]; by rewrite Hr, Hgr|by eapply retracted_cons|by left| |].
    + intros [|k] Hk1 Hk2; cbn [take length].
      * destruct Hk2 as [->|]; [|lia]. exists c, L, own, a, p. split; [exact Hstop|].
        rewrite orb_false_r in Ego. apply bool_decide_eq_true in Ego. unfold retract_decode_steps in Ego.
        destruct (Hst eq_refl); [cbn [length] in *; lia|]. split; [done|]. cbn [length] in *. lia.
      * destruct (Hfew k) as (c2 & L2 & own2 & a2 & p2 & RF2 & H2 & H3); [cbn [length] in Hk1; lia|by left|].
        exists c2, L2, own2, a2, p2. split_and!; [by eapply retracted_cons|done|cbn [length] in *; lia].
    + rewrite fmap_cons. rewrite <- app_assoc in Hres. destruct Hres as [?|(H1 & H2 & H3 & H4)]; [by left|right].
      split_and!; [done..|]. right. destruct H4 as [(-> & -> & ->)|?]; [|done].
      destruct Hst1; [|done]. apply (f_equal length) in Eg. cbn [length] in *. lia.
Qed.

(** ** The order of retraction *)

Lemma key_geb_total x y : key_geb x y = true ∨ key_geb y x = true.
Proof.
  unfold key_geb. destruct x as [x1 x2], y as [y1 y2]. simpl.
  rewrite !orb_true_iff, !andb_true_iff, !bool_decide_eq_true. lia.
Qed.

Lemma key_geb_trans x y z : key_geb x y = true → key_geb y z = true → key_geb x z = true.
Proof.
  unfold key_geb. destruct x as [x1 x2], y as [y1 y2], z as [z1 z2]. simpl.
  rewrite !orb_true_iff, !andb_true_iff, !bool_decide_eq_true. lia.
Qed.

Lemma sum_max_new_ok rs : Forall (λ r, ∃ m, max_new_tokens (sampling_params r) = Some m ∧ (0 < m)%Z) rs →
  ∃ n, sum_max_new rs = Ok n ∧ (Z.of_nat (length rs) ≤ n)%Z.
Proof.
  induction 1 as [|r rs (m & Hm & Hpos) _ (n & IH & Hn)]; [by exists 0%Z|].
  exists (m + n)%Z. cbn [sum_max_new]. rewrite Hm. cbn [of_opt mbind result_bind]. rewrite IH.
  split; [done|]. cbn [length]. lia.
Qed.

Lemma sum_max_new_zsum rs n : sum_max_new rs = Ok n → n = zsum (λ r, default 0%Z (max_new_tokens (sampling_params r))) rs.
Proof.
  revert n. induction rs as [|r rs IH]; intros n; cbn [sum_max_new zsum]; [by intros [= <-]|].
  destruct (max_new_tokens (sampling_params r)) as [m|]; [|done]. cbn [of_opt mbind result_bind default from_option]. unfold id.
  destruct (sum_max_new rs) as [k|] eqn:E; [|done]. cbn [mbind result_bind]. intros [= <-]. by rewrite (IH k).
Qed.

Lemma sum_outputs rs : Z.of_nat (sum_list (length ∘ output_ids <$> rs)) = zsum (λ r, Z.of_nat (length (output_ids r))) rs.
Proof. induction rs as [|r rs IH]; [done|]. cbn [fmap list_fmap zsum]. simpl. lia. Qed.

(** The new estimate: of all the tokens the kept requests may produce, the share they have
    produced or will in the next 20 steps, at most 1. *)
Definition new_estimate (rs : list Req) (ratio : Q) : Prop :=
  let produced := (zsum (λ r, Z.of_nat (length (output_ids r))) rs + 20 * Z.of_nat (length rs))%Z in
  let allowed := zsum (λ r, default 0%Z (max_new_tokens (sampling_params r))) rs in
  (ratio * inject_Z allowed == inject_Z (Z.min produced allowed))%Q ∧ (0 <= ratio <= 1)%Q.

Lemma new_estimate_ok rs n : sum_max_new rs = Ok n → (0 < n)%Z →
  let ratio := (inject_Z (Z.of_nat (sum_list (length ∘ output_ids <$> rs)) + retract_decode_steps * Z.of_nat (length rs)) / inject_Z n)%Q in
  new_estimate rs (if Qle_bool 1 ratio then 1%Q else ratio).
Proof.
  intros En Hn ratio. unfold new_estimate. rewrite <- (sum_max_new_zsum _ _ En), <- sum_outputs.
  unfold ratio, retract_decode_steps. set (x := (Z.of_nat (sum_list _) + 20 * _)%Z).
  assert (Hx : (0 ≤ x)%Z) by (unfold x; lia).
  assert (Hq : (0 < inject_Z n)%Q) by (change 0%Q with (inject_Z 0); by rewrite <- Zlt_Qlt).
  destruct (Qle_bool 1 (inject_Z x / inject_Z n)) eqn:E.
  - split; [|split; discriminate]. apply Qle_bool_iff in E. rewrite Qmult_1_l.
    assert (inject_Z n <= inject_Z x)%Q as H.
    { pose proof (Qmult_le_compat_r _ _ (inject_Z n) E (Qlt_le_weak _ _ Hq)) as H.
      rewrite Qmult_1_l, (Qmult_comm _ (inject_Z n)), Qmult_div_r in H; [done|]. intros H0. rewrite H0 in Hq. by apply Qlt_irrefl in Hq. }
    rewrite <- Zle_Qle in H. by rewrite Z.min_r.
  - assert (inject_Z x / inject_Z n < 1)%Q as Hlt.
    { apply Qnot_le_lt. intros H. apply Qle_bool_iff in H. congruence. }
    split.
    + rewrite Qmult_comm, Qmult_div_r by (intros H; rewrite H in Hq; by apply Qlt_irrefl in Hq).
      rewrite Z.min_l; [done|]. apply Z.lt_le_incl. rewrite Zlt_Qlt.
      assert (inject_Z x / inject_Z n * inject_Z n < 1 * inject_Z n)%Q as H by by apply Qmult_lt_compat_r.
      rewrite Qmult_comm, Qmult_div_r in H by (intros H0; rewrite H0 in Hq; by apply Qlt_irrefl in Hq). by rewrite Qmult_1_l in H.
    + split; [|by apply Qlt_le_weak]. apply Qle_shift_div_l; [done|]. rewrite Qmult_0_l. change 0%Q with (inject_Z 0). by rewrite <- Zle_Qle.
Qed.

Lemma mapM_reverse {A} (l : list A) (is_ : list nat) (xs : list A) :
  mapM (λ i, l !! i) is_ = Some xs → mapM (λ i, l !! i) (reverse is_) = Some (reverse xs).
Proof. rewrite !mapM_Some. apply Forall2_reverse. Qed.

(** The order in which requests are kept: those with more outputs first, of these those with
    the shorter inputs. *)
Definition keep_before (rs : list Req) (i j : nat) : Prop := ∀ r r', rs !! i = Some r → rs !! j = Some r' →
  length (output_ids r') < length (output_ids r) ∨
  length (output_ids r) = length (output_ids r') ∧ length (origin_input_ids r) ≤ length (origin_input_ids r').

Lemma sorted_keep_before rs : StronglySorted (keep_before rs) (sorted_indices rs).
Proof.
  assert (Hs : StronglySorted (key_le key_geb (retract_key rs)) (sorted_indices rs)).
  { apply sort_by_sorted; [apply key_geb_total|apply key_geb_trans]. }
  induction Hs as [|i is_ Hs IH Hi]; constructor; [done|]. eapply Forall_impl; [exact Hi|].
  intros j Hk r r' Hr Hr'. unfold key_le, key_geb, retract_key in Hk. rewrite Hr, Hr' in Hk. simpl in Hk.
  rewrite orb_true_iff, andb_true_iff, !bool_decide_eq_true in Hk. lia.
Qed.

Lemma sorted_indices_elem rs i : i ∈ sorted_indices rs ↔ i < length rs.
Proof. unfold sorted_indices. rewrite sort_by_perm, elem_of_seq. lia. Qed.

Context {SI : Type} `{BatchInfoLaws SI}.

Lemma kept_batch (b : Batch (SI := SI)) kept gone : batch_ok b → is_Some (b_output_ids b) → kept ≠ [] →
  sorted_indices (reqs b) = kept ++ gone → (gone ≠ [] ∨ length kept = 1) →
  ∃ b', filter_batch [] (Some kept) b = Ok b' ∧ batch_ok b' ∧ mapM (λ i, reqs b !! i) kept = Some (reqs b') ∧
    is_Some (b_output_ids b') ∧ mapM (λ i, seq_lens b !! i) kept = Some (seq_lens b').
Proof.
  intros OK Ho Hne E Hgone.
  assert (Hlen : length (reqs b) = length kept + length gone).
  { rewrite <- length_app, <- E. unfold sorted_indices. by rewrite sort_by_perm, length_seq. }
  assert (Hin : ∀ i, i ∈ kept → i < length (reqs b)).
  { intros i Hi. apply sorted_indices_elem. rewrite E. apply elem_of_app. by left. }
  destruct (select (reqs b) kept _ eq_refl Hin) as (rs & _ & Hk & _).
  unfold filter_batch. cbn [default]. unfold id.
  destruct (decide (length kept = length (reqs b))) as [El|El].
  - assert (gone = []) as -> by (apply length_zero_iff_nil; lia). destruct Hgone as [?|H1]; [done|].
    exists b. split; [|split; [done|]].
    + unfold filter_keep. destruct kept; [done|]. by rewrite bool_decide_eq_true_2.
    + pose proof (bo_lens _ OK) as Hl.
      destruct kept as [|i [|]]; try done. destruct (reqs b) as [|r [|]]; try done.
      assert (i = 0) as -> by (specialize (Hin i ltac:(left)); simpl in Hin; lia).
      destruct (seq_lens b) as [|n [|]]; done.
  - destruct (filter_keep_ok b kept rs OK Ho Hne El Hk) as (b' & E' & Hr & OK' & Ho' & Hrows).
    exists b'. rewrite Hr. split_and!; [done..|]. apply mapM_Some, Forall2_same_length_lookup_2.
    { rewrite (bo_lens _ OK'), Hr. by apply length_mapM in Hk. }
    intros j i n Hi Hn. destruct (Hrows j i Hi) as (_ & <- & _). done.
Qed.

Lemma retract_decode_ok page_size (b : Batch (SI := SI)) c L own a p : pools_ok c L own a → batch_ok b →
  is_Some (b_output_ids b) → reqs b ≠ [] → Forall (running p) (reqs b) →
  (∀ n, (holders (reqs b) (seq 0 (length (reqs b))) n ≤ own n)%Z) →
  Forall (λ r, ∃ m, max_new_tokens (sampling_params r) = Some m ∧ (0 < m)%Z) (reqs b) →
  ∃ res kept gone gr c' L' own' a' p',
    retract_decode tuple_hash page_size b (MkMem (RadixC c) p (TokA a)) =
      (res, MkMem (RadixC c') p' (TokA a')) ∧
    sorted_indices (reqs b) = kept ++ reverse gone ∧ kept ≠ [] ∧ (gone ≠ [] ∨ length (reqs b) = 1) ∧
    mapM (λ i, reqs b !! i) gone = Some gr ∧
    retracted_from page_size (reqs b) (seq_lens b) c L own a p gone c' L' own' a' p' ∧
    (∀ k, 0 < k < length gone →
       too_few page_size (reqs b) (seq_lens b) c L own a p (take k gone) (length (reqs b) - k)) ∧
    (res = Raise AssertionError ∧ length kept = 1 ∧ ta_available_size a' = 0 ∧
       (gone = [] ∧ c' = c ∧ a' = a ∨ evictable_size c' = 0%Z) ∨
     ∃ b' ratio, res = Ok (b', reset_for_retract <$> gr, ratio) ∧ left_enough a' kept ∧ batch_ok b' ∧
       mapM (λ i, reqs b !! i) kept = Some (reqs b') ∧ new_estimate (reqs b') ratio ∧
       filter_batch [] (Some kept) b = Ok b' ∧
       mapM (λ i, seq_lens b !! i) kept = Some (seq_lens b')).
Proof.
  intros Hp OK Ho Hne Hrun Hown Hmax.
  assert (Hperm : sorted_indices (reqs b) ≡ₚ seq 0 (length (reqs b))) by apply sort_by_perm.
  destruct (retract_loop_ok page_size (reqs b) (seq_lens b) (reverse (sorted_indices (reqs b))) true [] c L own a p Hp)
    as (res & gone & keptR & gr & c' & L' & own' & a' & p' & E & Eidx & Hk & Hgr & RF & Hf & Hfew & Hres).
  - intros Er. apply (f_equal length) in Er. rewrite length_reverse, Hperm, length_seq in Er.
    by apply length_zero_iff_nil in Er.
  - apply Forall_forall. intros i Hi. rewrite elem_of_reverse, sorted_indices_elem in Hi.
    destruct (lookup_lt_is_Some_2 _ _ Hi) as [r Hr].
    destruct (lookup_lt_is_Some_2 (seq_lens b) i) as [n Hn]; [by rewrite (bo_lens _ OK)|].
    exists r, n. split_and!; [done..|]. rewrite Forall_forall in Hrun. apply Hrun. by eapply list_elem_of_lookup_2.
  - intros n. unfold holders. rewrite (zsum_perm _ _ _ (reverse_Permutation _)), (zsum_perm _ _ _ Hperm). apply Hown.
  - done.
  - assert (Es : sorted_indices (reqs b) = reverse keptR ++ reverse gone).
    { by rewrite <- reverse_app, <- Eidx, reverse_involutive. }
    assert (Hg : gone ≠ [] ∨ length (reqs b) = 1).
    { destruct (Hf eq_refl) as [?|H1]; [by left|]. destruct gone; [right|by left].
      apply Permutation_length in Hperm. rewrite length_seq, Es, app_nil_r, length_reverse in Hperm. congruence. }
    assert (Hfew' : ∀ k, 0 < k < length gone →
       too_few page_size (reqs b) (seq_lens b) c L own a p (take k gone) (length (reqs b) - k)).
    { intros k Hk'. pose proof (Hfew k ltac:(lia) ltac:(right; lia)) as Hk2. by rewrite length_reverse, Hperm, length_seq in Hk2. }
    destruct Hres as [[-> Hleft]|(-> & H1 & H0')].
    2:{ eexists _, (reverse keptR), gone, gr, c', L', own', a', p'. split; [unfold retract_decode; by erewrite run_raise; [|exact E]|].
        split_and!; [done| |done|done|done|done|].
        - intros Er. apply Hk. by rewrite <- (reverse_involutive keptR), Er.
        - left. by rewrite length_reverse. }
    assert (Hkr : reverse keptR ≠ []).
    { intros Er. apply Hk. by rewrite <- (reverse_involutive keptR), Er. }
    destruct (kept_batch b (reverse keptR) (reverse gone) OK Ho Hkr Es) as (b' & Eb & OK' & Hm & Ho' & Hsl).
    { rewrite length_reverse. destruct (Hf eq_refl) as [Hg0|?]; [left|by right]. intros Er.
      apply Hg0. by rewrite <- (reverse_involutive gone), Er. }
    destruct (sum_max_new_ok (reqs b')) as (n & En & Hn).
    { apply Forall_forall. intros r Hr. rewrite Forall_forall in Hmax. apply Hmax. by eapply kept_elem. }
    assert (Hpos : (0 < n)%Z).
    { apply length_mapM in Hm. destruct keptR; [done|]. rewrite length_reverse in Hm. simpl in Hm. lia. }
    eexists _, (reverse keptR), gone, gr, c', L', own', a', p'. split.
    { unfold retract_decode. erewrite run_bind; [|exact E]. cbv beta iota.
      erewrite run_bind; [|unfold lift_result; by rewrite Eb].
      erewrite run_bind; [|unfold lift_result; by rewrite En]. rewrite bool_decide_eq_false_2 by lia. done. }
    split_and!; try done. right. eexists b', _. split; [done|].
    split; [|split; [done|split; [done|split; [by apply new_estimate_ok|done]]]].
    unfold left_enough in *. by rewrite length_reverse.
Qed.

(** C31: [retract_decode()] of a running batch always ends, with at least one request kept and,
    unless the batch has only one, at least one retracted. The retracted requests are those
    with the fewest outputs (then the longest inputs), in this order, reset for another prefill;
    their rows are free again, their locks are released, and their slots beyond the cached
    prefix have returned to the free list or the tree, with no slot lost. It goes on only while
    fewer than 20 slots per kept request are free though nothing is left to evict, and stops
    once they are free or one request is left; only if that one has no free slot left does it
    fail, with [AssertionError]. The batch keeps well-formed rows of the kept requests, and the
    new estimate is the share of their token limits they have used or will in 20 steps, at
    most 1. *)
Theorem retract_decode_correct page_size (b : Batch (SI := SI)) c L own a p : pools_ok c L own a → batch_ok b →
  is_Some (b_output_ids b) → reqs b ≠ [] → Forall (running p) (reqs b) →
  (∀ n, (holders (reqs b) (seq 0 (length (reqs b))) n ≤ own n)%Z) →
  Forall (λ r, ∃ m, max_new_tokens (sampling_params r) = Some m ∧ (0 < m)%Z) (reqs b) →
  ∃ res kept gone gr c' L' own' a' p',
    retract_decode tuple_hash page_size b (MkMem (RadixC c) p (TokA a)) =
      (res, MkMem (RadixC c') p' (TokA a')) ∧
    kept ++ reverse gone ≡ₚ seq 0 (length (reqs b)) ∧ StronglySorted (keep_before (reqs b)) (kept ++ reverse gone) ∧
    kept ≠ [] ∧ (gone ≠ [] ∨ length (reqs b) = 1) ∧ mapM (λ i, reqs b !! i) gone = Some gr ∧
    retracted_from page_size (reqs b) (seq_lens b) c L own a p gone c' L' own' a' p' ∧
    (∀ k, 0 < k < length gone →
       too_few page_size (reqs b) (seq_lens b) c L own a p (take k gone) (length (reqs b) - k)) ∧
    (res = Raise AssertionError ∧ length kept = 1 ∧ ta_available_size a' = 0 ∨
     ∃ b' ratio, res = Ok (b', reset_for_retract <$> gr, ratio) ∧ left_enough a' kept ∧ batch_ok b' ∧
       mapM (λ i, reqs b !! i) kept = Some (reqs b') ∧ new_estimate (reqs b') ratio).
Proof.
  intros Hp OK Ho Hne Hrun Hown Hmax.
  destruct (retract_decode_ok page_size b c L own a p Hp OK Ho Hne Hrun Hown Hmax)
    as (res & kept & gone & gr & c' & L' & own' & a' & p' & E & H1 & H2 & H3 & H4 & H5 & H6 & H7).
  exists res, kept, gone, gr, c', L', own', a', p'. rewrite <- H1.
  split_and!; try done; [apply sort_by_perm|apply sorted_keep_before|].
  destruct H7 as [(? & ? & ? & _)|(b' & ratio & G1 & G2 & G3 & G4 & G5 & _)]; [by left|right]. by exists b', ratio.
Qed.
End retract.

(** ** Instances *)

Definition ex_running (row : nat) : Req := set_last_node (Some 1) (ex_pen_req 2 1 3).

(** A cache whose node [1] is held twice. *)
Lemma ex_locked n : ∃ c L own, pools_ok c L own (new_TokenToKVPoolAllocator n) ∧ own 1 = 2%Z ∧ ∀ m, (0 ≤ own m)%Z.
Proof.
  destruct ex_cache_ok as (L & OK & H1).
  destruct (lock_ref_ok true ex_cache L (λ _, 0%Z) 1 OK H1) as (d & c1 & _ & OK1 & SK1 & _); [done|].
  destruct (lock_ref_ok true c1 L _ 1 OK1 H1) as (d2 & c2 & _ & OK2 & SK2 & _); [done|].
  pose proof (sk_conf _ _ _ SK1) as E1. pose proof (sk_conf _ _ _ SK2) as E2. rewrite E1 in E2. unfold conf in E2.
  injection E2 as _ _ Ed _. exists c2, L. eexists. split; [by split; [exact OK2|exact Ed|done]|].
  split; [done|]. apply OK2.
Qed.

Lemma retract_decode_correct_witness : ∃ c b res kept gone,
  fst (retract_decode ex_hash 1 b (MkMem (RadixC c) (new_ReqToTokenPool 2 8) (TokA (new_TokenToKVPoolAllocator 4)))) = res ∧
  length (reqs b) = 2 ∧ kept ++ reverse gone ≡ₚ [0; 1] ∧ gone ≠ [] ∧
  (res = Raise AssertionError ∨ ∃ b' rs ratio, res = Ok (b', rs, ratio) ∧ batch_ok (SI := SamplingBatchInfo (F := Z)) b').
Proof.
  destruct (ex_info (ex_running 0) 0 (ex_pen_fits 2 1 3)) as (s & _ & Hd).
  destruct (ex_info (ex_running 1) 1 (ex_pen_fits 2 1 3)) as (s' & _ & Hd').
  destruct (merge_batch_ok (ex_batch (ex_running 0) 0 s) (ex_batch (ex_running 1) 1 s')
    (ex_batch_ok _ _ _ Hd eq_refl eq_refl eq_refl) (ex_batch_ok _ _ _ Hd' eq_refl eq_refl eq_refl))
    as (b & _ & OK & Hr & _ & Ho & _); [by eexists|by intros [? ?]|].
  destruct (ex_locked 4) as (c & L & own & Hp & H2 & Hnn).
  destruct (retract_decode_correct ex_hash 1 b c L own (new_TokenToKVPoolAllocator 4) (new_ReqToTokenPool 2 8) Hp OK)
    as (res & kept & gone & gr & c' & L' & own' & a' & p' & E & Es & _ & _ & Hg & _ & _ & _ & Hres).
  - rewrite Ho. by eexists.
  - by rewrite Hr.
  - rewrite Hr. repeat constructor; simpl; try (by eexists); eexists _, _; (split; [done|by vm_compute]).
  - intros n. rewrite Hr. destruct (decide (n = 1)) as [->|Hn]; [by rewrite H2|].
    unfold holders, holds. simpl. rewrite !bool_decide_eq_false_2; [apply Hnn|congruence..].
  - rewrite Hr. repeat constructor; by exists 9%Z.
  - exists c, b, res, kept, gone. rewrite E. rewrite Hr in Es. split_and!; [done|by rewrite Hr|done| |].
    + destruct Hg as [?|H1]; [done|]. by rewrite Hr in H1.
    + destruct Hres as [[-> _]|(b' & ratio & -> & _ & OK' & _)]; [by left|right]. by eexists b', _, ratio.
Defined.
