(* ===== verification/Scheduler.v ===== *)
(** * The scheduler

    [src/python/sglang/srt/managers/scheduler.py] and
    [scheduler_output_processor_mixin.py]: one iteration of [event_loop_normal], from the
    waiting queue to the processed results. The configuration is a radix cache with an
    allocator of single tokens, one pipeline stage, no speculative decoding, no
    disaggregation and no attention data parallelism; log-probabilities, hidden states and
    the streamed output are not followed.

    Requests are objects that the queue, the batches and [chunked_req] share. Outside
    [get_next_batch_to_run] a live request is in one of the queue, the running batch and the
    last batch; [chunked_req] is the request of the last batch with its [rid] and is brought
    up to date when that batch changes. *)

From S2P Require Import Prelude PyStr Sampling HeapQ Radix RadixTree RadixInv RadixThms Alloc PagedAlloc Req RadixStore SchedulePolicy PrefillAdder Penalty SamplingBatch BatchMem ReqTable ScheduleBatch.
From Stdlib Require Import QArith Qminmax.
Close Scope Q_scope.
Open Scope nat_scope.

(** ** The pools *)

(** [tree_cache], [req_to_token_pool] and [token_to_kv_pool_allocator]. *)
Notation Pools := (store (A := TokenToKVPoolAllocator)).

(** The operations of a batch on the scheduler's pools; none replaces an object by one of
    another class. *)
Definition on_mem {A} (f : M Mem A) : M Pools A := λ s,
  let '(r, m) := f (MkMem (RadixC (st_cache s)) (st_pool s) (TokA (st_alloc s))) in
  match m_cache m, m_alloc m with
  | RadixC c, TokA a => (r, MkStore c (m_rows m) a)
  | _, _ => (Raise AssertionError, s)
  end.

Definition on_result {A} (r : result A) : M Pools A := λ s, (r, s).
Definition set_st_cache (c : RadixCache) (s : Pools) : Pools := MkStore c (st_pool s) (st_alloc s).
Definition set_st_pool (p : ReqToTokenPool) (s : Pools) : Pools := MkStore (st_cache s) p (st_alloc s).
Definition set_st_alloc (a : TokenToKVPoolAllocator) (s : Pools) : Pools := MkStore (st_cache s) (st_pool s) a.

(** ** The state *)

Record Config := MkConfig {
  max_micro_batch_size : Z;
  max_prefill_tokens : Z;
  chunked_prefill_size : option Z;
  is_mixed_chunk : bool;
  cf_enable_overlap : bool;
  lora_paths : bool;
  max_loras_per_batch : nat;
  policy : Policy;
  decode_mem_cache_buf_multiplier : Z;
  init_new_token_ratio : Q;
  new_token_ratio_decay : Q;
  min_new_token_ratio : Q;
  TEST_RETRACT : bool;
  max_total_num_tokens : nat;
  max_req_len : Z;
  max_req_input_len : Z;
  allow_auto_truncate : bool
}.

Section sched.
Context {SI : Type} `{BatchInfo SI}.
Context (clock : nat → Z) (tuple_hash : list Z → Z) (shuffle : list Req → list Req).
Context (oob undef uninit : Z → Z) (order : nat → list Z).
(** [grammar.accept_token] and the forward pass of the model. *)
Context (accept_token : Z → Grammar → Grammar) (forward_batch_generation : Batch (SI := SI) → list Z).
Context (cf : Config).

(** A prefill batch with the [rid]s of its [chunked_req] and [decoding_reqs]. *)
Record NewBatch := MkNewBatch {
  nb_batch : Batch (SI := SI);
  nb_chunked_req : option pystr;
  nb_decoding_reqs : option (list pystr)
}.

(** What the scheduler runs: a new batch, or its running batch. *)
Inductive CurBatch := New (b : NewBatch) | Running.

(** [batch_is_full] is a field of the running batch; a new batch has [False]. *)
Record Sched := MkSched {
  waiting_queue : list Req;
  waiting_queue_radix_tree : RadixCache;
  running_batch : Batch (SI := SI);
  batch_is_full : bool;
  last_batch : option CurBatch;
  chunked_req : option Req;
  s_new_token_ratio : Q
}.

Definition set_waiting_queue x s := MkSched x (waiting_queue_radix_tree s) (running_batch s)
  (batch_is_full s) (last_batch s) (chunked_req s) (s_new_token_ratio s).
Definition set_queue_tree x s := MkSched (waiting_queue s) x (running_batch s)
  (batch_is_full s) (last_batch s) (chunked_req s) (s_new_token_ratio s).
Definition set_running_batch x s := MkSched (waiting_queue s) (waiting_queue_radix_tree s) x
  (batch_is_full s) (last_batch s) (chunked_req s) (s_new_token_ratio s).
Definition set_batch_is_full x s := MkSched (waiting_queue s) (waiting_queue_radix_tree s) (running_batch s)
  x (last_batch s) (chunked_req s) (s_new_token_ratio s).
Definition set_last_batch x s := MkSched (waiting_queue s) (waiting_queue_radix_tree s) (running_batch s)
  (batch_is_full s) x (chunked_req s) (s_new_token_ratio s).
Definition set_chunked_req x s := MkSched (waiting_queue s) (waiting_queue_radix_tree s) (running_batch s)
  (batch_is_full s) (last_batch s) x (s_new_token_ratio s).
Definition set_new_token_ratio x s := MkSched (waiting_queue s) (waiting_queue_radix_tree s) (running_batch s)
  (batch_is_full s) (last_batch s) (chunked_req s) x.

(** The request [r] as the batch [rs] has it. *)
Definition current (rs : list Req) (r : Req) : Req :=
  default r (List.find (λ x, bool_decide (rid x = rid r)) rs).

(** The change of one of the requests [rs], the one with the [rid] of [r]. *)
Definition replace_req (r : Req) (rs : list Req) : list Req :=
  (λ x, if bool_decide (rid x = rid r) then r else x) <$> rs.

(** ** The queue *)

Definition _add_request_to_queue (r : Req) (s : Sched) : Sched := set_waiting_queue (waiting_queue s ++ [r]) s.
Definition _extend_requests_to_queue (rs : list Req) (s : Sched) : Sched :=
  set_waiting_queue (waiting_queue s ++ rs) s.

(** [extend_image_inputs]: a request of a session may have images already. *)
Definition extend_image_inputs (mm : list (list Z)) (r : Req) : Req :=
  set_multimodal_inputs (Some (default [] (multimodal_inputs r) ++ mm)) r.

(** [validate_input_length]: the request, cut when that is allowed, or the error message. *)
Definition validate_input_length (r : Req) : Req + pystr :=
  let n := Z.of_nat (length (origin_input_ids r)) in
  if bool_decide (max_req_input_len cf ≤ n)%Z then
    if allow_auto_truncate cf then inl (set_origin_input_ids (py_prefix (max_req_input_len cf) (origin_input_ids r)) r)
    else inr (s2z "Input length exceeds the maximum allowed length")
  else inl r.

(** A new generation request: what [Req(...)] or [session.create_req] made of it, whether its
    session does not exist, the prompt and the images after expanding the image tokens, and
    where the caller wants input log-probabilities from. *)
Record GenerateReq := MkGenerateReq {
  in_req : Req;
  in_no_session : bool;
  in_mm : option (list Z * list (list Z));
  in_logprob_start_len : Z
}.

Definition abort_and_queue (msg : pystr) (r : Req) (s : Sched) : Sched :=
  _add_request_to_queue (set_finish_with_abort msg r) s.

(** The end of [handle_generate_request]: where the log-probabilities start, and the limit of
    the new tokens. *)
Definition accept_request (start : Z) (r : Req) (s : Sched) : Sched :=
  let n := Z.of_nat (length (origin_input_ids r)) in
  let r := set_logprob_start_len (if bool_decide (start = -1)%Z || negb (return_logprob r) then n - 1 else start)%Z r in
  if bool_decide (n ≤ logprob_start_len r)%Z then
    abort_and_queue (s2z "logprob_start_len is higher than the number of input tokens") (set_logprob_start_len (n - 1)%Z r) s
  else
    let mx := Z.min (default (Z.shiftl 1 30) (max_new_tokens (sampling_params r))) (max_req_len cf - n - 1) in
    _add_request_to_queue (set_sampling_params (set_max_new_tokens (Some mx) (sampling_params r)) r) s.

(** [handle_generate_request], for requests without a grammar. *)
Definition handle_generate_request (i : GenerateReq) (s : Sched) : Sched :=
  let r := in_req i in
  if in_no_session i then
    _add_request_to_queue (set_finished_reason (Some (new_FINISH_ABORT (Some (s2z "Invalid request: session id does not exist")) None None)) r) s
  else if finished r then _add_request_to_queue r s
  else
    let expanded := match in_mm i with
                    | Some (ids, mm) => extend_image_inputs mm (set_origin_input_ids ids r)
                    | None => r
                    end in
    if bool_decide (is_Some (in_mm i)) && bool_decide (max_req_input_len cf ≤ Z.of_nat (length (origin_input_ids expanded)))%Z
    then abort_and_queue (s2z "Multimodal prompt is too long after expanding multimodal tokens") expanded s
    else match validate_input_length expanded with
         | inr msg => abort_and_queue msg expanded s
         | inl r => accept_request (in_logprob_start_len i) r s
         end.

(** The requests of the batch that runs, beside those of the running batch. *)
Definition cur_reqs (s : Sched) : list Req :=
  match last_batch s with Some (New b) => reqs (nb_batch b) | _ => [] end.

Definition set_to_abort (r : Req) : Req :=
  MkReq (rid r) (origin_input_ids_unpadded r) (origin_input_ids r) (output_ids r) (fill_ids r)
    (sampling_params r) (return_logprob r) (logprob_start_len r) (eos_token_ids r) (tokenizer r) (lora_path r)
    (finished_reason r) true (to_abort_message r) (surr_offset r) (read_offset r) (decoded_text r)
    (multimodal_inputs r) (prefix_indices r) (extend_input_len r) (extend_logprob_start_len r) (last_node r)
    (is_chunked r) (is_retracted r) (grammar r) (req_pool_idx r) (cached_tokens r) (already_computed r)
    (spec_verify_ct r) (req_stream r) (top_logprobs_num r) (token_ids_logprob r) (req_return_hidden_states r).

Definition abort_running (prefix : pystr) (r : Req) : Req :=
  if startswith prefix (rid r) && negb (finished r) then set_to_abort r else r.

Definition abort_request (prefix : pystr) (s : Sched) : Sched :=
  let s := set_waiting_queue (filter (λ r, startswith prefix (rid r) = false) (waiting_queue s)) s in
  let abort b := set_reqs (abort_running prefix <$> reqs b) b in
  let s := set_running_batch (abort (running_batch s)) s in
  let s := set_chunked_req (abort_running prefix <$> chunked_req s) s in
  match last_batch s with
  | Some (New b) => set_last_batch (Some (New (MkNewBatch (abort (nb_batch b)) (nb_chunked_req b) (nb_decoding_reqs b)))) s
  | _ => s
  end.

(** [flush_cache]: whether it did. *)
Definition flush_cache (s : Sched) : M Pools (bool * Sched) :=
  if bool_decide (waiting_queue s = []) && is_empty (running_batch s) then
    _ ← modify (λ m : Pools, MkStore (reset clock (st_cache m)) (rp_clear (st_pool m)) (ta_clear (st_alloc m)));
    mret (true, set_last_batch None s)
  else mret (false, s).

(** [check_memory]. *)
Definition check_memory : M Pools unit := λ m,
  let available_size := (Z.of_nat (ta_available_size (st_alloc m)) + evictable_size (st_cache m))%Z in
  if bool_decide (available_size ≠ Z.of_nat (max_total_num_tokens cf))
  then (Raise (ValueError "token_to_kv_pool_allocator memory leak detected!"), m)
  else if bool_decide (length (rp_free_slots (st_pool m)) ≠ rp_size (st_pool m))
  then (Raise (ValueError "req_to_token_pool memory leak detected!"), m)
  else (Ok tt, m).

(** ** [get_new_batch_prefill] *)

Definition get_num_allocatable_reqs (running_bs : nat) : Z := (max_micro_batch_size cf - Z.of_nat running_bs)%Z.

(** Whether [r] would need one adapter too many. *)
Definition too_many_loras (running can_run : list Req) (r : Req) : bool :=
  lora_paths cf &&
  bool_decide (max_loras_per_batch cf < length (remove_dups (lora_path <$> running ++ can_run ++ [r]))).

(** [req.init_next_round_input(None if prefix_computed else self.tree_cache)]. *)
Definition match_waiting (prefix_computed : bool) (r : Req) (p : PrefillAdder) : result (Req * PrefillAdder) :=
  if prefix_computed then r ← init_next_round_input_nocache false r (tree_cache p); Ok (r, p)
  else '(r, c) ← init_next_round_input clock tuple_hash r (tree_cache p); Ok (r, set_tree_cache c p).

(** The loop over the waiting queue: the requests that stay in it, and [batch_is_full]. *)
Fixpoint admit_loop (running : list Req) (prefix_computed : bool) (q : list Req) (p : PrefillAdder) (full : bool)
    : result (list Req * PrefillAdder * bool) :=
  match q with
  | [] => Ok ([], p, full)
  | r :: rest =>
      if too_many_loras running (can_run_list p) r then Ok (q, p, true)
      else if bool_decide (get_num_allocatable_reqs (length running) ≤ Z.of_nat (length (can_run_list p)))%Z
      then Ok (q, p, true)
      else
        '(r, p) ← match_waiting prefix_computed r p;
        '(res, p') ← add_one_req r p;
        let kept := if bool_decide (length (can_run_list p') = length (can_run_list p)) then [r] else [] in
        match res with
        | CONTINUE =>
            '(q, p'', full) ← admit_loop running prefix_computed rest p' full;
            Ok (kept ++ q, p'', full)
        | NO_TOKEN => Ok (kept ++ rest, p', true)
        | OTHER => Ok (kept ++ rest, p', full)
        end
  end.

(** The chunked request goes first. *)
Definition add_chunked (chunked : option Req) (p : PrefillAdder) : result (option Req * PrefillAdder) :=
  match chunked with
  | None => Ok (None, p)
  | Some r =>
      r ← init_next_round_input_nocache false r (tree_cache p);
      match add_chunked_req r p with
      | (Ok c, p) => Ok (c, p)
      | (Raise e, _) => Raise e
      end
  end.

Definition select_reqs (s : Sched) : M Pools (Sched * list Req) :=
  m ← get;
  '(q, prefix_computed, c, w) ←
    on_result (calc_priority clock tuple_hash shuffle (policy cf) (waiting_queue s) (st_cache m) (waiting_queue_radix_tree s));
  let s := set_queue_tree w s in
  let running := reqs (running_batch s) in
  p ← on_result (new_PrefillAdder c (st_alloc m) (Some running) (s_new_token_ratio s) (max_prefill_tokens cf)
                   (chunked_prefill_size cf) (if is_mixed_chunk cf then Z.of_nat (length running) else 0%Z));
  '(chunked, p) ← on_result (add_chunked (chunked_req s) p);
  '(q, p, full) ← on_result (admit_loop running prefix_computed q p (batch_is_full s));
  _ ← modify (set_st_cache (tree_cache p));
  let s := set_chunked_req chunked (set_batch_is_full full (set_waiting_queue q s)) in
  match can_run_list p, new_chunked_req p with
  | [], _ => mret (s, [])
  | can_run, None => mret (s, can_run)
  | can_run, Some r => _ ← on_mem (assert_ (bool_decide (chunked = None))); mret (set_chunked_req (Some r) s, can_run)
  end.

(** [self.chunked_req.is_chunked += 1], on the object that is in the batch. *)
Definition count_chunk (s : Sched) (can_run : list Req) : Sched * list Req :=
  match chunked_req s with
  | None => (s, can_run)
  | Some r =>
      let r := set_is_chunked (is_chunked (current can_run r) + 1)%Z (current can_run r) in
      (set_chunked_req (Some r) s, replace_req r can_run)
  end.

(** Mixed chunked prefill: the running requests join the new batch. *)
Definition mix (b : Batch (SI := SI)) (s : Sched) : M Pools (Batch (SI := SI) * option (list pystr) * Sched) :=
  if is_mixed_chunk cf && negb (is_empty (running_batch s))
     && negb (b_return_logprob b || b_return_logprob (running_batch s)) then
    running ← on_result (filter_batch [] None (running_batch s));
    let empty := set_running_batch (init_new [] (cf_enable_overlap cf)) s in
    if is_empty running then mret (b, None, empty)
    else
      running ← on_mem (prepare_for_decode tuple_hash oob undef uninit order running);
      b ← on_result (mix_with_running b running);
      mret (b, Some (rid <$> reqs running), empty)
  else mret (b, None, s).

Definition get_new_batch_prefill (s : Sched) : M Pools (Sched * option NewBatch) :=
  let nothing_to_do := batch_is_full s || bool_decide (waiting_queue s = []) in
  if nothing_to_do && bool_decide (chunked_req s = None) then mret (s, None)
  else if bool_decide (get_num_allocatable_reqs (length (reqs (running_batch s))) ≤ 0)%Z
          && bool_decide (chunked_req s = None) then mret (set_batch_is_full true s, None)
  else
    '(s, can_run) ← select_reqs s;
    match can_run with
    | [] => mret (s, None)
    | _ =>
        let '(s, can_run) := count_chunk s can_run in
        b ← on_mem (prepare_for_extend tuple_hash oob undef uninit order (init_new can_run (cf_enable_overlap cf)));
        let s := set_chunked_req (current (reqs b) <$> chunked_req s) s in
        '(b, decoding, s) ← mix b s;
        mret (s, Some (MkNewBatch b (rid <$> chunked_req s) decoding))
    end.

(** ** [update_running_batch] *)

(** Requests are retracted when the next step does not fit, and the estimate decays when it
    does. *)
Definition make_room (fits : bool) (b : Batch (SI := SI)) (s : Sched) : M Pools (Batch (SI := SI) * Sched) :=
  if negb fits || TEST_RETRACT cf && bool_decide (10 < batch_size b) then
    '(b, retracted, ratio) ← on_mem (retract_decode tuple_hash 1 b);
    mret (b, _extend_requests_to_queue retracted (set_new_token_ratio ratio s))
  else
    mret (b, set_new_token_ratio
               (Qmax (s_new_token_ratio s - new_token_ratio_decay cf) (min_new_token_ratio cf))%Q s).

Definition update_running_batch (s : Sched) : M Pools Sched :=
  let initial_bs := batch_size (running_batch s) in
  b ← on_result (filter_batch [] None (running_batch s));
  if is_empty b then mret (set_batch_is_full false (set_running_batch b s))
  else
    fits ← on_mem (check_decode_mem tuple_hash (reqs b) (decode_mem_cache_buf_multiplier cf));
    '(b, s) ← make_room fits b s;
    let s := if bool_decide (batch_size b < initial_bs) then set_batch_is_full false s else s in
    b ← on_mem (prepare_for_decode tuple_hash oob undef uninit order b);
    mret (set_running_batch b s).

(** ** [get_next_batch_to_run] *)

(** The calls [cache_finished_req] and [cache_unfinished_req]. *)
Definition cache_unfinished (r : Req) : M Pools Req := λ m,
  match cache_unfinished_req clock tuple_hash r m with
  | Some (r, m) => (Ok r, m)
  | None => (Raise AttributeError, m)
  end.
Definition cache_finished (r : Req) : M Pools unit := λ m,
  match cache_finished_req clock tuple_hash r m with
  | Some m => (Ok tt, m)
  | None => (Raise AttributeError, m)
  end.

(** The chunked request gives its row back and keeps what it has in the cache. *)
Definition stash_chunked (chunked : option Req) : M Pools (option Req) :=
  match chunked with
  | None => mret None
  | Some r =>
      r ← cache_unfinished r;
      row ← of_option TypeError (req_pool_idx r);
      _ ← modify (λ m, set_st_pool (rp_free [row] (st_pool m)) m);
      mret (Some r)
  end.

(** The last prefill batch joins the running batch. *)
Definition merge_last (s : Sched) : result Sched :=
  match last_batch s with
  | Some (New nb) =>
      b ← filter_batch (option_list (rid <$> chunked_req s) ++ option_list (nb_chunked_req nb)) None (nb_batch nb);
      let s := if bool_decide (batch_size b < batch_size (nb_batch nb)) then set_batch_is_full false s else s in
      if is_empty b then Ok s
      else if is_empty (running_batch s) then Ok (set_batch_is_full false (set_running_batch b s))
      else r ← merge_batch (running_batch s) b; Ok (set_running_batch r s)
  | _ => Ok s
  end.

Definition get_next_batch_to_run (s : Sched) : M Pools (Sched * option CurBatch) :=
  chunked ← stash_chunked (chunked_req s);
  s ← on_result (merge_last (set_chunked_req chunked s));
  '(s, new_batch) ← get_new_batch_prefill s;
  match new_batch with
  | Some b => mret (s, Some (New b))
  | None =>
      if is_empty (running_batch s) then mret (s, None)
      else
        s ← update_running_batch s;
        mret (s, if is_empty (running_batch s) then None else Some Running)
  end.

(** ** Processing the results *)

Definition accept (t : Z) (r : Req) : Req := set_grammar (accept_token t <$> grammar r) r.

(** [allocator.free(batch.out_cache_loc[j : j + 1])]. *)
Definition free_delayed (locs : option (list Z)) (j : nat) : M Pools unit :=
  l ← of_option TypeError locs;
  modify (λ m, set_st_alloc (ta_free (slice j (j + 1) l) (st_alloc m)) m).

(** One request of a decode batch, at position [i]. *)
Definition decode_result (locs : option (list Z)) (i : nat) (r : Req) (t : Z) : M Pools Req :=
  if is_retracted r then mret r
  else if cf_enable_overlap cf && finished r then _ ← free_delayed locs i; mret r
  else
    r ← on_result (check_finished (set_output_ids (output_ids r ++ [t]) r));
    _ ← (if finished r then cache_finished r else mret tt);
    mret (accept t r).

(** [zip(batch.reqs, next_token_ids)] with the positions. *)
Fixpoint process_reqs (f : nat → Req → Z → M Pools Req) (i : nat) (rs : list Req) (toks : list Z) : M Pools (list Req) :=
  match rs, toks with
  | r :: rs, t :: toks => r ← f i r t; rs ← process_reqs f (S i) rs toks; mret (r :: rs)
  | _, _ => mret rs
  end.

Definition process_batch_result_decode (b : Batch (SI := SI)) (next_token_ids : list Z) : M Pools (Batch (SI := SI)) :=
  _ ← modify (λ m : Pools, set_st_alloc (ta_free_group_begin (st_alloc m)) m);
  rs ← process_reqs (decode_result (out_cache_loc b)) 0 (reqs b) next_token_ids;
  _ ← modify (λ m : Pools, set_st_alloc (ta_free_group_end (st_alloc m)) m);
  mret (set_reqs rs b).

(** One request of a prefill batch. *)
Definition prefill_result (nb : NewBatch) (i : nat) (r : Req) (t : Z) : M Pools Req :=
  let b := nb_batch nb in
  if is_retracted r then mret r
  else if is_mixed_chunk cf && cf_enable_overlap cf && finished r then
    l ← of_option TypeError (out_cache_loc b);
    _ ← free_delayed (out_cache_loc b) (length l - length (reqs b) + i); mret r
  else if bool_decide (is_chunked r ≤ 0)%Z then
    r ← on_result (check_finished (set_output_ids (output_ids r ++ [t]) r));
    r ← (if finished r then _ ← cache_finished r; mret r
         else if bool_decide (rid r ∈ default [] (nb_decoding_reqs nb)) then mret r
         else cache_unfinished r);
    mret (accept t r)
  else mret (set_is_chunked (is_chunked r - 1)%Z r).

Definition process_batch_result_prefill (nb : NewBatch) (next_token_ids : list Z) : M Pools NewBatch :=
  rs ← process_reqs (prefill_result nb) 0 (reqs (nb_batch nb)) next_token_ids;
  mret (MkNewBatch (set_reqs rs (nb_batch nb)) (nb_chunked_req nb) (nb_decoding_reqs nb)).

(** [run_batch] sets the batch's [output_ids]. *)
Definition set_output (toks : list Z) (b : Batch (SI := SI)) : Batch (SI := SI) :=
  MkBatch (reqs b) (forward_mode b) (enable_overlap b) (sampling_info b) (b_input_ids b) (req_pool_indices b)
    (seq_lens b) (out_cache_loc b) (Some toks) (b_multimodal_inputs b) (seq_lens_sum b)
    (b_return_logprob b) (top_logprobs_nums b) (token_ids_logprobs b) (prefix_lens b) (extend_lens b)
    (extend_num_tokens b) (extend_logprob_start_lens b) (extend_input_logprob_token_ids b) (has_stream b)
    (has_grammar b) (b_return_hidden_states b).

(** [run_batch] and [process_batch_result] of the batch [cur]. *)
Definition run_and_process (cur : CurBatch) (s : Sched) : M Pools (CurBatch * Sched) :=
  match cur with
  | Running =>
      let toks := forward_batch_generation (running_batch s) in
      b ← process_batch_result_decode (set_output toks (running_batch s)) toks;
      mret (Running, set_running_batch b s)
  | New nb =>
      let toks := forward_batch_generation (nb_batch nb) in
      nb ← process_batch_result_prefill
             (MkNewBatch (set_output toks (nb_batch nb)) (nb_chunked_req nb) (nb_decoding_reqs nb)) toks;
      mret (New nb, set_chunked_req (current (reqs (nb_batch nb)) <$> chunked_req s) s)
  end.

(** One turn of [event_loop_normal], after the new messages are handled. *)
Definition event_loop_turn (s : Sched) : M Pools Sched :=
  '(s, batch) ← get_next_batch_to_run s;
  match batch with
  | Some cur => '(cur, s) ← run_and_process cur s; mret (set_last_batch (Some cur) s)
  | None => _ ← check_memory; mret (set_last_batch None (set_new_token_ratio (init_new_token_ratio cf) s))
  end.
End sched.
