(* ===== verification/SchedMem.v ===== *)
(** * Who holds what in the scheduler's pools

    The invariant of the radix cache, the request table and the slot allocator between the
    steps of [src/python/sglang/srt/managers/scheduler.py]: every row and every slot is free,
    in the tree or with exactly one live request, and the locks of the tree are those of the
    live requests. One lemma per step of the
    scheduler that touches the tree or one holder; those of whole batches are in
    [SchedMemBatch]. *)

From S2P Require Import Prelude PyStr PySort Sampling HeapQ Radix RadixTree RadixUpdate RadixMatch RadixInv RadixSpec RadixLock RadixEvict RadixThms RadixLive Alloc PagedAlloc Req RadixStore SchedulePolicy PrefillAdder Penalty SamplingBatch BatchMem ReqTable ScheduleBatch BatchSteps Retract Scheduler.

Open Scope nat_scope.

Implicit Types (c : RadixCache) (L : gset nat) (own : nat → Z) (p : ReqToTokenPool) (a : TokenToKVPoolAllocator).

(** ** Holders *)

(** A live request with the number of its tokens that have a slot. *)
Notation Holder := (Req * nat)%type.

(** The slots in the request's row, and those of them that are not the tree's. *)
Definition kv_of p (h : Holder) : list Z := default [] (row ← req_pool_idx h.1; rp_read row h.2 p).
Definition own_kv p (h : Holder) : list Z := drop (length (prefix_indices h.1)) (kv_of p h).

Record holder_at c L p (h : Holder) (row node : nat) (kv : list Z) : Prop := {
  ha_row : req_pool_idx h.1 = Some row;
  ha_read : rp_read row h.2 p = Some kv;
  ha_len : length kv = h.2;
  ha_node : last_node h.1 = Some node;
  ha_live : node ∈ L;
  ha_fits : length (prefix_indices h.1) ≤ h.2;
  ha_prefix : prefix_indices h.1 = take (length (prefix_indices h.1)) kv;
  ha_ends : ends_at c node (take (length (prefix_indices h.1)) (ids h.1)) (prefix_indices h.1)
}.

Definition holder_ok c L p (h : Holder) : Prop := ∃ row node kv, holder_at c L p h row node kv.

(** How often the node [n] is held by the requests [rs]. *)
Definition has_node (n : nat) (r : Req) : Z := if bool_decide (last_node r = Some n) then 1 else 0.
Definition held (rs : list Req) (n : nat) : Z := zsum (has_node n) rs.

Lemma has_node_nonneg n r : (0 ≤ has_node n r)%Z.
Proof. unfold has_node. by case_bool_decide. Qed.

Lemma held_app rs rs' n : held (rs ++ rs') n = (held rs n + held rs' n)%Z.
Proof. apply zsum_app. Qed.

Lemma held_single r n : held [r] n = has_node n r.
Proof. unfold held. simpl. lia. Qed.

Lemma held_nonneg rs n : (0 ≤ held rs n)%Z.
Proof. apply zsum_nonneg. intros r _. apply has_node_nonneg. Qed.

(** The holder of one node, as the radix tree's lemmas count it. *)
Lemma held_one r n m : last_node r = Some n → has_node m r = (if decide (m = n) then 1 else 0)%Z.
Proof. intros Hn. unfold has_node. rewrite Hn. case_bool_decide; case_decide; naive_solver lia. Qed.

Lemma held_elem rs r n : r ∈ rs → last_node r = Some n → (1 ≤ held rs n)%Z.
Proof.
  intros Hr Hn. pose proof (zsum_elem_le (has_node n) rs r (λ y _, has_node_nonneg n y) Hr) as Hle.
  unfold has_node in Hle at 1. by rewrite bool_decide_eq_true_2 in Hle.
Qed.

Lemma held_pos rs n : (0 < held rs n)%Z → ∃ r, r ∈ rs ∧ last_node r = Some n.
Proof. intros (r & Hr & Hp)%zsum_pos_elem. exists r. unfold has_node in Hp. case_bool_decide; [done|lia]. Qed.

(** ** The invariant *)

(** How often the slot [x] is with one of the holders. *)
Definition private (hs : list Holder) p (x : Z) : Z := zsum (λ h, Z.of_nat (count_occ Z.eq_dec (own_kv p h) x)) hs.

(** The pools with the holders [hs] and the requests [locks], which hold only a node.
    [g]: the allocator is outside a free group. [N] slots; rows of [stride] columns. *)
Record mem_ok (g : bool) (N : nat) (stride : Z) (hs : list Holder) (locks : list Req) (s : Pools) L own : Prop := {
  mo_cache : cache_ok (st_cache s) L own;
  mo_enabled : disable (st_cache s) = false;
  mo_page : page_size (st_cache s) = 1;
  mo_group : ta_is_not_in_free_group (st_alloc s) = g;
  mo_table : table_ok (st_pool s) stride;
  mo_holders : Forall (holder_ok (st_cache s) L (st_pool s)) hs;
  mo_locks : Forall (matched (st_cache s) L) locks;
  mo_own n : own n = held (hs.*1 ++ locks) n;
  mo_rows : (req_pool_idx <$> hs.*1) ++ (Some <$> rp_free_slots (st_pool s)) ≡ₚ Some <$> seq 0 (rp_size (st_pool s));
  mo_in_table row : row < rp_size (st_pool s) → is_Some (req_to_token (st_pool s) !! row);
  mo_slots x : (token_slots (st_cache s) L (st_alloc s) x + private hs (st_pool s) x)%Z =
    (if bool_decide (x ∈ arange1 N) then 1 else 0)%Z
}.

(** The order of the holders does not matter. *)
Lemma mem_ok_perm g N stride hs hs' locks s L own : hs ≡ₚ hs' → mem_ok g N stride hs locks s L own →
  mem_ok g N stride hs' locks s L own.
Proof.
  intros Hp [H1 H2 H3 H4 H5 H6 H7 H8 H9 H10 H11]. split; try done.
  - by rewrite <- Hp.
  - intros n. rewrite H8. apply zsum_perm. by rewrite Hp.
  - by rewrite <- H9, Hp.
  - intros x. rewrite <- H11. f_equal. apply zsum_perm. by symmetry.
Qed.

(** Requests that agree in what they hold. *)
Definition same_hold (h h' : Holder) : Prop :=
  req_pool_idx h'.1 = req_pool_idx h.1 ∧ last_node h'.1 = last_node h.1 ∧
  prefix_indices h'.1 = prefix_indices h.1 ∧ h'.2 = h.2 ∧
  take (length (prefix_indices h.1)) (ids h'.1) = take (length (prefix_indices h.1)) (ids h.1).

Lemma same_hold_self h : same_hold h h.
Proof. done. Qed.

Lemma holder_ok_same c L p h h' : same_hold h h' → holder_ok c L p h → holder_ok c L p h'.
Proof.
  intros (E1 & E2 & E3 & E4 & E5) (row & node & kv & [H1 H2 H3 H4 H5 H6 H7 H8]). exists row, node, kv.
  split; rewrite ?E1, ?E2, ?E3, ?E4, ?E5; done.
Qed.

Lemma same_hold_fmap {A} (f : Holder → A) hs hs' : (∀ h h', same_hold h h' → f h' = f h) →
  Forall2 same_hold hs hs' → f <$> hs' = f <$> hs.
Proof. intros Hf. induction 1 as [|h h' l l' Hh _ IH]; [done|]. rewrite !fmap_cons. by rewrite (Hf h h' Hh), IH. Qed.

Lemma zsum_compose {A B} (f : B → Z) (g : A → B) xs : zsum f (g <$> xs) = zsum (λ x, f (g x)) xs.
Proof. induction xs as [|x xs IH]; [done|]. rewrite fmap_cons. simpl. by rewrite IH. Qed.

Lemma mem_ok_same g N stride hs hs' locks s L own : Forall2 same_hold hs hs' → mem_ok g N stride hs locks s L own →
  mem_ok g N stride hs' locks s L own.
Proof.
  intros HF [H1 H2 H3 H4 H5 H6 H7 H8 H9 H10 H11]. split; try done.
  - clear -HF H6. induction HF as [|h h' hs hs' Hh _ IH]; [done|]. apply Forall_cons in H6 as [Ho H6].
    constructor; [by eapply holder_ok_same|by apply IH].
  - intros n. rewrite H8, !held_app. f_equal. unfold held. rewrite !zsum_compose.
    assert (E : (λ h : Holder, last_node h.1) <$> hs' = (λ h : Holder, last_node h.1) <$> hs).
    { apply same_hold_fmap; [|done]. by intros h h' (_ & -> & _). }
    apply (f_equal (zsum (λ o, if bool_decide (o = Some n) then 1%Z else 0%Z))) in E. by rewrite !zsum_compose in E.
  - assert (E : req_pool_idx <$> hs'.*1 = req_pool_idx <$> hs.*1).
    { rewrite <- !list_fmap_compose. apply (same_hold_fmap (λ h : Holder, req_pool_idx h.1)); [|done]. by intros h h' (-> & _). }
    by rewrite E.
  - intros x. rewrite <- H11. f_equal. unfold private.
    assert (E : own_kv (st_pool s) <$> hs' = own_kv (st_pool s) <$> hs).
    { apply same_hold_fmap; [|done]. intros h h' (E1 & _ & E3 & E4 & _). unfold own_kv, kv_of. by rewrite E1, E3, E4. }
    apply (f_equal (zsum (λ l, Z.of_nat (count_occ Z.eq_dec l x)))) in E. by rewrite !zsum_compose in E.
Qed.

(** ** Where the slots are *)

Section counts.
Context {g N stride hs locks s L own} (MO : mem_ok g N stride hs locks s L own).

Lemma slot_count_nonneg c M x : (0 ≤ slot_count c M x)%Z.
Proof.
  apply set_zsum_nonneg. intros m _. unfold wt, w_slot. destruct (skel c !! m) as [t|]; [|done].
  destruct (s_value t); lia.
Qed.

Lemma private_nonneg p x : (0 ≤ private hs p x)%Z.
Proof. apply zsum_nonneg. intros h _. lia. Qed.

Lemma outside x : x ∉ arange1 N → slot_count (st_cache s) L x = 0%Z ∧
  count_occ Z.eq_dec (ta_free_of (st_alloc s)) x = 0 ∧ private hs (st_pool s) x = 0%Z.
Proof.
  intros Hx. pose proof (mo_slots _ _ _ _ _ _ _ _ MO x) as E. rewrite bool_decide_eq_false_2 in E by done.
  pose proof (slot_count_nonneg (st_cache s) L x). pose proof (private_nonneg (st_pool s) x).
  unfold token_slots in E. split_and!; lia.
Qed.

Lemma zsum_plus {A} (f h : A → Z) xs : zsum (λ x, f x + h x)%Z xs = (zsum f xs + zsum h xs)%Z.
Proof. induction xs as [|x xs IH]; simpl; [done|]. lia. Qed.

Lemma own_in_range h x : h ∈ hs → x ∈ own_kv (st_pool s) h → x ∈ arange1 N.
Proof.
  intros Hh Hx. destruct (decide (x ∈ arange1 N)) as [|Hn]; [done|]. destruct (outside x Hn) as (_ & _ & E). exfalso.
  apply list_elem_of_In, (count_occ_In Z.eq_dec) in Hx.
  pose proof (zsum_elem_le (λ h, Z.of_nat (count_occ Z.eq_dec (own_kv (st_pool s) h) x)) hs h) as Hle.
  unfold private in E. rewrite E in Hle. specialize (Hle ltac:(intros; lia) Hh). lia.
Qed.

Lemma holder_own_length h : h ∈ hs → length (own_kv (st_pool s) h) = h.2 - length (prefix_indices h.1).
Proof.
  intros Hh. pose proof (mo_holders _ _ _ _ _ _ _ _ MO) as HF. rewrite Forall_forall in HF.
  destruct (HF h Hh) as (row & node & kv & [H1 H2 H3 _ _ _ _ _]). unfold own_kv, kv_of. rewrite H1.
  cbn [mbind option_bind]. rewrite H2. simpl. by rewrite length_drop, H3.
Qed.

(** Every slot is free, evictable, protected or private. *)
Lemma mem_total : (Z.of_nat (length (ta_free_of (st_alloc s))) + evictable_size (st_cache s) + protected_size (st_cache s) +
  zsum (λ h : Holder, Z.of_nat h.2 - Z.of_nat (length (prefix_indices h.1))) hs = Z.of_nat N)%Z.
Proof.
  pose proof (arange1_NoDup N) as Hnd.
  assert (Htot : zsum (λ x, token_slots (st_cache s) L (st_alloc s) x + private hs (st_pool s) x)%Z (arange1 N) = Z.of_nat N).
  { rewrite (zsum_ext _ (λ _, 1%Z)).
    - assert (E : ∀ xs : list Z, zsum (λ _, 1%Z) xs = Z.of_nat (length xs)) by (induction xs; simpl; lia).
      rewrite E. unfold arange1. by rewrite length_fmap, length_seq.
    - intros x Hx. rewrite (mo_slots _ _ _ _ _ _ _ _ MO x). by rewrite bool_decide_eq_true_2. }
  rewrite zsum_plus in Htot. unfold token_slots in Htot. rewrite zsum_plus in Htot.
  rewrite (slots_total _ _ _ _ (mo_cache _ _ _ _ _ _ _ _ MO) Hnd) in Htot by (intros x Hx; by apply outside).
  rewrite count_all in Htot; [|done|].
  2:{ intros x Hx. destruct (decide (x ∈ arange1 N)) as [|Hn]; [done|]. destruct (outside x Hn) as (_ & E & _).
      apply list_elem_of_In, (count_occ_In Z.eq_dec) in Hx. lia. }
  unfold private in Htot. rewrite zsum_swap in Htot.
  rewrite (zsum_ext _ (λ h : Holder, (Z.of_nat h.2 - Z.of_nat (length (prefix_indices h.1)))%Z) hs) in Htot; [lia|].
  intros h Hh. rewrite count_all; [|done|by intros x; apply own_in_range]. rewrite holder_own_length by done.
  pose proof (mo_holders _ _ _ _ _ _ _ _ MO) as HF. rewrite Forall_forall in HF.
  destruct (HF h Hh) as (row & node & kv & [_ _ _ _ _ Hfit _ _]). lia.
Qed.

Lemma held_node n : (0 < own n)%Z → ∃ r, r ∈ hs.*1 ++ locks ∧ last_node r = Some n.
Proof. rewrite (mo_own _ _ _ _ _ _ _ _ MO). apply held_pos. Qed.

Lemma ends_at_length c M o n k v : cache_ok c M o → ends_at c n k v → length v = length k.
Proof.
  intros OK He. destruct (c_tree _ _ _ OK) as [off TR]. pose proof (ok_root_L _ _ _ OK) as Hr. unfold ends_at in He.
  revert Hr He. generalize (root_node c). intros m Hm Hp.
  induction Hp as [|m x n kk ww k v He Hp IH]; [done|].
  destruct (edge_ok TR m x kk ww Hm He) as (Hx & _ & _ & _ & El & _). rewrite !length_app. by rewrite IH, El.
Qed.

(** Who holds a node has its prefix there. *)
Lemma lock_ends r : r ∈ hs.*1 ++ locks → ∃ n k, last_node r = Some n ∧ length k = length (prefix_indices r) ∧
  n ∈ L ∧ ends_at (st_cache s) n k (prefix_indices r).
Proof.
  pose proof (mo_cache _ _ _ _ _ _ _ _ MO) as OK.
  intros [Hr|Hr]%elem_of_app.
  - apply list_elem_of_fmap in Hr as (h & -> & Hh). pose proof (mo_holders _ _ _ _ _ _ _ _ MO) as HF.
    rewrite Forall_forall in HF. destruct (HF h Hh) as (row & node & kv & [_ _ _ Hn Hl _ _ He]).
    exists node. eexists. split_and!; [done|symmetry; by eapply ends_at_length|done|done].
  - pose proof (mo_locks _ _ _ _ _ _ _ _ MO) as HF. rewrite Forall_forall in HF.
    destruct (HF r Hr) as (n & Hn & Hl & _ & He). exists n. eexists.
    split_and!; [done|symmetry; by eapply ends_at_length|done|done].
Qed.

Lemma mem_protected : (protected_size (st_cache s) ≤ zsum (λ r, Z.of_nat (length (prefix_indices r))) (hs.*1 ++ locks))%Z.
Proof.
  pose proof lock_ends as Hends. pose proof held_node as Hown. pose proof (mo_cache _ _ _ _ _ _ _ _ MO) as OK.
  assert (∃ hl : list (nat * list Z), zsum (λ h, Z.of_nat (length h.2)) hl = zsum (λ r, Z.of_nat (length (prefix_indices r))) (hs.*1 ++ locks) ∧
    (∀ n k, (n, k) ∈ hl → ∃ v, ends_at (st_cache s) n k v) ∧
    (∀ r n, r ∈ hs.*1 ++ locks → last_node r = Some n → ∃ k, (n, k) ∈ hl)) as (hl & <- & H1 & H2).
  { clear Hown. induction (hs.*1 ++ locks) as [|r rs IH].
    { exists []. split_and!; [done|by intros n k ?%elem_of_nil|by intros r n ?%elem_of_nil]. }
    destruct IH as (hl & E & H1 & H2); [intros; apply Hends; by right|].
    destruct (Hends r ltac:(left)) as (n & k & Hn & Hk & _ & He). exists ((n, k) :: hl). split_and!.
    - simpl. rewrite E. lia.
    - intros n' k' [[= -> ->]|Hin]%elem_of_cons; [by eexists|by apply H1].
    - intros r' n' [->|Hr']%elem_of_cons Hn'; [exists k; simplify_eq; left|].
      destruct (H2 r' n' Hr' Hn') as [k' ?]. exists k'. by right. }
  eapply protected_le; [done|done|]. intros n (r & Hr & Hn)%Hown. by apply (H2 r).
Qed.

(** What the holders do not need can be handed out. *)
Lemma mem_available : (Z.of_nat N ≤ Z.of_nat (length (ta_free_of (st_alloc s))) + evictable_size (st_cache s) +
  zsum (λ h : Holder, Z.of_nat h.2) hs + zsum (λ r, Z.of_nat (length (prefix_indices r))) locks)%Z.
Proof.
  pose proof mem_total as Ht. pose proof mem_protected as Hp. rewrite zsum_app, zsum_compose in Hp.
  assert (E : zsum (λ h : Holder, Z.of_nat h.2) hs = (zsum (λ h : Holder, Z.of_nat h.2 - Z.of_nat (length (prefix_indices h.1)))%Z hs +
    zsum (λ h : Holder, Z.of_nat (length (prefix_indices h.1))) hs)%Z).
  { rewrite <- zsum_plus. apply zsum_ext. intros h _. lia. }
  lia.
Qed.
End counts.

(** ** Steps of the tree *)

Lemma holder_keep P c L p c' L' h : keeps P c L c' L' → (∀ n, last_node h.1 = Some n → P n) →
  holder_ok c L p h → holder_ok c' L' p h.
Proof.
  intros [_ HK] HP (row & node & kv & [H1 H2 H3 H4 H5 H6 H7 H8]). exists row, node, kv.
  destruct (HK node _ _ H5 (HP _ H4) H8). by split.
Qed.

Lemma matched_keep P c L c' L' r : keeps P c L c' L' → (∀ n, last_node r = Some n → P n) →
  matched c L r → matched c' L' r.
Proof.
  intros [_ HK] HP (n & Hn & HL & Hl & He). destruct (HK n _ _ HL (HP _ Hn) He). by exists n.
Qed.

Lemma keeps_conf P c L c' L' : keeps P c L c' L' → root_node c' = root_node c ∧ page_size c' = page_size c ∧ disable c' = disable c.
Proof. intros [E _]. unfold conf in E. by injection E. Qed.

(** The tree and the allocator change, and the locks. *)
Lemma mem_tree P g N stride hs locks locks' c p a c' a' L L' own own' :
  mem_ok g N stride hs locks (MkStore c p a) L own → cache_ok c' L' own' → keeps P c L c' L' →
  (∀ r n, r ∈ hs.*1 ++ locks' → last_node r = Some n → P n) → Forall (matched c L) locks' →
  (∀ x, token_slots c' L' a' x = token_slots c L a x) → ta_is_not_in_free_group a' = g →
  (∀ n, own' n = held (hs.*1 ++ locks') n) → mem_ok g N stride hs locks' (MkStore c' p a') L' own'.
Proof.
  intros [H1 H2 H3 H4 H5 H6 H7 H8 H9 H10 H11] OK HK HP Hm Hslots Hg Hown. simpl in *.
  destruct (keeps_conf _ _ _ _ _ HK) as (_ & Ep & Ed). split; simpl; try done; try congruence.
  - rewrite Forall_forall in *. intros h Hh. eapply holder_keep; [exact HK| |by apply H6].
    intros n. apply HP, elem_of_app. left. apply list_elem_of_fmap. by exists h.
  - rewrite Forall_forall in *. intros r Hr. eapply matched_keep; [exact HK| |by apply Hm].
    intros n. apply HP, elem_of_app. by right.
  - intros x. by rewrite Hslots.
Qed.

Section steps.
Context {g : bool} {N : nat} {stride : Z} {hs : list Holder}.

(** A match of a prefix. *)
Lemma mem_match locks c p a c' L L' own : mem_ok g N stride hs locks (MkStore c p a) L own →
  cache_ok c' L' own → same_content c L c' L' → mem_ok g N stride hs locks (MkStore c' p a) L' own.
Proof.
  intros MO OK SC. pose proof (ok_root_L _ _ _ (mo_cache _ _ _ _ _ _ _ _ MO)) as Hr.
  eapply (mem_tree (λ _, True)); [exact MO|done|by eapply keeps_extends; [apply SC|]|done|apply MO| |apply MO|apply MO].
  intros x. unfold token_slots, slot_count. by rewrite (sc_slots _ _ _ _ SC).
Qed.

(** A lock for the request [r]. *)
Lemma mem_lock locks c p a c' L own r n : mem_ok g N stride hs locks (MkStore c p a) L own →
  cache_ok c' L (hold own n 1) → same_keys c L c' → last_node r = Some n → matched c L r →
  mem_ok g N stride hs (locks ++ [r]) (MkStore c' p a) L (hold own n 1).
Proof.
  intros MO OK SK Hn Hm.
  eapply (mem_tree (λ _, True)); [exact MO|done|by apply keeps_same_keys|done| | |apply MO|].
  - apply Forall_app. split; [apply MO|by apply Forall_singleton].
  - intros x. unfold token_slots, slot_count. by rewrite (sk_slots _ _ _ SK).
  - intros m. unfold hold. rewrite (mo_own _ _ _ _ _ _ _ _ MO), app_assoc, (held_app (_ ++ _)), held_single.
    rewrite (held_one r n m Hn). case_decide; lia.
Qed.

(** An eviction. *)
Lemma mem_evict locks c p a c' a' L L' own : mem_ok true N stride hs locks (MkStore c p a) L own →
  evicted_mem c L own a c' L' a' → mem_ok true N stride hs locks (MkStore c' p a') L' own.
Proof.
  intros MO EM. pose proof (mo_cache _ _ _ _ _ _ _ _ MO) as OK.
  eapply mem_tree; [exact MO|apply EM|by eapply evicted_keeps| |apply MO|apply EM|apply EM|apply MO].
  intros r n Hr Hn. simpl. rewrite (mo_own _ _ _ _ _ _ _ _ MO). by eapply held_elem.
Qed.
End steps.

(** ** Steps of one holder *)

(** A holder whose row does not change. *)
Lemma kv_of_rows p p' h : (∀ row, req_pool_idx h.1 = Some row → req_to_token p' !! row = req_to_token p !! row) →
  kv_of p' h = kv_of p h.
Proof.
  intros Hr. unfold kv_of, rp_read. destruct (req_pool_idx h.1) as [row|]; [|done]. cbn [mbind option_bind].
  by rewrite (Hr row).
Qed.

Lemma holder_ok_rows c L p p' h : (∀ row, req_pool_idx h.1 = Some row → req_to_token p' !! row = req_to_token p !! row) →
  holder_ok c L p h → holder_ok c L p' h.
Proof.
  intros Hr (row & node & kv & [H1 H2 H3 H4 H5 H6 H7 H8]). exists row, node, kv.
  split; try done. unfold rp_read in *. by rewrite (Hr row H1).
Qed.

Lemma private_rows hs p p' x : (∀ h row, h ∈ hs → req_pool_idx h.1 = Some row → req_to_token p' !! row = req_to_token p !! row) →
  private hs p' x = private hs p x.
Proof. intros Hr. apply zsum_ext. intros h Hh. unfold own_kv. by rewrite (kv_of_rows p p' h) by (intros; by apply (Hr h)). Qed.

(** The rows of different holders are different, and none is free. *)
Lemma rows_NoDup g N stride hs locks s L own : mem_ok g N stride hs locks s L own →
  NoDup ((req_pool_idx <$> hs.*1) ++ (Some <$> rp_free_slots (st_pool s))).
Proof. intros MO. rewrite (mo_rows _ _ _ _ _ _ _ _ MO). apply NoDup_fmap; [apply _|apply NoDup_seq]. Qed.

Lemma row_other g N stride h hs locks s L own row : mem_ok g N stride (h :: hs) locks s L own →
  req_pool_idx h.1 = Some row → ∀ h' row', h' ∈ hs → req_pool_idx h'.1 = Some row' → row' ≠ row.
Proof.
  intros MO Hr h' row' Hin Hr' ->. pose proof (rows_NoDup _ _ _ _ _ _ _ _ MO) as Hnd.
  rewrite !fmap_cons in Hnd. cbn [app] in Hnd. apply NoDup_cons in Hnd as [Hn _]. apply Hn, elem_of_app. left.
  rewrite Hr, <- Hr'. apply list_elem_of_fmap. exists h'.1. split; [done|]. apply list_elem_of_fmap. by exists h'.
Qed.

Lemma row_bound g N stride hs locks s L own h row : mem_ok g N stride hs locks s L own → h ∈ hs →
  req_pool_idx h.1 = Some row → row < rp_size (st_pool s) ∧ row ∉ rp_free_slots (st_pool s).
Proof.
  intros MO Hh Hr. assert (Hin : Some row ∈ req_pool_idx <$> hs.*1).
  { rewrite <- Hr. apply list_elem_of_fmap. exists h.1. split; [done|]. apply list_elem_of_fmap. by exists h. }
  split.
  - assert (Hx : Some row ∈ Some <$> seq 0 (rp_size (st_pool s))).
    { rewrite <- (mo_rows _ _ _ _ _ _ _ _ MO). apply elem_of_app. by left. }
    apply list_elem_of_fmap in Hx as (y & [= <-] & Hy%elem_of_seq). lia.
  - pose proof (rows_NoDup _ _ _ _ _ _ _ _ MO) as (_ & Hd & _)%NoDup_app. intros Hf. apply (Hd _ Hin).
    apply list_elem_of_fmap. by exists row.
Qed.

Lemma frees_group (a a' : TokenToKVPoolAllocator) : frees a a' → ta_is_not_in_free_group a' = ta_is_not_in_free_group a.
Proof.
  intros [vs ->]. induction vs as [|v vs IH]; [done|]. rewrite <- IH. simpl. generalize (foldr ta_free a vs). intros b.
  unfold ta_free. destruct v; [done|]. by destruct (ta_is_not_in_free_group b).
Qed.

Lemma holder_req_ok g N stride r n hs s L own row node kv toks : mem_ok g N stride ((r, n) :: hs) [] s L own →
  holder_at (st_cache s) L (st_pool s) (r, n) row node kv → length toks = n →
  take (length (prefix_indices r)) toks = take (length (prefix_indices r)) (ids r) →
  req_ok r s L own toks kv row node.
Proof.
  intros MO [H1 H2 H3 H4 H5 H6 H7 H8] Hn Ht. cbn [fst snd] in *. split; try done; try congruence.
  - rewrite (mo_own _ _ _ _ _ _ _ _ MO). eapply (held_elem _ r); [left|done].
  - rewrite (mo_page _ _ _ _ _ _ _ _ MO). apply Nat.divide_1_l.
  - rewrite Ht. eapply path_has. exact H8.
Qed.

Section finish.
Context (clock : nat → Z) (tuple_hash : list Z → Z).
Context {g : bool} {N : nat} {stride : Z} {hs : list Holder}.

Lemma own_drop r n m L own : mem_ok g N stride ((r, n) :: hs) [] m L own → ∀ node, last_node r = Some node →
  ∀ x, hold own node (-1) x = held (hs.*1 ++ []) x.
Proof.
  intros MO node Hn x. unfold hold. rewrite (mo_own _ _ _ _ _ _ _ _ MO), !app_nil_r.
  change (((r, n) :: hs).*1) with ([r] ++ hs.*1). rewrite held_app, held_single, (held_one r node x Hn).
  case_decide; lia.
Qed.

(** A finished request gives everything back. *)
Lemma mem_finished r n m L own : mem_ok g N stride ((r, n) :: hs) [] m L own → length (ids r) = S n →
  ∃ m' L' own', cache_finished clock tuple_hash r m = (Ok tt, m') ∧ mem_ok g N stride hs [] m' L' own' ∧
    rp_size (st_pool m') = rp_size (st_pool m).
Proof.
  intros MO Hids. pose proof (mo_holders _ _ _ _ _ _ _ _ MO) as HF. apply Forall_cons in HF as [(row & node & kv & HA) HF].
  assert (RQ : req_ok r m L own (drop_last 1 (origin_input_ids r ++ output_ids r)) kv row node).
  { apply (holder_req_ok g N stride r n hs m L own row node kv _ MO HA); unfold drop_last; fold (ids r).
    - rewrite length_take. lia.
    - rewrite take_take. f_equal. pose proof (ha_fits _ _ _ _ _ _ _ HA). simpl in *. lia. }
  destruct (cache_finished_ok clock tuple_hash r m L own _ kv row node (mo_cache _ _ _ _ _ _ _ _ MO)
    (mo_enabled _ _ _ _ _ _ _ _ MO) eq_refl RQ) as (m' & L' & w & E & OK & Hsl & _ & _ & Hpool & HK & Hfr).
  exists m', L', (hold own node (-1)). split; [unfold cache_finished; by rewrite E|]. split; [|by rewrite Hpool].
  destruct (keeps_conf _ _ _ _ _ HK) as (_ & Ep & Ed). pose proof (ha_row _ _ _ _ _ _ _ HA) as Hrow. simpl in Hrow.
  pose proof MO as [H1 H2 H3 H4 H5 H6 H7 H8 H9 H10 H11].
  split; rewrite ?Hpool; try done; try congruence.
  - by rewrite (frees_group _ _ Hfr).
  - rewrite Forall_forall in *. intros h Hh. eapply holder_keep; [exact HK|done|].
    eapply holder_ok_rows; [|by apply HF]. done.
  - by eapply own_drop, (ha_node _ _ _ _ _ _ _ HA).
  - simpl. rewrite fmap_app, <- H9. simpl. rewrite Hrow, app_assoc. by rewrite Permutation_app_comm.
  - intros x. rewrite <- H11. unfold token_slots, slots_of in *. simpl in Hsl. rewrite Hsl. unfold private. simpl.
    assert (Eo : own_kv (st_pool m) (r, n) = drop (length (prefix_indices r)) kv).
    { unfold own_kv, kv_of. simpl. rewrite Hrow. cbn [mbind option_bind].
      pose proof (ha_read _ _ _ _ _ _ _ HA) as Hr. simpl in Hr. by rewrite Hr. }
    rewrite Eo. pose proof (private_rows hs (st_pool m) (rp_free [row] (st_pool m)) x ltac:(done)) as Ep2.
    unfold private in Ep2. rewrite Ep2. lia.
Qed.

(** A request that goes on hands its slots to the tree and takes the tree's. *)
Lemma mem_unfinished r n m L own : mem_ok g N stride ((r, n) :: hs) [] m L own →
  fill_ids r = take n (ids r) → n ≤ length (ids r) →
  ∃ r' m' L' own' node pre, cache_unfinished clock tuple_hash r m = (Ok r', m') ∧
    r' = set_last_node (Some node) (set_prefix_indices pre r) ∧ mem_ok g N stride ((r', n) :: hs) [] m' L' own' ∧
    rp_size (st_pool m') = rp_size (st_pool m).
Proof.
  intros MO Hfill Hn. pose proof (mo_holders _ _ _ _ _ _ _ _ MO) as HF. apply Forall_cons in HF as [(row & node & kv & HA) HF].
  pose proof (ha_fits _ _ _ _ _ _ _ HA) as Hfit. simpl in Hfit.
  assert (Hlf : length (fill_ids r) = n) by (rewrite Hfill, length_take; lia).
  assert (RQ : req_ok r m L own (fill_ids r) kv row node).
  { apply (holder_req_ok g N stride r n hs m L own row node kv _ MO HA); [done|].
    rewrite Hfill, take_take. f_equal. lia. }
  destruct (cache_unfinished_ok clock tuple_hash r m L own kv row node (mo_cache _ _ _ _ _ _ _ _ MO)
    (mo_enabled _ _ _ _ _ _ _ _ MO) RQ) as (r' & m' & L' & new & node' & E & OK & Hln & Hlast & He & _ & _ & Hsl & HRQ & Hr' & Hlive & HK & Hfr & Hfree & Hsize & Hoth & Hlens).
  destruct (keeps_conf _ _ _ _ _ HK) as (_ & Ep & Ed). pose proof (ha_row _ _ _ _ _ _ _ HA) as Hrow. simpl in Hrow.
  pose proof (mo_page _ _ _ _ _ _ _ _ MO) as Hps. specialize (HRQ Hps).
  assert (En : page_aligned_len (page_size (st_cache m)) (length (fill_ids r)) = n).
  { unfold page_aligned_len. by rewrite decide_True. }
  rewrite En in *. assert (Hkv : length kv = n) by (rewrite (rq_len _ _ _ _ _ _ _ _ RQ); done).
  assert (Hdrop : drop n kv = []) by (rewrite <- Hkv; apply drop_all). rewrite Hdrop, app_nil_r in Hr'. rewrite Hdrop in Hsl.
  exists r', m', L', (hold (hold own node (-1)) node' 1), node', new.
  split; [unfold cache_unfinished; by rewrite E|]. split; [done|]. split; [|done].
  assert (Hpre : prefix_indices r' = new) by by rewrite Hr'.
  pose proof MO as [H1 H2 H3 H4 H5 H6 H7 H8 H9 H10 H11].
  assert (HA' : holder_at (st_cache m') L' (st_pool m') (r', n) row node' new).
  { split; cbn [fst snd]; try done; rewrite ?Hpre, ?Hln.
    - by rewrite Hr'.
    - pose proof (rq_read _ _ _ _ _ _ _ _ HRQ) as Hrd. by rewrite Hlf in Hrd.
    - done.
    - by rewrite take_ge by lia.
    - replace (ids r') with (ids r) by by rewrite Hr'. by rewrite Hfill, take_take, Nat.min_id in He. }
  assert (Hothers : ∀ h row', h ∈ hs → req_pool_idx h.1 = Some row' →
    req_to_token (st_pool m') !! row' = req_to_token (st_pool m) !! row').
  { intros h row' Hh Hr. apply Hoth. by eapply (row_other _ _ _ (r, n)). }
  split; try done; try congruence.
  - by rewrite (frees_group _ _ Hfr).
  - destruct H5 as [Hst Htab]. split; [done|]. intros i t Ht. specialize (Hlens i). rewrite Ht in Hlens.
    destruct (req_to_token (st_pool m) !! i) as [t0|] eqn:Et; [|done]. simpl in Hlens. injection Hlens as ->. by eapply Htab.
  - constructor; [by exists row, node', new|]. rewrite Forall_forall in *. intros h Hh.
    eapply holder_keep; [exact HK|done|]. eapply holder_ok_rows; [|by apply HF]. intros row'. by apply Hothers.
  - intros x. unfold hold at 1. rewrite (own_drop r n m L own MO node (ha_node _ _ _ _ _ _ _ HA)), !app_nil_r.
    change (((r', n) :: hs).*1) with ([r'] ++ hs.*1). rewrite held_app, held_single, (held_one r' node' x Hlast).
    case_decide; lia.
  - rewrite Hfree, Hsize, <- H9. rewrite !fmap_cons. by replace (req_pool_idx (r', n).1) with (req_pool_idx (r, n).1) by (simpl; by rewrite Hr').
  - intros row' Hrow'. rewrite Hsize in Hrow'. destruct (H10 row' Hrow') as [t Ht]. specialize (Hlens row'). rewrite Ht in Hlens.
    destruct (req_to_token (st_pool m') !! row'); [by eexists|done].
  - intros x. rewrite <- H11. unfold token_slots, slots_of in *. simpl in Hsl. specialize (Hsl x). unfold private. simpl.
    assert (Eo : own_kv (st_pool m) (r, n) = drop (length (prefix_indices r)) kv).
    { unfold own_kv, kv_of. simpl. rewrite Hrow. cbn [mbind option_bind].
      pose proof (ha_read _ _ _ _ _ _ _ HA) as Hr. simpl in Hr. by rewrite Hr. }
    assert (Eo' : own_kv (st_pool m') (r', n) = []).
    { unfold own_kv, kv_of. simpl. pose proof (ha_row _ _ _ _ _ _ _ HA') as Hr2. pose proof (ha_read _ _ _ _ _ _ _ HA') as Hr3.
      simpl in Hr2, Hr3. rewrite Hr2. cbn [mbind option_bind]. rewrite Hr3. simpl. by rewrite Hpre, drop_all. }
    rewrite Eo, Eo'. pose proof (private_rows hs (st_pool m) (st_pool m') x Hothers) as Ep2.
    unfold private in Ep2. rewrite Ep2. simpl. lia.
Qed.
End finish.

(** The free group of a decode step. *)
Lemma mem_group_begin N stride hs m L own : mem_ok true N stride hs [] m L own →
  mem_ok false N stride hs [] (set_st_alloc (ta_free_group_begin (st_alloc m)) m) L own.
Proof.
  intros [H1 H2 H3 H4 H5 H6 H7 H8 H9 H10 H11]. split; try done. intros x. rewrite <- H11. f_equal.
  unfold token_slots, ta_free_of. simpl. by rewrite H4.
Qed.

Lemma mem_group_end N stride hs m L own : mem_ok false N stride hs [] m L own →
  mem_ok true N stride hs [] (set_st_alloc (ta_free_group_end (st_alloc m)) m) L own.
Proof.
  intros [H1 H2 H3 H4 H5 H6 H7 H8 H9 H10 H11]. split; try done.
  - simpl. unfold ta_free_group_end. destruct (ta_free_group _) as [|v vs]; [done|]. unfold ta_free.
    by destruct (concat _).
  - intros x. rewrite <- H11. f_equal. unfold token_slots. simpl. f_equal. f_equal.
    apply Permutation_count_occ. unfold ta_free_of at 2. rewrite H4. unfold ta_free_group_end.
    destruct (ta_free_group (st_alloc m)) as [|v vs] eqn:Eg; [done|]. rewrite ta_free_perm.
    unfold ta_free_of. simpl. by rewrite app_nil_r, Permutation_app_comm.
Qed.
