(* ===== verification/SchedMemBatch.v ===== *)
(** * What batches hold in the scheduler's pools

    The invariant of [SchedMem] over the steps of a batch
    ([src/python/sglang/srt/managers/schedule_batch.py] as called by [scheduler.py]): a decode
    step, a retraction and a prefill. *)

From S2P Require Import Prelude PyStr PySort Sampling HeapQ Radix RadixTree RadixUpdate RadixMatch RadixInv RadixSpec RadixLock RadixEvict RadixThms RadixLive Alloc PagedAlloc Req RadixStore SchedulePolicy PrefillAdder Penalty SamplingBatch BatchMem ReqTable ScheduleBatch BatchSteps Retract Scheduler SchedMem.

Open Scope nat_scope.

Implicit Types (c : RadixCache) (L : gset nat) (own : nat → Z) (p : ReqToTokenPool) (a : TokenToKVPoolAllocator).

(** ** A decode step *)

(** A row after the cells of [w] have changed. *)
Lemma wrote_row p w p' row t : wrote p w p' → req_to_token p !! row = Some t →
  ∃ t', req_to_token p' !! row = Some t' ∧ length t' = length t ∧
    ∀ j, t' !! j = match w row j with Some v => Some v | None => t !! j end.
Proof.
  intros [Hc Hl _ _] Ht. specialize (Hl row). rewrite Ht in Hl. destruct (req_to_token p' !! row) as [t'|] eqn:Et; [|done].
  exists t'. split; [done|]. split; [by injection Hl|]. intros j. specialize (Hc row j). unfold cell in Hc.
  rewrite Ht, Et in Hc. exact Hc.
Qed.

Lemma wrote_same_row p w p' row : wrote p w p' → (∀ j, w row j = None) → req_to_token p' !! row = req_to_token p !! row.
Proof.
  intros W Hw. destruct (req_to_token p !! row) as [t|] eqn:Et.
  - destruct (wrote_row p w p' row t W Et) as (t' & -> & _ & Hj). f_equal. apply list_eq. intros j. by rewrite Hj, Hw.
  - pose proof (wr_len _ _ _ W row) as Hl. rewrite Et in Hl. by destruct (req_to_token p' !! row).
Qed.

Section batch_rows.
Context {SI : Type} (b : Batch (SI := SI)) (out : list Z).

Lemma next_cells_out row col : row ∉ req_pool_indices b → next_cells b out row col = None.
Proof.
  intros Hn. unfold next_cells. destruct (list_find _ _) as [[i x]|] eqn:E; [|done].
  apply list_find_Some in E as (Hi & -> & _). exfalso. apply Hn. apply list_elem_of_lookup_2 in Hi. by eapply elem_of_zip_l.
Qed.

Lemma next_cells_at row col i n : NoDup (req_pool_indices b) → req_pool_indices b !! i = Some row →
  seq_lens b !! i = Some n → next_cells b out row col = if decide (col = n) then out !! i else None.
Proof.
  intros Hnd Hi Hn. unfold next_cells. case_decide as Hc.
  - subst col. assert (E : list_find (λ x, x = (row, n)) (zip (req_pool_indices b) (seq_lens b)) = Some (i, (row, n))); [|by rewrite E].
    apply list_find_Some. split_and!; [by apply lookup_zip_Some|done|]. intros j y Hj Hlt ->.
    apply lookup_zip_Some in Hj as [Hj _]. pose proof (NoDup_lookup _ _ _ _ Hnd Hi Hj). lia.
  - destruct (list_find _ _) as [[j x]|] eqn:E; [|done]. apply list_find_Some in E as (Hj & -> & _). exfalso.
    apply lookup_zip_Some in Hj as [Hj Hc']. pose proof (NoDup_lookup _ _ _ _ Hnd Hi Hj) as <-. congruence.
Qed.
End batch_rows.

(** A holder whose row got the slot [v] for its next token. *)
Lemma holder_next c L p p' r n row t t' v : holder_ok c L p (r, n) → req_pool_idx r = Some row →
  req_to_token p !! row = Some t → req_to_token p' !! row = Some t' → n < length t' →
  (∀ j, t' !! j = if decide (j = n) then Some v else t !! j) →
  holder_ok c L p' (r, S n) ∧ own_kv p' (r, S n) = own_kv p (r, n) ++ [v].
Proof.
  intros (row' & node & kv & [H1 H2 H3 H4 H5 H6 H7 H8]) Hrow Ht Ht' Hn Hj. cbn [fst snd] in *.
  assert (row' = row) as -> by congruence.
  assert (Ekv : take n t = kv). { unfold rp_read in H2. rewrite Ht in H2. by injection H2. }
  assert (E : take (S n) t' = kv ++ [v]).
  { rewrite (take_S_r t' n v) by (rewrite Hj; by rewrite decide_True). f_equal. rewrite <- Ekv. apply list_eq. intros j.
    destruct (decide (j < n)); [|by rewrite !lookup_take_ge by lia]. rewrite !lookup_take_lt by done.
    rewrite Hj, decide_False by lia. done. }
  assert (E1 : rp_read row (S n) p' = Some (kv ++ [v])) by (unfold rp_read; rewrite Ht'; simpl; by rewrite E).
  split.
  - exists row, node, (kv ++ [v]). split; cbn [fst snd]; try done; [rewrite length_app; simpl; lia|lia|].
    rewrite take_app_le by lia. done.
  - unfold own_kv, kv_of. cbn [fst snd]. rewrite Hrow. cbn [mbind option_bind]. rewrite E1, H2. simpl.
    by rewrite drop_app_le by lia.
Qed.

Lemma private_fmap hs p x : private hs p x = zsum (λ l, Z.of_nat (count_occ Z.eq_dec l x)) (own_kv p <$> hs).
Proof. unfold private. by rewrite zsum_compose. Qed.

Lemma private_app hs hs' p x : private (hs ++ hs') p x = (private hs p x + private hs' p x)%Z.
Proof. apply zsum_app. Qed.

Lemma zsum_snoc (ls : list (list Z)) (out : list Z) x : length ls = length out →
  zsum (λ l, Z.of_nat (count_occ Z.eq_dec l x)) (zip_with (λ l v, l ++ [v]) ls out) =
  (zsum (λ l, Z.of_nat (count_occ Z.eq_dec l x)) ls + Z.of_nat (count_occ Z.eq_dec out x))%Z.
Proof.
  revert out. induction ls as [|l ls IH]; intros [|v out] Hl; try done. simpl. rewrite IH by (by injection Hl).
  rewrite count_occ_app. simpl. destruct (Z.eq_dec v x); lia.
Qed.

Lemma zip_fst_reqs (rs : list Req) (ns : list nat) : length ns = length rs → (zip rs ns).*1 = rs.
Proof. intros Hl. apply fst_zip. lia. Qed.

Section batch_holders.
Context {SI : Type} `{BatchInfoLaws SI}.
Context {N : nat} {stride : Z} {hso : list Holder} (b : Batch (SI := SI)).
Context {g : bool} {locks : list Req} {c : RadixCache} {p : ReqToTokenPool} {a : TokenToKVPoolAllocator} {L : gset nat} {own : nat → Z}.
Hypothesis (OKb : batch_ok b).
Hypothesis (MO : mem_ok g N stride (zip (reqs b) (seq_lens b) ++ hso) locks (MkStore c p a) L own).

Lemma zip_reqs : (zip (reqs b) (seq_lens b)).*1 = reqs b.
Proof. apply zip_fst_reqs, OKb. Qed.

Lemma batch_rows_NoDup : NoDup (req_pool_indices b) ∧
  ∀ h row, h ∈ hso → req_pool_idx h.1 = Some row → row ∉ req_pool_indices b.
Proof.
  pose proof (rows_NoDup _ _ _ _ _ _ _ _ MO) as (Hnd & _ & _)%NoDup_app.
  rewrite !fmap_app, zip_reqs, <- (bo_rows _ OKb) in Hnd. apply NoDup_app in Hnd as (Hnd & Hd & _).
  split; [by eapply NoDup_fmap_1|]. intros h row Hh Hr Hin. apply (Hd (Some row)).
  - apply list_elem_of_fmap. by exists row.
  - rewrite <- Hr. apply list_elem_of_fmap. exists h.1. split; [done|]. apply list_elem_of_fmap. by exists h.
Qed.

Lemma batch_lookup i r n : reqs b !! i = Some r → seq_lens b !! i = Some n →
  ∃ row t, req_pool_indices b !! i = Some row ∧ req_pool_idx r = Some row ∧ req_to_token p !! row = Some t ∧
    Z.of_nat (length t) = stride ∧ holder_ok c L p (r, n).
Proof.
  intros Hr Hn. assert (Hrow : (Some <$> req_pool_indices b) !! i = Some (req_pool_idx r)).
  { by rewrite (bo_rows _ OKb), list_lookup_fmap, Hr. }
  rewrite list_lookup_fmap in Hrow. destruct (req_pool_indices b !! i) as [row|]; [|done]. injection Hrow as Hrow.
  pose proof (mo_holders _ _ _ _ _ _ _ _ MO) as HF. rewrite Forall_forall in HF.
  assert (Hin : (r, n) ∈ zip (reqs b) (seq_lens b) ++ hso).
  { apply elem_of_app. left. eapply (list_elem_of_lookup_2 _ i). by apply lookup_zip_Some. }
  destruct (row_bound _ _ _ _ _ _ _ _ _ row MO Hin ltac:(done)) as [Hb _].
  destruct (mo_in_table _ _ _ _ _ _ _ _ MO row Hb) as [t Ht]. exists row, t. simpl in *.
  split_and!; [done..| |by apply HF]. by eapply (mo_table _ _ _ _ _ _ _ _ MO).
Qed.

Lemma mem_rows_fit : Forall (λ n, (Z.of_nat n < stride)%Z) (seq_lens b) → rows_fit b p.
Proof.
  intros Hlt. split; [apply batch_rows_NoDup|]. apply Forall2_same_length_lookup_2.
  - rewrite (bo_lens _ OKb). by rewrite <- (length_fmap Some), (bo_rows _ OKb), length_fmap.
  - intros i row n Hi Hn. destruct (lookup_lt_is_Some_2 (reqs b) i) as [r Hr].
    { rewrite <- (bo_lens _ OKb). by eapply lookup_lt_Some. }
    destruct (batch_lookup i r n Hr Hn) as (row' & t & Hrow & _ & Ht & Hl & _). simplify_eq.
    exists t. split; [done|]. rewrite Forall_forall in Hlt. specialize (Hlt n ltac:(by eapply list_elem_of_lookup_2)). lia.
Qed.

Lemma mem_decode out c' L' a' p' : g = true → locks = [] → length out = length (reqs b) → Forall (λ n, (Z.of_nat n < stride)%Z) (seq_lens b) →
  allocated c L own a out c' L' a' → wrote p (next_cells b out) p' →
  mem_ok true N stride (zip (reqs b) (S <$> seq_lens b) ++ hso) [] (MkStore c' p' a') L' own.
Proof.
  intros Hg Hlk Hout Hlt [[OK' Hd' Hg'] _ _ HK Hsl] W. pose proof batch_rows_NoDup as [Hnd Hdis].
  destruct (keeps_conf _ _ _ _ _ HK) as (_ & Ep & Ed). pose proof MO as [H1 H2 H3 H4 H5 H6 H7 H8 H9 H10 H11]. simpl in *.
  assert (Ezip : (zip (reqs b) (S <$> seq_lens b)).*1 = reqs b) by (apply zip_fst_reqs; rewrite length_fmap; apply OKb).
  assert (Hstep : ∀ i r n v, reqs b !! i = Some r → seq_lens b !! i = Some n → out !! i = Some v →
    holder_ok c L p' (r, S n) ∧ own_kv p' (r, S n) = own_kv p (r, n) ++ [v]).
  { intros i r n v Hr Hn Hv. destruct (batch_lookup i r n Hr Hn) as (row & t & Hi & Hrow & Ht & Hlen & Hh).
    destruct (wrote_row _ _ _ _ _ W Ht) as (t' & Ht' & Hl' & Hj).
    apply (holder_next c L p p' r n row t t' v); try done.
    - rewrite Forall_forall in Hlt. specialize (Hlt n ltac:(by eapply list_elem_of_lookup_2)). lia.
    - intros j. rewrite Hj, (next_cells_at b out row j i n Hnd Hi Hn). case_decide; [by rewrite Hv|done]. }
  assert (Hoth : ∀ h row, h ∈ hso → req_pool_idx h.1 = Some row → req_to_token p' !! row = req_to_token p !! row).
  { intros h row Hh Hr. eapply wrote_same_row; [exact W|]. intros j. apply next_cells_out. by eapply Hdis. }
  split; simpl; try done; try congruence.
  - destruct H5 as [Hs Htab]. split; [done|]. intros row t' Ht'. pose proof (wr_len _ _ _ W row) as Hl. rewrite Ht' in Hl.
    destruct (req_to_token p !! row) as [t|] eqn:Et; [|done]. injection Hl as Hl. rewrite Hl. by eapply Htab.
  - assert (HF : Forall (holder_ok c L p') (zip (reqs b) (S <$> seq_lens b) ++ hso)).
    { apply Forall_app in H6 as [_ H6]. apply Forall_app. split.
      - apply Forall_forall. intros [r m] Hin. apply list_elem_of_lookup in Hin as [i Hi].
        apply lookup_zip_Some in Hi as [Hr Hm]. rewrite list_lookup_fmap in Hm. destruct (seq_lens b !! i) as [n|] eqn:Hn; [|done].
        injection Hm as <-. destruct (lookup_lt_is_Some_2 out i) as [v Hv]; [rewrite Hout; by eapply lookup_lt_Some|].
        by destruct (Hstep i r n v Hr Hn Hv).
      - rewrite Forall_forall in *. intros h Hh. eapply holder_ok_rows; [|by apply H6]. intros row. by apply Hoth. }
    rewrite Forall_forall in *. intros h Hh. eapply holder_keep; [exact HK| |by apply HF].
    intros n Hn. simpl. rewrite H8, Hlk, app_nil_r, fmap_app, zip_reqs. eapply held_elem; [|done].
    apply elem_of_app. apply elem_of_app in Hh as [Hh|Hh]; [left|right].
    + rewrite <- Ezip. apply list_elem_of_fmap. by exists h.
    + apply list_elem_of_fmap. by exists h.
  - intros n. rewrite H8, Hlk. f_equal. rewrite !fmap_app. by rewrite Ezip, zip_reqs.
  - rewrite (wr_free _ _ _ W), (wr_size _ _ _ W), <- H9. rewrite !fmap_app. by rewrite Ezip, zip_reqs.
  - intros row Hrow. rewrite (wr_size _ _ _ W) in Hrow. destruct (H10 row Hrow) as [t Ht].
    destruct (wrote_row _ _ _ _ _ W Ht) as (t' & -> & _). by eexists.
  - intros x. rewrite <- H11, !private_app, (private_rows hso p p' x Hoth).
    assert (Eo : own_kv p' <$> zip (reqs b) (S <$> seq_lens b) =
      zip_with (λ l v, l ++ [v]) (own_kv p <$> zip (reqs b) (seq_lens b)) out).
    { apply list_eq. intros i. rewrite list_lookup_fmap, lookup_zip_with, list_lookup_fmap.
      rewrite lookup_zip_with, list_lookup_fmap, lookup_zip_with.
      destruct (reqs b !! i) as [r|] eqn:Hr; [|done].
      pose proof (lookup_lt_Some _ _ _ Hr) as Hilt.
      destruct (lookup_lt_is_Some_2 (seq_lens b) i) as [n Hn]; [by rewrite (bo_lens _ OKb)|].
      destruct (lookup_lt_is_Some_2 out i) as [v Hv]; [by rewrite Hout|]. rewrite Hn, Hv. simpl. f_equal.
      by destruct (Hstep i r n v Hr Hn Hv). }
    rewrite (private_fmap (zip _ (S <$> _))), Eo, zsum_snoc, <- private_fmap, <- (Hsl x); [lia|].
    rewrite length_fmap, length_zip_with, (bo_lens _ OKb). lia.
Qed.
End batch_holders.

(** ** A retraction *)

Lemma mapM_omap {A B} (f : A → option B) is_ xs : mapM f is_ = Some xs → xs = omap f is_.
Proof.
  revert xs. induction is_ as [|i is_ IH]; intros xs; simpl; [by intros [= <-]|].
  destruct (f i) as [x|]; [|done]. simpl. destruct (mapM f is_) as [ys|]; [|done]. simpl. intros [= <-]. f_equal. by apply IH.
Qed.

(** The elements at all the positions, in any order. *)
Lemma mapM_lookup_perm {A} (l : list A) is_ xs : is_ ≡ₚ seq 0 (length l) → mapM (λ i, l !! i) is_ = Some xs → xs ≡ₚ l.
Proof.
  intros Hp ->%mapM_omap. rewrite Hp. clear Hp.
  assert (E : ∀ l' pre : list A, omap (λ i, (pre ++ l') !! i) (seq (length pre) (length l')) = l').
  { induction l' as [|x l' IH]; intros pre; [done|]. simpl. rewrite list_lookup_middle by done. f_equal.
    specialize (IH (pre ++ [x])). rewrite <- app_assoc, length_app, Nat.add_1_r in IH. exact IH. }
  pose proof (E l []) as E'. cbn [app length] in E'. by rewrite E'.
Qed.

Lemma mapM_zip {A B} (l : list A) (l' : list B) is_ xs ys : mapM (λ i, l !! i) is_ = Some xs →
  mapM (λ i, l' !! i) is_ = Some ys → mapM (λ i, zip l l' !! i) is_ = Some (zip xs ys).
Proof.
  revert xs ys. induction is_ as [|i is_ IH]; intros xs ys; simpl; [by intros [= <-] [= <-]|].
  destruct (l !! i) as [x|] eqn:Hx; [|done]. destruct (l' !! i) as [y|] eqn:Hy; [|by simpl].
  simpl. destruct (mapM (λ i, l !! i) is_) as [xs'|] eqn:Ex; [|done]. intros [= <-].
  destruct (mapM (λ i, l' !! i) is_) as [ys'|] eqn:Ey; [|done]. intros [= <-].
  assert (zip l l' !! i = Some (x, y)) as -> by by apply lookup_zip_Some. simpl. by rewrite (IH xs' ys').
Qed.

(** What a retraction frees is what the request owns. *)
Lemma freed_own p r n : freed_of p 1 r n = own_kv p (r, n).
Proof.
  unfold freed_of, own_kv, kv_of, read_slice, rp_read. cbn [fst snd]. rewrite Nat.div_1_r, Nat.mul_1_r.
  destruct (req_pool_idx r) as [row|]; cbn [mbind option_bind default]; [|by rewrite drop_nil].
  destruct (req_to_token p !! row) as [t|]; simpl; [|by rewrite drop_nil].
  unfold slice, id. by rewrite skipn_firstn_comm.
Qed.

(** The requests at the positions [gone], as holders. *)
Lemma gone_holders rs lens p gone gh rows : mapM (λ i, zip rs lens !! i) gone = Some gh →
  mapM (λ i, rs !! i ≫= req_pool_idx) gone = Some rows →
  (∀ n, holders rs gone n = held gh.*1 n) ∧ req_pool_idx <$> gh.*1 = Some <$> rows ∧
  ∀ x, zsum (λ i, Z.of_nat (count_occ Z.eq_dec (default [] (r ← rs !! i; n ← lens !! i; Some (freed_of p 1 r n))) x)) gone =
       private gh p x.
Proof.
  revert gh rows. induction gone as [|i gone IH]; intros gh rows; cbn [mapM].
  { by intros [= <-] [= <-]. }
  destruct (zip rs lens !! i) as [[r n]|] eqn:Hi; [|done]. apply lookup_zip_Some in Hi as [Hr Hn]. simpl in Hr, Hn.
  rewrite Hr. cbn [mbind option_bind]. destruct (mapM (λ i, zip rs lens !! i) gone) as [gh'|]; [|done]. intros [= <-].
  destruct (req_pool_idx r) as [row|] eqn:Hrow; [|done].
  destruct (mapM _ gone) as [rows'|]; [|done]. intros [= <-]. destruct (IH gh' rows' eq_refl eq_refl) as (E1 & E2 & E3).
  split_and!.
  - intros m. unfold holders, held in *. cbn [zsum fmap list_fmap]. rewrite E1. f_equal. unfold holds, has_node. by rewrite Hr.
  - rewrite !fmap_cons. by rewrite E2; simpl; rewrite Hrow.
  - intros x. cbn [zsum]. rewrite E3, Hr, Hn. cbn [mbind option_bind default]. unfold id. rewrite freed_own. done.
Qed.

Lemma mem_retract N stride hso rs rs' lens lens' kept gone c L own a p c' L' own' a' p' :
  length lens = length rs → mem_ok true N stride (zip (rs) (lens) ++ hso) [] (MkStore c p a) L own →
  kept ++ reverse gone ≡ₚ seq 0 (length (rs)) →
  retracted_from 1 (rs) (lens) c L own a p gone c' L' own' a' p' →
  mapM (λ i, rs !! i) kept = Some (rs') → mapM (λ i, lens !! i) kept = Some (lens') →
  mem_ok true N stride (zip (rs') (lens') ++ hso) [] (MkStore c' p' a') L' own'.
Proof.
  intros Hll MO Hperm [[OK' Hd' Hg'] Hown HK Htab Hsize (rows & Hrows & Hfree) Hslots] Hk Hl.
  assert (Hlen : length (zip (rs) (lens)) = length (rs)) by (rewrite length_zip_with, Hll; lia).
  assert (∃ gh, mapM (λ i, zip (rs) (lens) !! i) gone = Some gh) as [gh Hgh].
  { destruct (mapM (λ i, zip (rs) (lens) !! i) gone) as [gh|] eqn:E; [by exists gh|]. exfalso. apply mapM_None, Exists_exists in E as (i & Hi & En).
    apply lookup_ge_None in En. rewrite Hlen in En.
    assert (Hin : i ∈ seq 0 (length (rs))).
    { rewrite <- Hperm. apply elem_of_app. right. by apply elem_of_reverse. }
    apply elem_of_seq in Hin. lia. }
  assert (Hall : gh ++ zip (rs') (lens') ≡ₚ zip (rs) (lens)).
  { apply (mapM_lookup_perm _ (gone ++ kept)).
    - rewrite Hlen, <- Hperm, reverse_Permutation. apply Permutation_app_comm.
    - apply mapM_Some. apply Forall2_app; [by apply mapM_Some|]. apply mapM_Some. by apply mapM_zip. }
  destruct (gone_holders (rs) (lens) p gone gh rows Hgh Hrows) as (E1 & E2 & E3).
  apply (mem_ok_perm _ _ _ _ (gh ++ zip (rs') (lens') ++ hso)) in MO; [|by rewrite <- Hall, app_assoc].
  pose proof MO as [H1 H2 H3 H4 H5 H6 H7 H8 H9 H10 H11]. simpl in *. apply Forall_app in H6 as [_ H6].
  destruct (keeps_conf _ _ _ _ _ HK) as (_ & Ep & Ed).
  assert (Hown' : ∀ n, own' n = held ((zip (rs') (lens') ++ hso).*1 ++ []) n).
  { intros n. rewrite Hown, H8, E1, !app_nil_r, fmap_app, held_app. lia. }
  assert (Hsame : ∀ (h : Holder) row, req_pool_idx h.1 = Some row → req_to_token p' !! row = req_to_token p !! row) by (intros; by rewrite Htab).
  split; simpl; try done; try congruence.
  - destruct H5 as [Hs Ht]. split; [done|]. intros row t. rewrite Htab. apply Ht.
  - rewrite Forall_forall in *. intros h Hh. eapply holder_keep; [exact HK| |].
    + intros n Hn. simpl. rewrite Hown', app_nil_r. eapply held_elem; [|done]. apply list_elem_of_fmap. by exists h.
    + eapply holder_ok_rows; [|by apply H6]. by apply Hsame.
  - rewrite (fmap_app _ gh), fmap_app, E2, <- app_assoc in H9. rewrite Hfree, Hsize, (fmap_app Some), app_assoc, Permutation_app_comm.
    exact H9.
  - intros row Hrow. rewrite Htab. apply H10. by rewrite <- Hsize.
  - intros x. rewrite <- H11, (private_app gh), (private_rows _ p p') by (intros; by eapply (Hsame h)).
    rewrite Hslots, E3. lia.
Qed.

(** ** A prefill *)

(** The part of the new slots each request gets. *)
Fixpoint parts (rs : list Req) (out : list Z) : list (list Z) :=
  match rs with
  | [] => []
  | r :: rs => take (length (uncached r)) out :: parts rs (drop (length (uncached r)) out)
  end.

Lemma parts_lookup rs k r : ∀ out, rs !! k = Some r →
  parts rs out !! k = Some (slice (tokens_of (take k rs)) (tokens_of (take k rs) + length (uncached r)) out).
Proof.
  revert k. induction rs as [|r0 rs IH]; intros [|k] out Hk; simplify_eq/=.
  - unfold slice, tokens_of. simpl. by rewrite Nat.sub_0_r, drop_0.
  - rewrite (IH k _ Hk). unfold slice. change (tokens_of (r0 :: take k rs)) with (length (uncached r0) + tokens_of (take k rs)).
    rewrite drop_drop. f_equal. f_equal; lia.
Qed.

Lemma parts_count rs out x : length out = tokens_of rs →
  zsum (λ l, Z.of_nat (count_occ Z.eq_dec l x)) (parts rs out) = Z.of_nat (count_occ Z.eq_dec out x).
Proof.
  revert out. induction rs as [|r rs IH]; intros out Hl; simpl; [by destruct out|].
  change (tokens_of (r :: rs)) with (length (uncached r) + tokens_of rs) in Hl.
  rewrite IH by (rewrite length_drop; lia). rewrite <- (take_drop (length (uncached r)) out) at 3.
  rewrite count_occ_app. lia.
Qed.

Lemma parts_length rs out : length (parts rs out) = length rs.
Proof. revert out. induction rs; intros; simpl; by f_equal. Qed.

Lemma mem_extend {SI : Type} `{BatchInfoLaws SI} N stride hs rs overlap (b' : Batch (SI := SI)) out c L own a p c' L' a' p' :
  mem_ok true N stride hs rs (MkStore c p a) L own → Forall (extend_ready stride) rs → Forall (λ r, fill_ids r = ids r) rs →
  prefilled rs overlap p out b' p' → allocated c L own a out c' L' a' → table_ok p' stride →
  mem_ok true N stride (zip (reqs b') (seq_lens b') ++ hs) [] (MkStore c' p' a') L' own.
Proof.
  intros MO Hready Hfill PF [[OK' Hd' Hg'] _ _ HK Hsl] Htab.
  destruct PF as [OKb Hreqs Hrows _ _ Hlens _ Hlo Hfilled Hoth Hsize _ _].
  destruct (keeps_conf _ _ _ _ _ HK) as (_ & Ep & Ed). pose proof MO as [H1 H2 H3 H4 H5 H6 H7 H8 H9 H10 H11]. simpl in *.
  assert (Hl : length (req_pool_indices b') = length rs).
  { pose proof (bo_rows _ OKb) as Hr. apply (f_equal length) in Hr. rewrite !length_fmap in Hr.
    rewrite <- (bo_lens _ OKb), Hlens, length_fmap in Hr. done. }
  assert (Ezip : (zip (reqs b') (seq_lens b')).*1 = reqs b') by apply zip_reqs, OKb.
  assert (Hnode : last_node <$> reqs b' = last_node <$> rs) by (rewrite Hreqs; by apply extended_fmap).
  assert (Hheld : ∀ n, held (reqs b') n = held rs n).
  { intros n. unfold held, has_node. apply (f_equal (zsum (λ o, if bool_decide (o = Some n) then 1%Z else 0%Z))) in Hnode.
    by rewrite !zsum_compose in Hnode. }
  assert (Hstep : ∀ k r, rs !! k = Some r → ∃ row, req_pool_indices b' !! k = Some row ∧
    zip (reqs b') (seq_lens b') !! k = Some (extended row r, length (fill_ids r)) ∧
    holder_ok c L p' (extended row r, length (fill_ids r)) ∧
    own_kv p' (extended row r, length (fill_ids r)) = slice (tokens_of (take k rs)) (tokens_of (take k rs) + length (uncached r)) out).
  { intros k r Hr. destruct (lookup_lt_is_Some_2 (req_pool_indices b') k) as [row Hrow]; [rewrite Hl; by eapply lookup_lt_Some|].
    exists row. split; [done|]. split.
    { apply lookup_zip_Some. rewrite Hreqs, Hlens. split; [apply lookup_zip_with_Some; by exists row, r|]. by rewrite list_lookup_fmap, Hr. }
    destruct (Hfilled k row r Hrow Hr) as (t & Ht & Etake). cbv zeta in Etake.
    assert (Hr' : r ∈ rs) by by eapply list_elem_of_lookup_2. rewrite Forall_forall in Hready, Hfill, H7.
    destruct (Hready r Hr') as (Hpre & Hst & _). specialize (Hfill r Hr'). destruct (H7 r Hr') as (n & Hn & HnL & _ & He).
    pose proof (proj2 Htab _ _ Ht) as Hlt.
    set (kv := prefix_indices r ++ slice _ _ out) in *.
    assert (Hkv : length kv = length (fill_ids r)) by (rewrite <- Etake, length_take; lia).
    assert (Hread : rp_read row (length (fill_ids r)) p' = Some kv) by (unfold rp_read; rewrite Ht; simpl; by rewrite Etake).
    split.
    - exists row, n, kv. split; cbn [fst snd]; try done. simpl. unfold kv. by rewrite take_app_length.
    - unfold own_kv, kv_of. simpl. rewrite Hread. simpl. unfold kv. by rewrite drop_app_length. }
  assert (Hlz : length (zip (reqs b') (seq_lens b')) = length rs).
  { rewrite length_zip_with, Hreqs, Hlens, length_zip_with, length_fmap. lia. }
  assert (Hdis : ∀ h row, h ∈ hs → req_pool_idx h.1 = Some row → req_to_token p' !! row = req_to_token p !! row).
  { intros h row Hh Hr. apply Hoth. intros Hin. destruct (row_bound _ _ _ _ _ _ _ _ _ row MO Hh Hr) as [_ Hn]. apply Hn.
    simpl. rewrite Hrows. apply elem_of_app. by left. }
  split; simpl; try done; try congruence.
  - assert (HF : Forall (holder_ok c L p') (zip (reqs b') (seq_lens b') ++ hs)).
    { apply Forall_app. split.
      - apply Forall_forall. intros h Hh. apply list_elem_of_lookup in Hh as [k Hk].
        destruct (lookup_lt_is_Some_2 rs k) as [r Hr]; [rewrite <- Hlz; by eapply lookup_lt_Some|].
        destruct (Hstep k r Hr) as (row & _ & Hz & Hh & _). congruence.
      - rewrite Forall_forall in *. intros h Hh. eapply holder_ok_rows; [|by apply H6]. intros row. by apply Hdis. }
    rewrite Forall_forall in *. intros h Hh. eapply holder_keep; [exact HK| |by apply HF].
    intros n Hn. simpl. rewrite H8, held_app, <- Hheld. pose proof (held_nonneg (reqs b') n). pose proof (held_nonneg hs.*1 n).
    assert (Hin : h.1 ∈ (zip (reqs b') (seq_lens b')).*1 ++ hs.*1) by (rewrite <- fmap_app; apply list_elem_of_fmap; by exists h).
    pose proof (held_elem _ _ _ Hin Hn) as Hp. rewrite held_app, Ezip in Hp. lia.
  - intros n. rewrite H8, app_nil_r, fmap_app, !held_app, Ezip, Hheld. lia.
  - rewrite Hsize, <- H9, Hrows, !fmap_app, Ezip, <- (bo_rows _ OKb), <- app_assoc. rewrite app_assoc.
    rewrite (Permutation_app_comm (Some <$> _)). by rewrite <- app_assoc.
  - intros row Hrow. rewrite Hsize in Hrow. destruct (decide (row ∈ req_pool_indices b')) as [Hin|Hin].
    + apply list_elem_of_lookup in Hin as [k Hk]. destruct (lookup_lt_is_Some_2 rs k) as [r Hr]; [rewrite <- Hl; by eapply lookup_lt_Some|].
      destruct (Hfilled k row r Hk Hr) as (t & -> & _). by eexists.
    + rewrite Hoth by done. by apply H10.
  - intros x. rewrite <- H11, private_app, (private_rows hs p p' x Hdis), private_fmap.
    assert (E : own_kv p' <$> zip (reqs b') (seq_lens b') = parts rs out).
    { apply list_eq. intros k. rewrite list_lookup_fmap. destruct (rs !! k) as [r|] eqn:Hr.
      - destruct (Hstep k r Hr) as (row & _ & -> & _ & Eo). rewrite (parts_lookup rs k r out Hr). simpl. by rewrite Eo.
      - apply lookup_ge_None in Hr. rewrite !(proj2 (lookup_ge_None _ _)); [done|by rewrite parts_length|by rewrite Hlz]. }
    rewrite E, parts_count, <- (Hsl x) by done. lia.
Qed.
