(* ===== verification/SchedBatch.v ===== *)
(** * The live requests of the scheduler's batches

    What holds of every request in the waiting queue, the running batch and the last batch of
    [src/python/sglang/srt/managers/scheduler.py], and how filtering a batch and one more
    token ([scheduler_output_processor_mixin.py]) keep it. *)

From S2P Require Import Prelude PyStr PySort Sampling HeapQ Radix RadixTree RadixInv RadixThms RadixLive Alloc PagedAlloc Req RadixStore SchedulePolicy PrefillAdder Penalty SamplingBatch BatchMem ReqTable ScheduleBatch BatchSteps Retract Scheduler SchedMem SchedMemBatch.

Open Scope nat_scope.

Section live.
Context {SI : Type} `{BatchInfoLaws SI}.
(** The longest request, inputs and outputs. *)
Context (lim : Z).

(** A request that is not finished: it can be checked and sampled, it is not in the middle of
    a chunked prefill, and its outputs are below its limit. *)
Record live (r : Req) : Prop := {
  lv_open : finished r = false;
  lv_check : checkable r;
  lv_fits : bi_fits r;
  lv_whole : (is_chunked r ≤ 0)%Z;
  lv_limit : ∃ m, max_new_tokens (sampling_params r) = Some m ∧ (0 ≤ m)%Z ∧
    (Z.of_nat (length (origin_input_ids r)) + m ≤ lim)%Z ∧
    (output_ids r = [] ∨ (Z.of_nat (length (output_ids r)) < m)%Z)
}.

Lemma live_length r : live r → (Z.of_nat (length (ids r)) ≤ lim)%Z.
Proof.
  intros [_ _ _ _ (m & _ & Hm & Hl & Ho)]. unfold ids. rewrite length_app. destruct Ho as [->|Ho]; simpl; lia.
Qed.

Lemma live_max r : live r → is_Some (max_new_tokens (sampling_params r)).
Proof. intros [_ _ _ _ (m & ? & _)]. by exists m. Qed.

(** The fields [live] looks at. *)
Lemma live_same r r' : finished r' = finished r → same_params r r' → (is_chunked r' ≤ 0)%Z →
  origin_input_ids r' = origin_input_ids r → output_ids r' = output_ids r → live r → live r'.
Proof.
  intros Hf Hp Hc Ho Hout [H1 H2 H3 H4 H5]. pose proof Hp as [E1 E2]. split.
  - congruence.
  - unfold checkable in *. by rewrite E1, E2.
  - by eapply bi_fits_same.
  - done.
  - by rewrite E1, Ho, Hout.
Qed.

Lemma live_same_request r r' : same_request r r' → live r → live r'.
Proof. intros E HL. rewrite E. destruct HL as [? ? Hb ? ?]. split; try done. eapply bi_fits_same; [|exact Hb]. done. Qed.

Lemma same_request_rid r r' : same_request r r' → rid r' = rid r.
Proof. by intros ->. Qed.

Lemma live_retracted r : live r → live (reset_for_retract r).
Proof. intros HL. eapply live_same; [..|exact HL]; done. Qed.

(** A request that has been through a forward pass: its last token has no slot yet. *)
Definition decoding (h : Holder) : Prop :=
  live h.1 ∧ output_ids h.1 ≠ [] ∧ length (ids h.1) = S h.2 ∧ is_retracted h.1 = false.

(** A request that goes into a forward pass: all its tokens have a slot. *)
Definition prepared (h : Holder) : Prop := live h.1 ∧ length (ids h.1) = h.2 ∧ is_retracted h.1 = false.

(** A batch that has been through a forward pass. *)
Record batch_live (b : Batch (SI := SI)) : Prop := {
  bl_ok : batch_ok b;
  bl_outs : ∃ o, b_output_ids b = Some o ∧ Forall bi_token o;
  bl_mm : is_Some (b_multimodal_inputs b);
  bl_overlap : enable_overlap b = false;
  bl_open : Forall (λ h : Holder, finished h.1 = false → decoding h) (zip (reqs b) (seq_lens b));
  bl_max : Forall (λ r, is_Some (max_new_tokens (sampling_params r))) (reqs b)
}.

(** A batch of the scheduler may be empty, and then its arrays are stale. *)
Definition batch_inv (b : Batch (SI := SI)) : Prop := reqs b = [] ∨ batch_live b.

(** The requests of a batch that still hold something. *)
Definition open_holders (b : Batch (SI := SI)) : list Holder :=
  filter (λ h, finished h.1 = false) (zip (reqs b) (seq_lens b)).

Lemma open_empty b : reqs b = [] → open_holders b = [].
Proof. unfold open_holders. by intros ->. Qed.

Lemma decoding_fresh h : decoding h → (Z.of_nat h.2 < lim)%Z.
Proof. intros (HL & _ & E & _). pose proof (live_length _ HL). lia. Qed.

Lemma filter_Forall_id {A} (P : A → Prop) `{!∀ x, Decision (P x)} (l : list A) : Forall P l → filter P l = l.
Proof. induction 1 as [|x l Hx _ IH]; [done|]. rewrite filter_cons. rewrite decide_True by done. by f_equal. Qed.

Lemma filter_open_all (hs : list Holder) : Forall decoding hs → filter (λ h : Holder, finished h.1 = false) hs = hs.
Proof. intros HF. apply filter_Forall_id. eapply Forall_impl; [exact HF|]. intros h [HL _]. apply HL. Qed.

(** Filtering out the finished requests keeps the holders. *)
Lemma filter_live b : batch_live b →
  ∃ b', filter_batch [] None b = Ok b' ∧ zip (reqs b') (seq_lens b') = open_holders b ∧
    Forall decoding (zip (reqs b') (seq_lens b')) ∧ batch_inv b' ∧
    reqs b' = filter (λ r, finished r = false) (reqs b).
Proof.
  intros [OK (o & Ho & Htok) Hmm Hov Hopen Hmax]. destruct (filter_batch_ok b [] OK ltac:(by eexists)) as (b' & E & Hr & Hk & Hne).
  exists b'. split; [done|].
  assert (Hreqs : reqs b' = filter (λ r, finished r = false) (reqs b)).
  { rewrite Hr. apply list_filter_iff. intros r. rewrite bool_decide_eq_false_2 by (by intros ?%elem_of_nil).
    destruct (finished r); done. }
  set (Q := λ h : Holder, negb (finished h.1)).
  assert (Hsel : mapM (λ i, zip (reqs b) (seq_lens b) !! i) (keep_unfinished [] (reqs b)) =
    Some (filter (λ h : Holder, Q h = true) (zip (reqs b) (seq_lens b)))).
  { pose proof (select_filter Q (zip (reqs b) (seq_lens b)) []) as Hs. cbn [app length] in Hs. rewrite <- Hs. f_equal.
    unfold keep_unfinished. rewrite length_zip_with, (bo_lens _ OK), Nat.min_id. apply list_filter_iff. intros i.
    destruct (reqs b !! i) as [r|] eqn:Hri.
    - destruct (lookup_lt_is_Some_2 (seq_lens b) i) as [n Hn]; [rewrite (bo_lens _ OK); by eapply lookup_lt_Some|].
      assert (zip (reqs b) (seq_lens b) !! i = Some (r, n)) as -> by by apply lookup_zip_Some. simpl.
      unfold Q. simpl. by rewrite andb_true_r.
    - assert (zip (reqs b) (seq_lens b) !! i = None) as ->; [|done]. apply lookup_ge_None.
      apply lookup_ge_None in Hri. rewrite length_zip_with. lia. }
  assert (Hopen' : filter (λ h : Holder, Q h = true) (zip (reqs b) (seq_lens b)) = open_holders b).
  { apply list_filter_iff. intros h. unfold Q. by destruct (finished h.1). }
  rewrite Hopen' in Hsel.
  assert (Hzip : zip (reqs b') (seq_lens b') = open_holders b).
  { destruct (decide (reqs b' = [])) as [E0|E0].
    - rewrite E0 in Hk |- *. apply length_mapM in Hk. apply length_zero_iff_nil in Hk. rewrite Hk in Hsel. by injection Hsel as <-.
    - destruct (Hne E0) as (OK' & _ & Hrows).
      assert (Hl : mapM (λ i, seq_lens b !! i) (keep_unfinished [] (reqs b)) = Some (seq_lens b')).
      { apply mapM_Some, Forall2_same_length_lookup_2.
        - rewrite (bo_lens _ OK'). by apply length_mapM in Hk.
        - intros j i n Hj Hn. destruct (Hrows j i Hj) as (_ & <- & _). done. }
      pose proof (mapM_zip _ _ _ _ _ Hk Hl) as Hz. rewrite Hsel in Hz. by injection Hz as <-. }
  assert (Hdec : Forall decoding (zip (reqs b') (seq_lens b'))).
  { rewrite Hzip. unfold open_holders. apply Forall_forall. intros h [Hf Hh]%list_elem_of_filter.
    rewrite Forall_forall in Hopen. by apply Hopen. }
  split_and!; [done..| |done]. destruct (decide (reqs b' = [])) as [E0|E0]; [by left|right].
  destruct (Hne E0) as (OK' & _ & _). destruct (filter_batch_fields _ _ _ _ E E0) as (F1 & F2 & F3).
  destruct (F3 o Ho) as (o' & Ho' & Hsub). split; [done| |by apply F2|congruence| |].
  - exists o'. split; [done|]. rewrite Forall_forall in *. intros t Ht. by apply Htok, Hsub.
  - eapply Forall_impl; [exact Hdec|]. done.
  - rewrite Hreqs. rewrite Forall_forall in *. intros r [_ Hin]%list_elem_of_filter. by apply Hmax.
Qed.
End live.

(** ** Requests that move *)

(** The same request as far as its client is concerned. *)
Definition unchanged (r r' : Req) : Prop :=
  rid r' = rid r ∧ origin_input_ids r' = origin_input_ids r ∧ output_ids r' = output_ids r ∧
  sampling_params r' = sampling_params r.

(** [q'] are the requests [q], in some order. *)
Definition carried (q q' : list Req) : Prop := ∃ qm, Forall2 unchanged q qm ∧ q' ≡ₚ qm.

#[global] Instance unchanged_preorder : PreOrder unchanged.
Proof. split; [done|]. intros r r' r'' (E1 & E2 & E3 & E4) (F1 & F2 & F3 & F4). unfold unchanged. rewrite F1, F2, F3, F4. done. Qed.

#[global] Instance carried_preorder : PreOrder carried.
Proof.
  split.
  - intros q. by exists q.
  - intros q q' q'' (m & HF & Hp) (m' & HF' & Hp').
    destruct (Permutation_Forall2 Hp HF') as (m2 & Hp2 & HF2).
    exists m2. split; [|by rewrite Hp', Hp2]. by transitivity m.
Qed.

Lemma carried_perm q q' : q' ≡ₚ q → carried q q'.
Proof. intros Hp. exists q. by split. Qed.

#[global] Instance carried_app : Proper (carried ==> carried ==> carried) (++).
Proof. intros q q' (m & HF & Hp) l l' (k & HG & Hl). exists (m ++ k). split; [by apply Forall2_app|by rewrite Hp, Hl]. Qed.

#[global] Instance carried_Permutation : Proper (Permutation ==> Permutation ==> iff) carried.
Proof.
  assert (Hi : ∀ q1 q2 l1 l2, q1 ≡ₚ q2 → l1 ≡ₚ l2 → carried q1 l1 → carried q2 l2).
  { intros q1 q2 l1 l2 Hq Hl Hc. rewrite (carried_perm q2 q1) by done. by rewrite Hc, (carried_perm l1 l2). }
  intros q1 q2 Hq l1 l2 Hl. split; by apply Hi.
Qed.

Lemma same_request_unchanged r r' : same_request r r' → unchanged r r'.
Proof. by intros ->. Qed.

Lemma rearranged_carried q q' : rearranged q q' → carried q q'.
Proof. intros (m & HF & Hp). exists m. split; [|done]. eapply Forall2_impl; [exact HF|]. apply same_request_unchanged. Qed.
