(* ===== verification/SchedAdmit.v ===== *)
(** * Admitting requests to a prefill batch

    The loop of [get_new_batch_prefill] over the waiting queue
    ([src/python/sglang/srt/managers/scheduler.py]) with the policy and the budget of
    [schedule_policy.py]: no request is lost, the locks of the tree are those of the admitted
    requests, and what is admitted fits the memory. *)

From S2P Require Import Prelude PyStr PySort Sampling HeapQ Radix RadixTree RadixUpdate RadixMatch RadixInv RadixSpec RadixLock RadixThms RadixLive Alloc PagedAlloc Req RadixStore SchedulePolicy PrefillAdder Penalty SamplingBatch BatchMem ReqTable ScheduleBatch BatchSteps Retract Scheduler SchedMem SchedMemBatch SchedBatch.
From Stdlib Require Import QArith Lqa.
Close Scope Q_scope.
Open Scope nat_scope.

Section admission.
Context {SI : Type} `{BatchInfoLaws SI}.
Context (clock : nat → Z) (tuple_hash : list Z → Z) (cf : Config).
Context {N : nat} {stride lim : Z}.
Hypothesis lim_stride : (lim ≤ stride)%Z.
Local Notation live := (live lim).

(** A request matched with the tree, whose tokens are all to be computed or cached. *)
Definition to_extend (r : Req) : Prop := live r ∧ extend_ready stride r ∧ fill_ids r = ids r.

(** The adder in the course of the loop. *)
Record adder_ok (hs : list Holder) (pool : ReqToTokenPool) (p : PrefillAdder) L own : Prop := {
  ao_mem : mem_ok true N stride hs (can_run_list p) (MkStore (tree_cache p) pool (token_to_kv_pool_allocator p)) L own;
  ao_chunk : rem_chunk_tokens p = None;
  ao_new : new_chunked_req p = None;
  ao_sum : (inject_Z (zsum extend_input_len (can_run_list p)) <= rem_total_token_offset p)%Q;
  ao_room : can_run_list p = [] ∨ (inject_Z (-1) < rem_total_tokens p)%Q;
  ao_ready : Forall to_extend (can_run_list p)
}.

Lemma same_request_trans r r' r'' : same_request r r' → same_request r' r'' → same_request r r''.
Proof. unfold same_request. intros -> ->. done. Qed.

Lemma same_request_ids r r' : same_request r r' → ids r' = ids r.
Proof. by intros ->. Qed.

Lemma init_next_ok r c L own : cache_ok c L own → disable c = false → live r →
  ∃ r' c' L', init_next_round_input clock tuple_hash r c = Ok (r', c') ∧ cache_ok c' L' own ∧ same_content c L c' L' ∧
    same_request r r' ∧ matched c' L' r' ∧ fill_ids r' = ids r' ∧
    extend_input_len r' = (Z.of_nat (length (fill_ids r')) - Z.of_nat (length (prefix_indices r')))%Z.
Proof.
  intros OK Hd HL. destruct (live_max _ _ HL) as [mx Hmx]. pose proof (adjust_ids r mx Hmx) as Ea. pose proof (usable_prefix r) as Hkey.
  set (key' := usable r) in *.
  unfold init_next_round_input. rewrite Ea. cbn [mbind result_bind].
  destruct (match_ok clock tuple_hash c L own key' OK Hd) as (v & n & c' & L' & -> & OK' & SC & Hn & Hl & He & _).
  eexists _, c', L'. split; [done|]. split_and!; try done. exists n. pose proof (prefix_length _ _ Hkey).
  split_and!; [done|done| |]; change (ids (set_extend_input_len ?a ?b)) with (ids r); simpl; [unfold ids in *; simpl; lia|].
  destruct Hkey as [k1 E]. unfold ids in *. simpl. rewrite E, take_app_le by done. done.
Qed.

Lemma match_waiting_ok computed r p L own : cache_ok (tree_cache p) L own → disable (tree_cache p) = false → live r →
  (computed = true → matched (tree_cache p) L r) →
  ∃ r' c' L', match_waiting clock tuple_hash computed r p = Ok (r', set_tree_cache c' p) ∧ cache_ok c' L' own ∧
    same_content (tree_cache p) L c' L' ∧ same_request r r' ∧ matched c' L' r' ∧ to_extend r'.
Proof.
  intros OK Hd HL Hm.
  assert (Hext : ∀ r' c' L', same_request r r' → matched c' L' r' → fill_ids r' = ids r' →
    extend_input_len r' = (Z.of_nat (length (fill_ids r')) - Z.of_nat (length (prefix_indices r')))%Z → to_extend r').
  { intros r' c' L' Hs (n & _ & _ & Hl & _) Hf Hx. assert (HL' : live r') by by eapply live_same_request.
    pose proof (live_length _ _ HL'). split; [done|]. split; [|done]. unfold extend_ready. rewrite Hf in *. split_and!; [done|lia|done]. }
  unfold match_waiting. destruct computed.
  - specialize (Hm eq_refl). unfold init_next_round_input_nocache. cbn [mbind result_bind].
    eexists _, (tree_cache p), L. split; [by destruct p|]. split; [done|]. split; [by apply same_tree_content|].
    assert (Hs : same_request r (set_extend_input_len (Z.of_nat (length (ids r)) - Z.of_nat (length (prefix_indices r)))%Z (set_fill_ids (ids r) r))) by by destruct r.
    assert (Hmt : matched (tree_cache p) L (set_extend_input_len (Z.of_nat (length (ids r)) - Z.of_nat (length (prefix_indices r)))%Z (set_fill_ids (ids r) r))) by done.
    split_and!; [exact Hs|exact Hmt|]. by eapply Hext.
  - destruct (init_next_ok r (tree_cache p) L own OK Hd HL) as (r' & c' & L' & E & OK' & SC & Hs & Hmt & Hf & Hx).
    exists r', c', L'. rewrite E. split; [done|]. split_and!; try done. by eapply Hext.
Qed.

Lemma evictable_content c L c' L' : same_content c L c' L' → evictable_size c' = evictable_size c.
Proof. intros SC. apply SC. Qed.

(** One turn: the request joins the batch or stays in the queue. *)
Lemma add_step hs pool r p L own : adder_ok hs pool p L own → matched (tree_cache p) L r → to_extend r →
  ∃ res p' own' adm, add_one_req r p = Ok (res, p') ∧ adder_ok hs pool p' L own' ∧
    can_run_list p' = can_run_list p ++ adm ∧ (adm = [] ∨ adm = [r]) ∧ keeps (λ _, True) (tree_cache p) L (tree_cache p') L ∧
    token_to_kv_pool_allocator p' = token_to_kv_pool_allocator p.
Proof.
  intros AO (n & Hn & HnL & Hl & He) Hext. pose proof Hext as (HL & _ & _). destruct HL as [_ _ _ _ (mx & Hmx & Hm0 & _)].
  pose proof (ao_mem _ _ _ _ _ AO) as MO. pose proof (mo_cache _ _ _ _ _ _ _ _ MO) as OK. cbn [st_cache] in OK.
  destruct (add_one_req_ok r n mx p L own OK (mo_enabled _ _ _ _ _ _ _ _ MO) Hn HnL Hmx Hm0) as (res & p' & E & Hres).
  destruct AO as [_ Hck Hnew Hsum Hroom Hready]. exists res, p'.
  destruct Hres as [(c' & -> & OK' & SK & Ev)|(r' & t & new & Hac & Hrt & Hck' & Hnew' & Ht)].
  - exists own, []. split; [done|]. rewrite app_nil_r. split; [|split; [done|split; [by left|split; [by apply keeps_same_keys|done]]]].
    split; try done.
    + eapply (mem_tree (λ _, True)); [exact MO|done|by apply keeps_same_keys|done|apply MO| |apply MO|apply MO].
      intros x. unfold token_slots, slot_count. by rewrite (sk_slots _ _ _ SK).
    + destruct Hroom as [?|Hroom]; [by left|right]. unfold rem_total_tokens in *. simpl. by rewrite Ev.
  - destruct Hac as [OK' [SK Ea] Ecan Hr' Hoff _ _ Eck _ _].
    destruct Hr' as [[-> Enew]|(_ & _ & Hsome)]; [|rewrite Hck in Hsome; by destruct Hsome].
    exists (hold own n 1), [r]. split; [done|].
    split; [|split; [done|split; [by right|split; [by apply keeps_same_keys|done]]]].
    split; rewrite ?Ecan, ?Ea; try done; try congruence.
    + eapply mem_lock; [exact MO|done|done|done|]. by exists n.
    + by rewrite Eck, Hck.
    + rewrite zsum_app, inject_Z_plus. simpl. rewrite Z.add_0_r, Hoff.
      apply Qplus_le_compat; [done|]. rewrite <- Zle_Qle. lia.
    + right. rewrite (mo_page _ _ _ _ _ _ _ _ MO : page_size (tree_cache p) = 1) in Hrt. exact Hrt.
    + apply Forall_app. split; [done|by apply Forall_singleton].
Qed.

Lemma same_content_keeps c L own c' L' : cache_ok c L own → same_content c L c' L' → keeps (λ _, True) c L c' L'.
Proof. intros OK SC. apply keeps_extends; [apply SC|by eapply ok_root_L]. Qed.

Lemma adder_match hs pool p L own c' L' : adder_ok hs pool p L own → cache_ok c' L' own →
  same_content (tree_cache p) L c' L' → adder_ok hs pool (set_tree_cache c' p) L' own.
Proof.
  intros [MO Hck Hnew Hsum Hroom Hready] OK SC. split; try done; [by eapply mem_match|].
  destruct Hroom as [?|Hroom]; [by left|right]. unfold rem_total_tokens in *. simpl.
  by rewrite (evictable_content _ _ _ _ SC).
Qed.

(** [q'] and the admitted requests are the queue, up to the order and the matches. *)
Lemma rearranged_cons r r' q q' adm l : same_request r r' → rearranged q (q' ++ adm) → l ≡ₚ r' :: q' ++ adm → rearranged (r :: q) l.
Proof. intros Hs (qm & HF & Hp) Hl. exists (r' :: qm). split; [by constructor|]. by rewrite Hl, Hp. Qed.

Lemma rearranged_refl q : rearranged q q.
Proof. exists q. split; [apply same_request_refl|done]. Qed.

(** ** The loop *)

Lemma admit_loop_ok running computed hs pool q : ∀ p full L own, adder_ok hs pool p L own → Forall live q →
  (computed = true → Forall (matched (tree_cache p) L) q) →
  ∃ q' p' full' L' own' adm, admit_loop clock tuple_hash cf running computed q p full = Ok (q', p', full') ∧
    adder_ok hs pool p' L' own' ∧ can_run_list p' = can_run_list p ++ adm ∧ rearranged q (q' ++ adm) ∧
    (adm = [] ∨ (Z.of_nat (length (can_run_list p')) ≤ get_num_allocatable_reqs cf (length running))%Z) ∧
    token_to_kv_pool_allocator p' = token_to_kv_pool_allocator p.
Proof.
  assert (Hstop : ∀ q p (full' : bool) L own, adder_ok hs pool p L own →
    ∃ q' p' full2 L' own' adm, Ok (q, p, full') = Ok (q', p', full2) ∧ adder_ok hs pool p' L' own' ∧
    can_run_list p' = can_run_list p ++ adm ∧ rearranged q (q' ++ adm) ∧
    (adm = [] ∨ (Z.of_nat (length (can_run_list p')) ≤ get_num_allocatable_reqs cf (length running))%Z) ∧
    token_to_kv_pool_allocator p' = token_to_kv_pool_allocator p).
  { intros q0 p full' L own AO. exists q0, p, full', L, own, []. rewrite !app_nil_r.
    split_and!; try done; [apply rearranged_refl|by left]. }
  induction q as [|r q IH]; intros p full L own AO HL Hm; cbn [admit_loop]; [by eapply Hstop|].
  case_match eqn:Elora; [by eapply Hstop|]. case_bool_decide as Ecap; [by eapply Hstop|].
  apply Forall_cons in HL as [HLr HL]. pose proof (ao_mem _ _ _ _ _ AO) as MO.
  assert (Hm2 : computed = true → matched (tree_cache p) L r ∧ Forall (matched (tree_cache p) L) q).
  { intros Hc. specialize (Hm Hc). by apply Forall_cons in Hm. }
  destruct (match_waiting_ok computed r p L own (mo_cache _ _ _ _ _ _ _ _ MO) (mo_enabled _ _ _ _ _ _ _ _ MO) HLr (λ Hc, proj1 (Hm2 Hc)))
    as (r1 & c1 & L1 & -> & OK1 & SC1 & Hs1 & Hmt1 & Hext1). cbn [mbind result_bind].
  pose proof (adder_match _ _ _ _ _ _ _ AO OK1 SC1) as AO1.
  pose proof (same_content_keeps _ _ _ _ _ (mo_cache _ _ _ _ _ _ _ _ MO) SC1) as HK1.
  destruct (add_step hs pool r1 (set_tree_cache c1 p) L1 own AO1 Hmt1 Hext1) as (res & p2 & own2 & adm & -> & AO2 & Ecan & Hadm & HK2 & Ealloc).
  cbn [mbind result_bind]. change (can_run_list (set_tree_cache c1 p)) with (can_run_list p) in *.
  change (tree_cache (set_tree_cache c1 p)) with c1 in *.
  assert (Hkept : ∃ kept, (if bool_decide (length (can_run_list p2) = length (can_run_list p)) then [r1] else []) = kept ∧
    (kept = [r1] ∧ adm = [] ∨ kept = [] ∧ adm = [r1])).
  { eexists. split; [done|]. rewrite Ecan, length_app. destruct Hadm as [->| ->]; simpl.
    - left. by rewrite bool_decide_eq_true_2 by lia.
    - right. by rewrite bool_decide_eq_false_2 by lia. }
  destruct Hkept as (kept & -> & Hkept).
  assert (Hcap : adm = [] ∨ (Z.of_nat (length (can_run_list p2)) ≤ get_num_allocatable_reqs cf (length running))%Z).
  { destruct Hadm as [->| ->]; [by left|right]. rewrite Ecan, length_app. simpl. lia. }
  assert (Hdone : ∀ full' : bool, ∃ q' p' full2 L' own' adm', Ok (kept ++ q, p2, full') = Ok (q', p', full2) ∧ adder_ok hs pool p' L' own' ∧
    can_run_list p' = can_run_list p ++ adm' ∧ rearranged (r :: q) (q' ++ adm') ∧
    (adm' = [] ∨ (Z.of_nat (length (can_run_list p')) ≤ get_num_allocatable_reqs cf (length running))%Z) ∧
    token_to_kv_pool_allocator p' = token_to_kv_pool_allocator p).
  { intros full'. exists (kept ++ q), p2, full', L1, own2, adm. split_and!; try done.
    eapply (rearranged_cons r r1 q q []); [done|rewrite app_nil_r; apply rearranged_refl|]. rewrite app_nil_r.
    destruct Hkept as [[-> ->]|[-> ->]]; simpl; [by rewrite app_nil_r|by rewrite Permutation_app_comm]. }
  destruct res; [|by eapply Hdone..].
  destruct (IH p2 full L1 own2 AO2 HL) as (q' & p' & full' & L' & own' & adm' & -> & AO' & Ecan' & Hre & Hcap' & Ealloc').
  { intros Hc. destruct (Hm2 Hc) as [_ Hq]. eapply Forall_impl; [exact Hq|]. intros y Hy.
    eapply matched_keep; [eapply keeps_trans; [exact HK1|exact HK2]|done|done]. }
  cbn [mbind result_bind]. exists (kept ++ q'), p', full', L', own', (adm ++ adm'). split_and!; try done.
  - by rewrite Ecan', Ecan, app_assoc.
  - eapply rearranged_cons; [done|exact Hre|]. destruct Hkept as [[-> ->]|[-> ->]]; simpl; [done|].
    by rewrite <- Permutation_middle.
  - destruct Hcap' as [->|?]; [|by right]. rewrite app_nil_r in *. rewrite Ecan'. done.
  - rewrite Ealloc'. exact Ealloc.
Qed.

(** ** The budget *)

(** A request within its limit. *)
Definition within (r : Req) : Prop :=
  ∃ mx, max_new_tokens (sampling_params r) = Some mx ∧ (Z.of_nat (length (output_ids r)) ≤ mx)%Z.

Lemma reserved_nonneg ratio rs : (0 <= ratio)%Q → Forall within rs → ∃ q, reserved ratio rs = Ok q ∧ (0 <= q)%Q.
Proof.
  intros Hr. induction 1 as [|r rs (mx & Hmx & Hle) _ (q & IH & Hq)]; cbn [reserved]; [by exists 0%Q|].
  unfold max_new_of. rewrite Hmx. cbn [mbind result_bind]. rewrite IH. cbn [mbind result_bind].
  eexists. split; [reflexivity|]. apply (Qplus_le_compat 0 _ 0); [|done]. apply Qmult_le_0_compat; [|done].
  rewrite <- (Zle_Qle 0). unfold CLIP_MAX_NEW_TOKENS_ESTIMATION. lia.
Qed.

(** What the adder lets in fits. *)
Lemma adder_room hs pool p L own : adder_ok hs pool p L own → can_run_list p ≠ [] →
  (zsum extend_input_len (can_run_list p) ≤
   Z.of_nat (ta_available_size (token_to_kv_pool_allocator p)) + evictable_size (tree_cache p))%Z.
Proof.
  intros [_ _ _ Hsum [Hroom|Hroom] _] Hne; [done|]. unfold rem_total_tokens in Hroom.
  set (a := (Z.of_nat _ + _)%Z) in *. set (t := zsum _ _) in *.
  assert (Hlt : (inject_Z t < inject_Z (a + 1))%Q).
  { rewrite inject_Z_plus. change (inject_Z 1) with 1%Q. change (inject_Z (-1)) with (-(1))%Q in Hroom. lra. }
  rewrite <- Zlt_Qlt in Hlt. lia.
Qed.

Lemma tokens_of_zsum rs : Forall to_extend rs → Z.of_nat (tokens_of rs) = zsum extend_input_len rs.
Proof.
  induction 1 as [|r rs (_ & (Hpre & _ & Hx) & _) _ IH]; [done|].
  change (tokens_of (r :: rs)) with (length (uncached r) + tokens_of rs). cbn [zsum]. rewrite <- IH, Hx.
  unfold uncached. rewrite length_drop. lia.
Qed.
(** ** Alone *)

(** A request that fits even if it is retracted after its last token and charged in full. *)
Definition roomy (r : Req) : Prop :=
  ∃ mx, max_new_tokens (sampling_params r) = Some mx ∧
    (Z.of_nat (length (origin_input_ids r)) + 2 * mx < Z.of_nat N)%Z.

(** At least one request may run. *)
Definition serves : Prop := (1 ≤ max_micro_batch_size cf)%Z ∧ 1 ≤ max_loras_per_batch cf.

Lemma roomy_same r r' : same_request r r' → roomy r → roomy r'.
Proof. by intros ->. Qed.

Lemma charge_alone r mx n : live r → max_new_tokens (sampling_params r) = Some mx → roomy r →
  extend_input_len r = (Z.of_nat (length (ids r)) - n)%Z →
  (extend_input_len r + Z.min mx CLIP_MAX_NEW_TOKENS_ESTIMATION < Z.of_nat N - n)%Z.
Proof.
  intros [_ _ _ _ (m' & Hm' & Hm0 & _ & Ho)] Hm (m2 & Hm2 & Hr) ->. unfold ids. rewrite length_app.
  assert (m' = mx ∧ m2 = mx) as [-> ->] by (split; congruence). destruct Ho as [->|Ho]; simpl; lia.
Qed.

Lemma add_alone pool r p L own : adder_ok [] pool p L own → matched (tree_cache p) L r → to_extend r → roomy r →
  can_run_list p = [] → (rem_total_token_offset p == 0)%Q →
  ∃ res p', add_one_req r p = Ok (res, p') ∧ can_run_list p' = [r].
Proof.
  intros AO Hmt (HL & (_ & _ & Hx) & Hf) Hro Hcan Hoff. pose proof Hmt as (n & Hn & HnL & Hl & He).
  pose proof HL as [_ _ _ _ (mx & Hmx & _)]. pose proof (ao_mem _ _ _ _ _ AO) as MO. rewrite Hcan in MO.
  rewrite Hf in Hx. pose proof (charge_alone r mx _ HL Hmx Hro Hx) as Hlt.
  assert (Hfree : ∀ locks c o, mem_ok true N stride [] locks (MkStore c pool (token_to_kv_pool_allocator p)) L o →
    (inject_Z (Z.of_nat N - zsum (λ r, Z.of_nat (length (prefix_indices r))) locks) <= rem_total_tokens (set_tree_cache c p))%Q).
  { intros locks c o MO1. unfold rem_total_tokens. cbn [rem_total_token_offset set_tree_cache tree_cache token_to_kv_pool_allocator].
    pose proof (mem_available MO1) as Hav. unfold ta_free_of in Hav. cbn [st_alloc st_cache zsum] in Hav.
    rewrite (mo_group _ _ _ _ _ _ _ _ MO1 : ta_is_not_in_free_group (token_to_kv_pool_allocator p) = true), app_nil_r in Hav.
    assert (Hle : (inject_Z (Z.of_nat N - zsum (λ r, Z.of_nat (length (prefix_indices r))) locks) <=
      inject_Z (Z.of_nat (ta_available_size (token_to_kv_pool_allocator p)) + evictable_size c))%Q).
    { rewrite <- Zle_Qle. unfold ta_available_size. lia. }
    lra. }
  apply (add_one_req_alone r n mx p L own (mo_cache _ _ _ _ _ _ _ _ MO) (mo_enabled _ _ _ _ _ _ _ _ MO) Hn HnL Hmx
    (ao_chunk _ _ _ _ _ AO) Hcan).
  - eapply Qlt_le_trans; [|exact (Hfree [] (tree_cache p) own MO)]. rewrite <- Zlt_Qlt. simpl. lia.
  - intros c OK SK. eapply Qle_trans; [|eapply (Hfree [r] c _)]; [|by eapply (mem_lock []); [exact MO|..]].
    rewrite <- Zle_Qle. simpl. lia.
Qed.

Lemma admit_loop_first computed pool r q p full L own : adder_ok [] pool p L own → Forall live (r :: q) →
  (computed = true → Forall (matched (tree_cache p) L) (r :: q)) → roomy r → serves →
  can_run_list p = [] → (rem_total_token_offset p == 0)%Q →
  ∀ q' p' full', admit_loop clock tuple_hash cf [] computed (r :: q) p full = Ok (q', p', full') → can_run_list p' ≠ [].
Proof.
  intros AO [HLr HL]%Forall_cons Hm Hro [Hmicro Hlora] Hcan Hoff q' p' full'. cbn [admit_loop]. unfold too_many_loras.
  rewrite Hcan. cbn [app fmap list_fmap remove_dups length]. unfold get_num_allocatable_reqs.
  rewrite (bool_decide_eq_false_2 (max_loras_per_batch cf < _)), andb_false_r by (destruct (decide_rel _ _ _); simpl; lia).
  rewrite bool_decide_eq_false_2 by (simpl; lia). pose proof (ao_mem _ _ _ _ _ AO) as MO.
  assert (Hm2 : computed = true → matched (tree_cache p) L r ∧ Forall (matched (tree_cache p) L) q).
  { intros Hc. specialize (Hm Hc). by apply Forall_cons in Hm. }
  destruct (match_waiting_ok computed r p L own (mo_cache _ _ _ _ _ _ _ _ MO) (mo_enabled _ _ _ _ _ _ _ _ MO) HLr (λ Hc, proj1 (Hm2 Hc)))
    as (r1 & c1 & L1 & -> & OK1 & SC1 & Hs1 & Hmt1 & Hext1). cbn [mbind result_bind].
  pose proof (adder_match _ _ _ _ _ _ _ AO OK1 SC1) as AO1.
  pose proof (same_content_keeps _ _ _ _ _ (mo_cache _ _ _ _ _ _ _ _ MO) SC1) as HK1.
  destruct (add_alone pool r1 (set_tree_cache c1 p) L1 own AO1 Hmt1 Hext1 (roomy_same _ _ Hs1 Hro) Hcan Hoff) as (res & p2 & Ea & Ecan).
  destruct (add_step [] pool r1 (set_tree_cache c1 p) L1 own AO1 Hmt1 Hext1) as (res' & p2' & own2 & adm & Ea' & AO2 & _ & _ & HK2 & _).
  rewrite Ea in Ea'. injection Ea' as <- <-. rewrite Ea. cbn [mbind result_bind].
  destruct res; [|intros [= <- <- <-]; by rewrite Ecan..].
  destruct (admit_loop_ok [] computed [] pool q p2 full L1 own2 AO2 HL) as (q2 & p3 & full2 & L' & own' & adm' & -> & _ & Ecan' & _).
  { intros Hc. destruct (Hm2 Hc) as [_ Hq]. eapply Forall_impl; [exact Hq|]. intros y Hy.
    eapply matched_keep; [eapply keeps_trans; [exact HK1|exact HK2]|done|done]. }
  cbn [mbind result_bind]. intros [= <- <- <-]. rewrite Ecan', Ecan. done.
Qed.
End admission.

(** ** Selecting the requests *)

Section select.
Context {SI : Type} `{BatchInfoLaws SI}.
Context (clock : nat → Z) (tuple_hash : list Z → Z) (shuffle : list Req → list Req) (cf : Config).
Context {N : nat} {stride lim : Z}.
Hypothesis lim_stride : (lim ≤ stride)%Z.
Hypothesis shuffle_perm : ∀ q, shuffle q ≡ₚ q.
Hypothesis unchunked : chunked_prefill_size cf = None.
Hypothesis unmixed : is_mixed_chunk cf = false.
Local Notation live := (live lim).

Lemma rearranged_Forall (P : Req → Prop) q q' : (∀ r r', same_request r r' → P r → P r') →
  rearranged q q' → Forall P q → Forall P q'.
Proof.
  intros HP (m & HF & ->). induction HF as [|r r' q m Hs _ IH]; [done|].
  intros [Hr HL]%Forall_cons. constructor; [by eapply HP|by apply IH].
Qed.

Lemma rearranged_live q q' : rearranged q q' → Forall live q → Forall live q'.
Proof. apply rearranged_Forall. apply live_same_request. Qed.

(** What [select_reqs] admits. *)
Record selected (hs : list Holder) (s : Sched (SI := SI)) (can : list Req) (q' : list Req) (m' : Pools) L own : Prop := {
  sl_queue : rearranged (waiting_queue s) (q' ++ can);
  sl_mem : mem_ok true N stride hs can m' L own;
  sl_ready : Forall (to_extend (stride := stride) (lim := lim)) can;
  sl_room : can ≠ [] → (Z.of_nat (length can) ≤ get_num_allocatable_reqs cf (length (reqs (running_batch s))))%Z ∧
    enough (tokens_of can) (st_cache m') (st_alloc m');
  (** With nothing else in memory the first request is admitted. *)
  sl_first : serves cf → Forall (roomy (N := N)) (waiting_queue s) → reqs (running_batch s) = [] → hs = [] →
    waiting_queue s ≠ [] → can ≠ []
}.

Lemma select_reqs_ok hs s m L own : mem_ok true N stride hs [] m L own → Forall live (waiting_queue s) →
  tree_ready (waiting_queue_radix_tree s) → chunked_req s = None → (0 <= s_new_token_ratio s)%Q →
  Forall within (reqs (running_batch s)) →
  ∃ q' w' full can c' L' own', select_reqs clock tuple_hash shuffle cf s m =
      (Ok (set_chunked_req None (set_batch_is_full full (set_waiting_queue q' (set_queue_tree w' s))), can), set_st_cache c' m) ∧
    tree_ready w' ∧ selected hs s can q' (set_st_cache c' m) L' own'.
Proof.
  intros MO HL (Hw1 & Hw2 & Hw3) Hch Hr Hwi. destruct m as [c pool a].
  destruct (calc_priority_ok clock tuple_hash shuffle shuffle_perm (policy cf) (waiting_queue s) c L own (waiting_queue_radix_tree s)
    (mo_cache _ _ _ _ _ _ _ _ MO) (mo_enabled _ _ _ _ _ _ _ _ MO) Hw1 Hw2 Hw3)
    as (qm1 & q1 & computed & c1 & w1 & L1 & E1 & OK1 & SC1 & Hsame1 & Hp1 & _ & Hmt1 & _ & Hready).
  { intros r Hrin. rewrite Forall_forall in HL. by eapply live_max, HL. }
  assert (Hre1 : rearranged (waiting_queue s) q1) by by exists qm1.
  destruct (reserved_nonneg (s_new_token_ratio s) _ Hr Hwi) as (q & Eq & Hq).
  unfold select_reqs. erewrite run_bind; [|done]. cbn [st_cache st_alloc].
  erewrite run_bind; [|unfold on_result; by rewrite E1]. cbn [running_batch s_new_token_ratio chunked_req batch_is_full set_queue_tree].
  erewrite run_bind; [|unfold on_result, new_PrefillAdder; cbn [default]; unfold id; rewrite Eq; done].
  rewrite Hch. cbn [add_chunked]. erewrite run_bind; [|done]. rewrite unmixed, unchunked. cbn [fmap option_fmap option_map].
  set (p0 := MkAdder _ _ _ _ _ _ _ _ _ _ _ _ _).
  assert (AO : adder_ok (N := N) (stride := stride) (lim := lim) hs pool p0 L1 own).
  { split; simpl; try done; [by eapply mem_match| |by left]. rewrite Qplus_0_l. done. }
  assert (HL1 : Forall live q1) by by eapply rearranged_live.
  assert (Hmt2 : computed = true → Forall (matched c1 L1) q1).
  { intros ->. apply Forall_forall. intros r Hrin. apply Hmt1. by rewrite <- Hp1. }
  destruct (admit_loop_ok clock tuple_hash cf lim_stride (reqs (running_batch s)) computed hs pool q1 p0 (batch_is_full s) L1 own AO)
    as (q' & p' & full & L' & own' & adm & E2 & AO' & Ecan & Hre & Hcap & Ealloc).
  { exact HL1. }
  { exact Hmt2. }
  erewrite run_bind; [|unfold on_result; by rewrite E2]. simpl in Ecan. rewrite Ecan in *.
  exists q', w1, full, adm, (tree_cache p'), L', own'. rewrite (ao_new _ _ _ _ _ AO').
  split; [|split; [done|]].
  - erewrite run_bind; [|done]. rewrite Ecan. by destruct adm.
  - pose proof (ao_mem _ _ _ _ _ AO') as MO'. rewrite Ecan, Ealloc in MO'. pose proof (ao_ready _ _ _ _ _ AO') as Hrd. rewrite Ecan in Hrd.
    split; try done.
    + destruct Hre1 as (qm & HF & Hp). destruct Hre as (qm' & HF' & Hp').
      destruct (Permutation_Forall2 Hp HF') as (q2 & Hp2 & HF2). exists q2. split; [|by rewrite Hp'].
      clear -HF HF2. revert q2 HF2. induction HF as [|x y l k Hxy _ IH]; intros q2 HF2; inversion HF2; subst; constructor;
        [by eapply same_request_trans|by apply IH].
    + intros Hne. split; [by destruct Hcap|]. unfold enough. rewrite (tokens_of_zsum _ Hrd).
      pose proof (adder_room _ _ _ _ _ AO') as Hroom. rewrite Ecan, Ealloc in Hroom. by apply Hroom.
    + intros Hsv Hro Er -> Hne. rewrite Er in *. injection Eq as <-. rewrite <- Ecan.
      assert (Hro1 : Forall (roomy (N := N)) q1) by by eapply rearranged_Forall; [|exact Hre1|]; [apply roomy_same|].
      destruct q1 as [|r q1].
      { exfalso. destruct Hre1 as (qm & HF & Hp). apply Permutation_nil in Hp as ->. inversion HF. congruence. }
      apply Forall_cons in Hro1 as [Hr1 _].
      by eapply (admit_loop_first clock tuple_hash cf lim_stride computed pool r q1 p0 (batch_is_full s) L1 own AO).
Qed.
End select.
