(* ===== verification/SchedResults.v ===== *)
(** * Processing the tokens of a forward pass

    [process_batch_result_prefill] and [process_batch_result_decode] of
    [src/python/sglang/srt/managers/scheduler_output_processor_mixin.py], on batches whose
    requests are live: the calls return, finished requests give everything back, the others go
    on with one more token. *)

From S2P Require Import Prelude PyStr PySort Sampling HeapQ Radix RadixTree RadixInv RadixThms RadixLive Alloc PagedAlloc Req RadixStore SchedulePolicy PrefillAdder Penalty SamplingBatch BatchMem ReqTable ScheduleBatch BatchSteps Retract Scheduler SchedMem SchedMemBatch SchedBatch.

Open Scope nat_scope.

Section results.
Context {SI : Type} `{BatchInfoLaws SI}.
Context (clock : nat → Z) (tuple_hash : list Z → Z) (accept_token : Z → Grammar → Grammar).
Context (forward_batch_generation : Batch (SI := SI) → list Z) (cf : Config).
Context {N : nat} {stride lim : Z}.
Local Notation accept := (Scheduler.accept accept_token).
Local Notation live := (live lim).
Local Notation decoding := (decoding lim).
Local Notation prepared := (prepared lim).

(** The request after its next token, apart from what it holds in the pools. *)
Record stepped (r r' : Req) : Prop := {
  sp_columns : same_columns r r';
  sp_rid : rid r' = rid r;
  sp_inputs : origin_input_ids r' = origin_input_ids r;
  sp_outputs : ∃ t, output_ids r' = output_ids r ++ [t]
}.

Lemma check_step r n t : prepared (r, n) →
  let r0 := set_output_ids (output_ids r ++ [t]) r in
  ∃ r1, check_finished r0 = Ok r1 ∧
    (r1 = r0 ∧ decoding (r1, n) ∨ ∃ fr, r1 = set_finished_reason (Some fr) r0).
Proof.
  intros (HL & Hn & Hre) r0. cbn [fst snd] in *.
  assert (Hne : output_ids r0 ≠ []) by (simpl; by destruct (output_ids r)).
  destruct (check_finished_ok r0 (lv_check _ _ HL) (or_introl Hne)) as (r1 & E & Hr1). exists r1. split; [done|].
  destruct Hr1 as [->|Hfr]; [left|by right]. split; [done|]. split_and!; [|done| |done]; cbn [fst snd].
  - destruct HL as [H1 H2 H3 H4 (m & Hm & Hm0 & Hl & Ho)]. split; try done.
    { by apply (bi_fits_same r). } exists m. split_and!; [done..|]. right. simpl. rewrite length_app. simpl.
    destruct (decide (Z.of_nat (length (output_ids r) + 1) < m)%Z) as [|Hge]; [done|]. exfalso.
    revert E. unfold check_finished. change (finished r0) with (finished r). rewrite H1.
    change (to_abort r0) with (to_abort r). change (sampling_params r0) with (sampling_params r). rewrite Hm.
    destruct (to_abort r); [by intros [= E]; unfold finished in H1; rewrite <- E in H1|].
    rewrite bool_decide_eq_true_2 by (simpl; rewrite length_app; simpl; lia).
    intros [= E]. unfold finished in H1. by rewrite <- E in H1.
  - unfold ids in *. simpl. rewrite !length_app in *. simpl. lia.
Qed.

(** What the processing of one request must do. *)
Definition step_ok (P : Holder → Prop) (g : bool) (f : nat → Req → Z → M Pools Req) : Prop :=
  ∀ i r n t hs m L own, mem_ok g N stride ((r, n) :: hs) [] m L own → P (r, n) →
    ∃ r' m' L' own', f i r t m = (Ok r', m') ∧ stepped r r' ∧
      mem_ok g N stride (filter (λ h : Holder, finished h.1 = false) [(r', n)] ++ hs) [] m' L' own' ∧
      (finished r' = false → decoding (r', n)) ∧ rp_size (st_pool m') = rp_size (st_pool m).

Lemma filter_one (h : Holder) : filter (λ h : Holder, finished h.1 = false) [h] = if finished h.1 then [] else [h].
Proof. rewrite filter_cons. destruct (finished h.1); by case_decide. Qed.

Lemma process_ok P g f : step_ok P g f → ∀ rs ns toks i hs m L own,
  length ns = length rs → length toks = length rs → Forall P (zip rs ns) →
  mem_ok g N stride (zip rs ns ++ hs) [] m L own →
  ∃ rs' m' L' own', process_reqs f i rs toks m = (Ok rs', m') ∧ Forall2 stepped rs rs' ∧
    mem_ok g N stride (filter (λ h : Holder, finished h.1 = false) (zip rs' ns) ++ hs) [] m' L' own' ∧
    Forall (λ h : Holder, finished h.1 = false → decoding h) (zip rs' ns) ∧ rp_size (st_pool m') = rp_size (st_pool m).
Proof.
  intros Hf. induction rs as [|r rs IH]; intros [|n ns] [|t toks] i hs m L own Hn Ht HP MO; try done.
  { exists [], m, L, own. split_and!; [done|constructor|done|constructor|done]. }
  cbn [zip_with] in HP, MO. apply Forall_cons in HP as [Hr HP].
  destruct (Hf i r n t (zip rs ns ++ hs) m L own MO Hr) as (r' & m1 & L1 & own1 & E1 & Hs & MO1 & Hd & Hsz1).
  apply (mem_ok_perm _ _ _ _ (zip rs ns ++ (filter (λ h : Holder, finished h.1 = false) [(r', n)] ++ hs))) in MO1.
  2:{ rewrite !app_assoc. f_equiv. apply Permutation_app_comm. }
  destruct (IH ns toks (S i) _ m1 L1 own1 ltac:(by injection Hn) ltac:(by injection Ht) HP MO1)
    as (rs' & m' & L' & own' & E & Hss & MO' & Hdd & Hsz').
  exists (r' :: rs'), m', L', own'. split_and!; [|by constructor| |by constructor|congruence].
  - cbn [process_reqs]. erewrite run_bind; [|exact E1]. erewrite run_bind; [|exact E]. done.
  - eapply mem_ok_perm; [|exact MO']. cbn [zip_with]. change ((r', n) :: zip rs' ns) with ([(r', n)] ++ zip rs' ns).
    rewrite filter_app, !app_assoc. f_equiv. apply Permutation_app_comm.
Qed.

(** ** One request *)

Lemma accept_columns t r : same_columns r (accept t r).
Proof. split; try done. unfold grammar_set. simpl. apply bool_decide_ext. apply fmap_is_Some. Qed.

Lemma accept_hold t h : same_hold h (accept t h.1, h.2).
Proof. done. Qed.

Lemma accept_decoding t r n : decoding (r, n) → decoding (accept t r, n).
Proof.
  intros (HL & ? & ? & ?). split_and!; try done. eapply live_same; [..|exact HL]; try done. apply HL.
Qed.

(** The new token does not change what a request holds. *)
Lemma append_hold r r1 n t : length (ids r) = n → length (prefix_indices r) ≤ n →
  (r1 = set_output_ids (output_ids r ++ [t]) r ∨ ∃ fr, r1 = set_finished_reason (Some fr) (set_output_ids (output_ids r ++ [t]) r)) →
  same_hold (r, n) (r1, n).
Proof.
  intros Hn Hp Hr1. assert (E : ids r1 = ids r ++ [t] ∧ req_pool_idx r1 = req_pool_idx r ∧ last_node r1 = last_node r ∧
    prefix_indices r1 = prefix_indices r).
  { unfold ids. destruct Hr1 as [->|[fr ->]]; simpl; by rewrite app_assoc. }
  destruct E as (E1 & E2 & E3 & E4). split_and!; try done. cbn [fst]. rewrite E1. by rewrite take_app_le by lia.
Qed.

Lemma holder_prefix g hs m L own r n : mem_ok g N stride ((r, n) :: hs) [] m L own → length (prefix_indices r) ≤ n.
Proof.
  intros MO. pose proof (mo_holders _ _ _ _ _ _ _ _ MO) as ((row & node & kv & HA) & _)%Forall_cons.
  exact (ha_fits _ _ _ _ _ _ _ HA).
Qed.

(** A request that takes its token and goes on, or is finished, in a decode batch. *)
Lemma take_token g r n t hs m L own : mem_ok g N stride ((r, n) :: hs) [] m L own → prepared (r, n) →
  ∃ r1, check_finished (set_output_ids (output_ids r ++ [t]) r) = Ok r1 ∧ stepped r (accept t r1) ∧
    mem_ok g N stride ((r1, n) :: hs) [] m L own ∧ length (ids r1) = S n ∧
    (finished r1 = false → decoding (r1, n) ∧ fill_ids r1 = fill_ids r ∧ take n (ids r1) = ids r).
Proof.
  intros MO HP. pose proof (holder_prefix _ _ _ _ _ _ _ MO) as Hpre. pose proof HP as (HL & Hn & _). cbn [fst snd] in Hn.
  destruct (check_step r n t HP) as (r1 & E & Hr1). exists r1. split; [done|].
  assert (Hr1' : r1 = set_output_ids (output_ids r ++ [t]) r ∨
    ∃ fr, r1 = set_finished_reason (Some fr) (set_output_ids (output_ids r ++ [t]) r)) by naive_solver.
  assert (Hids : ids r1 = ids r ++ [t]) by (unfold ids; destruct Hr1' as [->|[fr ->]]; simpl; by rewrite app_assoc).
  split_and!.
  - assert (Hs : same_columns r r1 ∧ rid r1 = rid r ∧ origin_input_ids r1 = origin_input_ids r ∧ output_ids r1 = output_ids r ++ [t]).
    { destruct Hr1' as [->|[fr ->]]; done. }
    destruct Hs as (Hc & H1 & H2 & H3). split; [|done..|by exists t]. eapply same_columns_trans; [exact Hc|apply accept_columns].
  - eapply mem_ok_same; [|exact MO]. constructor; [by apply (append_hold r r1 n t)|].
    clear. induction hs; constructor; [apply same_hold_self|done].
  - rewrite Hids, length_app, Hn. simpl. lia.
  - intros Hf. destruct Hr1 as [[-> Hd]|[fr ->]]; [|done]. split_and!; [done..|]. rewrite Hids. by rewrite take_app_le, take_ge by lia.
Qed.

Lemma decode_step_ok g locs : cf_enable_overlap cf = false →
  step_ok prepared g (decode_result clock tuple_hash accept_token cf locs).
Proof.
  intros Hov i r n t hs m L own MO HP. pose proof HP as (_ & _ & Hre). cbn [fst] in Hre.
  destruct (take_token g r n t hs m L own MO HP) as (r1 & E & Hs & MO1 & Hids & Hgo).
  unfold decode_result. rewrite Hre, Hov. cbn [andb]. erewrite run_bind; [|unfold on_result; by rewrite E].
  destruct (finished r1) eqn:Hf.
  - destruct (mem_finished clock tuple_hash r1 n m L own MO1 Hids) as (m' & L' & own' & Ec & MO' & Hsz).
    exists (accept t r1), m', L', own'. rewrite filter_one. cbn [fst]. change (finished (accept t r1)) with (finished r1).
    rewrite Hf. split; [by erewrite run_bind; [|exact Ec]|]. by split_and!.
  - exists (accept t r1), m, L, own. rewrite filter_one. cbn [fst]. change (finished (accept t r1)) with (finished r1).
    rewrite Hf. split; [done|]. split_and!; [done| | |].
    + eapply mem_ok_same; [|exact MO1]. constructor; [apply (accept_hold t (r1, n))|].
      clear. induction hs; constructor; [apply same_hold_self|done].
    + intros _. apply accept_decoding, Hgo. done.
    + done.
Qed.

Lemma prefill_step_ok (nb : NewBatch (SI := SI)) : is_mixed_chunk cf = false → nb_decoding_reqs nb = None →
  step_ok (λ h, prepared h ∧ fill_ids h.1 = ids h.1) true (prefill_result clock tuple_hash accept_token cf nb).
Proof.
  intros Hmix Hdec i r n t hs m L own MO [HP Hfill]. pose proof HP as (HL & _ & Hre). cbn [fst] in *.
  destruct (take_token true r n t hs m L own MO HP) as (r1 & E & Hs & MO1 & Hids & Hgo).
  unfold prefill_result. rewrite Hre, Hmix. cbn [andb]. rewrite bool_decide_eq_true_2 by apply HL.
  erewrite run_bind; [|unfold on_result; by rewrite E].
  destruct (finished r1) eqn:Hf.
  - destruct (mem_finished clock tuple_hash r1 n m L own MO1 Hids) as (m' & L' & own' & Ec & MO' & Hsz).
    exists (accept t r1), m', L', own'. rewrite filter_one. cbn [fst]. split; [|split_and!].
    + erewrite run_bind; [|by erewrite run_bind; [|exact Ec]]. done.
    + done.
    + change (finished (accept t r1)) with (finished r1). by rewrite Hf.
    + change (finished (accept t r1)) with (finished r1). by rewrite Hf.
    + done.
  - destruct (Hgo eq_refl) as (Hd & Hf1 & Hids1). rewrite bool_decide_eq_false_2 by (rewrite Hdec; by intros ?%elem_of_nil).
    destruct (mem_unfinished clock tuple_hash r1 n m L own MO1) as (r2 & m' & L' & own' & node & pre & Ec & Hr2 & MO' & Hsz).
    { by rewrite Hf1, Hfill, Hids1. } { lia. }
    exists (accept t r2), m', L', own'. rewrite filter_one. cbn [fst]. split; [by erewrite run_bind; [|exact Ec]|].
    assert (Hdec2 : decoding (r2, n)).
    { rewrite Hr2. destruct Hd as (HL1 & ? & ? & ?). split_and!; try done. eapply live_same; [..|exact HL1]; try done. apply HL1. }
    assert (Hf2 : finished (accept t r2) = false) by (rewrite Hr2; done).
    rewrite Hf2. split_and!.
    + rewrite Hr2. destruct Hs as [S1 S2 S3 S4]. split; try done. eapply same_columns_trans; [exact S1|]. done.
    + eapply mem_ok_same; [|exact MO']. constructor; [apply (accept_hold t (r2, n))|].
      clear. induction hs; constructor; [apply same_hold_self|done].
    + intros _. by apply accept_decoding.
    + done.
Qed.

(** ** A batch *)

(** A batch about to go through a forward pass. *)
Record batch_ready (b : Batch (SI := SI)) : Prop := {
  br_ok : batch_ok b;
  br_mm : is_Some (b_multimodal_inputs b);
  br_overlap : enable_overlap b = false;
  br_prepared : Forall prepared (zip (reqs b) (seq_lens b))
}.

Lemma ready_live (b : Batch (SI := SI)) : batch_ready b → Forall live (reqs b).
Proof.
  intros [OK _ _ HF]. rewrite <- (zip_fst_reqs (reqs b) (seq_lens b) (bo_lens _ OK)). apply Forall_fmap.
  eapply Forall_impl; [exact HF|]. by intros h (? & _).
Qed.

Lemma set_output_ok (b : Batch (SI := SI)) toks : batch_ok b → length toks = length (reqs b) → batch_ok (set_output toks b).
Proof. intros [] Hl. split; try done. by intros o [= <-]. Qed.

(** The batch after its requests took their tokens. *)
Lemma results_batch b toks rs' : batch_ready b → length toks = length (reqs b) → Forall bi_token toks →
  Forall2 stepped (reqs b) rs' → Forall (λ h : Holder, finished h.1 = false → decoding h) (zip rs' (seq_lens b)) →
  batch_live lim (set_reqs rs' (set_output toks b)).
Proof.
  intros HR Hl Ht Hs Hd. pose proof (ready_live b HR) as HL. destruct HR as [OK Hmm Hov HP]. split; try done.
  - apply set_reqs_ok; [by apply set_output_ok|]. eapply Forall2_impl; [exact Hs|]. apply sp_columns.
  - by exists toks.
  - simpl. apply Forall_forall. intros r' Hr'. apply list_elem_of_lookup in Hr' as [i Hi].
    destruct (Forall2_lookup_r _ _ _ _ _ Hs Hi) as (r & Hr & [[[E _] _ _ _ _ _ _ _] _ _ _]). rewrite E.
    rewrite Forall_forall in HL. eapply live_max, HL. by eapply list_elem_of_lookup_2.
Qed.

Lemma process_decode_ok b toks hs m L own : cf_enable_overlap cf = false → batch_ready b →
  length toks = length (reqs b) → Forall bi_token toks →
  mem_ok true N stride (zip (reqs b) (seq_lens b) ++ hs) [] m L own →
  ∃ b' m' L' own', process_batch_result_decode clock tuple_hash accept_token cf (set_output toks b) toks m = (Ok b', m') ∧
    batch_live lim b' ∧ Forall2 stepped (reqs b) (reqs b') ∧
    mem_ok true N stride (open_holders b' ++ hs) [] m' L' own' ∧ rp_size (st_pool m') = rp_size (st_pool m).
Proof.
  intros Hov HR Hl Ht MO. apply mem_group_begin in MO.
  destruct (process_ok prepared false _ (decode_step_ok false (out_cache_loc b) Hov) (reqs b) (seq_lens b) toks 0 hs _ L own
    (bo_lens _ (br_ok _ HR)) Hl (br_prepared _ HR) MO) as (rs' & m1 & L1 & own1 & E & Hs & MO1 & Hd & Hsz).
  apply mem_group_end in MO1.
  exists (set_reqs rs' (set_output toks b)). eexists _, L1, own1.
  split; [|split; [by apply results_batch|split; [exact Hs|split; [exact MO1|exact Hsz]]]].
  unfold process_batch_result_decode. erewrite run_bind; [|done]. erewrite run_bind; [|exact E]. by erewrite run_bind; [|done].
Qed.

Lemma process_prefill_ok b dec chunked toks hs m L own : is_mixed_chunk cf = false → batch_ready b →
  Forall (λ r, fill_ids r = ids r) (reqs b) → dec = None → length toks = length (reqs b) → Forall bi_token toks →
  mem_ok true N stride (zip (reqs b) (seq_lens b) ++ hs) [] m L own →
  ∃ b' m' L' own', process_batch_result_prefill clock tuple_hash accept_token cf (MkNewBatch (set_output toks b) chunked dec) toks m =
      (Ok (MkNewBatch b' chunked dec), m') ∧
    batch_live lim b' ∧ Forall2 stepped (reqs b) (reqs b') ∧
    mem_ok true N stride (open_holders b' ++ hs) [] m' L' own' ∧ rp_size (st_pool m') = rp_size (st_pool m).
Proof.
  intros Hmix HR Hfill -> Hl Ht MO.
  assert (HP : Forall (λ h : Holder, prepared h ∧ fill_ids h.1 = ids h.1) (zip (reqs b) (seq_lens b))).
  { pose proof (br_prepared _ HR) as HP. rewrite Forall_forall in HP. rewrite Forall_forall in Hfill. rewrite Forall_forall. intros h Hh. split; [by apply HP|].
    apply Hfill. destruct h. by apply elem_of_zip_l in Hh. }
  destruct (process_ok _ true _ (prefill_step_ok (MkNewBatch (set_output toks b) chunked None) Hmix eq_refl) (reqs b) (seq_lens b) toks 0 hs _ L own
    (bo_lens _ (br_ok _ HR)) Hl HP MO) as (rs' & m1 & L1 & own1 & E & Hs & MO1 & Hd & Hsz).
  exists (set_reqs rs' (set_output toks b)), m1, L1, own1.
  split; [|split; [by apply results_batch|split; [exact Hs|split; [exact MO1|exact Hsz]]]].
  unfold process_batch_result_prefill. erewrite run_bind; [|exact E]. done.
Qed.
End results.
