(* ===== verification/SchedTurn.v ===== *)
(** * One turn of the scheduler's loop

    [event_loop_normal] of [src/python/sglang/srt/managers/scheduler.py]: the last batch joins
    the running one, a new batch is made of waiting requests or the running batch makes one
    more step, and the results are processed. The invariant of the scheduler's state and its
    pools, and that a turn keeps it, never raises and loses no request. *)

From S2P Require Import Prelude PyStr PySort Sampling HeapQ Radix RadixTree RadixInv RadixThms RadixLive Alloc PagedAlloc Req RadixStore SchedulePolicy PrefillAdder Penalty SamplingBatch BatchMem ReqTable ScheduleBatch BatchSteps Retract Scheduler SchedMem SchedMemBatch SchedBatch SchedAdmit SchedResults.
From Stdlib Require Import QArith Qminmax.
Close Scope Q_scope.
Open Scope nat_scope.

(** The configuration: no chunked prefill, no overlap; a pool of [N] slots, rows of [stride]
    columns and requests of at most [lim] tokens. *)
Record plain_config (cf : Config) (N : nat) (stride lim : Z) : Prop := {
  pc_chunk : chunked_prefill_size cf = None;
  pc_mixed : is_mixed_chunk cf = false;
  pc_overlap : cf_enable_overlap cf = false;
  pc_buffer : decode_mem_cache_buf_multiplier cf = 1%Z;
  pc_tokens : max_total_num_tokens cf = N;
  pc_columns : (lim ≤ stride)%Z;
  pc_slots : (lim ≤ Z.of_nat N)%Z;
  pc_init_ratio : (0 <= init_new_token_ratio cf)%Q;
  pc_min_ratio : (0 <= min_new_token_ratio cf)%Q
}.

Lemma on_mem_run {A} (f : M Mem A) c p a c' p' a' r :
  f (MkMem (RadixC c) p (TokA a)) = (r, MkMem (RadixC c') p' (TokA a')) →
  on_mem f (MkStore c p a) = (r, MkStore c' p' a').
Proof. intros E. unfold on_mem. cbn [st_cache st_pool st_alloc]. by rewrite E. Qed.

Section turn.
Context {SI : Type} `{BatchInfoLaws SI}.
Context (clock : nat → Z) (tuple_hash : list Z → Z) (shuffle : list Req → list Req).
Context (oob undef uninit : Z → Z) (order : nat → list Z).
Context (accept_token : Z → Grammar → Grammar) (forward_batch_generation : Batch (SI := SI) → list Z).
Context {cf : Config} {N : nat} {stride lim : Z}.
Context (CF : plain_config cf N stride lim).
Hypothesis shuffle_perm : ∀ q, shuffle q ≡ₚ q.
(** The model gives one token for each request. *)
Hypothesis forward_ok : ∀ b, length (forward_batch_generation b) = length (reqs b) ∧
  Forall bi_token (forward_batch_generation b).

Local Notation live := (live lim).
Local Notation batch_inv := (batch_inv lim).
Local Notation batch_live := (batch_live lim).
Local Notation batch_ready := (batch_ready (lim := lim)).
Local Notation decoding := (decoding lim).
Local Notation prepared := (prepared lim).
Local Notation to_extend := (to_extend (stride := stride) (lim := lim)).
Local Notation mem hs m L own := (mem_ok true N stride hs [] m L own).

Implicit Types (b : Batch (SI := SI)) (s : Sched (SI := SI)) (m : Pools) (L : gset nat) (own : nat → Z) (nb : NewBatch (SI := SI)).

(** ** The invariant *)

(** The state between the steps of a turn. *)
Record calm s : Prop := {
  cm_queue : Forall live (waiting_queue s);
  cm_tree : tree_ready (waiting_queue_radix_tree s);
  cm_chunked : chunked_req s = None;
  cm_running : batch_inv (running_batch s);
  cm_within : Forall within (reqs (running_batch s));
  cm_ratio : (0 <= s_new_token_ratio s)%Q
}.

(** The requests of the last batch that still hold something. *)
Definition last_holders s : list Holder :=
  match last_batch s with Some (New nb) => open_holders (nb_batch nb) | _ => [] end.

Definition last_ok s : Prop :=
  match last_batch s with
  | Some (New nb) => batch_live (nb_batch nb) ∧ reqs (nb_batch nb) ≠ [] ∧ nb_chunked_req nb = None
  | _ => True
  end.

(** The invariant of the loop. *)
Definition sched_ok s m : Prop :=
  calm s ∧ last_ok s ∧ (max_micro_batch_size cf ≤ Z.of_nat (rp_size (st_pool m)))%Z ∧
  ∃ L own, mem (open_holders (running_batch s) ++ last_holders s) m L own.

(** The requests that are not finished. *)
Definition open_reqs s : list Req :=
  waiting_queue s ++ (open_holders (running_batch s) ++ last_holders s).*1.

(** ** The last batch *)

Lemma decoding_within b : Forall decoding (zip (reqs b) (seq_lens b)) → length (seq_lens b) = length (reqs b) →
  Forall within (reqs b).
Proof.
  intros HF Hl. rewrite <- (zip_fst_reqs (reqs b) (seq_lens b) Hl). apply Forall_fmap.
  eapply Forall_impl; [exact HF|]. intros h ([_ _ _ _ (mx & Hmx & _ & _ & Ho)] & Hne & _). exists mx. split; [done|].
  destruct Ho as [Ho|Ho]; [done|lia].
Qed.

Lemma merge_live b b' : batch_live b → batch_live b' →
  ∃ b2, merge_batch b b' = Ok b2 ∧ batch_live b2 ∧ reqs b2 = reqs b ++ reqs b' ∧
    open_holders b2 = open_holders b ++ open_holders b'.
Proof.
  intros [OK (o & Ho & Ht) Hmm Hov Hopen Hmax] [OK' (o' & Ho' & Ht') Hmm' Hov' Hopen' Hmax'].
  destruct (merge_batch_ok b b' OK OK') as (b2 & E & OK2 & Hr & Hl & Hout & _ & Hm2 & Hf); [by intros _; exists o'|done|].
  assert (Hz : zip (reqs b2) (seq_lens b2) = zip (reqs b) (seq_lens b) ++ zip (reqs b') (seq_lens b')).
  { rewrite Hr, Hl. rewrite zip_with_app; [done|]. by rewrite (bo_lens _ OK). }
  exists b2. split; [done|]. split; [|split; [done|unfold open_holders; by rewrite Hz, filter_app]]. split; [done|..].
  - exists (o ++ o'). rewrite Hout, Ho, Ho'. split; [done|]. by apply Forall_app.
  - by apply Hm2.
  - injection Hf as _ Hf _ _ _ _ _. congruence.
  - rewrite Hz. by apply Forall_app.
  - rewrite Hr. by apply Forall_app.
Qed.

(** Filtering, with what is left of an empty batch. *)
Lemma filter_inv b : batch_live b →
  ∃ b', filter_batch [] None b = Ok b' ∧ open_holders b' = open_holders b ∧ Forall decoding (open_holders b) ∧
    Forall within (reqs b') ∧ batch_size b' ≤ batch_size b ∧
    (reqs b' = [] ∧ open_holders b = [] ∨
     batch_live b' ∧ reqs b' ≠ [] ∧ zip (reqs b') (seq_lens b') = open_holders b).
Proof.
  intros HB. destruct (filter_live lim b HB) as (b' & E & Hz & Hd & Hi & Hr). exists b'. split; [done|].
  assert (Ho : open_holders b' = open_holders b).
  { unfold open_holders at 1. by rewrite (filter_open_all _ _ Hd). }
  split; [done|]. split; [by rewrite <- Hz|]. assert (Hw : reqs b' = [] ∨ Forall within (reqs b')).
  { destruct Hi as [?|HB']; [by left|right]. apply decoding_within; [done|apply HB']. }
  split; [by destruct Hw as [->|?]|]. split.
  { unfold batch_size. rewrite Hr. apply length_filter. }
  destruct (decide (reqs b' = [])) as [E0|E0].
  - left. split; [done|]. rewrite <- Ho. by apply open_empty.
  - right. split_and!; [by destruct Hi|done|done].
Qed.

Lemma is_empty_true b : is_empty b = true → reqs b = [].
Proof. unfold is_empty. intros Hb%bool_decide_eq_true. by apply length_zero_iff_nil. Qed.
Lemma is_empty_false b : is_empty b = false → reqs b ≠ [].
Proof. unfold is_empty. intros Hb%bool_decide_eq_false Hn. apply Hb. by rewrite Hn. Qed.

(** The last batch joins the running batch, and nothing is full that is empty. *)
Lemma merge_last_ok s : calm s → last_ok s →
  ∃ s', merge_last s = Ok s' ∧ calm s' ∧ waiting_queue s' = waiting_queue s ∧ last_batch s' = last_batch s ∧
    open_holders (running_batch s') = open_holders (running_batch s) ++ last_holders s ∧
    (batch_is_full s' = true → batch_is_full s = true) ∧
    (reqs (running_batch s) ≠ [] → reqs (running_batch s') ≠ []) ∧
    ((∃ nb, last_batch s = Some (New nb)) → batch_is_full s' = true → reqs (running_batch s') ≠ []) ∧
    ((∀ nb, last_batch s ≠ Some (New nb)) → s' = s).
Proof.
  intros CM LO. pose proof CM as [Hq Ht Hc Hr Hw Hra]. unfold merge_last. unfold last_ok, last_holders in *.
  destruct (last_batch s) as [[nb|]|] eqn:El.
  2:{ exists s. rewrite app_nil_r. split_and!; try done. by intros [? ?]. }
  2:{ exists s. rewrite app_nil_r. split_and!; try done. by intros [? ?]. }
  assert (Hnever : ∀ s', (∀ nb', Some (New nb) ≠ Some (New nb')) → s' = s) by (intros s' Hn; by destruct (Hn nb)).
  destruct LO as (HB & Hne & Hnc). rewrite Hc, Hnc. change (option_list _ ++ option_list _) with (@nil pystr).
  destruct (filter_inv _ HB) as (b & -> & Ho & Hd & Hwi & Hsz & Hb). cbn [mbind result_bind].
  set (s1 := if bool_decide _ then _ else _).
  assert (Hs1 : calm s1 ∧ waiting_queue s1 = waiting_queue s ∧ last_batch s1 = last_batch s ∧ running_batch s1 = running_batch s ∧
    (batch_is_full s1 = true → batch_is_full s = true) ∧ (reqs b = [] → batch_is_full s1 = false)).
  { unfold s1. case_bool_decide as Hlt; [by split_and!; try done; split|]. split_and!; try done. intros E0. exfalso. apply Hlt.
    unfold batch_size. rewrite E0. simpl. destruct (reqs (nb_batch nb)); [done|simpl; lia]. }
  destruct Hs1 as (CM1 & Eq1 & El1 & Er1 & Hf1 & Hf0). clearbody s1.
  destruct (is_empty b) eqn:Eb.
  { apply is_empty_true in Eb. exists s1. split; [done|]. rewrite Er1, Eq1, El1.
    assert (open_holders (nb_batch nb) = []) as -> by (destruct Hb as [[_ ?]|(_ & ? & _)]; done).
    rewrite app_nil_r. split_and!; try done; try (by apply Hnever). intros _. by rewrite Hf0. }
  apply is_empty_false in Eb. destruct Hb as [[? _]|(HB' & _ & Hz)]; [done|].
  destruct (is_empty (running_batch s1)) eqn:Er.
  { apply is_empty_true in Er. rewrite Er1 in Er. eexists. split; [reflexivity|]. cbn. rewrite (open_empty _ Er), Ho.
    split_and!; try done; try (by apply Hnever); [|congruence]. destruct CM1. split; try done. by right. }
  apply is_empty_false in Er. rewrite Er1 in *. destruct Hr as [?|HR]; [done|].
  destruct (merge_live _ _ HR HB') as (b2 & -> & HB2 & Hr2 & Ho2). cbn [mbind result_bind]. eexists. split; [reflexivity|].
  cbn. rewrite Ho2, Ho. split_and!; try done; try (by apply Hnever); [|congruence|..].
  - destruct CM1. split; try done; [by right|]. cbn. rewrite Hr2. by apply Forall_app.
  - rewrite Hr2. by destruct (reqs (running_batch s)).
  - rewrite Hr2. by destruct (reqs (running_batch s)).
Qed.

(** ** A new prefill batch *)

(** A batch of waiting requests, ready for the forward pass. *)
Definition new_ready nb : Prop :=
  batch_ready (nb_batch nb) ∧ Forall (λ r, fill_ids r = ids r) (reqs (nb_batch nb)) ∧ reqs (nb_batch nb) ≠ [] ∧
  nb_chunked_req nb = None ∧ nb_decoding_reqs nb = None.

Lemma extended_live row r : live r → live (extended row r).
Proof. intros HL. eapply live_same; [..|exact HL]; try done. apply HL. Qed.

Lemma mem_free_rows hs locks m L own : mem_ok true N stride hs locks m L own →
  free_rows_ok (st_pool m) ∧ length hs + rp_available_size (st_pool m) = rp_size (st_pool m).
Proof.
  intros MO. pose proof (rows_NoDup _ _ _ _ _ _ _ _ MO) as (_ & _ & Hnd)%NoDup_app. split; [split|].
  - by eapply NoDup_fmap_1.
  - intros row Hrow. apply (mo_in_table _ _ _ _ _ _ _ _ MO).
    assert (Hin : Some row ∈ Some <$> seq 0 (rp_size (st_pool m))).
    { rewrite <- (mo_rows _ _ _ _ _ _ _ _ MO). apply elem_of_app. right. by apply list_elem_of_fmap_2. }
    apply list_elem_of_fmap in Hin as (y & [= <-] & Hy%elem_of_seq). lia.
  - pose proof (Permutation_length (mo_rows _ _ _ _ _ _ _ _ MO)) as Hl.
    rewrite length_app, !length_fmap, length_seq in Hl. exact Hl.
Qed.

(** The admitted requests become a batch. *)
Lemma extend_selected hs can c pool a L own : mem_ok true N stride hs can (MkStore c pool a) L own →
  Forall to_extend can → length can ≤ rp_available_size pool → enough (tokens_of can) c a →
  ∃ b c' pool' a' L' own', prepare_for_extend tuple_hash oob undef uninit order (init_new can (cf_enable_overlap cf))
      (MkMem (RadixC c) pool (TokA a)) = (Ok b, MkMem (RadixC c') pool' (TokA a')) ∧
    batch_ready b ∧ Forall (λ r, fill_ids r = ids r) (reqs b) ∧ Forall2 unchanged can (reqs b) ∧
    rp_size pool' = rp_size pool ∧ mem (zip (reqs b) (seq_lens b) ++ hs) (MkStore c' pool' a') L' own'.
Proof.
  intros MO HT Hrows Hen. destruct (mem_free_rows _ _ _ _ _ MO) as [Hfree _].
  assert (Hrd : Forall (extend_ready stride) can) by (eapply Forall_impl; [exact HT|]; by intros r (_ & ? & _)).
  assert (Hfl : Forall (λ r, fill_ids r = ids r) can) by (eapply Forall_impl; [exact HT|]; by intros r (_ & _ & ?)).
  rewrite Forall_forall in HT.
  destruct (prepare_for_extend_ok tuple_hash oob undef uninit order can (cf_enable_overlap cf) c L own a pool stride)
    as (res & c' & L' & a' & pool' & E & _ & Hok); try done; [split; apply MO|apply MO| |].
  { intros row r Hr. apply extended_live, HT, Hr. }
  destruct (Hok (conj Hrows Hen)) as (b & out & -> & PF & AL & Htab).
  pose proof (mem_extend N stride hs can _ b out c L own a pool c' L' a' pool' MO Hrd Hfl PF AL Htab) as MO'.
  exists b, c', pool', a', L', own. destruct PF as [OKb Hreqs _ _ _ Hlens _ _ _ _ Hsize Hmm Hov].
  assert (Hex : ∀ i r', reqs b !! i = Some r' → ∃ row r, r ∈ can ∧ r' = extended row r ∧ seq_lens b !! i = Some (length (fill_ids r))).
  { intros i r'. rewrite Hreqs, lookup_zip_with_Some. intros (row & r & -> & _ & Hr). exists row, r.
    split; [by eapply list_elem_of_lookup_2|]. split; [done|]. by rewrite Hlens, list_lookup_fmap, Hr. }
  split; [done|]. split; [|split; [|split; [|split; [done|exact MO']]]].
  - split; [done|done|by rewrite Hov; apply CF|]. apply Forall_forall. intros [r' n] Hin.
    apply list_elem_of_lookup in Hin as [i [Hi Hn]%lookup_zip_Some]. simpl in Hi, Hn.
    destruct (Hex i r' Hi) as (row & r & Hr & -> & Hn'). rewrite Hn in Hn'. injection Hn' as ->.
    destruct (HT r Hr) as (HL & _ & Hf). split_and!; [by apply extended_live| |done]. cbn [fst snd]. by rewrite Hf.
  - apply Forall_forall. intros r' Hr'. apply list_elem_of_lookup in Hr' as [i Hi].
    destruct (Hex i r' Hi) as (row & r & Hr & -> & _). by destruct (HT r Hr) as (_ & _ & Hf).
  - assert (Hll : length (req_pool_indices b) = length can).
    { pose proof (bo_rows _ OKb) as Hr. apply (f_equal length) in Hr. rewrite !length_fmap in Hr.
      rewrite <- (bo_lens _ OKb), Hlens, length_fmap in Hr. done. }
    rewrite Hreqs. generalize dependent (req_pool_indices b). clear. intros rows _ Hl. revert rows Hl.
    induction can as [|r rs IH]; intros [|row rows] Hl; try done; constructor; [done|]. apply IH. by injection Hl.
Qed.

(** What [get_new_batch_prefill] returns, with the holders it started from. *)
Definition prefill_choice (hs : list Holder) (q : list Req) (s' : Sched (SI := SI)) (nbo : option (NewBatch (SI := SI))) (m' : Pools) : Prop :=
  ∃ L own, match nbo with
  | None => carried q (waiting_queue s') ∧ mem hs m' L own
  | Some nb => new_ready nb ∧ carried q (waiting_queue s' ++ reqs (nb_batch nb)) ∧
      mem (zip (reqs (nb_batch nb)) (seq_lens (nb_batch nb)) ++ hs) m' L own
  end.

Lemma open_length b : length (open_holders b) ≤ length (reqs b).
Proof. unfold open_holders. etransitivity; [apply length_filter|]. rewrite length_zip_with. lia. Qed.

Lemma forall2_carried q q' : Forall2 unchanged q q' → carried q q'.
Proof. intros HF. by exists q'. Qed.

Lemma get_new_batch_prefill_ok s m L own : calm s → mem (open_holders (running_batch s)) m L own →
  (max_micro_batch_size cf ≤ Z.of_nat (rp_size (st_pool m)))%Z →
  ∃ s' nbo m', get_new_batch_prefill clock tuple_hash shuffle oob undef uninit order cf s m = (Ok (s', nbo), m') ∧
    calm s' ∧ running_batch s' = running_batch s ∧ last_batch s' = last_batch s ∧ rp_size (st_pool m') = rp_size (st_pool m) ∧
    prefill_choice (open_holders (running_batch s)) (waiting_queue s) s' nbo m' ∧
    (reqs (running_batch s) = [] → batch_is_full s = false → serves cf → Forall (roomy (N := N)) (waiting_queue s) →
       nbo = None → waiting_queue s = [] ∧ batch_is_full s' = false).
Proof.
  intros CM MO Hmax. pose proof CM as [Hq Ht Hc Hr Hw Hra].
  assert (Hstay : ∀ full, calm (set_batch_is_full full s) ∧
    prefill_choice (open_holders (running_batch s)) (waiting_queue s) (set_batch_is_full full s) None m).
  { intros full. split; [by split|]. exists L, own. by split. }
  unfold get_new_batch_prefill. rewrite Hc, (bool_decide_eq_true_2 (None = None)), !andb_true_r by done.
  destruct (_ || _) eqn:En.
  { exists s, None, m. destruct (Hstay (batch_is_full s)). split; [done|]. split_and!; try done. intros _ Hf _ _ _.
    apply orb_true_iff in En as [?|?%bool_decide_eq_true]; [congruence|done]. }
  apply orb_false_iff in En as [Hnf Hne%bool_decide_eq_false]. case_bool_decide as Hal.
  { eexists _, None, m. destruct (Hstay true). split; [reflexivity|]. split_and!; try done.
    intros Er _ [Hmi _] _ _. exfalso. unfold get_num_allocatable_reqs in Hal. rewrite Er in Hal. simpl in Hal. lia. }
  destruct (select_reqs_ok clock tuple_hash shuffle cf (pc_columns _ _ _ _ CF) shuffle_perm (pc_chunk _ _ _ _ CF) (pc_mixed _ _ _ _ CF)
    _ s m L own MO Hq Ht Hc Hra Hw) as (q' & w' & full & can & c' & L1 & own1 & E & Hw' & [Hre MO1 Hext Hroom Hfirst]).
  erewrite run_bind; [|exact E].
  assert (HL' : Forall live (q' ++ can)) by by eapply rearranged_live. apply Forall_app in HL' as [HLq _].
  assert (CM' : calm (set_chunked_req None (set_batch_is_full full (set_waiting_queue q' (set_queue_tree w' s))))) by by split.
  destruct can as [|r rs].
  { eexists _, None, _. split; [reflexivity|]. split_and!; try done.
    - exists L1, own1. split; [|exact MO1]. rewrite app_nil_r in Hre. by apply rearranged_carried.
    - intros Er _ Hsv Hro _. by destruct (Hfirst Hsv Hro Er (open_empty _ Er) Hne). }
  destruct (Hroom ltac:(done)) as [Hcap Hen]. destruct (mem_free_rows _ _ _ _ _ MO) as [_ Hrows].
  destruct m as [c pool a]. pose proof (open_length (running_batch s)).
  destruct (extend_selected _ (r :: rs) c' pool a L1 own1 MO1 Hext)
    as (b & c2 & pool' & a' & L' & own' & Eb & HB & Hfl & Hun & Hsz & MO'); [|done|].
  { unfold get_num_allocatable_reqs in Hcap. simpl in *. lia. }
  cbn [count_chunk chunked_req set_chunked_req]. erewrite run_bind; [|by apply on_mem_run].
  unfold mix. rewrite (pc_mixed _ _ _ _ CF). cbn [andb]. erewrite run_bind; [|done].
  eexists _, (Some _), _. split; [reflexivity|]. split_and!; try done.
  exists L', own'. cbn [nb_batch waiting_queue set_chunked_req set_batch_is_full set_waiting_queue set_queue_tree].
  split_and!; [|transitivity (q' ++ r :: rs); [by apply rearranged_carried|by apply carried_app, forall2_carried]|exact MO'].
  split_and!; try done. cbn [nb_batch]. intros E0. rewrite E0 in Hun. inversion Hun.
Qed.

(** ** Room for a decode step *)

Lemma holders_all rs n : holders rs (seq 0 (length rs)) n = held rs n.
Proof.
  assert (E : ∀ l pre, zsum (holds (pre ++ l) n) (seq (length pre) (length l)) = held l n); [|exact (E rs [])].
  induction l as [|r l IH]; intros pre; [done|]. unfold held in *. cbn [zsum length seq].
  specialize (IH (pre ++ [r])). rewrite length_app, Nat.add_1_r, <- app_assoc in IH. cbn [app] in IH. rewrite IH. f_equal.
  unfold holds, has_node. by rewrite list_lookup_middle.
Qed.

(** A request that holds its tokens can be retracted. *)
Lemma running_holders b m L own : length (seq_lens b) = length (reqs b) →
  mem (zip (reqs b) (seq_lens b)) m L own → Forall (running (st_pool m)) (reqs b).
Proof.
  intros Hl MO. pose proof (mo_holders _ _ _ _ _ _ _ _ MO) as HF. rewrite Forall_forall in HF.
  rewrite <- (zip_fst_reqs (reqs b) (seq_lens b) Hl). apply Forall_fmap, Forall_forall. intros h Hh.
  destruct (HF h Hh) as (row & node & kv & [Hrow _ _ Hnode _ _ _ _]).
  destruct (row_bound _ _ _ _ _ _ _ _ h row MO Hh Hrow) as [Hb _].
  destruct (mo_in_table _ _ _ _ _ _ _ _ MO row Hb) as [t Ht]. split; [by exists row, t|by exists node].
Qed.

(** The state with another ratio and more requests in the queue. *)
Lemma calm_queue s q ratio : calm s → Forall live q → (0 <= ratio)%Q →
  calm (_extend_requests_to_queue q (set_new_token_ratio ratio s)).
Proof. intros [H1 H2 H3 H4 H5 H6] Hq Hr. split; try done. by apply Forall_app. Qed.

Definition roomy_batch b m L own : Prop :=
  batch_live b ∧ reqs b ≠ [] ∧ Forall decoding (zip (reqs b) (seq_lens b)) ∧
  mem (zip (reqs b) (seq_lens b)) m L own ∧ enough (batch_size b) (st_cache m) (st_alloc m).

(** With one request left there is always room: it is below the size of the pool. *)
Lemma last_fits h m L own : decoding h → mem [h] m L own →
  (0 < Z.of_nat (ta_available_size (st_alloc m)) + evictable_size (st_cache m))%Z.
Proof.
  intros Hd MO. pose proof (mem_available MO) as Hav. pose proof (decoding_fresh _ _ Hd) as Hlt.
  pose proof (pc_slots _ _ _ _ CF). cbn [zsum] in Hav. unfold ta_free_of in Hav.
  rewrite (mo_group _ _ _ _ _ _ _ _ MO), app_nil_r in Hav. unfold ta_available_size. lia.
Qed.

Lemma retract_fits b m L own kept gone gr c' L' own' a' p' : batch_live b → Forall decoding (zip (reqs b) (seq_lens b)) →
  mem (zip (reqs b) (seq_lens b)) m L own → kept ++ reverse gone ≡ₚ seq 0 (length (reqs b)) →
  retracted_from 1 (reqs b) (seq_lens b) (st_cache m) L own (st_alloc m) (st_pool m) gone c' L' own' a' p' →
  mapM (λ i, reqs b !! i) gone = Some gr →
  ∃ rs ls, mapM (λ i, reqs b !! i) kept = Some rs ∧ mapM (λ i, seq_lens b !! i) kept = Some ls ∧
    Forall decoding (zip rs ls) ∧ mem (zip rs ls) (MkStore c' p' a') L' own' ∧ gr ++ rs ≡ₚ reqs b.
Proof.
  intros HB Hd MO Hperm RF Hgr. pose proof (bo_lens _ (bl_ok _ _ HB)) as Hl.
  assert (Hin : ∀ i, i ∈ kept → i < length (reqs b)).
  { intros i Hi. assert (Hs : i ∈ seq 0 (length (reqs b))) by (rewrite <- Hperm; apply elem_of_app; by left).
    apply elem_of_seq in Hs. lia. }
  assert (Hsome : ∀ {A} (l : list A), length l = length (reqs b) → ∃ xs, mapM (λ i, l !! i) kept = Some xs).
  { intros A l El. destruct (mapM (λ i, l !! i) kept) as [xs|] eqn:E; [by exists xs|]. exfalso.
    apply mapM_None, Exists_exists in E as (i & Hi & En). apply lookup_ge_None in En. specialize (Hin i Hi). lia. }
  destruct (Hsome _ (reqs b) eq_refl) as [rs Hrs]. destruct (Hsome _ (seq_lens b) Hl) as [ls Hls]. exists rs, ls.
  split; [done|]. split; [done|]. split; [|split].
  - apply Forall_forall. intros h Hh. rewrite Forall_forall in Hd. apply Hd.
    eapply kept_elem; [by apply mapM_zip|exact Hh].
  - pose proof (mem_retract N stride [] (reqs b) rs (seq_lens b) ls kept gone (st_cache m) L own (st_alloc m) (st_pool m)) as MR.
    rewrite !app_nil_r in MR. destruct m. by eapply MR.
  - apply (mapM_lookup_perm _ (gone ++ kept)).
    + rewrite <- Hperm, reverse_Permutation. apply Permutation_app_comm.
    + apply mapM_Some, Forall2_app; by apply mapM_Some.
Qed.

(** A batch and its holders, with the slots for its next step. *)
Record step_fits b m L own : Prop := {
  sf_live : batch_live b;
  sf_some : reqs b ≠ [];
  sf_decoding : Forall decoding (zip (reqs b) (seq_lens b));
  sf_mem : mem (zip (reqs b) (seq_lens b)) m L own;
  sf_room : enough (batch_size b) (st_cache m) (st_alloc m)
}.

Lemma reset_unchanged r : unchanged r (reset_for_retract r).
Proof. done. Qed.

Lemma retract_live b m L own : batch_live b → reqs b ≠ [] → Forall decoding (zip (reqs b) (seq_lens b)) →
  mem (zip (reqs b) (seq_lens b)) m L own →
  length (reqs b) ≠ 1 →
  ∃ b' gr ratio m' L' own', on_mem (retract_decode tuple_hash 1 b) m = (Ok (b', reset_for_retract <$> gr, ratio), m') ∧
    step_fits b' m' L' own' ∧ Forall live gr ∧ gr ++ reqs b' ≡ₚ reqs b ∧ (0 <= ratio)%Q ∧
    rp_size (st_pool m') = rp_size (st_pool m).
Proof.
  intros HB Hne Hd MO Hone. pose proof HB as [OK (o & Ho & Htok) Hmm Hov _ _]. pose proof (bo_lens _ OK) as Hl.
  assert (HL : Forall live (reqs b)).
  { rewrite <- (zip_fst_reqs (reqs b) (seq_lens b) Hl). apply Forall_fmap. eapply Forall_impl; [exact Hd|]. by intros h [? _]. }
  destruct m as [c p a].
  destruct (retract_decode_ok tuple_hash 1 b c L own a p) as (res & kept & gone & gr & c' & L' & own' & a' & p' & E & Hs & Hk & Hg & Hgr & RF & _ & Hres).
  { split; apply MO. } { done. } { by exists o. } { done. } { by apply (running_holders b (MkStore c p a) L own). }
  { intros n. rewrite holders_all, (mo_own _ _ _ _ _ _ _ _ MO), app_nil_r.
    by rewrite (zip_fst_reqs (reqs b) (seq_lens b) Hl). }
  { apply Forall_forall. intros r Hr. rewrite <- (zip_fst_reqs (reqs b) (seq_lens b) Hl) in Hr.
    apply list_elem_of_fmap in Hr as (h & -> & Hh). rewrite Forall_forall in Hd.
    destruct (Hd h Hh) as ([_ _ _ _ (mx & Hmx & _ & _ & Hout)] & Hnz & _). exists mx. split; [done|]. destruct Hout; [done|lia]. }
  assert (Hperm : kept ++ reverse gone ≡ₚ seq 0 (length (reqs b))) by (rewrite <- Hs; apply sort_by_perm).
  destruct (retract_fits b (MkStore c p a) L own kept gone gr c' L' own' a' p' HB Hd MO Hperm RF Hgr)
    as (rs & ls & Hrs & Hls & Hd' & MO' & Hperm').
  assert (Hlen : length kept = length rs) by by apply length_mapM in Hrs.
  assert (Hroom : ∀ h, zip rs ls = [h] → (0 < Z.of_nat (ta_available_size a') + evictable_size c')%Z).
  { intros h Eh. rewrite Eh in *. apply Forall_cons in Hd' as [Hh _]. by apply (last_fits h _ _ _ Hh MO'). }
  assert (Hz : length rs = 1 → ∃ h, zip rs ls = [h]).
  { intros E1. assert (E2 : length ls = 1) by (apply length_mapM in Hls; congruence).
    destruct rs as [|r1 [|? ?]], ls as [|n1 [|? ?]]; try done. by eexists. }
  destruct Hres as [(-> & H1 & Ha & Hfull)|(b' & ratio & -> & Hleft & OK' & Hkr & Hratio & Ef & Hkl)].
  { exfalso. destruct (Hz ltac:(congruence)) as [h Eh]. pose proof (Hroom h Eh) as Hpos.
    destruct Hfull as [(-> & -> & ->)|Hev]; [|lia]. by destruct Hg. }
  assert (rs = reqs b') as -> by congruence. assert (ls = seq_lens b') as -> by congruence.
  exists b', gr, ratio, (MkStore c' p' a'), L', own'.
  assert (Hne' : reqs b' ≠ []) by (intros E0; rewrite E0 in Hlen; by destruct kept).
  destruct (filter_batch_fields _ _ _ _ Ef Hne') as (F1 & F2 & F3). destruct (F3 o Ho) as (o' & Ho' & Hsub).
  assert (HL2 : Forall live (gr ++ reqs b')) by by rewrite Hperm'. apply Forall_app in HL2 as [HLg HLb].
  split; [by apply on_mem_run|]. split_and!; [|done|done|apply (proj2 Hratio)|exact (rf_size _ _ _ _ _ _ _ _ _ _ _ _ _ _ RF)].
  split; [|done|done|exact MO'|].
  - split; [done| |by apply F2|congruence| |].
    + exists o'. split; [done|]. rewrite Forall_forall in *. intros t Ht. by apply Htok, Hsub.
    + eapply Forall_impl; [exact Hd'|]. done.
    + eapply Forall_impl; [exact HLb|]. apply live_max.
  - unfold enough, batch_size. cbn [st_alloc st_cache]. rewrite <- Hlen.
    pose proof (evictable_nonneg _ _ _ (mo_cache _ _ _ _ _ _ _ _ MO')) as H0ev. cbn [st_cache] in H0ev.
    destruct Hleft as [Hl1|[Hl1 Hl2]]; lia.
Qed.

Lemma make_room_ok fits b s m L own : calm s → batch_live b → reqs b ≠ [] → Forall decoding (zip (reqs b) (seq_lens b)) →
  mem (zip (reqs b) (seq_lens b)) m L own →
  (fits = true → batch_size b ≤ ta_available_size (st_alloc m)) → (fits = false → length (reqs b) ≠ 1) →
  ∃ b' q ratio m' L' own', make_room tuple_hash cf fits b s m =
      (Ok (b', _extend_requests_to_queue q (set_new_token_ratio ratio s)), m') ∧
    step_fits b' m' L' own' ∧ Forall live q ∧ carried (reqs b) (q ++ reqs b') ∧ (0 <= ratio)%Q ∧
    rp_size (st_pool m') = rp_size (st_pool m).
Proof.
  intros CM HB Hne Hd MO Hfit Hone. unfold make_room. destruct (negb fits || _) eqn:Er.
  - destruct (retract_live b m L own HB Hne Hd MO) as (b' & gr & ratio & m' & L' & own' & E & SF & HL & Hp & Hr & Hsz).
    { apply orb_true_iff in Er as [Hf%negb_true_iff|[_ Hlt%bool_decide_eq_true]%andb_true_iff]; [by apply Hone|].
      unfold batch_size in Hlt. lia. }
    exists b', (reset_for_retract <$> gr), ratio, m', L', own'. split; [by erewrite run_bind; [|exact E]|].
    split; [done|]. split; [|split; [|done]].
    + apply Forall_fmap. eapply Forall_impl; [exact HL|]. apply live_retracted.
    + rewrite <- Hp. apply carried_app; [|done]. exists (reset_for_retract <$> gr). split; [|done].
      apply Forall2_fmap_r, Forall_Forall2_diag, Forall_true. apply reset_unchanged.
  - apply orb_false_iff in Er as [Hf%negb_false_iff _]. specialize (Hfit Hf).
    exists b, [], (Qmax (s_new_token_ratio s - new_token_ratio_decay cf) (min_new_token_ratio cf))%Q, m, L, own. unfold _extend_requests_to_queue. cbn [waiting_queue set_new_token_ratio]. rewrite app_nil_r.
    split; [by destruct s|]. split_and!; try done.
    + split; try done. unfold enough. pose proof (evictable_nonneg _ _ _ (mo_cache _ _ _ _ _ _ _ _ MO)). lia.
    + eapply Qle_trans; [apply (pc_min_ratio _ _ _ _ CF)|apply Q.le_max_r].
Qed.

(** ** The running batch *)

Lemma decode_fits b m L own : step_fits b m L own →
  ∃ b' m' L' own', on_mem (prepare_for_decode tuple_hash oob undef uninit order b) m = (Ok b', m') ∧
    batch_ready b' ∧ reqs b' = reqs b ∧ mem (zip (reqs b') (seq_lens b')) m' L' own' ∧
    rp_size (st_pool m') = rp_size (st_pool m).
Proof.
  intros [HB Hne Hd MO Hen]. pose proof HB as [OK (o & Ho & Htok) Hmm Hov _ _]. destruct m as [c p a].
  pose proof (pc_columns _ _ _ _ CF) as Hst. pose proof (bo_lens _ OK) as Hl.
  assert (Hlt : Forall (λ n, (Z.of_nat n < stride)%Z) (seq_lens b)).
  { rewrite <- (snd_zip (reqs b) (seq_lens b)) by lia. apply Forall_fmap. eapply Forall_impl; [exact Hd|].
    intros h Hh. pose proof (decoding_fresh _ _ Hh). simpl. lia. }
  assert (MO0 : mem (zip (reqs b) (seq_lens b) ++ []) (MkStore c p a) L own) by by rewrite app_nil_r.
  destruct (prepare_for_decode_ok tuple_hash oob undef uninit order b o c L own a p OK) as (res & c' & L' & a' & p' & E & _ & Hok);
    [by eexists|unfold decode_tokens; by rewrite Hov, Ho|done|split; apply MO|by eapply mem_rows_fit|].
  destruct (Hok Hen) as (b' & out & -> & Hr & _ & _ & _ & Hls & _ & OK' & Hlo & AL & W & Hov' & Hmm').
  pose proof (mem_decode b OK MO0 out c' L' a' p' eq_refl eq_refl Hlo Hlt AL W) as MO'. rewrite app_nil_r in MO'.
  exists b', (MkStore c' p' a'), L', own. split; [by apply on_mem_run|]. rewrite Hr, Hls.
  split; [|split; [done|split; [exact MO'|apply (wr_size _ _ _ W)]]].
  split; [done|by rewrite Hmm'|congruence|]. rewrite Hr, Hls. apply Forall_forall. intros [r n] Hin.
  apply list_elem_of_lookup in Hin as [i [Hi Hn]%lookup_zip_Some]. simpl in Hi, Hn.
  rewrite list_lookup_fmap in Hn. destruct (seq_lens b !! i) as [k|] eqn:Hk; [|done]. injection Hn as <-.
  rewrite Forall_forall in Hd. destruct (Hd (r, k)) as (HL & _ & Hlen & Hre); [|by split_and!].
  apply (list_elem_of_lookup_2 _ i). by apply lookup_zip_Some.
Qed.

Lemma decoding_reqs b : Forall decoding (zip (reqs b) (seq_lens b)) → length (seq_lens b) = length (reqs b) →
  Forall (λ r, output_ids r ≠ []) (reqs b).
Proof.
  intros HF Hl. rewrite <- (zip_fst_reqs (reqs b) (seq_lens b) Hl). apply Forall_fmap.
  eapply Forall_impl; [exact HF|]. by intros h (_ & ? & _).
Qed.

(** What [update_running_batch] leaves, with the holders and the queue it started from. *)
Definition running_choice (hs : list Holder) (q : list Req) s' m' : Prop :=
  ∃ L own, reqs (running_batch s') = [] ∧ hs = [] ∧ waiting_queue s' = q ∧ batch_is_full s' = false ∧ mem [] m' L own ∨
    batch_ready (running_batch s') ∧ reqs (running_batch s') ≠ [] ∧ Forall (λ r, output_ids r ≠ []) (reqs (running_batch s')) ∧
    carried (q ++ hs.*1) (waiting_queue s' ++ reqs (running_batch s')) ∧
    mem (zip (reqs (running_batch s')) (seq_lens (running_batch s'))) m' L own.

Lemma update_running_batch_ok s m L own : calm s → reqs (running_batch s) ≠ [] → mem (open_holders (running_batch s)) m L own →
  ∃ s' m', update_running_batch tuple_hash oob undef uninit order cf s m = (Ok s', m') ∧
    rp_size (st_pool m') = rp_size (st_pool m) ∧ (batch_is_full s' = true → batch_is_full s = true) ∧
    (∀ b0, batch_inv b0 → Forall within (reqs b0) → calm (set_running_batch b0 s')) ∧
    running_choice (open_holders (running_batch s)) (waiting_queue s) s' m'.
Proof.
  intros CM Hne MO. pose proof CM as [Hq Ht Hc [?|HB] Hw Hra]; [done|]. unfold update_running_batch.
  destruct (filter_inv _ HB) as (b & E & Ho & Hd & Hwi & Hsz & Hb). erewrite run_bind; [|unfold on_result; by rewrite E].
  destruct (is_empty b) eqn:Eb.
  { apply is_empty_true in Eb. eexists _, m. split; [reflexivity|]. split; [done|]. split; [done|]. split; [by split|].
    destruct Hb as [[_ Hb]|(_ & ? & _)]; [|done]. exists L, own. left. rewrite Hb in MO. by split_and!. }
  apply is_empty_false in Eb. destruct Hb as [[? _]|(HB' & _ & Hz)]; [done|]. rewrite <- Hz in MO, Hd.
  destruct m as [c p a]. pose proof (mo_group _ _ _ _ _ _ _ _ MO) as Hg. pose proof (bo_lens _ (bl_ok _ _ HB')) as Hl.
  destruct (check_decode_mem_ok tuple_hash (reqs b) c L own a p (mo_cache _ _ _ _ _ _ _ _ MO) (mo_enabled _ _ _ _ _ _ _ _ MO) Hg)
    as (c1 & L1 & a1 & E1 & EM & Hfit).
  pose proof (mem_evict [] c p a c1 a1 L L1 own MO EM) as MO1.
  erewrite run_bind; [|rewrite (pc_buffer _ _ _ _ CF); by apply on_mem_run]. set (fits := bool_decide (length (reqs b) ≤ ta_available_size a1)).
  destruct (make_room_ok fits b s (MkStore c1 p a1) L1 own CM HB' Eb Hd MO1) as (b2 & q & ratio & m2 & L2 & own2 & E2 & SF & HLq & Hcar & Hr2 & Hsz2).
  { unfold fits. by intros ?%bool_decide_eq_true. }
  { unfold fits. intros Hf%bool_decide_eq_false H1. apply Hf, Hfit. rewrite H1 in *.
    assert (∃ h, zip (reqs b) (seq_lens b) = [h]) as [h Eh].
    { destruct (reqs b) as [|r1 [|? ?]], (seq_lens b) as [|n1 [|? ?]]; try done. by eexists. }
    rewrite Eh in *. apply Forall_cons in Hd as [Hh _]. pose proof (last_fits h _ _ _ Hh MO). simpl in *. lia. }
  erewrite run_bind; [|exact E2]. set (s0 := _extend_requests_to_queue q (set_new_token_ratio ratio s)).
  set (s2 := if bool_decide (batch_size b2 < batch_size (running_batch s)) then set_batch_is_full false s0 else s0).
  destruct (decode_fits b2 m2 L2 own2 SF) as (b3 & m3 & L3 & own3 & E3 & HB3 & Hr3 & MO3 & Hsz3).
  erewrite run_bind; [|exact E3].
  assert (Hs2 : waiting_queue s2 = waiting_queue s ++ q ∧ (batch_is_full s2 = true → batch_is_full s = true) ∧
    ∀ b0, batch_inv b0 → Forall within (reqs b0) → calm (set_running_batch b0 s2)).
  { unfold s2, s0. destruct (bool_decide (batch_size b2 < _)); cbn; (split; [done|]); (split; [done|]); intros b0 Hb1 Hb2; split; cbn; try done; by apply Forall_app. }
  destruct Hs2 as (Eq2 & Hf2 & CM2). exists (set_running_batch b3 s2), m3. split; [done|]. clearbody s2.
  split; [rewrite Hsz3; exact Hsz2|]. split; [done|]. split; [exact CM2|]. exists L3, own3. right.
  cbn [running_batch waiting_queue set_running_batch]. rewrite Hr3, Eq2. split; [done|]. destruct SF as [SB Sne Sd _ _].
  split; [done|]. split; [apply decoding_reqs; [done|apply SB]|]. split; [|by rewrite <- Hr3].
  rewrite <- Hz, (zip_fst_reqs (reqs b) (seq_lens b) Hl), <- app_assoc. by apply carried_app.
Qed.
End turn.
