(* ===== verification/SchedLoop.v ===== *)
(** * The scheduler's loop

    [event_loop_normal] of [src/python/sglang/srt/managers/scheduler.py]: a turn keeps the
    invariant of [SchedTurn], never raises and loses no request; every request is finished
    after a bounded number of turns. *)

From S2P Require Import Prelude PyStr PySort Sampling HeapQ Radix RadixTree RadixInv RadixThms RadixLive Alloc PagedAlloc Req RadixStore SchedulePolicy PrefillAdder Penalty SamplingBatch BatchMem ReqTable ScheduleBatch BatchSteps Retract Scheduler SchedMem SchedMemBatch SchedBatch SchedAdmit SchedResults SchedTurn.
From Stdlib Require Import QArith Qminmax.
Close Scope Q_scope.
Open Scope nat_scope.

Section loop.
Context {SI : Type} `{BatchInfoLaws SI}.
Context (clock : nat → Z) (tuple_hash : list Z → Z) (shuffle : list Req → list Req).
Context (oob undef uninit : Z → Z) (order : nat → list Z).
Context (accept_token : Z → Grammar → Grammar) (forward_batch_generation : Batch (SI := SI) → list Z).
Context {cf : Config} {N : nat} {stride lim : Z}.
Context (CF : plain_config cf N stride lim).
Hypothesis shuffle_perm : ∀ q, shuffle q ≡ₚ q.
(** The model gives one token for each request. *)
Hypothesis forward_ok : ∀ b, length (forward_batch_generation b) = length (reqs b) ∧
  Forall bi_token (forward_batch_generation b).

Local Notation live := (live lim).
Local Notation batch_inv := (batch_inv lim).
Local Notation batch_live := (batch_live lim).
Local Notation batch_ready := (batch_ready (lim := lim)).
Local Notation calm := (calm (lim := lim)).
Local Notation last_ok := (last_ok (lim := lim)).
Local Notation sched_ok := (sched_ok (cf := cf) (N := N) (stride := stride) (lim := lim)).
Local Notation mem hs m L own := (mem_ok true N stride hs [] m L own).
Local Notation get_next := (get_next_batch_to_run clock tuple_hash shuffle oob undef uninit order cf).
Local Notation run_and_process := (run_and_process clock tuple_hash accept_token forward_batch_generation cf).
Local Notation turn := (event_loop_turn clock tuple_hash shuffle oob undef uninit order accept_token forward_batch_generation cf).

Implicit Types (b : Batch (SI := SI)) (s : Sched (SI := SI)) (m : Pools) (L : gset nat) (own : nat → Z) (nb : NewBatch (SI := SI)).

(** ** The next batch *)

(** The chosen batch is ready, and it, the queue and the other batch are all of [q]. *)
Definition next_ok (q : list Req) s' (cur : option (CurBatch (SI := SI))) m' : Prop := ∃ L own,
  match cur with
  | None => calm s' ∧ reqs (running_batch s') = [] ∧ carried q (waiting_queue s') ∧ mem [] m' L own
  | Some (New nb) => calm s' ∧ new_ready (lim := lim) nb ∧
      carried q ((waiting_queue s' ++ (open_holders (running_batch s')).*1) ++ reqs (nb_batch nb)) ∧
      mem (zip (reqs (nb_batch nb)) (seq_lens (nb_batch nb)) ++ open_holders (running_batch s')) m' L own
  | Some Running => (∀ b0, batch_inv b0 → Forall within (reqs b0) → calm (set_running_batch b0 s')) ∧
      batch_ready (running_batch s') ∧ reqs (running_batch s') ≠ [] ∧
      Forall (λ r, output_ids r ≠ []) (reqs (running_batch s')) ∧
      carried q (waiting_queue s' ++ reqs (running_batch s')) ∧
      mem (zip (reqs (running_batch s')) (seq_lens (running_batch s'))) m' L own
  end.

(** Nothing of the batches is left over, or is marked full. *)
Definition idle s : Prop := reqs (running_batch s) = [] ∧ batch_is_full s = false ∧
  match last_batch s with Some (New _) => False | _ => True end.

(** What is full has something in it. *)
Definition full_ok s : Prop := batch_is_full s = true → reqs (running_batch s) ≠ [] ∨ ∃ nb, last_batch s = Some (New nb).

Lemma get_next_batch_to_run_ok s m : sched_ok s m →
  ∃ s' cur m', get_next s m = (Ok (s', cur), m') ∧ rp_size (st_pool m') = rp_size (st_pool m) ∧
    next_ok (open_reqs s) s' cur m' ∧
    (serves cf → Forall (roomy (N := N)) (waiting_queue s) → full_ok s →
      (batch_is_full s' = true → reqs (running_batch s') ≠ [] ∨ ∃ nb, cur = Some (New nb)) ∧
      (idle s → cur = None → waiting_queue s = [])).
Proof.
  intros (CM & LO & Hmax & L & own & MO).
  destruct (merge_last_ok s CM LO) as (s1 & E1 & CM1 & Eq1 & El1 & Eo1 & Hf1 & Hne1 & Hnew1 & Hsame1).
  rewrite <- Eo1 in MO. unfold get_next_batch_to_run, stash_chunked. rewrite (cm_chunked _ CM).
  erewrite run_bind; [|done]. replace (set_chunked_req None s) with s by (destruct s; destruct CM as [_ _ Hc _ _ _]; simpl in Hc; by rewrite Hc).
  erewrite run_bind; [|unfold on_result; by rewrite E1].
  destruct (get_new_batch_prefill_ok clock tuple_hash shuffle oob undef uninit order CF shuffle_perm s1 m L own CM1 MO Hmax)
    as (s2 & nbo & m2 & E2 & CM2 & Er2 & El2 & Hsz2 & (L2 & own2 & Hnb) & Hidle2).
  erewrite run_bind; [|exact E2]. unfold open_reqs. rewrite <- Eo1, <- Eq1.
  assert (Hnf : full_ok s → reqs (running_batch s1) = [] → batch_is_full s1 = false).
  { intros Hfo Er. destruct (batch_is_full s1) eqn:Ef; [|done]. exfalso. destruct (Hfo (Hf1 eq_refl)) as [Hr|Hl]; [by apply Hne1|].
    by apply Hnew1. }
  destruct nbo as [nb|].
  { exists s2, (Some (New nb)), m2. split; [done|]. split; [done|]. split.
    - destruct Hnb as (HR & Hcar & MO2). exists L2, own2. rewrite Er2. split; [done|]. split; [done|]. split; [|done].
      rewrite <- app_assoc, (Permutation_app_comm (open_holders (running_batch s1)).*1), app_assoc. by apply carried_app.
    - intros _ _ _. split; [|done]. intros _. right. by exists nb. }
  destruct Hnb as [Hcar MO2]. destruct (is_empty (running_batch s2)) eqn:Ee.
  { apply is_empty_true in Ee. exists s2, None, m2. split; [done|]. split; [done|]. pose proof Ee as Ee1. rewrite Er2 in Ee1.
    rewrite (open_empty _ Ee1) in *. split.
    - exists L2, own2. split_and!; try done. by rewrite app_nil_r.
    - intros Hsv Hro Hfo. destruct (Hidle2 Ee1 (Hnf Hfo Ee1) Hsv Hro eq_refl) as [Hq Hf]. split; [|done]. congruence. }
  apply is_empty_false in Ee. rewrite <- Er2 in MO2.
  destruct (update_running_batch_ok tuple_hash oob undef uninit order CF s2 m2 L2 own2 CM2 Ee MO2)
    as (s3 & m3 & E3 & Hsz3 & Hf3 & CM3 & (L3 & own3 & Hrun)).
  erewrite run_bind; [|exact E3]. rewrite Er2 in Hrun. exists s3, (if is_empty (running_batch s3) then None else Some Running), m3.
  split; [done|]. split; [by rewrite Hsz3|].
  assert (Hidle : ∀ cur : option (CurBatch (SI := SI)), serves cf → Forall (roomy (N := N)) (waiting_queue s1) → full_ok s → idle s → cur = None → waiting_queue s1 = []).
  { intros cur _ _ _ (Hi1 & _ & Hi3) _. exfalso. apply Ee. rewrite Er2, Hsame1; [done|]. intros nb Hl. by rewrite Hl in Hi3. }
  destruct Hrun as [(Hr & Ho & Hq & Hf & MO3)|(HB & Hne & Hout & Hcar3 & MO3)].
  - replace (is_empty (running_batch s3)) with true by (unfold is_empty; by rewrite Hr).
    rewrite Ho in *. split; [|intros Hsv Hro Hfo; split; [congruence|by eapply Hidle]].
    exists L3, own3. split; [|split_and!; [done|rewrite app_nil_r, Hq; exact Hcar|exact MO3]].
    specialize (CM3 (running_batch s3) (or_introl Hr)). rewrite Hr in CM3. specialize (CM3 (Forall_nil_2 _)).
    by destruct s3.
  - replace (is_empty (running_batch s3)) with false by (unfold is_empty; destruct (reqs (running_batch s3)); done).
    split; [|intros Hsv Hro Hfo; split; [by left|by eapply Hidle]].
    exists L3, own3. split_and!; try done. rewrite <- Hcar3. by apply carried_app.
Qed.

(** ** A turn *)

(** Of the requests of [s], those of [run] took one more token, and the finished ones left. *)
Record turned s s' (rest run run' : list Req) : Prop := {
  tn_carried : carried (open_reqs s) (rest ++ run);
  tn_stepped : Forall2 stepped run run';
  tn_open : open_reqs s' ≡ₚ rest ++ filter (λ r, finished r = false) run'
}.

Lemma open_holders_reqs b : length (seq_lens b) = length (reqs b) →
  (open_holders b).*1 = filter (λ r, finished r = false) (reqs b).
Proof.
  unfold open_holders. generalize (reqs b) (seq_lens b). intros rs. induction rs as [|r rs IH]; intros [|n ns] Hl; try done.
  cbn [zip_with]. rewrite !filter_cons. cbn [fst]. injection Hl as Hl. destruct (finished r).
  - rewrite !decide_False by done. by apply IH.
  - rewrite !decide_True by done. rewrite fmap_cons. f_equal. by apply IH.
Qed.

Lemma stepped_within r r' : live r → output_ids r ≠ [] → stepped r r' → within r'.
Proof.
  intros [_ _ _ _ (mx & Hmx & _ & _ & Ho)] Hne [[[Hp _] _ _ _ _ _ _ _] _ _ [t Ht]]. exists mx.
  rewrite Hp, Ht, length_app. split; [done|]. destruct Ho as [?|Ho]; [done|simpl; lia].
Qed.

Lemma decoded_within rs rs' : Forall live rs → Forall (λ r, output_ids r ≠ []) rs → Forall2 stepped rs rs' → Forall within rs'.
Proof.
  intros HL Hne HF. revert HL Hne. induction HF as [|r r' rs rs' Hs _ IH]; [done|].
  intros [HLr HL]%Forall_cons [Hr Hne]%Forall_cons. constructor; [by eapply stepped_within|by apply IH].
Qed.

Lemma run_and_process_ok q s cur m : next_ok q s (Some cur) m →
  (max_micro_batch_size cf ≤ Z.of_nat (rp_size (st_pool m)))%Z →
  ∃ cur' s' m' rest run run', run_and_process cur s m = (Ok (cur', s'), m') ∧
    sched_ok (set_last_batch (Some cur') s') m' ∧ run ≠ [] ∧
    carried q (rest ++ run) ∧ Forall2 stepped run run' ∧
    open_reqs (set_last_batch (Some cur') s') ≡ₚ rest ++ filter (λ r, finished r = false) run' ∧
    ((batch_is_full s = true → reqs (running_batch s) ≠ [] ∨ ∃ nb, Some cur = Some (New nb)) →
      full_ok (set_last_batch (Some cur') s')).
Proof.
  intros (L & own & HN) Hmax. destruct cur as [nb|].
  - destruct HN as (CM & (HB & Hfill & Hne & Hnc & Hnd) & Hcar & MO). destruct nb as [b chunked dec]. cbn in Hnc, Hnd. subst chunked dec.
    destruct (forward_ok b) as [Hl Ht]. cbn [nb_batch] in *.
    destruct (process_prefill_ok clock tuple_hash accept_token cf b None None (forward_batch_generation b) _ m L own
      (pc_mixed _ _ _ _ CF) HB Hfill eq_refl Hl Ht MO) as (b' & m' & L' & own' & E & HB' & Hs & MO' & Hsz).
    exists (New (MkNewBatch b' None None)). eexists _, m', (waiting_queue s ++ (open_holders (running_batch s)).*1), (reqs b), (reqs b').
    split; [unfold run_and_process; cbn [nb_batch nb_chunked_req nb_decoding_reqs]; erewrite run_bind; [|exact E]; reflexivity|].
    rewrite (cm_chunked _ CM). cbn [fmap option_fmap option_map].
    assert (Hne' : reqs b' ≠ []) by (intros E0; rewrite E0 in Hs; inversion Hs; congruence).
    split; [|split; [done|split; [done|split; [done|split]]]].
    + split; [by destruct CM; split|]. split; [done|]. split; [by rewrite Hsz|]. exists L', own'.
      eapply mem_ok_perm; [|exact MO']. apply Permutation_app_comm.
    + unfold open_reqs, last_holders. cbn. rewrite fmap_app, app_assoc. f_equiv.
      rewrite open_holders_reqs; [done|]. apply (bl_ok _ _ HB').
    + intros _ _. right. by eexists.
  - destruct HN as (CM & HB & Hne & Hout & Hcar & MO). destruct (forward_ok (running_batch s)) as [Hl Ht].
    rewrite <- (app_nil_r (zip _ _)) in MO.
    destruct (process_decode_ok clock tuple_hash accept_token cf (running_batch s) (forward_batch_generation (running_batch s)) [] m L own
      (pc_overlap _ _ _ _ CF) HB Hl Ht MO) as (b' & m' & L' & own' & E & HB' & Hs & MO' & Hsz).
    exists Running. eexists _, m', (waiting_queue s), (reqs (running_batch s)), (reqs b').
    split; [unfold run_and_process; erewrite run_bind; [|exact E]; reflexivity|].
    assert (Hne' : reqs b' ≠ []) by (intros E0; rewrite E0 in Hs; inversion Hs; congruence).
    assert (Hw : Forall within (reqs b')) by (eapply decoded_within; [by apply ready_live|done|exact Hs]).
    split; [|split; [done|split; [done|split; [done|split]]]].
    + split; [destruct (CM b' (or_intror HB') Hw); by split|]. split; [done|]. split; [by rewrite Hsz|]. by exists L', own'.
    + unfold open_reqs, last_holders. cbn. rewrite app_nil_r. f_equiv.
      rewrite open_holders_reqs; [done|]. apply (bl_ok _ _ HB').
    + intros _ _. by left.
Qed.

(** When nothing runs, everything is free. *)
Lemma check_memory_ok m L own : mem [] m L own → check_memory cf m = (Ok tt, m).
Proof.
  intros MO. unfold check_memory. pose proof (mem_total MO) as Ht. pose proof (mem_protected MO) as Hp.
  destruct (mem_free_rows _ _ _ _ _ MO) as [_ Hr]. unfold rp_available_size in Hr. cbn [length] in Hr.
  pose proof (protected_nonneg _ _ _ (mo_cache _ _ _ _ _ _ _ _ MO)) as H0p. cbn [zsum fmap list_fmap app] in Ht, Hp.
  unfold ta_free_of in Ht. rewrite (mo_group _ _ _ _ _ _ _ _ MO), app_nil_r in Ht.
  rewrite bool_decide_eq_false_2 by (rewrite (pc_tokens _ _ _ _ CF); unfold ta_available_size; lia).
  by rewrite bool_decide_eq_false_2 by lia.
Qed.

(** A turn returns and keeps the invariant; a batch runs unless there is nothing to run. *)
Lemma turn_ok s m : sched_ok s m →
  ∃ s' m' rest run run', turn s m = (Ok s', m') ∧ sched_ok s' m' ∧ turned s s' rest run run' ∧
    (serves cf → Forall (roomy (N := N)) (waiting_queue s) → full_ok s →
      full_ok s' ∧ (run = [] → idle s' ∧ (idle s → open_reqs s = []))).
Proof.
  intros OK. pose proof OK as (_ & _ & Hmax & _).
  destruct (get_next_batch_to_run_ok s m OK) as (s1 & cur & m1 & E1 & Hsz1 & HN & Hfull).
  unfold event_loop_turn. erewrite run_bind; [|exact E1]. destruct cur as [cur|].
  - rewrite <- Hsz1 in Hmax.
    destruct (run_and_process_ok (open_reqs s) s1 cur m1 HN Hmax) as (cur' & s2 & m2 & rest & run & run' & E2 & OK2 & Hne & Hcar & Hst & Hop & Hf2).
    erewrite run_bind; [|exact E2]. exists (set_last_batch (Some cur') s2), m2, rest, run, run'.
    split; [done|]. split; [done|]. split; [done|]. intros Hsv Hro Hfo. split; [|done].
    apply Hf2. by destruct (Hfull Hsv Hro Hfo).
  - destruct HN as (L & own & CM & Hr & Hcar & MO). erewrite run_bind; [|by eapply check_memory_ok].
    eexists _, m1, (waiting_queue s1), [], []. split; [reflexivity|]. rewrite <- Hsz1 in Hmax.
    assert (Eo : open_reqs (set_last_batch None (set_new_token_ratio (init_new_token_ratio cf) s1)) = waiting_queue s1).
    { unfold open_reqs, last_holders. cbn. rewrite (open_empty _ Hr). by rewrite app_nil_r. }
    split; [|split].
    + split; [destruct CM; split; try done; apply (pc_init_ratio _ _ _ _ CF)|]. split; [done|]. split; [done|].
      exists L, own. cbn. rewrite (open_empty _ Hr). exact MO.
    + split; [by rewrite app_nil_r|constructor|by rewrite Eo, app_nil_r].
    + intros Hsv Hro Hfo. destruct (Hfull Hsv Hro Hfo) as [Hf Hid].
      assert (Hnf : batch_is_full s1 = false).
      { destruct (batch_is_full s1); [|done]. by destruct (Hf eq_refl) as [?|[? ?]]. }
      split; [intros Hc; cbn in *; congruence|]. intros _. split; [done|]. intros Hi.
      pose proof (Hid Hi eq_refl) as Hq. destruct Hi as (Hi1 & _ & Hi3). unfold open_reqs. rewrite Hq, (open_empty _ Hi1).
      unfold last_holders. by destruct (last_batch s) as [[?|]|].
Qed.

(** C1: One turn of the loop, on a state where every row, slot and lock is accounted for: it
    returns without an exception (the prefill and the decode step find their memory, retraction
    its last request, the idle check no leak) and the state it leaves is accounted for again.
    The unfinished requests are those of before; the ones in the batch that ran have each got
    exactly one more token, the others none, and only finished requests left. *)
Theorem event_loop_turn_correct s m : sched_ok s m →
  ∃ s' m' rest run run', turn s m = (Ok s', m') ∧ sched_ok s' m' ∧ turned s s' rest run run'.
Proof.
  intros OK. destruct (turn_ok s m OK) as (s' & m' & rest & run & run' & E & OK' & HT & _).
  by exists s', m', rest, run, run'.
Qed.
End loop.
