(* ===== verification/SchedLive.v ===== *)
(** * Every request is finished

    The loop of [src/python/sglang/srt/managers/scheduler.py] over many turns: a measure of the
    tokens to come that every turn lowers, for requests that fit the pool even when they are
    charged in full after a retraction; and the state in which the loop starves. *)

From S2P Require Import Prelude PyStr PySort Sampling HeapQ Radix RadixTree RadixInv RadixThms RadixLive Alloc PagedAlloc Req RadixStore SchedulePolicy PrefillAdder Penalty SamplingBatch BatchMem ReqTable ScheduleBatch BatchSteps Retract Scheduler SchedMem SchedMemBatch SchedBatch SchedAdmit SchedResults SchedTurn SchedLoop.
From Stdlib Require Import QArith Qminmax.
Close Scope Q_scope.
Open Scope nat_scope.

Section live_loop.
Context {SI : Type} `{BatchInfoLaws SI}.
Context (clock : nat → Z) (tuple_hash : list Z → Z) (shuffle : list Req → list Req).
Context (oob undef uninit : Z → Z) (order : nat → list Z).
Context (accept_token : Z → Grammar → Grammar) (forward_batch_generation : Batch (SI := SI) → list Z).
Context {cf : Config} {N : nat} {stride lim : Z}.
Context (CF : plain_config cf N stride lim).
Hypothesis shuffle_perm : ∀ q, shuffle q ≡ₚ q.
(** The model gives one token for each request. *)
Hypothesis forward_ok : ∀ b, length (forward_batch_generation b) = length (reqs b) ∧
  Forall bi_token (forward_batch_generation b).

Local Notation live := (live lim).
Local Notation roomy := (roomy (N := N)).
Local Notation sched_ok := (sched_ok (cf := cf) (N := N) (stride := stride) (lim := lim)).
Local Notation turn := (event_loop_turn clock tuple_hash shuffle oob undef uninit order accept_token forward_batch_generation cf).

Implicit Types (s : Sched (SI := SI)) (m : Pools).

(** [k] turns. *)
Fixpoint turns (k : nat) s : M Pools (Sched (SI := SI)) :=
  match k with
  | 0 => mret s
  | S k => s ← turn s; turns k s
  end.

(** The tokens a request may still take. *)
Definition left_tokens (r : Req) : Z :=
  Z.max (default 0%Z (max_new_tokens (sampling_params r))) 1 - Z.of_nat (length (output_ids r)).

Lemma live_left r : live r → (1 ≤ left_tokens r)%Z.
Proof. intros [_ _ _ _ (mx & Hmx & _ & _ & Ho)]. unfold left_tokens. rewrite Hmx. destruct Ho as [->|Ho]; simpl; lia. Qed.

Lemma unchanged_left r r' : unchanged r r' → left_tokens r' = left_tokens r.
Proof. intros (_ & _ & Ho & Hp). unfold left_tokens. by rewrite Ho, Hp. Qed.

Lemma stepped_left r r' : stepped r r' → left_tokens r' = (left_tokens r - 1)%Z.
Proof.
  intros [[[Hp _] _ _ _ _ _ _ _] _ _ [t Ht]]. unfold left_tokens. rewrite Hp, Ht, length_app. simpl. lia.
Qed.

Lemma carried_left q q' : carried q q' → zsum left_tokens q' = zsum left_tokens q.
Proof.
  intros (m & HF & Hp). rewrite (zsum_perm _ _ _ Hp). clear Hp. induction HF as [|r r' q m Hr _ IH]; [done|].
  cbn [zsum]. by rewrite IH, (unchanged_left _ _ Hr).
Qed.

(** A property of the limits and the inputs stays with the request. *)
Lemma carried_Forall (P : Req → Prop) q q' : (∀ r r', unchanged r r' → P r → P r') → carried q q' → Forall P q → Forall P q'.
Proof.
  intros HP (m & HF & ->). induction HF as [|r r' q m Hs _ IH]; [done|].
  intros [Hr HL]%Forall_cons. constructor; [by eapply HP|by apply IH].
Qed.

Lemma roomy_unchanged r r' : unchanged r r' → roomy r → roomy r'.
Proof. intros (_ & Ho & _ & Hp). unfold SchedAdmit.roomy. by rewrite Ho, Hp. Qed.

Lemma roomy_stepped r r' : stepped r r' → roomy r → roomy r'.
Proof. intros [[[Hp _] _ _ _ _ _ _ _] _ Ho _]. unfold SchedAdmit.roomy. by rewrite Ho, Hp. Qed.

Lemma open_live s m : sched_ok s m → Forall live (open_reqs s).
Proof.
  intros (CM & LO & _). unfold open_reqs. apply Forall_app. split; [apply CM|]. rewrite fmap_app. apply Forall_app.
  assert (HB : ∀ b : Batch (SI := SI), batch_live lim b → Forall live (open_holders b).*1).
  { intros b HB. apply Forall_fmap, Forall_forall. intros h [Hf Hh]%list_elem_of_filter.
    pose proof (bl_open _ _ HB) as Ho. rewrite Forall_forall in Ho. by destruct (Ho h Hh Hf). }
  split.
  - destruct (cm_running _ CM) as [E|HR]; [by rewrite (open_empty _ E)|by apply HB].
  - unfold last_holders, last_ok in *. destruct (last_batch s) as [[nb|]|]; [apply HB, LO|constructor..].
Qed.

(** Twice the tokens to come, and one while something is in a batch. *)
Definition busy s : Z :=
  if decide (reqs (running_batch s) = []) then
    if batch_is_full s then 1 else match last_batch s with Some (New _) => 1 | _ => 0 end
  else 1.
Definition to_come s : Z := (2 * zsum left_tokens (open_reqs s) + busy s)%Z.

Lemma busy_idle s : idle s ↔ busy s = 0%Z.
Proof.
  unfold idle, busy. case_decide as E; [|naive_solver]. destruct (batch_is_full s); [naive_solver|].
  destruct (last_batch s) as [[?|]|]; naive_solver.
Qed.

Lemma busy_bounds s : (0 ≤ busy s ≤ 1)%Z.
Proof. unfold busy. case_decide; [|lia]. destruct (batch_is_full s); [lia|]. destruct (last_batch s) as [[?|]|]; lia. Qed.

(** Each request of the batch has one token less to come. *)
Lemma run_left run run' : Forall (λ r, 1 ≤ left_tokens r)%Z run → Forall2 stepped run run' →
  (zsum left_tokens (filter (λ r, finished r = false) run') ≤ zsum left_tokens run - Z.of_nat (length run))%Z.
Proof.
  intros HL HF. revert HL. induction HF as [|r r' run run' Hs _ IH]; [done|]. intros [Hr HL]%Forall_cons.
  specialize (IH HL). pose proof (stepped_left r r' Hs). rewrite filter_cons.
  cbn [length zsum]. case_decide; cbn [zsum]; lia.
Qed.

Lemma run_roomy run run' : Forall2 stepped run run' → Forall roomy run → Forall roomy (filter (λ r, finished r = false) run').
Proof.
  induction 1 as [|r r' run run' Hs _ IH]; [done|]. intros [Hr HL]%Forall_cons. rewrite filter_cons.
  case_decide; [constructor; [by eapply roomy_stepped|]|]; by apply IH.
Qed.

Lemma carried_nil q : carried q [] → q = [].
Proof. intros (m & HF & Hp). apply Permutation_nil in Hp as ->. by inversion HF. Qed.

Lemma nil_carried q : carried [] q → q = [].
Proof. intros (m & HF & Hp). inversion HF. subst. by apply Permutation_nil_r. Qed.

Lemma turn_lowers s m : serves cf → sched_ok s m → full_ok s → Forall roomy (open_reqs s) →
  ∃ s' m', turn s m = (Ok s', m') ∧ sched_ok s' m' ∧ full_ok s' ∧ Forall roomy (open_reqs s') ∧
    (open_reqs s = [] → open_reqs s' = []) ∧ (open_reqs s ≠ [] → (to_come s' < to_come s)%Z).
Proof.
  intros Hsv OK Hfo Hro. assert (Hrw : Forall roomy (waiting_queue s)) by (by apply Forall_app in Hro as [? _]).
  destruct (turn_ok clock tuple_hash shuffle oob undef uninit order accept_token forward_batch_generation CF shuffle_perm forward_ok s m OK)
    as (s' & m' & rest & run & run' & E & OK' & [Hcar Hst Hop] & Hfull).
  destruct (Hfull Hsv Hrw Hfo) as [Hfo' Hrun]. exists s', m'. split; [done|]. split; [done|]. split; [done|].
  pose proof (open_live s m OK) as HL.
  assert (Hro2 : Forall roomy (rest ++ run)) by by eapply carried_Forall; [apply roomy_unchanged|..].
  assert (HL2 : Forall (λ r, 1 ≤ left_tokens r)%Z (rest ++ run)).
  { eapply carried_Forall; [|exact Hcar|eapply Forall_impl; [exact HL|apply live_left]].
    intros r r' Hu. by rewrite (unchanged_left r r' Hu). }
  apply Forall_app in Hro2 as [Hro1 Hro2]. apply Forall_app in HL2 as [HL1 HL2].
  pose proof (run_left run run' HL2 Hst) as Hleft. pose proof (carried_left _ _ Hcar) as Hsum.
  rewrite zsum_app in Hsum. split; [|split].
  - rewrite Hop. apply Forall_app. split; [done|by eapply run_roomy].
  - intros E0. rewrite E0 in Hcar. apply nil_carried, app_eq_nil in Hcar as [-> ->]. inversion Hst. subst.
    by apply Permutation_nil_r in Hop.
  - intros Hne. unfold to_come. rewrite (zsum_perm _ _ _ Hop), zsum_app. pose proof (busy_bounds s). pose proof (busy_bounds s').
    destruct run as [|r run]; [|cbn [length] in Hleft; lia]. destruct (Hrun eq_refl) as [Hi' Hi].
    apply busy_idle in Hi'. assert (busy s ≠ 0%Z) by (intros Hb%busy_idle; by apply Hne, Hi). simpl in Hleft, Hsum. lia.
Qed.
Lemma turns_ok k : ∀ s m, serves cf → sched_ok s m → full_ok s → Forall roomy (open_reqs s) →
  open_reqs s = [] ∨ (to_come s ≤ Z.of_nat k)%Z →
  ∃ s' m', turns k s m = (Ok s', m') ∧ sched_ok s' m' ∧ open_reqs s' = [].
Proof.
  assert (Hnil : ∀ s m, sched_ok s m → (to_come s ≤ 0)%Z → open_reqs s = []).
  { intros s m OK Hle. pose proof (open_live s m OK) as HL. pose proof (busy_bounds s). unfold to_come in Hle.
    destruct (open_reqs s) as [|r rs]; [done|]. apply Forall_cons in HL as [Hr HL]. pose proof (live_left r Hr).
    assert (0 ≤ zsum left_tokens rs)%Z; [|cbn [zsum] in Hle; lia]. apply zsum_nonneg. intros x Hx.
    rewrite Forall_forall in HL. pose proof (live_left x (HL x Hx)). lia. }
  induction k as [|k IH]; intros s m Hsv OK Hfo Hro Hle; cbn [turns].
  - exists s, m. split; [done|]. split; [done|]. destruct Hle; [done|by eapply Hnil].
  - destruct (turn_lowers s m Hsv OK Hfo Hro) as (s' & m' & E & OK' & Hfo' & Hro' & Hnil' & Hlt).
    erewrite run_bind; [|exact E]. apply IH; try done. destruct (decide (open_reqs s = [])) as [E0|Hne]; [left; by apply Hnil'|].
    right. specialize (Hlt Hne). destruct Hle; [done|lia].
Qed.

(** C3: Every request is finished: when every unfinished request [r] has
    [len(origin_input_ids) + 2 * max_new_tokens] below the size of the pool, the scheduler
    serves at least one request at a time, and nothing is marked full that is empty, then after
    as many turns as twice the tokens to come plus one, none raising, no request is left. *)
Theorem every_request_finishes s m k : serves cf → sched_ok s m → full_ok s → Forall roomy (open_reqs s) →
  (to_come s ≤ Z.of_nat k)%Z →
  ∃ s' m', turns k s m = (Ok s', m') ∧ sched_ok s' m' ∧ open_reqs s' = [].
Proof. intros Hsv OK Hfo Hro Hle. apply turns_ok; try done. by right. Qed.
End live_loop.
