(* ===== verification/SchedArrive.v ===== *)
(** * What the scheduler is told between two turns

    New requests, aborts and flushes ([handle_generate_request], [abort_request] and
    [flush_cache] of [src/python/sglang/srt/managers/scheduler.py]) keep the invariant of
    [SchedTurn]; so in every state reached from the empty one the loop goes on. *)

From S2P Require Import Prelude PyStr PySort Sampling HeapQ Radix RadixTree RadixUpdate RadixInv RadixThms RadixLive Alloc PagedAlloc Req RadixStore SchedulePolicy PrefillAdder Penalty SamplingBatch BatchMem ReqTable ScheduleBatch BatchSteps Retract Scheduler SchedMem SchedMemBatch SchedBatch SchedAdmit SchedResults SchedTurn SchedLoop SchedLive.
From Stdlib Require Import QArith Qminmax.
Close Scope Q_scope.
Open Scope nat_scope.

Section arrive.
Context {SI : Type} `{BatchInfoLaws SI}.
Context (cf : Config) {lim : Z}.
Local Notation live := (live lim).
Implicit Types (s : Sched (SI := SI)) (m : Pools).


(** ** New requests *)

(** The prompt with its images expanded. *)
Definition expanded (i : GenerateReq) : Req :=
  match in_mm i with
  | Some (ids, mm) => extend_image_inputs mm (set_origin_input_ids ids (in_req i))
  | None => in_req i
  end.
Definition prompt_len (r : Req) : Z := Z.of_nat (length (origin_input_ids r)).

(** The requests that are answered with an error. *)
Definition rejects (i : GenerateReq) : bool :=
  in_no_session i || finished (in_req i)
  || bool_decide (max_req_input_len cf ≤ prompt_len (expanded i))%Z && (bool_decide (is_Some (in_mm i)) || negb (allow_auto_truncate cf))
  || negb (bool_decide (in_logprob_start_len i = -1)%Z) && return_logprob (in_req i)
     && bool_decide (Z.min (prompt_len (expanded i)) (max_req_input_len cf) ≤ in_logprob_start_len i)%Z.

(** The request with another limit. *)
Definition limited (mx : Z) (r : Req) : Req := set_sampling_params (set_max_new_tokens (Some mx) (sampling_params r)) r.

(** A request as [Req(...)] makes it from checked sampling parameters. *)
Record fresh (r : Req) : Prop := {
  fr_outputs : output_ids r = [];
  fr_whole : is_chunked r = 0%Z;
  fr_fits mx : bi_fits (limited mx r);
  fr_tokenizer : stop_list (sampling_params r) ≠ [] → is_Some (tokenizer r);
  fr_limit mx : max_new_tokens (sampling_params r) = Some mx → (0 ≤ mx)%Z
}.

(** The limits of the server. *)
Record limits_ok : Prop := {
  lo_input : (0 ≤ max_req_input_len cf)%Z;
  lo_gap : (max_req_input_len cf < max_req_len cf)%Z;
  lo_req : (max_req_len cf - 1 ≤ lim)%Z
}.

(** What an accepted request keeps of the one that came. *)
Definition accepted_as (r r' : Req) : Prop :=
  rid r' = rid r ∧ origin_input_ids r' = take (Z.to_nat (max_req_input_len cf)) (origin_input_ids r) ∧
  max_new_tokens (sampling_params r') =
    Some (Z.min (default 1073741824 (max_new_tokens (sampling_params r))) (max_req_len cf - prompt_len r' - 1))%Z ∧
  output_ids r' = [] ∧ live r'.

Lemma clamp_ok start r : limits_ok → fresh r → finished r = false → (prompt_len r ≤ max_req_input_len cf)%Z →
  accepted_as r (limited (Z.min (default (Z.shiftl 1 30) (max_new_tokens (sampling_params r))) (max_req_len cf - prompt_len r - 1))
    (set_logprob_start_len start r)).
Proof.
  intros [Hin Hgap Hreq] [Hout Hch Hfits Htok Hlim] Hf Hn. set (mx := Z.min _ _).
  assert (Hmx : (0 ≤ mx)%Z).
  { unfold mx. change (Z.shiftl 1 30) with 1073741824%Z. destruct (max_new_tokens (sampling_params r)) as [m|] eqn:Em; cbn [default]; unfold id.
    - specialize (Hlim m eq_refl). lia.
    - lia. }
  split; [done|]. split; [|split; [done|split; [done|]]].
  { change (origin_input_ids (limited _ _)) with (origin_input_ids r). rewrite take_ge; [done|]. unfold prompt_len in Hn. lia. }
  split.
  - done.
  - split; [by exists mx|]. exact Htok.
  - eapply bi_fits_same; [|exact (Hfits mx)]. done.
  - change (is_chunked (limited _ _)) with (is_chunked r). lia.
  - exists mx. split_and!; [done|done| |by left]. change (origin_input_ids (limited _ _)) with (origin_input_ids r).
    unfold mx, prompt_len in *. lia.
Qed.

Lemma accept_ok start r s : limits_ok → fresh r → finished r = false → (prompt_len r ≤ max_req_input_len cf)%Z →
  let bad := negb (bool_decide (start = -1)%Z) && return_logprob r && bool_decide (prompt_len r ≤ start)%Z in
  ∃ r', accept_request cf start r s = _add_request_to_queue r' s ∧ rid r' = rid r ∧
    if bad then finished r' = true else accepted_as r r'.
Proof.
  intros Hlo Hfr Hf Hn bad. unfold accept_request, abort_and_queue. fold (prompt_len r).
  cbn [logprob_start_len set_logprob_start_len].
  destruct (bool_decide (start = -1)%Z || negb (return_logprob r)) eqn:Es; cbn iota.
  - rewrite bool_decide_eq_false_2 by lia.
    assert (bad = false) as ->.
    { unfold bad. destruct (bool_decide (start = -1)%Z); [done|]. simpl in *. apply negb_true_iff in Es. by rewrite Es. }
    eexists. split; [reflexivity|]. split; [done|]. exact (clamp_ok (prompt_len r - 1) r Hlo Hfr Hf Hn).
  - assert (Hb : bad = bool_decide (prompt_len r ≤ start)%Z).
    { unfold bad. apply orb_false_iff in Es as [-> ->%negb_false_iff]. done. }
    rewrite Hb. case_bool_decide; eexists; (split; [reflexivity|]); (split; [done|]); [done|]. exact (clamp_ok start r Hlo Hfr Hf Hn).
Qed.

Lemma expanded_fresh i : fresh (in_req i) → fresh (expanded i) ∧ finished (expanded i) = finished (in_req i) ∧
  rid (expanded i) = rid (in_req i) ∧ sampling_params (expanded i) = sampling_params (in_req i) ∧
  return_logprob (expanded i) = return_logprob (in_req i).
Proof.
  intros Hfr. unfold expanded. destruct (in_mm i) as [[ids mm]|]; [|done]. split_and!; try done.
  destruct Hfr as [H1 H2 H3 H4 H5]. split; try done. intros mx. eapply bi_fits_same; [|exact (H3 mx)]. done.
Qed.

Lemma handle_ok i s : limits_ok → fresh (in_req i) →
  ∃ r, handle_generate_request cf i s = _add_request_to_queue r s ∧ rid r = rid (in_req i) ∧
    if rejects i then finished r = true else accepted_as (expanded i) r.
Proof.
  intros Hlo Hfr. destruct (expanded_fresh i Hfr) as (Hfe & Hf & Hrid & _ & Hret). unfold handle_generate_request, rejects.
  fold (expanded i). fold (prompt_len (expanded i)).
  destruct (in_no_session i); [by eexists|]. destruct (finished (in_req i)) eqn:Hfin; [by eexists|]. cbn [orb].
  destruct (bool_decide (max_req_input_len cf ≤ prompt_len (expanded i))%Z) eqn:Elen.
  - destruct (bool_decide (is_Some (in_mm i))); cbn [andb orb]; [by eexists|]. unfold validate_input_length.
    fold (prompt_len (expanded i)). rewrite Elen. apply bool_decide_eq_true in Elen.
    destruct (allow_auto_truncate cf); cbn [negb orb]; [|by eexists].
    set (r1 := set_origin_input_ids _ _).
    assert (Hpre : origin_input_ids r1 = take (Z.to_nat (max_req_input_len cf)) (origin_input_ids (expanded i))).
    { unfold r1, py_prefix. by rewrite bool_decide_eq_true_2 by apply Hlo. }
    assert (Hl1 : prompt_len r1 = max_req_input_len cf).
    { pose proof (lo_input Hlo). unfold prompt_len in *. rewrite Hpre, length_take. lia. }
    assert (Hf1 : fresh r1).
    { destruct Hfe as [H1 H2 H3 H4 H5]. split; try done. intros mx. eapply bi_fits_same; [|exact (H3 mx)]. done. }
    destruct (accept_ok (in_logprob_start_len i) r1 s Hlo Hf1 Hf ltac:(lia)) as (r' & -> & Hr & Hbad).
    exists r'. split; [done|]. split; [by rewrite Hr|]. rewrite Hl1 in Hbad. rewrite Z.min_r by lia.
    change (return_logprob r1) with (return_logprob (expanded i)) in Hbad. rewrite Hret in Hbad.
    destruct (negb (bool_decide (in_logprob_start_len i = -1)%Z) && return_logprob (in_req i) && bool_decide _); [done|].
    destruct Hbad as (H1 & H2 & H3 & H4 & H5). split_and!; try done. rewrite H2, Hpre, take_take. by rewrite Nat.min_id.
  - rewrite andb_false_r. cbn [andb orb]. unfold validate_input_length. fold (prompt_len (expanded i)). rewrite Elen.
    apply bool_decide_eq_false in Elen.
    destruct (accept_ok (in_logprob_start_len i) (expanded i) s Hlo Hfe Hf ltac:(lia)) as (r' & -> & Hr & Hbad).
    exists r'. split; [done|]. split; [by rewrite Hr|]. rewrite Hret in Hbad. rewrite Z.min_l by lia. exact Hbad.
Qed.
End arrive.

(** ** The invariant between the turns *)

Section between.
Context {SI : Type} `{BatchInfoLaws SI}.
Context (clock : nat → Z) (tuple_hash : list Z → Z).
Context {cf : Config} {N : nat} {stride lim : Z}.
Local Notation live := (live lim).
Local Notation batch_inv := (batch_inv lim).
Local Notation batch_live := (batch_live lim).
Local Notation decoding := (decoding lim).
Local Notation calm := (calm (lim := lim)).
Local Notation last_ok := (last_ok (lim := lim)).
Local Notation sched_ok := (sched_ok (cf := cf) (N := N) (stride := stride) (lim := lim)).
Local Notation mem hs m L own := (mem_ok true N stride hs [] m L own).
Implicit Types (s : Sched (SI := SI)) (m : Pools) (b : Batch (SI := SI)).

Lemma add_request_ok r s m : live r → sched_ok s m → sched_ok (_add_request_to_queue r s) m.
Proof.
  intros Hr ([H1 H2 H3 H4 H5 H6] & LO & Hmax & MO). split; [|by split].
  split; try done. apply Forall_app. split; [done|by apply Forall_singleton].
Qed.

(** *** Aborts *)

(** The request with a mark that the next check of its end looks at. *)
Lemma abort_live prefix r : live r → live (abort_running prefix r).
Proof.
  intros HL. unfold abort_running. destruct (_ && _); [|done]. eapply live_same; [..|exact HL]; try done. apply HL.
Qed.

Lemma abort_finished prefix r : finished (abort_running prefix r) = finished r.
Proof. unfold abort_running. by destruct (_ && _). Qed.

Lemma abort_columns prefix r : same_columns r (abort_running prefix r).
Proof. unfold abort_running. by destruct (_ && _). Qed.

Lemma abort_holder prefix (h : Holder) : same_hold h (abort_running prefix h.1, h.2).
Proof. unfold abort_running. by destruct (_ && _). Qed.

Lemma abort_decoding prefix (h : Holder) : decoding h → decoding (abort_running prefix h.1, h.2).
Proof.
  intros (HL & H1 & H2 & H3). split_and!; [by apply abort_live|..]; cbn [fst snd]; unfold abort_running; by destruct (_ && _).
Qed.

Definition abort_batch (prefix : pystr) b : Batch := set_reqs (abort_running prefix <$> reqs b) b.

Lemma abort_zip prefix b : zip (reqs (abort_batch prefix b)) (seq_lens (abort_batch prefix b)) =
  (λ h : Holder, (abort_running prefix h.1, h.2)) <$> zip (reqs b) (seq_lens b).
Proof.
  change (zip (abort_running prefix <$> reqs b) (seq_lens b) = (λ h : Holder, (abort_running prefix h.1, h.2)) <$> zip (reqs b) (seq_lens b)).
  generalize (reqs b) (seq_lens b). intros rs. induction rs as [|r rs IH]; intros [|n ns]; try done. simpl. by rewrite IH.
Qed.

Lemma abort_open prefix b : open_holders (abort_batch prefix b) = (λ h : Holder, (abort_running prefix h.1, h.2)) <$> open_holders b.
Proof.
  unfold open_holders. rewrite abort_zip. generalize (zip (reqs b) (seq_lens b)). intros hs. induction hs as [|h hs IH]; [done|].
  rewrite !fmap_cons, !filter_cons. cbn [fst]. rewrite abort_finished. case_decide; [by rewrite fmap_cons, IH|done].
Qed.

Lemma abort_batch_live prefix b : batch_live b → batch_live (abort_batch prefix b).
Proof.
  intros [OK Hout Hmm Hov Hopen Hmax]. split; try done.
  - apply set_reqs_ok; [done|]. apply Forall2_fmap_r, Forall_Forall2_diag, Forall_true. apply abort_columns.
  - rewrite abort_zip. apply Forall_fmap. eapply Forall_impl; [exact Hopen|]. intros h Hh Hf. cbn [fst] in Hf.
    rewrite abort_finished in Hf. by apply abort_decoding, Hh.
  - simpl. apply Forall_fmap. eapply Forall_impl; [exact Hmax|]. intros r Hr. destruct (abort_columns prefix r) as [[E _] _ _ _ _ _ _ _].
    unfold compose. by rewrite E.
Qed.

Lemma abort_request_ok prefix s m : sched_ok s m → sched_ok (abort_request prefix s) m.
Proof.
  intros (CM & LO & Hmax & L & own & MO). pose proof CM as [H1 H2 H3 H4 H5 H6].
  assert (CM' : ∀ s', waiting_queue s' = filter (λ r, startswith prefix (rid r) = false) (waiting_queue s) →
    waiting_queue_radix_tree s' = waiting_queue_radix_tree s → chunked_req s' = None →
    running_batch s' = abort_batch prefix (running_batch s) → s_new_token_ratio s' = s_new_token_ratio s → calm s').
  { intros s' Eq Et Ec Er Era. split; rewrite ?Eq, ?Et, ?Er, ?Era; try done.
    - apply Forall_forall. intros r [_ Hr]%list_elem_of_filter. rewrite Forall_forall in H1. by apply H1.
    - destruct H4 as [E0|HB]; [left; simpl; by rewrite E0|right; by apply abort_batch_live].
    - simpl. apply Forall_fmap. eapply Forall_impl; [exact H5|]. intros r (mx & Hmx & Hle). exists mx. unfold compose, abort_running.
      by destruct (startswith prefix (rid r) && negb (finished r)). }
  assert (MO' : mem (((λ h : Holder, (abort_running prefix h.1, h.2)) <$> open_holders (running_batch s)) ++
      ((λ h : Holder, (abort_running prefix h.1, h.2)) <$> last_holders s)) m L own).
  { rewrite <- fmap_app. eapply mem_ok_same; [|exact MO]. apply Forall2_fmap_r, Forall_Forall2_diag, Forall_true. apply abort_holder. }
  rewrite <- abort_open in MO'. unfold abort_request. unfold last_ok, last_holders in *.
  fold (abort_batch prefix (running_batch s)).
  change (last_batch (set_chunked_req _ _)) with (last_batch s).
  destruct (last_batch s) as [[nb|]|] eqn:El.
  - destruct LO as (HB & Hne & Hnc). fold (abort_batch prefix (nb_batch nb)).
    split; [apply CM'; try done; simpl; by rewrite H3|]. split.
    + cbn. split; [by apply abort_batch_live|]. split; [|done]. by destruct (reqs (nb_batch nb)).
    + split; [done|]. exists L, own. rewrite <- abort_open in MO'. exact MO'.
  - split; [apply CM'; try done; simpl; by rewrite H3|]. split; [unfold SchedTurn.last_ok; simpl; by rewrite El|].
    split; [done|]. exists L, own. unfold last_holders. cbn. rewrite El. exact MO'.
  - split; [apply CM'; try done; simpl; by rewrite H3|]. split; [unfold SchedTurn.last_ok; simpl; by rewrite El|].
    split; [done|]. exists L, own. unfold last_holders. cbn. rewrite El. exact MO'.
Qed.

(** *** Empty pools *)

Lemma fresh_mem c p a : page_size c = 1 → disable c = false → (∀ n, is_Some (nodes c !! n) → n < counter c) →
  table_ok p stride → (∀ row, row < rp_size p → is_Some (req_to_token p !! row)) → ta_size a = N →
  ∃ L, mem [] (MkStore (reset clock c) (rp_clear p) (ta_clear a)) L (λ _, 0%Z).
Proof.
  intros Hp Hd Hf Ht Hin Hs. destruct (fresh_ok clock c ltac:(lia) Hf) as (OK & Hcached & Ep & Ed).
  exists {[root_node (reset clock c)]}. split; cbn [st_cache st_pool st_alloc]; try done; try congruence.
  intros x. unfold private, token_slots. cbn [zsum]. rewrite Z.add_0_r.
    assert (Hsc : slot_count (reset clock c) {[root_node (reset clock c)]} x = 0%Z).
    { destruct (root_weight _ _ _ OK) as (t & Ht1 & _ & Hv). unfold slot_count, tree_sum, set_zsum.
      rewrite elements_singleton. cbn [zsum]. unfold wt, w_slot. by rewrite Ht1, Hv. }
    rewrite Hsc. unfold ta_free_of, ta_clear. cbn. rewrite app_nil_r, Hs. pose proof (arange1_NoDup N) as Hnd.
    case_bool_decide as Hx.
    + apply list_elem_of_In in Hx. apply NoDup_ListNoDup in Hnd. by rewrite (proj1 (NoDup_count_occ' Z.eq_dec _) Hnd x Hx).
    + rewrite (proj1 (count_occ_not_In Z.eq_dec _ _)); [done|]. by rewrite <- list_elem_of_In.
Qed.

(** [flush_cache] of a scheduler whose last batch is not a prefill. *)
Lemma flush_ok s m : sched_ok s m → (∀ nb, last_batch s ≠ Some (New nb)) → ta_size (st_alloc m) = N →
  ∃ done s' m', flush_cache clock s m = (Ok (done, s'), m') ∧ sched_ok s' m' ∧
    (done = true ↔ waiting_queue s = [] ∧ reqs (running_batch s) = []) ∧ (done = false → s' = s ∧ m' = m) ∧
    open_reqs s' = open_reqs s.
Proof.
  intros OK Hl Hs. pose proof OK as (CM & LO & Hmax & L & own & MO). unfold flush_cache.
  case_bool_decide as Hq; [|exists false, s, m; split_and!; try done; split; [done|by intros [? _]]].
  destruct (is_empty (running_batch s)) eqn:Ee.
  2:{ apply is_empty_false in Ee. exists false, s, m. cbn [andb]. split_and!; try done. split; [done|by intros [_ ?]]. }
  apply is_empty_true in Ee. cbn [andb]. destruct m as [c p a]. eexists true, _, _. split; [reflexivity|].
  destruct (fresh_mem c p a (mo_page _ _ _ _ _ _ _ _ MO) (mo_enabled _ _ _ _ _ _ _ _ MO) (c_fresh _ _ _ (mo_cache _ _ _ _ _ _ _ _ MO)) (mo_table _ _ _ _ _ _ _ _ MO) (mo_in_table _ _ _ _ _ _ _ _ MO) Hs) as [L' MO'].
  split; [|split; [done|split; [done|]]].
  - destruct CM. split; [by split|]. split; [done|]. split; [done|]. eexists L', _. cbn. rewrite (open_empty _ Ee). exact MO'.
  - unfold open_reqs, last_holders. cbn. by destruct (last_batch s) as [[nb|]|]; [by destruct (Hl nb)|..].
Qed.
End between.

(** ** Every state that is reached *)

Section reach.
Context {SI : Type} `{BatchInfoLaws SI}.
Context (clock : nat → Z) (tuple_hash : list Z → Z) (shuffle : list Req → list Req).
Context (oob undef uninit : Z → Z) (order : nat → list Z).
Context (accept_token : Z → Grammar → Grammar) (forward_batch_generation : Batch (SI := SI) → list Z).
Context {cf : Config} {N : nat} {stride lim : Z}.
Local Notation sched_ok := (sched_ok (cf := cf) (N := N) (stride := stride) (lim := lim)).
Local Notation turn := (event_loop_turn clock tuple_hash shuffle oob undef uninit order accept_token forward_batch_generation cf).
Implicit Types (s : Sched (SI := SI)) (m : Pools).

(** [Scheduler.__init__]: empty, with [rows] rows of [cols] columns and [slots] slots. *)
Definition new_Sched : Sched (SI := SI) :=
  MkSched [] (new_RadixCache clock 1 false false) (init_new [] false) false None None (init_new_token_ratio cf).
Definition new_Pools (rows cols slots : nat) (events : bool) : Pools :=
  MkStore (new_RadixCache clock 1 false events) (new_ReqToTokenPool rows cols) (new_TokenToKVPoolAllocator slots).

(** What happens to the scheduler: an accepted request, an abort, a turn that returns. *)
Inductive sched_step : Sched (SI := SI) * Pools → Sched (SI := SI) * Pools → Prop :=
  | step_generate i s m : fresh (in_req i) → rejects cf i = false →
      sched_step (s, m) (handle_generate_request cf i s, m)
  | step_abort prefix s m : sched_step (s, m) (abort_request prefix s, m)
  | step_turn s m s' m' : turn s m = (Ok s', m') → sched_step (s, m) (s', m').

Lemma new_pool_rows n cols row : row < n → req_to_token (new_ReqToTokenPool n cols) !! row = Some (replicate cols 0%Z).
Proof.
  intros Hr. apply elem_of_list_to_map_1.
  - rewrite <- list_fmap_compose. apply NoDup_fmap; [by intros ?? ?|apply NoDup_seq].
  - apply list_elem_of_fmap. exists row. split; [done|]. apply elem_of_seq. lia.
Qed.

Lemma new_ok rows cols events : (0 <= init_new_token_ratio cf)%Q → 0 < cols → stride = Z.of_nat cols →
  (max_micro_batch_size cf ≤ Z.of_nat rows)%Z → sched_ok new_Sched (new_Pools rows cols N events).
Proof.
  intros Hr Hc -> Hmax.
  assert (Htree : ∀ ev, tree_ready (new_RadixCache clock 1 false ev)).
  { intros ev. destruct (fresh_ok clock (MkCache ∅ 0 0 0 0 0 1 false ev []) ltac:(simpl; lia)) as (OK & _ & Ep & Ed).
    { intros n [? Hn]. done. }
    split_and!; [exact Ep|exact Ed|]. apply (c_fresh _ _ _ OK). }
  split; [split; [constructor|apply Htree|done|by left|constructor|done]|]. split; [done|]. split; [done|].
  destruct (fresh_mem (N := N) (stride := Z.of_nat cols) clock (MkCache ∅ 0 0 0 0 0 1 false events []) (new_ReqToTokenPool rows cols) (MkTokAlloc N [] true []))
    as [L MO]; try done; [by intros n [? Hn]| | |].
  - split; [lia|]. intros row t Ht. destruct (decide (row < rows)) as [Hlt|Hge].
    + rewrite new_pool_rows in Ht by done. injection Ht as <-. by rewrite length_replicate.
    + exfalso. apply elem_of_list_to_map_2, list_elem_of_fmap in Ht as (i & [= <- _] & Hi%elem_of_seq). lia.
  - intros row Hrow. rewrite new_pool_rows by done. by eexists.
  - exists L, (λ _, 0%Z). exact MO.
Qed.

Lemma step_ok s m s' m' : plain_config cf N stride lim → limits_ok cf (lim := lim) → (∀ q, shuffle q ≡ₚ q) →
  (∀ b, length (forward_batch_generation b) = length (reqs b) ∧ Forall bi_token (forward_batch_generation b)) →
  sched_ok s m → sched_step (s, m) (s', m') → sched_ok s' m'.
Proof.
  intros CF LO Hsh Hfw OK Hst. inversion Hst as [i s0 m0 Hfr Hrej|prefix s0 m0|s0 m0 s1 m1 Ht]; subst.
  - destruct (handle_ok (lim := lim) cf i s LO Hfr) as (r & -> & _ & Hr). rewrite Hrej in Hr. apply add_request_ok; [|done]. apply Hr.
  - by apply abort_request_ok.
  - destruct (turn_ok clock tuple_hash shuffle oob undef uninit order accept_token forward_batch_generation CF Hsh Hfw s m OK)
      as (s2 & m2 & _ & _ & _ & E & OK' & _). rewrite E in Ht. by injection Ht as <- <-.
Qed.

(** What the model of the server is assumed to do, and its configuration. *)
Record server_ok (rows cols : nat) : Prop := {
  so_config : plain_config cf N stride lim;
  so_limits : limits_ok cf (lim := lim);
  so_shuffle q : shuffle q ≡ₚ q;
  so_forward b : length (forward_batch_generation b) = length (reqs b) ∧ Forall bi_token (forward_batch_generation b);
  so_cols : 0 < cols;
  so_stride : stride = Z.of_nat cols;
  so_rows : (max_micro_batch_size cf ≤ Z.of_nat rows)%Z
}.

Section server.
Context {rows cols : nat} (SO : server_ok rows cols).

Lemma steps_ok x y : rtc sched_step x y → sched_ok x.1 x.2 → sched_ok y.1 y.2.
Proof.
  induction 1 as [|[s1 m1] [s2 m2] z Hs _ IH]; [done|]. intros OK. apply IH. by eapply step_ok; try apply SO.
Qed.

Lemma server_reach_ok events s m : rtc sched_step (new_Sched, new_Pools rows cols N events) (s, m) → sched_ok s m.
Proof.
  intros Hrtc. apply (steps_ok _ _ Hrtc). apply new_ok; apply SO.
Qed.

Lemma turns_rtc k : ∀ s m s' m',
  turns clock tuple_hash shuffle oob undef uninit order accept_token forward_batch_generation k s m (cf := cf) = (Ok s', m') →
  rtc sched_step (s, m) (s', m').
Proof.
  induction k as [|k IH]; intros s m s' m'; cbn [turns]; [by intros [= <- <-]|].
  destruct (turn s m) as [[s1|e] m1] eqn:E.
  - erewrite run_bind; [|exact E]. intros Ht. eapply rtc_l; [by apply step_turn|by apply IH].
  - by erewrite run_raise; [|exact E].
Qed.


(** ** Starvation *)

(** Marked full, with nothing in a batch. *)
Definition starving s : Prop :=
  batch_is_full s = true ∧ reqs (running_batch s) = [] ∧ match last_batch s with Some (New _) => False | _ => True end.

Lemma starving_turn s m : sched_ok s m → starving s →
  turn s m = (Ok (set_last_batch None (set_new_token_ratio (init_new_token_ratio cf) s)), m).
Proof.
  intros (CM & _ & _ & L & own & MO) (Hf & Hr & Hl). unfold event_loop_turn, get_next_batch_to_run, stash_chunked.
  pose proof (cm_chunked _ CM) as Hc. rewrite Hc.
  assert (Hmem : check_memory cf m = (Ok tt, m)).
  { eapply check_memory_ok; [apply (so_config _ _ SO)|]. rewrite (open_empty _ Hr) in MO. unfold last_holders in MO.
    destruct (last_batch s) as [[nb|]|]; [done|exact MO..]. }
  assert (Es : set_chunked_req None s = s) by (destruct s; simpl in Hc; by rewrite Hc).
  assert (Hm : merge_last s = Ok s) by (unfold merge_last; by destruct (last_batch s) as [[nb|]|]).
  assert (Hp : get_new_batch_prefill clock tuple_hash shuffle oob undef uninit order cf s m = (Ok (s, None), m)).
  { unfold get_new_batch_prefill. rewrite Hf, Hc, (bool_decide_eq_true_2 (@None Req = None)); done. }
  erewrite (run_bind _ _ _ (s, None)).
  2:{ erewrite run_bind; [|done]. rewrite Es. erewrite run_bind; [|unfold on_result; by rewrite Hm]. erewrite run_bind; [|exact Hp].
      unfold is_empty. by rewrite Hr. }
  by erewrite run_bind; [|exact Hmem].
Qed.

(** Every request of the queue is as it was, or has no token. *)
Definition unserved (q q' : list Req) : Prop := ∀ r, r ∈ q' → r ∈ q ∨ output_ids r = [].

Lemma starving_step s m s' m' : sched_ok s m → starving s → sched_step (s, m) (s', m') →
  starving s' ∧ unserved (waiting_queue s) (waiting_queue s').
Proof.
  intros OK ST Hst. pose proof ST as (Hf & Hr & Hl). inversion Hst as [i s0 m0 Hfr Hrej|prefix s0 m0|s0 m0 s1 m1 Ht]; subst.
  - destruct (handle_ok (lim := lim) cf i s (so_limits _ _ SO) Hfr) as (r & -> & _ & Ha). rewrite Hrej in Ha.
    destruct Ha as (_ & _ & _ & Ho & _). split; [done|]. intros x [Hx|Hx]%elem_of_app; [by left|right].
    by apply list_elem_of_singleton in Hx as ->.
  - unfold abort_request. change (last_batch (set_chunked_req _ _)) with (last_batch s).
    assert (Hq : unserved (waiting_queue s) (filter (λ r, startswith prefix (rid r) = false) (waiting_queue s))).
    { intros x [_ Hx]%list_elem_of_filter. by left. }
    destruct (last_batch s) as [[nb|]|] eqn:El; [done|..]; (split; [|exact Hq]); (split; [exact Hf|split; [by simpl; rewrite Hr|by simpl; rewrite El]]).
  - rewrite (starving_turn s m OK ST) in Ht. injection Ht as <- <-. split; [done|]. intros x Hx. by left.
Qed.

(** C4: A scheduler that is marked full while nothing is in a batch starves: whatever requests
    come or are aborted and however many turns pass, it stays so, and no request of the queue
    ever gets a token. *)
Theorem starving_forever s m s' m' : sched_ok s m → starving s → rtc sched_step (s, m) (s', m') →
  starving s' ∧ unserved (waiting_queue s) (waiting_queue s').
Proof.
  intros OK ST Hrtc.
  assert (Hind : ∀ x y, rtc sched_step x y → sched_ok x.1 x.2 → starving x.1 →
    starving y.1 ∧ unserved (waiting_queue x.1) (waiting_queue y.1)).
  { induction 1 as [|[s1 m1] [s2 m2] z Hs _ IH]; intros OK1 ST1; [split; [done|by left]|].
    destruct (starving_step s1 m1 s2 m2 OK1 ST1 Hs) as [ST2 H2].
    destruct IH as [ST3 H3]; [by eapply step_ok; try apply SO|done|]. split; [done|].
    intros r Hr. destruct (H3 r Hr) as [H4|?]; [|by right]. by apply H2. }
  exact (Hind _ _ Hrtc OK ST).
Qed.
End server.
(** [handle_generate_request] puts exactly one request at the end of the queue. When the
    session does not exist, the prompt with its images is too long and may not be cut, or the
    log-probabilities are to start behind the prompt, the request is already finished with an
    error. Otherwise it has the prompt, cut to the limit, and may take the smaller of its
    [max_new_tokens] (2^30 when it has none) and what its row still holds, which is not negative. *)
Theorem handle_generate_request_correct i s : limits_ok cf (lim := lim) → fresh (in_req i) →
  ∃ r, handle_generate_request cf i s = set_waiting_queue (waiting_queue s ++ [r]) s ∧ rid r = rid (in_req i) ∧
    if rejects cf i then finished r = true else accepted_as cf (lim := lim) (expanded i) r.
Proof. exact (handle_ok cf i s). Qed.
End reach.
