(* ===== verification/SchedExamples.v ===== *)
(** * The scheduler at work

    A server with 14 slots and two requests of one token that ask for ten more: instances of
    the theorems on [src/python/sglang/srt/managers/scheduler.py], and a run in which a
    retracted request is never served again. *)

From S2P Require Import Prelude PyStr PySort Sampling HeapQ Radix RadixTree RadixInv RadixThms RadixLive Alloc PagedAlloc Req RadixStore SchedulePolicy PrefillAdder Penalty SamplingBatch BatchMem ReqTable ScheduleBatch BatchSteps Retract Scheduler SchedMem SchedMemBatch SchedBatch SchedAdmit SchedResults SchedTurn SchedLoop SchedLive SchedArrive.
From Stdlib Require Import QArith Qminmax.
Close Scope Q_scope.
Open Scope nat_scope.

Notation ExInfo := (SamplingBatchInfo (F := Z)).

Definition ex_config : Config :=
  MkConfig 2 100 None false false false 1 FCFS 1 (1 # 10) (1 # 100) (1 # 100) false 14 12 6 false.

Definition ex_request (name : pystr) (t mx : Z) : Req :=
  let r := ex_pen_req 0 0 0 in
  MkReq name [t] [t] [] [] (set_max_new_tokens (Some mx) (sampling_params r)) false 0 (eos_token_ids r) (Some ex_tokenizer)
    None None false None None None [] None [] 0 0 None 0 false None None 0 0 0 false 0 None false.

Definition ex_input (name : pystr) (t mx : Z) : GenerateReq := MkGenerateReq (ex_request name t mx) false None (-1).

Definition ex_forward (b : Batch (SI := ExInfo)) : list Z := replicate (length (reqs b)) 3%Z.
Definition ex_turn : Sched (SI := ExInfo) → M Pools Sched :=
  event_loop_turn ex_clock ex_hash id id id id (λ _, []) (λ _ g, g) ex_forward ex_config.
Definition ex_turns : nat → Sched (SI := ExInfo) → M Pools Sched :=
  turns ex_clock ex_hash id id id id (λ _, []) (λ _ g, g) ex_forward (cf := ex_config).

Lemma ex_server : server_ok id ex_forward (cf := ex_config) (N := 14) (stride := 16) (lim := 11) 2 16.
Proof.
  split; try done.
  - intros b. unfold ex_forward. rewrite length_replicate. split; [done|]. apply Forall_replicate. by split.
  - lia.
Qed.

Lemma ex_fresh name t mx : (0 ≤ mx)%Z → fresh (SI := ExInfo) (ex_request name t mx).
Proof.
  intros Hmx. split; try done; [|by intros mx' [= <-]]. intros mx'. split; [|by intros x ?%elem_of_nil].
  exists ex_tokenizer. split; [done|]. intros x. change (x ∈ [7; 0] → token_in 8 x)%Z.
  unfold token_in. intros [ ->|[ ->|?%elem_of_nil]%elem_of_cons]%elem_of_cons; [lia..|done].
Qed.

Definition ex_start : Sched (SI := ExInfo) := new_Sched ex_clock (cf := ex_config).
Definition ex_pools : Pools := new_Pools ex_clock 2 16 14 false.
Definition ex_asked (mx : Z) : Sched (SI := ExInfo) := handle_generate_request ex_config (ex_input [1]%Z 1 mx) ex_start.

Local Notation ex_ok := (sched_ok (cf := ex_config) (N := 14) (stride := 16) (lim := 11)).
Local Notation ex_step := (sched_step ex_clock ex_hash id id id id (λ _, []) (λ _ g, g) ex_forward (cf := ex_config)).

Lemma ex_asked_step mx : (0 ≤ mx)%Z → ex_step (ex_start, ex_pools) (ex_asked mx, ex_pools).
Proof. intros Hmx. apply step_generate; [by apply ex_fresh|by vm_compute]. Qed.

Lemma ex_asked_ok mx : (0 ≤ mx)%Z → ex_ok (ex_asked mx) ex_pools.
Proof.
  intros Hmx. eapply (server_reach_ok _ _ _ _ _ _ _ _ _ ex_server false). by apply rtc_once, ex_asked_step.
Qed.

(** A turn with one request in the queue: it is in a batch and has its first token. *)
Lemma event_loop_turn_correct_witness : ∃ s' m' rest run run',
  ex_turn (ex_asked 10) ex_pools = (Ok s', m') ∧ ex_ok s' m' ∧ turned (ex_asked 10) s' rest run run' ∧
  waiting_queue s' = [] ∧ output_ids <$> (last_holders s').*1 = [[3%Z]].
Proof.
  destruct (event_loop_turn_correct ex_clock ex_hash id id id id (λ _, []) (λ _ g, g) ex_forward
    (so_config _ _ _ _ ex_server) (so_shuffle _ _ _ _ ex_server) (so_forward _ _ _ _ ex_server) _ _ (ex_asked_ok 10 ltac:(lia)))
    as (s' & m' & rest & run & run' & E & OK & HT).
  exists s', m', rest, run, run'. split; [exact E|]. split; [exact OK|]. split; [exact HT|].
  vm_compute in E. injection E as <- <-. by vm_compute.
Defined.

(** Three tokens to come: six turns are enough. *)
Lemma every_request_finishes_witness : ∃ s' m',
  ex_turns 6 (ex_asked 3) ex_pools = (Ok s', m') ∧ ex_ok s' m' ∧ open_reqs s' = [].
Proof.
  apply (every_request_finishes ex_clock ex_hash id id id id (λ _, []) (λ _ g, g) ex_forward
    (so_config _ _ _ _ ex_server) (so_shuffle _ _ _ _ ex_server) (so_forward _ _ _ _ ex_server) (ex_asked 3) ex_pools 6).
  - split; [done|simpl; lia].
  - by apply ex_asked_ok.
  - by vm_compute.
  - constructor; [|constructor]. exists 3%Z. by vm_compute.
  - by vm_compute.
Defined.


(** A prompt of seven tokens is one too long. *)
Lemma handle_generate_request_correct_witness : ∃ r,
  handle_generate_request ex_config (MkGenerateReq (ex_request [1]%Z 1 10) false (Some ([1; 1; 1; 1; 1; 1; 1]%Z, [])) (-1)) ex_start =
    set_waiting_queue [r] ex_start ∧ finished r = true.
Proof.
  destruct (handle_generate_request_correct (cf := ex_config) (lim := 11)
    (MkGenerateReq (ex_request [1]%Z 1 10) false (Some ([1; 1; 1; 1; 1; 1; 1]%Z, [])) (-1)) ex_start
    (so_limits _ _ _ _ ex_server) (ex_fresh [1]%Z 1 10 ltac:(lia))) as (r & E & _ & Hr).
  exists r. split; [exact E|]. exact Hr.
Defined.

(** ** Starvation after a retraction *)

(** A request, a turn, another request, and [k] turns. *)
Definition ex_second (s : Sched (SI := ExInfo)) : Sched := handle_generate_request ex_config (ex_input [2]%Z 2 10) s.
Definition ex_run (k : nat) : result (Sched (SI := ExInfo)) * Pools :=
  (s ← ex_turn (ex_asked 10); ex_turns k (ex_second s)) ex_pools.

Lemma ex_second_step s m : ex_step (s, m) (ex_second s, m).
Proof. apply step_generate; [by apply ex_fresh|by vm_compute]. Qed.

Lemma ex_run_ok k s m : ex_run k = (Ok s, m) → rtc ex_step (ex_start, ex_pools) (s, m).
Proof.
  assert (H1 : rtc ex_step (ex_start, ex_pools) (ex_asked 10, ex_pools)) by by apply rtc_once, ex_asked_step.
  unfold ex_run. revert H1. generalize (ex_asked 10) ex_pools. intros s0 m0 H1.
  destruct (ex_turn s0 m0) as [[s1|e] m1] eqn:E; [|by erewrite run_raise; [|exact E]].
  erewrite run_bind; [|exact E]. intros Ht. etransitivity; [exact H1|].
  eapply rtc_l; [exact (step_turn _ _ _ _ _ _ _ _ _ _ _ _ _ E)|].
  eapply rtc_l; [apply ex_second_step|]. eapply turns_rtc. exact Ht.
Qed.

(** The second request is retracted in the eighth turn with seven of its ten tokens; it is
    charged for ten more, does not fit any more, and starves. *)
Lemma starving_forever_witness : ∃ s m, ex_run 12 = (Ok s, m) ∧
  output_ids <$> waiting_queue s = [[3; 3; 3; 3; 3; 3; 3]%Z] ∧
  ∀ s' m', rtc ex_step (s, m) (s', m') → starving s' ∧ unserved (waiting_queue s) (waiting_queue s').
Proof.
  destruct (ex_run 12) as [[s|e] m] eqn:E; [|by vm_compute in E].
  pose proof (server_reach_ok _ _ _ _ _ _ _ _ _ ex_server false s m (ex_run_ok 12 s m E)) as OK.
  exists s, m. split; [done|]. assert (ST : output_ids <$> waiting_queue s = [[3; 3; 3; 3; 3; 3; 3]%Z] ∧ starving s).
  { clear OK. vm_compute in E. injection E as <- <-. by vm_compute. }
  destruct ST as [Hq ST]. split; [done|]. intros s' m'.
  apply (starving_forever ex_clock ex_hash id id id id (λ _, []) (λ _ g, g) ex_forward ex_server s m s' m' OK ST).
Defined.

(** ** Other surprises *)

(** A flush between the prefill of the only request and its first decode step drops it. *)
Lemma flush_drops_prefilled : ∃ s m s' m', ex_turn (ex_asked 10) ex_pools = (Ok s, m) ∧
  length (open_reqs s) = 1 ∧ flush_cache ex_clock s m = (Ok (true, s'), m') ∧ open_reqs s' = [].
Proof.
  destruct (ex_turn (ex_asked 10) ex_pools) as [[s|e] m] eqn:E; [|by vm_compute in E].
  vm_compute in E. injection E as <- <-. do 4 eexists. split; [reflexivity|]. by vm_compute.
Qed.

(** A request whose session does not exist and whose [max_new_tokens] is [None] ends the loop. *)
Lemma rejected_request_crashes :
  let r := ex_request [1]%Z 1 10 in
  let i := MkGenerateReq (set_sampling_params (set_max_new_tokens None (sampling_params r)) r) true None (-1) in
  fst (ex_turn (handle_generate_request ex_config i ex_start) ex_pools) = Raise TypeError.
Proof. by vm_compute. Qed.
