(* ===== verification/Grid.v ===== *)
(** * Launches of Triton kernels

    A kernel is a program of loads and stores on device memory; a launch runs one program for
    each [tl.program_id(0)] of the grid, and their loads and stores interleave in any way.
    This file gives programs, their interleavings, a Hoare logic of one program in which every
    address has at most one program that may write it, and the theorem that then every
    interleaving ends in the same memory. *)

From S2P Require Import Prelude.

Open Scope Z_scope.

(** ** Programs and memory *)

(** Device memory holds one value for each element of a tensor that exists; a load or a
    store elsewhere is stuck. Integer tensors have 32 bits. *)
Definition wrap32 (x : Z) : Z := (x + 2 ^ 31) `mod` 2 ^ 32 - 2 ^ 31.

Lemma wrap32_id x : - 2 ^ 31 ≤ x < 2 ^ 31 → wrap32 x = x.
Proof. intros. unfold wrap32. rewrite Z.mod_small; lia. Qed.

Section programs.
Context {addr Val : Type}.

Inductive prog (A : Type) : Type :=
  | Return (x : A)
  | Load (a : addr) (k : Val → prog A)
  | Store (a : addr) (v : Val) (k : prog A).
#[global] Arguments Return {A} _.
#[global] Arguments Load {A} _ _.
#[global] Arguments Store {A} _ _ _.

#[export] Instance prog_ret : MRet prog := @Return.
#[export] Instance prog_bind : MBind prog := λ A B f,
  fix go p := match p with
              | Return x => f x
              | Load a k => Load a (λ v, go (k v))
              | Store a v k => Store a v (go k)
              end.

Definition load (a : addr) : prog Val := Load a Return.
Definition put (a : addr) (v : Val) : prog unit := Store a v (Return tt).

(** [for i in xs], with the variables that the body assigns. *)
Fixpoint for_each {X S} (xs : list X) (body : X → S → prog S) (s : S) : prog S :=
  match xs with
  | [] => mret s
  | x :: xs => s ← body x s; for_each xs body s
  end.
End programs.

(** A store to an integer tensor. *)
Definition store {addr} (a : addr) (v : Z) : prog unit := put a (wrap32 v).

(** [range(lo, hi)] and [range(lo, hi, step)]. *)
Definition range (lo hi : Z) : list Z := (λ k, lo + Z.of_nat k) <$> seq 0 (Z.to_nat (hi - lo)).
Definition range_step (lo hi step : Z) : list Z :=
  (λ k, lo + Z.of_nat k * step) <$> seq 0 (Z.to_nat ((hi - lo + step - 1) `div` step)).

Lemma range_nil lo : range lo lo = [].
Proof. unfold range. by rewrite Z.sub_diag. Qed.

Lemma range_empty lo hi : hi ≤ lo → range lo hi = [].
Proof. intros. unfold range. by replace (Z.to_nat (hi - lo)) with 0%nat by lia. Qed.

Lemma range_snoc lo hi : lo ≤ hi → range lo (hi + 1) = range lo hi ++ [hi].
Proof.
  intros. unfold range. replace (Z.to_nat (hi + 1 - lo)) with (S (Z.to_nat (hi - lo))) by lia.
  rewrite seq_S, fmap_app. cbn [fmap list_fmap]. do 2 f_equal. lia.
Qed.

Lemma range_cons lo hi : lo < hi → range lo hi = lo :: range (lo + 1) hi.
Proof.
  intros. unfold range. replace (Z.to_nat (hi - lo)) with (S (Z.to_nat (hi - (lo + 1)))) by lia.
  cbn [seq fmap list_fmap]. f_equal; [lia|]. rewrite <- fmap_S_seq, <- list_fmap_compose.
  apply list_fmap_ext. intros. cbn. lia.
Qed.

Lemma range_length lo hi : length (range lo hi) = Z.to_nat (hi - lo).
Proof. unfold range. by rewrite length_fmap, length_seq. Qed.

Lemma lookup_range lo hi k x : range lo hi !! k = Some x → x = lo + Z.of_nat k ∧ x < hi.
Proof.
  unfold range. rewrite list_lookup_fmap. intros (j & Hj & ->)%fmap_Some.
  apply lookup_seq in Hj as [-> Hj]. lia.
Qed.

Lemma elem_of_range lo hi x : x ∈ range lo hi ↔ lo ≤ x < hi.
Proof.
  unfold range. rewrite list_elem_of_fmap. split.
  - intros (k & -> & Hk%elem_of_seq). lia.
  - intros. exists (Z.to_nat (x - lo)). rewrite elem_of_seq. lia.
Qed.

Lemma range_app lo mid hi : lo ≤ mid ≤ hi → range lo hi = range lo mid ++ range mid hi.
Proof.
  intros. unfold range. replace (Z.to_nat (hi - lo)) with (Z.to_nat (mid - lo) + Z.to_nat (hi - mid))%nat by lia.
  rewrite seq_app, fmap_app. f_equal. rewrite Nat.add_0_l, <- (Nat.add_0_r (Z.to_nat (mid - lo))), <- fmap_add_seq, <- list_fmap_compose.
  apply list_fmap_ext. intros. cbn. lia.
Qed.

(** ** One program alone, kept to the addresses it may use *)

Section memory.
Context {addr Val : Type} `{Countable addr}.

Notation mem := (gmap addr Val).
Notation prog := (prog (addr := addr) (Val := Val)).
Implicit Types (m : mem) (a : addr).

(** [own a = Some i]: only program [i] uses [a]; [None]: nobody writes [a]. *)
Fixpoint run_owned {A} (own : addr → option nat) (i : nat) (p : prog A) m : option (A * mem) :=
  match p with
  | Return x => Some (x, m)
  | Load a k =>
      if bool_decide (own a = Some i ∨ own a = None) then
        match m !! a with Some v => run_owned own i (k v) m | None => None end
      else None
  | Store a v k =>
      if bool_decide (own a = Some i) then
        match m !! a with Some _ => run_owned own i k (<[a := v]> m) | None => None end
      else None
  end.

(** Program [i] alone goes from [m] to a result and a memory with [Q], without a fault. *)
Definition wp {A} own i (p : prog A) m (Q : A → mem → Prop) : Prop :=
  ∃ x m', run_owned own i p m = Some (x, m') ∧ Q x m'.

Lemma run_owned_bind {A B} own i (p : prog A) (f : A → prog B) m :
  run_owned own i (p ≫= f) m = '(x, m') ← run_owned own i p m; run_owned own i (f x) m'.
Proof.
  revert m. induction p as [x|a k IH|a v k IH]; intros m; cbn -[bool_decide]; [done| |].
  - destruct (bool_decide _); [|done]. destruct (m !! a); [|done]. apply IH.
  - destruct (bool_decide _); [|done]. destruct (m !! a); [|done]. apply IH.
Qed.

Lemma wp_ret {A} own i (x : A) m (Q : A → mem → Prop) : Q x m → wp own i (mret x) m Q.
Proof. intros HQ. by exists x, m. Qed.

Lemma wp_bind {A B} own i (p : prog A) (f : A → prog B) m Q :
  wp own i p m (λ x m', wp own i (f x) m' Q) → wp own i (p ≫= f) m Q.
Proof.
  intros (x & m' & E & y & m2 & E2 & HQ). exists y, m2. by rewrite run_owned_bind, E.
Qed.

Lemma wp_weaken {A} own i (p : prog A) m (Q Q' : A → mem → Prop) :
  wp own i p m Q → (∀ x m', Q x m' → Q' x m') → wp own i p m Q'.
Proof. intros (x & m' & E & HQ) HQ'. exists x, m'. auto. Qed.

Lemma wp_load own i a m v (Q : Val → mem → Prop) :
  own a = Some i ∨ own a = None → m !! a = Some v → Q v m → wp own i (load a) m Q.
Proof.
  intros Ha E HQ. exists v, m. cbn -[bool_decide]. by rewrite bool_decide_eq_true_2, E.
Qed.

Lemma wp_put own i a v m (Q : unit → mem → Prop) :
  own a = Some i → is_Some (m !! a) → Q tt (<[a := v]> m) → wp own i (put a v) m Q.
Proof.
  intros Ha (w & E) HQ. exists tt, (<[a := v]> m). cbn -[bool_decide]. by rewrite bool_decide_eq_true_2, E.
Qed.

Lemma wp_for_fmap {S} own i (f : Z → Z) (I : Z → S → mem → Prop) lo hi body s m :
  lo ≤ hi → (∀ j s m, lo ≤ j < hi → I j s m → wp own i (body (f j) s) m (I (j + 1))) →
  I lo s m → wp own i (for_each (f <$> range lo hi) body s) m (I hi).
Proof.
  intros Hle. remember (Z.to_nat (hi - lo)) as n eqn:En. revert lo s m Hle En.
  induction n as [|n IH]; intros lo s m Hle En Hb HI.
  - assert (lo = hi) as -> by lia. rewrite range_nil. by apply wp_ret.
  - rewrite range_cons by lia. cbn [fmap list_fmap for_each]. apply wp_bind.
    eapply wp_weaken; [apply Hb; [lia|exact HI]|].
    intros s' m' HI'. apply IH; [lia..| |done]. intros j s2 m2 Hj. apply Hb. lia.
Qed.

Lemma wp_for {S} own i (I : Z → S → mem → Prop) lo hi body s m :
  lo ≤ hi → (∀ j s m, lo ≤ j < hi → I j s m → wp own i (body j s) m (I (j + 1))) →
  I lo s m → wp own i (for_each (range lo hi) body s) m (I hi).
Proof. intros. rewrite <- (list_fmap_id (range lo hi)). by apply wp_for_fmap. Qed.

Lemma wp_for_step {S} own i (I : Z → S → mem → Prop) lo n step body s m :
  0 < step → 0 ≤ n →
  (∀ j s m, 0 ≤ j < n → I j s m → wp own i (body (lo + j * step) s) m (I (j + 1))) →
  I 0 s m → wp own i (for_each (range_step lo (lo + n * step) step) body s) m (I n).
Proof.
  intros Hs Hn Hb HI.
  assert (range_step lo (lo + n * step) step = (λ k, lo + k * step) <$> range 0 n) as ->; [|by apply wp_for_fmap].
  unfold range_step, range. rewrite <- list_fmap_compose.
  replace ((lo + n * step - lo + step - 1) `div` step) with n; [by rewrite Z.sub_0_r|].
  replace (lo + n * step - lo + step - 1) with (step - 1 + n * step) by lia.
  by rewrite Z.div_add, Z.div_small by lia.
Qed.

(** ** The programs of a launch, interleaved *)

(** What program [i] can see: its own addresses, and those nobody writes. *)
Definition sees (own : addr → option nat) (i : nat) (a : addr) : Prop := own a = Some i ∨ own a = None.
Definition same_view (own : addr → option nat) (i : nat) m m' : Prop := ∀ a, sees own i a → m !! a = m' !! a.

Lemma run_owned_view {A} own i (p : prog A) m m' x n :
  same_view own i m m' → run_owned own i p m = Some (x, n) →
  ∃ n', run_owned own i p m' = Some (x, n') ∧ same_view own i n n'.
Proof.
  revert m m'. induction p as [y|a k IH|a v k IH]; intros m m' V E; cbn -[bool_decide] in *.
  - simplify_eq. by exists m'.
  - destruct (bool_decide _) eqn:B; [|done]. apply bool_decide_eq_true in B. rewrite <- (V a B).
    destruct (m !! a); [|done]. by eapply IH.
  - destruct (bool_decide _) eqn:B; [|done]. apply bool_decide_eq_true in B.
    rewrite <- (V a (or_introl B)). destruct (m !! a); [|done]. eapply IH, E.
    intros b Hb. destruct (decide (a = b)) as [->|]; [by rewrite !lookup_insert_eq|].
    rewrite !lookup_insert_ne by done. by apply V.
Qed.

Lemma run_owned_frame {A} own i (p : prog A) m x n :
  run_owned own i p m = Some (x, n) → dom n = dom m ∧ ∀ a, own a ≠ Some i → n !! a = m !! a.
Proof.
  revert m. induction p as [y|a k IH|a v k IH]; intros m E; cbn -[bool_decide] in *.
  - by simplify_eq.
  - destruct (bool_decide _); [|done]. destruct (m !! a); [|done]. by eapply IH.
  - destruct (bool_decide _) eqn:B; [|done]. apply bool_decide_eq_true in B.
    destruct (m !! a) as [w|] eqn:Ea; [|done]. apply IH in E as [D F]. split.
    + rewrite D, dom_insert_L. apply elem_of_dom_2 in Ea. set_solver.
    + intros b Hb. rewrite (F b Hb), lookup_insert_ne by congruence. done.
Qed.

(** One load or store of one of the programs. *)
Inductive gstep : list (prog unit) * mem → list (prog unit) * mem → Prop :=
  | gstep_load ps m i a k v : ps !! i = Some (Load a k) → m !! a = Some v → gstep (ps, m) (<[i := k v]> ps, m)
  | gstep_store ps m i a v k w :
      ps !! i = Some (Store a v k) → m !! a = Some w → gstep (ps, m) (<[i := k]> ps, <[a := v]> m).

(** Whatever the order, the launch of [ps] on [m] ends, without a fault, in [m']. *)
Record launches (ps : list (prog unit)) (m m' : mem) : Prop := {
  launch_ends : sn gstep (ps, m);
  launch_safe : ∀ qs n, rtc gstep (ps, m) (qs, n) →
    (∃ s, gstep (qs, n) s) ∨ (Forall (λ q, q = mret tt) qs ∧ n = m')
}.

(** ** Every interleaving ends in the same memory *)

(** A step, whatever a load reads. *)
Inductive pstep1 : prog unit → prog unit → Prop :=
  | pstep_load a k v : pstep1 (Load a k) (k v)
  | pstep_store a v k : pstep1 (Store a v k) k.
Definition pstep (ps qs : list (prog unit)) : Prop := ∃ i p q, ps !! i = Some p ∧ pstep1 p q ∧ qs = <[i := q]> ps.

Lemma sn_pstep ps : sn pstep ps.
Proof.
  induction ps as [|p ps IH].
  { constructor. intros qs (i & p & q & E & _). done. }
  revert ps IH. induction p as [x|a k IHk|a v k IHk]; intros ps IH; induction IH as [ps IH IHps];
    constructor; intros qs ([|i] & p & q & E & S1 & ->); cbn in E; simplify_eq/=;
    try (inversion S1; subst; apply IHk; by constructor);
    try (apply IHps; by exists i, p, q); inversion S1.
Qed.

Lemma gstep_pstep s s' : gstep s s' → pstep s.1 s'.1.
Proof. intros [ps m i a k v E _|ps m i a v k w E _]; cbn; eexists i, _, _; split_and!; try done; constructor. Qed.

Lemma sn_gstep ps m : sn gstep (ps, m).
Proof.
  pose proof (sn_pstep ps) as S. revert m. induction S as [ps _ IH]. intros m. constructor.
  intros [qs n] G. apply IH. exact (gstep_pstep _ _ G).
Qed.

Definition finished (p : prog unit) : bool := match p with Return _ => true | _ => false end.

Section launch.
Context (own : addr → option nat) (m0 : mem) (ms : list mem).

Record ginv (s : list (prog unit) * mem) : Prop := {
  gi_len : length s.1 = length ms;
  gi_run : ∀ i q mi, s.1 !! i = Some q → ms !! i = Some mi →
    ∃ n, run_owned own i q s.2 = Some (tt, n) ∧ same_view own i n mi;
  gi_dom : dom s.2 = dom m0;
  gi_rest : ∀ a, (∀ i, own a = Some i → length ms ≤ i)%nat → s.2 !! a = m0 !! a
}.

Lemma ginv_update ps m i p q m' :
  ginv (ps, m) → ps !! i = Some p →
  (∀ n, run_owned own i p m = Some (tt, n) → run_owned own i q m' = Some (tt, n) ∧
     dom m' = dom m ∧ ∀ a, own a ≠ Some i → m' !! a = m !! a) →
  ginv (<[i := q]> ps, m').
Proof.
  intros G Hi Hq. destruct G as [Gl Gr Gd Go]; cbn in *.
  assert (∃ mi, ms !! i = Some mi) as [mi Ei].
  { apply lookup_lt_is_Some_2. rewrite <- Gl. by eapply lookup_lt_Some. }
  destruct (Gr i p mi Hi Ei) as (n & R & V). destruct (Hq n R) as (R' & D & F).
  split; cbn; [by rewrite length_insert| |congruence|].
  - intros j q' mj Ej Em. destruct (decide (i = j)) as [<-|Hne].
    { rewrite list_lookup_insert_eq in Ej by (by eapply lookup_lt_Some). simplify_eq. by exists n. }
    rewrite list_lookup_insert_ne in Ej by done. destruct (Gr j q' mj Ej Em) as (nj & Rj & Vj).
    destruct (run_owned_view own j q' m m' tt nj) as (n2 & R2 & V2); [|done|].
    { intros a [Ha|Ha]; symmetry; apply F; congruence. }
    exists n2. split; [done|]. intros a Ha. rewrite <- (V2 a Ha). by apply Vj.
  - intros a Ha. rewrite F; [by apply Go|]. intros Hc. specialize (Ha i Hc).
    apply lookup_lt_Some in Ei. lia.
Qed.

Lemma ginv_step s s' : ginv s → gstep s s' → ginv s'.
Proof.
  intros G St. destruct St as [ps m i a k v Hi Ha|ps m i a v k w Hi Ha]; eapply ginv_update; try done;
    intros n R; cbn -[bool_decide] in R; destruct (bool_decide _) eqn:B; try done;
    rewrite Ha in R; apply bool_decide_eq_true in B.
  - done.
  - split_and!; [done| |].
    + rewrite dom_insert_L. apply elem_of_dom_2 in Ha. set_solver.
    + intros b Hb. apply lookup_insert_ne. congruence.
Qed.

Lemma ginv_progress ps m : ginv (ps, m) → (∃ s, gstep (ps, m) s) ∨ Forall (λ q, q = mret tt) ps.
Proof.
  intros [Gl Gr _ _]; cbn in *.
  destruct (decide (Forall (λ q, finished q = true) ps)) as [F|F].
  { right. eapply Forall_impl; [exact F|]. by intros [[]| |]. }
  left. apply not_Forall_Exists in F; [|apply _]. apply Exists_exists in F as (p & (i & Hi)%list_elem_of_lookup & Hp).
  assert (∃ mi, ms !! i = Some mi) as [mi Ei].
  { apply lookup_lt_is_Some_2. rewrite <- Gl. by eapply lookup_lt_Some. }
  destruct (Gr i p mi Hi Ei) as (n & R & _).
  destruct p as [x|a k|a v k]; [by destruct Hp| |]; cbn -[bool_decide] in R; destruct (bool_decide _); try done;
    destruct (m !! a) as [w|] eqn:Ea; try done; eexists; [by eapply gstep_load|by eapply gstep_store].
Qed.

Lemma ginv_final ps m : ginv (ps, m) → Forall (λ q, q = mret tt) ps → ∀ a i mi, ms !! i = Some mi →
  own a = Some i → m !! a = mi !! a.
Proof.
  intros [Gl Gr _ _] F a i mi Ei Ha; cbn in *.
  assert (∃ q, ps !! i = Some q) as [q Eq].
  { apply lookup_lt_is_Some_2. rewrite Gl. by eapply lookup_lt_Some. }
  destruct (Gr i q mi Eq Ei) as (n & R & V).
  rewrite Forall_lookup in F. rewrite (F i q Eq) in R. cbn in R. simplify_eq. apply V. by left.
Qed.

Lemma ginv_end s : ginv s → sn gstep s → ∃ s', rtc gstep s s' ∧ Forall (λ q, q = mret tt) s'.1.
Proof.
  intros G S. induction S as [[ps m] _ IH]. destruct (ginv_progress ps m G) as [(s' & St)|F]; [|exists (ps, m); split; [apply rtc_refl|exact F]].
  destruct (IH s' St (ginv_step _ _ G St)) as (s2 & R & F). exists s2. split; [by eapply rtc_l|done].
Qed.

(** A launch whose programs, run alone, keep to their addresses and end in [ms]. *)
Lemma launch_alone ps :
  length ps = length ms →
  (∀ i p mi, ps !! i = Some p → ms !! i = Some mi → run_owned own i p m0 = Some (tt, mi)) →
  ∃ m', launches ps m0 m' ∧ dom m' = dom m0 ∧
    (∀ a, (∀ i, own a = Some i → length ms ≤ i)%nat → m' !! a = m0 !! a) ∧
    (∀ a i mi, ms !! i = Some mi → own a = Some i → m' !! a = mi !! a).
Proof.
  intros Hl Hrun.
  assert (ginv (ps, m0)) as G0.
  { split; try done. cbn. intros i q mi Hi Ei. exists mi. split; [by eapply Hrun|done]. }
  assert (∀ s, rtc gstep (ps, m0) s → ginv s) as Ginv.
  { intros s R. revert G0. induction R; eauto using ginv_step. }
  destruct (ginv_end (ps, m0) G0 (sn_gstep ps m0)) as ([fs fm] & Rf & Ff). cbn in Ff.
  assert (ginv (fs, fm)) as Gf by by apply Ginv.
  exists fm. split_and!; [|apply (gi_dom _ Gf)|apply (gi_rest _ Gf)|intros a i mi; by eapply ginv_final].
  split; [apply sn_gstep|]. intros qs n Rn. destruct (ginv_progress qs n (Ginv _ Rn)) as [|Fq]; [by left|].
  right. split; [done|]. apply map_eq. intros a.
  destruct (own a ≫= λ i, ms !! i) as [mi|] eqn:Ei.
  - apply bind_Some in Ei as (i & Ea & Ei).
    by rewrite (ginv_final _ _ (Ginv _ Rn) Fq a i mi Ei Ea), (ginv_final _ _ Gf Ff a i mi Ei Ea).
  - assert (∀ i, own a = Some i → (length ms ≤ i)%nat) as Hno.
    { intros i Ea. rewrite Ea in Ei. by apply lookup_ge_None. }
    etransitivity; [apply (gi_rest _ (Ginv _ Rn) a Hno)|symmetry; apply (gi_rest _ Gf a Hno)].
Qed.
End launch.

Lemma launches_unique ps m m1 m2 : launches ps m m1 → launches ps m m2 → m1 = m2.
Proof.
  intros [S1 H1] [_ H2].
  assert (∃ qs n, rtc gstep (ps, m) (qs, n) ∧ Forall (λ q, q = mret tt) qs ∧ n = m1) as (qs & n & R & F & ->).
  { assert (∀ s, sn gstep s → rtc gstep (ps, m) s → ∃ qs n, rtc gstep s (qs, n) ∧ Forall (λ q, q = mret tt) qs ∧ n = m1) as X.
    { intros s S. induction S as [[qs n] _ IH]. intros R. destruct (H1 qs n R) as [(s' & St)|[F ->]]; [|by eexists _, _].
      destruct (IH s' St (rtc_r _ _ _ R St)) as (qs' & n' & R' & F & ->). eexists _, _. split; [by eapply rtc_l|done]. }
    by apply X. }
  destruct (H2 qs m1 R) as [(s & St)|[_ ->]]; [|done]. exfalso.
  inversion St as [? ? i a k v Hi|? ? i a v k w Hi]; subst; rewrite Forall_lookup in F; by specialize (F _ _ Hi).
Qed.

(** The same with a postcondition for each program, about what it can see. *)
Lemma launch_wp own ps m0 (Q : nat → mem → Prop) :
  (∀ a i, own a = Some i → (i < length ps)%nat) →
  (∀ i p, ps !! i = Some p → wp own i p m0 (λ _, Q i)) →
  (∀ i m m', (i < length ps)%nat → same_view own i m m' → Q i m → Q i m') →
  ∃ m', launches ps m0 m' ∧ dom m' = dom m0 ∧ (∀ a, own a = None → m' !! a = m0 !! a) ∧
    ∀ i, (i < length ps)%nat → Q i m'.
Proof.
  intros Hown Hps Hstable.
  set (ms := imap (λ i p, match run_owned own i p m0 with Some (_, mi) => mi | None => m0 end) ps).
  assert (∀ i p, ps !! i = Some p → ∃ mi, ms !! i = Some mi ∧ run_owned own i p m0 = Some (tt, mi) ∧ Q i mi) as Hms.
  { intros i p Hi. destruct (Hps i p Hi) as ([] & mi & R & HQ). exists mi.
    unfold ms. by rewrite list_lookup_imap, Hi; cbn; rewrite R. }
  destruct (launch_alone own m0 ms ps) as (m' & L & D & Frame & Own).
  { by unfold ms; rewrite length_imap. }
  { intros i p mi Hi Ei. destruct (Hms i p Hi) as (? & ? & R & _). congruence. }
  exists m'. split_and!; [done..| |].
  - intros a Ha. apply Frame. intros i. congruence.
  - intros i Hi. apply lookup_lt_is_Some_2 in Hi as [p Hi]. destruct (Hms i p Hi) as (mi & Ei & R & HQ).
    eapply Hstable, HQ; [by eapply lookup_lt_Some|]. intros a [Ha|Ha]; symmetry; [by eapply Own|].
    rewrite Frame by (intros ?; congruence). symmetry. apply (run_owned_frame _ _ _ _ _ _ R). congruence.
Qed.
End memory.

Lemma wp_store {addr} `{Countable addr} own i (a : addr) v (m : gmap addr Z) Q :
  own a = Some i → is_Some (m !! a) → Q tt (<[a := wrap32 v]> m) → wp own i (store a v) m Q.
Proof. apply wp_put. Qed.

(** ** One program after the other *)

Section sequential.
Context {addr Val : Type} `{Countable addr}.
Notation mem := (gmap addr Val).
Notation prog := (prog (addr := addr) (Val := Val)).

Fixpoint run_prog {A} (p : prog A) (m : mem) : option (A * mem) :=
  match p with
  | Return x => Some (x, m)
  | Load a k => match m !! a with Some v => run_prog (k v) m | None => None end
  | Store a v k => match m !! a with Some _ => run_prog k (<[a := v]> m) | None => None end
  end.

Fixpoint run_launch (ps : list (prog unit)) (m : mem) : option mem :=
  match ps with
  | [] => Some m
  | p :: ps => match run_prog p m with Some (_, m') => run_launch ps m' | None => None end
  end.

(** A program waiting for an address that does not exist waits for ever. *)
Definition faulty (p : prog unit) (m : mem) : Prop :=
  match p with Return _ => False | Load a _ => m !! a = None | Store a _ _ => m !! a = None end.

Lemma gstep_faulty ps m qs m' i p : gstep (ps, m) (qs, m') → ps !! i = Some p → faulty p m →
  qs !! i = Some p ∧ faulty p m'.
Proof.
  intros St Hi Hf. inversion St as [? ? j a k v Hj Ha|? ? j a v k w Hj Ha]; subst.
  - split; [|done]. rewrite list_lookup_insert_ne; [done|]. intros ->. rewrite Hj in Hi. injection Hi as <-. cbn in Hf. congruence.
  - assert (j ≠ i) as Hne. { intros ->. rewrite Hj in Hi. injection Hi as <-. cbn in Hf. congruence. }
    split; [by rewrite list_lookup_insert_ne|]. destruct p as [x|b k'|b v' k']; cbn in *; [done| |];
      rewrite lookup_insert_ne; (done || intros ->; congruence).
Qed.

Lemma launches_no_fault ps m m' qs n i p : launches ps m m' → rtc gstep (ps, m) (qs, n) → qs !! i = Some p → ¬ faulty p n.
Proof.
  intros [S Hs] R. assert (sn gstep (qs, n)) as S'.
  { clear Hs. revert S. remember (ps, m) as s0 eqn:E0. clear E0. remember (qs, n) as s1. clear Heqs1.
    induction R as [|? ? ? St R IH]; [done|]. intros [S]. apply IH. by apply S. }
  remember (qs, n) as s eqn:Es. revert qs n Es R. induction S' as [s _ IH]. intros qs n -> R Hi Hf.
  destruct (Hs qs n R) as [([qs' n'] & St)|[F _]].
  - destruct (gstep_faulty _ _ _ _ _ _ St Hi Hf) as [Hi' Hf']. eapply (IH _ St _ _ eq_refl); [by eapply rtc_r|done..].
  - rewrite Forall_lookup in F. rewrite (F _ _ Hi) in Hf. done.
Qed.

(** Running program [i] to its end is a run of the launch. *)
Lemma run_prog_steps ps0 m0 m' i p : launches ps0 m0 m' → ∀ ps m, rtc gstep (ps0, m0) (ps, m) → ps !! i = Some p →
  ∃ m1, run_prog p m = Some (tt, m1) ∧ rtc gstep (ps0, m0) (<[i := mret tt]> ps, m1).
Proof.
  intros L. induction p as [[]|a k IH|a v k IH]; intros ps m R Hi.
  - exists m. split; [done|]. rewrite list_insert_id by done. done.
  - destruct (m !! a) as [v|] eqn:Ea; [|by destruct (launches_no_fault _ _ _ _ _ _ _ L R Hi)].
    destruct (IH v (<[i := k v]> ps) m) as (m1 & E & R1).
    { eapply rtc_r; [exact R|]. by eapply gstep_load. }
    { apply list_lookup_insert_eq. by eapply lookup_lt_Some. }
    rewrite list_insert_insert_eq in R1. exists m1. cbn. by rewrite Ea.
  - destruct (m !! a) as [w|] eqn:Ea; [|by destruct (launches_no_fault _ _ _ _ _ _ _ L R Hi)].
    destruct (IH (<[i := k]> ps) (<[a := v]> m)) as (m1 & E & R1).
    { eapply rtc_r; [exact R|]. by eapply gstep_store. }
    { apply list_lookup_insert_eq. by eapply lookup_lt_Some. }
    rewrite list_insert_insert_eq in R1. exists m1. cbn. by rewrite Ea.
Qed.

(** So it ends in the memory that every interleaving ends in. *)
Lemma run_launch_any ps m m' : launches ps m m' → run_launch ps m = Some m'.
Proof.
  intros L.
  assert (∀ qs done n, rtc gstep (ps, m) (done ++ qs, n) → Forall (λ q, q = mret tt) done → run_launch qs n = Some m') as X.
  { induction qs as [|q qs IH]; intros dn n R F.
    - rewrite app_nil_r in R. destruct (launch_safe _ _ _ L dn n R) as [([qs' n'] & St)|[_ ->]]; [|done].
      exfalso. inversion St as [? ? i a k v Hi|? ? i a v k w Hi]; subst; rewrite Forall_lookup in F; by specialize (F _ _ Hi).
    - destruct (run_prog_steps ps m m' (length dn) q L _ _ R) as (m1 & E & R1).
      { by rewrite list_lookup_middle. }
      cbn [run_launch]. rewrite E. apply (IH (dn ++ [mret tt])).
      + rewrite insert_app_r_alt, Nat.sub_diag in R1 by done. cbn in R1. by rewrite <- app_assoc.
      + apply Forall_app. split; [done|by repeat constructor]. }
  apply (X ps [] m); [apply rtc_refl|constructor].
Qed.
End sequential.
