(* ===== verification/MoeAlign.v ===== *)
(** * Sorting the tokens of a mixture-of-experts layer by expert

    [moe_align_block_size] of [src/python/sglang/srt/layers/moe/fused_moe_triton/fused_moe.py]
    and its four Triton kernels. Every expert's tokens are padded to whole blocks, so that one
    block of the matrix product has one expert. *)

From S2P Require Import Prelude Grid.

Open Scope Z_scope.

(** ** The kernels *)

(** The tensors the kernels get. *)
Inductive buffer :=
  | topk_ids_ptr | tokens_cnts_ptr | cumsum_ptr
  | sorted_token_ids_ptr | expert_ids_ptr | total_tokens_post_pad_ptr.

#[export] Instance buffer_eq_dec : EqDecision buffer.
Proof. solve_decision. Defined.
#[export] Instance buffer_countable : Countable buffer.
Proof.
  refine (inj_countable'
    (λ b, match b with topk_ids_ptr => 0 | tokens_cnts_ptr => 1 | cumsum_ptr => 2 | sorted_token_ids_ptr => 3
          | expert_ids_ptr => 4 | total_tokens_post_pad_ptr => 5 end)%nat
    (λ n, match n with 0 => topk_ids_ptr | 1 => tokens_cnts_ptr | 2 => cumsum_ptr | 3 => sorted_token_ids_ptr
          | 4 => expert_ids_ptr | _ => total_tokens_post_pad_ptr end)%nat _).
  by intros [].
Defined.

Notation addr := (buffer * Z)%type.
Notation mem := (gmap addr Z).

Definition cdiv (x n : Z) : Z := (x + n - 1) `div` n.
Definition ceil_div (a b : Z) : Z := (a + b - 1) `div` b.

Section kernels.
Context (num_experts numel block_size tokens_per_thread : Z).

Definition moe_align_block_size_stage1 (pid : Z) : prog (addr := addr) (Val := Z) unit :=
  let start_idx := wrap32 (pid * tokens_per_thread) in
  let off_c := wrap32 ((pid + 1) * num_experts) in
  for_each (range 0 tokens_per_thread) (λ i _,
    if decide (start_idx + i < numel) then
      idx ← load (topk_ids_ptr, start_idx + i);
      token_cnt ← load (tokens_cnts_ptr, off_c + idx);
      store (tokens_cnts_ptr, off_c + idx) (token_cnt + 1)
    else mret tt) tt.

Definition moe_align_block_size_stage2 (pid : Z) : prog (addr := addr) (Val := Z) unit :=
  _ ← for_each (range 1 (num_experts + 1)) (λ i last_cnt,
    token_cnt ← load (tokens_cnts_ptr, wrap32 (i * num_experts) + pid);
    let last_cnt := wrap32 (last_cnt + token_cnt) in
    _ ← store (tokens_cnts_ptr, wrap32 (i * num_experts) + pid) last_cnt;
    mret last_cnt) 0;
  mret tt.

Definition moe_align_block_size_stage3 : prog (addr := addr) (Val := Z) unit :=
  let off_cnt := wrap32 (num_experts * num_experts) in
  last_cumsum ← for_each (range 1 (num_experts + 1)) (λ i last_cumsum,
    token_cnt ← load (tokens_cnts_ptr, off_cnt + i - 1);
    let last_cumsum := wrap32 (last_cumsum + cdiv token_cnt block_size * block_size) in
    _ ← store (cumsum_ptr, i) last_cumsum;
    mret last_cumsum) 0;
  store (total_tokens_post_pad_ptr, 0) last_cumsum.

Definition moe_align_block_size_stage4 (pid : Z) : prog (addr := addr) (Val := Z) unit :=
  start_idx ← load (cumsum_ptr, pid);
  end_idx ← load (cumsum_ptr, pid + 1);
  _ ← for_each (range_step start_idx end_idx block_size) (λ i _,
    store (expert_ids_ptr, i `div` block_size) pid) tt;
  let start_idx := wrap32 (pid * tokens_per_thread) in
  let off_t := wrap32 (pid * num_experts) in
  for_each (range start_idx (Z.min (wrap32 (start_idx + tokens_per_thread)) numel)) (λ i _,
    expert_id ← load (topk_ids_ptr, i);
    token_cnt ← load (tokens_cnts_ptr, off_t + expert_id);
    start ← load (cumsum_ptr, expert_id);
    let rank_post_pad := wrap32 (token_cnt + start) in
    _ ← store (sorted_token_ids_ptr, rank_post_pad) i;
    store (tokens_cnts_ptr, off_t + expert_id) (token_cnt + 1)) tt.
End kernels.

(** ** The host's side *)

(** [kernel[(n,)](..)]. *)
Definition grid (n : Z) (kernel : Z → prog (addr := addr) (Val := Z) unit) : list (prog unit) := kernel <$> range 0 n.

(** A tensor's elements in memory. *)
Definition tensor (b : buffer) (xs : list Z) : mem :=
  list_to_map (imap (λ k v, ((b, Z.of_nat k), v)) xs).

Definition moe_align_block_size_triton (topk_ids : list Z) (num_experts block_size : Z)
    (sorted_token_ids expert_ids num_tokens_post_pad : list Z) (m' : mem) : Prop :=
  let numel := Z.of_nat (length topk_ids) in
  let tokens_cnts := replicate (Z.to_nat ((num_experts + 1) * num_experts)) 0 in
  let cumsum := replicate (Z.to_nat (num_experts + 1)) 0 in
  let tokens_per_thread := ceil_div numel num_experts in
  let m := tensor topk_ids_ptr topk_ids ∪ tensor sorted_token_ids_ptr sorted_token_ids
           ∪ tensor expert_ids_ptr expert_ids ∪ tensor total_tokens_post_pad_ptr num_tokens_post_pad
           ∪ tensor tokens_cnts_ptr tokens_cnts ∪ tensor cumsum_ptr cumsum in
  ∃ m1 m2 m3,
    launches (grid num_experts (moe_align_block_size_stage1 num_experts numel tokens_per_thread)) m m1 ∧
    launches (grid num_experts (moe_align_block_size_stage2 num_experts)) m1 m2 ∧
    launches [moe_align_block_size_stage3 num_experts block_size] m2 m3 ∧
    launches (grid num_experts (moe_align_block_size_stage4 num_experts numel block_size tokens_per_thread)) m3 m'.

(** The tensor [b] holds [xs]. *)
Definition holds (m : mem) (b : buffer) (xs : list Z) : Prop :=
  ∀ k, m !! (b, Z.of_nat k) = xs !! k.

(** [moe_align_block_size] with [enable_moe_align_block_size_triton]; [uninit] is what
    [torch.empty] leaves in the two tensors that are not filled. *)
Definition moe_align_block_size (uninit : buffer → nat → list Z) (topk_ids : list Z)
    (block_size num_experts : Z) (result : list Z * list Z * list Z) : Prop :=
  let numel := Z.of_nat (length topk_ids) in
  let max_num_tokens_padded := numel + num_experts * (block_size - 1) in
  let sorted_ids := replicate (Z.to_nat max_num_tokens_padded) numel in
  let max_num_m_blocks := cdiv max_num_tokens_padded block_size in
  let expert_ids := uninit expert_ids_ptr (Z.to_nat max_num_m_blocks) in
  let num_tokens_post_pad := uninit total_tokens_post_pad_ptr 1%nat in
  ∃ m', moe_align_block_size_triton topk_ids num_experts block_size sorted_ids expert_ids num_tokens_post_pad m' ∧
    holds m' sorted_token_ids_ptr result.1.1 ∧ holds m' expert_ids_ptr result.1.2 ∧
    holds m' total_tokens_post_pad_ptr result.2.

(** ** What the result is *)

Section reference.
Context (topk_ids : list Z) (num_experts block_size : Z).

(** The tokens of expert [e], in order, and their number before position [k]. *)
Definition tokens_of (e : Z) : list Z :=
  filter (λ j, topk_ids !! Z.to_nat j = Some e) (range 0 (Z.of_nat (length topk_ids))).
Definition count_before (e k : Z) : Z :=
  Z.of_nat (length (filter (λ x, x = e) (take (Z.to_nat k) topk_ids))).
Definition count (e : Z) : Z := count_before e (Z.of_nat (length topk_ids)).

Definition padded (e : Z) : Z := cdiv (count e) block_size * block_size.
Definition first_slot (e : Z) : Z := zsum padded (range 0 e).

(** The tokens of each expert, each list filled up to whole blocks with the number of
    tokens, and the experts of the blocks. *)
Definition padded_tokens (e : Z) : list Z :=
  tokens_of e ++ replicate (Z.to_nat (padded e - count e)) (Z.of_nat (length topk_ids)).
Definition sorted_tokens : list Z := concat (padded_tokens <$> range 0 num_experts).
Definition block_experts : list Z :=
  concat ((λ e, replicate (Z.to_nat (padded e `div` block_size)) e) <$> range 0 num_experts).
End reference.

(** ** Counting *)

Lemma cdiv_mul x n : 0 < n → cdiv (x * n) n = x.
Proof.
  intros. unfold cdiv. replace (x * n + n - 1) with (n - 1 + x * n) by lia. by rewrite Z.div_add, Z.div_small by lia.
Qed.

Lemma blocks_bounds x n : 0 < n → x ≤ cdiv x n * n < x + n.
Proof.
  intros. unfold cdiv. pose proof (Z.div_mod (x + n - 1) n). pose proof (Z.mod_pos_bound (x + n - 1) n). lia.
Qed.

Lemma block_start q1 q2 b k n : 0 ≤ k < n → q1 * n ≤ b * n + k < q2 * n → q1 * n ≤ b * n < q2 * n.
Proof.
  intros Hk [H1 H2]. assert (q1 < b + 1) by (apply (Z.mul_lt_mono_pos_r n); lia). nia.
Qed.

(** The program that has token [j] when each has [n]. *)
Lemma part_of j n : 0 ≤ j → 0 < n → 0 ≤ j `div` n ∧ j `div` n * n ≤ j < (j `div` n + 1) * n.
Proof.
  intros. pose proof (Z.div_mod j n). pose proof (Z.mod_pos_bound j n). pose proof (Z.div_pos j n). lia.
Qed.

Section facts.
Context (topk_ids : list Z) (num_experts block_size : Z).
Notation numel := (Z.of_nat (length topk_ids)).
Notation count_before := (count_before topk_ids).
Notation count := (count topk_ids).
Notation padded := (padded topk_ids block_size).
Notation first_slot := (first_slot topk_ids block_size).
Context (Hn : 0 < num_experts) (Hb : 0 < block_size) (Hids : Forall (λ x, 0 ≤ x < num_experts) topk_ids).

Definition token (j : Z) : Z := nth (Z.to_nat j) topk_ids (-1).

Lemma token_lookup j : 0 ≤ j < numel → topk_ids !! Z.to_nat j = Some (token j).
Proof.
  intros. unfold token. destruct (lookup_lt_is_Some_2 topk_ids (Z.to_nat j)) as [x E]; [lia|].
  rewrite E. f_equal. symmetry. by apply nth_lookup_Some.
Qed.

Lemma token_range j : 0 ≤ j < numel → 0 ≤ token j < num_experts.
Proof. intros Hj. rewrite Forall_lookup in Hids. by eapply Hids, token_lookup. Qed.

Lemma count_before_0 e k : k ≤ 0 → count_before e k = 0.
Proof. intros. unfold MoeAlign.count_before. by replace (Z.to_nat k) with 0%nat by lia. Qed.

Lemma count_before_succ e j :
  0 ≤ j < numel → count_before e (j + 1) = count_before e j + if decide (token j = e) then 1 else 0.
Proof.
  intros Hj. unfold MoeAlign.count_before. replace (Z.to_nat (j + 1)) with (S (Z.to_nat j)) by lia.
  rewrite (take_S_r _ _ _ (token_lookup j Hj)), filter_app, length_app, filter_cons, filter_nil.
  destruct (decide _); cbn; lia.
Qed.

Lemma count_before_all e j : numel ≤ j → count_before e j = count e.
Proof. intros. unfold MoeAlign.count, MoeAlign.count_before. by rewrite !take_ge by lia. Qed.

Lemma count_before_mono e j k : j ≤ k → count_before e j ≤ count_before e k.
Proof.
  intros. unfold MoeAlign.count_before. apply inj_le.
  replace (take (Z.to_nat j) topk_ids) with (take (Z.to_nat j) (take (Z.to_nat k) topk_ids)).
  - rewrite <- (take_drop (Z.to_nat j) (take (Z.to_nat k) topk_ids)) at 2. rewrite filter_app, length_app. lia.
  - rewrite take_take. f_equal. lia.
Qed.

Lemma count_before_bound e j : 0 ≤ count_before e j ≤ numel.
Proof.
  unfold MoeAlign.count_before. pose proof (length_filter (λ x, x = e) (take (Z.to_nat j) topk_ids)).
  rewrite length_take in *. lia.
Qed.

Lemma count_before_lt e j : 0 ≤ j < numel → token j = e → count_before e j < count e.
Proof.
  intros Hj He. pose proof (count_before_succ e j Hj) as E. rewrite decide_True in E by done.
  pose proof (count_before_mono e (j + 1) numel). rewrite (count_before_all e numel) in *; lia.
Qed.

Lemma padded_count e : count e ≤ padded e < count e + block_size.
Proof. by apply blocks_bounds. Qed.

Lemma padded_blocks e : padded e = padded e `div` block_size * block_size.
Proof. unfold MoeAlign.padded. by rewrite Z.div_mul by lia. Qed.

Lemma first_slot_0 : first_slot 0 = 0.
Proof. done. Qed.

Lemma first_slot_succ e : 0 ≤ e → first_slot (e + 1) = first_slot e + padded e.
Proof. intros. unfold MoeAlign.first_slot. rewrite range_snoc by lia. rewrite zsum_app. cbn. lia. Qed.

Lemma padded_nonneg e : 0 ≤ padded e.
Proof. pose proof (padded_count e). pose proof (count_before_bound e numel). unfold MoeAlign.count in *. lia. Qed.

Lemma first_slot_mono e f : 0 ≤ e ≤ f → first_slot e ≤ first_slot f.
Proof.
  intros. unfold MoeAlign.first_slot. rewrite (range_app 0 e f), zsum_app by lia.
  pose proof (zsum_nonneg padded (range e f) (λ x _, padded_nonneg x)). lia.
Qed.

Lemma first_slot_blocks e : 0 ≤ e → first_slot e = first_slot e `div` block_size * block_size.
Proof.
  intros He. assert (∃ q, first_slot e = q * block_size) as (q & ->); [|by rewrite Z.div_mul by lia].
  revert He. apply (natlike_ind (λ e, ∃ q, first_slot e = q * block_size)); [by exists 0|].
  intros x Hx (q & E). exists (q + padded x `div` block_size). unfold Z.succ. rewrite first_slot_succ, E, padded_blocks at 1 by lia. lia.
Qed.

Lemma zsum_one x lo hi : lo ≤ hi → zsum (λ e, if decide (x = e) then 1 else 0) (range lo hi) = if decide (lo ≤ x < hi) then 1 else 0.
Proof.
  intros Hle. remember (Z.to_nat (hi - lo)) as n eqn:En. revert lo Hle En. induction n as [|n IH]; intros lo Hle En.
  - replace hi with lo by lia. rewrite range_nil, decide_False by lia. done.
  - rewrite range_cons by lia. cbn [zsum foldr fmap list_fmap]. rewrite IH by lia.
    repeat destruct (decide _); lia.
Qed.

Lemma counts_total k : 0 ≤ k ≤ numel → zsum (λ e, count_before e k) (range 0 num_experts) = k.
Proof.
  intros [Hk Hk2]. revert Hk2. pattern k. apply natlike_ind; [|intros j Hj IH Hj2|done].
  - intros _. apply zsum_zero. done.
  - unfold Z.succ in *. rewrite (zsum_ext _ (λ e, count_before e j + if decide (token j = e) then 1 else 0)).
    2:{ intros e _. by apply count_before_succ; lia. }
    assert (∀ (f g : Z → Z) xs, zsum (λ e, f e + g e) xs = zsum f xs + zsum g xs) as Hadd.
    { intros f g xs. induction xs as [|x xs IHx]; cbn; [done|]. cbn in IHx. lia. }
    rewrite Hadd, IH, zsum_one, decide_True by (pose proof (token_range j); lia). done.
Qed.

Lemma first_slot_bound : first_slot num_experts ≤ numel + num_experts * (block_size - 1).
Proof.
  unfold MoeAlign.first_slot.
  enough (zsum padded (range 0 num_experts) ≤ zsum (λ e, count_before e numel) (range 0 num_experts) + Z.of_nat (length (range 0 num_experts)) * (block_size - 1)) as E.
  { rewrite counts_total, range_length in E by lia. lia. }
  generalize (range 0 num_experts) as xs. induction xs as [|x xs IH]; [cbn; lia|].
  cbn [zsum foldr length]. pose proof (padded_count x) as P. unfold MoeAlign.count in P. cbn in *. lia.
Qed.

(** ** The slot of a token *)

Definition slot (j : Z) : Z := first_slot (token j) + count_before (token j) j.

Lemma slot_bounds j : 0 ≤ j < numel → first_slot (token j) ≤ slot j < first_slot (token j) + count (token j).
Proof. intros Hj. unfold slot. pose proof (count_before_lt _ j Hj eq_refl). pose proof (count_before_bound (token j) j). lia. Qed.

Lemma slot_lt i j : 0 ≤ i < numel → 0 ≤ j < numel → token i < token j → slot i < slot j.
Proof.
  intros Hi Hj Ht. pose proof (slot_bounds i Hi). pose proof (slot_bounds j Hj). pose proof (padded_count (token i)).
  pose proof (token_range i Hi). pose proof (first_slot_succ (token i)).
  pose proof (first_slot_mono (token i + 1) (token j)). lia.
Qed.

Lemma token_slot_inj i j : 0 ≤ i < numel → 0 ≤ j < numel → slot i = slot j → i = j.
Proof.
  intros Hi Hj E. destruct (Z.lt_trichotomy (token i) (token j)) as [L|[T|L]].
  - pose proof (slot_lt i j Hi Hj L). lia.
  - destruct (Z.lt_trichotomy i j) as [L|[|L]]; [|done|]; exfalso.
    + pose proof (count_before_succ (token i) i Hi) as S. rewrite decide_True in S by done.
      pose proof (count_before_mono (token i) (i + 1) j). unfold slot in E. rewrite T in *. lia.
    + pose proof (count_before_succ (token j) j Hj) as S. rewrite decide_True in S by done.
      pose proof (count_before_mono (token j) (j + 1) i). unfold slot in E. rewrite T in *. lia.
  - pose proof (slot_lt j i Hj Hi L). lia.
Qed.

(** ** The four launches *)

Context (Hsize : numel + (num_experts + 1) * (num_experts + block_size) < 2 ^ 31).
Notation tpt := (ceil_div numel num_experts).

Lemma tpt_bounds : 0 ≤ tpt ∧ numel ≤ num_experts * tpt < numel + num_experts.
Proof. pose proof (blocks_bounds numel num_experts Hn) as B. unfold cdiv in B. unfold ceil_div. split; [apply Z.div_pos; lia|lia]. Qed.

Lemma wrap_pid_tpt pid : 0 ≤ pid ≤ num_experts → wrap32 (pid * tpt) = pid * tpt.
Proof. intros. pose proof tpt_bounds. apply wrap32_id. nia. Qed.

Lemma wrap_row r : 0 ≤ r ≤ num_experts → wrap32 (r * num_experts) = r * num_experts.
Proof. intros. apply wrap32_id. nia. Qed.

Lemma wrap_count x : 0 ≤ x ≤ numel → wrap32 x = x.
Proof. intros. apply wrap32_id. nia. Qed.

Lemma row_div r e : 0 ≤ e < num_experts → (r * num_experts + e) `div` num_experts = r.
Proof. intros. rewrite Z.add_comm, Z.div_add, Z.div_small by lia. lia. Qed.

Lemma row_mod r e : 0 ≤ e < num_experts → (r * num_experts + e) `mod` num_experts = e.
Proof. intros. by rewrite Z.add_comm, Z.mod_add, Z.mod_small by lia. Qed.

(** The tensors that the launches read and write. *)
Definition has_tokens (m : mem) : Prop := ∀ j, 0 ≤ j < numel → m !! (topk_ids_ptr, j) = Some (token j).
Definition has_counts (m : mem) (f : Z → Z → Z) : Prop :=
  ∀ r e, 0 ≤ r ≤ num_experts → 0 ≤ e < num_experts → m !! (tokens_cnts_ptr, r * num_experts + e) = Some (f r e).

Lemma launch_grid (own : addr → option nat) (kernel : Z → prog (addr := addr) (Val := Z) unit) (m0 : mem) (Q : Z → mem → Prop) :
  (∀ a i, own a = Some i → Z.of_nat i < num_experts) →
  (∀ pid, 0 ≤ pid < num_experts → wp own (Z.to_nat pid) (kernel pid) m0 (λ _, Q pid)) →
  (∀ pid m m', 0 ≤ pid < num_experts → same_view own (Z.to_nat pid) m m' → Q pid m → Q pid m') →
  ∃ m', launches (grid num_experts kernel) m0 m' ∧ dom m' = dom m0 ∧ (∀ a, own a = None → m' !! a = m0 !! a) ∧
    ∀ pid, 0 ≤ pid < num_experts → Q pid m'.
Proof.
  intros Hown Hwp Hst. unfold grid.
  destruct (launch_wp own (kernel <$> range 0 num_experts) m0 (λ i, Q (Z.of_nat i))) as (m' & L & D & F & HQ).
  - intros a i Ha%Hown. rewrite length_fmap, range_length. lia.
  - intros i p. rewrite list_lookup_fmap. intros (pid & E & ->)%fmap_Some.
    apply lookup_range in E as [-> Hi]. rewrite Z.add_0_l in *.
    specialize (Hwp (Z.of_nat i)). rewrite Nat2Z.id in Hwp. apply Hwp. lia.
  - intros i m m'. rewrite length_fmap, range_length. intros Hi V. apply Hst; [lia|]. by rewrite Nat2Z.id.
  - exists m'. split_and!; [done..|]. intros pid Hp. rewrite <- (Z2Nat.id pid) by lia. apply HQ.
    rewrite length_fmap, range_length. lia.
Qed.

Definition own1 (a : addr) : option nat :=
  match a with
  | (tokens_cnts_ptr, x) =>
      if decide (num_experts ≤ x < (num_experts + 1) * num_experts) then Some (Z.to_nat (x `div` num_experts - 1)) else None
  | _ => None
  end.

Lemma own1_row pid e : 0 ≤ pid < num_experts → 0 ≤ e < num_experts →
  own1 (tokens_cnts_ptr, (pid + 1) * num_experts + e) = Some (Z.to_nat pid).
Proof. intros. cbn. rewrite decide_True by nia. rewrite row_div by done. do 2 f_equal. lia. Qed.

Lemma stage1_ok m :
  has_tokens m → has_counts m (λ _ _, 0) →
  ∃ m', launches (grid num_experts (moe_align_block_size_stage1 num_experts numel tpt)) m m' ∧ dom m' = dom m ∧
    has_counts m' (λ r e, count_before e (r * tpt) - count_before e ((r - 1) * tpt)) ∧
    ∀ b x, b ≠ tokens_cnts_ptr → m' !! (b, x) = m !! (b, x).
Proof.
  intros HT HC. pose proof tpt_bounds as HP.
  destruct (launch_grid own1 (moe_align_block_size_stage1 num_experts numel tpt) m
    (λ pid m, ∀ e, 0 ≤ e < num_experts → m !! (tokens_cnts_ptr, (pid + 1) * num_experts + e) =
       Some (count_before e ((pid + 1) * tpt) - count_before e (pid * tpt)))) as (m' & L & D & F & HQ).
  - intros [[] x] i; cbn; try done. destruct (decide _) as [Hx|]; [|done]. intros [= <-].
    pose proof (Z.div_le_lower_bound x num_experts 1). pose proof (Z.div_lt_upper_bound x num_experts (num_experts + 1)). lia.
  - intros pid Hpid. unfold moe_align_block_size_stage1. rewrite wrap_pid_tpt, wrap_row by lia.
    eapply wp_weaken; [eapply (wp_for _ _ (λ i _ m, has_tokens m ∧ ∀ e, 0 ≤ e < num_experts →
      m !! (tokens_cnts_ptr, (pid + 1) * num_experts + e) = Some (count_before e (pid * tpt + i) - count_before e (pid * tpt))))|].
    + lia.
    + intros i _ m1 Hi [HT1 HC1]. destruct (decide _) as [Hlt|Hge].
      * assert (0 ≤ pid * tpt + i < numel) as Hj by nia. pose proof (token_range _ Hj) as Ht.
        apply wp_bind. eapply wp_load; [by right|by apply HT1|].
        apply wp_bind. eapply wp_load; [left; by apply own1_row|by apply HC1|].
        eapply wp_store; [by apply own1_row|by rewrite HC1|].
        pose proof (count_before_bound (token (pid * tpt + i)) (pid * tpt)).
        pose proof (count_before_mono (token (pid * tpt + i)) (pid * tpt) (pid * tpt + i)).
        pose proof (count_before_succ (token (pid * tpt + i)) _ Hj) as Es. rewrite decide_True in Es by done.
        pose proof (count_before_bound (token (pid * tpt + i)) (pid * tpt + i + 1)).
        rewrite wrap_count by lia. split.
        { intros j' Hj'. rewrite lookup_insert_ne by done. by apply HT1. }
        intros e He. destruct (decide (e = token (pid * tpt + i))) as [->|Hne].
        { rewrite lookup_insert_eq, Z.add_assoc, Es. f_equal. lia. }
        rewrite lookup_insert_ne by (intros [= ?]; lia). rewrite HC1, Z.add_assoc, (count_before_succ e) by done.
        rewrite decide_False by done. f_equal. lia.
      * apply wp_ret. split; [done|]. intros e He. rewrite HC1 by done. by rewrite !(count_before_all e (_ + _)) by lia.
    + split; [done|]. intros e He. rewrite HC by lia. f_equal. rewrite Z.add_0_r. lia.
    + cbn. intros _ m1 [_ HC1] e He. rewrite HC1 by done. do 2 f_equal. f_equal. lia.
  - intros pid m1 m2 Hpid V HQ e He. rewrite <- (HQ e He). symmetry. apply V. left. by apply own1_row.
  - exists m'. split_and!; [done..| |].
    + intros r e Hr He. destruct (decide (r = 0)) as [->|].
      * rewrite F. { rewrite HC by lia. by rewrite !count_before_0 by lia. } cbn. by rewrite decide_False by lia.
      * replace r with (r - 1 + 1) at 1 by lia. rewrite HQ by lia. do 2 f_equal; f_equal; lia.
    + intros b x Hb'. apply F. by destruct b.
Qed.

Definition own2 (a : addr) : option nat :=
  match a with
  | (tokens_cnts_ptr, x) =>
      if decide (num_experts ≤ x < (num_experts + 1) * num_experts) then Some (Z.to_nat (x `mod` num_experts)) else None
  | _ => None
  end.

Lemma own2_col r pid : 1 ≤ r ≤ num_experts → 0 ≤ pid < num_experts →
  own2 (tokens_cnts_ptr, r * num_experts + pid) = Some (Z.to_nat pid).
Proof. intros. cbn. rewrite decide_True by nia. by rewrite row_mod. Qed.

(** The columns become running sums: the counts before each program's part. *)
Lemma stage2_ok m :
  has_counts m (λ r e, count_before e (r * tpt) - count_before e ((r - 1) * tpt)) →
  ∃ m', launches (grid num_experts (moe_align_block_size_stage2 num_experts)) m m' ∧ dom m' = dom m ∧
    has_counts m' (λ r e, count_before e (r * tpt)) ∧
    ∀ b x, b ≠ tokens_cnts_ptr → m' !! (b, x) = m !! (b, x).
Proof.
  intros HC. pose proof tpt_bounds as HP.
  destruct (launch_grid own2 (moe_align_block_size_stage2 num_experts) m
    (λ pid m, ∀ r, 1 ≤ r ≤ num_experts → m !! (tokens_cnts_ptr, r * num_experts + pid) =
       Some (count_before pid (r * tpt)))) as (m' & L & D & F & HQ).
  - intros [[] x] i; cbn; try done. destruct (decide _) as [Hx|]; [|done]. intros [= <-].
    pose proof (Z.mod_pos_bound x num_experts). lia.
  - intros pid Hpid. unfold moe_align_block_size_stage2. apply wp_bind.
    eapply wp_weaken; [eapply (wp_for _ _ (λ i last_cnt m, last_cnt = count_before pid ((i - 1) * tpt) ∧
      ∀ r, 1 ≤ r ≤ num_experts → m !! (tokens_cnts_ptr, r * num_experts + pid) =
       Some (if decide (r < i) then count_before pid (r * tpt) else count_before pid (r * tpt) - count_before pid ((r - 1) * tpt))))|].
    + lia.
    + intros i last_cnt m1 Hi [-> HC1]. rewrite wrap_row by lia.
      apply wp_bind. eapply wp_load; [left; apply own2_col; lia|apply HC1; lia|]. rewrite decide_False by lia.
      replace (_ + (_ - _)) with (count_before pid (i * tpt)) by lia.
      pose proof (count_before_bound pid (i * tpt)). rewrite wrap_count by lia.
      apply wp_bind. eapply wp_store; [apply own2_col; lia|rewrite HC1 by lia; done|].
      apply wp_ret. rewrite wrap_count by lia. split; [do 2 f_equal; lia|].
      intros r Hr. destruct (decide (r = i)) as [->|Hne].
      * by rewrite lookup_insert_eq, decide_True by lia.
      * rewrite lookup_insert_ne by (intros [= ?]; nia). rewrite HC1 by done. repeat destruct (decide _); done || lia.
    + split; [by rewrite count_before_0 by lia|]. intros r Hr. rewrite HC, decide_False by lia. done.
    + cbn. intros _ m1 [_ HC1]. apply wp_ret. intros r Hr. rewrite HC1, decide_True by lia. done.
  - intros pid m1 m2 Hpid V HQ r Hr. rewrite <- (HQ r Hr). symmetry. apply V. left. by apply own2_col.
  - exists m'. split_and!; [done..| |].
    + intros r e Hr He. destruct (decide (r = 0)) as [->|].
      * rewrite F. { rewrite HC by lia. by rewrite !count_before_0 by lia. } cbn. by rewrite decide_False by lia.
      * by apply HQ; lia.
    + intros b x Hb'. apply F. by destruct b.
Qed.

Definition own3 (a : addr) : option nat :=
  match a with
  | (cumsum_ptr, x) => if decide (1 ≤ x ≤ num_experts) then Some 0%nat else None
  | (total_tokens_post_pad_ptr, _) => Some 0%nat
  | _ => None
  end.

Definition has_slots (m : mem) : Prop := ∀ e, 0 ≤ e ≤ num_experts → m !! (cumsum_ptr, e) = Some (first_slot e).

Lemma first_slot_size e : 0 ≤ e ≤ num_experts → 0 ≤ first_slot e < 2 ^ 31.
Proof.
  intros. pose proof (first_slot_mono 0 e). pose proof (first_slot_mono e num_experts).
  pose proof first_slot_bound. rewrite first_slot_0 in *. nia.
Qed.

Lemma stage3_ok m :
  has_counts m (λ r e, count_before e (r * tpt)) → is_Some (m !! (total_tokens_post_pad_ptr, 0)) →
  (∀ e, 0 ≤ e ≤ num_experts → is_Some (m !! (cumsum_ptr, e))) → m !! (cumsum_ptr, 0) = Some 0 →
  ∃ m', launches [moe_align_block_size_stage3 num_experts block_size] m m' ∧ dom m' = dom m ∧
    has_slots m' ∧ m' !! (total_tokens_post_pad_ptr, 0) = Some (first_slot num_experts) ∧
    ∀ b x, b ≠ cumsum_ptr → b ≠ total_tokens_post_pad_ptr → m' !! (b, x) = m !! (b, x).
Proof.
  intros HC HT HS HS0. pose proof tpt_bounds as HP.
  destruct (launch_wp own3 [moe_align_block_size_stage3 num_experts block_size] m
    (λ _ m, has_slots m ∧ m !! (total_tokens_post_pad_ptr, 0) = Some (first_slot num_experts))) as (m' & L & D & F & HQ).
  - intros [[] x] i; cbn; try done; [destruct (decide _); [|done]|]; intros [= <-]; lia.
  - intros [|i] p; [|done]. intros [= <-]. unfold moe_align_block_size_stage3. rewrite wrap_row by lia. apply wp_bind.
    eapply wp_weaken; [eapply (wp_for _ _ (λ i last m, last = first_slot (i - 1) ∧
      has_counts m (λ r e, count_before e (r * tpt)) ∧ dom m = dom m ∧ is_Some (m !! (total_tokens_post_pad_ptr, 0)) ∧
      (∀ e, 0 ≤ e ≤ num_experts → is_Some (m !! (cumsum_ptr, e))) ∧
      ∀ e, 0 ≤ e < i → m !! (cumsum_ptr, e) = Some (first_slot e)))|].
    + lia.
    + intros i last m1 Hi (-> & HC1 & _ & HT1 & HD1 & HS1).
      apply wp_bind. eapply wp_load; [by right|rewrite <- Z.add_sub_assoc; apply HC1; lia|].
      rewrite count_before_all by lia.
      assert (first_slot (i - 1) + cdiv (count (i - 1)) block_size * block_size = first_slot i) as ->.
      { replace (first_slot i) with (first_slot (i - 1 + 1)) by (f_equal; lia). by rewrite first_slot_succ by lia. }
      pose proof (first_slot_size i). rewrite (wrap32_id (first_slot i)) by lia.
      apply wp_bind. eapply wp_store; [cbn; by rewrite decide_True by lia|apply HD1; lia|].
      apply wp_ret. rewrite wrap32_id by lia. split_and!.
      * f_equal. lia.
      * intros r e Hr He. rewrite lookup_insert_ne by done. by apply HC1.
      * done.
      * by rewrite lookup_insert_ne.
      * intros e He. rewrite lookup_insert_is_Some'. right. by apply HD1.
      * intros e He. destruct (decide (e = i)) as [->|]; [by rewrite lookup_insert_eq|].
        rewrite lookup_insert_ne by congruence. apply HS1. lia.
    + split_and!; try done. intros e He. replace e with 0 by lia. by rewrite HS0.
    + cbn. intros last m1 (-> & _ & _ & HT1 & _ & HS1).
      rewrite Z.add_simpl_r. eapply wp_store; [done|done|]. pose proof (first_slot_size num_experts).
      rewrite wrap32_id by lia. split; [|by rewrite lookup_insert_eq].
      intros e He. rewrite lookup_insert_ne by done. apply HS1. lia.
  - intros i m1 m2 Hi V [HQ1 HQ2]. assert (i = 0%nat) as -> by (cbn in Hi; lia). split.
    + intros e He. rewrite <- (HQ1 e He). symmetry. apply V. unfold sees. cbn. destruct (decide _); auto.
    + rewrite <- HQ2. symmetry. apply V. by left.
  - destruct (HQ 0%nat) as [HQ1 HQ2]; [cbn; lia|]. exists m'. split_and!; [done..|]. intros b x H1 H2. apply F. by destruct b.
Qed.

(** *** The last kernel fills the slots *)

(** The program that writes slot [p], and the one that writes block [b]. *)
Definition writer (p : Z) : option Z := head (filter (λ j, slot j = p) (range 0 numel)).
Definition expert_of (b : Z) : option Z :=
  head (filter (λ e, first_slot e ≤ b * block_size < first_slot (e + 1)) (range 0 num_experts)).

Lemma head_filter {A} (P : A → Prop) `{∀ x, Decision (P x)} xs x :
  x ∈ xs → P x → (∀ y, y ∈ xs → P y → y = x) → head (filter P xs) = Some x.
Proof.
  intros Hx HP Hu. destruct (filter P xs) as [|y ys] eqn:E.
  - assert (x ∈ filter P xs) as X by by apply list_elem_of_filter. rewrite E in X. by apply not_elem_of_nil in X.
  - assert (y ∈ filter P xs) as Y by (rewrite E; left). apply list_elem_of_filter in Y as [? ?]. cbn. f_equal. auto.
Qed.

Lemma writer_slot j : 0 ≤ j < numel → writer (slot j) = Some j.
Proof.
  intros Hj. apply head_filter; [by apply elem_of_range|done|]. intros i Hi%elem_of_range E. by apply token_slot_inj.
Qed.

Lemma writer_Some p j : writer p = Some j → 0 ≤ j < numel ∧ slot j = p.
Proof.
  unfold writer. intros Hd. assert (j ∈ filter (λ j, slot j = p) (range 0 numel)) as X.
  { destruct (filter _ _); [done|]. cbn in Hd. simplify_eq. left. }
  apply list_elem_of_filter in X as [? X%elem_of_range]. done.
Qed.

Lemma expert_of_block e b : 0 ≤ e < num_experts → first_slot e ≤ b * block_size < first_slot (e + 1) → expert_of b = Some e.
Proof.
  intros He Hb'. apply head_filter; [by apply elem_of_range|done|]. intros f Hf%elem_of_range Hfb.
  destruct (Z.lt_trichotomy e f) as [L|[|L]]; [|done|]; exfalso.
  - pose proof (first_slot_mono (e + 1) f). lia.
  - pose proof (first_slot_mono (f + 1) e). lia.
Qed.

Lemma expert_of_Some b e : expert_of b = Some e → 0 ≤ e < num_experts ∧ first_slot e ≤ b * block_size < first_slot (e + 1).
Proof.
  unfold expert_of. intros Hd. assert (e ∈ filter (λ e, first_slot e ≤ b * block_size < first_slot (e + 1)) (range 0 num_experts)) as X.
  { destruct (filter _ _); [done|]. cbn in Hd. simplify_eq. left. }
  apply list_elem_of_filter in X as [? X%elem_of_range]. done.
Qed.

Definition own4 (a : addr) : option nat :=
  match a with
  | (tokens_cnts_ptr, x) =>
      if decide (0 ≤ x < num_experts * num_experts) then Some (Z.to_nat (x `div` num_experts)) else None
  | (sorted_token_ids_ptr, p) => (λ j, Z.to_nat (j `div` tpt)) <$> writer p
  | (expert_ids_ptr, b) => Z.to_nat <$> expert_of b
  | _ => None
  end.

Lemma own4_row pid e : 0 ≤ pid < num_experts → 0 ≤ e < num_experts →
  own4 (tokens_cnts_ptr, pid * num_experts + e) = Some (Z.to_nat pid).
Proof. intros. cbn. rewrite decide_True by nia. by rewrite row_div. Qed.

Lemma own4_slot pid j : pid * tpt ≤ j < (pid + 1) * tpt → 0 ≤ j < numel → own4 (sorted_token_ids_ptr, slot j) = Some (Z.to_nat pid).
Proof.
  intros Hp Hj. cbn. rewrite writer_slot by done. cbn. do 2 f_equal.
  symmetry. apply (Z.div_unique _ _ _ (j - pid * tpt)); lia.
Qed.

Lemma own4_block e b : 0 ≤ e < num_experts → first_slot e ≤ b * block_size < first_slot (e + 1) →
  own4 (expert_ids_ptr, b) = Some (Z.to_nat e).
Proof. intros. cbn. by rewrite (expert_of_block e). Qed.

Lemma own4_bound a i : own4 a = Some i → Z.of_nat i < num_experts.
Proof.
  pose proof tpt_bounds as HP. destruct a as [[] x]; cbn; try done.
  - destruct (decide _) as [Hx|]; [|done]. intros [= <-].
    pose proof (Z.div_lt_upper_bound x num_experts num_experts). pose proof (Z.div_pos x num_experts). lia.
  - intros (j & [Hj _]%writer_Some & ->)%fmap_Some. assert (0 < tpt) by nia.
    pose proof (Z.div_lt_upper_bound j tpt num_experts). pose proof (Z.div_pos j tpt). nia.
  - intros (e & [He _]%expert_of_Some & ->)%fmap_Some. lia.
Qed.

(** What the tensors hold before: room for all slots and blocks. *)
Definition has_room (m : mem) : Prop :=
  (∀ p, 0 ≤ p < first_slot num_experts → is_Some (m !! (sorted_token_ids_ptr, p))) ∧
  (∀ b, 0 ≤ b → b * block_size < first_slot num_experts → is_Some (m !! (expert_ids_ptr, b))).

(** What program [pid] leaves: the blocks of expert [pid], the slots of its own tokens. *)
Definition done4 (pid : Z) (m : mem) : Prop :=
  (∀ b, first_slot pid ≤ b * block_size < first_slot (pid + 1) → m !! (expert_ids_ptr, b) = Some pid) ∧
  (∀ j, pid * tpt ≤ j < (pid + 1) * tpt → 0 ≤ j < numel → m !! (sorted_token_ids_ptr, slot j) = Some j).

Lemma room_dom m m' : dom m' = dom m → has_room m → has_room m'.
Proof.
  intros D [R1 R2]. split.
  - intros p Hp. apply elem_of_dom. rewrite D. by apply elem_of_dom, R1.
  - intros b Hb1 Hb2. apply elem_of_dom. rewrite D. by apply elem_of_dom, R2.
Qed.

Lemma room_insert m a v : has_room m → has_room (<[a := v]> m).
Proof. intros [R1 R2]. split; intros; rewrite lookup_insert_is_Some'; right; auto. Qed.

Definition has_counts4 (pid i : Z) (m : mem) : Prop :=
  ∀ e, 0 ≤ e < num_experts → m !! (tokens_cnts_ptr, pid * num_experts + e) = Some (count_before e i).
Definition blocks_done (pid : Z) (m : mem) : Prop :=
  ∀ b, first_slot pid ≤ b * block_size < first_slot (pid + 1) → m !! (expert_ids_ptr, b) = Some pid.

(** The first loop of the kernel. *)
Lemma stage4_blocks pid m : 0 ≤ pid < num_experts →
  has_tokens m → has_slots m → has_room m → has_counts4 pid (pid * tpt) m →
  wp own4 (Z.to_nat pid) (for_each (range_step (first_slot pid) (first_slot (pid + 1)) block_size)
    (λ i _, store (expert_ids_ptr, i `div` block_size) pid) tt) m
    (λ _ m, has_tokens m ∧ has_slots m ∧ has_room m ∧ has_counts4 pid (pid * tpt) m ∧ blocks_done pid m).
Proof.
  intros Hpid HT HS HR HC. rewrite first_slot_succ, padded_blocks by lia.
  pose proof (first_slot_blocks pid) as Hfs. pose proof (padded_nonneg pid).
  set (lo := first_slot pid `div` block_size) in *. set (n := padded pid `div` block_size).
  assert (0 ≤ n) by (by apply Z.div_pos).
  eapply wp_weaken; [eapply (wp_for_step _ _ (λ k _ m, has_tokens m ∧ has_slots m ∧ has_room m ∧ has_counts4 pid (pid * tpt) m ∧
    ∀ b, lo ≤ b < lo + k → m !! (expert_ids_ptr, b) = Some pid) _ n block_size); try done|].
  - intros k _ m1 Hk (HT1 & HS1 & HR1 & HC1 & HB1).
    rewrite Hfs at 1 by lia. rewrite <- Z.mul_add_distr_r, Z.div_mul by lia.
    assert (first_slot pid ≤ (lo + k) * block_size < first_slot (pid + 1)) as Hblk.
    { rewrite first_slot_succ, padded_blocks by lia. fold n. rewrite Hfs at 1 2 by lia. nia. }
    eapply wp_store; [by apply own4_block| |].
    { apply HR1; [|pose proof (first_slot_mono (pid + 1) num_experts); lia]. pose proof (first_slot_size pid). nia. }
    assert (wrap32 pid = pid) as -> by (apply wrap32_id; nia). split_and!.
    + intros j Hj. rewrite lookup_insert_ne by done. by apply HT1.
    + intros e He. rewrite lookup_insert_ne by done. by apply HS1.
    + by apply room_insert.
    + intros e He. rewrite lookup_insert_ne by done. by apply HC1.
    + intros b Hb2. destruct (decide (b = lo + k)) as [->|]; [by rewrite lookup_insert_eq|].
      rewrite lookup_insert_ne by congruence. apply HB1. lia.
  - split_and!; try done. intros. lia.
  - cbn. intros _ m1 (? & ? & ? & ? & HB1). split_and!; try done. intros b Hb2. apply HB1.
    rewrite first_slot_succ, padded_blocks in Hb2 by lia. fold n in Hb2. rewrite Hfs in Hb2 by lia. nia.
Qed.

(** The second loop. *)
Lemma stage4_slots pid m : 0 ≤ pid < num_experts →
  has_tokens m → has_slots m → has_room m → has_counts4 pid (pid * tpt) m → blocks_done pid m →
  wp own4 (Z.to_nat pid) (for_each (range (pid * tpt) (Z.min ((pid + 1) * tpt) numel)) (λ i _,
    expert_id ← load (topk_ids_ptr, i);
    token_cnt ← load (tokens_cnts_ptr, pid * num_experts + expert_id);
    start ← load (cumsum_ptr, expert_id);
    let rank_post_pad := wrap32 (token_cnt + start) in
    _ ← store (sorted_token_ids_ptr, rank_post_pad) i;
    store (tokens_cnts_ptr, pid * num_experts + expert_id) (token_cnt + 1)) tt) m (λ _, done4 pid).
Proof.
  intros Hpid HT HS HR HC HB. pose proof tpt_bounds as HP.
  destruct (decide (pid * tpt ≤ numel)) as [Hle|Hgt].
  2:{ rewrite range_empty by lia. apply wp_ret. split; [done|]. intros j Hj1 Hj2. lia. }
  eapply wp_weaken; [eapply (wp_for _ _ (λ i _ m, has_tokens m ∧ has_slots m ∧ has_room m ∧ has_counts4 pid i m ∧ blocks_done pid m ∧
    ∀ j, pid * tpt ≤ j < i → m !! (sorted_token_ids_ptr, slot j) = Some j))|].
  - nia.
  - intros i _ m1 Hi (HT1 & HS1 & HR1 & HC1 & HB1 & HO1).
    assert (0 ≤ i < numel) as Hj by nia. pose proof (token_range i Hj) as Ht.
    apply wp_bind. eapply wp_load; [by right|by apply HT1|].
    apply wp_bind. eapply wp_load; [left; by apply own4_row|by apply HC1|].
    apply wp_bind. eapply wp_load; [by right|apply HS1; lia|].
    rewrite Z.add_comm. fold (slot i). pose proof (slot_bounds i Hj) as Hsl.
    pose proof (padded_count (token i)). pose proof (first_slot_succ (token i)).
    pose proof (first_slot_mono (token i + 1) num_experts). pose proof (first_slot_size (token i)).
    pose proof (first_slot_size num_experts).
    rewrite (wrap32_id (slot i)) by lia.
    apply wp_bind. eapply wp_store; [apply own4_slot; lia|apply HR1; lia|].
    eapply wp_store; [by apply own4_row|rewrite lookup_insert_is_Some'; right; by rewrite HC1|].
    pose proof (count_before_succ (token i) i Hj) as Es. rewrite decide_True in Es by done.
    pose proof (count_before_bound (token i) i). pose proof (count_before_bound (token i) (i + 1)).
    rewrite wrap_count, wrap_count by lia. split_and!.
    + intros j Hj2. rewrite !lookup_insert_ne by done. by apply HT1.
    + intros e He. rewrite !lookup_insert_ne by done. by apply HS1.
    + by apply room_insert, room_insert.
    + intros e He. destruct (decide (e = token i)) as [->|]; [by rewrite lookup_insert_eq, Es|].
      rewrite !lookup_insert_ne by (intros [= ?]; lia). rewrite HC1, count_before_succ, decide_False by done. f_equal. lia.
    + intros b Hb2. rewrite !lookup_insert_ne by done. by apply HB1.
    + intros j Hj2. rewrite lookup_insert_ne by done. destruct (decide (j = i)) as [->|Hne]; [by rewrite lookup_insert_eq|].
      rewrite lookup_insert_ne; [apply HO1; lia|]. intros [= E]. apply Hne. symmetry. apply token_slot_inj; [lia|nia|done].
  - split_and!; try done. intros. lia.
  - cbn. intros _ m1 (_ & _ & _ & _ & HB1 & HO1). split; [done|]. intros j Hj1 Hj2. apply HO1. lia.
Qed.

Lemma stage4_ok m :
  has_tokens m → has_counts m (λ r e, count_before e (r * tpt)) → has_slots m → has_room m →
  ∃ m', launches (grid num_experts (moe_align_block_size_stage4 num_experts numel block_size tpt)) m m' ∧ dom m' = dom m ∧
    (∀ pid, 0 ≤ pid < num_experts → done4 pid m') ∧ ∀ a, own4 a = None → m' !! a = m !! a.
Proof.
  intros HT HC HS HR. pose proof tpt_bounds as HP.
  destruct (launch_grid own4 (moe_align_block_size_stage4 num_experts numel block_size tpt) m done4) as (m' & L & D & F & HQ).
  - apply own4_bound.
  - intros pid Hpid. unfold moe_align_block_size_stage4.
    apply wp_bind. eapply wp_load; [by right|apply HS; lia|].
    apply wp_bind. eapply wp_load; [by right|apply HS; lia|].
    apply wp_bind. eapply wp_weaken; [apply stage4_blocks; try done|].
    { intros e He. apply HC; lia. }
    intros _ m1 (HT1 & HS1 & HR1 & HC1 & HB1). rewrite !wrap_pid_tpt, wrap_row by lia.
    replace (pid * tpt + tpt) with ((pid + 1) * tpt) by lia. rewrite wrap_pid_tpt by lia. by apply stage4_slots.
  - intros pid m1 m2 Hpid V [Q1 Q2]. split.
    + intros b Hb2. rewrite <- (Q1 b Hb2). symmetry. apply V. left. by apply own4_block.
    + intros j Hj1 Hj2. rewrite <- (Q2 j Hj1 Hj2). symmetry. apply V. left. by apply own4_slot.
  - by exists m'.
Qed.

(** *** The reference lists, position by position *)

Notation tokens_of := (tokens_of topk_ids).
Notation padded_tokens := (padded_tokens topk_ids block_size).
Notation sorted_tokens := (sorted_tokens topk_ids num_experts block_size).
Notation block_experts := (block_experts topk_ids num_experts block_size).

Lemma tokens_upto e k : 0 ≤ k ≤ numel →
  Z.of_nat (length (filter (λ j, topk_ids !! Z.to_nat j = Some e) (range 0 k))) = count_before e k.
Proof.
  intros [Hk Hk2]. revert Hk2. pattern k. apply natlike_ind; [|intros j Hj IH Hj2|done].
  - intros _. by rewrite count_before_0.
  - unfold Z.succ in *. rewrite range_snoc, filter_app, length_app, filter_cons, filter_nil by lia.
    rewrite token_lookup, count_before_succ, Nat2Z.inj_add, IH by lia.
    destruct (decide (Some _ = _)), (decide (token j = e)); cbn; try lia; congruence.
Qed.

Lemma tokens_of_length e : Z.of_nat (length (tokens_of e)) = count e.
Proof. apply tokens_upto. lia. Qed.

Lemma tokens_of_lookup j : 0 ≤ j < numel → tokens_of (token j) !! Z.to_nat (count_before (token j) j) = Some j.
Proof.
  intros Hj. unfold MoeAlign.tokens_of. rewrite (range_app 0 j numel), (range_cons j) by lia.
  rewrite filter_app, filter_cons, decide_True by (by apply token_lookup).
  rewrite <- tokens_upto, Nat2Z.id by lia. by rewrite lookup_app_r, Nat.sub_diag by done.
Qed.

Lemma tokens_of_slot e r j : tokens_of e !! r = Some j → 0 ≤ j < numel ∧ token j = e ∧ slot j = first_slot e + Z.of_nat r.
Proof.
  intros E. assert (j ∈ tokens_of e) as Hin by by eapply list_elem_of_lookup_2.
  apply list_elem_of_filter in Hin as [He Hj%elem_of_range]. rewrite token_lookup in He by done. simplify_eq.
  split_and!; [lia|lia|done|]. unfold slot. f_equal.
  assert (NoDup (tokens_of (token j))) as ND.
  { apply NoDup_filter. unfold range. apply NoDup_fmap_2; [intros ???; lia|apply NoDup_seq]. }
  pose proof (NoDup_lookup _ _ _ _ ND E (tokens_of_lookup j Hj)). pose proof (count_before_bound (token j) j). lia.
Qed.

Lemma padded_tokens_length e : Z.of_nat (length (padded_tokens e)) = padded e.
Proof.
  unfold MoeAlign.padded_tokens. rewrite length_app, length_replicate, Nat2Z.inj_add, tokens_of_length.
  pose proof (padded_count e). lia.
Qed.

Lemma concat_at {A} (f : Z → list A) e r : 0 ≤ e < num_experts → (r < length (f e))%nat →
  concat (f <$> range 0 num_experts) !! (length (concat (f <$> range 0 e)) + r)%nat = f e !! r.
Proof.
  intros He Hr. rewrite (range_app 0 e num_experts), (range_cons e num_experts) by lia.
  rewrite fmap_app, concat_app. cbn [fmap list_fmap concat].
  rewrite lookup_app_r, lookup_app_l by lia. f_equal. lia.
Qed.

Lemma tokens_before e : 0 ≤ e → Z.of_nat (length (concat (padded_tokens <$> range 0 e))) = first_slot e.
Proof.
  intros He. pattern e. apply natlike_ind; [done| |done]. intros x Hx IH. unfold Z.succ.
  rewrite range_snoc, fmap_app, concat_app, length_app, Nat2Z.inj_add, IH, first_slot_succ by lia.
  cbn [fmap list_fmap concat]. by rewrite app_nil_r, padded_tokens_length.
Qed.

Lemma blocks_before e : 0 ≤ e →
  Z.of_nat (length (concat ((λ e, replicate (Z.to_nat (padded e `div` block_size)) e) <$> range 0 e))) * block_size = first_slot e.
Proof.
  intros He. pattern e. apply natlike_ind; [done| |done]. intros x Hx IH. unfold Z.succ.
  rewrite range_snoc, fmap_app, concat_app, length_app, Nat2Z.inj_add, Z.mul_add_distr_r, IH, first_slot_succ by lia.
  cbn [fmap list_fmap concat]. rewrite app_nil_r, length_replicate, Z2Nat.id, <- padded_blocks; [done|].
  apply Z.div_pos; [apply padded_nonneg|lia].
Qed.

Lemma sorted_at e r : 0 ≤ e < num_experts → 0 ≤ r < padded e →
  sorted_tokens !! Z.to_nat (first_slot e + r) = padded_tokens e !! Z.to_nat r.
Proof.
  intros He Hr. rewrite <- tokens_before by lia. rewrite <- (concat_at padded_tokens e); [|done|pose proof (padded_tokens_length e); lia].
  unfold MoeAlign.sorted_tokens. f_equal. lia.
Qed.

Lemma block_at e b : 0 ≤ e < num_experts → first_slot e ≤ b * block_size < first_slot (e + 1) →
  block_experts !! Z.to_nat b = Some e.
Proof.
  intros He Hb'. rewrite first_slot_succ, padded_blocks in Hb' by lia.
  rewrite <- blocks_before in Hb' by lia.
  set (n := length (concat ((λ e, replicate (Z.to_nat (padded e `div` block_size)) e) <$> range 0 e))) in *.
  assert (0 ≤ b - Z.of_nat n < padded e `div` block_size) as Hr by nia.
  replace (Z.to_nat b) with (n + Z.to_nat (b - Z.of_nat n))%nat by lia.
  unfold MoeAlign.block_experts, n. rewrite concat_at; [|done|rewrite length_replicate; lia].
  apply lookup_replicate_2. lia.
Qed.

(** Every slot of a block is in the range of one expert. *)
Lemma slot_split p : 0 ≤ p < first_slot num_experts → ∃ e, 0 ≤ e < num_experts ∧ first_slot e ≤ p < first_slot (e + 1).
Proof.
  intros [Hp Hp2]. assert (∀ n, 0 ≤ n → n ≤ num_experts → p < first_slot n → ∃ e, 0 ≤ e < num_experts ∧ first_slot e ≤ p < first_slot (e + 1)) as X.
  { intros n Hn0. pattern n. apply natlike_ind; [|intros x Hx IH Hx2 Hx3|done].
    - rewrite first_slot_0. lia.
    - destruct (decide (p < first_slot x)); [apply IH; lia|]. exists x. unfold Z.succ in *. lia. }
  apply (X num_experts); lia.
Qed.

Lemma sorted_length : Z.of_nat (length sorted_tokens) = first_slot num_experts.
Proof. unfold MoeAlign.sorted_tokens. apply tokens_before. lia. Qed.

Lemma block_experts_length : Z.of_nat (length block_experts) * block_size = first_slot num_experts.
Proof. unfold MoeAlign.block_experts. apply blocks_before. lia. Qed.

(** What slot [p] holds. *)
Lemma sorted_slot p : 0 ≤ p < first_slot num_experts →
  sorted_tokens !! Z.to_nat p = Some (default numel (writer p)).
Proof.
  intros Hp. destruct (slot_split p Hp) as (e & He & Hpe). rewrite first_slot_succ in Hpe by lia.
  replace p with (first_slot e + (p - first_slot e)) at 1 by lia. rewrite sorted_at by lia.
  unfold MoeAlign.padded_tokens. pose proof (tokens_of_length e) as HL.
  destruct (decide (p - first_slot e < count e)) as [Hlt|Hge].
  - rewrite lookup_app_l by lia. destruct (lookup_lt_is_Some_2 (tokens_of e) (Z.to_nat (p - first_slot e))) as [j E]; [lia|].
    rewrite E. apply tokens_of_slot in E as (Hj & _ & Hs). assert (slot j = p) as <- by lia. by rewrite writer_slot.
  - rewrite lookup_app_r by lia. rewrite lookup_replicate_2 by (pose proof (padded_count e); lia).
    destruct (writer p) as [j|] eqn:W; [|done]. exfalso. apply writer_Some in W as [Hj Hs].
    pose proof (slot_bounds j Hj). pose proof (token_range j Hj). pose proof (padded_count (token j)).
    destruct (Z.lt_trichotomy (token j) e) as [L|[T|L]].
    + pose proof (first_slot_mono (token j + 1) e). pose proof (first_slot_succ (token j)). lia.
    + subst e. lia.
    + pose proof (first_slot_mono (e + 1) (token j)). pose proof (first_slot_succ e). lia.
Qed.

Lemma writer_range p j : writer p = Some j → 0 ≤ p < first_slot num_experts.
Proof.
  intros [Hj <-]%writer_Some. pose proof (slot_bounds j Hj). pose proof (token_range j Hj).
  pose proof (padded_count (token j)). pose proof (first_slot_size (token j)). pose proof (first_slot_succ (token j)).
  pose proof (first_slot_mono (token j + 1) num_experts). lia.
Qed.

(** *** What the reference lists are good for *)

Lemma sorted_once j : 0 ≤ j < numel → ∃ p, sorted_tokens !! p = Some j ∧ ∀ q, sorted_tokens !! q = Some j → q = p.
Proof.
  intros Hj. exists (Z.to_nat (slot j)). pose proof (writer_range _ _ (writer_slot j Hj)) as Hs. split.
  - by rewrite sorted_slot, writer_slot.
  - intros q Hq. pose proof (lookup_lt_Some _ _ _ Hq) as Hl. pose proof sorted_length.
    rewrite <- (Nat2Z.id q), sorted_slot in Hq by lia.
    destruct (writer (Z.of_nat q)) as [i|] eqn:W; simplify_eq/=; [|lia]. apply writer_Some in W as [_ W]. lia.
Qed.

Lemma block_has_one_expert b k j : 0 ≤ k < block_size → 0 ≤ b → sorted_tokens !! Z.to_nat (b * block_size + k) = Some j →
  ∃ e, block_experts !! Z.to_nat b = Some e ∧ (j = numel ∨ topk_ids !! Z.to_nat j = Some e).
Proof.
  intros Hk Hb0 E. pose proof (lookup_lt_Some _ _ _ E) as Hl. pose proof sorted_length as SL.
  destruct (slot_split (b * block_size + k)) as (e & He & Hpe); [nia|].
  assert (first_slot e ≤ b * block_size < first_slot (e + 1)) as Hbe.
  { rewrite (first_slot_blocks e), (first_slot_blocks (e + 1)) in Hpe |- * by lia.
    apply (block_start _ _ _ k); lia. }
  exists e. split; [by apply block_at|].
  rewrite sorted_slot in E by nia. destruct (writer _) as [i|] eqn:W; simplify_eq/=; [right|by left].
  apply writer_Some in W as [Hj Hs]. rewrite token_lookup by done. f_equal.
  pose proof (slot_bounds j Hj). pose proof (token_range j Hj). pose proof (padded_count (token j)).
  pose proof (first_slot_succ (token j)).
  destruct (Z.lt_trichotomy (token j) e) as [L|[T|L]]; [|done|].
  - pose proof (first_slot_mono (token j + 1) e). lia.
  - pose proof (first_slot_mono (e + 1) (token j)). lia.
Qed.

(** ** The launches together *)

Lemma tensor_lookup b xs b' x :
  tensor b xs !! (b', x) = if decide (b = b' ∧ 0 ≤ x) then xs !! Z.to_nat x else None.
Proof.
  unfold tensor. destruct (decide _) as [[<- Hx]|Hno].
  - destruct (xs !! Z.to_nat x) as [v|] eqn:E.
    + apply elem_of_list_to_map.
      { rewrite fmap_imap. apply NoDup_alt. intros i j y Hi Hj. rewrite list_lookup_imap in Hi, Hj.
        destruct (xs !! i), (xs !! j); simplify_eq/=. lia. }
      apply elem_of_lookup_imap. exists (Z.to_nat x), v. by rewrite Z2Nat.id by lia.
    + apply not_elem_of_list_to_map. rewrite fmap_imap. intros (k & v & [= Hk] & Hv)%elem_of_lookup_imap.
      subst x. rewrite Nat2Z.id in E. congruence.
  - apply not_elem_of_list_to_map. rewrite fmap_imap. intros (k & v & [= -> ->] & Hv)%elem_of_lookup_imap.
    apply Hno. split; [done|lia].
Qed.

Context (sorted0 experts0 post0 : list Z).
Context (Hsorted : sorted0 = replicate (Z.to_nat (numel + num_experts * (block_size - 1))) numel).
Context (Hexperts : Z.of_nat (length experts0) = cdiv (numel + num_experts * (block_size - 1)) block_size).
Context (Hpost : length post0 = 1%nat).

Definition start_mem : mem :=
  tensor topk_ids_ptr topk_ids ∪ tensor sorted_token_ids_ptr sorted0 ∪ tensor expert_ids_ptr experts0
  ∪ tensor total_tokens_post_pad_ptr post0
  ∪ tensor tokens_cnts_ptr (replicate (Z.to_nat ((num_experts + 1) * num_experts)) 0)
  ∪ tensor cumsum_ptr (replicate (Z.to_nat (num_experts + 1)) 0).

Lemma start_lookup b x :
  start_mem !! (b, x) = if decide (0 ≤ x) then
    match b with
    | topk_ids_ptr => topk_ids
    | tokens_cnts_ptr => replicate (Z.to_nat ((num_experts + 1) * num_experts)) 0
    | cumsum_ptr => replicate (Z.to_nat (num_experts + 1)) 0
    | sorted_token_ids_ptr => sorted0
    | expert_ids_ptr => experts0
    | total_tokens_post_pad_ptr => post0
    end !! Z.to_nat x else None.
Proof.
  unfold start_mem. rewrite !lookup_union, !tensor_lookup. destruct (decide (0 ≤ x)) as [Hx|Hx].
  - destruct b; repeat first [rewrite decide_True by (split; done) | rewrite decide_False by (intros [? _]; done)];
      match goal with |- _ = ?y => by destruct y end.
  - by rewrite !decide_False by (intros [_ ?]; done).
Qed.

Lemma start_tokens : has_tokens start_mem.
Proof. intros j Hj. rewrite start_lookup, decide_True by lia. by apply token_lookup. Qed.

Lemma start_counts : has_counts start_mem (λ _ _, 0).
Proof. intros r e Hr He. rewrite start_lookup, decide_True by nia. apply lookup_replicate_2. nia. Qed.

Lemma start_room : has_room start_mem.
Proof.
  pose proof first_slot_bound as FB. split.
  - intros p Hp. rewrite start_lookup, decide_True, Hsorted by lia. apply lookup_lt_is_Some_2. rewrite length_replicate. lia.
  - intros b Hb1 Hb2. rewrite start_lookup, decide_True by lia. apply lookup_lt_is_Some_2.
    pose proof (blocks_bounds (numel + num_experts * (block_size - 1)) block_size Hb). nia.
Qed.

(** The sorted tokens and the experts of the blocks, in tensors of the full length. *)
Definition sorted_result : list Z :=
  sorted_tokens ++ replicate (Z.to_nat (numel + num_experts * (block_size - 1) - first_slot num_experts)) numel.
Definition experts_result : list Z := block_experts ++ drop (length block_experts) experts0.

Lemma holds_sorted m :
  (∀ pid, 0 ≤ pid < num_experts → done4 pid m) →
  (∀ p, writer p = None → m !! (sorted_token_ids_ptr, p) = start_mem !! (sorted_token_ids_ptr, p)) →
  holds m sorted_token_ids_ptr sorted_result.
Proof.
  intros HD HU k. pose proof sorted_length as SL. pose proof first_slot_bound. pose proof tpt_bounds as HP.
  pose proof (first_slot_size num_experts). unfold sorted_result.
  destruct (writer (Z.of_nat k)) as [j|] eqn:W.
  - pose proof (writer_range _ _ W) as Hk. rewrite lookup_app_l by lia.
    rewrite <- (Nat2Z.id k) at 2. rewrite sorted_slot, W by done. apply writer_Some in W as [Hj <-].
    assert (0 < tpt) by nia. destruct (part_of j tpt) as [Hq Hj2]; [lia..|].
    apply (HD (j `div` tpt)); [|done|done]. split; [done|]. apply Z.div_lt_upper_bound; nia.
  - rewrite HU, start_lookup, decide_True, Nat2Z.id, Hsorted by (done || lia).
    destruct (decide (Z.of_nat k < first_slot num_experts)).
    + rewrite lookup_app_l by lia. rewrite <- (Nat2Z.id k) at 2. rewrite sorted_slot, W by lia.
      cbn. apply lookup_replicate_2. lia.
    + rewrite lookup_app_r by lia.
      destruct (decide (Z.of_nat k < numel + num_experts * (block_size - 1))).
      * rewrite !lookup_replicate_2 by lia. done.
      * rewrite !lookup_ge_None_2 by (rewrite length_replicate; lia). done.
Qed.

Lemma holds_experts m :
  (∀ pid, 0 ≤ pid < num_experts → done4 pid m) →
  (∀ b, expert_of b = None → m !! (expert_ids_ptr, b) = start_mem !! (expert_ids_ptr, b)) →
  holds m expert_ids_ptr experts_result.
Proof.
  intros HD HU k. pose proof block_experts_length as BL. pose proof (first_slot_size num_experts).
  unfold experts_result. destruct (expert_of (Z.of_nat k)) as [e|] eqn:W.
  - apply expert_of_Some in W as [He Hk]. pose proof (first_slot_mono (e + 1) num_experts).
    rewrite lookup_app_l by nia. rewrite <- (Nat2Z.id k) at 2. rewrite (block_at e) by done. by apply (HD e).
  - rewrite HU, start_lookup, decide_True, Nat2Z.id by (done || lia).
    destruct (decide (k < length block_experts)%nat) as [Hlt|Hge].
    + exfalso. destruct (slot_split (Z.of_nat k * block_size)) as (e & He & Hk); [nia|].
      by rewrite (expert_of_block e) in W.
    + rewrite lookup_app_r, lookup_drop by lia. f_equal. lia.
Qed.

Lemma triton_ok : ∃ m',
  moe_align_block_size_triton topk_ids num_experts block_size sorted0 experts0 post0 m' ∧
  holds m' sorted_token_ids_ptr sorted_result ∧ holds m' expert_ids_ptr experts_result ∧
  holds m' total_tokens_post_pad_ptr [first_slot num_experts].
Proof.
  destruct (stage1_ok start_mem start_tokens start_counts) as (m1 & L1 & D1 & C1 & F1).
  destruct (stage2_ok m1 C1) as (m2 & L2 & D2 & C2 & F2).
  assert (∀ b x, b ≠ tokens_cnts_ptr → m2 !! (b, x) = start_mem !! (b, x)) as F12 by (intros; rewrite F2, F1; done).
  destruct (stage3_ok m2 C2) as (m3 & L3 & D3 & S3 & P3 & F3).
  { rewrite F12, start_lookup, decide_True by done. apply lookup_lt_is_Some_2. rewrite Hpost. cbn. lia. }
  { intros e He. rewrite F12, start_lookup, decide_True by (done || lia). apply lookup_lt_is_Some_2. rewrite length_replicate. lia. }
  { rewrite F12, start_lookup, decide_True by done. apply lookup_replicate_2. lia. }
  destruct (stage4_ok m3) as (m4 & L4 & D4 & H4 & F4); try done.
  { intros j Hj. rewrite F3, F12 by done. by apply start_tokens. }
  { intros r e Hr He. rewrite F3 by done. by apply C2. }
  { eapply room_dom, start_room. congruence. }
  exists m4. split_and!.
  - exists m1, m2, m3. done.
  - apply holds_sorted; [done|]. intros p W. rewrite F4 by (cbn; by rewrite W). by rewrite F3, F12.
  - apply holds_experts; [done|]. intros b W. rewrite F4 by (cbn; by rewrite W). by rewrite F3, F12.
  - intros [|k]; rewrite F4 by done; [done|].
    assert (m3 !! (total_tokens_post_pad_ptr, Z.of_nat (S k)) = None) as ->; [|done].
    apply not_elem_of_dom. rewrite D3, D2, D1. apply not_elem_of_dom.
    rewrite start_lookup, decide_True by lia. apply lookup_ge_None_2. lia.
Qed.

Lemma holds_unique m b xs ys : holds m b xs → holds m b ys → xs = ys.
Proof. intros H1 H2. apply list_eq. intros k. by rewrite <- H1, <- H2. Qed.

Lemma triton_unique m m' :
  moe_align_block_size_triton topk_ids num_experts block_size sorted0 experts0 post0 m →
  moe_align_block_size_triton topk_ids num_experts block_size sorted0 experts0 post0 m' → m = m'.
Proof.
  intros (m1 & m2 & m3 & L1 & L2 & L3 & L4) (n1 & n2 & n3 & L1' & L2' & L3' & L4').
  pose proof (launches_unique _ _ _ _ L1 L1') as ->. pose proof (launches_unique _ _ _ _ L2 L2') as ->.
  pose proof (launches_unique _ _ _ _ L3 L3') as ->. exact (launches_unique _ _ _ _ L4 L4').
Qed.

End facts.

(** C10: In whatever order the loads and stores of the programs of the four launches happen, they
    end without leaving a tensor, and the result is always the same: the tokens of every expert in
    order, padded to whole blocks, the expert of every block, and the padded number of tokens. In
    it every token has exactly one slot, and a block has tokens of its expert only. *)
Theorem moe_align_block_size_correct (uninit : buffer → nat → list Z) topk_ids block_size num_experts :
  0 < num_experts → 0 < block_size → Forall (λ x, 0 ≤ x < num_experts) topk_ids →
  Z.of_nat (length topk_ids) + (num_experts + 1) * (num_experts + block_size) < 2 ^ 31 →
  (∀ b n, length (uninit b n) = n) →
  let numel := Z.of_nat (length topk_ids) in
  let total := first_slot topk_ids block_size num_experts in
  let sorted := sorted_tokens topk_ids num_experts block_size in
  let blocks := block_experts topk_ids num_experts block_size in
  let max_tokens := numel + num_experts * (block_size - 1) in
  (∀ result, moe_align_block_size uninit topk_ids block_size num_experts result ↔
     result = (sorted ++ replicate (Z.to_nat (max_tokens - total)) numel,
               blocks ++ drop (length blocks) (uninit expert_ids_ptr (Z.to_nat (cdiv max_tokens block_size))),
               [total])) ∧
  (∀ j, 0 ≤ j < numel → ∃ p, sorted !! p = Some j ∧ ∀ q, sorted !! q = Some j → q = p) ∧
  (∀ b k j, 0 ≤ k < block_size → 0 ≤ b → sorted !! Z.to_nat (b * block_size + k) = Some j →
     ∃ e, blocks !! Z.to_nat b = Some e ∧ (j = numel ∨ topk_ids !! Z.to_nat j = Some e)).
Proof.
  intros Hn Hb Hids Hsize Hu numel total sorted blocks max_tokens. split_and!.
  - set (sorted0 := replicate (Z.to_nat max_tokens) numel).
    set (experts0 := uninit expert_ids_ptr (Z.to_nat (cdiv max_tokens block_size))).
    assert (Z.of_nat (length experts0) = cdiv max_tokens block_size) as He.
    { unfold experts0. rewrite Hu. apply Z2Nat.id. apply Z.div_pos; nia. }
    destruct (triton_ok topk_ids num_experts block_size Hn Hb Hids Hsize sorted0 experts0
      (uninit total_tokens_post_pad_ptr 1%nat) eq_refl He (Hu _ _)) as (m & T & H1 & H2 & H3).
    intros [[r1 r2] r3]. split.
    + intros (m' & T' & R1 & R2 & R3). cbn in R1, R2, R3.
      assert (m = m') as <- by (by eapply triton_unique).
      by rewrite (holds_unique _ _ _ _ R1 H1), (holds_unique _ _ _ _ R2 H2), (holds_unique _ _ _ _ R3 H3).
    + intros [= -> -> ->]. by exists m.
  - intros j Hj. by apply sorted_once.
  - intros b k j Hk Hb0. by apply block_has_one_expert.
Qed.

(** The example of the documentation, with experts counted from zero. *)
Definition ex_ids : list Z := [1; 2; 3; 0; 1; 3; 0; 2; 3; 0; 1; 2].

Lemma moe_align_block_size_correct_witness :
  moe_align_block_size (λ _ n, replicate n 0) ex_ids 4 4
    ([3; 6; 9; 12; 0; 4; 10; 12; 1; 7; 11; 12; 2; 5; 8; 12] ++ replicate 8 12, [0; 1; 2; 3; 0; 0], [16]).
Proof.
  destruct (moe_align_block_size_correct (λ _ n, replicate n 0) ex_ids 4 4) as [H _]; [done..| |done| |].
  - by repeat constructor.
  - intros. apply length_replicate.
  - apply H. vm_compute. reflexivity.
Defined.
