(* ===== verification/Tiles.v ===== *)
(** * Tiles: what the matrix kernels load, multiply and store

    [tl.load] and [tl.store] on blocks of pointers with a mask, [tl.dot], and the loop over the
    inner dimension that the matrix kernels share. Numbers are an abstract type with the laws
    of exact arithmetic that cutting a sum into blocks needs. *)

From S2P Require Import Prelude Grid.

Open Scope nat_scope.

(** ** Numbers *)

Class Arith (F : Type) := { fzero : F; fadd : F → F → F; fmul : F → F → F }.

Class ArithLaws (F : Type) `{Arith F} := {
  fadd_assoc (x y z : F) : fadd x (fadd y z) = fadd (fadd x y) z;
  fadd_zero_l (x : F) : fadd fzero x = x;
  fadd_zero_r (x : F) : fadd x fzero = x;
  fmul_zero_l (x : F) : fmul fzero x = fzero;
  fmul_zero_r (x : F) : fmul x fzero = fzero
}.

#[export] Instance arith_Z : Arith Z := { fzero := 0%Z; fadd := Z.add; fmul := Z.mul }.
#[export] Instance arith_laws_Z : ArithLaws Z.
Proof. split; cbn; lia. Qed.

Create HintDb arith.
#[export] Hint Rewrite @fadd_zero_l @fadd_zero_r @fmul_zero_l @fmul_zero_r using (typeclasses eauto) : arith.

Fixpoint fsum {F} `{Arith F} (n : nat) (f : nat → F) : F :=
  match n with 0 => fzero | S n => fadd (fsum n f) (f n) end.

(** [triton.cdiv]. *)
Definition cdiv (x n : nat) : nat := (x + n - 1) / n.

(** ** Programs on tiles *)

Section tiles.
Context {F : Type} `{Arith F} {addr : Type}.
Notation prog := (prog (addr := addr) (Val := F)).
Notation tile := (list (list F)).

Definition make_tile (rows cols : nat) (f : nat → nat → F) : tile := (λ i, f i <$> seq 0 cols) <$> seq 0 rows.
Definition tile_at (t : tile) (i j : nat) : F := default fzero (t !! i ≫= (.!! j)).

Definition load_tile (rows cols : nat) (ptrs : nat → nat → addr) (mask : nat → nat → bool) : prog tile :=
  mapM (λ i, mapM (λ j, if mask i j then load (ptrs i j) else mret fzero) (seq 0 cols)) (seq 0 rows).

Definition store_tile (rows cols : nat) (ptrs : nat → nat → addr) (mask : nat → nat → bool) (t : tile) : prog unit :=
  for_each (list_prod (seq 0 rows) (seq 0 cols)) (λ c _,
    if mask c.1 c.2 then put (ptrs c.1 c.2) (tile_at t c.1 c.2) else mret tt) tt.

Definition tl_dot (rows inner cols : nat) (x w : tile) : tile :=
  make_tile rows cols (λ i j, fsum inner (λ k, fmul (tile_at x i k) (tile_at w k j))).
Definition tile_add (rows cols : nat) (s t : tile) : tile := make_tile rows cols (λ i j, fadd (tile_at s i j) (tile_at t i j)).
Definition tile_scale (rows cols : nat) (t : tile) (c : F) : tile := make_tile rows cols (λ i j, fmul (tile_at t i j) c).

(** The loop [for k in range(0, tl.cdiv(K, BLOCK_K))]: [x_ptrs] and [w_ptrs] advance. *)
Definition accumulate (BLOCK_S BLOCK_N BLOCK_K K : nat) (x_ptrs w_ptrs : nat → nat → nat → addr) (x_step w_step : nat)
    (s_mask n_mask : nat → bool) : prog tile :=
  out ← for_each (seq 0 (cdiv K BLOCK_K)) (λ k '(partial_sum, x_off, w_off),
    x_tile ← load_tile BLOCK_S BLOCK_K (x_ptrs x_off) (λ i j, s_mask i && (j <? K - k * BLOCK_K));
    w_tile ← load_tile BLOCK_K BLOCK_N (w_ptrs w_off) (λ i j, (i <? K - k * BLOCK_K) && n_mask j);
    mret (tile_add BLOCK_S BLOCK_N partial_sum (tl_dot BLOCK_S BLOCK_K BLOCK_N x_tile w_tile), x_off + x_step, w_off + w_step))
    (make_tile BLOCK_S BLOCK_N (λ _ _, fzero), 0, 0);
  mret out.1.1.
End tiles.

(** ** Sums *)

Section sums.
Context {F : Type} `{ArithLaws F}.

Lemma fsum_ext n (f g : nat → F) : (∀ i, i < n → f i = g i) → fsum n f = fsum n g.
Proof. induction n as [|n IH]; intros E; [done|]. cbn. by rewrite IH, E by auto with lia. Qed.

Lemma fsum_zero n (f : nat → F) : (∀ i, i < n → f i = fzero) → fsum n f = fzero.
Proof. induction n as [|n IH]; intros E; [done|]. cbn. rewrite IH, E by auto with lia. apply fadd_zero_l. Qed.

Lemma fsum_add n m (f : nat → F) : fsum (n + m) f = fadd (fsum n f) (fsum m (λ i, f (n + i))).
Proof.
  induction m as [|m IH]; cbn; [by rewrite Nat.add_0_r, fadd_zero_r|].
  by rewrite Nat.add_succ_r; cbn; rewrite IH, fadd_assoc.
Qed.

(** Terms that are cut off. *)
Lemma fsum_cut n k (f g : nat → F) : k ≤ n → (∀ i, i < k → f i = g i) → (∀ i, k ≤ i < n → f i = fzero) → fsum n f = fsum k g.
Proof.
  intros Hk Ef Ez. replace n with (k + (n - k)) by lia. rewrite fsum_add, (fsum_zero (n - k)).
  - rewrite fadd_zero_r. by apply fsum_ext.
  - intros i Hi. apply Ez. lia.
Qed.

Lemma cdiv_le x n : 0 < n → x ≤ cdiv x n * n.
Proof.
  intros. unfold cdiv. pose proof (Nat.div_mod (x + n - 1) n). pose proof (Nat.mod_upper_bound (x + n - 1) n). nia.
Qed.

Lemma cdiv_lt x n k : 0 < n → k < cdiv x n → k * n < x.
Proof.
  intros Hn Hk. unfold cdiv in Hk. pose proof (Nat.div_mod (x + n - 1) n). pose proof (Nat.mod_upper_bound (x + n - 1) n). nia.
Qed.

Lemma cdiv_nat_mul x n : 0 < n → cdiv (x * n) n = x.
Proof.
  intros Hn. unfold cdiv. replace (x * n + n - 1) with (n - 1 + x * n) by lia.
  rewrite Nat.div_add, Nat.div_small by lia. lia.
Qed.

(** The first [b] blocks of a sum over [K] terms. *)
Lemma fsum_blocks n K b (f : nat → F) : 0 < n → b ≤ cdiv K n →
  fsum b (λ k, fsum n (λ i, if i <? K - k * n then f (k * n + i) else fzero)) = fsum ((b * n) `min` K) f.
Proof.
  intros Hn. induction b as [|b IH]; intros Hb; [done|]. cbn [fsum]. rewrite IH by lia.
  pose proof (cdiv_lt K n b Hn ltac:(lia)) as Hlt. rewrite (Nat.min_l (b * n)) by lia.
  rewrite (fsum_cut n (n `min` (K - b * n)) _ (λ i, f (b * n + i))).
  - rewrite <- fsum_add. f_equal. lia.
  - lia.
  - intros i Hi. destruct (Nat.ltb_spec i (K - b * n)); [done|lia].
  - intros i Hi. destruct (Nat.ltb_spec i (K - b * n)); [lia|done].
Qed.
End sums.

Lemma make_tile_ext {F} `{Arith F} rows cols (f g : nat → nat → F) :
  (∀ i j, i < rows → j < cols → f i j = g i j) → make_tile rows cols f = make_tile rows cols g.
Proof.
  intros E. apply list_fmap_ext. intros k i [-> Hi]%lookup_seq. apply list_fmap_ext. intros c j [-> Hj]%lookup_seq. by apply E.
Qed.

Lemma tile_at_make {F} `{Arith F} rows cols (f : nat → nat → F) i j : i < rows → j < cols → tile_at (make_tile rows cols f) i j = f i j.
Proof.
  intros Hi Hj. unfold tile_at, make_tile. rewrite list_lookup_fmap, lookup_seq_lt by done. cbn.
  by rewrite list_lookup_fmap, lookup_seq_lt by done.
Qed.

(** ** Running programs on tiles *)

Section running.
Context {F : Type} `{ArithLaws F} {addr : Type} `{Countable addr}.
Context (own : addr → option nat) (p : nat).
Notation prog := (prog (addr := addr) (Val := F)).
Notation run := (run_owned own p).
Implicit Types (m : gmap addr F).

(** What program [p] reads at [a]. *)
Definition reads m (a : addr) (v : F) : Prop := (own a = Some p ∨ own a = None) ∧ m !! a = Some v.

Lemma run_load m a v : reads m a v → run (load a) m = Some (v, m).
Proof. intros [Ha E]. cbn -[bool_decide]. by rewrite bool_decide_true, E. Qed.

Lemma run_owned_step {A B} (q : prog A) (f : A → prog B) m x m' : run q m = Some (x, m') → run (q ≫= f) m = run (f x) m'.
Proof. intros E. by rewrite run_owned_bind, E. Qed.

Lemma run_mapM {X A} (f : X → prog A) (g : X → A) xs m :
  (∀ x, x ∈ xs → run (f x) m = Some (g x, m)) → run (mapM f xs) m = Some (g <$> xs, m).
Proof.
  induction xs as [|x xs IH]; intros E; [done|]. change (mapM f (x :: xs)) with (y ← f x; ys ← mapM f xs; mret (y :: ys)).
  rewrite (run_owned_step _ _ _ _ _ (E x ltac:(left))), (run_owned_step _ _ _ (g <$> xs) m) by (apply IH; intros y Hy; apply E; by right).
  done.
Qed.

Lemma run_load_tile rows cols ptrs mask (v : nat → nat → F) m :
  (∀ i j, i < rows → j < cols → mask i j = true → reads m (ptrs i j) (v i j)) →
  run (load_tile rows cols ptrs mask) m = Some (make_tile rows cols (λ i j, if mask i j then v i j else fzero), m).
Proof.
  intros Hv. apply run_mapM. intros i Hi%elem_of_seq. apply run_mapM. intros j Hj%elem_of_seq.
  destruct (mask i j) eqn:E; [|done]. apply run_load, Hv; [lia..|done].
Qed.

Lemma run_for_seq {S} (body : nat → S → prog S) (st : nat → S) n m :
  (∀ k, k < n → run (body k (st k)) m = Some (st (k + 1), m)) →
  run (for_each (seq 0 n) body (st 0)) m = Some (st n, m).
Proof.
  intros Hb. assert (∀ d k, k + d = n → run (for_each (seq k d) body (st k)) m = Some (st n, m)) as E; [|by apply E].
  induction d as [|d IH]; intros k Hk; [by rewrite <- Hk, Nat.add_0_r|].
  cbn [seq for_each]. rewrite (run_owned_step _ _ _ _ _ (Hb k ltac:(lia))), Nat.add_1_r. apply IH. lia.
Qed.

(** The loop over the inner dimension sums over all of it. *)
Lemma run_accumulate BLOCK_S BLOCK_N BLOCK_K K x_ptrs w_ptrs x_step w_step s_mask n_mask (xv wv : nat → nat → F) m :
  0 < BLOCK_K →
  (∀ k i j, i < BLOCK_S → j < BLOCK_K → s_mask i = true → k * BLOCK_K + j < K →
     reads m (x_ptrs (k * x_step) i j) (xv i (k * BLOCK_K + j))) →
  (∀ k i j, i < BLOCK_K → j < BLOCK_N → n_mask j = true → k * BLOCK_K + i < K →
     reads m (w_ptrs (k * w_step) i j) (wv (k * BLOCK_K + i) j)) →
  ∃ t, run (accumulate BLOCK_S BLOCK_N BLOCK_K K x_ptrs w_ptrs x_step w_step s_mask n_mask) m = Some (t, m) ∧
    ∀ i j, i < BLOCK_S → j < BLOCK_N → s_mask i = true → n_mask j = true →
      tile_at t i j = fsum K (λ k, fmul (xv i k) (wv k j)).
Proof.
  intros HK Hx Hw.
  set (term := λ k i j, fsum BLOCK_K (λ c, fmul (if s_mask i && (c <? K - k * BLOCK_K) then xv i (k * BLOCK_K + c) else fzero)
                                       (if (c <? K - k * BLOCK_K) && n_mask j then wv (k * BLOCK_K + c) j else fzero))).
  set (tl := λ b, make_tile BLOCK_S BLOCK_N (λ i j, fsum b (λ k, term k i j))).
  exists (tl (cdiv K BLOCK_K)). split.
  - unfold accumulate. erewrite (run_owned_step _ _ _ (tl (cdiv K BLOCK_K), cdiv K BLOCK_K * x_step, cdiv K BLOCK_K * w_step)); [done|].
    apply (run_for_seq _ (λ k, (tl k, k * x_step, k * w_step))). intros k Hk.
    erewrite run_owned_step; [|apply (run_load_tile _ _ _ _ (λ i c, xv i (k * BLOCK_K + c)))].
    2:{ intros i j Hi Hj [Hs Hc%Nat.ltb_lt]%andb_true_iff. apply Hx; [done..|lia]. }
    erewrite run_owned_step; [|apply (run_load_tile _ _ _ _ (λ c j, wv (k * BLOCK_K + c) j))].
    2:{ intros i j Hi Hj [Hc%Nat.ltb_lt Hn]%andb_true_iff. apply Hw; [done..|lia]. }
    assert (∀ x w, (∀ i c, i < BLOCK_S → c < BLOCK_K → tile_at x i c = if s_mask i && (c <? K - k * BLOCK_K) then xv i (k * BLOCK_K + c) else fzero) →
      (∀ c j, c < BLOCK_K → j < BLOCK_N → tile_at w c j = if (c <? K - k * BLOCK_K) && n_mask j then wv (k * BLOCK_K + c) j else fzero) →
      tile_add BLOCK_S BLOCK_N (tl k) (tl_dot BLOCK_S BLOCK_K BLOCK_N x w) = tl (k + 1)) as Etl.
    { intros x w Ex Ew. apply make_tile_ext. intros i j Hi Hj. unfold tl, tl_dot. rewrite !tile_at_make, Nat.add_1_r by done.
      cbn [fsum]. f_equal. apply fsum_ext. intros c Hc. by rewrite Ex, Ew. }
    rewrite Etl by (intros; by rewrite tile_at_make). by rewrite !Nat.mul_add_distr_r, !Nat.mul_1_l.
  - intros i j Hi Hj Hs Hn. unfold tl. rewrite tile_at_make by done. unfold term. rewrite Hs, Hn.
    transitivity (fsum ((cdiv K BLOCK_K * BLOCK_K) `min` K) (λ k, fmul (xv i k) (wv k j))).
    2:{ f_equal. pose proof (cdiv_le K BLOCK_K). lia. }
    rewrite <- (fsum_blocks BLOCK_K K (cdiv K BLOCK_K)) by done. apply fsum_ext. intros k Hk. apply fsum_ext. intros c Hc.
    rewrite andb_true_r. cbn [andb]. destruct (c <? K - k * BLOCK_K); [done|apply fmul_zero_l].
Qed.

(** ** Stores *)

Lemma run_stores {C} (ptr : C → addr) (mask : C → bool) (v : C → F) cells m :
  (∀ c, c ∈ cells → mask c = true → own (ptr c) = Some p ∧ is_Some (m !! ptr c)) →
  ∃ m', run (for_each cells (λ c _, if mask c then put (ptr c) (v c) else mret tt) tt) m = Some (tt, m') ∧
    ∀ a w, (∀ c, c ∈ cells → mask c = true → ptr c = a → v c = w) →
      (∃ c, c ∈ cells ∧ mask c = true ∧ ptr c = a) ∨ m !! a = Some w → m' !! a = Some w.
Proof.
  revert m. induction cells as [|c cells IH]; intros m Hc; [exists m; split; [done|]; set_solver|].
  cbn [for_each]. destruct (mask c) eqn:Em.
  - destruct (Hc c ltac:(left) Em) as [Ho Hm].
    destruct (IH (<[ptr c := v c]> m)) as (m' & E & Hm').
    { intros d Hd Ed. destruct (Hc d ltac:(by right) Ed). split; [done|]. by rewrite lookup_insert_is_Some'; right. }
    exists m'. split.
    + erewrite run_owned_step; [exact E|]. cbn -[bool_decide]. rewrite bool_decide_true by done. by destruct Hm as [? ->].
    + intros a w Hw Ha. apply Hm'; [intros d Hd; apply Hw; by right|].
      destruct (decide (ptr c = a)) as [<-|Hne].
      * right. rewrite lookup_insert_eq. f_equal. apply Hw; [left|done..].
      * rewrite lookup_insert_ne by done. destruct Ha as [(d & [->|Hd]%elem_of_cons & Ed & Ea)|Ha]; [done|eauto|eauto].
  - destruct (IH m) as (m' & E & Hm'); [intros d Hd; apply Hc; by right|].
    exists m'. split; [exact E|]. intros a w Hw Ha. apply Hm'; [intros d Hd; apply Hw; by right|].
    destruct Ha as [(d & [->|Hd]%elem_of_cons & Ed & Ea)|Ha]; [congruence|eauto|eauto].
Qed.

Lemma run_store_tile rows cols ptrs mask t m :
  (∀ i j, i < rows → j < cols → mask i j = true → own (ptrs i j) = Some p ∧ is_Some (m !! ptrs i j)) →
  (∀ i j i' j', i < rows → j < cols → mask i j = true → i' < rows → j' < cols → mask i' j' = true → ptrs i j = ptrs i' j' → i = i' ∧ j = j') →
  ∃ m', run (store_tile rows cols ptrs mask t) m = Some (tt, m') ∧
    ∀ i j, i < rows → j < cols → mask i j = true → m' !! ptrs i j = Some (tile_at t i j).
Proof.
  intros Hown Hinj.
  assert (∀ i j, (i, j) ∈ list_prod (seq 0 rows) (seq 0 cols) ↔ i < rows ∧ j < cols) as Hcells.
  { intros i j. rewrite list_elem_of_In, in_prod_iff, !in_seq. lia. }
  destruct (run_stores (λ c, ptrs c.1 c.2) (λ c, mask c.1 c.2) (λ c, tile_at t c.1 c.2) (list_prod (seq 0 rows) (seq 0 cols)) m)
    as (m' & E & Hm').
  { intros [i j] [Hi Hj]%Hcells. by apply Hown. }
  exists m'. split; [exact E|]. intros i j Hi Hj Em. apply Hm'.
  - intros [i' j'] [Hi' Hj']%Hcells Em' E'. cbn in *. by destruct (Hinj _ _ _ _ Hi' Hj' Em' Hi Hj Em E') as [-> ->].
  - left. exists (i, j). by rewrite Hcells.
Qed.
End running.

(** ** Launches whose programs store at different addresses *)

Lemma launch_writes {Val addr} `{Countable addr} (ps : list (prog (addr := addr) (Val := Val) unit)) m0
    (W : nat → addr → Prop) `{∀ i a, Decision (W i a)} (v : nat → addr → Val) :
  (∀ i j a, i < length ps → j < length ps → W i a → W j a → i = j) →
  (∀ own i p, ps !! i = Some p → (∀ a, W i a → own a = Some i) → (∀ a, (∀ j, j < length ps → ¬ W j a) → own a = None) →
     ∃ m', run_owned own i p m0 = Some (tt, m') ∧ ∀ a, W i a → m' !! a = Some (v i a)) →
  ∃ m', launches ps m0 m' ∧ dom m' = dom m0 ∧ (∀ i a, i < length ps → W i a → m' !! a = Some (v i a)) ∧
    (∀ a, (∀ j, j < length ps → ¬ W j a) → m' !! a = m0 !! a).
Proof.
  intros Hdisj Hrun. set (own := λ a, fst <$> list_find (λ i, W i a) (seq 0 (length ps))).
  assert (∀ i a, i < length ps → W i a → own a = Some i) as Hown.
  { intros i a Hi Hw. unfold own.
    destruct (list_find_elem_of (λ i, W i a) (seq 0 (length ps)) i) as [[k j] E]; [apply elem_of_seq; lia|done|].
    rewrite E. cbn. apply list_find_Some in E as ([-> Hk]%lookup_seq & Hj & _). f_equal. by apply (Hdisj _ _ a). }
  assert (∀ a, (∀ j, j < length ps → ¬ W j a) → own a = None) as Hnone.
  { intros a Hno. unfold own. destruct list_find as [[k j]|] eqn:E; [|done].
    apply list_find_Some in E as ([-> Hk]%lookup_seq & Hj & _). by destruct (Hno (0 + k) Hk). }
  destruct (launch_wp own ps m0 (λ i m, ∀ a, W i a → m !! a = Some (v i a))) as (m' & L & Hdom & Hframe & HQ).
  - intros a i E. unfold own in E. destruct list_find as [[k j]|] eqn:El; [|done]. injection E as ->.
    apply list_find_Some in El as ([-> Hk]%lookup_seq & _). lia.
  - intros i p Hi. destruct (Hrun own i p Hi) as (m' & E & Hv); [|done|by exists tt, m'].
    intros a. apply Hown. by eapply lookup_lt_Some.
  - intros i m m' Hi Hview Hv a Hw. rewrite <- (Hview a); [by apply Hv|]. left. by apply Hown.
  - exists m'. split; [done|]. split; [done|]. split; [eauto|]. intros a Hno. by apply Hframe, Hnone.
Qed.

(** ** Tensors in memory *)

(** A tensor's elements, row after row. *)
Definition tensor {B Val} `{Countable B} (b : B) (xs : list Val) : gmap (B * nat) Val :=
  list_to_map (imap (λ k v, ((b, k), v)) xs).

Lemma flat_tensor_lookup {B Val} `{Countable B} (b b' : B) (xs : list Val) k :
  tensor b xs !! (b', k) = if decide (b = b') then xs !! k else None.
Proof.
  unfold tensor. case_decide as Hb; [subst b'|].
  - destruct (xs !! k) as [v|] eqn:E.
    + apply elem_of_list_to_map.
      * apply NoDup_fmap_fst; [|].
        -- intros [? ?] v1 v2 (i & w1 & E1 & Hi)%elem_of_lookup_imap (j & w2 & E2 & Hj)%elem_of_lookup_imap. cbn in *. congruence.
        -- apply NoDup_alt. intros i j [c w] Hi Hj. rewrite list_lookup_imap in Hi, Hj.
           destruct (xs !! i), (xs !! j); cbn in *; congruence.
      * apply elem_of_lookup_imap. eauto.
    + apply not_elem_of_list_to_map. intros ([[c w] z] & E1 & (i & w' & E2 & Hi)%elem_of_lookup_imap)%list_elem_of_fmap. cbn in *. congruence.
  - apply not_elem_of_list_to_map. intros ([[c w] z] & E1 & (i & w' & E2 & Hi)%elem_of_lookup_imap)%list_elem_of_fmap. cbn in *. congruence.
Qed.

Definition shape2 {A} (d0 d1 : nat) (t : list (list A)) : Prop := length t = d0 ∧ ∀ row, row ∈ t → length row = d1.
Definition shape3 {A} (d0 d1 d2 : nat) (t : list (list (list A))) : Prop := length t = d0 ∧ ∀ mat, mat ∈ t → shape2 d1 d2 mat.

Definition at2 {A} (t : list (list A)) (i j : nat) : option A := row ← t !! i; row !! j.
Definition at3 {A} (t : list (list (list A))) (i j k : nat) : option A := mat ← t !! i; at2 mat j k.

Lemma concat_lookup {A} d0 d1 (t : list (list A)) i j : shape2 d0 d1 t → j < d1 → concat t !! (i * d1 + j) = at2 t i j.
Proof.
  intros [_ Hrow] Hj. revert i. induction t as [|row t IH]; intros i; [done|]. cbn [concat].
  assert (length row = d1) as Hl by (apply Hrow; left). destruct i as [|i]; unfold at2; cbn [lookup list_lookup mbind option_bind].
  - by rewrite lookup_app_l by lia.
  - rewrite lookup_app_r by lia. replace (S i * d1 + j - length row) with (i * d1 + j) by lia.
    apply IH. intros r Hr. apply Hrow. by right.
Qed.

Lemma concat_length {A} d0 d1 (t : list (list A)) : shape2 d0 d1 t → length (concat t) = d0 * d1.
Proof.
  intros [<- Hrow]. induction t as [|row t IH]; [done|]. cbn. rewrite length_app, IH by (intros r Hr; apply Hrow; by right).
  rewrite Hrow by left. done.
Qed.

Lemma shape3_concat {A} d0 d1 d2 (t : list (list (list A))) : shape3 d0 d1 d2 t → shape2 (d0 * d1) d2 (concat t).
Proof.
  intros [Hl Hmat]. split.
  - apply concat_length. split; [done|]. intros m Hm. apply (Hmat m Hm).
  - intros row (m & Hm & Hr)%list_elem_of_In%in_concat. apply list_elem_of_In in Hm, Hr. by apply (Hmat m Hm).
Qed.

Lemma concat3_lookup {A} d0 d1 d2 (t : list (list (list A))) i j k : shape3 d0 d1 d2 t → j < d1 → k < d2 →
  concat (concat t) !! ((i * d1 + j) * d2 + k) = at3 t i j k.
Proof.
  intros Ht Hj Hk. rewrite (concat_lookup (d0 * d1)) by first [done|by apply shape3_concat].
  unfold at3, at2. rewrite (concat_lookup d0 d1 t) by first [done|split; [apply Ht|intros m Hm; apply (proj2 Ht m Hm)]].
  unfold at2. by destruct (t !! i).
Qed.
