(* ===== verification/LoraKernels.v ===== *)
(** * The matrix kernels of LoRA

    [lora/triton_ops]: for a batch whose requests use different adapters, [sgemm_lora_a] takes
    the tokens of each request to the low rank of its adapter, and three kernels take them back
    and add them to the output of the base layer. *)

From S2P Require Import Prelude Grid Tiles.

Open Scope nat_scope.

(** ** The batch *)

Record LoRABatchInfo {F : Type} := MkBatchInfo {
  bs : nat;
  seg_lens : list nat;
  seg_indptr : list nat;
  max_len : nat;
  weight_indices : list nat;
  lora_ranks : list nat;
  scalings : list F
}.
Arguments LoRABatchInfo : clear implicits.
Arguments MkBatchInfo {F}.

(** [tl.load] from the integer tensors, which no kernel writes. *)
Definition tl_load (t : list nat) (i : nat) : nat := default 0 (t !! i).

(** The tensors that a kernel gets. *)
Inductive buffer := X | Weights | Output.
#[export] Instance buffer_eq_dec : EqDecision buffer.
Proof. solve_decision. Defined.
#[export] Instance buffer_countable : Countable buffer.
Proof.
  refine (inj_countable' (λ b, match b with X => 0 | Weights => 1 | Output => 2 end)
            (λ n, match n with 0 => X | 1 => Weights | _ => Output end) _).
  by intros [].
Defined.
Notation addr := (buffer * nat)%type.

(** ** The kernels *)

Section kernels.
Context {F : Type} `{Arith F}.
Notation prog := (prog (addr := addr) (Val := F)).
Context (info : LoRABatchInfo F).

(** When the rank is 0 there is no tile: [num_pid_n] is 0, and nothing is stored whatever the
    division by it gives. *)
Definition _sgemm_lora_a_kernel (N K stack_num x_stride_0 x_stride_1 w_stride_0 w_stride_1 w_stride_2 output_stride_0 output_stride_1
    BLOCK_S BLOCK_N BLOCK_K : nat) (pid batch_id : nat) : prog unit :=
  let seg_len := tl_load (seg_lens info) batch_id in
  let w_index := tl_load (weight_indices info) batch_id in
  let seg_start := tl_load (seg_indptr info) batch_id in
  let rank := tl_load (lora_ranks info) w_index in
  let N := N `min` (rank * stack_num) in
  let num_pid_n := cdiv N BLOCK_N in
  let pid_s := pid / num_pid_n in
  let pid_n := pid mod num_pid_n in
  let s_offset i := i + pid_s * BLOCK_S in
  let n_offset j := j + pid_n * BLOCK_N in
  partial_sum ← accumulate BLOCK_S BLOCK_N BLOCK_K K
    (λ off i k, (X, seg_start * x_stride_0 + (s_offset i * x_stride_0 + k * x_stride_1) + off))
    (λ off k j, (Weights, w_index * w_stride_0 + (k * w_stride_2 + n_offset j * w_stride_1) + off))
    (BLOCK_K * x_stride_1) (BLOCK_K * w_stride_2)
    (λ i, s_offset i <? seg_len) (λ j, n_offset j <? N);
  store_tile BLOCK_S BLOCK_N
    (λ i j, (Output, seg_start * output_stride_0 + (s_offset i * output_stride_0 + n_offset j * output_stride_1)))
    (λ i j, (s_offset i <? seg_len) && (n_offset j <? N)) partial_sum.

(** What the three kernels that go back from the low rank share: the columns from [x_col] of
    [x], the rows from [n_start] of the weights; [w_mask] and [o_mask] limit the rows of the
    weights and the columns of the output. *)
Definition lora_b_tile (K x_stride_0 x_stride_1 w_stride_0 w_stride_1 w_stride_2 output_stride_0 output_stride_1
    BLOCK_S BLOCK_N BLOCK_K : nat) (fuse_scaling_add : bool)
    (x_col : nat → nat) (n_start num_pid_n : nat) (w_mask o_mask : nat → bool) (pid batch_id : nat) : prog unit :=
  let seg_len := tl_load (seg_lens info) batch_id in
  let w_index := tl_load (weight_indices info) batch_id in
  let seg_start := tl_load (seg_indptr info) batch_id in
  let rank := tl_load (lora_ranks info) w_index in
  let scaling := default fzero (scalings info !! w_index) in
  let K := K `min` rank in
  let pid_s := pid / num_pid_n in
  let pid_n := pid mod num_pid_n in
  let s_offset i := i + pid_s * BLOCK_S in
  let n_offset j := j + pid_n * BLOCK_N in
  partial_sum ← accumulate BLOCK_S BLOCK_N BLOCK_K K
    (λ off i k, (X, seg_start * x_stride_0 + x_col K * x_stride_1 + (s_offset i * x_stride_0 + k * x_stride_1) + off))
    (λ off k j, (Weights, w_index * w_stride_0 + n_start * w_stride_1 + (k * w_stride_2 + n_offset j * w_stride_1) + off))
    (BLOCK_K * x_stride_1) (BLOCK_K * w_stride_2)
    (λ i, s_offset i <? seg_len) (λ j, w_mask (n_offset j));
  let partial_sum := tile_scale BLOCK_S BLOCK_N partial_sum scaling in
  let output_ptr i j := (Output, seg_start * output_stride_0 + n_start * output_stride_1 + (s_offset i * output_stride_0 + n_offset j * output_stride_1)) in
  let output_mask i j := (s_offset i <? seg_len) && o_mask (n_offset j) in
  partial_sum ← (if fuse_scaling_add
                 then base ← load_tile BLOCK_S BLOCK_N output_ptr output_mask; mret (tile_add BLOCK_S BLOCK_N partial_sum base)
                 else mret partial_sum);
  store_tile BLOCK_S BLOCK_N output_ptr output_mask partial_sum.

(** The masks of this one do not look at the columns. *)
Definition _sgemm_lora_b_kernel (N K x_stride_0 x_stride_1 w_stride_0 w_stride_1 w_stride_2 output_stride_0 output_stride_1
    BLOCK_S BLOCK_N BLOCK_K : nat) (fuse_scaling_add : bool) (pid batch_id : nat) : prog unit :=
  lora_b_tile K x_stride_0 x_stride_1 w_stride_0 w_stride_1 w_stride_2 output_stride_0 output_stride_1 BLOCK_S BLOCK_N BLOCK_K
    fuse_scaling_add (λ _, 0) 0 (cdiv N BLOCK_N) (λ _, true) (λ _, true) pid batch_id.

Definition _qkv_lora_b_kernel (K max_qkv_out_dim x_stride_0 x_stride_1 w_stride_0 w_stride_1 w_stride_2 output_stride_0 output_stride_1 : nat)
    (n_offs : list nat) (BLOCK_S BLOCK_N BLOCK_K : nat) (fuse_scaling_add : bool) (pid qkv_id batch_id : nat) : prog unit :=
  let n_start := tl_load n_offs qkv_id in
  let n_size := tl_load n_offs (qkv_id + 1) - n_start in
  lora_b_tile K x_stride_0 x_stride_1 w_stride_0 w_stride_1 w_stride_2 output_stride_0 output_stride_1 BLOCK_S BLOCK_N BLOCK_K
    fuse_scaling_add (λ K, qkv_id * K) n_start (cdiv max_qkv_out_dim BLOCK_N) (λ n, n <? n_size) (λ n, n <? n_size) pid batch_id.

Definition _gate_up_lora_b_kernel (K output_dim x_stride_0 x_stride_1 w_stride_0 w_stride_1 w_stride_2 output_stride_0 output_stride_1
    BLOCK_S BLOCK_N BLOCK_K : nat) (fuse_scaling_add : bool) (pid gate_up_id batch_id : nat) : prog unit :=
  lora_b_tile K x_stride_0 x_stride_1 w_stride_0 w_stride_1 w_stride_2 output_stride_0 output_stride_1 BLOCK_S BLOCK_N BLOCK_K
    fuse_scaling_add (λ K, gate_up_id * K) (gate_up_id * output_dim) (cdiv output_dim BLOCK_N)
    (λ n, n <? output_dim) (λ n, n <? output_dim) pid batch_id.

(** ** Launches *)

(** The programs of [kernel[(P, J, B)]]; a grid of two dimensions has [J = 1]. *)
Definition grid (P J B : nat) (kernel : nat → nat → nat → prog unit) : list (prog unit) :=
  (λ i, kernel (i mod P) ((i / P) mod J) (i / (P * J))) <$> seq 0 (P * J * B).

Definition memory_of (x : list (list F)) (weights : list (list (list F))) (output : list (list F)) : gmap addr F :=
  tensor X (concat x) ∪ tensor Weights (concat (concat weights)) ∪ tensor Output (concat output).

(** [out] is what the launch leaves in the output tensor. *)
Definition output_is (m : gmap addr F) (d0 d1 : nat) (out : list (list F)) : Prop :=
  shape2 d0 d1 out ∧ ∀ k, m !! (Output, k) = concat out !! k.

(** [empty S R]: what [torch.empty] leaves. *)
Definition sgemm_lora_a_fwd (empty : nat → nat → list (list F)) (S R K : nat) (x : list (list F)) (weights : list (list (list F)))
    (stack_num : nat) (out : list (list F)) : Prop :=
  let BLOCK_S := 16 in let BLOCK_K := 256 in let BLOCK_R := 16 in
  ∃ m', launches (grid (cdiv (max_len info) BLOCK_S * cdiv R BLOCK_R) 1 (bs info) (λ pid _,
          _sgemm_lora_a_kernel R K stack_num K 1 (R * K) K 1 R 1 BLOCK_S BLOCK_R BLOCK_K pid))
          (memory_of x weights (empty S R)) m' ∧ output_is m' S R out.

(** The three that go back; [base_output] is written in place. *)
Definition sgemm_lora_b_fwd (S N R : nat) (x : list (list F)) (weights : list (list (list F))) (base_output out : list (list F)) : Prop :=
  let BLOCK_S := 16 in let BLOCK_R := 16 in let BLOCK_N := 256 in
  ∃ m', launches (grid (cdiv (max_len info) BLOCK_S * cdiv N BLOCK_N) 1 (bs info) (λ pid _,
          _sgemm_lora_b_kernel N R R 1 (N * R) R 1 N 1 BLOCK_S BLOCK_N BLOCK_R true pid))
          (memory_of x weights base_output) m' ∧ output_is m' S N out.

Definition qkv_lora_b_fwd (S output_dim r : nat) (x : list (list F)) (qkv_lora_b : list (list (list F)))
    (output_offset : list nat) (max_qkv_out_dim : nat) (base_output out : list (list F)) : Prop :=
  let BLOCK_S := 16 in let BLOCK_R := 16 in let BLOCK_OUT := 64 in
  ∃ m', launches (grid (cdiv (max_len info) BLOCK_S * cdiv max_qkv_out_dim BLOCK_OUT) 3 (bs info)
          (_qkv_lora_b_kernel r max_qkv_out_dim (3 * r) 1 (output_dim * r) r 1 output_dim 1 output_offset BLOCK_S BLOCK_OUT BLOCK_R true))
          (memory_of x qkv_lora_b base_output) m' ∧ output_is m' S output_dim out.

Definition gate_up_lora_b_fwd (S output_dim r : nat) (x : list (list F)) (gate_up_lora_b : list (list (list F)))
    (base_output out : list (list F)) : Prop :=
  let BLOCK_S := 16 in let BLOCK_R := 16 in let BLOCK_OUT := 64 in
  ∃ m', launches (grid (cdiv (max_len info) BLOCK_S * cdiv output_dim BLOCK_OUT) 2 (bs info)
          (_gate_up_lora_b_kernel r output_dim (2 * r) 1 (2 * output_dim * r) r 1 (2 * output_dim) 1 BLOCK_S BLOCK_OUT BLOCK_R true))
          (memory_of x gate_up_lora_b base_output) m' ∧ output_is m' S (2 * output_dim) out.
End kernels.
