(* ===== verification/LoraLaunch.v ===== *)
(** * Launches over the segments of a batch

    Every program of the LoRA kernels stores one tile: some rows of the segment of one request,
    some columns of one part of the output. The tiles do not overlap and cover what they should. *)

From S2P Require Import Prelude Grid Tiles LoraKernels.

Open Scope nat_scope.

(** ** Segments *)

(** The segments of the requests are one after the other, [S] tokens in all; every request has
    an adapter of the [num] in the pool, with a rank of at most [R]. *)
Record info_ok {F} (info : LoRABatchInfo F) (S num R : nat) : Prop := {
  io_start : tl_load (seg_indptr info) 0 = 0;
  io_next b : b < bs info → tl_load (seg_indptr info) (b + 1) = tl_load (seg_indptr info) b + tl_load (seg_lens info) b;
  io_end : tl_load (seg_indptr info) (bs info) = S;
  io_max b : b < bs info → tl_load (seg_lens info) b ≤ max_len info;
  io_weight b : b < bs info → tl_load (weight_indices info) b < num;
  io_rank b : b < bs info → tl_load (lora_ranks info) (tl_load (weight_indices info) b) ≤ R
}.

Section segments.
Context {F : Type} (info : LoRABatchInfo F) (S num R : nat) (Hinfo : info_ok info S num R).
Notation start b := (tl_load (seg_indptr info) b).
Notation len b := (tl_load (seg_lens info) b).

Lemma start_mono b b' : b ≤ b' → b' ≤ bs info → start b ≤ start b'.
Proof.
  intros Hle. induction Hle as [|b' Hle IH]; intros Hb; [done|].
  rewrite <- Nat.add_1_r, (io_next _ _ _ _ Hinfo) by lia. specialize (IH ltac:(lia)). lia.
Qed.

Lemma segment_end b : b < bs info → start b + len b ≤ S.
Proof.
  intros Hb. rewrite <- (io_next _ _ _ _ Hinfo), <- (io_end _ _ _ _ Hinfo) by done. apply start_mono; lia.
Qed.

Lemma segment_unique b b' row : b < bs info → b' < bs info →
  start b ≤ row < start b + len b → start b' ≤ row < start b' + len b' → b = b'.
Proof.
  intros Hb Hb' H1 H2. destruct (Nat.lt_trichotomy b b') as [Hlt|[E|Hlt]]; [|done|].
  - pose proof (start_mono (b + 1) b' ltac:(lia) ltac:(lia)). rewrite (io_next _ _ _ _ Hinfo) in H by done. lia.
  - pose proof (start_mono (b' + 1) b ltac:(lia) ltac:(lia)). rewrite (io_next _ _ _ _ Hinfo) in H by done. lia.
Qed.

(** Every token belongs to a request. *)
Lemma segment_of row : row < S → ∃ b s, b < bs info ∧ s < len b ∧ row = start b + s.
Proof.
  rewrite <- (io_end _ _ _ _ Hinfo). assert (∀ n, n ≤ bs info → row < start n → ∃ b s, b < bs info ∧ s < len b ∧ row = start b + s) as E; [|by apply E].
  induction n as [|n IH]; intros Hn Hrow; [rewrite (io_start _ _ _ _ Hinfo) in Hrow; lia|].
  destruct (decide (row < start n)); [apply IH; lia|].
  rewrite <- Nat.add_1_r, (io_next _ _ _ _ Hinfo) in Hrow by lia. exists n, (row - start n). lia.
Qed.
End segments.

(** ** The tiles of a launch *)

Lemma row_col a O c : c < O → (a * O + c) / O = a ∧ (a * O + c) mod O = c.
Proof.
  intros Hc. split; symmetry; [apply (Nat.div_unique _ O a c)|apply (Nat.mod_unique _ O a c)]; lia.
Qed.

Lemma grid_index P J i : 0 < P → 0 < J → i = (i / (P * J) * J + (i / P) mod J) * P + i mod P.
Proof.
  intros HP HJ. rewrite <- Nat.Div0.div_div. pose proof (Nat.div_mod i P ltac:(lia)).
  pose proof (Nat.div_mod (i / P) J ltac:(lia)). nia.
Qed.

Lemma grid_coords P J pid id b : pid < P → id < J →
  let i := (b * J + id) * P + pid in i mod P = pid ∧ (i / P) mod J = id ∧ i / (P * J) = b.
Proof.
  intros Hp Hj i.
  assert (i / P = b * J + id) as Ed by (symmetry; apply (Nat.div_unique i P _ pid); unfold i; lia).
  split; [symmetry; apply (Nat.mod_unique i P (b * J + id)); unfold i; lia|].
  rewrite <- Nat.Div0.div_div, Ed. split; symmetry.
  - apply (Nat.mod_unique _ J b); lia.
  - apply (Nat.div_unique _ J b id); lia.
Qed.

Section launch.
Context {F : Type} `{arith : Arith F} `{!ArithLaws F} (info : LoRABatchInfo F) (S num R : nat) (Hinfo : info_ok info S num R).
Context (P J BS BN O : nat) (num_pid_n : nat → nat) (n_start : nat → nat) (n_size : nat → nat → nat).
Notation start b := (tl_load (seg_indptr info) b).
Notation len b := (tl_load (seg_lens info) b).
Context (HBS : 0 < BS) (HBN : 0 < BN).
(** The parts of a row of the output do not overlap. *)
Context (Hfits : ∀ b id, b < bs info → id < J → 0 < n_size b id → n_start id + n_size b id ≤ O).
Context (Hparts : ∀ b id id' n n', b < bs info → id < J → id' < J → n < n_size b id → n' < n_size b id' →
  n_start id + n = n_start id' + n' → id = id').
Context (Htiles : ∀ b id, b < bs info → id < J → n_size b id ≤ num_pid_n b * BN).
Context (Hgrid : ∀ b id s n, b < bs info → id < J → s < len b → n < n_size b id → s / BS * num_pid_n b + n / BN < P).

(** The addresses that a program stores to. *)
Definition stored (pid id b : nat) (a : addr) : Prop :=
  let row := a.2 / O in let col := a.2 mod O in
  a.1 = Output ∧ (start b ≤ row < start b + len b ∧ n_start id ≤ col < n_start id + n_size b id) ∧
  (row - start b) / BS = pid / num_pid_n b ∧ (col - n_start id) / BN = pid mod num_pid_n b.

#[local] Instance stored_dec pid id b a : Decision (stored pid id b a).
Proof. unfold stored. apply _. Defined.

Lemma stored_at pid id b s n : b < bs info → id < J → s < len b → n < n_size b id →
  stored pid id b (Output, (start b + s) * O + (n_start id + n)) ↔ s / BS = pid / num_pid_n b ∧ n / BN = pid mod num_pid_n b.
Proof.
  intros Hb Hj Hs Hn. pose proof (Hfits b id Hb Hj ltac:(lia)) as Hf. unfold stored. cbn [fst snd].
  destruct (row_col (start b + s) O (n_start id + n)) as [-> ->]; [lia|].
  replace (start b + s - start b) with s by lia. replace (n_start id + n - n_start id) with n by lia.
  split; [intuition|]. intros [E1 E2]. split; [done|]. split; [lia|done].
Qed.

Lemma stored_inv pid id b a : stored pid id b a → ∃ s n, s < len b ∧ n < n_size b id ∧
  a = (Output, (start b + s) * O + (n_start id + n)) ∧ s / BS = pid / num_pid_n b ∧ n / BN = pid mod num_pid_n b.
Proof.
  destruct a as [buf k]. intros (Eb & (Hrow & Hcol) & E1 & E2). cbn [fst snd] in *. subst buf.
  exists (k / O - start b), (k mod O - n_start id). split; [lia|]. split; [lia|]. split; [|done]. f_equal.
  replace (start b + (k / O - start b)) with (k / O) by lia. replace (n_start id + (k mod O - n_start id)) with (k mod O) by lia.
  destruct (decide (O = 0)) as [->|]; [done|]. rewrite Nat.mul_comm. by apply Nat.div_mod.
Qed.

Lemma stored_unique pid id b pid' id' b' a : b < bs info → b' < bs info → id < J → id' < J →
  stored pid id b a → stored pid' id' b' a → b = b' ∧ id = id' ∧ pid = pid'.
Proof.
  intros Hb Hb' Hj Hj' (_ & (Hr & Hc) & E1 & E2) (_ & (Hr' & Hc') & E1' & E2').
  assert (b = b') as <- by (by eapply segment_unique).
  assert (id = id') as <-.
  { eapply (Hparts b id id' (a.2 mod O - n_start id) (a.2 mod O - n_start id')); try done; lia. }
  split; [done|]. split; [done|]. pose proof (Htiles b id Hb Hj) as Ht.
  assert (num_pid_n b ≠ 0) as Hn by nia.
  rewrite (Nat.div_mod pid (num_pid_n b)), (Nat.div_mod pid' (num_pid_n b)) by done. congruence.
Qed.

(** The tile of a program. *)
Lemma tile_stored pid id b i j : b < bs info → id < J → i < BS → j < BN →
  i + pid / num_pid_n b * BS < len b → j + pid mod num_pid_n b * BN < n_size b id →
  stored pid id b (Output, (start b + (i + pid / num_pid_n b * BS)) * O + (n_start id + (j + pid mod num_pid_n b * BN))).
Proof.
  intros Hb Hj Hi Hjj Hs Hn. apply stored_at; [done..|].
  rewrite !Nat.div_add, (Nat.div_small i), (Nat.div_small j) by lia. lia.
Qed.

Lemma stored_tile pid id b a : stored pid id b a → ∃ i j, i < BS ∧ j < BN ∧
  i + pid / num_pid_n b * BS < len b ∧ j + pid mod num_pid_n b * BN < n_size b id ∧
  a = (Output, (start b + (i + pid / num_pid_n b * BS)) * O + (n_start id + (j + pid mod num_pid_n b * BN))).
Proof.
  intros (s & n & Hs & Hn & -> & <- & <-)%stored_inv. exists (s mod BS), (n mod BN).
  split; [apply Nat.mod_upper_bound; lia|]. split; [apply Nat.mod_upper_bound; lia|].
  pose proof (Nat.div_mod s BS). pose proof (Nat.div_mod n BN).
  replace (s mod BS + s / BS * BS) with s by lia. by replace (n mod BN + n / BN * BN) with n by lia.
Qed.

(** Storing a whole tile. *)
Lemma run_store_stored own i pid id b ptrs mask (t : list (list F)) m : b < bs info → id < J →
  (∀ a, stored pid id b a → own a = Some i) →
  (∀ row c, row < S → c < O → is_Some (m !! (Output, row * O + c))) →
  (∀ r c, ptrs r c = (Output, (start b + (r + pid / num_pid_n b * BS)) * O + (n_start id + (c + pid mod num_pid_n b * BN)))) →
  (∀ r c, r < BS → c < BN → mask r c = true ↔ r + pid / num_pid_n b * BS < len b ∧ c + pid mod num_pid_n b * BN < n_size b id) →
  ∃ m', run_owned own i (store_tile (H := arith) BS BN ptrs mask t) m = Some (tt, m') ∧
    ∀ a, stored pid id b a → ∃ r c, r < BS ∧ c < BN ∧ mask r c = true ∧ a = ptrs r c ∧ m' !! a = Some (tile_at t r c).
Proof.
  intros Hb Hj Hown Ho Hptr Hmask. pose proof (segment_end info S num R Hinfo b Hb) as Hend.
  destruct (run_store_tile own i BS BN ptrs mask t m) as (m' & Em & Hm').
  - intros r c Hr Hc Em. apply Hmask in Em as [Hs Hn]; [|done..]. rewrite Hptr. split.
    + by apply Hown, tile_stored.
    + apply Ho; [lia|]. pose proof (Hfits b id Hb Hj). lia.
  - intros r c r' c' Hr Hc E1 Hr' Hc' E2 E. apply Hmask in E1 as [Hs Hn]; [|done..]. apply Hmask in E2 as [Hs' Hn']; [|done..].
    rewrite !Hptr in E. injection E as E. pose proof (Hfits b id Hb Hj ltac:(lia)) as Hf.
    apply (f_equal (λ k, (k / O, k mod O))) in E.
    destruct (row_col (start b + (r + pid / num_pid_n b * BS)) O (n_start id + (c + pid mod num_pid_n b * BN))) as [E1 E2]; [lia|].
    destruct (row_col (start b + (r' + pid / num_pid_n b * BS)) O (n_start id + (c' + pid mod num_pid_n b * BN))) as [E3 E4]; [lia|].
    rewrite E1, E2, E3, E4 in E. injection E as E5 E6. lia.
  - exists m'. split; [exact Em|]. intros a (r & c & Hr & Hc & Hs & Hn & ->)%stored_tile.
    assert (mask r c = true) as Ec by (by apply Hmask). exists r, c. rewrite <- Hptr. split; [done|]. split; [done|]. split; [done|].
    split; [done|]. by apply Hm'.
Qed.

Lemma segment_launch (kernel : nat → nat → nat → prog (addr := addr) (Val := F) unit) m0 (v : nat → nat → nat → addr → F) :
  (∀ own i pid id b, pid < P → id < J → b < bs info → (∀ a, stored pid id b a → own a = Some i) →
     (∀ a, a.1 ≠ Output → own a = None) →
     ∃ m', run_owned own i (kernel pid id b) m0 = Some (tt, m') ∧ ∀ a, stored pid id b a → m' !! a = Some (v pid id b a)) →
  ∃ m', launches (grid P J (bs info) kernel) m0 m' ∧ dom m' = dom m0 ∧
    (∀ b id s n, b < bs info → id < J → s < len b → n < n_size b id →
       m' !! (Output, (start b + s) * O + (n_start id + n)) =
         Some (v (s / BS * num_pid_n b + n / BN) id b (Output, (start b + s) * O + (n_start id + n)))).
Proof.
  intros Hrun.
  set (W := λ i, stored (i mod P) ((i / P) mod J) (i / (P * J))).
  assert (∀ i, i < P * J * bs info → 0 < P ∧ 0 < J ∧ i / (P * J) < bs info) as Hi.
  { intros i Hi. assert (0 < P ∧ 0 < J) as [? ?] by nia. split; [done|]. split; [done|]. apply Nat.Div0.div_lt_upper_bound. lia. }
  destruct (launch_writes (grid P J (bs info) kernel) m0 W (λ i, v (i mod P) ((i / P) mod J) (i / (P * J)))) as (m' & L & D & Hv & _);
    rewrite ?length_fmap, ?length_seq.
  - unfold grid. rewrite length_fmap, length_seq. intros i j a Hii Hjj Wi Wj.
    destruct (Hi i Hii) as (HP & HJ & Hbi), (Hi j Hjj) as (_ & _ & Hbj).
    destruct (stored_unique _ _ _ _ _ _ _ Hbi Hbj (Nat.mod_upper_bound _ J ltac:(lia)) (Nat.mod_upper_bound _ J ltac:(lia)) Wi Wj) as (Eb & Ej & Ep).
    by rewrite (grid_index P J i), (grid_index P J j), Eb, Ej, Ep by done.
  - unfold grid. rewrite length_fmap, length_seq. intros own i p Ep Hown Hnone.
    rewrite list_lookup_fmap in Ep. destruct (seq 0 _ !! i) as [k|] eqn:Ek; [|done]. injection Ep as <-.
    apply lookup_seq in Ek as [-> Hk]. cbn [Nat.add]. destruct (Hi i Hk) as (HP & HJ & Hb).
    apply Hrun; [apply Nat.mod_upper_bound; lia|apply Nat.mod_upper_bound; lia|done|done|].
    intros a Ha. apply Hnone. intros j _ (E & _). done.
  - exists m'. split; [done|]. split; [done|]. intros b id s n Hb Hj Hs Hn.
    set (pid := s / BS * num_pid_n b + n / BN). assert (pid < P) as Hp by (by eapply Hgrid).
    destruct (grid_coords P J pid id b Hp Hj) as (E1 & E2 & E3). set (i := (b * J + id) * P + pid) in *.
    assert (n / BN < num_pid_n b) as Hlt.
    { apply Nat.Div0.div_lt_upper_bound. pose proof (Htiles b id Hb Hj). nia. }
    rewrite (Hv i); [by rewrite E1, E2, E3| |].
    + unfold grid. rewrite length_fmap, length_seq. unfold i. assert ((b * J + id) + 1 ≤ J * bs info) by nia. nia.
    + unfold W. rewrite E1, E2, E3. apply stored_at; try done. unfold pid.
      by destruct (row_col (s / BS) (num_pid_n b) (n / BN) Hlt) as [-> ->].
Qed.
End launch.
