(* ===== verification/LoraSgemm.v ===== *)
(** * What the LoRA kernels compute

    Each of the four launches, for any batch whose segments and adapters are in order. *)

From S2P Require Import Prelude Grid Tiles LoraKernels LoraLaunch.

Open Scope nat_scope.

(** ** Memory *)

Section memory.
Context {F : Type} (x : list (list F)) (w : list (list (list F))) (o : list (list F)).

Lemma memory_lookup b k : memory_of x w o !! (b, k) =
  match b with X => concat x !! k | Weights => concat (concat w) !! k | Output => concat o !! k end.
Proof.
  unfold memory_of. rewrite !lookup_union, !flat_tensor_lookup. destruct b; cbn.
  - by destruct (concat x !! k).
  - by destruct (concat (concat w) !! k).
  - by destruct (concat o !! k).
Qed.
End memory.

Section kernels.
Context {F : Type} `{ArithLaws F}.
Context (info : LoRABatchInfo F) (S num R : nat) (Hinfo : info_ok info S num R).
Notation start b := (tl_load (seg_indptr info) b).
Notation len b := (tl_load (seg_lens info) b).
Notation w_of b := (tl_load (weight_indices info) b).
Notation rank b := (tl_load (lora_ranks info) (w_of b)).

(** ** To the low rank *)

Section lora_a.
Context (stack K BS BN BK : nat) (HBS : 0 < BS) (HBN : 0 < BN) (HBK : 0 < BK).
Notation RN := (stack * R).
Context (m0 : gmap addr F) (xv : nat → nat → F) (wv : nat → nat → nat → F).
Context (Hx : ∀ row k, row < S → k < K → m0 !! (X, row * K + k) = Some (xv row k)).
Context (Hw : ∀ w n k, w < num → n < RN → k < K → m0 !! (Weights, (w * RN + n) * K + k) = Some (wv w n k)).
Context (Ho : ∀ row n, row < S → n < RN → is_Some (m0 !! (Output, row * RN + n))).
Notation size b := (RN `min` (rank b * stack)).
Notation stored_a := (stored info BS BN RN (λ b, cdiv (size b) BN) (λ _, 0) (λ b _, size b)).

Lemma sgemm_a_run own i pid b : b < bs info → (∀ a, stored_a pid 0 b a → own a = Some i) → (∀ a, a.1 ≠ Output → own a = None) →
  ∃ m', run_owned own i (_sgemm_lora_a_kernel info RN K stack K 1 (RN * K) K 1 RN 1 BS BN BK pid b) m0 = Some (tt, m') ∧
    ∀ a, stored_a pid 0 b a → m' !! a = Some (fsum K (λ k, fmul (xv (a.2 / RN) k) (wv (w_of b) (a.2 mod RN) k))).
Proof.
  intros Hb Hown Hnone. unfold _sgemm_lora_a_kernel.
  set (np := cdiv (size b) BN). set (s_off := λ i, i + pid / np * BS). set (n_off := λ j, j + pid mod np * BN).
  pose proof (segment_end info S num R Hinfo b Hb) as Hend. pose proof (io_weight _ _ _ _ Hinfo b Hb) as Hwb.
  destruct (run_accumulate own i BS BN BK K
    (λ off i k, (X, start b * K + (s_off i * K + k * 1) + off)) (λ off k j, (Weights, w_of b * (RN * K) + (k * 1 + n_off j * K) + off))
    (BK * 1) (BK * 1) (λ i, s_off i <? len b) (λ j, n_off j <? size b)
    (λ i k, xv (start b + s_off i) k) (λ k j, wv (w_of b) (n_off j) k) m0) as (t & Et & Ht); [done| | |].
  - intros k r c Hr Hc Hs%Nat.ltb_lt Hk. split; [right; by apply Hnone|].
    rewrite <- (Hx (start b + s_off r) (k * BK + c)) by lia. do 2 f_equal. lia.
  - intros k r c Hr Hc Hs%Nat.ltb_lt Hk. split; [right; by apply Hnone|].
    rewrite <- (Hw (w_of b) (n_off c) (k * BK + r)) by lia. do 2 f_equal. lia.
  - rewrite (run_owned_step own i _ _ _ _ _ Et).
    destruct (run_store_stored info S num R Hinfo 1 BS BN RN (λ b, cdiv (size b) BN) (λ _, 0) (λ b _, size b) HBS HBN ltac:(cbv beta; lia)
      own i pid 0 b (λ r c, (Output, start b * RN + (s_off r * RN + n_off c * 1))) (λ r c, (s_off r <? len b) && (n_off c <? size b)) t m0)
      as (m' & Em & Hm'); [done|apply Nat.lt_0_1|done|done| | |].
    + intros r c. f_equal. unfold s_off, n_off, np. cbv beta. lia.
    + intros r c _ _. by rewrite andb_true_iff, !Nat.ltb_lt.
    + exists m'. split; [exact Em|]. intros a Ha. destruct (Hm' a Ha) as (r & c & Hr & Hc & [Hs Hn]%andb_true_iff & -> & ->).
      rewrite Ht by done. apply Nat.ltb_lt in Hn. cbn [snd].
      replace (start b * RN + (s_off r * RN + n_off c * 1)) with ((start b + s_off r) * RN + n_off c) by lia.
      destruct (row_col (start b + s_off r) RN (n_off c)) as [-> ->]; [lia|]. done.
Qed.
End lora_a.

(** ** Back from the low rank *)

Section lora_b.
Context (J XW O BS BN BK : nat) (HBS : 0 < BS) (HBN : 0 < BN) (HBK : 0 < BK).
Context (np : nat) (n_start n_size : nat → nat) (x_col : nat → nat → nat).
Context (Hfits : ∀ id, id < J → 0 < n_size id → n_start id + n_size id ≤ O).
Context (Hcols : ∀ id r, id < J → r ≤ R → x_col id r + r ≤ XW).
Context (m0 : gmap addr F) (xv : nat → nat → F) (wv : nat → nat → nat → F) (ov : nat → nat → F).
Context (Hx : ∀ row k, row < S → k < XW → m0 !! (X, row * XW + k) = Some (xv row k)).
Context (Hw : ∀ w n k, w < num → n < O → k < R → m0 !! (Weights, (w * O + n) * R + k) = Some (wv w n k)).
Context (Ho : ∀ row n, row < S → n < O → m0 !! (Output, row * O + n) = Some (ov row n)).
Notation stored_b := (stored info BS BN O (λ _, np) n_start (λ _ id, n_size id)).

(** What the adapter of request [b] adds to column [col] of the row of a token, in part [id]. *)
Definition lora_delta (id b row col : nat) : F :=
  fmul (fsum (rank b) (λ k, fmul (xv row (x_col id (rank b) + k)) (wv (w_of b) col k))) (default fzero (scalings info !! w_of b)).

Lemma lora_b_run own i pid id b w_mask o_mask : b < bs info → id < J →
  (∀ c, c < BN → w_mask (c + pid mod np * BN) = true ↔ c + pid mod np * BN < n_size id) →
  (∀ c, c < BN → o_mask (c + pid mod np * BN) = true ↔ c + pid mod np * BN < n_size id) →
  (∀ a, stored_b pid id b a → own a = Some i) → (∀ a, a.1 ≠ Output → own a = None) →
  ∃ m', run_owned own i (lora_b_tile info R XW 1 (O * R) R 1 O 1 BS BN BK true (x_col id) (n_start id) np w_mask o_mask pid b) m0 = Some (tt, m') ∧
    ∀ a, stored_b pid id b a → m' !! a = Some (fadd (lora_delta id b (a.2 / O) (a.2 mod O)) (ov (a.2 / O) (a.2 mod O))).
Proof.
  intros Hb Hj Hwm Hom Hown Hnone. unfold lora_b_tile.
  set (s_off := λ i, i + pid / np * BS). set (n_off := λ j, j + pid mod np * BN).
  pose proof (segment_end info S num R Hinfo b Hb) as Hend. pose proof (io_weight _ _ _ _ Hinfo b Hb) as Hwb.
  pose proof (io_rank _ _ _ _ Hinfo b Hb) as Hrank. rewrite (Nat.min_r R) by done.
  assert (0 < n_size id → n_start id + n_size id ≤ O) as Hf by (by apply Hfits). pose proof (Hcols id (rank b) Hj Hrank) as Hc0.
  destruct (run_accumulate own i BS BN BK (rank b)
    (λ off i k, (X, start b * XW + x_col id (rank b) * 1 + (s_off i * XW + k * 1) + off))
    (λ off k j, (Weights, w_of b * (O * R) + n_start id * R + (k * 1 + n_off j * R) + off))
    (BK * 1) (BK * 1) (λ i, s_off i <? len b) (λ j, w_mask (n_off j))
    (λ i k, xv (start b + s_off i) (x_col id (rank b) + k)) (λ k j, wv (w_of b) (n_start id + n_off j) k) m0) as (t & Et & Ht); [done| | |].
  - intros k r c Hr Hc Hs%Nat.ltb_lt Hk. split; [right; by apply Hnone|].
    rewrite <- (Hx (start b + s_off r) (x_col id (rank b) + (k * BK + c))) by lia. do 2 f_equal. lia.
  - intros k r c Hr Hc Hs%(Hwm c Hc) Hk. split; [right; by apply Hnone|].
    rewrite <- (Hw (w_of b) (n_start id + n_off c) (k * BK + r)) by (unfold n_off; lia). do 2 f_equal. lia.
  - rewrite (run_owned_step own i _ _ _ _ _ Et).
    set (ptr := λ r c, (Output, start b * O + n_start id * 1 + (s_off r * O + n_off c * 1))).
    set (mask := λ r c, (s_off r <? len b) && o_mask (n_off c)).
    assert (∀ r c, ptr r c = (Output, (start b + s_off r) * O + (n_start id + n_off c))) as Eptr by (intros; unfold ptr; f_equal; lia).
    assert (∀ r c, r < BS → c < BN → mask r c = true ↔ s_off r < len b ∧ n_off c < n_size id) as Emask.
    { intros r c Hr Hc. unfold mask. rewrite andb_true_iff, Nat.ltb_lt. pose proof (Hom c Hc). unfold n_off. tauto. }
    rewrite (run_owned_step own i _ _ _ (tile_add BS BN (tile_scale BS BN t (default fzero (scalings info !! w_of b)))
      (make_tile BS BN (λ r c, if mask r c then ov (start b + s_off r) (n_start id + n_off c) else fzero))) m0).
    2:{ erewrite run_owned_step; [done|]. apply (run_load_tile own i BS BN ptr mask (λ r c, ov (start b + s_off r) (n_start id + n_off c))).
        intros r c Hr Hc [Hs Hn]%Emask; [|done..]. rewrite Eptr. split; [left|apply Ho; lia].
        apply Hown. apply (tile_stored info J BS BN O (λ _, np) n_start (λ _ id, n_size id)); try done. intros; by apply Hfits. }
    destruct (run_store_stored info S num R Hinfo J BS BN O (λ _, np) n_start (λ _ id, n_size id) HBS HBN (λ _ id _, Hfits id)
      own i pid id b ptr mask (tile_add BS BN (tile_scale BS BN t (default fzero (scalings info !! w_of b)))
      (make_tile BS BN (λ r c, if mask r c then ov (start b + s_off r) (n_start id + n_off c) else fzero))) m0)
      as (m' & Em & Hm'); [done|done|done| |exact Eptr|exact Emask|].
    { intros row c Hrow Hc. rewrite Ho by done. eauto. }
    exists m'. split; [exact Em|]. intros a Ha. destruct (Hm' a Ha) as (r & c & Hr & Hc & Em2 & -> & ->).
    unfold tile_add, tile_scale. rewrite !tile_at_make, Em2, Eptr by done. apply Emask in Em2 as [Hs Hn]; [|done..]. cbn [snd].
    destruct (row_col (start b + s_off r) O (n_start id + n_off c)) as [-> ->]; [lia|].
    rewrite Ht; [done|done|done|by apply Nat.ltb_lt|by apply Hwm].
Qed.
End lora_b.
End kernels.
