(* ===== verification/LoraApply.v ===== *)
(** * The four launches, from tensors to tensors *)

From S2P Require Import Prelude Grid Tiles LoraKernels LoraLaunch LoraSgemm.

Open Scope nat_scope.

(** ** Tensors *)

Section tensors.
Context {F : Type} `{Arith F}.
Implicit Types (x o out : list (list F)) (w : list (list (list F))).

Definition val2 (t : list (list F)) (i j : nat) : F := default fzero (at2 t i j).
Definition val3 (t : list (list (list F))) (i j k : nat) : F := default fzero (at3 t i j k).

Lemma shape2_val d0 d1 (t : list (list F)) i j : shape2 d0 d1 t → i < d0 → j < d1 → at2 t i j = Some (val2 t i j).
Proof.
  intros [Hl Hr] Hi Hj. unfold val2. destruct (lookup_lt_is_Some_2 t i) as [row E]; [lia|].
  destruct (lookup_lt_is_Some_2 row j) as [v Ev]; [rewrite (Hr row); [done|by eapply list_elem_of_lookup_2]|].
  assert (at2 t i j = Some v) as -> by (unfold at2; rewrite E; exact Ev). done.
Qed.

Lemma shape3_val d0 d1 d2 (t : list (list (list F))) i j k : shape3 d0 d1 d2 t → i < d0 → j < d1 → k < d2 →
  at3 t i j k = Some (val3 t i j k).
Proof.
  intros [Hl Hm] Hi Hj Hk. unfold val3. destruct (lookup_lt_is_Some_2 t i) as [mat E]; [lia|].
  assert (at3 t i j k = at2 mat j k) as -> by (unfold at3; by rewrite E).
  rewrite (shape2_val d1 d2); [done|apply Hm; by eapply list_elem_of_lookup_2|done|done].
Qed.

Lemma memory_X x w o d0 d1 i j : shape2 d0 d1 x → i < d0 → j < d1 → memory_of x w o !! (X, i * d1 + j) = Some (val2 x i j).
Proof. intros Hs Hi Hj. rewrite memory_lookup, (concat_lookup d0 d1) by done. by eapply shape2_val. Qed.

Lemma memory_Output x w o d0 d1 i j : shape2 d0 d1 o → i < d0 → j < d1 → memory_of x w o !! (Output, i * d1 + j) = Some (val2 o i j).
Proof. intros Hs Hi Hj. rewrite memory_lookup, (concat_lookup d0 d1) by done. by eapply shape2_val. Qed.

Lemma memory_Weights x w o d0 d1 d2 i j k : shape3 d0 d1 d2 w → i < d0 → j < d1 → k < d2 →
  memory_of x w o !! (Weights, (i * d1 + j) * d2 + k) = Some (val3 w i j k).
Proof. intros Hs Hi Hj Hk. rewrite memory_lookup, (concat3_lookup d0 d1 d2) by done. by eapply shape3_val. Qed.

(** What a launch leaves is a tensor. *)
Lemma output_exists (m' : gmap addr F) x w o d0 d1 : dom m' = dom (memory_of x w o) → shape2 d0 d1 o →
  ∃ out, output_is m' d0 d1 out ∧ ∀ i j, i < d0 → j < d1 → at2 out i j = m' !! (Output, i * d1 + j).
Proof.
  intros D Hs. set (out := make_tile d0 d1 (λ i j, default fzero (m' !! (Output, i * d1 + j)))).
  assert (shape2 d0 d1 out) as Hout.
  { unfold out, make_tile. split; [by rewrite length_fmap, length_seq|].
    intros row (i & -> & Hi)%list_elem_of_fmap. by rewrite length_fmap, length_seq. }
  assert (∀ k, is_Some (m' !! (Output, k)) ↔ k < d0 * d1) as Hdom.
  { intros k. rewrite <- elem_of_dom, D, elem_of_dom, memory_lookup, lookup_lt_is_Some, (concat_length d0 d1) by done. done. }
  assert (∀ i j, i < d0 → j < d1 → at2 out i j = m' !! (Output, i * d1 + j)) as Hat.
  { intros i j Hi Hj. destruct (proj2 (Hdom (i * d1 + j)) ltac:(nia)) as [v Ev]. rewrite Ev.
    unfold at2, out, make_tile. rewrite list_lookup_fmap, lookup_seq_lt by done. cbn.
    rewrite list_lookup_fmap, lookup_seq_lt by done. cbn. by rewrite Ev. }
  exists out. split; [|done]. split; [done|]. intros k. destruct (decide (k < d0 * d1)) as [Hk|Hk].
  - assert (0 < d1) by lia. pose proof (Nat.div_mod k d1 ltac:(lia)) as Ek. pose proof (Nat.mod_upper_bound k d1 ltac:(lia)).
    replace k with (k / d1 * d1 + k mod d1) by lia.
    rewrite (concat_lookup d0 d1) by done. symmetry. apply Hat; [|done]. apply Nat.Div0.div_lt_upper_bound. lia.
  - rewrite lookup_ge_None_2 by (rewrite (concat_length d0 d1) by done; lia).
    apply eq_None_not_Some. by rewrite Hdom.
Qed.

Lemma output_unique (m' : gmap addr F) d0 d1 out (out' : list (list F)) : output_is m' d0 d1 out → output_is m' d0 d1 out' → out = out'.
Proof.
  intros [Hs Hm] [Hs' Hm']. apply list_eq_same_length with d0; [apply Hs'|apply Hs|].
  intros i row row' Hi Er Er'. assert (length row = d1) by (apply Hs; by eapply list_elem_of_lookup_2).
  assert (length row' = d1) by (apply Hs'; by eapply list_elem_of_lookup_2).
  apply list_eq_same_length with d1; [done..|]. intros j v v' Hj Ev Ev'.
  pose proof (Hm (i * d1 + j)) as E1. pose proof (Hm' (i * d1 + j)) as E2.
  rewrite (concat_lookup d0 d1) in E1, E2 by done. unfold at2 in E1, E2. rewrite Er in E1. rewrite Er' in E2. cbn in E1, E2. congruence.
Qed.
End tensors.

Lemma div_cdiv s m B : 0 < B → s < m → s / B < cdiv m B.
Proof. intros HB Hs. pose proof (cdiv_le m B HB). apply Nat.Div0.div_lt_upper_bound. lia. Qed.

Lemma cdiv_nat_mono m n B : m ≤ n → cdiv m B ≤ cdiv n B.
Proof. intros. unfold cdiv. apply Nat.Div0.div_le_mono. lia. Qed.

(** ** The launches *)

Section fwd.
Context {F : Type} `{ArithLaws F}.
Context (info : LoRABatchInfo F) (S num R : nat) (Hinfo : info_ok info S num R).
Notation start b := (tl_load (seg_indptr info) b).
Notation len b := (tl_load (seg_lens info) b).
Notation w_of b := (tl_load (weight_indices info) b).
Notation rank b := (tl_load (lora_ranks info) (w_of b)).

Lemma sgemm_lora_a_ok empty stack K x w : shape2 S K x → shape3 num (stack * R) K w → shape2 S (stack * R) (empty S (stack * R)) →
  ∃ out, sgemm_lora_a_fwd info empty S (stack * R) K x w stack out ∧ shape2 S (stack * R) out ∧
    ∀ b s n, b < bs info → s < len b → n < stack * rank b →
      val2 out (start b + s) n = fsum K (λ k, fmul (val2 x (start b + s) k) (val3 w (w_of b) n k)).
Proof.
  intros Hx Hw He.
  destruct (segment_launch info S num R Hinfo (cdiv (max_len info) 16 * cdiv (stack * R) 16) 1 16 16 (stack * R)
    (λ b, cdiv ((stack * R) `min` (rank b * stack)) 16) (λ _, 0) (λ b _, (stack * R) `min` (rank b * stack))
    ltac:(lia) ltac:(lia) ltac:(cbv beta; lia) ltac:(lia) ltac:(cbv beta; intros; apply cdiv_le; lia))
    with (kernel := λ pid (_ : nat), _sgemm_lora_a_kernel info (stack * R) K stack K 1 (stack * R * K) K 1 (stack * R) 1 16 16 256 pid)
      (m0 := memory_of x w (empty S (stack * R)))
      (v := λ (pid id b : nat) (a : addr), fsum K (λ k, fmul (val2 x (a.2 / (stack * R)) k) (val3 w (w_of b) (a.2 mod (stack * R)) k)))
    as (m' & L & D & Hv).
  - intros b id s n Hb Hj Hs Hn. pose proof (io_max _ _ _ _ Hinfo b Hb).
    pose proof (div_cdiv s (max_len info) 16 ltac:(lia) ltac:(lia)).
    pose proof (div_cdiv n ((stack * R) `min` (rank b * stack)) 16 ltac:(lia) Hn).
    pose proof (cdiv_nat_mono ((stack * R) `min` (rank b * stack)) (stack * R) 16 ltac:(lia)). nia.
  - intros own i pid id b Hp Hj Hb Hown Hnone. assert (id = 0) as -> by lia.
    eapply (sgemm_a_run info S num R Hinfo stack K 16 16 256 ltac:(lia) ltac:(lia) ltac:(lia) _ (val2 x) (val3 w)); try done.
    + intros. by apply memory_X with (d0 := S).
    + intros. by apply memory_Weights with (d0 := num).
    + intros. rewrite (memory_Output _ _ _ S) by done. eauto.
  - destruct (output_exists m' _ _ _ S (stack * R) D He) as (out & Hout & Hat).
    exists out. split; [by exists m'|]. split; [apply Hout|]. intros b s n Hb Hs Hn.
    pose proof (segment_end info S num R Hinfo b Hb). pose proof (io_rank _ _ _ _ Hinfo b Hb).
    assert (n < stack * R) by nia. unfold val2 at 1. rewrite Hat by lia.
    pose proof (Hv b 0 s n Hb ltac:(lia) Hs ltac:(lia)) as E. rewrite Nat.add_0_l in E. rewrite E. cbn [default snd].
    by destruct (row_col (start b + s) (stack * R) n) as [-> ->].
Qed.

(** The launches that go back, in parts [id < J]. *)
Lemma lora_b_launch J XW O BN np n_start n_size x_col (w_mask o_mask : nat → nat → bool) x w o :
  0 < BN → (∀ id, id < J → 0 < n_size id → n_start id + n_size id ≤ O) →
  (∀ id id' n n', id < J → id' < J → n < n_size id → n' < n_size id' → n_start id + n = n_start id' + n' → id = id') →
  (∀ id, id < J → n_size id ≤ np * BN) → (∀ id r, id < J → r ≤ R → x_col id r + r ≤ XW) →
  (∀ id n, id < J → n < np * BN → w_mask id n = true ↔ n < n_size id) →
  (∀ id n, id < J → n < np * BN → o_mask id n = true ↔ n < n_size id) → 0 < np →
  shape2 S XW x → shape3 num O R w → shape2 S O o →
  ∃ m' out, launches (grid (cdiv (max_len info) 16 * np) J (bs info) (λ pid id,
      lora_b_tile info R XW 1 (O * R) R 1 O 1 16 BN 16 true (x_col id) (n_start id) np (w_mask id) (o_mask id) pid)) (memory_of x w o) m' ∧
    output_is m' S O out ∧
    ∀ b id s n, b < bs info → id < J → s < len b → n < n_size id →
      val2 out (start b + s) (n_start id + n) =
        fadd (lora_delta info x_col (val2 x) (val3 w) id b (start b + s) (n_start id + n)) (val2 o (start b + s) (n_start id + n)).
Proof.
  intros HBN Hfits Hparts Htiles Hcols Hwm Hom Hnp Hx Hw Ho.
  destruct (segment_launch info S num R Hinfo (cdiv (max_len info) 16 * np) J 16 BN O (λ _, np) n_start (λ _ id, n_size id)
    ltac:(lia) HBN (λ _ id _, Hfits id) (λ _ id id' n n' _, Hparts id id' n n') (λ _ id _, Htiles id))
    with (kernel := λ pid id : nat, lora_b_tile info R XW 1 (O * R) R 1 O 1 16 BN 16 true (x_col id) (n_start id) np (w_mask id) (o_mask id) pid)
      (m0 := memory_of x w o)
      (v := λ (pid id b : nat) (a : addr), fadd (lora_delta info x_col (val2 x) (val3 w) id b (a.2 / O) (a.2 mod O)) (val2 o (a.2 / O) (a.2 mod O)))
    as (m' & L & D & Hv).
  - intros b id s n Hb Hj Hs Hn. pose proof (io_max _ _ _ _ Hinfo b Hb). specialize (Htiles id Hj).
    pose proof (div_cdiv s (max_len info) 16 ltac:(lia) ltac:(lia)).
    assert (n / BN < np) by (apply Nat.Div0.div_lt_upper_bound; lia). nia.
  - intros own i pid id b Hp Hj Hb Hown Hnone.
    assert (∀ c, c < BN → c + pid mod np * BN < np * BN) as Hc.
    { intros c Hc. pose proof (Nat.mod_upper_bound pid np ltac:(lia)). nia. }
    eapply (lora_b_run info S num R Hinfo J XW O 16 BN 16 ltac:(lia) HBN ltac:(lia) np n_start n_size x_col Hfits Hcols _ (val2 x) (val3 w) (val2 o)); try done.
    + intros. by apply memory_X with (d0 := S).
    + intros. by apply memory_Weights with (d0 := num).
    + intros. by apply memory_Output with (d0 := S).
    + intros c Hcc. by apply Hwm; [|apply Hc].
    + intros c Hcc. by apply Hom; [|apply Hc].
  - destruct (output_exists m' _ _ _ S O D Ho) as (out & Hout & Hat).
    exists m', out. split; [done|]. split; [done|]. intros b id s n Hb Hj Hs Hn.
    pose proof (segment_end info S num R Hinfo b Hb). pose proof (Hfits id Hj ltac:(lia)).
    unfold val2 at 1. rewrite Hat by lia. rewrite (Hv b id s n Hb Hj Hs Hn). cbn [default snd].
    by destruct (row_col (start b + s) O (n_start id + n)) as [-> ->]; [lia|].
Qed.

(** The output dimension has to be a multiple of the block, since the masks of this kernel do
    not look at the columns. *)
Lemma sgemm_lora_b_ok N x w o : 0 < N → N mod 256 = 0 → shape2 S R x → shape3 num N R w → shape2 S N o →
  ∃ out, sgemm_lora_b_fwd info S N R x w o out ∧
    ∀ b s n, b < bs info → s < len b → n < N →
      val2 out (start b + s) n = fadd (lora_delta info (λ _ _, 0) (val2 x) (val3 w) 0 b (start b + s) n) (val2 o (start b + s) n).
Proof.
  intros HN [q Hq]%Nat.Lcm0.mod_divide Hx Hw Ho. subst N. assert (0 < q) by lia.
  destruct (lora_b_launch 1 R (q * 256) 256 (cdiv (q * 256) 256) (λ _, 0) (λ _, q * 256) (λ _ _, 0) (λ _ _, true) (λ _ _, true) x w o)
    as (m' & out & L & Hout & Hv); rewrite ?cdiv_nat_mul by lia.
  - lia.
  - intros. lia.
  - intros. lia.
  - intros. lia.
  - intros. lia.
  - intros id n _ Hn. split; [done|reflexivity].
  - intros id n _ Hn. split; [done|reflexivity].
  - done.
  - done.
  - done.
  - done.
  - exists out. split; [exists m'; split; [|exact Hout]|].
    + rewrite cdiv_nat_mul in L by lia. unfold _sgemm_lora_b_kernel. rewrite cdiv_nat_mul by lia. exact L.
    + intros b s n Hb Hs Hn. apply (Hv b 0 s n); [exact Hb|lia|exact Hs|exact Hn].
Qed.

Lemma qkv_lora_b_ok q kv x w o : 0 < q → shape2 S (3 * R) x → shape3 num (q + 2 * kv) R w → shape2 S (q + 2 * kv) o →
  let offs := [0; q; q + kv; q + 2 * kv] in
  ∃ out, qkv_lora_b_fwd info S (q + 2 * kv) R x w offs (q `max` kv) o out ∧
    ∀ b id s n, b < bs info → id < 3 → s < len b → n < tl_load offs (id + 1) - tl_load offs id →
      val2 out (start b + s) (tl_load offs id + n) =
        fadd (lora_delta info (λ id r, id * r) (val2 x) (val3 w) id b (start b + s) (tl_load offs id + n)) (val2 o (start b + s) (tl_load offs id + n)).
Proof.
  intros Hq Hx Hw Ho offs.
  assert (∀ id, id < 3 → (id = 0 ∧ tl_load offs id = 0 ∧ tl_load offs (id + 1) = q) ∨
    (id = 1 ∧ tl_load offs id = q ∧ tl_load offs (id + 1) = q + kv) ∨
    (id = 2 ∧ tl_load offs id = q + kv ∧ tl_load offs (id + 1) = q + 2 * kv)) as Hid.
  { intros id Hi. destruct id as [|[|[|id]]]; [left|right; left|right; right|lia]; done. }
  pose proof (cdiv_le (q `max` kv) 64 ltac:(lia)) as Hcd.
  destruct (lora_b_launch 3 (3 * R) (q + 2 * kv) 64 (cdiv (q `max` kv) 64) (tl_load offs) (λ id, tl_load offs (id + 1) - tl_load offs id)
    (λ id r, id * r) (λ id n, n <? tl_load offs (id + 1) - tl_load offs id) (λ id n, n <? tl_load offs (id + 1) - tl_load offs id) x w o)
    as (m' & out & L & Hout & Hv); try done.
  - lia.
  - intros id Hi. destruct (Hid id Hi); lia.
  - intros id id' n n' Hi Hi'. destruct (Hid id Hi), (Hid id' Hi'); lia.
  - intros id Hi. destruct (Hid id Hi); lia.
  - intros id r Hi Hr. nia.
  - intros id n _ _. apply Nat.ltb_lt.
  - intros id n _ _. apply Nat.ltb_lt.
  - lia.
  - exists out. split; [by exists m'|done].
Qed.

Lemma gate_up_lora_b_ok d x w o : 0 < d → shape2 S (2 * R) x → shape3 num (2 * d) R w → shape2 S (2 * d) o →
  ∃ out, gate_up_lora_b_fwd info S d R x w o out ∧
    ∀ b id s n, b < bs info → id < 2 → s < len b → n < d →
      val2 out (start b + s) (id * d + n) =
        fadd (lora_delta info (λ id r, id * r) (val2 x) (val3 w) id b (start b + s) (id * d + n)) (val2 o (start b + s) (id * d + n)).
Proof.
  intros Hd Hx Hw Ho. pose proof (cdiv_le d 64 ltac:(lia)) as Hcd.
  destruct (lora_b_launch 2 (2 * R) (2 * d) 64 (cdiv d 64) (λ id, id * d) (λ _, d) (λ id r, id * r) (λ _ n, n <? d) (λ _ n, n <? d) x w o)
    as (m' & out & L & Hout & Hv); try done; try lia.
  - intros id Hi. nia.
  - intros id id' n n' Hi Hi' Hn Hn' E. nia.
  - intros id r Hi Hr. nia.
  - intros id n _ _. apply Nat.ltb_lt.
  - intros id n _ _. apply Nat.ltb_lt.
  - exists out. split; [by exists m'|done].
Qed.
End fwd.
