(* ===== verification/LoraPool.v ===== *)
(** * The pool of LoRA adapters on the device

    [LoRAMemoryPool] of [lora/mem_pool.py] with the slicing of [lora/layers.py]: which adapter is
    in which slot of the buffers, and what loading writes there. *)

From S2P Require Import Prelude PyStr Tiles.

Open Scope nat_scope.

(** ** Names *)

Definition qkv_proj := s2z "qkv_proj".
Definition q_proj := s2z "q_proj".
Definition kv_proj := s2z "kv_proj".
Definition gate_up_proj := s2z "gate_up_proj".
Definition lora_A := s2z "lora_A".

Definition get_stacked_multiply (module_name : pystr) : nat :=
  if decide (module_name = qkv_proj) then 3 else if decide (module_name = kv_proj) then 2
  else if decide (module_name = gate_up_proj) then 2 else 1.

(** The first name of the set (in its order of iteration) that is part of [target_name]. *)
Fixpoint get_weight_name (target_name : pystr) (lora_weight_names : list pystr) : result pystr :=
  match lora_weight_names with
  | [] => Raise (ValueError "Cannot find weight name")
  | weight_name :: names => if str_in weight_name target_name then Ok weight_name else get_weight_name target_name names
  end.

Section pool.
Context {F : Type} `{Arith F}.
Notation matrix := (list (list F)).
Notation tensor3 := (list matrix).

(** ** Adapters and layers *)

(** A weight of a checkpoint, or two of them stacked. *)
Inductive Weight := Flat (m : matrix) | Stacked (ms : tensor3).

Record LoRAAdapter := MkAdapter {
  lora_rank : nat;
  scaling : F;
  layer_weights : list (list (pystr * Weight))
}.

(** The layers that take an adapter, with the sizes of their shards. *)
Inductive LoRALayer :=
  | ColumnParallel (shard_size : nat)
  | MergedColumnParallel (shard_size : nat)
  | QKVParallel (q_proj_shard_size kv_proj_shard_size num_kv_head_replicas : nat)
  | RowParallel (shard_size : nat).

Definition rows_slice (i j : nat) (w : Weight) : Weight :=
  match w with Flat m => Flat (slice i j m) | Stacked ms => Stacked (slice i j ms) end.
Definition cols_slice (i j : nat) (w : Weight) : Weight :=
  match w with Flat m => Flat (slice i j <$> m) | Stacked ms => Stacked (slice i j <$> ms) end.

Definition slice_lora_a_weights (l : LoRALayer) (A : Weight) (tp_rank : nat) : Weight :=
  match l with
  | RowParallel shard_size => cols_slice (tp_rank * shard_size) ((tp_rank + 1) * shard_size) A
  | _ => A
  end.

(** Of the layers with one weight. *)
Definition slice_lora_b_weights (l : LoRALayer) (B : Weight) (tp_rank : nat) : Weight :=
  match l with
  | ColumnParallel shard_size => rows_slice (tp_rank * shard_size) ((tp_rank + 1) * shard_size) B
  | MergedColumnParallel shard_size => cols_slice (tp_rank * shard_size) ((tp_rank + 1) * shard_size) B
  | _ => B
  end.

Definition slice_qkv_lora_b_weights (l : LoRALayer) (B_q B_kv : Weight) (tp_rank : nat) : result (Weight * Weight) :=
  match l with
  | QKVParallel q_size kv_size replicas =>
      let kv_shard_id := tp_rank `div` replicas in
      Ok (rows_slice (q_size * tp_rank) (q_size * tp_rank + q_size) B_q,
          cols_slice (kv_size * kv_shard_id) (kv_size * kv_shard_id + kv_size) B_kv)
  | _ => Raise TypeError
  end.

(** ** The pool *)

(** [None] is the base model without an adapter; the empty string is an empty slot. *)
Notation uid := (option pystr).
Definition empty_slot : uid := Some [].

(** [A_buffer[name][layer]] is indexed by slot, [B_buffer[name][layer]] by part and slot. *)
Record LoRAMemoryPool := MkPool {
  num_layer : nat;
  max_loras_per_batch : nat;
  tp_size : nat;
  tp_rank : nat;
  lora_modules : list (list (pystr * LoRALayer));
  lora_weight_names : list pystr * list pystr;
  A_buffer : list (pystr * list tensor3);
  B_buffer : list (pystr * list (list tensor3));
  uid_to_buffer_id : list (uid * nat);
  buffer_id_to_uid : list uid
}.

Definition set_A_buffer v p := MkPool (num_layer p) (max_loras_per_batch p) (tp_size p) (tp_rank p) (lora_modules p) (lora_weight_names p)
  v (B_buffer p) (uid_to_buffer_id p) (buffer_id_to_uid p).
Definition set_B_buffer v p := MkPool (num_layer p) (max_loras_per_batch p) (tp_size p) (tp_rank p) (lora_modules p) (lora_weight_names p)
  (A_buffer p) v (uid_to_buffer_id p) (buffer_id_to_uid p).
Definition set_uid_to_buffer_id v p := MkPool (num_layer p) (max_loras_per_batch p) (tp_size p) (tp_rank p) (lora_modules p) (lora_weight_names p)
  (A_buffer p) (B_buffer p) v (buffer_id_to_uid p).
Definition set_buffer_id_to_uid v p := MkPool (num_layer p) (max_loras_per_batch p) (tp_size p) (tp_rank p) (lora_modules p) (lora_weight_names p)
  (A_buffer p) (B_buffer p) (uid_to_buffer_id p) v.

(** ** Loading an adapter *)

(** [xs[i] = f(xs[i])]. *)
Definition update_at {A} (i : nat) (f : A → result A) (xs : list A) : result (list A) :=
  match xs !! i with Some x => y ← f x; Ok (<[i := y]> xs) | None => Raise IndexError end.
Definition update_key {A} (k : pystr) (f : A → result A) (d : list (pystr * A)) : result (list (pystr * A)) :=
  match dict_get k d with Some x => y ← f x; Ok (dict_set k y d) | None => Raise KeyError end.

(** [for x in xs]. *)
Definition for_in {X A} (f : X → A → result A) (xs : list X) (a : A) : result A := foldl (λ r x, a ← r; f x a) (Ok a) xs.

(** [view.copy_(weights)] with [check_lora_weight_shape], for the first [n] rows and for the first
    [n] columns of a matrix. *)
Definition same_shape (view weights : matrix) : bool := bool_decide (length <$> view = length <$> weights).
Definition copy_rows (n : nat) (weights m : matrix) : result matrix :=
  if same_shape (take n m) weights then Ok (weights ++ drop n m) else Raise AssertionError.
Definition copy_cols (n : nat) (weights m : matrix) : result matrix :=
  if same_shape (take n <$> m) weights then Ok (zip_with (λ w row, w ++ drop n row) weights m) else Raise AssertionError.

(** The normalised weights of one layer, without and with tensor parallelism. *)
Definition collect_weights (names : list pystr * list pystr) (weights : list (pystr * Weight)) : result (list (pystr * Weight) * list (pystr * Weight)) :=
  for_in (λ '(name, w) '(temp_A_buffer, temp_B_buffer),
    if str_in lora_A name then n ← get_weight_name name names.1; Ok (dict_set n w temp_A_buffer, temp_B_buffer)
    else n ← get_weight_name name names.2; Ok (temp_A_buffer, dict_set n w temp_B_buffer)) weights ([], []).

Definition lookup_key {A} (k : pystr) (d : list (pystr * A)) : result A :=
  match dict_get k d with Some x => Ok x | None => Raise KeyError end.

Definition slice_weights (names : list pystr * list pystr) (tp_rank : nat) (modules : list (pystr * LoRALayer))
    (temp : list (pystr * Weight) * list (pystr * Weight)) : result (list (pystr * Weight) * list (pystr * Weight)) :=
  for_in (λ '(module_name, l) '(temp_A_buffer, temp_B_buffer),
    if str_in qkv_proj module_name then
      A ← lookup_key qkv_proj temp_A_buffer;
      B_q ← lookup_key q_proj temp_B_buffer;
      B_kv ← lookup_key kv_proj temp_B_buffer;
      '(B_q, B_kv) ← slice_qkv_lora_b_weights l B_q B_kv tp_rank;
      Ok (dict_set qkv_proj (slice_lora_a_weights l A tp_rank) temp_A_buffer, dict_set kv_proj B_kv (dict_set q_proj B_q temp_B_buffer))
    else
      weight_name ← get_weight_name module_name names.1;
      A ← lookup_key weight_name temp_A_buffer;
      B ← lookup_key weight_name temp_B_buffer;
      Ok (dict_set weight_name (slice_lora_a_weights l A tp_rank) temp_A_buffer,
          dict_set weight_name (slice_lora_b_weights l B tp_rank) temp_B_buffer)) modules temp.

Definition temp_buffers (p : LoRAMemoryPool) (ad : LoRAAdapter) (layer_id : nat) : result (list (pystr * Weight) * list (pystr * Weight)) :=
  match layer_weights ad !! layer_id with
  | Some weights =>
      temp ← collect_weights (lora_weight_names p) weights;
      if decide (1 < tp_size p) then
        match lora_modules p !! layer_id with
        | Some modules => slice_weights (lora_weight_names p) (tp_rank p) modules temp
        | None => Raise KeyError
        end
      else Ok temp
  | None => Raise IndexError
  end.

Definition copy_A (r layer_id buffer_id : nat) (item : pystr * Weight) : list (pystr * list tensor3) → result (list (pystr * list tensor3)) :=
  update_key item.1 (update_at layer_id (update_at buffer_id (λ m,
    match item.2 with Flat w => copy_rows (r * get_stacked_multiply item.1) w m | Stacked _ => Raise AssertionError end))).

Definition copy_B (r layer_id buffer_id : nat) (item : pystr * Weight) : list (pystr * list (list tensor3)) → result (list (pystr * list (list tensor3))) :=
  let c := get_stacked_multiply item.1 in
  update_key item.1 (update_at layer_id (λ parts,
    if decide (1 < c) then
      for_in (λ stacked_id, update_at stacked_id (update_at buffer_id (λ m,
        match item.2 with
        | Stacked ws => match ws !! stacked_id with Some w => copy_cols r w m | None => Raise IndexError end
        | Flat _ => Raise AssertionError
        end))) (seq 0 c) parts
    else update_at 0 (update_at buffer_id (λ m,
      match item.2 with Flat w => copy_cols r w m | Stacked _ => Raise AssertionError end)) parts)).

Definition load_lora_weight_to_buffer (u : uid) (buffer_id : nat) (lora_adapter : option LoRAAdapter) (p : LoRAMemoryPool) : result LoRAMemoryPool :=
  match u with
  | None =>
      A ← for_in (λ i A, for_in (λ k, update_key k (update_at i (update_at buffer_id (λ m,
            Ok ((λ row : list F, (λ _ : F, fzero) <$> row) <$> m))))) A.*1 A) (seq 0 (num_layer p)) (A_buffer p);
      Ok (set_A_buffer A p)
  | Some _ =>
      match lora_adapter with
      | None => Raise AssertionError
      | Some ad =>
          for_in (λ layer_id p,
            '(temp_A_buffer, temp_B_buffer) ← temp_buffers p ad layer_id;
            A ← for_in (copy_A (lora_rank ad) layer_id buffer_id) temp_A_buffer (A_buffer p);
            B ← for_in (copy_B (lora_rank ad) layer_id buffer_id) temp_B_buffer (B_buffer p);
            Ok (set_B_buffer B (set_A_buffer A p))) (seq 0 (num_layer p)) p
      end
  end.

(** ** Choosing the slots *)

(** An empty slot, or one whose adapter the batch does not need. *)
Definition get_available_buffer_slot (cur_uids : list uid) (p : LoRAMemoryPool) : result (nat * uid) :=
  match list_find (λ u, u = empty_slot) (buffer_id_to_uid p) with
  | Some (buffer_id, u) => Ok (buffer_id, u)
  | None =>
      match list_find (λ u, u ∉ cur_uids) (buffer_id_to_uid p) with
      | Some (buffer_id, u) => Ok (buffer_id, u)
      | None => Raise (ValueError "No available buffer slots found.")
      end
  end.

Definition prepare_uid (lora_adapters : list (pystr * LoRAAdapter)) (cur_uids : list uid) (u : uid) (p : LoRAMemoryPool) : result LoRAMemoryPool :=
  match dict_get u (uid_to_buffer_id p) with
  | Some _ => Ok p
  | None =>
      '(buffer_id, evicted) ← get_available_buffer_slot cur_uids p;
      p ← (if decide (evicted = empty_slot) then Ok p
           else match dict_get evicted (uid_to_buffer_id p) with
                | Some _ => Ok (set_uid_to_buffer_id (dict_del evicted (uid_to_buffer_id p)) p)
                | None => Raise KeyError
                end);
      p ← load_lora_weight_to_buffer u buffer_id (match u with Some name => dict_get name lora_adapters | None => None end) p;
      Ok (set_buffer_id_to_uid (<[buffer_id := u]> (buffer_id_to_uid p)) (set_uid_to_buffer_id (dict_set u buffer_id (uid_to_buffer_id p)) p))
  end.

(** [cur_uids] in the order in which the set is walked. *)
Definition prepare_lora_batch (cur_uids : list uid) (lora_adapters : list (pystr * LoRAAdapter)) : LoRAMemoryPool → result LoRAMemoryPool :=
  for_in (prepare_uid lora_adapters cur_uids) cur_uids.

Definition get_buffer_id (u : uid) (p : LoRAMemoryPool) : result nat :=
  match dict_get u (uid_to_buffer_id p) with Some i => Ok i | None => Raise KeyError end.
End pool.
