(* ===== verification/LoraLoad.v ===== *)
(** * Loading an adapter into a slot

    What [load_lora_weight_to_buffer] writes, and that it writes nowhere else. *)

From S2P Require Import Prelude PyStr Tiles LoraPool.

Open Scope nat_scope.

(** ** Loops that may raise *)

Lemma for_in_raise {X A} (f : X → A → result A) xs e : foldl (λ r x, a ← r; f x a) (Raise e) xs = Raise e.
Proof. by induction xs. Qed.

Lemma for_in_cons {X A} (f : X → A → result A) x xs a : for_in f (x :: xs) a = (a ← f x a; for_in f xs a).
Proof. unfold for_in. cbn. destruct (f x a) as [b|e]; cbn; [reflexivity|]. exact (for_in_raise f xs e). Qed.

Lemma for_in_app {X A} (f : X → A → result A) xs ys a : for_in f (xs ++ ys) a = (a ← for_in f xs a; for_in f ys a).
Proof. revert a. induction xs as [|x xs IH]; intros a; [done|]. cbn [app]. rewrite !for_in_cons. destruct (f x a) as [b|e]; cbn; [apply IH|reflexivity]. Qed.

(** A loop over positions with an invariant. *)
Lemma for_in_seq {A} (f : nat → A → result A) (I : nat → A → Prop) n a :
  (∀ k a, k < n → I k a → ∃ a', f k a = Ok a' ∧ I (S k) a') → I 0 a → ∃ a', for_in f (seq 0 n) a = Ok a' ∧ I n a'.
Proof.
  intros Hf H0. induction n as [|n IH]; [eauto|]. destruct IH as (a' & E & Ha'); [intros; apply Hf; [lia|done]|].
  rewrite seq_S, Nat.add_0_l, for_in_app, E. cbn [mbind result_bind]. rewrite for_in_cons.
  destruct (Hf n a' ltac:(lia) Ha') as (a2 & -> & H2). eauto.
Qed.

Lemma for_in_inv {X A} (f : X → A → result A) (I : A → Prop) xs a a' :
  (∀ x a a', f x a = Ok a' → I a → I a') → for_in f xs a = Ok a' → I a → I a'.
Proof.
  intros Hf. revert a. induction xs as [|x xs IH]; intros a E Ha; [by injection E as <-|].
  rewrite for_in_cons in E. destruct (f x a) as [a2|] eqn:E2; [|done]. eauto.
Qed.

Lemma update_at_ok {A} i (f : A → result A) xs x y : xs !! i = Some x → f x = Ok y → update_at i f xs = Ok (<[i := y]> xs).
Proof. intros E Ef. unfold update_at. rewrite E, Ef. done. Qed.

Lemma update_key_ok {A} k (f : A → result A) d x y : dict_get k d = Some x → f x = Ok y → update_key k f d = Ok (dict_set k y d).
Proof. intros E Ef. unfold update_key. rewrite E, Ef. done. Qed.

(** ** Views of the buffers *)

Section views.
Context {F : Type} `{Arith F}.
Notation matrix := (list (list F)).
Notation tensor3 := (list matrix).
Notation bufA := (list (pystr * list tensor3)).
Notation bufB := (list (pystr * list (list tensor3))).

Definition matA (A : bufA) (name : pystr) (l id : nat) : option matrix := buf ← dict_get name A; t ← buf !! l; t !! id.
Definition matB (B : bufB) (name : pystr) (l part id : nat) : option matrix :=
  buf ← dict_get name B; parts ← buf !! l; t ← parts !! part; t !! id.

Lemma insert_lookup {A} (xs : list A) i j y x : xs !! i = Some x → <[i := y]> xs !! j = if decide (j = i) then Some y else xs !! j.
Proof.
  intros E. case_decide as Hj.
  - subst j. apply list_lookup_insert_eq. by eapply lookup_lt_Some.
  - by apply list_lookup_insert_ne.
Qed.

(** One matrix is changed. *)
Lemma update_A name l id f A m m' : matA A name l id = Some m → f m = Ok m' →
  ∃ A', update_key name (update_at l (update_at id f)) A = Ok A' ∧ A'.*1 = A.*1 ∧
    ∀ n' l' id', matA A' n' l' id' = if decide (n' = name ∧ l' = l ∧ id' = id) then Some m' else matA A n' l' id'.
Proof.
  intros Em Ef. unfold matA in Em.
  destruct (dict_get name A) as [buf|] eqn:Eb; [|done]. cbn in Em. destruct (buf !! l) as [t|] eqn:Et; [|done]. cbn in Em.
  pose proof (update_at_ok id f t m m' Em Ef) as E1. pose proof (update_at_ok l (update_at id f) buf t _ Et E1) as E2.
  exists (dict_set name (<[l := <[id := m']> t]> buf) A). split; [by eapply update_key_ok|].
  split; [apply dict_set_keys; by eexists|]. intros n' l' id'. unfold matA. rewrite dict_get_set.
  destruct (decide (n' = name)) as [->|Hn]; cbn [mbind option_bind]; [|rewrite decide_False by tauto; done].
  rewrite (insert_lookup _ _ _ _ _ Et), Eb. cbn [mbind option_bind].
  destruct (decide (l' = l)) as [->|Hl]; cbn [mbind option_bind]; [|by rewrite decide_False by tauto].
  rewrite (insert_lookup _ _ _ _ _ Em), Et. cbn [mbind option_bind].
  destruct (decide (id' = id)) as [->|Hi]; [by rewrite decide_True|by rewrite decide_False by tauto].
Qed.

Definition matP (parts : list tensor3) (part id : nat) : option matrix := t ← parts !! part; t !! id.

Lemma update_part part id f (parts : list tensor3) m m' : matP parts part id = Some m → f m = Ok m' →
  ∃ parts', update_at part (update_at id f) parts = Ok parts' ∧
    ∀ part' id', matP parts' part' id' = if decide (part' = part ∧ id' = id) then Some m' else matP parts part' id'.
Proof.
  intros Em Ef. unfold matP in Em. destruct (parts !! part) as [t|] eqn:Et; [|done]. cbn in Em.
  pose proof (update_at_ok id f t m m' Em Ef) as E1. exists (<[part := <[id := m']> t]> parts).
  split; [by eapply update_at_ok|]. intros part' id'. unfold matP. rewrite (insert_lookup _ _ _ _ _ Et).
  destruct (decide (part' = part)) as [->|Hl]; cbn [mbind option_bind]; [|by rewrite decide_False by tauto].
  rewrite (insert_lookup _ _ _ _ _ Em), Et. cbn [mbind option_bind].
  destruct (decide (id' = id)) as [->|Hi]; [by rewrite decide_True|by rewrite decide_False by tauto].
Qed.

Lemma update_B name l (g : list tensor3 → result (list tensor3)) B parts parts' :
  (buf ← dict_get name B; buf !! l) = Some parts → g parts = Ok parts' →
  ∃ B', update_key name (update_at l g) B = Ok B' ∧ B'.*1 = B.*1 ∧
    ∀ n' l' part' id', matB B' n' l' part' id' = if decide (n' = name ∧ l' = l) then matP parts' part' id' else matB B n' l' part' id'.
Proof.
  intros Em Ef. destruct (dict_get name B) as [buf|] eqn:Eb; [|done]. cbn in Em.
  pose proof (update_at_ok l g buf parts parts' Em Ef) as E1.
  exists (dict_set name (<[l := parts']> buf) B). split; [by eapply update_key_ok|].
  split; [apply dict_set_keys; by eexists|]. intros n' l' part' id'. unfold matB. rewrite dict_get_set.
  destruct (decide (n' = name)) as [->|Hn]; cbn [mbind option_bind]; [|rewrite decide_False by tauto; done].
  rewrite (insert_lookup _ _ _ _ _ Em), Eb. cbn [mbind option_bind].
  destruct (decide (l' = l)) as [->|Hl]; cbn [mbind option_bind]; [by rewrite decide_True|by rewrite decide_False by tauto].
Qed.

(** ** Copies *)

Lemma same_shape_ok d0 d1 (v w : matrix) : shape2 d0 d1 v → shape2 d0 d1 w → same_shape v w = true.
Proof.
  intros [Hl Hr] [Hl' Hr']. unfold same_shape. apply bool_decide_eq_true.
  assert (∀ m : matrix, (∀ row, row ∈ m → length row = d1) → length <$> m = replicate (length m) d1) as E.
  { clear. induction m as [|row m IH]; intros Hr; [done|]. cbn. rewrite Hr by left. f_equal. apply IH. intros r Hr'. apply Hr. by right. }
  rewrite (E v), (E w) by done. congruence.
Qed.

Lemma copy_matrix_rows n d0 d1 (w m : matrix) : n ≤ d0 → shape2 n d1 w → shape2 d0 d1 m →
  ∃ m', copy_rows n w m = Ok m' ∧ shape2 d0 d1 m' ∧ take n m' = w.
Proof.
  intros Hn Hw [Hl Hr]. unfold copy_rows. rewrite (same_shape_ok n d1); [|split|done].
  - exists (w ++ drop n m). split; [done|]. destruct Hw as [Hwl Hwr]. split; [split|].
    + rewrite length_app, length_drop. lia.
    + intros row [Hrow|Hrow]%elem_of_app; [by apply Hwr|]. apply Hr. eapply subseteq_drop, Hrow.
    + by rewrite take_app_length'.
  - rewrite length_take. lia.
  - intros row Hrow. apply Hr. apply elem_of_take in Hrow as (i & Hrow & _). by eapply list_elem_of_lookup_2.
Qed.

Lemma copy_matrix_cols n d0 d1 (w m : matrix) : n ≤ d1 → shape2 d0 n w → shape2 d0 d1 m →
  ∃ m', copy_cols n w m = Ok m' ∧ shape2 d0 d1 m' ∧ take n <$> m' = w.
Proof.
  intros Hn [Hwl Hwr] [Hl Hr]. unfold copy_cols. rewrite (same_shape_ok d0 n); [|split|done].
  - eexists. split; [done|]. split; [split|].
    + rewrite length_zip_with. lia.
    + intros row (i & x & y & -> & Hx%list_elem_of_lookup_2 & Hy%list_elem_of_lookup_2)%elem_of_lookup_zip_with_1.
      rewrite length_app, length_drop, (Hwr x), (Hr y) by done. lia.
    + assert (length w = length m) as Hlen by lia. clear Hwl Hl. revert m Hr Hlen.
      induction w as [|x w IH]; intros [|y m] Hr Hlen; try done. cbn. f_equal.
      * rewrite take_app_length'; [done|]. symmetry. apply Hwr. left.
      * apply IH; [intros r Hr'; apply Hwr; by right|intros r Hr'; apply Hr; by right|by injection Hlen].
  - by rewrite length_fmap.
  - intros row (r & -> & Hrow)%list_elem_of_fmap. rewrite length_take, (Hr r Hrow). lia.
Qed.
End views.

(** ** Loading *)

Section load.
Context {F : Type} `{Arith F}.
Notation matrix := (list (list F)).
Notation tensor3 := (list matrix).
Notation bufA := (list (pystr * list tensor3)).
Notation bufB := (list (pystr * list (list tensor3))).
Notation Weight := (LoraPool.Weight (F := F)).
Notation LoRAAdapter := (LoraPool.LoRAAdapter (F := F)).
Notation c name := (get_stacked_multiply name).
(** [L] layers, [M] slots, rank at most [R], the dimensions of the weights, their names. *)
Context (L M R : nat) (in_dim out_dim : pystr → nat) (names : list pystr * list pystr).

Record bufA_ok (A : bufA) : Prop := {
  ba_keys name : name ∈ A.*1 → name ∈ names.1;
  ba_dom name l id : is_Some (matA A name l id) ↔ name ∈ names.1 ∧ l < L ∧ id < M;
  ba_shape name l id m : matA A name l id = Some m → shape2 (R * c name) (in_dim name) m
}.
Record bufB_ok (B : bufB) : Prop := {
  bb_dom name l part id : is_Some (matB B name l part id) ↔ name ∈ names.2 ∧ l < L ∧ part < c name ∧ id < M;
  bb_shape name l part id m : matB B name l part id = Some m → shape2 (out_dim name) R m
}.

Definition weight_part (w : Weight) (part : nat) : option matrix :=
  match w with Flat m => if decide (part = 0) then Some m else None | Stacked ms => ms !! part end.
Definition fits_A (r : nat) (item : pystr * Weight) : Prop :=
  item.1 ∈ names.1 ∧ ∃ w, item.2 = Flat w ∧ shape2 (r * c item.1) (in_dim item.1) w.
Definition fits_B (r : nat) (item : pystr * Weight) : Prop :=
  item.1 ∈ names.2 ∧
  if decide (1 < c item.1) then ∃ ws, item.2 = Stacked ws ∧ shape3 (c item.1) (out_dim item.1) r ws
  else ∃ w, item.2 = Flat w ∧ shape2 (out_dim item.1) r w.

Lemma c_pos name : 0 < c name.
Proof. unfold get_stacked_multiply. repeat case_decide; lia. Qed.

(** The part of slot [id] of layer [l] that rank [r] uses holds these weights. *)
Definition has_A (A : bufA) (r l id : nat) (item : pystr * Weight) : Prop :=
  ∃ m, matA A item.1 l id = Some m ∧ weight_part item.2 0 = Some (take (r * c item.1) m).
Definition has_B (B : bufB) (r l id : nat) (item : pystr * Weight) : Prop :=
  ∀ part, part < c item.1 → ∃ m, matB B item.1 l part id = Some m ∧ weight_part item.2 part = Some (take r <$> m).

Lemma copy_A_ok r l id item A : r ≤ R → l < L → id < M → fits_A r item → bufA_ok A →
  ∃ A', copy_A r l id item A = Ok A' ∧ bufA_ok A' ∧ has_A A' r l id item ∧
    ∀ n' l' id', n' ≠ item.1 ∨ l' ≠ l ∨ id' ≠ id → matA A' n' l' id' = matA A n' l' id'.
Proof.
  intros Hr Hl Hid (Hn & w & E & Hw) HA. destruct item as [name W]; cbn [fst snd] in *. subst W.
  destruct (proj2 (ba_dom A HA name l id)) as [m Em]; [done|].
  destruct (copy_matrix_rows (r * c name) (R * c name) (in_dim name) w m) as (m' & Ec & Hs & Ht); [nia|done|by eapply ba_shape|].
  destruct (update_A name l id (copy_rows (r * c name) w) A m m' Em Ec) as (A' & Eu & Ek & Hv).
  exists A'. split; [exact Eu|]. split; [split|split].
  - intros n. rewrite Ek. apply (ba_keys A HA).
  - intros n' l' id'. rewrite Hv. case_decide as Hd; [|apply (ba_dom A HA)]. destruct Hd as (-> & -> & ->). split; [done|eauto].
  - intros n' l' id' m2. rewrite Hv. case_decide as Hd; [|apply (ba_shape A HA)]. destruct Hd as (-> & -> & ->). by intros [= <-].
  - exists m'. cbn [fst snd]. rewrite Hv, decide_True by done. cbn. by rewrite Ht.
  - intros n' l' id' Hne. rewrite Hv, decide_False by tauto. done.
Qed.

Lemma copy_items_A r l id items A : r ≤ R → l < L → id < M → NoDup items.*1 → (∀ item, item ∈ items → fits_A r item) → bufA_ok A →
  ∃ A', for_in (copy_A r l id) items A = Ok A' ∧ bufA_ok A' ∧ (∀ item, item ∈ items → has_A A' r l id item) ∧
    ∀ n' l' id', n' ∉ items.*1 ∨ l' ≠ l ∨ id' ≠ id → matA A' n' l' id' = matA A n' l' id'.
Proof.
  intros Hr Hl Hid. revert A. induction items as [|item items IH]; intros A ND Hfit HA.
  { exists A. split; [done|]. split; [done|]. split; [|done]. intros item Hi. by apply elem_of_nil in Hi. }
  apply NoDup_cons in ND as [Hnew ND]. destruct (copy_A_ok r l id item A Hr Hl Hid (Hfit item ltac:(left)) HA) as (A1 & E1 & HA1 & Hh & Hf1).
  destruct (IH A1 ND (λ i Hi, Hfit i (list_elem_of_further _ _ _ Hi)) HA1) as (A' & E' & HA' & Hh' & Hf').
  exists A'. rewrite for_in_cons, E1. split; [done|]. split; [done|]. split.
  - intros i [->|Hi]%elem_of_cons; [|by apply Hh']. destruct Hh as (m & Em & Ht). exists m. split; [|done]. rewrite Hf'; [done|by left].
  - intros n' l' id' Hne. cbn [fmap list_fmap] in Hne. rewrite not_elem_of_cons in Hne. rewrite Hf' by tauto. apply Hf1. tauto.
Qed.

(** The parts of a stacked weight. *)
Lemma copy_parts r id d0 (ws : tensor3) n (parts : list tensor3) : r ≤ R →
  (∀ part, part < n → ∃ m w, matP parts part id = Some m ∧ ws !! part = Some w ∧ shape2 d0 R m ∧ shape2 d0 r w) →
  ∃ parts', for_in (λ stacked_id, update_at stacked_id (update_at id (λ m,
      match ws !! stacked_id with Some w => copy_cols r w m | None => Raise IndexError end))) (seq 0 n) parts = Ok parts' ∧
    (∀ part, part < n → ∃ m, matP parts' part id = Some m ∧ shape2 d0 R m ∧ ws !! part = Some (take r <$> m)) ∧
    ∀ part id', n ≤ part ∨ id' ≠ id → matP parts' part id' = matP parts part id'.
Proof.
  intros Hr Hparts. apply (for_in_seq _ (λ k parts', (∀ part, part < k → ∃ m, matP parts' part id = Some m ∧ shape2 d0 R m ∧ ws !! part = Some (take r <$> m)) ∧
    ∀ part id', k ≤ part ∨ id' ≠ id → matP parts' part id' = matP parts part id')); [|split; [lia|done]].
  intros k parts' Hk [Hdone Hrest]. destruct (Hparts k Hk) as (m & w & Em & Ew & Hm & Hw).
  destruct (copy_matrix_cols r d0 R w m) as (m' & Ec & Hs & Ht); [done..|].
  destruct (update_part k id (λ m, match ws !! k with Some w => copy_cols r w m | None => Raise IndexError end) parts' m m') as (parts2 & E2 & Hv).
  { rewrite Hrest by (left; lia). exact Em. }
  { by rewrite Ew. }
  exists parts2. split; [exact E2|]. split.
  - intros part Hp. rewrite Hv. case_decide as Hd.
    + destruct Hd as [-> _]. exists m'. by rewrite Ht.
    + apply Hdone. destruct (decide (part = k)); [tauto|lia].
  - intros part id' Hd. rewrite Hv, decide_False by (intros [-> ->]; destruct Hd; [lia|done]). apply Hrest. destruct Hd; [left; lia|by right].
Qed.

Lemma parts_of (B : bufB) name l part id m : matB B name l part id = Some m →
  ∃ parts, (buf ← dict_get name B; buf !! l) = Some parts ∧ ∀ part id, matP parts part id = matB B name l part id.
Proof.
  unfold matB, matP. destruct (dict_get name B) as [buf|]; [|done]. cbn. destruct (buf !! l) as [parts|]; [|done]. cbn.
  intros _. by exists parts.
Qed.

Lemma copy_B_ok r l id item B : r ≤ R → l < L → id < M → fits_B r item → bufB_ok B →
  ∃ B', copy_B r l id item B = Ok B' ∧ bufB_ok B' ∧ has_B B' r l id item ∧
    ∀ n' l' part id', n' ≠ item.1 ∨ l' ≠ l ∨ id' ≠ id → matB B' n' l' part id' = matB B n' l' part id'.
Proof.
  intros Hr Hl Hid [Hn Hfit] HB. destruct item as [name W]; cbn [fst snd] in *.
  destruct (proj2 (bb_dom B HB name l 0 id)) as [m0 Em0]; [by pose proof (c_pos name)|].
  destruct (parts_of B name l 0 id m0 Em0) as (parts & Ep & Hp).
  set (ws := if decide (1 < c name) then match W with Stacked ws => ws | Flat _ => [] end else match W with Flat w => [w] | Stacked _ => [] end).
  destruct (copy_parts r id (out_dim name) ws (c name) parts Hr) as (parts' & Ec & Hnew & Hold).
  { intros part Hpart. destruct (proj2 (bb_dom B HB name l part id)) as [m Em]; [done|].
    assert (∃ w, ws !! part = Some w ∧ shape2 (out_dim name) r w) as (w & Ew & Hw).
    { unfold ws. case_decide.
      - destruct Hfit as (ws' & -> & [Hlen Hws]). destruct (lookup_lt_is_Some_2 ws' part) as [w Ew]; [lia|].
        exists w. split; [done|]. apply Hws. by eapply list_elem_of_lookup_2.
      - destruct Hfit as (w & -> & Hw). exists w. by replace part with 0 by lia. }
    exists m, w. rewrite Hp. split; [done|]. split; [done|]. split; [by eapply bb_shape|done]. }
  destruct (update_B name l (λ parts,
    if decide (1 < c name) then
      for_in (λ stacked_id, update_at stacked_id (update_at id (λ m,
        match W with
        | Stacked ws => match ws !! stacked_id with Some w => copy_cols r w m | None => Raise IndexError end
        | Flat _ => Raise AssertionError
        end))) (seq 0 (c name)) parts
    else update_at 0 (update_at id (λ m,
      match W with Flat w => copy_cols r w m | Stacked _ => Raise AssertionError end)) parts) B parts parts' Ep) as (B' & Eu & _ & Hv).
  { unfold ws in Ec. case_decide.
    - destruct Hfit as (ws' & -> & _). exact Ec.
    - destruct Hfit as (w & -> & _). pose proof (c_pos name). replace (c name) with 1 in Ec by lia. exact Ec. }
  exists B'. split; [exact Eu|]. split; [split|split].
  - intros n' l' part id'. rewrite Hv. destruct (decide (n' = name ∧ l' = l)) as [Hd|Hd]; [|apply (bb_dom B HB)]. destruct Hd as [-> ->].
    destruct (decide (part < c name ∧ id' = id)) as [[Hp1 ->]|Hno].
    + destruct (Hnew part Hp1) as (m & -> & _). naive_solver.
    + rewrite Hold by (destruct (decide (id' = id)); [left; lia|by right]). rewrite Hp. apply (bb_dom B HB).
  - intros n' l' part id' m. rewrite Hv. destruct (decide (n' = name ∧ l' = l)) as [Hd|Hd]; [|apply (bb_shape B HB)]. destruct Hd as [-> ->].
    destruct (decide (part < c name ∧ id' = id)) as [[Hp1 ->]|Hno].
    + destruct (Hnew part Hp1) as (m' & -> & Hs & _). by intros [= <-].
    + rewrite Hold by (destruct (decide (id' = id)); [left; lia|by right]). rewrite Hp. apply (bb_shape B HB).
  - intros part Hpart. cbn [fst snd] in *. destruct (Hnew part Hpart) as (m & Em & _ & Ew). exists m.
    rewrite Hv, decide_True by done. split; [done|]. rewrite <- Ew. unfold ws. destruct (decide (1 < c name)).
    + destruct Hfit as (ws' & -> & _). done.
    + destruct Hfit as (w & -> & _). cbn. by replace part with 0 by lia.
  - intros n' l' part id' Hne. rewrite Hv. destruct (decide (n' = name ∧ l' = l)) as [Hd|Hd]; [|done]. destruct Hd as [-> ->].
    rewrite Hold by (destruct (decide (id' = id)); [tauto|by right]). apply Hp.
Qed.

Lemma copy_items_B r l id items B : r ≤ R → l < L → id < M → NoDup items.*1 → (∀ item, item ∈ items → fits_B r item) → bufB_ok B →
  ∃ B', for_in (copy_B r l id) items B = Ok B' ∧ bufB_ok B' ∧ (∀ item, item ∈ items → has_B B' r l id item) ∧
    ∀ n' l' part id', n' ∉ items.*1 ∨ l' ≠ l ∨ id' ≠ id → matB B' n' l' part id' = matB B n' l' part id'.
Proof.
  intros Hr Hl Hid. revert B. induction items as [|item items IH]; intros B ND Hfit HB.
  { exists B. split; [done|]. split; [done|]. split; [|done]. intros item Hi. by apply elem_of_nil in Hi. }
  apply NoDup_cons in ND as [Hnew ND]. destruct (copy_B_ok r l id item B Hr Hl Hid (Hfit item ltac:(left)) HB) as (B1 & E1 & HB1 & Hh & Hf1).
  destruct (IH B1 ND (λ i Hi, Hfit i (list_elem_of_further _ _ _ Hi)) HB1) as (B' & E' & HB' & Hh' & Hf').
  exists B'. rewrite for_in_cons, E1. split; [done|]. split; [done|]. split.
  - intros i [->|Hi]%elem_of_cons; [|by apply Hh']. intros part Hp. destruct (Hh part Hp) as (m & Em & Ht). exists m.
    split; [|done]. rewrite Hf'; [done|by left].
  - intros n' l' part id' Hne. cbn [fmap list_fmap] in Hne. rewrite not_elem_of_cons in Hne. rewrite Hf' by tauto. apply Hf1. tauto.
Qed.
End load.
