(* ===== verification/LoraInv.v ===== *)
(** * The adapters that are in the pool

    The invariant of the pool: the two maps between adapters and slots are inverse to each other,
    and every slot that belongs to an adapter holds its weights. [prepare_lora_batch] keeps it and
    leaves the adapters of the batch in the pool. *)

From S2P Require Import Prelude PyStr Tiles LoraPool LoraLoad.

Open Scope nat_scope.

Section inv.
Context {F : Type} `{Arith F}.
Notation matrix := (list (list F)).
Notation Weight := (LoraPool.Weight (F := F)).
Notation LoRAAdapter := (LoraPool.LoRAAdapter (F := F)).
Notation LoRAMemoryPool := (LoraPool.LoRAMemoryPool (F := F)).
Notation uid := (option pystr).
Context (p0 : LoRAMemoryPool) (R : nat) (in_dim out_dim : pystr → nat) (loras : list (pystr * LoRAAdapter)).
Notation L := (num_layer p0).
Notation M := (max_loras_per_batch p0).
Notation names := (lora_weight_names p0).

(** An adapter has all the weights that the pool has buffers for, in their shapes. *)
Definition adapter_ok (ad : LoRAAdapter) : Prop :=
  lora_rank ad ≤ R ∧
  ∀ l, l < L → ∃ tA tB, temp_buffers p0 ad l = Ok (tA, tB) ∧
    (∀ item, item ∈ tA → fits_A in_dim names (lora_rank ad) item) ∧ (∀ item, item ∈ tB → fits_B out_dim names (lora_rank ad) item) ∧
    (∀ name, name ∈ names.1 → name ∈ tA.*1) ∧ (∀ name, name ∈ names.2 → name ∈ tB.*1).

Context (Hloras : ∀ name ad, dict_get name loras = Some ad → adapter_ok ad).

Definition same_config (p : LoRAMemoryPool) : Prop :=
  num_layer p = L ∧ max_loras_per_batch p = M ∧ tp_size p = tp_size p0 ∧ tp_rank p = tp_rank p0 ∧
  lora_modules p = lora_modules p0 ∧ lora_weight_names p = names.

Definition zero_matrix (m : matrix) : Prop := ∀ row, row ∈ m → ∀ v, v ∈ row → v = fzero.

(** Slot [id] holds the weights of [u]; without an adapter, zeros for A. *)
Definition loaded (p : LoRAMemoryPool) (u : uid) (id : nat) : Prop :=
  match u with
  | None => ∀ name l m, matA (A_buffer p) name l id = Some m → zero_matrix m
  | Some name => ∃ ad, dict_get name loras = Some ad ∧ ∀ l, l < L → ∃ tA tB, temp_buffers p0 ad l = Ok (tA, tB) ∧
      (∀ item, item ∈ tA → has_A (A_buffer p) (lora_rank ad) l id item) ∧ (∀ item, item ∈ tB → has_B (B_buffer p) (lora_rank ad) l id item)
  end.

Record buffers_ok (p : LoRAMemoryPool) : Prop := {
  po_config : same_config p;
  po_A : bufA_ok L M R in_dim names (A_buffer p);
  po_B : bufB_ok L M R out_dim names (B_buffer p)
}.

Record pool_ok (p : LoRAMemoryPool) : Prop := {
  po_buffers : buffers_ok p;
  po_len : length (buffer_id_to_uid p) = M;
  po_keys : NoDup (uid_to_buffer_id p).*1;
  po_map u id : dict_get u (uid_to_buffer_id p) = Some id ↔ buffer_id_to_uid p !! id = Some u ∧ u ≠ empty_slot;
  po_loaded u id : dict_get u (uid_to_buffer_id p) = Some id → loaded p u id
}.

(** [p'] differs from [p] only in slot [id] of the buffers. *)
Record only_slot (id : nat) (p p' : LoRAMemoryPool) : Prop := {
  os_ids : uid_to_buffer_id p' = uid_to_buffer_id p;
  os_uids : buffer_id_to_uid p' = buffer_id_to_uid p;
  os_A name l id' : id' ≠ id → matA (A_buffer p') name l id' = matA (A_buffer p) name l id';
  os_B name l part id' : id' ≠ id → matB (B_buffer p') name l part id' = matB (B_buffer p) name l part id'
}.

Lemma loaded_frame p p' u id : (∀ name l, matA (A_buffer p') name l id = matA (A_buffer p) name l id) →
  (∀ name l part, matB (B_buffer p') name l part id = matB (B_buffer p) name l part id) → loaded p u id → loaded p' u id.
Proof.
  intros OA OB. destruct u as [name|]; cbn [loaded].
  - intros (ad & E & Hl). exists ad. split; [done|]. intros l Hll. destruct (Hl l Hll) as (tA & tB & Et & HA & HB).
    exists tA, tB. split; [done|]. split.
    + intros item Hi. destruct (HA item Hi) as (m & Em & Hm). exists m. by rewrite OA.
    + intros item Hi part Hp. destruct (HB item Hi part Hp) as (m & Em & Hm). exists m. by rewrite OB.
  - intros Hz name l m. rewrite OA. apply Hz.
Qed.

Lemma same_temp p ad l : same_config p → temp_buffers p ad l = temp_buffers p0 ad l.
Proof. intros (E1 & E2 & E3 & E4 & E5 & E6). unfold temp_buffers. by rewrite E3, E4, E5, E6. Qed.

(** ** Loading *)

Lemma collect_NoDup weights tA tB : collect_weights (F := F) names weights = Ok (tA, tB) → NoDup tA.*1 ∧ NoDup tB.*1.
Proof.
  intros E. apply (for_in_inv _ (λ t, NoDup t.1.*1 ∧ NoDup t.2.*1) _ _ _) in E; [exact E| |split; apply NoDup_nil_2].
  intros [name w] [a b] [a' b'] Ef [Ha Hb]. destruct (str_in lora_A name).
  - destruct get_weight_name as [n|]; [|done]. injection Ef as <- <-. split; [by apply dict_set_NoDup|done].
  - destruct get_weight_name as [n|]; [|done]. injection Ef as <- <-. split; [done|by apply dict_set_NoDup].
Qed.

Ltac inv_result :=
  repeat match goal with
  | E : (?x ≫= _) = Ok _ |- _ => let H := fresh "E" in destruct x eqn:H; cbn [mbind result_bind] in E; [|discriminate E]
  end.

Lemma slice_NoDup r modules t t' : slice_weights (F := F) names r modules t = Ok t' → NoDup t.1.*1 ∧ NoDup t.2.*1 → NoDup t'.1.*1 ∧ NoDup t'.2.*1.
Proof.
  apply (for_in_inv _ (λ t, NoDup t.1.*1 ∧ NoDup t.2.*1)). intros [name lay] [a b] [a' b'] Ef [Ha Hb]. cbn [fst snd] in *.
  destruct (str_in qkv_proj name); inv_result.
  - repeat match goal with x : (_ * _)%type |- _ => destruct x end. injection Ef as <- <-. split; [by apply dict_set_NoDup|by do 2 apply dict_set_NoDup].
  - injection Ef as <- <-. split; by apply dict_set_NoDup.
Qed.

Lemma temp_NoDup ad l tA tB : temp_buffers p0 ad l = Ok (tA, tB) → NoDup tA.*1 ∧ NoDup tB.*1.
Proof.
  unfold temp_buffers. destruct (layer_weights ad !! l) as [weights|]; [|done].
  destruct collect_weights as [[a b]|] eqn:Ec; [|done]. apply collect_NoDup in Ec. cbn [mbind result_bind].
  case_decide; [|by intros [= <- <-]]. destruct (lora_modules p0 !! l); [|done]. intros E. by apply (slice_NoDup _ _ (a, b) (tA, tB) E).
Qed.

(** One layer of an adapter. *)
Lemma load_layer_ok ad l id p : adapter_ok ad → l < L → id < M → buffers_ok p →
  ∃ tA tB p', temp_buffers p0 ad l = Ok (tA, tB) ∧
    ('(temp_A_buffer, temp_B_buffer) ← temp_buffers p ad l;
     A ← for_in (copy_A (lora_rank ad) l id) temp_A_buffer (A_buffer p);
     B ← for_in (copy_B (lora_rank ad) l id) temp_B_buffer (B_buffer p);
     Ok (set_B_buffer B (set_A_buffer A p))) = Ok p' ∧
    buffers_ok p' ∧ only_slot id p p' ∧
    (∀ item, item ∈ tA → has_A (A_buffer p') (lora_rank ad) l id item) ∧ (∀ item, item ∈ tB → has_B (B_buffer p') (lora_rank ad) l id item) ∧
    (∀ name l', l' ≠ l → matA (A_buffer p') name l' id = matA (A_buffer p) name l' id) ∧
    (∀ name l' part, l' ≠ l → matB (B_buffer p') name l' part id = matB (B_buffer p) name l' part id).
Proof.
  intros [Hr Hl] Hll Hid [Hc HA HB]. destruct (Hl l Hll) as (tA & tB & Et & HfA & HfB & _ & _).
  destruct (temp_NoDup ad l tA tB Et) as [NA NB].
  destruct (copy_items_A L M R in_dim out_dim names (lora_rank ad) l id tA (A_buffer p)) as (A & EA & HA' & HhA & HoA); [done..|].
  destruct (copy_items_B L M R in_dim out_dim names (lora_rank ad) l id tB (B_buffer p)) as (B & EB & HB' & HhB & HoB); [done..|].
  exists tA, tB, (set_B_buffer B (set_A_buffer A p)). split; [done|]. rewrite (same_temp p) by done. rewrite Et. cbn [mbind result_bind].
  rewrite EA. cbn [mbind result_bind]. rewrite EB. split; [done|].
  split; [by split|]. split; [split; [done|done| |]|].
  - intros name l' id' Hne. apply HoA. tauto.
  - intros name l' part id' Hne. apply HoB. tauto.
  - split; [done|]. split; [done|]. split; [intros; apply HoA; tauto|intros; apply HoB; tauto].
Qed.

Lemma only_slot_refl id p : only_slot id p p.
Proof. by split. Qed.

Lemma only_slot_trans id p1 p2 p3 : only_slot id p1 p2 → only_slot id p2 p3 → only_slot id p1 p3.
Proof.
  intros [E1 E2 E3 E4] [E5 E6 E7 E8]. split; [congruence|congruence| |].
  - intros. by rewrite E7, E3.
  - intros. by rewrite E8, E4.
Qed.

Lemma zeros_ok d0 d1 (m : matrix) : shape2 d0 d1 m → shape2 d0 d1 ((λ row : list F, (λ _ : F, fzero) <$> row) <$> m).
Proof.
  intros [Hl Hr]. split; [by rewrite length_fmap|]. intros row (r & -> & Hrow)%list_elem_of_fmap. rewrite length_fmap. by apply Hr.
Qed.

Lemma zero_zeros (m : matrix) : zero_matrix ((λ row : list F, (λ _ : F, fzero) <$> row) <$> m).
Proof. intros row (r & -> & Hr)%list_elem_of_fmap v (w & -> & _)%list_elem_of_fmap. done. Qed.

(** [A_buffer[k][i][buffer_id] = 0] for some of the names. *)
Lemma zero_names_ok i id (ks : list pystr) A : i < L → id < M → (∀ k, k ∈ ks → k ∈ names.1) → bufA_ok L M R in_dim names A →
  ∃ A', for_in (λ k, update_key k (update_at i (update_at id (λ m : matrix, Ok ((λ row : list F, (λ _ : F, fzero) <$> row) <$> m))))) ks A = Ok A' ∧
    A'.*1 = A.*1 ∧ bufA_ok L M R in_dim names A' ∧
    (∀ name l m, matA A' name l id = Some m → (l = i ∧ name ∈ ks) ∨ (∃ m0, matA A name l id = Some m0 ∧ zero_matrix m0) → zero_matrix m) ∧
    (∀ name l id', id' ≠ id → matA A' name l id' = matA A name l id').
Proof.
  intros Hi Hid. revert A. induction ks as [|k ks IH]; intros A Hks HA.
  { exists A. split; [done|]. split; [done|]. split; [done|]. split; [|done].
    intros name l m Em [[_ Hn]|(m0 & Em0 & Hz)]; [by apply elem_of_nil in Hn|]. rewrite Em in Em0. by injection Em0 as <-. }
  destruct (proj2 (ba_dom _ _ _ _ _ A HA k i id)) as [m Em]; [split; [apply Hks; left|done]|].
  destruct (update_A k i id (λ m : matrix, Ok ((λ row : list F, (λ _ : F, fzero) <$> row) <$> m)) A m _ Em eq_refl) as (A1 & E1 & Ek & Hv).
  destruct (IH A1) as (A' & E' & Ek' & HA' & Hz & Hf); [intros k' Hk'; apply Hks; by right| |].
  { split.
    - intros name. rewrite Ek. apply (ba_keys _ _ _ _ _ A HA).
    - intros n l id'. rewrite Hv. case_decide as Hd; [|apply (ba_dom _ _ _ _ _ A HA)]. destruct Hd as (-> & -> & ->).
      split; [intros _; split; [apply Hks; left|done]|eauto].
    - intros n l id' m2. rewrite Hv. case_decide as Hd; [|apply (ba_shape _ _ _ _ _ A HA)]. destruct Hd as (-> & -> & ->).
      intros [= <-]. apply zeros_ok. by eapply ba_shape. }
  exists A'. rewrite for_in_cons, E1. split; [done|]. split; [congruence|]. split; [done|]. split.
  - intros name l m2 Em2 Hcase. apply (Hz name l m2 Em2). destruct (decide (name = k ∧ l = i)) as [[-> ->]|Hne].
    + right. eexists. rewrite Hv, decide_True by done. split; [done|]. apply zero_zeros.
    + destruct Hcase as [[-> [->|Hn]%elem_of_cons]|(m0 & Em0 & Hz0)]; [tauto|by left|right].
      exists m0. rewrite Hv, decide_False by tauto. done.
  - intros name l id' Hne. rewrite Hf by done. rewrite Hv, decide_False by tauto. done.
Qed.

Lemma zero_slot_ok id A : id < M → bufA_ok L M R in_dim names A →
  ∃ A', for_in (λ i A, for_in (λ k, update_key k (update_at i (update_at id (λ m : matrix,
      Ok ((λ row : list F, (λ _ : F, fzero) <$> row) <$> m))))) A.*1 A) (seq 0 L) A = Ok A' ∧
    bufA_ok L M R in_dim names A' ∧ (∀ name l m, matA A' name l id = Some m → zero_matrix m) ∧
    (∀ name l id', id' ≠ id → matA A' name l id' = matA A name l id').
Proof.
  intros Hid HA.
  destruct (for_in_seq (λ i A, for_in (λ k, update_key k (update_at i (update_at id (λ m : matrix,
      Ok ((λ row : list F, (λ _ : F, fzero) <$> row) <$> m))))) A.*1 A)
    (λ i A', bufA_ok L M R in_dim names A' ∧ A'.*1 = A.*1 ∧ (∀ name l m, l < i → matA A' name l id = Some m → zero_matrix m) ∧
      (∀ name l id', id' ≠ id → matA A' name l id' = matA A name l id')) L A) as (A' & E & HA' & _ & Hz & Hf).
  - intros i A1 Hi (HA1 & Ek & Hz & Hf).
    destruct (zero_names_ok i id A1.*1 A1 Hi Hid (ba_keys _ _ _ _ _ A1 HA1) HA1) as (A2 & E2 & Ek2 & HA2 & Hz2 & Hf2).
    exists A2. split; [exact E2|]. split; [done|]. split; [congruence|]. split.
    + intros name l m Hl Em.
      destruct (proj1 (ba_dom _ _ _ _ _ A2 HA2 name l id)) as (Hn & Hll & _); [by eexists|].
      destruct (proj2 (ba_dom _ _ _ _ _ A1 HA1 name l id)) as [m1 Em1]; [done|].
      apply (Hz2 name l m Em). destruct (decide (l = i)) as [->|]; [left|right; exists m1; split; [done|apply (Hz name l); [lia|done]]].
      split; [done|]. clear -Em1. unfold matA in Em1. destruct (dict_get name A1) as [b|] eqn:E; [|done].
      apply dict_get_elem in E. apply list_elem_of_fmap. by exists (name, b).
    + intros. by rewrite Hf2, Hf.
  - split; [done|]. split; [done|]. split; [lia|done].
  - exists A'. split; [exact E|]. split; [done|]. split; [|done]. intros name l m Em.
    destruct (proj1 (ba_dom _ _ _ _ _ A' HA' name l id)) as (_ & Hll & _); [by eexists|]. by apply (Hz name l).
Qed.

Lemma load_ok u id p : id < M → buffers_ok p → match u with Some name => is_Some (dict_get name loras) | None => True end →
  ∃ p', load_lora_weight_to_buffer u id (match u with Some name => dict_get name loras | None => None end) p = Ok p' ∧
    buffers_ok p' ∧ only_slot id p p' ∧ loaded p' u id.
Proof.
  intros Hid Hp Hu. destruct u as [name|]; cbn [load_lora_weight_to_buffer].
  - destruct Hu as [ad Ead]. rewrite Ead. pose proof (Hloras name ad Ead) as Had.
    pose proof (po_config p Hp) as (EL & _).
    destruct (for_in_seq (λ layer_id p,
        '(temp_A_buffer, temp_B_buffer) ← temp_buffers p ad layer_id;
        A ← for_in (copy_A (lora_rank ad) layer_id id) temp_A_buffer (A_buffer p);
        B ← for_in (copy_B (lora_rank ad) layer_id id) temp_B_buffer (B_buffer p);
        Ok (set_B_buffer B (set_A_buffer A p)))
      (λ k p', buffers_ok p' ∧ only_slot id p p' ∧ ∀ l, l < k → ∃ tA tB, temp_buffers p0 ad l = Ok (tA, tB) ∧
        (∀ item, item ∈ tA → has_A (A_buffer p') (lora_rank ad) l id item) ∧ (∀ item, item ∈ tB → has_B (B_buffer p') (lora_rank ad) l id item)) L p)
      as (p' & E & Hp' & Ho & Hl).
    + intros l p1 Hll (Hp1 & Ho1 & Hl1).
      destruct (load_layer_ok ad l id p1 Had Hll Hid Hp1) as (tA & tB & p2 & Et & E2 & Hp2 & Ho2 & HhA & HhB & HfA & HfB).
      exists p2. split; [exact E2|]. split; [done|]. split; [by eapply only_slot_trans|].
      intros l' Hl'. destruct (decide (l' = l)) as [->|Hne]; [by exists tA, tB|].
      destruct (Hl1 l') as (tA' & tB' & Et' & HA' & HB'); [lia|]. exists tA', tB'. split; [done|]. split.
      * intros item Hi. destruct (HA' item Hi) as (m & Em & Hm). exists m. by rewrite HfA.
      * intros item Hi part Hpart. destruct (HB' item Hi part Hpart) as (m & Em & Hm). exists m. by rewrite HfB.
    + split; [done|]. split; [apply only_slot_refl|lia].
    + exists p'. rewrite EL. split; [exact E|]. split; [done|]. split; [done|]. by exists ad.
  - pose proof (po_config p Hp) as (EL & _). destruct Hp as [Hc HA HB].
    destruct (zero_slot_ok id (A_buffer p) Hid HA) as (A' & E & HA' & Hz & Hf).
    exists (set_A_buffer A' p). rewrite EL, E. split; [done|]. split; [by split|]. split; [by split|]. exact Hz.
Qed.

(** ** Choosing a slot *)

Section batch.
Context (cur_uids : list uid) (Hlen : length cur_uids ≤ M) (Hempty : empty_slot ∉ cur_uids).
Context (Hknown : ∀ name, Some name ∈ cur_uids → is_Some (dict_get name loras)).

Lemma slots_distinct p i j u : pool_ok p → u ≠ empty_slot → buffer_id_to_uid p !! i = Some u → buffer_id_to_uid p !! j = Some u → i = j.
Proof.
  intros Hp Hu Hi Hj. pose proof (proj2 (po_map p Hp u i) (conj Hi Hu)). pose proof (proj2 (po_map p Hp u j) (conj Hj Hu)). congruence.
Qed.

(** There is a slot for an adapter that is not in the pool. *)
Lemma slot_available p u : pool_ok p → u ∈ cur_uids → dict_get u (uid_to_buffer_id p) = None →
  ∃ id ev, get_available_buffer_slot cur_uids p = Ok (id, ev) ∧ buffer_id_to_uid p !! id = Some ev ∧ (ev = empty_slot ∨ ev ∉ cur_uids).
Proof.
  intros Hp Hu Hnew. unfold get_available_buffer_slot.
  destruct (list_find (λ u, u = empty_slot) (buffer_id_to_uid p)) as [[id ev]|] eqn:E1.
  { apply list_find_Some in E1 as (E & -> & _). exists id, empty_slot. eauto. }
  destruct (list_find (λ u, u ∉ cur_uids) (buffer_id_to_uid p)) as [[id ev]|] eqn:E2.
  { apply list_find_Some in E2 as (E & Hev & _). exists id, ev. eauto. }
  exfalso. apply list_find_None in E1, E2. rewrite Forall_forall in E1, E2.
  assert (NoDup (u :: buffer_id_to_uid p)) as ND.
  { apply NoDup_cons. split.
    - intros (i & Hi)%list_elem_of_lookup. assert (u ≠ empty_slot) by (intros ->; done).
      by rewrite (proj2 (po_map p Hp u i)) in Hnew.
    - apply NoDup_alt. intros i j v Hi Hj. eapply (slots_distinct p i j v Hp); [|done..].
      apply E1. by eapply list_elem_of_lookup_2. }
  assert (u :: buffer_id_to_uid p ⊆+ cur_uids) as Hs.
  { apply NoDup_submseteq; [done|]. intros v [->|Hv]%elem_of_cons; [done|]. apply dec_stable. by apply E2. }
  apply submseteq_length in Hs. cbn in Hs. rewrite (po_len p Hp) in Hs. lia.
Qed.

Lemma prepare_uid_ok u p : pool_ok p → u ∈ cur_uids →
  ∃ p', prepare_uid loras cur_uids u p = Ok p' ∧ pool_ok p' ∧ is_Some (dict_get u (uid_to_buffer_id p')) ∧
    ∀ v, v ∈ cur_uids → is_Some (dict_get v (uid_to_buffer_id p)) → is_Some (dict_get v (uid_to_buffer_id p')).
Proof.
  intros Hp Hu. unfold prepare_uid. destruct (dict_get u (uid_to_buffer_id p)) as [id|] eqn:Eu; [exists p; eauto|].
  assert (u ≠ empty_slot) as Hne by (intros ->; done).
  destruct (slot_available p u Hp Hu Eu) as (id & ev & -> & Eev & Hev). cbn [mbind result_bind].
  set (d1 := if decide (ev = empty_slot) then uid_to_buffer_id p else dict_del ev (uid_to_buffer_id p)).
  assert ((if decide (ev = empty_slot) then Ok p
           else match dict_get ev (uid_to_buffer_id p) with
                | Some _ => Ok (set_uid_to_buffer_id (dict_del ev (uid_to_buffer_id p)) p)
                | None => Raise KeyError
                end) = Ok (set_uid_to_buffer_id d1 p)) as ->.
  { unfold d1. case_decide as Hd; [by destruct p|]. by rewrite (proj2 (po_map p Hp ev id)). }
  cbn [mbind result_bind].
  assert (∀ v i, dict_get v d1 = Some i ↔ dict_get v (uid_to_buffer_id p) = Some i ∧ v ≠ ev) as Hd1.
  { intros v i. unfold d1. case_decide as Hd.
    - split; [|tauto]. intros E. split; [done|]. rewrite Hd. by apply (po_map p Hp v i).
    - rewrite dict_get_del by apply (po_keys p Hp). case_decide; naive_solver. }
  assert (NoDup d1.*1) as Hd1k.
  { unfold d1. case_decide; [apply (po_keys p Hp)|]. eapply sublist_NoDup; [apply (po_keys p Hp)|apply dict_del_keys]. }
  destruct (load_ok u id (set_uid_to_buffer_id d1 p)) as (p2 & -> & Hp2 & Ho & Hld).
  { rewrite <- (po_len p Hp). by eapply lookup_lt_Some. }
  { destruct (po_buffers p Hp). by split. }
  { destruct u; [by apply Hknown|done]. }
  cbn [mbind result_bind]. destruct Ho as [Eo1 Eo2 EoA EoB]. cbn in Eo1, Eo2, EoA, EoB. eexists. split; [done|].
  pose proof (lookup_lt_Some _ _ _ Eev) as Hid.
  assert (∀ v i, dict_get v (dict_set u id d1) = Some i ↔ <[id:=u]> (buffer_id_to_uid p) !! i = Some v ∧ v ≠ empty_slot) as Hmap.
  { intros v i. rewrite dict_get_set, (insert_lookup _ _ _ _ _ Eev). destruct (decide (v = u)) as [->|Hv], (decide (i = id)) as [->|Hi].
    - split; [done|]. by intros _.
    - split; [congruence|]. intros [E _]. by rewrite (proj2 (po_map p Hp u i)) in Eu.
    - rewrite Hd1. split; [|intros [[= ->] _]; done]. intros [E Hvev]. apply (po_map p Hp) in E as [E _]. congruence.
    - rewrite Hd1, (po_map p Hp). split; [tauto|]. intros [E Hve]. split; [done|]. intros ->. apply Hi. by eapply (slots_distinct p i id ev). }
  split; [split; cbn; rewrite ?Eo1, ?Eo2|split].
  - destruct Hp2. by split.
  - rewrite length_insert. apply (po_len p Hp).
  - by apply dict_set_NoDup.
  - exact Hmap.
  - intros v i Hv. destruct (decide (v = u)) as [->|Hvu].
    + rewrite dict_get_set_eq in Hv. injection Hv as <-. exact Hld.
    + rewrite dict_get_set_ne in Hv by done. apply Hd1 in Hv as [Hv Hvev].
      assert (i ≠ id) by (intros ->; apply (po_map p Hp) in Hv as [Hv _]; congruence).
      apply (loaded_frame p); [intros; by apply EoA|intros; by apply EoB|by apply (po_loaded p Hp)].
  - cbn. rewrite Eo1, dict_get_set_eq. eauto.
  - intros v Hv [i Ei]. cbn. rewrite Eo1, dict_get_set. case_decide; [eauto|]. exists i. apply Hd1. split; [done|].
    intros ->. destruct Hev as [->|Hno]; done.
Qed.

Lemma prepare_lora_batch_ok p : pool_ok p →
  ∃ p', prepare_lora_batch cur_uids loras p = Ok p' ∧ pool_ok p' ∧ ∀ u, u ∈ cur_uids → is_Some (dict_get u (uid_to_buffer_id p')).
Proof.
  intros Hp. unfold prepare_lora_batch.
  assert (∀ todo p, (∀ u, u ∈ todo → u ∈ cur_uids) → pool_ok p → ∃ p', for_in (prepare_uid loras cur_uids) todo p = Ok p' ∧ pool_ok p' ∧
    (∀ u, u ∈ todo → is_Some (dict_get u (uid_to_buffer_id p'))) ∧
    ∀ u, u ∈ cur_uids → is_Some (dict_get u (uid_to_buffer_id p)) → is_Some (dict_get u (uid_to_buffer_id p'))) as Hloop.
  { clear p Hp. induction todo as [|u todo IH]; intros p Hin Hp.
    { exists p. split; [done|]. split; [done|]. split; [|done]. intros u Hu. by apply elem_of_nil in Hu. }
    destruct (prepare_uid_ok u p Hp (Hin u ltac:(left))) as (p1 & E1 & Hp1 & Hu1 & Hk1).
    destruct (IH p1 (λ v Hv, Hin v (list_elem_of_further _ _ _ Hv)) Hp1) as (p' & E' & Hp' & Hu' & Hk').
    exists p'. rewrite for_in_cons, E1. split; [done|]. split; [done|]. split.
    - intros v [->|Hv]%elem_of_cons; [|by apply Hu']. apply Hk'; [apply Hin; left|done].
    - intros v Hv Hs. by apply Hk', Hk1. }
  destruct (Hloop cur_uids p (λ u Hu, Hu) Hp) as (p' & E & Hp' & Hu & _). eauto.
Qed.
End batch.
End inv.
