(* ===== verification/LoraManager.v ===== *)
(** * The LoRA manager and the layers

    [LoRAManager.prepare_lora_batch] of [lora/lora_manager.py]: the adapters of a batch are loaded
    and the tensors that tell the kernels which adapter each request uses are filled; and what the
    layers of [lora/layers.py] do with them on the Triton backend. *)

From S2P Require Import Prelude PyStr Grid Tiles LoraKernels LoraPool.

Open Scope nat_scope.

Section manager.
Context {F : Type} `{Arith F}.
Notation matrix := (list (list F)).
Notation tensor3 := (list matrix).
Notation uid := (option pystr).
(** The order in which Python walks [set(lora_paths)]. *)
Context (set_order : list uid → list uid).

Record ForwardBatch := MkForwardBatch {
  lora_paths : list uid;
  batch_size : nat;
  extend_seq_lens : list nat;
  is_extend : bool;
  is_cuda_graph : bool
}.

(** [cuda_graph_batch_info] comes with [max_bs_in_cuda_graph]; it is the same object for all batches. *)
Record LoRAManager := MkManager {
  memory_pool : LoRAMemoryPool (F := F);
  loras : list (pystr * LoRAAdapter (F := F));
  cuda_graph_batch_info : option (nat * LoRABatchInfo F)
}.

(** [init_cuda_graph_batch_info]. *)
Definition init_cuda_graph_batch_info (max_bs : nat) (m : LoRAManager) : LoRAManager :=
  let n := max_loras_per_batch (memory_pool m) in
  MkManager (memory_pool m) (loras m)
    (Some (max_bs, MkBatchInfo max_bs (replicate max_bs 0) (replicate (max_bs + 1) 0) 0 (replicate max_bs 0) (replicate n 0) (replicate n fzero))).

Fixpoint cumsum (total : nat) (xs : list nat) : list nat :=
  match xs with [] => [] | x :: xs => (total + x) :: cumsum (total + x) xs end.

(** [xs[:len(ys)] = ys]. *)
Definition set_prefix {A} (ys xs : list A) : list A := ys ++ drop (length ys) xs.

(** [for i, lora_path in enumerate(lora_paths)]. *)
Definition fill_adapters (m : LoRAManager) (paths : list uid) (info : list nat * list nat * list F) : result (list nat * list nat * list F) :=
  for_in (λ '(i, lora_path) '(weight_indices, lora_ranks, scalings),
    w ← get_buffer_id lora_path (memory_pool m);
    weight_indices ← update_at i (λ _, Ok w) weight_indices;
    match lora_path with
    | None => Ok (weight_indices, lora_ranks, scalings)
    | Some name =>
        lora ← lookup_key name (loras m);
        lora_ranks ← update_at w (λ _, Ok (lora_rank lora)) lora_ranks;
        scalings ← update_at w (λ _, Ok (scaling lora)) scalings;
        Ok (weight_indices, lora_ranks, scalings)
    end) (imap pair paths) info.

Definition prepare_batch (fb : ForwardBatch) (m : LoRAManager) : result (LoRABatchInfo F * LoRAManager) :=
  let cur_uids := set_order (lora_paths fb) in
  if decide (length cur_uids ≤ max_loras_per_batch (memory_pool m)) then
    p ← prepare_lora_batch cur_uids (loras m) (memory_pool m);
    let m := MkManager p (loras m) (cuda_graph_batch_info m) in
    let n := batch_size fb in
    match (match cuda_graph_batch_info m with
           | Some (max_bs, info) => if decide (n ≤ max_bs) then if is_cuda_graph fb then Some (max_bs, info) else None else None
           | None => None
           end) with
    | Some (max_bs, info) =>
        let lens := set_prefix (replicate n 1) (seg_lens info) in
        let indptr := take 1 (seg_indptr info) ++ set_prefix (cumsum 0 (take n lens)) (drop 1 (seg_indptr info)) in
        '(indices, ranks, scales) ← fill_adapters m (lora_paths fb) (weight_indices info, lora_ranks info, scalings info);
        let info := MkBatchInfo n lens indptr 1 indices ranks scales in
        Ok (info, MkManager p (loras m) (Some (max_bs, info)))
    | None =>
        let lens := if is_extend fb then extend_seq_lens fb else replicate n 1 in
        match lens with
        | [] => Raise (RuntimeError "max(): Expected reduction dim to be specified for input.numel() == 0")
        | _ =>
            let k := max_loras_per_batch p in
            '(indices, ranks, scales) ← fill_adapters m (lora_paths fb) (replicate n 0, replicate k 0, replicate k fzero);
            Ok (MkBatchInfo n lens (0 :: cumsum 0 lens) (max_list lens) indices ranks scales, m)
        end
    end
  else Raise AssertionError.

(** ** The layers *)

(** [set_lora_info]: the buffers of a layer, the parts of B one below the other. *)
Definition A_tensor (p : LoRAMemoryPool (F := F)) (name : pystr) (layer_id : nat) : option tensor3 :=
  buffers ← dict_get name (A_buffer p); buffers !! layer_id.
Definition B_tensor (p : LoRAMemoryPool (F := F)) (name : pystr) (layer_id part : nat) : option tensor3 :=
  buffers ← dict_get name (B_buffer p); parts ← buffers !! layer_id; parts !! part.

Definition B_buffer_gate_up (B0 B1 : tensor3) : tensor3 := zip_with app B0 B1.
Definition B_buffer_qkv (Bq Bk Bv : tensor3) : tensor3 := zip_with app Bq (zip_with app Bk Bv).
Definition output_offset (output_dim_q output_dim_kv : nat) : list nat :=
  [0; output_dim_q; output_dim_q + output_dim_kv; output_dim_q + 2 * output_dim_kv].

(** [apply_lora] of the layers with one weight, of the query-key-value and of the gate-up layer.
    [S] tokens, [K] inputs, [R] is [max_lora_dim]. *)
Definition apply_lora (info : LoRABatchInfo F) (empty : nat → nat → matrix) (S K R output_dim : nat)
    (A B : tensor3) (base_output x out : matrix) : Prop :=
  ∃ lora_a_output, sgemm_lora_a_fwd info empty S (1 * R) K x A 1 lora_a_output ∧
    sgemm_lora_b_fwd info S output_dim R lora_a_output B base_output out.

Definition apply_lora_qkv (info : LoRABatchInfo F) (empty : nat → nat → matrix) (S K R output_dim_q output_dim_kv : nat)
    (A Bq Bk Bv : tensor3) (base_output x out : matrix) : Prop :=
  ∃ lora_a_output, sgemm_lora_a_fwd info empty S (3 * R) K x A 3 lora_a_output ∧
    qkv_lora_b_fwd info S (output_dim_q + 2 * output_dim_kv) R lora_a_output (B_buffer_qkv Bq Bk Bv)
      (output_offset output_dim_q output_dim_kv) (output_dim_q `max` output_dim_kv) base_output out.

Definition apply_lora_gate_up (info : LoRABatchInfo F) (empty : nat → nat → matrix) (S K R output_dim : nat)
    (A B0 B1 : tensor3) (base_output x out : matrix) : Prop :=
  ∃ lora_a_output, sgemm_lora_a_fwd info empty S (2 * R) K x A 2 lora_a_output ∧
    gate_up_lora_b_fwd info S output_dim R lora_a_output (B_buffer_gate_up B0 B1) base_output out.
End manager.

(** ** The start *)

Section init.
Context {F : Type} `{Arith F}.
Notation matrix := (list (list F)).
Notation tensor3 := (list matrix).

Definition ROW_PARALLELISM_LINEAR_LORA_NAMES : list pystr := [s2z "o_proj"; s2z "down_proj"].

(** [get_lora_A_shape] and [get_lora_B_shape] but for the number of slots: [get_hidden_dim] is the model's. *)
Definition get_lora_A_shape (get_hidden_dim : pystr → nat * nat) (tp_size max_lora_dim : nat) (module_name : pystr) : nat * nat :=
  let input_dim := (get_hidden_dim module_name).1 in
  let c := get_stacked_multiply module_name in
  let input_dim := if decide (1 < tp_size) then
                     if decide (module_name ∈ ROW_PARALLELISM_LINEAR_LORA_NAMES) then input_dim `div` tp_size else input_dim
                   else input_dim in
  (max_lora_dim * c, input_dim).
Definition get_lora_B_shape (get_hidden_dim : pystr → nat * nat) (tp_size max_lora_dim : nat) (module_name : pystr) : nat * nat :=
  let output_dim := (get_hidden_dim module_name).2 in
  let output_dim := if decide (1 < tp_size) then
                      if decide (module_name ∈ ROW_PARALLELISM_LINEAR_LORA_NAMES) then output_dim else output_dim `div` tp_size
                    else output_dim in
  (output_dim, max_lora_dim).

(** [__init__] with [init_buffers]; [empty_A] and [empty_B] are what [torch.empty] leaves in the
    buffers of each layer. *)
Definition new_LoRAMemoryPool (num_layer max_loras_per_batch tp_size tp_rank : nat) (lora_modules : list (list (pystr * LoRALayer)))
    (lora_weight_names : list pystr * list pystr) (empty_A : pystr → nat → tensor3) (empty_B : pystr → nat → list tensor3) : LoRAMemoryPool :=
  MkPool num_layer max_loras_per_batch tp_size tp_rank lora_modules lora_weight_names
    ((λ name, (name, empty_A name <$> seq 0 num_layer)) <$> lora_weight_names.1)
    ((λ name, (name, empty_B name <$> seq 0 num_layer)) <$> lora_weight_names.2)
    [] (replicate max_loras_per_batch empty_slot).
End init.
