(* ===== verification/LoraBatch.v ===== *)
(** * Preparing a batch

    After [prepare_batch] the tensors for the kernels are in order, and the slot of every request
    belongs to its adapter, with the rank and the scaling of that adapter. *)

From S2P Require Import Prelude PyStr Tiles LoraKernels LoraLaunch LoraPool LoraLoad LoraInv LoraManager.

Open Scope nat_scope.

(** ** Segments *)

Lemma cumsum_length total xs : length (cumsum total xs) = length xs.
Proof. revert total. induction xs as [|x xs IH]; intros total; [done|]. cbn. by rewrite IH. Qed.

Lemma cumsum_lookup total xs i : i < length xs → cumsum total xs !! i = Some (total + sum_list (take (S i) xs)).
Proof.
  revert total i. induction xs as [|x xs IH]; intros total i Hi; [cbn in Hi; lia|]. destruct i as [|i]; cbn [cumsum lookup list_lookup].
  - change (sum_list (take 1 (x :: xs))) with (x + 0). do 2 f_equal. lia.
  - rewrite IH by (cbn in Hi; lia). f_equal. change (sum_list (take (S (S i)) (x :: xs))) with (x + sum_list (take (S i) xs)). lia.
Qed.

Lemma sum_take_S xs i x : xs !! i = Some x → sum_list (take (S i) xs) = sum_list (take i xs) + x.
Proof. intros E. rewrite (take_S_r _ _ _ E), sum_list_with_app. cbn. lia. Qed.

Lemma max_list_ge xs i x : xs !! i = Some x → x ≤ max_list xs.
Proof. intros E. apply max_list_elem_of_le. by eapply list_elem_of_lookup_2. Qed.

Section batch.
Context {F : Type} `{Arith F}.
Notation LoRAAdapter := (LoraPool.LoRAAdapter (F := F)).
Notation LoRAMemoryPool := (LoraPool.LoRAMemoryPool (F := F)).
Notation uid := (option pystr).
Context (set_order : list uid → list uid).
(** A set is walked in some order, without repetitions. *)
Context (Hset : ∀ paths, NoDup (set_order paths) ∧ ∀ u, u ∈ set_order paths ↔ u ∈ paths).
Context (p0 : LoRAMemoryPool) (R : nat) (in_dim out_dim : pystr → nat) (adapters : list (pystr * LoRAAdapter)).
Notation M := (max_loras_per_batch p0).
Context (Hloras : ∀ name ad, dict_get name adapters = Some ad → adapter_ok p0 R in_dim out_dim ad).
Notation pool_ok := (pool_ok p0 R in_dim out_dim adapters).

Definition graph_ok (g : option (nat * LoRABatchInfo F)) : Prop :=
  match g with
  | None => True
  | Some (max_bs, info) =>
      length (seg_lens info) = max_bs ∧ length (seg_indptr info) = max_bs + 1 ∧ take 1 (seg_indptr info) = [0] ∧
      length (weight_indices info) = max_bs ∧ length (lora_ranks info) = M ∧ length (scalings info) = M ∧
      ∀ r, r ∈ lora_ranks info → r ≤ R
  end.

Record manager_ok (m : LoRAManager) : Prop := {
  mo_pool : pool_ok (memory_pool m);
  mo_loras : loras m = adapters;
  mo_graph : graph_ok (cuda_graph_batch_info m)
}.

(** The tokens of each request. *)
Definition batch_lens (fb : ForwardBatch) : list nat := if is_extend fb then extend_seq_lens fb else replicate (batch_size fb) 1.

(** A batch that the scheduler makes: known adapters, not too many. *)
Record batch_ok (fb : ForwardBatch) : Prop := {
  bo_size : length (lora_paths fb) = batch_size fb;
  bo_some : 0 < batch_size fb;
  bo_lens : length (batch_lens fb) = batch_size fb;
  bo_graph : is_cuda_graph fb = true → is_extend fb = false;
  bo_max : length (set_order (lora_paths fb)) ≤ M;
  bo_named : empty_slot ∉ lora_paths fb;
  bo_known name : Some name ∈ lora_paths fb → is_Some (dict_get name adapters)
}.

(** The tensors for the kernels say which adapter each request uses. *)
Record batch_info_ok (p : LoRAMemoryPool) (fb : ForwardBatch) (info : LoRABatchInfo F) : Prop := {
  bi_bs : bs info = batch_size fb;
  bi_info : info_ok info (sum_list (batch_lens fb)) M R;
  bi_len b : b < batch_size fb → Some (tl_load (seg_lens info) b) = batch_lens fb !! b;
  bi_slot b u : lora_paths fb !! b = Some u → dict_get u (uid_to_buffer_id p) = Some (tl_load (weight_indices info) b);
  bi_rank b name ad : lora_paths fb !! b = Some (Some name) → dict_get name adapters = Some ad →
    tl_load (lora_ranks info) (tl_load (weight_indices info) b) = lora_rank ad ∧
    scalings info !! tl_load (weight_indices info) b = Some (scaling ad)
}.

(** ** Filling the tensors *)

Definition filled (p : LoRAMemoryPool) (paths : list uid) (t : list nat * list nat * list F) : Prop :=
  ∀ b u, paths !! b = Some u → ∃ w, dict_get u (uid_to_buffer_id p) = Some w ∧ t.1.1 !! b = Some w ∧
    match u with
    | None => True
    | Some name => ∀ ad, dict_get name adapters = Some ad → t.1.2 !! w = Some (lora_rank ad) ∧ t.2 !! w = Some (scaling ad)
    end.

Lemma fill_ok m paths t : manager_ok m → (∀ u, u ∈ paths → is_Some (dict_get u (uid_to_buffer_id (memory_pool m)))) →
  (∀ name, Some name ∈ paths → is_Some (dict_get name adapters)) →
  length paths ≤ length t.1.1 → length t.1.2 = M → length t.2 = M → (∀ r, r ∈ t.1.2 → r ≤ R) →
  ∃ t', fill_adapters m paths t = Ok t' ∧ filled (memory_pool m) paths t' ∧
    length t'.1.1 = length t.1.1 ∧ length t'.1.2 = M ∧ length t'.2 = M ∧ (∀ r, r ∈ t'.1.2 → r ≤ R).
Proof.
  intros Hm. pose proof (mo_pool m Hm) as Hp. induction paths as [|u paths IH] using rev_ind; intros Hin Hknown Hl1 Hl2 Hl3 Hr.
  { exists t. split; [done|]. split; [|done]. intros b u E. done. }
  rewrite length_app in Hl1. cbn in Hl1.
  destruct IH as (t1 & E1 & Hf & Hl1' & Hl2' & Hl3' & Hr'); [intros; apply Hin; set_solver|intros; apply Hknown; set_solver|lia|done..|].
  destruct (Hin u) as [w Ew]; [set_solver|].
  assert (w < M) as Hw by (apply (po_map _ _ _ _ _ _ Hp) in Ew as [Ew _]; apply lookup_lt_Some in Ew; by rewrite (po_len _ _ _ _ _ _ Hp) in Ew).
  unfold fill_adapters in *. assert (imap pair (paths ++ [u]) = imap pair paths ++ [(length paths, u)]) as ->.
  { rewrite imap_app. cbn. by rewrite Nat.add_0_r. }
  rewrite for_in_app, E1. cbn [mbind result_bind]. rewrite for_in_cons.
  destruct t1 as [[ws ranks] scales]; cbn [fst snd] in *.
  assert (get_buffer_id u (memory_pool m) = Ok w) as -> by (unfold get_buffer_id; by rewrite Ew). cbn [mbind result_bind].
  destruct (lookup_lt_is_Some_2 ws (length paths)) as [w0 Ew0]; [lia|].
  rewrite (update_at_ok _ _ ws w0 w Ew0 eq_refl). cbn [mbind result_bind].
  assert (∀ b v, (paths ++ [u]) !! b = Some v → (b < length paths ∧ paths !! b = Some v) ∨ (b = length paths ∧ v = u)) as Hcase.
  { intros b v. rewrite lookup_app_Some. intros [E|[Hle E]]; [left; split; [by eapply lookup_lt_Some|done]|right].
    apply list_lookup_singleton_Some in E as [? <-]. split; [lia|done]. }
  destruct u as [name|].
  - destruct (Hknown name) as [ad Ead]; [set_solver|]. 
    assert (lookup_key name (loras m) = Ok ad) as -> by (unfold lookup_key; by rewrite (mo_loras m Hm), Ead). cbn [mbind result_bind].
    destruct (lookup_lt_is_Some_2 ranks w) as [r0 Er0]; [lia|]. rewrite (update_at_ok _ _ ranks r0 (lora_rank ad) Er0 eq_refl). cbn [mbind result_bind].
    destruct (lookup_lt_is_Some_2 scales w) as [s0 Es0]; [lia|]. rewrite (update_at_ok _ _ scales s0 (scaling ad) Es0 eq_refl). cbn [mbind result_bind].
    eexists. split; [done|]. cbn [fst snd]. rewrite !length_insert. split; [|split; [done|split; [done|split; [done|]]]].
    + intros b v [[Hb Ev]|[-> ->]]%Hcase.
      * destruct (Hf b v Ev) as (w' & Ew' & Hws & Hv). exists w'. cbn [fst snd] in *. rewrite list_lookup_insert_ne by lia.
        split; [done|]. split; [done|]. destruct v as [name'|]; [|done]. intros ad' Ead'. destruct (Hv ad' Ead') as [Hr1 Hs1].
        rewrite (insert_lookup _ _ _ _ _ Er0), (insert_lookup _ _ _ _ _ Es0). case_decide as Hww; [|done]. subst w'.
        apply (po_map _ _ _ _ _ _ Hp) in Ew as [Ew _], Ew' as [Ew' _]. by simplify_eq.
      * exists w. cbn [fst snd]. split; [done|]. split; [apply list_lookup_insert_eq; lia|]. intros ad' Ead'. simplify_eq.
        split; apply list_lookup_insert_eq; lia.
    + intros r (i & Hi)%list_elem_of_lookup. rewrite (insert_lookup _ _ _ _ _ Er0) in Hi. case_decide.
      * injection Hi as <-. apply (Hloras name ad Ead).
      * apply Hr'. by eapply list_elem_of_lookup_2.
  - eexists. split; [done|]. cbn [fst snd]. rewrite length_insert. split; [|done].
    intros b v [[Hb Ev]|[-> ->]]%Hcase.
    + destruct (Hf b v Ev) as (w' & Ew' & Hws & Hv). exists w'. cbn [fst snd] in *. by rewrite list_lookup_insert_ne by lia.
    + exists w. cbn [fst snd]. split; [done|]. split; [apply list_lookup_insert_eq; lia|done].
Qed.

(** ** The tensors of a batch *)

Lemma tl_load_Some t i x : t !! i = Some x → tl_load t i = x.
Proof. intros E. unfold tl_load. by rewrite E. Qed.

Lemma indptr_lookup lens rest b : b ≤ length lens → tl_load (0 :: cumsum 0 lens ++ rest) b = sum_list (take b lens).
Proof.
  intros Hb. apply tl_load_Some. destruct b as [|b]; [done|].
  change ((0 :: cumsum 0 lens ++ rest) !! S b) with ((cumsum 0 lens ++ rest) !! b).
  rewrite lookup_app_l by (rewrite cumsum_length; lia). by rewrite cumsum_lookup by lia.
Qed.

(** What the two ways to fill the tensors have in common. *)
Lemma filled_ok p fb lens rest1 rest2 ml t : batch_ok fb → pool_ok p → filled p (lora_paths fb) t → length t.1.2 = M →
  (∀ r, r ∈ t.1.2 → r ≤ R) → lens = batch_lens fb → (∀ i x, lens !! i = Some x → x ≤ ml) →
  batch_info_ok p fb (MkBatchInfo (batch_size fb) (lens ++ rest1) (0 :: cumsum 0 lens ++ rest2) ml t.1.1 t.1.2 t.2).
Proof.
  intros Hfb Hp Hf Hl Hr -> Hml. pose proof (bo_lens fb Hfb) as Hn.
  assert (∀ b, b < batch_size fb → Some (tl_load (batch_lens fb ++ rest1) b) = batch_lens fb !! b) as Hlen.
  { intros b Hb. destruct (lookup_lt_is_Some_2 (batch_lens fb) b) as [x Ex]; [lia|]. rewrite Ex. f_equal.
    apply tl_load_Some. rewrite lookup_app_l by lia. exact Ex. }
  assert (∀ b, b < batch_size fb → ∃ u w, lora_paths fb !! b = Some u ∧ tl_load t.1.1 b = w ∧ dict_get u (uid_to_buffer_id p) = Some w ∧ w < M) as Hslot.
  { intros b Hb. destruct (lookup_lt_is_Some_2 (lora_paths fb) b) as [u Eu]; [rewrite (bo_size fb Hfb); lia|].
    destruct (Hf b u Eu) as (w & Ew & Et & _). exists u, w. split; [done|]. split; [by apply tl_load_Some|]. split; [done|].
    apply (po_map _ _ _ _ _ _ Hp) in Ew as [Ew _]. apply lookup_lt_Some in Ew. by rewrite (po_len _ _ _ _ _ _ Hp) in Ew. }
  split; cbn.
  - done.
  - split; cbn -[tl_load].
    + done.
    + intros b Hb. rewrite !indptr_lookup by lia. specialize (Hlen b Hb). rewrite Nat.add_1_r. by rewrite (sum_take_S _ _ _ (eq_sym Hlen)).
    + rewrite indptr_lookup by lia. by rewrite take_ge by lia.
    + intros b Hb. apply (Hml b). by rewrite <- Hlen.
    + intros b Hb. by destruct (Hslot b Hb) as (u & w & _ & -> & _ & Hw).
    + intros b Hb. destruct (Hslot b Hb) as (u & w & _ & -> & _ & Hw). destruct (lookup_lt_is_Some_2 t.1.2 w) as [r Er]; [lia|].
      rewrite (tl_load_Some _ _ _ Er). apply Hr. by eapply list_elem_of_lookup_2.
  - exact Hlen.
  - intros b u Eu. destruct (Hf b u Eu) as (w & Ew & Et & _). by rewrite (tl_load_Some _ _ _ Et).
  - intros b name ad Eu Ead. destruct (Hf b _ Eu) as (w & Ew & Et & Hv). destruct (Hv ad Ead) as [Er Es].
    by rewrite (tl_load_Some _ _ _ Et), (tl_load_Some _ _ _ Er).
Qed.

Lemma prepare_batch_ok fb m : manager_ok m → batch_ok fb →
  ∃ info m', prepare_batch set_order fb m = Ok (info, m') ∧ manager_ok m' ∧ batch_info_ok (memory_pool m') fb info.
Proof.
  intros Hm Hfb. destruct (Hset (lora_paths fb)) as [_ Hin]. pose proof (mo_pool m Hm) as Hp.
  assert (max_loras_per_batch (memory_pool m) = M) as EM by apply (po_config _ _ _ _ _ (po_buffers _ _ _ _ _ _ Hp)).
  destruct (prepare_lora_batch_ok p0 R in_dim out_dim adapters Hloras (set_order (lora_paths fb)) (bo_max fb Hfb)
    ltac:(rewrite Hin; apply (bo_named fb Hfb)) ltac:(intros name Hn%Hin; by apply (bo_known fb Hfb)) (memory_pool m) Hp) as (p & Ep & Hp' & Hu).
  assert (max_loras_per_batch p = M) as EM' by apply (po_config _ _ _ _ _ (po_buffers _ _ _ _ _ _ Hp')).
  unfold prepare_batch. rewrite EM, decide_True by apply (bo_max fb Hfb). rewrite (mo_loras m Hm), Ep. cbn [mbind result_bind].
  set (m1 := MkManager p adapters (cuda_graph_batch_info m)).
  assert (manager_ok m1) as Hm1 by (split; [done|done|apply (mo_graph m Hm)]).
  assert (∀ u, u ∈ lora_paths fb → is_Some (dict_get u (uid_to_buffer_id (memory_pool m1)))) as Hu1 by (intros u Hu2; by apply Hu, Hin).
  pose proof (bo_size fb Hfb) as Hsz.
  destruct (match cuda_graph_batch_info m1 with
            | Some (max_bs, info) => if decide (batch_size fb ≤ max_bs) then if is_cuda_graph fb then Some (max_bs, info) else None else None
            | None => None
            end) as [[max_bs info]|] eqn:Eg.
  - destruct (cuda_graph_batch_info m1) as [[max_bs' info']|] eqn:Ei; [|done].
    destruct (decide (batch_size fb ≤ max_bs')) as [Hle|]; [|done]. destruct (is_cuda_graph fb) eqn:Ec; [|done]. injection Eg as -> ->.
    pose proof (mo_graph m1 Hm1) as Hg. rewrite Ei in Hg. destruct Hg as (H1 & H2 & H3 & H4 & H5 & H6 & H7).
    destruct (fill_ok m1 (lora_paths fb) (weight_indices info, lora_ranks info, scalings info) Hm1 Hu1 (bo_known fb Hfb))
      as ([[ws ranks] scales] & -> & Hf & F1 & F2 & F3 & F4); [cbn; lia|done..|]. cbn [fst snd mbind result_bind] in *.
    assert (batch_lens fb = replicate (batch_size fb) 1) as Eb by (unfold batch_lens; by rewrite (bo_graph fb Hfb Ec)).
    unfold set_prefix. rewrite H3, length_replicate, take_app_length', cumsum_length, length_replicate by (by rewrite length_replicate). cbn [app].
    rewrite <- Eb. eexists _, _. split; [done|]. split.
    + split; [done|done|]. cbn. rewrite Eb, length_app, length_replicate, length_drop, length_app, cumsum_length, length_replicate, !length_drop.
      split; [lia|]. split; [lia|]. split; [done|]. split; [lia|]. done.
    + apply (filled_ok p fb (batch_lens fb) _ _ 1 (ws, ranks, scales)); try done. rewrite Eb. intros i x [-> _]%lookup_replicate. lia.
  - destruct (fill_ok m1 (lora_paths fb) (replicate (batch_size fb) 0, replicate M 0, replicate M fzero) Hm1 Hu1 (bo_known fb Hfb))
      as ([[ws ranks] scales] & Ef & Hf & F1 & F2 & F3 & F4); [cbn; rewrite length_replicate; lia|apply length_replicate..| |].
    { intros r [-> _]%elem_of_replicate. lia. }
    change (if is_extend fb then extend_seq_lens fb else replicate (batch_size fb) 1) with (batch_lens fb).
    destruct (batch_lens fb) as [|x lens] eqn:El; [pose proof (bo_lens fb Hfb); pose proof (bo_some fb Hfb); rewrite El in *; cbn in *; lia|].
    rewrite <- El. rewrite EM', Ef. cbn [mbind result_bind]. eexists _, _. split; [done|]. split; [done|].
    rewrite <- (app_nil_r (batch_lens fb)) at 1. rewrite <- (app_nil_r (cumsum 0 (batch_lens fb))).
    apply (filled_ok p fb (batch_lens fb) [] [] _ (ws, ranks, scales)); try done. apply max_list_ge.
Qed.
End batch.
