(* ===== verification/LoraThms.v ===== *)
(** * Every request gets its own adapter

    Batch after batch, the layers add to the output of the base model, for the tokens of each
    request, what the adapter of that request computes from them. *)

From S2P Require Import Prelude PyStr Grid Tiles LoraKernels LoraLaunch LoraSgemm LoraApply LoraPool LoraLoad LoraInv LoraManager LoraBatch.

Open Scope nat_scope.

(** ** The launches are deterministic *)

Section unique.
Context {F : Type} `{Arith F}.

Lemma launch_output_unique (ps : list (prog (addr := addr) (Val := F) unit)) m d0 d1 out out' :
  (∃ m', launches ps m m' ∧ output_is m' d0 d1 out) → (∃ m', launches ps m m' ∧ output_is m' d0 d1 out') → out = out'.
Proof.
  intros (m1 & L1 & O1) (m2 & L2 & O2). rewrite (launches_unique _ _ _ _ L1 L2) in O1. by eapply output_unique.
Qed.
End unique.

(** ** The layers with an adapter *)

Section layers.
Context {F : Type} `{ArithLaws F}.
Notation matrix := (list (list F)).
Notation LoRAAdapter := (LoraPool.LoRAAdapter (F := F)).
Notation LoRAMemoryPool := (LoraPool.LoRAMemoryPool (F := F)).
Notation uid := (option pystr).
Context (p0 : LoRAMemoryPool) (R : nat) (in_dim out_dim : pystr → nat) (adapters : list (pystr * LoRAAdapter)).
Notation L := (num_layer p0).
Notation M := (max_loras_per_batch p0).
Notation names := (lora_weight_names p0).
Context (Hloras : ∀ name ad, dict_get name adapters = Some ad → adapter_ok p0 R in_dim out_dim ad).
Notation pool_ok := (pool_ok p0 R in_dim out_dim adapters).

(** The three kinds of layers. *)
Inductive LayerKind := Linear (name : pystr) | QKV | GateUp.

Definition A_name (k : LayerKind) : pystr := match k with Linear name => name | QKV => qkv_proj | GateUp => gate_up_proj end.

(** The parts of the output: the name and the part of the weight B, the first column and the number of columns. *)
Definition parts (k : LayerKind) : list (pystr * nat * nat * nat) :=
  match k with
  | Linear name => [(name, 0, 0, out_dim name)]
  | QKV => [(q_proj, 0, 0, out_dim q_proj); (kv_proj, 0, out_dim q_proj, out_dim kv_proj);
            (kv_proj, 1, out_dim q_proj + out_dim kv_proj, out_dim kv_proj)]
  | GateUp => [(gate_up_proj, 0, 0, out_dim gate_up_proj); (gate_up_proj, 1, out_dim gate_up_proj, out_dim gate_up_proj)]
  end.
Definition width (k : LayerKind) : nat :=
  match k with Linear name => out_dim name | QKV => out_dim q_proj + 2 * out_dim kv_proj | GateUp => 2 * out_dim gate_up_proj end.

Definition kind_ok (k : LayerKind) : Prop :=
  match k with
  | Linear name => name ∈ names.1 ∧ name ∈ names.2 ∧ get_stacked_multiply name = 1 ∧ 0 < out_dim name ∧ out_dim name mod 256 = 0
  | QKV => qkv_proj ∈ names.1 ∧ q_proj ∈ names.2 ∧ kv_proj ∈ names.2 ∧ 0 < out_dim q_proj
  | GateUp => gate_up_proj ∈ names.1 ∧ gate_up_proj ∈ names.2 ∧ 0 < out_dim gate_up_proj
  end.

(** [set_lora_info] and [apply_lora] of a layer. *)
Definition apply_layer (p : LoRAMemoryPool) (l : nat) (k : LayerKind) (info : LoRABatchInfo F) (empty : nat → nat → matrix) (S : nat)
    (base_output x out : matrix) : Prop :=
  match k with
  | Linear name => ∃ A B, A_tensor p name l = Some A ∧ B_tensor p name l 0 = Some B ∧
      apply_lora info empty S (in_dim name) R (out_dim name) A B base_output x out
  | QKV => ∃ A Bq Bk Bv, A_tensor p qkv_proj l = Some A ∧ B_tensor p q_proj l 0 = Some Bq ∧
      B_tensor p kv_proj l 0 = Some Bk ∧ B_tensor p kv_proj l 1 = Some Bv ∧
      apply_lora_qkv info empty S (in_dim qkv_proj) R (out_dim q_proj) (out_dim kv_proj) A Bq Bk Bv base_output x out
  | GateUp => ∃ A B0 B1, A_tensor p gate_up_proj l = Some A ∧ B_tensor p gate_up_proj l 0 = Some B0 ∧ B_tensor p gate_up_proj l 1 = Some B1 ∧
      apply_lora_gate_up info empty S (in_dim gate_up_proj) R (out_dim gate_up_proj) A B0 B1 base_output x out
  end.

(** ** What an adapter computes *)

(** The weights of an adapter in layer [l]. *)
Definition adapter_A (ad : LoRAAdapter) (l : nat) (name : pystr) : matrix :=
  match temp_buffers p0 ad l with
  | Ok (tA, _) => match dict_get name tA with Some w => default [] (weight_part w 0) | None => [] end
  | Raise _ => []
  end.
Definition adapter_B (ad : LoRAAdapter) (l : nat) (name : pystr) (part : nat) : matrix :=
  match temp_buffers p0 ad l with
  | Ok (_, tB) => match dict_get name tB with Some w => default [] (weight_part w part) | None => [] end
  | Raise _ => []
  end.

(** Column [n] of part [id] of the output for a token [x]: [scaling * B (A x)]. *)
Definition adapter_output (u : uid) (l : nat) (k : LayerKind) (id : nat) (x : nat → F) (n : nat) : F :=
  match u ≫= λ name, dict_get name adapters, parts k !! id with
  | Some ad, Some (nameB, part, _, _) =>
      let A := adapter_A ad l (A_name k) in let B := adapter_B ad l nameB part in
      fmul (fsum (lora_rank ad) (λ j, fmul (fsum (in_dim (A_name k)) (λ i, fmul (x i) (val2 A (id * lora_rank ad + j) i))) (val2 B n j))) (scaling ad)
  | _, _ => fzero
  end.

(** ** The tensors of a layer *)

Lemma A_tensor_ok p name l : pool_ok p → name ∈ names.1 → l < L → 0 < M →
  ∃ A, A_tensor p name l = Some A ∧ shape3 M (get_stacked_multiply name * R) (in_dim name) A ∧ ∀ id, A !! id = matA (A_buffer p) name l id.
Proof.
  intros Hp Hn Hl HM. pose proof (po_A _ _ _ _ _ (po_buffers _ _ _ _ _ _ Hp)) as HA.
  destruct (proj2 (ba_dom _ _ _ _ _ _ HA name l 0)) as [m Em]; [done|]. unfold A_tensor. unfold matA in Em.
  destruct (dict_get name (A_buffer p)) as [buf|] eqn:Eb; [|done]. cbn in *. destruct (buf !! l) as [A|] eqn:El; [|done]. cbn in Em.
  assert (∀ id, A !! id = matA (A_buffer p) name l id) as Hid by (intros id; unfold matA; by rewrite Eb; cbn; rewrite El).
  exists A. split; [done|]. split; [|done]. split.
  - apply Nat.le_antisymm.
    + apply Nat.nlt_ge. intros Hlt. destruct (lookup_lt_is_Some_2 A M Hlt) as [m' Em']. rewrite Hid in Em'.
      destruct (proj1 (ba_dom _ _ _ _ _ _ HA name l M)) as (_ & _ & ?); [by eexists|lia].
    + destruct M as [|n] eqn:EM; [lia|]. assert (n < length A); [|lia]. apply lookup_lt_is_Some. rewrite Hid. apply (ba_dom _ _ _ _ _ _ HA). lia || (split; [done|split; [done|lia]]).
  - intros mat (id & Hmat)%list_elem_of_lookup. rewrite Hid in Hmat. rewrite Nat.mul_comm. by apply (ba_shape _ _ _ _ _ _ HA name l id).
Qed.

Lemma B_tensor_ok p name l part : pool_ok p → name ∈ names.2 → l < L → 0 < M → part < get_stacked_multiply name →
  ∃ B, B_tensor p name l part = Some B ∧ shape3 M (out_dim name) R B ∧ ∀ id, B !! id = matB (B_buffer p) name l part id.
Proof.
  intros Hp Hn Hl HM Hpart. pose proof (po_B _ _ _ _ _ (po_buffers _ _ _ _ _ _ Hp)) as HB.
  destruct (proj2 (bb_dom _ _ _ _ _ _ HB name l part 0)) as [m Em]; [done|]. unfold B_tensor. unfold matB in Em.
  destruct (dict_get name (B_buffer p)) as [buf|] eqn:Eb; [|done]. cbn in *. destruct (buf !! l) as [ps|] eqn:El; [|done]. cbn in *.
  destruct (ps !! part) as [B|] eqn:Ep; [|done]. cbn in Em.
  assert (∀ id, B !! id = matB (B_buffer p) name l part id) as Hid by (intros id; unfold matB; by rewrite Eb; cbn; rewrite El; cbn; rewrite Ep).
  exists B. split; [done|]. split; [|done]. split.
  - apply Nat.le_antisymm.
    + apply Nat.nlt_ge. intros Hlt. destruct (lookup_lt_is_Some_2 B M Hlt) as [m' Em']. rewrite Hid in Em'.
      destruct (proj1 (bb_dom _ _ _ _ _ _ HB name l part M)) as (_ & _ & _ & ?); [by eexists|lia].
    + destruct M as [|n] eqn:EM; [lia|]. assert (n < length B); [|lia]. apply lookup_lt_is_Some. rewrite Hid. apply (bb_dom _ _ _ _ _ _ HB). split; [done|split; [done|split; [done|lia]]].
  - intros mat (id & Hmat)%list_elem_of_lookup. rewrite Hid in Hmat. by apply (bb_shape _ _ _ _ _ _ HB name l part id).
Qed.

(** What the slot of an adapter holds. *)
Lemma slot_A p name ad l key w A n i : loaded p0 adapters p (Some name) w → dict_get name adapters = Some ad → l < L → key ∈ names.1 →
  (∀ id, A !! id = matA (A_buffer p) key l id) → n < lora_rank ad * get_stacked_multiply key → val3 A w n i = val2 (adapter_A ad l key) n i.
Proof.
  intros (ad' & E1 & Hl) E2 Hll Hk HA Hn. rewrite E1 in E2. injection E2 as ->. destruct (Hl l Hll) as (tA & tB & Et & HhA & _).
  destruct (Hloras name ad E1) as [_ Hfit]. destruct (Hfit l Hll) as (tA' & tB' & Et' & HfA & _ & Hkeys & _).
  rewrite Et in Et'. injection Et' as <- <-. destruct (list_elem_of_fmap_1 _ _ _ (Hkeys key Hk)) as ([key' W] & -> & Hin). cbn [fst] in *.
  destruct (HhA _ Hin) as (m & Em & Ew). cbn [fst snd] in *. unfold adapter_A. rewrite Et.
  destruct (temp_NoDup p0 ad l tA tB Et) as [NA _]. rewrite (dict_elem_get tA key' W NA Hin), Ew. cbn [from_option id].
  unfold val3, val2, at3. rewrite HA, Em. cbn [mbind option_bind]. unfold at2. by rewrite lookup_take_lt.
Qed.

Lemma slot_B p name ad l key part w B n j : loaded p0 adapters p (Some name) w → dict_get name adapters = Some ad → l < L → key ∈ names.2 →
  part < get_stacked_multiply key → (∀ id, B !! id = matB (B_buffer p) key l part id) → j < lora_rank ad →
  val3 B w n j = val2 (adapter_B ad l key part) n j.
Proof.
  intros (ad' & E1 & Hl) E2 Hll Hk Hpart HB Hj. rewrite E1 in E2. injection E2 as ->. destruct (Hl l Hll) as (tA & tB & Et & _ & HhB).
  destruct (Hloras name ad E1) as [_ Hfit]. destruct (Hfit l Hll) as (tA' & tB' & Et' & _ & HfB & _ & Hkeys).
  rewrite Et in Et'. injection Et' as <- <-. destruct (list_elem_of_fmap_1 _ _ _ (Hkeys key Hk)) as ([key' W] & -> & Hin). cbn [fst] in *.
  destruct (HhB _ Hin part Hpart) as (m & Em & Ew). cbn [fst snd] in *. unfold adapter_B. rewrite Et.
  destruct (temp_NoDup p0 ad l tA tB Et) as [_ NB]. rewrite (dict_elem_get tB key' W NB Hin), Ew. cbn [from_option id].
  unfold val3, val2, at3. rewrite HB, Em. cbn [mbind option_bind]. unfold at2. rewrite list_lookup_fmap.
  destruct (m !! n) as [row|]; [|done]. cbn. by rewrite lookup_take_lt.
Qed.

Lemma slot_none p l key w A n i : loaded p0 adapters p None w → (∀ id, A !! id = matA (A_buffer p) key l id) → val3 A w n i = fzero.
Proof.
  intros Hz HA. unfold val3, at3. rewrite HA. destruct (matA (A_buffer p) key l w) as [m|] eqn:E; [|done]. cbn [mbind option_bind].
  unfold at2. destruct (m !! n) as [row|] eqn:Er; [|done]. cbn [mbind option_bind]. destruct (row !! i) as [v|] eqn:Ev; [|done]. cbn.
  apply (Hz key l m E row); by eapply list_elem_of_lookup_2.
Qed.

(** ** One part of the output *)

Context (set_order : list uid → list uid).
Context (Hset : ∀ paths, NoDup (set_order paths) ∧ ∀ u, u ∈ set_order paths ↔ u ∈ paths).

Notation start info b := (tl_load (seg_indptr info) b).
Notation w_of info b := (tl_load (weight_indices info) b).
Notation rank info b := (tl_load (lora_ranks info) (w_of info b)).

Section request.
Context (p : LoRAMemoryPool) (fb : ForwardBatch) (info : LoRABatchInfo F) (Hp : pool_ok p) (Hfb : batch_ok set_order p0 adapters fb)
  (Hinfo : batch_info_ok p0 R adapters p fb info).
Context (b : nat) (u : uid) (Hu : lora_paths fb !! b = Some u) (l : nat) (Hl : l < L).

Lemma slot_loaded : loaded p0 adapters p u (w_of info b).
Proof. apply (po_loaded _ _ _ _ _ _ Hp), (bi_slot _ _ _ _ _ _ Hinfo), Hu. Qed.

(** What the kernels add is what the adapter computes. *)
Lemma delta_eq k id nameB part off sz A B W (x_row : nat → F) aout row n :
  parts k !! id = Some (nameB, part, off, sz) → A_name k ∈ names.1 → nameB ∈ names.2 → part < get_stacked_multiply nameB →
  id < get_stacked_multiply (A_name k) →
  (∀ s, A !! s = matA (A_buffer p) (A_name k) l s) → (∀ s, B !! s = matB (B_buffer p) nameB l part s) →
  (∀ j, j < rank info b → val2 aout row (id * rank info b + j) =
     fsum (in_dim (A_name k)) (λ i, fmul (x_row i) (val3 A (w_of info b) (id * rank info b + j) i))) →
  (∀ j, j < rank info b → val3 W (w_of info b) (off + n) j = val3 B (w_of info b) n j) →
  lora_delta info (λ id r, id * r) (val2 aout) (val3 W) id b row (off + n) = adapter_output u l k id x_row n.
Proof.
  intros Epart HnA HnB Hpart Hid HA HB Ha HW. pose proof slot_loaded as Hld. unfold lora_delta, adapter_output.
  destruct u as [name|]; cbn [mbind option_bind].
  - destruct (bo_known _ _ _ _ Hfb name) as [ad Ead]; [by eapply list_elem_of_lookup_2|].
    destruct (bi_rank _ _ _ _ _ _ Hinfo b name ad Hu Ead) as [Er Es]. rewrite Ead, Epart, Es, Er in *. cbn [from_option].
    f_equal. apply fsum_ext. intros j Hj. rewrite Ha, HW by done. f_equal.
    + apply fsum_ext. intros i Hi. f_equal. eapply slot_A; [done|done|done|done|done|nia].
    + by eapply slot_B.
  - rewrite fsum_zero; [apply fmul_zero_l|]. intros j Hj. rewrite Ha by done. rewrite fsum_zero; [apply fmul_zero_l|].
    intros i Hi. rewrite (slot_none p l (A_name k)) by done. apply fmul_zero_r.
Qed.
End request.

(** The parts of B one below the other. *)
Lemma val3_app (B1 B2 : list matrix) num d1 d2 w n j : shape3 num d1 R B1 → shape3 num d2 R B2 → w < num →
  val3 (zip_with app B1 B2) w n j = if decide (n < d1) then val3 B1 w n j else val3 B2 w (n - d1) j.
Proof.
  intros [H1 S1] [H2 S2] Hw. destruct (lookup_lt_is_Some_2 B1 w) as [m1 E1]; [lia|]. destruct (lookup_lt_is_Some_2 B2 w) as [m2 E2]; [lia|].
  assert (length m1 = d1) by (apply (S1 m1); by eapply list_elem_of_lookup_2).
  unfold val3, at3. rewrite lookup_zip_with, E1, E2. cbn [mbind option_bind]. unfold at2. case_decide.
  - by rewrite lookup_app_l by lia.
  - rewrite lookup_app_r by lia. by subst d1.
Qed.

Lemma shape3_app (B1 B2 : list matrix) num d1 d2 : shape3 num d1 R B1 → shape3 num d2 R B2 → shape3 num (d1 + d2) R (zip_with app B1 B2).
Proof.
  intros [H1 S1] [H2 S2]. split; [rewrite length_zip_with; lia|].
  intros m (i & m1 & m2 & -> & E1%list_elem_of_lookup_2 & E2%list_elem_of_lookup_2)%elem_of_lookup_zip_with_1.
  destruct (S1 m1 E1) as [L1 R1], (S2 m2 E2) as [L2 R2]. split; [rewrite length_app; lia|].
  intros row [Hr|Hr]%elem_of_app; auto.
Qed.

(** ** A layer *)

Section layer.
Context (p : LoRAMemoryPool) (fb : ForwardBatch) (info : LoRABatchInfo F) (Hp : pool_ok p) (Hfb : batch_ok set_order p0 adapters fb)
  (Hinfo : batch_info_ok p0 R adapters p fb info) (l : nat) (Hl : l < L).
Context (empty : nat → nat → matrix) (Hempty : ∀ d0 d1, shape2 d0 d1 (empty d0 d1)).
Notation S := (sum_list (batch_lens fb)).

(** A layer has its output, and only this one. *)
Definition layer_output (k : LayerKind) (base x out : matrix) : Prop :=
  (∀ out', apply_layer p l k info empty S base x out' ↔ out' = out) ∧
  ∀ b u s id nameB part off sz n, lora_paths fb !! b = Some u → s < tl_load (seg_lens info) b →
    parts k !! id = Some (nameB, part, off, sz) → n < sz →
    val2 out (start info b + s) (off + n) =
      fadd (adapter_output u l k id (val2 x (start info b + s)) n) (val2 base (start info b + s) (off + n)).

Lemma slots_pos : 0 < M.
Proof.
  pose proof (bo_some _ _ _ _ Hfb) as Hs. pose proof (bi_bs _ _ _ _ _ _ Hinfo) as Hb.
  pose proof (io_weight _ _ _ _ (bi_info _ _ _ _ _ _ Hinfo) 0 ltac:(lia)). lia.
Qed.

Lemma request_in b u : lora_paths fb !! b = Some u → b < bs info.
Proof. intros E%lookup_lt_Some. rewrite (bi_bs _ _ _ _ _ _ Hinfo). by rewrite (bo_size _ _ _ _ Hfb) in E. Qed.

Lemma linear_ok name base x : kind_ok (Linear name) → shape2 S (in_dim name) x → shape2 S (out_dim name) base → ∃ out, layer_output (Linear name) base x out.
Proof.
  intros (HnA & HnB & Hc & Hpos & Hmod) Hx Hb. pose proof slots_pos as HM. pose proof (bi_info _ _ _ _ _ _ Hinfo) as Hi.
  destruct (A_tensor_ok p name l Hp HnA Hl HM) as (A & EA & SA & HA). rewrite Hc in SA.
  destruct (B_tensor_ok p name l 0 Hp HnB Hl HM) as (B & EB & SB & HB); [lia|].
  destruct (sgemm_lora_a_ok info S M R Hi empty 1 (in_dim name) x A Hx SA (Hempty _ _)) as (aout & La & Sa & Va).
  rewrite Nat.mul_1_l in Sa. destruct (sgemm_lora_b_ok info S M R Hi (out_dim name) aout B base Hpos Hmod Sa SB Hb) as (out & Lb & Vb).
  exists out. split.
  - intros out'. split; [|intros ->; exists A, B; split; [done|]; split; [done|]; by exists aout].
    intros (A' & B' & EA' & EB' & aout' & La' & Lb'). simplify_eq.
    pose proof (launch_output_unique _ _ _ _ _ _ La La') as ->. by rewrite (launch_output_unique _ _ _ _ _ _ Lb Lb').
  - intros b u s id nameB part off sz n Hu Hs Epart Hn. destruct id as [|id]; [|done]. injection Epart as <- <- <- <-.
    rewrite !Nat.add_0_l, (Vb b s n (request_in b u Hu) Hs Hn). f_equal.
    apply (delta_eq p fb info Hp Hfb Hinfo b u Hu l Hl (Linear name) 0 name 0 0 (out_dim name) A B B (val2 x (start info b + s)) aout); try done; [apply c_pos..|].
    intros j Hj. apply Va; [by eapply request_in|done|lia].
Qed.

Lemma qkv_ok base x : kind_ok QKV → shape2 S (in_dim qkv_proj) x → shape2 S (width QKV) base → ∃ out, layer_output QKV base x out.
Proof.
  intros (HnA & Hnq & Hnkv & Hpos) Hx Hb. pose proof slots_pos as HM. pose proof (bi_info _ _ _ _ _ _ Hinfo) as Hi.
  destruct (A_tensor_ok p qkv_proj l Hp HnA Hl HM) as (A & EA & SA & HA). change (get_stacked_multiply qkv_proj) with 3 in SA.
  destruct (B_tensor_ok p q_proj l 0 Hp Hnq Hl HM (c_pos _)) as (Bq & EBq & SBq & HBq).
  destruct (B_tensor_ok p kv_proj l 0 Hp Hnkv Hl HM (c_pos _)) as (Bk & EBk & SBk & HBk).
  destruct (B_tensor_ok p kv_proj l 1 Hp Hnkv Hl HM) as (Bv & EBv & SBv & HBv); [change (get_stacked_multiply kv_proj) with 2; lia|].
  destruct (sgemm_lora_a_ok info S M R Hi empty 3 (in_dim qkv_proj) x A Hx SA (Hempty _ _)) as (aout & La & Sa & Va).
  pose proof (shape3_app Bk Bv _ _ _ SBk SBv) as Skv. pose proof (shape3_app Bq _ _ _ _ SBq Skv) as SB.
  replace (out_dim q_proj + (out_dim kv_proj + out_dim kv_proj)) with (out_dim q_proj + 2 * out_dim kv_proj) in SB by lia.
  destruct (qkv_lora_b_ok info S M R Hi (out_dim q_proj) (out_dim kv_proj) aout _ base Hpos Sa SB Hb) as (out & Lb & Vb).
  exists out. split.
  - intros out'. split; [|intros ->; exists A, Bq, Bk, Bv; repeat (split; [done|]); by exists aout].
    intros (A' & Bq' & Bk' & Bv' & EA' & EBq' & EBk' & EBv' & aout' & La' & Lb'). simplify_eq.
    pose proof (launch_output_unique _ _ _ _ _ _ La La') as ->. by rewrite (launch_output_unique _ _ _ _ _ _ Lb Lb').
  - intros b u s id nameB part off sz n Hu Hs Epart Hn. pose proof (request_in b u Hu) as Hbb.
    pose proof (io_weight _ _ _ _ Hi b Hbb) as Hw.
    assert (∀ j, id < 3 → j < rank info b → val2 aout (start info b + s) (id * rank info b + j) =
      fsum (in_dim qkv_proj) (λ i, fmul (val2 x (start info b + s) i) (val3 A (w_of info b) (id * rank info b + j) i))) as Ha.
    { intros j Hid Hj. apply Va; [done|done|nia]. }
    assert (∀ n j, val3 (zip_with app Bq (zip_with app Bk Bv)) (w_of info b) n j =
      if decide (n < out_dim q_proj) then val3 Bq (w_of info b) n j
      else if decide (n - out_dim q_proj < out_dim kv_proj) then val3 Bk (w_of info b) (n - out_dim q_proj) j
      else val3 Bv (w_of info b) (n - out_dim q_proj - out_dim kv_proj) j) as HB.
    { intros n' j. rewrite (val3_app Bq _ M (out_dim q_proj) (out_dim kv_proj + out_dim kv_proj)) by done.
      case_decide; [done|]. by rewrite (val3_app Bk Bv M (out_dim kv_proj) (out_dim kv_proj)). }
    assert (∀ B, id < 3 → nameB ∈ names.2 → part < get_stacked_multiply nameB → (∀ s, B !! s = matB (B_buffer p) nameB l part s) →
      tl_load (output_offset (out_dim q_proj) (out_dim kv_proj)) id = off → tl_load (output_offset (out_dim q_proj) (out_dim kv_proj)) (id + 1) = off + sz →
      (∀ j, val3 (zip_with app Bq (zip_with app Bk Bv)) (w_of info b) (off + n) j = val3 B (w_of info b) n j) →
      val2 out (start info b + s) (off + n) = fadd (adapter_output u l QKV id (val2 x (start info b + s)) n) (val2 base (start info b + s) (off + n))) as Hpart.
    { intros B Hid HnB Hp2 HBm Eoff Esz Hval. unfold output_offset in *. specialize (Vb b id s n Hbb Hid Hs). rewrite Esz, Eoff in Vb. rewrite Vb by lia. f_equal.
      apply (delta_eq p fb info Hp Hfb Hinfo b u Hu l Hl QKV id nameB part off sz A B); try done; intros; by apply Ha. }
    destruct id as [|[|[|id]]]; [..|done]; injection Epart as <- <- <- <-.
    + apply (Hpart Bq); try done; [lia|apply c_pos|]. intros j. by rewrite HB, decide_True by lia.
    + apply (Hpart Bk); try done; [lia|apply c_pos|]. intros j. rewrite HB, decide_False by lia.
      replace (out_dim q_proj + n - out_dim q_proj) with n by lia. by rewrite decide_True.
    + apply (Hpart Bv); try done; [lia|change (get_stacked_multiply kv_proj) with 2; lia|cbn; lia|]. intros j. rewrite HB, decide_False, decide_False by lia.
      by replace (out_dim q_proj + out_dim kv_proj + n - out_dim q_proj - out_dim kv_proj) with n by lia.
Qed.

Lemma gate_up_ok base x : kind_ok GateUp → shape2 S (in_dim gate_up_proj) x → shape2 S (width GateUp) base → ∃ out, layer_output GateUp base x out.
Proof.
  intros (HnA & HnB & Hpos) Hx Hb. pose proof slots_pos as HM. pose proof (bi_info _ _ _ _ _ _ Hinfo) as Hi.
  assert (get_stacked_multiply gate_up_proj = 2) as Hc by done.
  destruct (A_tensor_ok p gate_up_proj l Hp HnA Hl HM) as (A & EA & SA & HA). rewrite Hc in SA.
  destruct (B_tensor_ok p gate_up_proj l 0 Hp HnB Hl HM (c_pos _)) as (B0 & EB0 & SB0 & HB0).
  destruct (B_tensor_ok p gate_up_proj l 1 Hp HnB Hl HM) as (B1 & EB1 & SB1 & HB1); [lia|].
  destruct (sgemm_lora_a_ok info S M R Hi empty 2 (in_dim gate_up_proj) x A Hx SA (Hempty _ _)) as (aout & La & Sa & Va).
  pose proof (shape3_app B0 B1 _ _ _ SB0 SB1) as SB. replace (out_dim gate_up_proj + out_dim gate_up_proj) with (2 * out_dim gate_up_proj) in SB by lia.
  destruct (gate_up_lora_b_ok info S M R Hi (out_dim gate_up_proj) aout _ base Hpos Sa SB Hb) as (out & Lb & Vb).
  exists out. split.
  - intros out'. split; [|intros ->; exists A, B0, B1; repeat (split; [done|]); by exists aout].
    intros (A' & B0' & B1' & EA' & EB0' & EB1' & aout' & La' & Lb'). simplify_eq.
    pose proof (launch_output_unique _ _ _ _ _ _ La La') as ->. by rewrite (launch_output_unique _ _ _ _ _ _ Lb Lb').
  - intros b u s id nameB part off sz n Hu Hs Epart Hn. pose proof (request_in b u Hu) as Hbb.
    pose proof (io_weight _ _ _ _ Hi b Hbb) as Hw.
    assert (id < 2 ∧ nameB = gate_up_proj ∧ part = id ∧ off = id * out_dim gate_up_proj ∧ sz = out_dim gate_up_proj) as (Hid & -> & -> & -> & ->).
    { destruct id as [|[|id]]; [..|done]; injection Epart as <- <- <- <-; (split; [lia|]); (split; [done|]); (split; [done|]); lia. }
    rewrite (Vb b id s n Hbb Hid Hs Hn). f_equal.
    apply (delta_eq p fb info Hp Hfb Hinfo b u Hu l Hl GateUp id gate_up_proj id _ _ A (if decide (id = 0) then B0 else B1) _ _ _ _ _ Epart); try done.
    + intros w. case_decide as E0; [by rewrite E0|]. by replace id with 1 by lia.
    + intros j Hj. apply Va; [done|done|nia].
    + intros j Hj. rewrite (val3_app B0 B1 M (out_dim gate_up_proj) (out_dim gate_up_proj)) by done. destruct id as [|[|id]]; [| |lia].
      * rewrite decide_True by lia. by rewrite decide_True.
      * rewrite decide_False by lia. rewrite decide_False by done. f_equal. lia.
Qed.

Lemma lora_layer_ok k base x : kind_ok k → shape2 S (in_dim (A_name k)) x → shape2 S (width k) base → ∃ out, layer_output k base x out.
Proof. destruct k; [apply linear_ok|apply qkv_ok|apply gate_up_ok]. Qed.
End layer.
End layers.

(** ** From the start of the server *)

Lemma dict_get_names {A} (f : pystr → A) (ks : list pystr) k :
  dict_get k ((λ name, (name, f name)) <$> ks) = if decide (k ∈ ks) then Some (f k) else None.
Proof.
  induction ks as [|k' ks IH]; [done|]. cbn [fmap list_fmap dict_get]. destruct (decide (k = k')) as [->|Hk].
  - by rewrite decide_True by left.
  - change (list_fmap _ _ _ ks) with ((λ name, (name, f name)) <$> ks). rewrite IH. apply decide_ext. rewrite elem_of_cons. tauto.
Qed.

Section start.
Context {F : Type} `{ArithLaws F}.
Notation matrix := (list (list F)).
Notation LoRAAdapter := (LoraPool.LoRAAdapter (F := F)).
Notation uid := (option pystr).
Context (num_layer max_loras tp_size tp_rank max_lora_dim : nat) (lora_modules : list (list (pystr * LoRALayer))) (names : list pystr * list pystr).
Context (get_hidden_dim : pystr → nat * nat) (empty_A : pystr → nat → list matrix) (empty_B : pystr → nat → list (list matrix)).

(** The dimensions of the buffers. *)
Definition in_dim (name : pystr) : nat := (get_lora_A_shape get_hidden_dim tp_size max_lora_dim name).2.
Definition out_dim (name : pystr) : nat := (get_lora_B_shape get_hidden_dim tp_size max_lora_dim name).1.

(** [torch.empty] gives tensors of the shapes that [init_buffers] asks for. *)
Record empty_ok : Prop := {
  eo_A name l : shape3 max_loras (get_lora_A_shape get_hidden_dim tp_size max_lora_dim name).1 (in_dim name) (empty_A name l);
  eo_B_parts name l : length (empty_B name l) = get_stacked_multiply name;
  eo_B name l t : t ∈ empty_B name l → shape3 max_loras (out_dim name) (get_lora_B_shape get_hidden_dim tp_size max_lora_dim name).2 t
}.

Definition initial_pool := new_LoRAMemoryPool num_layer max_loras tp_size tp_rank lora_modules names empty_A empty_B.

Lemma init_A_ok : empty_ok → bufA_ok num_layer max_loras max_lora_dim in_dim names (A_buffer initial_pool).
Proof.
  intros He. assert (∀ name l id, matA (A_buffer initial_pool) name l id =
    if decide (name ∈ names.1 ∧ l < num_layer) then empty_A name l !! id else None) as Hm.
  { intros name l id. unfold matA, initial_pool, new_LoRAMemoryPool. cbn [A_buffer]. rewrite dict_get_names.
    destruct (decide (name ∈ names.1)) as [Hn|Hn]; cbn [mbind option_bind]; [|by rewrite decide_False by tauto].
    rewrite list_lookup_fmap. destruct (decide (l < num_layer)) as [Hl|Hl].
    - rewrite lookup_seq_lt by done. cbn. by rewrite decide_True.
    - rewrite lookup_seq_ge by lia. cbn. by rewrite decide_False by tauto. }
  split.
  - intros name (y & -> & (k & -> & Hk)%list_elem_of_fmap)%list_elem_of_fmap. exact Hk.
  - intros name l id. rewrite Hm. destruct (eo_A He name l) as [Hl _]. case_decide as Hd.
    + rewrite lookup_lt_is_Some, Hl. tauto.
    + split; [by intros []|tauto].
  - intros name l id m. rewrite Hm. case_decide; [|done]. intros Em. apply (eo_A He name l). by eapply list_elem_of_lookup_2.
Qed.

Lemma init_B_ok : empty_ok → bufB_ok num_layer max_loras max_lora_dim out_dim names (B_buffer initial_pool).
Proof.
  intros He. assert (∀ name l part id, matB (B_buffer initial_pool) name l part id =
    if decide (name ∈ names.2 ∧ l < num_layer) then matP (empty_B name l) part id else None) as Hm.
  { intros name l part id. unfold matB, initial_pool, new_LoRAMemoryPool. cbn [B_buffer]. rewrite dict_get_names.
    destruct (decide (name ∈ names.2)) as [Hn|Hn]; cbn [mbind option_bind]; [|by rewrite decide_False by tauto].
    rewrite list_lookup_fmap. destruct (decide (l < num_layer)) as [Hl|Hl].
    - rewrite lookup_seq_lt by done. cbn. by rewrite decide_True.
    - rewrite lookup_seq_ge by lia. cbn. by rewrite decide_False by tauto. }
  split.
  - intros name l part id. rewrite Hm. case_decide as Hd; [|split; [by intros []|tauto]].
    unfold matP. destruct (empty_B name l !! part) as [t|] eqn:Et; cbn [mbind option_bind].
    + destruct (eo_B He name l t) as [Hl _]; [by eapply list_elem_of_lookup_2|].
      rewrite lookup_lt_is_Some, Hl. apply lookup_lt_Some in Et. rewrite (eo_B_parts He) in Et. tauto.
    + apply lookup_ge_None in Et. rewrite (eo_B_parts He) in Et. split; [by intros []|lia].
  - intros name l part id m. rewrite Hm. case_decide; [|done]. unfold matP.
    destruct (empty_B name l !! part) as [t|] eqn:Et; [|done]. cbn. intros Em.
    apply (eo_B He name l t); by eapply list_elem_of_lookup_2.
Qed.

Context (adapters : list (pystr * LoRAAdapter)).

Definition initial_manager (graph : option nat) : LoRAManager :=
  let m := MkManager initial_pool adapters None in
  match graph with None => m | Some max_bs => init_cuda_graph_batch_info max_bs m end.

Lemma initial_ok graph : empty_ok → manager_ok initial_pool max_lora_dim in_dim out_dim adapters (initial_manager graph).
Proof.
  intros He. assert (pool_ok initial_pool max_lora_dim in_dim out_dim adapters initial_pool) as Hp.
  { split.
    - split; [done|by apply init_A_ok|by apply init_B_ok].
    - cbn. apply length_replicate.
    - apply NoDup_nil_2.
    - intros u id. cbn [initial_pool new_LoRAMemoryPool uid_to_buffer_id buffer_id_to_uid dict_get]. rewrite lookup_replicate.
      split; [done|]. by intros [[-> _] Hne].
    - done. }
  destruct graph as [max_bs|]; (split; [done|done|]); cbn; [|done]. rewrite !length_replicate.
  split; [done|]. split; [lia|]. split; [by rewrite Nat.add_1_r|]. split; [done|]. split; [done|]. split; [done|].
  intros r [-> _]%elem_of_replicate. lia.
Qed.

(** Batch after batch. *)
Context (set_order : list uid → list uid).
Definition run_batches (fbs : list ForwardBatch) : LoRAManager → result LoRAManager :=
  for_in (λ fb m, '(_, m) ← prepare_batch set_order fb m; Ok m) fbs.
Definition first_token (fb : ForwardBatch) (b : nat) : nat := sum_list (take b (batch_lens fb)).
End start.

Lemma start_first_token {F} `{Arith F} p0 R adapters (p : LoRAMemoryPool (F := F)) fb info b :
  batch_info_ok p0 R adapters p fb info → length (batch_lens fb) = batch_size fb → b < batch_size fb →
  tl_load (seg_indptr info) b = first_token fb b.
Proof.
  intros Hi Hl Hb. unfold first_token. pose proof (bi_info _ _ _ _ _ _ Hi) as Ho. pose proof (bi_bs _ _ _ _ _ _ Hi) as Eb.
  induction b as [|b IH]; [by rewrite (io_start _ _ _ _ Ho)|].
  rewrite <- Nat.add_1_r, (io_next _ _ _ _ Ho), IH, Nat.add_1_r by lia.
  symmetry. apply sum_take_S. symmetry. apply (bi_len _ _ _ _ _ _ Hi). lia.
Qed.

(** C7: from the start of the server on, whatever batches the scheduler makes (at most as many
    adapters as there are slots, all known and complete), preparing a batch never fails, with
    and without CUDA graphs; adapters come and go in the slots. Then every layer has exactly one
    output, whatever order the programs of its launches run in: for each token of a request it
    is the output of the base layer plus what the adapter of this request alone computes from
    the token, [scaling * B (A x)], or plus nothing when the request has no adapter. The output
    dimension of a layer with one weight must be a multiple of 256. *)
Theorem lora_batches_correct {F} `{ArithLaws F} num_layer max_loras tp_size tp_rank max_lora_dim lora_modules names get_hidden_dim
    empty_A empty_B (adapters : list (pystr * LoRAAdapter (F := F))) set_order graph fbs fb :
  let p0 := initial_pool num_layer max_loras tp_size tp_rank lora_modules names empty_A empty_B in
  let in_dim := in_dim tp_size max_lora_dim get_hidden_dim in
  let out_dim := out_dim tp_size max_lora_dim get_hidden_dim in
  let S := sum_list (batch_lens fb) in
  (∀ paths, NoDup (set_order paths) ∧ ∀ u, u ∈ set_order paths ↔ u ∈ paths) →
  empty_ok max_loras tp_size max_lora_dim get_hidden_dim empty_A empty_B →
  (∀ name ad, dict_get name adapters = Some ad → adapter_ok p0 max_lora_dim in_dim out_dim ad) →
  (∀ fb', fb' ∈ fbs ++ [fb] → batch_ok set_order p0 adapters fb') →
  ∃ m info m', run_batches set_order fbs (initial_manager num_layer max_loras tp_size tp_rank lora_modules names empty_A empty_B adapters graph) = Ok m ∧
    prepare_batch set_order fb m = Ok (info, m') ∧
    ∀ l k base x empty, l < num_layer → kind_ok p0 out_dim k → shape2 S (in_dim (A_name k)) x → shape2 S (width out_dim k) base →
      (∀ d0 d1, shape2 d0 d1 (empty d0 d1)) →
      ∃ out, (∀ out', apply_layer max_lora_dim in_dim out_dim (memory_pool m') l k info empty S base x out' ↔ out' = out) ∧
        ∀ b u len s id nameB part off sz n, lora_paths fb !! b = Some u → batch_lens fb !! b = Some len → s < len →
          parts out_dim k !! id = Some (nameB, part, off, sz) → n < sz →
          val2 out (first_token fb b + s) (off + n) =
            fadd (adapter_output p0 in_dim out_dim adapters u l k id (val2 x (first_token fb b + s)) n) (val2 base (first_token fb b + s) (off + n)).
Proof.
  intros p0 ind outd S Hset He Had Hfbs.
  assert (∀ fbs m, (∀ fb', fb' ∈ fbs → batch_ok set_order p0 adapters fb') → manager_ok p0 max_lora_dim ind outd adapters m →
    ∃ m', run_batches set_order fbs m = Ok m' ∧ manager_ok p0 max_lora_dim ind outd adapters m') as Hrun.
  { clear fbs Hfbs. induction fbs as [|fb1 fbs IH]; intros m Hok Hm; [by exists m|].
    destruct (prepare_batch_ok set_order Hset p0 max_lora_dim ind outd adapters Had fb1 m Hm) as (info & m1 & E & Hm1 & _); [apply Hok; left|].
    destruct (IH m1) as (m' & E' & Hm'); [intros fb' Hfb'; apply Hok; by right|done|].
    exists m'. split; [|done]. unfold run_batches. rewrite for_in_cons, E. exact E'. }
  destruct (Hrun fbs (initial_manager num_layer max_loras tp_size tp_rank lora_modules names empty_A empty_B adapters graph)) as (m & Em & Hm).
  { intros fb' Hfb'. apply Hfbs, elem_of_app. by left. }
  { by apply initial_ok. }
  assert (batch_ok set_order p0 adapters fb) as Hfb by (apply Hfbs, elem_of_app; right; left).
  destruct (prepare_batch_ok set_order Hset p0 max_lora_dim ind outd adapters Had fb m Hm Hfb) as (info & m' & E & Hm' & Hi).
  exists m, info, m'. split; [done|]. split; [done|]. intros l k base x empty Hl Hk Hx Hb Hempty.
  destruct (lora_layer_ok p0 max_lora_dim ind outd adapters Had set_order (memory_pool m') fb info (mo_pool _ _ _ _ _ _ Hm') Hfb Hi l Hl empty Hempty k base x Hk Hx Hb)
    as (out & Huniq & Hval).
  exists out. split; [exact Huniq|]. intros b u len s id nameB part off sz n Hu Elen Hs Epart Hn.
  assert (b < batch_size fb) as Hbb by (rewrite <- (bo_size _ _ _ _ Hfb); by eapply lookup_lt_Some).
  rewrite <- (start_first_token p0 max_lora_dim adapters (memory_pool m') fb info b Hi (bo_lens _ _ _ _ Hfb) Hbb).
  apply (Hval b u s id nameB part off sz n Hu); [|done..].
  pose proof (bi_len _ _ _ _ _ _ Hi b Hbb) as E2. rewrite Elen in E2. injection E2 as ->. exact Hs.
Qed.
