(* ===== verification/LoraExamples.v ===== *)
(** * Adapters in a pool of two slots

    A model with one layer that has a query-key-value and an output projection, run by
    evaluation, and what goes wrong with incomplete adapters and odd dimensions. *)

From S2P Require Import Prelude PyStr Grid Tiles LoraKernels LoraLaunch LoraApply LoraPool LoraLoad LoraInv LoraManager LoraBatch LoraThms.

Open Scope nat_scope.

(** ** A small model *)

(** Two inputs; the query has two columns, key and value have one each. *)
Definition hidden (name : pystr) : nat * nat := if decide (name = kv_proj) then (2, 1) else (2, 2).
Definition weight_names : list pystr * list pystr := ([qkv_proj], [q_proj; kv_proj]).
Definition key (s : string) : pystr := s2z s.

(** What is left in the memory. *)
Definition junk_A (name : pystr) (l : nat) : list (list (list Z)) := replicate 2 (replicate (2 * get_stacked_multiply name) (replicate 2 99%Z)).
Definition junk_B (name : pystr) (l : nat) : list (list (list (list Z))) :=
  replicate (get_stacked_multiply name) (replicate 2 (replicate (out_dim 1 2 hidden name) (replicate 2 77%Z))).

(** Two adapters of rank 1 and one of rank 2. *)
Definition rank_one (a b : Z) : LoRAAdapter := MkAdapter 1 10%Z
  [[(key "layers.0.self_attn.qkv_proj.lora_A.weight", Flat [[a; 0]; [0; a]; [a; a]]%Z);
    (key "layers.0.self_attn.q_proj.lora_B.weight", Flat [[b]; [0]]%Z);
    (key "layers.0.self_attn.kv_proj.lora_B.weight", Stacked [[[b]]; [[2 * b]]]%Z)]].
Definition rank_two : LoRAAdapter := MkAdapter 2 3%Z
  [[(key "layers.0.self_attn.qkv_proj.lora_A.weight", Flat [[1; 0]; [0; 1]; [1; 0]; [0; 1]; [1; 0]; [0; 1]]%Z);
    (key "layers.0.self_attn.q_proj.lora_B.weight", Flat [[1; 2]; [3; 4]]%Z);
    (key "layers.0.self_attn.kv_proj.lora_B.weight", Stacked [[[5; 6]]; [[7; 8]]]%Z)]].
Definition known : list (pystr * LoRAAdapter) := [(key "a", rank_one 1 1); (key "b", rank_one 2 3); (key "c", rank_two)]%Z.

Definition walk (paths : list (option pystr)) : list (option pystr) := remove_dups paths.
Definition pool := initial_pool 1 2 1 0 [[]] weight_names junk_A junk_B.

(** A prefill of two requests, a decode step in a CUDA graph, then a prefill with two others. *)
Definition first_batch := MkForwardBatch [Some (key "a"); None] 2 [2; 1] true false.
Definition decode_batch := MkForwardBatch [Some (key "a"); None] 2 [] false true.
Definition last_batch := MkForwardBatch [Some (key "c"); Some (key "b")] 2 [1; 2] true false.

Lemma walk_ok paths : NoDup (walk paths) ∧ ∀ u, u ∈ walk paths ↔ u ∈ paths.
Proof. split; [apply NoDup_remove_dups|apply elem_of_remove_dups]. Qed.

Lemma replicate_shape n m (z : Z) : shape2 n m (replicate n (replicate m z)).
Proof. split; [apply length_replicate|]. intros row [-> _]%elem_of_replicate. apply length_replicate. Qed.

Lemma junk_ok : empty_ok 2 1 2 hidden junk_A junk_B.
Proof.
  split.
  - intros name l. split; [apply length_replicate|]. intros mat [-> _]%elem_of_replicate.
    assert (in_dim 1 2 hidden name = 2) as -> by (unfold in_dim, get_lora_A_shape, hidden; destruct (decide (name = kv_proj)); reflexivity).
    apply replicate_shape.
  - intros name l. apply length_replicate.
  - intros name l t [-> _]%elem_of_replicate. split; [apply length_replicate|]. intros mat [-> _]%elem_of_replicate. apply replicate_shape.
Qed.

(** Walks through the elements of a literal. *)
Ltac each H := repeat (apply elem_of_cons in H as [->|H]); [..|by apply elem_of_nil in H].
Ltac known_shape := split; [reflexivity|]; let row := fresh "row" in let H := fresh "H" in intros row H; each H; reflexivity.
Ltac known_adapter :=
  split; [vm_compute; lia|]; intros l Hl; assert (l = 0) as -> by (vm_compute in Hl; lia);
  eexists [(qkv_proj, _)], [(q_proj, _); (kv_proj, _)]; split; [vm_compute; reflexivity|];
  split; [intros item Hi; each Hi; split; [left|eexists; split; [reflexivity|known_shape]]|];
  split; [intros item Hi; each Hi;
    [split; [left|eexists; split; [reflexivity|known_shape]]
    |split; [right; left|eexists; split; [reflexivity|split; [reflexivity|]; let m := fresh in let H := fresh in intros m H; each H; known_shape]]]|];
  split; intros name Hn; exact Hn.

Lemma rank_one_ok a b : adapter_ok pool 2 (in_dim 1 2 hidden) (out_dim 1 2 hidden) (rank_one a b).
Proof. known_adapter. Qed.
Lemma rank_two_ok : adapter_ok pool 2 (in_dim 1 2 hidden) (out_dim 1 2 hidden) rank_two.
Proof. known_adapter. Qed.

Lemma known_ok name ad : dict_get name known = Some ad → adapter_ok pool 2 (in_dim 1 2 hidden) (out_dim 1 2 hidden) ad.
Proof.
  intros Hin%dict_get_elem. unfold known in Hin. apply elem_of_cons in Hin as [[= -> ->]|Hin]; [apply rank_one_ok|].
  apply elem_of_cons in Hin as [[= -> ->]|Hin]; [apply rank_one_ok|]. apply list_elem_of_singleton in Hin as [= -> ->]. apply rank_two_ok.
Qed.

Lemma batches_ok fb : fb ∈ [first_batch; decode_batch] ++ [last_batch] → batch_ok walk pool known fb.
Proof.
  intros Hin. apply elem_of_cons in Hin as [->|Hin]; [|apply elem_of_cons in Hin as [->|Hin]; [|apply list_elem_of_singleton in Hin as ->]];
    (split; [reflexivity|vm_compute; lia|reflexivity|done|vm_compute; lia|apply (bool_decide_unpack _); vm_compute; exact I|]);
    intros name Hn; cbn [lora_paths first_batch decode_batch last_batch] in Hn;
    repeat (apply elem_of_cons in Hn as [Hn|Hn]; [try discriminate Hn; injection Hn as ->; by eexists|]); by apply elem_of_nil in Hn.
Qed.

Definition tokens : list (list Z) := [[1; 2]; [3; 4]; [5; 6]]%Z.
Definition base : list (list Z) := [[100; 0; 0; 0]; [0; 0; 0; 100]; [0; 0; 0; 0]]%Z.
Definition zeros (d0 d1 : nat) : list (list Z) := replicate d0 (replicate d1 0%Z).

Example lora_batches_correct_witness :
  ∃ m info m' out, run_batches walk [first_batch; decode_batch] (initial_manager 1 2 1 0 [[]] weight_names junk_A junk_B known (Some 4)) = Ok m ∧
    prepare_batch walk last_batch m = Ok (info, m') ∧
    apply_layer 2 (in_dim 1 2 hidden) (out_dim 1 2 hidden) (memory_pool m') 0 QKV info zeros 3 base tokens out ∧
    val2 out 0 0 = 115%Z ∧ val2 out 1 0 = 180%Z ∧ val2 out 1 2 = 240%Z ∧ val2 out 1 3 = 940%Z.
Proof.
  destruct (lora_batches_correct 1 2 1 0 2 [[]] weight_names hidden junk_A junk_B known walk (Some 4) [first_batch; decode_batch] last_batch
    walk_ok junk_ok known_ok batches_ok) as (m & info & m' & Em & Ep & Hlayer).
  destruct (Hlayer 0 QKV base tokens zeros) as (out & Hout & Hval).
  - lia.
  - split; [left|]. split; [left|]. split; [right; left|]. vm_compute. lia.
  - known_shape.
  - known_shape.
  - intros. apply replicate_shape.
  - exists m, info, m', out. split; [exact Em|]. split; [exact Ep|]. split; [by apply Hout|].
    split; [|split; [|split]].
    + exact (Hval 0 _ 1 0 0 _ _ _ _ 0 eq_refl eq_refl ltac:(lia) eq_refl ltac:(vm_compute; lia)).
    + exact (Hval 1 _ 2 0 0 _ _ _ _ 0 eq_refl eq_refl ltac:(lia) eq_refl ltac:(vm_compute; lia)).
    + exact (Hval 1 _ 2 0 1 _ _ _ _ 0 eq_refl eq_refl ltac:(lia) eq_refl ltac:(vm_compute; lia)).
    + exact (Hval 1 _ 2 0 2 _ _ _ _ 0 eq_refl eq_refl ltac:(lia) eq_refl ltac:(vm_compute; lia)).
Defined.

(** ** What the hypotheses are for *)

(** An adapter without weights for the query-key-value layer, in a pool with one slot: its
    requests get what is left of the adapter that was there before. *)
Definition other_names : list pystr * list pystr := ([qkv_proj; key "o_proj"], [q_proj; kv_proj; key "o_proj"]).
Definition only_o : LoRAAdapter := MkAdapter 1 1%Z
  [[(key "layers.0.self_attn.o_proj.lora_A.weight", Flat [[1; 1]]%Z); (key "layers.0.self_attn.o_proj.lora_B.weight", Flat [[1]; [1]]%Z)]].
Definition two_adapters := [(key "o", only_o); (key "b", rank_two)].
Definition small_pool := initial_pool 1 1 1 0 [[]] other_names junk_A junk_B.

Example stale_weights :
  match for_in (λ u, prepare_lora_batch [u] two_adapters) [Some (key "b"); Some (key "o")] small_pool with
  | Ok p => dict_get (Some (key "o")) (uid_to_buffer_id p) = Some 0 ∧
      matA (A_buffer p) qkv_proj 0 0 = Some [[1; 0]; [0; 1]; [1; 0]; [0; 1]; [1; 0]; [0; 1]]%Z ∧ matB (B_buffer p) q_proj 0 0 0 = Some [[1; 2]; [3; 4]]%Z
  | Raise _ => False
  end.
Proof. vm_compute. split_and!; reflexivity. Qed.

(** [_sgemm_lora_b_kernel] on two tokens, three columns and blocks of two: run one after the
    other, the second program also stores to the column behind the last one of the first row,
    which is the first column of the second row. *)
Definition odd_info : LoRABatchInfo Z := MkBatchInfo 1 [2] [0; 2] 2 [0] [1] [1%Z].
Definition odd_memory : gmap addr Z := memory_of [[1]; [10]]%Z [[[1]; [2]; [3]]; [[50]; [50]; [50]]]%Z [[0; 0; 0]; [0; 0; 0]; [0; 0; 0]]%Z.

Example columns_overrun :
  ('(_, m) ← run_owned (λ _, Some 0) 0 (_sgemm_lora_b_kernel odd_info 3 1 1 1 3 1 1 3 1 2 2 2 true 0 0) odd_memory;
   '(_, m) ← run_owned (λ _, Some 0) 0 (_sgemm_lora_b_kernel odd_info 3 1 1 1 3 1 1 3 1 2 2 2 true 1 0) m;
   mret ((λ k, m !! (Output, k)) <$> seq 0 7)) =
  Some (Some <$> [1; 2; 3; 60; 20; 30; 500])%Z.
Proof. vm_compute. reflexivity. Qed.
