(* ===== verification/Overlap.v ===== *)
(** * Batches that are scheduled before their tokens are known

    [TpModelWorkerClient] of [managers/tp_worker_overlap_thread.py]: with the overlap schedule
    the scheduler submits a batch while the forward thread still works on the one before. The
    tokens that are not known yet are negative numbers, which stand for places in a ring of
    results; the thread looks them up when it comes to the batch. *)

From S2P Require Import Prelude.

Open Scope nat_scope.

Section overlap.
(** The model: its state has the keys and values of the tokens so far. *)
Context {Meta Model : Type} (forward : list Z → nat → Meta → Model → list Z * Model).

Record ModelWorkerBatch := MkWorkerBatch { input_ids : list Z; batch_size : nat; batch_meta : Meta }.

Record TpModelWorkerClient := MkClient {
  future_token_ids_ct : nat;
  future_token_ids_limit : nat;
  future_token_ids_map : list Z;
  input_queue : list (ModelWorkerBatch * nat);
  output_queue : list (list Z);
  worker : Model
}.

(** [__init__]; the ring is not initialised. *)
Definition new_TpModelWorkerClient (max_running_requests : nat) (uninit : list Z) (w : Model) : TpModelWorkerClient :=
  MkClient 0 (max_running_requests * 3) (take (max_running_requests * 5) (uninit ++ replicate (max_running_requests * 5) 0%Z)) [] [] w.

(** [torch.where(ids < 0, map[clamp(-ids, min=0)], ids)]. *)
Definition resolve_future_token_ids (input_ids : list Z) (future_token_ids_map : list Z) : result (list Z) :=
  mapM (λ id, match future_token_ids_map !! Z.to_nat (Z.max (- id) 0) with
              | Some v => Ok (if bool_decide (id < 0)%Z then v else id)
              | None => Raise IndexError
              end) input_ids.

(** [t[i:j] = values]: the slice ends with the tensor, and a single value is repeated. *)
Definition assign_slice (i j : nat) (values t : list Z) : result (list Z) :=
  let n := length (slice i j t) in
  if decide (length values = n) then Ok (take i t ++ values ++ drop (i + n) t)
  else match values with
       | [v] => Ok (take i t ++ replicate n v ++ drop (i + n) t)
       | _ => Raise (RuntimeError "The expanded size of the tensor must match the existing size")
       end.

(** The scheduler's thread: [forward_batch_generation] returns the placeholders. *)
Definition forward_batch_generation (b : ModelWorkerBatch) (c : TpModelWorkerClient) : list Z * TpModelWorkerClient :=
  let ct := future_token_ids_ct c in
  ((λ j, (- Z.of_nat (ct + 1 + j))%Z) <$> seq 0 (batch_size b),
   MkClient ((ct + batch_size b) `mod` future_token_ids_limit c) (future_token_ids_limit c) (future_token_ids_map c)
     (input_queue c ++ [(b, ct)]) (output_queue c) (worker c)).

(** The forward thread: one turn of [forward_thread_func_]; [None] while the queue is empty. *)
Definition forward_thread_turn (c : TpModelWorkerClient) : option (result TpModelWorkerClient) :=
  match input_queue c with
  | [] => None
  | (b, ct) :: queue => Some (
      ids ← resolve_future_token_ids (input_ids b) (future_token_ids_map c);
      let '(next_token_ids, w) := forward ids (batch_size b) (batch_meta b) (worker c) in
      map ← assign_slice (ct + 1) (ct + batch_size b + 1) next_token_ids (future_token_ids_map c);
      Ok (MkClient (future_token_ids_ct c) (future_token_ids_limit c) map queue (output_queue c ++ [next_token_ids]) w))
  end.

(** The scheduler waits for a result with [resolve_last_batch_result]. *)
Definition resolve_last_batch_result (c : TpModelWorkerClient) : option (list Z * TpModelWorkerClient) :=
  match output_queue c with
  | [] => None
  | out :: rest =>
      Some (out, MkClient (future_token_ids_ct c) (future_token_ids_limit c) (future_token_ids_map c) (input_queue c) rest (worker c))
  end.

(** ** What the scheduler submits *)

(** An input token: known, or the one of request [j] of the [k]-th batch. *)
Inductive Token := Known (t : Z) | Future (k j : nat).

Record Planned := MkPlanned { plan_ids : list Token; plan_size : nat; plan_meta : Meta }.

(** The placeholders it got for the earlier batches take the place of the tokens. *)
Definition token_id (futures : list (list Z)) (t : Token) : Z :=
  match t with Known t => t | Future k j => default 0%Z (futures !! k ≫= (.!! j)) end.
Definition submit (futures : list (list Z)) (p : Planned) : ModelWorkerBatch :=
  MkWorkerBatch (token_id futures <$> plan_ids p) (plan_size p) (plan_meta p).

(** The two threads: the batches to submit, the placeholders so far, the results so far. *)
Record Threads := MkThreads {
  to_submit : list Planned;
  futures : list (list Z);
  client : TpModelWorkerClient;
  results : list (list Z)
}.

Inductive thread_step : Threads → Threads → Prop :=
  | step_submit p todo fs c rs fut c' : forward_batch_generation (submit fs p) c = (fut, c') →
      thread_step (MkThreads (p :: todo) fs c rs) (MkThreads todo (fs ++ [fut]) c' rs)
  | step_forward todo fs c rs c' : forward_thread_turn c = Some (Ok c') →
      thread_step (MkThreads todo fs c rs) (MkThreads todo fs c' rs)
  | step_result todo fs c rs out c' : resolve_last_batch_result c = Some (out, c') →
      thread_step (MkThreads todo fs c rs) (MkThreads todo fs c' (rs ++ [out])).

(** ** Without overlap *)

(** Every batch is run when the tokens of the one before are known. *)
Definition run_planned (st : list (list Z) * Model) (p : Planned) : list (list Z) * Model :=
  let '(outs, w) := st in
  let '(next, w) := forward (token_id outs <$> plan_ids p) (plan_size p) (plan_meta p) w in
  (outs ++ [next], w).
Definition sequential (plan : list Planned) (w : Model) : list (list Z) * Model := foldl run_planned ([], w) plan.

(** ** The invariant *)

Context (forward_size : ∀ ids bs m w, length (forward ids bs m w).1 = bs).
Context (max_running_requests : nat).
Notation limit := (max_running_requests * 3).

Definition position (plan : list Planned) (k : nat) : nat := sum_list (plan_size <$> take k plan).

(** The tokens of the plan are known, or come from a batch whose place in the ring no batch in
    between has taken. *)
Definition token_ok (plan : list Planned) (k : nat) (t : Token) : Prop :=
  match t with
  | Known t => (0 ≤ t)%Z
  | Future k' j => k' < k ∧ (∃ p, plan !! k' = Some p ∧ j < plan_size p) ∧ position plan k ≤ position plan k' + j + limit
  end.

Definition plan_ok (plan : list Planned) : Prop :=
  ∀ k p, plan !! k = Some p → plan_size p ≤ 2 * max_running_requests ∧ ∀ t, t ∈ plan_ids p → token_ok plan k t.

Context (plan : list Planned) (Hplan : plan_ok plan) (w0 : Model).
Notation seq_at n := (sequential (take n plan) w0).
Notation ct_of k := (position plan k `mod` limit).
Definition futures_of (k : nat) (p : Planned) : list Z := (λ j, (- Z.of_nat (ct_of k + 1 + j))%Z) <$> seq 0 (plan_size p).

Record threads_ok (s : Threads) (submitted computed : nat) : Prop := {
  to_done : computed ≤ submitted ≤ length plan;
  to_todo : to_submit s = drop submitted plan;
  to_futures : futures s = imap futures_of (take submitted plan);
  to_limit : future_token_ids_limit (client s) = limit;
  to_ct : future_token_ids_ct (client s) = ct_of submitted;
  to_queue : input_queue (client s) = (λ kp, (submit (imap futures_of (take kp.1 plan)) kp.2, ct_of kp.1)) <$>
    drop computed (imap pair (take submitted plan));
  to_map : length (future_token_ids_map (client s)) = max_running_requests * 5;
  to_ring : ∀ k p j, k < computed → plan !! k = Some p → j < plan_size p → position plan computed ≤ position plan k + j + limit →
    future_token_ids_map (client s) !! (ct_of k + 1 + j) = (seq_at computed).1 !! k ≫= (.!! j);
  to_worker : worker (client s) = (seq_at computed).2;
  to_results : results s ++ output_queue (client s) = (seq_at computed).1
}.

(** ** Every run ends *)

Definition steps_left (s : Threads) : nat :=
  3 * length (to_submit s) + 2 * length (input_queue (client s)) + length (output_queue (client s)).

Lemma steps_left_step s s' : thread_step s s' → steps_left s' < steps_left s.
Proof.
  intros [p todo fs c rs fut c' E|todo fs c rs c' E|todo fs c rs out c' E]; unfold steps_left; cbn.
  - injection E as <- <-. cbn. rewrite length_app. cbn. lia.
  - unfold forward_thread_turn in E. destruct (input_queue c) as [|[b ct] queue] eqn:Eq; [done|]. injection E as E.
    destruct resolve_future_token_ids as [ids|]; [|done]. cbn in E. destruct forward as [next w].
    destruct assign_slice as [m|]; [|done]. cbn in E. injection E as <-. cbn. rewrite length_app. cbn. lia.
  - unfold resolve_last_batch_result in E. destruct (output_queue c); [done|]. injection E as <- <-. cbn. lia.
Qed.

Lemma run_bounded n s s' : nsteps thread_step n s s' → n + steps_left s' ≤ steps_left s.
Proof. induction 1 as [|n s s1 s' Hs _ IH]; [lia|]. pose proof (steps_left_step _ _ Hs). lia. Qed.

(** ** Positions in the ring *)

#[local] Arguments position : simpl never.

Lemma position_S k p : plan !! k = Some p → position plan (S k) = position plan k + plan_size p.
Proof. intros E. unfold position. rewrite (take_S_r _ _ p E), fmap_app, sum_list_with_app. cbn. lia. Qed.

Lemma position_mono k m : k ≤ m → position plan k ≤ position plan m.
Proof.
  intros Hkm. unfold position. rewrite <- (take_drop k (take m plan)), take_take, Nat.min_l by done.
  rewrite fmap_app, sum_list_with_app. lia.
Qed.

Lemma ct_of_S k p : plan !! k = Some p → (ct_of k + plan_size p) `mod` limit = ct_of (S k).
Proof. intros E. by rewrite (position_S _ _ E), Nat.Div0.add_mod_idemp_l. Qed.

Context (Hmax : 0 < max_running_requests).

Lemma ct_of_lt k : ct_of k < limit.
Proof. apply Nat.mod_upper_bound. lia. Qed.

Lemma plan_size_le k p : plan !! k = Some p → plan_size p ≤ 2 * max_running_requests.
Proof. intros E. apply (Hplan _ _ E). Qed.

(** The places of a batch are in the ring, *)
Lemma place_in_ring k p j : plan !! k = Some p → j < plan_size p → ct_of k + 1 + j < max_running_requests * 5.
Proof. intros E Hj. pose proof (ct_of_lt k). pose proof (plan_size_le _ _ E). lia. Qed.

(** and those of two batches less than a turn apart are different. *)
Lemma places_disjoint k p j m q i :
  plan !! k = Some p → j < plan_size p → plan !! m = Some q → i < plan_size q → k < m →
  position plan (S m) ≤ position plan k + j + limit → ct_of k + j ≠ ct_of m + i.
Proof.
  intros Ep Hj Eq Hi Hkm Hfar E. rewrite (position_S _ _ Eq) in Hfar.
  pose proof (position_mono (S k) m Hkm) as Hle. rewrite (position_S _ _ Ep) in Hle.
  assert ((position plan k + j) `mod` limit = (position plan m + i) `mod` limit) as Em.
  { by rewrite <- (Nat.Div0.add_mod_idemp_l (position plan k)), <- (Nat.Div0.add_mod_idemp_l (position plan m)), E. }
  apply (f_equal Z.of_nat) in Em. rewrite !Nat2Z.inj_mod in Em.
  assert ((Z.of_nat limit | Z.of_nat (position plan m + i) - Z.of_nat (position plan k + j))%Z) as [q' Hq'].
  { apply Z.mod_divide; [lia|]. by rewrite Zminus_mod, Em, Z.sub_diag, Zmod_0_l. }
  assert (0 < q' < 1)%Z; [|lia]. split; nia.
Qed.

(** ** The run without overlap *)

Lemma sequential_S k p : plan !! k = Some p → seq_at (S k) = run_planned (seq_at k) p.
Proof. intros E. unfold sequential. by rewrite (take_S_r _ _ p E), foldl_app. Qed.

Lemma sequential_sizes k : k ≤ length plan →
  length (seq_at k).1 = k ∧ ∀ i p, i < k → plan !! i = Some p → ∃ out, (seq_at k).1 !! i = Some out ∧ length out = plan_size p.
Proof.
  induction k as [|k IH]; intros Hk; [split; [done|lia]|].
  destruct (lookup_lt_is_Some_2 plan k) as [q Eq]; [lia|]. destruct IH as [Hl IH]; [lia|].
  rewrite (sequential_S _ _ Eq). destruct (seq_at k) as [outs w]. cbn in *.
  pose proof (forward_size (token_id outs <$> plan_ids q) (plan_size q) (plan_meta q) w) as Hs.
  destruct forward as [next w']. cbn in *. rewrite length_app. cbn. split; [lia|]. intros i p Hi Ei.
  destruct (decide (i = k)) as [->|].
  - rewrite Eq in Ei. injection Ei as <-. exists next. by rewrite lookup_app_r, Hl, Nat.sub_diag by lia.
  - destruct (IH i p) as (out & Eo & Ho); [lia|done|]. exists out. by rewrite lookup_app_l by lia.
Qed.

(** ** Looking the tokens up *)

Lemma token_id_future k k' j p : k' < k → plan !! k' = Some p → j < plan_size p →
  token_id (imap futures_of (take k plan)) (Future k' j) = (- Z.of_nat (ct_of k' + 1 + j))%Z.
Proof.
  intros Hk E Hj. cbn. rewrite list_lookup_imap, lookup_take_lt, E by done. cbn.
  unfold futures_of. rewrite list_lookup_fmap, lookup_seq_lt by done. done.
Qed.

Lemma ids_resolved s n k p : threads_ok s n k → plan !! k = Some p →
  resolve_future_token_ids (token_id (imap futures_of (take k plan)) <$> plan_ids p) (future_token_ids_map (client s)) =
  Ok (token_id (seq_at k).1 <$> plan_ids p).
Proof.
  intros Hs E. unfold resolve_future_token_ids. apply mapM_Ok, Forall2_fmap, Forall_Forall2_diag, Forall_forall.
  intros t Ht. destruct (Hplan _ _ E) as [_ Hok]. specialize (Hok t Ht). destruct t as [t|k' j]; cbn [token_ok] in Hok.
  - cbn [token_id]. rewrite Z.max_r by lia.
    destruct (lookup_lt_is_Some_2 (future_token_ids_map (client s)) (Z.to_nat 0)) as [v ->]; [rewrite (to_map _ _ _ Hs); lia|].
    by rewrite bool_decide_false by lia.
  - destruct Hok as (Hk & (q & Eq & Hj) & Hfresh). rewrite (token_id_future k k' j q) by done.
    destruct (sequential_sizes k) as [_ Hsz]; [apply lookup_lt_Some in E; lia|].
    destruct (Hsz k' q Hk Eq) as (out & Eo & Ho). destruct (lookup_lt_is_Some_2 out j) as [v Ev]; [lia|].
    pose proof (to_ring _ _ _ Hs k' q j Hk Eq Hj Hfresh) as Em. rewrite Eo in Em. cbn in Em. rewrite Ev in Em.
    rewrite Z.opp_involutive, Z.max_l, Nat2Z.id, Em, bool_decide_true by lia.
    cbn. by rewrite Eo; cbn; rewrite Ev.
Qed.

(** ** Writing the results *)

Lemma assign_slice_ok c values t : c + length values ≤ length t →
  assign_slice c (c + length values) values t = Ok (take c t ++ values ++ drop (c + length values) t).
Proof.
  intros Hl. unfold assign_slice, slice. rewrite length_take, length_drop.
  replace ((c + length values - c) `min` (length t - c)) with (length values) by lia. by rewrite decide_True.
Qed.

Lemma overwritten (c : nat) (values t : list Z) i : c + length values ≤ length t →
  (take c t ++ values ++ drop (c + length values) t) !! i =
  if decide (c ≤ i < c + length values) then values !! (i - c) else t !! i.
Proof.
  intros Hl. assert (length (take c t) = c) as Ht by (rewrite length_take; lia).
  destruct (decide (i < c)).
  { rewrite decide_False, lookup_app_l, lookup_take_lt by lia. done. }
  rewrite lookup_app_r, Ht by lia. case_decide.
  - by rewrite lookup_app_l by lia.
  - rewrite lookup_app_r, lookup_drop by lia. f_equal. lia.
Qed.

(** ** The steps *)

Lemma init_ok uninit : threads_ok (MkThreads plan [] (new_TpModelWorkerClient max_running_requests uninit w0) []) 0 0.
Proof.
  split; cbn [client to_submit futures results new_TpModelWorkerClient future_token_ids_ct future_token_ids_limit
    future_token_ids_map input_queue output_queue worker take app fmap imap drop]; try done; try lia.
  - symmetry. apply Nat.Div0.mod_0_l.
  - rewrite length_take, length_app, length_replicate. lia.
Qed.

Lemma submit_ok p todo fs c rs fut c' submitted computed :
  forward_batch_generation (submit fs p) c = (fut, c') → threads_ok (MkThreads (p :: todo) fs c rs) submitted computed →
  threads_ok (MkThreads todo (fs ++ [fut]) c' rs) (S submitted) computed.
Proof.
  intros E [Hd Ht Hf Hl Hc Hq Hm Hr Hw Hres]. cbn in *. injection E as <- <-.
  assert (plan !! submitted = Some p) as Ep.
  { pose proof (f_equal (.!! 0) Ht) as E0. rewrite lookup_drop, Nat.add_0_r in E0. by rewrite <- E0. }
  pose proof (lookup_lt_Some _ _ _ Ep) as Hlt.
  assert (length (take submitted plan) = submitted) as Hlen by (rewrite length_take; lia).
  split; cbn; try done.
  - lia.
  - rewrite (drop_S _ _ _ Ep) in Ht. by injection Ht.
  - rewrite (take_S_r _ _ _ Ep), imap_app, Hf, Hlen. cbn. unfold futures_of. by rewrite Nat.add_0_r, Hc.
  - by rewrite Hc, Hl, (ct_of_S _ _ Ep).
  - rewrite (take_S_r _ _ _ Ep), imap_app, Hlen, drop_app_le, fmap_app, Hq by (rewrite length_imap; lia).
    cbn. by rewrite Nat.add_0_r, Hc, Hf.
Qed.

Lemma forward_ok todo fs c rs submitted computed :
  threads_ok (MkThreads todo fs c rs) submitted computed → computed < submitted →
  ∃ c', forward_thread_turn c = Some (Ok c') ∧ threads_ok (MkThreads todo fs c' rs) submitted (S computed).
Proof.
  intros Hs Hlt. pose proof Hs as [Hd Ht Hf Hl Hc Hq Hm Hr Hw Hres]. cbn in *.
  destruct (lookup_lt_is_Some_2 plan computed) as [p Ep]; [lia|].
  assert (imap pair (take submitted plan) !! computed = Some (computed, p)) as El.
  { rewrite list_lookup_imap, lookup_take_lt, Ep by done. done. }
  rewrite (drop_S _ _ _ El) in Hq. cbn in Hq. unfold forward_thread_turn. rewrite Hq.
  cbn [input_ids batch_size batch_meta submit]. 
  pose proof (ids_resolved _ _ _ _ Hs Ep) as Eids. cbn [client] in Eids. rewrite Eids. cbn [mbind result_bind].
  pose proof (sequential_S _ _ Ep) as Eseq. destruct (seq_at computed) as [outs w] eqn:Es. cbn in Hw, Hr, Hres.
  pose proof (forward_size (token_id outs <$> plan_ids p) (plan_size p) (plan_meta p) w) as Hsz.
  cbn [run_planned] in Eseq. cbn [fst]. rewrite Hw. destruct forward as [next w']. cbn in Hsz.
  pose proof (ct_of_lt computed) as Hct. pose proof (plan_size_le _ _ Ep) as Hps.
  replace (ct_of computed + plan_size p + 1) with (ct_of computed + 1 + length next) by lia.
  rewrite assign_slice_ok by lia. eexists; split; [done|].
  destruct (sequential_sizes computed) as [Hlen _]; [lia|]. rewrite Es in Hlen. cbn in Hlen.
  split; cbn; rewrite ?Eseq; cbn; try done.
  - lia.
  - rewrite !length_app, length_take, length_drop. lia.
  - intros k q j Hk Eq Hj Hfar. rewrite overwritten by lia. case_decide as Hin.
    + destruct (decide (k = computed)) as [->|].
      * simplify_eq. rewrite lookup_app_r, Nat.sub_diag by lia. cbn. f_equal. lia.
      * exfalso. apply (places_disjoint k q j computed p (ct_of k + j - ct_of computed)); try done; lia.
    + destruct (decide (k = computed)) as [->|]; [rewrite Ep in Eq; injection Eq as <-; lia|].
      rewrite lookup_app_l by lia. apply (Hr k q j); [lia|done|done|].
      pose proof (position_mono computed (S computed)). lia.
  - by rewrite app_assoc, Hres.
Qed.

Lemma result_ok todo fs c rs out c' submitted computed :
  resolve_last_batch_result c = Some (out, c') → threads_ok (MkThreads todo fs c rs) submitted computed →
  threads_ok (MkThreads todo fs c' (rs ++ [out])) submitted computed.
Proof.
  intros E [Hd Ht Hf Hl Hc Hq Hm Hr Hw Hres]. unfold resolve_last_batch_result in E. cbn in *.
  destruct (output_queue c) as [|o rest] eqn:Eo; [done|]. injection E as <- <-.
  split; cbn; try done. by rewrite <- app_assoc.
Qed.

Lemma reachable_ok s s' submitted computed : rtc thread_step s s' → threads_ok s submitted computed →
  ∃ submitted computed, threads_ok s' submitted computed.
Proof.
  intros Hrtc. revert submitted computed. induction Hrtc as [|s s1 s' Hstep _ IH]; intros submitted computed Hs; [eauto|].
  destruct Hstep as [p todo fs c rs fut c' E|todo fs c rs c' E|todo fs c rs out c' E].
  - eapply IH, submit_ok; done.
  - destruct (decide (computed < submitted)).
    + destruct (forward_ok _ _ _ _ _ _ Hs) as (c'' & E' & Hs'); [done|]. rewrite E in E'. injection E' as <-. eauto.
    + pose proof (to_queue _ _ _ Hs) as Hq. rewrite drop_ge in Hq by (rewrite length_imap, length_take; lia).
      cbn in Hq. unfold forward_thread_turn in E. by rewrite Hq in E.
  - eapply IH, result_ok; done.
Qed.

Lemma queue_length s submitted computed : threads_ok s submitted computed →
  length (input_queue (client s)) = submitted - computed.
Proof.
  intros Hs. rewrite (to_queue _ _ _ Hs), length_fmap, length_drop, length_imap, length_take.
  pose proof (to_done _ _ _ Hs). lia.
Qed.

(** The forward thread never meets an error. *)
Lemma thread_turn_ok s submitted computed : threads_ok s submitted computed →
  forward_thread_turn (client s) = None ∨ ∃ c', forward_thread_turn (client s) = Some (Ok c').
Proof.
  intros Hs. destruct (decide (computed < submitted)) as [Hlt|Hge]; destruct s as [todo fs c rs].
  - right. destruct (forward_ok _ _ _ _ _ _ Hs Hlt) as (c' & E & _). eauto.
  - left. pose proof (queue_length _ _ _ Hs) as Hl. cbn in *. unfold forward_thread_turn.
    destruct (input_queue c); [done|cbn in Hl; lia].
Qed.

(** A run that cannot go on has handed every result out. *)
Lemma stuck_complete s submitted computed : threads_ok s submitted computed → (∀ s', ¬ thread_step s s') →
  results s = (seq_at (length plan)).1.
Proof.
  intros Hs Hstuck. destruct s as [todo fs c rs]. pose proof Hs as [Hd Ht _ _ _ _ _ _ _ Hres]. cbn in *.
  destruct (decide (submitted = length plan)) as [->|].
  - destruct (decide (computed = length plan)) as [->|].
    + destruct (output_queue c) as [|o rest] eqn:Eo; [by rewrite app_nil_r in Hres|].
      exfalso. eapply Hstuck, step_result. unfold resolve_last_batch_result. by rewrite Eo.
    + exfalso. destruct (forward_ok _ _ _ _ _ _ Hs) as (c' & E & _); [lia|]. by eapply Hstuck, step_forward.
  - destruct (lookup_lt_is_Some_2 plan submitted) as [p Ep]; [lia|]. rewrite (drop_S _ _ _ Ep) in Ht. subst todo.
    exfalso. by eapply Hstuck, step_submit.
Qed.
End overlap.

Arguments MkPlanned {Meta}.
Arguments MkThreads {Meta Model}.

(** With at most [max_running_requests] requests in a batch, the placeholders of the last three
    batches are there. *)
Lemma recent_futures {Meta} max_running_requests (plan : list (Planned (Meta := Meta))) :
  (∀ k p, plan !! k = Some p → plan_size p ≤ max_running_requests ∧ ∀ t, t ∈ plan_ids p →
     match t with
     | Known t => (0 ≤ t)%Z
     | Future k' j => k' < k ≤ k' + 3 ∧ ∃ q, plan !! k' = Some q ∧ j < plan_size q
     end) → plan_ok max_running_requests plan.
Proof.
  intros H k p Ep. destruct (H k p Ep) as [Hp Ht]. split; [lia|]. intros t Hin. specialize (Ht t Hin).
  destruct t as [t|k' j]; [done|]. destruct Ht as (Hk & q & Eq & Hj). split; [lia|]. split; [eauto|].
  assert (∀ d, k' + d ≤ k → position plan (k' + d) ≤ position plan k' + d * max_running_requests) as Hpos.
  { induction d as [|d IH]; intros Hd; [rewrite Nat.add_0_r; lia|].
    destruct (lookup_lt_is_Some_2 plan (k' + d)) as [r Er]; [apply lookup_lt_Some in Ep; lia|].
    rewrite Nat.add_succ_r, (position_S _ _ _ Er). destruct (H _ _ Er). lia. }
  specialize (Hpos (k - k') ltac:(lia)). replace (k' + (k - k')) with k in Hpos by lia. nia.
Qed.

(** C6: whatever the interleaving of the scheduler's thread and the forward thread, a run that
    submits batches with placeholders gives, batch for batch, the tokens of the run that waits
    for every batch before it submits the next: what has been handed out and what waits in the
    output queue are its first results, the model is in its state, the thread never meets an
    error, and after at most three steps a batch all of the results are there. The hypothesis
    on the plan: a batch has at most twice [max_running_requests] requests, and a placeholder
    is used before the ring has gone round. *)
Theorem overlap_is_sequential {Meta Model} (forward : list Z → nat → Meta → Model → list Z * Model)
    max_running_requests plan w0 uninit n s :
  (∀ ids bs m w, length (forward ids bs m w).1 = bs) → 0 < max_running_requests → plan_ok max_running_requests plan →
  nsteps (thread_step forward) n (MkThreads plan [] (new_TpModelWorkerClient max_running_requests uninit w0) []) s →
  (∃ computed, computed ≤ length plan ∧
    results s ++ output_queue (client s) = (sequential forward (take computed plan) w0).1 ∧
    worker (client s) = (sequential forward (take computed plan) w0).2) ∧
  (∀ e, forward_thread_turn forward (client s) ≠ Some (Raise e)) ∧
  n ≤ 3 * length plan ∧
  ((∀ s', ¬ thread_step forward s s') → results s = (sequential forward plan w0).1).
Proof.
  intros Hsz Hmax Hplan Hn.
  destruct (reachable_ok forward Hsz max_running_requests plan Hplan w0 Hmax (MkThreads plan [] (new_TpModelWorkerClient max_running_requests uninit w0) []) s 0 0) as (submitted & computed & Hs).
  { eapply rtc_nsteps_2, Hn. }
  { apply init_ok; done. }
  split; [|split; [|split]].
  - exists computed. pose proof (to_done _ _ _ _ _ _ _ Hs).
    split; [lia|]. split; [apply (to_results _ _ _ _ _ _ _ Hs)|apply (to_worker _ _ _ _ _ _ _ Hs)].
  - intros e E. eapply (thread_turn_ok forward Hsz _ _ Hplan w0 Hmax) in Hs as [E'|[c' E']]; congruence.
  - apply run_bounded in Hn. unfold steps_left in Hn. cbn in Hn. lia.
  - intros Hstuck. rewrite (stuck_complete forward Hsz _ _ Hplan w0 Hmax _ _ _ Hs Hstuck). by rewrite firstn_all.
Qed.

(** ** An example *)

(** The model adds up the tokens it has seen; two requests may run. *)
Definition adder (ids : list Z) (bs : nat) (_ : unit) (w : Z) : list Z * Z :=
  let w := (w + zsum id ids)%Z in ((λ j, w + Z.of_nat j)%Z <$> seq 0 bs, w).

(** Two requests are prefilled and decoded three times: the ring goes round. *)
Definition decoding : list (Planned (Meta := unit)) :=
  [MkPlanned [Known 5; Known 7] 2 tt;
   MkPlanned [Future 0 0; Future 0 1] 2 tt; MkPlanned [Future 1 0; Future 1 1] 2 tt; MkPlanned [Future 2 0; Future 2 1] 2 tt]%Z.

Fixpoint run_threads (moves : list nat) (s : Threads (Meta := unit) (Model := Z)) : Threads (Meta := unit) (Model := Z) :=
  match moves, s with
  | 0 :: moves, MkThreads (p :: todo) fs c rs =>
      let '(fut, c) := forward_batch_generation (submit fs p) c in run_threads moves (MkThreads todo (fs ++ [fut]) c rs)
  | 1 :: moves, MkThreads todo fs c rs =>
      match forward_thread_turn adder c with Some (Ok c) => run_threads moves (MkThreads todo fs c rs) | _ => s end
  | _ :: moves, MkThreads todo fs c rs =>
      match resolve_last_batch_result c with Some (out, c) => run_threads moves (MkThreads todo fs c (rs ++ [out])) | None => s end
  | [], _ => s
  end.

Definition overlapped (plan : list (Planned (Meta := unit))) (moves : list nat) : Threads (Meta := unit) (Model := Z) :=
  run_threads moves (MkThreads plan [] (new_TpModelWorkerClient 2 [] 0%Z) []).

(** The next batch is submitted before the last one has run. *)
Definition ahead : list nat := [0; 0; 1; 0; 2; 1; 0; 2; 1; 2; 1; 2].

Lemma adder_size ids bs m w : length (adder ids bs m w).1 = bs.
Proof. unfold adder. cbn. by rewrite length_fmap, length_seq. Qed.

Lemma run_threads_steps moves s : ∃ n, nsteps (thread_step adder) n s (run_threads moves s).
Proof.
  revert s. induction moves as [|m moves IH]; intros [todo fs c rs]; [exists 0; apply nsteps_O|].
  destruct m as [|[|m]]; cbn [run_threads].
  - destruct todo as [|p todo]; cbn [run_threads].
    + destruct resolve_last_batch_result as [[out c']|] eqn:E; [|exists 0; apply nsteps_O].
      destruct (IH (MkThreads [] fs c' (rs ++ [out]))) as [n Hn]. exists (S n). by eapply nsteps_l, Hn; apply step_result.
    + destruct (forward_batch_generation (submit fs p) c) as [fut c'] eqn:E.
      destruct (IH (MkThreads todo (fs ++ [fut]) c' rs)) as [n Hn]. exists (S n). by eapply nsteps_l, Hn; apply step_submit.
  - destruct (forward_thread_turn adder c) as [[c'|e]|] eqn:E; [|exists 0; apply nsteps_O..].
    destruct (IH (MkThreads todo fs c' rs)) as [n Hn]. exists (S n). by eapply nsteps_l, Hn; apply step_forward.
  - destruct resolve_last_batch_result as [[out c']|] eqn:E; [|exists 0; apply nsteps_O].
    destruct (IH (MkThreads todo fs c' (rs ++ [out]))) as [n Hn]. exists (S n). by eapply nsteps_l, Hn; apply step_result.
Qed.

Example decoding_ok : plan_ok 2 decoding.
Proof.
  apply recent_futures. intros k p Ep. destruct k as [|[|[|[|k]]]]; try discriminate; injection Ep as <-;
    (split; [cbn; lia|]); intros t Ht; cbn in Ht; repeat (apply elem_of_cons in Ht as [->|Ht]); try (by apply elem_of_nil in Ht);
    cbn; try lia; (split; [lia|eexists; split; [reflexivity|cbn; lia]]).
Qed.

Example overlap_is_sequential_witness :
  results (overlapped decoding ahead) = (sequential adder decoding 0%Z).1 ∧
  results (overlapped decoding ahead) = [[12; 13]; [37; 38]; [112; 113]; [337; 338]]%Z.
Proof.
  split; [|vm_compute; reflexivity].
  destruct (run_threads_steps ahead (MkThreads decoding [] (new_TpModelWorkerClient 2 [] 0%Z) [])) as [n Hn].
  eapply (overlap_is_sequential adder 2 decoding 0%Z [] n (overlapped decoding ahead)).
  - apply adder_size.
  - lia.
  - apply decoding_ok.
  - exact Hn.
  - intros s' Hs. apply steps_left_step in Hs.
    assert (steps_left (overlapped decoding ahead) = 0) as E by (vm_compute; reflexivity). lia.
Defined.

(** A request waits with its placeholder while a long prompt is prefilled in six chunks, with
    one request in each batch: the last chunk takes the place of its token. *)
Definition chunks : list (Planned (Meta := unit)) :=
  MkPlanned [Known 5%Z] 1 tt :: replicate 6 (MkPlanned [Known 100%Z] 1 tt) ++ [MkPlanned [Future 0 0; Future 6 0] 2 tt].

Example waiting_token_overwritten :
  results (overlapped chunks [0;1;2; 0;1;2; 0;1;2; 0;1;2; 0;1;2; 0;1;2; 0;1;2; 0;1;2]) =
    [[5]; [105]; [205]; [305]; [405]; [505]; [605]; [1815; 1816]]%Z ∧
  (sequential adder chunks 0%Z).1 = [[5]; [105]; [205]; [305]; [405]; [505]; [605]; [1215; 1216]]%Z.
Proof. split; vm_compute; reflexivity. Qed.
