(* ===== verification/RWLock.v ===== *)
(** * The reader-writer lock of the tokenizer manager

    [src/python/sglang/srt/aio_rwlock.py]. The tasks of one event loop share an [RWLock]. The
    only suspension inside a critical section is [Condition.wait], which gives the lock up, so
    the state changes in atomic segments: from the start of a call, or from a wakeup, to the
    next wait or to the end of the call. A step of the relation is one such segment of one
    task, or the cancellation of a task that waits. *)

From S2P Require Import Prelude.

Record RWLock := MkLock { readers : Z; writer_active : bool; waiting_writers : Z }.

Definition new_RWLock : RWLock := MkLock 0 false 0.

(** A waiting task is notified or not; a notified one tests its condition again. *)
Inductive pc := Out | ReaderWaiting (notified : bool) | Reading | WriterWaiting (notified : bool) | Writing.

#[export] Instance pc_eq_dec : EqDecision pc.
Proof. solve_decision. Defined.

Definition wake (c : pc) : pc :=
  match c with ReaderWaiting _ => ReaderWaiting true | WriterWaiting _ => WriterWaiting true | _ => c end.

(** [self._cond.notify_all()]. *)
Definition notify_all (ts : list pc) : list pc := wake <$> ts.

(** ** The segments of the four calls *)

(** [acquire_reader] from its start or from a wakeup: the loop's test, then the entry. *)
Definition acquire_reader (l : RWLock) : RWLock * pc :=
  if writer_active l || bool_decide (0 < waiting_writers l)%Z then (l, ReaderWaiting false)
  else (MkLock (readers l + 1) (writer_active l) (waiting_writers l), Reading).

Definition release_reader (l : RWLock) (ts : list pc) : RWLock * list pc :=
  let l := MkLock (readers l - 1) (writer_active l) (waiting_writers l) in
  (l, if bool_decide (readers l = 0)%Z then notify_all ts else ts).

(** The loop of [acquire_writer]; leaving it runs the [finally] block. *)
Definition acquire_writer_loop (l : RWLock) : RWLock * pc :=
  if writer_active l || bool_decide (0 < readers l)%Z then (l, WriterWaiting false)
  else (MkLock (readers l) true (waiting_writers l - 1), Writing).

Definition acquire_writer (l : RWLock) : RWLock * pc :=
  acquire_writer_loop (MkLock (readers l) (writer_active l) (waiting_writers l + 1)).

Definition release_writer (l : RWLock) (ts : list pc) : RWLock * list pc :=
  (MkLock (readers l) false (waiting_writers l), notify_all ts).

(** Cancellation of a waiting task: a writer's [finally] block runs, a reader just leaves. *)
Definition cancel_waiting (c : pc) (l : RWLock) : RWLock :=
  match c with
  | WriterWaiting _ => MkLock (readers l) (writer_active l) (waiting_writers l - 1)
  | _ => l
  end.

(** ** Runs *)

Definition system : Type := RWLock * list pc.

Inductive label := Enter | Retry | Release | CancelReader | CancelWriter.

Inductive step (i : nat) : label → system → system → Prop :=
  | step_enter_reader l ts l' c : ts !! i = Some Out → acquire_reader l = (l', c) →
      step i Enter (l, ts) (l', <[i := c]> ts)
  | step_enter_writer l ts l' c : ts !! i = Some Out → acquire_writer l = (l', c) →
      step i Enter (l, ts) (l', <[i := c]> ts)
  | step_retry_reader l ts l' c : ts !! i = Some (ReaderWaiting true) → acquire_reader l = (l', c) →
      step i Retry (l, ts) (l', <[i := c]> ts)
  | step_retry_writer l ts l' c : ts !! i = Some (WriterWaiting true) → acquire_writer_loop l = (l', c) →
      step i Retry (l, ts) (l', <[i := c]> ts)
  | step_release_reader l ts : ts !! i = Some Reading →
      step i Release (l, ts) (release_reader l (<[i := Out]> ts))
  | step_release_writer l ts : ts !! i = Some Writing →
      step i Release (l, ts) (release_writer l (<[i := Out]> ts))
  | step_cancel_reader l ts b : ts !! i = Some (ReaderWaiting b) →
      step i CancelReader (l, ts) (cancel_waiting (ReaderWaiting b) l, <[i := Out]> ts)
  | step_cancel_writer l ts b : ts !! i = Some (WriterWaiting b) →
      step i CancelWriter (l, ts) (cancel_waiting (WriterWaiting b) l, <[i := Out]> ts).

(** The runs of [n] tasks; [cancels] says whether waiting writers may be cancelled. *)
Inductive reach (cancels : bool) (n : nat) : system → Prop :=
  | reach_start : reach cancels n (new_RWLock, replicate n Out)
  | reach_step i a s s' : reach cancels n s → step i a s s' → (a = CancelWriter → cancels = true) →
      reach cancels n s'.

(** ** Counting tasks *)

Definition count (P : pc → bool) (ts : list pc) : Z := zsum (λ c, if P c then 1 else 0)%Z ts.

Lemma count_insert P ts i c c' : ts !! i = Some c →
  count P (<[i := c']> ts) = (count P ts - (if P c then 1 else 0) + (if P c' then 1 else 0))%Z.
Proof.
  intros Hi. rewrite insert_take_drop by by eapply lookup_lt_Some.
  rewrite <- (take_drop_middle ts i c Hi) at 3. unfold count. rewrite !zsum_app. simpl. lia.
Qed.

Lemma count_wake P ts : (∀ c, P (wake c) = P c) → count P (notify_all ts) = count P ts.
Proof. intros HP. unfold count. induction ts as [|c ts IH]; [done|]. simpl in *. by rewrite HP, IH. Qed.

Lemma count_nonneg P ts : (0 ≤ count P ts)%Z.
Proof. apply zsum_nonneg. intros c _. destruct (P c); lia. Qed.

Lemma count_pos P ts : (0 < count P ts)%Z ↔ ∃ i c, ts !! i = Some c ∧ P c = true.
Proof.
  split.
  - induction ts as [|c ts IH]; [done|]. intros Hc. destruct (P c) eqn:E; [by exists 0, c|].
    destruct IH as (i & c' & Hi & Hc'); [unfold count in *; simpl in Hc; rewrite E in Hc; lia|].
    by exists (S i), c'.
  - intros (i & c & Hi & Hc). unfold count.
    pose proof (zsum_elem_le (λ c, if P c then 1 else 0)%Z ts c) as Hle. simpl in Hle. rewrite Hc in Hle.
    enough (1 ≤ zsum (λ c, if P c then 1 else 0) ts)%Z by lia.
    apply Hle; [|by eapply list_elem_of_lookup_2]. intros y _. destruct (P y); lia.
Qed.

Definition is_reading (c : pc) : bool := match c with Reading => true | _ => false end.
Definition is_writing (c : pc) : bool := match c with Writing => true | _ => false end.
Definition is_writer_waiting (c : pc) : bool := match c with WriterWaiting _ => true | _ => false end.

(** ** The state of the lock and its tasks agree *)

Record lock_ok (s : system) : Prop := {
  lk_readers : readers s.1 = count is_reading s.2;
  lk_writer : count is_writing s.2 = (if writer_active s.1 then 1 else 0)%Z;
  lk_waiting : waiting_writers s.1 = count is_writer_waiting s.2;
  lk_excl : writer_active s.1 = true → readers s.1 = 0%Z
}.

(** The fields of [lock_ok] after the task [i] of [Hi] has moved. *)
Ltac lock_fields Hi :=
  split; cbn [fst snd readers writer_active waiting_writers];
  repeat match goal with E : writer_active _ = _ |- _ => rewrite E in *; clear E end; try done;
  try case_bool_decide; rewrite ?count_wake by (by intros []);
  rewrite ?(count_insert _ _ _ _ _ Hi) in *; simpl; lia || done.

(** A step moves one task and may wake the others. *)
Lemma lock_ok_step i a s s' : lock_ok s → step i a s s' → lock_ok s'.
Proof.
  intros [HR HW HQ HE] Hs.
  assert (Hn : ∀ P, (0 ≤ count P s.2)%Z) by (intros; apply count_nonneg).
  pose proof (Hn is_reading) as N1. pose proof (Hn is_writer_waiting) as N2. clear Hn.
  destruct Hs as [l ts l' c Hi E|l ts l' c Hi E|l ts l' c Hi E|l ts l' c Hi E|l ts Hi|l ts Hi|l ts b Hi|l ts b Hi];
    cbn [fst snd] in *.
  1, 3: unfold acquire_reader in E; destruct (writer_active l) eqn:Ew; simpl in E; [|case_bool_decide];
    simplify_eq; lock_fields Hi.
  1, 2: unfold acquire_writer, acquire_writer_loop in E; cbn [readers writer_active waiting_writers] in E;
    destruct (writer_active l) eqn:Ew; simpl in E; [|case_bool_decide]; simplify_eq; lock_fields Hi.
  - assert (Hpos : (0 < count is_reading ts)%Z) by (apply count_pos; by exists i, Reading).
    destruct (writer_active l) eqn:Ew; [specialize (HE eq_refl); lia|].
    unfold release_reader. cbn [readers]. lock_fields Hi.
  - assert (Hpos : (0 < count is_writing ts)%Z) by (apply count_pos; by exists i, Writing).
    destruct (writer_active l) eqn:Ew; [|lia]. unfold release_writer. lock_fields Hi.
  - simpl. lock_fields Hi.
  - simpl. lock_fields Hi.
Qed.

Lemma lock_reach_ok cancels n s : reach cancels n s → lock_ok s.
Proof.
  induction 1 as [|i a s s' _ IH Hs _]; [|by eapply lock_ok_step].
  assert (Hz : ∀ P, P Out = false → count P (replicate n Out) = 0%Z).
  { intros P HP. unfold count. induction n as [|m IH]; [done|]. simpl. by rewrite HP, IH. }
  split; cbn [fst snd]; rewrite ?Hz; done.
Qed.

(** ** No wakeup is lost while no writer is cancelled *)

(** A task that waits without a notification has a holder, or a writer before it, to wait for. *)
Record wakeups_ok (s : system) : Prop := {
  wk_writer i : s.2 !! i = Some (WriterWaiting false) → writer_active s.1 = true ∨ (0 < readers s.1)%Z;
  wk_reader i : s.2 !! i = Some (ReaderWaiting false) → writer_active s.1 = true ∨ (0 < waiting_writers s.1)%Z
}.

Lemma notified ts i c : notify_all ts !! i = Some c → c ≠ ReaderWaiting false ∧ c ≠ WriterWaiting false.
Proof. intros Hc. apply list_lookup_fmap_Some in Hc as ([] & -> & _); done. Qed.

(** The task [j] that waits in the state after the task [i] moved to [c]. *)
Ltac moved :=
  match goal with
  | H : <[?i := _]> _ !! ?j = Some _ |- _ =>
      apply list_lookup_insert_Some in H as [(-> & H & _)|[? H]]
  end.

Lemma wakeups_step i a s s' : lock_ok s → wakeups_ok s → step i a s s' → a ≠ CancelWriter → wakeups_ok s'.
Proof.
  intros LK [WW WR] Hs Ha. pose proof (lk_waiting _ LK) as HQ. pose proof (count_nonneg is_writer_waiting s.2) as NQ.
  pose proof (lk_readers _ LK) as HR. pose proof (count_nonneg is_reading s.2) as NR.
  destruct Hs as [l ts l' c Hi E|l ts l' c Hi E|l ts l' c Hi E|l ts l' c Hi E|l ts Hi|l ts Hi|l ts b Hi|l ts b Hi];
    cbn [fst snd] in *; [| | | | | | |done].
  1, 3: unfold acquire_reader in E; destruct (writer_active l) eqn:Ew; simpl in E; [|case_bool_decide]; simplify_eq;
    split; cbn [fst snd readers writer_active waiting_writers]; intros j Hj; moved; simplify_eq; rewrite ?Ew; auto;
    destruct (WW j Hj) || destruct (WR j Hj); auto with lia.
  1, 2: unfold acquire_writer, acquire_writer_loop in E; cbn [readers writer_active waiting_writers] in E;
    destruct (writer_active l) eqn:Ew; simpl in E; [|case_bool_decide]; simplify_eq;
    split; cbn [fst snd readers writer_active waiting_writers]; intros j Hj; moved; simplify_eq; rewrite ?Ew; auto;
    destruct (WW j Hj) || destruct (WR j Hj); auto with lia.
  - unfold release_reader. cbn [readers].
    assert (Hpos : (0 < count is_reading ts)%Z) by (apply count_pos; by exists i, Reading).
    split; cbn [fst snd readers writer_active waiting_writers]; intros j Hj; (case_bool_decide;
      [by apply notified in Hj as [? ?]|]); moved; simplify_eq; [|by eapply WR]. right. lia.
  - unfold release_writer. split; cbn [fst snd]; intros j Hj; by apply notified in Hj as [? ?].
  - split; cbn [fst snd cancel_waiting]; intros j Hj; moved; simplify_eq; eauto.
Qed.

Lemma wakeups_reach n s : reach false n s → wakeups_ok s.
Proof.
  induction 1 as [|i a s s' R IH Hs Ha].
  - split; cbn [snd]; intros i Hi; by apply lookup_replicate in Hi as [? _].
  - eapply wakeups_step; [by eapply lock_reach_ok|done|done|]. intros ->. by specialize (Ha eq_refl).
Qed.

(** ** The properties *)

Lemma count_two P ts i j c c' : ts !! i = Some c → ts !! j = Some c' → P c = true → P c' = true → P Out = false →
  i ≠ j → (2 ≤ count P ts)%Z.
Proof.
  intros Hi Hj Hc Hc' Ho Hne. pose proof (count_insert P ts i c Out Hi) as E. rewrite Hc, Ho in E.
  enough (0 < count P (<[i := Out]> ts))%Z by lia. apply count_pos. exists j, c'.
  by rewrite list_lookup_insert_ne.
Qed.

(** C37: the reader-writer lock, whatever the interleaving and whoever is cancelled while it
    waits: its counters are the numbers of reading and of waiting tasks, at most one task
    writes, nobody reads while a task writes, and a task enters as a reader only when no
    writer waits. *)
Theorem rwlock_exclusion cancels n l ts : reach cancels n (l, ts) →
  readers l = count is_reading ts ∧ waiting_writers l = count is_writer_waiting ts ∧
  (∀ i j, ts !! i = Some Writing → ts !! j = Some Writing → i = j) ∧
  (∀ i j, ts !! i = Some Writing → ts !! j = Some Reading → False) ∧
  ∀ i a s', step i a (l, ts) s' → ts !! i ≠ Some Reading → s'.2 !! i = Some Reading →
    ∀ j b, ts !! j ≠ Some (WriterWaiting b).
Proof.
  intros R. destruct (lock_reach_ok _ _ _ R) as [HR HW HQ HE]. cbn [fst snd] in *. split_and!; [done..| | |].
  - intros i j Hi Hj. destruct (decide (i = j)) as [|Hne]; [done|].
    pose proof (count_two is_writing ts i j _ _ Hi Hj eq_refl eq_refl eq_refl Hne). destruct (writer_active l); lia.
  - intros i j Hi Hj. assert (Hw : (0 < count is_writing ts)%Z) by (apply count_pos; by exists i, Writing).
    assert (Hr : (0 < count is_reading ts)%Z) by (apply count_pos; by exists j, Reading).
    destruct (writer_active l); [specialize (HE eq_refl)|]; lia.
  - intros i a s' Hs Hn Hr j b Hj.
    assert (Hq : (0 < count is_writer_waiting ts)%Z) by (apply count_pos; by exists j, (WriterWaiting b)).
    inversion Hs as [? ? l' c Hi E|? ? l' c Hi E|? ? l' c Hi E|? ? l' c Hi E|? ? Hi|? ? Hi|? ? ? Hi|? ? ? Hi];
      subst; cbn [snd] in Hr; try done.
    1, 3: unfold acquire_reader in E; rewrite (bool_decide_eq_true_2 (0 < waiting_writers l)%Z), orb_true_r in E by lia;
      simplify_eq; rewrite list_lookup_insert_eq in Hr by (by eapply lookup_lt_Some); done.
    1, 2: unfold acquire_writer, acquire_writer_loop in E; destruct (_ || _) in E; simplify_eq;
      rewrite list_lookup_insert_eq in Hr by (by eapply lookup_lt_Some); done.
    + unfold release_writer, notify_all in Hr. cbn [snd] in Hr. apply list_lookup_fmap_Some in Hr as (c & E & Hc).
      rewrite list_lookup_insert_eq in Hc by (by eapply lookup_lt_Some). by simplify_eq.
    + rewrite list_lookup_insert_eq in Hr by (by eapply lookup_lt_Some). done.
    + rewrite list_lookup_insert_eq in Hr by (by eapply lookup_lt_Some). done.
Qed.

Definition waits (c : pc) : Prop := ∃ b, c = ReaderWaiting b ∨ c = WriterWaiting b.

(** C38: as long as no waiting writer is cancelled no wakeup is lost: whenever a task waits,
    either some task holds the lock (and will notify the others when it leaves), or a
    notified task obtains the lock by testing its condition again. *)
Theorem rwlock_progress n l ts i c : reach false n (l, ts) → ts !! i = Some c → waits c →
  (∃ j, ts !! j = Some Reading ∨ ts !! j = Some Writing) ∨
  ∃ j s', step j Retry (l, ts) s' ∧ (s'.2 !! j = Some Reading ∨ s'.2 !! j = Some Writing).
Proof.
  intros R Hi Hc. destruct (lock_reach_ok _ _ _ R) as [HR HW HQ _]. destruct (wakeups_reach _ _ R) as [WW WR].
  cbn [fst snd] in *. pose proof (count_nonneg is_reading ts). pose proof (count_nonneg is_writer_waiting ts).
  destruct (decide (0 < readers l)%Z) as [Hr|Hr].
  { left. rewrite HR in Hr. apply count_pos in Hr as (j & c' & Hj & Hc'). exists j. left. by destruct c'. }
  destruct (writer_active l) eqn:Ew.
  { left. assert (Hw : (0 < count is_writing ts)%Z) by lia. apply count_pos in Hw as (j & c' & Hj & Hc').
    exists j. right. by destruct c'. }
  right. destruct (decide (0 < waiting_writers l)%Z) as [Hq|Hq].
  - rewrite HQ in Hq. apply count_pos in Hq as (j & c' & Hj & Hc'). destruct c' as [| | |b|]; try done.
    destruct b; [|destruct (WW j Hj); [done|lia]].
    assert (E : acquire_writer_loop l = (MkLock (readers l) true (waiting_writers l - 1), Writing)).
    { unfold acquire_writer_loop. rewrite Ew. simpl. by rewrite bool_decide_eq_false_2 by lia. }
    eexists j, _. split; [by eapply step_retry_writer|]. right.
    cbn [snd]. by rewrite list_lookup_insert_eq by (by eapply lookup_lt_Some).
  - destruct Hc as [b [->| ->]].
    + destruct b; [|destruct (WR i Hi); [done|lia]].
      assert (E : acquire_reader l = (MkLock (readers l + 1) (writer_active l) (waiting_writers l), Reading)).
      { unfold acquire_reader. rewrite Ew. simpl. by rewrite bool_decide_eq_false_2 by lia. }
      eexists i, _. split; [by eapply step_retry_reader|]. left.
      cbn [snd]. by rewrite list_lookup_insert_eq by (by eapply lookup_lt_Some).
    + assert (0 < count is_writer_waiting ts)%Z by (apply count_pos; by exists i, (WriterWaiting b)). lia.
Qed.

(** ** Instances *)

(** The state before the last step of a run. *)
Ltac before i a s rule := apply (reach_step _ _ i a s); [|exact rule|done].

(** Task 0 reads, task 1 waits to write, task 0 leaves and notifies it. *)
Lemma ex_handover : reach false 2 (MkLock 0 false 1, [Out; WriterWaiting true]).
Proof.
  before 0 Release (MkLock 1 false 1, [Reading; WriterWaiting false]) (step_release_reader 0 (MkLock 1 false 1) [Reading; WriterWaiting false] eq_refl).
  before 1 Enter (MkLock 1 false 0, [Reading; Out]) (step_enter_writer 1 (MkLock 1 false 0) [Reading; Out] _ _ eq_refl eq_refl).
  before 0 Enter (new_RWLock, [Out; Out]) (step_enter_reader 0 (new_RWLock) [Out; Out] _ _ eq_refl eq_refl).
  constructor.
Qed.

Lemma rwlock_exclusion_witness : reach false 2 (MkLock 0 false 1, [Out; WriterWaiting true]) ∧
  (waiting_writers (MkLock 0 false 1) = count is_writer_waiting [Out; WriterWaiting true]).
Proof. destruct (rwlock_exclusion false 2 _ _ ex_handover) as (_ & H & _). split; [exact ex_handover|exact H]. Defined.

Lemma rwlock_progress_witness : ∃ j s', step j Retry (MkLock 0 false 1, [Out; WriterWaiting true]) s'.
Proof.
  destruct (rwlock_progress 2 _ _ 1 _ ex_handover eq_refl) as [[[|[|j]] [H|H]]|(j & s' & H & _)]; try done.
  - exists true. by right.
  - by exists j, s'.
Defined.

(** A writer that is cancelled after it was notified takes the wakeup with it: a reader that
    had given way to it waits although nobody holds the lock, and only a new call could
    wake it. *)
Theorem rwlock_lost_wakeup : ∃ s, reach true 3 s ∧ s.2 !! 2 = Some (ReaderWaiting false) ∧
  s.1 = new_RWLock ∧ ∀ i a s', step i a s s' → a = Enter ∨ a = CancelReader.
Proof.
  exists (new_RWLock, [Out; Out; ReaderWaiting false]). split_and!; [|done|done|].
  - before 1 CancelWriter (MkLock 0 false 1, [Out; WriterWaiting true; ReaderWaiting false]) (step_cancel_writer 1 (MkLock 0 false 1) [Out; WriterWaiting true; ReaderWaiting false] true eq_refl).
    before 2 Retry (MkLock 0 false 1, [Out; WriterWaiting true; ReaderWaiting true]) (step_retry_reader 2 (MkLock 0 false 1) [Out; WriterWaiting true; ReaderWaiting true] _ _ eq_refl eq_refl).
    before 0 Release (MkLock 1 false 1, [Reading; WriterWaiting false; ReaderWaiting false]) (step_release_reader 0 (MkLock 1 false 1) [Reading; WriterWaiting false; ReaderWaiting false] eq_refl).
    before 2 Enter (MkLock 1 false 1, [Reading; WriterWaiting false; Out]) (step_enter_reader 2 (MkLock 1 false 1) [Reading; WriterWaiting false; Out] _ _ eq_refl eq_refl).
    before 1 Enter (MkLock 1 false 0, [Reading; Out; Out]) (step_enter_writer 1 (MkLock 1 false 0) [Reading; Out; Out] _ _ eq_refl eq_refl).
    before 0 Enter (new_RWLock, [Out; Out; Out]) (step_enter_reader 0 (new_RWLock) [Out; Out; Out] _ _ eq_refl eq_refl).
    constructor.
  - intros i a s' Hs. inversion Hs; subst; try (by left); try (by right);
      by destruct i as [|[|[|[]]]].
Qed.
