(* ===== verification/Reasoning.v ===== *)
(** * Reasoning models

    [src/python/sglang/srt/reasoning_parser.py]: separating the reasoning of a model from its
    answer, at once or chunk by chunk; and
    [src/python/sglang/srt/constrained/reasoner_grammar_backend.py]: a grammar that only
    constrains the answer. *)

From S2P Require Import Prelude PyStr.

(** ** [class BaseReasoningFormatDetector] *)

Record Parsed := MkParsed { normal_text : pystr; reasoning_text : pystr }.

Definition nothing : Parsed := MkParsed [] [].

Record Detector := MkDetector {
  think_start_token : pystr;
  think_end_token : pystr;
  _in_reasoning : bool;
  stream_reasoning : bool;
  _buffer : pystr;
  stripped_think_start : bool
}.

Definition new_Detector (start_token end_token : pystr) (force stream : bool) : Detector :=
  MkDetector start_token end_token force stream [] false.

Definition DeepSeekR1Detector (stream : bool) : Detector := new_Detector (s2z "<think>") (s2z "</think>") true stream.
Definition Qwen3Detector (stream : bool) : Detector := new_Detector (s2z "<think>") (s2z "</think>") true stream.

(** [DetectorMap.get(model_type.lower())], on the name in lower case. *)
Definition new_ReasoningParser (model_type : string) (stream : bool) : result Detector :=
  if bool_decide (model_type = ""%string) then Raise (ValueError "Model type must be specified")
  else if bool_decide (model_type = "deepseek-r1"%string) then Ok (DeepSeekR1Detector stream)
  else if bool_decide (model_type = "qwen3"%string) then Ok (Qwen3Detector stream)
  else Raise (ValueError ("Unsupported model type: " ++ model_type)).

Definition detect_and_parse (d : Detector) (text : pystr) : Parsed :=
  let text := strip (replace text (think_start_token d) []) in
  match split1 text (think_end_token d) with
  | [r; t] => MkParsed (strip t) r
  | _ => MkParsed [] text
  end.

Definition parse_streaming_increment (new_text : pystr) (d : Detector) : Parsed * Detector :=
  let buffer := _buffer d ++ new_text in
  let strip_now := negb (stripped_think_start d) && str_in (think_start_token d) buffer in
  let current_text := if strip_now then replace buffer (think_start_token d) [] else buffer in
  let stripped := stripped_think_start d || strip_now in
  let set b i := MkDetector (think_start_token d) (think_end_token d) i (stream_reasoning d) b stripped in
  if _in_reasoning d then
    match find current_text (think_end_token d) with
    | Some end_idx =>
        (MkParsed (drop (end_idx + length (think_end_token d)) current_text) (rstrip (take end_idx current_text)),
         set [] false)
    | None =>
        if stream_reasoning d then (MkParsed [] current_text, set [] true)
        else (nothing, set buffer true)
    end
  else (MkParsed new_text [], set [] false).

(** [parse_stream_chunk] on chunk after chunk: all the normal and all the reasoning text. *)
Fixpoint parse_stream (chunks : list pystr) (d : Detector) : Parsed * Detector :=
  match chunks with
  | [] => (nothing, d)
  | c :: chunks =>
      let '(r, d) := parse_streaming_increment c d in
      let '(r', d) := parse_stream chunks d in
      (MkParsed (normal_text r ++ normal_text r') (reasoning_text r ++ reasoning_text r'), d)
  end.

(** ** [class ReasonerGrammarObject] *)

(** What a grammar offers to the sampling of one request. *)
Class GrammarObject (G : Type) := {
  accept_token : Z → G → result G;
  is_terminated : G → bool;
  fill_vocab_mask : G → list bool → list bool
}.

Section reasoner.
Context {G : Type} `{GrammarObject G}.

Record ReasonerGrammarObject := MkReasoner { grammar : G; think_end_id : Z; is_in_reasoning : bool }.

Definition new_ReasonerGrammarObject (g : G) (id : Z) : ReasonerGrammarObject := MkReasoner g id true.

Definition reasoner_accept_token (token : Z) (r : ReasonerGrammarObject) : result ReasonerGrammarObject :=
  let thinking := is_in_reasoning r && negb (bool_decide (token = think_end_id r)) in
  if negb thinking && negb (bool_decide (token = think_end_id r)) then
    g ← accept_token token (grammar r); Ok (MkReasoner g (think_end_id r) thinking)
  else Ok (MkReasoner (grammar r) (think_end_id r) thinking).

Definition reasoner_fill_vocab_mask (r : ReasonerGrammarObject) (mask : list bool) : list bool :=
  if is_in_reasoning r then mask else fill_vocab_mask (grammar r) mask.

(** Inherited from [BaseGrammarObject], which the class does not override. *)
Definition reasoner_is_terminated (r : ReasonerGrammarObject) : bool := false.

#[local] Instance reasoner_grammar : GrammarObject ReasonerGrammarObject := {|
  accept_token := reasoner_accept_token;
  is_terminated := reasoner_is_terminated;
  fill_vocab_mask := reasoner_fill_vocab_mask
|}.

Fixpoint accept_tokens {T} `{GrammarObject T} (ts : list Z) (g : T) : result T :=
  match ts with
  | [] => Ok g
  | t :: ts => g ← accept_token t g; accept_tokens ts g
  end.

(** The tokens of the answer: those after the first end of the reasoning, without the token
    that ends it. *)
Fixpoint answer (id : Z) (ts : list Z) : list Z :=
  match ts with
  | [] => []
  | t :: ts => if bool_decide (t = id) then filter (λ t, t ≠ id) ts else answer id ts
  end.

Lemma accept_answering ts g id : accept_tokens ts (MkReasoner g id false) =
  (g' ← accept_tokens (filter (λ t, t ≠ id) ts) g; Ok (MkReasoner g' id false)).
Proof.
  revert g. induction ts as [|t ts IH]; intros g; [done|].
  cbn [accept_tokens accept_token reasoner_grammar]. unfold reasoner_accept_token.
  cbn [is_in_reasoning grammar think_end_id andb negb]. rewrite filter_cons. case_bool_decide as Ht; cbn [negb].
  - rewrite decide_False by auto. cbn [mbind result_bind]. apply IH.
  - rewrite decide_True by done. cbn [accept_tokens]. destruct (accept_token t g) as [g'|e]; [|done].
    cbn [mbind result_bind]. apply IH.
Qed.

(** C40: a reasoner grammar fed with any tokens has passed exactly the tokens of the answer to
    the grammar it wraps (those after the first end of the reasoning, never the end token
    itself): it fails iff the wrapped grammar rejects them, and it restricts the vocabulary,
    the way the wrapped grammar does after these tokens, exactly when the reasoning is
    over. *)
Theorem reasoner_grammar_correct ts (g : G) id :
  match accept_tokens ts (new_ReasonerGrammarObject g id), accept_tokens (answer id ts) g with
  | Ok r, Ok g' => grammar r = g' ∧ is_in_reasoning r = negb (bool_decide (id ∈ ts)) ∧
      ∀ mask, fill_vocab_mask r mask = if bool_decide (id ∈ ts) then fill_vocab_mask g' mask else mask
  | Raise e, Raise e' => e = e'
  | _, _ => False
  end.
Proof.
  induction ts as [|t ts IH]; [by split_and!|].
  cbn [accept_tokens answer accept_token reasoner_grammar]. unfold reasoner_accept_token, new_ReasonerGrammarObject in *.
  cbn [is_in_reasoning grammar think_end_id andb].
  destruct (bool_decide (t = id)) eqn:Ht; cbn [negb andb mbind result_bind];
    [apply bool_decide_eq_true in Ht as ->|apply bool_decide_eq_false in Ht].
  - rewrite accept_answering. destruct (accept_tokens (filter _ ts) g) as [g'|e]; [|done]. cbn [mbind result_bind].
    rewrite bool_decide_eq_true_2 by set_solver. by split_and!.
  - destruct (accept_tokens ts _) as [r|e], (accept_tokens (answer id ts) g) as [g'|e']; try done.
    destruct IH as (H1 & H2 & H3). rewrite (bool_decide_ext (id ∈ t :: ts) (id ∈ ts)) by set_solver. by split_and!.
Qed.

(** Termination of the wrapped grammar is never reported. *)
Lemma reasoner_never_terminated (r : ReasonerGrammarObject) : is_terminated r = false.
Proof. done. Qed.
End reasoner.

(** ** Facts on strings *)

Lemma find_intro s sub i : sub `prefix_of` drop i s → (∀ j, j < i → ¬ sub `prefix_of` drop j s) → find s sub = Some i.
Proof.
  intros Hp Hmin. destruct (find s sub) as [k|] eqn:E.
  - destruct (find_Some _ _ _ E) as (Hk & _ & Hk'). f_equal.
    destruct (lt_eq_lt_dec k i) as [[Hlt| ->]|Hlt]; [|done|]; exfalso; [by eapply Hmin|by eapply Hk'].
  - exfalso. by eapply (proj1 (find_None s sub) E).
Qed.

Lemma find_app_none s sub : find s sub = None → replace s sub [] = s.
Proof. intros E. unfold replace. destruct (length s); simpl; [done|]. by rewrite E. Qed.

Lemma lstrip_app a c b : is_space c = false → lstrip (a ++ c :: b) = lstrip a ++ c :: b.
Proof. intros Hc. induction a as [|x a IH]; simpl; [by rewrite Hc|]. destruct (is_space x); [done|done]. Qed.

Lemma rstrip_app a c b : is_space c = false → rstrip (a ++ c :: b) = a ++ c :: rstrip b.
Proof.
  intros Hc. unfold rstrip. rewrite reverse_app, reverse_cons, <- app_assoc. simpl. rewrite lstrip_app by done.
  rewrite reverse_app, reverse_cons, reverse_involutive, <- app_assoc. done.
Qed.

Lemma lstrip_drop a : lstrip a = drop (length a - length (lstrip a)) a.
Proof.
  assert (Hl : ∀ a, length (lstrip a) ≤ length a).
  { clear. intros a. induction a as [|x a IH]; simpl; [done|]. destruct (is_space x); simpl; lia. }
  induction a as [|x a IH]; [done|]. cbn [lstrip]. destruct (is_space x).
  - cbn [length]. rewrite Nat.sub_succ_l by apply Hl. exact IH.
  - by rewrite Nat.sub_diag.
Qed.

Lemma lstrip_cases s : (∀ x, x ∈ s → is_space x = true) ∨
  ∃ u c v, s = u ++ c :: v ∧ is_space c = false ∧ ∀ x, x ∈ u → is_space x = true.
Proof.
  induction s as [|x s IH]; [left; by intros ? ?%elem_of_nil|].
  destruct (is_space x) eqn:E; [|right; exists [], x, s; split_and!; [done..|by intros ? ?%elem_of_nil]].
  destruct IH as [H|(u & c & v & -> & Hc & Hu)].
  - left. intros y [->|Hy]%elem_of_cons; auto.
  - right. exists (x :: u), c, v. split_and!; [done..|]. intros y [->|Hy]%elem_of_cons; auto.
Qed.

Lemma lstrip_spaces s : (∀ x, x ∈ s → is_space x = true) → lstrip s = [].
Proof.
  induction s as [|x s IH]; intros Hs; [done|]. simpl. rewrite Hs by left. apply IH. intros y Hy. apply Hs. by right.
Qed.

Lemma rstrip_spaces s : (∀ x, x ∈ s → is_space x = true) → rstrip s = [].
Proof. intros Hs. unfold rstrip. rewrite lstrip_spaces; [done|]. intros x Hx. apply Hs. by apply elem_of_reverse. Qed.

Lemma lstrip_idem s : lstrip (lstrip s) = lstrip s.
Proof. induction s as [|x s IH]; [done|]. simpl. destruct (is_space x) eqn:E; [done|]. simpl. by rewrite E. Qed.

Lemma strip_rstrip s : strip (rstrip s) = strip s.
Proof.
  unfold strip. destruct (lstrip_cases s) as [Hs|(u & c & v & -> & Hc & Hu)].
  - by rewrite (rstrip_spaces s), (lstrip_spaces s) by done.
  - rewrite rstrip_app, !lstrip_app, (lstrip_spaces u) by done. cbn [app].
    assert (Hr : ∀ b, rstrip (c :: b) = c :: rstrip b) by (intros b; exact (rstrip_app [] c b Hc)).
    rewrite !Hr. unfold rstrip. by rewrite reverse_involutive, lstrip_idem.
Qed.

(** A token without white space at its ends, such as [</think>]. *)
Definition tight (t : pystr) : Prop :=
  ∃ x y m, is_space x = false ∧ is_space y = false ∧ (t = x :: m ++ [y] ∨ t = [x] ∧ x = y).

Lemma strip_around a t b : tight t → strip (a ++ t ++ b) = lstrip a ++ t ++ rstrip b.
Proof.
  intros (x & y & m & Hx & Hy & [-> |[-> ->]]); unfold strip; simpl.
  - rewrite lstrip_app by done. rewrite <- app_assoc. simpl.
    change (lstrip a ++ x :: m ++ y :: b) with (lstrip a ++ (x :: m) ++ y :: b).
    rewrite app_assoc, rstrip_app by done. by rewrite <- !app_assoc.
  - rewrite lstrip_app, rstrip_app by done. done.
Qed.

Lemma find_around a t b : t ≠ [] → tight t → find (a ++ t ++ b) t = Some (length a) →
  find (lstrip a ++ t ++ rstrip b) t = Some (length (lstrip a)).
Proof.
  intros Hne Ht Hf. destruct (find_Some _ _ _ Hf) as (_ & _ & Hmin). apply find_intro.
  - rewrite drop_app_length. by apply prefix_app_r.
  - intros j Hj Hp. set (k := length a - length (lstrip a)).
    assert (Ha : lstrip a = drop k a) by apply lstrip_drop.
    assert (Hk : length (lstrip a) = length a - k) by (by rewrite Ha, length_drop at 1).
    apply (Hmin (k + j)); [lia|]. apply prefix_take in Hp. rewrite Ha in Hp.
    rewrite drop_app_le in Hp |- * by (rewrite ?length_drop; lia). rewrite drop_drop in Hp.
    rewrite !app_assoc in Hp |- *. rewrite take_app_le in Hp by (rewrite length_app; lia).
    rewrite Hp at 1. apply prefix_app_r, take_prefix_of.
Qed.

(** Chunk by chunk after the end of the reasoning: everything is normal text. *)
Lemma stream_answer chunks : ∀ d, _in_reasoning d = false →
  (parse_stream chunks d).1 = MkParsed (concat chunks) [].
Proof.
  induction chunks as [|c chunks IH]; intros d Hd; [done|]. cbn [parse_stream]. unfold parse_streaming_increment.
  rewrite Hd. cbv zeta. destruct (parse_stream chunks _) as [r' d'] eqn:E.
  pose proof (f_equal fst E) as E'. rewrite IH in E' by done. simpl in E'. by subst r'.
Qed.

(** Occurrences in a part of a text are occurrences in the text. *)
Lemma find_part sub u s v : sub ≠ [] → find (u ++ s ++ v) sub = None → find s sub = None.
Proof.
  intros Hne H. apply str_in_false. destruct (str_in sub s) eqn:E; [|done].
  apply str_in_true in E as (a & b & ->). apply str_in_false in H.
  rewrite (proj2 (str_in_true sub _)) in H; [done|]. exists (u ++ a), (b ++ v). by rewrite <- !app_assoc.
Qed.

(** What comes before the first occurrence has none. *)
Lemma find_before sub u v n : find (u ++ v) sub = Some n → length u ≤ n → sub ≠ [] → find u sub = None.
Proof.
  intros H Hl Hne. apply find_None. intros j Hj. destruct (find_Some _ _ _ H) as (_ & _ & Hmin).
  assert (Hju : j < length u).
  { apply prefix_length in Hj. rewrite length_drop in Hj. destruct sub; [done|]. cbn in Hj. lia. }
  apply (Hmin j ltac:(lia)). rewrite drop_app_le by lia. etrans; [exact Hj|]. by apply prefix_app_r.
Qed.

Lemma find_shift sub u s n : find (u ++ s) sub = Some (length u + n) → find s sub = Some n.
Proof.
  intros H. destruct (find_Some _ _ _ H) as (Hp & _ & Hmin). apply find_intro.
  - by rewrite <- drop_drop, drop_app_length in Hp.
  - intros j Hj Hp'. apply (Hmin (length u + j)); [lia|]. by rewrite <- drop_drop, drop_app_length.
Qed.

Lemma replace_lead st s : st ≠ [] → find s st = None → replace (st ++ s) st [] = s.
Proof.
  intros Hne Hs. unfold replace. rewrite length_app. destruct (length st + length s) as [|f] eqn:E.
  { destruct st; [done|]. cbn in E. lia. }
  cbn [replace_fuel]. assert (find (st ++ s) st = Some 0) as ->.
  { apply find_intro; [rewrite drop_0; by apply prefix_app_r|lia]. }
  rewrite take_0, Nat.add_0_l, drop_app_length. cbn [app]. destruct f; cbn [replace_fuel]; [done|]. by rewrite Hs.
Qed.

(** ** Streaming against parsing at once *)

Section stream.
Context (st en : pystr) (Hst : st ≠ []) (Hen : en ≠ []).
Notation detector sr buf sp := (MkDetector st en true sr buf sp).

(** No start token is removed: it was before, or there is none. *)
Definition kept (sp : bool) (s : pystr) : Prop := sp = true ∨ find s st = None.

Lemma not_stripped sp s : kept sp s → negb sp && str_in st s = false.
Proof. intros [->|H]; [done|]. by rewrite (proj2 (str_in_false st s) H), andb_false_r. Qed.

(** A chunk without an end token: reasoning, which is sent or kept. *)
Lemma think_chunk sr buf sp c : kept sp (buf ++ c) → find (buf ++ c) en = None →
  parse_streaming_increment c (detector sr buf sp) =
  (if sr then MkParsed [] (buf ++ c) else nothing, detector sr (if sr then [] else buf ++ c) sp).
Proof.
  intros Hk He. unfold parse_streaming_increment.
  cbn [_buffer think_start_token think_end_token stripped_think_start _in_reasoning stream_reasoning].
  rewrite (not_stripped sp _ Hk), orb_false_r, He. by destruct sr.
Qed.

(** The first chunk of a text that begins with the start token. *)
Lemma lead_chunk sr c : find c st = None → find c en = None →
  parse_streaming_increment (st ++ c) (detector sr [] false) =
  (if sr then MkParsed [] c else nothing, detector sr (if sr then [] else st ++ c) true).
Proof.
  intros Hs He. unfold parse_streaming_increment.
  cbn [_buffer think_start_token think_end_token stripped_think_start _in_reasoning stream_reasoning app].
  rewrite (proj2 (str_in_true st (st ++ c))) by (by exists [], c). cbn [negb andb orb].
  rewrite replace_lead, He by done. by destruct sr.
Qed.

Lemma end_chunk sr buf sp a b : kept sp (buf ++ a ++ en ++ b) → find (buf ++ a ++ en ++ b) en = Some (length (buf ++ a)) →
  parse_streaming_increment (a ++ en ++ b) (detector sr buf sp) =
  (MkParsed b (rstrip (buf ++ a)), MkDetector st en false sr [] sp).
Proof.
  intros Hk He. unfold parse_streaming_increment.
  cbn [_buffer think_start_token think_end_token stripped_think_start _in_reasoning stream_reasoning].
  rewrite (not_stripped sp _ Hk), orb_false_r, He. rewrite app_assoc, take_app_length.
  rewrite app_assoc, <- length_app, drop_app_length. done.
Qed.

Lemma lead_end_chunk sr a b : find (a ++ en ++ b) st = None → find (a ++ en ++ b) en = Some (length a) →
  parse_streaming_increment (st ++ a ++ en ++ b) (detector sr [] false) =
  (MkParsed b (rstrip a), MkDetector st en false sr [] true).
Proof.
  intros Hs He. unfold parse_streaming_increment.
  cbn [_buffer think_start_token think_end_token stripped_think_start _in_reasoning stream_reasoning app].
  rewrite (proj2 (str_in_true st (st ++ a ++ en ++ b))) by (by exists [], (a ++ en ++ b)). cbn [negb andb orb].
  rewrite replace_lead, He by done. rewrite take_app_length. by rewrite app_assoc, <- length_app, drop_app_length.
Qed.

(** The chunks up to the one with the end token, and the rest, from a state in the middle. *)
Lemma stream_rest sr cs a b cs2 : ∀ buf sp, (sr = true → buf = []) → kept sp (buf ++ concat cs ++ a ++ en ++ b) →
  find (buf ++ concat cs ++ a ++ en ++ b) en = Some (length (buf ++ concat cs ++ a)) →
  (parse_stream (cs ++ (a ++ en ++ b) :: cs2) (detector sr buf sp)).1 =
  MkParsed (b ++ concat cs2) (if sr then concat cs ++ rstrip a else rstrip (buf ++ concat cs ++ a)).
Proof.
  induction cs as [|c cs IH]; intros buf sp Hbuf Hk He.
  - cbn [app concat parse_stream] in *. rewrite (end_chunk sr buf sp a b Hk He).
    pose proof (stream_answer cs2 (MkDetector st en false sr [] sp) eq_refl) as E.
    destruct (parse_stream cs2 _) as [r' d']. cbn [fst] in *. subst r'. cbn [normal_text reasoning_text]. rewrite app_nil_r.
    destruct sr; [|done]. by rewrite (Hbuf eq_refl).
  - cbn [app concat parse_stream] in *. rewrite <- app_assoc in Hk, He. rewrite (app_assoc buf) in Hk, He.
    assert (Hk1 : kept sp (buf ++ c)).
    { destruct Hk as [?|Hk]; [by left|right]. by apply (find_part st [] (buf ++ c) (concat cs ++ a ++ en ++ b)). }
    assert (He1 : find (buf ++ c) en = None).
    { eapply find_before; [exact He|rewrite !length_app; lia|done]. }
    rewrite (think_chunk sr buf sp c Hk1 He1).
    specialize (IH (if sr then [] else buf ++ c) sp). destruct sr.
    + rewrite (Hbuf eq_refl) in *. cbn [app] in *. destruct (parse_stream _ (detector true [] sp)) as [r d] eqn:E. cbn [fst] in *.
      rewrite IH; [cbn [normal_text reasoning_text app]; by rewrite app_assoc|done| |].
      * destruct Hk as [?|Hk]; [by left|right]. apply (find_part st c _ []); [done|]. by rewrite app_nil_r.
      * apply (find_shift en c). rewrite He. f_equal. rewrite !length_app. lia.
    + destruct (parse_stream _ (detector false (buf ++ c) sp)) as [r d] eqn:E. cbn [fst] in *.
      rewrite IH; [cbn [normal_text reasoning_text app nothing]; by rewrite <- !app_assoc|done|done|].
      rewrite He. f_equal. rewrite !length_app. lia.
Qed.

(** [lead] before the first chunk. *)
Definition lead_on (lead : pystr) (chunks : list pystr) : list pystr :=
  match chunks with [] => [] | c :: chunks => (lead ++ c) :: chunks end.

Lemma concat_lead_on lead chunks : chunks ≠ [] → concat (lead_on lead chunks) = lead ++ concat chunks.
Proof. destruct chunks; [done|]. intros _. cbn. by rewrite <- app_assoc. Qed.

Lemma stream_lead sr cs1 a b cs2 : find (concat cs1 ++ a ++ en ++ b) st = None →
  find (st ++ concat cs1 ++ a ++ en ++ b) en = Some (length (st ++ concat cs1 ++ a)) →
  (parse_stream (lead_on st (cs1 ++ (a ++ en ++ b) :: cs2)) (detector sr [] false)).1 =
  MkParsed (b ++ concat cs2) (if sr then concat cs1 ++ rstrip a
    else rstrip ((if decide (cs1 = []) then [] else st) ++ concat cs1 ++ a)).
Proof.
  intros Hs He. assert (Hb : find (concat cs1 ++ a ++ en ++ b) en = Some (length (concat cs1 ++ a))).
  { apply (find_shift en st). rewrite He. by rewrite length_app. }
  destruct cs1 as [|c cs].
  - cbn [app concat lead_on parse_stream] in *. rewrite (lead_end_chunk sr a b Hs Hb).
    pose proof (stream_answer cs2 (MkDetector st en false sr [] true) eq_refl) as E.
    destruct (parse_stream cs2 _) as [r' d']. cbn [fst] in *. subst r'. cbn [normal_text reasoning_text]. rewrite app_nil_r.
    by destruct sr.
  - cbn [app concat lead_on parse_stream] in *. rewrite <- app_assoc in Hs, He, Hb.
    rewrite (lead_chunk sr c); [|by eapply (find_part st [] c)|eapply find_before; [exact Hb|rewrite !length_app; lia|done]].
    assert (Hrest : find (concat cs ++ a ++ en ++ b) en = Some (length (concat cs ++ a))).
    { apply (find_shift en c). rewrite Hb. f_equal. rewrite !length_app. lia. }
    destruct sr.
    + pose proof (stream_rest true cs a b cs2 [] true (λ _, eq_refl) (or_introl eq_refl) Hrest) as E.
      destruct (parse_stream _ (detector true [] true)) as [r d]. cbn [fst] in *. rewrite E.
      cbn [normal_text reasoning_text app]. by rewrite app_assoc.
    + pose proof (stream_rest false cs a b cs2 (st ++ c) true ltac:(done) (or_introl eq_refl)) as E.
      rewrite <- app_assoc in E. specialize (E ltac:(rewrite He; f_equal; rewrite !length_app; lia)).
      destruct (parse_stream _ (detector false (st ++ c) true)) as [r d]. cbn [fst] in *. rewrite E.
      cbn [normal_text reasoning_text app nothing]. by rewrite <- !app_assoc.
Qed.
End stream.

(** C39: a text begins with the start token, wholly in its first chunk, or not, and has no other
    start token; its first end token lies within one chunk. Then streaming separates what parsing at once separates, up to white
    space: whatever else the chunks are, the text before the end token is the reasoning and the
    text after it the answer. Streamed, the reasoning keeps the space before it and loses that
    at its end only in the chunk of the end token; held back until the end
    ([stream_reasoning=False]) it loses all the space at its end; at once it loses that at its
    beginning. In one case the two ways disagree: when the reasoning is held back and the end
    token does not come with the first chunk, a start token at the beginning stays in it. *)
Theorem reasoning_stream_agrees st en (starts stream : bool) cs1 a b cs2 : en ≠ [] → tight en →
  let lead := if starts then st else [] in
  let chunks := cs1 ++ (a ++ en ++ b) :: cs2 in
  find (concat chunks) st = None → find (lead ++ concat chunks) en = Some (length (lead ++ concat cs1 ++ a)) →
  let d := new_Detector st en true stream in
  let streamed := (parse_stream (lead_on lead chunks) d).1 in
  let once := detect_and_parse d (lead ++ concat chunks) in
  let stays := if decide (starts = true ∧ stream = false ∧ cs1 ≠ []) then st else [] in
  normal_text streamed = b ++ concat cs2 ∧
  reasoning_text streamed = (if stream then concat cs1 ++ rstrip a else rstrip (stays ++ concat cs1 ++ a)) ∧
  normal_text once = strip (b ++ concat cs2) ∧ reasoning_text once = lstrip (concat cs1 ++ a).
Proof.
  intros Hne Htight lead chunks Hs He d streamed once stays.
  assert (Hst : st ≠ []) by (intros ->; by destruct (concat chunks)).
  assert (Et : concat chunks = concat cs1 ++ a ++ en ++ b ++ concat cs2).
  { unfold chunks. rewrite concat_app. cbn [concat]. by rewrite <- !app_assoc. }
  assert (Hb : find (concat chunks) en = Some (length (concat cs1 ++ a))).
  { apply (find_shift en lead). rewrite He. by rewrite length_app. }
  assert (Hs1 : find (concat cs1 ++ a ++ en ++ b) st = None).
  { rewrite Et in Hs. eapply (find_part st [] _ (concat cs2)); [done|]. cbn [app]. by rewrite <- !app_assoc. }
  assert (Hcut : ∀ u, find (u ++ concat chunks) en = Some (length (u ++ concat cs1 ++ a)) →
    find (u ++ concat cs1 ++ a ++ en ++ b) en = Some (length (u ++ concat cs1 ++ a))).
  { intros u Hu. destruct (find_Some _ _ _ Hu) as (_ & _ & Hmin). apply find_intro.
    - rewrite !app_assoc, <- (app_assoc _ en b), drop_app_length. by apply prefix_app_r.
    - intros j Hj Hp. apply (Hmin j Hj). rewrite Et. replace (u ++ concat cs1 ++ a ++ en ++ b ++ concat cs2)
        with ((u ++ concat cs1 ++ a ++ en ++ b) ++ concat cs2) by by rewrite <- !app_assoc.
      rewrite drop_app_le by (rewrite !length_app in *; lia). etrans; [exact Hp|]. by apply prefix_app_r. }
  assert (Hstream : streamed = MkParsed (b ++ concat cs2) (if stream then concat cs1 ++ rstrip a else rstrip (stays ++ concat cs1 ++ a))).
  { unfold streamed, d, new_Detector. destruct starts; cbn [app lead] in *.
    - etrans; [exact (stream_lead st en Hst Hne stream cs1 a b cs2 Hs1 (Hcut st He))|]. unfold stays.
      destruct stream; [done|]. do 3 f_equal. destruct (decide (cs1 = [])) as [->|Hc]; [by rewrite decide_False by naive_solver|by rewrite decide_True].
    - replace (lead_on lead chunks) with chunks by by destruct cs1.
      etrans; [exact (stream_rest st en Hst Hne stream cs1 a b cs2 [] false (λ _, eq_refl) (or_intror Hs1) (Hcut [] Hb))|].
      unfold stays. by rewrite (decide_False (P := false = true ∧ _)) by naive_solver. }
  assert (Honce : once = MkParsed (strip (b ++ concat cs2)) (lstrip (concat cs1 ++ a))).
  { unfold once, detect_and_parse. cbn [d new_Detector think_start_token think_end_token].
    assert (replace (lead ++ concat chunks) st [] = concat chunks) as ->.
    { unfold lead. destruct starts; [by apply replace_lead|by apply find_app_none]. }
    rewrite Et in *. rewrite (app_assoc _ a) in *. rewrite strip_around by done.
    unfold split1. rewrite find_around by done. rewrite take_app_length.
    rewrite app_assoc, <- length_app, drop_app_length. by rewrite strip_rstrip. }
  by rewrite Hstream, Honce.
Qed.

(** ** Instances *)

Lemma tight_think : tight (s2z "</think>").
Proof. by exists 60%Z, 62%Z, (s2z "/think"); split_and!; [..|left]. Qed.

(** With a start token, streamed and held back. *)
Lemma reasoning_stream_agrees_witness :
  ((parse_stream [s2z "<think> ab"; s2z "c </think>d"; s2z "e"] (DeepSeekR1Detector true)).1 =
    MkParsed (s2z "de") (s2z " abc") ∧
   detect_and_parse (DeepSeekR1Detector true) (s2z "<think> abc </think>de") = MkParsed (s2z "de") (s2z "abc ")) ∧
  reasoning_text (parse_stream [s2z "<think> ab"; s2z "c </think>d"; s2z "e"] (DeepSeekR1Detector false)).1 = s2z "<think> abc".
Proof.
  destruct (reasoning_stream_agrees (s2z "<think>") (s2z "</think>") true true [s2z " ab"] (s2z "c ") (s2z "d") [s2z "e"]
    ltac:(done) tight_think) as (H1 & H2 & H3 & H4); [by vm_compute..|].
  destruct (reasoning_stream_agrees (s2z "<think>") (s2z "</think>") true false [s2z " ab"] (s2z "c ") (s2z "d") [s2z "e"]
    ltac:(done) tight_think) as (_ & H5 & _); [by vm_compute..|].
  split; [|etrans; [exact H5|by vm_compute]].
  split; (etrans; [|by vm_compute]).
  - etrans; [|exact (f_equal2 MkParsed H1 H2)]. by vm_compute.
  - etrans; [|exact (f_equal2 MkParsed H3 H4)]. by vm_compute.
Defined.

(** A token that straddles two chunks is missed, and the answer is taken for reasoning. *)
Lemma straddling_token_missed :
  (parse_stream [s2z "ab</thi"; s2z "nk>c"] (DeepSeekR1Detector true)).1 = MkParsed [] (s2z "ab</think>c").
Proof. by vm_compute. Qed.

(** A start token that straddles two chunks, or comes a second time, stays in the streamed
    reasoning; at once every start token is removed. *)
Lemma start_token_stays :
  reasoning_text (parse_stream [s2z "<thi"; s2z "nk>a"; s2z "b</think>c"] (DeepSeekR1Detector true)).1 = s2z "<think>ab" ∧
  reasoning_text (parse_stream [s2z "<think>a"; s2z "<think>b</think>c"] (DeepSeekR1Detector true)).1 = s2z "a<think>b" ∧
  reasoning_text (detect_and_parse (DeepSeekR1Detector true) (s2z "<think>a<think>b</think>c")) = s2z "ab".
Proof. by vm_compute. Qed.

(** Without streaming of the reasoning, a start token that came in an earlier chunk than the
    end token is not removed: only the local copy of the buffer is stripped, and only once. *)
Lemma accumulated_start_token :
  (parse_stream [s2z "<think>ab"; s2z "</think>c"] (DeepSeekR1Detector false)).1 =
    MkParsed (s2z "c") (s2z "<think>ab") ∧
  (parse_stream [s2z "<think>ab</think>c"] (DeepSeekR1Detector false)).1 = MkParsed (s2z "c") (s2z "ab").
Proof. by vm_compute. Qed.
