(* ===== verification/EPLB.v ===== *)
(** * The expert-parallelism load balancer

    [src/python/sglang/srt/managers/eplb_algorithms/deepseek.py]: packing expert groups to
    nodes and experts to GPUs, replicating the experts with most load, and the maps between
    logical and physical experts. Tensors are lists of rows; an operation on the last
    dimension works row by row. The weights are the elements of an ordered type with a sum
    and a division by a count, of which the theorems use what they name; [torch]'s sort and
    maximum are parameters. *)

From S2P Require Import Prelude PySort.

Open Scope nat_scope.

(** ** Tensors of indices *)

Definition out_of_bounds : exn := RuntimeError "index out of bounds".

Definition zget {A} (l : list A) (i : Z) : result A :=
  if bool_decide (0 ≤ i)%Z then match l !! Z.to_nat i with Some x => Ok x | None => Raise out_of_bounds end
  else Raise out_of_bounds.

Definition zset {A} (i : Z) (x : A) (l : list A) : result (list A) :=
  if bool_decide (0 ≤ i < Z.of_nat (length l))%Z then Ok (<[Z.to_nat i := x]> l) else Raise out_of_bounds.

(** [map] over a row, with errors. *)
Fixpoint rmap {A B} (f : A → result B) (l : list A) : result (list B) :=
  match l with
  | [] => Ok []
  | x :: l => y ← f x; ys ← rmap f l; Ok (y :: ys)
  end.

(** [t.gather(-1, index)] and [t.scatter_(-1, index, src)] on one row. *)
Definition gather {A} (l : list A) (index : list Z) : result (list A) := rmap (zget l) index.

Fixpoint scatter {A} (index : list Z) (src : list A) (l : list A) : result (list A) :=
  match index, src with
  | i :: index, x :: src => l ← zset i x l; scatter index src l
  | _, _ => Ok l
  end.

(** [torch.arange(n)] and the rows of a view of [k] columns. *)
Definition aranges (n : nat) : list Z := Z.of_nat <$> seq 0 n.
Definition rows_of {A} (n k : nat) (l : list A) : list (list A) := (λ i, take k (drop (i * k) l)) <$> seq 0 n.

(** [assert a % b == 0] before [a // b]. *)
Definition exact_div (a b : nat) : result nat :=
  if bool_decide (b = 0) then Raise ZeroDivisionError
  else if bool_decide (a `mod` b = 0) then Ok (a / b) else Raise AssertionError.

Section eplb.
Context {F : Type} (fzero : F) (fadd : F → F → F) (fdiv : F → Z → F) (fltb : F → F → bool).
(** [sort(descending=True).indices], [max(dim=-1).indices], and memory before it is written. *)
Context (argsort : list F → list Z) (argmax : list F → Z) (uninit : nat → Z).

(** ** [balanced_packing] *)

(** [min(..., key=...)] over the packs with room: the first of the lightest. *)
Definition lighter (room : nat) (best : option (nat * F)) (x : nat * (F * Z)) : option (nat * F) :=
  let '(p, (w, k)) := x in
  if bool_decide (k < Z.of_nat room)%Z then
    match best with
    | None => Some (p, w)
    | Some (q, v) => if fltb w v then Some (p, w) else best
    end
  else best.

Definition lightest (room : nat) (pack_weights : list F) (pack_items : list Z) : option nat :=
  fst <$> foldl (lighter room) None (zip (seq 0 (length pack_items)) (zip pack_weights pack_items)).

Record Packing := MkPacking {
  pack_index : list Z;
  rank_in_pack : list Z;
  pack_weights : list F;
  pack_items : list Z
}.

(** One turn of the inner loop. *)
Definition pack_group (room : nat) (weight : list F) (group : Z) (s : Packing) : result Packing :=
  match lightest room (pack_weights s) (pack_items s) with
  | None => Raise (ValueError "min() arg is an empty sequence")
  | Some pack =>
      k ← zget (pack_items s) (Z.of_nat pack);
      if bool_decide (k < Z.of_nat room)%Z then
        w ← zget (pack_weights s) (Z.of_nat pack);
        x ← zget weight group;
        index ← zset group (Z.of_nat pack) (pack_index s);
        rank ← zset group k (rank_in_pack s);
        Ok (MkPacking index rank (<[pack := fadd w x]> (pack_weights s)) (<[pack := (k + 1)%Z]> (pack_items s)))
      else Raise AssertionError
  end.

Fixpoint pack_groups (room : nat) (weight : list F) (groups : list Z) (s : Packing) : result Packing :=
  match groups with
  | [] => Ok s
  | g :: groups => s ← pack_group room weight g s; pack_groups room weight groups s
  end.

(** One row of [balanced_packing]: the pack of each item and its rank there. *)
Definition balanced_packing (weight : list F) (num_packs : nat) : result (list Z * list Z) :=
  let n := length weight in
  room ← exact_div n num_packs;
  if bool_decide (room = 1) then Ok (aranges n, replicate n 0%Z)
  else
    s ← pack_groups room weight (argsort weight)
          (MkPacking (replicate n (-1)%Z) (replicate n (-1)%Z) (replicate num_packs fzero) (replicate num_packs 0%Z));
    Ok (pack_index s, rank_in_pack s).

(** ** [replicate_experts] *)

Record Replicas := MkReplicas { phy2log : list Z; rank : list Z; logcnt : list Z }.

Definition loads (weight : list F) (cnt : list Z) : list F := zip_with fdiv weight cnt.

Definition replicate_one (weight : list F) (i : nat) (s : Replicas) : result Replicas :=
  let e := argmax (loads weight (logcnt s)) in
  k ← zget (logcnt s) e;
  cnt ← zset e (k + 1)%Z (logcnt s);
  Ok (MkReplicas (<[i := e]> (phy2log s)) (<[i := k]> (rank s)) cnt).

Fixpoint replicate_loop (weight : list F) (is_ : list nat) (s : Replicas) : result Replicas :=
  match is_ with
  | [] => Ok s
  | i :: is_ => s ← replicate_one weight i s; replicate_loop weight is_ s
  end.

Definition replicate_experts (weight : list F) (num_phy : nat) : result Replicas :=
  let num_log := length weight in
  if bool_decide (num_phy < num_log) then Raise AssertionError
  else replicate_loop weight (seq num_log (num_phy - num_log))
         (MkReplicas (aranges num_phy) (replicate num_phy 0%Z) (replicate num_log 1%Z)).

(** ** [rebalance_experts] *)

Definition inverse (perm : list Z) : result (list Z) :=
  scatter perm (aranges (length perm)) (uninit <$> seq 0 (length perm)).

Definition fsum (l : list F) : F := foldl fadd fzero l.

(** [((group_pack_index * groups_per_node + group_rank_in_pack) * group_size).unsqueeze(-1)
    + arange(group_size)], flattened. *)
Definition log_to_mlog (groups_per_node group_size : nat) (packs ranks : list Z) : list Z :=
  concat (zip_with (λ p r, (λ j, (p * Z.of_nat groups_per_node + r) * Z.of_nat group_size + j)%Z <$> aranges group_size)
            packs ranks).

(** Steps 2 and 3 for one node, with the first expert [base] of the node: the expert (in the
    order of [mlog]) and the rank at each place of the node, and the number of replicas. *)
Definition balance_node (phy_per_node gpus_per_node phy_experts_per_gpu : nat) (base : Z) (tokens_per_mlog : list F)
    : result (list Z * list Z * list Z) :=
  s ← replicate_experts tokens_per_mlog phy_per_node;
  tokens_per_phy ← gather (loads tokens_per_mlog (logcnt s)) (phy2log s);
  '(index, ranks) ← balanced_packing tokens_per_phy gpus_per_node;
  pphy2phy ← inverse (zip_with (λ p r, p * Z.of_nat phy_experts_per_gpu + r)%Z index ranks);
  pphy2mlog ← gather (phy2log s) pphy2phy;
  pphyrank ← gather (rank s) pphy2phy;
  Ok ((λ e, base + e)%Z <$> (pphy2mlog : list Z), pphyrank, logcnt s).

Fixpoint balance_nodes (phy_per_node gpus_per_node phy_experts_per_gpu : nat) (log_per_node : nat) (node : nat)
    (rows : list (list F)) : result (list Z * list Z * list Z) :=
  match rows with
  | [] => Ok ([], [], [])
  | row :: rows =>
      '(m, r, c) ← balance_node phy_per_node gpus_per_node phy_experts_per_gpu (Z.of_nat (node * log_per_node)) row;
      '(m', r', c') ← balance_nodes phy_per_node gpus_per_node phy_experts_per_gpu log_per_node (S node) rows;
      Ok (m ++ m', r ++ r', c ++ c')
  end.

(** One layer of [rebalance_experts_hierarchical]: the maps [pphy2log], [pphyrank] and
    [logcnt]. *)
Definition rebalance_experts_hierarchical (weight : list F) (num_physical_experts num_groups num_nodes num_gpus : nat)
    : result (list Z * list Z * list Z) :=
  let num_logical_experts := length weight in
  group_size ← exact_div num_logical_experts num_groups;
  groups_per_node ← exact_div num_groups num_nodes;
  gpus_per_node ← exact_div num_gpus num_nodes;
  phy_experts_per_gpu ← exact_div num_physical_experts num_gpus;
  let tokens_per_group := fsum <$> rows_of num_groups group_size weight in
  '(packs, ranks) ← balanced_packing tokens_per_group num_nodes;
  let log2mlog := log_to_mlog groups_per_node group_size packs ranks in
  mlog2log ← inverse log2mlog;
  tokens ← gather weight mlog2log;
  let log_per_node := num_logical_experts / num_nodes in
  '(pphy2mlog, pphyrank, mlogcnt) ← balance_nodes (num_physical_experts / num_nodes) gpus_per_node
      phy_experts_per_gpu log_per_node 0 (rows_of num_nodes log_per_node tokens);
  pphy2log ← gather mlog2log pphy2mlog;
  logcnt ← gather mlogcnt log2mlog;
  Ok (pphy2log, pphyrank, logcnt).

(** The entry point: [log2phy] has for each layer and expert [maxlogcnt] places, -1 where the
    expert has no more replicas. *)
Definition rebalance_experts (weight : list (list F)) (num_replicas num_groups num_nodes num_gpus : nat)
    (enable_hierarchical : bool) : result (list (list Z) * list (list Z) * list (list Z)) :=
  maps ← rmap (λ w, if enable_hierarchical
                    then rebalance_experts_hierarchical w num_replicas num_groups num_nodes num_gpus
                    else rebalance_experts_hierarchical w num_replicas 1 1 num_gpus) weight;
  if bool_decide (concat (snd <$> maps) = []) then Raise (RuntimeError "max(): expected a non-empty tensor") else
  let maxlogcnt := foldl Z.max 0%Z (concat (snd <$> maps)) in
  log2phy ← rmap (λ '(p2l, r, c),
    scatter (zip_with (λ e k, e * maxlogcnt + k)%Z p2l r) (aranges num_replicas)
      (replicate (length c * Z.to_nat maxlogcnt) (-1)%Z)) maps;
  Ok ((λ m, m.1.1) <$> maps, log2phy, snd <$> maps).
End eplb.

(** ** Indices that are in range *)

Lemma zget_nat {A} (l : list A) i x : l !! i = Some x → zget l (Z.of_nat i) = Ok x.
Proof. intros Hi. unfold zget. by rewrite bool_decide_eq_true_2, Nat2Z.id, Hi by lia. Qed.

Lemma zset_nat {A} (l : list A) i x : i < length l → zset (Z.of_nat i) x l = Ok (<[i := x]> l).
Proof. intros Hi. unfold zset. by rewrite bool_decide_eq_true_2, Nat2Z.id by lia. Qed.

Lemma gather_ok {A} (l : list A) (ks : list nat) : (∀ i, i ∈ ks → i < length l) →
  ∃ ys, gather l (Z.of_nat <$> ks) = Ok ys ∧ length ys = length ks ∧ ∀ k i, ks !! k = Some i → ys !! k = l !! i.
Proof.
  unfold gather. induction ks as [|i ks IH]; intros Hin; [by exists []|]. rewrite fmap_cons. cbn [rmap].
  destruct (lookup_lt_is_Some_2 l i) as [x Hx]; [apply Hin; left|].
  destruct IH as (ys & E & Hl & Hk); [intros j Hj; apply Hin; by right|].
  rewrite (zget_nat l i x Hx). cbn [mbind result_bind]. rewrite E. exists (x :: ys). split; [done|]. split; [simpl; lia|].
  intros [|k] j Hj; simplify_eq/=; [done|by apply Hk].
Qed.

Lemma scatter_ok {A} (ks : list nat) : ∀ (src l : list A), NoDup ks → length src = length ks →
  (∀ i, i ∈ ks → i < length l) →
  ∃ l', scatter (Z.of_nat <$> ks) src l = Ok l' ∧ length l' = length l ∧
    (∀ k i, ks !! k = Some i → l' !! i = src !! k) ∧ ∀ i, i ∉ ks → l' !! i = l !! i.
Proof.
  induction ks as [|i ks IH]; intros [|x src] l Hnd Hl Hin; try done.
  { exists l. split_and!; [done..|by intros k i Hk; rewrite lookup_nil in Hk|done]. }
  apply NoDup_cons in Hnd as [Hi Hnd]. rewrite fmap_cons. cbn [scatter].
  rewrite zset_nat by (apply Hin; left). cbn [mbind result_bind].
  destruct (IH src (<[i := x]> l)) as (l' & E & Hl' & Hk & Ho); [done|by simplify_eq/=| |].
  { intros j Hj. rewrite length_insert. apply Hin. by right. }
  exists l'. rewrite length_insert in Hl'. split_and!; [done|done| |].
  - intros [|k] j Hj; simplify_eq/=; [|by apply Hk]. rewrite Ho by done.
    apply list_lookup_insert_eq. apply Hin. left.
  - intros j [Hne Hj]%not_elem_of_cons. rewrite Ho by done. by apply list_lookup_insert_ne.
Qed.

Lemma aranges_lookup n i x : aranges n !! i = Some x ↔ i < n ∧ x = Z.of_nat i.
Proof.
  unfold aranges. rewrite list_lookup_fmap. split.
  - intros (j & Hj & ->)%fmap_Some. apply lookup_seq in Hj as [-> Hj]. done.
  - intros [Hi ->]. by rewrite lookup_seq_lt.
Qed.

Lemma inverse_ok (uninit : nat → Z) (ks : list nat) n : ks ≡ₚ seq 0 n →
  ∃ inv : list nat, inverse uninit (Z.of_nat <$> ks) = Ok (Z.of_nat <$> inv) ∧ length inv = n ∧
    ∀ k i, ks !! k = Some i ↔ inv !! i = Some k.
Proof.
  intros Hp. pose proof (Permutation_length Hp) as Hlen. rewrite length_seq in Hlen.
  assert (Hnd : NoDup ks) by (rewrite Hp; apply NoDup_seq).
  assert (Hin : ∀ i, i ∈ ks ↔ i < n) by (intros i; rewrite Hp, elem_of_seq; lia).
  unfold inverse. rewrite length_fmap, Hlen.
  destruct (scatter_ok ks (aranges n) (uninit <$> seq 0 n) Hnd) as (l' & E & Hl & Hk & _).
  { unfold aranges. by rewrite length_fmap, length_seq. }
  { intros i Hi. rewrite length_fmap, length_seq. by apply Hin. }
  rewrite length_fmap, length_seq in Hl.
  exists (Z.to_nat <$> l'). split; [|split; [by rewrite length_fmap|]].
  - rewrite E. f_equal. apply list_eq. intros i. rewrite !list_lookup_fmap.
    destruct (l' !! i) as [x|] eqn:Hx; simpl; [|done]. f_equal.
    assert (i ∈ ks) as [k Hki]%list_elem_of_lookup by (apply Hin; apply lookup_lt_Some in Hx; lia).
    rewrite (Hk _ _ Hki) in Hx. apply aranges_lookup in Hx as [_ ->]. lia.
  - intros k i. rewrite list_lookup_fmap. split.
    + intros Hki. rewrite (Hk _ _ Hki). pose proof (lookup_lt_Some _ _ _ Hki).
      rewrite (proj2 (aranges_lookup n k (Z.of_nat k))) by (split; [lia|done]). simpl. f_equal. lia.
    + intros (x & Hx & ->)%fmap_Some.
      assert (i ∈ ks) as [k Hki]%list_elem_of_lookup by (apply Hin; apply lookup_lt_Some in Hx; lia).
      rewrite (Hk _ _ Hki) in Hx. apply aranges_lookup in Hx as [_ ->]. by rewrite Nat2Z.id.
Qed.

(** A list of [n] different numbers below [n] is a permutation. *)
Lemma perm_seq (ks : list nat) n : NoDup ks → length ks = n → (∀ k, k ∈ ks → k < n) → ks ≡ₚ seq 0 n.
Proof.
  intros Hnd Hl Hk. apply NoDup_Permutation_bis; [by apply NoDup_ListNoDup|rewrite length_seq; lia|].
  intros k Hin%list_elem_of_In. apply list_elem_of_In, elem_of_seq. specialize (Hk k Hin). lia.
Qed.

Lemma exact_div_ok a b : b ≠ 0 → exact_div (b * a) b = Ok a.
Proof.
  intros Hb. unfold exact_div. rewrite bool_decide_eq_false_2 by done.
  rewrite Nat.mul_comm, Nat.Div0.mod_mul, bool_decide_eq_true_2, Nat.div_mul by done. done.
Qed.

(** ** Packing *)

(** [ps] and [rs] place [n] items on [m] packs of [room] items: every place is taken once. *)
Record placement (n m room : nat) (ps rs : list nat) : Prop := {
  pl_packs : length ps = n;
  pl_ranks : length rs = n;
  pl_range g p r : ps !! g = Some p → rs !! g = Some r → p < m ∧ r < room;
  pl_places : zip_with (λ p r, p * room + r) ps rs ≡ₚ seq 0 n
}.

Section packing.
Context {F : Type} (fzero : F) (fadd : F → F → F) (fltb : F → F → bool).
Context (argsort : list F → list Z).

Lemma lighter_fold room (xs : list (nat * (F * Z))) best :
  match foldl (lighter fltb room) best xs with
  | Some (p, _) => (∃ w, best = Some (p, w)) ∨ ∃ w k, (p, (w, k)) ∈ xs ∧ (k < Z.of_nat room)%Z
  | None => best = None ∧ ∀ p w k, (p, (w, k)) ∈ xs → ¬ (k < Z.of_nat room)%Z
  end.
Proof.
  revert best. induction xs as [|[p [w k]] xs IH]; intros best; cbn [foldl].
  { destruct best as [[p w]|]; [left; by exists w|]. split; [done|]. by intros ? ? ? ?%elem_of_nil. }
  specialize (IH (lighter fltb room best (p, (w, k)))).
  destruct (foldl _ _ xs) as [[q v]|].
  - destruct IH as [[v' IH]|(v' & k' & Hin & Hk)]; [|right; exists v', k'; split; [by right|done]].
    unfold lighter in IH. case_bool_decide as Hk; [|left; by exists v'].
    destruct best as [[q0 v0]|]; [destruct (fltb w v0)|]; simplify_eq; [right|by left; eexists|right];
      exists v', k; (split; [left|done]).
  - destruct IH as [IH Hno]. unfold lighter in IH. case_bool_decide as Hk.
    + by destruct best as [[q0 v0]|]; [destruct (fltb w v0)|].
    + split; [done|]. intros q v k' [[= -> -> ->]|Hin]%elem_of_cons; [done|by eapply Hno].
Qed.

Lemma lightest_ok room ws (ks : list nat) : length ws = length ks → Exists (λ k, k < room) ks →
  ∃ p k, lightest fltb room ws (Z.of_nat <$> ks) = Some p ∧ ks !! p = Some k ∧ k < room.
Proof.
  intros Hl Hex. unfold lightest. rewrite length_fmap.
  set (xs := zip (seq 0 (length ks)) (zip ws (Z.of_nat <$> ks))).
  assert (Hxs : ∀ p w k, (p, (w, k)) ∈ xs → ∃ j, k = Z.of_nat j ∧ ks !! p = Some j).
  { intros p w k [i Hi]%list_elem_of_lookup. apply lookup_zip_with_Some in Hi as (q & [v z] & E & Hq & Hz).
    apply lookup_zip_with_Some in Hz as (v' & z' & E' & _ & Hz). simplify_eq.
    apply lookup_seq in Hq as [-> _]. rewrite list_lookup_fmap in Hz. apply fmap_Some in Hz as (j & Hj & ->). by exists j. }
  pose proof (lighter_fold room xs None) as Hf. destruct (foldl _ None xs) as [[p w]|].
  - destruct Hf as [[? ?]|(v & k & Hin & Hk)]; [done|]. destruct (Hxs _ _ _ Hin) as (j & -> & Hj).
    exists p, j. split_and!; [done|done|lia].
  - destruct Hf as [_ Hno]. exfalso. apply Exists_exists in Hex as (k & Hk & Hlt).
    apply list_elem_of_lookup in Hk as [p Hp]. pose proof (lookup_lt_Some _ _ _ Hp).
    destruct (lookup_lt_is_Some_2 ws p) as [w Hw]; [lia|].
    apply (Hno p w (Z.of_nat k)); [|lia]. apply (list_elem_of_lookup_2 _ p).
    apply lookup_zip_with_Some. exists p, (w, Z.of_nat k). split_and!; [done|by apply lookup_seq_lt|].
    apply lookup_zip_with_Some. exists w, (Z.of_nat k). split_and!; [done|done|]. by rewrite list_lookup_fmap, Hp.
Qed.

Lemma sum_list_cons k (ks : list nat) : sum_list (k :: ks) = k + sum_list ks.
Proof. done. Qed.

(** Fewer items than places: some pack has room. *)
Lemma some_room room (ks : list nat) : sum_list ks < length ks * room → Exists (λ k, k < room) ks.
Proof.
  intros Hs. destruct (decide (Exists (λ k, k < room) ks)) as [|Hn]; [done|]. exfalso.
  apply not_Exists_Forall in Hn; [|apply _]. enough (length ks * room ≤ sum_list ks) by lia. clear Hs.
  induction Hn as [|k ks Hk _ IH]; [simpl; lia|]. unfold compose in Hk. rewrite sum_list_cons. cbn [length Nat.mul]. lia.
Qed.

(** The state after packing the items of [done]; [ks] counts the items of each pack. *)
Record packed (n m room : nat) (done : list nat) (ks : list nat) (s : Packing (F := F)) : Prop := {
  pk_index : length (pack_index s) = n;
  pk_rank : length (rank_in_pack s) = n;
  pk_packs : length ks = m;
  pk_weights : length (pack_weights s) = m;
  pk_items : pack_items s = Z.of_nat <$> ks;
  pk_room p k : ks !! p = Some k → k ≤ room;
  pk_sum : sum_list ks = length done;
  pk_done g : g ∈ done → ∃ p r k, pack_index s !! g = Some (Z.of_nat p) ∧ rank_in_pack s !! g = Some (Z.of_nat r) ∧
    ks !! p = Some k ∧ r < k;
  pk_inj g g' : g ∈ done → g' ∈ done → pack_index s !! g = pack_index s !! g' →
    rank_in_pack s !! g = rank_in_pack s !! g' → g = g'
}.

Lemma sum_insert (ks : list nat) p k : ks !! p = Some k → sum_list (<[p := S k]> ks) = S (sum_list ks).
Proof.
  revert p. induction ks as [|x ks IH]; intros [|p] Hp; try done.
  - by injection Hp as ->.
  - change (sum_list (x :: <[p := S k]> ks) = S (sum_list (x :: ks))). rewrite !sum_list_cons, (IH p Hp). lia.
Qed.

Lemma pack_group_ok n m room weight done ks s g : packed n m room done ks s → length weight = n → n = m * room →
  g < n → g ∉ done → length done < n →
  ∃ ks' s', pack_group fadd fltb room weight (Z.of_nat g) s = Ok s' ∧ packed n m room (g :: done) ks' s'.
Proof.
  intros [P1 P2 P3 P4 P5 P6 P7 P8 P9] Hw Hn Hg Hnew Hlt. unfold pack_group. rewrite P5.
  destruct (lightest_ok room (pack_weights s) ks) as (p & k & -> & Hp & Hk); [lia|apply some_room; lia|].
  rewrite (zget_nat _ p (Z.of_nat k)) by by rewrite list_lookup_fmap, Hp. cbn [mbind result_bind].
  rewrite bool_decide_eq_true_2 by lia. pose proof (lookup_lt_Some _ _ _ Hp).
  destruct (lookup_lt_is_Some_2 (pack_weights s) p) as [w Hpw]; [lia|].
  destruct (lookup_lt_is_Some_2 weight g) as [x Hx]; [lia|].
  rewrite (zget_nat _ p w Hpw), (zget_nat _ g x Hx). cbn [mbind result_bind]. rewrite !zset_nat by lia.
  cbn [mbind result_bind]. exists (<[p := S k]> ks). eexists. split; [reflexivity|].
  assert (Hold : ∀ g', g' ∈ done → g' ≠ g) by (intros g' ? ->; done).
  split; cbn [pack_index rank_in_pack pack_weights pack_items]; rewrite ?length_insert; try done.
  - rewrite list_fmap_insert. do 2 f_equal. lia.
  - intros q k' Hq. destruct (decide (q = p)) as [->|Hne].
    + rewrite list_lookup_insert_eq in Hq by done. simplify_eq. lia.
    + rewrite list_lookup_insert_ne in Hq by done. by eapply P6.
  - rewrite (sum_insert _ _ _ Hp). simpl. by f_equal.
  - intros g' [->|Hin]%elem_of_cons.
    + exists p, k, (S k). rewrite !list_lookup_insert_eq by lia. split_and!; [done..|lia].
    + rewrite !list_lookup_insert_ne by (intros E; by apply (Hold _ Hin)).
      destruct (P8 _ Hin) as (q & r & k' & H1 & H2 & H3 & H4). exists q, r.
      destruct (decide (q = p)) as [->|Hne]; [|exists k'; by rewrite list_lookup_insert_ne].
      exists (S k). rewrite list_lookup_insert_eq by done. simplify_eq. split_and!; [done..|lia].
  - assert (Hsep : ∀ g', g' ∈ done → Some (Z.of_nat p) = pack_index s !! g' → Some (Z.of_nat k) = rank_in_pack s !! g' → False).
    { intros g' Hin E1 E2. destruct (P8 _ Hin) as (q & r & k' & H1 & H2 & H3 & H4). rewrite H1 in E1. rewrite H2 in E2.
      assert (p = q) as <- by (injection E1; lia). assert (k = r) as <- by (injection E2; lia). simplify_eq. lia. }
    intros g1 g2 [->|H1]%elem_of_cons [->|H2]%elem_of_cons E1 E2; [done| | |].
    + rewrite list_lookup_insert_eq, list_lookup_insert_ne in E1 by (try lia; intros E; by apply (Hold _ H2)).
      rewrite list_lookup_insert_eq, list_lookup_insert_ne in E2 by (try lia; intros E; by apply (Hold _ H2)).
      by destruct (Hsep g2 H2 E1 E2).
    + rewrite (list_lookup_insert_ne _ g g1), list_lookup_insert_eq in E1 by (try lia; intros E; by apply (Hold _ H1)).
      rewrite (list_lookup_insert_ne _ g g1), list_lookup_insert_eq in E2 by (try lia; intros E; by apply (Hold _ H1)).
      by destruct (Hsep g1 H1 (eq_sym E1) (eq_sym E2)).
    + pose proof (Hold _ H1). pose proof (Hold _ H2).
      rewrite (list_lookup_insert_ne _ g g1), (list_lookup_insert_ne _ g g2) in E1 by congruence.
      rewrite (list_lookup_insert_ne _ g g1), (list_lookup_insert_ne _ g g2) in E2 by congruence.
      by apply P9.
Qed.

Lemma nodup_le n (l : list nat) : NoDup l → (∀ x, x ∈ l → x < n) → length l ≤ n.
Proof.
  intros Hnd Hl. rewrite <- (length_seq n 0). apply submseteq_length, NoDup_submseteq; [done|].
  intros x Hx. apply elem_of_seq. specialize (Hl x Hx). lia.
Qed.

(** When every item is packed, the packs and ranks form a placement. *)
Lemma packed_placement n m room gs ks s : packed n m room (reverse gs) ks s → gs ≡ₚ seq 0 n →
  n = m * room →
  ∃ ps rs, Ok (pack_index s, rank_in_pack s) = Ok (Z.of_nat <$> ps, Z.of_nat <$> rs) ∧ placement n m room ps rs.
Proof.
  intros [P1 P2 P3 P4 P5 P6 P7 P8 P9] Hgs Hn.
  assert (Hall : ∀ g, g < n → g ∈ reverse gs) by (intros g ?; rewrite elem_of_reverse, Hgs, elem_of_seq; lia).
  assert (Hnat : ∀ l : list Z, length l = n → (∀ g x, l !! g = Some x → ∃ k : nat, x = Z.of_nat k) →
    l = Z.of_nat <$> (Z.to_nat <$> l)).
  { intros l Hl Hx. apply list_eq. intros i. rewrite !list_lookup_fmap. destruct (l !! i) as [x|] eqn:E; [|done].
    destruct (Hx _ _ E) as [k ->]. simpl. f_equal. lia. }
  exists (Z.to_nat <$> pack_index s), (Z.to_nat <$> rank_in_pack s). split.
  { do 2 f_equal; apply Hnat; try done; intros g x Hg; pose proof (lookup_lt_Some _ _ _ Hg);
      destruct (P8 g) as (p & r & k & H1 & H2 & _); try (apply Hall; lia); simplify_eq; by eexists. }
  assert (Hat : ∀ g p r, (Z.to_nat <$> pack_index s) !! g = Some p → (Z.to_nat <$> rank_in_pack s) !! g = Some r →
    pack_index s !! g = Some (Z.of_nat p) ∧ rank_in_pack s !! g = Some (Z.of_nat r) ∧ p < m ∧ r < room).
  { intros g p r Hp Hr. rewrite list_lookup_fmap in Hp, Hr. apply fmap_Some in Hp as (x & Hx & ->).
    apply fmap_Some in Hr as (y & Hy & ->). pose proof (lookup_lt_Some _ _ _ Hx).
    destruct (P8 g) as (p & r & k & H1 & H2 & H3 & H4); [apply Hall; lia|]. simplify_eq. rewrite !Nat2Z.id.
    pose proof (P6 _ _ H3). apply lookup_lt_Some in H3. split_and!; [done..|lia|lia]. }
  split; rewrite ?length_fmap; [done|done| |].
  - intros g p r Hp Hr. by destruct (Hat g p r Hp Hr) as (_ & _ & ? & ?).
  - apply perm_seq.
    + apply NoDup_alt. intros i j x Hi Hj. apply lookup_zip_with_Some in Hi as (p & r & -> & Hp & Hr).
      apply lookup_zip_with_Some in Hj as (p' & r' & E & Hp' & Hr').
      destruct (Hat i p r Hp Hr) as (A1 & A2 & A3 & A4), (Hat j p' r' Hp' Hr') as (B1 & B2 & B3 & B4).
      assert (p = p') as -> by nia. assert (r = r') as -> by lia.
      apply lookup_lt_Some in A1 as L1, B1 as L2. apply P9; [apply Hall; lia..|congruence|congruence].
    + rewrite length_zip_with, !length_fmap. lia.
    + intros x [i Hi]%list_elem_of_lookup. apply lookup_zip_with_Some in Hi as (p & r & -> & Hp & Hr).
      destruct (Hat i p r Hp Hr) as (A1 & _ & A3 & A4).
      nia.
Qed.

Lemma pack_groups_ok n m room weight gs : ∀ done ks s, packed n m room done ks s → length weight = n → n = m * room →
  NoDup (gs ++ done) → (∀ g, g ∈ gs ++ done → g < n) →
  ∃ ks' s', pack_groups fadd fltb room weight (Z.of_nat <$> gs) s = Ok s' ∧ packed n m room (reverse gs ++ done) ks' s'.
Proof.
  induction gs as [|g gs IH]; intros done ks s P Hw Hn Hnd Hin; [by exists ks, s|].
  rewrite fmap_cons. cbn [pack_groups]. simpl in Hnd. apply NoDup_cons in Hnd as [Hg Hnd].
  assert (Hlt : length (g :: gs ++ done) ≤ n).
  { apply (nodup_le n); [by constructor|]. intros x Hx. apply Hin. exact Hx. }
  rewrite elem_of_app in Hg. simpl in Hlt. rewrite length_app in Hlt.
  destruct (pack_group_ok n m room weight done ks s g P Hw Hn) as (ks1 & s1 & -> & P1);
    [apply Hin; left|tauto|lia|]. cbn [mbind result_bind].
  destruct (IH (g :: done) ks1 s1 P1 Hw Hn) as (ks2 & s2 & -> & P2).
  - rewrite <- Permutation_middle. apply NoDup_cons. by rewrite elem_of_app.
  - intros x. rewrite <- Permutation_middle. apply Hin.
  - exists ks2, s2. split; [done|]. rewrite reverse_cons, <- app_assoc. exact P2.
Qed.

Context (argsort_perm : ∀ l, argsort l ≡ₚ aranges (length l)).

(** The indices of a sort are the positions in some order. *)
Lemma argsort_nat l : ∃ gs, argsort l = Z.of_nat <$> gs ∧ gs ≡ₚ seq 0 (length l).
Proof.
  exists (Z.to_nat <$> argsort l). split.
  - rewrite <- list_fmap_compose. rewrite <- (list_fmap_id (argsort l)) at 1. apply list_fmap_ext.
    intros i x Hx. simpl. assert (Hin : x ∈ aranges (length l)).
    { rewrite <- argsort_perm. by eapply list_elem_of_lookup_2. }
    apply list_elem_of_fmap in Hin as (j & -> & _). simpl. lia.
  - rewrite argsort_perm. unfold aranges. rewrite <- list_fmap_compose.
    rewrite (list_fmap_ext _ id), list_fmap_id; [done|]. intros i x _. simpl. lia.
Qed.

Lemma balanced_packing_ok weight m room : 0 < m → length weight = m * room →
  ∃ ps rs, balanced_packing fzero fadd fltb argsort weight m = Ok (Z.of_nat <$> ps, Z.of_nat <$> rs) ∧
    placement (m * room) m room ps rs.
Proof.
  intros Hm Hn. unfold balanced_packing. rewrite Hn, exact_div_ok by lia. cbn [mbind result_bind].
  case_bool_decide as H1.
  - subst room. rewrite Nat.mul_1_r in *. exists (seq 0 m), (replicate m 0).
    split; [by rewrite fmap_replicate|]. split; [by rewrite length_seq|by rewrite length_replicate| |].
    + intros g p r [-> Hg]%lookup_seq [-> _]%lookup_replicate. simpl. lia.
    + rewrite zip_with_replicate_r_eq by by rewrite length_seq.
      rewrite (list_fmap_ext _ id), list_fmap_id; [done|]. intros i x _. simpl. lia.
  - destruct (argsort_nat weight) as (gs & -> & Hgs). rewrite Hn in Hgs.
    set (n := m * room) in *. set (s0 := MkPacking _ _ _ _).
    assert (P0 : packed n m room [] (replicate m 0) s0).
    { split; unfold s0; cbn [pack_index rank_in_pack pack_weights pack_items]; rewrite ?length_replicate; try done.
      - by rewrite fmap_replicate.
      - intros p k [-> _]%lookup_replicate. lia.
      - clear. induction m as [|m IH]; [done|]. exact IH.
      - by intros g ?%elem_of_nil.
      - by intros g g' ?%elem_of_nil. }
    destruct (pack_groups_ok n m room weight gs [] _ s0 P0 Hn eq_refl) as (ks & s & -> & P).
    { rewrite app_nil_r, Hgs. apply NoDup_seq. }
    { intros g. rewrite app_nil_r, Hgs, elem_of_seq. lia. }
    cbn [mbind result_bind]. rewrite app_nil_r in P. by apply packed_placement in P.
Qed.
End packing.

(** ** Replicating *)

(** [es] and [ks] name for each of [i] places an expert and a replica of it, where the expert
    [e] has [cs !! e] replicas: every replica has one place. *)
Record replicas (i : nat) (es ks cs : list nat) : Prop := {
  rp_at j : j < i → ∃ e k c, es !! j = Some e ∧ ks !! j = Some k ∧ cs !! e = Some c ∧ k < c;
  rp_onto e c k : cs !! e = Some c → k < c → ∃ j, j < i ∧ es !! j = Some e ∧ ks !! j = Some k;
  rp_inj j j' : j < i → j' < i → es !! j = es !! j' → ks !! j = ks !! j' → j = j';
  rp_sum : sum_list cs = i;
  rp_pos e c : cs !! e = Some c → 1 ≤ c
}.

Lemma aranges_fmap n : aranges n = Z.of_nat <$> seq 0 n.
Proof. done. Qed.

Section replication.
Context {F : Type} (fdiv : F → Z → F) (fltb : F → F → bool) (argmax : list F → Z).

Definition fle (x y : F) : Prop := fltb y x = false.

Context (argmax_ok : ∀ l, l ≠ [] → ∃ i x, argmax l = Z.of_nat i ∧ l !! i = Some x ∧ ∀ y, y ∈ l → fle y x).
Context (fle_trans : ∀ x y z, fle x y → fle y z → fle x z).

(** A weight whose share does not grow with the number of replicas, such as a number that is
    not negative. *)
Definition shrinks (w : F) : Prop := ∀ c c' : nat, 1 ≤ c → c ≤ c' → fle (fdiv w (Z.of_nat c')) (fdiv w (Z.of_nat c)).

Definition load (weight : list F) (cs : list nat) (e : nat) : option F :=
  w ← weight !! e; c ← cs !! e; Some (fdiv w (Z.of_nat c)).

(** No expert has a higher load now than an expert with several replicas had before its last
    one. *)
Definition greedy (weight : list F) (cs : list nat) : Prop :=
  ∀ e c w e' l', weight !! e = Some w → cs !! e = Some c → 2 ≤ c → load weight cs e' = Some l' →
    fle l' (fdiv w (Z.of_nat (c - 1))).

Lemma loads_lookup weight (cs : list nat) e : loads fdiv weight (Z.of_nat <$> cs) !! e = load weight cs e.
Proof.
  unfold loads, load. rewrite lookup_zip_with. destruct (weight !! e) as [w|]; [|done]. simpl.
  rewrite list_lookup_fmap. by destruct (cs !! e).
Qed.

Lemma greedy_step weight cs e c x : Forall shrinks weight → greedy weight cs → (∀ e c, cs !! e = Some c → 1 ≤ c) →
  cs !! e = Some c → load weight cs e = Some x → (∀ e' y, load weight cs e' = Some y → fle y x) →
  greedy weight (<[e := S c]> cs).
Proof.
  intros Hw Hg Hpos Hc Hx Hmax e1 c1 w1 e2 l2 Hw1 Hc1 H2 Hl2.
  assert (Hlen : e < length cs) by by eapply lookup_lt_Some.
  unfold load in Hx. destruct (weight !! e) as [w|] eqn:Hwe; [|done]. rewrite Hc in Hx. injection Hx as Hx.
  assert (Hs : shrinks w). { rewrite Forall_forall in Hw. apply Hw. by eapply list_elem_of_lookup_2. }
  assert (Hold : ∃ l, load weight cs e2 = Some l ∧ fle l2 l).
  { unfold load in *. destruct (weight !! e2) as [w2|] eqn:Hw2; [|done]. cbn [mbind option_bind] in *.
    destruct (decide (e2 = e)) as [->|Hne].
    - rewrite list_lookup_insert_eq in Hl2 by done. rewrite Hc. simplify_eq/=. eexists. split; [done|].
      apply Hs; [by eapply Hpos|lia].
    - rewrite list_lookup_insert_ne in Hl2 by done. destruct (cs !! e2) as [c2|] eqn:Hc2; [|done]. simplify_eq/=.
      eexists. split; [done|]. rewrite Forall_forall in Hw.
      apply (Hw w2); [by eapply list_elem_of_lookup_2|by eapply Hpos|done]. }
  destruct Hold as (l & Hl & Hle). eapply fle_trans; [exact Hle|].
  destruct (decide (e1 = e)) as [->|Hne].
  - rewrite list_lookup_insert_eq in Hc1 by done. simplify_eq. replace (S c - 1) with c by lia. by eapply Hmax.
  - rewrite list_lookup_insert_ne in Hc1 by done. by eapply Hg.
Qed.

Lemma replicate_step weight i n es ks cs : Forall shrinks weight → weight ≠ [] → length cs = length weight →
  length es = n → length ks = n → i < n → replicas i es ks cs → greedy weight cs →
  ∃ e c, cs !! e = Some c ∧
    replicate_one fdiv argmax weight i (MkReplicas (Z.of_nat <$> es) (Z.of_nat <$> ks) (Z.of_nat <$> cs)) =
      Ok (MkReplicas (Z.of_nat <$> <[i := e]> es) (Z.of_nat <$> <[i := c]> ks) (Z.of_nat <$> <[e := S c]> cs)) ∧
    replicas (S i) (<[i := e]> es) (<[i := c]> ks) (<[e := S c]> cs) ∧ greedy weight (<[e := S c]> cs).
Proof.
  intros Hw Hne Hlc Hle Hlk Hi [R1 R2 R3 R4 R5] Hg.
  destruct (argmax_ok (loads fdiv weight (Z.of_nat <$> cs))) as (e & x & He & Hx & Hmax).
  { intros E. apply (f_equal length) in E. unfold loads in E. rewrite length_zip_with, length_fmap in E.
    assert (length weight ≠ 0) by by destruct weight. rewrite Hlc, Nat.min_id in E. done. }
  rewrite loads_lookup in Hx.
  assert (∃ c, cs !! e = Some c) as [c Hc].
  { unfold load in Hx. destruct (weight !! e); [|done]. destruct (cs !! e) as [c|]; [by exists c|done]. }
  assert (Hlt : e < length cs) by by eapply lookup_lt_Some.
  exists e, c. split; [done|]. split; [|split].
  - unfold replicate_one. cbn [logcnt phy2log rank]. rewrite He.
    rewrite (zget_nat _ e (Z.of_nat c)) by by rewrite list_lookup_fmap, Hc. cbn [mbind result_bind].
    rewrite zset_nat by by rewrite length_fmap. cbn [mbind result_bind]. rewrite !list_fmap_insert.
    do 3 f_equal. lia.
  - split.
    + intros j Hj. destruct (decide (j = i)) as [->|Hji].
      * exists e, c, (S c). rewrite !list_lookup_insert_eq by lia. split_and!; [done..|lia].
      * rewrite !(list_lookup_insert_ne _ i j) by done. destruct (R1 j ltac:(lia)) as (e1 & k1 & c1 & H1 & H2 & H3 & H4).
        destruct (decide (e1 = e)) as [->|Hne1].
        -- exists e, k1, (S c). rewrite list_lookup_insert_eq by done. rewrite Hc in H3. injection H3 as <-. split_and!; [done..|lia].
        -- exists e1, k1, c1. by rewrite list_lookup_insert_ne.
    + intros e1 c1 k1 Hc1 Hk1. destruct (decide (e1 = e)) as [->|Hne1].
      * rewrite list_lookup_insert_eq in Hc1 by done. injection Hc1 as <-. destruct (decide (k1 = c)) as [->|Hkc].
        -- exists i. rewrite !list_lookup_insert_eq by lia. split_and!; [lia|done|done].
        -- destruct (R2 e c k1 Hc ltac:(lia)) as (j & Hj & H1 & H2). exists j.
           rewrite !list_lookup_insert_ne by lia. split_and!; [lia|done|done].
      * rewrite list_lookup_insert_ne in Hc1 by done. destruct (R2 e1 c1 k1 Hc1 Hk1) as (j & Hj & H1 & H2). exists j.
        rewrite !list_lookup_insert_ne by lia. split_and!; [lia|done|done].
    + assert (Hnew : ∀ j, j < i → es !! j = Some e → ks !! j = Some c → False).
      { intros j Hj H1 H2. destruct (R1 j Hj) as (e1 & k1 & c1 & E1 & E2 & E3 & E4).
        rewrite H1 in E1. injection E1 as <-. rewrite Hc in E3. rewrite H2 in E2. simplify_eq E2. simplify_eq E3. lia. }
      intros j j' Hj Hj'. destruct (decide (j = i)) as [->|Hji], (decide (j' = i)) as [->|Hji'].
      * done.
      * rewrite (list_lookup_insert_eq es), (list_lookup_insert_eq ks) by lia.
        rewrite !(list_lookup_insert_ne _ i j') by done. intros E1 E2. exfalso. apply (Hnew j'); [lia|done|done].
      * rewrite (list_lookup_insert_eq es), (list_lookup_insert_eq ks) by lia.
        rewrite !(list_lookup_insert_ne _ i j) by done. intros E1 E2. exfalso. apply (Hnew j); [lia|done|done].
      * rewrite !(list_lookup_insert_ne _ i j), !(list_lookup_insert_ne _ i j') by done. apply R3; lia.
    + rewrite (sum_insert _ _ _ Hc). by f_equal.
    + intros e1 c1 Hc1. destruct (decide (e1 = e)) as [->|Hne1].
      * rewrite list_lookup_insert_eq in Hc1 by done. injection Hc1 as <-. lia.
      * rewrite list_lookup_insert_ne in Hc1 by done. by eapply R5.
  - eapply greedy_step; try done. intros e1 y Hy. apply Hmax. rewrite <- loads_lookup in Hy.
    by eapply list_elem_of_lookup_2.
Qed.

Lemma replicate_loop_ok weight n is_ : ∀ i es ks cs, is_ = seq i (n - i) → i ≤ n → Forall shrinks weight → weight ≠ [] →
  length cs = length weight → length es = n → length ks = n → replicas i es ks cs → greedy weight cs →
  ∃ es' ks' cs', replicate_loop fdiv argmax weight is_ (MkReplicas (Z.of_nat <$> es) (Z.of_nat <$> ks) (Z.of_nat <$> cs)) =
      Ok (MkReplicas (Z.of_nat <$> es') (Z.of_nat <$> ks') (Z.of_nat <$> cs')) ∧
    length cs' = length weight ∧ length es' = n ∧ length ks' = n ∧ replicas n es' ks' cs' ∧ greedy weight cs'.
Proof.
  induction is_ as [|i0 is_ IH]; intros i es ks cs His Hi Hw Hne Hlc Hle Hlk R Hg.
  - assert (i = n) as -> by (destruct (n - i) eqn:E; [lia|done]). by exists es, ks, cs.
  - destruct (n - i) as [|m] eqn:Em; [done|]. injection His as -> His. cbn [replicate_loop].
    destruct (replicate_step weight i n es ks cs Hw Hne Hlc Hle Hlk) as (e & c & _ & E & R' & Hg'); [lia|done|done|].
    rewrite E. cbn [mbind result_bind]. apply (IH (S i)); rewrite ?length_insert; try done; [|lia].
    rewrite His. f_equal. lia.
Qed.

Lemma replicate_experts_ok weight n : Forall shrinks weight → weight ≠ [] → length weight ≤ n →
  ∃ es ks cs, replicate_experts fdiv argmax weight n =
      Ok (MkReplicas (Z.of_nat <$> es) (Z.of_nat <$> ks) (Z.of_nat <$> cs)) ∧
    length cs = length weight ∧ length es = n ∧ length ks = n ∧ replicas n es ks cs ∧ greedy weight cs.
Proof.
  intros Hw Hne Hn. unfold replicate_experts. rewrite bool_decide_eq_false_2 by lia.
  assert (Hr : ∀ (x : nat) k, replicate k (Z.of_nat x) = Z.of_nat <$> replicate k x) by (intros; by rewrite fmap_replicate).
  rewrite aranges_fmap, (Hr 0), (Hr 1).
  set (m := length weight) in *.
  assert (Hseq : ∀ j, j < m → seq 0 n !! j = Some j ∧ replicate n 0 !! j = Some 0 ∧ replicate m 1 !! j = Some 1).
  { intros j Hj. split_and!; [by apply lookup_seq_lt; lia|apply lookup_replicate; lia|apply lookup_replicate; lia]. }
  apply (replicate_loop_ok weight n _ m); rewrite ?length_replicate, ?length_seq; try done.
  - split.
    + intros j Hj. exists j, 0, 1. destruct (Hseq j Hj) as (H1 & H2 & H3). split_and!; [done..|lia].
    + intros e c k [-> He]%lookup_replicate Hk. exists e. destruct (Hseq e He) as (H1 & H2 & H3).
      replace k with 0 by lia. split_and!; done.
    + intros j j' Hj Hj' E _. destruct (Hseq j Hj) as (H1 & _), (Hseq j' Hj') as (H2 & _). rewrite H1, H2 in E.
      by injection E.
    + clear. induction m as [|m IH]; [done|]. cbn [replicate]. rewrite sum_list_cons, IH. done.
    + intros e c [-> _]%lookup_replicate. lia.
  - intros e c w e' l' _ [-> _]%lookup_replicate Hc. lia.
Qed.

Lemma sum_list_le (cs cs' : list nat) : length cs' = length cs →
  (∀ e c c', cs !! e = Some c → cs' !! e = Some c' → c ≤ c') → sum_list cs ≤ sum_list cs'.
Proof.
  revert cs'. induction cs as [|c cs IH]; intros [|c' cs'] Hl Hle; try done.
  rewrite !sum_list_cons. pose proof (Hle 0 c c' eq_refl eq_refl).
  assert (sum_list cs ≤ sum_list cs'); [|lia]. apply IH; [by injection Hl|]. intros e. apply (Hle (S e)).
Qed.

(** With the same sum, more at one place is less at another. *)
Lemma less_somewhere (cs cs' : list nat) e c c' : length cs' = length cs → sum_list cs' = sum_list cs →
  cs !! e = Some c → cs' !! e = Some c' → c < c' → ∃ e1 c1 c1', cs !! e1 = Some c1 ∧ cs' !! e1 = Some c1' ∧ c1' < c1.
Proof.
  intros Hl Hs Hc Hc' Hlt.
  destruct (decide (Exists (λ x, x.2 < x.1) (zip cs cs'))) as [Hex|Hno].
  { apply Exists_exists in Hex as ([c1 c1'] & [e1 Hin]%list_elem_of_lookup & H).
    apply lookup_zip_with_Some in Hin as (x & y & [= <- <-] & H1 & H1'). by exists e1, c1, c1'. }
  exfalso.
  assert (Hle : ∀ e1 c1 c1', cs !! e1 = Some c1 → cs' !! e1 = Some c1' → c1 ≤ c1').
  { intros e1 c1 c1' H1 H2. destruct (decide (c1' < c1)); [|lia]. exfalso. apply Hno, Exists_exists. exists (c1, c1').
    split; [|done]. apply (list_elem_of_lookup_2 _ e1), lookup_zip_with_Some. by exists c1, c1'. }
  assert (Hins : sum_list (<[e := S c]> cs) ≤ sum_list cs').
  { apply sum_list_le; [by rewrite length_insert|]. intros e1 c1 c1' H1 H2. destruct (decide (e1 = e)) as [->|Hne].
    - rewrite list_lookup_insert_eq in H1 by (by eapply lookup_lt_Some). simplify_eq. lia.
    - rewrite list_lookup_insert_ne in H1 by done. by eapply Hle. }
  rewrite (sum_insert _ _ _ Hc) in Hins. lia.
Qed.

(** C35: [replicate_experts()] turns the experts' weights into a placement of their replicas:
    every replica of every expert has exactly one place and each place holds one, each expert
    has at least one replica. And it keeps its promise to minimise the maximum load: for any
    other distribution of the same number of replicas, some expert has at least the load that
    an arbitrary expert has under the one returned. The hypotheses on the arithmetic: the
    maximum is found, and the share of a weight does not grow with its replicas. *)
Theorem replicate_experts_correct weight n : Forall shrinks weight → weight ≠ [] → length weight ≤ n →
  ∃ es ks cs, replicate_experts fdiv argmax weight n =
      Ok (MkReplicas (Z.of_nat <$> es) (Z.of_nat <$> ks) (Z.of_nat <$> cs)) ∧
    length cs = length weight ∧ length es = n ∧ replicas n es ks cs ∧
    ∀ cs', length cs' = length weight → (∀ e c, cs' !! e = Some c → 1 ≤ c) → sum_list cs' = n →
      ∀ e l, load weight cs e = Some l → ∃ e' l', load weight cs' e' = Some l' ∧ fle l l'.
Proof.
  intros Hw Hne Hn. destruct (replicate_experts_ok weight n Hw Hne Hn) as (es & ks & cs & E & Hlc & Hle & _ & R & Hg).
  exists es, ks, cs. split_and!; [done..|]. intros cs' Hl' Hpos' Hs' e l Hl. pose proof Hl as Hl0.
  unfold load in Hl. destruct (weight !! e) as [w|] eqn:Hwe; [|done]. destruct (cs !! e) as [c|] eqn:Hc; [|done].
  injection Hl as <-. rewrite Forall_forall in Hw.
  destruct (lookup_lt_is_Some_2 cs' e) as [c' Hc']; [apply lookup_lt_Some in Hc; lia|].
  destruct (decide (c' ≤ c)) as [Hle'|Hlt].
  - exists e. eexists. unfold load. rewrite Hwe, Hc'. split; [done|].
    apply (Hw w); [by eapply list_elem_of_lookup_2|by eapply Hpos'|done].
  - destruct (less_somewhere cs cs' e c c') as (e1 & c1 & c1' & H1 & H1' & Hlt1);
      [congruence|by rewrite (rp_sum _ _ _ _ R)|done|done|lia|].
    destruct (lookup_lt_is_Some_2 weight e1) as [w1 Hw1]; [apply lookup_lt_Some in H1; lia|].
    pose proof (Hpos' _ _ H1'). exists e1. eexists. unfold load at 1. rewrite Hw1, H1'. split; [done|].
    eapply fle_trans; [eapply (Hg e1 c1 w1 e _ Hw1 H1); [lia|exact Hl0]|].
    apply (Hw w1); [by eapply list_elem_of_lookup_2|done|lia].
Qed.
End replication.

(** ** Integer weights *)

Definition descending (l : list Z) : list Z :=
  (λ p, Z.of_nat p.1) <$> sort_by Zleb (λ p, (- p.2)%Z) (zip (seq 0 (length l)) l).

Fixpoint first_max (l : list Z) : option (nat * Z) :=
  match l with
  | [] => None
  | x :: l =>
      match first_max l with
      | Some (i, y) => if (x <? y)%Z then Some (S i, y) else Some (0, x)
      | None => Some (0, x)
      end
  end.

Definition max_index (l : list Z) : Z := from_option (λ m, Z.of_nat m.1) 0%Z (first_max l).

Lemma descending_perm l : descending l ≡ₚ aranges (length l).
Proof.
  unfold descending, aranges. rewrite sort_by_perm.
  change (Z.of_nat ∘ fst <$> zip (seq 0 (length l)) l ≡ₚ Z.of_nat <$> seq 0 (length l)).
  by rewrite list_fmap_compose, fst_zip by by rewrite length_seq.
Qed.

Lemma max_index_ok l : l ≠ [] → ∃ i x, max_index l = Z.of_nat i ∧ l !! i = Some x ∧ ∀ y, y ∈ l → fle Z.ltb y x.
Proof.
  intros Hne. assert (H : ∃ i x, first_max l = Some (i, x) ∧ l !! i = Some x ∧ ∀ y, y ∈ l → (y ≤ x)%Z).
  { induction l as [|z l IH]; [done|]. cbn [first_max]. destruct (decide (l = [])) as [->|Hl].
    - exists 0, z. split_and!; [done..|]. intros y ->%list_elem_of_singleton. lia.
    - destruct (IH Hl) as (i & x & -> & Hi & Hx). destruct (Z.ltb_spec z x).
      + exists (S i), x. split_and!; [done..|]. intros y [->|Hy]%elem_of_cons; [lia|by apply Hx].
      + exists 0, z. split_and!; [done..|]. intros y [->|Hy]%elem_of_cons; [lia|]. specialize (Hx y Hy). lia. }
  destruct H as (i & x & E & Hi & Hx). exists i, x. unfold max_index. rewrite E. split_and!; [done..|].
  intros y Hy. apply Z.ltb_ge, Hx, Hy.
Qed.

Lemma Zle_trans x y z : fle Z.ltb x y → fle Z.ltb y z → fle Z.ltb x z.
Proof. unfold fle. rewrite !Z.ltb_ge. lia. Qed.

Lemma Zshrinks w : (0 ≤ w)%Z → shrinks Z.div Z.ltb w.
Proof. intros Hw c c' Hc Hle. apply Z.ltb_ge, Z.div_le_compat_l; lia. Qed.

Lemma replicate_experts_correct_witness :
  replicate_experts Z.div max_index [90; 132; 40; 61]%Z 6 = Ok (MkReplicas [0; 1; 2; 3; 1; 0] [0; 0; 0; 0; 1; 1] [2; 2; 1; 1])%Z ∧
  ∃ es ks cs, replicate_experts Z.div max_index [90; 132; 40; 61]%Z 6 =
      Ok (MkReplicas (Z.of_nat <$> es) (Z.of_nat <$> ks) (Z.of_nat <$> cs)) ∧
    length cs = 4 ∧ length es = 6 ∧ replicas 6 es ks cs ∧
    ∀ cs', length cs' = 4 → (∀ e c, cs' !! e = Some c → 1 ≤ c) → sum_list cs' = 6 →
      ∀ e l, load Z.div [90; 132; 40; 61]%Z cs e = Some l →
        ∃ e' l', load Z.div [90; 132; 40; 61]%Z cs' e' = Some l' ∧ fle Z.ltb l l'.
Proof.
  split; [reflexivity|].
  apply (replicate_experts_correct Z.div Z.ltb max_index max_index_ok Zle_trans [90; 132; 40; 61]%Z 6).
  - repeat constructor; by apply Zshrinks.
  - done.
  - simpl. lia.
Defined.
