(* ===== verification/EPLBMaps.v ===== *)
(** * The maps of the load balancer

    What [rebalance_experts] of [src/python/sglang/srt/managers/eplb_algorithms/deepseek.py]
    returns: the places of the physical experts hold every replica of every logical expert
    once, the experts of a group stay on one node, and the map back is the inverse. *)

From S2P Require Import Prelude EPLB.

Open Scope nat_scope.

(** ** Gathering indices *)

Lemma gather_fmap {A B} (f : A → B) (l : list A) ks ys : gather l ks = Ok ys → gather (f <$> l) ks = Ok (f <$> ys).
Proof.
  unfold gather. revert ys. induction ks as [|k ks IH]; intros ys E; cbn [rmap] in *; [by injection E as <-|].
  unfold zget in *. destruct (bool_decide (0 ≤ k)%Z); [|done].
  rewrite list_lookup_fmap. destruct (l !! Z.to_nat k) as [x|]; [|done]. cbn [fmap option_fmap option_map mbind result_bind] in *.
  destruct (rmap _ ks) as [zs|] eqn:Ez; [|done]. injection E as <-. by rewrite (IH zs eq_refl).
Qed.

Lemma gather_nat (l ks : list nat) : (∀ i, i ∈ ks → i < length l) →
  ∃ ys : list nat, gather (Z.of_nat <$> l) (Z.of_nat <$> ks) = Ok (Z.of_nat <$> ys) ∧ length ys = length ks ∧
    ∀ k i, ks !! k = Some i → ys !! k = l !! i.
Proof.
  intros Hin. destruct (gather_ok l ks Hin) as (ys & E & H). exists ys. split; [by apply gather_fmap|done].
Qed.

(** The positions of a permutation and of its inverse. *)
Definition inverse_of (n : nat) (f g : list nat) : Prop :=
  length f = n ∧ length g = n ∧ ∀ k i, f !! k = Some i ↔ g !! i = Some k.

Lemma inverse_range n f g i : inverse_of n f g → (∀ k, k ∈ g → k < n) ∧ (i < n → is_Some (g !! i)).
Proof.
  intros (Hf & Hg & H). split.
  - intros k [j Hj]%list_elem_of_lookup. apply H, lookup_lt_Some in Hj. lia.
  - intros Hi. apply lookup_lt_is_Some_2. lia.
Qed.

Lemma inverse_of_sym n f g : inverse_of n f g → inverse_of n g f.
Proof. intros (Hf & Hg & H). split_and!; [done..|]. intros k i. by rewrite H. Qed.

Lemma perm_inverse (uninit : nat → Z) (ks : list nat) n : ks ≡ₚ seq 0 n →
  ∃ inv, inverse uninit (Z.of_nat <$> ks) = Ok (Z.of_nat <$> inv) ∧ inverse_of n ks inv.
Proof.
  intros Hp. destruct (inverse_ok uninit ks n Hp) as (inv & E & Hl & H). exists inv. split; [done|].
  split_and!; [|done|done]. apply Permutation_length in Hp. by rewrite length_seq in Hp.
Qed.

(** ** Moving replicas *)

(** The places in another order. *)
Lemma replicas_places n es ks cs places inv es' ks' : replicas n es ks cs → inverse_of n places inv →
  length es = n → length ks = n →
  (∀ j i, inv !! j = Some i → es' !! j = es !! i) → (∀ j i, inv !! j = Some i → ks' !! j = ks !! i) →
  replicas n es' ks' cs.
Proof.
  intros [R1 R2 R3 R4 R5] HI Hle Hlk He Hk. destruct HI as (Hlp & Hli & H).
  assert (Hinv : ∀ j, j < n → ∃ i, i < n ∧ inv !! j = Some i ∧ places !! i = Some j).
  { intros j Hj. destruct (lookup_lt_is_Some_2 inv j) as [i Hi]; [lia|]. exists i. pose proof (proj2 (H i j) Hi) as Hp.
    split_and!; [apply lookup_lt_Some in Hp; lia|done|done]. }
  split; try done.
  - intros j Hj. destruct (Hinv j Hj) as (i & Hi & Hij & _). rewrite (He _ _ Hij), (Hk _ _ Hij). by apply R1.
  - intros e c k Hc Hlt. destruct (R2 e c k Hc Hlt) as (i & Hi & H1 & H2).
    destruct (lookup_lt_is_Some_2 places i) as [j Hj]; [lia|]. pose proof (proj1 (H i j) Hj) as Hij.
    exists j. rewrite (He _ _ Hij), (Hk _ _ Hij). split_and!; [apply lookup_lt_Some in Hij; lia|done|done].
  - intros j j' Hj Hj'. destruct (Hinv j Hj) as (i & Hi & Hij & Hp), (Hinv j' Hj') as (i' & Hi' & Hij' & Hp').
    rewrite (He _ _ Hij), (Hk _ _ Hij), (He _ _ Hij'), (Hk _ _ Hij'). intros E1 E2.
    pose proof (R3 i i' Hi Hi' E1 E2) as <-. congruence.
Qed.

(** The places of one node before those of the others. *)
Lemma replicas_app n n' es ks cs es' ks' cs' : replicas n es ks cs → replicas n' es' ks' cs' →
  length es = n → length ks = n →
  replicas (n + n') (es ++ (Nat.add (length cs) <$> es')) (ks ++ ks') (cs ++ cs').
Proof.
  intros [R1 R2 R3 R4 R5] [S1 S2 S3 S4 S5] Hle Hlk.
  assert (Hfst : ∀ j, j < n → (es ++ (Nat.add (length cs) <$> es')) !! j = es !! j ∧ (ks ++ ks') !! j = ks !! j).
  { intros j Hj. by rewrite !lookup_app_l by lia. }
  assert (Hsnd : ∀ j, (es ++ (Nat.add (length cs) <$> es')) !! (n + j) = Nat.add (length cs) <$> es' !! j ∧
    (ks ++ ks') !! (n + j) = ks' !! j).
  { intros j. rewrite !lookup_app_r by lia. rewrite list_lookup_fmap. split; repeat f_equal; lia. }
  assert (Hcs : ∀ e c, cs !! e = Some c → (cs ++ cs') !! e = Some c).
  { intros e c He. by apply lookup_app_l_Some. }
  split.
  - intros j Hj. destruct (decide (j < n)) as [Hlt|Hge].
    + destruct (Hfst j Hlt) as [-> ->]. destruct (R1 j Hlt) as (e & k & c & H1 & H2 & H3 & H4).
      exists e, k, c. by auto.
    + replace j with (n + (j - n)) by lia. destruct (Hsnd (j - n)) as [-> ->].
      destruct (S1 (j - n) ltac:(lia)) as (e & k & c & -> & -> & H3 & H4). exists (length cs + e), k, c.
      rewrite lookup_app_r by lia. replace (length cs + e - length cs) with e by lia. by split_and!.
  - intros e c k [He|[Hge He]]%lookup_app_Some Hk.
    + destruct (R2 e c k He Hk) as (j & Hj & H1 & H2). exists j. destruct (Hfst j Hj) as [-> ->].
      split_and!; [lia|done|done].
    + destruct (S2 _ c k He Hk) as (j & Hj & H1 & H2). exists (n + j). destruct (Hsnd j) as [-> ->]. rewrite H1.
      split_and!; [lia| |done]. simpl. f_equal. lia.
  - assert (Hmix : ∀ j j', j < n → j' < n' → es !! j = Nat.add (length cs) <$> es' !! j' → False).
    { intros j j' Hj Hj' E. destruct (R1 j Hj) as (e & k & c & H1 & _ & H3 & _). rewrite H1 in E.
      destruct (S1 j' Hj') as (e' & _ & _ & H1' & _). rewrite H1' in E. simpl in E. injection E as ->.
      apply lookup_lt_Some in H3. lia. }
    intros j j' Hj Hj'. destruct (decide (j < n)) as [Hlt|Hge], (decide (j' < n)) as [Hlt'|Hge'].
    + destruct (Hfst j Hlt) as [-> ->], (Hfst j' Hlt') as [-> ->]. by apply R3.
    + replace j' with (n + (j' - n)) by lia. destruct (Hfst j Hlt) as [-> ->], (Hsnd (j' - n)) as [-> ->].
      intros E _. exfalso. apply (Hmix j (j' - n) Hlt); [lia|done].
    + replace j with (n + (j - n)) by lia. destruct (Hfst j' Hlt') as [-> ->], (Hsnd (j - n)) as [-> ->].
      intros E _. exfalso. apply (Hmix j' (j - n) Hlt'); [lia|done].
    + replace j with (n + (j - n)) by lia. replace j' with (n + (j' - n)) by lia.
      destruct (Hsnd (j - n)) as [-> ->], (Hsnd (j' - n)) as [-> ->]. intros E1 E2. f_equal.
      apply S3; [lia|lia| |done]. destruct (es' !! (j - n)), (es' !! (j' - n)); simplify_eq/=; try done. f_equal. lia.
  - rewrite sum_list_with_app. by f_equal.
  - intros e c [He|[_ He]]%lookup_app_Some; [by eapply R5|by eapply S5].
Qed.

(** A list read through a permutation of its positions keeps its sum. *)
Lemma sum_relabel (cs cs' l2m m2l : list nat) n : inverse_of n l2m m2l → length cs = n →
  (∀ e i, l2m !! e = Some i → cs' !! e = cs !! i) → length cs' = n → sum_list cs' = sum_list cs.
Proof.
  intros HI Hl Hc Hl'. assert (Hp : cs' ≡ₚ cs); [|by rewrite Hp]. destruct HI as (H1 & H2 & H).
  apply Permutation_inj. split; [lia|].
  exists (λ i, default i (l2m !! i)). split.
  - intros i j E. destruct (l2m !! i) as [x|] eqn:Ei, (l2m !! j) as [y|] eqn:Ej; simpl in E; subst.
    + apply H in Ei, Ej. congruence.
    + apply H in Ei as Ei'. apply lookup_lt_Some in Ei'. apply lookup_ge_None in Ej. lia.
    + apply H in Ej as Ej'. apply lookup_lt_Some in Ej'. apply lookup_ge_None in Ei. lia.
    + done.
  - intros i. destruct (l2m !! i) as [x|] eqn:Ei; simpl; [by apply Hc|].
    apply lookup_ge_None in Ei. rewrite !lookup_ge_None_2 by lia. done.
Qed.

(** The experts under other names. *)
Lemma replicas_relabel n m es ks cs l2m m2l es' cs' : replicas n es ks cs → inverse_of m l2m m2l → length cs = m →
  (∀ j e, es !! j = Some e → es' !! j = m2l !! e) → (∀ e i, l2m !! e = Some i → cs' !! e = cs !! i) → length cs' = m →
  replicas n es' ks cs'.
Proof.
  intros [R1 R2 R3 R4 R5] HI Hl He Hc Hl'. pose proof HI as (H1 & H2 & H).
  assert (Hname : ∀ e c, cs !! e = Some c → ∃ x, m2l !! e = Some x ∧ l2m !! x = Some e ∧ cs' !! x = Some c).
  { intros e c Hec. destruct (lookup_lt_is_Some_2 m2l e) as [x Hx]; [apply lookup_lt_Some in Hec; lia|].
    exists x. pose proof (proj2 (H x e) Hx) as Hxe. by rewrite (Hc _ _ Hxe). }
  assert (Hback : ∀ x c, cs' !! x = Some c → ∃ e, l2m !! x = Some e ∧ m2l !! e = Some x ∧ cs !! e = Some c).
  { intros x c Hx. destruct (lookup_lt_is_Some_2 l2m x) as [e Hxe]; [apply lookup_lt_Some in Hx; lia|].
    exists e. pose proof (proj1 (H x e) Hxe) as Hex. by rewrite <- (Hc _ _ Hxe). }
  split.
  - intros j Hj. destruct (R1 j Hj) as (e & k & c & E1 & E2 & E3 & E4). destruct (Hname e c E3) as (x & Hx & _ & Hxc).
    exists x, k, c. rewrite (He _ _ E1). by split_and!.
  - intros x c k Hx Hk. destruct (Hback x c Hx) as (e & _ & Hex & Hec). destruct (R2 e c k Hec Hk) as (j & Hj & E1 & E2).
    exists j. rewrite (He _ _ E1). by split_and!.
  - intros j j' Hj Hj' E Ek. destruct (R1 j Hj) as (e & k & c & E1 & _ & E3 & _), (R1 j' Hj') as (e' & k' & c' & E1' & _ & E3' & _).
    rewrite (He _ _ E1), (He _ _ E1') in E. apply R3; try done. rewrite E1, E1'. f_equal.
    destruct (Hname e c E3) as (x & Hx & Hxe & _), (Hname e' c' E3') as (x' & Hx' & Hxe' & _). congruence.
  - rewrite <- R4. by eapply sum_relabel.
  - intros x c Hx. destruct (Hback x c Hx) as (e & _ & _ & Hec). by eapply R5.
Qed.

(** ** The order of the experts by groups *)

Lemma concat_blocks gs n : concat ((λ q, (λ j, q * gs + j) <$> seq 0 gs) <$> seq 0 n) = seq 0 (n * gs).
Proof.
  induction n as [|n IH]; [done|]. rewrite seq_S, fmap_app, concat_app, IH. simpl. rewrite app_nil_r.
  rewrite (Nat.add_comm gs), seq_app. f_equal. simpl.
  etrans; [exact (fmap_add_seq (n * gs) 0 gs)|]. by rewrite Nat.add_0_r.
Qed.

Definition mlog_of (gpn gs : nat) (ps rs : list nat) : list nat :=
  concat (zip_with (λ p r, (λ j, (p * gpn + r) * gs + j) <$> seq 0 gs) ps rs).

Lemma log_to_mlog_nat gpn gs ps rs :
  log_to_mlog gpn gs (Z.of_nat <$> ps) (Z.of_nat <$> rs) = Z.of_nat <$> mlog_of gpn gs ps rs.
Proof.
  unfold log_to_mlog, mlog_of. revert rs. induction ps as [|p ps IH]; intros [|r rs]; try done.
  rewrite !fmap_cons. cbn [zip_with concat]. rewrite fmap_app, IH. f_equal.
  unfold aranges. rewrite <- !list_fmap_compose. apply list_fmap_ext. intros i x _. simpl. lia.
Qed.

Lemma mlog_of_perm n nn gpn gs ps rs : placement n nn gpn ps rs → mlog_of gpn gs ps rs ≡ₚ seq 0 (n * gs).
Proof.
  intros [H1 H2 _ Hp]. unfold mlog_of. rewrite <- concat_blocks, <- Hp.
  assert (E : zip_with (λ p r, (λ j, (p * gpn + r) * gs + j) <$> seq 0 gs) ps rs =
    (λ q, (λ j, q * gs + j) <$> seq 0 gs) <$> zip_with (λ p r, p * gpn + r) ps rs).
  { clear. revert rs. induction ps as [|p ps IH]; intros [|r rs]; try done. cbn [zip_with]. by rewrite fmap_cons, IH. }
  by rewrite E.
Qed.

(** Where an expert of the group [g] comes in this order. *)
Lemma mlog_of_lookup gpn gs ps rs g j p r : ps !! g = Some p → rs !! g = Some r → j < gs →
  mlog_of gpn gs ps rs !! (g * gs + j) = Some ((p * gpn + r) * gs + j).
Proof.
  unfold mlog_of. revert rs g. induction ps as [|p0 ps IH]; intros [|r0 rs] [|g] Hp Hr Hj; simplify_eq/=.
  - rewrite lookup_app_l by (rewrite length_fmap, length_seq; lia). by rewrite list_lookup_fmap, lookup_seq_lt.
  - rewrite lookup_app_r; rewrite length_fmap, length_seq; [|lia].
    replace (gs + g * gs + j - gs) with (g * gs + j) by lia. by apply IH.
Qed.

(** ** Balancing *)

Section balance.
Context {F : Type} (fzero : F) (fadd : F → F → F) (fdiv : F → Z → F) (fltb : F → F → bool).
Context (argsort : list F → list Z) (argmax : list F → Z) (uninit : nat → Z).
(** What the code relies on: a sort returns every position, a maximum is a maximum, and the
    order of the weights is transitive. *)
Context (argsort_perm : ∀ l, argsort l ≡ₚ aranges (length l)).
Context (argmax_ok : ∀ l, l ≠ [] → ∃ i x, argmax l = Z.of_nat i ∧ l !! i = Some x ∧ ∀ y, y ∈ l → fle fltb y x).
Context (fle_trans : ∀ x y z, fle fltb x y → fle fltb y z → fle fltb x z).

Lemma balance_node_ok gpg ppg base weight : 0 < gpg → Forall (shrinks fdiv fltb) weight → weight ≠ [] →
  length weight ≤ gpg * ppg →
  ∃ es ks cs : list nat,
    balance_node fzero fadd fdiv fltb argsort argmax uninit (gpg * ppg) gpg ppg base weight =
      Ok ((λ e, base + Z.of_nat e)%Z <$> es, Z.of_nat <$> ks, Z.of_nat <$> cs) ∧
    length es = gpg * ppg ∧ length ks = gpg * ppg ∧ length cs = length weight ∧ replicas (gpg * ppg) es ks cs.
Proof.
  intros Hg Hw Hne Hle. unfold balance_node. set (n := gpg * ppg) in *.
  destruct (replicate_experts_ok fdiv fltb argmax argmax_ok fle_trans weight n Hw Hne Hle)
    as (es & ks & cs & -> & Hlc & Hles & Hlks & R & _). cbn [mbind result_bind phy2log rank logcnt].
  destruct (gather_ok (loads fdiv weight (Z.of_nat <$> cs)) es) as (tokens & -> & Hlt & _).
  { intros e [j Hj]%list_elem_of_lookup. pose proof (lookup_lt_Some _ _ _ Hj).
    destruct (rp_at _ _ _ _ R j) as (e' & k & c & H1 & _ & H3 & _); [lia|]. simplify_eq.
    unfold loads. rewrite length_zip_with, length_fmap. apply lookup_lt_Some in H3. lia. }
  cbn [mbind result_bind].
  destruct (balanced_packing_ok fzero fadd fltb argsort argsort_perm tokens gpg ppg Hg) as (ps & rs & -> & P);
    [unfold n in *; lia|]. cbn [mbind result_bind].
  assert (Ez : zip_with (λ p r : Z, (p * Z.of_nat ppg + r)%Z) (Z.of_nat <$> ps) (Z.of_nat <$> rs) =
    Z.of_nat <$> zip_with (λ p r, p * ppg + r) ps rs).
  { clear. revert rs. induction ps as [|p ps IH]; intros [|r rs]; try done. rewrite !fmap_cons. cbn [zip_with].
    rewrite fmap_cons, IH. f_equal. lia. }
  rewrite Ez. destruct (perm_inverse uninit _ _ (pl_places _ _ _ _ _ P)) as (inv & -> & HI). cbn [mbind result_bind].
  destruct (inverse_range n _ _ 0 HI) as [Hin _]. pose proof HI as (_ & Hli & _).
  destruct (gather_nat es inv) as (es' & -> & Hles' & He'); [intros i Hi; rewrite Hles; by apply Hin|].
  destruct (gather_nat ks inv) as (ks' & -> & Hlks' & Hk'); [intros i Hi; rewrite Hlks; by apply Hin|].
  cbn [mbind result_bind]. exists es', ks', cs. split_and!; [|lia|lia|done|].
  - do 3 f_equal. by rewrite <- list_fmap_compose.
  - by eapply replicas_places.
Qed.

(** All nodes: a place belongs to the node of its expert. *)
Lemma balance_nodes_ok gpg ppg lpn rows : ∀ node, 0 < gpg → 0 < lpn → lpn ≤ gpg * ppg →
  Forall (λ row, length row = lpn ∧ Forall (shrinks fdiv fltb) row) rows →
  ∃ es ks cs : list nat,
    balance_nodes fzero fadd fdiv fltb argsort argmax uninit (gpg * ppg) gpg ppg lpn node rows =
      Ok ((λ e, Z.of_nat (node * lpn + e)) <$> es, Z.of_nat <$> ks, Z.of_nat <$> cs) ∧
    length es = length rows * (gpg * ppg) ∧ length ks = length rows * (gpg * ppg) ∧
    length cs = length rows * lpn ∧ replicas (length rows * (gpg * ppg)) es ks cs ∧
    ∀ j e, es !! j = Some e → e `div` lpn = j `div` (gpg * ppg).
Proof.
  induction rows as [|row rows IH]; intros node Hg Hlpn Hle HF.
  { exists [], [], []. split_and!; [done..| |done].
    split; [intros j; simpl; lia|done|intros j j'; simpl; lia|done|done]. }
  apply Forall_cons in HF as [[Hl Hw] HF]. cbn [balance_nodes].
  destruct (balance_node_ok gpg ppg (Z.of_nat (node * lpn)) row Hg Hw) as (es & ks & cs & -> & Hles & Hlks & Hlcs & R).
  { intros ->. simpl in Hl. lia. } { lia. }
  cbn [mbind result_bind].
  destruct (IH (S node) Hg Hlpn Hle HF) as (es' & ks' & cs' & -> & Hles' & Hlks' & Hlcs' & R' & Hnode).
  cbn [mbind result_bind]. set (n := gpg * ppg) in *.
  exists (es ++ (Nat.add (length cs) <$> es')), (ks ++ ks'), (cs ++ cs').
  split_and!; rewrite ?length_app, ?length_fmap; cbn [length Nat.mul]; try lia.
  - rewrite !fmap_app. rewrite <- list_fmap_compose. do 4 f_equal.
    + apply list_fmap_ext. intros i x _. lia.
    + apply list_fmap_ext. intros i x _. simpl. lia.
  - by apply replicas_app.
  - intros j e [He|[Hge He]]%lookup_app_Some.
    + pose proof (lookup_lt_Some _ _ _ He). destruct (rp_at _ _ _ _ R j) as (e' & k & c & H1 & _ & H3 & _); [lia|].
      simplify_eq. apply lookup_lt_Some in H3. rewrite !Nat.div_small by lia. done.
    + rewrite list_lookup_fmap in He. apply fmap_Some in He as (e' & He' & ->). specialize (Hnode _ _ He').
      rewrite Hles in *. rewrite Hlcs, Hl.
      replace j with ((j - n) + 1 * n) by lia. replace (lpn + e') with (e' + 1 * lpn) by lia.
      rewrite !Nat.div_add by (unfold n; nia). lia.
Qed.

Lemma rows_of_ok {A} n k (l : list A) : length l = n * k →
  length (rows_of n k l) = n ∧ ∀ row, row ∈ rows_of n k l → length row = k ∧ ∀ x, x ∈ row → x ∈ l.
Proof.
  intros Hl. unfold rows_of. split; [by rewrite length_fmap, length_seq|].
  intros row (i & -> & Hi%elem_of_seq)%list_elem_of_fmap. split.
  - rewrite length_take, length_drop. nia.
  - intros x Hx. assert (Hd : x ∈ drop (i * k) l) by (rewrite <- (take_drop k (drop _ l)); apply elem_of_app; by left).
    rewrite <- (take_drop (i * k) l). apply elem_of_app. by right.
Qed.

(** One layer: [gs] experts in a group, [gpn] groups on each of [nn] nodes, [gpg] GPUs on each
    node with [ppg] places each. *)
Lemma hierarchical_ok weight nn gpn gs gpg ppg : 0 < nn → 0 < gpn → 0 < gs → 0 < gpg → gpn * gs ≤ gpg * ppg →
  length weight = nn * gpn * gs → Forall (shrinks fdiv fltb) weight →
  ∃ es ks cs : list nat,
    rebalance_experts_hierarchical fzero fadd fdiv fltb argsort argmax uninit weight
      (nn * gpg * ppg) (nn * gpn) nn (nn * gpg) = Ok (Z.of_nat <$> es, Z.of_nat <$> ks, Z.of_nat <$> cs) ∧
    length es = nn * gpg * ppg ∧ length ks = nn * gpg * ppg ∧ length cs = length weight ∧
    replicas (nn * gpg * ppg) es ks cs ∧
    ∀ j j' e e', es !! j = Some e → es !! j' = Some e' → e `div` gs = e' `div` gs →
      j `div` (gpg * ppg) = j' `div` (gpg * ppg).
Proof.
  intros Hnn Hgpn Hgs Hgpg Hle Hlw Hw. unfold rebalance_experts_hierarchical. rewrite Hlw.
  rewrite !exact_div_ok by nia. cbn [mbind result_bind].
  assert (Hd : ∀ a b, (nn * a * b) `div` nn = a * b).
  { intros a b. rewrite <- Nat.mul_assoc, Nat.mul_comm. apply Nat.div_mul. lia. }
  rewrite !Hd. clear Hd.
  destruct (balanced_packing_ok fzero fadd fltb argsort argsort_perm (fsum fzero fadd <$> rows_of (nn * gpn) gs weight) nn gpn Hnn)
    as (ps & rs & -> & P); [rewrite length_fmap; by apply rows_of_ok|]. cbn [mbind result_bind].
  rewrite log_to_mlog_nat. pose proof (mlog_of_perm _ _ _ gs _ _ P) as Hp. set (l2m := mlog_of gpn gs ps rs) in *.
  destruct (perm_inverse uninit l2m _ Hp) as (m2l & -> & HI). cbn [mbind result_bind].
  destruct (inverse_range _ _ _ 0 HI) as [Hm2l _]. pose proof HI as (Hll & Hlm & Hinv).
  destruct (gather_ok weight m2l) as (tokens & -> & Hlt & Htok); [intros i Hi; rewrite Hlw; by apply Hm2l|].
  cbn [mbind result_bind]. rewrite Hlm in Hlt.
  destruct (rows_of_ok nn (gpn * gs) tokens) as [Hlr Hrows]; [lia|].
  destruct (balance_nodes_ok gpg ppg (gpn * gs) (rows_of nn (gpn * gs) tokens) 0) as (es & ks & cs & -> & Hles & Hlks & Hlcs & R & Hnode);
    [done|nia|done| |].
  { apply Forall_forall. intros row Hrow. destruct (Hrows row Hrow) as [Hr Hx]. split; [done|].
    apply Forall_forall. intros x Hxr. apply Hx in Hxr as [i Hi]%list_elem_of_lookup.
    destruct (lookup_lt_is_Some_2 m2l i) as [e He]; [apply lookup_lt_Some in Hi; lia|].
    rewrite (Htok _ _ He) in Hi. rewrite Forall_forall in Hw. apply Hw. by eapply list_elem_of_lookup_2. }
  cbn [mbind result_bind]. rewrite Hlr in *. cbn [Nat.mul Nat.add].
  change ((λ e, Z.of_nat e) <$> es) with (Z.of_nat <$> es).
  assert (Hes : ∀ e, e ∈ es → e < length m2l).
  { intros e [j Hj]%list_elem_of_lookup. pose proof (lookup_lt_Some _ _ _ Hj).
    destruct (rp_at _ _ _ _ R j) as (e' & k & c & H1 & _ & H3 & _); [lia|]. simplify_eq.
    apply lookup_lt_Some in H3. lia. }
  destruct (gather_nat m2l es Hes) as (es' & -> & Hles' & He'). cbn [mbind result_bind].
  destruct (gather_nat cs l2m) as (cs' & -> & Hlcs' & Hc').
  { intros i [k Hk]%list_elem_of_lookup. apply Hinv, lookup_lt_Some in Hk. lia. }
  cbn [mbind result_bind]. exists es', ks, cs'. split_and!; [done|lia|lia|lia| |].
  - replace (nn * gpg * ppg) with (nn * (gpg * ppg)) by lia.
    eapply (replicas_relabel _ _ es ks cs l2m m2l es' cs' R HI); [lia|done|done|lia].
  - assert (Hplace : ∀ j e, es' !! j = Some e → ∃ p, ps !! (e `div` gs) = Some p ∧ j `div` (gpg * ppg) = p).
    { intros j e He. destruct (lookup_lt_is_Some_2 es j) as [m Hm]; [apply lookup_lt_Some in He; lia|].
      rewrite (He' _ _ Hm) in He. apply Hinv in He as Hl2m. rewrite <- (Hnode _ _ Hm).
      pose proof (lookup_lt_Some _ _ _ Hl2m) as Hlt2. pose proof (pl_packs _ _ _ _ _ P) as Hps.
      pose proof (pl_ranks _ _ _ _ _ P) as Hrs.
      assert (Hdiv : e `div` gs < nn * gpn) by (apply Nat.Div0.div_lt_upper_bound; lia).
      destruct (lookup_lt_is_Some_2 ps (e `div` gs)) as [p Hpp]; [lia|].
      destruct (lookup_lt_is_Some_2 rs (e `div` gs)) as [r Hrr]; [lia|].
      destruct (pl_range _ _ _ _ _ P _ _ _ Hpp Hrr) as [_ Hr].
      pose proof (mlog_of_lookup gpn gs ps rs _ (e `mod` gs) p r Hpp Hrr ltac:(apply Nat.mod_upper_bound; lia)) as E.
      fold l2m in E. replace (e `div` gs * gs + e `mod` gs) with e in E.
      2:{ pose proof (Nat.div_mod_eq e gs). lia. }
      rewrite Hl2m in E. injection E as ->. exists p. split; [done|].
      pose proof (Nat.mod_upper_bound e gs ltac:(lia)).
      symmetry. apply Nat.div_unique with (r * gs + e `mod` gs); nia. }
    intros j j' e e' Hj Hj' Heq. destruct (Hplace j e Hj) as (p & Hpp & ->), (Hplace j' e' Hj') as (p' & Hpp' & ->).
    rewrite Heq in Hpp. congruence.
Qed.

(** ** The map from experts to places *)

(** What the maps say of one layer of [n] places: [m] has [M] entries for each expert, the
    places of its replicas in order, then -1. *)
Record layer_maps (n M gs per_node : nat) (es cs : list nat) (m : list Z) : Prop := {
  lm_replicas : ∃ ks, replicas n es ks cs ∧
    ∀ e c k, cs !! e = Some c → k < c → ∃ j, es !! j = Some e ∧ ks !! j = Some k ∧ m !! (e * M + k) = Some (Z.of_nat j);
  lm_rest : ∀ e c k, cs !! e = Some c → c ≤ k < M → m !! (e * M + k) = Some (-1)%Z;
  lm_length : length m = length cs * M;
  lm_nodes : ∀ j j' e e', es !! j = Some e → es !! j' = Some e' → e `div` gs = e' `div` gs →
    j `div` per_node = j' `div` per_node
}.

Lemma layer_maps_ok n M gs per_node es ks cs : replicas n es ks cs → length es = n → length ks = n →
  (∀ c, c ∈ cs → c ≤ M) →
  (∀ j j' e e', es !! j = Some e → es !! j' = Some e' → e `div` gs = e' `div` gs → j `div` per_node = j' `div` per_node) →
  ∃ m, scatter (zip_with (λ e k, e * Z.of_nat M + k)%Z (Z.of_nat <$> es) (Z.of_nat <$> ks)) (aranges n)
         (replicate (length cs * M) (-1)%Z) = Ok m ∧ layer_maps n M gs per_node es cs m.
Proof.
  intros R Hle Hlk HM Hnodes. pose proof R as [R1 R2 R3 _ _].
  assert (Ez : zip_with (λ e k, e * Z.of_nat M + k)%Z (Z.of_nat <$> es) (Z.of_nat <$> ks) =
    Z.of_nat <$> zip_with (λ e k, e * M + k) es ks).
  { clear. revert ks. induction es as [|e es IH]; intros [|k ks]; try done. rewrite !fmap_cons. cbn [zip_with].
    rewrite fmap_cons, IH. f_equal. lia. }
  rewrite Ez. clear Ez. set (is_ := zip_with (λ e k, e * M + k) es ks).
  assert (Hat : ∀ j i, is_ !! j = Some i → j < n ∧ ∃ e k c, es !! j = Some e ∧ ks !! j = Some k ∧ cs !! e = Some c ∧
    k < c ∧ c ≤ M ∧ i = e * M + k).
  { intros j i (e & k & -> & He & Hk)%lookup_zip_with_Some.
    assert (Hj : j < n) by (apply lookup_lt_Some in He; lia). split; [done|].
    destruct (R1 j Hj) as (e' & k' & c & H1 & H2 & H3 & H4). simplify_eq.
    exists e, k, c. split_and!; try done. apply HM. by eapply list_elem_of_lookup_2. }
  assert (Hdec : ∀ e k e' k', k < M → k' < M → e * M + k = e' * M + k' → e = e' ∧ k = k').
  { intros e k e' k' H1 H2 E. rewrite (Nat.mul_comm e), (Nat.mul_comm e') in E. by apply Nat.div_mod_unique in E. }
  destruct (scatter_ok is_ (aranges n) (replicate (length cs * M) (-1)%Z)) as (m & -> & Hl & Hk & Ho).
  { apply NoDup_alt. intros j j' i Hj Hj'.
    destruct (Hat _ _ Hj) as (Hjn & e & k & c & H1 & H2 & H3 & H4 & H5 & ->).
    destruct (Hat _ _ Hj') as (Hjn' & e' & k' & c' & H1' & H2' & H3' & H4' & H5' & E).
    destruct (Hdec e k e' k') as [<- <-]; [lia|lia|done|]. apply R3; congruence. }
  { unfold is_, aranges. rewrite length_zip_with, length_fmap, length_seq. lia. }
  { intros i [j Hj]%list_elem_of_lookup. destruct (Hat _ _ Hj) as (_ & e & k & c & H1 & H2 & H3 & H4 & H5 & ->).
    rewrite length_replicate. apply lookup_lt_Some in H3. nia. }
  exists m. split; [done|]. rewrite length_replicate in Hl. split; [|idtac|done|exact Hnodes].
  - exists ks. split; [done|]. intros e c k He Hlt. destruct (R2 e c k He Hlt) as (j & Hj & H1 & H2).
    exists j. split_and!; [done..|]. rewrite (Hk j); [by apply aranges_lookup|].
    apply lookup_zip_with_Some. by exists e, k.
  - intros e c k He [Hc HkM]. rewrite Ho.
    + apply lookup_replicate. split; [done|]. apply lookup_lt_Some in He. nia.
    + intros [j Hj]%list_elem_of_lookup. destruct (Hat _ _ Hj) as (_ & e' & k' & c' & H1 & H2 & H3 & H4 & H5 & E).
      destruct (Hdec e k e' k') as [<- <-]; [lia|lia|done|]. simplify_eq. lia.
Qed.

Lemma foldl_max (l : list nat) : ∃ M, foldl Z.max 0%Z (Z.of_nat <$> l) = Z.of_nat M ∧ ∀ c, c ∈ l → c ≤ M.
Proof.
  assert (H : ∀ a, ∃ M, foldl Z.max (Z.of_nat a) (Z.of_nat <$> l) = Z.of_nat M ∧ a ≤ M ∧ ∀ c, c ∈ l → c ≤ M).
  { induction l as [|x l IH]; intros a; [exists a; split_and!; [done|lia|by intros c ?%elem_of_nil]|].
    rewrite fmap_cons. cbn [foldl]. rewrite <- Nat2Z.inj_max. destruct (IH (a `max` x)) as (M & -> & Ha & Hc).
    exists M. split_and!; [done|lia|]. intros c [->|Hin]%elem_of_cons; [lia|by apply Hc]. }
  destruct (H 0) as (M & E & _ & Hc). by exists M.
Qed.

(** A row-wise operation succeeds when it does on each row. *)
Lemma rmap_ok {A B C} (f : A → result B) (conv : C → B) (P : A → C → Prop) (l : list A) :
  (∀ x, x ∈ l → ∃ y, f x = Ok (conv y) ∧ P x y) → ∃ ys, rmap f l = Ok (conv <$> ys) ∧ Forall2 P l ys.
Proof.
  induction l as [|x l IH]; intros H; [exists []; by split; [|constructor]|]. cbn [rmap].
  destruct (H x) as (y & -> & Hy); [left|]. destruct IH as (ys & -> & Hys); [intros z Hz; apply H; by right|].
  exists (y :: ys). split; [done|by constructor].
Qed.

(** The maps of a layer as tensors of integers. *)
Definition tensor (l : list nat) : list Z := Z.of_nat <$> l.

Definition tensors (t : list nat * list nat * list nat) : list Z * list Z * list Z :=
  (Z.of_nat <$> t.1.1, Z.of_nat <$> t.1.2, Z.of_nat <$> t.2).

Definition layer_ok (n m gs per_node : nat) (t : list nat * list nat * list nat) : Prop :=
  length t.1.1 = n ∧ length t.1.2 = n ∧ length t.2 = m ∧ replicas n t.1.1 t.1.2 t.2 ∧
  ∀ j j' e e', t.1.1 !! j = Some e → t.1.1 !! j' = Some e' → e `div` gs = e' `div` gs →
    j `div` per_node = j' `div` per_node.

Lemma layers_ok weights nn gpn gs gpg ppg : 0 < nn → 0 < gpn → 0 < gs → 0 < gpg → gpn * gs ≤ gpg * ppg →
  Forall (λ w, length w = nn * gpn * gs ∧ Forall (shrinks fdiv fltb) w) weights →
  ∃ T, rmap (λ w, rebalance_experts_hierarchical fzero fadd fdiv fltb argsort argmax uninit w
                    (nn * gpg * ppg) (nn * gpn) nn (nn * gpg)) weights = Ok (tensors <$> T) ∧
    Forall2 (λ _, layer_ok (nn * gpg * ppg) (nn * gpn * gs) gs (gpg * ppg)) weights T.
Proof.
  intros Hnn Hgpn Hgs Hgpg Hle Hw. apply rmap_ok. intros w Hin. rewrite Forall_forall in Hw.
  destruct (Hw w Hin) as [Hlw Hsh].
  destruct (hierarchical_ok w nn gpn gs gpg ppg Hnn Hgpn Hgs Hgpg Hle Hlw Hsh) as (es & ks & cs & E & H1 & H2 & H3 & R & Hd).
  exists (es, ks, cs). split; [exact E|]. rewrite <- Hlw. by split_and!.
Qed.

Lemma log2phy_ok n m M gs per_node T : Forall (layer_ok n m gs per_node) T → (∀ c, c ∈ concat (snd <$> T) → c ≤ M) →
  ∃ ms, rmap (λ '(p2l, r, c),
      scatter (zip_with (λ e k, e * Z.of_nat M + k)%Z p2l r) (aranges n) (replicate (length c * M) (-1)%Z))
      (tensors <$> T) = Ok ms ∧
    Forall2 (λ t m, layer_maps n M gs per_node t.1.1 t.2 m) T ms.
Proof.
  intros HT HM. induction HT as [|[[es ks] cs] T (H1 & H2 & _ & R & Hd) _ IH]; [by exists []|].
  cbn [fst snd] in *. rewrite fmap_cons. cbn [rmap]. change (tensors (es, ks, cs)) with (Z.of_nat <$> es, Z.of_nat <$> ks, Z.of_nat <$> cs). cbv beta iota. rewrite length_fmap.
  destruct (layer_maps_ok n M gs per_node es ks cs R H1 H2) as (m' & -> & Hm); [|done|].
  { intros c Hc. apply HM. rewrite fmap_cons. apply elem_of_app. by left. }
  destruct IH as (ms & E & Hms); [intros c Hc; apply HM; rewrite fmap_cons; apply elem_of_app; by right|].
  cbn [mbind result_bind]. rewrite E. exists (m' :: ms). split; [done|by constructor].
Qed.

Lemma counts_of_tensors T : concat (snd <$> (tensors <$> T)) = Z.of_nat <$> concat (snd <$> T).
Proof. induction T as [|t T IH]; [done|]. rewrite !fmap_cons. cbn [concat]. by rewrite fmap_app, <- IH. Qed.

Lemma rebalance_experts_ok weights nn gpn gs gpg ppg num_groups num_nodes (enable_hierarchical : bool) :
  (if enable_hierarchical then num_groups = nn * gpn ∧ num_nodes = nn else nn = 1 ∧ gpn = 1) →
  0 < nn → 0 < gpn → 0 < gs → 0 < gpg → gpn * gs ≤ gpg * ppg → weights ≠ [] →
  Forall (λ w, length w = nn * gpn * gs ∧ Forall (shrinks fdiv fltb) w) weights →
  ∃ (phy2log logcnt : list (list nat)) (log2phy : list (list Z)) (M : nat),
    rebalance_experts fzero fadd fdiv fltb argsort argmax uninit weights (nn * gpg * ppg) num_groups num_nodes
      (nn * gpg) enable_hierarchical =
      Ok (tensor <$> phy2log, log2phy, tensor <$> logcnt) ∧
    length phy2log = length weights ∧ length logcnt = length weights ∧ length log2phy = length weights ∧
    ∀ l es cs m, phy2log !! l = Some es → logcnt !! l = Some cs → log2phy !! l = Some m →
      length es = nn * gpg * ppg ∧ length cs = nn * gpn * gs ∧ layer_maps (nn * gpg * ppg) M gs (gpg * ppg) es cs m.
Proof.
  intros Hh Hnn Hgpn Hgs Hgpg Hle Hne Hw.
  destruct (layers_ok weights nn gpn gs gpg ppg Hnn Hgpn Hgs Hgpg Hle Hw) as (T & E & HT).
  set (n := nn * gpg * ppg) in *. unfold rebalance_experts.
  assert (Emaps : rmap (λ w,
    if enable_hierarchical
    then rebalance_experts_hierarchical fzero fadd fdiv fltb argsort argmax uninit w n num_groups num_nodes (nn * gpg)
    else rebalance_experts_hierarchical fzero fadd fdiv fltb argsort argmax uninit w n 1 1 (nn * gpg)) weights
    = Ok (tensors <$> T)) by (rewrite <- E; destruct enable_hierarchical, Hh as [-> ->]; reflexivity).
  rewrite Emaps. cbn [mbind result_bind]. clear E Emaps Hh. rewrite counts_of_tensors.
  pose proof (Forall2_length _ _ _ HT) as HlT. rewrite bool_decide_eq_false_2.
  2:{ destruct HT as [|w t weights' T' (_ & _ & H3 & _) _]; [done|]. rewrite fmap_cons. cbn [concat].
      destruct t.2; [simpl in H3; nia|done]. }
  destruct (foldl_max (concat (snd <$> T))) as (M & -> & HM). rewrite Nat2Z.id.
  assert (HT' : Forall (layer_ok n (nn * gpn * gs) gs (gpg * ppg)) T).
  { apply Forall_lookup. intros l t Ht. by destruct (Forall2_lookup_r _ _ _ _ _ HT Ht) as (w & _ & L). }
  destruct (log2phy_ok n _ M gs (gpg * ppg) T HT' HM) as (ms & -> & Hms). cbn [mbind result_bind].
  pose proof (Forall2_length _ _ _ Hms) as Hlm.
  exists ((λ t, t.1.1) <$> T), (snd <$> T), ms, M. split; [by rewrite <- !list_fmap_compose|].
  rewrite !length_fmap. split_and!; [lia..|]. intros l es cs m He Hc Hm. rewrite list_lookup_fmap in He, Hc.
  destruct (T !! l) as [t|] eqn:Ht; [|done]. injection He as <-. injection Hc as <-.
  rewrite Forall_lookup in HT'. destruct (HT' l t Ht) as (H1 & _ & H3 & _). split_and!; [done..|].
  by eapply (Forall2_lookup_lr _ _ _ _ _ _ Hms).
Qed.

(** C36: [rebalance_experts()], with the hierarchical policy ([gs] experts in a group, [gpn]
    groups on each of [nn] nodes) or the global one: for every layer, each of the places of
    [physical_to_logical_map] holds a replica of an expert, each replica has one place, the
    counts add up to the places and no expert is left without one; the entries of
    [logical_to_physical_map] of an expert are the places of its replicas by rank, then -1;
    and under the hierarchical policy the experts of a group are all on one node. *)
Theorem rebalance_experts_correct weights nn gpn gs gpg ppg num_groups num_nodes (enable_hierarchical : bool) :
  (if enable_hierarchical then num_groups = nn * gpn ∧ num_nodes = nn else nn = 1 ∧ gpn = 1) →
  0 < nn → 0 < gpn → 0 < gs → 0 < gpg → gpn * gs ≤ gpg * ppg → weights ≠ [] →
  Forall (λ w, length w = nn * gpn * gs ∧ Forall (shrinks fdiv fltb) w) weights →
  ∃ (phy2log logcnt : list (list nat)) (log2phy : list (list Z)) (M : nat),
    rebalance_experts fzero fadd fdiv fltb argsort argmax uninit weights (nn * gpg * ppg) num_groups num_nodes
      (nn * gpg) enable_hierarchical = Ok (tensor <$> phy2log, log2phy, tensor <$> logcnt) ∧
    length phy2log = length weights ∧ length logcnt = length weights ∧ length log2phy = length weights ∧
    ∀ l es cs m, phy2log !! l = Some es → logcnt !! l = Some cs → log2phy !! l = Some m →
      length es = nn * gpg * ppg ∧ length cs = nn * gpn * gs ∧ layer_maps (nn * gpg * ppg) M gs (gpg * ppg) es cs m.
Proof. exact (rebalance_experts_ok weights nn gpn gs gpg ppg num_groups num_nodes enable_hierarchical). Qed.
End balance.

(** The example of the algorithm's authors: 12 experts in 4 groups, 16 places on 2 nodes of
    4 GPUs. *)
Definition ex_weights : list (list Z) :=
  [[90; 132; 40; 61; 104; 165; 39; 4; 73; 56; 183; 86]; [20; 107; 104; 64; 19; 197; 187; 157; 172; 86; 16; 27]]%Z.

Lemma rebalance_experts_correct_witness :
  (λ r, r.1.1) <$> rebalance_experts 0%Z Z.add Z.div Z.ltb descending max_index (λ _, 7%Z) ex_weights 16 4 2 8 true =
    Ok [[5; 6; 5; 7; 8; 4; 3; 4; 10; 9; 10; 2; 0; 1; 11; 1]; [7; 10; 6; 8; 6; 11; 8; 9; 2; 4; 5; 1; 5; 0; 3; 1]]%Z ∧
  ∃ (phy2log logcnt : list (list nat)) (log2phy : list (list Z)) (M : nat),
    rebalance_experts 0%Z Z.add Z.div Z.ltb descending max_index (λ _, 7%Z) ex_weights 16 4 2 8 true =
      Ok (tensor <$> phy2log, log2phy, tensor <$> logcnt) ∧
    length phy2log = 2 ∧ length logcnt = 2 ∧ length log2phy = 2 ∧
    ∀ l es cs m, phy2log !! l = Some es → logcnt !! l = Some cs → log2phy !! l = Some m →
      length es = 16 ∧ length cs = 12 ∧ layer_maps 16 M 3 8 es cs m.
Proof.
  split; [vm_compute; reflexivity|].
  apply (rebalance_experts_correct 0%Z Z.add Z.div Z.ltb descending max_index (λ _, 7%Z) descending_perm max_index_ok
    Zle_trans ex_weights 2 2 3 4 2 4 2 true); try lia; [done|].
  repeat constructor; by apply Zshrinks.
Defined.
