(* ===== verification/ExpertUpdate.v ===== *)
(** * Moving the weights of experts between ranks

    [src/python/sglang/srt/model_executor/expert_location_updater.py]. When the placement of
    experts changes, every rank plans alone which experts it receives, from whom, and which it
    sends to whom; the ranks then exchange their messages at once. *)

From S2P Require Import Prelude PySort.

(** ** [class _ChunkUtils] *)

Definition divmod (a b : nat) : result (nat * nat) :=
  if decide (b = 0) then Raise ZeroDivisionError else Ok (a / b, a `mod` b).

(** [list.index] and indexing. *)
Fixpoint index_of {A} `{EqDecision A} (x : A) (xs : list A) : result nat :=
  match xs with
  | [] => Raise (ValueError "x not in list")
  | y :: xs => if decide (x = y) then Ok 0 else S <$> index_of x xs
  end.
Definition nth_item {A} (xs : list A) (i : nat) : result A :=
  match xs !! i with Some x => Ok x | None => Raise IndexError end.

Record _ChunkUtils := MkChunks { chunk_values : list nat; element_values : list nat }.

Definition _chunk_index_from_element_index (num_elements num_chunks element_index : nat) : result nat :=
  '(short_chunk_size, num_long_chunks) ← divmod num_elements num_chunks;
  let num_elements_for_long_chunks := num_long_chunks * (short_chunk_size + 1) in
  if decide (element_index < num_elements_for_long_chunks) then
    fst <$> divmod element_index (short_chunk_size + 1)
  else
    '(q, _) ← divmod (element_index - num_elements_for_long_chunks) short_chunk_size;
    mret (num_long_chunks + q).

Definition _element_slice_from_chunk_index (num_elements num_chunks chunk_index : nat) : result (nat * nat) :=
  '(short_chunk_size, num_long_chunks) ← divmod num_elements num_chunks;
  let start := chunk_index * short_chunk_size + chunk_index `min` num_long_chunks in
  let stop := start + short_chunk_size + (if decide (chunk_index < num_long_chunks) then 1 else 0) in
  mret (start, stop).

Definition chunk_value_from_element_value (c : _ChunkUtils) (element_value : nat) : result nat :=
  element_index ← index_of element_value (element_values c);
  chunk_index ← _chunk_index_from_element_index (length (element_values c)) (length (chunk_values c)) element_index;
  nth_item (chunk_values c) chunk_index.

Definition element_values_from_chunk_value (c : _ChunkUtils) (chunk_value : nat) : result (list nat) :=
  if decide (length (element_values c) = 0) then mret [] else
  chunk_index ← index_of chunk_value (chunk_values c);
  '(start, stop) ← _element_slice_from_chunk_index (length (element_values c)) (length (chunk_values c)) chunk_index;
  mret (slice start stop (element_values c)).

Definition _deduplicate_ordered (arr : list nat) : list nat :=
  foldl (λ output item,
    if decide (output = [] ∨ last output ≠ Some item) then output ++ [item] else output) [] arr.

(** ** One layer on one rank *)

(** A message of tensor [i]: received into row [loc] of the temporary buffer, or sent from row
    [loc] of the weights. *)
Inductive P2POp :=
  | irecv (i loc : nat) (peer : nat)
  | isend (i loc : nat) (peer : nat).

Section layer.
Context {W : Type}.

(** The tensors of a rank, [routed_experts_weights] and [temp_buffers] by tensor and local
    expert, and the two lists that [_entrypoint] fills. *)
Record Layer := MkLayer {
  routed_experts_weights : list (list W);
  temp_buffers : list (list W);
  buffer2weight_copy_infos : list (nat * nat);
  p2p_op_infos : list (Z * list P2POp)
}.

Definition set_temp t s := MkLayer (routed_experts_weights s) t (buffer2weight_copy_infos s) (p2p_op_infos s).
Definition set_weights w s := MkLayer w (temp_buffers s) (buffer2weight_copy_infos s) (p2p_op_infos s).
Definition add_copy c s := MkLayer (routed_experts_weights s) (temp_buffers s)
  (buffer2weight_copy_infos s ++ [c]) (p2p_op_infos s).
Definition add_ops l ops s := MkLayer (routed_experts_weights s) (temp_buffers s)
  (buffer2weight_copy_infos s) (p2p_op_infos s ++ [(l, ops)]).

Section rank.
Context (num_tensors : nat) (old_physical_to_logical_map new_physical_to_logical_map : list Z).
Context (num_local_physical_experts num_gpu_per_node rank : nat).

Definition num_physical_experts : nat := length old_physical_to_logical_map.
Definition node_of (rank : nat) : nat := rank / num_gpu_per_node.
Definition rank_of (loc : nat) : nat := loc / num_local_physical_experts.

(** [range( *local_expert_location_range)]. *)
Definition local_locations : list nat := seq (rank * num_local_physical_experts) num_local_physical_experts.

Definition _get_local_expert_location (expert_location : nat) : M Layer nat :=
  if decide (rank * num_local_physical_experts ≤ expert_location < (rank + 1) * num_local_physical_experts)
  then mret (expert_location `mod` num_local_physical_experts)
  else raise AssertionError.

(** [_get_tensor(dst, i, x).copy_(_get_tensor(src, i, y))] for every tensor [i]. *)
Definition set_row (rows : list W) (dst : nat) (v : W) : option (list W) :=
  match rows !! dst with Some _ => Some (<[dst := v]> rows) | None => None end.
Definition copy_rows (dsts srcs : list (list W)) (dst src : nat) : option (list (list W)) :=
  mapM (λ '(d, s), v ← s !! src; set_row d dst v) (zip dsts srcs).

Definition copy_to_temp (dst src : nat) : M Layer unit :=
  s ← get; d ← _get_local_expert_location dst; y ← _get_local_expert_location src;
  t ← of_option IndexError (copy_rows (temp_buffers s) (routed_experts_weights s) d y);
  modify (set_temp t).
Definition copy_to_weights (src dst : nat) : M Layer unit :=
  s ← get; d ← _get_local_expert_location dst; y ← _get_local_expert_location src;
  w ← of_option IndexError (copy_rows (routed_experts_weights s) (temp_buffers s) d y);
  modify (set_weights w).

Definition all_src_ranks (logical_expert_id : Z) : list nat :=
  _deduplicate_ordered
    (rank_of <$> filter (λ x, old_physical_to_logical_map !! x = Some logical_expert_id) (seq 0 num_physical_experts)).
Definition need_comm_dst_ranks (logical_expert_id : Z) : list nat :=
  _deduplicate_ordered
    (rank_of <$> filter (λ x, new_physical_to_logical_map !! x = Some logical_expert_id ∧
                              rank_of x ∉ all_src_ranks logical_expert_id) (seq 0 num_physical_experts)).

Definition _compute_comm_info (logical_expert_id : Z) : result (_ChunkUtils * _ChunkUtils * list nat) :=
  let all_src_ranks := all_src_ranks logical_expert_id in
  let all_src_nodes := node_of <$> all_src_ranks in
  let self_node_src_ranks := filter (λ x, node_of x = node_of rank) all_src_ranks in
  if decide (length new_physical_to_logical_map < num_physical_experts) then Raise IndexError else
  let need_comm_dst_ranks := need_comm_dst_ranks logical_expert_id in
  let need_comm_self_node_dst_ranks :=
    if decide (0 < length self_node_src_ranks) then filter (λ x, node_of x = node_of rank) need_comm_dst_ranks else [] in
  let need_comm_cross_node_dst_ranks := filter (λ x, node_of x ∉ all_src_nodes) need_comm_dst_ranks in
  mret (MkChunks self_node_src_ranks need_comm_self_node_dst_ranks,
        MkChunks all_src_ranks need_comm_cross_node_dst_ranks,
        need_comm_self_node_dst_ranks).

Definition lift {A} (r : result A) : M Layer A := λ s, (r, s).

Definition _create_p2p_recv_and_buffer2weight_copy (logical_expert_id : Z) (src_rank dst_expert_location : nat) : M Layer unit :=
  loc ← _get_local_expert_location dst_expert_location;
  _ ← modify (add_ops logical_expert_id ((λ i, irecv i loc src_rank) <$> seq 0 num_tensors));
  modify (add_copy (dst_expert_location, dst_expert_location)).

(** The first [x] of [xs] with [m[x] == v]. *)
Fixpoint first_location (m : list Z) (v : Z) (xs : list nat) : result (option nat) :=
  match xs with
  | [] => mret None
  | x :: xs => y ← nth_item m x; if decide (y = v) then mret (Some x) else first_location m v xs
  end.

Definition _handle_recv_of_dst_expert_location (dst_expert_location : nat) : M Layer unit :=
  logical_expert_id ← lift (nth_item new_physical_to_logical_map dst_expert_location);
  old ← lift (nth_item old_physical_to_logical_map dst_expert_location);
  (* case 1: unchanged *)
  if decide (old = logical_expert_id) then mret tt else
  (* case 2: same-gpu *)
  same_gpu ← lift (first_location old_physical_to_logical_map logical_expert_id local_locations);
  match same_gpu with
  | Some src_expert_location =>
      _ ← copy_to_temp dst_expert_location src_expert_location;
      modify (add_copy (dst_expert_location, dst_expert_location))
  | None =>
  (* case 3: free-rider *)
  free_rider ← lift (first_location new_physical_to_logical_map logical_expert_id
    (seq (rank * num_local_physical_experts) (dst_expert_location - rank * num_local_physical_experts)));
  match free_rider with
  | Some src_expert_location => modify (add_copy (src_expert_location, dst_expert_location))
  | None =>
      '(same_node_mapping, cross_node_mapping, need_comm_self_node_dst_ranks) ← lift (_compute_comm_info logical_expert_id);
      if decide (rank ∈ need_comm_self_node_dst_ranks) then
        (* case 4: same-node *)
        chosen_src_rank ← lift (chunk_value_from_element_value same_node_mapping rank);
        _create_p2p_recv_and_buffer2weight_copy logical_expert_id chosen_src_rank dst_expert_location
      else
        (* case 5: cross-node *)
        chosen_src_rank ← lift (chunk_value_from_element_value cross_node_mapping rank);
        _create_p2p_recv_and_buffer2weight_copy logical_expert_id chosen_src_rank dst_expert_location
  end end.

Fixpoint for_all {A} (xs : list A) (f : A → M Layer unit) : M Layer unit :=
  match xs with [] => mret tt | x :: xs => _ ← f x; for_all xs f end.

Definition _handle_recv : M Layer unit := for_all local_locations _handle_recv_of_dst_expert_location.

Definition _create_isend_ops_of_logical_expert_id (logical_expert_id : Z) (src_expert_location : nat) : M Layer unit :=
  '(same_node_mapping, cross_node_mapping, _) ← lift (_compute_comm_info logical_expert_id);
  same_node_dst_ranks ← lift (element_values_from_chunk_value same_node_mapping rank);
  cross_node_dst_ranks ← lift (element_values_from_chunk_value cross_node_mapping rank);
  let all_dst_ranks := same_node_dst_ranks ++ cross_node_dst_ranks in
  loc ← _get_local_expert_location src_expert_location;
  modify (add_ops logical_expert_id
    (concat ((λ dst_rank, (λ i, isend i loc dst_rank) <$> seq 0 num_tensors) <$> all_dst_ranks))).

Fixpoint create_isend_loop (locs : list nat) (handled_logical_expert_ids : list Z) : M Layer unit :=
  match locs with
  | [] => mret tt
  | src_expert_location :: locs =>
      logical_expert_id ← lift (nth_item old_physical_to_logical_map src_expert_location);
      if decide (logical_expert_id ∈ handled_logical_expert_ids) then create_isend_loop locs handled_logical_expert_ids
      else
        _ ← _create_isend_ops_of_logical_expert_id logical_expert_id src_expert_location;
        create_isend_loop locs (logical_expert_id :: handled_logical_expert_ids)
  end.

Definition _create_isend_ops : M Layer unit := create_isend_loop local_locations [].

(** What is handed to [batch_isend_irecv]. *)
Definition p2p_ops (s : Layer) : list P2POp :=
  concat (snd <$> sort_by Zleb fst (p2p_op_infos s)).

(** The assertion, [self_node_id] and everything before the exchange. *)
Definition plan : M Layer (list P2POp) :=
  s ← get;
  if decide (Forall (λ t, length t = num_local_physical_experts) (routed_experts_weights s)) then
    if decide (num_gpu_per_node = 0) then raise ZeroDivisionError else
    _ ← _handle_recv; _ ← _create_isend_ops; gets p2p_ops
  else raise AssertionError.

Definition _execute_buffer2weight_copies : M Layer unit :=
  s ← get; for_all (buffer2weight_copy_infos s) (λ '(src, dst), copy_to_weights src dst).
End rank.

(** ** The exchange and all ranks together *)

(** A message on the wire: what is sent to a peer, or that something is expected from it. *)
Inductive WireOp := WSend (v : W) (peer : nat) | WRecv (peer : nat).

Definition sends_to (s : nat) (ops : list WireOp) : list W :=
  omap (λ op, match op with WSend v p => if decide (p = s) then Some v else None | WRecv _ => None end) ops.
Definition recv_peers (ops : list WireOp) : list nat :=
  omap (λ op, match op with WSend _ _ => None | WRecv p => Some p end) ops.
Definition recvs_from (r : nat) (peers : list nat) (vs : list W) : list W :=
  snd <$> filter (λ pv, pv.1 = r) (zip peers vs).

Definition wire (s : Layer) (op : P2POp) : option WireOp :=
  match op with
  | isend i loc peer => v ← routed_experts_weights s !! i ≫= (.!! loc); Some (WSend v peer)
  | irecv _ _ peer => Some (WRecv peer)
  end.

(** What arrives is written to the rows of the receives. *)
Definition write_temp (i loc : nat) (v : W) (t : list (list W)) : list (list W) := alter (<[loc := v]>) i t.
Definition recv_slots (ops : list P2POp) : list (nat * nat) :=
  omap (λ op, match op with irecv i loc _ => Some (i, loc) | isend _ _ _ => None end) ops.
Definition arrive (ops : list P2POp) (vs : list W) (s : Layer) : Layer :=
  set_temp (foldl (λ t '(i, loc, v), write_temp i loc v t) (temp_buffers s) (zip (recv_slots ops) vs)) s.

Section world.
(** [torch.distributed.batch_isend_irecv], called by all ranks, and the waits: what the
    receives of every rank get, in their order; [None] when some of them wait for ever. *)
Context (batch_isend_irecv : list (list WireOp) → option (list (list W))).

(** [update_expert_weights_single_layer] on every rank, each with its weights and buffers;
    [None] when it never returns. *)
Definition plan_all (old_map new_map : list Z) (num_local_physical_experts num_gpu_per_node : nat)
    (ranks : list (list (list W) * list (list W))) : result (list (list P2POp * Layer)) :=
  mapM (λ '(rank, (weights, temp)),
    match plan (length weights) old_map new_map num_local_physical_experts num_gpu_per_node rank
            (MkLayer weights temp [] []) with
    | (Ok ops, s) => Ok (ops, s)
    | (Raise e, _) => Raise e
    end) (imap pair ranks).

Definition finish_all (num_local_physical_experts : nat) (planned : list (list P2POp * Layer)) (received : list (list W))
    : result (list (list (list W) * list (list W))) :=
  mapM (λ '(rank, ((ops, s), vs)),
    match _execute_buffer2weight_copies num_local_physical_experts rank (arrive ops vs s) with
    | (Ok _, s) => Ok (routed_experts_weights s, temp_buffers s)
    | (Raise e, _) => Raise e
    end) (imap pair (zip planned received)).

Definition update_expert_weights_single_layer (old_map new_map : list Z)
    (num_local_physical_experts num_gpu_per_node : nat) (ranks : list (list (list W) * list (list W)))
    : option (result (list (list (list W) * list (list W)))) :=
  match plan_all old_map new_map num_local_physical_experts num_gpu_per_node ranks with
  | Raise e => Some (Raise e)
  | Ok planned =>
      match mapM (λ '(ops, s), mapM (wire s) ops) planned with
      | None => Some (Raise IndexError)
      | Some wires => finish_all num_local_physical_experts planned <$> batch_isend_irecv wires
      end
  end.
End world.
End layer.
