(* ===== verification/ExpertComm.v ===== *)
(** * Who sends what to whom

    Facts on the chunks of [ExpertUpdate] and on the lists of ranks that every rank computes:
    the choice a receiver makes is the choice the sender makes for it. *)

From S2P Require Import Prelude PySort ExpertUpdate.

(** ** Chunks *)

Lemma index_of_ok {A} `{EqDecision A} (x : A) xs : x ∈ xs → ∃ i, index_of x xs = Ok i ∧ xs !! i = Some x ∧ (∀ j, xs !! j = Some x → i ≤ j).
Proof.
  induction 1 as [x xs|x y xs Hx (i & E & L & M)]; cbn [index_of].
  - exists 0. rewrite decide_True by done. split_and!; [done..|]. intros. lia.
  - destruct (decide (x = y)) as [->|Hne].
    + exists 0. split_and!; [done..|]. intros. lia.
    + exists (S i). rewrite E. split_and!; [done..|]. intros [|j] Hj; [naive_solver|]. apply M in Hj. lia.
Qed.

Lemma index_of_lookup {A} `{EqDecision A} (x : A) xs i : NoDup xs → xs !! i = Some x → index_of x xs = Ok i.
Proof.
  intros ND L. destruct (index_of_ok x xs) as (j & E & Lj & _); [by eapply list_elem_of_lookup_2|].
  rewrite E. f_equal. by eapply NoDup_lookup.
Qed.

Section chunks.
Context (num_elements num_chunks : nat) (Hc : 0 < num_chunks).
Notation q := (num_elements / num_chunks).
Notation r := (num_elements `mod` num_chunks).

(** Where chunk [k] starts. *)
Definition chunk_start (k : nat) : nat := k * q + k `min` r.

Lemma element_slice_ok k : _element_slice_from_chunk_index num_elements num_chunks k =
  Ok (chunk_start k, chunk_start k + q + (if decide (k < r) then 1 else 0)).
Proof. unfold _element_slice_from_chunk_index, divmod. rewrite decide_False by lia. done. Qed.

Lemma chunk_start_succ k : chunk_start (S k) = chunk_start k + q + (if decide (k < r) then 1 else 0).
Proof. unfold chunk_start. destruct (decide _); nia. Qed.

Lemma chunk_start_mono k l : k ≤ l → chunk_start k ≤ chunk_start l.
Proof. induction 1 as [|l _ IH]; [done|]. rewrite chunk_start_succ. lia. Qed.

Lemma chunk_start_all : chunk_start num_chunks = num_elements.
Proof.
  unfold chunk_start. pose proof (Nat.mod_upper_bound num_elements num_chunks). rewrite Nat.min_r by lia.
  pose proof (Nat.div_mod_eq num_elements num_chunks). lia.
Qed.

(** The chunk index is the chunk that has the element. *)
Lemma chunk_index_ok i : i < num_elements →
  ∃ k, _chunk_index_from_element_index num_elements num_chunks i = Ok k ∧ k < num_chunks ∧
    chunk_start k ≤ i < chunk_start (S k).
Proof.
  intros Hi. pose proof (Nat.mod_upper_bound num_elements num_chunks) as Hr. pose proof (Nat.div_mod_eq num_elements num_chunks) as Hd.
  unfold _chunk_index_from_element_index, divmod. rewrite decide_False by lia. cbn -[Nat.div Nat.modulo chunk_start].
  destruct (decide _) as [Hlt|Hge].
  - rewrite decide_False by lia. cbn -[Nat.div Nat.modulo chunk_start]. set (k := i / (q + 1)).
    pose proof (Nat.div_mod_eq i (q + 1)). pose proof (Nat.mod_upper_bound i (q + 1)).
    assert (k < r) by (apply Nat.Div0.div_lt_upper_bound; lia).
    exists k. rewrite chunk_start_succ. unfold chunk_start. rewrite decide_True by done. rewrite Nat.min_l by lia.
    split_and!; [done|lia|..]; unfold k in *; nia.
  - assert (0 < q) by nia. rewrite decide_False by lia. cbn -[Nat.div Nat.modulo chunk_start].
    set (d := (i - r * (q + 1)) / q).
    pose proof (Nat.div_mod_eq (i - r * (q + 1)) q). pose proof (Nat.mod_upper_bound (i - r * (q + 1)) q).
    assert (d < num_chunks - r) by (apply Nat.Div0.div_lt_upper_bound; nia).
    exists (r + d). rewrite chunk_start_succ. unfold chunk_start. rewrite decide_False by lia. rewrite Nat.min_r by lia.
    split_and!; [done|lia|..]; unfold d in *; nia.
Qed.

Lemma chunk_unique k l i : chunk_start k ≤ i < chunk_start (S k) → chunk_start l ≤ i < chunk_start (S l) → k = l.
Proof.
  intros. destruct (Nat.lt_trichotomy k l) as [L|[|L]]; [|done|].
  - pose proof (chunk_start_mono (S k) l). lia.
  - pose proof (chunk_start_mono (S l) k). lia.
Qed.
End chunks.

(** Every element has one chunk value, and the elements of a value are those it was chosen for. *)
Section mapping.
Context (c : _ChunkUtils) (NDc : NoDup (chunk_values c)) (NDe : NoDup (element_values c)) (Hc : chunk_values c ≠ []).
Notation N := (length (element_values c)).
Notation K := (length (chunk_values c)).

Lemma some_chunk : 0 < K.
Proof. destruct (chunk_values c); [done|]. cbn. lia. Qed.

Lemma chunk_value_at i e : element_values c !! i = Some e →
  ∃ k v, chunk_value_from_element_value c e = Ok v ∧ chunk_values c !! k = Some v ∧ k < K ∧
    chunk_start N K k ≤ i < chunk_start N K (S k).
Proof.
  intros Hi. pose proof (lookup_lt_Some _ _ _ Hi).
  destruct (chunk_index_ok N K some_chunk i) as (k & E & Hk & Hb); [done|].
  destruct (lookup_lt_is_Some_2 (chunk_values c) k Hk) as [v Hv]. exists k, v. split_and!; [|done|done|lia|lia].
  unfold chunk_value_from_element_value. rewrite (index_of_lookup _ _ i) by done. cbn -[_chunk_index_from_element_index].
  rewrite E. cbn. unfold nth_item. by rewrite Hv.
Qed.

Lemma chunk_value_ok e : e ∈ element_values c →
  ∃ v, chunk_value_from_element_value c e = Ok v ∧ v ∈ chunk_values c.
Proof.
  intros (i & Hi)%list_elem_of_lookup. destruct (chunk_value_at i e Hi) as (k & v & E & Hv & _).
  exists v. split; [done|]. by eapply list_elem_of_lookup_2.
Qed.

Lemma lookup_slice {A} (xs : list A) a b i : slice a b xs !! i = if decide (a + i < b) then xs !! (a + i) else None.
Proof.
  unfold slice. destruct (decide _).
  - rewrite lookup_take_lt by lia. by rewrite lookup_drop.
  - rewrite lookup_take_ge by lia. done.
Qed.

Lemma element_values_ok v : v ∈ chunk_values c →
  ∃ es, element_values_from_chunk_value c v = Ok es ∧ NoDup es ∧
    ∀ e, e ∈ es ↔ e ∈ element_values c ∧ chunk_value_from_element_value c e = Ok v.
Proof.
  intros (k & Hk)%list_elem_of_lookup. pose proof (lookup_lt_Some _ _ _ Hk) as Hlt.
  unfold element_values_from_chunk_value. destruct (decide (N = 0)) as [E0|].
  { exists []. apply nil_length_inv in E0. rewrite E0. split_and!; [done|constructor|]. set_solver. }
  rewrite (index_of_lookup _ _ k) by done. cbn -[_element_slice_from_chunk_index].
  rewrite element_slice_ok by lia. rewrite <- chunk_start_succ by lia. cbn -[chunk_start].
  eexists. split; [done|]. split.
  { unfold slice. eapply sublist_NoDup; [exact NDe|].
    etransitivity; [apply sublist_take|apply sublist_drop]. }
  intros e. split.
  - intros (i & Hi)%list_elem_of_lookup. rewrite lookup_slice in Hi. destruct (decide _) as [Hin|]; [|done].
    split; [by eapply list_elem_of_lookup_2|]. destruct (chunk_value_at _ _ Hi) as (l & w & E & Hw & _ & Hl).
    assert (k = l) as -> by (apply (chunk_unique N K some_chunk k l (chunk_start N K k + i)); [lia|exact Hl]). congruence.
  - intros [(i & Hi)%list_elem_of_lookup E]. destruct (chunk_value_at _ _ Hi) as (l & w & E' & Hw & _ & Hl).
    assert (w = v) as -> by congruence. assert (k = l) as -> by exact (NoDup_lookup _ _ _ _ NDc Hk Hw).
    apply list_elem_of_lookup. exists (i - chunk_start N K l). rewrite lookup_slice, decide_True by lia.
    rewrite <- Hi. f_equal. lia.
Qed.
End mapping.

(** ** Ranks in order, each once *)

Fixpoint drop_repeats (y : nat) (arr : list nat) : list nat :=
  match arr with
  | [] => []
  | x :: arr => if decide (x = y) then drop_repeats y arr else x :: drop_repeats x arr
  end.

Lemma deduplicate_app out y arr :
  foldl (λ output item, if decide (output = [] ∨ last output ≠ Some item) then output ++ [item] else output)
    (out ++ [y]) arr = out ++ y :: drop_repeats y arr.
Proof.
  revert out y. induction arr as [|x arr IH]; intros out y; [done|]. cbn [foldl drop_repeats].
  rewrite last_snoc. destruct (decide (x = y)) as [->|Hne].
  - rewrite decide_False; [apply IH|]. intros [E|E]; [by destruct out|done].
  - rewrite decide_True by (right; congruence). rewrite IH. by rewrite <- app_assoc.
Qed.

Lemma drop_repeats_ok y arr : StronglySorted le (y :: arr) →
  StronglySorted lt (y :: drop_repeats y arr) ∧ ∀ x, x ∈ y :: drop_repeats y arr ↔ x ∈ y :: arr.
Proof.
  revert y. induction arr as [|x arr IH]; intros y HS; [split; [repeat constructor|done]|].
  apply StronglySorted_inv in HS as [HS Hy]. destruct (IH x HS) as [HL HE]. cbn [drop_repeats].
  destruct (decide (x = y)) as [->|Hne]; [split; [done|set_solver]|]. split; [|set_solver].
  constructor; [done|]. rewrite Forall_forall in Hy |- *. intros z Hz%HE.
  assert (y ≤ x) by (apply Hy; left). apply StronglySorted_inv in HS as [_ Hx].
  apply elem_of_cons in Hz as [->|Hz]; [lia|]. rewrite Forall_forall in Hx. specialize (Hx z Hz). lia.
Qed.

Lemma deduplicate_ok arr : StronglySorted le arr →
  StronglySorted lt (_deduplicate_ordered arr) ∧ ∀ x, x ∈ _deduplicate_ordered arr ↔ x ∈ arr.
Proof.
  intros HS. destruct arr as [|y arr]; [split; [constructor|done]|].
  unfold _deduplicate_ordered. cbn [foldl]. rewrite decide_True by (by left).
  rewrite (deduplicate_app []). by apply drop_repeats_ok.
Qed.

Lemma sorted_NoDup xs : StronglySorted lt xs → NoDup xs.
Proof.
  induction 1 as [|x xs _ IH Hx]; [constructor|]. constructor; [|done].
  rewrite Forall_forall in Hx. intros Hin. specialize (Hx x Hin). lia.
Qed.

Lemma sorted_ranks (P : nat → Prop) `{!∀ x, Decision (P x)} n a k :
  StronglySorted le ((λ x, x / n) <$> filter P (seq a k)).
Proof.
  revert a. induction k as [|k IH]; intros a; [constructor|]. cbn [seq]. rewrite filter_cons.
  destruct (decide _); [|apply IH]. cbn [fmap list_fmap]. constructor; [apply IH|].
  apply Forall_fmap, Forall_forall. intros x [_ Hx%elem_of_seq]%list_elem_of_filter. cbn.
  destruct (decide (n = 0)) as [->|]; [done|]. apply Nat.Div0.div_le_mono. lia.
Qed.

(** ** What all ranks compute alike *)

Section comm.
Context (old new : list Z) (n g : nat).
Context (Hn : 0 < n) (Hlen : length new = length old).

Notation src := (all_src_ranks old n).
Notation need := (need_comm_dst_ranks old new n).

(** Rank [r] has expert [l] in map [m]. *)
Definition has_expert (m : list Z) (r : nat) (l : Z) : Prop := ∃ x, m !! x = Some l ∧ x / n = r.

Lemma src_ok l : NoDup (src l) ∧ ∀ r, r ∈ src l ↔ has_expert old r l.
Proof.
  unfold all_src_ranks. destruct (deduplicate_ok (rank_of n <$> filter (λ x, old !! x = Some l) (seq 0 (num_physical_experts old)))) as [S E].
  { apply sorted_ranks. }
  split; [by apply sorted_NoDup|]. intros r. rewrite E, list_elem_of_fmap. unfold has_expert, rank_of. split.
  - intros (x & -> & [Hx _]%list_elem_of_filter). eauto.
  - intros (x & Hx & <-). exists x. split; [done|]. apply list_elem_of_filter. split; [done|].
    apply elem_of_seq. apply lookup_lt_Some in Hx. unfold num_physical_experts. lia.
Qed.

Lemma need_ok l : NoDup (need l) ∧ ∀ r, r ∈ need l ↔ has_expert new r l ∧ ¬ has_expert old r l.
Proof.
  unfold need_comm_dst_ranks.
  destruct (deduplicate_ok (rank_of n <$> filter (λ x, new !! x = Some l ∧ rank_of n x ∉ src l) (seq 0 (num_physical_experts old)))) as [S E].
  { apply sorted_ranks. }
  split; [by apply sorted_NoDup|]. intros r. rewrite E, list_elem_of_fmap. destruct (src_ok l) as [_ Hs]. split.
  - intros (x & -> & [[Hx Hno] _]%list_elem_of_filter). rewrite Hs in Hno. split; [|done]. by exists x.
  - intros [(x & Hx & <-) Hno]. exists x. split; [done|]. apply list_elem_of_filter. rewrite Hs. split; [done|].
    apply elem_of_seq. apply lookup_lt_Some in Hx. unfold num_physical_experts. lia.
Qed.

Notation node := (node_of g).
Notation nodes l := (node <$> src l).

(** The two mappings, as rank [r] computes them. *)
Definition same_node (r : nat) (l : Z) : _ChunkUtils :=
  MkChunks (filter (λ x, node x = node r) (src l))
    (if decide (0 < length (filter (λ x, node x = node r) (src l))) then filter (λ x, node x = node r) (need l) else []).
Definition cross_node (l : Z) : _ChunkUtils := MkChunks (src l) (filter (λ x, node x ∉ nodes l) (need l)).

Lemma comm_info_eq r l : _compute_comm_info old new n g r l = Ok (same_node r l, cross_node l, element_values (same_node r l)).
Proof. unfold _compute_comm_info. rewrite decide_False by (unfold num_physical_experts; lia). done. Qed.

Lemma same_node_eq r s l : node r = node s → same_node r l = same_node s l.
Proof. intros E. unfold same_node. by rewrite E. Qed.

Lemma same_node_elements r s l : s ∈ element_values (same_node r l) ↔ s ∈ need l ∧ node s = node r ∧ node r ∈ nodes l.
Proof.
  cbn. assert (0 < length (filter (λ x, node x = node r) (src l)) ↔ node r ∈ nodes l) as E.
  { rewrite list_elem_of_fmap. split.
    - destruct (filter _ _) as [|x xs] eqn:F; cbn; [lia|]. intros _.
      assert (x ∈ filter (λ x, node x = node r) (src l)) as [? ?]%list_elem_of_filter by (rewrite F; left). eauto.
    - intros (x & E & Hx). assert (x ∈ filter (λ x, node x = node r) (src l)) as F by by apply list_elem_of_filter.
      destruct (filter _ _); [by apply not_elem_of_nil in F|cbn; lia]. }
  destruct (decide _) as [Hd|Hd]; rewrite E in Hd; [rewrite list_elem_of_filter|rewrite elem_of_nil]; tauto.
Qed.

Lemma cross_node_elements s l : s ∈ element_values (cross_node l) ↔ s ∈ need l ∧ node s ∉ nodes l.
Proof. cbn. rewrite list_elem_of_filter. tauto. Qed.

(** The rank that sends expert [l] to rank [s]. *)
Definition sender (s : nat) (l : Z) : result nat :=
  if decide (s ∈ element_values (same_node s l)) then chunk_value_from_element_value (same_node s l) s
  else chunk_value_from_element_value (cross_node l) s.

Lemma same_node_wf r l : NoDup (chunk_values (same_node r l)) ∧ NoDup (element_values (same_node r l)).
Proof.
  split; [apply NoDup_filter, src_ok|]. cbn. destruct (decide _); [apply NoDup_filter, need_ok|constructor].
Qed.

Lemma cross_node_wf l : NoDup (chunk_values (cross_node l)) ∧ NoDup (element_values (cross_node l)).
Proof. split; [apply src_ok|apply NoDup_filter, need_ok]. Qed.

Lemma same_node_some r s l : s ∈ element_values (same_node r l) → chunk_values (same_node r l) ≠ [].
Proof.
  intros (_ & _ & (x & E & Hx)%list_elem_of_fmap)%same_node_elements. cbn. intros F.
  assert (x ∈ filter (λ x, node x = node r) (src l)) as X by by apply list_elem_of_filter. rewrite F in X. by apply not_elem_of_nil in X.
Qed.

Lemma element_values_none c v : element_values c = [] → element_values_from_chunk_value c v = Ok [].
Proof. intros E. unfold element_values_from_chunk_value. by rewrite E. Qed.

(** A rank that needs the expert has a sender, which has it. *)
Lemma sender_ok s l : s ∈ need l → (∃ r, has_expert old r l) → ∃ r, sender s l = Ok r ∧ has_expert old r l.
Proof.
  intros Hs (r0 & H0). unfold sender. destruct (src_ok l) as [_ Hsrc]. destruct (decide _) as [Hd|Hd].
  - destruct (chunk_value_ok (same_node s l)) with s as (v & E & Hv); [apply same_node_wf|apply same_node_wf|by eapply same_node_some|done|].
    exists v. split; [done|]. cbn in Hv. apply list_elem_of_filter in Hv as [_ Hv]. by apply Hsrc.
  - assert (s ∈ element_values (cross_node l)) as Hc.
    { apply cross_node_elements. split; [done|]. intros Hn2. apply Hd, same_node_elements. done. }
    destruct (chunk_value_ok (cross_node l)) with s as (v & E & Hv); [apply cross_node_wf|apply cross_node_wf| |done|].
    { cbn. intros F. apply Hsrc in H0. rewrite F in H0. by apply not_elem_of_nil in H0. }
    exists v. split; [done|]. by apply Hsrc.
Qed.

(** A rank that has the expert sends it to the ranks whose sender it is, once to each. *)
Lemma destinations_ok r l : has_expert old r l →
  ∃ es1 es2, element_values_from_chunk_value (same_node r l) r = Ok es1 ∧
    element_values_from_chunk_value (cross_node l) r = Ok es2 ∧ NoDup (es1 ++ es2) ∧
    ∀ s, s ∈ es1 ++ es2 ↔ s ∈ need l ∧ sender s l = Ok r.
Proof.
  intros Hr. destruct (src_ok l) as [_ Hsrc]. apply Hsrc in Hr as Hr'.
  assert (chunk_values (cross_node l) ≠ []) as Hne. { cbn. intros F. rewrite F in Hr'. by apply not_elem_of_nil in Hr'. }
  destruct (element_values_ok (cross_node l)) with r as (es2 & E2 & ND2 & H2); [apply cross_node_wf|apply cross_node_wf|done|done|].
  assert (r ∈ chunk_values (same_node r l)) as Hrs by (by apply list_elem_of_filter).
  destruct (element_values_ok (same_node r l)) with r as (es1 & E1 & ND1 & H1); [apply same_node_wf|apply same_node_wf| |done|].
  { intros F. rewrite F in Hrs. by apply not_elem_of_nil in Hrs. }
  assert (node r ∈ nodes l) as Hnode by (apply list_elem_of_fmap; eauto).
  exists es1, es2. split_and!; [done|done| |].
  - apply NoDup_app. split_and!; [done| |done]. intros s [Hs%same_node_elements _]%H1 [Hc%cross_node_elements _]%H2.
    destruct Hs as (_ & E & _), Hc as [_ Hc]. by rewrite E in Hc.
  - intros s. rewrite elem_of_app, H1, H2. split.
    + intros [[Hs E]|[Hs E]].
      * apply same_node_elements in Hs as Hs'. destruct Hs' as (Hn1 & En & _). split; [done|]. unfold sender.
        rewrite (same_node_eq s r) by done. by rewrite decide_True by done.
      * apply cross_node_elements in Hs as [Hn1 Hn2]. split; [done|]. unfold sender. rewrite decide_False; [done|].
        intros (_ & _ & Hn3)%same_node_elements. done.
    + intros [Hn1 E]. unfold sender in E. destruct (decide _) as [Hd|Hd].
      * left. apply same_node_elements in Hd as Hd'. destruct Hd' as (_ & _ & Hn3).
        destruct (chunk_value_ok (same_node s l)) with s as (v & E' & Hv); [apply same_node_wf|apply same_node_wf|by eapply same_node_some|done|].
        assert (v = r) as -> by congruence. cbn in Hv. apply list_elem_of_filter in Hv as [En _].
        by rewrite (same_node_eq r s).
      * right. split; [|done]. apply cross_node_elements. split; [done|]. intros Hn2. by apply Hd, same_node_elements.
Qed.
End comm.
