(* ===== verification/ExpertPlan.v ===== *)
(** * The plan of one rank

    What [plan] of [ExpertUpdate] leaves: the copies and messages of a rank, as functions of the
    two maps. *)

From S2P Require Import Prelude PySort ExpertUpdate ExpertComm.

(** ** Tensors as tables of rows *)

Section tensors.
Context {W : Type}.
Implicit Types (t d : list (list W)).

Definition cell t (i j : nat) : option W := t !! i ≫= (.!! j).
(** [k] tensors of [n] rows. *)
Definition shape (k n : nat) t : Prop := length t = k ∧ Forall (λ rows, length rows = n) t.

Lemma shape_row k n t i : shape k n t → i < k → ∃ rows, t !! i = Some rows ∧ length rows = n.
Proof.
  intros [L F] Hi. destruct (lookup_lt_is_Some_2 t i) as [rows E]; [lia|]. exists rows. split; [done|].
  rewrite Forall_lookup in F. by eapply F.
Qed.

Lemma shape_cell k n t i j : shape k n t → i < k → j < n → is_Some (cell t i j).
Proof.
  intros Hs Hi Hj. destruct (shape_row k n t i Hs Hi) as (rows & E & L). unfold cell. rewrite E. cbn.
  apply lookup_lt_is_Some_2. lia.
Qed.

Lemma copy_rows_ok k n d s x y : shape k n d → shape k n s → x < n → y < n →
  ∃ t, copy_rows d s x y = Some t ∧ shape k n t ∧
    ∀ i j, i < k → cell t i j = if decide (j = x) then cell s i y else cell d i j.
Proof.
  revert k s. induction d as [|dr d IH]; intros k s [Ld Fd] [Ls Fs] Hx Hy; cbn in Ld.
  - destruct s; cbn in Ls; [|lia]. exists []. split_and!; [done|split; [done|constructor]|]. intros. lia.
  - destruct s as [|sr s]; cbn in Ls; [lia|]. destruct k as [|k]; [lia|].
    apply Forall_cons in Fd as [Ldr Fd]. apply Forall_cons in Fs as [Lsr Fs].
    destruct (IH k s) as (t & E & [Lt Ft] & Hc); [split; [lia|done]..|done|done|].
    destruct (lookup_lt_is_Some_2 sr y) as [v Ev]; [lia|]. destruct (lookup_lt_is_Some_2 dr x) as [w Ew]; [lia|].
    exists (<[x := v]> dr :: t).
    assert (copy_rows (dr :: d) (sr :: s) x y =
      (v ← sr !! y; set_row dr x v) ≫= λ r, copy_rows d s x y ≫= λ rs, Some (r :: rs)) as -> by done.
    rewrite Ev. cbn [mbind option_bind]. unfold set_row. rewrite Ew. cbn [mbind option_bind]. rewrite E. cbn [mbind option_bind].
    split_and!; [done|split; [cbn; lia|constructor; [by rewrite length_insert|done]]|].
    intros [|i] j Hi; unfold cell; cbn.
    + destruct (decide (j = x)) as [->|]; [by rewrite list_lookup_insert_eq, Ev by lia|by rewrite list_lookup_insert_ne].
    + apply Hc. lia.
Qed.

Lemma write_temp_cell k n i loc v t : shape k n t → i < k → loc < n →
  shape k n (write_temp i loc v t) ∧
  ∀ a b, cell (write_temp i loc v t) a b = if decide (a = i ∧ b = loc) then Some v else cell t a b.
Proof.
  intros Hs Hi Hl. destruct (shape_row k n t i Hs Hi) as (rows & E & L). destruct Hs as [Lt Ft]. unfold write_temp. split.
  - split; [by rewrite length_alter|]. apply Forall_lookup. intros a x. destruct (decide (a = i)) as [->|].
    + rewrite list_lookup_alter_eq, E. cbn. intros [= <-]. by rewrite length_insert.
    + rewrite list_lookup_alter_ne by done. rewrite Forall_lookup in Ft. apply Ft.
  - intros a b. unfold cell. destruct (decide (a = i)) as [->|].
    + rewrite list_lookup_alter_eq, E. cbn. destruct (decide (b = loc)) as [->|].
      * rewrite decide_True by done. apply list_lookup_insert_eq. lia.
      * rewrite decide_False by naive_solver. by apply list_lookup_insert_ne.
    + rewrite list_lookup_alter_ne by done. by rewrite decide_False by naive_solver.
Qed.

(** Writes to different rows. *)
Lemma write_all_cell k n slots vs t : shape k n t → NoDup slots → length vs = length slots →
  Forall (λ s, s.1 < k ∧ s.2 < n) slots →
  let t' := foldl (λ t '(i, loc, v), write_temp i loc v t) t (zip slots vs) in
  shape k n t' ∧ (∀ i loc v, ((i, loc), v) ∈ zip slots vs → cell t' i loc = Some v) ∧
  (∀ i loc, (i, loc) ∉ slots → cell t' i loc = cell t i loc).
Proof.
  revert vs t. induction slots as [|[i loc] slots IH]; intros [|v vs] t Hs ND L F; try done.
  - cbn. split_and!; [done| |done]. intros ??? X. by apply not_elem_of_nil in X.
  - apply NoDup_cons in ND as [Hno ND]. apply Forall_cons in F as [[Hi Hl] F]. cbn in Hi, Hl.
    destruct (write_temp_cell k n i loc v t Hs Hi Hl) as [Hs' Hc].
    destruct (IH vs (write_temp i loc v t) Hs' ND) as (S2 & H2 & H3); [by injection L|done|]. cbn in S2, H2, H3 |- *.
    split_and!; [done| |].
    + intros a b w [[= -> -> ->]|Hin]%elem_of_cons; [|by apply H2].
      rewrite H3, Hc by done. by rewrite decide_True.
    + intros a b [Hne Hnin]%not_elem_of_cons. rewrite H3, Hc by done. rewrite decide_False; [done|]. naive_solver.
Qed.
End tensors.

(** The first [x] of [xs] with [m[x] == v]. *)
Definition first_in (m : list Z) (v : Z) (xs : list nat) : option nat := head (filter (λ x, m !! x = Some v) xs).

Lemma first_location_eq m v xs : Forall (λ x, x < length m) xs → first_location m v xs = Ok (first_in m v xs).
Proof.
  unfold first_in. induction 1 as [|x xs Hx _ IH]; [done|]. cbn [first_location]. unfold nth_item.
  destruct (lookup_lt_is_Some_2 m x Hx) as [y E]. rewrite E, filter_cons, E. cbn [mbind result_bind].
  destruct (decide (y = v)) as [->|]; [by rewrite decide_True|]. rewrite decide_False by congruence. apply IH.
Qed.

Lemma first_in_Some m v xs x : first_in m v xs = Some x → x ∈ xs ∧ m !! x = Some v.
Proof.
  unfold first_in. intros E. assert (x ∈ filter (λ x, m !! x = Some v) xs) as [? ?]%list_elem_of_filter; [|done].
  destruct (filter _ _); simplify_eq/=. left.
Qed.

Lemma first_in_None m v xs : first_in m v xs = None ↔ ∀ x, x ∈ xs → m !! x ≠ Some v.
Proof.
  unfold first_in. split.
  - intros E x Hx Hv. assert (x ∈ filter (λ x, m !! x = Some v) xs) as F by by apply list_elem_of_filter.
    destruct (filter _ _); [by apply not_elem_of_nil in F|done].
  - intros Hno. destruct (filter _ _) as [|x ys] eqn:F; [done|].
    assert (x ∈ filter (λ x, m !! x = Some v) xs) as [? ?]%list_elem_of_filter by (rewrite F; left). naive_solver.
Qed.

Lemma first_in_first m v a k x : first_in m v (seq a k) = Some x → first_in m v (seq a (x - a)) = None.
Proof.
  intros E. apply first_in_None. intros y Hy%elem_of_seq Hv. revert a E Hy.
  induction k as [|k IH]; intros a E Hy; [done|]. cbn [seq] in E. unfold first_in in E. rewrite filter_cons in E.
  destruct (decide _) as [Ha|Ha].
  - cbn in E. simplify_eq. lia.
  - destruct (decide (y = a)) as [->|]; [done|]. apply (IH (S a)); [exact E|lia].
Qed.

(** ** What a rank does for each of its locations *)

(** Two maps of the same shape, the new one with experts of the old one only. *)
Record maps_ok (old new : list Z) (n g world : nat) : Prop := {
  mo_n : 0 < n;
  mo_g : 0 < g;
  mo_old : length old = world * n;
  mo_new : length new = world * n;
  mo_cover : ∀ x l, new !! x = Some l → l ∈ old
}.

Section rank.
Context {W : Type} (nt : nat) (old new : list Z) (n g world s : nat).
Context (Hm : maps_ok old new n g world) (Hs : s < world).
Implicit Types (st : Layer (W := W)).

Notation base := (s * n).
Notation locals := (local_locations n s).
Notation has_expert := (has_expert n).
Notation sender := (sender old new n g).
Notation need := (need_comm_dst_ranks old new n).

Inductive action := Unchanged | SameGpu (src : nat) | FreeRider (src : nat) | Receive (l : Z) (peer : nat).

Definition action_of (dst : nat) : action :=
  match new !! dst, old !! dst with
  | Some l, Some o =>
      if decide (o = l) then Unchanged else
      match first_in old l locals with
      | Some x => SameGpu x
      | None =>
          match first_in new l (seq base (dst - base)) with
          | Some x => FreeRider x
          | None => match sender s l with Ok r => Receive l r | Raise _ => Unchanged end
          end
      end
  | _, _ => Unchanged
  end.

Definition copies_of (dst : nat) : list (nat * nat) :=
  match action_of dst with Unchanged => [] | SameGpu _ | Receive _ _ => [(dst, dst)] | FreeRider x => [(x, dst)] end.
Definition recv_info (dst : nat) : list (Z * list P2POp) :=
  match action_of dst with
  | Receive l r => [(l, (λ i, irecv i (dst `mod` n) r) <$> seq 0 nt)]
  | _ => []
  end.

Lemma local_iff x : x ∈ locals ↔ base ≤ x < base + n.
Proof. apply elem_of_seq. Qed.

Lemma local_old x : x ∈ locals → x < length old ∧ x < length new.
Proof. intros Hx%local_iff. destruct Hm. nia. Qed.

Lemma local_div x : x ∈ locals ↔ x / n = s.
Proof.
  pose proof (mo_n _ _ _ _ _ Hm). rewrite local_iff. split.
  - intros. symmetry. apply (Nat.div_unique x n s (x - base)); lia.
  - intros <-. pose proof (Nat.div_mod_eq x n). pose proof (Nat.mod_upper_bound x n). lia.
Qed.

Lemma local_mod x : x ∈ locals → x `mod` n = x - base ∧ x - base < n.
Proof.
  intros Hx. pose proof (mo_n _ _ _ _ _ Hm). apply local_iff in Hx as Hb. split; [|lia].
  symmetry. apply (Nat.mod_unique x n s); lia.
Qed.

Lemma local_has m l : has_expert m s l ↔ ∃ x, x ∈ locals ∧ m !! x = Some l.
Proof. unfold ExpertComm.has_expert. setoid_rewrite local_div. naive_solver. Qed.

Lemma local_expert x st : x ∈ locals → _get_local_expert_location n s x st = (Ok (x `mod` n), st).
Proof. intros Hx%local_iff. unfold _get_local_expert_location. by rewrite decide_True by lia. Qed.

Lemma covered r l : has_expert new r l → ∃ r', has_expert old r' l.
Proof. intros (x & Hx & _). apply (mo_cover _ _ _ _ _ Hm) in Hx as (y & Hy)%list_elem_of_lookup. by exists (y / n), y. Qed.

Lemma need_iff l r : r ∈ need l ↔ has_expert new r l ∧ ¬ has_expert old r l.
Proof. apply need_ok; destruct Hm; lia. Qed.

Lemma sender_has r l : r ∈ need l → ∃ p, sender r l = Ok p ∧ has_expert old p l.
Proof.
  intros Hr. apply sender_ok; [destruct Hm; lia..|done|]. apply need_iff in Hr as [Hr _]. by eapply covered.
Qed.

(** A location that is received: the rank needs the expert and this is its first place. *)
Lemma receives dst l r : dst ∈ locals → action_of dst = Receive l r →
  new !! dst = Some l ∧ s ∈ need l ∧ sender s l = Ok r ∧ has_expert old r l ∧ first_in new l (seq base (dst - base)) = None.
Proof.
  intros Hd. unfold action_of. destruct (new !! dst) as [l'|] eqn:En; [|done]. destruct (old !! dst) as [o|] eqn:Eo; [|done].
  destruct (decide (o = l')); [done|]. destruct (first_in old l' locals) as [|] eqn:E1; [done|].
  destruct (first_in new l' _) as [|] eqn:E2; [done|].
  assert (s ∈ need l') as Hneed.
  { apply need_iff. split; [apply local_has; by exists dst|].
    intros (x & Hx & Hx2)%local_has. by eapply first_in_None in E1. }
  destruct (sender_has s l') as (r' & E & Hr'); [done|].
  rewrite E. intros [= <- <-]. done.
Qed.

(** Every expert the rank needs is received, once. *)
Lemma needs_received l r : s ∈ need l → sender s l = Ok r → ∃ dst, dst ∈ locals ∧ action_of dst = Receive l r.
Proof.
  intros Hneed Es. apply need_iff in Hneed as [(x0 & Hx0 & Hn0)%local_has Hno].
  destruct (first_in new l locals) as [dst|] eqn:Ef.
  2:{ exfalso. by eapply first_in_None in Ef. }
  apply first_in_Some in Ef as Hd. destruct Hd as [Hd Hnd]. pose proof (first_in_first _ _ _ _ _ Ef) as Efr.
  exists dst. split; [done|]. unfold action_of. rewrite Hnd.
  destruct (lookup_lt_is_Some_2 old dst) as [o Eo]; [by apply local_old|]. rewrite Eo.
  destruct (decide (o = l)) as [->|]; [exfalso; apply Hno, local_has; by exists dst|].
  destruct (first_in old l locals) as [x|] eqn:E1.
  { apply first_in_Some in E1. exfalso. apply Hno, local_has. by exists x. }
  by rewrite Efr, Es.
Qed.

Lemma receive_once dst dst' l r r' : dst ∈ locals → dst' ∈ locals →
  action_of dst = Receive l r → action_of dst' = Receive l r' → dst = dst'.
Proof.
  intros Hd Hd' (En & _ & _ & _ & Ef)%receives (En' & _ & _ & _ & Ef')%receives; [|done..].
  apply local_iff in Hd as Hb, Hd' as Hb'.
  destruct (Nat.lt_trichotomy dst dst') as [L|[|L]]; [|done|]; exfalso.
  - rewrite first_in_None in Ef'. apply (Ef' dst); [apply elem_of_seq; lia|done].
  - rewrite first_in_None in Ef. apply (Ef dst'); [apply elem_of_seq; lia|done].
Qed.

(** A free rider reads what its first place receives. *)
Lemma free_rider dst x : dst ∈ locals → action_of dst = FreeRider x →
  ∃ l r, new !! dst = Some l ∧ new !! x = Some l ∧ x ∈ locals ∧ action_of x = Receive l r.
Proof.
  intros Hd. unfold action_of at 1. destruct (new !! dst) as [l|] eqn:En; [|done]. destruct (old !! dst) as [o|] eqn:Eo; [|done].
  destruct (decide (o = l)); [done|]. destruct (first_in old l locals) as [|] eqn:E1; [done|].
  destruct (first_in new l _) as [y|] eqn:E2; [|by destruct (sender s l)]. intros [= ->].
  pose proof (first_in_first _ _ _ _ _ E2) as E3. apply first_in_Some in E2 as [Hy Hx].
  assert (x ∈ locals) as Hxl. { apply local_iff in Hd. apply local_iff. apply elem_of_seq in Hy. lia. }
  assert (s ∈ need l) as Hneed.
  { apply need_iff. split; [apply local_has; by exists dst|].
    intros (z & Hz & Hz2)%local_has. by eapply first_in_None in E1. }
  destruct (sender_has s l) as (r & E & _); [done|].
  exists l, r. split_and!; [done..|]. unfold action_of. rewrite Hx.
  destruct (lookup_lt_is_Some_2 old x) as [o' Eo']; [by apply local_old|]. rewrite Eo'.
  destruct (decide (o' = l)) as [->|]; [exfalso; by eapply first_in_None in E1|]. by rewrite E1, E3, E.
Qed.

Lemma same_gpu dst x : action_of dst = SameGpu x → ∃ l, new !! dst = Some l ∧ x ∈ locals ∧ old !! x = Some l.
Proof.
  unfold action_of. destruct (new !! dst) as [l|] eqn:En; [|done]. destruct (old !! dst) as [o|] eqn:Eo; [|done].
  destruct (decide (o = l)); [done|]. destruct (first_in old l locals) as [y|] eqn:E1.
  - intros [= ->]. apply first_in_Some in E1. naive_solver.
  - destruct (first_in new l _); [done|]. by destruct (sender s l).
Qed.

Lemma unchanged dst : dst ∈ locals → action_of dst = Unchanged → old !! dst = new !! dst.
Proof.
  intros Hd. unfold action_of. destruct (lookup_lt_is_Some_2 old dst) as [o Eo]; [by apply local_old|].
  destruct (lookup_lt_is_Some_2 new dst) as [l En]; [by apply local_old|]. rewrite Eo, En.
  destruct (decide (o = l)) as [->|]; [done|]. destruct (first_in old l locals) as [y|] eqn:E1; [done|].
  destruct (first_in new l _); [done|].
  destruct (sender_has s l) as (r & E & _); [|by rewrite E].
  apply need_iff. split; [apply local_has; by exists dst|].
  intros (z & Hz & Hz2)%local_has. by eapply first_in_None in E1.
Qed.

(** ** The loops of the plan *)

Notation cells t := (cell (W := W) t).

Lemma lift_ok {A B} (x : A) (f : A → M (Layer (W := W)) B) st : (lift (Ok x) ≫= f) st = f x st.
Proof. done. Qed.

Lemma nth_item_ok {A} (xs : list A) i x : xs !! i = Some x → nth_item xs i = Ok x.
Proof. unfold nth_item. by intros ->. Qed.

(** One location: its copies and messages, and what it reads of its own rank. *)
Lemma handle_recv_one dst st : dst ∈ locals → shape nt n (routed_experts_weights st) → shape nt n (temp_buffers st) →
  ∃ t, _handle_recv_of_dst_expert_location nt old new n g s dst st =
         (Ok tt, MkLayer (routed_experts_weights st) t (buffer2weight_copy_infos st ++ copies_of dst)
                   (p2p_op_infos st ++ recv_info dst)) ∧
    shape nt n t ∧ ∀ i j, i < nt → cells t i j =
      match action_of dst with
      | SameGpu x => if decide (j = dst - base) then cells (routed_experts_weights st) i (x - base) else cells (temp_buffers st) i j
      | _ => cells (temp_buffers st) i j
      end.
Proof.
  intros Hd Sw St. destruct (local_old dst Hd) as [Lo Ln].
  destruct (lookup_lt_is_Some_2 old dst Lo) as [o Eo]. destruct (lookup_lt_is_Some_2 new dst Ln) as [l En].
  unfold _handle_recv_of_dst_expert_location. rewrite (nth_item_ok _ _ _ En), (nth_item_ok _ _ _ Eo), !lift_ok.
  unfold copies_of, recv_info, action_of. rewrite Eo, En.
  destruct (decide (o = l)) as [->|Hol].
  { exists (temp_buffers st). rewrite !app_nil_r. by destruct st. }
  rewrite (first_location_eq old), lift_ok by (apply Forall_forall; intros x Hx; apply (local_old x Hx)).
  destruct (first_in old l locals) as [x|] eqn:E1.
  { apply first_in_Some in E1 as [Hx Hox]. destruct (local_mod dst Hd) as [Md Bd], (local_mod x Hx) as [Mx Bx].
    destruct (copy_rows_ok nt n (temp_buffers st) (routed_experts_weights st) (dst - base) (x - base)) as (t & Et & Ht & Hc); [done..|].
    exists t. split_and!; [|done|done]. rewrite app_nil_r.
    unfold copy_to_temp. erewrite run_bind; [|erewrite run_bind; [|done]; erewrite run_bind; [|by apply local_expert];
      erewrite run_bind; [|by apply local_expert]; rewrite Md, Mx; cbn; rewrite Et; done]. done. }
  rewrite first_location_eq, lift_ok.
  2:{ apply Forall_forall. intros x Hx%elem_of_seq. apply local_iff in Hd. lia. }
  destruct (first_in new l _) as [x|] eqn:E2.
  { exists (temp_buffers st). by rewrite app_nil_r. }
  assert (s ∈ need l) as Hneed.
  { apply need_iff. split; [apply local_has; by exists dst|].
    intros (z & Hz & Hz2)%local_has. by eapply first_in_None in E1. }
  destruct (sender_has s l Hneed) as (r & Er & _). rewrite Er. destruct (local_mod dst Hd) as [Md Bd].
  exists (temp_buffers st). split_and!; [|done|done].
  rewrite comm_info_eq, lift_ok by (destruct Hm; lia). unfold ExpertComm.sender in Er.
  assert (∀ x, (lift (chunk_value_from_element_value x s) ≫= λ chosen,
    _create_p2p_recv_and_buffer2weight_copy nt n s l chosen dst) st =
    match chunk_value_from_element_value x s with
    | Ok r => (Ok tt, MkLayer (routed_experts_weights st) (temp_buffers st) (buffer2weight_copy_infos st ++ [(dst, dst)])
       (p2p_op_infos st ++ [(l, (λ i, irecv i (dst `mod` n) r) <$> seq 0 nt)]))
    | Raise e => (Raise e, st) end) as Hcreate.
  { intros x. destruct (chunk_value_from_element_value x s) as [v|e]; [|done]. rewrite lift_ok.
    unfold _create_p2p_recv_and_buffer2weight_copy. erewrite run_bind; [|by apply local_expert]. done. }
  destruct (decide _); rewrite Hcreate, Er; done.
Qed.

(** All locations in turn. *)
Lemma handle_recv_loop locs st : NoDup locs → (∀ x, x ∈ locs → x ∈ locals) →
  shape nt n (routed_experts_weights st) → shape nt n (temp_buffers st) →
  ∃ t, for_all locs (_handle_recv_of_dst_expert_location nt old new n g s) st =
         (Ok tt, MkLayer (routed_experts_weights st) t (buffer2weight_copy_infos st ++ concat (copies_of <$> locs))
                   (p2p_op_infos st ++ concat (recv_info <$> locs))) ∧
    shape nt n t ∧
    (∀ dst x i, dst ∈ locs → action_of dst = SameGpu x → i < nt → cells t i (dst - base) = cells (routed_experts_weights st) i (x - base)) ∧
    (∀ i j, i < nt → (∀ dst, dst ∈ locs → j ≠ dst - base) → cells t i j = cells (temp_buffers st) i j).
Proof.
  intros ND Hl. revert st. induction locs as [|dst locs IH]; intros st Sw St.
  { exists (temp_buffers st). cbn. rewrite !app_nil_r. split_and!; [by destruct st|done|set_solver|done]. }
  apply NoDup_cons in ND as [Hno ND].
  destruct (handle_recv_one dst st) as (t1 & E1 & S1 & C1); [apply Hl; left|done|done|].
  assert (∀ x, x ∈ locs → x ∈ locals) as Hl' by (intros; apply Hl; by right).
  destruct (IH ND Hl' (MkLayer (routed_experts_weights st) t1 (buffer2weight_copy_infos st ++ copies_of dst)
    (p2p_op_infos st ++ recv_info dst)) Sw S1) as (t2 & E2 & S2 & C2 & F2). cbn in C2, F2.
  exists t2. split_and!; [|done| |].
  - cbn [for_all]. erewrite run_bind; [|exact E1]. cbn in E2 |- *. rewrite E2. by rewrite <- !app_assoc.
  - intros d x i [->|Hd]%elem_of_cons Ha Hi; [|by apply C2].
    rewrite F2, C1, Ha, decide_True; try done. intros d' Hd' Hc. assert (dst = d') as ->; [|done].
    assert (base ≤ dst ∧ base ≤ d') as [??]; [|lia]. split; apply local_iff, Hl; by constructor.
  - intros i j Hi Hj. rewrite F2, C1 by (done || (intros; apply Hj; by right)).
    assert (j ≠ dst - base) by (apply Hj; left). destruct (action_of dst); [done| |done..]. by rewrite decide_False.
Qed.

(** The messages of an expert this rank has, and those of all its experts. *)
Definition destinations (l : Z) : list nat :=
  match element_values_from_chunk_value (same_node old new n g s l) s, element_values_from_chunk_value (cross_node old new n g l) s with
  | Ok es1, Ok es2 => es1 ++ es2
  | _, _ => []
  end.
Definition send_info (l : Z) (x : nat) : Z * list P2POp :=
  (l, concat ((λ dst_rank, (λ i, isend i (x `mod` n) dst_rank) <$> seq 0 nt) <$> destinations l)).
Fixpoint send_infos (locs : list nat) (handled : list Z) : list (Z * list P2POp) :=
  match locs with
  | [] => []
  | x :: locs =>
      match old !! x with
      | Some l => if decide (l ∈ handled) then send_infos locs handled
                  else send_info l x :: send_infos locs (l :: handled)
      | None => []
      end
  end.

Lemma destinations_iff l r : has_expert old s l → NoDup (destinations l) ∧ (r ∈ destinations l ↔ r ∈ need l ∧ sender r l = Ok s).
Proof.
  intros Hl. destruct (destinations_ok old new n g) with s l as (es1 & es2 & E1 & E2 & ND & Hd); [destruct Hm; lia..|done|].
  unfold destinations. rewrite E1, E2. split; [done|]. apply Hd.
Qed.

Lemma isend_one l x st : x ∈ locals → old !! x = Some l →
  _create_isend_ops_of_logical_expert_id nt old new n g s l x st =
    (Ok tt, MkLayer (routed_experts_weights st) (temp_buffers st) (buffer2weight_copy_infos st) (p2p_op_infos st ++ [send_info l x])).
Proof.
  intros Hx Ho. unfold _create_isend_ops_of_logical_expert_id. rewrite comm_info_eq, lift_ok by (destruct Hm; lia).
  destruct (destinations_ok old new n g) with s l as (es1 & es2 & E1 & E2 & _ & _); [destruct Hm; lia..| |].
  { apply local_has. by exists x. }
  rewrite E1, lift_ok, E2, lift_ok. erewrite run_bind; [|by apply local_expert].
  unfold send_info, destinations. by rewrite E1, E2.
Qed.

Lemma isend_loop locs handled st : (∀ x, x ∈ locs → x ∈ locals) →
  create_isend_loop nt old new n g s locs handled st =
    (Ok tt, MkLayer (routed_experts_weights st) (temp_buffers st) (buffer2weight_copy_infos st)
              (p2p_op_infos st ++ send_infos locs handled)).
Proof.
  revert handled st. induction locs as [|x locs IH]; intros handled st Hl.
  { cbn. rewrite app_nil_r. by destruct st. }
  assert (x ∈ locals) as Hx by (apply Hl; left). assert (∀ y, y ∈ locs → y ∈ locals) as Hl' by (intros; apply Hl; by right).
  destruct (lookup_lt_is_Some_2 old x) as [l El]; [apply (local_old x Hx)|].
  cbn [create_isend_loop send_infos]. rewrite (nth_item_ok _ _ _ El), lift_ok, El.
  destruct (decide (l ∈ handled)); [by apply IH|].
  erewrite run_bind; [|by apply isend_one]. rewrite IH by done. cbn. by rewrite <- app_assoc.
Qed.

Lemma send_infos_ok locs handled : (∀ x, x ∈ locs → x ∈ locals) →
  NoDup (send_infos locs handled).*1 ∧
  (∀ i, i ∈ send_infos locs handled → i.1 ∉ handled ∧ ∃ x, x ∈ locs ∧ old !! x = Some i.1 ∧ i = send_info i.1 x) ∧
  (∀ x l, x ∈ locs → old !! x = Some l → l ∉ handled → l ∈ (send_infos locs handled).*1).
Proof.
  revert handled. induction locs as [|x locs IH]; intros handled Hl.
  { split_and!; [constructor|set_solver|set_solver]. }
  assert (x ∈ locals) as Hx by (apply Hl; left). assert (∀ y, y ∈ locs → y ∈ locals) as Hl' by (intros; apply Hl; by right).
  destruct (lookup_lt_is_Some_2 old x) as [l El]; [apply (local_old x Hx)|].
  cbn [send_infos]. rewrite El. destruct (decide (l ∈ handled)) as [Hin|Hnin].
  - destruct (IH handled Hl') as (N1 & N2 & N3). split_and!; [done| |].
    + intros i Hi. destruct (N2 i Hi) as (? & y & ? & ? & ?). split; [done|]. exists y. split_and!; [by right|done..].
    + intros y l' [->|Hy]%elem_of_cons E Hno; [congruence|by eapply N3].
  - destruct (IH (l :: handled) Hl') as (N1 & N2 & N3). split_and!.
    + cbn. constructor; [|done]. intros (i & Ei & Hi)%list_elem_of_fmap. apply N2 in Hi as [Hi _]. rewrite <- Ei in Hi. apply Hi. left.
    + intros i [->|Hi]%elem_of_cons; [split; [done|]; exists x; split_and!; [left|done..]|].
      destruct (N2 i Hi) as (Hno & y & ? & ? & ?). split; [intros ?; apply Hno; by right|]. exists y. split_and!; [by right|done..].
    + intros y l' [->|Hy]%elem_of_cons E Hno; cbn; [rewrite El in E; injection E as <-; left|].
      destruct (decide (l' = l)) as [->|]; [left|]. right. eapply N3; [done..|]. by intros [?|?]%elem_of_cons.
Qed.

(** The messages this rank waits for, and all its messages. *)
Definition recv_infos : list (Z * list P2POp) := concat (recv_info <$> locals).
Definition all_infos : list (Z * list P2POp) := recv_infos ++ send_infos locals [].

Lemma elem_recv_infos i : i ∈ recv_infos ↔ ∃ dst r, dst ∈ locals ∧ action_of dst = Receive i.1 r ∧
  i = (i.1, (λ k, irecv k (dst `mod` n) r) <$> seq 0 nt).
Proof.
  unfold recv_infos. rewrite list_elem_of_In, in_concat. setoid_rewrite <- list_elem_of_In. split.
  - intros (grp & (dst & -> & Hd)%list_elem_of_fmap & Hi). unfold recv_info in Hi.
    destruct (action_of dst) as [| | |l r] eqn:E; try by apply not_elem_of_nil in Hi.
    apply list_elem_of_singleton in Hi as ->. by exists dst, r.
  - intros (dst & r & Hd & Ha & Hi). exists (recv_info dst). split; [apply list_elem_of_fmap; eauto|].
    unfold recv_info. rewrite Ha. apply list_elem_of_singleton. by rewrite Hi at 1.
Qed.

Lemma recv_infos_NoDup : NoDup recv_infos.*1.
Proof.
  unfold recv_infos. assert (∀ locs, NoDup locs → (∀ x, x ∈ locs → x ∈ locals) →
    NoDup (concat (recv_info <$> locs)).*1 ∧ ∀ l, l ∈ (concat (recv_info <$> locs)).*1 → ∃ x r, x ∈ locs ∧ action_of x = Receive l r) as X.
  2:{ apply X; [apply NoDup_seq|done]. }
  induction locs as [|x locs IH]; intros ND Hl; [split; [constructor|set_solver]|].
  apply NoDup_cons in ND as [Hno ND]. destruct IH as [N1 N2]; [done|intros; apply Hl; by right|].
  cbn [fmap list_fmap concat]. rewrite fmap_app. split.
  - apply NoDup_app. split_and!; [unfold recv_info; destruct (action_of x); cbn; repeat constructor; set_solver| |done].
    intros l Hin (y & r & Hy & Ha)%N2. unfold recv_info in Hin. destruct (action_of x) as [| | |l' r'] eqn:E; try by apply not_elem_of_nil in Hin.
    cbn in Hin. apply list_elem_of_singleton in Hin as ->. apply Hno.
    assert (x = y) as ->; [|done]. eapply receive_once; [..|exact E|exact Ha]; apply Hl; [left|by right].
  - intros l [Hin|(y & r & Hy & Ha)%N2]%elem_of_app; [|exists y, r; split; [by right|done]].
    unfold recv_info in Hin. destruct (action_of x) as [| | |l' r'] eqn:E; try by apply not_elem_of_nil in Hin.
    cbn in Hin. apply list_elem_of_singleton in Hin as ->. exists x, r'. split; [left|done].
Qed.

Lemma send_keys l : l ∈ (send_infos locals []).*1 ↔ has_expert old s l.
Proof.
  destruct (send_infos_ok locals []) as (_ & N2 & N3); [done|]. rewrite local_has. split.
  - intros (i & -> & Hi)%list_elem_of_fmap. destruct (N2 i Hi) as (_ & x & Hx & Ho & _). eauto.
  - intros (x & Hx & Ho). eapply N3; [done..|apply not_elem_of_nil].
Qed.

Lemma plan_ok w t : shape nt n w → shape nt n t →
  ∃ t', plan nt old new n g s (MkLayer w t [] []) =
      (Ok (concat (snd <$> sort_by Zleb fst all_infos)), MkLayer w t' (concat (copies_of <$> locals)) all_infos) ∧
    shape nt n t' ∧
    ∀ dst x i, dst ∈ locals → action_of dst = SameGpu x → i < nt → cells t' i (dst - base) = cells w i (x - base).
Proof.
  intros Sw St. destruct (handle_recv_loop locals (MkLayer w t [] [])) as (t' & E & S' & C & _); [apply NoDup_seq|done..|].
  exists t'. split_and!; [|done|by intros; eapply C]. unfold plan.
  erewrite run_bind; [|done]. cbn [routed_experts_weights]. rewrite decide_True by apply Sw.
  rewrite decide_False by (destruct Hm; lia). unfold _handle_recv. erewrite run_bind; [|exact E].
  unfold _create_isend_ops. erewrite run_bind; [|apply isend_loop; done]. done.
Qed.
End rank.
