(* ===== verification/ExpertWorld.v ===== *)
(** * All ranks move their experts

    The messages that the ranks plan match: every receive finds its send, in the same order, and
    when all copies are done every rank has the experts of the new map. *)

From S2P Require Import Prelude PySort ExpertUpdate ExpertComm ExpertPlan.

(** ** Lists of messages *)

Lemma concat_fmap_omap {A B C} (f : B → option C) (g : A → list B) xs :
  omap f (concat (g <$> xs)) = concat ((λ x, omap f (g x)) <$> xs).
Proof. induction xs as [|x xs IH]; [done|]. cbn. by rewrite omap_app, IH. Qed.

Lemma zip_concat {A B C} (f : A → list B) (g : A → list C) xs :
  (∀ x, x ∈ xs → length (f x) = length (g x)) →
  zip (concat (f <$> xs)) (concat (g <$> xs)) = concat ((λ x, zip (f x) (g x)) <$> xs).
Proof.
  induction xs as [|x xs IH]; intros HL; [done|]. cbn. rewrite zip_with_app by (apply HL; left). f_equal.
  apply IH. intros. apply HL. by right.
Qed.

Lemma concat_length_eq {A B C} (f : A → list B) (g : A → list C) xs :
  (∀ x, x ∈ xs → length (f x) = length (g x)) → length (concat (f <$> xs)) = length (concat (g <$> xs)).
Proof.
  induction xs as [|x xs IH]; intros HL; [done|]. cbn. rewrite !length_app, IH, (HL x) by (try left; intros; apply HL; by right). done.
Qed.

(** Lists that agree for every peer are equal. *)
Lemma recvs_from_ext {W} (peers : list nat) (vs ws : list W) :
  length vs = length peers → length ws = length peers →
  (∀ r, r ∈ peers → recvs_from r peers vs = recvs_from r peers ws) → vs = ws.
Proof.
  revert vs ws. induction peers as [|p peers IH]; intros [|v vs] [|w ws] Lv Lw Heq; try done.
  pose proof (Heq p ltac:(left)) as Hp. unfold recvs_from in *. cbn [zip zip_with] in Hp. rewrite !filter_cons in Hp.
  cbn [fst] in Hp. rewrite !decide_True in Hp by done. cbn in Hp. injection Hp as -> Hp. f_equal.
  apply IH; [by injection Lv|by injection Lw|]. intros r Hr. destruct (decide (p = r)) as [<-|Hne]; [done|].
  specialize (Heq r ltac:(by right)). cbn [zip zip_with] in Heq. rewrite !filter_cons in Heq. cbn [fst] in Heq.
  by rewrite !decide_False in Heq.
Qed.

(** ** Messages in the order of their experts *)

Lemma sorted_keys {A} (infos : list (Z * A)) : NoDup infos.*1 →
  StronglySorted Z.le (sort_by Zleb fst infos).*1 ∧ NoDup (sort_by Zleb fst infos).*1.
Proof.
  intros ND. split.
  - pose proof (sort_by_sorted Zleb fst Zleb_total Zleb_trans infos) as HS.
    induction HS as [|x xs _ IH Hx]; [constructor|]. cbn. constructor; [done|]. apply Forall_fmap.
    eapply Forall_impl; [exact Hx|]. intros y Hy. unfold key_le, Zleb in Hy. by apply bool_decide_eq_true in Hy.
  - by rewrite sort_by_perm.
Qed.

Lemma StronglySorted_filter {A} (R : A → A → Prop) (P : A → Prop) `{!∀ x, Decision (P x)} xs :
  StronglySorted R xs → StronglySorted R (filter P xs).
Proof.
  induction 1 as [|x xs _ IH Hx]; [constructor|]. rewrite filter_cons. destruct (decide _); [|done].
  constructor; [done|]. apply Forall_forall. rewrite Forall_forall in Hx. intros y [_ Hy]%list_elem_of_filter. by apply Hx.
Qed.

(** Two ranks go through the experts with [P] in the same order. *)
Lemma concat_by_key {A1 A2 B} (P : Z → Prop) `{!∀ l, Decision (P l)} (vals : Z → list B)
    (infos1 : list (Z * A1)) (infos2 : list (Z * A2)) f1 f2 :
  NoDup infos1.*1 → NoDup infos2.*1 →
  (∀ i, i ∈ infos1 → f1 i = if decide (P i.1) then vals i.1 else []) →
  (∀ i, i ∈ infos2 → f2 i = if decide (P i.1) then vals i.1 else []) →
  (∀ l, P l → l ∈ infos1.*1 ∧ l ∈ infos2.*1) →
  concat (f1 <$> sort_by Zleb fst infos1) = concat (f2 <$> sort_by Zleb fst infos2).
Proof.
  intros N1 N2 H1 H2 HP.
  assert (∀ A (infos : list (Z * A)) f, (∀ i, i ∈ infos → f i = if decide (P i.1) then vals i.1 else []) →
    concat (f <$> infos) = concat (vals <$> filter P infos.*1)) as Hf.
  { intros A infos f. induction infos as [|i infos IH]; intros Hf; [done|]. cbn [fmap list_fmap concat].
    rewrite filter_cons, (Hf i), IH by (try left; intros; apply Hf; by right). by destruct (decide _). }
  rewrite (Hf _ (sort_by Zleb fst infos1)), (Hf _ (sort_by Zleb fst infos2)).
  2,3: intros i; rewrite sort_by_perm; auto.
  destruct (sorted_keys infos1 N1) as [S1 D1], (sorted_keys infos2 N2) as [S2 D2].
  do 2 f_equal. apply (StronglySorted_unique Z.le); [by apply StronglySorted_filter..|].
  apply NoDup_Permutation; [by apply NoDup_filter..|]. intros l. rewrite !list_elem_of_filter, !sort_by_perm. naive_solver.
Qed.

(** ** The exchange *)

Section world.
Context {W : Type} (nt : nat) (old new : list Z) (n g world : nat).
Context (Hm : maps_ok old new n g world).
(** The rows of an expert's weights. *)
Context (weight : nat → Z → W).

Notation infos s := (all_infos nt old new n g s).
Notation sorted s := (sort_by Zleb fst (infos s)).
Notation need := (need_comm_dst_ranks old new n).
Notation sender := (sender old new n g).
Notation locals s := (local_locations n s).
Notation action_of := (action_of old new n g).

Definition vals (l : Z) : list W := (λ i, weight i l) <$> seq 0 nt.

(** The messages of one expert on the wire, and what its receives are to get. *)
Definition wire_info (i : Z * list P2POp) : list (WireOp (W := W)) :=
  (λ op, match op with isend k _ p => WSend (weight k i.1) p | irecv _ _ p => WRecv p end) <$> i.2.
Definition info_expected (i : Z * list P2POp) : list W :=
  omap (λ op, match op with irecv k _ _ => Some (weight k i.1) | isend _ _ _ => None end) i.2.
Definition wires_of (s : nat) : list WireOp := concat (wire_info <$> sorted s).
Definition expected (s : nat) : list W := concat (info_expected <$> sorted s).

(** Rank [r] sends expert [l] to rank [s]. *)
Definition moves (r s : nat) (l : Z) : Prop := s ∈ need l ∧ sender s l = Ok r.
#[local] Instance moves_dec r s l : Decision (moves r s l) := _.

Lemma info_cases s i : s < world → i ∈ infos s →
  (∃ dst r, dst ∈ locals s ∧ action_of s dst = Receive i.1 r ∧ i = (i.1, (λ k, irecv k (dst `mod` n) r) <$> seq 0 nt)) ∨
  (∃ x, x ∈ locals s ∧ old !! x = Some i.1 ∧ i = send_info nt old new n g s i.1 x).
Proof.
  intros Hs. unfold all_infos. intros [Hi|Hi]%elem_of_app; [left; by apply elem_recv_infos|right].
  apply (send_infos_ok nt old new n g world s Hm Hs (locals s) []) in Hi as (_ & x & Hx); [|done]. by exists x.
Qed.

Lemma infos_NoDup s : s < world → NoDup (infos s).*1.
Proof.
  intros Hs. unfold all_infos. rewrite fmap_app. apply NoDup_app. split_and!.
  - by eapply recv_infos_NoDup.
  - intros l (i & -> & Hi)%list_elem_of_fmap Hl. apply (send_keys nt old new n g world s Hm Hs) in Hl.
    apply elem_recv_infos in Hi as (dst & r & Hd & Ha & _).
    destruct (receives old new n g world s Hm Hs _ _ _ Hd Ha) as (_ & Hneed & _).
    by apply (need_iff old new n g world s Hm Hs) in Hneed as [_ Hno].
  - by destruct (send_infos_ok nt old new n g world s Hm Hs (locals s) []) as [? _].
Qed.

Lemma omap_none {A B} (f : A → option B) (xs : list A) : (∀ x, x ∈ xs → f x = None) → omap f xs = [].
Proof.
  induction xs as [|x xs IH]; intros Hf; [done|]. cbn. rewrite (Hf x) by left. apply IH. intros. apply Hf. by right.
Qed.

Lemma omap_fmap_some {A B C} (f : B → option C) (g' : A → B) (h : A → C) (xs : list A) :
  (∀ x, f (g' x) = Some (h x)) → omap f (g' <$> xs) = h <$> xs.
Proof. intros Hf. induction xs as [|x xs IH]; [done|]. cbn. by rewrite Hf, IH. Qed.

Lemma omap_fmap_none {A B C} (f : B → option C) (g' : A → B) (xs : list A) : (∀ x, f (g' x) = None) → omap f (g' <$> xs) = [].
Proof. intros Hf. apply omap_none. intros ? (x & -> & _)%list_elem_of_fmap. apply Hf. Qed.

(** What rank [r] sends to [s] for one expert. *)
Lemma sends_info r s i : r < world → i ∈ infos r →
  sends_to s (wire_info i) = if decide (moves r s i.1) then vals i.1 else [].
Proof.
  intros Hr Hi. destruct (info_cases r i Hr Hi) as [(dst & p & Hd & Ha & E)|(x & Hx & Ho & E)].
  - rewrite decide_False.
    { rewrite E. unfold sends_to, wire_info. cbn [snd fst]. rewrite <- list_fmap_compose. by apply omap_fmap_none. }
    intros [Hneed Hsd]. destruct (receives old new n g world r Hm Hr _ _ _ Hd Ha) as (_ & Hn & _).
    apply (need_iff old new n g world r Hm Hr) in Hn as [_ Hno]. destruct (sender_has old new n g world r Hm Hr s i.1 Hneed) as (p' & E' & Hh).
    apply Hno. congruence.
  - assert (has_expert n old r i.1) as Hh by (apply (local_has old new n g world r Hm Hr); eauto).
    destruct (destinations_iff old new n g world r Hm Hr i.1 s Hh) as [ND Hd].
    assert (sends_to s (wire_info i) = if decide (s ∈ destinations old new n g r i.1) then vals i.1 else []) as ->.
    2:{ destruct (decide (moves _ _ _)) as [Hv|Hv]; [rewrite decide_True|rewrite decide_False]; try done; by rewrite Hd. }
    rewrite E. unfold wire_info, send_info. cbn [fst snd]. clear Hd E. revert ND. generalize (destinations old new n g r i.1) as ds. intros ds.
    induction ds as [|d ds IH]; intros ND; [done|]. apply NoDup_cons in ND as [Hno ND]. cbn [fmap list_fmap concat].
    rewrite fmap_app. unfold sends_to in *. rewrite omap_app, IH by done. rewrite <- list_fmap_compose.
    destruct (decide (d = s)) as [->|Hne].
    + rewrite (decide_True (P := s ∈ s :: ds)) by left. rewrite decide_False by done. rewrite app_nil_r.
      apply omap_fmap_some. intros k. cbn. by rewrite decide_True.
    + rewrite omap_fmap_none by (intros k; cbn; by rewrite decide_False). cbn.
      destruct (decide (s ∈ ds)); [rewrite decide_True by (by right)|rewrite decide_False by (by intros [?|?]%elem_of_cons)]; done.
Qed.

Lemma recvs_from_one {A} r p (h : A → W) ks :
  recvs_from r ((λ _, p) <$> ks) (h <$> ks) = if decide (p = r) then h <$> ks else [].
Proof.
  unfold recvs_from. induction ks as [|k ks IH]; [by destruct (decide _)|].
  cbn [fmap list_fmap zip zip_with]. rewrite filter_cons. cbn [fst].
  destruct (decide (p = r)); [|done]. cbn [fmap list_fmap snd]. by rewrite IH.
Qed.

(** What rank [s] is to receive from [r] for one expert. *)
Lemma recvs_info r s i : s < world → i ∈ infos s →
  length (info_expected i) = length (recv_peers (wire_info i)) ∧
  recvs_from r (recv_peers (wire_info i)) (info_expected i) = if decide (moves r s i.1) then vals i.1 else [].
Proof.
  intros Hs Hi. destruct (info_cases s i Hs Hi) as [(dst & p & Hd & Ha & E)|(x & Hx & Ho & E)].
  - destruct (receives old new n g world s Hm Hs _ _ _ Hd Ha) as (_ & Hneed & Hsd & _).
    rewrite E. unfold recv_peers, info_expected, wire_info. cbn [fst snd]. rewrite <- list_fmap_compose.
    rewrite (omap_fmap_some _ _ (λ _, p)) by done. rewrite (omap_fmap_some _ _ (λ k, weight k i.1)) by done.
    split; [by rewrite !length_fmap|]. rewrite recvs_from_one.
    destruct (decide (p = r)) as [->|Hne]; [by rewrite decide_True|]. rewrite decide_False; [done|]. intros [_ Hc]. congruence.
  - assert (recv_peers (wire_info i) = [] ∧ info_expected i = []) as [-> ->].
    { split; apply omap_none; rewrite E; unfold wire_info, send_info; cbn [fst snd].
      - intros op (op' & -> & (d & _ & (k & -> & _)%list_elem_of_fmap)%elem_of_concat_fmap)%list_elem_of_fmap. done.
      - intros op (d & _ & (k & -> & _)%list_elem_of_fmap)%elem_of_concat_fmap. done. }
    split; [done|]. rewrite decide_False; [done|]. intros [Hneed _]. apply (need_iff old new n g world s Hm Hs) in Hneed as [_ Hno].
    apply Hno. apply (local_has old new n g world s Hm Hs). eauto.
Qed.

Lemma elem_sorted s i : i ∈ sorted s ↔ i ∈ infos s.
Proof. by rewrite sort_by_perm. Qed.

Lemma expected_length s : s < world → length (expected s) = length (recv_peers (wires_of s)).
Proof.
  intros Hs. unfold expected, wires_of, recv_peers. rewrite concat_fmap_omap. apply concat_length_eq.
  intros i Hi%elem_sorted. by apply (recvs_info 0 s i).
Qed.

Lemma recvs_from_concat {A} r (f : A → list nat) (h : A → list W) xs :
  (∀ x, x ∈ xs → length (f x) = length (h x)) →
  recvs_from r (concat (f <$> xs)) (concat (h <$> xs)) = concat ((λ x, recvs_from r (f x) (h x)) <$> xs).
Proof.
  intros HL. unfold recvs_from. rewrite zip_concat by done. clear HL. induction xs as [|x xs IH]; [done|].
  cbn. by rewrite filter_app, fmap_app, IH.
Qed.

(** The sends of [r] to [s] are what [s] expects from [r], in order. *)
Lemma exchange_matches r s : r < world → s < world →
  sends_to s (wires_of r) = recvs_from r (recv_peers (wires_of s)) (expected s).
Proof.
  intros Hr Hs. unfold expected, wires_of. unfold sends_to at 1, recv_peers at 1. rewrite !concat_fmap_omap.
  rewrite recvs_from_concat by (intros i Hi%elem_sorted; symmetry; by apply (recvs_info 0 s i)).
  apply (concat_by_key (moves r s) vals); [by apply infos_NoDup..| | |].
  - intros i Hi. by apply sends_info.
  - intros i Hi. by apply recvs_info.
  - intros l [Hneed Hsd]. destruct (sender_has old new n g world s Hm Hs s l Hneed) as (p & E & Hh).
    assert (p = r) as -> by congruence. unfold all_infos. rewrite !fmap_app, !elem_of_app. split.
    + right. by apply (send_keys nt old new n g world r Hm Hr).
    + left. destruct (needs_received old new n g world s Hm Hs l r Hneed Hsd) as (dst & Hd & Ha).
      apply list_elem_of_fmap. exists (l, (λ k, irecv k (dst `mod` n) r) <$> seq 0 nt). split; [done|].
      apply elem_recv_infos. by exists dst, r.
Qed.

Lemma recv_peers_range s p : s < world → p ∈ recv_peers (wires_of s) → p < world.
Proof.
  intros Hs. unfold recv_peers, wires_of. rewrite concat_fmap_omap. intros (i & Hi%elem_sorted & Hp)%elem_of_concat_fmap.
  destruct (info_cases s i Hs Hi) as [(dst & r & Hd & Ha & E)|(x & Hx & Ho & E)].
  - destruct (receives old new n g world s Hm Hs _ _ _ Hd Ha) as (_ & _ & _ & (x & Hx & Hr) & _).
    rewrite E in Hp. unfold wire_info in Hp. cbn [fst snd] in Hp. rewrite <- list_fmap_compose in Hp.
    rewrite (omap_fmap_some _ _ (λ _, r)) in Hp by done. apply list_elem_of_fmap in Hp as (_ & -> & _).
    apply lookup_lt_Some in Hx. destruct Hm. subst r. apply Nat.Div0.div_lt_upper_bound. lia.
  - exfalso. rewrite E in Hp. unfold wire_info, send_info in Hp. cbn [fst snd] in Hp. apply list_elem_of_omap in Hp as (op & Hop & Ho2).
    apply list_elem_of_fmap in Hop as (op' & -> & (d & _ & (k & -> & _)%list_elem_of_fmap)%elem_of_concat_fmap). done.
Qed.

(** ** The rows that arrive *)

Lemma slots_info s i : s < world → i ∈ infos s → length (recv_slots i.2) = length (info_expected i).
Proof.
  intros Hs Hi. unfold recv_slots, info_expected. induction i.2 as [|op ops IH]; [done|]. destruct op; cbn; [by f_equal|done].
Qed.

Lemma recv_slots_sorted s : recv_slots (concat (snd <$> sorted s)) = concat ((λ i, recv_slots i.2) <$> sorted s).
Proof. unfold recv_slots. apply concat_fmap_omap. Qed.

Lemma slot_of s i slot : s < world → i ∈ infos s → slot ∈ recv_slots i.2 →
  ∃ dst r, dst ∈ locals s ∧ action_of s dst = Receive i.1 r ∧ slot.1 < nt ∧ slot.2 = dst - s * n ∧ slot.2 < n.
Proof.
  intros Hs Hi Hslot. destruct (info_cases s i Hs Hi) as [(dst & r & Hd & Ha & E)|(x & Hx & Ho & E)].
  - exists dst, r. rewrite E in Hslot. unfold recv_slots in Hslot. cbn [snd] in Hslot.
    rewrite (omap_fmap_some _ _ (λ k, (k, dst `mod` n))) in Hslot by done. apply list_elem_of_fmap in Hslot as (k & -> & Hk%elem_of_seq).
    destruct (local_mod old new n g world s Hm Hs dst Hd) as [Md Bd]. cbn. split_and!; [done|done|lia|done|lia].
  - exfalso. rewrite E in Hslot. unfold recv_slots, send_info in Hslot. cbn [snd] in Hslot. apply list_elem_of_omap in Hslot as (op & Hop & Ho2).
    apply elem_of_concat_fmap in Hop as (d & _ & (k & -> & _)%list_elem_of_fmap). done.
Qed.

Lemma slots_NoDup s : s < world → NoDup (recv_slots (concat (snd <$> sorted s))).
Proof.
  intros Hs. rewrite recv_slots_sorted.
  assert (∀ part : list (Z * list P2POp), NoDup part.*1 → (∀ i, i ∈ part → i ∈ infos s) → NoDup (concat ((λ i, recv_slots i.2) <$> part))) as X.
  2:{ apply X; [by apply sorted_keys, infos_NoDup|intros i; by rewrite elem_sorted]. }
  induction part as [|i part IH]; intros ND Hin; [constructor|]. cbn in ND. apply NoDup_cons in ND as [Hno ND].
  assert (i ∈ infos s) as Hi by (apply Hin; left). assert (∀ j, j ∈ part → j ∈ infos s) as Hin' by (intros; apply Hin; by right).
  cbn [fmap list_fmap concat]. apply NoDup_app. split_and!; [| |by apply IH].
  - destruct (info_cases s i Hs Hi) as [(dst & r & Hd & Ha & E)|(x & Hx & Ho & E)].
    + rewrite E. unfold recv_slots. cbn [snd]. rewrite (omap_fmap_some _ _ (λ k, (k, dst `mod` n))) by done.
      apply NoDup_fmap_2; [by intros ?? [=]|apply NoDup_seq].
    + destruct (recv_slots i.2) as [|slot ss] eqn:E2; [constructor|]. exfalso.
      assert (slot ∈ recv_slots i.2) as Hsl by (rewrite E2; left). destruct (slot_of s i slot Hs Hi Hsl) as (dst & r & Hd & Ha & _).
      destruct (receives old new n g world s Hm Hs _ _ _ Hd Ha) as (_ & Hneed & _).
      apply (need_iff old new n g world s Hm Hs) in Hneed as [_ Hno2]. apply Hno2, (local_has old new n g world s Hm Hs). eauto.
  - intros slot H1 (j & Hj & H2)%elem_of_concat_fmap.
    destruct (slot_of s i slot Hs Hi H1) as (d1 & r1 & Hd1 & Ha1 & _ & E1 & _).
    destruct (slot_of s j slot Hs (Hin' j Hj) H2) as (d2 & r2 & Hd2 & Ha2 & _ & E2 & _).
    assert (d1 = d2) as <-. { apply (local_iff n s) in Hd1, Hd2. lia. }
    apply Hno. apply list_elem_of_fmap. exists j. split; [congruence|done].
Qed.

(** Everything that is received, and where. *)
Lemma received_row s dst r l k : s < world → dst ∈ locals s → action_of s dst = Receive l r → k < nt →
  ((k, dst - s * n), weight k l) ∈ zip (recv_slots (concat (snd <$> sorted s))) (expected s).
Proof.
  intros Hs Hd Ha Hk. rewrite recv_slots_sorted. unfold expected.
  rewrite zip_concat by (intros i Hi%elem_sorted; by apply (slots_info s)).
  apply elem_of_concat_fmap. exists (l, (λ k, irecv k (dst `mod` n) r) <$> seq 0 nt). split.
  - apply elem_sorted. unfold all_infos. apply elem_of_app. left. apply elem_recv_infos. by exists dst, r.
  - destruct (local_mod old new n g world s Hm Hs dst Hd) as [Md _]. unfold recv_slots, info_expected. cbn [fst snd].
    rewrite (omap_fmap_some _ _ (λ k, (k, dst `mod` n))) by done. rewrite (omap_fmap_some _ _ (λ k, weight k l)) by done.
    apply list_elem_of_lookup. exists k. rewrite lookup_zip_with, !list_lookup_fmap, lookup_seq_lt by done. cbn. by rewrite Md.
Qed.

(** ** The copies *)

Lemma copy_one s src dst (st : Layer (W := W)) : s < world → src ∈ locals s → dst ∈ locals s →
  shape nt n (routed_experts_weights st) → shape nt n (temp_buffers st) →
  ∃ w, copy_to_weights n s src dst st = (Ok tt, set_weights w st) ∧ shape nt n w ∧
    ∀ i j, i < nt → cell w i j = if decide (j = dst - s * n) then cell (temp_buffers st) i (src - s * n) else cell (routed_experts_weights st) i j.
Proof.
  intros Hs Hx Hd Sw St. destruct (local_mod old new n g world s Hm Hs src Hx) as [Mx Bx], (local_mod old new n g world s Hm Hs dst Hd) as [Md Bd].
  destruct (copy_rows_ok nt n (routed_experts_weights st) (temp_buffers st) (dst - s * n) (src - s * n)) as (w & Ew & Hw & Hc); [done..|].
  exists w. split_and!; [|done|done]. unfold copy_to_weights.
  erewrite run_bind; [|done]. erewrite run_bind; [|by eapply local_expert]. erewrite run_bind; [|by eapply local_expert].
  rewrite Md, Mx. cbn. by rewrite Ew.
Qed.

Lemma copy_loop s copies (st : Layer (W := W)) : s < world → NoDup copies.*2 →
  (∀ c, c ∈ copies → c.1 ∈ locals s ∧ c.2 ∈ locals s) →
  shape nt n (routed_experts_weights st) → shape nt n (temp_buffers st) →
  ∃ w, for_all copies (λ '(src, dst), copy_to_weights n s src dst) st = (Ok tt, set_weights w st) ∧ shape nt n w ∧
    (∀ src dst i, (src, dst) ∈ copies → i < nt → cell w i (dst - s * n) = cell (temp_buffers st) i (src - s * n)) ∧
    (∀ i j, i < nt → (∀ c, c ∈ copies → j ≠ c.2 - s * n) → cell w i j = cell (routed_experts_weights st) i j).
Proof.
  intros Hs. revert st. induction copies as [|[src dst] copies IH]; intros st ND Hin Sw St.
  { exists (routed_experts_weights st). split_and!; [by destruct st|done|set_solver|done]. }
  cbn in ND. apply NoDup_cons in ND as [Hno ND]. destruct (Hin (src, dst)) as [Hx Hd]; [left|]. cbn in Hx, Hd.
  destruct (copy_one s src dst st Hs Hx Hd Sw St) as (w1 & E1 & S1 & C1).
  destruct (IH (set_weights w1 st) ND) as (w2 & E2 & S2 & C2 & F2); [intros; apply Hin; by right|done|done|].
  exists w2. split_and!; [|done| |].
  - cbn [for_all]. erewrite run_bind; [|exact E1]. rewrite E2. by destruct st.
  - intros x d i [[= -> ->]|Hc]%elem_of_cons Hi; [|by apply C2].
    rewrite F2, C1, decide_True; try done. intros [x' d'] Hc E. cbn in E. apply Hno.
    destruct (Hin (x', d')) as [_ Hd']; [by right|]. cbn in Hd'. apply (local_iff n s) in Hd, Hd'.
    assert (dst = d') as -> by lia. apply list_elem_of_fmap. by exists (x', d').
  - intros i j Hi Hj. rewrite F2, C1 by (done || (intros c Hc; apply Hj; by right)).
    rewrite decide_False; [done|]. apply (Hj (src, dst)). left.
Qed.

Lemma elem_copies s c : c ∈ concat (copies_of old new n g s <$> locals s) ↔ ∃ dst, dst ∈ locals s ∧ c ∈ copies_of old new n g s dst.
Proof. apply elem_of_concat_fmap. Qed.

Lemma copy_in s dst c : c ∈ copies_of old new n g s dst → c.2 = dst ∧
  (action_of s dst = FreeRider c.1 ∨ (c.1 = dst ∧ ((∃ x, action_of s dst = SameGpu x) ∨ ∃ l r, action_of s dst = Receive l r))).
Proof.
  unfold copies_of. destruct (action_of s dst) as [|x|x|l r]; intros Hc; try (by apply not_elem_of_nil in Hc);
    apply list_elem_of_singleton in Hc as ->; cbn; (split; [done|]); naive_solver.
Qed.

Lemma copies_NoDup s : NoDup (concat (copies_of old new n g s <$> locals s)).*2.
Proof.
  assert (∀ locs, NoDup locs → NoDup (concat (copies_of old new n g s <$> locs)).*2) as X; [|apply X, NoDup_seq].
  induction locs as [|dst locs IH]; intros ND; [constructor|]. apply NoDup_cons in ND as [Hno ND].
  cbn [fmap list_fmap concat]. rewrite fmap_app. apply NoDup_app. split_and!; [| |by apply IH].
  - unfold copies_of. destruct (action_of s dst); cbn; repeat constructor; set_solver.
  - intros d (c & -> & Hc)%list_elem_of_fmap (c' & E & (d' & Hd' & Hc')%elem_of_concat_fmap)%list_elem_of_fmap.
    apply copy_in in Hc as [E1 _], Hc' as [E2 _]. congruence.
Qed.

(** ** One rank, before and after the exchange *)

(** The rank's rows are those of the experts that [m] places on it. *)
Definition rows_of (m : list Z) (s : nat) (w : list (list W)) : Prop :=
  ∀ i j l, i < nt → j < n → m !! (s * n + j) = Some l → cell w i j = Some (weight i l).

Lemma rows_local m s w dst l i : rows_of m s w → dst ∈ locals s → m !! dst = Some l → i < nt → cell w i (dst - s * n) = Some (weight i l).
Proof.
  intros Hr Hd Hl Hi. apply (local_iff n s) in Hd. apply Hr; [done|lia|]. rewrite <- Hl. f_equal. lia.
Qed.

Lemma wires_ok s (st : Layer (W := W)) : s < world → rows_of old s (routed_experts_weights st) →
  mapM (wire st) (concat (snd <$> sorted s)) = Some (wires_of s).
Proof.
  intros Hs Hr. apply mapM_Some. unfold wires_of.
  assert (∀ part, (∀ i, i ∈ part → i ∈ infos s) → Forall2 (λ op w, wire st op = Some w) (concat (snd <$> part)) (concat (wire_info <$> part))) as X.
  2:{ apply X. intros i. by rewrite elem_sorted. }
  induction part as [|i part IH]; intros Hin; [constructor|]. cbn [fmap list_fmap concat]. apply Forall2_app; [|apply IH; intros; apply Hin; by right].
  assert (i ∈ infos s) as Hi by (apply Hin; left).
  unfold wire_info. apply Forall2_fmap_r, Forall_Forall2_diag, Forall_forall. intros op Hop.
  destruct op as [k loc p|k loc p]; [done|]. cbn [wire].
  destruct (info_cases s i Hs Hi) as [(dst & r & Hd & Ha & E)|(x & Hx & Ho & E)]; rewrite E in Hop; cbn [fst snd send_info] in Hop.
  - apply list_elem_of_fmap in Hop as (? & ? & _). done.
  - apply elem_of_concat_fmap in Hop as (d & _ & (k' & [= -> -> ->] & Hk%elem_of_seq)%list_elem_of_fmap).
    destruct (local_mod old new n g world s Hm Hs x Hx) as [Mx Bx]. rewrite Mx.
    pose proof (rows_local old s _ x i.1 k' Hr Hx Ho ltac:(lia)) as Hc. unfold cell in Hc. rewrite Hc. done.
Qed.

(** From the plan and what was received to the rows of the new map. *)
Lemma finish_ok s w t t' : s < world → shape nt n w → shape nt n t' → rows_of old s w →
  (∀ dst x i, dst ∈ locals s → action_of s dst = SameGpu x → i < nt → cell t' i (dst - s * n) = cell w i (x - s * n)) →
  t = MkLayer w t' (concat (copies_of old new n g s <$> locals s)) (infos s) →
  ∃ w' t2, _execute_buffer2weight_copies n s (arrive (concat (snd <$> sorted s)) (expected s) t) =
      (Ok tt, MkLayer w' t2 (concat (copies_of old new n g s <$> locals s)) (infos s)) ∧
    shape nt n w' ∧ shape nt n t2 ∧ rows_of new s w'.
Proof.
  intros Hs Sw St Hr Hsame ->. unfold arrive. cbn [temp_buffers].
  destruct (write_all_cell nt n (recv_slots (concat (snd <$> sorted s))) (expected s) t') as (S2 & A2 & F2); [done|by apply slots_NoDup| | |].
  { rewrite recv_slots_sorted. unfold expected. symmetry. apply concat_length_eq. intros i Hi%elem_sorted. by apply (slots_info s). }
  { apply Forall_forall. intros slot. rewrite recv_slots_sorted. intros (i & Hi%elem_sorted & Hsl)%elem_of_concat_fmap.
    destruct (slot_of s i slot Hs Hi Hsl) as (? & ? & _ & _ & ? & _ & ?). done. }
  set (t2 := foldl _ t' _) in *.
  assert (∀ dst l, dst ∈ locals s → new !! dst = Some l → (∃ x, action_of s dst = SameGpu x) ∨ (∃ l r, action_of s dst = Receive l r) →
    ∀ i, i < nt → cell t2 i (dst - s * n) = Some (weight i l)) as Htemp.
  { intros dst l Hd Hl [(x & Ha)|(l' & r & Ha)] i Hi.
    - rewrite F2.
      + rewrite (Hsame dst x i Hd Ha Hi). apply same_gpu in Ha as (l' & El & Hx & Ho). assert (l' = l) as -> by congruence. by eapply rows_local.
      + rewrite recv_slots_sorted. intros (j & Hj%elem_sorted & Hsl)%elem_of_concat_fmap.
        destruct (slot_of s j _ Hs Hj Hsl) as (d & r & Hd' & Ha' & _ & E & _). cbn in E.
        apply (local_iff n s) in Hd as ?, Hd' as ?. assert (d = dst) as -> by lia. congruence.
    - destruct (receives old new n g world s Hm Hs _ _ _ Hd Ha) as (El & _). assert (l' = l) as -> by congruence.
      apply A2. by eapply received_row. }
  destruct (copy_loop s (concat (copies_of old new n g s <$> locals s))
    (MkLayer w t2 (concat (copies_of old new n g s <$> locals s)) (infos s))) as (w' & E & S' & C & F); [done|apply copies_NoDup| |done|done|].
  { intros c (dst & Hd & Hc)%elem_copies. apply copy_in in Hc as [E [Ha|[E2 _]]]; [|split; congruence].
    apply (free_rider old new n g world s Hm Hs) in Ha as (_ & _ & _ & _ & Hx & _); [|done]. rewrite E. done. }
  exists w', t2. split_and!; [exact E|done|done|].
  intros i j l Hi Hj Hl. set (dst := s * n + j) in *. assert (dst ∈ locals s) as Hd by (apply (local_iff n s); lia).
  replace j with (dst - s * n) by lia. destruct (action_of s dst) as [|x|x|l' r] eqn:Ha.
  - rewrite F; [|done|].
    + cbn. eapply rows_local; [done..| |done]. by rewrite (unchanged old new n g world s Hm Hs).
    + intros c (d & Hd' & Hc)%elem_copies. apply copy_in in Hc as [E1 Hc]. rewrite E1. intros E2.
      apply (local_iff n s) in Hd as ?, Hd' as ?. assert (d = dst) as -> by lia. rewrite Ha in Hc. naive_solver.
  - rewrite (C dst dst); [cbn; apply (Htemp dst l); eauto| |done]. apply elem_copies. exists dst. split; [done|]. unfold copies_of. rewrite Ha. left.
  - destruct (free_rider old new n g world s Hm Hs dst x Hd Ha) as (l' & r & El & Ex & Hx & Hax). assert (l' = l) as -> by congruence.
    rewrite (C x dst); [cbn; apply (Htemp x l); eauto| |done]. apply elem_copies. exists dst. split; [done|]. unfold copies_of. rewrite Ha. left.
  - rewrite (C dst dst); [cbn; apply (Htemp dst l); eauto| |done]. apply elem_copies. exists dst. split; [done|]. unfold copies_of. rewrite Ha. left.
Qed.
End world.

(** ** All ranks *)

(** What [batch_isend_irecv] does when the ranks agree on their messages: everybody gets what
    was sent to it, from each peer in the order it was sent. *)
Definition peer_of {W} (op : WireOp (W := W)) : nat := match op with WSend _ p | WRecv p => p end.
Definition exchange_law {W} (batch_isend_irecv : list (list (WireOp (W := W))) → option (list (list W))) : Prop :=
  ∀ wires,
    (∀ s ops op, wires !! s = Some ops → op ∈ ops → peer_of op < length wires) →
    (∀ r s opr ops, wires !! r = Some opr → wires !! s = Some ops →
       length (sends_to s opr) = length (filter (λ p, p = r) (recv_peers ops))) →
    ∃ received, batch_isend_irecv wires = Some received ∧ length received = length wires ∧
      ∀ s ops vs, wires !! s = Some ops → received !! s = Some vs →
        length vs = length (recv_peers ops) ∧
        ∀ r opr, wires !! r = Some opr → recvs_from r (recv_peers ops) vs = sends_to s opr.

(** Every rank holds the rows of the experts that [m] places on it. *)
Definition placed {W} (nt n : nat) (weight : nat → Z → W) (m : list Z) (world : nat) (ranks : list (list (list W) * list (list W))) : Prop :=
  length ranks = world ∧
  ∀ s w t, ranks !! s = Some (w, t) → shape nt n w ∧ shape nt n t ∧ rows_of nt n weight m s w.

Lemma imap_pair_lookup {A} (xs : list A) i y : imap pair xs !! i = Some y ↔ ∃ x, xs !! i = Some x ∧ y = (i, x).
Proof. rewrite list_lookup_imap. destruct (xs !! i); cbn; naive_solver. Qed.

Section all.
Context {W : Type} (nt : nat) (old new : list Z) (n g world : nat) (weight : nat → Z → W).
Context (Hm : maps_ok old new n g world).
Context (batch_isend_irecv : list (list (WireOp (W := W))) → option (list (list W))) (Hlaw : exchange_law batch_isend_irecv).
Notation wires_of := (wires_of nt old new n g weight).
Notation expected := (expected nt old new n g weight).

Lemma recvs_from_length r (peers : list nat) (vs : list W) : length vs = length peers →
  length (recvs_from r peers vs) = length (filter (λ p, p = r) peers).
Proof.
  unfold recvs_from. rewrite length_fmap. revert vs. induction peers as [|p peers IH]; intros [|v vs] HL; try done.
  cbn [zip zip_with]. rewrite !filter_cons. cbn [fst]. destruct (decide _); cbn; rewrite IH; auto.
Qed.

Lemma wire_peers s op : s < world → op ∈ wires_of s → peer_of op < world.
Proof.
  intros Hs Hop. destruct op as [v p|p]; cbn.
  - unfold ExpertWorld.wires_of in Hop. apply elem_of_concat_fmap in Hop as (i & Hi%elem_sorted & Ho).
    assert (v ∈ sends_to p (wire_info weight i)) as Hv.
    { apply list_elem_of_omap. exists (WSend v p). split; [done|]. by rewrite decide_True. }
    rewrite (sends_info nt old new n g world Hm weight s p i Hs Hi) in Hv. destruct (decide _) as [[Hneed _]|]; [|by apply not_elem_of_nil in Hv].
    apply (need_iff old new n g world s Hm Hs) in Hneed as [(x & Hx & <-) _]. apply lookup_lt_Some in Hx.
    destruct Hm. apply Nat.Div0.div_lt_upper_bound. lia.
  - eapply recv_peers_range; [done|exact Hs|]. apply list_elem_of_omap. by exists (WRecv p).
Qed.

Lemma exchange_ok : batch_isend_irecv (wires_of <$> seq 0 world) = Some (expected <$> seq 0 world).
Proof.
  assert (∀ s ops, (wires_of <$> seq 0 world) !! s = Some ops → s < world ∧ ops = wires_of s) as Hlook.
  { intros s ops. rewrite list_lookup_fmap. intros (x & [-> Hx]%lookup_seq & ->)%fmap_Some. done. }
  destruct (Hlaw (wires_of <$> seq 0 world)) as (received & -> & HL & Hrec).
  - intros s ops op [Hs ->]%Hlook Hop. rewrite length_fmap, length_seq. by eapply wire_peers.
  - intros r s opr ops [Hr ->]%Hlook [Hs ->]%Hlook.
    rewrite (exchange_matches nt old new n g world Hm weight r s Hr Hs). apply recvs_from_length. by apply (expected_length nt old new n g world Hm).
  - f_equal. rewrite length_fmap, length_seq in HL. apply list_eq. intros s. rewrite list_lookup_fmap.
    destruct (decide (s < world)) as [Hs|Hs].
    2:{ by rewrite !lookup_ge_None_2 by (rewrite ?length_seq; lia). }
    rewrite lookup_seq_lt by done. cbn. destruct (lookup_lt_is_Some_2 received s) as [vs Ev]; [lia|]. rewrite Ev. f_equal.
    assert (∀ r, r < world → (wires_of <$> seq 0 world) !! r = Some (wires_of r)) as Hw.
    { intros r Hr. by rewrite list_lookup_fmap, lookup_seq_lt. }
    destruct (Hrec s _ _ (Hw s Hs) Ev) as [HL2 Hr2].
    apply (recvs_from_ext (recv_peers (wires_of s))); [done|by apply (expected_length nt old new n g world Hm)|].
    intros r Hr. assert (r < world) as Hrw by (by eapply recv_peers_range).
    rewrite (Hr2 r _ (Hw r Hrw)). by apply (exchange_matches nt old new n g world Hm).
Qed.

Lemma layer_ok ranks : placed nt n weight old world ranks →
  ∃ ranks', update_expert_weights_single_layer batch_isend_irecv old new n g ranks = Some (Ok ranks') ∧
    placed nt n weight new world ranks'.
Proof.
  intros [HL Hp].
  assert (∃ planned, Forall2 (λ '(s, (w, t)) y, s < world ∧ shape nt n w ∧ rows_of nt n weight old s w ∧
      plan nt old new n g s (MkLayer w t [] []) = (Ok y.1, y.2) ∧
      ∃ t', y = (concat (snd <$> sort_by Zleb fst (all_infos nt old new n g s)),
                 MkLayer w t' (concat (copies_of old new n g s <$> local_locations n s)) (all_infos nt old new n g s)) ∧
        shape nt n t' ∧ ∀ dst x i, dst ∈ local_locations n s → action_of old new n g s dst = SameGpu x → i < nt →
          cell t' i (dst - s * n) = cell w i (x - s * n)) (imap pair ranks) planned) as (planned & Hplan).
  { apply Forall_exists_Forall2_l, Forall_lookup. intros i y (x & Hx & ->)%imap_pair_lookup. destruct x as [w t].
    assert (i < world) as Hi by (rewrite <- HL; by eapply lookup_lt_Some).
    destruct (Hp i w t Hx) as (Sw & St & Hr). destruct (plan_ok nt old new n g world i Hm Hi w t Sw St) as (t' & E & S' & C).
    eexists (_, _). split_and!; [done|done|done|exact E|]. exists t'. done. }
  assert (length planned = world) as HLp by (rewrite <- (Forall2_length _ _ _ Hplan), length_imap; done).
  unfold update_expert_weights_single_layer.
  assert (plan_all old new n g ranks = Ok planned) as ->.
  { apply mapM_Ok. eapply Forall2_impl; [exact Hplan|]. intros [s [w t]] y (Hs & Sw & _ & E & _). destruct y as [ops st].
    cbn in E. destruct Sw as [-> _]. by rewrite E. }
  assert (mapM (λ '(ops, s), mapM (wire s) ops) planned = Some (wires_of <$> seq 0 world)) as ->.
  { apply mapM_Some, Forall2_same_length_lookup_2; [by rewrite length_fmap, length_seq|].
    intros i y ws Hy. rewrite list_lookup_fmap. intros (x & [-> Hx]%lookup_seq & ->)%fmap_Some. cbn.
    destruct (Forall2_lookup_r _ _ _ _ _ Hplan Hy) as ([s [w t]] & (x & Hx2 & [= <- <-])%imap_pair_lookup & Hs & Sw & Hr & _ & t' & -> & _).
    by apply (wires_ok nt old new n g world Hm weight). }
  rewrite exchange_ok. cbn [fmap option_fmap option_map].
  assert (∃ ranks', Forall2 (λ x y, ∃ s w' t2 st,
      x = (s, st) ∧ y = (w', t2) ∧ shape nt n w' ∧ shape nt n t2 ∧ rows_of nt n weight new s w' ∧
      match _execute_buffer2weight_copies n s (arrive st.1.1 st.2 st.1.2) with
      | (Ok _, s) => Ok (routed_experts_weights s, temp_buffers s) | (Raise e, _) => Raise e end = Ok y)
      (imap pair (zip planned (expected <$> seq 0 world))) ranks') as (ranks' & HF).
  { apply Forall_exists_Forall2_l, Forall_lookup. intros i y (x & Hx & ->)%imap_pair_lookup.
    rewrite lookup_zip_with in Hx. apply bind_Some in Hx as (pl & Hpl & (vs & Hvs & [= <-])%bind_Some).
    rewrite list_lookup_fmap in Hvs. apply fmap_Some in Hvs as (x & [-> Hi]%lookup_seq & ->). cbn in *.
    destruct (Forall2_lookup_r _ _ _ _ _ Hplan Hpl) as ([s [w t]] & (x & Hx2 & [= <- <-])%imap_pair_lookup & Hs & Sw & Hr & _ & t' & -> & St' & C).
    destruct (finish_ok nt old new n g world Hm weight s w _ t' Hs Sw St' Hr C eq_refl) as (w' & t2 & E & S1 & S2 & R).
    exists (w', t2), s, w', t2. eexists (_, _, _). split_and!; try done. cbn [fst snd]. by rewrite E. }
  exists ranks'. split.
  - f_equal. unfold finish_all. apply mapM_Ok. eapply Forall2_impl; [exact HF|].
    intros x y (s & w' & t2 & [[ops st] vs] & -> & -> & _ & _ & _ & E). exact E.
  - assert (length ranks' = world) as HLr.
    { rewrite <- (Forall2_length _ _ _ HF), length_imap, length_zip_with, length_fmap, length_seq. lia. }
    split; [done|]. intros s w t Hw. destruct (Forall2_lookup_r _ _ _ _ _ HF Hw) as (x & (y & Hy & ->)%imap_pair_lookup & s' & w' & t2 & st & [= <- <-] & [= <- <-] & S1 & S2 & R & _). done.
Qed.
End all.
