(* ===== verification/ExpertLocation.v ===== *)
(** * Where the experts are

    [src/python/sglang/srt/managers/expert_location.py], the lookups of
    [expert_location_dispatch.py] and [eplb_algorithms/__init__.py]. Tensors are nested lists;
    [torch.distributed] gives the number of ranks and the own rank, which are arguments. *)

From S2P Require Import Prelude EPLB.

Open Scope nat_scope.

(** ** Lists indexed as in Python and torch *)

(** A negative index counts from the end. *)
Definition py_index (len : nat) (i : Z) : Z := if bool_decide (i < 0)%Z then (i + Z.of_nat len)%Z else i.
Definition py_get {A} (l : list A) (i : Z) : result A :=
  let i := py_index (length l) i in
  if bool_decide (0 ≤ i)%Z then match l !! Z.to_nat i with Some x => Ok x | None => Raise IndexError end else Raise IndexError.
Definition py_alter {A} (f : A → A) (l : list A) (i : Z) : result (list A) :=
  x ← py_get l i; Ok (<[Z.to_nat (py_index (length l) i) := f x]> l).

(** ** [class ExpertLocationMetadata] *)

Record ExpertLocationMetadata := MkLoc {
  physical_to_logical_map : list (list Z);
  physical_to_logical_map_cpu : list (list Z);
  logical_to_all_physical_map : list (list (list Z));
  logical_to_all_physical_map_num_valid : list (list Z);
  logical_to_rank_dispatch_physical_map : option (list (list Z))
}.

(** The sizes of the dimensions of a tensor. *)
Definition dim1 {A} (t : list (list A)) : nat := default 0 (length <$> head t).
Definition dim2 {A} (t : list (list (list A))) : nat := default 0 (dim1 <$> head t).

Definition __post_init__ (m : ExpertLocationMetadata) : result unit :=
  if decide (length (physical_to_logical_map m) = length (logical_to_all_physical_map m) ∧
             length (logical_to_all_physical_map m) = length (logical_to_all_physical_map_num_valid m) ∧
             dim1 (logical_to_all_physical_map m) = dim1 (logical_to_all_physical_map_num_valid m) ∧
             dim1 (physical_to_logical_map m) = dim2 (logical_to_all_physical_map m))
  then Ok tt else Raise AssertionError.

(** *** [_compute_logical_to_all_physical_map] *)

Fixpoint append_places (physical_expert_id : nat) (row : list Z) (places : list (list Z)) : result (list (list Z)) :=
  match row with
  | [] => Ok places
  | logical_expert_id :: row =>
      places ← py_alter (λ p, p ++ [Z.of_nat physical_expert_id]) places logical_expert_id;
      append_places (S physical_expert_id) row places
  end.

Definition _pad_nested_array (arr : list (list (list Z))) (pad_value : Z) : result (list (list (list Z))) :=
  let lens : list nat := length <$> concat arr in
  match lens with
  | [] => Raise (ValueError "max() arg is an empty sequence")
  | n :: ns =>
      let max_len := foldl Nat.max n ns in
      Ok ((λ outer : list (list Z), (λ inner, inner ++ replicate (max_len - length inner) pad_value) <$> outer) <$> arr)
  end.

Definition _compute_logical_to_all_physical_map (physical_to_logical_map : list (list Z)) (num_logical_experts : nat)
    : result (list (list (list Z))) :=
  places ← rmap (λ row, append_places 0 row (replicate num_logical_experts [])) physical_to_logical_map;
  _pad_nested_array places (-1).

(** *** [compute_logical_to_rank_dispatch_physical_map] *)

Section random.
(** Python's [random.Random]: a sample without replacement, and a shuffle. *)
Context {Rng : Type} (sample : list Z → nat → Rng → list Z * Rng) (shuffle : list Z → Rng → list Z * Rng).

Definition _fair_choices (arr : list Z) (k : nat) (r : Rng) : result (list Z * Rng) :=
  if decide (length arr = 0) then Raise ZeroDivisionError else
  let quotient := k / length arr in
  let remainder := k `mod` length arr in
  let '(extra, r) := sample arr remainder r in
  Ok (shuffle (concat (replicate quotient arr) ++ extra) r).

Definition _logical_to_all_physical_raw (row : list Z) : list Z := filter (λ p, p ≠ (-1)%Z) row.

(** [p // n]; the floor division of Python. *)
Definition _compute_gpu_id_of_physical_expert (physical_expert_id : Z) (num_local_physical_experts : nat) : result Z :=
  if decide (num_local_physical_experts = 0) then Raise ZeroDivisionError
  else Ok (physical_expert_id / Z.of_nat num_local_physical_experts)%Z.

(** The first candidate of each GPU that has one, else -1. *)
Definition same_gpu_choice (candidates : list Z) (num_local_physical_experts : nat) (gpu_id : nat) : result Z :=
  gpus ← rmap (λ p, _compute_gpu_id_of_physical_expert p num_local_physical_experts) candidates;
  Ok (default (-1)%Z (snd <$> head (filter (λ gp, gp.1 = Z.of_nat gpu_id) (zip gpus candidates)))).

(** [output_partial[output_partial == -1] = values]. *)
Fixpoint fill_masked (output_partial values : list Z) : list Z :=
  match output_partial with
  | [] => []
  | x :: output_partial =>
      if decide (x = (-1)%Z) then
        match values with
        | v :: values => v :: fill_masked output_partial values
        | [] => x :: fill_masked output_partial []
        end
      else x :: fill_masked output_partial values
  end.

(** One expert of one layer: its place for every GPU. *)
Definition dispatch_one (num_gpus num_local_physical_experts : nat) (row : list Z) (r : Rng) : result (list Z * Rng) :=
  let candidates := _logical_to_all_physical_raw row in
  output_partial ← rmap (same_gpu_choice candidates num_local_physical_experts) (seq 0 num_gpus);
  let num_remain := length (filter (λ x, x = (-1)%Z) output_partial) in
  '(choices, r) ← _fair_choices candidates num_remain r;
  Ok (fill_masked output_partial choices, r).

Fixpoint dispatch_layer (num_gpus num_local_physical_experts : nat) (rows : list (list Z)) (r : Rng) : result (list (list Z) * Rng) :=
  match rows with
  | [] => Ok ([], r)
  | row :: rows =>
      '(o, r) ← dispatch_one num_gpus num_local_physical_experts row r;
      '(os, r) ← dispatch_layer num_gpus num_local_physical_experts rows r;
      Ok (o :: os, r)
  end.

Fixpoint dispatch_layers (num_gpus num_local_physical_experts : nat) (layers : list (list (list Z))) (r : Rng)
    : result (list (list (list Z)) * Rng) :=
  match layers with
  | [] => Ok ([], r)
  | rows :: layers =>
      '(o, r) ← dispatch_layer num_gpus num_local_physical_experts rows r;
      '(os, r) ← dispatch_layers num_gpus num_local_physical_experts layers r;
      Ok (o :: os, r)
  end.

Definition compute_logical_to_rank_dispatch_physical_map (logical_to_all_physical_map : list (list (list Z)))
    (num_gpus num_physical_experts ep_rank : nat) (r : Rng) : result (list (list Z)) :=
  if decide (num_gpus = 0) then Raise ZeroDivisionError else
  let num_local_physical_experts := num_physical_experts / num_gpus in
  '(o, _) ← dispatch_layers num_gpus num_local_physical_experts logical_to_all_physical_map r;
  if decide (Forall (Forall (Forall (λ x, x ≠ (-1)%Z))) o) then
    rmap (rmap (λ place_of_gpu, py_get place_of_gpu (Z.of_nat ep_rank))) o
  else Raise AssertionError.

(** *** Construction *)

(** [F.pad(t, (0, n - t.shape[-1]), value=-1)] on a row; a negative padding cuts. *)
Definition pad_row (n : nat) (row : list Z) : list Z := take n row ++ replicate (n - length row) (-1)%Z.

(** The arguments of the server that matter here: [seed] is [random.Random(42)]. *)
Definition _init_raw (static_dispatch : bool) (ep_size rank : nat) (seed : Rng) (num_physical_experts : nat)
    (physical_to_logical_map : list (list Z)) (logical_to_all_physical_map : list (list (list Z)))
    : result ExpertLocationMetadata :=
  dispatch ← (if static_dispatch then
      @Some _ <$> compute_logical_to_rank_dispatch_physical_map logical_to_all_physical_map ep_size
        num_physical_experts (rank `mod` ep_size) seed
    else Ok None);
  let m := MkLoc physical_to_logical_map physical_to_logical_map
    ((λ layer : list (list Z), pad_row num_physical_experts <$> layer) <$> logical_to_all_physical_map)
    ((λ layer : list (list Z), (λ row, Z.of_nat (length (filter (λ x, x ≠ (-1)%Z) row))) <$> layer) <$> logical_to_all_physical_map)
    dispatch in
  _ ← __post_init__ m; Ok m.

(** [_init_common]: the number of physical experts must be a multiple of the ranks. *)
Definition _init_common (num_logical_experts ep_num_redundant_experts ep_size : nat) : result nat :=
  let num_physical_experts := num_logical_experts + ep_num_redundant_experts in
  if decide (ep_size = 0) then Raise ZeroDivisionError
  else if decide (num_physical_experts `mod` ep_size = 0) then Ok num_physical_experts else Raise AssertionError.

Definition init_by_mapping (static_dispatch : bool) (num_logical_experts ep_num_redundant_experts ep_size rank : nat) (seed : Rng)
    (physical_to_logical_map : list (list Z)) : result ExpertLocationMetadata :=
  _ ← _init_common num_logical_experts ep_num_redundant_experts ep_size;
  logical_to_all_physical_map ← _compute_logical_to_all_physical_map physical_to_logical_map num_logical_experts;
  num_physical_experts ← match physical_to_logical_map with row :: _ => Ok (length row) | [] => Raise (ValueError "not enough values to unpack") end;
  _init_raw static_dispatch ep_size rank seed num_physical_experts physical_to_logical_map logical_to_all_physical_map.

Definition init_trivial (static_dispatch : bool) (num_layers num_logical_experts ep_num_redundant_experts ep_size rank : nat) (seed : Rng)
    : result ExpertLocationMetadata :=
  num_physical_experts ← _init_common num_logical_experts ep_num_redundant_experts ep_size;
  init_by_mapping static_dispatch num_logical_experts ep_num_redundant_experts ep_size rank seed
    (replicate num_layers ((λ p, p `mod` Z.of_nat num_logical_experts)%Z <$> aranges num_physical_experts)).
End random.

(** ** [mutation] *)

(** [torch.where(mask, other, self)] along the first dimension. *)
Definition where_layers {A} (update_layer_ids : list nat) (other self : list A) : list A :=
  imap (λ i x, if decide (i ∈ update_layer_ids) then default x (other !! i) else x) self.

(** [update]: the two objects are for the same number of ranks. *)
Definition update (self other : ExpertLocationMetadata) (update_layer_ids : list nat) : result ExpertLocationMetadata :=
  let w {A} (f : ExpertLocationMetadata → list A) := where_layers update_layer_ids (f other) (f self) in
  match logical_to_rank_dispatch_physical_map self, logical_to_rank_dispatch_physical_map other with
  | None, None =>
      Ok (MkLoc (w physical_to_logical_map) (w physical_to_logical_map_cpu) (w logical_to_all_physical_map)
        (w logical_to_all_physical_map_num_valid) None)
  | Some d, Some d' =>
      Ok (MkLoc (w physical_to_logical_map) (w physical_to_logical_map_cpu) (w logical_to_all_physical_map)
        (w logical_to_all_physical_map_num_valid) (Some (where_layers update_layer_ids d' d)))
  | _, _ => Raise AssertionError
  end.

(** ** [usage]: the places of the experts that the tokens of a layer chose *)

Inductive DispatchAlgorithm := DispatchStatic | DispatchDynamic | DispatchFake | DispatchUnknown.

Record ExpertLocationDispatchInfo := MkInfo {
  ep_dispatch_algorithm : DispatchAlgorithm;
  partial_logical_to_rank_dispatch_physical_map : option (list Z);
  partial_logical_to_all_physical_map : list (list Z);
  partial_logical_to_all_physical_map_num_valid : list Z
}.

Definition init_new (algorithm : option DispatchAlgorithm) (m : ExpertLocationMetadata) (layer_id : Z) : result (option ExpertLocationDispatchInfo) :=
  match algorithm with
  | None => Ok None
  | Some a =>
      d ← (match logical_to_rank_dispatch_physical_map m with
           | Some d => Some <$> py_get d layer_id
           | None => Ok None
           end);
      all ← py_get (logical_to_all_physical_map m) layer_id;
      valid ← py_get (logical_to_all_physical_map_num_valid m) layer_id;
      Ok (Some (MkInfo a d all valid))
  end.

Section dispatch.
(** [torch.randint(0, 65536, ..)]: one number for every position. *)
Context (randint : nat → Z).

Definition _topk_ids_logical_to_physical_static (topk_ids : list Z) (info : ExpertLocationDispatchInfo) : result (list Z) :=
  match partial_logical_to_rank_dispatch_physical_map info with
  | Some d => rmap (py_get d) topk_ids
  | None => Raise TypeError
  end.

Definition _topk_ids_logical_to_physical_dynamic (topk_ids : list Z) (info : ExpertLocationDispatchInfo) : result (list Z) :=
  rmap (λ '(k, id),
    valid ← py_get (partial_logical_to_all_physical_map_num_valid info) id;
    row ← py_get (partial_logical_to_all_physical_map info) id;
    py_get row (randint k `mod` valid)%Z) (imap pair topk_ids).

Definition topk_ids_logical_to_physical (topk_ids : list Z) (info : option ExpertLocationDispatchInfo) : result (list Z) :=
  match info with
  | None => Ok topk_ids
  | Some info =>
      match ep_dispatch_algorithm info with
      | DispatchStatic => _topk_ids_logical_to_physical_static topk_ids info
      | DispatchDynamic | DispatchFake => _topk_ids_logical_to_physical_dynamic topk_ids info
      | DispatchUnknown => Raise (RuntimeError "NotImplementedError")
      end
  end.
End dispatch.
