(* ===== verification/ExpertLocThms.v ===== *)
(** * Every place that is dispatched to holds its expert *)

From S2P Require Import Prelude EPLB ExpertLocation.

Open Scope nat_scope.

(** ** Indexing *)

Lemma py_get_nat {A} (l : list A) i x : l !! i = Some x → py_get l (Z.of_nat i) = Ok x.
Proof. intros E. unfold py_get, py_index. rewrite (bool_decide_eq_false_2 (_ < 0)%Z), bool_decide_eq_true_2, Nat2Z.id, E by lia. done. Qed.

Lemma rmap_Ok {A B} (f : A → result B) xs ys : Forall2 (λ x y, f x = Ok y) xs ys → rmap f xs = Ok ys.
Proof. induction 1 as [|x y xs ys E _ IH]; [done|]. cbn. by rewrite E, IH. Qed.

Lemma rmap_fun {A B} (f : A → result B) (h : A → B) xs : (∀ x, x ∈ xs → f x = Ok (h x)) → rmap f xs = Ok (h <$> xs).
Proof.
  intros Hf. apply rmap_Ok. induction xs as [|x xs IH]; constructor; [apply Hf; left|]. apply IH. intros. apply Hf. by right.
Qed.

(** ** The places of an expert in a row of the physical map *)

Fixpoint places (k : nat) (row : list Z) (e : Z) : list Z :=
  match row with
  | [] => []
  | x :: row => if decide (x = e) then Z.of_nat k :: places (S k) row e else places (S k) row e
  end.

Lemma elem_of_places k row e p : p ∈ places k row e ↔ ∃ i, p = Z.of_nat (k + i) ∧ row !! i = Some e.
Proof.
  revert k. induction row as [|x row IH]; intros k; cbn [places]; [set_solver|].
  assert ((∃ i, p = Z.of_nat (k + i) ∧ (x :: row) !! i = Some e) ↔ (p = Z.of_nat k ∧ x = e) ∨ p ∈ places (S k) row e) as ->.
  { rewrite IH. split.
    - intros ([|i] & -> & Hi); cbn in Hi; [left; split; [f_equal; lia|congruence]|right; exists i; split; [f_equal; lia|done]].
    - intros [[-> ->]|(i & -> & Hi)]; [exists 0; split; [f_equal; lia|done]|exists (S i); split; [f_equal; lia|done]]. }
  destruct (decide (x = e)); [rewrite elem_of_cons|]; naive_solver.
Qed.

Lemma places_nonneg k row e p : p ∈ places k row e → (0 ≤ p)%Z.
Proof. intros (i & -> & _)%elem_of_places. lia. Qed.

Lemma places_NoDup k row e : NoDup (places k row e).
Proof.
  revert k. induction row as [|x row IH]; intros k; cbn [places]; [constructor|]. destruct (decide _); [|apply IH].
  constructor; [|apply IH]. intros (i & Hi & _)%elem_of_places. lia.
Qed.

Lemma places_length k row e : length (places k row e) ≤ length row.
Proof. revert k. induction row as [|x row IH]; intros k; cbn; [done|]. specialize (IH (S k)). destruct (decide _); cbn; lia. Qed.

Lemma append_places_ok k row acc : Forall (λ e, 0 ≤ e < Z.of_nat (length acc))%Z row →
  ∃ out, append_places k row acc = Ok out ∧ length out = length acc ∧
    ∀ e, out !! e = (λ a, a ++ places k row (Z.of_nat e)) <$> acc !! e.
Proof.
  revert k acc. induction row as [|x row IH]; intros k acc F; cbn [append_places places].
  { exists acc. split_and!; [done..|]. intros e. destruct (acc !! e); cbn; [by rewrite app_nil_r|done]. }
  apply Forall_cons in F as [Hx F]. destruct (lookup_lt_is_Some_2 acc (Z.to_nat x)) as [a Ea]; [lia|].
  assert (py_get acc x = Ok a) as Hg by (rewrite <- (Z2Nat.id x) by lia; by apply py_get_nat).
  assert (py_index (length acc) x = x) as Hi by (unfold py_index; by rewrite bool_decide_eq_false_2 by lia).
  unfold py_alter at 1. rewrite Hg. cbn [mbind result_bind]. rewrite Hi.
  destruct (IH (S k) (<[Z.to_nat x := a ++ [Z.of_nat k]]> acc)) as (out & E & L & Ho).
  { by rewrite length_insert. }
  exists out. rewrite length_insert in L. split_and!; [done..|]. intros e. rewrite Ho.
  destruct (decide (e = Z.to_nat x)) as [->|Hne].
  - rewrite list_lookup_insert_eq, Ea by lia. cbn. rewrite Z2Nat.id, decide_True by lia. by rewrite <- app_assoc.
  - rewrite list_lookup_insert_ne by done. destruct (acc !! e); cbn; [|done]. by rewrite decide_False by lia.
Qed.

Lemma foldl_max_le n ns x : x ∈ n :: ns → x ≤ foldl Nat.max n ns.
Proof.
  revert n x. induction ns as [|m ns IH]; intros n x Hx; cbn.
  - apply list_elem_of_singleton in Hx. lia.
  - assert (n `max` m ≤ foldl Nat.max (n `max` m) ns) by (apply IH; left).
    apply elem_of_cons in Hx as [->|Hx]; [lia|]. apply elem_of_cons in Hx as [->|Hx]; [lia|]. apply IH. by right.
Qed.

(** ** A correct metadata object *)

(** The row of expert [e]: its places in some order, then -1. *)
Definition row_ok (p2l : list Z) (e : Z) (row : list Z) : Prop :=
  ∃ ps k, row = ps ++ replicate k (-1)%Z ∧ ps ≡ₚ places 0 p2l e ∧ ps ≠ [].

Record layer_ok (num_logical : nat) (p2l : list Z) (all : list (list Z)) (valid : list Z) : Prop := {
  lo_all : length all = num_logical;
  lo_row : ∀ e row, all !! e = Some row → row_ok p2l (Z.of_nat e) row ∧ length row = length p2l;
  lo_valid : valid = (λ row, Z.of_nat (length (filter (λ x, x ≠ (-1)%Z) row))) <$> all
}.

Record meta_ok (num_logical n : nat) (m : ExpertLocationMetadata) : Prop := {
  me_cpu : physical_to_logical_map_cpu m = physical_to_logical_map m;
  me_all : length (logical_to_all_physical_map m) = length (physical_to_logical_map m);
  me_valid : length (logical_to_all_physical_map_num_valid m) = length (physical_to_logical_map m);
  me_layer : ∀ i p2l all valid, physical_to_logical_map m !! i = Some p2l → logical_to_all_physical_map m !! i = Some all →
    logical_to_all_physical_map_num_valid m !! i = Some valid →
    length p2l = n ∧ Forall (λ e, 0 ≤ e < Z.of_nat num_logical)%Z p2l ∧ layer_ok num_logical p2l all valid;
  me_static : ∀ d, logical_to_rank_dispatch_physical_map m = Some d → length d = length (physical_to_logical_map m) ∧
    ∀ i p2l row, physical_to_logical_map m !! i = Some p2l → d !! i = Some row → length row = num_logical ∧
      ∀ e p, row !! e = Some p → p ∈ places 0 p2l (Z.of_nat e)
}.

Lemma filter_row (ps : list Z) k : Forall (λ p, (0 ≤ p)%Z) ps → filter (λ x, x ≠ (-1)%Z) (ps ++ replicate k (-1)%Z) = ps.
Proof.
  intros F. rewrite filter_app.
  assert (filter (λ x, x ≠ (-1)%Z) (replicate k (-1)%Z) = []) as -> by (induction k; done).
  rewrite app_nil_r. induction F as [|p ps Hp _ IH]; [done|]. rewrite filter_cons, IH. by rewrite decide_True by lia.
Qed.

Lemma row_ok_nonneg p2l e ps : ps ≡ₚ places 0 p2l e → Forall (λ p, (0 ≤ p)%Z) ps.
Proof. intros Hp. apply Forall_forall. intros p Hin. rewrite Hp in Hin. by apply places_nonneg in Hin. Qed.

(** ** The dispatch table *)

Lemma fill_masked_ok part values : length values = length (filter (λ x, x = (-1)%Z) part) → Forall (λ v, v ≠ (-1)%Z) values →
  length (fill_masked part values) = length part ∧
  (∀ i x, part !! i = Some x → x ≠ (-1)%Z → fill_masked part values !! i = Some x) ∧
  (snd <$> filter (λ po, po.1 = (-1)%Z) (zip part (fill_masked part values))) = values.
Proof.
  revert values. induction part as [|x part IH]; intros values L F.
  { destruct values; [|done]. done. }
  cbn [fill_masked]. rewrite filter_cons in L. destruct (decide (x = (-1)%Z)) as [->|Hx].
  - destruct values as [|v values]; [done|]. apply Forall_cons in F as [Hv F]. destruct (IH values) as (L2 & H2 & H3); [by injection L|done|].
    split_and!; [cbn; lia| |].
    + intros [|i] y Hy Hny; cbn in *; [congruence|by apply H2].
    + cbn [zip zip_with]. rewrite filter_cons. cbn [fst]. rewrite decide_True by done. cbn [fmap list_fmap snd]. by f_equal.
  - destruct (IH values) as (L2 & H2 & H3); [done|done|]. split_and!; [cbn; lia| |].
    + intros [|i] y Hy Hny; cbn in *; [done|by apply H2].
    + cbn [zip zip_with]. rewrite filter_cons. cbn [fst]. by rewrite decide_False by done.
Qed.

Definition occurrences (x : Z) (xs : list Z) : nat := length (filter (λ y, y = x) xs).

Lemma occurrences_perm x xs ys : xs ≡ₚ ys → occurrences x xs = occurrences x ys.
Proof. unfold occurrences. by intros ->. Qed.

Lemma occurrences_app x xs ys : occurrences x (xs ++ ys) = occurrences x xs + occurrences x ys.
Proof. unfold occurrences. by rewrite filter_app, length_app. Qed.

Lemma occurrences_NoDup x xs : NoDup xs → x ∈ xs → occurrences x xs = 1.
Proof.
  unfold occurrences. induction 1 as [|y ys Hy ND IH]; [by intros ?%not_elem_of_nil|]. rewrite filter_cons.
  intros [->|Hx]%elem_of_cons.
  - rewrite decide_True by done. cbn. f_equal. assert (filter (λ y0, y0 = y) ys = []) as ->; [|done].
    destruct (filter _ ys) as [|z zs] eqn:E; [done|]. exfalso.
    assert (z ∈ filter (λ y0, y0 = y) ys) as [-> Hz]%list_elem_of_filter by (rewrite E; left). done.
  - rewrite decide_False by congruence. by apply IH.
Qed.

Lemma filter_of_fmap {A B} (f : A → B) (P : B → Prop) `{!∀ x, Decision (P x)} (xs : list A) : filter P (f <$> xs) = f <$> filter (λ x, P (f x)) xs.
Proof. induction xs as [|x xs IH]; [done|]. cbn [fmap list_fmap]. rewrite !filter_cons, IH. by destruct (decide _). Qed.

Lemma filter_ext_in {A} (P Q : A → Prop) `{!∀ x, Decision (P x), !∀ x, Decision (Q x)} (xs : list A) :
  (∀ x, x ∈ xs → P x ↔ Q x) → filter P xs = filter Q xs.
Proof.
  induction xs as [|x xs IH]; intros HE; [done|]. rewrite !filter_cons, IH by (intros; apply HE; by right).
  pose proof (HE x ltac:(left)). destruct (decide (P x)), (decide (Q x)); naive_solver.
Qed.

Section random.
Context {Rng : Type} (sample : list Z → nat → Rng → list Z * Rng) (shuffle : list Z → Rng → list Z * Rng).
(** A sample has [k] elements of the list, each position at most once; a shuffle permutes. *)
Context (sample_law : ∀ arr k r, k ≤ length arr → length (sample arr k r).1 = k ∧ ∃ rest, arr ≡ₚ (sample arr k r).1 ++ rest).
Context (shuffle_law : ∀ arr r, (shuffle arr r).1 ≡ₚ arr).

Lemma fair_choices_ok arr k r : arr ≠ [] → NoDup arr →
  ∃ cs r', _fair_choices sample shuffle arr k r = Ok (cs, r') ∧ length cs = k ∧ (∀ x, x ∈ cs → x ∈ arr) ∧
    ∀ x, x ∈ arr → k / length arr ≤ occurrences x cs ≤ k / length arr + 1.
Proof.
  intros Hne ND. assert (0 < length arr) as Hpos by (destruct arr; [done|cbn; lia]).
  unfold _fair_choices. rewrite decide_False by lia.
  destruct (sample arr (k `mod` length arr) r) as [extra r1] eqn:Es.
  pose proof (Nat.mod_upper_bound k (length arr)). pose proof (Nat.div_mod_eq k (length arr)) as Hdm.
  destruct (sample_law arr (k `mod` length arr) r) as [Le (rest & Hrest)]; [lia|]. rewrite Es in Le, Hrest. cbn in Le, Hrest.
  destruct (shuffle (concat (replicate (k / length arr) arr) ++ extra) r1) as [cs r2] eqn:Eh.
  pose proof (shuffle_law (concat (replicate (k / length arr) arr) ++ extra) r1) as Hsh. rewrite Eh in Hsh. cbn in Hsh.
  exists cs, r2. split_and!; [done| | |].
  - rewrite Hsh, length_app, Le. set (q := k / length arr) in *. clearbody q.
    assert (length (concat (replicate q arr)) = q * length arr) as ->; [|lia]. clear. induction q; cbn; [done|]. rewrite length_app. lia.
  - intros x. rewrite Hsh. intros [Hx|Hx]%elem_of_app; [|rewrite Hrest; apply elem_of_app; by left].
    clear -Hx. induction (k / length arr) as [|q IH]; [by apply not_elem_of_nil in Hx|]. cbn in Hx. apply elem_of_app in Hx as [?|?]; auto.
  - intros x Hx. rewrite (occurrences_perm x _ _ Hsh), occurrences_app.
    assert (occurrences x (concat (replicate (k / length arr) arr)) = k / length arr) as ->.
    { clear -ND Hx. induction (k / length arr) as [|q IH]; [done|]. cbn [replicate concat]. rewrite occurrences_app, IH, occurrences_NoDup by done. lia. }
    pose proof (occurrences_NoDup x arr ND Hx) as H1. rewrite (occurrences_perm x _ _ Hrest), occurrences_app in H1. lia.
Qed.

(** The first place of the expert on a GPU. *)
Definition local_place (n_local : nat) (ps : list Z) (gpu : nat) : option Z :=
  head (filter (λ p, (p / Z.of_nat n_local)%Z = Z.of_nat gpu) ps).

Lemma same_gpu_ok n_local ps gpu : 0 < n_local → same_gpu_choice ps n_local gpu = Ok (default (-1)%Z (local_place n_local ps gpu)).
Proof.
  intros Hn. unfold same_gpu_choice, local_place. rewrite (rmap_fun _ (λ p, p / Z.of_nat n_local)%Z).
  2:{ intros p _. unfold _compute_gpu_id_of_physical_expert. by rewrite decide_False by lia. }
  cbn [mbind result_bind]. f_equal. induction ps as [|p ps IH]; [done|]. cbn [fmap list_fmap zip zip_with].
  rewrite !filter_cons. cbn [fst]. by destruct (decide _).
Qed.

Lemma local_place_in n_local ps gpu p : local_place n_local ps gpu = Some p → p ∈ ps ∧ (p / Z.of_nat n_local)%Z = Z.of_nat gpu.
Proof.
  unfold local_place. intros E. assert (p ∈ filter (λ p, (p / Z.of_nat n_local)%Z = Z.of_nat gpu) ps) as [? ?]%list_elem_of_filter; [|done].
  destruct (filter _ _); simplify_eq/=. left.
Qed.

(** What the table has for one expert: its own place for a GPU that has one, and the places
    shared evenly by the others. *)
Record dispatch_ok (num_gpus n_local : nat) (ps : list Z) (o : list Z) : Prop := {
  di_len : length o = num_gpus;
  di_place : ∀ gpu p, o !! gpu = Some p → p ∈ ps;
  di_local : ∀ gpu p, o !! gpu = Some p → ∀ q, local_place n_local ps gpu = Some q → p = q;
  di_fair : ∀ p, p ∈ ps →
    let remote := filter (λ gpu, local_place n_local ps gpu = None) (seq 0 num_gpus) in
    let share := length (filter (λ gpu, o !! gpu = Some p) remote) in
    length remote / length ps ≤ share ≤ length remote / length ps + 1
}.

Lemma dispatch_one_ok num_gpus n_local ps k r : 0 < n_local → ps ≠ [] → NoDup ps → Forall (λ p, (0 ≤ p)%Z) ps →
  ∃ o r', dispatch_one sample shuffle num_gpus n_local (ps ++ replicate k (-1)%Z) r = Ok (o, r') ∧ dispatch_ok num_gpus n_local ps o.
Proof.
  intros Hn Hne ND F. unfold dispatch_one, _logical_to_all_physical_raw. rewrite (filter_row ps k F).
  rewrite (rmap_fun _ (λ gpu, default (-1)%Z (local_place n_local ps gpu))) by (intros; by apply same_gpu_ok).
  cbn [mbind result_bind]. set (part := (λ gpu, default (-1)%Z (local_place n_local ps gpu)) <$> seq 0 num_gpus).
  destruct (fair_choices_ok ps (length (filter (λ x, x = (-1)%Z) part)) r Hne ND) as (cs & r' & -> & Lc & Hin & Hfair).
  cbn [mbind result_bind]. exists (fill_masked part cs), r'. split; [done|].
  rewrite Forall_forall in F.
  assert (Forall (λ v, v ≠ (-1)%Z) cs) as Fc. { apply Forall_forall. intros v Hv%Hin%F. lia. }
  destruct (fill_masked_ok part cs Lc Fc) as (L & Hkeep & Hmask).
  set (o := fill_masked part cs) in *. clearbody o.
  assert (∀ gpu, gpu < num_gpus → part !! gpu = Some (default (-1)%Z (local_place n_local ps gpu))) as Hpart.
  { intros gpu Hg. unfold part. by rewrite list_lookup_fmap, lookup_seq_lt. }
  assert (length part = num_gpus) as Lp by (unfold part; by rewrite length_fmap, length_seq).
  assert (∀ gpu, local_place n_local ps gpu = None ↔ default (-1)%Z (local_place n_local ps gpu) = (-1)%Z) as Hnone.
  { intros gpu. destruct (local_place n_local ps gpu) as [q|] eqn:E; [|done]. apply local_place_in in E as [E%F _]. cbn. split; [done|lia]. }
  split.
  - lia.
  - intros gpu p Hp. pose proof (lookup_lt_Some _ _ _ Hp) as Hg. rewrite L, Lp in Hg.
    destruct (local_place n_local ps gpu) as [q|] eqn:E.
    + pose proof (local_place_in _ _ _ _ E) as [Hq _]. rewrite (Hkeep gpu q) in Hp; [congruence|by rewrite Hpart, E|]. apply F in Hq. lia.
    + apply Hin. rewrite <- Hmask. apply list_elem_of_fmap. exists ((-1)%Z, p). split; [done|]. apply list_elem_of_filter. split; [done|].
      apply list_elem_of_lookup. exists gpu. rewrite lookup_zip_with, Hpart, Hp, E by done. done.
  - intros gpu p Hp q E. pose proof (lookup_lt_Some _ _ _ Hp) as Hg. rewrite L, Lp in Hg.
    pose proof (local_place_in _ _ _ _ E) as [Hq _]. rewrite (Hkeep gpu q) in Hp; [congruence|by rewrite Hpart, E|]. apply F in Hq. lia.
  - intros p Hp remote share.
    assert (length remote = length (filter (λ x, x = (-1)%Z) part)) as Er.
    { unfold remote, part. rewrite filter_of_fmap, length_fmap. f_equal. apply list_filter_iff. intros gpu. apply Hnone. }
    assert (share = occurrences p cs) as Es; [|rewrite Es, Er; by apply Hfair].
    unfold share, remote, occurrences. rewrite <- Hmask. clear Hfair Hmask Er share remote.
    assert (zip part o = (λ gpu, (default (-1)%Z (local_place n_local ps gpu), default 0%Z (o !! gpu))) <$> seq 0 num_gpus) as Ez.
    { apply list_eq. intros gpu. rewrite list_lookup_fmap. destruct (decide (gpu < num_gpus)) as [Hg|Hg].
      - rewrite lookup_zip_with, Hpart, lookup_seq_lt by done. cbn.
        destruct (lookup_lt_is_Some_2 o gpu) as [v Ev]; [lia|]. by rewrite Ev.
      - rewrite !lookup_ge_None_2; [done|rewrite length_seq; lia|rewrite length_zip_with; lia]. }
    rewrite Ez, (filter_of_fmap _ (λ po, po.1 = (-1)%Z)), <- list_fmap_compose, (filter_of_fmap _ (λ y, y = p)), length_fmap.
    rewrite !list_filter_filter. f_equal. apply filter_ext_in. intros gpu Hg%elem_of_seq. cbn. rewrite Hnone.
    destruct (lookup_lt_is_Some_2 o gpu) as [v Ev]; [lia|]. rewrite Ev. cbn. naive_solver.
Qed.

(** ** Building the metadata *)

(** The places of all experts of all layers, before padding. *)
Definition l2p_ok (num_logical : nat) (p2l : list (list Z)) (l2p : list (list (list Z))) : Prop :=
  Forall2 (λ row rows, length rows = num_logical ∧ ∀ e places, rows !! e = Some places → row_ok row (Z.of_nat e) places) p2l l2p.

Lemma dispatch_layer_ok num_gpus n_local p2l rows k r : 0 < n_local →
  (∀ e places, rows !! e = Some places → row_ok p2l (Z.of_nat (k + e)) places) →
  ∃ os r', dispatch_layer sample shuffle num_gpus n_local rows r = Ok (os, r') ∧
    Forall2 (λ row o, dispatch_ok num_gpus n_local (_logical_to_all_physical_raw row) o) rows os.
Proof.
  intros Hn. revert k r. induction rows as [|row rows IH]; intros k r Hrows; [exists [], r; by split|].
  destruct (Hrows 0 row eq_refl) as (ps & j & -> & Hp & Hne). cbn [dispatch_layer].
  assert (NoDup ps) as ND by (rewrite Hp; apply places_NoDup). pose proof (row_ok_nonneg _ _ _ Hp) as F.
  destruct (dispatch_one_ok num_gpus n_local ps j r Hn Hne ND F) as (o & r1 & -> & Ho). cbn [mbind result_bind].
  destruct (IH (S k) r1) as (os & r2 & -> & Hos).
  { intros e row2 He. replace (S k + e) with (k + S e) by lia. by apply Hrows. }
  exists (o :: os), r2. split; [done|]. constructor; [|done]. unfold _logical_to_all_physical_raw. by rewrite filter_row.
Qed.

Lemma dispatch_layers_ok num_gpus n_local num_logical p2l l2p r : 0 < n_local → l2p_ok num_logical p2l l2p →
  ∃ table r', dispatch_layers sample shuffle num_gpus n_local l2p r = Ok (table, r') ∧
    Forall2 (Forall2 (λ row o, dispatch_ok num_gpus n_local (_logical_to_all_physical_raw row) o)) l2p table.
Proof.
  intros Hn HF. revert r. induction HF as [|row rows p2l l2p [_ Hr] _ IH]; intros r; [exists [], r; by split|].
  cbn [dispatch_layers]. destruct (dispatch_layer_ok num_gpus n_local row rows 0 r Hn) as (o & r1 & -> & Ho); [done|]. cbn [mbind result_bind].
  destruct (IH r1) as (os & r2 & -> & Hos). exists (o :: os), r2. split; [done|]. by constructor.
Qed.

Lemma raw_row p2l e row : row_ok p2l e row → _logical_to_all_physical_raw row ≡ₚ places 0 p2l e.
Proof.
  intros (ps & k & -> & Hp & _). unfold _logical_to_all_physical_raw. by rewrite filter_row by by eapply row_ok_nonneg.
Qed.

(** The table that all ranks compute, and the part of each. *)
Lemma dispatch_table_ok num_gpus n num_logical p2l l2p r :
  0 < num_gpus → 0 < n / num_gpus → l2p_ok num_logical p2l l2p →
  ∃ table : list (list (list Z)),
    Forall2 (Forall2 (λ row o, dispatch_ok num_gpus (n / num_gpus) (_logical_to_all_physical_raw row) o)) l2p table ∧
    ∀ ep_rank, ep_rank < num_gpus →
      compute_logical_to_rank_dispatch_physical_map sample shuffle l2p num_gpus n ep_rank r =
        Ok ((λ layer : list (list Z), (λ o, default 0%Z (o !! ep_rank)) <$> layer) <$> table).
Proof.
  intros Hg Hn Hl. destruct (dispatch_layers_ok num_gpus (n / num_gpus) num_logical p2l l2p r Hn Hl) as (table & r' & E & Ht).
  exists table. split; [done|]. intros ep_rank Hr. unfold compute_logical_to_rank_dispatch_physical_map.
  rewrite decide_False by lia. rewrite E. cbn [mbind result_bind].
  assert (∀ layer os, (∃ l2p_l, Forall2 (λ row o, dispatch_ok num_gpus (n / num_gpus) (_logical_to_all_physical_raw row) o) l2p_l layer) → os ∈ layer →
     length os = num_gpus ∧ Forall (λ x, x ≠ (-1)%Z) os) as Hos.
  { intros layer os (rows & HF) (e & He)%list_elem_of_lookup. destruct (Forall2_lookup_r _ _ _ _ _ HF He) as (row & Hrow & D).
    split; [apply D|]. apply Forall_lookup. intros gpu p Hp. pose proof (di_place _ _ _ _ D gpu p Hp) as Hin.
    unfold _logical_to_all_physical_raw in Hin. apply list_elem_of_filter in Hin as [Hin _]. done. }
  assert (∀ layer, layer ∈ table → ∃ l2p_l, Forall2 (λ row o, dispatch_ok num_gpus (n / num_gpus) (_logical_to_all_physical_raw row) o) l2p_l layer) as Hlay.
  { intros layer (i & Hi)%list_elem_of_lookup. destruct (Forall2_lookup_r _ _ _ _ _ Ht Hi) as (rows & _ & HF). eauto. }
  rewrite decide_True.
  2:{ apply Forall_forall. intros layer Hi%Hlay. apply Forall_forall. intros os Ho. by apply (Hos layer). }
  apply rmap_fun. intros layer Hi%Hlay. apply rmap_fun. intros os Ho. destruct (Hos layer os Hi Ho) as [L _].
  destruct (lookup_lt_is_Some_2 os ep_rank) as [x Ex]; [lia|]. rewrite (py_get_nat _ _ _ Ex). by rewrite Ex.
Qed.

Lemma pad_row_ok p2l e row : row_ok p2l e row → row_ok p2l e (pad_row (length p2l) row) ∧ length (pad_row (length p2l) row) = length p2l ∧
  filter (λ x, x ≠ (-1)%Z) (pad_row (length p2l) row) = filter (λ x, x ≠ (-1)%Z) row.
Proof.
  intros (ps & k & -> & Hp & Hne). pose proof (places_length 0 p2l e) as L. rewrite <- Hp in L. unfold pad_row.
  rewrite take_app_ge by done. rewrite take_replicate, length_app, length_replicate, <- app_assoc, <- replicate_add.
  assert (Forall (λ p, (0 ≤ p)%Z) ps) as F by by eapply row_ok_nonneg.
  split_and!; [by eexists _, _|rewrite length_app, length_replicate; lia|by rewrite !filter_row].
Qed.

Lemma init_raw_ok (static : bool) ep_size rank r n num_logical p2l l2p :
  0 < ep_size → 0 < n / ep_size → 0 < num_logical → l2p_ok num_logical p2l l2p → Forall (λ row, length row = n ∧ Forall (λ e, 0 ≤ e < Z.of_nat num_logical)%Z row) p2l →
  ∃ m, _init_raw sample shuffle static ep_size rank r n p2l l2p = Ok m ∧ physical_to_logical_map m = p2l ∧ meta_ok num_logical n m ∧
    (is_Some (logical_to_rank_dispatch_physical_map m) ↔ static = true).
Proof.
  intros He Hn Hnl Hl Hp.
  set (all := (λ layer : list (list Z), pad_row n <$> layer) <$> l2p).
  set (valid := (λ layer : list (list Z), (λ row, Z.of_nat (length (filter (λ x, x ≠ (-1)%Z) row))) <$> layer) <$> l2p).
  assert (∃ d, (if static then @Some _ <$> compute_logical_to_rank_dispatch_physical_map sample shuffle l2p ep_size n (rank `mod` ep_size) r else Ok None) = Ok d ∧
    (is_Some d ↔ static = true) ∧ (∀ d', d = Some d' → length d' = length p2l ∧ ∀ i row dr, p2l !! i = Some row → d' !! i = Some dr → length dr = num_logical ∧
      ∀ e p, dr !! e = Some p → p ∈ places 0 row (Z.of_nat e))) as (d & Ed & Hsome & Hd).
  { destruct static; [|exists None; split_and!; [done|by split; [intros []|]|done]].
    destruct (dispatch_table_ok ep_size n num_logical p2l l2p r He Hn Hl) as (table & Ht & Hc).
    rewrite Hc by (apply Nat.mod_upper_bound; lia). eexists. split_and!; [done|done|]. intros d' [= <-].
    pose proof (Forall2_length _ _ _ Hl). pose proof (Forall2_length _ _ _ Ht). split; [rewrite length_fmap; lia|].
    intros i row dr Hi Hdr. rewrite list_lookup_fmap in Hdr. apply fmap_Some in Hdr as (layer & Hlay & ->).
    destruct (Forall2_lookup_r _ _ _ _ _ Ht Hlay) as (rows & Hrows & HF). destruct (Forall2_lookup_lr _ _ _ _ _ _ Hl Hi Hrows) as [HL Hok].
    split; [rewrite length_fmap, <- (Forall2_length _ _ _ HF); lia|]. intros e p Hep. rewrite list_lookup_fmap in Hep.
    apply fmap_Some in Hep as (o & Ho & ->). destruct (Forall2_lookup_r _ _ _ _ _ HF Ho) as (prow & Hprow & D).
    destruct (lookup_lt_is_Some_2 o (rank `mod` ep_size)) as [x Ex].
    { rewrite (di_len _ _ _ _ D). apply Nat.mod_upper_bound. lia. }
    rewrite Ex. cbn. rewrite <- (raw_row _ _ _ (Hok e prow Hprow)). by eapply (di_place _ _ _ _ D). }
  pose proof (Forall2_length _ _ _ Hl) as Llen.
  exists (MkLoc p2l p2l all valid d). split_and!; [|done| |done].
  - unfold _init_raw. rewrite Ed. cbn [mbind result_bind]. fold all valid. unfold __post_init__. rewrite decide_True; [done|]. cbn.
    split_and!; [by unfold all; rewrite length_fmap|by unfold all, valid; rewrite !length_fmap| |].
    + unfold all, valid, dim1. rewrite !head_fmap || idtac. destruct l2p as [|rows l2p]; [done|]. cbn. by rewrite !length_fmap.
    + unfold all, dim1, dim2. destruct Hl as [|row rows p2l' l2p' [HL Hok] _]; [done|]. cbn. unfold dim1.
      destruct rows as [|prow rows]; [cbn in HL; lia|]. cbn. apply Forall_cons in Hp as [[<- _] _].
      symmetry. apply (pad_row_ok row 0 prow). by apply (Hok 0).
  - split; cbn; [done|by unfold all; rewrite length_fmap|by unfold valid; rewrite length_fmap| |done].
    intros i row arow vrow Hi Ha Hv. unfold all in Ha. unfold valid in Hv. rewrite list_lookup_fmap in Ha. rewrite list_lookup_fmap in Hv.
    destruct (l2p !! i) as [rows|] eqn:Erows; simplify_eq/=. destruct (Forall2_lookup_lr _ _ _ _ _ _ Hl Hi Erows) as [HL Hok].
    rewrite Forall_lookup in Hp. destruct (Hp i row Hi) as [Hlen Hrange]. split; [done|]. split; [done|]. split.
    + by rewrite length_fmap.
    + intros e prow Hep. rewrite list_lookup_fmap in Hep. apply fmap_Some in Hep as (prow' & Hpr & ->).
      rewrite <- Hlen. destruct (pad_row_ok row (Z.of_nat e) prow') as (? & ? & _); [by apply Hok|done].
    + rewrite <- list_fmap_compose. apply list_fmap_ext. intros e prow Hpr. cbn. rewrite <- Hlen.
      destruct (pad_row_ok row (Z.of_nat e) prow) as (_ & _ & ->); [by apply Hok|done].
Qed.

(** The map from logical to physical experts, from the physical map. *)
Lemma compute_l2p_ok num_logical p2l : 0 < num_logical → p2l ≠ [] →
  Forall (λ row, Forall (λ e, 0 ≤ e < Z.of_nat num_logical)%Z row ∧ ∀ e, e < num_logical → Z.of_nat e ∈ row) p2l →
  ∃ l2p, _compute_logical_to_all_physical_map p2l num_logical = Ok l2p ∧ l2p_ok num_logical p2l l2p.
Proof.
  intros Hnl Hne HF. unfold _compute_logical_to_all_physical_map.
  assert (∃ arr, rmap (λ row, append_places 0 row (replicate num_logical [])) p2l = Ok arr ∧
    Forall2 (λ row rows, length rows = num_logical ∧ ∀ e ps, rows !! e = Some ps → ps = places 0 row (Z.of_nat e) ∧ ps ≠ []) p2l arr) as (arr & Ea & Harr).
  { clear Hne. induction HF as [|row p2l [Hr Hall] _ (arr & E & IH)]; [by exists []|].
    destruct (append_places_ok 0 row (replicate num_logical [])) as (out & Eo & Lo & Ho).
    { by rewrite length_replicate. }
    exists (out :: arr). split; [cbn; by rewrite Eo, E|]. constructor; [|done]. rewrite length_replicate in Lo. split; [done|].
    intros e ps Hps. pose proof (lookup_lt_Some _ _ _ Hps) as Hlt. rewrite Ho, lookup_replicate_2 in Hps by lia. injection Hps as <-. cbn.
    split; [done|]. destruct (list_elem_of_lookup_1 _ _ (Hall e ltac:(lia))) as [i Hi].
    assert (Z.of_nat (0 + i) ∈ places 0 row (Z.of_nat e)) as Hin by (apply elem_of_places; eauto).
    intros E0. rewrite E0 in Hin. by apply not_elem_of_nil in Hin. }
  rewrite Ea. cbn [mbind result_bind]. unfold _pad_nested_array.
  destruct (length <$> concat arr) as [|n ns] eqn:El.
  { exfalso. destruct Harr as [|row rows p2l' arr' [L _] _]; [done|]. destruct rows as [|x rows]; cbn in L; [lia|]. done. }
  eexists. split; [done|]. unfold l2p_ok. apply Forall2_fmap_r. eapply Forall2_impl; [exact Harr|].
  intros row rows [L Hrows]. cbn. split; [by rewrite length_fmap|]. intros e ps Hps. rewrite list_lookup_fmap in Hps.
  apply fmap_Some in Hps as (ps' & Hps' & ->). destruct (Hrows e ps' Hps') as [-> Hne']. by eexists _, _.
Qed.

Lemma init_by_mapping_ok (static : bool) num_logical redundant ep_size rank r n p2l :
  0 < num_logical → 0 < ep_size → (num_logical + redundant) `mod` ep_size = 0 → 0 < n / ep_size → p2l ≠ [] →
  Forall (λ row, length row = n ∧ Forall (λ e, 0 ≤ e < Z.of_nat num_logical)%Z row ∧ ∀ e, e < num_logical → Z.of_nat e ∈ row) p2l →
  ∃ m, init_by_mapping sample shuffle static num_logical redundant ep_size rank r p2l = Ok m ∧
    physical_to_logical_map m = p2l ∧ meta_ok num_logical n m ∧ (is_Some (logical_to_rank_dispatch_physical_map m) ↔ static = true).
Proof.
  intros Hnl He Hmod Hn Hne HF. unfold init_by_mapping, _init_common.
  rewrite decide_False by lia. rewrite decide_True by done. cbn [mbind result_bind].
  destruct (compute_l2p_ok num_logical p2l Hnl Hne) as (l2p & -> & Hl).
  { eapply Forall_impl; [exact HF|]. by intros row (_ & ? & ?). }
  cbn [mbind result_bind]. assert (Forall (λ row, length row = n ∧ Forall (λ e, 0 ≤ e < Z.of_nat num_logical)%Z row) p2l) as HF2 by (eapply Forall_impl; [exact HF|]; by intros row (? & ? & _)).
  destruct p2l as [|row p2l]; [done|]. apply Forall_cons in HF2 as Hd. destruct Hd as [[<- _] _]. by apply init_raw_ok.
Qed.
End random.

(** ** Dispatch *)

Lemma imap_pair_Forall2 {A B} (R : nat * A → B → Prop) (xs : list A) ys :
  length ys = length xs → (∀ i x y, xs !! i = Some x → ys !! i = Some y → R (i, x) y) → Forall2 R (imap pair xs) ys.
Proof.
  intros L HR. apply Forall2_same_length_lookup_2; [by rewrite length_imap|]. intros i x y Hx Hy.
  rewrite list_lookup_imap in Hx. apply fmap_Some in Hx as (x' & Hx & ->). by eapply HR.
Qed.

Lemma dispatch_to_place num_logical n m randint algorithm layer_id p2l topk_ids :
  meta_ok num_logical n m → physical_to_logical_map m !! layer_id = Some p2l →
  Forall (λ e, 0 ≤ e < Z.of_nat num_logical)%Z topk_ids →
  algorithm = DispatchDynamic ∨ algorithm = DispatchFake ∨
    (algorithm = DispatchStatic ∧ is_Some (logical_to_rank_dispatch_physical_map m)) →
  ∃ info out, init_new (Some algorithm) m (Z.of_nat layer_id) = Ok info ∧ topk_ids_logical_to_physical randint topk_ids info = Ok out ∧
    Forall2 (λ p e, p ∈ places 0 p2l e) out topk_ids.
Proof.
  intros Hm Hl Hk Ha. destruct Hm as [_ La Lv Hlay Hst].
  assert (layer_id < length (physical_to_logical_map m)) as Hlt by (by eapply lookup_lt_Some).
  destruct (lookup_lt_is_Some_2 (logical_to_all_physical_map m) layer_id) as [all Eall]; [lia|].
  destruct (lookup_lt_is_Some_2 (logical_to_all_physical_map_num_valid m) layer_id) as [valid Ev]; [lia|].
  destruct (Hlay _ _ _ _ Hl Eall Ev) as (Hn & _ & [Lall Hrow ->]).
  assert (∃ d, (match logical_to_rank_dispatch_physical_map m with Some d => @Some _ <$> py_get d (Z.of_nat layer_id) | None => Ok None end) = Ok d ∧
    (is_Some (logical_to_rank_dispatch_physical_map m) → ∃ dr, d = Some dr ∧ length dr = num_logical ∧ ∀ e p, dr !! e = Some p → p ∈ places 0 p2l (Z.of_nat e)))
    as (d & Ed & Hd).
  { destruct (logical_to_rank_dispatch_physical_map m) as [d|]; [|exists None; split; [done|]; intros [? [=]]].
    destruct (Hst d eq_refl) as [Ld Hd]. destruct (lookup_lt_is_Some_2 d layer_id) as [dr Edr]; [lia|].
    exists (Some dr). rewrite (py_get_nat _ _ _ Edr). split; [done|]. intros _. exists dr. split; [done|]. by apply (Hd layer_id). }
  exists (Some (MkInfo algorithm d all ((λ row, Z.of_nat (length (filter (λ x, x ≠ (-1)%Z) row))) <$> all))). unfold init_new. rewrite Ed. cbn [mbind result_bind]. rewrite (py_get_nat _ _ _ Eall). cbn [mbind result_bind].
  rewrite (py_get_nat _ _ _ Ev). cbn [mbind result_bind].
  rewrite Forall_lookup in Hk.
  assert (algorithm = DispatchDynamic ∨ algorithm = DispatchFake → ∃ out,
    _topk_ids_logical_to_physical_dynamic randint topk_ids
     (MkInfo algorithm d all ((λ row, Z.of_nat (length (filter (λ x, x ≠ (-1)%Z) row))) <$> all)) = Ok out ∧
    Forall2 (λ p e, p ∈ places 0 p2l e) out topk_ids) as Hdyn.
  { intros _. unfold _topk_ids_logical_to_physical_dynamic. cbn.
    assert (∃ out, Forall2 (λ x y, (let '(k, id) := x in
      valid ← py_get ((λ row, Z.of_nat (length (filter (λ x, x ≠ (-1)%Z) row))) <$> all) id;
      row ← py_get all id; py_get row (randint k `mod` valid)%Z) = Ok y ∧ y ∈ places 0 p2l x.2) (imap pair topk_ids) out) as (out & HF).
    { apply Forall_exists_Forall2_l, Forall_lookup. intros i x Hx. rewrite list_lookup_imap in Hx. apply fmap_Some in Hx as (e & He & ->).
      pose proof (Hk i e He) as Hr. destruct (lookup_lt_is_Some_2 all (Z.to_nat e)) as [row Erow]; [lia|].
      destruct (Hrow _ _ Erow) as [(ps & k & -> & Hps & Hne) _]. rewrite Z2Nat.id in Hps by lia.
      assert (py_get all e = Ok (ps ++ replicate k (-1)%Z)) as Eg by (rewrite <- (Z2Nat.id e) by lia; by apply py_get_nat).
      assert (py_get ((λ row, Z.of_nat (length (filter (λ x, x ≠ (-1)%Z) row))) <$> all) e = Ok (Z.of_nat (length ps))) as Eg2.
      { rewrite <- (Z2Nat.id e) by lia. erewrite py_get_nat; [|by rewrite list_lookup_fmap, Erow]. by rewrite filter_row by by eapply row_ok_nonneg. }
      rewrite Eg2. cbn [mbind result_bind]. rewrite Eg. cbn [mbind result_bind].
      assert (0 < length ps) by (destruct ps; [done|cbn; lia]).
      pose proof (Z.mod_pos_bound (randint i) (Z.of_nat (length ps)) ltac:(lia)) as Hmod.
      destruct (lookup_lt_is_Some_2 ps (Z.to_nat (randint i `mod` Z.of_nat (length ps)))) as [p Ep]; [lia|].
      exists p. split.
      - rewrite <- (Z2Nat.id (_ `mod` _)) by lia. apply py_get_nat. by rewrite lookup_app_l by (by eapply lookup_lt_Some).
      - cbn. rewrite <- Hps. by eapply list_elem_of_lookup_2. }
    exists out. split.
    - apply rmap_Ok. eapply Forall2_impl; [exact HF|]. intros [k id] y [E _]. exact E.
    - apply Forall2_flip. apply Forall2_same_length_lookup_2.
      { rewrite <- (Forall2_length _ _ _ HF). by rewrite length_imap. }
      intros i e p He Hp. destruct (Forall2_lookup_r _ _ _ _ _ HF Hp) as (x & Hx & _ & Hin). rewrite list_lookup_imap, He in Hx.
      cbn in Hx. by injection Hx as <-. }
  destruct Ha as [->|[->|[-> Hs]]]; [destruct Hdyn as (out & E & H2); [auto|]; exists out; split_and!; [reflexivity|exact E|exact H2]..|].
  destruct (Hd Hs) as (dr & -> & Ldr & Hdr). cbn. unfold _topk_ids_logical_to_physical_static. cbn.
  assert (∃ out, Forall2 (λ e y, py_get dr e = Ok y ∧ y ∈ places 0 p2l e) topk_ids out) as (out & HF).
  { apply Forall_exists_Forall2_l, Forall_lookup. intros i e He. pose proof (Hk i e He) as Hr.
    destruct (lookup_lt_is_Some_2 dr (Z.to_nat e)) as [p Ep]; [lia|]. exists p. rewrite <- (Z2Nat.id e) by lia. split; [by apply py_get_nat|by apply Hdr]. }
  exists out. split_and!; [done|apply rmap_Ok; eapply Forall2_impl; [exact HF|naive_solver]|].
  apply Forall2_flip. eapply Forall2_impl; [exact HF|]. naive_solver.
Qed.
