(* ===== verification/ExpertRebalance.v ===== *)
(** * Rebalancing while serving

    [EPLBManager] of [src/python/sglang/srt/managers/eplb_manager.py], [init_by_eplb] with
    [eplb_algorithms/__init__.py], and the update of several layers in
    [expert_location_updater.py]. Between the forward passes the manager computes a new
    placement and moves the experts of some layers at a time. *)

From S2P Require Import Prelude PySort EPLB EPLBMaps ExpertUpdate ExpertComm ExpertPlan ExpertWorld ExpertLocation ExpertLocThms.

Open Scope nat_scope.

(** ** The choice of the algorithm *)

Inductive EplbAlgorithm := deepseek | deepseek_hierarchical | deepseek_vec | deepseek_vec_hierarchical.
#[export] Instance EplbAlgorithm_eq_dec : EqDecision EplbAlgorithm.
Proof. solve_decision. Defined.

(** [EplbAlgorithm[raw_algorithm]], and the choice for ["auto"]. *)
Definition algorithm_of_name (raw_algorithm : string) : result EplbAlgorithm :=
  if decide (raw_algorithm = "deepseek"%string) then Ok deepseek
  else if decide (raw_algorithm = "deepseek_hierarchical"%string) then Ok deepseek_hierarchical
  else if decide (raw_algorithm = "deepseek_vec"%string) then Ok deepseek_vec
  else if decide (raw_algorithm = "deepseek_vec_hierarchical"%string) then Ok deepseek_vec_hierarchical
  else Raise KeyError.

Definition compute_algorithm (raw_algorithm : string) (num_groups : option nat) (num_nodes : nat) : result EplbAlgorithm :=
  if decide (raw_algorithm ≠ "auto"%string) then algorithm_of_name raw_algorithm else
  match num_groups with
  | Some ng =>
      if decide (num_nodes = 0) then Raise ZeroDivisionError
      else if decide (ng `mod` num_nodes = 0) then Ok deepseek_hierarchical else Ok deepseek
  | None => Ok deepseek
  end.

Section eplb.
Context {F : Type} (fzero : F) (fadd : F → F → F) (fdiv : F → Z → F) (fltb : F → F → bool).
Context (argsort : list F → list Z) (argmax : list F → Z) (uninit : nat → Z).
(** [eplb_algorithms/deepseek_vec.py]. *)
Context (deepseek_vec_rebalance : list (list (list F)) → nat → nat → option nat → nat → bool →
  result (list (list Z) * list (list Z) * list (list Z))).
Context {Rng : Type} (sample : list Z → nat → Rng → list Z * Rng) (shuffle : list Z → Rng → list Z * Rng).

(** [tokens_per_expert.sum(dim=0)]: over the recorded steps, of which there is at least one (a
    list of none does not say how many layers and experts the tensor has). *)
Definition sum_steps (tokens_per_expert : list (list (list F))) : list (list F) :=
  match tokens_per_expert with
  | [] => []
  | t :: ts => foldl (zip_with (zip_with fadd)) t ts
  end.

Definition rebalance_experts (tokens_per_expert : list (list (list F))) (num_physical_experts num_local_physical_experts : nat)
    (num_groups : option nat) (num_nodes : nat) (algorithm : EplbAlgorithm) : result (list (list Z) * list (list Z) * list (list Z)) :=
  match algorithm with
  | deepseek | deepseek_hierarchical =>
      let enable_hierarchical := bool_decide (algorithm = deepseek_hierarchical) in
      if decide (num_local_physical_experts = 0) then Raise ZeroDivisionError else
      match num_groups, enable_hierarchical with
      | None, true => Raise TypeError
      | _, _ =>
          EPLB.rebalance_experts fzero fadd fdiv fltb argsort argmax uninit (sum_steps tokens_per_expert) num_physical_experts
            (default 1 num_groups) num_nodes (num_physical_experts / num_local_physical_experts) enable_hierarchical
      end
  | _ => deepseek_vec_rebalance tokens_per_expert num_physical_experts num_local_physical_experts num_groups num_nodes
           (bool_decide (algorithm = deepseek_vec_hierarchical))
  end.

(** [log2phy.view(num_layers, num_logical_experts, -1)] on one layer. *)
Definition view_layer (num_logical_experts : nat) (flat : list Z) : list (list Z) :=
  EPLB.rows_of num_logical_experts (length flat / num_logical_experts) flat.

Definition init_by_eplb (static_dispatch : bool) (raw_algorithm : string)
    (num_logical_experts ep_num_redundant_experts ep_size nnodes rank : nat) (num_groups : option nat) (seed : Rng)
    (logical_count : list (list (list F))) : result ExpertLocationMetadata :=
  num_physical_experts ← _init_common num_logical_experts ep_num_redundant_experts ep_size;
  algorithm ← compute_algorithm raw_algorithm num_groups nnodes;
  '(physical_to_logical_map, log2phy, expert_count) ←
    rebalance_experts logical_count num_physical_experts (num_physical_experts / ep_size) num_groups nnodes algorithm;
  _init_raw sample shuffle static_dispatch ep_size rank seed num_physical_experts physical_to_logical_map
    (view_layer num_logical_experts <$> log2phy).
End eplb.

(** ** The update of several layers on all ranks *)

Section updater.
Context {W : Type}.
Notation tensors := (list (list W)).

Context (batch_isend_irecv : list (list (WireOp (W := W))) → option (list (list W))).
(** [torch.empty_like] on the tensors of a layer. *)
Context (empty_like : tensors → tensors).

Definition create_temp_buffers (sample_tensors : tensors) : tensors := empty_like sample_tensors.

(** [d[k]] for a rank's [routed_experts_weights_of_layer]. *)
Definition layer_weights (layer_id : nat) (weights : gmap nat tensors) : result tensors :=
  match weights !! layer_id with Some t => Ok t | None => Raise KeyError end.

(** The loop over the layers; a rank is its weights and its buffers. *)
Fixpoint update_layers (update_layer_ids : list nat) (old_maps new_maps : list (list Z)) (num_local_physical_experts num_gpu_per_node : nat)
    (ranks : list (gmap nat tensors * tensors)) : option (result (list (gmap nat tensors * tensors))) :=
  match update_layer_ids with
  | [] => Some (Ok ranks)
  | layer_id :: update_layer_ids =>
      let one :=
        old_map ← nth_item old_maps layer_id;
        new_map ← nth_item new_maps layer_id;
        layers ← mapM (λ '(weights, temp), (λ t, (t, temp)) <$> layer_weights layer_id weights) ranks;
        Ok (old_map, new_map, layers) in
      match one with
      | Raise e => Some (Raise e)
      | Ok (old_map, new_map, layers) =>
          match update_expert_weights_single_layer batch_isend_irecv old_map new_map num_local_physical_experts num_gpu_per_node layers with
          | None => None
          | Some (Raise e) => Some (Raise e)
          | Some (Ok moved) =>
              update_layers update_layer_ids old_maps new_maps num_local_physical_experts num_gpu_per_node
                (zip_with (λ '(weights, _) '(t, temp), (<[layer_id := t]> weights, temp)) ranks moved)
          end
      end
  end.

(** [num_local_physical_experts]: [divmod] and its assertion. *)
Definition num_local (num_physical_experts ep_size : nat) : result nat :=
  '(ans, remainder) ← divmod num_physical_experts ep_size;
  if decide (remainder = 0) then Ok ans else Raise AssertionError.

(** [_update_expert_weights] on all ranks, whose physical maps are the same. *)
Definition _update_expert_weights (old new : ExpertLocationMetadata) (update_layer_ids : list nat) (nnodes : nat)
    (ranks : list (gmap nat tensors)) : option (result (list (gmap nat tensors))) :=
  let world_size := length ranks in
  let prepared : result (list (gmap nat tensors * tensors) * nat * nat) :=
    first ← nth_item update_layer_ids 0;
    with_temp ← mapM (λ weights, (λ t, (weights, create_temp_buffers t)) <$> layer_weights first weights) ranks;
    n ← num_local (dim1 (physical_to_logical_map old)) world_size;
    g ← fst <$> divmod world_size nnodes;
    Ok (with_temp, n, g) in
  match prepared with
  | Raise e => Some (Raise e)
  | Ok (with_temp, n, g) =>
      match update_layers update_layer_ids (physical_to_logical_map_cpu old) (physical_to_logical_map_cpu new) n g with_temp with
      | None => None
      | Some (Raise e) => Some (Raise e)
      | Some (Ok ranks) => Some (Ok (fst <$> ranks))
      end
  end.

(** [ExpertLocationUpdater.update] on all ranks: the weights, then the metadata. *)
Definition ExpertLocationUpdater_update (new : ExpertLocationMetadata) (update_layer_ids : list nat) (nnodes : nat)
    (world : ExpertLocationMetadata * list (gmap nat tensors)) : option (result (ExpertLocationMetadata * list (gmap nat tensors))) :=
  let '(old, ranks) := world in
  match _update_expert_weights old new update_layer_ids nnodes ranks with
  | None => None
  | Some (Raise e) => Some (Raise e)
  | Some (Ok ranks) => Some (m ← update old new update_layer_ids; Ok (m, ranks))
  end.

(** ** [class EPLBManager] *)

Fixpoint chunk_from {A} (fuel : nat) (items : list A) (chunk_size : nat) : list (list A) :=
  match fuel, items with
  | 0, _ | _, [] => []
  | S fuel, _ => take chunk_size items :: chunk_from fuel (drop chunk_size items) chunk_size
  end.

(** [range(0, len(items), chunk_size)] has a step of zero when [chunk_size] is. *)
Definition _chunk_list {A} (items : list A) (chunk_size : nat) : result (list (list A)) :=
  if decide (chunk_size = 0) then Raise (ValueError "range() arg 3 must not be zero")
  else Ok (chunk_from (length items) items chunk_size).

(** [x or 1000000]: absent or zero. *)
Definition chunk_size_of (rebalance_layers_per_chunk : option nat) : nat :=
  match rebalance_layers_per_chunk with Some (S n) => S n | _ => N.to_nat 1000000 end.

Definition _compute_update_layer_ids_chunks (layers : list nat) (rebalance_layers_per_chunk : option nat) : result (list (list nat)) :=
  _chunk_list (sort_by Nat.leb id layers) (chunk_size_of rebalance_layers_per_chunk).

(** The generator, stopped at a [yield]: in the loop over the iterations, of which [i] are
    done, or in [rebalance] before the given chunks. *)
Inductive Generator := Counting (i : nat) | Rebalancing (new : ExpertLocationMetadata) (chunks : list (list nat)).

Section manager.
(** At least one iteration: with none, and one chunk, the generator never yields again. *)
Context (rebalance_num_iterations : positive) (nnodes : nat) (rebalance_layers_per_chunk : option nat) (layers : list nat).

Notation World := (ExpertLocationMetadata * list (gmap nat tensors))%type.

(** [on_forward_pass_end]: [next] of the generator, where [dump] is the metadata that
    [init_by_eplb] makes of the recorded counts. When the last chunk is done the loop starts
    again and yields at once, since [rebalance_num_iterations] is positive. *)
Definition on_forward_pass_end (dump : result ExpertLocationMetadata) (gen : Generator) (world : World)
    : option (result (Generator * World)) :=
  let run_chunk new chunk rest :=
    match ExpertLocationUpdater_update new chunk nnodes world with
    | None => None
    | Some (Raise e) => Some (Raise e)
    | Some (Ok world) => Some (Ok (match rest with [] => Counting 1 | _ => Rebalancing new rest end, world))
    end in
  match gen with
  | Counting i =>
      if decide (i < Pos.to_nat rebalance_num_iterations) then Some (Ok (Counting (S i), world)) else
      match (new ← dump; chunks ← _compute_update_layer_ids_chunks layers rebalance_layers_per_chunk; Ok (new, chunks)) with
      | Raise e => Some (Raise e)
      | Ok (new, []) => Some (Ok (Counting 1, world))
      | Ok (new, [chunk]) => run_chunk new chunk []
      | Ok (new, chunks) => Some (Ok (Rebalancing new chunks, world))
      end
  | Rebalancing new [] => Some (Ok (Counting 1, world))
  | Rebalancing new (chunk :: rest) => run_chunk new chunk rest
  end.

(** [ModelRunner.forward] calls it after every pass; what each dump would give is in [dumps]. *)
Fixpoint passes (dumps : list (result ExpertLocationMetadata)) (gen : Generator) (world : World) : option (result (Generator * World)) :=
  match dumps with
  | [] => Some (Ok (gen, world))
  | dump :: dumps =>
      match on_forward_pass_end dump gen world with
      | None => None
      | Some (Raise e) => Some (Raise e)
      | Some (Ok (gen, world)) => passes dumps gen world
      end
  end.
End manager.
End updater.
