(* ===== verification/ExpertEplb.v ===== *)
(** * The metadata that the load balancer makes

    [init_by_eplb]: the maps that the algorithm of [EPLB] finds, laid out as
    [logical_to_all_physical_map], are those of its physical map. *)

From S2P Require Import Prelude PySort EPLB EPLBMaps ExpertUpdate ExpertComm ExpertPlan ExpertWorld ExpertLocation ExpertLocThms ExpertRebalance.

Open Scope nat_scope.

(** ** A row of the view *)

Section view.
Context (n M gs per_node : nat) (es cs : list nat) (m : list Z) (Hm : layer_maps n M gs per_node es cs m).
Context (Hes : length es = n).

(** The entry after the replicas of an expert is not in its row. *)
Lemma replicas_fit e c : cs !! e = Some c → c ≤ M.
Proof.
  intros Hc. destruct Hm as [(ks & [Rat Ronto Rinj Rsum Rpos] & Hent) _ HL _]. destruct (decide (c ≤ M)) as [|Hgt]; [done|]. exfalso.
  destruct (Hent e c M Hc) as (j & Ej & Kj & Hj); [lia|].
  assert (S e < length cs) as Hlt.
  { apply lookup_lt_Some in Hj. rewrite HL in Hj. assert (e < length cs) by (by eapply lookup_lt_Some). nia. }
  destruct (lookup_lt_is_Some_2 cs (S e) Hlt) as [c' Hc']. pose proof (Rpos _ _ Hc').
  destruct (Hent (S e) c' 0 Hc') as (j' & Ej' & _ & Hj'); [lia|].
  assert (S e * M + 0 = e * M + M) as Ei by lia. rewrite Ei, Hj in Hj'. injection Hj' as Hjj. assert (j = j') as <- by lia.
  rewrite Ej in Ej'. injection Ej'. lia.
Qed.

Lemma view_row_ok e c : cs !! e = Some c → row_ok (Z.of_nat <$> es) (Z.of_nat e) (take M (drop (e * M) m)).
Proof.
  intros Hc. pose proof (replicas_fit e c Hc) as Hle. destruct Hm as [(ks & [Rat Ronto Rinj Rsum Rpos] & Hent) Hrest HL _].
  pose proof (Rpos _ _ Hc) as Hc1. assert (e < length cs) as He by (by eapply lookup_lt_Some).
  assert (∀ k, k < M → take M (drop (e * M) m) !! k = m !! (e * M + k)) as Hrow.
  { intros k Hk. rewrite lookup_take_lt by done. by rewrite lookup_drop. }
  assert (length (take M (drop (e * M) m)) = M) as Hlen by (rewrite length_take, length_drop, HL; nia).
  set (row := take M (drop (e * M) m)) in *. exists (take c row), (M - c). split_and!.
  - rewrite <- (take_drop c row) at 1. f_equal. apply list_eq. intros k. rewrite lookup_drop.
    destruct (decide (k < M - c)) as [Hk|Hk].
    + rewrite Hrow by lia. rewrite (Hrest e c (c + k) Hc) by lia. by rewrite lookup_replicate_2 by lia.
    + rewrite !(proj2 (lookup_ge_None _ _)); [done|rewrite length_replicate; lia|lia].
  - assert (∀ k, k < c → ∃ j, es !! j = Some e ∧ ks !! j = Some k ∧ take c row !! k = Some (Z.of_nat j)) as Hat.
    { intros k Hk. destruct (Hent e c k Hc Hk) as (j & ? & ? & Hj). exists j. split_and!; [done..|].
      rewrite lookup_take_lt, Hrow by lia. done. }
    apply NoDup_Permutation; [|apply places_NoDup|].
    + apply NoDup_alt. intros k k' x Hx Hx'. pose proof (lookup_lt_Some _ _ _ Hx) as Hk. pose proof (lookup_lt_Some _ _ _ Hx') as Hk'.
      rewrite length_take in Hk, Hk'. destruct (Hat k) as (j & _ & Kj & Hj); [lia|]. destruct (Hat k') as (j' & _ & Kj' & Hj'); [lia|].
      rewrite Hx in Hj. rewrite Hx' in Hj'. assert (j = j') as <- by (simplify_eq; lia). congruence.
    + intros x. rewrite elem_of_places. split.
      * intros (k & Hk)%list_elem_of_lookup. pose proof (lookup_lt_Some _ _ _ Hk) as Hlt. rewrite length_take in Hlt.
        destruct (Hat k) as (j & Ej & _ & Hj); [lia|]. exists j. rewrite Hk in Hj. injection Hj as ->. split; [done|].
        by rewrite list_lookup_fmap, Ej.
      * intros (j & -> & Hj). rewrite list_lookup_fmap in Hj. apply fmap_Some in Hj as (e' & Ej & Ee). assert (e' = e) as -> by lia.
        pose proof (lookup_lt_Some _ _ _ Ej) as Hjn. destruct (Rat j) as (e2 & k & c2 & Ej2 & Kj & Hc2 & Hk); [lia|].
        rewrite Ej in Ej2. injection Ej2 as <-. rewrite Hc in Hc2. injection Hc2 as <-.
        destruct (Hat k Hk) as (j' & Ej' & Kj' & Hj'). assert (j' = j) as ->.
        { apply Rinj; [|lia|congruence..]. apply lookup_lt_Some in Ej'. lia. }
        by eapply list_elem_of_lookup_2.
  - intros E. assert (length (take c row) = c) as Hl by (rewrite length_take; lia). rewrite E in Hl. cbn in Hl. lia.
Qed.

Lemma view_layer_ok : 0 < length cs →
  length (view_layer (length cs) m) = length cs ∧
  ∀ e row, view_layer (length cs) m !! e = Some row → row_ok (Z.of_nat <$> es) (Z.of_nat e) row.
Proof.
  intros Hpos. unfold view_layer, EPLB.rows_of. rewrite (lm_length _ _ _ _ _ _ _ Hm). split; [by rewrite length_fmap, length_seq|].
  intros e row Hrow. rewrite list_lookup_fmap in Hrow. apply fmap_Some in Hrow as (e' & Hs & ->). apply lookup_seq in Hs as [-> He].
  destruct (lookup_lt_is_Some_2 cs e He) as [c Hc]. rewrite (Nat.mul_comm (length cs)), Nat.div_mul by lia. by eapply view_row_ok.
Qed.
End view.

(** ** [init_by_eplb] *)

Section init.
Context {F : Type} (fzero : F) (fadd : F → F → F) (fdiv : F → Z → F) (fltb : F → F → bool).
Context (argsort : list F → list Z) (argmax : list F → Z) (uninit : nat → Z).
Context (deepseek_vec_rebalance : list (list (list F)) → nat → nat → option nat → nat → bool →
  result (list (list Z) * list (list Z) * list (list Z))).
Context {Rng : Type} (sample : list Z → nat → Rng → list Z * Rng) (shuffle : list Z → Rng → list Z * Rng).
Context (argsort_perm : ∀ l, argsort l ≡ₚ aranges (length l)).
Context (argmax_ok : ∀ l, l ≠ [] → ∃ i x, argmax l = Z.of_nat i ∧ l !! i = Some x ∧ ∀ y, y ∈ l → fle fltb y x).
Context (fle_trans : ∀ x y z, fle fltb x y → fle fltb y z → fle fltb x z).
Context (sample_law : ∀ arr k r, k ≤ length arr → length (sample arr k r).1 = k ∧ ∃ rest, arr ≡ₚ (sample arr k r).1 ++ rest).
Context (shuffle_law : ∀ arr r, (shuffle arr r).1 ≡ₚ arr).

(** A machine of [nn] nodes with [gpg] ranks of [ppg] places each, and [nn * gpn] groups of
    [gs] experts; the global algorithm takes it as one node and one group. *)
Definition fits (algorithm : EplbAlgorithm) (num_groups : option nat) (nnodes nn gpn : nat) : Prop :=
  match algorithm with
  | deepseek => nn = 1 ∧ gpn = 1
  | deepseek_hierarchical => num_groups = Some (nn * gpn) ∧ nnodes = nn
  | _ => False
  end.

Lemma init_by_eplb_ok static raw_algorithm num_groups nnodes algorithm nn gpn gs gpg ppg redundant rank seed logical_count :
  compute_algorithm raw_algorithm num_groups nnodes = Ok algorithm → fits algorithm num_groups nnodes nn gpn →
  0 < nn → 0 < gpn → 0 < gs → 0 < gpg → nn * gpn * gs + redundant = nn * gpg * ppg →
  sum_steps fadd logical_count ≠ [] →
  Forall (λ w, length w = nn * gpn * gs ∧ Forall (shrinks fdiv fltb) w) (sum_steps fadd logical_count) →
  ∃ m, init_by_eplb fzero fadd fdiv fltb argsort argmax uninit deepseek_vec_rebalance sample shuffle static raw_algorithm
      (nn * gpn * gs) redundant (nn * gpg) nnodes rank num_groups seed logical_count = Ok m ∧
    length (physical_to_logical_map m) = length (sum_steps fadd logical_count) ∧
    meta_ok (nn * gpn * gs) (nn * gpg * ppg) m ∧ (is_Some (logical_to_rank_dispatch_physical_map m) ↔ static = true).
Proof.
  intros Ha Hfits Hnn Hgpn Hgs Hgpg Hred Hne Hw. assert (0 < ppg) as Hppg by nia.
  assert (0 < nn * gpg) as Hgpus by nia. assert (0 < nn * gpn * gs) as Hnl by nia.
  assert (nn * gpg * ppg / (nn * gpg) = ppg) as Hdiv by (by rewrite (Nat.mul_comm (nn * gpg)), Nat.div_mul by lia).
  assert ((nn * gpg * ppg) `mod` (nn * gpg) = 0) as Hmod by (rewrite (Nat.mul_comm (nn * gpg)); apply Nat.Div0.mod_mul).
  assert (nn * gpg * ppg / ppg = nn * gpg) as Hdiv2 by (by rewrite Nat.div_mul by lia).
  destruct (EPLBMaps.rebalance_experts_ok fzero fadd fdiv fltb argsort argmax uninit argsort_perm argmax_ok fle_trans
    (sum_steps fadd logical_count) nn gpn gs gpg ppg (default 1 num_groups) nnodes (bool_decide (algorithm = deepseek_hierarchical)))
    as (p2l & cnt & l2p & M & E & L1 & L2 & L3 & Hmaps); [|done..|nia|done|done|].
  { by destruct algorithm; cbn in *; try done; destruct Hfits as [-> ->]. }
  unfold init_by_eplb, _init_common. rewrite Hred, decide_False, decide_True by lia. cbn [mbind result_bind].
  rewrite Ha. cbn [mbind result_bind]. rewrite Hdiv.
  assert (rebalance_experts fzero fadd fdiv fltb argsort argmax uninit deepseek_vec_rebalance logical_count (nn * gpg * ppg) ppg
    num_groups nnodes algorithm = Ok (tensor <$> p2l, l2p, tensor <$> cnt)) as ->.
  { rewrite <- E. unfold rebalance_experts. rewrite decide_False, Hdiv2 by lia.
    destruct algorithm; cbn in Hfits; try done; destruct num_groups; try done. by destruct Hfits. }
  cbn [mbind result_bind].
  destruct (init_raw_ok sample shuffle sample_law shuffle_law static (nn * gpg) rank seed (nn * gpg * ppg) (nn * gpn * gs)
    (tensor <$> p2l) (view_layer (nn * gpn * gs) <$> l2p)) as (m & Em & Hp & Hm & Hs); [lia|lia|lia| | |].
  - unfold l2p_ok. apply Forall2_fmap_2, Forall2_same_length_lookup_2; [lia|]. intros l es m Hes Hm.
    destruct (lookup_lt_is_Some_2 cnt l) as [cs Hcs]; [apply lookup_lt_Some in Hes; lia|].
    destruct (Hmaps _ _ _ _ Hes Hcs Hm) as (Le & Lc & Hlm).
    rewrite <- Lc. eapply view_layer_ok; [exact Hlm|done|lia].
  - apply Forall_fmap, Forall_lookup. intros l es Hes. destruct (lookup_lt_is_Some_2 cnt l) as [cs Hcs]; [apply lookup_lt_Some in Hes; lia|].
    destruct (lookup_lt_is_Some_2 l2p l) as [m Hm]; [apply lookup_lt_Some in Hes; lia|].
    destruct (Hmaps _ _ _ _ Hes Hcs Hm) as (Le & Lc & [(ks & [Rat _ _ _ _] & _) _ _ _]). cbn. unfold tensor.
    split; [by rewrite length_fmap|]. apply Forall_fmap, Forall_lookup. intros j e He. cbn.
    destruct (Rat j) as (e' & k & c & Ee & _ & Hc & _); [apply lookup_lt_Some in He; lia|]. rewrite He in Ee. injection Ee as <-.
    apply lookup_lt_Some in Hc. lia.
  - exists m. split_and!; [exact Em| |done|done]. rewrite Hp, length_fmap. done.
Qed.
End init.
