(* ===== verification/ExpertManager.v ===== *)
(** * The weights always match the maps

    The manager of [ExpertRebalance] moves the experts of some layers at a time; after every
    forward pass every rank holds, for every layer, the experts of the map in use. *)

From S2P Require Import Prelude PySort EPLB EPLBMaps ExpertUpdate ExpertComm ExpertPlan ExpertWorld ExpertLocation ExpertLocThms ExpertRebalance.

Open Scope nat_scope.

(** ** Layers of the metadata *)

Lemma where_layers_lookup {A} ids (other self : list A) i : length other = length self →
  where_layers ids other self !! i = if decide (i ∈ ids) then other !! i else self !! i.
Proof.
  intros L. unfold where_layers. rewrite list_lookup_imap. destruct (self !! i) as [x|] eqn:E; cbn.
  - destruct (lookup_lt_is_Some_2 other i) as [y Ey]; [rewrite L; by eapply lookup_lt_Some|]. rewrite Ey. by repeat case_decide.
  - apply lookup_ge_None in E. assert (other !! i = None) as -> by (apply lookup_ge_None; lia). by case_decide.
Qed.

Lemma where_layers_length {A} ids (other self : list A) : length (where_layers ids other self) = length self.
Proof. unfold where_layers. by rewrite length_imap. Qed.

(** Both objects dispatch alike and have the same layers. *)
Definition same_kind (m m' : ExpertLocationMetadata) : Prop :=
  length (physical_to_logical_map m) = length (physical_to_logical_map m') ∧
  (is_Some (logical_to_rank_dispatch_physical_map m) ↔ is_Some (logical_to_rank_dispatch_physical_map m')).

Lemma update_ok nl n old new ids : meta_ok nl n old → meta_ok nl n new → same_kind old new →
  ∃ m, update old new ids = Ok m ∧ meta_ok nl n m ∧ same_kind m new ∧
    ∀ i, physical_to_logical_map m !! i = if decide (i ∈ ids) then physical_to_logical_map new !! i else physical_to_logical_map old !! i.
Proof.
  intros [O1 O2 O3 O4 O5] [N1 N2 N3 N4 N5] [SL SS].
  set (w := λ A (f : ExpertLocationMetadata → list A), where_layers ids (f new) (f old)).
  assert (∃ d, update old new ids = Ok (MkLoc (w _ physical_to_logical_map) (w _ physical_to_logical_map_cpu)
      (w _ logical_to_all_physical_map) (w _ logical_to_all_physical_map_num_valid) d) ∧
    (is_Some d ↔ is_Some (logical_to_rank_dispatch_physical_map new)) ∧
    ∀ x, d = Some x → ∃ dn d0, logical_to_rank_dispatch_physical_map new = Some dn ∧ logical_to_rank_dispatch_physical_map old = Some d0 ∧
      x = where_layers ids dn d0) as (d & E & Sd & Hd).
  { unfold update. destruct (logical_to_rank_dispatch_physical_map old) as [d0|], (logical_to_rank_dispatch_physical_map new) as [dn|].
    - eexists. split_and!; [reflexivity|done|]. intros x [= <-]. by exists dn, d0.
    - exfalso. destruct SS as [SS _]. by destruct (SS ltac:(done)).
    - exfalso. destruct SS as [_ SS]. by destruct (SS ltac:(done)).
    - exists None. split_and!; [done|done|]. intros x [=]. }
  rewrite E. eexists. split; [done|].
  assert (∀ i, w _ physical_to_logical_map !! i = if decide (i ∈ ids) then physical_to_logical_map new !! i else physical_to_logical_map old !! i) as Hp.
  { intros i. by apply where_layers_lookup. }
  split_and!; [|split; [unfold w; cbn; rewrite where_layers_length; lia|done]|done].
  split; cbn.
  - unfold w. by rewrite O1, N1.
  - unfold w. by rewrite !where_layers_length.
  - unfold w. by rewrite !where_layers_length.
  - intros i p2l all valid. rewrite Hp. unfold w. rewrite !where_layers_lookup by lia. destruct (decide _); [apply N4|apply O4].
  - intros x Hx. destruct (Hd x Hx) as (dn & d0 & En & Eo & ->). destruct (O5 d0 Eo) as [LO HO], (N5 dn En) as [LN HN].
    unfold w. split; [rewrite !where_layers_length; lia|]. intros i p2l row. rewrite !where_layers_lookup by lia.
    destruct (decide _); [apply HN|apply HO].
Qed.

(** The maps of one layer of two good objects. *)
Lemma meta_maps nl n_local world g old new i p2l p2l' : 0 < n_local → 0 < g →
  meta_ok nl (world * n_local) old → meta_ok nl (world * n_local) new →
  physical_to_logical_map old !! i = Some p2l → physical_to_logical_map new !! i = Some p2l' →
  maps_ok p2l p2l' n_local g world.
Proof.
  intros Hn Hg [_ O2 O3 O4 _] [_ N2 N3 N4 _] Ho Hn'.
  pose proof (lookup_lt_Some _ _ _ Ho). pose proof (lookup_lt_Some _ _ _ Hn').
  destruct (lookup_lt_is_Some_2 (logical_to_all_physical_map old) i) as [all Ea]; [lia|].
  destruct (lookup_lt_is_Some_2 (logical_to_all_physical_map_num_valid old) i) as [valid Ev]; [lia|].
  destruct (lookup_lt_is_Some_2 (logical_to_all_physical_map new) i) as [all' Ea']; [lia|].
  destruct (lookup_lt_is_Some_2 (logical_to_all_physical_map_num_valid new) i) as [valid' Ev']; [lia|].
  destruct (O4 _ _ _ _ Ho Ea Ev) as (Lo & _ & [LA HA _]), (N4 _ _ _ _ Hn' Ea' Ev') as (Ln & Hr & _).
  split; [done..|]. intros x l Hx. rewrite Forall_lookup in Hr. pose proof (Hr x l Hx) as Hl.
  destruct (lookup_lt_is_Some_2 all (Z.to_nat l)) as [row Erow]; [lia|].
  destruct (HA _ _ Erow) as [(ps & k & _ & Hps & Hne) _]. rewrite Z2Nat.id in Hps by lia.
  destruct ps as [|p ps]; [done|]. assert (p ∈ places 0 p2l l) as (j & _ & Hj)%elem_of_places by (rewrite <- Hps; left).
  by eapply list_elem_of_lookup_2.
Qed.

(** ** Chunks of the layers *)

Lemma chunk_from_ok {A} fuel (items : list A) c : 0 < c → length items ≤ fuel →
  concat (chunk_from fuel items c) = items ∧ Forall (λ x, x ≠ [] ∧ length x ≤ c) (chunk_from fuel items c).
Proof.
  intros Hc. revert items. induction fuel as [|fuel IH]; intros items L; [destruct items; [done|cbn in L; lia]|].
  destruct items as [|x items]; [done|]. cbn [chunk_from concat].
  destruct (IH (drop c (x :: items))) as [-> HF]; [cbn in L; rewrite length_drop, length_cons; lia|]. split; [apply take_drop|].
  constructor; [|done]. split; [destruct c; [lia|done]|]. rewrite length_take. lia.
Qed.

Lemma layer_chunks_ok layers per_chunk : ∃ chunks, _compute_update_layer_ids_chunks layers per_chunk = Ok chunks ∧
  concat chunks ≡ₚ layers ∧ Forall (λ x, x ≠ [] ∧ length x ≤ chunk_size_of per_chunk) chunks.
Proof.
  assert (0 < chunk_size_of per_chunk) as Hc.
  { unfold chunk_size_of. destruct per_chunk as [[|k]|]; lia. }
  unfold _compute_update_layer_ids_chunks, _chunk_list. rewrite decide_False by lia. eexists. split; [done|].
  destruct (chunk_from_ok (length (sort_by Nat.leb id layers)) (sort_by Nat.leb id layers) _ Hc ltac:(done)) as [-> HF].
  split; [apply sort_by_perm|done].
Qed.

Section updater.
Context {W : Type} (nt nl n world nnodes : nat) (weight : nat → nat → Z → W).
Notation tensors := (list (list W)).
Context (batch_isend_irecv : list (list (WireOp (W := W))) → option (list (list W))) (Hlaw : exchange_law batch_isend_irecv).
Context (empty_like : tensors → tensors) (Hempty : ∀ t, shape nt n t → shape nt n (empty_like t)).
Context (Hn : 0 < n) (Hnodes : 0 < nnodes) (Hworld : nnodes ≤ world).

(** Every rank holds the experts that [m] places on it in layer [l]. *)
Definition layer_placed (l : nat) (m : list Z) (ranks : list (gmap nat tensors)) : Prop :=
  ∀ s w, ranks !! s = Some w → ∃ t, w !! l = Some t ∧ shape nt n t ∧ ExpertWorld.rows_of nt n (weight l) m s t.

Lemma update_layers_ok g ids old_maps new_maps ranks : 0 < g →
  NoDup ids → length ranks = world → Forall (λ r, shape nt n r.2) ranks →
  (∀ l, l ∈ ids → ∃ p2l p2l', old_maps !! l = Some p2l ∧ new_maps !! l = Some p2l' ∧ maps_ok p2l p2l' n g world ∧
     layer_placed l p2l ranks.*1) →
  ∃ ranks', update_layers batch_isend_irecv ids old_maps new_maps n g ranks = Some (Ok ranks') ∧ length ranks' = world ∧
    (∀ l p2l', l ∈ ids → new_maps !! l = Some p2l' → layer_placed l p2l' ranks'.*1) ∧
    (∀ l m, l ∉ ids → layer_placed l m ranks.*1 → layer_placed l m ranks'.*1).
Proof.
  intros Hg ND. revert ranks. induction ids as [|l ids IH]; intros ranks HL HT Hids.
  { exists ranks. split_and!; [done..| |done]. intros ? ? ?%not_elem_of_nil. done. }
  apply NoDup_cons in ND as [Hno ND]. destruct (Hids l) as (p2l & p2l' & Eo & En & Hm & Hp); [left|].
  assert (∃ layers, Forall2 (λ r y, (λ t, (t, r.2)) <$> layer_weights l r.1 = Ok y ∧ y.2 = r.2 ∧ r.1 !! l = Some y.1) ranks layers) as (layers & HF).
  { apply Forall_exists_Forall2_l, Forall_lookup. intros s r Hr. destruct (Hp s r.1) as (t & Et & _); [by rewrite list_lookup_fmap, Hr|].
    exists (t, r.2). unfold layer_weights. by rewrite Et. }
  pose proof (Forall2_length _ _ _ HF) as HLl.
  assert (placed nt n (weight l) p2l world layers) as Hpl.
  { split; [lia|]. intros s w t Hs. destruct (Forall2_lookup_r _ _ _ _ _ HF Hs) as (r & Hr & _ & E2 & E1). cbn in E1, E2.
    destruct (Hp s r.1) as (t' & Et & S1 & R1); [by rewrite list_lookup_fmap, Hr|]. rewrite Forall_lookup in HT. pose proof (HT s r Hr) as S2.
    rewrite Et in E1. injection E1 as ->. subst t. done. }
  destruct (ExpertWorld.layer_ok nt p2l p2l' n g world (weight l) Hm batch_isend_irecv Hlaw layers Hpl) as (moved & Emv & [LM HM]).
  set (ranks1 := zip_with (λ '(weights, _) '(t, temp), (<[l := t]> weights, temp)) ranks moved).
  assert (∀ s r, ranks1 !! s = Some r ↔ ∃ w tm t tm', ranks !! s = Some (w, tm) ∧ moved !! s = Some (t, tm') ∧ r = (<[l := t]> w, tm')) as Hr1.
  { intros s r. unfold ranks1. rewrite lookup_zip_with. split.
    - intros ([w tm] & Hw & ([t tm'] & Ht & [= <-])%bind_Some)%bind_Some. by exists w, tm, t, tm'.
    - intros (w & tm & t & tm' & -> & -> & ->). done. }
  destruct (IH ND ranks1) as (ranks' & E & L' & Hnew & Hold).
  { unfold ranks1. rewrite length_zip_with. lia. }
  { apply Forall_lookup. intros s r (w & tm & t & tm' & _ & Ht & ->)%Hr1. cbn. by apply (HM s t tm'). }
  { intros k Hk. destruct (Hids k) as (q & q' & ? & ? & ? & Hq); [by right|]. exists q, q'. split_and!; [done..|].
    intros s w' Hw'. rewrite list_lookup_fmap in Hw'. apply fmap_Some in Hw' as (r & (w & tm & t & tm' & Hw & _ & ->)%Hr1 & ->). cbn.
    rewrite lookup_insert_ne by (intros ->; done). apply (Hq s w). by rewrite list_lookup_fmap, Hw. }
  exists ranks'. split_and!; [|done| |].
  - cbn [update_layers]. unfold nth_item. rewrite Eo, En. cbn [mbind result_bind].
    assert (mapM (λ '(weights, temp), (λ t, (t, temp)) <$> layer_weights l weights) ranks = Ok layers) as ->.
    { apply mapM_Ok. eapply Forall2_impl; [exact HF|]. intros [w tm] y (Ey & _). exact Ey. }
    cbn [mbind result_bind]. rewrite Emv. exact E.
  - intros k q' [->|Hk]%elem_of_cons Eq; [|by apply Hnew].
    rewrite En in Eq. injection Eq as <-. apply Hold; [done|]. intros s w' Hw'. rewrite list_lookup_fmap in Hw'.
    apply fmap_Some in Hw' as (r & (w & tm & t & tm' & _ & Ht & ->)%Hr1 & ->). exists t. cbn. rewrite lookup_insert_eq. split; [done|].
    destruct (HM s t tm' Ht) as (? & _ & ?). done.
  - intros k m [Hne Hk]%not_elem_of_cons Hq. apply Hold; [done|]. intros s w' Hw'. rewrite list_lookup_fmap in Hw'.
    apply fmap_Some in Hw' as (r & (w & tm & t & tm' & Hw & _ & ->)%Hr1 & ->). cbn. rewrite lookup_insert_ne by done.
    apply (Hq s w). by rewrite list_lookup_fmap, Hw.
Qed.

(** The metadata are correct, and every rank holds what they say. *)
Context (layers : list nat).

Record consistent (w : ExpertLocationMetadata * list (gmap nat tensors)) : Prop := {
  co_meta : meta_ok nl (world * n) w.1;
  co_ranks : length w.2 = world;
  co_layer : ∀ l, l ∈ layers → ∃ p2l, physical_to_logical_map w.1 !! l = Some p2l ∧ layer_placed l p2l w.2
}.

Lemma dim1_ok N (m : ExpertLocationMetadata) l p2l : meta_ok nl N m → physical_to_logical_map m !! l = Some p2l →
  dim1 (physical_to_logical_map m) = N.
Proof.
  intros [_ Ha Hv Hl _] Hp. destruct (physical_to_logical_map m) as [|p ps] eqn:E; [done|].
  destruct (logical_to_all_physical_map m) as [|a als] eqn:Ea; [done|].
  destruct (logical_to_all_physical_map_num_valid m) as [|v vs] eqn:Ev; [done|].
  destruct (Hl 0 p a v) as [<- _]; done.
Qed.

Lemma updater_ok new ids old ranks : consistent (old, ranks) → meta_ok nl (world * n) new → same_kind old new →
  NoDup ids → ids ≠ [] → (∀ l, l ∈ ids → l ∈ layers) →
  ∃ m ranks', ExpertLocationUpdater_update batch_isend_irecv empty_like new ids nnodes (old, ranks) = Some (Ok (m, ranks')) ∧
    consistent (m, ranks') ∧ same_kind m new ∧
    ∀ i, physical_to_logical_map m !! i =
      if decide (i ∈ ids) then physical_to_logical_map new !! i else physical_to_logical_map old !! i.
Proof.
  intros [HM HR HL] HN HS ND Hne Hids. cbn in HM, HR, HL. set (g := world / nnodes).
  assert (0 < g) as Hg by (by apply Nat.div_str_pos).
  destruct ids as [|l0 ids0] eqn:Eids; [done|]. rewrite <- Eids in *. assert (l0 ∈ ids) as Hl0 by (rewrite Eids; left).
  assert (Forall2 (λ weights y, (λ t, (weights, create_temp_buffers empty_like t)) <$> layer_weights l0 weights = Ok y ∧ y.1 = weights ∧ shape nt n y.2)
     ranks ((λ w, (w, empty_like (default [] (w !! l0)))) <$> ranks)) as HF.
  { apply Forall2_fmap_r, Forall_Forall2_diag, Forall_lookup. intros s w Hw. destruct (HL l0 (Hids _ Hl0)) as (p2l & _ & Hp).
    destruct (Hp s w Hw) as (t & Et & S & _). unfold layer_weights. cbn. rewrite !Et. cbn.
    split_and!; [done..|]. by apply Hempty. }
  set (with_temp := (λ w : gmap nat tensors, (w, empty_like (default [] (w !! l0)))) <$> ranks) in *.
  assert (with_temp.*1 = ranks) as E1 by (unfold with_temp; rewrite <- list_fmap_compose; by apply list_fmap_id).
  destruct (update_layers_ok g ids (physical_to_logical_map old) (physical_to_logical_map new) with_temp Hg ND) as (ranks' & E & L' & Hnew & Hold).
  { unfold with_temp. by rewrite length_fmap. }
  { apply Forall_lookup. intros s y Hy. destruct (Forall2_lookup_r _ _ _ _ _ HF Hy) as (w & _ & _ & _ & S). exact S. }
  { intros l Hl. destruct (HL l (Hids _ Hl)) as (p2l & Ep & Hp). destruct HS as [HS _].
    destruct (lookup_lt_is_Some_2 (physical_to_logical_map new) l) as [p2l' Ep']; [rewrite <- HS; by eapply lookup_lt_Some|].
    exists p2l, p2l'. split_and!; [done..| |by rewrite E1]. exact (meta_maps nl n world g old new l p2l p2l' Hn Hg HM HN Ep Ep'). }
  destruct (update_ok nl (world * n) old new ids HM HN HS) as (m & Em & Hm & Hkind & Hp2l).
  exists m, (fst <$> ranks'). split_and!; [| |done..].
  - unfold ExpertLocationUpdater_update, _update_expert_weights. rewrite (nth_item_ok ids 0 l0) by (by rewrite Eids). cbn [mbind result_bind].
    rewrite (mapM_Ok _ ranks with_temp) by (eapply Forall2_impl; [exact HF|]; by intros ? ? []).
    destruct (HL l0 (Hids _ Hl0)) as (p2l & Ep & _). rewrite (dim1_ok _ _ _ _ HM Ep), HR.
    assert (num_local (world * n) world = Ok n) as ->.
    { unfold num_local, divmod. rewrite decide_False by lia. cbn [mbind result_bind].
      rewrite Nat.mul_comm, Nat.div_mul, Nat.Div0.mod_mul by lia. done. }
    assert (fst <$> divmod world nnodes = Ok g) as -> by (unfold divmod; by rewrite decide_False by lia).
    cbn [mbind result_bind]. destruct HM as [-> _ _ _ _], HN as [-> _ _ _ _]. rewrite E. cbn [mbind result_bind]. by rewrite Em.
  - split; cbn; [done|by rewrite length_fmap|]. intros l Hl. rewrite Hp2l. destruct (HL l Hl) as (p2l & Ep & Hp). case_decide as Hin.
    + destruct HS as [HS _]. destruct (lookup_lt_is_Some_2 (physical_to_logical_map new) l) as [p2l' Ep']; [rewrite <- HS; by eapply lookup_lt_Some|].
      exists p2l'. split; [done|]. by apply Hnew.
    + exists p2l. split; [done|]. apply Hold; [done|]. by rewrite E1.
Qed.

(** ** The manager *)

Context (rebalance_num_iterations : positive) (rebalance_layers_per_chunk : option nat) (Hlayers : NoDup layers).
Notation World := (ExpertLocationMetadata * list (gmap nat tensors))%type.

Definition manager_ok (gen : Generator) (w : World) : Prop :=
  consistent w ∧
  match gen with
  | Counting _ => True
  | Rebalancing new chunks => meta_ok nl (world * n) new ∧ same_kind w.1 new ∧ NoDup (concat chunks) ∧ Forall (λ x, x ≠ []) chunks ∧
      (∀ l, l ∈ concat chunks → l ∈ layers) ∧
      ∀ l, l ∈ layers → l ∉ concat chunks → physical_to_logical_map w.1 !! l = physical_to_logical_map new !! l
  end.

(** A recorded placement for the same ranks and experts. *)
Definition good_dump (m0 : ExpertLocationMetadata) (dump : result ExpertLocationMetadata) : Prop :=
  ∃ new, dump = Ok new ∧ meta_ok nl (world * n) new ∧ same_kind m0 new.

Lemma same_kind_trans m1 m2 m3 : same_kind m1 m2 → same_kind m2 m3 → same_kind m1 m3.
Proof. unfold same_kind. intros [-> ->] [-> ->]. done. Qed.
Lemma same_kind_sym m1 m2 : same_kind m1 m2 → same_kind m2 m1.
Proof. unfold same_kind. intros [-> ->]. done. Qed.

Notation step := (on_forward_pass_end batch_isend_irecv empty_like rebalance_num_iterations nnodes rebalance_layers_per_chunk layers).

(** A step with chunks left: the first of them. *)
Lemma chunk_step dump new chunk rest w : manager_ok (Rebalancing new (chunk :: rest)) w →
  ∃ w', step dump (Rebalancing new (chunk :: rest)) w = Some (Ok (match rest with [] => Counting 1 | _ => Rebalancing new rest end, w')) ∧
    manager_ok (Rebalancing new rest) w' ∧ same_kind w.1 w'.1.
Proof.
  destruct w as [old ranks]. intros (HC & HN & HS & ND & HF & Hsub & Hdone). cbn [concat] in *. apply NoDup_app in ND as (ND1 & Hdis & ND2).
  apply Forall_cons in HF as [Hne HF].
  destruct (updater_ok new chunk old ranks HC HN HS ND1 Hne) as (m & ranks' & E & HC' & HS' & Hp).
  { intros l Hl. apply Hsub, elem_of_app. by left. }
  exists (m, ranks'). cbn [on_forward_pass_end]. rewrite E. split; [done|]. split; [|by eapply same_kind_trans, same_kind_sym].
  repeat (split; [done|]). split; [intros l Hl; apply Hsub, elem_of_app; by right|].
  intros l Hl Hno. cbn. rewrite Hp. case_decide as Hin; [done|]. apply Hdone; [done|]. rewrite elem_of_app. tauto.
Qed.

Lemma pass_ok dump gen w : manager_ok gen w → good_dump w.1 dump →
  ∃ gen' w', step dump gen w = Some (Ok (gen', w')) ∧ manager_ok gen' w' ∧ same_kind w.1 w'.1.
Proof.
  intros Hm (new & -> & HN & HS). assert (same_kind w.1 w.1) as Hrefl by (split; done). destruct gen as [i|new' chunks].
  - cbn [on_forward_pass_end]. case_decide; [by exists (Counting (S i)), w|].
    destruct (layer_chunks_ok layers rebalance_layers_per_chunk) as (chunks & -> & Hperm & HF). cbn [mbind result_bind].
    assert (manager_ok (Rebalancing new chunks) w) as Hr.
    { split; [apply Hm|]. split_and!; [done|done|by rewrite Hperm|by eapply Forall_impl; [exact HF|intros ? []]|by intros l; rewrite Hperm|].
      intros l Hl. by rewrite Hperm. }
    destruct chunks as [|chunk [|chunk2 chunks]]; [by exists (Counting 1), w; split_and!; [|split; [apply Hm|]|]| |by eexists _, w].
    destruct (chunk_step (Ok new) new chunk [] w Hr) as (w' & E & [Hc _] & Hk). exists (Counting 1), w'. split_and!; [exact E|by split|done].
  - destruct chunks as [|chunk rest]; [exists (Counting 1), w; split_and!; [done|by split; [apply Hm|]|done]|].
    destruct (chunk_step (Ok new) new' chunk rest w Hm) as (w' & E & Hm' & Hk). eexists _, w'. split_and!; [exact E| |done].
    destruct rest; [split; [apply Hm'|done]|done].
Qed.

Notation passes := (passes batch_isend_irecv empty_like rebalance_num_iterations nnodes rebalance_layers_per_chunk layers).

Lemma passes_ok m0 dumps gen w : manager_ok gen w → same_kind m0 w.1 → Forall (good_dump m0) dumps →
  ∃ gen' w', passes dumps gen w = Some (Ok (gen', w')) ∧ manager_ok gen' w' ∧ same_kind m0 w'.1.
Proof.
  intros Hm Hk HF. revert gen w Hm Hk. induction HF as [|dump dumps (new & -> & HN & HS) _ IH]; intros gen w Hm Hk; [by exists gen, w|].
  destruct (pass_ok (Ok new) gen w Hm) as (gen1 & w1 & E & Hm1 & Hk1).
  { exists new. split_and!; [done..|]. by eapply same_kind_trans, HS; apply same_kind_sym. }
  cbn [ExpertRebalance.passes]. rewrite E. apply IH; [done|]. by eapply same_kind_trans.
Qed.

(** The chunks that are left are done one a pass. *)
Lemma chunks_run m0 new chunks dumps w : manager_ok (Rebalancing new chunks) w → length dumps = length chunks → chunks ≠ [] →
  same_kind m0 w.1 → 
  ∃ w', passes dumps (Rebalancing new chunks) w = Some (Ok (Counting 1, w')) ∧ consistent w' ∧
    ∀ l, l ∈ layers → physical_to_logical_map w'.1 !! l = physical_to_logical_map new !! l.
Proof.
  revert dumps w. induction chunks as [|chunk rest IH]; intros [|dump dumps] w Hm HL Hne Hk; try done.
  destruct (chunk_step dump new chunk rest w Hm) as (w1 & E & Hm1 & Hk1). cbn [ExpertRebalance.passes]. rewrite E.
  destruct rest as [|chunk2 rest].
  - destruct dumps; [|done]. exists w1. split; [done|]. destruct Hm1 as (HC & _ & _ & _ & _ & _ & Hd). split; [done|].
    intros l Hl. apply Hd; [done|]. apply not_elem_of_nil.
  - apply IH; [done|cbn in *; lia|done|by eapply same_kind_trans].
Qed.

(** The passes that a rebalance takes. *)
Definition rebalance_passes (chunks : nat) : nat := if decide (chunks ≤ 1) then 1 else S chunks.

Lemma rebalance_done w new dumps chunks : consistent w → good_dump w.1 (Ok new) → 
  _compute_update_layer_ids_chunks layers rebalance_layers_per_chunk = Ok chunks → S (length dumps) = rebalance_passes (length chunks) →
  ∃ w', passes (Ok new :: dumps) (Counting (Pos.to_nat rebalance_num_iterations)) w = Some (Ok (Counting 1, w')) ∧ consistent w' ∧
    ∀ l, l ∈ layers → physical_to_logical_map w'.1 !! l = physical_to_logical_map new !! l.
Proof.
  intros HC (new' & [= <-] & HN & HS) Ech HL.
  destruct (layer_chunks_ok layers rebalance_layers_per_chunk) as (chunks' & E & Hperm & HF). rewrite Ech in E. injection E as <-.
  assert (manager_ok (Rebalancing new chunks) w) as Hm.
  { split; [done|]. split_and!; [done|done|by rewrite Hperm|by eapply Forall_impl; [exact HF|intros ? []]|by intros l; rewrite Hperm|].
    intros l Hl. by rewrite Hperm. }
  cbn [ExpertRebalance.passes on_forward_pass_end]. rewrite decide_False by lia. rewrite Ech. cbn [mbind result_bind].
  destruct chunks as [|chunk [|chunk2 chunks]]; cbn in HL.
  - destruct dumps; [|done]. exists w. split_and!; [done..|]. intros l Hl. cbn in Hperm. rewrite <- Hperm in Hl. by apply not_elem_of_nil in Hl.
  - destruct dumps; [|done]. destruct (chunk_step (Ok new) new chunk [] w Hm) as (w1 & E & Hm1 & _). cbn [on_forward_pass_end] in E. rewrite E.
    exists w1. split; [done|]. destruct Hm1 as (HC1 & _ & _ & _ & _ & _ & Hd). split; [done|]. intros l Hl. apply Hd; [done|]. apply not_elem_of_nil.
  - apply (chunks_run w.1); [done|unfold rebalance_passes in HL; case_decide; cbn in *; lia|done|by split].
Qed.
End updater.
