(* ===== verification/ExpertNet.v ===== *)
(** * A network that delivers in order

    A concrete [batch_isend_irecv] for the examples: every pair of ranks has a queue, and a
    receive takes the next message of its peer. *)

From S2P Require Import Prelude PySort ExpertUpdate ExpertComm ExpertPlan ExpertWorld.

Open Scope nat_scope.

Section net.
Context {W : Type}.
Implicit Types (wires : list (list (WireOp (W := W)))).

Definition times (r : nat) (peers : list nat) : nat := length (filter (λ p, p = r) peers).

(** What rank [r] sends to rank [s]. *)
Definition queue wires (s r : nat) : list W := sends_to s (default [] (wires !! r)).

Fixpoint take_mail wires (s : nat) (peers seen : list nat) : option (list W) :=
  match peers with
  | [] => Some []
  | p :: ps =>
      v ← queue wires s p !! times p seen;
      vs ← take_mail wires s ps (seen ++ [p]);
      Some (v :: vs)
  end.

Definition deliver wires : option (list (list W)) :=
  mapM (λ '(s, ops), take_mail wires s (recv_peers ops) []) (imap pair wires).

Lemma times_app r ps qs : times r (ps ++ qs) = times r ps + times r qs.
Proof. unfold times. by rewrite filter_app, length_app. Qed.

Lemma times_cons r p ps : times r (p :: ps) = (if decide (p = r) then 1 else 0) + times r ps.
Proof. unfold times. rewrite filter_cons. by destruct (decide _). Qed.

Lemma recvs_from_cons r p ps (v : W) vs :
  recvs_from r (p :: ps) (v :: vs) = if decide (p = r) then v :: recvs_from r ps vs else recvs_from r ps vs.
Proof. unfold recvs_from. cbn [zip zip_with]. rewrite filter_cons. cbn [fst]. by destruct (decide _). Qed.

Lemma take_mail_ok wires s peers seen :
  (∀ r, r ∈ peers → times r seen + times r peers ≤ length (queue wires s r)) →
  ∃ vs, take_mail wires s peers seen = Some vs ∧ length vs = length peers ∧
    ∀ r, recvs_from r peers vs = take (times r peers) (drop (times r seen) (queue wires s r)).
Proof.
  revert seen. induction peers as [|p ps IH]; intros seen Hle; [by exists []|]. cbn [take_mail].
  pose proof (Hle p ltac:(left)) as Hp. rewrite times_cons, decide_True in Hp by done.
  destruct (lookup_lt_is_Some_2 (queue wires s p) (times p seen)) as [v Hv]; [lia|]. rewrite Hv. cbn [mbind option_bind].
  destruct (IH (seen ++ [p])) as (vs & -> & HL & Hvs).
  { intros r Hr. pose proof (Hle r ltac:(by right)) as H2. rewrite times_app, times_cons in *. cbn [times filter list_filter length] in *.
    change (times r []) with 0. lia. }
  exists (v :: vs). split; [done|]. split; [cbn; lia|]. intros r. rewrite recvs_from_cons, Hvs, times_app, !times_cons. change (times r []) with 0.
  destruct (decide (p = r)) as [->|Hne]; [|do 2 f_equal; lia].
  rewrite (drop_S _ _ _ Hv). cbn [Nat.add take]. do 3 f_equal. lia.
Qed.

Lemma deliver_law : exchange_law deliver.
Proof.
  intros wires Hpeer Hcount. unfold deliver.
  assert (∃ received, Forall2 (λ so vs, take_mail wires so.1 (recv_peers so.2) [] = Some vs ∧ length vs = length (recv_peers so.2) ∧
     ∀ r opr, wires !! r = Some opr → recvs_from r (recv_peers so.2) vs = sends_to so.1 opr) (imap pair wires) received) as (received & HF).
  { apply Forall_exists_Forall2_l, Forall_lookup. intros s so Hs. apply imap_pair_lookup in Hs as (ops & Hs & ->). cbn [fst snd].
    assert (∀ r opr, wires !! r = Some opr → queue wires s r = sends_to s opr) as Hq by (intros r opr Hr; unfold queue; by rewrite Hr).
    destruct (take_mail_ok wires s (recv_peers ops) []) as (vs & E & HL & Hvs).
    { intros r (op & Hop & Hr)%list_elem_of_omap. assert (peer_of op = r) as Hpr by (destruct op; simplify_eq/=; done).
      pose proof (Hpeer s ops op Hs Hop) as Hlt. rewrite Hpr in Hlt. destruct (lookup_lt_is_Some_2 wires r Hlt) as [opr Hopr].
      rewrite (Hq r opr Hopr), (Hcount r s opr ops Hopr Hs). done. }
    exists vs. split_and!; [done..|].
    intros r opr Hopr. cbn [fst snd]. rewrite Hvs, (Hq r opr Hopr). cbn [times filter list_filter length].
    change (times r []) with 0. rewrite drop_0. apply take_ge. by rewrite (Hcount r s opr ops Hopr Hs). }
  exists received. split_and!.
  - apply mapM_Some. eapply Forall2_impl; [exact HF|]. intros [s ops] vs (E & _). exact E.
  - rewrite <- (Forall2_length _ _ _ HF). by rewrite length_imap.
  - intros s ops vs Hs Hvs. destruct (Forall2_lookup_r _ _ _ _ _ HF Hvs) as (so & Hso & _ & HL & Hr).
    apply imap_pair_lookup in Hso as (ops' & Hs' & ->). cbn in *. assert (ops' = ops) as -> by congruence. done.
Qed.
End net.
