(* ===== verification/ExpertThms.v ===== *)
(** * Expert weights and dispatch

    The theorems of the expert files, with their examples. *)

From S2P Require Import Prelude PySort EPLB EPLBMaps ExpertUpdate ExpertComm ExpertPlan ExpertWorld ExpertLocation ExpertLocThms ExpertRebalance ExpertEplb ExpertManager ExpertNet.

Open Scope nat_scope.

(** ** One layer on all ranks *)

(** C9: [update_expert_weights_single_layer] on all ranks, when every rank holds the weights of
    the experts that the old map places on it and every expert of the new map has a place in
    the old one: no rank fails or waits for ever, and then every rank holds the weights of the
    experts that the new map places on it - whatever the two maps, and however the experts
    repeat in them. *)
Theorem update_single_layer_correct {W} (batch_isend_irecv : list (list (WireOp (W := W))) → option (list (list W)))
    nt n g world (weight : nat → Z → W) old new ranks :
  exchange_law batch_isend_irecv → 0 < n → 0 < g → length old = world * n → length new = world * n →
  (∀ l, l ∈ new → l ∈ old) → placed nt n weight old world ranks →
  ∃ ranks', update_expert_weights_single_layer batch_isend_irecv old new n g ranks = Some (Ok ranks') ∧
    placed nt n weight new world ranks'.
Proof.
  intros Hlaw Hn Hg Lo Ln Hc Hp. eapply ExpertWorld.layer_ok; [|exact Hlaw|exact Hp].
  split; [done..|]. intros x l Hx. apply Hc. by eapply list_elem_of_lookup_2.
Qed.

(** Four ranks on two machines, two tensors of two rows a rank. *)
Definition ex_old : list Z := [0; 1; 2; 3; 4; 5; 0; 1]%Z.
Definition ex_new : list Z := [5; 4; 4; 5; 1; 2; 3; 0]%Z.
Definition ex_weight (i : nat) (e : Z) : Z := (100 * Z.of_nat i + e)%Z.
Definition ex_ranks (m : list Z) : list (list (list Z) * list (list Z)) :=
  (λ s, ((λ i, ex_weight i <$> take 2 (drop (s * 2) m)) <$> seq 0 2, [[-1; -1]; [-1; -1]]%Z)) <$> seq 0 4.

Lemma update_single_layer_correct_witness :
  update_expert_weights_single_layer deliver ex_old ex_new 2 2 (ex_ranks ex_old) =
    Some (Ok [([[5; 4]; [105; 104]], [[5; 4]; [105; 104]]); ([[4; 5]; [104; 105]], [[4; 5]; [104; 105]]);
              ([[1; 2]; [101; 102]], [[1; 2]; [101; 102]]); ([[3; 0]; [103; 100]], [[3; 0]; [103; 100]])])%Z ∧
  ∃ ranks', update_expert_weights_single_layer deliver ex_old ex_new 2 2 (ex_ranks ex_old) = Some (Ok ranks') ∧
    placed 2 2 ex_weight ex_new 4 ranks'.
Proof.
  split; [vm_compute; reflexivity|].
  apply (update_single_layer_correct deliver 2 2 2 4 ex_weight ex_old ex_new); [apply deliver_law|lia..|reflexivity|reflexivity| |].
  - intros l. unfold ex_old, ex_new. set_solver.
  - split; [reflexivity|]. intros s w t Hs. unfold ex_ranks in Hs. rewrite list_lookup_fmap in Hs.
    apply fmap_Some in Hs as (s' & [-> Hs]%lookup_seq & [= -> ->]).
    do 4 (destruct s as [|s]; [split_and!; [split; [reflexivity|repeat constructor]..|]; intros [|[|i]] [|[|j]] l Hi Hj Hl; try lia;
      cbn in Hl; injection Hl as <-; reflexivity|]). lia.
Defined.

(** ** Serving while the experts move *)

Section serving.
Context {F : Type} (fzero : F) (fadd : F → F → F) (fdiv : F → Z → F) (fltb : F → F → bool).
Context (argsort : list F → list Z) (argmax : list F → Z) (uninit : nat → Z).
Context (deepseek_vec_rebalance : list (list (list F)) → nat → nat → option nat → nat → bool →
  result (list (list Z) * list (list Z) * list (list Z))).
Context {Rng : Type} (sample : list Z → nat → Rng → list Z * Rng) (shuffle : list Z → Rng → list Z * Rng).
Context (argsort_perm : ∀ l, argsort l ≡ₚ aranges (length l)).
Context (argmax_ok : ∀ l, l ≠ [] → ∃ i x, argmax l = Z.of_nat i ∧ l !! i = Some x ∧ ∀ y, y ∈ l → fle fltb y x).
Context (fle_trans : ∀ x y z, fle fltb x y → fle fltb y z → fle fltb x z).
Context (sample_law : ∀ arr k r, k ≤ length arr → length (sample arr k r).1 = k ∧ ∃ rest, arr ≡ₚ (sample arr k r).1 ++ rest).
Context (shuffle_law : ∀ arr r, (shuffle arr r).1 ≡ₚ arr).
Context {W : Type} (batch_isend_irecv : list (list (WireOp (W := W))) → option (list (list W))) (Hlaw : exchange_law batch_isend_irecv).
Notation tensors := (list (list W)).
Context (nt n : nat) (empty_like : tensors → tensors) (Hempty : ∀ t, shape nt n t → shape nt n (empty_like t)).
Context (weight : nat → nat → Z → W).

(** The machine and the model as [fits] describes them, with [n] places on a rank. *)
Context (static : bool) (raw_algorithm : string) (num_groups : option nat) (nnodes : nat) (algorithm : EplbAlgorithm).
Context (nn gpn gs gpg redundant rank : nat) (seed : Rng).
Context (Halg : compute_algorithm raw_algorithm num_groups nnodes = Ok algorithm) (Hfits : fits algorithm num_groups nnodes nn gpn).
Context (Hnn : 0 < nn) (Hgpn : 0 < gpn) (Hgs : 0 < gs) (Hgpg : 0 < gpg) (Hred : nn * gpn * gs + redundant = nn * gpg * n).
Context (Hnodes : 0 < nnodes ≤ nn * gpg).
Context (rebalance_num_iterations : positive) (per_chunk : option nat) (layers : list nat) (Hlayers : NoDup layers).

Notation experts := (nn * gpn * gs).
Notation ranks := (nn * gpg).
Notation dump_of := (init_by_eplb fzero fadd fdiv fltb argsort argmax uninit deepseek_vec_rebalance sample shuffle static raw_algorithm
  experts redundant ranks nnodes rank num_groups seed).
Notation passes := (passes batch_isend_irecv empty_like rebalance_num_iterations nnodes per_chunk layers).

(** Counts for every layer and expert, whose shares do not grow with more replicas. *)
Definition counts_ok (num_layers : nat) (logical_count : list (list (list F))) : Prop :=
  length (sum_steps fadd logical_count) = num_layers ∧ num_layers ≠ 0 ∧
  Forall (λ w, length w = experts ∧ Forall (shrinks fdiv fltb) w) (sum_steps fadd logical_count).

Lemma dump_good m0 logical_count : counts_ok (length (physical_to_logical_map m0)) logical_count →
  (is_Some (logical_to_rank_dispatch_physical_map m0) ↔ static = true) →
  good_dump experts n ranks m0 (dump_of logical_count).
Proof.
  intros (L & Hne & HF) Hs.
  destruct (init_by_eplb_ok fzero fadd fdiv fltb argsort argmax uninit deepseek_vec_rebalance sample shuffle argsort_perm argmax_ok
    fle_trans sample_law shuffle_law static raw_algorithm num_groups nnodes algorithm nn gpn gs gpg n redundant rank seed logical_count)
    as (m & E & Lm & Hm & Hd); [done..| |done|].
  { intros E. rewrite E in L. cbn in L. lia. }
  exists m. split_and!; [done|done|]. split; [lia|]. by rewrite Hd.
Qed.

Lemma n_pos : 0 < n.
Proof. nia. Qed.

(** A place of the map, and the row of the rank that has it. *)
Lemma place_row l p2l (world : list (gmap nat tensors)) e p :
  length world = ranks → layer_placed nt n weight l p2l world → length p2l = ranks * n → p ∈ places 0 p2l e →
  ∃ s j w t, p = Z.of_nat (s * n + j) ∧ j < n ∧ world !! s = Some w ∧ w !! l = Some t ∧ ∀ i, i < nt → cell t i j = Some (weight l i e).
Proof.
  intros Lw Hp Lp (x & -> & Hx)%elem_of_places. pose proof n_pos as Hn. cbn [Nat.add].
  pose proof (Nat.div_mod_eq x n) as Hdm. pose proof (Nat.mod_upper_bound x n ltac:(lia)) as Hmod.
  assert (x < ranks * n) as Hlt by (apply lookup_lt_Some in Hx; lia).
  assert (x / n < ranks) as Hs by (apply Nat.Div0.div_lt_upper_bound; lia).
  destruct (lookup_lt_is_Some_2 world (x / n)) as [w Hw]; [lia|]. destruct (Hp _ _ Hw) as (t & Ht & _ & Hr).
  exists (x / n), (x `mod` n), w, t. split_and!; [f_equal; lia|done..|]. intros i Hi. apply Hr; [done|done|].
  rewrite <- Hx. f_equal. lia.
Qed.

(** C8: [EPLBManager] with [init_by_eplb] and the updater, rebalancing after every so many
    passes (a positive number), over any number of forward passes, from a state in which every rank holds the experts that the metadata place on it: whatever
    counts are recorded, no pass fails or hangs; and after the passes, in the middle of a
    rebalance as well, the expert that a token chose is dispatched to a physical expert whose
    row in the weights of its rank is that expert's. *)
Theorem dispatch_hits_weights m0 ranks0 counts :
  consistent nt experts n ranks weight layers (m0, ranks0) →
  (is_Some (logical_to_rank_dispatch_physical_map m0) ↔ static = true) →
  Forall (counts_ok (length (physical_to_logical_map m0))) counts →
  ∃ gen m world, passes (dump_of <$> counts) (Counting 0) (m0, ranks0) = Some (Ok (gen, (m, world))) ∧
    ∀ l topk_ids randint dispatch, l ∈ layers → Forall (λ e, 0 ≤ e < Z.of_nat experts)%Z topk_ids →
      dispatch = DispatchDynamic ∨ dispatch = DispatchFake ∨ (dispatch = DispatchStatic ∧ static = true) →
      ∃ info out, init_new (Some dispatch) m (Z.of_nat l) = Ok info ∧
        topk_ids_logical_to_physical randint topk_ids info = Ok out ∧ length out = length topk_ids ∧
        ∀ k e p, topk_ids !! k = Some e → out !! k = Some p → ∃ s j w t, p = Z.of_nat (s * n + j) ∧ j < n ∧
          world !! s = Some w ∧ w !! l = Some t ∧ ∀ i, i < nt → cell t i j = Some (weight l i e).
Proof.
  intros HC Hs HF.
  destruct (passes_ok nt experts n ranks nnodes weight batch_isend_irecv Hlaw empty_like Hempty n_pos (proj1 Hnodes) (proj2 Hnodes)
    layers rebalance_num_iterations per_chunk Hlayers m0 (dump_of <$> counts) (Counting 0) (m0, ranks0))
    as (gen & [m world] & E & [[HM HR HL] _] & [_ Hk]); [by split|by split| |].
  { apply Forall_fmap. eapply Forall_impl; [exact HF|]. intros c Hc. by apply dump_good. }
  cbn [fst snd] in *. exists gen, m, world. split; [done|]. intros l topk randint dispatch Hl Htopk Hd.
  destruct (HL l Hl) as (p2l & Ep & Hp).
  destruct (dispatch_to_place experts (ranks * n) m randint dispatch l p2l topk HM Ep Htopk) as (info & out & Ei & Eo & HF2).
  { rewrite <- Hk, Hs. tauto. }
  exists info, out. split_and!; [done|done|by eapply Forall2_length|]. intros k e p He Hout.
  pose proof (Forall2_lookup_lr _ _ _ _ _ _ HF2 Hout He) as Hin. eapply place_row; [done..| |exact Hin].
  destruct HM as [_ La Lv Hlay _]. pose proof (lookup_lt_Some _ _ _ Ep).
  destruct (lookup_lt_is_Some_2 (logical_to_all_physical_map m) l) as [all Eall]; [lia|].
  destruct (lookup_lt_is_Some_2 (logical_to_all_physical_map_num_valid m) l) as [valid Ev]; [lia|].
  by destruct (Hlay _ _ _ _ Ep Eall Ev).
Qed.

(** C11: a rebalance completes, where at least one pass lies between two of them: when the recorded passes are over, one pass for the dump and
    one for each chunk (or a single one when there is at most one chunk) bring every layer to
    the new map, with the weights in their places, and the manager counts passes again. *)
Theorem rebalance_completes m0 ranks0 counts more chunks :
  consistent nt experts n ranks weight layers (m0, ranks0) →
  (is_Some (logical_to_rank_dispatch_physical_map m0) ↔ static = true) →
  counts_ok (length (physical_to_logical_map m0)) counts →
  _compute_update_layer_ids_chunks layers per_chunk = Ok chunks → S (length more) = rebalance_passes (length chunks) →
  ∃ new m world, dump_of counts = Ok new ∧
    passes (dump_of counts :: more) (Counting (Pos.to_nat rebalance_num_iterations)) (m0, ranks0) = Some (Ok (Counting 1, (m, world))) ∧
    ∀ l, l ∈ layers → ∃ p2l, physical_to_logical_map new !! l = Some p2l ∧ physical_to_logical_map m !! l = Some p2l ∧
      layer_placed nt n weight l p2l world.
Proof.
  intros HC Hs HF Hch HL. destruct (dump_good m0 counts HF Hs) as (new & -> & HN & HS).
  destruct (rebalance_done nt experts n ranks nnodes weight batch_isend_irecv Hlaw empty_like Hempty n_pos (proj1 Hnodes) (proj2 Hnodes)
    layers rebalance_num_iterations per_chunk Hlayers (m0, ranks0) new more chunks) as ([m world] & E & [_ _ HP] & Hp); [done|by exists new|done|done|].
  exists new, m, world. split_and!; [done|done|]. intros l Hl. destruct (HP l Hl) as (p2l & Ep & Hw). cbn [fst snd] in *.
  exists p2l. by rewrite <- (Hp l Hl).
Qed.
End serving.

(** ** Two ranks, three experts and two layers *)

Definition take_sample (arr : list Z) (k : nat) (r : unit) : list Z * unit := (take k arr, r).
Definition no_shuffle (arr : list Z) (r : unit) : list Z * unit := (arr, r).

Lemma take_sample_law arr k (r : unit) : k ≤ length arr →
  length (take_sample arr k r).1 = k ∧ ∃ rest, arr ≡ₚ (take_sample arr k r).1 ++ rest.
Proof. intros Hk. cbn. split; [rewrite length_take; lia|]. exists (drop k arr). by rewrite take_drop. Qed.

Lemma no_shuffle_law arr (r : unit) : (no_shuffle arr r).1 ≡ₚ arr.
Proof. done. Qed.

Definition ex_map : list (list Z) := [[0; 1; 2; 0]; [2; 1; 0; 1]]%Z.
Definition ex_meta : ExpertLocationMetadata :=
  match init_by_mapping take_sample no_shuffle true 3 1 2 0 tt ex_map with Ok m => m | Raise _ => MkLoc [] [] [] [] None end.
Definition ex_row (l i : nat) (e : Z) : Z := (100 * Z.of_nat l + 10 * Z.of_nat i + e)%Z.
Definition ex_layer (s l : nat) : list (list Z) :=
  (λ i, ex_row l i <$> take 2 (drop (s * 2) (default [] (ex_map !! l)))) <$> seq 0 2.
Definition ex_world : list (gmap nat (list (list Z))) :=
  (λ s, <[0 := ex_layer s 0]> (<[1 := ex_layer s 1]> ∅)) <$> seq 0 2.
Definition ex_counts : list (list (list Z)) := [[[5; 1; 9]; [1; 1; 1]]; [[5; 1; 9]; [1; 8; 1]]]%Z.

Lemma ex_meta_ok : meta_ok 3 4 ex_meta ∧ physical_to_logical_map ex_meta = ex_map.
Proof.
  destruct (init_by_mapping_ok take_sample no_shuffle take_sample_law no_shuffle_law true 3 1 2 0 tt 4 ex_map)
    as (m & E & Hp & Hm & _); [lia|lia|done|cbn; lia|done| |].
  - apply Forall_cons; split; [|apply Forall_cons; split; [|done]];
      (split_and!; [done|repeat constructor; lia|intros [|[|[|e]]] He; try lia; set_solver]).
  - unfold ex_meta. by rewrite E.
Qed.

Lemma ex_consistent : consistent 2 3 2 2 ex_row [0; 1] (ex_meta, ex_world).
Proof.
  destruct ex_meta_ok as [Hm Hp]. split; cbn [fst snd]; [exact Hm|done|]. intros l Hl. rewrite Hp.
  assert (∃ p2l, ex_map !! l = Some p2l) as [p2l E] by (apply lookup_lt_is_Some_2; cbn; set_unfold in Hl; lia).
  exists p2l. split; [exact E|]. intros s w Hs. unfold ex_world in Hs. rewrite list_lookup_fmap in Hs.
  apply fmap_Some in Hs as (s' & [-> Hs]%lookup_seq & ->). exists (ex_layer (0 + s) l). split_and!.
  - set_unfold in Hl. by destruct Hl as [->|[->|[]]].
  - unfold ex_layer. rewrite E. split; [done|]. apply Forall_forall. intros rows (i & -> & _)%list_elem_of_fmap.
    rewrite length_fmap, length_take, length_drop. set_unfold in Hl.
    destruct Hl as [->|[->|[]]]; injection E as <-; cbn; destruct s as [|[|s]]; cbn; lia.
  - intros i j e Hi Hj He. unfold ex_layer, cell. rewrite E. cbn [default from_option].
    rewrite list_lookup_fmap, lookup_seq_lt by done. cbn. rewrite list_lookup_fmap, lookup_take_lt, lookup_drop by done. cbn in He. by rewrite He.
Qed.

Lemma ex_counts_ok : counts_ok Z.add Z.div Z.ltb 1 1 3 2 ex_counts.
Proof. split_and!; [reflexivity|lia|]. repeat constructor; by apply Zshrinks. Qed.

Notation ex_dump := (init_by_eplb 0%Z Z.add Z.div Z.ltb descending max_index (λ _, 7%Z) (λ _ _ _ _ _ _, Raise KeyError)
  take_sample no_shuffle true "auto" 3 1 2 1 0 (Some 1) tt).
Notation ex_passes := (passes deliver (λ t, t) 1 1 (Some 1) [0; 1]).

Definition ex_dumps : list (result ExpertLocationMetadata) := (λ c : list (list (list Z)), ex_dump c) <$> [ex_counts; ex_counts; ex_counts].

Lemma dispatch_hits_weights_witness :
  match ex_passes ex_dumps (Counting 0) (ex_meta, ex_world), ex_dump ex_counts with
  | Some (Ok (gen, (m, _))), Ok new => gen = Rebalancing new [[1]] ∧ physical_to_logical_map m = [[0; 1; 2; 2]; [2; 1; 0; 1]]%Z
  | _, _ => False
  end ∧
  ∃ gen m world, ex_passes ex_dumps (Counting 0) (ex_meta, ex_world) = Some (Ok (gen, (m, world))) ∧
    ∀ l topk_ids randint dispatch, l ∈ [0; 1] → Forall (λ e, 0 ≤ e < Z.of_nat 3)%Z topk_ids →
      dispatch = DispatchDynamic ∨ dispatch = DispatchFake ∨ (dispatch = DispatchStatic ∧ true = true) →
      ∃ info out, init_new (Some dispatch) m (Z.of_nat l) = Ok info ∧
        topk_ids_logical_to_physical randint topk_ids info = Ok out ∧ length out = length topk_ids ∧
        ∀ k e p, topk_ids !! k = Some e → out !! k = Some p → ∃ s j w t, p = Z.of_nat (s * 2 + j) ∧ j < 2 ∧
          world !! s = Some w ∧ w !! l = Some t ∧ ∀ i, i < 2 → cell t i j = Some (ex_row l i e).
Proof.
  split; [vm_compute; split; reflexivity|]. unfold ex_dumps.
  apply (dispatch_hits_weights 0%Z Z.add Z.div Z.ltb descending max_index (λ _, 7%Z) (λ _ _ _ _ _ _, Raise KeyError)
    take_sample no_shuffle descending_perm max_index_ok Zle_trans take_sample_law no_shuffle_law deliver deliver_law 2 2 (λ t, t)
    ltac:(done) ex_row true "auto" (Some 1) 1 deepseek_hierarchical 1 1 3 2 1 0 tt); try lia.
  - reflexivity.
  - by split.
  - repeat constructor; set_solver.
  - exact ex_consistent.
  - vm_compute. split; [done|]. by eexists.
  - do 3 (apply Forall_cons; split; [exact ex_counts_ok|]). done.
Defined.

Lemma rebalance_completes_witness :
  ∃ new m world, ex_dump ex_counts = Ok new ∧
    ex_passes [ex_dump ex_counts; Raise KeyError; Raise KeyError] (Counting 1) (ex_meta, ex_world) = Some (Ok (Counting 1, (m, world))) ∧
    ∀ l, l ∈ [0; 1] → ∃ p2l, physical_to_logical_map new !! l = Some p2l ∧ physical_to_logical_map m !! l = Some p2l ∧
      layer_placed 2 2 ex_row l p2l world.
Proof.
  apply (rebalance_completes 0%Z Z.add Z.div Z.ltb descending max_index (λ _, 7%Z) (λ _ _ _ _ _ _, Raise KeyError)
    take_sample no_shuffle descending_perm max_index_ok Zle_trans take_sample_law no_shuffle_law deliver deliver_law 2 2 (λ t, t)
    ltac:(done) ex_row true "auto" (Some 1) 1 deepseek_hierarchical 1 1 3 2 1 0 tt) with (chunks := [[0]; [1]]); try lia.
  - reflexivity.
  - by split.
  - repeat constructor; set_solver.
  - exact ex_consistent.
  - vm_compute. split; [done|]. by eexists.
  - exact ex_counts_ok.
  - reflexivity.
  - reflexivity.
Defined.

(** ** The dispatch table *)

(** C12: [compute_logical_to_rank_dispatch_physical_map], which every rank runs by itself with
    the same seed: there is one table of which each rank gets its own column. In the table
    every GPU has for every expert one of the places of the expert: its own first place when
    it has one, and the GPUs that have none share the places evenly, each being used by as
    many of them as any other or by one more or one less. *)
Theorem dispatch_table_correct {Rng : Type} (sample : list Z → nat → Rng → list Z * Rng) (shuffle : list Z → Rng → list Z * Rng)
    num_gpus n num_logical p2l l2p seed :
  (∀ arr k r, k ≤ length arr → length (sample arr k r).1 = k ∧ ∃ rest, arr ≡ₚ (sample arr k r).1 ++ rest) →
  (∀ arr r, (shuffle arr r).1 ≡ₚ arr) →
  0 < num_gpus → 0 < n / num_gpus → l2p_ok num_logical p2l l2p →
  ∃ table : list (list (list Z)),
    Forall2 (Forall2 (λ row o, dispatch_ok num_gpus (n / num_gpus) (_logical_to_all_physical_raw row) o)) l2p table ∧
    ∀ ep_rank, ep_rank < num_gpus →
      compute_logical_to_rank_dispatch_physical_map sample shuffle l2p num_gpus n ep_rank seed =
        Ok ((λ layer : list (list Z), (λ o, default 0%Z (o !! ep_rank)) <$> layer) <$> table).
Proof. intros Hsample Hshuffle. apply (dispatch_table_ok sample shuffle Hsample Hshuffle). Qed.

Definition ex_l2p : list (list (list Z)) := [[[0; 3]; [1; -1]; [2; -1]]; [[2; -1]; [1; 3]; [0; -1]]]%Z.

Lemma dispatch_table_correct_witness :
  compute_logical_to_rank_dispatch_physical_map take_sample no_shuffle ex_l2p 2 4 1 tt = Ok [[3; 1; 2]; [2; 3; 0]]%Z ∧
  ∃ table : list (list (list Z)),
    Forall2 (Forall2 (λ row o, dispatch_ok 2 (4 / 2) (_logical_to_all_physical_raw row) o)) ex_l2p table ∧
    ∀ ep_rank, ep_rank < 2 →
      compute_logical_to_rank_dispatch_physical_map take_sample no_shuffle ex_l2p 2 4 ep_rank tt =
        Ok ((λ layer : list (list Z), (λ o, default 0%Z (o !! ep_rank)) <$> layer) <$> table).
Proof.
  split; [vm_compute; reflexivity|].
  apply (dispatch_table_correct take_sample no_shuffle 2 4 3 ex_map ex_l2p tt take_sample_law no_shuffle_law); [lia|cbn; lia|].
  unfold l2p_ok, ex_map, ex_l2p. constructor; [|constructor; [|constructor]].
  all: split; [reflexivity|]. all: intros [|[|[|e]]] row Hr; cbn in Hr; try done; injection Hr as <-; cbn.
  all: first [exists [0; 3]%Z, 0; by split_and!|exists [1; 3]%Z, 0; by split_and!|by eexists [_], 1].
Defined.
