(* ===== verification/Detokenizer.v ===== *)
(** * From tokens to text, as they come

    The scheduler sends the tokens of its requests in chunks
    ([stream_output_generation] of [managers/scheduler_output_processor_mixin.py]); the
    detokenizer process ([managers/detokenizer_manager.py]) turns each chunk into the text
    that is new. *)

From S2P Require Import Prelude PyStr Sampling Req.

Open Scope nat_scope.

(** ** The scheduler's side *)

(** A request with what the sender keeps of it. *)
Record Outgoing := MkOutgoing {
  og_req : Req;
  stream_interval : option nat;
  skip_special_tokens : bool;
  spaces_between_special_tokens : bool;
  send_decode_id_offset : nat;
  send_token_offset : nat;
  finished_output : bool
}.

Definition set_finished_output x o := MkOutgoing (og_req o) (stream_interval o) (skip_special_tokens o)
  (spaces_between_special_tokens o) (send_decode_id_offset o) (send_token_offset o) x.
Definition set_sent (r : Req) decode_id_offset token_offset o := MkOutgoing r (stream_interval o) (skip_special_tokens o)
  (spaces_between_special_tokens o) decode_id_offset token_offset (finished_output o).

(** One row of [BatchTokenIDOut]: what the detokenizer reads, and what it passes on. *)
Record BatchTokenIDOut := MkOut {
  out_rid : pystr;
  out_finished_reason : option json;
  out_decoded_text : pystr;
  out_decode_ids : list Z;
  out_read_offset : nat;
  out_output_ids : list Z;
  out_skip_special_tokens : bool;
  out_spaces_between_special_tokens : bool;
  out_no_stop_trim : bool;
  prompt_tokens : nat;
  completion_tokens : nat;
  out_cached_tokens : Z
}.

Definition DEFAULT_FORCE_STREAM_INTERVAL : nat := 50.

Section sender.
Context (server_stream_interval : nat) (is_multimodal_gen : bool).

(** [x % interval == 0]. *)
Definition on_interval (x interval : nat) : result bool :=
  if decide (interval = 0) then Raise ZeroDivisionError else Ok (bool_decide (x `mod` interval = 0)).

(** [should_output], and the mark of an output that is the last. *)
Definition should_output (o : Outgoing) : result (bool * Outgoing) :=
  let r := og_req o in
  match finished_reason r with
  | Some _ => if finished_output o then Ok (false, o) else Ok (true, set_finished_output true o)
  | None =>
      if req_stream r then
        let interval := match stream_interval o with Some (S n) => S n | _ => server_stream_interval end in
        b ← on_interval (length (output_ids r)) interval; Ok (b, o)
      else
        b ← on_interval (length (output_ids r)) DEFAULT_FORCE_STREAM_INTERVAL; Ok (b && negb is_multimodal_gen, o)
  end.

(** The row of a request; [read_offset] is never negative there. *)
Definition output_row (o : Outgoing) : BatchTokenIDOut * Outgoing :=
  let '(decode_ids, read_offset, r) := init_incremental_detokenize (og_req o) in
  let ids := if is_multimodal_gen then decode_ids else drop (send_decode_id_offset o) decode_ids in
  (MkOut (rid r) (to_json <$> finished_reason r) (decoded_text r) ids (Z.to_nat read_offset)
     (drop (send_token_offset o) (output_ids r)) (skip_special_tokens o) (spaces_between_special_tokens o)
     (no_stop_trim (sampling_params r)) (length (origin_input_ids r)) (length (output_ids r)) (cached_tokens r),
   set_sent r (length decode_ids) (length (output_ids r)) o).

Definition stream_one (o : Outgoing) : result (option BatchTokenIDOut * Outgoing) :=
  if is_multimodal_gen && to_abort (og_req o) then Ok (None, o) else
  '(out, o) ← should_output o;
  if out : bool then let '(row, o) := output_row o in Ok (Some row, o) else Ok (None, o).

(** [stream_output_generation]: [skip_req] is a place in [reqs]. No message is sent when there
    are no rows, or for a multimodal model. *)
Fixpoint stream_rows (i : nat) (skip_req : option nat) (reqs : list Outgoing) : result (list BatchTokenIDOut * list Outgoing) :=
  match reqs with
  | [] => Ok ([], [])
  | o :: reqs =>
      '(row, o) ← (if decide (skip_req = Some i) then Ok (@None BatchTokenIDOut, o) else stream_one o);
      '(rows, reqs) ← stream_rows (S i) skip_req reqs;
      Ok (option_list row ++ rows, o :: reqs)
  end.

Definition stream_output_generation (reqs : list Outgoing) (skip_req : option nat) : result (option (list BatchTokenIDOut) * list Outgoing) :=
  '(rows, reqs) ← stream_rows 0 skip_req reqs;
  Ok (if decide (rows = []) then None else if is_multimodal_gen then None else Some rows, reqs).
End sender.

(** ** [find_printable_text] of [sglang/utils.py] *)

Definition _is_chinese_char (cp : Z) : bool := bool_decide (
  (0x4E00 ≤ cp ∧ cp ≤ 0x9FFF) ∨ (0x3400 ≤ cp ∧ cp ≤ 0x4DBF) ∨ (0x20000 ≤ cp ∧ cp ≤ 0x2A6DF) ∨
  (0x2A700 ≤ cp ∧ cp ≤ 0x2B73F) ∨ (0x2B740 ≤ cp ∧ cp ≤ 0x2B81F) ∨ (0x2B820 ≤ cp ∧ cp ≤ 0x2CEAF) ∨
  (0xF900 ≤ cp ∧ cp ≤ 0xFAFF) ∨ (0x2F800 ≤ cp ∧ cp ≤ 0x2FA1F))%Z.

Definition newline : pystr := [10%Z].
Definition space : pystr := [32%Z].

Definition find_printable_text (text : pystr) : pystr :=
  if endswith text newline then text
  else if bool_decide (0 < length text) && from_option _is_chinese_char false (last text) then text
  else if bool_decide (1 < length text) && from_option _is_chinese_char false (text !! (length text - 2))
    then take (length text - 1) text
  else take (match rfind text space with Some i => i + 1 | None => 0 end) text.

(** ** [class LimitedCapacityDict] *)

Section capacity.
Context {V : Type}.

(** [popitem(last=False)]. *)
Definition popitem (d : list (pystr * V)) : result (list (pystr * V)) :=
  match d with [] => Raise KeyError | _ :: d => Ok d end.

Definition limited_set (capacity : nat) (k : pystr) (v : V) (d : list (pystr * V)) : result (list (pystr * V)) :=
  d ← (if decide (capacity ≤ length d) then popitem d else Ok d);
  Ok (dict_set k v d).
End capacity.

(** ** [class DetokenizerManager] *)

Record DecodeStatus := MkStatus {
  st_decoded_text : pystr;
  decode_ids : list Z;
  st_surr_offset : nat;
  st_read_offset : nat;
  sent_offset : nat
}.

(** U+FFFD, what a decoder makes of bytes that are no character (yet). *)
Definition REPLACEMENT : pystr := [0xFFFD%Z].

(** [finished_reason.get("matched")], [None] for what is not in the dictionary. *)
Definition get_matched (finished_reason : option json) : json :=
  match finished_reason with
  | Some (JObj items) => default JNone (dict_get (s2z "matched") items)
  | _ => JNone
  end.

(** [not finished_reason] is true for [None] and the empty dictionary. *)
Definition has_reason (finished_reason : option json) : bool :=
  match finished_reason with None | Some (JObj []) => false | Some _ => true end.

(** [if not matched]: the number zero and the empty string are false. *)
Definition truthy (j : json) : bool :=
  match j with
  | JInt n => bool_decide (n ≠ 0%Z)
  | JStr s => bool_decide (s ≠ [])
  | JNone => false
  | JObj items => bool_decide (length items ≠ 0)
  end.

(** [trim_matched_stop], on a text and on a list of tokens. *)
Definition trim_matched_stop_str (output : pystr) (finished_reason : option json) (no_stop_trim : bool) : pystr :=
  if no_stop_trim || negb (has_reason finished_reason) then output else
  let matched := get_matched finished_reason in
  if negb (truthy matched) then output else
  match matched with
  | JStr s => match find output s with Some pos => take pos output | None => output end
  | _ => output
  end.

Definition trim_matched_stop_ids (output : list Z) (finished_reason : option json) (no_stop_trim : bool) : result (list Z) :=
  if no_stop_trim || negb (has_reason finished_reason) then Ok output else
  let matched := get_matched finished_reason in
  if negb (truthy matched) then Ok output else
  match matched with
  | JInt _ => if decide (0 < length output) then Ok (take (length output - 1) output) else Raise AssertionError
  | _ => Ok output
  end.

Section detokenizer.
(** [tokenizer.batch_decode] on one list, with [skip_special_tokens] and
    [spaces_between_special_tokens]; and the capacity of the dictionary. *)
Context (decode : bool → bool → list Z → pystr) (DETOKENIZER_MAX_STATES : nat).

Notation Dict := (list (pystr * DecodeStatus)).

Definition new_status (recv : BatchTokenIDOut) : DecodeStatus :=
  MkStatus (out_decoded_text recv) (out_decode_ids recv) 0 (out_read_offset recv) 0.
Definition extend_ids (ids : list Z) (s : DecodeStatus) : DecodeStatus :=
  MkStatus (st_decoded_text s) (decode_ids s ++ ids) (st_surr_offset s) (st_read_offset s) (sent_offset s).

(** The first loop: the states, and what to decode of each. *)
Fixpoint init_statuses (recv_obj : list BatchTokenIDOut) : M Dict (list (list Z * list Z)) :=
  match recv_obj with
  | [] => mret []
  | recv :: recv_obj => λ d,
      let rid := out_rid recv in
      let '(s, stored) :=
        match dict_get rid d with
        | None => let s := new_status recv in (s, limited_set DETOKENIZER_MAX_STATES rid s d)
        | Some s => let s := extend_ids (out_decode_ids recv) s in (s, Ok (dict_set rid s d))
        end in
      match stored with
      | Raise e => (Raise e, d)
      | Ok d =>
          match trim_matched_stop_ids (drop (st_surr_offset s) (decode_ids s)) (out_finished_reason recv) (out_no_stop_trim recv) with
          | Raise e => (Raise e, d)
          | Ok read_ids =>
              (rest ← init_statuses recv_obj;
               mret ((read_ids, slice (st_surr_offset s) (st_read_offset s) (decode_ids s)) :: rest)) d
          end
      end
  end.

(** The state after the text of a chunk, and the text to send. *)
Definition incremental (recv : BatchTokenIDOut) (new_text : pystr) (s : DecodeStatus) : pystr * DecodeStatus :=
  let '(decoded, new_text, surr, read) :=
    match out_finished_reason recv with
    | None =>
        if bool_decide (0 < length new_text) && negb (endswith new_text REPLACEMENT)
        then (st_decoded_text s ++ new_text, [], st_read_offset s, length (decode_ids s))
        else (st_decoded_text s, find_printable_text new_text, st_surr_offset s, st_read_offset s)
    | Some _ => (st_decoded_text s, new_text, st_surr_offset s, st_read_offset s)
    end in
  let output_str := trim_matched_stop_str (decoded ++ new_text) (out_finished_reason recv) (out_no_stop_trim recv) in
  (drop (sent_offset s) output_str, MkStatus decoded (decode_ids s) surr read (length output_str)).

(** The second loop. *)
Fixpoint incremental_decode (recv_obj : list BatchTokenIDOut) (texts : list (pystr * pystr)) : M Dict (list pystr) :=
  match recv_obj, texts with
  | recv :: recv_obj, (read_text, surr_text) :: texts => λ d,
      match dict_get (out_rid recv) d with
      | None => (Raise (RuntimeError "Decode status not found for request"), d)
      | Some s =>
          let '(output, s) := incremental recv (drop (length surr_text) read_text) s in
          (rest ← incremental_decode recv_obj texts; mret (output :: rest)) (dict_set (out_rid recv) s d)
      end
  | _, _ => mret []
  end.

(** All of a batch is decoded with the flags of its first request. *)
Definition handle_batch_token_id_out (recv_obj : list BatchTokenIDOut) : M Dict (list pystr) :=
  ids ← init_statuses recv_obj;
  match recv_obj return M Dict (list pystr) with
  | [] => raise IndexError
  | recv :: _ =>
      let dec := decode (out_skip_special_tokens recv) (out_spaces_between_special_tokens recv) in
      incremental_decode recv_obj ((λ '(read, surr), (dec read, dec surr)) <$> ids)
  end.

(** [event_loop]: the messages in the order of arrival; an exception ends the process. *)
Fixpoint event_loop (messages : list (list BatchTokenIDOut)) : M Dict (list (list pystr)) :=
  match messages with
  | [] => mret []
  | m :: messages => out ← handle_batch_token_id_out m; outs ← event_loop messages; mret (out :: outs)
  end.
End detokenizer.
