(* ===== verification/DetokText.v ===== *)
(** * Text that does not change any more

    What incremental decoding needs of a tokenizer, and the invariant of the state of one
    request: the text decoded so far is the beginning of the text of all its tokens. *)

From S2P Require Import Prelude PyStr Sampling Req Detokenizer.

Open Scope nat_scope.

(** ** Text without the replacement characters at its end *)

Fixpoint chomp (t : pystr) : pystr :=
  match t with
  | [] => []
  | c :: t => match chomp t with [] => if decide (c = 0xFFFD%Z) then [] else [c] | t' => c :: t' end
  end.

Lemma chomp_prefix t : chomp t `prefix_of` t.
Proof.
  induction t as [|c t IH]; [done|]. cbn [chomp]. destruct (chomp t) as [|c' t'] eqn:E.
  - destruct (decide _); [apply prefix_nil|]. apply prefix_cons, prefix_nil.
  - by apply prefix_cons.
Qed.

Lemma chomp_app x y : chomp x = x → chomp (x ++ y) = x ++ chomp y.
Proof.
  induction x as [|c x IH]; [done|]. cbn [chomp app]. intros E.
  destruct x as [|c2 x].
  - cbn in *. destruct (decide (c = 0xFFFD%Z)); [done|]. by destruct (chomp y).
  - assert (chomp (c2 :: x) = c2 :: x) as E2.
    { destruct (chomp (c2 :: x)) as [|]; [by case_decide|]. congruence. }
    rewrite (IH E2). done.
Qed.

Lemma chomp_snoc x c : c ≠ 0xFFFD%Z → chomp (x ++ [c]) = x ++ [c].
Proof.
  intros Hc. induction x as [|d x IH]; cbn [app chomp]; [by rewrite decide_False|]. rewrite IH. by destruct x.
Qed.

Lemma endswith_last t c : endswith t [c] = true ↔ last t = Some c.
Proof.
  unfold endswith. rewrite bool_decide_eq_true. split.
  - intros [t' ->]. by rewrite last_snoc.
  - intros [t' ->]%last_Some. by exists t'.
Qed.

Lemma chomp_id t : endswith t REPLACEMENT = false → chomp t = t.
Proof.
  intros E. destruct t as [|c t _] using rev_ind; [done|]. apply chomp_snoc. intros ->.
  assert (endswith (t ++ [0xFFFD%Z]) REPLACEMENT = true) as E2 by (apply endswith_last, last_snoc). congruence.
Qed.

Lemma endswith_app x y : y ≠ [] → endswith (x ++ y) REPLACEMENT = endswith y REPLACEMENT.
Proof.
  intros Hy. apply eq_bool_prop_intro. rewrite !Is_true_true. unfold REPLACEMENT. rewrite !endswith_last, last_app.
  destruct (last y) eqn:E; [done|]. by apply last_None in E.
Qed.

(** ** The printable part *)

Definition no_cjk (t : pystr) : Prop := Forall (λ c, _is_chinese_char c = false) t.

Lemma startswith_space t : startswith t space = true ↔ head t = Some 32%Z.
Proof.
  rewrite startswith_true. unfold space. split; [by intros [t' ->]|]. destruct t as [|c t]; [done|]. intros [= ->]. by exists t.
Qed.

Lemma rfind_space t : match rfind t space with
  | Some i => t !! i = Some 32%Z ∧ ∀ j, i < j → t !! j ≠ Some 32%Z
  | None => 32%Z ∉ t
  end.
Proof.
  induction t as [|c t IH]; [apply not_elem_of_nil|]. cbn [rfind]. destruct (rfind t space) as [i|].
  - destruct IH as [Hi Hl]. split; [done|]. intros [|j] Hj; [lia|]. apply Hl. lia.
  - destruct (startswith (c :: t) space) eqn:E.
    + apply startswith_space in E. injection E as ->. split; [done|]. intros [|j] Hj; [lia|]. intros Hj2. apply IH. by eapply list_elem_of_lookup_2.
    + intros [<-|Hin]%elem_of_cons; [|done]. assert (startswith (32%Z :: t) space = true) by by apply startswith_space. congruence.
Qed.

(** The text up to the last space. *)
Definition up_to_space (t : pystr) : pystr := take (match rfind t space with Some i => i + 1 | None => 0 end) t.

Lemma up_to_space_chomp t : up_to_space t `prefix_of` chomp t.
Proof.
  unfold up_to_space. pose proof (rfind_space t) as H. destruct (rfind t space) as [i|]; [|apply prefix_nil].
  destruct H as [Hi _]. rewrite <- (take_drop_middle t i 32%Z Hi) at 2. rewrite cons_middle, app_assoc.
  rewrite chomp_app by by apply chomp_snoc. exists (chomp (drop (S i) t)). f_equal.
  rewrite Nat.add_1_r. by rewrite (take_S_r _ _ _ Hi).
Qed.

Lemma up_to_space_mono t t' : chomp t `prefix_of` t' → up_to_space t `prefix_of` up_to_space t'.
Proof.
  intros Hp. pose proof (rfind_space t) as H. unfold up_to_space at 1. destruct (rfind t space) as [i|] eqn:E; [|apply prefix_nil].
  destruct H as [Hi _].
  assert (take (i + 1) t `prefix_of` t') as Hpre.
  { etrans; [|exact Hp]. pose proof (up_to_space_chomp t) as Hu. unfold up_to_space in Hu. by rewrite E in Hu. }
  assert (t' !! i = Some 32%Z) as Hi'.
  { eapply prefix_lookup_Some; [|exact Hpre]. rewrite lookup_take_lt by lia. done. }
  unfold up_to_space. pose proof (rfind_space t') as H'. destruct (rfind t' space) as [j|].
  - assert (i ≤ j). { destruct H' as [_ H']. destruct (decide (i ≤ j)); [done|]. exfalso. apply (H' i); [lia|done]. }
    rewrite (prefix_take _ _ Hpre). pose proof (lookup_lt_Some _ _ _ Hi). rewrite length_take.
    replace ((i + 1) `min` length t) with (i + 1) by lia.
    exists (take (j - i) (drop (i + 1) t')). rewrite take_take_drop. f_equal. lia.
  - exfalso. apply H'. by eapply list_elem_of_lookup_2.
Qed.

Lemma up_to_space_spaced y : up_to_space (y ++ space) = y ++ space.
Proof.
  unfold up_to_space. pose proof (rfind_space (y ++ space)) as H. apply take_ge. rewrite length_app. cbn [length space].
  assert ((y ++ space) !! length y = Some 32%Z) as Hy by (rewrite lookup_app_r, Nat.sub_diag by lia; done).
  destruct (rfind (y ++ space) space) as [i|].
  - destruct H as [_ H]. destruct (decide (length y ≤ i)); [lia|]. exfalso. apply (H (length y)); [lia|done].
  - exfalso. apply H. by eapply list_elem_of_lookup_2.
Qed.

Lemma spaced_prefix d t w : w ++ space `prefix_of` d ++ t → w ++ space `prefix_of` d ++ up_to_space t.
Proof.
  intros Hp. destruct (decide (length (w ++ space) ≤ length d)) as [Hl|Hl].
  - destruct Hp as [k E]. apply prefix_app_r. exists (drop (length (w ++ space)) d).
    rewrite <- (take_drop (length (w ++ space)) d) at 1. f_equal.
    rewrite <- (take_app_le d t) by done. by rewrite E, take_app_length.
  - assert (∃ x, w ++ space = d ++ x ∧ x `prefix_of` t ∧ x ≠ []) as (x & E & Hx & Hne).
    { destruct Hp as [k E]. exists (drop (length d) (w ++ space)).
      assert (w ++ space = d ++ drop (length d) (w ++ space)) as Ed.
      { rewrite <- (take_drop (length d) (w ++ space)) at 1. f_equal.
        rewrite <- (take_app_le (w ++ space) k) by lia. by rewrite <- E, take_app_length. }
      split; [done|]. split.
      - exists k. rewrite Ed, <- app_assoc in E. by apply app_inv_head in E.
      - intros E0%(f_equal length). rewrite length_drop in E0. cbn in E0. lia. }
    rewrite E. apply prefix_app. destruct x as [|c y _] using rev_ind; [done|].
    assert (c = 32%Z) as ->.
    { apply (f_equal last) in E. rewrite app_assoc in E. unfold space in E. rewrite !last_snoc in E. congruence. }
    pose proof (up_to_space_spaced y) as Ey. unfold space in Ey. rewrite <- Ey. apply up_to_space_mono. by rewrite chomp_snoc.
Qed.

(** Of a text that ends in the middle of a character. *)
Lemma printable_incomplete t : endswith t REPLACEMENT = true → find_printable_text t `prefix_of` chomp t.
Proof.
  intros E. unfold REPLACEMENT in E. apply endswith_last in E as E2. unfold find_printable_text.
  assert (endswith t newline = false) as ->.
  { destruct (endswith t newline) eqn:En; [|done]. apply endswith_last in En. congruence. }
  rewrite E2. cbn [from_option]. change (_is_chinese_char 65533) with false. rewrite andb_false_r.
  destruct (bool_decide _ && _) eqn:Ec; [|apply up_to_space_chomp].
  apply andb_true_iff in Ec as [Hl Hc]. apply bool_decide_eq_true in Hl. apply last_Some in E2 as [t' ->].
  rewrite length_app in *. cbn [length] in *. destruct t' as [|c t' _] using rev_ind; [cbn in Hl; lia|].
  assert (length (t' ++ [c]) = S (length t')) as Hlen by (rewrite length_app; cbn; lia).
  assert (((t' ++ [c]) ++ [0xFFFD%Z]) !! length t' = Some c) as Hpen.
  { rewrite lookup_app_l, lookup_app_r, Nat.sub_diag by lia. done. }
  replace (length (t' ++ [c]) + 1 - 2) with (length t') in Hc by lia. unfold pystr in *. rewrite Hpen in Hc. cbn in Hc.
  replace (length (t' ++ [c]) + 1 - 1) with (length (t' ++ [c])) by lia.
  rewrite chomp_app; [|apply chomp_snoc; by intros ->]. rewrite take_app_length. by apply prefix_app_r.
Qed.

Lemma printable_no_cjk t : endswith t REPLACEMENT = true → no_cjk t → find_printable_text t = up_to_space t.
Proof.
  intros E N. unfold REPLACEMENT in E. apply endswith_last in E as E2. unfold find_printable_text, no_cjk in *.
  assert (endswith t newline = false) as ->.
  { destruct (endswith t newline) eqn:En; [|done]. apply endswith_last in En. congruence. }
  rewrite E2. cbn [from_option]. change (_is_chinese_char 65533) with false. rewrite andb_false_r.
  destruct (t !! (length t - 2)) as [c|] eqn:Ec; cbn [from_option].
  - rewrite Forall_lookup in N. by rewrite (N _ _ Ec), andb_false_r.
  - by rewrite andb_false_r.
Qed.

(** ** The tokenizer *)

Definition complete (dec : list Z → pystr) (ids : list Z) : Prop := endswith (dec ids) REPLACEMENT = false.

(** More tokens do not change the text before the replacement characters at its end; and when
    the text of [p] and of [p ++ q] ends with a character and [q] has a text of its own, what
    [r] adds after [p ++ q] is what it adds after [q]. *)
Record tokenizer_laws (dec : list Z → pystr) : Prop := {
  tl_stable : ∀ p q, chomp (dec p) `prefix_of` dec (p ++ q);
  tl_window : ∀ p q r, complete dec p → complete dec (p ++ q) → length (dec p) < length (dec (p ++ q)) →
    dec (p ++ q ++ r) = dec (p ++ q) ++ drop (length (dec q)) (dec (q ++ r))
}.

Section request.
Context (dec : list Z → pystr) (Hdec : tokenizer_laws dec).

(** The text that the tokens [o] add to the context [p0], the end of the prompt. *)
Definition new_text_of (p0 o : list Z) : pystr := drop (length (dec p0)) (dec (p0 ++ o)).

Lemma complete_prefix p q : complete dec p → dec p `prefix_of` dec (p ++ q).
Proof. intros Hc. rewrite <- (chomp_id (dec p) Hc) at 1. by apply Hdec. Qed.

(** The state of a request with the context [p0] and the tokens [o], of which the text [sent]
    has been sent. *)
Record status_ok (p0 o : list Z) (sent : pystr) (s : DecodeStatus) : Prop := {
  so_ids : decode_ids s = p0 ++ o;
  so_order : st_surr_offset s ≤ st_read_offset s ≤ length (p0 ++ o);
  so_window : ∀ r, dec (take (st_read_offset s) (p0 ++ o) ++ r) = dec (take (st_read_offset s) (p0 ++ o)) ++
    drop (length (dec (slice (st_surr_offset s) (st_read_offset s) (p0 ++ o)))) (dec (slice (st_surr_offset s) (st_read_offset s) (p0 ++ o) ++ r));
  so_complete : complete dec (take (st_read_offset s) (p0 ++ o));
  so_text : dec (take (st_read_offset s) (p0 ++ o)) = dec p0 ++ st_decoded_text s;
  so_sent : sent_offset s = length sent;
  so_stable : dec p0 ++ sent `prefix_of` chomp (dec (p0 ++ o));
  (** What was sent is all the text, which is decoded, or the decoded text with the whole
      words of a rest that ends in the middle of a character. *)
  so_shape : (sent = st_decoded_text s ∧ dec (p0 ++ o) = dec p0 ++ sent) ∨
    (no_cjk (dec (p0 ++ o)) ∧ ∃ rest, dec (p0 ++ o) = dec p0 ++ st_decoded_text s ++ rest ∧
       endswith rest REPLACEMENT = true ∧ sent = st_decoded_text s ++ up_to_space rest)
}.

(** A chunk ends with a character, or the text has no Chinese characters. *)
Definition calm (p0 o : list Z) : Prop := complete dec (p0 ++ o) ∨ no_cjk (dec (p0 ++ o)).

Lemma slice_prefix {A} i j (xs ys : list A) : j ≤ length xs → slice i j (xs ++ ys) = slice i j xs.
Proof.
  intros Hj. unfold slice. destruct (decide (i ≤ length xs)) as [Hi|Hi].
  - rewrite drop_app_le by done. rewrite take_app_le; [done|]. rewrite length_drop. lia.
  - replace (j - i) with 0 by lia. done.
Qed.

Lemma slice_drop {A} i j (xs : list A) : i ≤ j → slice i j xs ++ drop j xs = drop i xs.
Proof. intros Hij. unfold slice. rewrite <- (take_drop (j - i) (drop i xs)) at 2. f_equal. rewrite drop_drop. f_equal. lia. Qed.

Lemma take_slice {A} i j (xs : list A) : i ≤ j → take i xs ++ slice i j xs = take j xs.
Proof. intros Hij. unfold slice. rewrite take_take_drop. f_equal. lia. Qed.

(** The text of more tokens: what is decoded, then what the window shows. *)
Lemma window_text p0 o c sent s : status_ok p0 o sent s →
  let ids := p0 ++ o ++ c in
  let new_text := drop (length (dec (slice (st_surr_offset s) (st_read_offset s) ids))) (dec (drop (st_surr_offset s) ids)) in
  dec ids = dec p0 ++ st_decoded_text s ++ new_text.
Proof.
  intros [Hi [Ho1 Ho2] Hw Hc Ht _ _ _]. cbn zeta. rewrite app_assoc. rewrite (slice_prefix _ _ (p0 ++ o) c) by done.
  rewrite <- (slice_drop (st_surr_offset s) (st_read_offset s) ((p0 ++ o) ++ c)) by done. rewrite (slice_prefix _ _ (p0 ++ o) c) by done.
  rewrite app_assoc, <- Ht, <- Hw. f_equal. rewrite <- (take_app_le (p0 ++ o) c (st_read_offset s) Ho2). by rewrite take_drop.
Qed.

(** What was sent stays the beginning of the text. *)
Lemma sent_prefix p0 o c sent s : status_ok p0 o sent s → sent `prefix_of` new_text_of p0 (o ++ c).
Proof.
  intros [_ _ _ _ _ _ Hst _]. destruct Hst as [x Hx]. destruct (tl_stable dec Hdec (p0 ++ o) c) as [y Hy].
  exists (x ++ y). unfold new_text_of. rewrite app_assoc, Hy, Hx, <- !app_assoc. by rewrite drop_app_length.
Qed.

Lemma first_status p0 : complete dec p0 → status_ok p0 [] [] (MkStatus [] p0 0 (length p0) 0).
Proof.
  intros Hc. split; cbn; rewrite ?app_nil_r.
  - done.
  - lia.
  - intros r. unfold slice. rewrite drop_0, Nat.sub_0_r, firstn_all. destruct (complete_prefix p0 r Hc) as [x Hx].
    rewrite Hx at 2. by rewrite drop_app_length, Hx.
  - by rewrite firstn_all.
  - by rewrite firstn_all.
  - done.
  - by rewrite (chomp_id _ Hc).
  - by left.
Qed.

Lemma take_more (p0 o c : list Z) n : n ≤ length (p0 ++ o) → take n (p0 ++ o ++ c) = take n (p0 ++ o).
Proof. intros Hn. rewrite app_assoc. by apply take_app_le. Qed.

Lemma slice_more (p0 o c : list Z) i j : j ≤ length (p0 ++ o) → slice i j (p0 ++ o ++ c) = slice i j (p0 ++ o).
Proof. intros Hj. rewrite app_assoc. by apply slice_prefix. Qed.

(** The text is complete: it is decoded, and the window moves on. *)
Lemma text_flush_ok p0 o c sent s new : status_ok p0 o sent s → dec (p0 ++ o ++ c) = dec p0 ++ st_decoded_text s ++ new →
  new ≠ [] → endswith new REPLACEMENT = false →
  status_ok p0 (o ++ c) (st_decoded_text s ++ new)
    (MkStatus (st_decoded_text s ++ new) (p0 ++ o ++ c) (st_read_offset s) (length (p0 ++ o ++ c)) (length (st_decoded_text s ++ new))).
Proof.
  intros [Hi [Ho1 Ho2] Hw Hc Ht Hso Hst Hsh] Hwt Hne He. set (ids := p0 ++ o ++ c) in *.
  assert (length (p0 ++ o) ≤ length ids) as Hle by (unfold ids; rewrite app_assoc, (length_app (p0 ++ o)); lia).
  assert (complete dec ids) as Hcomp by (unfold complete; rewrite Hwt, !endswith_app; [done|done|by destruct (st_decoded_text s)]).
  pose proof (take_more p0 o c _ Ho2) as Htake. fold ids in Htake.
  split; cbn [decode_ids st_surr_offset st_read_offset st_decoded_text sent_offset]; fold ids; rewrite ?firstn_all.
  - done.
  - lia.
  - intros r. assert (slice (st_read_offset s) (length ids) ids = drop (st_read_offset s) ids) as ->.
    { unfold slice. rewrite take_ge; [done|]. by rewrite length_drop. }
    rewrite <- (take_drop (st_read_offset s) ids) at 1. rewrite <- app_assoc.
    rewrite (tl_window dec Hdec); rewrite ?take_drop; [done|by rewrite Htake|done|].
    rewrite Htake, Ht, Hwt, app_assoc, (length_app _ new). destruct new; [done|cbn; lia].
  - done.
  - by rewrite Hwt.
  - done.
  - by rewrite <- Hwt, chomp_id.
  - by left.
Qed.

Lemma printable_nil : find_printable_text [] = [].
Proof. reflexivity. Qed.

(** It is not: the whole words are sent, and the state waits for more. *)
Lemma wait_ok p0 o c sent s new : status_ok p0 o sent s → dec (p0 ++ o ++ c) = dec p0 ++ st_decoded_text s ++ new →
  new = [] ∨ endswith new REPLACEMENT = true → calm p0 (o ++ c) →
  sent `prefix_of` st_decoded_text s ++ find_printable_text new ∧
  status_ok p0 (o ++ c) (st_decoded_text s ++ find_printable_text new)
    (MkStatus (st_decoded_text s) (p0 ++ o ++ c) (st_surr_offset s) (st_read_offset s) (length (st_decoded_text s ++ find_printable_text new))).
Proof.
  intros [Hi [Ho1 Ho2] Hw Hc Ht Hso Hst Hsh] Hwt Hnew Hcalm. set (ids := p0 ++ o ++ c) in *.
  assert (length (p0 ++ o) ≤ length ids) as Hle by (unfold ids; rewrite app_assoc, (length_app (p0 ++ o)); lia).
  assert (∀ x, chomp (dec p0 ++ st_decoded_text s ++ x) = dec p0 ++ st_decoded_text s ++ chomp x) as Hchomp.
  { intros x. rewrite !app_assoc. apply chomp_app. rewrite <- Ht. by apply chomp_id. }
  assert (find_printable_text new = up_to_space new ∧ (new ≠ [] → no_cjk (dec ids))) as [Hpr Hnc].
  { destruct Hnew as [->|He]; [done|]. assert (new ≠ []) as Hne by by intros ->.
    assert (no_cjk (dec ids)) as Hn.
    { destruct Hcalm as [Hcm|]; [|done]. unfold complete in Hcm. fold ids in Hcm.
      rewrite Hwt, !endswith_app in Hcm by (try done; by destruct (st_decoded_text s)). congruence. }
    split; [|done]. apply printable_no_cjk; [done|]. unfold no_cjk in *. rewrite Hwt in Hn. by apply Forall_app in Hn as [_ [_ Hn]%Forall_app]. }
  split.
  - rewrite Hpr. destruct Hsh as [[-> _]|(Hn & rest & Hrest & _ & ->)]; [by apply prefix_app_r|]. apply prefix_app, up_to_space_mono.
    destruct (tl_stable dec Hdec (p0 ++ o) c) as [x Hx]. rewrite Hrest, Hchomp, <- app_assoc in Hx. fold ids in Hx. rewrite Hwt, <- !app_assoc in Hx.
    apply app_inv_head, app_inv_head in Hx. by exists x.
  - split; cbn [decode_ids st_surr_offset st_read_offset st_decoded_text sent_offset]; fold ids.
    + done.
    + lia.
    + intros r. unfold ids. rewrite take_more, slice_more by done. apply Hw.
    + unfold ids. by rewrite take_more.
    + unfold ids. by rewrite take_more.
    + done.
    + rewrite Hwt, Hchomp. apply prefix_app, prefix_app. destruct Hnew as [->|He]; [apply prefix_nil|]. by apply printable_incomplete.
    + destruct (decide (new = [])) as [->|Hne].
      * left. rewrite printable_nil. by rewrite Hwt, app_nil_r.
      * right. split; [by apply Hnc|]. exists new. split_and!; [done|by destruct Hnew|by rewrite <- Hpr].
Qed.

(** A chunk that is not the last. *)
Lemma stream_chunk p0 o c sent s row : status_ok p0 o sent s → out_finished_reason row = None → calm p0 (o ++ c) →
  let s1 := extend_ids c s in
  let read := drop (st_surr_offset s1) (decode_ids s1) in
  let surr := slice (st_surr_offset s1) (st_read_offset s1) (decode_ids s1) in
  let '(out, s') := incremental row (drop (length (dec surr)) (dec read)) s1 in
  status_ok p0 (o ++ c) (sent ++ out) s'.
Proof.
  intros Hs Hr Hcalm. pose proof (window_text p0 o c sent s Hs) as Hwt. pose proof (sent_prefix p0 o c sent s Hs) as Hsp.
  unfold new_text_of in Hsp. cbn zeta in Hwt.
  pose proof (so_ids _ _ _ _ Hs) as Hi. pose proof (so_sent _ _ _ _ Hs) as Hso.
  cbn [extend_ids decode_ids st_surr_offset st_read_offset]. rewrite Hi, <- app_assoc.
  set (new := drop _ (dec (drop _ (p0 ++ o ++ c)))) in *. rewrite Hwt, drop_app_length in Hsp.
  unfold incremental. rewrite Hr. cbn [extend_ids st_decoded_text st_surr_offset st_read_offset sent_offset decode_ids].
  unfold trim_matched_stop_str. cbn [has_reason negb]. rewrite orb_true_r, Hso, Hi, <- app_assoc.
  destruct (bool_decide _ && _) eqn:Ef.
  - apply andb_true_iff in Ef as [Hl He]. apply bool_decide_eq_true in Hl. apply negb_true_iff in He.
    rewrite app_nil_r. rewrite <- (prefix_app_drop _ _ Hsp). apply (text_flush_ok p0 o c sent s new); [done|done| |done]. by intros E; rewrite E in Hl; cbn in Hl; lia.
  - destruct (wait_ok p0 o c sent s new Hs Hwt) as [Hpre Hok]; [|done|].
    + apply andb_false_iff in Ef as [Hl|He]; [left|right; by apply negb_false_iff].
      apply bool_decide_eq_false in Hl. apply length_zero_iff_nil. lia.
    + by rewrite <- (prefix_app_drop _ _ Hpre).
Qed.

(** ** What has been sent of the tokens [o]

    It is the beginning of their text, whatever tokens follow; all of it when that ends with a
    character; and every word of it that a space ends. *)

Record sent_so_far (p0 o : list Z) (text : pystr) : Prop := {
  ss_prefix : ∀ more, text `prefix_of` new_text_of p0 (o ++ more);
  ss_all : complete dec (p0 ++ o) → text = new_text_of p0 o;
  ss_words : ∀ words, words ++ space `prefix_of` new_text_of p0 o → words ++ space `prefix_of` text
}.

Lemma status_sent p0 o sent s : status_ok p0 o sent s → sent_so_far p0 o sent.
Proof.
  intros Hs. pose proof Hs as [_ _ _ _ _ _ _ Hsh]. split; unfold new_text_of.
  - intros more. by apply (sent_prefix p0 o more sent s Hs).
  - intros Hc. destruct Hsh as [[_ ->]|(_ & rest & E & He & _)]; [by rewrite drop_app_length|]. exfalso.
    unfold complete in Hc. assert (rest ≠ []) by by intros ->.
    rewrite E, !endswith_app in Hc by (try done; by destruct (st_decoded_text s)). congruence.
  - intros w. destruct Hsh as [[_ ->]|(_ & rest & -> & _ & ->)]; rewrite drop_app_length; [done|]. apply spaced_prefix.
Qed.

(** ** The last chunk *)

(** A stop token can only be cut off a chunk that has one. *)
Definition cuttable (c : list Z) (reason : json) : Prop := c ≠ [] ∨ ∀ n, get_matched (Some reason) ≠ JInt n.

Lemma trim_ids_app c reason nst : cuttable c reason →
  ∃ c', ∀ xs, trim_matched_stop_ids (xs ++ c) (Some reason) nst = Ok (xs ++ c').
Proof.
  intros Hc. unfold trim_matched_stop_ids. destruct (nst || _); [by exists c|]. destruct (negb _); [by exists c|].
  destruct (get_matched (Some reason)) as [n| | |] eqn:E; try by exists c.
  destruct Hc as [Hc|Hc]; [|by destruct (Hc n)]. destruct c as [|x c _] using rev_ind; [done|]. exists c. intros xs.
  rewrite decide_True by (rewrite !length_app; cbn; lia). rewrite app_assoc, (length_app _ [x]). cbn [length].
  by rewrite Nat.add_sub, take_app_length.
Qed.

Lemma last_chunk p0 o c sent s row reason : status_ok p0 o sent s → out_finished_reason row = Some reason → cuttable c reason →
  let s1 := extend_ids c s in
  let surr := slice (st_surr_offset s1) (st_read_offset s1) (decode_ids s1) in
  ∃ o' read, trim_matched_stop_ids (o ++ c) (Some reason) (out_no_stop_trim row) = Ok o' ∧
    trim_matched_stop_ids (drop (st_surr_offset s1) (decode_ids s1)) (Some reason) (out_no_stop_trim row) = Ok read ∧
    sent `prefix_of` new_text_of p0 o' ∧
    (incremental row (drop (length (dec surr)) (dec read)) s1).1 =
      drop (length sent) (trim_matched_stop_str (new_text_of p0 o') (Some reason) (out_no_stop_trim row)).
Proof.
  intros Hs Hr Hcut. destruct (trim_ids_app c reason (out_no_stop_trim row) Hcut) as [c' Hc'].
  pose proof (window_text p0 o c' sent s Hs) as Hwt. cbn zeta in Hwt.
  pose proof Hs as [Hi [Ho1 Ho2] _ _ _ Hso _ _].
  cbn [extend_ids decode_ids st_surr_offset st_read_offset]. rewrite Hi, <- app_assoc.
  exists (o ++ c'), (drop (st_surr_offset s) (p0 ++ o ++ c')). split_and!.
  - apply Hc'.
  - rewrite (app_assoc p0 o c), (app_assoc p0 o c'), !(drop_app_le (p0 ++ o)) by lia. apply Hc'.
  - by eapply sent_prefix.
  - unfold incremental. rewrite Hr. cbn [extend_ids st_decoded_text sent_offset fst]. rewrite Hso. do 2 f_equal.
    unfold new_text_of. rewrite slice_more in * by done. by rewrite Hwt, drop_app_length.
Qed.
End request.
