(* ===== verification/DetokBatch.v ===== *)
(** * Batches of chunks

    The detokenizer treats the requests of a batch alike and apart: what it does with the rows
    of one request depends on them alone, as long as the dictionary has room. *)

From S2P Require Import Prelude PyStr Sampling Req Detokenizer DetokText.

Open Scope nat_scope.

Section batch.
Context (decode : bool → bool → list Z → pystr) (capacity : nat) (skip spaces : bool).
Notation dec := (decode skip spaces).
Notation Dict := (list (pystr * DecodeStatus)).
Implicit Types (d : Dict) (rows : list BatchTokenIDOut).

(** ** One row *)

Definition opened (row : BatchTokenIDOut) (ms : option DecodeStatus) : DecodeStatus :=
  match ms with None => new_status row | Some s => extend_ids (out_decode_ids row) s end.

Definition to_decode (row : BatchTokenIDOut) (s : DecodeStatus) : result (list Z * list Z) :=
  read ← trim_matched_stop_ids (drop (st_surr_offset s) (decode_ids s)) (out_finished_reason row) (out_no_stop_trim row);
  Ok (read, slice (st_surr_offset s) (st_read_offset s) (decode_ids s)).

Definition row_step (row : BatchTokenIDOut) (ms : option DecodeStatus) : result (pystr * DecodeStatus) :=
  '(read, surr) ← to_decode row (opened row ms);
  Ok (incremental row (drop (length (dec surr)) (dec read)) (opened row ms)).

(** All the rows of one request. *)
Fixpoint run_rows (rows : list BatchTokenIDOut) (ms : option DecodeStatus) : result (list pystr * option DecodeStatus) :=
  match rows with
  | [] => Ok ([], ms)
  | row :: rows =>
      '(out, s) ← row_step row ms;
      '(outs, ms) ← run_rows rows (Some s);
      Ok (out :: outs, ms)
  end.

(** ** One message *)

(** The keys of [d] and the new ones. *)
Definition fits_in d (rids : list pystr) : Prop := ∃ keys, (∀ k, k ∈ d.*1 ∨ k ∈ rids → k ∈ keys) ∧ length keys ≤ capacity.

Lemma fits_in_set d k v rids : k ∈ rids ∨ k ∈ d.*1 → fits_in d rids → fits_in (dict_set k v d) rids.
Proof.
  intros Hk (keys & Hkeys & HL). exists keys. split; [|done]. intros k' [Hk'%dict_keys_set|Hk']; [|by apply Hkeys; right].
  destruct Hk' as [->|]; apply Hkeys; tauto.
Qed.

Lemma limited_set_ok d k v rids : NoDup d.*1 → fits_in d rids → k ∈ rids → dict_get k d = None →
  limited_set capacity k v d = Ok (dict_set k v d).
Proof.
  intros ND (keys & Hkeys & HL) Hk Hg. unfold limited_set. rewrite decide_False; [done|].
  apply dict_get_None in Hg. assert (length (k :: d.*1) ≤ length keys) as Hle.
  { apply submseteq_length, NoDup_submseteq; [by constructor|]. set_solver. }
  cbn in Hle. rewrite length_fmap in Hle. lia.
Qed.

Lemma init_statuses_ok rows d : NoDup d.*1 → NoDup (out_rid <$> rows) → fits_in d (out_rid <$> rows) →
  ∀ ids, Forall2 (λ row i, to_decode row (opened row (dict_get (out_rid row) d)) = Ok i) rows ids →
  ∃ d', init_statuses capacity rows d = (Ok ids, d') ∧ NoDup d'.*1 ∧
    (∀ k, k ∈ d'.*1 ↔ k ∈ d.*1 ∨ k ∈ out_rid <$> rows) ∧
    (∀ row, row ∈ rows → dict_get (out_rid row) d' = Some (opened row (dict_get (out_rid row) d))) ∧
    ∀ k, k ∉ out_rid <$> rows → dict_get k d' = dict_get k d.
Proof.
  intros ND NDr Hf ids HF. revert d ND Hf HF. revert ids. induction rows as [|row rows IH]; intros ids d ND Hf HF.
  { apply Forall2_nil_inv_l in HF as ->. exists d. split_and!; [done|done|set_solver|set_solver|done]. }
  apply Forall2_cons_inv_l in HF as (i & ids' & Hi & HF' & ->). cbn [fmap list_fmap] in NDr, Hf. apply NoDup_cons in NDr as [Hn NDr].
  set (s := opened row (dict_get (out_rid row) d)) in *. set (d1 := dict_set (out_rid row) s d).
  assert (fits_in d1 (out_rid <$> rows)) as Hf1.
  { destruct (fits_in_set d (out_rid row) s _ ltac:(left; left) Hf) as (keys & Hkeys & HL). exists keys. split; [|done].
    intros k [Hk|Hk]; apply Hkeys; [by left|right; by right]. }
  destruct (IH NDr ids' d1 (dict_set_NoDup _ _ _ ND) Hf1) as (d' & E & ND' & Hkeys & Hin & Hout).
  { eapply Forall2_impl_in; [exact HF'|]. intros row' i' Hrow Hr. unfold d1. rewrite dict_get_set_ne; [done|].
    intros Heq. apply Hn. rewrite <- Heq. by apply list_elem_of_fmap_2. }
  exists d'. split; [|split; [done|split; [|split]]].
  - cbn [init_statuses]. unfold to_decode in Hi. unfold s, opened in Hi, d1, s.
    destruct (dict_get (out_rid row) d) as [s0|] eqn:Eg; cbn [st_surr_offset st_read_offset decode_ids] in *.
    + destruct (trim_matched_stop_ids _ _ _) as [read|]; [|done]. cbn in Hi. injection Hi as <-. by rewrite (run_bind _ _ _ _ _ E).
    + rewrite (limited_set_ok d _ _ (out_rid row :: (out_rid <$> rows)) ND Hf ltac:(left) Eg).
      destruct (trim_matched_stop_ids _ _ _) as [read|]; [|done]. cbn in Hi. injection Hi as <-. by rewrite (run_bind _ _ _ _ _ E).
  - intros k. rewrite Hkeys. unfold d1. rewrite dict_keys_set. cbn. set_solver.
  - intros row' [->|Hr]%elem_of_cons.
    + rewrite Hout by done. apply dict_get_set_eq.
    + rewrite (Hin row' Hr). unfold d1. rewrite dict_get_set_ne; [done|]. intros Heq. apply Hn. rewrite <- Heq. by apply list_elem_of_fmap_2.
  - intros k Hk. cbn in Hk. rewrite Hout by set_solver. apply dict_get_set_ne. set_solver.
Qed.

Lemma incremental_decode_ok rows texts d : NoDup d.*1 → NoDup (out_rid <$> rows) → length texts = length rows →
  (∀ row, row ∈ rows → is_Some (dict_get (out_rid row) d)) →
  ∃ outs d', incremental_decode rows texts d = (Ok outs, d') ∧ NoDup d'.*1 ∧ length outs = length rows ∧
    (∀ k, k ∈ d'.*1 ↔ k ∈ d.*1) ∧ (∀ k, k ∉ out_rid <$> rows → dict_get k d' = dict_get k d) ∧
    ∀ i row t s, rows !! i = Some row → texts !! i = Some t → dict_get (out_rid row) d = Some s →
      outs !! i = Some (incremental row (drop (length t.2) t.1) s).1 ∧
      dict_get (out_rid row) d' = Some (incremental row (drop (length t.2) t.1) s).2.
Proof.
  intros ND NDr HL Hall. revert texts d ND HL Hall. induction rows as [|row rows IH]; intros [|[read surr] texts] d ND HL Hall; try done.
  { exists [], d. split_and!; done. }
  cbn [fmap list_fmap] in NDr. apply NoDup_cons in NDr as [Hn NDr]. destruct (Hall row ltac:(left)) as [s0 Hs0].
  assert (∀ row', row' ∈ rows → out_rid row' ≠ out_rid row) as Hdiff.
  { intros row' Hr Heq. apply Hn. rewrite <- Heq. by apply list_elem_of_fmap_2. }
  cbn [incremental_decode]. rewrite Hs0. destruct (incremental row (drop (length surr) read) s0) as [out s1] eqn:Ei.
  destruct (IH NDr texts (dict_set (out_rid row) s1 d) (dict_set_NoDup _ _ _ ND)) as (outs & d' & E & ND' & Ho & Hk & Hout & Hin).
  { by injection HL. }
  { intros row' Hr. rewrite dict_get_set_ne by by apply Hdiff. apply Hall. by right. }
  exists (out :: outs), d'. split; [by rewrite (run_bind _ _ _ _ _ E)|]. split_and!; [done|cbn; lia| | |].
  - intros k. rewrite Hk, dict_keys_set. split; [|tauto]. intros [->|]; [|done].
    apply dict_get_elem in Hs0. by apply (list_elem_of_fmap_2 fst) in Hs0.
  - intros k Hkn. rewrite fmap_cons in Hkn. rewrite Hout by set_solver. apply dict_get_set_ne. set_solver.
  - intros [|i] row' t s Hr Ht Hs; cbn in Hr, Ht.
    + simplify_eq. cbn [fst snd]. rewrite Ei. split; [done|]. rewrite Hout by done. apply dict_get_set_eq.
    + apply (Hin i row' t s Hr Ht). rewrite dict_get_set_ne; [done|]. apply Hdiff. by eapply list_elem_of_lookup_2.
Qed.

Definition flags_ok (row : BatchTokenIDOut) : Prop :=
  out_skip_special_tokens row = skip ∧ out_spaces_between_special_tokens row = spaces.

Lemma handle_batch_ok rows d rs : rows ≠ [] → NoDup d.*1 → NoDup (out_rid <$> rows) → fits_in d (out_rid <$> rows) →
  Forall flags_ok rows → Forall2 (λ row r, row_step row (dict_get (out_rid row) d) = Ok r) rows rs →
  ∃ d', handle_batch_token_id_out decode capacity rows d = (Ok rs.*1, d') ∧ NoDup d'.*1 ∧
    (∀ k, k ∈ d'.*1 ↔ k ∈ d.*1 ∨ k ∈ out_rid <$> rows) ∧
    Forall2 (λ row r, dict_get (out_rid row) d' = Some r.2) rows rs ∧
    ∀ k, k ∉ out_rid <$> rows → dict_get k d' = dict_get k d.
Proof.
  intros Hne ND NDr Hf Hflags HF.
  assert (∃ ids, Forall2 (λ row i, to_decode row (opened row (dict_get (out_rid row) d)) = Ok i) rows ids ∧
    Forall2 (λ ri r, r = incremental ri.1 (drop (length (dec ri.2.2)) (dec ri.2.1)) (opened ri.1 (dict_get (out_rid ri.1) d))) (zip rows ids) rs)
    as (ids & HF1 & HF2).
  { clear -HF. induction HF as [|row r rows rs Hr _ (ids & H1 & H2)]; [exists []; by split; constructor|].
    unfold row_step in Hr. destruct (to_decode row _) as [[read surr]|] eqn:Et; [|done]. cbn in Hr. injection Hr as <-.
    exists ((read, surr) :: ids). split; by constructor. }
  pose proof (Forall2_length _ _ _ HF1) as L1.
  destruct (init_statuses_ok rows d ND NDr Hf ids HF1) as (d1 & E1 & ND1 & Hk1 & Hin1 & Hout1).
  destruct (incremental_decode_ok rows ((λ '(read, surr), (dec read, dec surr)) <$> ids) d1 ND1 NDr) as (outs & d2 & E2 & ND2 & L2 & Hk2 & Hout2 & Hin2).
  { by rewrite length_fmap. }
  { intros row Hr. rewrite (Hin1 row Hr). by eexists. }
  assert (∀ i row r, rows !! i = Some row → rs !! i = Some r → outs !! i = Some r.1 ∧ dict_get (out_rid row) d2 = Some r.2) as Hat.
  { intros i row r Hr Hrs. destruct (lookup_lt_is_Some_2 ids i) as [[read surr] Hi]; [rewrite <- L1; by eapply lookup_lt_Some|].
    assert (zip rows ids !! i = Some (row, (read, surr))) as Hz by (apply lookup_zip_with_Some; by eexists _, _).
    pose proof (Forall2_lookup_lr _ _ _ _ _ _ HF2 Hz Hrs) as ->. cbn [fst snd].
    apply (Hin2 i row (dec read, dec surr)); [done|by rewrite list_lookup_fmap, Hi|]. apply Hin1. by eapply list_elem_of_lookup_2. }
  pose proof (Forall2_length _ _ _ HF) as L.
  exists d2. split; [|split_and!; [done| | |]].
  - unfold handle_batch_token_id_out. rewrite (run_bind _ _ _ _ _ E1). destruct rows as [|row rows']; [done|].
    apply Forall_cons in Hflags as [[-> ->] _]. rewrite E2. f_equal. f_equal. apply list_eq. intros i. rewrite list_lookup_fmap.
    destruct (rs !! i) as [r|] eqn:Hr; cbn.
    + destruct (lookup_lt_is_Some_2 (row :: rows') i) as [row' Hrow]; [rewrite L; by eapply lookup_lt_Some|]. by apply (Hat i row' r).
    + apply lookup_ge_None in Hr. apply lookup_ge_None. lia.
  - intros k. by rewrite Hk2, Hk1.
  - apply Forall2_same_length_lookup_2; [done|]. intros i row r Hr Hrs. by apply (Hat i row r).
  - intros k Hk. by rewrite Hout2, Hout1.
Qed.

(** ** All messages *)

(** The rows of a request, and what was sent for them. *)
Definition rows_of (k : pystr) (messages : list (list BatchTokenIDOut)) : list BatchTokenIDOut :=
  concat ((λ m : list BatchTokenIDOut, filter (λ row, out_rid row = k) m) <$> messages).
Definition sent_in (k : pystr) (m : list BatchTokenIDOut) (out : list pystr) : list pystr :=
  snd <$> filter (λ p, out_rid p.1 = k) (zip m out).
Definition sent_to (k : pystr) (messages : list (list BatchTokenIDOut)) (outs : list (list pystr)) : list pystr :=
  concat (zip_with (sent_in k) messages outs).

Definition message_ok (m : list BatchTokenIDOut) : Prop := m ≠ [] ∧ NoDup (out_rid <$> m) ∧ Forall flags_ok m.

(** A request has at most one row in a message. *)
Lemma one_row (k : pystr) (m : list BatchTokenIDOut) (rs : list (pystr * DecodeStatus)) : NoDup (out_rid <$> m) → length rs = length m →
  (k ∉ out_rid <$> m ∧ filter (λ row, out_rid row = k) m = [] ∧ sent_in k m rs.*1 = []) ∨
  ∃ i row r, m !! i = Some row ∧ rs !! i = Some r ∧ out_rid row = k ∧ filter (λ row, out_rid row = k) m = [row] ∧ sent_in k m rs.*1 = [r.1].
Proof.
  revert rs. induction m as [|row m IH]; intros [|r rs] ND HL; try done.
  { left. split_and!; [apply not_elem_of_nil|done|done]. }
  cbn [fmap list_fmap] in ND. apply NoDup_cons in ND as [Hn ND]. injection HL as HL.
  assert (sent_in k (row :: m) (r :: rs).*1 = if decide (out_rid row = k) then r.1 :: sent_in k m rs.*1 else sent_in k m rs.*1) as Hsent.
  { unfold sent_in. cbn [fmap list_fmap zip zip_with]. rewrite filter_cons. cbn [fst]. by destruct (decide _). }
  rewrite filter_cons, Hsent. destruct (IH rs ND HL) as [(Hk & Hf & Hs)|(i & row' & r' & Hr & Hr' & Hk & Hf & Hs)].
  - rewrite Hf, Hs. destruct (decide (out_rid row = k)) as [E|Hne].
    + right. by exists 0, row, r.
    + left. split_and!; [|done|done]. intros [->|?]%elem_of_cons; done.
  - assert (out_rid row ≠ k) as Hne.
    { intros E. apply Hn. rewrite E, <- Hk. apply list_elem_of_fmap_2. by eapply list_elem_of_lookup_2. }
    right. rewrite Hf, Hs, !decide_False by done. by exists (S i), row', r'.
Qed.

Lemma event_loop_ok messages d : Forall message_ok messages → NoDup d.*1 → fits_in d (out_rid <$> concat messages) →
  (∀ k, ∃ out ms, run_rows (rows_of k messages) (dict_get k d) = Ok (out, ms)) →
  ∃ outs d', event_loop decode capacity messages d = (Ok outs, d') ∧
    ∀ k out ms, run_rows (rows_of k messages) (dict_get k d) = Ok (out, ms) → sent_to k messages outs = out.
Proof.
  intros HF. revert d. induction HF as [|m messages [Hne [NDm Hflags]] _ IH]; intros d ND Hfit Hruns.
  { exists [], d. split; [done|]. intros k out ms [= <- <-]. done. }
  assert (∃ rs, Forall2 (λ row r, row_step row (dict_get (out_rid row) d) = Ok r) m rs) as (rs & Hrs).
  { apply Forall_exists_Forall2_l, Forall_forall. intros row Hrow. destruct (Hruns (out_rid row)) as (out & ms & E).
    destruct (one_row (out_rid row) m ((λ _, ([], MkStatus [] [] 0 0 0)) <$> m) NDm) as [(Hk & _)|(i & row' & _ & Hi & _ & Hk & Hf & _)]; [by rewrite length_fmap| |].
    { exfalso. apply Hk. by apply list_elem_of_fmap_2. }
    assert (row' = row) as ->. { apply (f_equal (λ l, row ∈ l)) in Hf. symmetry. apply list_elem_of_singleton. rewrite <- Hf. by apply list_elem_of_filter. }
    unfold rows_of in E. cbn [fmap list_fmap concat] in E. rewrite Hf in E. cbn [app run_rows] in E.
    destruct (row_step row _) as [r|]; [by eexists|done]. }
  pose proof (Forall2_length _ _ _ Hrs) as Lrs. cbn [concat] in Hfit. rewrite fmap_app in Hfit.
  destruct (handle_batch_ok m d rs Hne ND NDm) as (d1 & E1 & ND1 & Hk1 & Hin1 & Hout1); [|done|done|].
  { destruct Hfit as (keys & Hkeys & HL). exists keys. split; [|done]. intros k [?|?]; apply Hkeys; set_solver. }
  assert (∀ k, ∃ pre, (∀ out1 ms, run_rows (rows_of k messages) (dict_get k d1) = Ok (out1, ms) →
      run_rows (rows_of k (m :: messages)) (dict_get k d) = Ok (pre ++ out1, ms)) ∧ sent_in k m rs.*1 = pre ∧
    ∀ out ms, run_rows (rows_of k (m :: messages)) (dict_get k d) = Ok (out, ms) →
      ∃ out1, run_rows (rows_of k messages) (dict_get k d1) = Ok (out1, ms) ∧ out = pre ++ out1) as Hstep.
  { intros k. exists (sent_in k m rs.*1). unfold rows_of. cbn [fmap list_fmap concat]. fold (rows_of k messages).
    destruct (one_row k m rs NDm ltac:(lia)) as [(Hk & -> & ->)|(i & row & r & Hi & Hr & Hk & -> & ->)].
    - rewrite Hout1 by done. cbn [app]. split_and!; [done|done|]. intros out ms E. by exists out.
    - pose proof (Forall2_lookup_lr _ _ _ _ _ _ Hin1 Hi Hr) as Hd1. pose proof (Forall2_lookup_lr _ _ _ _ _ _ Hrs Hi Hr) as Hst.
      cbn beta in Hd1, Hst. rewrite Hk in Hd1, Hst. cbn [app run_rows]. rewrite Hst, Hd1. destruct r as [out0 s0]. cbn [mbind result_bind fst snd].
      split_and!; [|done|].
      + intros out1 ms ->. done.
      + intros out ms. destruct (run_rows _ _) as [[out1 ms1]|]; [|done]. intros [= <- <-]. by exists out1. }
  destruct (IH d1 ND1) as (outs & d2 & E2 & Hsent).
  { destruct Hfit as (keys & Hkeys & HL). exists keys. split; [|done]. intros k [Hk|?]; apply Hkeys; [|set_solver].
    apply Hk1 in Hk as [?|?]; set_solver. }
  { intros k. destruct (Hruns k) as (out & ms & E). destruct (Hstep k) as (pre & _ & _ & Hback). destruct (Hback _ _ E) as (out1 & E' & _). eauto. }
  exists (rs.*1 :: outs), d2. split.
  - cbn [event_loop]. rewrite (run_bind _ _ _ _ _ E1). by rewrite (run_bind _ _ _ _ _ E2).
  - intros k out ms E. destruct (Hstep k) as (pre & _ & Hpre & Hback). destruct (Hback _ _ E) as (out1 & E' & ->).
    unfold sent_to. cbn [zip_with concat]. rewrite Hpre. f_equal. by eapply Hsent.
Qed.
End batch.
