(* ===== verification/DetokStream.v ===== *)
(** * The text that a client gets

    The chunks that the scheduler sends for one request, and what the detokenizer makes of
    them, whatever else is in the batches. *)

From S2P Require Import Prelude PyStr Sampling Req Detokenizer DetokText DetokBatch.

Open Scope nat_scope.

(** ** The rows of one request *)

Section streams.
Context (dec : list Z → pystr).
Implicit Types (rows : list BatchTokenIDOut).

(** The rows that follow the tokens [o]: only the last may have a reason. *)
Fixpoint request_rows (p0 o : list Z) rows : Prop :=
  match rows with
  | [] => True
  | row :: rest =>
      let o := o ++ out_decode_ids row in
      match out_finished_reason row with
      | None => calm dec p0 o ∧ request_rows p0 o rest
      | Some reason => rest = [] ∧ cuttable (out_decode_ids row) reason
      end
  end.

(** How a stream of rows ends. *)
Definition ending rows : option (json * bool) :=
  row ← last rows; (λ reason, (reason, out_no_stop_trim row)) <$> out_finished_reason row.

(** What is sent for the rows, after the tokens [o] of which [sent] is sent: at the end what
    is missing of the text up to the stop. *)
Definition pieces_ok (p0 o : list Z) (sent : pystr) rows (outs : list pystr) : Prop :=
  match ending rows with
  | None => sent_so_far dec p0 (o ++ concat (out_decode_ids <$> rows)) (sent ++ concat outs)
  | Some (reason, no_stop_trim) => ∃ earlier piece o', outs = earlier ++ [piece] ∧
      sent_so_far dec p0 (o ++ concat (out_decode_ids <$> removelast rows)) (sent ++ concat earlier) ∧
      trim_matched_stop_ids (o ++ concat (out_decode_ids <$> rows)) (Some reason) no_stop_trim = Ok o' ∧
      sent ++ concat earlier `prefix_of` new_text_of dec p0 o' ∧
      piece = drop (length (sent ++ concat earlier)) (trim_matched_stop_str (new_text_of dec p0 o') (Some reason) no_stop_trim)
  end.

(** From the first row on: it brings the context [p0]. *)
Definition stream_of (p0 : list Z) rows : Prop :=
  match rows with
  | [] => True
  | row :: rest => out_decoded_text row = [] ∧ out_read_offset row = length p0 ∧ ∃ c, out_decode_ids row = p0 ++ c ∧
      match out_finished_reason row with
      | None => calm dec p0 c ∧ request_rows p0 c rest
      | Some reason => rest = [] ∧ cuttable c reason
      end
  end.

End streams.

Section rows.
Context (decode : bool → bool → list Z → pystr) (skip spaces : bool).
Notation dec := (decode skip spaces).
Context (Hdec : tokenizer_laws dec).
Implicit Types (rows : list BatchTokenIDOut).

Lemma row_stream row ms p0 o c sent s : opened row ms = extend_ids c s → status_ok dec p0 o sent s →
  out_finished_reason row = None → calm dec p0 (o ++ c) →
  ∃ out s', row_step decode skip spaces row ms = Ok (out, s') ∧ status_ok dec p0 (o ++ c) (sent ++ out) s'.
Proof.
  intros Ho Hs Hr Hc. pose proof (stream_chunk dec Hdec p0 o c sent s row Hs Hr Hc) as Hst. cbn zeta in Hst.
  unfold row_step, to_decode. rewrite Ho, Hr. unfold trim_matched_stop_ids. cbn [has_reason negb]. rewrite orb_true_r. cbn [mbind result_bind].
  destruct (incremental row _ _) as [out s']. by exists out, s'.
Qed.

Lemma row_last row ms p0 o c sent s reason : opened row ms = extend_ids c s → status_ok dec p0 o sent s →
  out_finished_reason row = Some reason → cuttable c reason →
  ∃ out s' o', row_step decode skip spaces row ms = Ok (out, s') ∧
    trim_matched_stop_ids (o ++ c) (Some reason) (out_no_stop_trim row) = Ok o' ∧ sent `prefix_of` new_text_of dec p0 o' ∧
    out = drop (length sent) (trim_matched_stop_str (new_text_of dec p0 o') (Some reason) (out_no_stop_trim row)).
Proof.
  intros Ho Hs Hr Hc. destruct (last_chunk dec Hdec p0 o c sent s row reason Hs Hr Hc) as (o' & read & E1 & E2 & Hp & Hout).
  unfold row_step, to_decode. rewrite Ho, Hr, E2. cbn [mbind result_bind].
  destruct (incremental row _ _) as [out s'] eqn:Ei. exists out, s', o'. split_and!; [done..|].
  rewrite <- Hout. first [by rewrite Ei|done].
Qed.

Lemma ending_cons row rows : out_finished_reason row = None → ending (row :: rows) = ending rows.
Proof. intros Er. unfold ending. destruct rows; [cbn; by rewrite Er|done]. Qed.

Lemma pieces_ok_cons p0 o c sent out row rows outs : out_finished_reason row = None → sent_so_far dec p0 o sent →
  out_decode_ids row = c → pieces_ok dec p0 (o ++ c) (sent ++ out) rows outs →
  pieces_ok dec p0 o sent (row :: rows) (out :: outs).
Proof.
  intros Er Hso Ec. unfold pieces_ok. rewrite (ending_cons row rows Er). destruct (ending rows) as [[reason nst]|] eqn:Ee.
  - intros (earlier & piece & o' & -> & Hs & Ht & Hp & Hpiece). exists (out :: earlier), piece, o'.
    destruct rows as [|row2 rows]; [done|]. change (removelast (row :: row2 :: rows)) with (row :: removelast (row2 :: rows)).
    cbn [fmap list_fmap concat] in *. rewrite Ec, !app_assoc in *. done.
  - cbn [fmap list_fmap concat]. by rewrite Ec, !app_assoc.
Qed.

Lemma run_rows_ok p0 o sent s rows : status_ok dec p0 o sent s → request_rows dec p0 o rows →
  ∃ outs s', run_rows decode skip spaces rows (Some s) = Ok (outs, s') ∧ pieces_ok dec p0 o sent rows outs.
Proof.
  revert o sent s. induction rows as [|row rows IH]; intros o sent s Hs Hrows; pose proof (status_sent dec Hdec p0 o sent s Hs) as Hso.
  { exists [], (Some s). split; [done|]. unfold pieces_ok. cbn. by rewrite !app_nil_r. }
  cbn [request_rows] in Hrows. destruct (out_finished_reason row) as [reason|] eqn:Er.
  - destruct Hrows as [-> Hc]. destruct (row_last row (Some s) p0 o _ sent s reason eq_refl Hs Er Hc) as (out & s' & o' & E & Ht & Hp & Hout).
    exists [out], (Some s'). cbn [run_rows]. rewrite E. split; [done|]. unfold pieces_ok, ending. cbn [last option_bind mbind]. rewrite Er.
    exists [], out, o'. cbn [fmap option_fmap option_map list_fmap removelast concat]. by rewrite !app_nil_r.
  - destruct Hrows as [Hc Hrows]. destruct (row_stream row (Some s) p0 o _ sent s eq_refl Hs Er Hc) as (out & s' & E & Hs').
    destruct (IH _ _ _ Hs' Hrows) as (outs & s2 & E2 & Ht). exists (out :: outs), s2. cbn [run_rows]. rewrite E. cbn [mbind result_bind].
    rewrite E2. split; [done|]. by eapply pieces_ok_cons.
Qed.

(** The tokens that the rows bring, after the context. *)
Definition tokens_of (p0 : list Z) rows : list Z := drop (length p0) (concat (out_decode_ids <$> rows)).

Lemma run_stream_ok p0 o rows : complete dec p0 → stream_of dec p0 rows → concat (out_decode_ids <$> rows) = p0 ++ o → rows ≠ [] →
  ∃ outs s', run_rows decode skip spaces rows None = Ok (outs, s') ∧
    match ending rows with
    | None => sent_so_far dec p0 o (concat outs)
    | Some (reason, no_stop_trim) => ∃ earlier piece o', outs = earlier ++ [piece] ∧
        sent_so_far dec p0 (tokens_of p0 (removelast rows)) (concat earlier) ∧
        trim_matched_stop_ids o (Some reason) no_stop_trim = Ok o' ∧ concat earlier `prefix_of` new_text_of dec p0 o' ∧
        piece = drop (length (concat earlier)) (trim_matched_stop_str (new_text_of dec p0 o') (Some reason) no_stop_trim)
    end.
Proof.
  intros Hc Hs Ho Hne. destruct rows as [|row rows]; [done|]. destruct Hs as (Hd & Hr & c & Hids & Hrest).
  pose proof (first_status dec Hdec p0 Hc) as H0. pose proof (status_sent dec Hdec p0 [] [] _ H0) as Hso0.
  assert (opened row None = extend_ids c (MkStatus [] p0 0 (length p0) 0)) as Hop.
  { unfold opened, new_status, extend_ids. cbn. by rewrite Hd, Hr, Hids. }
  cbn [fmap list_fmap concat] in Ho. rewrite Hids, <- app_assoc in Ho. apply app_inv_head in Ho as <-.
  destruct (out_finished_reason row) as [reason|] eqn:Er.
  - destruct Hrest as [-> Hcut]. destruct (row_last row None p0 [] c [] _ reason Hop H0 Er Hcut) as (out & s' & o' & E & Ht & Hp & Hout).
    exists [out], (Some s'). cbn [run_rows]. rewrite E. split; [done|]. unfold ending. cbn [last option_bind mbind]. rewrite Er.
    exists [], out, o'. cbn [fmap option_fmap option_map list_fmap removelast concat]. rewrite !app_nil_r. unfold tokens_of. cbn [fmap list_fmap concat].
    by rewrite drop_nil.
  - destruct Hrest as [Hcalm Hrows]. destruct (row_stream row None p0 [] c [] _ Hop H0 Er Hcalm) as (out & s' & E & Hs').
    destruct (run_rows_ok p0 c out s' rows Hs' Hrows) as (outs & s2 & E2 & Ht).
    exists (out :: outs), s2. cbn [run_rows]. rewrite E. cbn [mbind result_bind]. rewrite E2. split; [done|].
    rewrite (ending_cons row rows Er). unfold pieces_ok in Ht. destruct (ending rows) as [[reason nst]|] eqn:Ee; [|done].
    destruct Ht as (earlier & piece & o' & -> & Hs & Htr & Hp & Hpiece). exists (out :: earlier), piece, o'.
    destruct rows as [|row2 rows]; [done|]. change (removelast (row :: row2 :: rows)) with (row :: removelast (row2 :: rows)).
    split; [done|]. split; [|done]. unfold tokens_of. cbn [fmap list_fmap concat] in *. rewrite Hids, <- app_assoc, drop_app_length. done.
Qed.
End rows.

(** ** The chunks that the scheduler sends *)

Section sender.
Context (interval : nat) (Hint : 0 < interval).

(** A turn of the scheduler gives a request more tokens, and perhaps a reason to finish; then
    it is streamed. *)
Definition grow (ids : list Z) (reason : option FinishReason) (o : Outgoing) : Outgoing :=
  MkOutgoing (set_finished_reason reason (set_output_ids (output_ids (og_req o) ++ ids) (og_req o))) (stream_interval o)
    (skip_special_tokens o) (spaces_between_special_tokens o) (send_decode_id_offset o) (send_token_offset o) (finished_output o).

Fixpoint send_all (turns : list (list Z * option FinishReason)) (o : Outgoing) : result (list BatchTokenIDOut) :=
  match turns with
  | [] => Ok []
  | (ids, reason) :: turns =>
      '(row, o) ← stream_one interval false (grow ids reason o);
      rows ← send_all turns o;
      Ok (option_list row ++ rows)
  end.

(** The end of the prompt, which the detokenizer decodes with the first tokens. *)
Definition context_of (o : Outgoing) : list Z :=
  drop (length (origin_input_ids_unpadded (og_req o)) - INIT_INCREMENTAL_DETOKENIZATION_OFFSET) (origin_input_ids_unpadded (og_req o)).

Definition fresh_outgoing (o : Outgoing) : Prop :=
  output_ids (og_req o) = [] ∧ finished_reason (og_req o) = None ∧ decoded_text (og_req o) = [] ∧ surr_offset (og_req o) = None ∧
  read_offset (og_req o) = None ∧ send_decode_id_offset o = 0 ∧ finished_output o = false.

(** Only the last turn finishes the request, with the token that did it. *)
Fixpoint turns_ok (turns : list (list Z * option FinishReason)) : Prop :=
  match turns with
  | [] => True
  | (ids, reason) :: turns =>
      match reason with
      | None => turns_ok turns
      | Some reason => turns = [] ∧ (ids ≠ [] ∨ ∀ t, reason ≠ FINISH_MATCHED_TOKEN t)
      end
  end.

Definition outputs (turns : list (list Z * option FinishReason)) : list Z := concat turns.*1.

(** The sender's state: [sent] tokens of the output are sent, none of them nor the context
    when it is [None]. *)
Record sending (k : pystr) (P : list Z) (flags : bool * bool * bool) (out : list Z) (sent : option nat) (o : Outgoing) : Prop := {
  se_rid : rid (og_req o) = k;
  se_prompt : origin_input_ids_unpadded (og_req o) = P;
  se_flags : flags = (skip_special_tokens o, spaces_between_special_tokens o, no_stop_trim (sampling_params (og_req o)));
  se_out : output_ids (og_req o) = out;
  se_text : decoded_text (og_req o) = [];
  se_sent : match sent with
    | None => surr_offset (og_req o) = None ∧ send_decode_id_offset o = 0
    | Some n => surr_offset (og_req o) = Some (length P - INIT_INCREMENTAL_DETOKENIZATION_OFFSET) ∧
        read_offset (og_req o) = Some (length P) ∧ n ≤ length out ∧
        send_decode_id_offset o = length (drop (length P - INIT_INCREMENTAL_DETOKENIZATION_OFFSET) P) + n
    end
}.

Lemma should_output_total o : finished_output o = false →
  (∃ o', should_output interval false o = Ok (true, o') ∧ og_req o' = og_req o ∧ stream_interval o' = stream_interval o ∧
     skip_special_tokens o' = skip_special_tokens o ∧ spaces_between_special_tokens o' = spaces_between_special_tokens o ∧
     send_decode_id_offset o' = send_decode_id_offset o ∧ (finished_reason (og_req o) = None → o' = o)) ∨
  (finished_reason (og_req o) = None ∧ should_output interval false o = Ok (false, o)).
Proof.
  intros Hf. unfold should_output, on_interval. rewrite Hf. destruct (finished_reason (og_req o)); [left; by eexists|].
  assert (∀ b, (∃ o', Ok (b && true, o) = Ok (true, o') ∧ og_req o' = og_req o ∧ stream_interval o' = stream_interval o ∧
     skip_special_tokens o' = skip_special_tokens o ∧ spaces_between_special_tokens o' = spaces_between_special_tokens o ∧
     send_decode_id_offset o' = send_decode_id_offset o ∧ (@None FinishReason = None → o' = o)) ∨
     (@None FinishReason = None ∧ Ok (b && true, o) = Ok (false, o))) as Hb.
  { intros [|]; cbn; [left; by eexists|by right]. }
  destruct (req_stream (og_req o)).
  - rewrite decide_False by (destruct (stream_interval o) as [[|]|]; lia). cbn [mbind result_bind].
    specialize (Hb (bool_decide (length (output_ids (og_req o)) `mod` match stream_interval o with Some (S n) => S n | _ => interval end = 0))).
    by rewrite andb_true_r in Hb.
  - rewrite decide_False by done. apply Hb.
Qed.

(** The row of a request that is sent: what is new of the context and the output. *)
Lemma output_row_ok k P flags out sent o : sending k P flags out sent o →
  let p0 := drop (length P - INIT_INCREMENTAL_DETOKENIZATION_OFFSET) P in
  ∃ row o', output_row false o = (row, o') ∧ out_rid row = k ∧ out_finished_reason row = to_json <$> finished_reason (og_req o) ∧
    flags = (out_skip_special_tokens row, out_spaces_between_special_tokens row, out_no_stop_trim row) ∧
    out_decoded_text row = [] ∧ out_read_offset row = length p0 ∧
    out_decode_ids row = match sent with None => p0 ++ out | Some n => drop n out end ∧
    finished_output o' = finished_output o ∧ sending k P flags out (Some (length out)) o'.
Proof.
  intros [Hk HP Hfl Ho Ht Hs]. cbn zeta. set (p0 := drop _ P).
  assert (∃ r, init_incremental_detokenize (og_req o) = (p0 ++ out, Z.of_nat (length p0), r) ∧ rid r = k ∧ origin_input_ids_unpadded r = P ∧
    output_ids r = out ∧ decoded_text r = [] ∧ finished_reason r = finished_reason (og_req o) ∧ sampling_params r = sampling_params (og_req o) ∧
    surr_offset r = Some (length P - INIT_INCREMENTAL_DETOKENIZATION_OFFSET) ∧ read_offset r = Some (length P)) as (r & E & Hr1 & Hr2 & Hr3 & Hr4 & Hr5 & Hr6 & Hr7 & Hr8).
  { assert ((Z.of_nat (length P) - Z.of_nat (length P - INIT_INCREMENTAL_DETOKENIZATION_OFFSET)%nat)%Z = Z.of_nat (length p0)) as Hlen
      by (unfold p0; rewrite length_drop; lia).
    unfold init_incremental_detokenize. destruct sent as [n|].
    - destruct Hs as (E1 & E2 & _). rewrite E1, E2, HP, Ho, E1, E2. cbn [default from_option]. unfold id.
      eexists. split; [rewrite drop_app_le, Hlen by lia; reflexivity|done].
    - destruct Hs as (E1 & _). rewrite E1. cbn [surr_offset read_offset set_surr_offset set_read_offset origin_input_ids_unpadded output_ids default from_option].
      rewrite HP, Ho. unfold id. eexists. split; [rewrite drop_app_le, Hlen by lia; reflexivity|].
      split_and!; try reflexivity; cbn; congruence. }
  unfold output_row. rewrite E. eexists _, _. split; [reflexivity|].
  cbn [out_rid out_finished_reason out_skip_special_tokens out_spaces_between_special_tokens out_no_stop_trim out_decoded_text out_read_offset
    out_decode_ids finished_output set_sent]. rewrite Hr5, Hr6, Nat2Z.id.
  split_and!; try done.
  - destruct sent as [n|]; destruct Hs as (Hs1 & Hs).
    + destruct Hs as (_ & _ & ->). by rewrite <- drop_drop, drop_app_length.
    + rewrite Hs. done.
  - split; cbn [og_req set_sent send_decode_id_offset finished_output skip_special_tokens spaces_between_special_tokens]; try done.
    + by rewrite Hr6.
    + split_and!; [done|done|done|]. by rewrite length_app.
Qed.

Lemma to_json_matched r : (∀ t, r ≠ FINISH_MATCHED_TOKEN t) → ∀ n, get_matched (Some (to_json r)) ≠ JInt n.
Proof. intros Hr n. destruct r as [t| | |]; [by destruct (Hr t)|done..]. Qed.

(** How the turns end. *)
Definition ending_of (no_stop_trim : bool) (turns : list (list Z * option FinishReason)) : option (json * bool) :=
  turn ← last turns; (λ r, (to_json r, no_stop_trim)) <$> turn.2.

(** The rows of the turns, [all] being the whole output. *)
Definition sent_rows dec (p0 out all : list Z) (sent : option nat) (rows : list BatchTokenIDOut) (finished : Prop) : Prop :=
  match sent with
  | Some n => request_rows dec p0 (take n out) rows ∧ ∃ m, n ≤ m ∧ concat (out_decode_ids <$> rows) = slice n m all ∧ (finished → m = length all)
  | None => stream_of dec p0 rows ∧ (finished → rows ≠ []) ∧
      (rows ≠ [] → ∃ m, concat (out_decode_ids <$> rows) = p0 ++ take m all ∧ (finished → m = length all))
  end.

Lemma sending_grow k P flags out sent o ids reason : sending k P flags out sent o →
  sending k P flags (out ++ ids) sent (grow ids reason o).
Proof.
  intros [Hk HP Hfl Ho Ht Hs]. split; cbn; try done; [by rewrite Ho|]. destruct sent; [|done].
  destruct Hs as (? & ? & ? & ?). split_and!; try done. rewrite length_app. lia.
Qed.

Lemma sent_row dec p0 out all sent row rows ids (finished : Prop) : (∃ x, all = (out ++ ids) ++ x) → match sent with Some n => n ≤ length out | None => True end →
  out_decoded_text row = [] → out_read_offset row = length p0 → out_finished_reason row = None →
  out_decode_ids row = match sent with None => p0 ++ (out ++ ids) | Some n => drop n (out ++ ids) end → calm dec p0 (out ++ ids) →
  sent_rows dec p0 (out ++ ids) all (Some (length (out ++ ids))) rows finished → sent_rows dec p0 out all sent (row :: rows) finished.
Proof.
  intros (x & Hall) Hn Hd Hr Hf Hids Hcalm (Hrows & m & Hm & Hc & Hfin). rewrite firstn_all in Hrows.
  assert (∀ n, n ≤ length (out ++ ids) → drop n (out ++ ids) ++ slice (length (out ++ ids)) m all = slice n m all) as Hslice.
  { intros n Hle. unfold slice. rewrite Hall, (drop_app_le (out ++ ids) x n) by done.
    rewrite (drop_app_le (out ++ ids) x (length (out ++ ids))) by done. rewrite drop_all. cbn [app].
    rewrite take_app. rewrite (take_ge (drop n (out ++ ids))) by (rewrite length_drop; lia). f_equal. f_equal. rewrite length_drop. lia. }
  destruct sent as [n|]; cbn [sent_rows request_rows stream_of fmap list_fmap concat].
  - rewrite Hf, Hids, Hc. assert (take n out ++ drop n (out ++ ids) = out ++ ids) as ->.
    { rewrite <- (take_app_le out ids n) by done. apply take_drop. }
    split; [done|]. exists m. rewrite length_app in *. split_and!; [lia| |done]. apply Hslice. rewrite ?length_app. lia.
  - rewrite Hf, Hids, Hc. split; [|split; [done|]].
    + split_and!; [done|done|]. by exists (out ++ ids).
    + intros _. exists m. split; [|done]. rewrite <- app_assoc. f_equal. pose proof (Hslice 0 ltac:(lia)) as H0.
      rewrite drop_0 in H0. rewrite H0. unfold slice. by rewrite drop_0, Nat.sub_0_r.
Qed.

Lemma send_all_ok dec k P flags turns out sent o : sending k P flags out sent o → finished_output o = false → turns_ok turns →
  let p0 := drop (length P - INIT_INCREMENTAL_DETOKENIZATION_OFFSET) P in
  (∀ m, calm dec p0 (take m (out ++ outputs turns))) →
  ∃ rows, send_all turns o = Ok rows ∧
    Forall (λ row, out_rid row = k ∧ flags = (out_skip_special_tokens row, out_spaces_between_special_tokens row, out_no_stop_trim row)) rows ∧
    sent_rows dec p0 out (out ++ outputs turns) sent rows (is_Some (ending_of flags.2 turns)) ∧ ending rows = ending_of flags.2 turns.
Proof.
  intros Hs Hmore Hok. cbn zeta. set (p0 := drop _ P). revert out sent o Hs Hmore Hok.
  induction turns as [|[ids reason] turns IH]; intros out sent o Hs Hmore Hok Hcalm.
  { exists []. split_and!; [done|done| |done]. pose proof (se_sent _ _ _ _ _ _ Hs) as Hse. destruct sent as [n|]; cbn.
    - split; [done|]. exists n. split_and!; [done| |by intros []]. unfold slice. by rewrite Nat.sub_diag.
    - split_and!; [done|by intros []|done]. }
  cbn [turns_ok] in Hok. pose proof (sending_grow _ _ _ _ _ _ ids reason Hs) as Hg. set (o1 := grow ids reason o) in *.
  assert (outputs ((ids, reason) :: turns) = ids ++ outputs turns) as Hout by done. rewrite Hout in *. rewrite app_assoc in *.
  assert (finished_reason (og_req o1) = reason) as Hreason by done.
  assert (turns ≠ [] → ending_of flags.2 ((ids, reason) :: turns) = ending_of flags.2 turns) as Hend by (by destruct turns).
  assert (finished_output o1 = false) as Hmore1 by done.
  cbn [send_all]. unfold stream_one. cbn [andb]. fold o1. clearbody o1.
  destruct (should_output_total o1 Hmore1) as [(o2 & -> & Hreq & Hi & Hsk & Hsp & Hoff & Heq)|[Hnone ->]]; cbn [mbind result_bind].
  - assert (sending k P flags (out ++ ids) sent o2) as Hg2.
    { destruct Hg as [? ? ? ? ? ?]. split; rewrite ?Hreq, ?Hsk, ?Hsp, ?Hoff; done. }
    destruct (output_row_ok k P flags (out ++ ids) sent o2 Hg2) as (row & o3 & -> & Hrid & Hfin & Hflags & Hd & Hro & Hids & Hmore3 & Hs3).
    fold p0 in Hids, Hro. rewrite Hreq, Hreason in Hfin. cbn [mbind result_bind].
    pose proof (se_sent _ _ _ _ _ _ Hs) as Hse.
    destruct reason as [r|].
    + destruct Hok as [-> Hcut]. exists [row]. cbn [send_all option_list app]. split_and!; [done|by repeat constructor| |].
      * assert (outputs [] = []) as -> by done. rewrite app_nil_r.
        assert (cuttable (match sent with None => out ++ ids | Some n => drop n (out ++ ids) end) (to_json r)) as Hc.
        { destruct Hcut as [Hne|Hr]; [left|right; by apply to_json_matched]. destruct sent as [n|].
          - destruct Hse as (_ & _ & Hn & _). intros E%(f_equal length). rewrite length_drop, length_app in E. destruct ids; [done|cbn in E; lia].
          - intros E. by apply app_nil in E as [_ ->]. }
        destruct sent as [n|]; cbn [sent_rows request_rows stream_of fmap list_fmap concat]; rewrite Hfin, app_nil_r, Hids; cbn [fmap option_fmap option_map].
        -- split; [done|]. exists (length (out ++ ids)). split_and!; [|unfold slice; rewrite take_ge; [done|rewrite length_drop; lia]|done].
           destruct Hse as (_ & _ & Hn & _). rewrite length_app. lia.
        -- split_and!; [done|done| |done|].
           ++ by exists (out ++ ids).
           ++ intros _. exists (length (out ++ ids)). by rewrite firstn_all.
      * unfold ending, ending_of. cbn. rewrite Hfin. cbn. by rewrite Hflags.
    + assert (finished_output o2 = false) as Hm2 by by rewrite (Heq Hreason).
      destruct (IH (out ++ ids) (Some (length (out ++ ids))) o3 Hs3) as (rows & E & HF & Hrows & Hen); [by rewrite Hmore3|done|done|].
      exists (row :: rows). rewrite E. cbn [mbind result_bind option_list app].
      assert (is_Some (ending_of flags.2 ((ids, None) :: turns)) → is_Some (ending_of flags.2 turns)) as Hfinished.
      { destruct turns as [|turn turns]; [by intros []|done]. }
      split_and!; [done|by constructor| |].
      * eapply (sent_row dec p0 out _ sent row rows ids); try done.
        -- by eexists.
        -- destruct sent; [|done]. by destruct Hse as (_ & _ & ? & _).
        -- specialize (Hcalm (length (out ++ ids))). by rewrite take_app_length in Hcalm.
        -- destruct Hrows as (H1 & m & H2 & H3 & H4). split; [done|]. exists m. split_and!; [done..|]. intros Hf. by apply H4, Hfinished.
      * destruct turns as [|turn turns].
        -- cbn in E. injection E as <-. unfold ending, ending_of. cbn. by rewrite Hfin.
        -- rewrite Hend by done. rewrite <- Hen. destruct rows; [|done]. unfold ending. cbn. by rewrite Hfin.
  - assert (reason = None) as -> by congruence. destruct (IH (out ++ ids) sent o1 Hg Hmore1 Hok Hcalm) as (rows & E & HF & Hrows & Hen).
    exists rows. rewrite E. cbn [mbind result_bind option_list app].
    destruct turns as [|turn turns].
    + cbn in E. injection E as <-. split_and!; [done|done| |done]. cbn. pose proof (se_sent _ _ _ _ _ _ Hs) as Hse. destruct sent as [n|]; cbn.
      * split; [done|]. exists n. split_and!; [done| |by intros []]. unfold slice. by rewrite Nat.sub_diag.
      * split_and!; [done|by intros []|done].
    + rewrite Hend by done. split_and!; [done|done| |done]. destruct sent as [n|]; [|done].
      pose proof (se_sent _ _ _ _ _ _ Hs) as (_ & _ & Hn & _). cbn [sent_rows] in *. by rewrite (take_app_le out ids n) in Hrows.
Qed.
End sender.
