(* ===== verification/DetokThms.v ===== *)
(** * Streaming is decoding

    The theorem on the text of all requests, tokenizers that decode bytes, and examples. *)

From S2P Require Import Prelude PyStr Sampling Req Detokenizer DetokText DetokBatch DetokStream.

Open Scope nat_scope.

(** ** Where the text of a finished request ends

    Without the code's functions: a stop token is the last token and is cut off, unless it has
    the number 0; a stop string is cut off with what follows its first occurrence in the text;
    neither if the request keeps its stop ([no_stop_trim]). *)

Definition stop_token_cut (no_stop_trim : bool) (reason : FinishReason) (o o' : list Z) : Prop :=
  match reason with
  | FINISH_MATCHED_TOKEN t => if decide (no_stop_trim = false ∧ t ≠ 0%Z) then ∃ x, o = o' ++ [x] else o' = o
  | _ => o' = o
  end.

Definition stop_string_cut (no_stop_trim : bool) (reason : FinishReason) (text text' : pystr) : Prop :=
  match reason with
  | FINISH_MATCHED_STR s =>
      if decide (no_stop_trim = false ∧ s ≠ []) then
        (∃ post, text = text' ++ s ++ post ∧ ∀ pre post', text = pre ++ s ++ post' → length text' ≤ length pre) ∨
        (¬ occurs s text ∧ text' = text)
      else text' = text
  | _ => text' = text
  end.

Lemma get_matched_json r : get_matched (Some (to_json r)) =
  match r with FINISH_MATCHED_TOKEN t => JInt t | FINISH_MATCHED_STR s => JStr s | _ => JNone end.
Proof. by destruct r. Qed.

Lemma has_reason_json r : has_reason (Some (to_json r)) = true.
Proof. by destruct r. Qed.

Lemma trim_ids_cut nst r o o' : trim_matched_stop_ids o (Some (to_json r)) nst = Ok o' → stop_token_cut nst r o o'.
Proof.
  unfold trim_matched_stop_ids. destruct nst; cbn [orb].
  { intros [= <-]. by destruct r. }
  rewrite has_reason_json, get_matched_json.
  destruct r as [t|s|m|msg code err]; cbn; try (by intros [= <-]); case_bool_decide; cbn; try (by intros [= <-]);
    [|by rewrite decide_False by naive_solver; intros [= <-]].
  destruct (decide (0 < length o)) as [Hl|]; [|done]. intros [= <-]. rewrite decide_True by done.
  destruct o as [|x o _] using rev_ind; [cbn in Hl; lia|]. exists x. rewrite length_app. cbn. by rewrite Nat.add_sub, take_app_length.
Qed.

Lemma trim_str_cut nst r text : stop_string_cut nst r text (trim_matched_stop_str text (Some (to_json r)) nst).
Proof.
  unfold trim_matched_stop_str. destruct nst; cbn [orb].
  { by destruct r. }
  rewrite has_reason_json, get_matched_json.
  destruct r as [t|s|m|msg code err]; cbn; try done; case_bool_decide; cbn; try done;
    [|by rewrite decide_False by naive_solver].
  rewrite decide_True by done. destruct (find text s) as [pos|] eqn:E.
  - left. exists (drop (pos + length s) text). split; [by apply find_split|]. intros pre post Et.
    apply find_Some in E as (_ & Hle & Hmin). rewrite length_take.
    destruct (decide (pos ≤ length pre)); [lia|]. exfalso. apply (Hmin (length pre)); [lia|]. rewrite Et, drop_app_length. by exists post.
  - right. split; [|done]. intros (pre & post & Et). apply (proj1 (find_None _ _) E (length pre)). rewrite Et, drop_app_length. by exists post.
Qed.

Lemma cut_prefix nst r text text' : stop_string_cut nst r text text' → text' `prefix_of` text.
Proof.
  destruct r as [t|s|m|msg code err]; cbn; try by intros ->. case_decide; [|by intros ->].
  intros [(post & -> & _)|[_ ->]]; [by apply prefix_app_r|done].
Qed.

(** Of two beginnings of a text, one and what is missing of the other. *)
Lemma longer_prefix {A} (t x y : list A) : x `prefix_of` t → y `prefix_of` t →
  x ++ drop (length x) y = if decide (length x ≤ length y) then y else x.
Proof.
  intros Hx Hy. case_decide as Hl; [|rewrite drop_ge, app_nil_r by lia; done].
  destruct (prefix_weak_total x y t Hx Hy) as [[k ->]|Hyx]; [by rewrite drop_app_length|].
  assert (y = x) as ->; [|by rewrite drop_all, app_nil_r].
  apply prefix_length_eq; [done|lia].
Qed.

(** ** All requests of a server *)

Section serve.
Context (decode : bool → bool → list Z → pystr) (skip spaces : bool) (interval : nat).
Notation dec := (decode skip spaces).
Notation rid_of o := (rid (og_req o)).

(** A request that arrives, and its turns. *)
Definition request_ok (o : Outgoing) (turns : list (list Z * option FinishReason)) : Prop :=
  fresh_outgoing o ∧ turns_ok turns ∧ skip_special_tokens o = skip ∧ spaces_between_special_tokens o = spaces ∧
  complete dec (context_of o) ∧ ∀ n, calm dec (context_of o) (take n (outputs turns)).

(** How the turns of a request end. *)
Definition finish_of (turns : list (list Z * option FinishReason)) : option FinishReason := turn ← last turns; turn.2.

Lemma ending_of_finish nst turns : ending_of nst turns = (λ r, (to_json r, nst)) <$> finish_of turns.
Proof. unfold ending_of, finish_of. by destruct (last turns) as [[? []]|]. Qed.

(** The [pieces] of text sent for the [rows] of a request with the context [p0] and the output
    [o].  Before its end: the text of the tokens in the rows, as much of it as cannot change.
    At the end: the same of the earlier rows, and then the rest of the text up to the stop,
    if it goes on at all after what was sent. *)
Definition text_ok dec (p0 o : list Z) rows (fin : option FinishReason) (no_stop_trim : bool) (pieces : list pystr) : Prop :=
  match fin with
  | None => tokens_of p0 rows `prefix_of` o ∧ sent_so_far dec p0 (tokens_of p0 rows) (concat pieces)
  | Some reason => ∃ earlier piece o' text,
      pieces = earlier ++ [piece] ∧ tokens_of p0 rows = o ∧
      sent_so_far dec p0 (tokens_of p0 (removelast rows)) (concat earlier) ∧
      stop_token_cut no_stop_trim reason o o' ∧ stop_string_cut no_stop_trim reason (new_text_of dec p0 o') text ∧
      concat earlier `prefix_of` new_text_of dec p0 o' ∧
      concat pieces = if decide (length (concat earlier) ≤ length text) then text else concat earlier
  end.

Lemma request_rows_ok o turns : tokenizer_laws dec → 0 < interval → request_ok o turns →
  ∃ rows, send_all interval turns o = Ok rows ∧ Forall (λ row, out_rid row = rid_of o ∧ flags_ok skip spaces row) rows ∧
    ∃ out ms, run_rows decode skip spaces rows None = Ok (out, ms) ∧
      text_ok dec (context_of o) (outputs turns) rows (finish_of turns) (no_stop_trim (sampling_params (og_req o))) out.
Proof.
  intros Hdec Hint ((F1 & F2 & F3 & F4 & F5 & F6 & F7) & Hturns & Hsk & Hsp & Hc & Hcalm).
  set (nst := no_stop_trim (sampling_params (og_req o))) in *.
  destruct (send_all_ok interval Hint dec (rid_of o) (origin_input_ids_unpadded (og_req o)) (skip, spaces, nst) turns [] None o)
    as (rows & E & HF & (Hst & Hfin1 & Hcov) & Hend); [|done|done|exact Hcalm|].
  { split; try done. by rewrite Hsk, Hsp. }
  fold (context_of o) in Hst, Hcov. cbn [snd app] in *. rewrite ending_of_finish in *. exists rows. split; [done|]. split.
  { eapply Forall_impl; [exact HF|]. intros row [? Hfl]. by injection Hfl as -> -> _. }
  set (p0 := context_of o) in *. destruct (decide (rows = [])) as [->|Hne].
  - exists [], None. split; [done|]. destruct (finish_of turns) as [r|]; [by destruct Hfin1|]. unfold text_ok, tokens_of. cbn.
    rewrite drop_nil. split; [apply prefix_nil|]. exact (status_sent dec Hdec p0 [] [] _ (first_status dec Hdec p0 Hc)).
  - destruct (Hcov Hne) as (m & Hids & Hall).
    destruct (run_stream_ok decode skip spaces Hdec p0 (take m (outputs turns)) rows Hc Hst Hids Hne) as (out & ms & Er & Ht).
    assert (tokens_of p0 rows = take m (outputs turns)) as Htok by (unfold tokens_of; by rewrite Hids, drop_app_length).
    exists out, ms. split; [done|]. rewrite Hend in Ht. unfold text_ok. rewrite Htok.
    destruct (finish_of turns) as [r|]; cbn [fmap option_fmap option_map] in *; [|split; [exists (drop m (outputs turns)); by rewrite take_drop|done]].
    rewrite Hall, firstn_all in Ht |- * by by eexists.
    destruct Ht as (earlier & piece & o' & -> & Hs & Hcut & Hp & ->). exists earlier. eexists _, o', _.
    split_and!; [reflexivity|done|done|by apply trim_ids_cut|apply trim_str_cut|done|].
    rewrite concat_app. cbn [concat]. rewrite app_nil_r. apply (longer_prefix (new_text_of dec p0 o')); [done|].
    eapply cut_prefix, trim_str_cut.
Qed.
End serve.

