(* ===== verification/Utf8.v ===== *)
(** * Tokenizers of bytes

    A byte-level tokenizer has for each token a string of bytes, and decodes tokens as
    [bytes.decode("utf-8", errors="replace")] does: a broken character, or one that is cut off
    at the end, becomes U+FFFD. Such tokenizers satisfy the laws of [DetokText]. *)

From S2P Require Import Prelude PyStr Sampling Req Detokenizer DetokText.

Open Scope nat_scope.

(** ** The decoder *)

(** In the middle of a character: how many bytes are missing, the bits so far, and the bounds
    of the next byte. *)
Record Partial := MkPartial { missing : nat; bits : Z; lower : Z; upper : Z }.

(** The first byte of a character. *)
Definition start_byte (b : Z) : pystr * option Partial :=
  (if bool_decide (b < 0x80) then ([b], None)
   else if bool_decide (0xC2 ≤ b ≤ 0xDF) then ([], Some (MkPartial 1 (b - 0xC0) 0x80 0xBF))
   else if bool_decide (b = 0xE0) then ([], Some (MkPartial 2 0 0xA0 0xBF))
   else if bool_decide (b = 0xED) then ([], Some (MkPartial 2 0xD 0x80 0x9F))
   else if bool_decide (0xE1 ≤ b ≤ 0xEF) then ([], Some (MkPartial 2 (b - 0xE0) 0x80 0xBF))
   else if bool_decide (b = 0xF0) then ([], Some (MkPartial 3 0 0x90 0xBF))
   else if bool_decide (b = 0xF4) then ([], Some (MkPartial 3 4 0x80 0x8F))
   else if bool_decide (0xF1 ≤ b ≤ 0xF3) then ([], Some (MkPartial 3 (b - 0xF0) 0x80 0xBF))
   else (REPLACEMENT, None))%Z.

Definition utf8_step (st : option Partial) (b : Z) : pystr * option Partial :=
  match st with
  | None => start_byte b
  | Some p =>
      if bool_decide (lower p ≤ b ≤ upper p)%Z then
        let bits := (bits p * 64 + (b - 0x80))%Z in
        match missing p with
        | 0 | 1 => ([bits], None)
        | S n => ([], Some (MkPartial n bits 0x80 0xBF))
        end
      else let '(out, st) := start_byte b in (REPLACEMENT ++ out, st)
  end.

Fixpoint utf8_run (st : option Partial) (bytes : list Z) : pystr * option Partial :=
  match bytes with
  | [] => ([], st)
  | b :: bytes => let '(out, st) := utf8_step st b in let '(outs, st) := utf8_run st bytes in (out ++ outs, st)
  end.

Definition utf8_decode (bytes : list Z) : pystr :=
  let '(out, st) := utf8_run None bytes in out ++ match st with None => [] | Some _ => REPLACEMENT end.

Definition byte_level (vocab : Z → list Z) (ids : list Z) : pystr := utf8_decode (concat (vocab <$> ids)).

(** Decoding e-acute, a Chinese character, half an emoji. *)
Example utf8_examples :
  utf8_decode [0x63; 0xC3; 0xA9]%Z = [0x63; 0xE9]%Z ∧ utf8_decode [0xE4; 0xB8; 0xAD]%Z = [0x4E2D]%Z ∧
  utf8_decode [0xF0; 0x9F]%Z = [0xFFFD]%Z ∧ utf8_decode [0xF0; 0x9F; 0x98; 0x80; 0xFF; 0x61]%Z = [0x1F600; 0xFFFD; 0x61]%Z.
Proof. vm_compute. done. Qed.

(** ** The laws *)

Lemma utf8_run_app st xs ys :
  utf8_run st (xs ++ ys) = ((utf8_run st xs).1 ++ (utf8_run (utf8_run st xs).2 ys).1, (utf8_run (utf8_run st xs).2 ys).2).
Proof.
  revert st. induction xs as [|b xs IH]; intros st; cbn [app utf8_run fst snd]; [by destruct (utf8_run st ys)|].
  destruct (utf8_step st b) as [out st1]. rewrite IH. destruct (utf8_run st1 xs) as [outs st2]. cbn [fst snd].
  by rewrite app_assoc.
Qed.

Lemma chomp_replacement x : chomp (x ++ REPLACEMENT) = chomp x.
Proof. induction x as [|c x IH]; [done|]. cbn [app chomp]. by rewrite IH. Qed.

Lemma utf8_stable xs ys : chomp (utf8_decode xs) `prefix_of` utf8_decode (xs ++ ys).
Proof.
  unfold utf8_decode. rewrite utf8_run_app. destruct (utf8_run None xs) as [out st] eqn:E. cbn [fst snd].
  rewrite <- app_assoc. etrans; [|by apply prefix_app_r]. destruct st.
  - rewrite chomp_replacement. apply chomp_prefix.
  - rewrite app_nil_r. apply chomp_prefix.
Qed.

(** After a complete text the decoder starts afresh. *)
Lemma utf8_fresh xs ys : endswith (utf8_decode xs) REPLACEMENT = false → utf8_decode (xs ++ ys) = utf8_decode xs ++ utf8_decode ys.
Proof.
  unfold utf8_decode. rewrite utf8_run_app. destruct (utf8_run None xs) as [out [p|]]; cbn [fst snd]; intros Hc.
  - exfalso. assert (endswith (out ++ REPLACEMENT) REPLACEMENT = true) as E by (apply endswith_last, last_snoc). congruence.
  - rewrite app_nil_r. destruct (utf8_run None ys). by rewrite app_assoc.
Qed.

Lemma byte_level_laws vocab : tokenizer_laws (byte_level vocab).
Proof.
  unfold byte_level. split.
  - intros p q. rewrite fmap_app, concat_app. apply utf8_stable.
  - intros p q r. unfold complete. rewrite !fmap_app, !concat_app. intros Hp Hpq _.
    rewrite (utf8_fresh _ (_ ++ _) Hp). rewrite (utf8_fresh _ _ Hp) in Hpq |- *.
    assert (endswith (utf8_decode (concat (vocab <$> q))) REPLACEMENT = false) as Hq.
    { destruct (utf8_decode (concat (vocab <$> q))) as [|c t] eqn:E; [done|]. by rewrite endswith_app in Hpq. }
    by rewrite (utf8_fresh _ _ Hq), drop_app_length, app_assoc.
Qed.
