(* ===== verification/DetokExamples.v ===== *)
(** * Streaming, run by evaluation

    Two requests on a tokenizer whose tokens are bytes; and what goes wrong outside of the
    hypotheses of the theorem. *)

From S2P Require Import Prelude PyStr Sampling Req Detokenizer DetokText DetokBatch DetokStream DetokThms Utf8.

Open Scope nat_scope.

Definition ex_decode (skip spaces : bool) : list Z → pystr := byte_level (λ b, [b]).
Definition ex_out (name : pystr) (prompt : pystr) : Outgoing :=
  MkOutgoing (new_Req name prompt (ex_params 9) false None None None true 0 None false) None true true 0 0 false.
Definition ex_sent (o : Outgoing) (turns : list (list Z * option FinishReason)) : list BatchTokenIDOut :=
  match send_all 1 turns o with Ok rows => rows | Raise _ => [] end.
Definition pick (rows : list BatchTokenIDOut) (i : nat) : list BatchTokenIDOut := option_list (rows !! i).

(** The first stops at the string "END", in the middle of its text is an e-acute whose two
    bytes come in two chunks; the second stops at the token 2. *)
Definition ex_a : Outgoing := ex_out (s2z "a") (s2z "Why me?").
Definition ex_a_turns : list (list Z * option FinishReason) :=
  [([0x63; 0xC3], None); ([0xA9; 0x20], None); (s2z "END", Some (FINISH_MATCHED_STR (s2z "END")))]%Z.
Definition ex_b : Outgoing := ex_out (s2z "b") (s2z "Hm").
Definition ex_b_turns : list (list Z * option FinishReason) := [(s2z "h", None); (s2z "i" ++ [2%Z], Some (FINISH_MATCHED_TOKEN 2))].
Definition ex_messages : list (list BatchTokenIDOut) :=
  let a := ex_sent ex_a ex_a_turns in
  let b := ex_sent ex_b ex_b_turns in
  [pick a 0 ++ pick b 0; pick b 1; pick a 1; pick a 2].

(** Every prefix of the outputs is free of Chinese characters. *)
Lemma calm_prefixes p0 o :
  forallb (λ n, bool_decide (no_cjk (byte_level (λ b, [b]) (p0 ++ take n o)))) (seq 0 (S (length o))) = true →
  ∀ n, calm (byte_level (λ b, [b])) p0 (take n o).
Proof.
  intros Hall n. right. rewrite forallb_forall in Hall.
  assert (take n o = take (n `min` length o) o) as ->.
  { destruct (decide (n ≤ length o)); [by rewrite Nat.min_l|]. rewrite Nat.min_r, firstn_all by lia. apply take_ge. lia. }
  eapply bool_decide_eq_true. apply (Hall (n `min` length o)). apply in_seq. lia.
Qed.

Lemma ex_request_ok name prompt turns : turns_ok turns →
  endswith (ex_decode true true (context_of (ex_out name prompt))) REPLACEMENT = false →
  forallb (λ n, bool_decide (no_cjk (byte_level (λ b, [b]) (context_of (ex_out name prompt) ++ take n (outputs turns)))))
    (seq 0 (S (length (outputs turns)))) = true →
  request_ok ex_decode true true (ex_out name prompt) turns.
Proof. intros Hok Hc Hall. split_and!; [by split_and!|exact Hok|done|done|exact Hc|by apply calm_prefixes]. Qed.


(** ** Outside of the hypotheses *)

(** A chunk that ends in the middle of a character after a Chinese one is sent up to there; the
    next ends in the middle of a character after another letter, has no space, and nothing of
    it is printable: [sent_offset] goes back to the start and the Chinese character is sent
    again with the third. *)
Definition ex_c : Outgoing := ex_out (s2z "c") (s2z "?").
Definition ex_c_turns : list (list Z * option FinishReason) :=
  [([0xE4; 0xB8; 0xAD; 0xC3], None); ([0xA9; 0xF0; 0x9F], None); ([0x98; 0x80], Some (FINISH_LENGTH 9))]%Z.

Example cjk_text_repeated :
  (λ outs, outs.1) (event_loop ex_decode 2 ((λ row, [row]) <$> ex_sent ex_c ex_c_turns) []) =
    Ok [[[0x4E2D]]; [[]]; [[0x4E2D; 0xE9; 0x1F600]]]%Z ∧
  new_text_of (ex_decode true true) (context_of ex_c) (outputs ex_c_turns) = [0x4E2D; 0xE9; 0x1F600]%Z.
Proof. vm_compute. done. Qed.

(** A stop token with the number 0 is not trimmed, a stop token 1 is. *)
Example stop_token_zero_stays :
  trim_matched_stop_ids [5; 0]%Z (Some (to_json (FINISH_MATCHED_TOKEN 0))) false = Ok [5; 0]%Z ∧
  trim_matched_stop_ids [5; 1]%Z (Some (to_json (FINISH_MATCHED_TOKEN 1))) false = Ok [5]%Z.
Proof. done. Qed.

(** With room for one request, the second evicts the first. No exception is raised: the next
    chunk of the first is taken for the start of a request, whose first tokens are taken for
    the end of the prompt. *)
Example evicted_request_garbled :
  let d := ex_out (s2z "d") (s2z "Say it") in
  let rows := ex_sent d [(s2z "one ", None); (s2z "two three", Some (FINISH_LENGTH 9))] in
  (λ outs, outs.1) (event_loop ex_decode 1 [pick rows 0; pick (ex_sent ex_b ex_b_turns) 0; pick rows 1] []) =
    Ok [[s2z "one "]; [s2z "h"]; [s2z "hree"]].
Proof. vm_compute. done. Qed.

(** The state of a finished request stays: when its name is used again, the tokens of the new
    request are decoded after the old ones, and the end of the new prompt is sent as text. *)
Example reused_rid_sends_prompt :
  let rows prompt text := ex_sent (ex_out (s2z "r") prompt) [(text, Some (FINISH_LENGTH 9))] in
  (λ outs, outs.1) (event_loop ex_decode 9 [rows (s2z "Hm") (s2z "yes"); rows (s2z "What?") (s2z " no")] []) =
    Ok [[s2z "yes"]; [s2z "What? no"]].
Proof. vm_compute. done. Qed.
